(* ===== verification/_CoqProject ===== *)
-Q . S2P
Prelude.v
RustStr.v
RustText.v
RustPath.v
RustFloat.v
Syntax.v
Lexer.v
LexerProofs.v
Parser.v
Grammar.v
ParserProofs.v
ParserComplete.v
Diagnostic.v
Bytecode.v
BTree.v
Compiler.v
Macro.v
Expander.v
ExpanderProofs.v
Layout.v
CompilerProofs.v
CodeSafety.v
Imports.v
ImportsProofs.v
PackageLocks.v
Value.v
SetMatch.v
ValueEq.v
ValueEqProofs.v
Opaque.v
Json.v
VmState.v
Numeric.v
VmClass.v
VmWords.v
VmMethods.v
Vm.v
VmFrames.v
VmRestore.v
VmProofs.v
VmHost.v
VmMono.v
Semantics.v
SemanticsProofs.v
Approval.v
Formatter.v
Template.v
TemplateProofs.v
TemplateSafety.v
SandboxError.v
SandboxIdentity.v
SandboxCatalog.v
SandboxCatalogProofs.v
SandboxCatalogWf.v
SandboxDestination.v
SandboxPolicy.v
SandboxAudit.v
SandboxAuditProofs.v
SandboxPolicyProofs.v
SandboxMessage.v
SandboxProtocol.v
SandboxProtocolProofs.v
SandboxSession.v
SandboxSessionProofs.v
SandboxFrame.v
Secrets.v
WebRouter.v
WebCoding.v
WebSession.v
WebStatic.v
WebCapabilities.v
ActiveRecord.v
Database.v
ActiveRecordProofs.v
DatabaseProofs.v
Migration.v
MigrationProofs.v
MigrationRun.v
RegistryServer.v
RegistryServerProofs.v
