(* ===== verification/Prelude.v ===== *)
(** * Ricochet, verified

    Ricochet is a postfix language with a bytecode compiler, a virtual machine,
    a web framework and a sandbox for the programs that scripts launch.  This
    library models the crates below as Rocq functions that evaluate, and proves
    what makes them correct.  Paths are relative to [src/crates].

    ** The program and the files that model it

    Source text goes through the lexer, the parser, the macro expander and the
    lowering; a file is compiled after the files it imports and linked with
    them; the chunk that results is run by the machine, within the policies of
    its host.  The web crate routes requests, keeps sessions and databases, and
    renders templates by compiling and running their expressions.  A host that
    launches processes validates a catalog of approved tools and a policy, and
    talks to a broker over authenticated frames.  The command line has a
    language of migrations and a registry of packages.

    - [RustStr], [RustText], [RustFloat], [RustPath], [BTree]: the parts of the
      Rust standard library the code uses (strings as UTF-8 bytes, searching
      and splitting them, [f64], paths and files, [BTreeMap]).  Integers keep
      their width: [i64] is [Z] with [in_i64] tests, addresses are [N].
    - [ricochet_syntax]: [Syntax] (token.rs, ast.rs), [Lexer] (lexer.rs: [lex]
      and one definition per token rule), [Parser] (parser.rs: one definition
      per method of [Parser], over the state [mkParser pos docs]),
      [Diagnostic] (diagnostic.rs), [Formatter] (formatter.rs).
    - [ricochet_bytecode]: [Bytecode] (op.rs, chunk.rs, debug.rs).
    - [ricochet_compiler]: [Macro] (compiler.rs: tables, the evaluator of macro
      bodies, quoting and splicing), [Expander] (resolution, expansion, trace,
      [compile_source]), [Compiler] (the lowering with its back-patching),
      [Imports] (imports.rs: import lines, resolver, linking), [PackageLocks]
      (imports.rs: the lock file and the digests of packages).
    - [ricochet_vm]: [Value] (value.rs, collection.rs, object.rs, result.rs,
      capability.rs: shared mutable collections are cells of a store),
      [SetMatch] and [ValueEq] (equality), [Opaque] (the search for handles),
      [VmState] (errors, classes, the state record [Vm] and its monad),
      [Numeric], [VmClass], [VmWords], [VmMethods] (vm.rs and builtins.rs by
      subject) and [Vm] (dispatch, calls, [run_from], [run_chunk]), [VmHost]
      (runtime_state.rs and builtins.rs: policies for hosts and paths, the
      environment and files), [Json] (the JSON form of values, with
      [ricochet_web]'s value_json.rs), [Approval] (approval_runtime.rs: the
      registry behind its mutex).
    - [ricochet_application] and [ricochet_secrets]: [Secrets] (session.rs,
      opaque.rs, deferred_http.rs, secret_name.rs, host_display_label.rs;
      threads are a step relation whose steps are the atomic parts of the
      operations).
    - [ricochet_web]: [Template] (template.rs: parsing, the escaping contexts,
      rendering over the compiler and the machine), [WebRouter] (router.rs and
      the matching of server.rs), [WebCoding], [WebSession], [WebStatic] and
      [WebCapabilities] (server.rs and manifest.rs: codings of requests,
      session cookies, static files, what a served application may do),
      [ActiveRecord] (active_record.rs: mappings, statements, SQLite),
      [Database] (database_capability.rs: sessions, transactions, savepoints).
    - [ricochet_sandbox]: [SandboxError] (error.rs), [SandboxIdentity]
      (identity.rs, lifecycle.rs), [SandboxCatalog] (catalog.rs),
      [SandboxDestination] (destination.rs), [SandboxPolicy] (policy.rs),
      [SandboxAudit] (audit.rs), [SandboxMessage] and [SandboxProtocol]
      (protocol/message.rs), [SandboxFrame] (protocol/frame.rs),
      [SandboxSession] (backend.rs, mock.rs).
    - [ricochet_cli]: [Migration] (migration_dsl.rs), [MigrationRun] (lib.rs:
      the files of migrations and the commands that run them on SQLite),
      [RegistryServer] (hosted_registry_server.rs, with the checks it calls in
      lib.rs and static_registry.rs).

    A file [XProofs] holds the proofs about [X].

    ** What the theorems show

    - Front end.  [LexerProofs]: every UTF-8 text gives tokens or an error, and
      the tokens cover it.  [Grammar] states the language as relations on token
      lists, and [ParserProofs] and [ParserComplete] show that the parser
      computes exactly that relation and always ends.  [Diagnostic]:
      positions are right, and errors are reported inside the source.
    - Expansion.  [ExpanderProofs]: it ends, leaves no macro, is bounded by its
      limits, and does not touch a module without calls.
    - Lowering.  [Layout] is the specification: a one-pass layout of addresses.
      [CompilerProofs] shows the back-patching compiler produces it,
      [CodeSafety] that its chunks are well formed, also from source text on.
      [Semantics] is a structured interpreter of the syntax tree, and
      [SemanticsProofs] the refinement: the machine, on the compiled chunk,
      does what the interpreter says and conversely.
    - Imports.  [ImportsProofs]: blanking import lines keeps every offset, and
      linking keeps chunks safe.  [ImportsProofs]: every file that is read is
      inside the project; each is linked once, after those it imports.
    - Machine.  [VmFrames]: runs with a budget end (if the host's words do),
      and leave as many scopes as they found, also when they fail.
      [VmMono]: fuel only bounds.  [VmRestore]: a failing word restores the
      stack.  [VmProofs], [VmClass], [Numeric]: variables, class
      chains, numbers.  [ValueEqProofs]: equality is bisimilarity.
      [Json]: a value has a JSON form exactly when it unfolds to a finite
      tree, and decoding is undone by encoding.
    - Hosts.  [VmHost]: what the methods for files change is below the root
      that the host gave, but for two cases with links that are stated
      there.  [Approval]: an approval is used only as the host decided
      it, before it expires and once.  [Secrets]: under every
      interleaving a reference gives the secret it was bound to or nothing, and
      a closed session stays closed.
    - Web.  [TemplateProofs], [TemplateSafety]: what a template inserts stays
      in the text of the page, whatever it holds, and rendering ends.
      [WebSession]: only a session that the server sealed is read back.
      [WebStatic]: a served file is inside the static directory.
      [WebCapabilities]: a manifest only narrows what the operator allows,
      where relative roots do not shift.  [ActiveRecordProofs]: over SQLite,
      every query reads as the statement of its kind.  [DatabaseProofs]:
      sessions refine a model of nested transactions until the engine itself
      rolls one back, and then nothing of it is kept; the method [transaction]
      is all or nothing for blocks that leave its end to it.
    - Sandbox.  [SandboxCatalogProofs], [SandboxCatalogWf],
      [SandboxAuditProofs]: the graph algorithms accept exactly the acyclic
      closed catalogs and projections.  [SandboxPolicyProofs]: policies keep
      their promises, grants only narrow, destinations print and parse.
      [SandboxProtocolProofs], [SandboxFrame]: launches stay within
      the policy, replies are correlated, frames cannot be replayed, dropped or
      altered without forging a MAC (what arrives of an error is without its
      native cause, which is not sent).  [SandboxSessionProofs]: the audit trail
      tells every start and end, a revoked tool and what may start it never
      run again, failed operations change nothing, and every answer passes the
      checks of the protocol.
    - Command line.  [MigrationProofs]: a migration reads, in the database it
      is for, as the statements it declares, if its types hold no mark that
      begins a comment or a quotation there.  [MigrationRun]: runs that stop
      and are started again, and packaged programs that overlap, apply every
      migration once and in order, if the migrations leave their transactions
      and the table of versions alone; a rollback undoes the latest.
      [RegistryServerProofs]: what the registry lists is on its disk with the
      listed digest, after failed and half-done writes, interleaved requests
      and restarts; published versions stay while the registry runs, and their
      files over restarts; only publishers change their packages; a request
      repeated at once gets its first response.

    ** Conventions

    Rust's [Result] is [res], with [Panic] for every slice, index, [expect] or
    overflow that would abort; errors are the source's enums, and their texts
    are kept as [msg], the pieces of a format string.  Code that takes
    [&mut self] and gives up at an error is in the monad [stm]; where the
    state survives an error, code is in [smethod] (with the triples [runs] and
    [wp] below); the machine is in [VM] of [VmState].  [slice::sort_by] is
    [sort_by], for every order.

    Loops that are not structural take fuel.  Where the source bounds them the
    fuel is computed and shown to be enough: the lexer's and the parser's by
    the length of the input ([lex_total], [parse_fuel] with
    [parse_module_total]), equality and the search for handles by the pairs and
    the depth of the store ([equal_fuel]), the graph traversals by the edges
    ([visit_fuel], [select_fuel], one per tool in [kahn_loop]), the tokens of
    routes by the text, the closure of a revoked tool by the edges between
    tools, the pruning of records by their number.  The expander
    counts the levels that are left below its limit of 32.  The resolver of
    imports and the digest of a directory take how deep files import each other
    and directories nest.  The machine may
    run for ever: [run_from] takes its fuel from the caller,
    [run_chunk_terminates] gives the amount for a machine with a budget and
    [run_from_fuel] shows more never matters.  A template is parsed in at most
    as many rounds as it has bytes, and its expressions run on the source's
    limit of 10,000 instructions.

    Code outside the repository is an interface, a class whose instance the
    caller chooses and whose documented laws are a second class: [Sha256],
    [Hmac], [SessionCrypto]; [Idna], [UrlParser]; [EnvelopeJson], [SerdeJson],
    [TomlParser], [TomlEdit], [RegistryFormat], [Semver]; [FileSystem],
    [PathExists], [IoErrors], [FsOutcomes], [TempDirs], [ArchiveReader] and
    [Environment] for the operating system; [Connection], [SqlEngine],
    [DatabaseBackend] and [MigrationSqlite] for databases, whose engines may
    roll a transaction back at an error, and whose scripts may end it; and the host traits of the source (path
    normalizer, workspace resolver, audit digest).  Words and methods of the
    machine that reach the host other than through [VmHost] (HTTP, processes,
    terminals, windows, time, JSON text, regular expressions) are the
    parameters [host_word] and [host_method] of [Vm].

    ** Not modelled

    Encodings derived by serde and texts derived by [Debug]; the debugger of
    the machine and its images; the runtimes of processes, sockets, terminals,
    workspaces and streams (operating system); the handlers of requests,
    controllers, uploads and revisions of the web server, which are glue over
    tokio and axum around the parts above; the asynchronous databases for
    PostgreSQL and MySQL, with the migrations on them; the listener of the
    registry, its clients and static registries; dynamic modules; the rest of
    the command line and the language server (file system, child processes,
    JSON-RPC); the conformance suite of sandbox backends. *)

From Stdlib Require Export ZArith NArith Lia.
From Stdlib Require Import Sorted.
From stdpp Require Export base tactics list strings option numbers.

(** ** Outcomes of Rust code

    [Ok] and [Err] are the constructors of [Result]; [Panic] is a Rust panic
    (an index out of bounds, a slice off a character boundary, an [expect]
    that fails); [OutOfFuel] is not a behaviour of the program but of the
    fuel-indexed definitions that model its loops: the termination theorems
    show that it is never produced by the fuel the entry points supply. *)
Inductive res (E A : Type) : Type :=
  | Ok (a : A)
  | Err (e : E)
  | Panic
  | OutOfFuel.

Arguments Ok {E A} a.
Arguments Err {E A} e.
Arguments Panic {E A}.
Arguments OutOfFuel {E A}.

(** Rust's [?] operator. *)
Definition rbind {E A B : Type} (m : res E A) (k : A -> res E B) : res E B :=
  match m with
  | Ok a => k a
  | Err e => Err e
  | Panic => Panic
  | OutOfFuel => OutOfFuel
  end.

Definition rmap_err {E F A : Type} (f : E -> F) (m : res E A) : res F A :=
  match m with
  | Ok a => Ok a
  | Err e => Err (f e)
  | Panic => Panic
  | OutOfFuel => OutOfFuel
  end.

(** [l[i]] on a slice or a [Vec]: panics out of bounds. *)
Definition index {E A : Type} (l : list A) (i : nat) : res E A :=
  match l !! i with
  | Some a => Ok a
  | None => Panic
  end.

Declare Scope rust_scope.
Delimit Scope rust_scope with rust.
Open Scope rust_scope.

Notation "'let?' x := m 'in' k" := (rbind m (fun x => k))
  (at level 10, x pattern, m at level 100, k at level 200) : rust_scope.

(** ** Stateful, fallible code

    A method taking [&mut self] and returning [Result<A, E>], for callers
    that give the whole computation up at the first error: the state after an
    error is not observable and is dropped. *)
Definition stm (S E A : Type) : Type := S -> res E (A * S).

Definition sret {S E A : Type} (a : A) : stm S E A := fun s => Ok (a, s).

Definition sbind {S E A B : Type} (m : stm S E A) (k : A -> stm S E B) : stm S E B :=
  fun s => match m s with
           | Ok (a, s') => k a s'
           | Err e => Err e
           | Panic => Panic
           | OutOfFuel => OutOfFuel
           end.

Definition sfail {S E A : Type} (e : E) : stm S E A := fun _ => Err e.
Definition sget {S E : Type} : stm S E S := fun s => Ok (s, s).
Definition sput {S E : Type} (s : S) : stm S E unit := fun _ => Ok (tt, s).
Definition smodify {S E : Type} (f : S -> S) : stm S E unit := fun s => Ok (tt, f s).
Definition slift {S E A : Type} (m : res E A) : stm S E A :=
  fun s => match m with
           | Ok a => Ok (a, s)
           | Err e => Err e
           | Panic => Panic
           | OutOfFuel => OutOfFuel
           end.
Definition sfuel {S E A : Type} : stm S E A := fun _ => OutOfFuel.

Notation "'let*' x := m 'in' k" := (sbind m (fun x => k))
  (at level 10, x pattern, m at level 100, k at level 200) : rust_scope.
Notation "m ;; k" := (sbind m (fun _ => k))
  (at level 100, k at level 200, right associativity) : rust_scope.

(** A method whose caller looks at the state after an error too: the result
    comes with the state it leaves. *)
Definition smethod (S E A : Type) : Type := S -> res E A * S.

Definition mok {S E A : Type} (a : A) : smethod S E A := fun s => (Ok a, s).
Definition mtry {S E A : Type} (r : res E A) : smethod S E A := fun s => (r, s).
Definition mself {S E : Type} : smethod S E S := fun s => (Ok s, s).
Definition mset {S E : Type} (f : S -> S) : smethod S E unit := fun s => (Ok tt, f s).
Definition mthen {S E A B : Type} (m : smethod S E A) (k : A -> smethod S E B) : smethod S E B := fun s =>
  match m s with
  | (Ok a, s) => k a s
  | (Err e, s) => (Err e, s)
  | (Panic, s) => (Panic, s)
  | (OutOfFuel, s) => (OutOfFuel, s)
  end.

Notation "'let^' x := m 'in' k" := (mthen m (fun x => k))
  (at level 10, x pattern, m at level 100, k at level 200) : rust_scope.

(** ** A weakest precondition for stateful code

    [wp m s Q R]: run from [s], [m] neither panics nor runs out of fuel, its
    result and final state satisfy [Q], and the error it may stop with
    satisfies [R]. *)
Definition wp {S E A : Type} (m : stm S E A) (s : S)
    (Q : A -> S -> Prop) (R : E -> Prop) : Prop :=
  match m s with
  | Ok (a, s') => Q a s'
  | Err e => R e
  | Panic => False
  | OutOfFuel => False
  end.

(** The elements of [l] at the positions from [a] up to [b]. *)
Definition sub {A : Type} (l : list A) (a b : nat) : list A := take (b - a) (drop a l).

(** [usize] and [i64] bounds of the 64-bit targets. *)
Definition usize_max : N := 18446744073709551615%N.
Definition i64_min : Z := (-9223372036854775808)%Z.
Definition i64_max : Z := 9223372036854775807%Z.
Definition in_i64 (z : Z) : bool := (i64_min <=? z)%Z && (z <=? i64_max)%Z.

(** [usize::saturating_add] on positions, which are kept in [nat]. *)
Definition saturating_add (a b : nat) : nat :=
  if (N.of_nat a + N.of_nat b <=? usize_max)%N then a + b else N.to_nat usize_max.

(** Loops of the form [while let Some(i') = step(i) { i = i' }]. *)
Fixpoint scan {E : Type} (fuel : nat) (step : nat -> option nat) (i : nat) : res E nat :=
  match fuel with
  | O => OutOfFuel
  | S fuel' => match step i with
               | Some i' => scan fuel' step i'
               | None => Ok i
               end
  end.

(** ** Lemmas *)

Section wp_rules.
Context {S E A B : Type}.
Implicit Types (s : S) (R : E -> Prop).

Lemma wp_ret (a : A) s (Q : A -> S -> Prop) R : Q a s -> wp (sret a) s Q R.
Proof. done. Qed.

Lemma wp_bind (m : stm S E A) (k : A -> stm S E B) s Q R :
  wp m s (fun a s' => wp (k a) s' Q R) R -> wp (sbind m k) s Q R.
Proof. unfold wp, sbind. by destruct (m s) as [[a s']| | |]. Qed.

Lemma wp_mono (m : stm S E A) s (Q Q' : A -> S -> Prop) R (R' : E -> Prop) :
  wp m s Q R -> (forall a s', Q a s' -> Q' a s') -> (forall e, R e -> R' e) -> wp m s Q' R'.
Proof. unfold wp. destruct (m s) as [[a s']| | |]; naive_solver. Qed.

Lemma wp_fail e s (Q : A -> S -> Prop) R : R e -> wp (sfail e) s Q R.
Proof. done. Qed.

Lemma wp_get s (Q : S -> S -> Prop) R : Q s s -> wp sget s Q R.
Proof. done. Qed.

Lemma wp_modify (f : S -> S) s (Q : unit -> S -> Prop) R : Q tt (f s) -> wp (smodify f) s Q R.
Proof. done. Qed.
End wp_rules.

Lemma sbind_Ok {S E A B : Type} (m : stm S E A) (k : A -> stm S E B) s b s' :
  sbind m k s = Ok (b, s') <-> exists a s1, m s = Ok (a, s1) /\ k a s1 = Ok (b, s').
Proof. unfold sbind. destruct (m s) as [[a s1]| | |]; naive_solver. Qed.

Lemma sbind_run {S E A B : Type} (m : stm S E A) (k : A -> stm S E B) s a s' :
  m s = Ok (a, s') -> sbind m k s = k a s'.
Proof. unfold sbind. by intros ->. Qed.

Lemma sbind_err {S E A B : Type} (m : stm S E A) (k : A -> stm S E B) s e :
  m s = Err e -> sbind m k s = Err e.
Proof. unfold sbind. by intros ->. Qed.

Lemma sbind_get {S E B : Type} (k : S -> stm S E B) s : sbind sget k s = k s s.
Proof. done. Qed.

Lemma rbind_Ok {E A B : Type} (m : res E A) (k : A -> res E B) b :
  rbind m k = Ok b <-> exists a, m = Ok a /\ k a = Ok b.
Proof. destruct m; naive_solver. Qed.

Lemma index_Ok {E A : Type} (l : list A) i (a : A) :
  index (E:=E) l i = Ok a <-> l !! i = Some a.
Proof. unfold index. destruct (l !! i); naive_solver. Qed.

Lemma index_lt {E A : Type} (l : list A) i :
  i < length l -> exists a, index (E:=E) l i = Ok a /\ l !! i = Some a.
Proof.
  intros H. destruct (lookup_lt_is_Some_2 l i H) as [a Ha]. exists a.
  by rewrite index_Ok.
Qed.

(** A [scan] whose step moves forward and stops at [n] returns, with fuel for
    the distance left. *)
Lemma scan_total {E : Type} (step : nat -> option nat) (n : nat) :
  (forall i i', step i = Some i' -> i < n /\ i < i') ->
  forall fuel i, n - i < fuel -> exists j, scan (E:=E) fuel step i = Ok j /\ i <= j /\ step j = None.
Proof.
  intros Hstep fuel. induction fuel as [|fuel IH]; intros i Hf; [lia|]. simpl.
  destruct (step i) as [i'|] eqn:Hi; [|by exists i].
  destruct (Hstep _ _ Hi). destruct (IH i') as (j & -> & ? & ?); [lia|].
  exists j. repeat split; auto; lia.
Qed.

(** Invariants of a [scan]. *)
Lemma scan_inv {E : Type} (step : nat -> option nat) (P : nat -> Prop) :
  (forall i i', P i -> step i = Some i' -> P i') ->
  forall fuel i j, P i -> scan (E:=E) fuel step i = Ok j -> P j.
Proof.
  intros Hstep fuel. induction fuel as [|fuel IH]; intros i j HP; simpl; [done|].
  destruct (step i) as [i'|] eqn:Hi; [eauto|]. by intros [= <-].
Qed.

Lemma scan_no_err {E : Type} (step : nat -> option nat) fuel i :
  match scan (E:=E) fuel step i with Ok _ | OutOfFuel => True | _ => False end.
Proof.
  revert i. induction fuel as [|fuel IH]; intros i; simpl; [done|].
  destruct (step i); [apply IH | done].
Qed.

Lemma saturating_add_le (a b : nat) :
  (N.of_nat a + N.of_nat b <= usize_max)%N -> saturating_add a b = a + b.
Proof. intros H. unfold saturating_add. by rewrite (proj2 (N.leb_le _ _) H). Qed.

(** ** Segments of a list *)

Section sub.
Context {A : Type}.
Implicit Types (l : list A) (c : A).

Lemma sub_length l a b : b <= length l -> length (sub l a b) = b - a.
Proof. intros. unfold sub. rewrite length_take, length_drop. lia. Qed.

Lemma sub_lookup l a b i : i < b - a -> sub l a b !! i = l !! (a + i).
Proof. intros. unfold sub. rewrite lookup_take_lt by lia. apply lookup_drop. Qed.

Lemma sub_empty l a : sub l a a = [].
Proof. unfold sub. by rewrite Nat.sub_diag. Qed.

Lemma sub_cons l a b c : a < b -> l !! a = Some c -> sub l a b = c :: sub l (S a) b.
Proof.
  intros Hab Hc. unfold sub. rewrite (drop_S _ c) by done.
  replace (b - a) with (S (b - S a)) by lia. done.
Qed.

Lemma sub_snoc l a b c : a <= b -> l !! b = Some c -> sub l a (S b) = sub l a b ++ [c].
Proof.
  intros Hab Hc. unfold sub. replace (S b - a) with (S (b - a)) by lia.
  apply take_S_r. rewrite lookup_drop. by replace (a + (b - a)) with b by lia.
Qed.

Lemma sub_app l a b (c : nat) : a <= b -> b <= c -> sub l a c = sub l a b ++ sub l b c.
Proof.
  intros H1 H2. unfold sub.
  replace (drop b l) with (drop (b - a) (drop a l))
    by (rewrite drop_drop; f_equal; lia).
  rewrite <- (take_drop (b - a) (take (c - a) (drop a l))).
  rewrite take_take, Nat.min_l by lia. f_equal.
  rewrite (take_drop_commute (drop a l)). by replace (b - a + (c - b)) with (c - a) by lia.
Qed.

Lemma sub_Forall l a b (P : A -> Prop) :
  b <= length l ->
  (forall i c, a <= i < b -> l !! i = Some c -> P c) -> Forall P (sub l a b).
Proof.
  intros Hb H. apply Forall_lookup_2. intros i c Hi.
  assert (i < b - a) by (apply lookup_lt_Some in Hi; rewrite sub_length in Hi; lia).
  rewrite sub_lookup in Hi by done. eapply H; [|done]. lia.
Qed.

Lemma sub_one l a c : l !! a = Some c -> sub l a (S a) = [c].
Proof. intros H. rewrite (sub_cons _ _ _ c) by (done || lia). by rewrite sub_empty. Qed.
End sub.

(** ** Elements not yet marked *)

Section left_out.
Context {A : Type} `{EqDecision A}.
Implicit Types (U V : list A).

(** The elements of [U] that are not in [V]. *)
Definition left_out U V : list A := filter (.∉ V) U.

Lemma left_out_mono U V V' : V ⊆ V' -> length (left_out U V') <= length (left_out U V).
Proof.
  intros HV. unfold left_out. induction U as [|y U IH]; [done|]. rewrite !filter_cons.
  repeat case_decide; simpl; try lia. exfalso. auto.
Qed.

Lemma left_out_cons U V x : x ∈ U -> x ∉ V -> S (length (left_out U (x :: V))) <= length (left_out U V).
Proof.
  intros Hin Hx. assert (V ⊆ x :: V) as HV by (intros y Hy; by right).
  unfold left_out. induction U as [|w U IH]; [by apply elem_of_nil in Hin|].
  rewrite !filter_cons. apply elem_of_cons in Hin as [<-|Hin].
  - rewrite decide_False by (intros H; apply H; left). rewrite decide_True by done. simpl.
    apply le_n_S. by apply left_out_mono.
  - specialize (IH Hin). repeat case_decide; simpl; try lia. exfalso. auto.
Qed.
End left_out.

(** ** Sorting

    [slice::sort_by], which is stable. *)

Section sort.
Context {A : Type} (compare : A -> A -> comparison).

Fixpoint sort_insert (x : A) (l : list A) : list A :=
  match l with
  | [] => [x]
  | y :: l' => match compare x y with Gt => y :: sort_insert x l' | _ => x :: l end
  end.

Definition sort_by (l : list A) : list A := foldr sort_insert [] l.

Definition in_order (a b : A) : Prop := compare a b <> Gt.

Lemma sort_insert_perm x l : sort_insert x l ≡ₚ x :: l.
Proof.
  induction l as [|y l IH]; simpl; [done|]. destruct (compare x y); [done|done|].
  rewrite IH. apply Permutation_swap.
Qed.

Lemma sort_by_perm l : sort_by l ≡ₚ l.
Proof. induction l as [|x l IH]; simpl; [done|]. by rewrite sort_insert_perm, IH. Qed.

Hypothesis compare_flip : forall a b, compare a b = Gt -> compare b a <> Gt.

Lemma sort_insert_sorted x l : Sorted in_order l -> Sorted in_order (sort_insert x l).
Proof.
  induction l as [|y l IH]; simpl; intros Hs; [repeat constructor|].
  destruct (compare x y) eqn:E; [constructor; [done|constructor; unfold in_order; congruence]..|].
  apply Sorted_inv in Hs as [Hs Hy]. constructor; [by apply IH|].
  destruct l as [|z l]; simpl; [constructor; by apply compare_flip|].
  inversion Hy. destruct (compare x z); constructor; try done; by apply compare_flip.
Qed.

Lemma sort_by_sorted l : Sorted in_order (sort_by l).
Proof. induction l as [|x l IH]; [constructor|]. by apply sort_insert_sorted. Qed.
End sort.

(** ** Results that never stop *)

Definition settles {E A : Type} (r : res E A) (P : A -> Prop) : Prop :=
  match r with Ok a => P a | Err _ => True | Panic | OutOfFuel => False end.

Lemma settles_bind {E A B : Type} (r : res E A) (k : A -> res E B) P :
  settles r (fun a => settles (k a) P) -> settles (rbind r k) P.
Proof. by destruct r. Qed.

Lemma settles_mono {E A : Type} (r : res E A) (P Q : A -> Prop) : (forall a, P a -> Q a) -> settles r P -> settles r Q.
Proof. destruct r; simpl; auto. Qed.

(** [runs s0 m s Q]: from [s], the method [m] neither panics nor runs out of
    fuel; what it returns satisfies [Q], and when it fails the state is [s0]. *)
Definition runs {S E A : Type} (s0 : S) (m : smethod S E A) (s : S) (Q : A -> S -> Prop) : Prop :=
  match m s with
  | (Ok a, s') => Q a s'
  | (Err _, s') => s' = s0
  | _ => False
  end.

Section runs.
Context {S E : Type}.
Implicit Types (s : S).

Lemma runs_then {A B : Type} s0 (m : smethod S E A) (k : A -> smethod S E B) s Q :
  runs s0 m s (fun a s1 => runs s0 (k a) s1 Q) -> runs s0 (mthen m k) s Q.
Proof. unfold runs, mthen. by destruct (m s) as [[] s1]. Qed.

Lemma runs_try {A : Type} (r : res E A) s (Q : A -> S -> Prop) : settles r (fun a => Q a s) -> runs s (mtry r) s Q.
Proof. by destruct r. Qed.

Lemma runs_pure {A : Type} s0 s (r : res E A) (Q : A -> S -> Prop) a : r = Ok a -> Q a s -> runs s0 (mtry r) s Q.
Proof. by intros ->. Qed.

Lemma runs_mono {A : Type} s0 (m : smethod S E A) s (P Q : A -> S -> Prop) :
  (forall a s', P a s' -> Q a s') -> runs s0 m s P -> runs s0 m s Q.
Proof. unfold runs. intros H. destruct (m s) as [[] s1]; auto. Qed.
End runs.

(** ** Automation *)

(** Split the hypotheses that say that a computation returned. *)
Ltac inv_ok :=
  repeat match goal with
  | H : rbind _ _ = Ok _ |- _ => apply rbind_Ok in H as (? & ? & H)
  | H : sbind _ _ _ = Ok _ |- _ => apply sbind_Ok in H as (? & ? & ? & H)
  | H : sret _ _ = Ok _ |- _ => injection H as ? ?; subst
  | H : index _ _ = Ok _ |- _ => apply index_Ok in H
  | H : Ok _ = Ok _ |- _ => injection H as ?; subst
  | H : Ok _ = Err _ |- _ => discriminate H
  | H : Err _ = Ok _ |- _ => discriminate H
  | H : Panic = Ok _ |- _ => discriminate H
  | H : OutOfFuel = Ok _ |- _ => discriminate H
  end.

(** Step over a computation that settles. *)
Ltac through H := apply settles_bind; eapply settles_mono; [|H].

Create HintDb ricochet.
#[export] Hint Resolve wp_ret wp_fail wp_get wp_modify : ricochet.
