(* ===== verification/RustStr.v ===== *)
(** * Strings of the Rust standard library

    A [&str] is its byte sequence: a [string] whose bytes are valid UTF-8.
    [char] is a Unicode scalar value, kept as [N].  What the sources use of
    [str], [char] and [i64]'s decimal conversions is defined here; slicing
    off a character boundary panics, as it does in Rust. *)

From stdpp Require Import base tactics list strings option numbers.
From Stdlib Require Import ZArith NArith Lia Ascii String.
From S2P Require Import Prelude.

Open Scope string_scope.
Open Scope list_scope.
Open Scope nat_scope.

Abbreviation byte := ascii.
Abbreviation char := N.

Definition as_bytes (s : string) : list byte := list_ascii_of_string s.
Definition from_bytes (l : list byte) : string := string_of_list_ascii l.

(** [s.len()]: the length in bytes. *)
Definition str_len (s : string) : nat := String.length s.

Definition byte_val (b : byte) : N := N_of_ascii b.

Definition byte_between (lo hi : N) (b : byte) : bool :=
  ((lo <=? byte_val b) && (byte_val b <=? hi))%N.

(** [u8::is_ascii_digit], on a byte or a byte read as a [char]. *)
Definition is_ascii_digit (b : byte) : bool := byte_between 48 57 b.
Definition is_ascii_lowercase (b : byte) : bool := byte_between 97 122 b.
Definition is_ascii_uppercase (b : byte) : bool := byte_between 65 90 b.
Definition is_ascii_alphanumeric (b : byte) : bool :=
  is_ascii_digit b || is_ascii_lowercase b || is_ascii_uppercase b.

Definition byte_eqb (a b : byte) : bool := Ascii.eqb a b.

(** A UTF-8 continuation byte, [0x80..=0xBF]. *)
Definition is_cont (b : byte) : bool := byte_between 128 191 b.

(** [str::is_char_boundary]. *)
Definition is_char_boundary (l : list byte) (i : nat) : bool :=
  if i =? 0 then true
  else if i =? length l then true
  else match l !! i with
       | Some b => negb (is_cont b)
       | None => false
       end.

(** [&s[a..b]]. *)
Definition slice {E : Type} (l : list byte) (a b : nat) : res E string :=
  if (a <=? b) && (b <=? length l) && is_char_boundary l a && is_char_boundary l b
  then Ok (from_bytes (take (b - a) (drop a l)))
  else Panic.

(** ** Characters *)

Definition cont_val (b : byte) : N := (byte_val b - 128)%N.

Definition cp2 (b0 b1 : byte) : char := ((byte_val b0 - 192) * 64 + cont_val b1)%N.
Definition cp3 (b0 b1 b2 : byte) : char :=
  ((byte_val b0 - 224) * 4096 + cont_val b1 * 64 + cont_val b2)%N.
Definition cp4 (b0 b1 b2 b3 : byte) : char :=
  ((byte_val b0 - 240) * 262144 + cont_val b1 * 4096 + cont_val b2 * 64 + cont_val b3)%N.

(** The well-formed UTF-8 sequences: shortest form only, no surrogates,
    nothing above [U+10FFFF]. *)
Definition ok2 (b0 b1 : byte) : bool := byte_between 194 223 b0 && is_cont b1.
Definition ok3 (b0 b1 b2 : byte) : bool :=
  byte_between 224 239 b0 && is_cont b1 && is_cont b2
  && ((2048 <=? cp3 b0 b1 b2) && negb ((55296 <=? cp3 b0 b1 b2) && (cp3 b0 b1 b2 <=? 57343)))%N.
Definition ok4 (b0 b1 b2 b3 : byte) : bool :=
  byte_between 240 244 b0 && is_cont b1 && is_cont b2 && is_cont b3
  && ((65536 <=? cp4 b0 b1 b2 b3) && (cp4 b0 b1 b2 b3 <=? 1114111))%N.

(** [s.chars()], [None] when the bytes are not UTF-8. *)
Fixpoint utf8_chars (l : list byte) : option (list char) :=
  match l with
  | [] => Some []
  | b0 :: l1 =>
      if (byte_val b0 <? 128)%N then cons (byte_val b0) <$> utf8_chars l1
      else match l1 with
      | [] => None
      | b1 :: l2 =>
          if ok2 b0 b1 then cons (cp2 b0 b1) <$> utf8_chars l2
          else match l2 with
          | [] => None
          | b2 :: l3 =>
              if ok3 b0 b1 b2 then cons (cp3 b0 b1 b2) <$> utf8_chars l3
              else match l3 with
              | [] => None
              | b3 :: l4 =>
                  if ok4 b0 b1 b2 b3 then cons (cp4 b0 b1 b2 b3) <$> utf8_chars l4
                  else None
              end
          end
      end
  end.

Definition utf8 (l : list byte) : Prop := is_Some (utf8_chars l).

(** A Unicode scalar value: what a Rust [char] holds. *)
Definition scalar (c : char) : Prop := (c < 55296 \/ (57344 <= c /\ c <= 1114111))%N.

(** [char::encode_utf8]. *)
Definition encode_char (c : char) : list byte :=
  (if c <? 128 then [ascii_of_N c]
   else if c <? 2048 then [ascii_of_N (192 + c / 64); ascii_of_N (128 + c mod 64)]
   else if c <? 65536 then
     [ascii_of_N (224 + c / 4096); ascii_of_N (128 + (c / 64) mod 64); ascii_of_N (128 + c mod 64)]
   else
     [ascii_of_N (240 + c / 262144); ascii_of_N (128 + (c / 4096) mod 64);
      ascii_of_N (128 + (c / 64) mod 64); ascii_of_N (128 + c mod 64)])%N.

(** [String::from_iter] on characters. *)
Definition encode (cs : list char) : list byte := concat (encode_char <$> cs).

(** [char::len_utf8] and [char::len_utf16]. *)
Definition len_utf8 (c : char) : nat :=
  if (c <? 128)%N then 1 else if (c <? 2048)%N then 2 else if (c <? 65536)%N then 3 else 4.
Definition len_utf16 (c : char) : nat := if (c <? 65536)%N then 1 else 2.

(** The characters of a [&str]; a byte sequence that is not UTF-8 is no [&str]. *)
Definition chars {E : Type} (s : string) : res E (list char) :=
  match utf8_chars (as_bytes s) with
  | Some cs => Ok cs
  | None => Panic
  end.

(** [s.char_indices()]. *)
Fixpoint char_indices_from (i : nat) (cs : list char) : list (nat * char) :=
  match cs with
  | [] => []
  | c :: cs' => (i, c) :: char_indices_from (i + len_utf8 c) cs'
  end.

(** [char::is_control]: the general category Cc. *)
Definition is_control (c : char) : bool := ((c <? 32) || (127 <=? c) && (c <=? 159))%N.

(** [char::is_whitespace]: the Unicode property [White_Space]. *)
Definition is_whitespace (c : char) : bool :=
  ((9 <=? c) && (c <=? 13) || (c =? 32) || (c =? 133) || (c =? 160) || (c =? 5760)
   || (8192 <=? c) && (c <=? 8202) || (c =? 8232) || (c =? 8233) || (c =? 8239)
   || (c =? 8287) || (c =? 12288))%N.

Fixpoint drop_while (p : char -> bool) (cs : list char) : list char :=
  match cs with
  | [] => []
  | c :: cs' => if p c then drop_while p cs' else cs
  end.

Lemma drop_while_head p l c rest : drop_while p l = c :: rest -> p c = false.
Proof. induction l as [|d l IH]; simpl; [done|]. destruct (p d) eqn:E; [done|]. by intros [= <- _]. Qed.

Definition trim_start_chars (cs : list char) : list char := drop_while is_whitespace cs.
Definition trim_end_chars (cs : list char) : list char := reverse (drop_while is_whitespace (reverse cs)).

(** [s.trim()]. *)
Definition trim {E : Type} (s : string) : res E string :=
  let? cs := chars s in Ok (from_bytes (encode (trim_end_chars (trim_start_chars cs)))).

(** [u64::to_le_bytes] *)
Fixpoint le_bytes (count : nat) (n : N) : list byte :=
  match count with
  | O => []
  | S count' => ascii_of_N (n mod 256)%N :: le_bytes count' (n / 256)%N
  end.

(** [s.starts_with(prefix)] and [s.strip_prefix(prefix)]. *)
Fixpoint starts_with (prefix s : string) : bool :=
  match prefix, s with
  | EmptyString, _ => true
  | String a p, String b s' => Ascii.eqb a b && starts_with p s'
  | String _ _, EmptyString => false
  end.

Definition strip_prefix (prefix s : string) : option string :=
  if starts_with prefix s
  then Some (substring (String.length prefix) (String.length s - String.length prefix) s)
  else None.

(** [s.contains(c)] for an ASCII character. *)
Definition contains_byte (b : byte) (s : string) : bool := existsb (Ascii.eqb b) (as_bytes s).

(** [value.rsplit_once(b)]: the parts before and after the last [b]. *)
Fixpoint rsplit_once (b : byte) (l : list byte) : option (list byte * list byte) :=
  match l with
  | [] => None
  | c :: l' =>
      match rsplit_once b l' with
      | Some (before, after) => Some (c :: before, after)
      | None => if Ascii.eqb c b then Some ([], l') else None
      end
  end.

(** ** Decimal integers *)

Definition digit_val (b : byte) : N := (byte_val b - 48)%N.
Definition digit_byte (d : N) : byte := ascii_of_N (48 + d).

Definition digits_val (ds : list byte) : N := foldl (fun acc d => (10 * acc + digit_val d)%N) 0%N ds.

(** [s.parse::<i64>()]: an optional sign, at least one digit, in range. *)
Definition parse_i64 (s : string) : option Z :=
  let '(neg, ds) :=
    match as_bytes s with
    | b :: l => if Ascii.eqb b "-" then (true, l) else if Ascii.eqb b "+" then (false, l) else (false, b :: l)
    | [] => (false, [])
    end in
  if negb (length ds =? 0) && forallb is_ascii_digit ds then
    let z := (if neg then - Z.of_N (digits_val ds) else Z.of_N (digits_val ds))%Z in
    if in_i64 z then Some z else None
  else None.

Fixpoint show_digits (fuel : nat) (n : N) : list byte :=
  match fuel with
  | O => []
  | S fuel' => if (n <? 10)%N then [digit_byte n]
               else show_digits fuel' (n / 10)%N ++ [digit_byte (n mod 10)]
  end.

Definition show_N_bytes (n : N) : list byte := show_digits (S (N.size_nat n)) n.

(** [to_string()] on unsigned and on signed integers. *)
Definition show_N (n : N) : string := from_bytes (show_N_bytes n).
Definition show_Z (z : Z) : string :=
  from_bytes (if (z <? 0)%Z then "-"%char :: show_N_bytes (Z.to_N (- z)) else show_N_bytes (Z.to_N z)).

(** ** Formatted messages

    [format!] with its arguments left unrendered, as [fmt::Arguments] holds
    them: a literal piece, a [{}] argument or a [{:?}] argument. *)
Inductive piece : Type :=
  | Lit (s : string)
  | Disp (s : string)
  | Dbg (s : string)
  | DispN (n : N)
  | DispChar (c : char).

Definition msg : Type := list piece.

(** ** The encoding of one character

    The shape the boundary lemmas need: a first byte that is no continuation
    byte, continuation bytes after it, and none after an ASCII byte. *)
Definition char_enc (e : list byte) : Prop :=
  match e with
  | [] => False
  | b :: r => is_cont b = false /\ Forall (fun b' => is_cont b' = true) r
              /\ ((byte_val b < 128)%N -> r = [])
  end.

Lemma as_from_bytes l : as_bytes (from_bytes l) = l.
Proof. apply list_ascii_of_string_of_list_ascii. Qed.

Lemma from_as_bytes s : from_bytes (as_bytes s) = s.
Proof. apply string_of_list_ascii_of_string. Qed.

Lemma byte_val_lt (b : byte) : (byte_val b < 256)%N.
Proof. apply N_ascii_bounded. Qed.

Lemma byte_between_spec lo hi b :
  byte_between lo hi b = true <-> (lo <= byte_val b /\ byte_val b <= hi)%N.
Proof. unfold byte_between. rewrite andb_true_iff, !N.leb_le. done. Qed.

Lemma byte_between_false lo hi b :
  byte_between lo hi b = false <-> ~ (lo <= byte_val b /\ byte_val b <= hi)%N.
Proof. rewrite <- byte_between_spec. by destruct (byte_between lo hi b). Qed.

Lemma byte_of_val (b : byte) (n : N) : n = byte_val b -> ascii_of_N n = b.
Proof. intros ->. apply ascii_N_embedding. Qed.

Lemma byte_val_of (n : N) : (n < 256)%N -> byte_val (ascii_of_N n) = n.
Proof. apply N_ascii_embedding. Qed.

#[local] Ltac Zify.zify_post_hook ::= Z.to_euclidean_division_equations.

Lemma encode_cp2 b0 b1 : ok2 b0 b1 = true -> encode_char (cp2 b0 b1) = [b0; b1].
Proof.
  unfold ok2, is_cont. rewrite andb_true_iff, !byte_between_spec. intros [H0 H1].
  unfold encode_char, cp2, cont_val.
  rewrite (proj2 (N.ltb_ge _ _)) by lia. rewrite (proj2 (N.ltb_lt _ _)) by lia.
  f_equal; [|f_equal]; apply byte_of_val; lia.
Qed.

Lemma encode_cp3 b0 b1 b2 : ok3 b0 b1 b2 = true -> encode_char (cp3 b0 b1 b2) = [b0; b1; b2].
Proof.
  unfold ok3, is_cont. rewrite !andb_true_iff, !byte_between_spec, N.leb_le.
  intros [[[H0 H1] H2] [H3 _]]. unfold encode_char. unfold cp3, cont_val in *.
  rewrite (proj2 (N.ltb_ge _ _)) by lia. rewrite (proj2 (N.ltb_ge _ _)) by lia.
  rewrite (proj2 (N.ltb_lt _ _)) by lia.
  f_equal; [|f_equal; [|f_equal]]; apply byte_of_val; lia.
Qed.

Lemma encode_cp4 b0 b1 b2 b3 :
  ok4 b0 b1 b2 b3 = true -> encode_char (cp4 b0 b1 b2 b3) = [b0; b1; b2; b3].
Proof.
  unfold ok4, is_cont. rewrite !andb_true_iff, !byte_between_spec, !N.leb_le.
  intros [[[[H0 H1] H2] H3] [H4 H5]]. unfold encode_char. unfold cp4, cont_val in *.
  rewrite (proj2 (N.ltb_ge _ _)) by lia. rewrite (proj2 (N.ltb_ge _ _)) by lia.
  rewrite (proj2 (N.ltb_ge _ _)) by lia.
  f_equal; [|f_equal; [|f_equal; [|f_equal]]]; apply byte_of_val; lia.
Qed.

Lemma encode_ascii (b : byte) : (byte_val b < 128)%N -> encode_char (byte_val b) = [b].
Proof.
  intros H. unfold encode_char. rewrite (proj2 (N.ltb_lt _ _)) by lia.
  f_equal. by apply byte_of_val.
Qed.

Lemma ok2_scalar b0 b1 : ok2 b0 b1 = true -> scalar (cp2 b0 b1).
Proof.
  unfold ok2, is_cont, scalar, cp2, cont_val. rewrite andb_true_iff, !byte_between_spec. lia.
Qed.

Lemma ok3_scalar b0 b1 b2 : ok3 b0 b1 b2 = true -> scalar (cp3 b0 b1 b2).
Proof.
  unfold ok3, is_cont, scalar. rewrite !andb_true_iff, !byte_between_spec, negb_true_iff, andb_false_iff.
  rewrite !N.leb_le, !N.leb_gt. intros [[[H0 H1] H2] [H3 H4]].
  unfold cp3, cont_val in *. lia.
Qed.

Lemma ok4_scalar b0 b1 b2 b3 : ok4 b0 b1 b2 b3 = true -> scalar (cp4 b0 b1 b2 b3).
Proof.
  unfold ok4, is_cont, scalar. rewrite !andb_true_iff, !byte_between_spec, !N.leb_le. lia.
Qed.

(** One step of decoding: the first character and the bytes that encode it. *)
Lemma utf8_chars_cons l c cs :
  utf8_chars l = Some (c :: cs) ->
  exists r, l = encode_char c ++ r /\ utf8_chars r = Some cs /\ scalar c /\ char_enc (encode_char c).
Proof.
  destruct l as [|b0 l1]; [done|]. simpl.
  destruct (N.ltb_spec (byte_val b0) 128) as [H0|H0].
  { rewrite fmap_Some. intros (cs' & Hl & [= -> ->]). exists l1.
    rewrite encode_ascii by done. repeat split; auto; [left; lia|].
    apply byte_between_false. lia. }
  assert (forall b, is_cont b = true -> Forall (fun b' => is_cont b' = true) [b]) by auto.
  destruct l1 as [|b1 l2]; [done|]. destruct (ok2 b0 b1) eqn:H2.
  { rewrite fmap_Some. intros (cs' & Hl & [= -> ->]). exists l2.
    rewrite encode_cp2 by done. split; [done|]. split; [done|]. split; [by apply ok2_scalar|].
    unfold ok2 in H2. apply andb_true_iff in H2 as [H2 ?]. apply byte_between_spec in H2.
    repeat split; auto; [apply byte_between_false|]; lia. }
  destruct l2 as [|b2 l3]; [done|]. destruct (ok3 b0 b1 b2) eqn:H3.
  { rewrite fmap_Some. intros (cs' & Hl & [= -> ->]). exists l3.
    rewrite encode_cp3 by done. split; [done|]. split; [done|]. split; [by apply ok3_scalar|].
    unfold ok3 in H3. rewrite !andb_true_iff in H3. destruct H3 as [[[H3 ?] ?] _].
    apply byte_between_spec in H3.
    repeat split; auto; [apply byte_between_false|]; lia. }
  destruct l3 as [|b3 l4]; [done|]. destruct (ok4 b0 b1 b2 b3) eqn:H4; [|done].
  rewrite fmap_Some. intros (cs' & Hl & [= -> ->]). exists l4.
  rewrite encode_cp4 by done. split; [done|]. split; [done|]. split; [by apply ok4_scalar|].
  unfold ok4 in H4. rewrite !andb_true_iff in H4. destruct H4 as [[[[H4 ?] ?] ?] _].
  apply byte_between_spec in H4.
  repeat split; auto; [apply byte_between_false|]; lia.
Qed.

Lemma utf8_chars_nil l : utf8_chars l = Some [] -> l = [].
Proof.
  destruct l as [|b0 l1]; [done|]. simpl. intros H. exfalso.
  repeat (case_match; try (apply fmap_Some in H as (? & _ & ?)); try discriminate).
Qed.

Lemma utf8_chars_encode l cs : utf8_chars l = Some cs -> encode cs = l.
Proof.
  revert l. induction cs as [|c cs IH]; intros l H.
  - by rewrite (utf8_chars_nil _ H).
  - apply utf8_chars_cons in H as (r & -> & Hr & _). unfold encode. simpl.
    f_equal. by apply IH.
Qed.

Lemma utf8_chars_scalar l cs : utf8_chars l = Some cs -> Forall scalar cs.
Proof.
  revert l. induction cs as [|c cs IH]; intros l H; [done|].
  apply utf8_chars_cons in H as (r & -> & Hr & Hs & _). constructor; eauto.
Qed.

(** [encode_char] on each length class, as equations. *)
Lemma encode_char_cases c : scalar c ->
  ((c < 128)%N /\ encode_char c = [ascii_of_N c])
  \/ (exists b0 b1, ok2 b0 b1 = true /\ cp2 b0 b1 = c /\ encode_char c = [b0; b1])
  \/ (exists b0 b1 b2, ok3 b0 b1 b2 = true /\ cp3 b0 b1 b2 = c /\ encode_char c = [b0; b1; b2])
  \/ (exists b0 b1 b2 b3, ok4 b0 b1 b2 b3 = true /\ cp4 b0 b1 b2 b3 = c
        /\ encode_char c = [b0; b1; b2; b3]).
Proof.
  unfold scalar. intros Hc. unfold encode_char.
  destruct (N.ltb_spec c 128) as [H0|H0]; [by left|right].
  destruct (N.ltb_spec c 2048) as [H1|H1].
  { left. do 2 eexists. repeat split.
    - unfold ok2, is_cont. rewrite andb_true_iff, !byte_between_spec, !byte_val_of; lia.
    - unfold cp2, cont_val. rewrite !byte_val_of; lia. }
  right. destruct (N.ltb_spec c 65536) as [H2|H2].
  { left. do 3 eexists. repeat split.
    - unfold ok3, is_cont, cp3, cont_val.
      rewrite !andb_true_iff, !byte_between_spec, negb_true_iff, andb_false_iff, !N.leb_le, !N.leb_gt.
      rewrite !byte_val_of; lia.
    - unfold cp3, cont_val. rewrite !byte_val_of; lia. }
  right. do 4 eexists. repeat split.
  - unfold ok4, is_cont, cp4, cont_val.
    rewrite !andb_true_iff, !byte_between_spec, !N.leb_le. rewrite !byte_val_of; lia.
  - unfold cp4, cont_val. rewrite !byte_val_of; lia.
Qed.

Lemma ok2_not_ascii b0 b1 : ok2 b0 b1 = true -> (byte_val b0 <? 128)%N = false.
Proof. unfold ok2. rewrite andb_true_iff, byte_between_spec, N.ltb_ge. lia. Qed.

Lemma ok3_not_ok2 b0 b1 b2 :
  ok3 b0 b1 b2 = true -> (byte_val b0 <? 128)%N = false /\ ok2 b0 b1 = false.
Proof.
  unfold ok3, ok2. rewrite !andb_true_iff, byte_between_spec, N.ltb_ge. intros [[[H _] _] _].
  split; [lia|]. rewrite andb_false_iff, byte_between_false. lia.
Qed.

Lemma ok4_not_ok23 b0 b1 b2 b3 :
  ok4 b0 b1 b2 b3 = true ->
  (byte_val b0 <? 128)%N = false /\ ok2 b0 b1 = false /\ ok3 b0 b1 b2 = false.
Proof.
  unfold ok4, ok3, ok2. rewrite !andb_true_iff, byte_between_spec, N.ltb_ge. intros [[[[H _] _] _] _].
  split; [lia|]. rewrite !andb_false_iff, !byte_between_false. lia.
Qed.

Lemma utf8_chars_encode_char c l :
  scalar c -> utf8_chars (encode_char c ++ l) = cons c <$> utf8_chars l.
Proof.
  intros Hc.
  destruct (encode_char_cases c Hc)
    as [[H ->]|[(b0&b1&H&<-&->)|[(b0&b1&b2&H&<-&->)|(b0&b1&b2&b3&H&<-&->)]]]; simpl.
  - rewrite byte_val_of by lia. by rewrite (proj2 (N.ltb_lt _ _)) by lia.
  - by rewrite (ok2_not_ascii _ _ H), H.
  - destruct (ok3_not_ok2 _ _ _ H) as [-> ->]. by rewrite H.
  - destruct (ok4_not_ok23 _ _ _ _ H) as (-> & -> & ->). by rewrite H.
Qed.

Lemma utf8_chars_of_encode cs l :
  Forall scalar cs -> utf8_chars (encode cs ++ l) = app cs <$> utf8_chars l.
Proof.
  induction 1 as [|c cs Hc _ IH].
  - simpl. by destruct (utf8_chars l).
  - change (encode (c :: cs)) with (encode_char c ++ encode cs).
    rewrite <- app_assoc, utf8_chars_encode_char, IH by done. by destruct (utf8_chars l).
Qed.

Lemma utf8_encode cs : Forall scalar cs -> utf8_chars (encode cs) = Some cs.
Proof.
  intros H. rewrite <- (app_nil_r (encode cs)), utf8_chars_of_encode by done. simpl.
  by rewrite app_nil_r.
Qed.

Lemma utf8_app l1 l2 cs1 :
  utf8_chars l1 = Some cs1 -> utf8_chars (l1 ++ l2) = app cs1 <$> utf8_chars l2.
Proof.
  intros H. rewrite <- (utf8_chars_encode _ _ H) at 1.
  apply utf8_chars_of_encode. by eapply utf8_chars_scalar.
Qed.

(** ** Character boundaries of valid strings *)

Lemma boundary_app_head e l i :
  char_enc e -> 0 < i -> i < length e -> is_char_boundary (e ++ l) i = false.
Proof.
  intros He H0 Hi. destruct e as [|b r]; [done|]. destruct He as (_ & Hr & _).
  unfold is_char_boundary. destruct i as [|i]; [lia|].
  replace (S i =? 0) with false by done.
  rewrite length_app. destruct (Nat.eqb_spec (S i) (length (b :: r) + length l)); [lia|].
  simpl. rewrite lookup_app_l by (simpl in Hi; lia).
  destruct (lookup_lt_is_Some_2 r i) as [b' Hb']; [simpl in Hi; lia|]. rewrite Hb'.
  by rewrite (Forall_lookup_1 _ _ _ _ Hr Hb').
Qed.

Lemma boundary_app_skip e l i :
  char_enc e -> is_char_boundary (e ++ l) (length e + i) = true -> is_char_boundary l i = true.
Proof.
  intros He. unfold is_char_boundary.
  destruct (Nat.eqb_spec i 0) as [->|]; [done|].
  destruct (Nat.eqb_spec (length e + i) 0); [lia|]. rewrite length_app.
  destruct (Nat.eqb_spec (length e + i) (length e + length l)) as [E|].
  - replace (i =? length l) with true; [done|]. symmetry. apply Nat.eqb_eq. lia.
  - destruct (Nat.eqb_spec i (length l)); [done|].
    rewrite lookup_app_r by lia. by replace (length e + i - length e) with i by lia.
Qed.

(** A boundary splits a valid string into two valid strings. *)
Lemma utf8_split l cs i :
  utf8_chars l = Some cs -> i <= length l -> is_char_boundary l i = true ->
  exists cs1 cs2, cs = cs1 ++ cs2 /\ utf8_chars (take i l) = Some cs1 /\ utf8_chars (drop i l) = Some cs2.
Proof.
  revert l i. induction cs as [|c cs IH]; intros l i H Hi Hb.
  { apply utf8_chars_nil in H as ->. exists [], []. by destruct i. }
  destruct i as [|i]; [exists [], (c :: cs); by rewrite drop_0|].
  apply utf8_chars_cons in H as (r & -> & Hr & Hs & He).
  destruct (decide (S i < length (encode_char c))) as [Hlt|Hge].
  { by rewrite boundary_app_head in Hb by (done || lia). }
  replace (S i) with (length (encode_char c) + (S i - length (encode_char c))) in * by lia.
  set (j := S i - length (encode_char c)) in *. rewrite length_app in Hi.
  destruct (IH r j) as (cs1 & cs2 & -> & H1 & H2); [done|lia|by eapply boundary_app_skip|].
  exists (c :: cs1), cs2. split; [done|].
  rewrite take_app_add, drop_app_add. split; [|done].
  rewrite utf8_chars_encode_char, H1 by done. done.
Qed.

(** Next to an ASCII byte there is a boundary on each side. *)
Lemma boundary_ascii l cs i b :
  utf8_chars l = Some cs -> l !! i = Some b -> (byte_val b < 128)%N ->
  is_char_boundary l i = true /\ is_char_boundary l (S i) = true.
Proof.
  revert l i. induction cs as [|c cs IH]; intros l i H Hi Hb.
  { by apply utf8_chars_nil in H as ->. }
  apply utf8_chars_cons in H as (r & -> & Hr & Hs & He).
  assert (Hlen : i < length (encode_char c ++ r)) by by eapply lookup_lt_Some.
  rewrite length_app in Hlen.
  assert (Hnc : is_cont b = false) by (apply byte_between_false; lia).
  split.
  { unfold is_char_boundary. rewrite Hi, Hnc. by repeat case_match. }
  destruct (encode_char c) as [|b0 e'] eqn:Ee; [done|]. destruct He as (Hb0 & Hcont & Hasc).
  destruct i as [|i].
  - simpl in Hi. injection Hi as ->. rewrite (Hasc Hb) in *. simpl.
    unfold is_char_boundary. simpl. destruct r as [|b1 r']; [done|].
    destruct cs as [|c' cs']; [by apply utf8_chars_nil in Hr|].
    apply utf8_chars_cons in Hr as (r'' & E & _ & _ & He').
    destruct (encode_char c') as [|b1' e1]; [done|]. simplify_eq/=.
    destruct He' as (Hnc' & _). by rewrite Hnc'; repeat case_match.
  - assert (Hge : length (b0 :: e') <= S i).
    { destruct (decide (S i < length (b0 :: e'))) as [Hlt|]; [|lia].
      rewrite lookup_app_l in Hi by done. simpl in Hi.
      by rewrite (Forall_lookup_1 _ _ _ _ Hcont Hi) in Hnc. }
    rewrite lookup_app_r in Hi by done.
    destruct (IH r (S i - length (b0 :: e')) Hr Hi Hb) as [_ H1].
    unfold is_char_boundary in H1 |- *.
    replace (S (S i) =? 0) with false by done. rewrite length_app.
    replace (S (S i) =? length (b0 :: e') + length r)
      with (S (S i - length (b0 :: e')) =? length r)
      by (destruct (Nat.eqb_spec (S (S i - length (b0 :: e'))) (length r)),
                   (Nat.eqb_spec (S (S i)) (length (b0 :: e') + length r)); done || lia).
    rewrite lookup_app_r by lia.
    replace (S (S i) - length (b0 :: e')) with (S (S i - length (b0 :: e'))) by lia.
    by replace (S (S i - length (b0 :: e')) =? 0) with false in H1 by done.
Qed.

Lemma boundary_0 l : is_char_boundary l 0 = true.
Proof. done. Qed.

Lemma boundary_len l : is_char_boundary l (length l) = true.
Proof. unfold is_char_boundary. rewrite Nat.eqb_refl. by case_match. Qed.

(** A slice between boundaries returns valid UTF-8. *)
Lemma slice_utf8 {E : Type} l a b :
  utf8 l -> a <= b -> b <= length l ->
  is_char_boundary l a = true -> is_char_boundary l b = true ->
  slice (E:=E) l a b = Ok (from_bytes (take (b - a) (drop a l)))
  /\ utf8 (take (b - a) (drop a l)).
Proof.
  intros [cs Hcs] Hab Hb Ha1 Hb1. unfold slice.
  rewrite (proj2 (Nat.leb_le _ _) Hab), (proj2 (Nat.leb_le _ _) Hb), Ha1, Hb1.
  split; [done|].
  destruct (utf8_split l cs a) as (cs1 & cs2 & -> & H1 & H2); [done|lia|done|].
  assert (Hbd : is_char_boundary (drop a l) (b - a) = true).
  { unfold is_char_boundary in Hb1 |- *. rewrite lookup_drop.
    destruct (Nat.eqb_spec (b - a) 0); [done|].
    rewrite length_drop.
    destruct (Nat.eqb_spec (b - a) (length l - a)); [done|].
    replace (a + (b - a)) with b by lia.
    destruct (Nat.eqb_spec b 0); [lia|]. destruct (Nat.eqb_spec b (length l)); [lia|done]. }
  destruct (utf8_split (drop a l) cs2 (b - a)) as (? & ? & _ & H3 & _);
    [done|rewrite length_drop; lia|done|]. by eexists.
Qed.
