(* ===== verification/RustText.v ===== *)
(** * Searching, splitting and case of strings

    Methods of [str] of the Rust standard library, and the facts about them
    that several components share. *)

From stdpp Require Import base tactics list strings option numbers.
From Stdlib Require Import ZArith NArith Lia Ascii String.
From S2P Require Import Prelude RustStr.

Open Scope string_scope.
Open Scope list_scope.
Open Scope nat_scope.

(** [value.find(needle)] and [value.rfind(needle)]: a byte index. *)
Fixpoint string_find (needle haystack : string) : option nat :=
  if starts_with needle haystack then Some 0
  else match haystack with
       | EmptyString => None
       | String _ rest => S <$> string_find needle rest
       end.

Fixpoint string_rfind (needle haystack : string) : option nat :=
  match haystack with
  | EmptyString => if starts_with needle haystack then Some 0 else None
  | String _ rest =>
      match string_rfind needle rest with
      | Some i => Some (S i)
      | None => if starts_with needle haystack then Some 0 else None
      end
  end.

(** [value.strip_suffix(suffix)] *)
Definition strip_suffix (suffix s : string) : option string :=
  from_bytes ∘ reverse ∘ as_bytes <$> strip_prefix (from_bytes (reverse (as_bytes suffix))) (from_bytes (reverse (as_bytes s))).

(** [value.split(delimiter)] for a delimiter that is not empty: each part but
    the last ends where the delimiter is next found. *)
Fixpoint split_on (fuel : nat) (delimiter s : string) : list string :=
  match fuel with
  | O => [s]
  | S fuel' =>
      match string_find delimiter s with
      | None => [s]
      | Some i =>
          let rest := i + String.length delimiter in
          substring 0 i s :: split_on fuel' delimiter (substring rest (String.length s - rest) s)
      end
  end.

Definition split_string (delimiter s : string) : list string := split_on (String.length s) delimiter s.

(** [to_ascii_lowercase] and [to_ascii_uppercase]. *)
Definition to_ascii_lowercase (s : string) : string :=
  from_bytes ((fun b => if is_ascii_uppercase b then ascii_of_N (byte_val b + 32) else b) <$> as_bytes s).

Definition to_ascii_uppercase (s : string) : string :=
  from_bytes ((fun b => if is_ascii_lowercase b then ascii_of_N (byte_val b - 32) else b) <$> as_bytes s).

(** [value.split(b)] for an ASCII character. *)
Fixpoint split_byte (b : byte) (l : list byte) : list (list byte) :=
  match l with
  | [] => [[]]
  | c :: l' =>
      if Ascii.eqb c b then [] :: split_byte b l'
      else match split_byte b l' with
           | p :: ps => (c :: p) :: ps
           | [] => [[c]]
           end
  end.

Definition split_char (b : byte) (s : string) : list string := from_bytes <$> split_byte b (as_bytes s).

Lemma append_assoc (a b c : string) : ((a ++ b) ++ c)%string = (a ++ (b ++ c))%string.
Proof. induction a as [|x a IH]; [done|]. change (String x ((a ++ b) ++ c) = String x (a ++ (b ++ c)))%string. by rewrite IH. Qed.

(** ** Occurrences *)

(** [needle] stands at [j] in [l]. *)
Definition occurs (needle l : list byte) (j : nat) : Prop :=
  forall k c, needle !! k = Some c -> l !! (j + k) = Some c.

Lemma occurs_cons needle b l j : occurs needle (b :: l) (S j) <-> occurs needle l j.
Proof. done. Qed.

Lemma starts_with_occurs needle s : starts_with needle s = true <-> occurs (as_bytes needle) (as_bytes s) 0.
Proof.
  revert s. induction needle as [|a needle IH]; intros s; cbn [starts_with as_bytes list_ascii_of_string].
  - split; [intros _ k c Hk; by rewrite lookup_nil in Hk|done].
  - destruct s as [|b s]; [split; [done|intros H; by specialize (H 0 a eq_refl)]|]. rewrite andb_true_iff, IH. split.
    + intros [->%Ascii.eqb_eq H] [|k] c Hk; [exact Hk|by apply (H k c)].
    + intros H. split; [|intros k c Hk; by apply (H (S k) c)].
      specialize (H 0 a eq_refl). injection H as ->. apply Ascii.eqb_refl.
Qed.

Lemma rfind_occurs needle s i : string_rfind needle s = Some i -> occurs (as_bytes needle) (as_bytes s) i.
Proof.
  revert i. induction s as [|b s IH]; intros i; cbn [string_rfind].
  - destruct (starts_with needle "") eqn:E; [|done]. intros [= <-]. by apply starts_with_occurs in E.
  - destruct (string_rfind needle s) as [j|]; [intros [= <-]; by apply IH|].
    destruct (starts_with needle (String b s)) eqn:E; [|done]. intros [= <-]. by apply starts_with_occurs in E.
Qed.

Lemma rfind_last needle s j : needle <> "" -> occurs (as_bytes needle) (as_bytes s) j ->
  exists i, string_rfind needle s = Some i /\ j <= i.
Proof.
  intros Hn. revert j. induction s as [|b s IH]; intros j Ho; cbn [string_rfind].
  - destruct needle as [|a needle]; [done|]. specialize (Ho 0 a eq_refl). change ([] !! (j + 0) = Some a) in Ho. by rewrite lookup_nil in Ho.
  - destruct j as [|j].
    + destruct (string_rfind needle s) as [i|]; [eexists; split; [done|lia]|].
      apply starts_with_occurs in Ho as ->. eexists; split; [done|lia].
    + destruct (IH j Ho) as (i & -> & Hi). eexists; split; [done|lia].
Qed.

Lemma rfind_none needle s : needle <> "" -> string_rfind needle s = None -> forall j, ~ occurs (as_bytes needle) (as_bytes s) j.
Proof. intros Hn H j Ho. destruct (rfind_last needle s j Hn Ho) as (i & Hi & _). congruence. Qed.

Lemma find_occurs needle s i : string_find needle s = Some i -> occurs (as_bytes needle) (as_bytes s) i.
Proof.
  revert i. induction s as [|b s IH]; intros i; cbn [string_find].
  - destruct (starts_with needle "") eqn:E; [|done]. intros [= <-]. by apply starts_with_occurs in E.
  - destruct (starts_with needle (String b s)) eqn:E; [intros [= <-]; by apply starts_with_occurs in E|].
    destruct (string_find needle s) as [j|]; [|done]. intros [= <-]. by apply (IH j).
Qed.

Lemma occurs_inside needle l j k c : occurs needle l j -> needle !! k = Some c -> j + k < length l.
Proof. intros H Hk. apply H in Hk. by eapply lookup_lt_Some. Qed.

Lemma occurs_app_r needle p l j : length p <= j -> occurs needle (p ++ l) j <-> occurs needle l (j - length p).
Proof.
  intros Hj. unfold occurs. split; intros H k c Hk; specialize (H k c Hk).
  - rewrite lookup_app_r in H by lia. rewrite <- H. f_equal. lia.
  - rewrite lookup_app_r by lia. rewrite <- H. f_equal. lia.
Qed.

Lemma occurs_app_l needle p l j : occurs needle p j -> occurs needle (p ++ l) j.
Proof. intros H k c Hk. rewrite lookup_app_l; [by apply H|by eapply occurs_inside]. Qed.

Lemma append_nil_r (s : string) : (s ++ "")%string = s.
Proof. induction s as [|b s IH]; [done|]. exact (f_equal (String b) IH). Qed.

Lemma as_bytes_app a b : as_bytes (a ++ b)%string = as_bytes a ++ as_bytes b.
Proof. induction a as [|c a IH]; [done|]. unfold as_bytes in *. simpl. by rewrite IH. Qed.

Lemma length_as_bytes s : length (as_bytes s) = String.length s.
Proof. induction s; simpl; by f_equal. Qed.

(** ** Decimal numbers *)

Lemma digits_val_snoc l d : digits_val (l ++ [d]) = (10 * digits_val l + digit_val d)%N.
Proof. unfold digits_val. by rewrite foldl_app. Qed.

Lemma digit_byte_val d : (d < 10)%N -> digit_val (digit_byte d) = d /\ is_ascii_digit (digit_byte d) = true.
Proof.
  intros Hd. unfold digit_val, digit_byte, is_ascii_digit. rewrite byte_between_spec, byte_val_of by lia. lia.
Qed.

Lemma show_digits_val fuel n : (n < 10 ^ N.of_nat fuel)%N ->
  digits_val (show_digits fuel n) = n /\ forallb is_ascii_digit (show_digits fuel n) = true /\ show_digits fuel n <> [] \/ fuel = 0.
Proof.
  revert n. induction fuel as [|fuel IH]; intros n Hn; [by right|left]. simpl. destruct (N.ltb_spec n 10) as [Hlt|Hge].
  - destruct (digit_byte_val n Hlt) as [Hv Hd]. unfold digits_val. simpl. rewrite Hv, Hd. split; [lia|done].
  - assert (Hm : (n mod 10 < 10)%N) by (apply N.mod_lt; lia). destruct (digit_byte_val _ Hm) as [Hv Hd].
    rewrite Nat2N.inj_succ, N.pow_succ_r' in Hn.
    destruct (IH (n / 10)%N) as [(Hval & Hdig & _)| ->]; [apply N.Div0.div_lt_upper_bound; lia| |simpl in Hn; lia].
    rewrite digits_val_snoc, Hval, Hv, forallb_app, Hdig. simpl. rewrite Hd. split_and!; [|done|by destruct (show_digits fuel (n / 10)%N)].
    rewrite (N.div_mod n 10) at 3 by lia. done.
Qed.

Lemma show_N_val n : digits_val (show_N_bytes n) = n /\ forallb is_ascii_digit (show_N_bytes n) = true /\ show_N_bytes n <> [].
Proof.
  unfold show_N_bytes. destruct (show_digits_val (S (N.size_nat n)) n) as [H|H]; [|done|done].
  apply N.lt_le_trans with (2 ^ N.of_nat (N.size_nat n))%N.
  - destruct n as [|q]; [simpl; lia|]. simpl N.size_nat. clear. induction q as [q IH|q IH|]; simpl Pos.size_nat; [| |done].
    + rewrite Nat2N.inj_succ, N.pow_succ_r'. lia.
    + rewrite Nat2N.inj_succ, N.pow_succ_r'. lia.
  - rewrite Nat2N.inj_succ. etransitivity; [apply (N.pow_le_mono_l 2 10); lia|]. rewrite N.pow_succ_r'. lia.
Qed.

Lemma show_N_bytes_inj a b : show_N_bytes a = show_N_bytes b -> a = b.
Proof. intros H. rewrite <- (proj1 (show_N_val a)), <- (proj1 (show_N_val b)). by rewrite H. Qed.

(** ** Splitting at a byte *)

Lemma split_nonnil b l : exists part parts, split_byte b l = part :: parts.
Proof.
  induction l as [|x l (part & parts & IH)]; simpl; [by eexists _, _|]. rewrite IH.
  destruct (Ascii.eqb x b); by eexists _, _.
Qed.

Lemma split_bytes b l (p : byte -> bool) : forallb (forallb p) (split_byte b l) = true -> forall c, c ∈ l -> c = b \/ p c = true.
Proof.
  induction l as [|x l IH]; intros H c Hc; [by apply elem_of_nil in Hc|]. simpl in H. destruct (Ascii.eqb_spec x b) as [->|Hx].
  - apply elem_of_cons in Hc as [->|Hc]; [by left|]. by apply IH.
  - destruct (split_nonnil b l) as (part & parts & E). rewrite E in H, IH.
    simpl in H. apply andb_prop in H as [[Hpx Hp]%andb_prop Hps].
    apply elem_of_cons in Hc as [->|Hc]; [by right|]. apply IH; [|done]. simpl. by rewrite Hp.
Qed.

Lemma split_snoc b l : split_byte b (l ++ [b]) = split_byte b l ++ [[]].
Proof.
  induction l as [|x l IH]; simpl; [by rewrite Ascii.eqb_refl|]. rewrite IH. destruct (Ascii.eqb x b); [done|].
  by destruct (split_nonnil b l) as (part & parts & ->).
Qed.

Lemma split_byte_app b l rest : Forall (fun c => c <> b) l -> split_byte b (l ++ b :: rest) = l :: split_byte b rest.
Proof.
  induction 1 as [|c l Hc _ IH]; cbn [app split_byte]; [by rewrite Ascii.eqb_refl|]. destruct (Ascii.eqb_spec c b); [done|]. by rewrite IH.
Qed.

Lemma split_byte_none b l : Forall (fun c => c <> b) l -> split_byte b l = [l].
Proof. induction 1 as [|c l Hc _ IH]; [done|]. cbn [split_byte]. destruct (Ascii.eqb_spec c b); [done|]. by rewrite IH. Qed.
