(* ===== verification/RustPath.v ===== *)
(** * Paths and files

    [std::path] on Unix, where a path is a string of segments between slashes,
    and the part of [std::fs] that the import resolver calls, as an interface:
    a file system that does not change while it is read.  File names are UTF-8,
    so [to_string_lossy] and [display] are the text of the path. *)

From stdpp Require Import base tactics list strings option numbers.
From Stdlib Require Import ZArith NArith Lia Ascii String.
From S2P Require Import Prelude RustStr RustText.

Open Scope string_scope.
Open Scope list_scope.
Open Scope nat_scope.

(** ** Components *)

Module Component.
Inductive Component : Type := RootDir | CurDir | ParentDir | Normal (name : string).
End Component.
Abbreviation Component := Component.Component.

#[export] Instance Component_eq_dec : EqDecision Component.
Proof. solve_decision. Defined.

Definition is_absolute (p : string) : bool := starts_with "/" p.

Definition slash : byte := "/"%char.

(** What the slashes separate. *)
Fixpoint split_slash (l : list byte) : list (list byte) :=
  match l with
  | [] => [[]]
  | b :: l' =>
      match split_slash l' with
      | segment :: rest => if Ascii.eqb b slash then [] :: segment :: rest else (b :: segment) :: rest
      | [] => []
      end
  end.

Definition segments (p : string) : list string := from_bytes <$> split_slash (as_bytes p).

(** The segments after the root. *)
Definition body (p : string) : list string := if is_absolute p then tail (segments p) else segments p.

Definition render (absolute : bool) (segments : list string) : string :=
  ((if absolute then "/" else "") ++ String.concat "/" segments)%string.

(** Empty segments and [.] are no components, but for a [.] that begins the
    path. *)
Definition skipped (segment : string) : bool := String.eqb segment "" || String.eqb segment ".".

Definition segment_component (segment : string) : list Component :=
  if skipped segment then [] else if String.eqb segment ".." then [Component.ParentDir] else [Component.Normal segment].

(** [path.components()]. *)
Definition components (p : string) : list Component :=
  if is_absolute p then Component.RootDir :: flat_map segment_component (body p)
  else match body p with
       | segment :: rest =>
           (if String.eqb segment "." then [Component.CurDir] else segment_component segment) ++ flat_map segment_component rest
       | [] => []
       end.

(** [self.starts_with(base)]. *)
Definition path_starts_with (p base : string) : bool :=
  bool_decide (take (length (components base)) (components p) = components base).

(** ** Parts of a path *)

Fixpoint drop_skipped (segments : list string) : list string :=
  match segments with
  | segment :: rest => if skipped segment then drop_skipped rest else segments
  | [] => []
  end.

(** Trailing segments that are no components; a leading [.] stays. *)
Definition trim_segments (absolute : bool) (segments : list string) : list string :=
  let trimmed := reverse (drop_skipped (reverse segments)) in
  match trimmed, segments with
  | [], segment :: _ => if negb absolute && String.eqb segment "." then ["."] else []
  | _, _ => trimmed
  end.

(** [path.parent()]. *)
Definition parent (p : string) : option string :=
  match reverse (trim_segments (is_absolute p) (body p)) with
  | [] => None
  | _ :: rest => Some (render (is_absolute p) (trim_segments (is_absolute p) (reverse rest)))
  end.

(** [path.ancestors()]: the path, its parent and so on. *)
Fixpoint ancestors_from (fuel : nat) (p : string) : list string :=
  p :: match fuel with
       | O => []
       | S fuel' => match parent p with Some q => ancestors_from fuel' q | None => [] end
       end.
Definition ancestors (p : string) : list string := ancestors_from (String.length p) p.

(** [path.file_name()]. *)
Definition file_name (p : string) : option string :=
  match list.last (components p) with Some (Component.Normal name) => Some name | _ => None end.

(** [rsplit_file_at_dot]: a name that begins with its only dot is all stem. *)
Definition rsplit_file_at_dot (name : string) : option string * option string :=
  match rsplit_once "."%char (as_bytes name) with
  | Some ([], _) => (Some name, None)
  | Some (before, after) => (Some (from_bytes before), Some (from_bytes after))
  | None => (None, Some name)
  end.

Definition extension (p : string) : option string :=
  name ← file_name p;
  match rsplit_file_at_dot name with (Some _, after) => after | _ => None end.

(** [path.set_extension(ext)]: what follows the stem is replaced. *)
Definition set_extension (ext p : string) : string :=
  match file_name p, reverse (trim_segments (is_absolute p) (body p)) with
  | Some name, _ :: rest =>
      let stem := match rsplit_file_at_dot name with (Some before, _) => before | (None, _) => name end in
      render (is_absolute p) (reverse rest ++ [(stem ++ "." ++ ext)%string])
  | _, _ => p
  end.

(** [base.join(path)]. *)
Definition join (base path : string) : string :=
  if is_absolute path then path
  else match list.last (as_bytes base) with
       | None => path
       | Some b => if Ascii.eqb b "/" then (base ++ path)%string else (base ++ "/" ++ path)%string
       end.

(** [path.strip_prefix(base)]: the segments after as many components. *)
Fixpoint skip_components (n : nat) (segments : list string) : list string :=
  match n, segments with
  | O, _ => segments
  | S n', segment :: rest => if skipped segment then skip_components n rest else skip_components n' rest
  | _, [] => []
  end.

Definition path_strip_prefix (p base : string) : option string :=
  if path_starts_with p base then
    let n := length (components base) in
    let rest := if is_absolute p then skip_components (Nat.pred n) (body p) else skip_components n (body p) in
    Some (match n with O => p | _ => render false (reverse (drop_skipped (reverse (drop_skipped rest)))) end)
  else None.

Example components_of : components "/a//./b/../c/" =
  [Component.RootDir; Component.Normal "a"; Component.Normal "b"; Component.ParentDir; Component.Normal "c"].
Proof. vm_compute. reflexivity. Qed.

Example parents_of : parent <$> ["/a/b"; "/a//b/."; "/a"; "/"; "a"; "a/./b/"; "./a"; ""; "."] =
  [Some "/a"; Some "/a"; Some "/"; None; Some ""; Some "a"; Some "."; None; Some ""].
Proof. vm_compute. reflexivity. Qed.

Example ancestors_of : ancestors "/a/b" = ["/a/b"; "/a"; "/"].
Proof. vm_compute. reflexivity. Qed.

Example extensions_of : extension <$> ["a/b.rco"; "a.d/b"; ".x"; "b."; ".."] = [Some "rco"; None; None; Some ""; None].
Proof. vm_compute. reflexivity. Qed.

Example set_extensions : set_extension "rco" <$> ["/a/b"; "a/../b/"; "b.x"; ".."] = ["/a/b.rco"; "a/../b.rco"; "b.rco"; ".."].
Proof. vm_compute. reflexivity. Qed.

Example strips : path_strip_prefix "/a/b/c/d" "/a/b" = Some "c/d" /\ path_strip_prefix "/a/b" "/a/b" = Some "" /\ path_strip_prefix "/ab" "/a" = None.
Proof. vm_compute. auto. Qed.

(** ** Normal paths *)

(** What a canonical path is made of. *)
Definition good_name (n : string) : Prop :=
  n <> "" /\ n <> "." /\ n <> ".." /\ Forall (fun b => b <> slash) (as_bytes n).

Definition normal_names (names : list string) : Prop := Forall good_name names.

Definition absolute (names : list string) : string := render true names.

Lemma split_slash_cons l : exists segment rest, split_slash l = segment :: rest.
Proof.
  induction l as [|b l (segment & rest & IH)]; simpl; [by eexists _, _|]. rewrite IH. case_match; by eexists _, _.
Qed.

Lemma split_slash_none l : Forall (fun b => b <> slash) l -> split_slash l = [l].
Proof.
  induction l as [|b l IH]; [done|]. intros [Hb Hl]%Forall_cons_1. simpl. rewrite IH by done.
  by destruct (Ascii.eqb_spec b slash).
Qed.

Lemma split_slash_app l m : Forall (fun b => b <> slash) l -> split_slash (l ++ slash :: m) = l :: split_slash m.
Proof.
  induction l as [|b l IH]; intros Hl; simpl.
  - destruct (split_slash_cons m) as (? & ? & ->). done.
  - apply Forall_cons_1 in Hl as [Hb Hl]. rewrite IH by done. by destruct (Ascii.eqb_spec b slash).
Qed.

Lemma segments_concat names : names <> [] -> Forall (fun n => Forall (fun b => b <> slash) (as_bytes n)) names ->
  segments (String.concat "/" names) = names.
Proof.
  unfold segments. induction names as [|n names IH]; [done|]. intros _ [Hn Hnames]%Forall_cons_1. simpl. destruct names as [|n' names].
  - rewrite split_slash_none by done. simpl. unfold from_bytes, as_bytes. by rewrite string_of_list_ascii_of_string.
  - rewrite as_bytes_app. change (as_bytes ("/" ++ String.concat "/" (n' :: names))%string)
      with (slash :: as_bytes (String.concat "/" (n' :: names))).
    rewrite split_slash_app by done. rewrite fmap_cons, IH by done. f_equal. unfold from_bytes, as_bytes. by rewrite string_of_list_ascii_of_string.
Qed.

Lemma good_not_skipped n : good_name n -> skipped n = false.
Proof.
  intros (H1 & H2 & _). unfold skipped. apply orb_false_iff. by split; apply String.eqb_neq.
Qed.

Lemma normal_slashless names : normal_names names -> Forall (fun n => Forall (fun b => b <> slash) (as_bytes n)) names.
Proof. intros Hn. eapply list.Forall_impl; [exact Hn|]. by intros n (_ & _ & _ & H). Qed.

Lemma is_absolute_absolute names : is_absolute (absolute names) = true.
Proof. by destruct names. Qed.

Lemma body_absolute names : normal_names names -> body (absolute names) = match names with [] => [""] | _ => names end.
Proof.
  intros Hn. unfold body. rewrite is_absolute_absolute. unfold absolute, render. destruct names as [|n names]; [done|].
  unfold segments. change (as_bytes ("/" ++ String.concat "/" (n :: names))%string) with ([] ++ slash :: as_bytes (String.concat "/" (n :: names))).
  rewrite split_slash_app by done. simpl tail. apply (segments_concat (n :: names)); [done|]. by apply normal_slashless.
Qed.

Lemma normal_components names : normal_names names -> flat_map segment_component names = Component.Normal <$> names.
Proof.
  induction names as [|n names IH]; [done|]. intros [Hn Hnames]%Forall_cons_1. simpl. rewrite IH by done.
  unfold segment_component. rewrite good_not_skipped by done. destruct Hn as (_ & _ & Hdd & _).
  by rewrite (proj2 (String.eqb_neq _ _) Hdd).
Qed.

Lemma components_absolute names : normal_names names -> components (absolute names) = Component.RootDir :: (Component.Normal <$> names).
Proof.
  intros Hn. unfold components. rewrite is_absolute_absolute, body_absolute by done. f_equal. destruct names; [done|]. by apply normal_components.
Qed.

Lemma absolute_inj names1 names2 : normal_names names1 -> normal_names names2 -> absolute names1 = absolute names2 -> names1 = names2.
Proof.
  intros H1 H2 H. apply (f_equal components) in H. rewrite !components_absolute in H by done. injection H as H.
  eapply list_fmap_eq_inj; [|exact H]. by intros ? ? [= ->].
Qed.

Lemma drop_skipped_normal names : normal_names names -> drop_skipped names = names.
Proof. destruct names as [|n names]; [done|]. intros [Hn _]%Forall_cons_1. simpl. by rewrite good_not_skipped. Qed.

Lemma trim_normal names : normal_names names -> trim_segments true names = names.
Proof.
  intros Hn. unfold trim_segments. rewrite drop_skipped_normal by (unfold normal_names; rewrite Forall_reverse; done).
  rewrite reverse_involutive. by destruct names.
Qed.

Lemma parent_absolute names n : normal_names (names ++ [n]) -> parent (absolute (names ++ [n])) = Some (absolute names).
Proof.
  intros Hn. unfold parent. rewrite is_absolute_absolute, body_absolute by done.
  replace (match names ++ [n] with [] => [""] | _ => names ++ [n] end) with (names ++ [n]) by (by destruct names).
  rewrite trim_normal, reverse_app by done. simpl. rewrite reverse_involutive. apply Forall_app in Hn as [Hn _]. by rewrite trim_normal.
Qed.

Lemma parent_root : parent (absolute []) = None.
Proof. done. Qed.

Lemma concat_snoc names n : names <> [] -> String.concat "/" (names ++ [n]) = (String.concat "/" names ++ "/" ++ n)%string.
Proof.
  induction names as [|m names IH]; [done|]. intros _. destruct names as [|m' names]; [done|].
  change (String.concat "/" ((m :: m' :: names) ++ [n])) with (m ++ "/" ++ String.concat "/" ((m' :: names) ++ [n]))%string.
  rewrite IH by done. simpl. by rewrite !append_assoc.
Qed.

Lemma join_absolute names n : normal_names names -> good_name n -> join (absolute names) n = absolute (names ++ [n]).
Proof.
  intros Hnames (Hn & _ & _ & Hs). unfold join. assert (is_absolute n = false) as ->.
  { destruct n as [|b n]; [done|]. apply Forall_cons_1 in Hs as [Hb _]. unfold is_absolute. cbn [starts_with]. by destruct (Ascii.eqb_spec "/" b) as [<-|]. }
  destruct (decide (names = [])) as [->|Hne]; [done|].
  assert (exists b, list.last (as_bytes (absolute names)) = Some b /\ b <> slash) as (b & -> & Hb).
  { destruct (exists_last Hne) as (names' & m & ->). apply Forall_app in Hnames as [_ [Hm _]%Forall_cons_1]. destruct Hm as (Hm & _ & _ & Hs').
    assert (exists p, absolute (names' ++ [m]) = (p ++ m)%string) as [p ->].
    { unfold absolute, render. destruct names' as [|n' names'].
      - by exists "/".
      - rewrite concat_snoc by done. exists ("/" ++ String.concat "/" (n' :: names') ++ "/")%string. by rewrite !append_assoc. }
    rewrite as_bytes_app. assert (as_bytes m <> []) as Hm' by (by destruct m).
    destruct (exists_last Hm') as (l & b & Hl). exists b. rewrite Hl, app_assoc, last_snoc. split; [done|].
    rewrite Hl in Hs'. by apply Forall_app in Hs' as [_ [? _]%Forall_cons_1]. }
  destruct (Ascii.eqb_spec b "/") as [->|_]; [done|]. unfold absolute, render. by rewrite concat_snoc, !append_assoc by done.
Qed.

Lemma starts_with_absolute names base : normal_names names -> normal_names base ->
  path_starts_with (absolute names) (absolute base) = true <-> base `prefix_of` names.
Proof.
  intros Hn Hb. unfold path_starts_with. rewrite !components_absolute, bool_decide_eq_true by done. simpl. rewrite length_fmap, <- fmap_take. split.
  - intros [= H]. apply list_fmap_eq_inj in H; [|by intros ? ? [= ->]]. rewrite <- H. by apply prefix_take.
  - intros [k ->]. by rewrite take_app_length.
Qed.

(** The ancestors of a normal path are its prefixes, the longest first. *)
Lemma find_ancestor_from (P : string -> bool) fuel names : normal_names names -> length names <= fuel ->
  match List.find P (ancestors_from fuel (absolute names)) with
  | Some a => exists base, a = absolute base /\ base `prefix_of` names /\ P a = true /\
                forall b, b `prefix_of` names -> P (absolute b) = true -> b `prefix_of` base
  | None => forall b, b `prefix_of` names -> P (absolute b) = false
  end.
Proof.
  revert fuel. induction names as [|n names IH] using rev_ind; intros fuel Hn Hf.
  - assert (forall b, b `prefix_of` [] -> b = [] :> list string) as Hnil by (intros b; apply prefix_nil_inv).
    assert (ancestors_from fuel (absolute []) = [absolute []]) as -> by (by destruct fuel). cbn [List.find].
    destruct (P (absolute [])) eqn:HP; [|by intros b ->%Hnil]. exists []. split_and!; [done..|]. by intros b ->%Hnil.
  - rewrite length_app in Hf. simpl in Hf. destruct fuel as [|fuel]; [lia|]. cbn [ancestors_from List.find].
    rewrite parent_absolute by done. destruct (P (absolute (names ++ [n]))) eqn:HP; [by exists (names ++ [n])|].
    specialize (IH fuel ltac:(by apply Forall_app in Hn as [? _]) ltac:(lia)).
    assert (forall b, b `prefix_of` names ++ [n] -> b = names ++ [n] \/ b `prefix_of` names) as Hcases.
    { intros b [k Hk]. destruct (decide (k = [])) as [->|Hne]; [left; by rewrite app_nil_r in Hk|right].
      destruct (exists_last Hne) as (k' & m & ->). rewrite app_assoc in Hk. apply app_inj_tail in Hk as [-> _]. by exists k'. }
    destruct (List.find P _) as [a|].
    + destruct IH as (base & -> & Hb & HPb & Hmax). exists base. split; [done|]. split; [by apply prefix_app_r|]. split; [done|].
      intros b Hb' HPb'. apply Hcases in Hb' as [->|Hb']; [congruence|auto].
    + intros b Hb. apply Hcases in Hb as [->|Hb]; auto.
Qed.

Lemma string_length_app a b : String.length (a ++ b) = String.length a + String.length b.
Proof. induction a as [|c a IH]; [done|]. simpl. by rewrite IH. Qed.

Lemma absolute_length names : normal_names names -> length names <= String.length (absolute names).
Proof.
  intros Hn. unfold absolute, render. destruct names as [|n names]; [simpl; lia|]. simpl.
  enough (length (n :: names) <= S (String.length (String.concat "/" (n :: names)))) as H by exact H.
  revert n Hn. induction names as [|m names IH]; intros n Hn; apply Forall_cons_1 in Hn as [(Hne & _) Hn]; [simpl; lia|].
  specialize (IH m Hn). change (String.concat "/" (n :: m :: names)) with (n ++ "/" ++ String.concat "/" (m :: names))%string.
  rewrite !string_length_app. destruct n; [done|]. cbn [String.length length] in *. lia.
Qed.

Lemma find_ancestor (P : string -> bool) names : normal_names names ->
  match List.find P (ancestors (absolute names)) with
  | Some a => exists base, a = absolute base /\ base `prefix_of` names /\ P a = true /\
                forall b, b `prefix_of` names -> P (absolute b) = true -> b `prefix_of` base
  | None => forall b, b `prefix_of` names -> P (absolute b) = false
  end.
Proof. intros Hn. apply find_ancestor_from; [done|]. by apply absolute_length. Qed.

(** ** The file system *)

Module FileType.
Inductive FileType : Type := File | Dir | Symlink | Other.
End FileType.
Abbreviation FileType := FileType.FileType.

(** [is_file] follows symbolic links; [symlink_metadata] does not. *)
Class FileSystem : Type := {
  canonicalize : string -> string + msg;
  is_file : string -> bool;
  is_dir : string -> bool;
  read_to_string : string -> string + msg;
  read : string -> list byte + msg;
  read_dir : string -> list (string + msg) + msg;
  symlink_metadata : string -> FileType + msg }.

(** What the documentation of these functions says: text is UTF-8; a canonical
    path is absolute and normal, names the same file, as are the directories it is in, and these are
    no files; a link to a file is resolved to a file. *)
Class FileSystemLaws (fs : FileSystem) : Prop := {
  read_utf8 p s : read_to_string p = inl s -> utf8 (as_bytes s);
  canonicalize_normal p q : canonicalize p = inl q -> exists names, normal_names names /\ q = absolute names;
  canonicalize_ancestor p names rest : normal_names (names ++ rest) -> canonicalize p = inl (absolute (names ++ rest)) ->
    canonicalize (absolute names) = inl (absolute names);
  canonicalize_again p q : canonicalize p = inl q -> canonicalize q = inl q;
  read_canonical p q : canonicalize p = inl q -> read_to_string p = read_to_string q;
  canonicalize_file p q : is_file p = true -> canonicalize p = inl q -> is_file q = true;
  canonicalize_in_dir p names n rest : normal_names (names ++ n :: rest) -> canonicalize p = inl (absolute (names ++ n :: rest)) -> is_file (absolute names) = false;
  root_is_dir : is_file (absolute []) = false;
  file_in_dir names n : normal_names (names ++ [n]) -> is_file (absolute (names ++ [n])) = true -> is_file (absolute names) = false }.

(** An error of the file system: whether it is [ErrorKind::NotFound], and its
    text. *)
Class IoErrors : Type := { is_not_found : msg -> bool; io_error_text : msg -> string }.

(** [path.exists()], which follows links. *)
Class PathExists : Type := path_exists : string -> bool.

(** What [std::env::var] says of a name: its value, or the text of the error. *)
Class Environment : Type := env_var : string -> string + string.

(** ** TOML *)

(** [toml::Value]; tables are ordered by key. *)
Module Toml.
#[warnings="-register-all"]
Inductive Toml : Type :=
  | String (s : string)
  | Integer (z : Z)
  | Float (bits : Z)
  | Boolean (b : bool)
  | Datetime (text : string)
  | Array (l : list Toml)
  | Table (t : list (string * Toml)).
End Toml.
Abbreviation Toml := Toml.Toml.

Class TomlParser : Type := toml_from_str : string -> Toml + msg.

Definition toml_as_table (v : Toml) : option (list (string * Toml)) := match v with Toml.Table t => Some t | _ => None end.
Definition toml_as_str (v : Toml) : option string := match v with Toml.String s => Some s | _ => None end.
