(* ===== verification/RustFloat.v ===== *)
(** * [f64] of the Rust standard library

    An [f64] is an IEEE 754 binary64 datum, kept as Rocq's [spec_float] with
    precision 53 and maximal exponent 1024; NaN payloads are not kept.  The
    conversions from and to decimal text ([str::parse::<f64>] and [to_string])
    are the documented ones: the nearest binary64, ties to even, and the
    shortest decimal that reads back as the same value. *)

From stdpp Require Import base tactics list strings option numbers.
From Stdlib Require Import ZArith NArith Lia Ascii String SpecFloat.
From S2P Require Import Prelude RustStr.

Open Scope string_scope.
Open Scope list_scope.
Open Scope nat_scope.

Abbreviation f64 := spec_float.

#[export] Instance f64_eq_dec : EqDecision f64.
Proof. solve_decision. Defined.

Definition f64_prec : Z := 53.
Definition f64_emax : Z := 1024.

(** ** Arithmetic *)

Definition f64_add : f64 -> f64 -> f64 := SFadd f64_prec f64_emax.
Definition f64_sub : f64 -> f64 -> f64 := SFsub f64_prec f64_emax.
Definition f64_mul : f64 -> f64 -> f64 := SFmul f64_prec f64_emax.
Definition f64_div : f64 -> f64 -> f64 := SFdiv f64_prec f64_emax.
Definition f64_neg : f64 -> f64 := SFopp.
Definition f64_abs : f64 -> f64 := SFabs.

(** [partial_cmp]: [None] when an operand is NaN. *)
Definition f64_partial_cmp : f64 -> f64 -> option comparison := SFcompare.

(** [==], which is not reflexive. *)
Definition f64_eqb (x y : f64) : bool :=
  match f64_partial_cmp x y with Some Eq => true | _ => false end.

Definition is_finite (x : f64) : bool :=
  match x with S754_zero _ | S754_finite _ _ _ => true | _ => false end.
Definition is_nan (x : f64) : bool :=
  match x with S754_nan => true | _ => false end.

(** [n as f64]. *)
Definition f64_of_Z (n : Z) : f64 := binary_normalize f64_prec f64_emax n 0 false.

(** The integer part of a finite value, toward zero. *)
Definition f64_trunc_Z (x : f64) : Z :=
  match x with
  | S754_finite s m e =>
      let a := if (e <? 0)%Z then (Z.pos m / 2 ^ (- e))%Z else (Z.pos m * 2 ^ e)%Z in
      if s then (- a)%Z else a
  | _ => 0%Z
  end.

(** Whether a finite value is an integer. *)
Definition f64_is_integer (x : f64) : bool :=
  match x with
  | S754_finite s m e => (0 <=? e)%Z || (Z.pos m mod 2 ^ (- e) =? 0)%Z
  | S754_zero _ => true
  | _ => false
  end.

(** [x as i64]: saturating, NaN to zero. *)
Definition f64_as_i64 (x : f64) : Z :=
  match x with
  | S754_nan | S754_zero _ => 0
  | S754_infinity s => if s then i64_min else i64_max
  | S754_finite _ _ _ => Z.max i64_min (Z.min i64_max (f64_trunc_Z x))
  end%Z.

(** [x.trunc()]: the fractional bits of the mantissa are cleared. *)
Definition f64_trunc (x : f64) : f64 :=
  match x with
  | S754_finite s m e =>
      if (0 <=? e)%Z then x
      else match (Z.pos m / 2 ^ (- e) * 2 ^ (- e))%Z with
           | Z.pos p => S754_finite s p e
           | _ => S754_zero s
           end
  | _ => x
  end.

(** ** From decimal text *)

Definition ndigits (n : N) : Z := Z.of_nat (length (show_N_bytes n)).

(** The binary64 nearest to [(-1)^neg * m * 10^e]. *)
Definition f64_of_decimal (neg : bool) (m : N) (e : Z) : f64 :=
  match m with
  | N0 => S754_zero neg
  | Npos p =>
      if (310 <? ndigits m + e)%Z then S754_infinity neg
      else if (ndigits m + e <? -330)%Z then S754_zero neg
      else if (0 <=? e)%Z then
        binary_normalize f64_prec f64_emax ((if neg then Z.neg p else Z.pos p) * 10 ^ e) 0 neg
      else
        let '(mz, ez, lz) := SFdiv_core_binary f64_prec f64_emax (Z.pos p) 0 (10 ^ (- e)) 0 in
        binary_round_aux f64_prec f64_emax neg mz ez lz
  end.

(** The leading digits of a text and what follows them. *)
Fixpoint span_digits (l : list byte) : list byte * list byte :=
  match l with
  | b :: l' => if is_ascii_digit b then let '(d, r) := span_digits l' in (b :: d, r) else ([], l)
  | [] => ([], [])
  end.

Definition span_sign (l : list byte) : bool * list byte :=
  match l with
  | b :: l' => if byte_eqb b "-" then (true, l') else if byte_eqb b "+" then (false, l') else (false, l)
  | [] => (false, l)
  end.

(** [e[+-]?digits] up to the end of the text; no exponent is [0]. *)
Definition parse_exponent (l : list byte) : option Z :=
  match l with
  | [] => Some 0%Z
  | b :: l' =>
      if byte_eqb b "e" || byte_eqb b "E" then
        let '(neg, l1) := span_sign l' in
        let '(ds, r) := span_digits l1 in
        match ds, r with
        | _ :: _, [] => Some (if neg then - Z.of_N (digits_val ds) else Z.of_N (digits_val ds))%Z
        | _, _ => None
        end
      else None
  end.

(** The value of a text without digits: [inf], [infinity] and [nan] in any
    mixture of cases. *)
Definition ascii_lower (b : byte) : byte := if is_ascii_uppercase b then ascii_of_N (byte_val b + 32) else b.
Definition parse_special (neg : bool) (l : list byte) : option f64 :=
  let w := from_bytes (ascii_lower <$> l) in
  if String.eqb w "inf" || String.eqb w "infinity" then Some (S754_infinity neg)
  else if String.eqb w "nan" then Some S754_nan
  else None.

(** [s.parse::<f64>()]. *)
Definition parse_f64 (s : string) : option f64 :=
  let '(neg, l0) := span_sign (as_bytes s) in
  let '(ip, l1) := span_digits l0 in
  let '(fp, l2) := match l1 with
                   | b :: l' => if byte_eqb b "." then span_digits l' else ([], l1)
                   | [] => ([], l1)
                   end in
  match ip ++ fp with
  | [] => parse_special neg l0
  | ds => e ← parse_exponent l2;
          Some (f64_of_decimal neg (digits_val ds) (e - Z.of_nat (length fp)))
  end.

(** ** To decimal text *)

(** The shortest decimal [d * 10^k] that reads back as [m * 2^e], and among
    those of that length the closest one. *)
Definition shortest_at (m : positive) (e : Z) (p : Z) (n : nat) : option (N * Z) :=
  let k := (p - Z.of_nat n)%Z in
  let num := (Z.pos m * 2 ^ Z.max 0 e * 10 ^ Z.max 0 (- k))%Z in
  let den := (2 ^ Z.max 0 (- e) * 10 ^ Z.max 0 k)%Z in
  let lo := (num / den)%Z in
  let ok d := bool_decide (f64_of_decimal false (Z.to_N d) k = S754_finite false m e) in
  let lo_first := (2 * (num - lo * den) <=? den)%Z in
  if lo_first && ok lo then Some (Z.to_N lo, k)
  else if ok (lo + 1)%Z then Some (Z.to_N (lo + 1), k)
  else if ok lo then Some (Z.to_N lo, k)
  else None.

Fixpoint shortest_from (fuel : nat) (m : positive) (e : Z) (p : Z) (n : nat) : N * Z :=
  match shortest_at m e p n, fuel with
  | Some r, _ => r
  | None, S fuel' => shortest_from fuel' m e p (S n)
  | None, O => (0%N, 0%Z)
  end.

(** The number [p] of digits before the decimal point, negative for the zeros
    after it. *)
Definition decimal_point (m : positive) (e : Z) : Z :=
  (ndigits (Z.to_N (Z.pos m * 2 ^ Z.max 0 e * 10 ^ 400 / 2 ^ Z.max 0 (- e))) - 400)%Z.

Definition shortest (m : positive) (e : Z) : N * Z :=
  shortest_from 17 m e (decimal_point m e) 1.

Definition layout_decimal (ds : list byte) (k : Z) : list byte :=
  let n := Z.of_nat (length ds) in
  if (0 <=? k)%Z then ds ++ replicate (Z.to_nat k) (digit_byte 0)
  else if (- k <? n)%Z then
    take (Z.to_nat (n + k)) ds ++ ["."%char] ++ drop (Z.to_nat (n + k)) ds
  else digit_byte 0 :: "."%char :: replicate (Z.to_nat (- k - n)) (digit_byte 0) ++ ds.

(** [x.to_string()]: positional notation, never an exponent. *)
Definition show_f64 (x : f64) : string :=
  match x with
  | S754_zero s => if s then "-0" else "0"
  | S754_infinity s => if s then "-inf" else "inf"
  | S754_nan => "NaN"
  | S754_finite s m e =>
      let '(d, k) := shortest m e in
      from_bytes ((if s then ["-"%char] else []) ++ layout_decimal (show_N_bytes d) k)
  end.

Example f64_reads_inf : parse_f64 "-Infinity" = Some (S754_infinity true).
Proof. reflexivity. Qed.

Example f64_reads_tenth : parse_f64 "0.1" = Some (S754_finite false 7205759403792794 (-56)).
Proof. vm_compute. reflexivity. Qed.

Example f64_shows_tenth :
  show_f64 (f64_add (f64_of_decimal false 1 (-1)) (f64_of_decimal false 2 (-1)))
  = "0.30000000000000004".
Proof. vm_compute. reflexivity. Qed.
