(* ===== verification/Syntax.v ===== *)
(** * Tokens and the syntax tree

    [crates/ricochet_syntax/src/token.rs] and [ast.rs].  Byte offsets are
    [nat].  [Expr] and [SpannedExpr] are mutually inductive, nested in lists;
    [SpannedExpr_rect'] is their induction principle. *)

From stdpp Require Import base tactics list strings option numbers.
From Stdlib Require Import ZArith Ascii String.
From S2P Require Import Prelude RustStr RustFloat.

Open Scope list_scope.
Open Scope nat_scope.

Record Span : Type := mkSpan { start : nat; end_ : nat }.

#[export] Instance Span_eq_dec : EqDecision Span.
Proof. solve_decision. Defined.

Module TokenKind.
Inductive TokenKind : Type :=
  | Symbol (s : string)
  | DotWord (s : string)
  | Reference (s : string)
  | String (s : string)
  | Number (s : string)
  | DocComment (s : string)
  | LeftParen
  | RightParen
  | LeftBracket
  | RightBracket
  | Arrow
  | Newline
  | Eof.
End TokenKind.

Abbreviation TokenKind := TokenKind.TokenKind.

#[export] Instance TokenKind_eq_dec : EqDecision TokenKind.
Proof. solve_decision. Defined.

Record Token : Type := mkToken { kind : TokenKind; tspan : Span }.

#[export] Instance Token_eq_dec : EqDecision Token.
Proof. solve_decision. Defined.

Record ArgsDecl : Type := mkArgs { inputs : list string; outputs : list string }.

#[export] Instance ArgsDecl_eq_dec : EqDecision ArgsDecl.
Proof. solve_decision. Defined.

Module Expr.
Inductive Expr : Type :=
  | Symbol (s : string)
  | DotWord (s : string)
  | Reference (s : string)
  | String (s : string)
  | Number (n : Z)
  | Float (x : f64)
  | Args (args : ArgsDecl)
  | Block (body : list SpannedExpr)
  | Sequence (exprs : list SpannedExpr)
  | If (then_body else_body : list SpannedExpr)
  | While (condition body : list SpannedExpr)
with SpannedExpr : Type :=
  | mkSpanned (expr : Expr) (span : Span).
End Expr.

Abbreviation Expr := Expr.Expr.
Abbreviation SpannedExpr := Expr.SpannedExpr.
Abbreviation mkSpanned := Expr.mkSpanned.

Definition expr (e : SpannedExpr) : Expr := let 'mkSpanned x _ := e in x.
Definition span (e : SpannedExpr) : Span := let 'mkSpanned _ s := e in s.

Record MethodDecl : Type := mkMethod {
  method_name : string; method_args : option ArgsDecl; method_body : list SpannedExpr;
  method_docs : list string; method_span : Span }.

Record FunctionDecl : Type := mkFunction {
  function_name : string; function_args : option ArgsDecl; function_body : list SpannedExpr;
  function_docs : list string; function_span : Span }.

Record MacroDecl : Type := mkMacro {
  macro_name : string; macro_args : option ArgsDecl; macro_body : list SpannedExpr;
  macro_docs : list string; macro_span : Span }.

Module Item.
Inductive Item : Type :=
  | Class (decl : ClassDecl)
  | Method (decl : MethodDecl)
  | Function (decl : FunctionDecl)
  | Macro (decl : MacroDecl)
  | Expr (e : Expr) (s : Span) (docs : list string)
with ClassDecl : Type :=
  | mkClass (class_name superclass : string) (class_body : list Item) (class_docs : list string)
      (class_span : Span).
End Item.

Abbreviation Item := Item.Item.
Abbreviation ClassDecl := Item.ClassDecl.
Abbreviation mkClass := Item.mkClass.

Record Module_ : Type := mkModule { items : list Item }.

(** [T { docs, ..decl }]. *)
Definition class_with_docs (docs : list string) (c : ClassDecl) : ClassDecl :=
  let 'mkClass name superclass body _ sp := c in mkClass name superclass body docs sp.
Definition function_with_docs (docs : list string) (f : FunctionDecl) : FunctionDecl :=
  mkFunction (function_name f) (function_args f) (function_body f) docs (function_span f).
Definition macro_with_docs (docs : list string) (m : MacroDecl) : MacroDecl :=
  mkMacro (macro_name m) (macro_args m) (macro_body m) docs (macro_span m).

(** ** Size and induction *)

Fixpoint expr_size (e : Expr) : nat :=
  let sum := fix sum (l : list SpannedExpr) : nat :=
    match l with
    | [] => 0
    | mkSpanned e' _ :: l' => S (expr_size e') + sum l'
    end in
  match e with
  | Expr.Block b => S (sum b)
  | Expr.Sequence b => S (sum b)
  | Expr.If t f => S (sum t + sum f)
  | Expr.While c b => S (sum c + sum b)
  | _ => 1
  end.

Definition exprs_size (l : list SpannedExpr) : nat :=
  list_sum ((fun e => S (expr_size (expr e))) <$> l).

Section induction.
Variable P : Expr -> Prop.

Let Q (l : list SpannedExpr) : Prop := Forall (fun e => P (expr e)) l.

Hypothesis HSymbol : forall s, P (Expr.Symbol s).
Hypothesis HDotWord : forall s, P (Expr.DotWord s).
Hypothesis HReference : forall s, P (Expr.Reference s).
Hypothesis HString : forall s, P (Expr.String s).
Hypothesis HNumber : forall n, P (Expr.Number n).
Hypothesis HFloat : forall x, P (Expr.Float x).
Hypothesis HArgs : forall a, P (Expr.Args a).
Hypothesis HBlock : forall b, Q b -> P (Expr.Block b).
Hypothesis HSequence : forall b, Q b -> P (Expr.Sequence b).
Hypothesis HIf : forall t f, Q t -> Q f -> P (Expr.If t f).
Hypothesis HWhile : forall c b, Q c -> Q b -> P (Expr.While c b).

Fixpoint Expr_ind' (e : Expr) : P e :=
  let all := fix all (l : list SpannedExpr) : Q l :=
    match l with
    | [] => Forall_nil_2 _
    | mkSpanned e' s :: l' => Forall_cons_2 (fun e => P (expr e)) (mkSpanned e' s) l' (Expr_ind' e') (all l')
    end in
  match e with
  | Expr.Symbol s => HSymbol s
  | Expr.DotWord s => HDotWord s
  | Expr.Reference s => HReference s
  | Expr.String s => HString s
  | Expr.Number n => HNumber n
  | Expr.Float x => HFloat x
  | Expr.Args a => HArgs a
  | Expr.Block b => HBlock b (all b)
  | Expr.Sequence b => HSequence b (all b)
  | Expr.If t f => HIf t f (all t) (all f)
  | Expr.While c b => HWhile c b (all c) (all b)
  end.

Lemma exprs_ind' (l : list SpannedExpr) : Q l.
Proof. induction l as [|[e s] l IH]; constructor; [apply Expr_ind' | done]. Qed.
End induction.

Lemma expr_size_pos e : 0 < expr_size e.
Proof. destruct e; simpl; lia. Qed.
