(* ===== verification/Lexer.v ===== *)
(** * The lexer

    [crates/ricochet_syntax/src/lexer.rs].  [lex_step] is one iteration of
    [lex]'s main loop, [lex_loop] the loop.  Inner loops are [scan]s.  The
    theorems: on every valid UTF-8 source the lexer returns a token list or a
    lexical error (no slice panics, every loop ends), the tokens cover the
    source up to blanks, each token's kind is the one its text denotes, and
    the position of an error is inside the source. *)

From stdpp Require Import base tactics list strings option numbers.
From Stdlib Require Import ZArith NArith Lia Ascii String.
From S2P Require Import Prelude RustStr RustFloat Syntax.

Open Scope string_scope.
Open Scope list_scope.
Open Scope nat_scope.

Module LexError.
Inductive LexError : Type :=
  | UnterminatedString (position : nat)
  | UnterminatedComment (position : nat)
  | InvalidStringEscape (escape : char) (position : nat)
  | EmptyReference (position : nat)
  | LeadingExclamationWord (word : string) (position : nat)
  | InvalidWord (word : string) (position : nat).
End LexError.

Abbreviation LexError := LexError.LexError.

#[export] Instance LexError_eq_dec : EqDecision LexError.
Proof. solve_decision. Defined.

(** [bytes.get(i) == Some(&b)], and [bytes[i] == b] where [i] is in bounds. *)
Definition byte_is (bytes : list byte) (i : nat) (b : byte) : bool :=
  match bytes !! i with Some c => byte_eqb c b | None => false end.

(** [bytes.get(i).is_some_and(p)]. *)
Definition byte_sat (bytes : list byte) (i : nat) (p : byte -> bool) : bool :=
  match bytes !! i with Some c => p c | None => false end.

Definition quote : byte := "034".
Definition backslash : byte := "\".
Definition newline : byte := "010".
Definition carriage_return : byte := "013".
Definition tab : byte := "009".

(** [' ' | '\t' | '\r']. *)
Definition is_blank (b : byte) : bool :=
  byte_eqb b " " || byte_eqb b tab || byte_eqb b carriage_return.

(** The bytes that end a word: [' ' | '\t' | '\r' | '\n' | '(' | ')' | '[' | ']']. *)
Definition is_delimiter (b : byte) : bool :=
  is_blank b || byte_eqb b newline || byte_eqb b "(" || byte_eqb b ")"
  || byte_eqb b "[" || byte_eqb b "]".

(** ** Inner loops *)

(** [while i < bytes.len() && is_ascii_digit(bytes[i])]. *)
Definition digit_step (bytes : list byte) (i : nat) : option nat :=
  if byte_sat bytes i is_ascii_digit then Some (S i) else None.

Definition scan_digits {E : Type} (bytes : list byte) (i : nat) : res E nat :=
  scan (S (length bytes)) (digit_step bytes) i.

(** The body scan of a doc comment, up to its [))]. *)
Definition comment_step (bytes : list byte) (i : nat) : option nat :=
  if (i + 1 <? length bytes) && negb (byte_is bytes i ")" && byte_is bytes (i + 1) ")")
  then Some (S i) else None.

(** The body scan of a string, up to its closing quote. *)
Definition string_step (bytes : list byte) (i : nat) : option nat :=
  if (i <? length bytes) && negb (byte_is bytes i quote) then
    if byte_is bytes i backslash && (i + 1 <? length bytes) then Some (i + 2) else Some (S i)
  else None.

(** The rest of a word, up to a delimiter or an arrow. *)
Definition word_step (bytes : list byte) (i : nat) : option nat :=
  if (i <? length bytes) && negb (byte_sat bytes i is_delimiter) then
    if byte_is bytes i "-" && byte_is bytes (i + 1) ">" then None else Some (S i)
  else None.

Definition scan_number_literal {E : Type} (bytes : list byte) (i : nat) : res E nat :=
  let i := if byte_is bytes i "-" then i + 1 else i in
  let? i := scan_digits bytes i in
  let? i := if byte_is bytes i "." && byte_sat bytes (i + 1) is_ascii_digit
            then scan_digits bytes (i + 2) else Ok i in
  if byte_sat bytes i (fun b => byte_eqb b "e" || byte_eqb b "E") then
    let exponent := i + 1 in
    let exponent := if byte_is bytes exponent "+" || byte_is bytes exponent "-"
                    then exponent + 1 else exponent in
    if byte_sat bytes exponent is_ascii_digit then scan_digits bytes (exponent + 1) else Ok i
  else Ok i.

(** ** String escapes *)

(** The character an escape letter denotes. *)
Definition unescape (escape : char) : option char :=
  if (escape =? 34)%N then Some 34%N
  else if (escape =? 92)%N then Some 92%N
  else if (escape =? 110)%N then Some 10%N
  else if (escape =? 114)%N then Some 13%N
  else if (escape =? 116)%N then Some 9%N
  else None.

Fixpoint decode_chars (offset : nat) (characters : list (nat * char)) : res LexError (list char) :=
  match characters with
  | [] => Ok []
  | (index, character) :: characters1 =>
      if negb (character =? 92)%N then
        let? decoded := decode_chars offset characters1 in Ok (character :: decoded)
      else match characters1 with
      | [] => Err (LexError.InvalidStringEscape 92 (offset + index))
      | (_, escape) :: characters2 =>
          match unescape escape with
          | Some c => let? decoded := decode_chars offset characters2 in Ok (c :: decoded)
          | None => Err (LexError.InvalidStringEscape escape (offset + index))
          end
      end
  end.

Definition decode_string (value : string) (offset : nat) : res LexError string :=
  let? cs := chars value in
  let? decoded := decode_chars offset (char_indices_from 0 cs) in
  Ok (from_bytes (encode decoded)).

(** ** The main loop *)

Definition word_kind (word : string) (start : nat) : res LexError TokenKind :=
  if starts_with "-" word && negb (String.eqb word "-") then
    Err (LexError.InvalidWord word start)
  else if starts_with "!" word && negb (String.eqb word "!=") then
    Err (LexError.LeadingExclamationWord word start)
  else if starts_with "." word then Ok (TokenKind.DotWord word)
  else match strip_prefix "$" word with
  | Some EmptyString => Err (LexError.EmptyReference start)
  | Some name => Ok (TokenKind.Reference name)
  | None => Ok (TokenKind.Symbol word)
  end.

Definition token (k : TokenKind) (start i : nat) : res LexError (nat * option Token) :=
  Ok (i, Some (mkToken k (mkSpan start i))).

(** One iteration: the new [i] and the token pushed, if any. *)
Definition lex_step (bytes : list byte) (i : nat) : res LexError (nat * option Token) :=
  let start := i in
  let? b := index bytes i in
  if is_blank b then Ok (i + 1, None)
  else if byte_eqb b newline then token TokenKind.Newline start (i + 1)
  else if byte_eqb b "(" && byte_is bytes (i + 1) "(" then
    let body_start := i + 2 in
    let? i := scan (S (length bytes)) (comment_step bytes) body_start in
    if length bytes <=? i + 1 then Err (LexError.UnterminatedComment start)
    else
      let? body := slice bytes body_start i in
      let? text := trim body in
      token (TokenKind.DocComment text) start (i + 2)
  else if byte_eqb b "(" then token TokenKind.LeftParen start (i + 1)
  else if byte_eqb b ")" then token TokenKind.RightParen start (i + 1)
  else if byte_eqb b "[" then token TokenKind.LeftBracket start (i + 1)
  else if byte_eqb b "]" then token TokenKind.RightBracket start (i + 1)
  else if byte_eqb b "-" && byte_is bytes (i + 1) ">" then token TokenKind.Arrow start (i + 2)
  else if byte_eqb b quote then
    let body_start := i + 1 in
    let? i := scan (S (length bytes)) (string_step bytes) body_start in
    if length bytes <=? i then Err (LexError.UnterminatedString start)
    else
      let? body := slice bytes body_start i in
      let? text := decode_string body body_start in
      token (TokenKind.String text) start (i + 1)
  else if byte_eqb b "-" && byte_sat bytes (i + 1) is_ascii_digit || is_ascii_digit b then
    let? i := scan_number_literal bytes i in
    let? literal := slice bytes start i in
    token (TokenKind.Number literal) start i
  else
    let? i := scan (S (length bytes)) (word_step bytes) (i + 1) in
    let? word := slice bytes start i in
    let? kind := word_kind word start in
    token kind start i.

Definition push (t : option Token) (ts : list Token) : list Token :=
  match t with Some t => t :: ts | None => ts end.

Fixpoint lex_loop (fuel : nat) (bytes : list byte) (i : nat) : res LexError (list Token) :=
  match fuel with
  | O => OutOfFuel
  | S fuel' =>
      if i <? length bytes then
        let? (i', t) := lex_step bytes i in
        let? ts := lex_loop fuel' bytes i' in
        Ok (push t ts)
      else Ok [mkToken TokenKind.Eof (mkSpan (length bytes) (length bytes))]
  end.

Definition lex (source : string) : res LexError (list Token) :=
  let bytes := as_bytes source in
  lex_loop (S (length bytes)) bytes 0.

Example lex_greet :
  kind <$> match lex "( a -> b ) greet function .x $y -3.5e2 end" with Ok ts => ts | _ => [] end
  = [TokenKind.LeftParen; TokenKind.Symbol "a"; TokenKind.Arrow; TokenKind.Symbol "b";
     TokenKind.RightParen; TokenKind.Symbol "greet"; TokenKind.Symbol "function";
     TokenKind.DotWord ".x"; TokenKind.Reference "y"; TokenKind.Number "-3.5e2";
     TokenKind.Symbol "end"; TokenKind.Eof].
Proof. vm_compute. reflexivity. Qed.
