(* ===== verification/LexerProofs.v ===== *)
(** * The lexer's theorems

    [covers] is the declarative reading of a token list: blanks, then a token
    whose text is what its kind says, and so on up to the end of the source. *)

From stdpp Require Import base tactics list strings option numbers.
From Stdlib Require Import ZArith NArith Lia Ascii String.
From S2P Require Import Prelude RustStr RustFloat Syntax Lexer.

Open Scope string_scope.
Open Scope list_scope.
Open Scope nat_scope.

(** [-? digits (. digits)? ([eE] [+-]? digits)?] *)
Definition digits1 (l : list byte) : Prop := l <> [] /\ Forall (fun b => is_ascii_digit b = true) l.
Definition sign_opt (signs : list byte) (l : list byte) : Prop := l = [] \/ exists b, b ∈ signs /\ l = [b].
Definition number_text (l : list byte) : Prop :=
  exists sg ip fp ep, l = sg ++ ip ++ fp ++ ep
    /\ sign_opt ["-"%char] sg /\ digits1 ip
    /\ (fp = [] \/ exists ds, fp = "."%char :: ds /\ digits1 ds)
    /\ (ep = [] \/ exists x sg' ds, ep = x :: sg' ++ ds /\ x ∈ ["e"%char; "E"%char]
          /\ sign_opt ["+"%char; "-"%char] sg' /\ digits1 ds).

(** A word: no delimiter and no arrow after its first byte. *)
Definition word_text (l : list byte) : Prop :=
  match l with
  | [] => False
  | b :: l' => is_delimiter b = false /\ b <> quote
      /\ Forall (fun b => is_delimiter b = false) l'
      /\ forall i, l' !! i = Some "-"%char -> l' !! S i <> Some ">"%char
  end.

Definition comment_body (l : list byte) : Prop :=
  forall i, l !! i = Some ")"%char -> l !! S i <> Some ")"%char.

Definition token_text (l : list byte) (k : TokenKind) : Prop :=
  match k with
  | TokenKind.Newline => l = [newline]
  | TokenKind.LeftParen => l = ["("%char]
  | TokenKind.RightParen => l = [")"%char]
  | TokenKind.LeftBracket => l = ["["%char]
  | TokenKind.RightBracket => l = ["]"%char]
  | TokenKind.Arrow => l = ["-"%char; ">"%char]
  | TokenKind.DocComment t => exists body,
      l = ["("%char; "("%char] ++ body ++ [")"%char; ")"%char] /\ comment_body body
      /\ trim (E:=LexError) (from_bytes body) = Ok t
  | TokenKind.String t => exists body,
      l = quote :: body ++ [quote] /\ forall off, decode_string (from_bytes body) off = Ok t
  | TokenKind.Number n => as_bytes n = l /\ number_text l
  | TokenKind.Symbol w => as_bytes w = l /\ word_text l
      /\ (starts_with "-" w = true -> w = "-") /\ (starts_with "!" w = true -> w = "!=")
      /\ starts_with "." w = false /\ starts_with "$" w = false
  | TokenKind.DotWord w => as_bytes w = l /\ word_text l /\ starts_with "." w = true
  | TokenKind.Reference n => n <> "" /\ l = "$"%char :: as_bytes n /\ word_text l
  | TokenKind.Eof => False
  end.

Definition blanks (l : list byte) : Prop := Forall (fun b => is_blank b = true) l.

Fixpoint covers (bytes : list byte) (i : nat) (ts : list Token) : Prop :=
  match ts with
  | [] => False
  | [t] => i <= length bytes /\ blanks (drop i bytes)
           /\ t = mkToken TokenKind.Eof (mkSpan (length bytes) (length bytes))
  | t :: ts' =>
      let a := start (tspan t) in
      let b := end_ (tspan t) in
      i <= a /\ a < b /\ b <= length bytes
      /\ is_char_boundary bytes a = true /\ is_char_boundary bytes b = true
      /\ blanks (sub bytes i a) /\ token_text (sub bytes a b) (kind t)
      /\ covers bytes b ts'
  end.

(** The position an error names, and the byte found there. *)
Definition error_at (e : LexError) : nat * byte :=
  match e with
  | LexError.UnterminatedString p => (p, quote)
  | LexError.UnterminatedComment p => (p, "("%char)
  | LexError.InvalidStringEscape _ p => (p, backslash)
  | LexError.EmptyReference p => (p, "$"%char)
  | LexError.LeadingExclamationWord _ p => (p, "!"%char)
  | LexError.InvalidWord _ p => (p, "-"%char)
  end.

(** The word an error carries is the text at its position. *)
Definition error_word_ok (bytes : list byte) (e : LexError) : Prop :=
  match e with
  | LexError.LeadingExclamationWord w p | LexError.InvalidWord w p =>
      let q := p + length (as_bytes w) in
      q <= length bytes /\ is_char_boundary bytes q = true /\ as_bytes w = sub bytes p q
  | _ => True
  end.

Definition error_ok (bytes : list byte) (e : LexError) : Prop :=
  bytes !! fst (error_at e) = Some (snd (error_at e)) /\ error_word_ok bytes e.

(** ** Bytes and slices *)

Lemma byte_eqb_true a b : byte_eqb a b = true <-> a = b.
Proof. apply Ascii.eqb_eq. Qed.

Lemma byte_eqb_refl a : byte_eqb a a = true.
Proof. apply Ascii.eqb_refl. Qed.

Lemma byte_is_true bytes i b : byte_is bytes i b = true <-> bytes !! i = Some b.
Proof.
  unfold byte_is. destruct (bytes !! i) as [c|]; [|naive_solver].
  rewrite byte_eqb_true. naive_solver.
Qed.

Lemma byte_sat_true bytes i p :
  byte_sat bytes i p = true <-> exists b, bytes !! i = Some b /\ p b = true.
Proof. unfold byte_sat. destruct (bytes !! i) as [c|]; naive_solver. Qed.

Lemma byte_is_false bytes i b : byte_is bytes i b = false <-> bytes !! i <> Some b.
Proof. rewrite <- byte_is_true. by destruct (byte_is bytes i b). Qed.

(** ** Scans *)

(** A scan whose step goes forward by one while [p] holds. *)
Lemma scan_while {E : Type} (bytes : list byte) (step : nat -> option nat) (p : nat -> bool) i :
  (forall k, step k = if p k then Some (S k) else None) ->
  (forall k, p k = true -> k < length bytes) ->
  exists j, scan (E:=E) (S (length bytes)) step i = Ok j
    /\ i <= j /\ (i <= length bytes -> j <= length bytes)
    /\ (forall k, i <= k < j -> p k = true) /\ p j = false.
Proof.
  intros Hstep Hp.
  destruct (scan_total (E:=E) step (length bytes)) with (fuel := S (length bytes)) (i := i)
    as (j & Hj & Hle & Hnone); [|lia|].
  { intros k k'. rewrite Hstep. destruct (p k) eqn:Hk; [|done]. intros [= <-]. apply Hp in Hk. lia. }
  exists j. split; [done|]. split; [done|].
  rewrite Hstep in Hnone. destruct (p j) eqn:Hpj; [done|].
  set (P := fun j => i <= j /\ (i <= length bytes -> j <= length bytes)
              /\ forall k, i <= k < j -> p k = true).
  assert (HP : P j).
  { eapply (scan_inv (E:=E) step P); [|split; [|split]|exact Hj]; try lia.
    intros k k' (H1 & H2 & H3). rewrite Hstep. destruct (p k) eqn:Hk; [|done]. intros [= <-].
    split; [lia|]. split; [intros; apply Hp in Hk; lia|]. intros m Hm.
    destruct (decide (m = k)) as [->|]; [done|]. apply H3. lia. }
  destruct HP as (_ & ? & ?). done.
Qed.

Lemma scan_digits_spec {E : Type} bytes i :
  exists j, scan_digits (E:=E) bytes i = Ok j
    /\ i <= j /\ (i <= length bytes -> j <= length bytes)
    /\ (forall k, i <= k < j -> byte_sat bytes k is_ascii_digit = true)
    /\ byte_sat bytes j is_ascii_digit = false.
Proof.
  apply (scan_while bytes _ (fun k => byte_sat bytes k is_ascii_digit)); [done|].
  intros k. rewrite byte_sat_true. intros (b & Hb & _). by eapply lookup_lt_Some.
Qed.

Lemma comment_scan {E : Type} bytes i :
  exists j, scan (E:=E) (S (length bytes)) (comment_step bytes) i = Ok j
    /\ i <= j
    /\ (forall k, i <= k < j -> bytes !! k = Some ")"%char -> bytes !! S k <> Some ")"%char)
    /\ (j + 1 < length bytes -> bytes !! j = Some ")"%char /\ bytes !! S j = Some ")"%char).
Proof.
  destruct (scan_while (E:=E) bytes (comment_step bytes)
    (fun k => (k + 1 <? length bytes) && negb (byte_is bytes k ")" && byte_is bytes (k + 1) ")")) i)
    as (j & Hj & Hle & _ & Hall & Hstop).
  - done.
  - intros k. rewrite andb_true_iff, Nat.ltb_lt. lia.
  - exists j. split; [done|]. split; [done|]. split.
    + intros k Hk H1 H2. apply Hall in Hk. rewrite andb_true_iff, negb_true_iff, andb_false_iff in Hk.
      rewrite !byte_is_false, Nat.add_1_r in Hk. naive_solver.
    + intros Hlt. apply andb_false_iff in Hstop. rewrite Nat.ltb_ge in Hstop.
      destruct Hstop as [|Hstop]; [lia|]. apply negb_false_iff, andb_true_iff in Hstop.
      by rewrite !byte_is_true, Nat.add_1_r in Hstop.
Qed.

Lemma string_scan {E : Type} bytes i :
  exists j, scan (E:=E) (S (length bytes)) (string_step bytes) i = Ok j
    /\ i <= j /\ (j < length bytes -> bytes !! j = Some quote).
Proof.
  assert (Hstep : forall k k', string_step bytes k = Some k' -> k < length bytes /\ k < k').
  { intros k k'. unfold string_step. destruct (Nat.ltb_spec k (length bytes)); [|done]. simpl.
    repeat case_match; intros [= <-]; lia. }
  destruct (scan_total (E:=E) (string_step bytes) (length bytes) Hstep (S (length bytes)) i)
    as (j & Hj & Hle & Hnone); [lia|].
  exists j. split; [done|]. split; [done|]. intros Hlt. revert Hnone. unfold string_step.
  destruct (Nat.ltb_spec j (length bytes)); [|lia]. simpl.
  destruct (byte_is bytes j quote) eqn:Hq; [by apply byte_is_true in Hq|]. simpl.
  by repeat case_match.
Qed.

Lemma word_scan {E : Type} bytes i :
  exists j, scan (E:=E) (S (length bytes)) (word_step bytes) i = Ok j
    /\ i <= j /\ (i <= length bytes -> j <= length bytes)
    /\ (forall k b, i <= k < j -> bytes !! k = Some b -> is_delimiter b = false)
    /\ (forall k, i <= k < j -> bytes !! k = Some "-"%char -> bytes !! S k <> Some ">"%char)
    /\ (j < length bytes -> exists b, bytes !! j = Some b
          /\ (is_delimiter b = true \/ b = "-"%char)).
Proof.
  destruct (scan_while (E:=E) bytes (word_step bytes)
    (fun k => (k <? length bytes) && negb (byte_sat bytes k is_delimiter)
              && negb (byte_is bytes k "-" && byte_is bytes (k + 1) ">")) i)
    as (j & Hj & Hle & Hbd & Hall & Hstop).
  - intros k. unfold word_step. by repeat case_match.
  - intros k. rewrite !andb_true_iff, Nat.ltb_lt. lia.
  - exists j. split; [done|]. split; [done|]. split; [done|]. split; [|split].
    + intros k b Hk Hb. apply Hall in Hk. rewrite !andb_true_iff, !negb_true_iff in Hk.
      unfold byte_sat in Hk. rewrite Hb in Hk. tauto.
    + intros k Hk H1 H2. apply Hall in Hk.
      rewrite !andb_true_iff, !negb_true_iff, andb_false_iff, !byte_is_false, Nat.add_1_r in Hk.
      naive_solver.
    + intros Hlt. destruct (lookup_lt_is_Some_2 bytes j Hlt) as [b Hb]. exists b. split; [done|].
      rewrite !andb_false_iff, !negb_false_iff, Nat.ltb_ge, andb_true_iff, !byte_is_true in Hstop.
      rewrite byte_sat_true in Hstop. naive_solver lia.
Qed.

Lemma byte_sat_lt bytes i p : byte_sat bytes i p = true -> i < length bytes.
Proof. rewrite byte_sat_true. intros (b & Hb & _). by eapply lookup_lt_Some. Qed.

Lemma byte_is_lt bytes i b : byte_is bytes i b = true -> i < length bytes.
Proof. rewrite byte_is_true. apply lookup_lt_Some. Qed.

(** A nonempty run of digits. *)
Lemma digit_run {E : Type} bytes i :
  byte_sat bytes i is_ascii_digit = true ->
  exists j, scan_digits (E:=E) bytes i = Ok j
    /\ scan_digits (E:=E) bytes (i + 1) = Ok j
    /\ i < j <= length bytes /\ digits1 (sub bytes i j)
    /\ byte_sat bytes (j - 1) is_ascii_digit = true
    /\ byte_sat bytes j is_ascii_digit = false.
Proof.
  intros Hi. assert (Hlt := byte_sat_lt _ _ _ Hi).
  destruct (scan_digits_spec (E:=E) bytes i) as (j & Hj & Hle & Hbd & Hall & Hstop).
  assert (i <> j) by (intros ->; congruence).
  assert (j <= length bytes) by lia.
  exists j. split; [done|]. split.
  { destruct (scan_digits_spec (E:=E) bytes (i + 1)) as (j' & Hj' & Hle' & _ & Hall' & Hstop').
    rewrite Hj'. f_equal. destruct (decide (j' < j)) as [|].
    - rewrite Hall in Hstop' by lia. done.
    - destruct (decide (j < j')) as [|]; [|lia]. rewrite Hall' in Hstop by lia. done. }
  split; [lia|]. split; [|split; [apply Hall; lia|done]].
  split.
  - intros Hnil. apply (f_equal length) in Hnil. rewrite sub_length in Hnil by done. simpl in Hnil. lia.
  - apply sub_Forall; [done|]. intros k c Hk Hc. specialize (Hall k Hk).
    apply byte_sat_true in Hall as (c' & Hc' & ?). congruence.
Qed.

(** The optional sign before a run. *)
Lemma sign_text bytes i (b : bool) (signs : list byte) :
  (b = true -> exists c, c ∈ signs /\ bytes !! i = Some c) ->
  sign_opt signs (sub bytes i (if b then i + 1 else i)).
Proof.
  destruct b; intros H.
  - destruct H as (c & Hc & Hi); [done|]. right. exists c. split; [done|].
    rewrite (sub_cons _ _ _ c) by (done || lia). by rewrite Nat.add_1_r, sub_empty.
  - left. apply sub_empty.
Qed.

Definition number_start (bytes : list byte) (i : nat) : bool :=
  byte_is bytes i "-" && byte_sat bytes (i + 1) is_ascii_digit || byte_sat bytes i is_ascii_digit.

Lemma fraction_scan {E : Type} bytes i :
  i <= length bytes -> byte_sat bytes (i - 1) is_ascii_digit = true ->
  exists j, (if byte_is bytes i "." && byte_sat bytes (i + 1) is_ascii_digit
             then scan_digits (E:=E) bytes (i + 2) else Ok i) = Ok j
    /\ i <= j <= length bytes /\ byte_sat bytes (j - 1) is_ascii_digit = true
    /\ (sub bytes i j = [] \/ exists ds, sub bytes i j = "."%char :: ds /\ digits1 ds).
Proof.
  intros Hi Hlast. destruct (byte_is bytes i "." && byte_sat bytes (i + 1) is_ascii_digit) eqn:Hc.
  - apply andb_true_iff in Hc as [Hdot Hd]. apply byte_is_true in Hdot.
    destruct (digit_run (E:=E) bytes (i + 1) Hd) as (j & _ & Hj & Hij & Hds & Hl & _).
    exists j. replace (i + 2) with (i + 1 + 1) by lia. split; [done|]. split; [lia|]. split; [done|].
    right. exists (sub bytes (i + 1) j). split; [|done]. rewrite Nat.add_1_r. apply sub_cons; [lia|done].
  - exists i. split; [done|]. split; [lia|]. split; [done|]. left. apply sub_empty.
Qed.

Lemma exponent_scan {E : Type} bytes i :
  i <= length bytes -> byte_sat bytes (i - 1) is_ascii_digit = true ->
  exists j,
    (if byte_sat bytes i (fun b => byte_eqb b "e" || byte_eqb b "E") then
       let exponent := i + 1 in
       let exponent := if byte_is bytes exponent "+" || byte_is bytes exponent "-"
                       then exponent + 1 else exponent in
       if byte_sat bytes exponent is_ascii_digit
       then scan_digits (E:=E) bytes (exponent + 1) else Ok i
     else Ok i) = Ok j
    /\ i <= j <= length bytes /\ byte_sat bytes (j - 1) is_ascii_digit = true
    /\ (sub bytes i j = [] \/ exists x sg' ds, sub bytes i j = x :: sg' ++ ds /\ x ∈ ["e"%char; "E"%char]
          /\ sign_opt ["+"%char; "-"%char] sg' /\ digits1 ds).
Proof.
  intros Hi Hlast.
  assert (Hno : exists j, Ok i = Ok (E:=E) j /\ i <= j <= length bytes
    /\ byte_sat bytes (j - 1) is_ascii_digit = true
    /\ (sub bytes i j = [] \/ exists x sg' ds, sub bytes i j = x :: sg' ++ ds /\ x ∈ ["e"%char; "E"%char]
          /\ sign_opt ["+"%char; "-"%char] sg' /\ digits1 ds)).
  { exists i. split; [done|]. split; [lia|]. split; [done|]. left. apply sub_empty. }
  destruct (byte_sat bytes i _) eqn:He; [|done].
  apply byte_sat_true in He as (x & Hx & He). apply orb_true_iff in He.
  rewrite !byte_eqb_true in He. cbv zeta.
  set (sgn := byte_is bytes (i + 1) "+" || byte_is bytes (i + 1) "-").
  set (ex := if sgn then i + 1 + 1 else i + 1).
  destruct (byte_sat bytes ex is_ascii_digit) eqn:Hd; [|done].
  destruct (digit_run (E:=E) bytes ex Hd) as (j & _ & Hj & Hij & Hds & Hl & _).
  assert (i + 1 <= ex) by (unfold ex; destruct sgn; lia).
  exists j. split; [done|]. split; [lia|]. split; [done|]. right.
  exists x, (sub bytes (i + 1) ex), (sub bytes ex j).
  split; [|split; [|split; [|done]]].
  - rewrite (sub_cons _ _ _ x) by (done || lia). rewrite <- Nat.add_1_r. f_equal. apply sub_app; lia.
  - rewrite list_elem_of_In. simpl. naive_solver.
  - apply sign_text. unfold sgn. rewrite orb_true_iff, !byte_is_true. intros Hs.
    setoid_rewrite list_elem_of_In. simpl. naive_solver.
Qed.

Lemma number_scan {E : Type} bytes i :
  number_start bytes i = true ->
  exists j, scan_number_literal (E:=E) bytes i = Ok j
    /\ i < j <= length bytes /\ number_text (sub bytes i j)
    /\ byte_sat bytes (j - 1) is_ascii_digit = true.
Proof.
  intros Hs. set (i1 := if byte_is bytes i "-" then i + 1 else i).
  assert (Hd : byte_sat bytes i1 is_ascii_digit = true).
  { unfold i1, number_start in *. destruct (byte_is bytes i "-") eqn:Hm; simpl in Hs.
    - apply orb_true_iff in Hs as [|Hs]; [done|]. apply byte_is_true in Hm.
      apply byte_sat_true in Hs as (b & Hb & Hdig). rewrite Hm in Hb. injection Hb as <-. done.
    - done. }
  assert (Hi1 : i <= i1) by (unfold i1; destruct (byte_is bytes i "-"); lia).
  destruct (digit_run (E:=E) bytes i1 Hd) as (i2 & Hs2 & _ & Hi2 & Hds & Hl2 & _).
  destruct (fraction_scan (E:=E) bytes i2) as (i3 & Hs3 & Hi3 & Hl3 & Hf); [lia|done|].
  destruct (exponent_scan (E:=E) bytes i3) as (i4 & Hs4 & Hi4 & Hl4 & He); [lia|done|].
  exists i4. split.
  { unfold scan_number_literal. fold i1. by rewrite Hs2; simpl; rewrite Hs3. }
  split; [lia|]. split; [|done].
  exists (sub bytes i i1), (sub bytes i1 i2), (sub bytes i2 i3), (sub bytes i3 i4).
  split; [|split; [|split; [|split]]]; try done.
  - rewrite (sub_app _ i i1 i4), (sub_app _ i1 i2 i4), (sub_app _ i2 i3 i4) by lia. done.
  - unfold i1. apply sign_text. rewrite byte_is_true. intros. exists "-"%char.
    rewrite list_elem_of_In. simpl. auto.
Qed.

(** ** String bodies *)

Lemma length_encode_char c : scalar c -> length (encode_char c) = len_utf8 c.
Proof.
  intros _. unfold encode_char, len_utf8. by repeat case_match.
Qed.

Lemma decode_chars_spec off l cs n :
  utf8_chars l = Some cs ->
  match decode_chars off (char_indices_from n cs) with
  | Ok t => forall off' n', decode_chars off' (char_indices_from n' cs) = Ok t
  | Err e => exists c k, e = LexError.InvalidStringEscape c (off + (n + k)) /\ l !! k = Some backslash
  | _ => False
  end.
Proof.
  remember (length cs) as m eqn:Hm. revert n l cs Hm.
  induction (lt_wf m) as [m _ IH]; intros n l cs -> Hl.
  destruct cs as [|c cs]; [done|].
  apply utf8_chars_cons in Hl as (r & -> & Hr & Hsc & _).
  simpl. destruct (N.eqb_spec c 92) as [->|]; simpl.
  - destruct cs as [|c2 cs]; simpl.
    { exists 92%N, 0. split; [by rewrite Nat.add_0_r|done]. }
    destruct (unescape c2) as [d|]; [|exists c2, 0; split; [by rewrite Nat.add_0_r|done]].
    apply utf8_chars_cons in Hr as (r2 & -> & Hr2 & Hsc2 & _).
    specialize (IH (length cs) ltac:(simpl; lia) (n + len_utf8 92 + len_utf8 c2) r2 cs eq_refl Hr2).
    change (len_utf8 92) with 1 in *.
    destruct (decode_chars off _) as [t|e| |]; simpl; [| |done|done].
    + intros off' n'. by rewrite IH.
    + destruct IH as (c' & k & -> & Hk).
      exists c', (1 + len_utf8 c2 + k). split; [f_equal; lia|].
      rewrite <- (length_encode_char c2) by done. simpl.
      by rewrite lookup_app_r, Nat.add_comm, Nat.add_sub by lia.
  - specialize (IH (length cs) ltac:(simpl; lia) (n + len_utf8 c) r cs eq_refl Hr).
    destruct (decode_chars off _) as [t|e| |]; simpl; [| |done|done].
    + intros off' n'. by rewrite IH.
    + destruct IH as (c' & k & -> & Hk). exists c', (len_utf8 c + k). split; [f_equal; lia|].
      rewrite <- (length_encode_char c) by done. by rewrite lookup_app_r, Nat.add_comm, Nat.add_sub by lia.
Qed.

Lemma decode_string_spec off body :
  utf8 body ->
  match decode_string (from_bytes body) off with
  | Ok t => forall off', decode_string (from_bytes body) off' = Ok t
  | Err e => exists c k, e = LexError.InvalidStringEscape c (off + k) /\ body !! k = Some backslash
  | _ => False
  end.
Proof.
  intros [cs Hcs]. unfold decode_string, chars. rewrite as_from_bytes, Hcs. simpl.
  pose proof (decode_chars_spec off body cs 0 Hcs) as H.
  destruct (decode_chars off _) as [t|e| |]; simpl; [|naive_solver..].
  intros off'. by rewrite H.
Qed.

Lemma trim_ok {E : Type} body : utf8 body -> exists t, trim (E:=E) (from_bytes body) = Ok t.
Proof. intros [cs Hcs]. unfold trim, chars. rewrite as_from_bytes, Hcs. simpl. eauto. Qed.

(** ** Words *)

Lemma starts_with_byte c s :
  starts_with (String c EmptyString) s = true <-> exists l, as_bytes s = c :: l.
Proof.
  destruct s as [|d s]; simpl; [naive_solver|].
  rewrite andb_true_r, Ascii.eqb_eq. naive_solver.
Qed.

Lemma substring_all s : substring 0 (String.length s) s = s.
Proof. induction s as [|c s IH]; simpl; [done|]. by rewrite IH. Qed.

Lemma strip_prefix_byte c s n :
  strip_prefix (String c EmptyString) s = Some n <-> as_bytes s = c :: as_bytes n.
Proof.
  unfold strip_prefix. destruct s as [|d s]; simpl; [naive_solver|].
  rewrite andb_true_r. destruct (Ascii.eqb_spec c d) as [->|]; [|naive_solver].
  rewrite Nat.sub_0_r, substring_all. split; [by intros [= ->]|].
  intros [= H]. f_equal. by rewrite <- (from_as_bytes s), <- (from_as_bytes n), H.
Qed.

Lemma strip_prefix_none c s : 
  strip_prefix (String c EmptyString) s = None -> starts_with (String c EmptyString) s = false.
Proof. unfold strip_prefix. by destruct (starts_with _ s). Qed.

#[local] Arguments starts_with : simpl never.
#[local] Arguments strip_prefix : simpl never.

(** ** One step *)

Section step.
Variables (bytes : list byte) (i : nat).
Hypothesis Hutf8 : utf8 bytes.
Hypothesis Hi : i < length bytes.
Hypothesis Hbd : is_char_boundary bytes i = true.

Definition step_ok (r : res LexError (nat * option Token)) : Prop :=
  match r with
  | Ok (j, None) => j = S i /\ (exists b, bytes !! i = Some b /\ is_blank b = true)
                    /\ is_char_boundary bytes j = true
  | Ok (j, Some t) => tspan t = mkSpan i j /\ i < j /\ j <= length bytes
                      /\ is_char_boundary bytes j = true /\ token_text (sub bytes i j) (kind t)
  | Err e => error_ok bytes e
  | _ => False
  end.

Lemma after_ascii k b :
  bytes !! k = Some b -> (byte_val b < 128)%N -> is_char_boundary bytes (S k) = true.
Proof. intros. destruct Hutf8 as [cs Hcs]. by eapply boundary_ascii. Qed.

Lemma at_ascii k b :
  bytes !! k = Some b -> (byte_val b < 128)%N -> is_char_boundary bytes k = true.
Proof. intros. destruct Hutf8 as [cs Hcs]. by eapply boundary_ascii. Qed.

Lemma sub_slice {E : Type} a b :
  a <= b -> b <= length bytes -> is_char_boundary bytes a = true -> is_char_boundary bytes b = true ->
  slice (E:=E) bytes a b = Ok (from_bytes (sub bytes a b)) /\ utf8 (sub bytes a b).
Proof. intros. by apply slice_utf8. Qed.

Lemma byte_token k b :
  bytes !! i = Some b -> (byte_val b < 128)%N -> token_text [b] k ->
  step_ok (token k i (i + 1)).
Proof.
  intros Hb Hasc Hk. simpl. rewrite Nat.add_1_r. split; [done|]. split; [lia|]. split; [lia|].
  split; [by eapply after_ascii|].
  rewrite (sub_cons _ _ _ b) by (done || lia). by rewrite sub_empty.
Qed.

Lemma arrow_token :
  bytes !! i = Some "-"%char -> bytes !! S i = Some ">"%char ->
  step_ok (token TokenKind.Arrow i (i + 2)).
Proof.
  intros H1 H2. replace (i + 2) with (S (S i)) by lia. simpl.
  assert (S i < length bytes) by by eapply lookup_lt_Some.
  split; [done|]. split; [lia|]. split; [lia|]. split; [by eapply after_ascii|].
  rewrite (sub_cons _ _ _ "-"%char), (sub_cons _ _ _ ">"%char) by (done || lia). by rewrite sub_empty.
Qed.

Lemma comment_token :
  bytes !! i = Some "("%char -> bytes !! S i = Some "("%char ->
  step_ok (let? j := scan (S (length bytes)) (comment_step bytes) (i + 2) in
           if length bytes <=? j + 1 then Err (LexError.UnterminatedComment i)
           else let? body := slice bytes (i + 2) j in
                let? text := trim body in
                token (TokenKind.DocComment text) i (j + 2)).
Proof.
  intros H1 H2. replace (i + 2) with (S (S i)) by lia.
  destruct (comment_scan (E:=LexError) bytes (S (S i))) as (j & -> & Hj & Hbody & Hend).
  simpl. destruct (Nat.leb_spec (length bytes) (j + 1)); [done|].
  destruct (Hend ltac:(lia)) as [Hc1 Hc2].
  destruct (sub_slice (E:=LexError) (S (S i)) j) as [-> Hu];
    [lia|lia|by eapply (after_ascii (S i))|by eapply at_ascii|].
  simpl. destruct (trim_ok (E:=LexError) _ Hu) as [t Ht]. rewrite Ht. simpl.
  replace (j + 2) with (S (S j)) by lia.
  split; [done|]. split; [lia|]. split; [lia|]. split; [by eapply (after_ascii (S j))|].
  exists (sub bytes (S (S i)) j). split; [|split].
  - rewrite (sub_cons _ i _ "("%char), (sub_cons _ (S i) _ "("%char) by (done || lia).
    rewrite (sub_snoc _ _ (S j) ")"%char), (sub_snoc _ _ j ")"%char) by (done || lia).
    by rewrite <- app_assoc.
  - intros k Hk Hk'. assert (S k < length (sub bytes (S (S i)) j)) as Hlt by by eapply lookup_lt_Some.
    rewrite sub_length in Hlt by lia. rewrite sub_lookup in Hk, Hk' by lia.
    apply (Hbody (S (S i) + k)); [lia|done|]. rewrite <- Hk'. f_equal. lia.
  - done.
Qed.

Lemma string_token :
  bytes !! i = Some quote ->
  step_ok (let? j := scan (S (length bytes)) (string_step bytes) (i + 1) in
           if length bytes <=? j then Err (LexError.UnterminatedString i)
           else let? body := slice bytes (i + 1) j in
                let? text := decode_string body (i + 1) in
                token (TokenKind.String text) i (j + 1)).
Proof.
  intros Hq. rewrite Nat.add_1_r.
  destruct (string_scan (E:=LexError) bytes (S i)) as (j & -> & Hj & Hend).
  simpl. destruct (Nat.leb_spec (length bytes) j); [done|].
  specialize (Hend ltac:(lia)).
  destruct (sub_slice (E:=LexError) (S i) j) as [-> Hu];
    [lia|lia|by eapply (after_ascii i)|by eapply at_ascii|].
  simpl. pose proof (decode_string_spec (S i) _ Hu) as Hd.
  destruct (decode_string _ (S i)) as [t|e| |]; [|simpl|done|done].
  - simpl. rewrite Nat.add_1_r. split; [done|]. split; [lia|]. split; [lia|].
    split; [by eapply (after_ascii j)|].
    exists (sub bytes (S i) j). split; [|done].
    rewrite (sub_cons _ i _ quote) by (done || lia). by rewrite (sub_snoc _ _ j quote) by (done || lia).
  - destruct Hd as (c & k & -> & Hk). simpl. unfold error_ok. simpl. split; [|done].
    assert (k < j - S i) by (apply lookup_lt_Some in Hk; rewrite sub_length in Hk; lia).
    by rewrite sub_lookup in Hk by lia.
Qed.

Lemma number_token :
  number_start bytes i = true ->
  step_ok (let? j := scan_number_literal bytes i in
           let? literal := slice bytes i j in
           token (TokenKind.Number literal) i j).
Proof.
  intros Hs. destruct (number_scan (E:=LexError) bytes i Hs) as (j & -> & Hj & Hn & Hl).
  apply byte_sat_true in Hl as (b & Hb & Hdig).
  assert (is_char_boundary bytes j = true).
  { replace j with (S (j - 1)) by lia. eapply after_ascii; [done|].
    unfold is_ascii_digit in Hdig. apply byte_between_spec in Hdig. lia. }
  simpl. destruct (sub_slice (E:=LexError) i j) as [-> _]; [lia|lia|done|done|].
  simpl. repeat (split; [done || lia|]). by rewrite as_from_bytes.
Qed.

(** What [word_kind] makes of the text of a word. *)
Lemma word_kind_ok j :
  i < j -> j <= length bytes -> is_char_boundary bytes j = true -> word_text (sub bytes i j) ->
  step_ok (let? k := word_kind (from_bytes (sub bytes i j)) i in token k i j).
Proof.
  intros Hij Hj Hbj Hw.
  set (w := from_bytes (sub bytes i j)).
  assert (Hwb : as_bytes w = sub bytes i j) by apply as_from_bytes.
  assert (Hfirst : forall c l, as_bytes w = c :: l -> bytes !! i = Some c).
  { intros c l E. rewrite Hwb in E. apply (f_equal (lookup 0)) in E.
    rewrite sub_lookup, Nat.add_0_r in E by lia. done. }
  assert (Hlen : i + length (as_bytes w) = j) by (rewrite Hwb, sub_length by done; lia).
  assert (Hword : i + length (as_bytes w) <= length bytes
    /\ is_char_boundary bytes (i + length (as_bytes w)) = true
    /\ as_bytes w = sub bytes i (i + length (as_bytes w))) by by rewrite Hlen.
  unfold word_kind.
  destruct (starts_with "-" w) eqn:Hm; simpl.
  { destruct (String.eqb_spec w "-") as [E|]; simpl;
      [|apply starts_with_byte in Hm as [l Hl]; split; [by eapply Hfirst|done]].
    rewrite E in *. simpl. repeat (split; [done|]). naive_solver. }
  destruct (starts_with "!" w) eqn:Hx; simpl.
  { destruct (String.eqb_spec w "!=") as [E|]; simpl;
      [|apply starts_with_byte in Hx as [l Hl]; split; [by eapply Hfirst|done]].
    rewrite E in *. simpl. repeat (split; [done|]). naive_solver. }
  destruct (starts_with "." w) eqn:Hdot; simpl; [naive_solver|].
  destruct (strip_prefix "$" w) as [n|] eqn:Hr.
  - apply strip_prefix_byte in Hr. destruct n as [|c n]; simpl; [split; [by eapply Hfirst|done]|].
    rewrite Hwb in Hr. rewrite Hr in *. repeat (split; [done|]). naive_solver.
  - apply strip_prefix_none in Hr. simpl. split_and!; try done; by rewrite ?Hm, ?Hx.
Qed.

Lemma word_token b :
  bytes !! i = Some b -> is_delimiter b = false -> b <> quote ->
  (b = "-"%char -> bytes !! S i <> Some ">"%char) ->
  step_ok (let? j := scan (S (length bytes)) (word_step bytes) (i + 1) in
           let? word := slice bytes i j in
           let? k := word_kind word i in
           token k i j).
Proof.
  intros Hb Hdel Hnq Harrow. rewrite Nat.add_1_r.
  destruct (word_scan (E:=LexError) bytes (S i)) as (j & -> & Hj & Hjl & Hdels & Harrows & Hend).
  specialize (Hjl Hi). simpl.
  assert (Hbj : is_char_boundary bytes j = true).
  { destruct (decide (j = length bytes)) as [->|]; [apply boundary_len|].
    destruct (Hend ltac:(lia)) as (c & Hc & Hcd). eapply at_ascii; [done|].
    destruct Hcd as [Hcd | ->]; [|done]. unfold is_delimiter, is_blank in Hcd.
    rewrite !orb_true_iff, !byte_eqb_true in Hcd.
    destruct Hcd as [[[[[[[->| ->]| ->]| ->]| ->]| ->]| ->]| ->]; vm_compute; done. }
  destruct (sub_slice (E:=LexError) i j) as [-> _]; [lia|lia|done|done|].
  simpl. apply word_kind_ok; [lia|done|done|].
  rewrite (sub_cons _ _ _ b) by (done || lia). split; [done|]. split; [done|]. split.
  - apply sub_Forall; [done|]. intros k c Hk Hc. by eapply Hdels.
  - intros k Hk Hk'. assert (S k < length (sub bytes (S i) j)) as Hlt by by eapply lookup_lt_Some.
    rewrite sub_length in Hlt by lia. rewrite sub_lookup in Hk, Hk' by lia.
    apply (Harrows (S i + k)); [lia|done|]. rewrite <- Hk'. f_equal. lia.
Qed.

Lemma lex_step_spec : step_ok (lex_step bytes i).
Proof.
  destruct (lookup_lt_is_Some_2 bytes i Hi) as [b Hb].
  unfold lex_step. unfold index at 1. rewrite Hb. simpl rbind at 1. cbv beta.
  destruct (is_blank b) eqn:Hblank.
  { rewrite Nat.add_1_r. split; [done|]. split; [eauto|]. eapply after_ascii; [done|].
    unfold is_blank in Hblank. rewrite !orb_true_iff, !byte_eqb_true in Hblank.
    destruct Hblank as [[->| ->]| ->]; vm_compute; done. }
  destruct (byte_eqb b newline) eqn:Hnl.
  { apply byte_eqb_true in Hnl as ->. by apply (byte_token _ newline). }
  destruct (byte_eqb b "(" && byte_is bytes (i + 1) "(") eqn:Hcom.
  { apply andb_true_iff in Hcom as [Hc1 Hc2]. apply byte_eqb_true in Hc1 as ->.
    apply byte_is_true in Hc2. rewrite Nat.add_1_r in Hc2. by apply comment_token. }
  destruct (byte_eqb b "(") eqn:Hlp.
  { apply byte_eqb_true in Hlp as ->. by apply (byte_token _ "("%char). }
  destruct (byte_eqb b ")") eqn:Hrp.
  { apply byte_eqb_true in Hrp as ->. by apply (byte_token _ ")"%char). }
  destruct (byte_eqb b "[") eqn:Hlb.
  { apply byte_eqb_true in Hlb as ->. by apply (byte_token _ "["%char). }
  destruct (byte_eqb b "]") eqn:Hrb.
  { apply byte_eqb_true in Hrb as ->. by apply (byte_token _ "]"%char). }
  destruct (byte_eqb b "-" && byte_is bytes (i + 1) ">") eqn:Harr.
  { apply andb_true_iff in Harr as [Hc1 Hc2]. apply byte_eqb_true in Hc1 as ->.
    apply byte_is_true in Hc2. rewrite Nat.add_1_r in Hc2. by apply arrow_token. }
  destruct (byte_eqb b quote) eqn:Hq.
  { apply byte_eqb_true in Hq as ->. by apply string_token. }
  destruct (byte_eqb b "-" && byte_sat bytes (i + 1) is_ascii_digit || is_ascii_digit b) eqn:Hnum.
  { apply number_token. unfold number_start. unfold byte_is, byte_sat in *. by rewrite Hb. }
  apply (word_token b Hb).
  - unfold is_delimiter. by rewrite Hblank, Hnl, Hlp, Hrp, Hlb, Hrb.
  - intros ->. done.
  - intros -> Hgt. rewrite byte_eqb_refl in Harr. simpl in Harr.
    rewrite byte_is_false, Nat.add_1_r in Harr. done.
Qed.
End step.

(** ** The loop *)

Lemma blanks_cons bytes i b j :
  bytes !! i = Some b -> is_blank b = true -> S i <= j -> blanks (sub bytes (S i) j) ->
  blanks (sub bytes i j).
Proof. intros Hb Hbl Hj H. rewrite (sub_cons _ _ _ b) by (done || lia). by constructor. Qed.

Lemma covers_blank bytes i b ts :
  bytes !! i = Some b -> is_blank b = true -> covers bytes (S i) ts -> covers bytes i ts.
Proof.
  intros Hb Hbl. destruct ts as [|t [|t' ts]]; simpl; [done| |].
  - intros (Hi & Hd & ->). split; [lia|]. split; [|done].
    rewrite (drop_S _ b) by done. by constructor.
  - intros (H1 & H2 & H3 & H4 & H5 & H6 & H7 & H8).
    split_and!; try done; [lia|]. by eapply blanks_cons.
Qed.

Lemma covers_cons bytes i t ts :
  covers bytes i (t :: ts) <-> ts = [] /\ covers bytes i [t] \/
  (i <= start (tspan t) /\ start (tspan t) < end_ (tspan t) /\ end_ (tspan t) <= length bytes
   /\ is_char_boundary bytes (start (tspan t)) = true
   /\ is_char_boundary bytes (end_ (tspan t)) = true
   /\ blanks (sub bytes i (start (tspan t)))
   /\ token_text (sub bytes (start (tspan t)) (end_ (tspan t))) (kind t)
   /\ covers bytes (end_ (tspan t)) ts).
Proof.
  destruct ts as [|t' ts].
  - split; [by left|]. intros [[_ H]|H]; [done|]. by destruct H as (_&_&_&_&_&_&_&[]).
  - split; [by right|]. by intros [[? _]|H].
Qed.

Lemma lex_loop_spec bytes fuel i :
  utf8 bytes -> i <= length bytes -> is_char_boundary bytes i = true -> length bytes - i < fuel ->
  match lex_loop fuel bytes i with
  | Ok ts => covers bytes i ts
  | Err e => error_ok bytes e
  | _ => False
  end.
Proof.
  intros Hu. revert i. induction fuel as [|fuel IH]; intros i Hi Hb Hf; [lia|]. simpl.
  destruct (Nat.ltb_spec i (length bytes)) as [Hlt|Hge].
  - pose proof (lex_step_spec bytes i Hu Hlt Hb) as Hs.
    destruct (lex_step bytes i) as [[j [t|]]|e| |]; try done; simpl in Hs |- *.
    + destruct Hs as (Ht & Hij & Hj & Hbj & Htx).
      specialize (IH j Hj Hbj ltac:(lia)).
      destruct (lex_loop fuel bytes j) as [ts|e| |]; simpl; [|done..].
      apply covers_cons. right. rewrite Ht. simpl. split_and!; try (done || lia).
      rewrite sub_empty. constructor.
    + destruct Hs as (-> & (b & Hbl & Hblank) & Hbj).
      specialize (IH (S i) Hlt Hbj ltac:(lia)).
      destruct (lex_loop fuel bytes (S i)) as [ts|e| |]; simpl; [|done..].
      by eapply covers_blank.
  - split; [done|]. split; [|done]. rewrite drop_ge by lia. constructor.
Qed.

Lemma lex_spec source :
  utf8 (as_bytes source) ->
  match lex source with
  | Ok ts => covers (as_bytes source) 0 ts
  | Err e => error_ok (as_bytes source) e
  | _ => False
  end.
Proof. intros Hu. apply lex_loop_spec; [done|lia|done|lia]. Qed.

(** The shape the parser relies on: a final [Eof], no other one, and spans in
    order. *)
Lemma covers_eof bytes i ts :
  covers bytes i ts ->
  exists front, ts = front ++ [mkToken TokenKind.Eof (mkSpan (length bytes) (length bytes))]
    /\ Forall (fun t => kind t <> TokenKind.Eof) front.
Proof.
  revert i. induction ts as [|t ts IH]; intros i H; [done|].
  apply covers_cons in H as [[-> H]|(_&_&_&_&_&_&Ht&H)].
  - destruct H as (_ & _ & ->). exists []. done.
  - apply IH in H as (front & -> & Hf). exists (t :: front). split; [done|].
    constructor; [|done]. intros E. by rewrite E in Ht.
Qed.

(** ** Properties *)

Lemma lex_terminates source :
  utf8 (as_bytes source) ->
  (exists ts, lex source = Ok ts) \/ (exists e, lex source = Err e).
Proof.
  intros Hu. pose proof (lex_spec source Hu) as H.
  destruct (lex source) as [ts|e| |]; [left|right|done|done]; eauto.
Qed.

(** On every valid UTF-8 source text the lexer returns a token list or a
    lexical error: no slice falls off a character boundary, no index is out of
    bounds and every loop ends. *)
Theorem lex_total source :
  utf8 (as_bytes source) ->
  (exists ts, lex source = Ok ts) \/ (exists e, lex source = Err e).
Proof. exact (lex_terminates source). Qed.

Lemma lex_tiles source ts :
  utf8 (as_bytes source) -> lex source = Ok ts -> covers (as_bytes source) 0 ts.
Proof. intros Hu Hts. pose proof (lex_spec source Hu) as H. by rewrite Hts in H. Qed.

(** The tokens the lexer returns cover the source: between consecutive
    tokens there are only blanks, spans are non-empty, in order and on
    character boundaries, the text under each span is one its kind denotes
    (decoded strings, trimmed comments, the number grammar, words without
    delimiters), and the list ends with the one [Eof]. *)
Theorem lex_covers source ts :
  utf8 (as_bytes source) -> lex source = Ok ts -> covers (as_bytes source) 0 ts.
Proof. exact (lex_tiles source ts). Qed.

(** The position of a lexical error is inside the source and names the
    byte at fault: the opening quote of an unterminated string, the backslash
    of a bad escape, the first byte of a rejected word; and the rejected word
    an error carries is the text that stands there. *)
Theorem lex_error_position source e :
  utf8 (as_bytes source) -> lex source = Err e -> error_ok (as_bytes source) e.
Proof. intros Hu Hts. pose proof (lex_spec source Hu) as H. by rewrite Hts in H. Qed.

Lemma lex_total_witness :
  utf8 (as_bytes "a [ $b ] 1.5") /\
  ((exists ts, lex "a [ $b ] 1.5" = Ok ts) \/ (exists e, lex "a [ $b ] 1.5" = Err e)).
Proof.
  assert (H : utf8 (as_bytes "a [ $b ] 1.5")) by (eexists; vm_compute; reflexivity).
  split; [exact H | exact (lex_total _ H)].
Defined.

Lemma lex_covers_witness :
  lex "x 7" = Ok [mkToken (TokenKind.Symbol "x") (mkSpan 0 1);
                  mkToken (TokenKind.Number "7") (mkSpan 2 3);
                  mkToken TokenKind.Eof (mkSpan 3 3)]
  /\ covers (as_bytes "x 7") 0 [mkToken (TokenKind.Symbol "x") (mkSpan 0 1);
                  mkToken (TokenKind.Number "7") (mkSpan 2 3);
                  mkToken TokenKind.Eof (mkSpan 3 3)].
Proof.
  split; [vm_compute; reflexivity|].
  apply (lex_covers "x 7"); [eexists; vm_compute; reflexivity | vm_compute; reflexivity].
Defined.

Lemma lex_error_position_witness :
  error_ok (as_bytes "ok $ no") (LexError.EmptyReference 3).
Proof.
  apply (lex_error_position "ok $ no"); [eexists; vm_compute; reflexivity | vm_compute; reflexivity].
Defined.
