(* ===== verification/Parser.v ===== *)
(** * The parser

    [crates/ricochet_syntax/src/parser.rs].  The token list is the parameter
    [tokens]; the state is the parser's [pos] and [pending_docs].  The
    mutually recursive methods take fuel, one unit per call; [parse_module]
    supplies [parse_fuel], four units per token and a constant, which
    [parse_module_total] proves to be enough.  Loops are separate functions
    ([..._loop]) that carry the vector being filled. *)

From Stdlib Require Import ZArith NArith Lia Ascii String.
From stdpp Require Import base tactics list strings option numbers.
From S2P Require Import Prelude RustStr RustFloat Syntax Lexer.

Open Scope string_scope.
Open Scope list_scope.
Open Scope nat_scope.

Module ParseError.
Inductive ParseError : Type :=
  | Lex (e : LexError)
  | Unexpected (found : TokenKind) (span : Span)
  | Expected (expected : string) (found : TokenKind) (span : Span)
  | InvalidNumber (literal : string) (span : Span)
  | MissingWhileCondition (span : Span).
End ParseError.

Abbreviation ParseError := ParseError.ParseError.

Record Parser : Type := mkParser { pos : nat; pending_docs : list string }.

Definition with_pos (p : nat) (s : Parser) : Parser := mkParser p (pending_docs s).

Definition is_float_literal (literal : string) : bool :=
  contains_byte "." literal || contains_byte "e" literal || contains_byte "E" literal.

Definition is_symbol (expected : string) (k : TokenKind) : bool :=
  match k with TokenKind.Symbol s => String.eqb s expected | _ => false end.

Definition is_eof (k : TokenKind) : bool := match k with TokenKind.Eof => true | _ => false end.
Definition is_left_paren (k : TokenKind) : bool := match k with TokenKind.LeftParen => true | _ => false end.
Definition is_right_paren (k : TokenKind) : bool := match k with TokenKind.RightParen => true | _ => false end.
Definition is_left_bracket (k : TokenKind) : bool := match k with TokenKind.LeftBracket => true | _ => false end.
Definition is_right_bracket (k : TokenKind) : bool := match k with TokenKind.RightBracket => true | _ => false end.
Definition is_trivia (k : TokenKind) : bool :=
  match k with TokenKind.Newline | TokenKind.DocComment _ => true | _ => false end.

(** [matches!(kind, TokenKind::Symbol(s) if stop_symbols.contains(s))]. *)
Definition is_stop (stop_symbols : list string) (k : TokenKind) : bool :=
  match k with TokenKind.Symbol s => existsb (String.eqb s) stop_symbols | _ => false end.

(** The kinds that end an expression item. *)
Definition ends_item (k : TokenKind) : bool :=
  match k with
  | TokenKind.Newline | TokenKind.DocComment _ | TokenKind.Eof | TokenKind.RightBracket => true
  | TokenKind.Symbol s => String.eqb s "else" || String.eqb s "end"
  | _ => false
  end.

Definition push_statement (body : list SpannedExpr) (statement : SpannedExpr) : list SpannedExpr :=
  body ++ [statement].

(** The value of a number token. *)
Definition number_expr (n : string) (sp : Span) : res ParseError Expr :=
  if is_float_literal n then
    match parse_f64 n with
    | Some value => if is_finite value then Ok (Expr.Float value) else Err (ParseError.InvalidNumber n sp)
    | None => Err (ParseError.InvalidNumber n sp)
    end
  else
    match parse_i64 n with
    | Some value => Ok (Expr.Number value)
    | None => Err (ParseError.InvalidNumber n sp)
    end.

(** The span of a non-empty expression sequence. *)
Definition exprs_span (exprs : list SpannedExpr) : res ParseError Span :=
  match head exprs, list.last exprs with
  | Some first, Some final => Ok (mkSpan (start (span first)) (end_ (span final)))
  | _, _ => Panic
  end.

Section parser.
Variable tokens : list Token.

Abbreviation P := (stm Parser ParseError).

(** ** Token access *)

Definition token_at (i : nat) : res ParseError Token := index tokens (i `min` (length tokens - 1)).

Definition current_token : P Token := let* s := sget in slift (token_at (pos s)).
Definition peek_kind : P TokenKind := let* t := current_token in sret (kind t).
Definition current_span : P Span := let* t := current_token in sret (tspan t).
Definition previous_span : P Span :=
  let* s := sget in let* t := slift (token_at (pos s - 1)) in sret (tspan t).
Definition at_eof : P bool := let* k := peek_kind in sret (is_eof k).

Definition advance : P Token :=
  let* token := current_token in
  smodify (fun s => with_pos (S (pos s)) s) ;;
  sret token.

Definition peek_symbol_like : P (option string) :=
  let* k := peek_kind in
  sret match k with TokenKind.Symbol s | TokenKind.String s => Some s | _ => None end.

Definition take_pending_docs : P (list string) :=
  let* s := sget in sput (mkParser (pos s) []) ;; sret (pending_docs s).

Definition skip_newlines_loop : nat -> P unit := fix skip_newlines_loop (fuel : nat) : P unit :=
  match fuel with
  | O => sfuel
  | S fuel' =>
      let* k := peek_kind in
      if is_trivia k then smodify (fun s => with_pos (S (pos s)) s) ;; skip_newlines_loop fuel'
      else sret tt
  end.
Definition skip_newlines : P unit := skip_newlines_loop (S (length tokens)).

Definition skip_item_trivia_loop : nat -> P unit := fix skip_item_trivia_loop (fuel : nat) : P unit :=
  match fuel with
  | O => sfuel
  | S fuel' =>
      let* k := peek_kind in
      match k with
      | TokenKind.Newline => smodify (fun s => with_pos (S (pos s)) s) ;; skip_item_trivia_loop fuel'
      | TokenKind.DocComment text =>
          smodify (fun s => mkParser (S (pos s)) (pending_docs s ++ [text])) ;;
          skip_item_trivia_loop fuel'
      | _ => sret tt
      end
  end.
Definition skip_item_trivia : P unit := skip_item_trivia_loop (S (length tokens)).

Definition expect_kind (expected : string) (predicate : TokenKind -> bool) : P unit :=
  let* token := advance in
  if predicate (kind token) then sret tt
  else sfail (ParseError.Expected expected (kind token) (tspan token)).

Definition expect_symbol (expected : string) : P unit := expect_kind expected (is_symbol expected).
Definition expect_left_paren : P unit := expect_kind "left paren" is_left_paren.
Definition expect_right_paren : P unit := expect_kind "right paren" is_right_paren.
Definition expect_right_bracket : P unit := expect_kind "right bracket" is_right_bracket.

Definition consume_symbol (expected : string) : P bool :=
  let* k := peek_kind in
  if is_symbol expected k then let* _ := advance in sret true else sret false.

(** [return Err(ParseError::Expected { expected, .. })] at the current token. *)
Definition expected_here {A : Type} (expected : string) : P A :=
  let* token := current_token in sfail (ParseError.Expected expected (kind token) (tspan token)).

(** ** Argument lists *)

Definition parse_args_loop : nat -> bool -> list string -> list string -> P ArgsDecl :=
  fix parse_args_loop (fuel : nat) (in_outputs : bool) (ins outs : list string) : P ArgsDecl :=
  match fuel with
  | O => sfuel
  | S fuel' =>
      skip_newlines ;;
      let* k := peek_kind in
      if is_right_paren k || is_eof k then sret (mkArgs ins outs)
      else
        let* token := advance in
        match kind token with
        | TokenKind.Arrow => parse_args_loop fuel' true ins outs
        | TokenKind.Symbol s =>
            if in_outputs then parse_args_loop fuel' in_outputs ins (outs ++ [s])
            else parse_args_loop fuel' in_outputs (ins ++ [s]) outs
        | other => sfail (ParseError.Unexpected other (tspan token))
        end
  end.

Definition parse_args : P ArgsDecl :=
  expect_left_paren ;;
  let* args := parse_args_loop (S (length tokens)) false [] [] in
  expect_right_paren ;;
  sret args.

(** ** Expressions *)

Fixpoint parse_expr (fuel : nat) : P SpannedExpr :=
  match fuel with
  | O => sfuel
  | S fuel' =>
      skip_newlines ;;
      let* token := advance in
      let start := start (tspan token) in
      let* expr :=
        match kind token with
        | TokenKind.Symbol s =>
            if String.eqb s "if" then parse_if_expr fuel'
            else if String.eqb s "while" then sfail (ParseError.MissingWhileCondition (tspan token))
            else sret (Expr.Symbol s)
        | TokenKind.DotWord s => sret (Expr.DotWord s)
        | TokenKind.Reference s => sret (Expr.Reference s)
        | TokenKind.String s => sret (Expr.String s)
        | TokenKind.Number n => slift (number_expr n (tspan token))
        | TokenKind.LeftParen =>
            smodify (fun s => with_pos (pos s - 1) s) ;;
            let* args := parse_args in sret (Expr.Args args)
        | TokenKind.LeftBracket =>
            let* exprs := parse_block_exprs fuel' [] in
            expect_right_bracket ;;
            sret (Expr.Block exprs)
        | other => sfail (ParseError.Unexpected other (tspan token))
        end in
      let* previous := previous_span in
      sret (mkSpanned expr (mkSpan start (end_ previous)))
  end
with parse_if_expr (fuel : nat) : P Expr :=
  match fuel with
  | O => sfuel
  | S fuel' =>
      let* then_body := parse_exprs_until fuel' ["else"; "end"] "if terminator" [] in
      let* is_else := consume_symbol "else" in
      let* else_body := if is_else then parse_exprs_until fuel' ["end"] "if terminator" []
                        else sret [] in
      expect_symbol "end" ;;
      sret (Expr.If then_body else_body)
  end
with parse_exprs_until (fuel : nat) (stop_symbols : list string) (expected : string)
    (body : list SpannedExpr) : P (list SpannedExpr) :=
  match fuel with
  | O => sfuel
  | S fuel' =>
      skip_newlines ;;
      let* k := peek_kind in
      if is_stop stop_symbols k then sret body
      else
        let* eof := at_eof in
        if eof then expected_here expected
        else
          let* statement := parse_expr_item fuel' in
          parse_exprs_until fuel' stop_symbols expected (push_statement body statement)
  end
with parse_block_exprs (fuel : nat) (body : list SpannedExpr) : P (list SpannedExpr) :=
  match fuel with
  | O => sfuel
  | S fuel' =>
      skip_newlines ;;
      let* k := peek_kind in
      if is_right_bracket k then sret body
      else
        let* eof := at_eof in
        if eof then expected_here "right bracket"
        else
          let* statement := parse_expr_item fuel' in
          parse_block_exprs fuel' (push_statement body statement)
  end
with parse_expr_item (fuel : nat) : P SpannedExpr :=
  match fuel with
  | O => sfuel
  | S fuel' =>
      let* first := parse_expr fuel' in
      parse_expr_item_loop fuel' [first]
  end
with parse_expr_item_loop (fuel : nat) (exprs : list SpannedExpr) : P SpannedExpr :=
  match fuel with
  | O => sfuel
  | S fuel' =>
      let* is_while := consume_symbol "while" in
      if is_while then
        let* body := parse_exprs_until fuel' ["end"] "while terminator" [] in
        expect_symbol "end" ;;
        let* sp := slift (exprs_span exprs) in
        let* previous := previous_span in
        sret (mkSpanned (Expr.While exprs body) (mkSpan (start sp) (end_ previous)))
      else
        let* k := peek_kind in
        if ends_item k then
          match exprs with
          | [e] => sret e
          | _ => let* sp := slift (exprs_span exprs) in sret (mkSpanned (Expr.Sequence exprs) sp)
          end
        else
          let* e := parse_expr fuel' in
          parse_expr_item_loop fuel' (exprs ++ [e])
  end.

Definition parse_expr_body_until_end (fuel : nat) : P (list SpannedExpr) :=
  let* body := parse_exprs_until fuel ["end"] "end" [] in
  expect_symbol "end" ;;
  sret body.

(** ** Items *)

(** [self.pos = checkpoint; return Ok(None)]. *)
Definition backtrack {A : Type} (checkpoint : nat) : P (option A) :=
  smodify (with_pos checkpoint) ;; sret None.

Definition try_parse_macro (fuel : nat) : P (option MacroDecl) :=
  skip_newlines ;;
  let* s := sget in
  let checkpoint := pos s in
  let* start_span := current_span in
  let* k := peek_kind in
  match k with
  | TokenKind.String name =>
      let* _ := advance in
      let* is_macro := consume_symbol "Macro" in
      if negb is_macro then backtrack checkpoint
      else
        skip_newlines ;;
        let* k := peek_kind in
        let* args := if is_left_paren k then
                       let* args := parse_args in skip_newlines ;; sret (Some args)
                     else sret None in
        let* k := peek_kind in
        if negb (is_left_bracket k) then expected_here "macro body block"
        else
          let* _ := advance in
          let* body := parse_block_exprs fuel [] in
          expect_right_bracket ;;
          skip_newlines ;;
          expect_symbol "end" ;;
          let* previous := previous_span in
          sret (Some (mkMacro name args body [] (mkSpan (start start_span) (end_ previous))))
  | _ => sret None
  end.

Definition try_parse_function (fuel : nat) : P (option FunctionDecl) :=
  skip_newlines ;;
  let* s := sget in
  let checkpoint := pos s in
  let* start_span := current_span in
  let* k := peek_kind in
  let* args := if is_left_paren k then let* args := parse_args in sret (Some args) else sret None in
  let* name := peek_symbol_like in
  match name with
  | None => backtrack checkpoint
  | Some name =>
      let* _ := advance in
      let* is_function := consume_symbol "function" in
      if negb is_function then backtrack checkpoint
      else
        let* body := parse_expr_body_until_end fuel in
        let* previous := previous_span in
        sret (Some (mkFunction name args body [] (mkSpan (start start_span) (end_ previous))))
  end.

Fixpoint parse_item (fuel : nat) : P Item :=
  match fuel with
  | O => sfuel
  | S fuel' =>
      let* docs := take_pending_docs in
      let* class := try_parse_class fuel' in
      match class with
      | Some class => sret (Item.Class (class_with_docs docs class))
      | None =>
          let* macro_decl := try_parse_macro fuel' in
          match macro_decl with
          | Some macro_decl => sret (Item.Macro (macro_with_docs docs macro_decl))
          | None =>
              let* function := try_parse_function fuel' in
              match function with
              | Some function => sret (Item.Function (function_with_docs docs function))
              | None =>
                  let* expression := parse_expr_item fuel' in
                  sret (Item.Expr (expr expression) (span expression) docs)
              end
          end
      end
  end
with try_parse_class (fuel : nat) : P (option ClassDecl) :=
  match fuel with
  | O => sfuel
  | S fuel' =>
      skip_newlines ;;
      let* s := sget in
      let checkpoint := pos s in
      let* start_span := current_span in
      let* name := peek_symbol_like in
      match name with
      | None => sret None
      | Some name =>
          let* _ := advance in
          let* superclass := peek_symbol_like in
          match superclass with
          | None => backtrack checkpoint
          | Some superclass =>
              let* _ := advance in
              let* is_class := consume_symbol "Subclass" in
              if negb is_class then backtrack checkpoint
              else
                let* (body, class_end) := parse_class_body fuel' [] in
                sret (Some (mkClass name superclass body [] (mkSpan (start start_span) class_end)))
          end
      end
  end
with parse_class_body (fuel : nat) (body : list Item) : P (list Item * nat) :=
  match fuel with
  | O => sfuel
  | S fuel' =>
      skip_item_trivia ;;
      let* is_end := consume_symbol "end" in
      if is_end then let* previous := previous_span in sret (body, end_ previous)
      else
        let* eof := at_eof in
        if eof then expected_here "end"
        else
          let* item := parse_item fuel' in
          parse_class_body fuel' (body ++ [item])
  end.

Fixpoint parse_module_loop (fuel : nat) (items : list Item) : P Module_ :=
  match fuel with
  | O => sfuel
  | S fuel' =>
      skip_item_trivia ;;
      let* eof := at_eof in
      if eof then sret (mkModule items)
      else
        let* item := parse_item fuel' in
        parse_module_loop fuel' (items ++ [item])
  end.
End parser.

Definition parse_fuel (tokens : list Token) : nat := 8 * length tokens + 16.

Definition parse_tokens (tokens : list Token) : res ParseError Module_ :=
  match parse_module_loop tokens (parse_fuel tokens) [] (mkParser 0 []) with
  | Ok (m, _) => Ok m
  | Err e => Err e
  | Panic => Panic
  | OutOfFuel => OutOfFuel
  end.

Definition parse_module (source : string) : res ParseError Module_ :=
  let? tokens := rmap_err ParseError.Lex (lex source) in
  parse_tokens tokens.
