(* ===== verification/Grammar.v ===== *)
(** * The grammar of token lists

    The declarative counterpart of [Parser.v]: which token lists an
    expression, a statement list, an argument list or an item list is written
    with, every token accounted for and spans included.  Newlines and comments
    stand between statements and inside argument lists only.  The side
    conditions ([heads], [follows]) say where the greedy parser stops, so that
    the relation is exact: [ParserProofs.v] shows that the parser accepts a
    token list and returns a module precisely when [yields_module] relates
    them.  Item lists thread the pending doc comments. *)

From stdpp Require Import base tactics list strings option numbers.
From Stdlib Require Import ZArith NArith Lia Ascii String.
From S2P Require Import Prelude RustStr RustFloat Syntax Lexer Parser.

Open Scope string_scope.
Open Scope list_scope.
Open Scope nat_scope.

Definition trivia (t : Token) : Prop := is_trivia (kind t) = true.

(** The kind of a token that is an expression by itself. *)
Definition atom (k : TokenKind) (e : Expr) : Prop :=
  match k with
  | TokenKind.Symbol s => s <> "if" /\ s <> "while" /\ e = Expr.Symbol s
  | TokenKind.DotWord s => e = Expr.DotWord s
  | TokenKind.Reference s => e = Expr.Reference s
  | TokenKind.String s => e = Expr.String s
  | TokenKind.Number n => forall sp, number_expr n sp = Ok e
  | _ => False
  end.

(** From the start of one token or expression to the end of another. *)
Definition join (a b : Span) : Span := mkSpan (start a) (end_ b).

Inductive yields_args : bool -> list Token -> ArgsDecl -> Prop :=
  | YA_nil o : yields_args o [] (mkArgs [] [])
  | YA_trivia o t ts a : trivia t -> yields_args o ts a -> yields_args o (t :: ts) a
  | YA_arrow o t ts a : kind t = TokenKind.Arrow -> yields_args true ts a -> yields_args o (t :: ts) a
  | YA_input t ts a s :
      kind t = TokenKind.Symbol s -> yields_args false ts a ->
      yields_args false (t :: ts) (mkArgs (s :: inputs a) (outputs a))
  | YA_output t ts a s :
      kind t = TokenKind.Symbol s -> yields_args true ts a ->
      yields_args true (t :: ts) (mkArgs (inputs a) (s :: outputs a)).

(** [( inputs -> outputs )] with its parentheses. *)
Definition args_tokens (ts : list Token) (a : ArgsDecl) : Prop :=
  exists t0 body t1, ts = t0 :: body ++ [t1]
    /\ kind t0 = TokenKind.LeftParen /\ kind t1 = TokenKind.RightParen
    /\ yields_args false body a.

(** The span of a line or a condition. *)
Definition spans_of (es : list SpannedExpr) : option Span :=
  match head es, list.last es with
  | Some a, Some b => Some (join (span a) (span b))
  | _, _ => None
  end.

(** The first token, if any, satisfies [p]. *)
Definition heads (p : TokenKind -> bool) (ts : list Token) : Prop :=
  match ts with [] => True | t :: _ => p (kind t) = true end.

Definition is_while_expr (e : SpannedExpr) : bool :=
  match expr e with Expr.While _ _ => true | _ => false end.

(** What may follow a statement: anything after a [while ... end], otherwise a
    token that ends the line. *)
Definition follows (e : SpannedExpr) (rest : list Token) : Prop :=
  is_while_expr e = true \/ heads ends_item rest.

(** [yields] is one expression, [yields_line] the expressions of a line,
    [yields_stmt] a statement, [yields_stmts] a body whose terminator is one of
    the [stop] words. *)
Inductive yields : list Token -> SpannedExpr -> Prop :=
  | Y_atom t e : atom (kind t) e -> yields [t] (mkSpanned e (join (tspan t) (tspan t)))
  | Y_args t0 body t1 a :
      kind t0 = TokenKind.LeftParen -> kind t1 = TokenKind.RightParen -> yields_args false body a ->
      yields (t0 :: body ++ [t1]) (mkSpanned (Expr.Args a) (join (tspan t0) (tspan t1)))
  | Y_block t0 body t1 b :
      kind t0 = TokenKind.LeftBracket -> kind t1 = TokenKind.RightBracket -> yields_stmts [] body b ->
      yields (t0 :: body ++ [t1]) (mkSpanned (Expr.Block b) (join (tspan t0) (tspan t1)))
  | Y_if t0 body t1 b :
      kind t0 = TokenKind.Symbol "if" -> kind t1 = TokenKind.Symbol "end" ->
      yields_stmts ["else"; "end"] body b ->
      yields (t0 :: body ++ [t1]) (mkSpanned (Expr.If b []) (join (tspan t0) (tspan t1)))
  | Y_if_else t0 body te ebody t1 b eb :
      kind t0 = TokenKind.Symbol "if" -> kind te = TokenKind.Symbol "else" ->
      kind t1 = TokenKind.Symbol "end" ->
      yields_stmts ["else"; "end"] body b -> yields_stmts ["end"] ebody eb ->
      yields (t0 :: body ++ te :: ebody ++ [t1]) (mkSpanned (Expr.If b eb) (join (tspan t0) (tspan t1)))
with yields_line : list Token -> list SpannedExpr -> Prop :=
  | Y_first ts e : yields ts e -> yields_line ts [e]
  | Y_next ts es ts' e :
      yields_line ts es -> yields ts' e -> heads (fun k => negb (ends_item k)) ts' ->
      yields_line (ts ++ ts') (es ++ [e])
with yields_stmt : list Token -> SpannedExpr -> Prop :=
  | Y_single ts e : yields_line ts [e] -> yields_stmt ts e
  | Y_sequence ts es sp :
      yields_line ts es -> 2 <= length es -> spans_of es = Some sp ->
      yields_stmt ts (mkSpanned (Expr.Sequence es) sp)
  | Y_while cond tw body t1 c b sp :
      kind tw = TokenKind.Symbol "while" -> kind t1 = TokenKind.Symbol "end" ->
      yields_line cond c -> spans_of c = Some sp -> yields_stmts ["end"] body b ->
      yields_stmt (cond ++ tw :: body ++ [t1]) (mkSpanned (Expr.While c b) (join sp (tspan t1)))
with yields_stmts : list string -> list Token -> list SpannedExpr -> Prop :=
  | Y_nil stop : yields_stmts stop [] []
  | Y_trivia stop t ts es : trivia t -> yields_stmts stop ts es -> yields_stmts stop (t :: ts) es
  | Y_cons stop ts1 e ts2 es :
      yields_stmt ts1 e -> heads (fun k => negb (is_stop stop k)) ts1 -> follows e ts2 ->
      yields_stmts stop ts2 es -> yields_stmts stop (ts1 ++ ts2) (e :: es).

(** ** Items *)

Definition named (t : Token) (name : string) : Prop :=
  kind t = TokenKind.Symbol name \/ kind t = TokenKind.String name.

Definition word (t : Token) (w : string) : Prop := kind t = TokenKind.Symbol w.

(** Trivia around a macro's optional argument list. *)
Inductive macro_args_tokens : list Token -> option ArgsDecl -> Prop :=
  | MA_none tr : Forall trivia tr -> macro_args_tokens tr None
  | MA_some tr1 ts a tr2 :
      Forall trivia tr1 -> args_tokens ts a -> Forall trivia tr2 ->
      macro_args_tokens (tr1 ++ ts ++ tr2) (Some a).

Inductive function_args_tokens : list Token -> option ArgsDecl -> Prop :=
  | FA_none : function_args_tokens [] None
  | FA_some ts a : args_tokens ts a -> function_args_tokens ts (Some a).

(** The beginnings that make an item a declaration. *)
Definition begins_class (ts : list Token) : Prop :=
  exists tn n tp p tc rest, ts = tn :: tp :: tc :: rest /\ named tn n /\ named tp p /\ word tc "Subclass".
Definition begins_macro (ts : list Token) : Prop :=
  exists tn n tm rest, ts = tn :: tm :: rest /\ kind tn = TokenKind.String n /\ word tm "Macro".
Definition begins_function (ts : list Token) : Prop :=
  exists pre args tn n tf rest, ts = pre ++ tn :: tf :: rest
    /\ function_args_tokens pre args /\ named tn n /\ word tf "function".

(** [yields_items in_class docs ts rest items docs']: [ts] is the items'
    tokens and [rest] what follows them, [docs] and [docs'] the pending doc
    comments before and after.  In a class body the word [end] begins no item. *)
Inductive yields_items :
    bool -> list string -> list Token -> list Token -> list Item -> list string -> Prop :=
  | YI_nil c d rest : yields_items c d [] rest [] d
  | YI_newline c d t ts rest its d' :
      kind t = TokenKind.Newline -> yields_items c d ts rest its d' ->
      yields_items c d (t :: ts) rest its d'
  | YI_doc c d t ts rest its d' text :
      kind t = TokenKind.DocComment text -> yields_items c (d ++ [text]) ts rest its d' ->
      yields_items c d (t :: ts) rest its d'
  | YI_cons c d ts1 it d1 ts2 rest its d2 :
      yields_item d ts1 (ts2 ++ rest) it d1 ->
      heads (fun k => negb (c && is_symbol "end" k)) ts1 ->
      yields_items c d1 ts2 rest its d2 ->
      yields_items c d (ts1 ++ ts2) rest (it :: its) d2
with yields_item : list string -> list Token -> list Token -> Item -> list string -> Prop :=
  | YI_class d tn name tp super tc body tend rest its d' :
      named tn name -> named tp super -> word tc "Subclass" -> word tend "end" ->
      yields_items true [] body (tend :: rest) its d' ->
      yields_item d (tn :: tp :: tc :: body ++ [tend]) rest
        (Item.Class (mkClass name super its d (join (tspan tn) (tspan tend)))) d'
  | YI_macro d tn name tm pre args tl body tr post tend rest b :
      kind tn = TokenKind.String name -> word tm "Macro" ->
      macro_args_tokens pre args -> kind tl = TokenKind.LeftBracket ->
      yields_stmts [] body b -> kind tr = TokenKind.RightBracket ->
      Forall trivia post -> word tend "end" ->
      yields_item d (tn :: tm :: pre ++ tl :: body ++ tr :: post ++ [tend]) rest
        (Item.Macro (mkMacro name args b d (join (tspan tn) (tspan tend)))) []
  | YI_function d pre args t0 tn name tf body tend rest b :
      function_args_tokens pre args -> head (pre ++ [tn]) = Some t0 ->
      named tn name -> word tf "function" -> yields_stmts ["end"] body b -> word tend "end" ->
      ~ begins_class ((pre ++ tn :: tf :: body ++ [tend]) ++ rest) ->
      yields_item d (pre ++ tn :: tf :: body ++ [tend]) rest
        (Item.Function (mkFunction name args b d (join (tspan t0) (tspan tend)))) []
  | YI_expr d ts rest e :
      yields_stmt ts e -> follows e rest ->
      ~ begins_class (ts ++ rest) -> ~ begins_macro (ts ++ rest) -> ~ begins_function (ts ++ rest) ->
      yields_item d ts rest (Item.Expr (expr e) (span e) d) [].

(** A module's tokens: items up to the final [Eof]; comments after the last
    item belong to no item. *)
Definition yields_module (tokens : list Token) (m : Module_) : Prop :=
  exists ts eof docs, tokens = ts ++ [eof] /\ kind eof = TokenKind.Eof
    /\ yields_items false [] ts [eof] (items m) docs.

(** ** Basic facts *)

Lemma heads_app p ts1 ts2 : heads p ts1 -> (ts1 = [] -> heads p ts2) -> heads p (ts1 ++ ts2).
Proof. destruct ts1; simpl; auto. Qed.

Lemma yields_stmts_trivia stop ts : Forall trivia ts -> yields_stmts stop ts [].
Proof. induction 1; constructor; auto. Qed.

Lemma follows_app e ts1 ts2 : follows e ts1 -> (ts1 = [] -> follows e ts2) -> follows e (ts1 ++ ts2).
Proof. unfold follows. destruct ts1; simpl; tauto. Qed.
