(* ===== verification/ParserProofs.v ===== *)
(** * The parser's theorems: soundness and totality

    On a token list that ends with its only [Eof], the parser neither panics
    nor runs out of the fuel [parse_module] supplies; what it returns is a
    module the grammar relates to the tokens; and an error names a token of
    the list. *)

From stdpp Require Import base tactics list strings option numbers.
From Stdlib Require Import ZArith NArith Lia Ascii String.
From S2P Require Import Prelude RustStr RustFloat Syntax Lexer LexerProofs Parser Grammar.

Open Scope string_scope.
Open Scope list_scope.
Open Scope nat_scope.

(** The lists the lexer returns. *)
Definition eof_ended (tokens : list Token) : Prop :=
  exists front eof, tokens = front ++ [eof] /\ kind eof = TokenKind.Eof
    /\ Forall (fun t => kind t <> TokenKind.Eof) front.

(** The token a parse error is about. *)
Definition error_token (e : ParseError) (t : Token) : Prop :=
  match e with
  | ParseError.Lex _ => False
  | ParseError.Unexpected found sp => found = kind t /\ sp = tspan t
  | ParseError.Expected _ found sp => found = kind t /\ sp = tspan t
  | ParseError.InvalidNumber literal sp => kind t = TokenKind.Number literal /\ sp = tspan t
  | ParseError.MissingWhileCondition sp => kind t = TokenKind.Symbol "while" /\ sp = tspan t
  end.

Section sound.
Variable tokens : list Token.
Hypothesis Htokens : eof_ended tokens.

Let n := length tokens.

Definition names_token (e : ParseError) : Prop := exists t, t ∈ tokens /\ error_token e t.

Abbreviation wpp m s Q := (wp m s Q names_token).
Abbreviation seg := (sub tokens).

Definition ok (s : Parser) : Prop := pos s < n.

(** The state is at a token that is not trivia. *)
Definition fresh (s : Parser) : Prop :=
  exists t, tokens !! pos s = Some t /\ is_trivia (kind t) = false.

Lemma n_pos : 0 < n.
Proof. destruct Htokens as (f & e & H & _). unfold n. rewrite H, length_app. simpl. lia. Qed.

Lemma eof_last i t : tokens !! i = Some t -> kind t <> TokenKind.Eof -> S i < n.
Proof.
  destruct Htokens as (f & e & H & He & _). unfold n. rewrite H, length_app. simpl.
  intros Hi Hk. assert (i < length (f ++ [e])) by by eapply lookup_lt_Some.
  rewrite length_app in *. simpl in *.
  destruct (decide (i = length f)) as [->|]; [|lia].
  rewrite lookup_app_r, Nat.sub_diag in Hi by lia. simpl in Hi. congruence.
Qed.

Lemma not_eof_before i t : tokens !! i = Some t -> S i < n -> kind t <> TokenKind.Eof.
Proof.
  destruct Htokens as (f & e & H & He & Hf). unfold n. rewrite H, length_app. simpl.
  intros Hi Hk. rewrite lookup_app_l in Hi by lia. by eapply (Forall_lookup_1 _ _ _ _ Hf).
Qed.

Lemma fresh_ok s : fresh s -> ok s.
Proof. intros (t & Ht & _). by eapply lookup_lt_Some. Qed.

Lemma with_pos_pos s : with_pos (pos s) s = s.
Proof. by destruct s. Qed.

Lemma with_pos_twice p q s : with_pos p (with_pos q s) = with_pos p s.
Proof. done. Qed.

Lemma token_at_ok i : i < n -> exists t, token_at tokens i = Ok t /\ tokens !! i = Some t.
Proof.
  intros Hi. unfold token_at. fold n. rewrite Nat.min_l by lia.
  destruct (index_lt (E:=ParseError) tokens i Hi) as (t & H1 & H2). eauto.
Qed.

(** ** Token access *)

Lemma wp_current_token s Q :
  ok s -> (forall t, tokens !! pos s = Some t -> Q t s) -> wpp (current_token tokens) s Q.
Proof.
  intros Hok HQ. destruct (token_at_ok (pos s) Hok) as (t & Ht & Hl).
  unfold wp, current_token, sbind, sget, slift. rewrite Ht. by apply HQ.
Qed.

Lemma wp_peek_kind s Q :
  ok s -> (forall t, tokens !! pos s = Some t -> Q (kind t) s) -> wpp (peek_kind tokens) s Q.
Proof.
  intros Hok HQ. apply wp_bind, wp_current_token; [done|]. intros t Ht. by apply wp_ret, HQ.
Qed.

Lemma wp_current_span s Q :
  ok s -> (forall t, tokens !! pos s = Some t -> Q (tspan t) s) -> wpp (current_span tokens) s Q.
Proof.
  intros Hok HQ. apply wp_bind, wp_current_token; [done|]. intros t Ht. by apply wp_ret, HQ.
Qed.

Lemma wp_at_eof s Q :
  ok s -> (forall t, tokens !! pos s = Some t -> Q (is_eof (kind t)) s) -> wpp (at_eof tokens) s Q.
Proof.
  intros Hok HQ. apply wp_bind, wp_peek_kind; [done|]. intros t Ht. by apply wp_ret, HQ.
Qed.

Lemma wp_advance s Q :
  ok s -> (forall t, tokens !! pos s = Some t -> Q t (with_pos (S (pos s)) s)) ->
  wpp (advance tokens) s Q.
Proof.
  intros Hok HQ. apply wp_bind, wp_current_token; [done|]. intros t Ht.
  apply wp_bind, wp_modify, wp_ret. by apply HQ.
Qed.

Lemma wp_previous_span s Q t :
  0 < pos s -> tokens !! (pos s - 1) = Some t -> Q (tspan t) s ->
  wpp (previous_span tokens) s Q.
Proof.
  intros Hp Ht HQ. assert (pos s - 1 < n) by by eapply lookup_lt_Some.
  destruct (token_at_ok (pos s - 1)) as (t' & Ht' & Hl); [done|].
  unfold wp, previous_span, sbind, sget, slift, sret. rewrite Ht'. by simplify_eq.
Qed.

Lemma wp_peek_symbol_like s Q :
  ok s ->
  (forall t w, tokens !! pos s = Some t -> named t w -> Q (Some w) s) ->
  (forall t, tokens !! pos s = Some t -> (forall w, ~ named t w) -> Q None s) ->
  wpp (peek_symbol_like tokens) s Q.
Proof.
  intros Hok HS HN. apply wp_bind, wp_peek_kind; [done|]. intros t Ht. apply wp_ret.
  unfold named in *. destruct (kind t) eqn:Ek;
    try (by eapply HS; [done|rewrite Ek; auto]);
    (eapply HN; [done|]; intros w [?|?]; congruence).
Qed.

Lemma names_here t i : tokens !! i = Some t -> t ∈ tokens.
Proof. apply list_elem_of_lookup_2. Qed.

Lemma wp_expect_kind s Q x p :
  ok s -> p TokenKind.Eof = false ->
  (forall t, tokens !! pos s = Some t -> p (kind t) = true -> S (pos s) < n ->
     Q tt (with_pos (S (pos s)) s)) ->
  wpp (expect_kind tokens x p) s Q.
Proof.
  intros Hok Hp HQ. apply wp_bind, wp_advance; [done|]. intros t Ht.
  destruct (p (kind t)) eqn:Hk.
  - apply wp_ret. apply (HQ t); [done|done|]. eapply eof_last; [done|]. congruence.
  - apply wp_fail. exists t. split; [by eapply names_here|done].
Qed.

Lemma is_symbol_true w k : is_symbol w k = true <-> k = TokenKind.Symbol w.
Proof. destruct k; simpl; try (split; congruence). rewrite String.eqb_eq. split; congruence. Qed.

Lemma wp_expect_symbol s Q w :
  ok s ->
  (forall t, tokens !! pos s = Some t -> kind t = TokenKind.Symbol w -> S (pos s) < n ->
     Q tt (with_pos (S (pos s)) s)) ->
  wpp (expect_symbol tokens w) s Q.
Proof.
  intros Hok HQ. apply wp_expect_kind; [done|done|]. intros t Ht Hk. apply is_symbol_true in Hk. eauto.
Qed.

Lemma wp_consume_symbol s Q w :
  ok s ->
  (forall t, tokens !! pos s = Some t -> kind t = TokenKind.Symbol w -> S (pos s) < n ->
     Q true (with_pos (S (pos s)) s)) ->
  (forall t, tokens !! pos s = Some t -> kind t <> TokenKind.Symbol w -> Q false s) ->
  wpp (consume_symbol tokens w) s Q.
Proof.
  intros Hok H1 H2. apply wp_bind, wp_peek_kind; [done|]. intros t Ht.
  destruct (is_symbol w (kind t)) eqn:Hw.
  - apply is_symbol_true in Hw. apply wp_bind, wp_advance; [done|]. intros t' Ht'. simplify_eq.
    apply wp_ret. eapply H1; [done|done|]. eapply eof_last; [done|]. congruence.
  - apply wp_ret. eapply H2; [done|]. intros E. apply is_symbol_true in E. congruence.
Qed.

Lemma wp_expected_here {A : Type} s (Q : A -> Parser -> Prop) x :
  ok s -> wpp (expected_here tokens x) s Q.
Proof.
  intros Hok. apply wp_bind, wp_current_token; [done|]. intros t Ht. apply wp_fail.
  exists t. split; [by eapply names_here|done].
Qed.

(** Skipping trivia stops at a fresh state. *)
Lemma wp_skip_newlines_loop fuel s Q :
  ok s -> n - pos s < fuel ->
  (forall p, pos s <= p -> Forall trivia (seg (pos s) p) -> fresh (with_pos p s) -> Q tt (with_pos p s)) ->
  wpp (skip_newlines_loop tokens fuel) s Q.
Proof.
  revert s Q. induction fuel as [|fuel IH]; intros s Q Hok Hf HQ; [lia|]. simpl.
  apply wp_bind, wp_peek_kind; [done|]. intros t Ht. destruct (is_trivia (kind t)) eqn:Hk.
  - apply wp_bind, wp_modify.
    assert (S (pos s) < n) by (eapply eof_last; [done|]; intros E; by rewrite E in Hk).
    apply IH; [done|simpl; lia|]. simpl. intros p Hp Htr Hfr. rewrite with_pos_twice in *.
    apply HQ; [lia| |done]. rewrite (sub_cons _ _ _ t) by (done || lia). by constructor.
  - apply wp_ret. specialize (HQ (pos s)). rewrite with_pos_pos, sub_empty in HQ.
    apply HQ; [lia|done|by exists t].
Qed.

Lemma wp_skip_newlines s Q :
  ok s ->
  (forall p, pos s <= p -> Forall trivia (seg (pos s) p) -> fresh (with_pos p s) -> Q tt (with_pos p s)) ->
  wpp (skip_newlines tokens) s Q.
Proof. intros. apply wp_skip_newlines_loop; [done|unfold n; lia|done]. Qed.

(** At a fresh state nothing is skipped. *)
Lemma wp_skip_fresh s Q : fresh s -> Q tt s -> wpp (skip_newlines tokens) s Q.
Proof.
  intros (t & Ht & Hk) HQ. apply wp_bind, wp_peek_kind; [by eapply lookup_lt_Some|].
  intros t' Ht'. simplify_eq. rewrite Hk. by apply wp_ret.
Qed.

(** ** Argument lists *)

Definition push_args (ins outs : list string) (a : ArgsDecl) : ArgsDecl :=
  mkArgs (ins ++ inputs a) (outs ++ outputs a).

Lemma wp_parse_args_loop fuel s o ins outs Q :
  ok s -> n - pos s < fuel ->
  (forall p a, pos s <= p -> p < n -> yields_args o (seg (pos s) p) a ->
     Q (push_args ins outs a) (with_pos p s)) ->
  wpp (parse_args_loop tokens fuel o ins outs) s Q.
Proof.
  revert s o ins outs Q. induction fuel as [|fuel IH]; intros s o ins outs Q Hok Hf HQ; [lia|]. simpl.
  apply wp_bind, wp_skip_newlines; [done|]. intros p Hp Htr Hfr.
  assert (Hpn := fresh_ok _ Hfr). unfold ok in Hpn. simpl in Hpn.
  assert (Hlift : forall ts a, yields_args o ts a -> yields_args o (seg (pos s) p ++ ts) a).
  { clear -Htr. intros ts a H. induction Htr; simpl; [done|by constructor]. }
  apply wp_bind, wp_peek_kind; [done|]. simpl. intros t Ht.
  destruct (is_right_paren (kind t) || is_eof (kind t)) eqn:Hend.
  { apply wp_ret. rewrite <- (app_nil_r ins), <- (app_nil_r outs).
    apply (HQ p (mkArgs [] [])); [lia|lia|]. rewrite <- (app_nil_r (seg _ _)). apply Hlift. constructor. }
  apply orb_false_iff in Hend as [_ Hne].
  assert (S p < n) by (eapply eof_last; [done|]; intros E; by rewrite E in Hne).
  assert (Hnext : forall o' q a, S p <= q -> yields_args o' (seg (S p) q) a ->
            (forall ts, yields_args o' ts a -> yields_args o (t :: ts) a) -> yields_args o (seg (pos s) q) a).
  { intros o' q a Hq Ha Hc. rewrite (sub_app _ _ p) by lia. apply Hlift.
    rewrite (sub_cons _ p _ t) by (done || lia). auto. }
  apply wp_bind, wp_advance; [done|]. simpl. intros t' Ht'. assert (t' = t) as -> by congruence.
  destruct (kind t) eqn:Hk;
    try (apply wp_fail; exists t; split; [by eapply names_here|simpl; by rewrite Hk]).
  - destruct o.
    + apply IH; [done|simpl; lia|]. simpl. intros q a Hq Hqn Ha.
      replace (push_args ins (outs ++ [s0]) a) with (push_args ins outs (mkArgs (inputs a) (s0 :: outputs a)))
        by (unfold push_args; simpl; by rewrite <- app_assoc).
      apply HQ; [lia|done|]. rewrite (sub_app _ _ p) by lia. apply Hlift.
      rewrite (sub_cons _ p _ t) by (done || lia). by apply YA_output.
    + apply IH; [done|simpl; lia|]. simpl. intros q a Hq Hqn Ha.
      replace (push_args (ins ++ [s0]) outs a) with (push_args ins outs (mkArgs (s0 :: inputs a) (outputs a)))
        by (unfold push_args; simpl; by rewrite <- app_assoc).
      apply HQ; [lia|done|]. rewrite (sub_app _ _ p) by lia. apply Hlift.
      rewrite (sub_cons _ p _ t) by (done || lia). by apply YA_input.
  - apply IH; [done|simpl; lia|]. simpl. intros q a Hq Hqn Ha. apply HQ; [lia|done|].
    eapply Hnext; [done|done|]. intros. by apply YA_arrow.
Qed.

Lemma wp_parse_args s Q :
  ok s ->
  (forall p a t0 t1, S (pos s) <= p -> S p < n ->
     tokens !! pos s = Some t0 -> kind t0 = TokenKind.LeftParen ->
     tokens !! p = Some t1 -> kind t1 = TokenKind.RightParen ->
     yields_args false (seg (S (pos s)) p) a -> Q a (with_pos (S p) s)) ->
  wpp (parse_args tokens) s Q.
Proof.
  intros Hok HQ. apply wp_bind, wp_expect_kind; [done|done|]. intros t0 Ht0 Hk0 Hn0.
  apply wp_bind, wp_parse_args_loop; [done|simpl; unfold n; lia|]. simpl. intros p a Hp Hpn Ha.
  apply wp_bind, wp_expect_kind; [done|done|]. simpl. intros t1 Ht1 Hk1 Hn1. apply wp_ret.
  unfold push_args. simpl. destruct a as [i o]. apply (HQ p (mkArgs i o) t0 t1); [lia|done|done| |done| |done].
  - by destruct (kind t0).
  - by destruct (kind t1).
Qed.

(** ** Expressions *)

(** What each of the mutually recursive functions promises with fuel [f]. *)
Definition spec_expr (f : nat) : Prop := forall s Q,
  fresh s -> 4 * (n - pos s) + 1 <= f ->
  (forall p e, pos s < p -> p < n -> yields (seg (pos s) p) e -> Q e (with_pos p s)) ->
  wpp (parse_expr tokens f) s Q.

Definition spec_if (f : nat) : Prop := forall s Q t0,
  ok s -> 0 < pos s -> tokens !! (pos s - 1) = Some t0 -> kind t0 = TokenKind.Symbol "if" ->
  4 * (n - pos s) + 4 <= f ->
  (forall p x t1, pos s < p -> p < n -> tokens !! (p - 1) = Some t1 ->
     yields (seg (pos s - 1) p) (mkSpanned x (join (tspan t0) (tspan t1))) -> Q x (with_pos p s)) ->
  wpp (parse_if_expr tokens f) s Q.

Definition spec_until (f : nat) : Prop := forall s Q stop x acc,
  ok s -> 4 * (n - pos s) + 3 <= f ->
  (forall p es t, pos s <= p -> p < n -> tokens !! p = Some t -> is_stop stop (kind t) = true ->
     yields_stmts stop (seg (pos s) p) es -> Q (acc ++ es) (with_pos p s)) ->
  wpp (parse_exprs_until tokens f stop x acc) s Q.

Definition spec_block (f : nat) : Prop := forall s Q acc,
  ok s -> 4 * (n - pos s) + 3 <= f ->
  (forall p es t, pos s <= p -> p < n -> tokens !! p = Some t -> kind t = TokenKind.RightBracket ->
     yields_stmts [] (seg (pos s) p) es -> Q (acc ++ es) (with_pos p s)) ->
  wpp (parse_block_exprs tokens f acc) s Q.

Definition spec_item (f : nat) : Prop := forall s Q,
  fresh s -> 4 * (n - pos s) + 2 <= f ->
  (forall p e, pos s < p -> p < n -> yields_stmt (seg (pos s) p) e -> follows e (drop p tokens) ->
     Q e (with_pos p s)) ->
  wpp (parse_expr_item tokens f) s Q.

Definition spec_loop (f : nat) : Prop := forall s Q p0 es,
  ok s -> p0 < pos s -> yields_line (seg p0 (pos s)) es -> 4 * (n - pos s) + 2 <= f ->
  (forall p e, pos s <= p -> p < n -> yields_stmt (seg p0 p) e -> follows e (drop p tokens) ->
     Q e (with_pos p s)) ->
  wpp (parse_expr_item_loop tokens f es) s Q.

Definition specs (f : nat) : Prop :=
  spec_expr f /\ spec_if f /\ spec_until f /\ spec_block f /\ spec_item f /\ spec_loop f.

Lemma number_expr_span lit sp sp' e : number_expr lit sp = Ok e -> number_expr lit sp' = Ok e.
Proof. unfold number_expr. repeat case_match; done. Qed.

Lemma number_expr_cases lit sp :
  (exists e, number_expr lit sp = Ok e) \/ number_expr lit sp = Err (ParseError.InvalidNumber lit sp).
Proof. unfold number_expr. repeat case_match; eauto. Qed.

Lemma fresh_lookup s t : fresh s -> tokens !! pos s = Some t -> is_trivia (kind t) = false.
Proof. intros (t' & ? & ?) ?. congruence. Qed.

(** The token just read, alone, is the expression. *)
Lemma wp_atom s t e Q :
  tokens !! pos s = Some t -> S (pos s) < n -> atom (kind t) e ->
  (forall p e', pos s < p -> p < n -> yields (seg (pos s) p) e' -> Q e' (with_pos p s)) ->
  wpp (let* previous := previous_span tokens in
       sret (mkSpanned e (mkSpan (start (tspan t)) (end_ previous)))) (with_pos (S (pos s)) s) Q.
Proof.
  intros Ht Hn Ha HQ. apply wp_bind.
  apply (wp_previous_span _ _ t); [simpl; lia|simpl; by rewrite Nat.sub_0_r|].
  apply wp_ret. apply HQ; [lia|done|]. rewrite (sub_one _ _ t) by done. by apply Y_atom.
Qed.

(** A bracketed expression that starts at [pos s] and whose last token is the
    one before [q]. *)
Lemma wp_close s t0 t1 e q Q :
  pos s < q -> q < n -> tokens !! (q - 1) = Some t1 ->
  yields (seg (pos s) q) (mkSpanned e (join (tspan t0) (tspan t1))) ->
  (forall p e', pos s < p -> p < n -> yields (seg (pos s) p) e' -> Q e' (with_pos p s)) ->
  wpp (let* previous := previous_span tokens in
       sret (mkSpanned e (mkSpan (start (tspan t0)) (end_ previous)))) (with_pos q s) Q.
Proof.
  intros Hq Hn Ht Hy HQ. apply wp_bind.
  apply (wp_previous_span _ _ t1); [simpl; lia|done|]. apply wp_ret. by apply HQ.
Qed.

(** A token between two that delimit [a..b). *)
Lemma seg_delimited a b t0 t1 :
  tokens !! a = Some t0 -> a < b -> tokens !! b = Some t1 ->
  seg a (S b) = t0 :: seg (S a) b ++ [t1].
Proof.
  intros H0 Hab H1. rewrite (sub_snoc _ _ _ t1) by (done || lia).
  by rewrite (sub_cons _ _ _ t0) by done.
Qed.

Lemma expr_sound f : specs f -> spec_expr (S f).
Proof.
  intros (_ & Hif & _ & Hblock & _) s Q Hfr Hf HQ.
  assert (Hok : pos s < n) by by apply fresh_ok.
  apply wp_bind, wp_skip_fresh; [done|].
  apply wp_bind, wp_advance; [done|]. intros t Ht. cbv zeta.
  assert (Hsn : kind t <> TokenKind.Eof -> S (pos s) < n) by (intros; by eapply eof_last).
  assert (Hfail : forall sp, sp = tspan t -> names_token (ParseError.Unexpected (kind t) sp)).
  { intros sp ->. exists t. split; [by eapply names_here|done]. }
  assert (Htr := fresh_lookup _ _ Hfr Ht).
  pose proof (fun e => wp_atom s t e Q Ht) as Hatom.
  destruct (kind t) as [w|w|w|w|lit|w| | | | | | |] eqn:Hk; try discriminate Htr;
    try (apply wp_bind, wp_fail, Hfail; done);
    try (apply wp_bind, wp_ret; apply Hatom; [apply Hsn; done|done|done]).
  - destruct (String.eqb_spec w "if") as [->|Hnif].
    { apply wp_bind. apply (Hif _ _ t); [by apply Hsn|simpl; lia|simpl; by rewrite Nat.sub_0_r|done|simpl; lia|].
      simpl. rewrite Nat.sub_0_r. intros p x t1 Hp Hpn Ht1 Hy.
      rewrite with_pos_twice. eapply wp_close; [lia|done|done|done|done]. }
    destruct (String.eqb_spec w "while") as [->|Hnw].
    { apply wp_bind, wp_fail. exists t. split; [by eapply names_here|done]. }
    apply wp_bind, wp_ret. apply Hatom; [apply Hsn; done|done|done].
  - destruct (number_expr_cases lit (tspan t)) as [[e He]|He].
    + apply wp_bind. unfold wp, slift. rewrite He. apply Hatom; [apply Hsn; done| |done].
      simpl. intros sp. by eapply number_expr_span.
    + apply wp_bind. unfold wp, slift. rewrite He. exists t. split; [by eapply names_here|done].
  - apply wp_bind, wp_bind, wp_modify. rewrite with_pos_twice. simpl. rewrite Nat.sub_0_r, with_pos_pos.
    apply wp_bind, wp_parse_args; [done|]. intros p a t0 t1 Hp Hpn Ht0 Hk0 Ht1 Hk1 Ha. simplify_eq.
    apply wp_ret. eapply wp_close; [lia|done|simpl; by rewrite Nat.sub_0_r| |done].
    rewrite (seg_delimited _ _ t t1) by (done || lia). by apply Y_args.
  - apply wp_bind, wp_bind. apply Hblock; [by apply Hsn|simpl; lia|].
    simpl. intros p es t1 Hp Hpn Ht1 Hk1 Hes.
    apply wp_bind, wp_expect_kind; [done|done|]. simpl. intros t2 Ht2 _ Hsp. simplify_eq.
    apply wp_ret. rewrite !with_pos_twice.
    eapply wp_close; [lia|done|simpl; by rewrite Nat.sub_0_r| |done].
    rewrite (seg_delimited _ _ t t1) by (done || lia). by apply Y_block.
Qed.

Lemma seg_snoc_app a b c t :
  a <= b -> tokens !! b = Some t -> S b <= c -> seg a c = seg a b ++ t :: seg (S b) c.
Proof. intros. rewrite (sub_app _ a b c) by lia. by rewrite (sub_cons _ b c t) by (done || lia). Qed.

Lemma if_sound f : specs f -> spec_if (S f).
Proof.
  intros (_ & _ & Huntil & _) s Q t0 Hok Hpos Ht0 Hk0 Hf HQ. simpl.
  apply wp_bind, Huntil; [done|lia|]. intros p es t Hp Hpn Ht Hstop Hes.
  apply wp_bind, wp_consume_symbol; [done| |]; simpl; intros te Hte Hke; rewrite Hte in Ht; simplify_eq.
  - intros Hn. rewrite with_pos_twice. apply wp_bind, Huntil; [done|unfold ok in Hok; simpl; lia|].
    simpl. intros q es' t1 Hq Hqn Ht1 _ Hes'.
    apply wp_bind, wp_expect_symbol; [done|]. simpl. intros t1' Ht1' Hk1 Hsq. simplify_eq.
    apply wp_ret. rewrite !with_pos_twice. apply (HQ _ _ t1); [lia|done|simpl; by rewrite Nat.sub_0_r|].
    rewrite (seg_delimited _ _ t0 t1) by (done || lia).
    replace (S (pos s - 1)) with (pos s) by lia. rewrite (seg_snoc_app _ p _ t) by (done || lia).
    rewrite <- app_assoc. simpl. by apply Y_if_else.
  - apply wp_bind, wp_ret.
    apply wp_bind, wp_expect_symbol; [done|]. simpl. intros t1' Ht1' Hk1 Hsq. simplify_eq.
    apply wp_ret. rewrite !with_pos_twice. apply (HQ _ _ t); [lia|done|simpl; by rewrite Nat.sub_0_r|].
    rewrite (seg_delimited _ _ t0 t) by (done || lia).
    replace (S (pos s - 1)) with (pos s) by lia. by apply Y_if.
Qed.

(** Segments and [heads]. *)
Lemma heads_seg p a b : heads p (drop a tokens) -> heads p (seg a b).
Proof. unfold sub. destruct (drop a tokens); [by destruct (b - a)|]. by destruct (b - a). Qed.

Lemma heads_at p a b t : tokens !! a = Some t -> p (kind t) = true -> heads p (seg a b).
Proof. intros Ht Hp. apply heads_seg. by rewrite (drop_S _ t) by done. Qed.

Lemma follows_seg e a b : follows e (drop a tokens) -> follows e (seg a b).
Proof. intros [?|?]; [by left|right; by apply heads_seg]. Qed.

(** One more statement in front of a statement list. *)
Lemma stmts_cons stop a p b c e es t :
  a <= p -> p < b -> b <= c -> Forall trivia (seg a p) ->
  tokens !! p = Some t -> is_stop stop (kind t) = false ->
  yields_stmt (seg p b) e -> follows e (drop b tokens) -> yields_stmts stop (seg b c) es ->
  yields_stmts stop (seg a c) (e :: es).
Proof.
  intros Hap Hpb Hbc Htr Ht Hstop He Hfol Hes.
  rewrite (sub_app _ a p c), (sub_app _ p b c) by lia.
  induction Htr as [|t' ts Ht' _ IH]; simpl; [|by apply Y_trivia].
  apply Y_cons; [done| |by apply follows_seg|done].
  eapply heads_at; [done|]. by rewrite Hstop.
Qed.

Lemma until_sound f : specs f -> spec_until (S f).
Proof.
  intros (_ & _ & Huntil & _ & Hitem & _) s Q stop x acc Hok Hf HQ.
  apply wp_bind, wp_skip_newlines; [done|]. intros p Hp Htr Hfr.
  assert (Hpn : p < n) by by apply fresh_ok in Hfr.
  apply wp_bind, wp_peek_kind; [done|]. simpl. intros t Ht.
  destruct (is_stop stop (kind t)) eqn:Hstop.
  { apply wp_ret. rewrite <- (app_nil_r acc). apply (HQ _ _ t); try done.
    by apply yields_stmts_trivia. }
  apply wp_bind, wp_at_eof; [done|]. simpl. intros t' Ht'. assert (t' = t) as -> by congruence.
  destruct (is_eof (kind t)); [by apply wp_expected_here|].
  apply wp_bind, Hitem; [done|simpl; lia|]. simpl. intros q e Hq Hqn He Hfol.
  apply Huntil; [done|simpl; lia|]. simpl. intros r es t1 Hr Hrn Ht1 Hs1 Hes.
  unfold push_statement. rewrite <- app_assoc. simpl. rewrite !with_pos_twice.
  apply (HQ _ _ t1); [lia|done|done|done|]. eapply (stmts_cons _ _ p q); eauto.
Qed.

Lemma block_sound f : specs f -> spec_block (S f).
Proof.
  intros (_ & _ & _ & Hblock & Hitem & _) s Q acc Hok Hf HQ.
  apply wp_bind, wp_skip_newlines; [done|]. intros p Hp Htr Hfr.
  assert (Hpn : p < n) by by apply fresh_ok in Hfr.
  apply wp_bind, wp_peek_kind; [done|]. simpl. intros t Ht.
  destruct (is_right_bracket (kind t)) eqn:Hstop.
  { apply wp_ret. rewrite <- (app_nil_r acc). apply (HQ _ _ t); try done; [by destruct (kind t)|].
    by apply yields_stmts_trivia. }
  apply wp_bind, wp_at_eof; [done|]. simpl. intros t' Ht'. assert (t' = t) as -> by congruence.
  destruct (is_eof (kind t)); [by apply wp_expected_here|].
  apply wp_bind, Hitem; [done|simpl; lia|]. simpl. intros q e Hq Hqn He Hfol.
  apply Hblock; [done|simpl; lia|]. simpl. intros r es t1 Hr Hrn Ht1 Hs1 Hes.
  unfold push_statement. rewrite <- app_assoc. simpl. rewrite !with_pos_twice.
  apply (HQ _ _ t1); [lia|done|done|done|]. eapply (stmts_cons _ _ p q); eauto. by destruct (kind t).
Qed.

Lemma item_sound f : specs f -> spec_item (S f).
Proof.
  intros (Hexpr & _ & _ & _ & _ & Hloop) s Q Hfr Hf HQ. assert (Hok : pos s < n) by by apply fresh_ok.
  apply wp_bind, Hexpr; [done|lia|]. intros p e Hp Hpn He.
  apply (Hloop _ _ (pos s)); [done|done|by apply Y_first|simpl; lia|].
  simpl. intros q e' Hq Hqn He'. rewrite with_pos_twice. apply HQ; [lia|done|done].
Qed.

Lemma yields_line_spans ts es : yields_line ts es -> exists sp, spans_of es = Some sp /\ exprs_span es = Ok sp.
Proof.
  intros H. assert (Hne : es <> []) by (destruct H; [done|by destruct es]).
  unfold spans_of, exprs_span. destruct es as [|e es]; [done|]. simpl.
  destruct (list.last (e :: es)) as [e'|] eqn:Hl; [|by apply last_None in Hl]. eauto.
Qed.

Lemma not_ends_item_fresh k : ends_item k = false -> is_trivia k = false /\ k <> TokenKind.Eof.
Proof. by destruct k. Qed.

Lemma yields_not_while ts e : yields ts e -> is_while_expr e = false.
Proof.
  destruct 1 as [t e Ha| | | |]; try done. unfold is_while_expr. simpl.
  destruct e; try done. exfalso. destruct (kind t); simpl in Ha; try naive_solver.
  specialize (Ha (mkSpan 0 0)). unfold number_expr in Ha. by repeat case_match.
Qed.

Lemma loop_sound f : specs f -> spec_loop (S f).
Proof.
  intros (Hexpr & _ & Huntil & _ & _ & Hloop) s Q p0 es Hok Hp0 Hes Hf HQ. simpl.
  unfold ok in Hok. destruct (yields_line_spans _ _ Hes) as (sp & Hsp & Hsp').
  apply wp_bind, wp_consume_symbol; [done| |]; intros tw Htw Hkw.
  - intros Hn. apply wp_bind, Huntil; [done|simpl; lia|]. simpl. intros p b t1 Hp Hpn Ht1 _ Hb.
    rewrite with_pos_twice.
    apply wp_bind, wp_expect_symbol; [done|]. simpl. intros t1' Ht1' Hk1 Hsp1. simplify_eq.
    apply wp_bind. unfold wp at 1, slift. rewrite Hsp'. rewrite with_pos_twice.
    apply wp_bind, (wp_previous_span _ _ t1); [simpl; lia|simpl; by rewrite Nat.sub_0_r|].
    apply wp_ret. apply HQ; [lia|done| |by left].
    rewrite (seg_snoc_app p0 (pos s) _ tw) by (done || lia).
    rewrite (sub_snoc _ _ p t1) by (done || lia). by eapply Y_while.
  - apply wp_bind, wp_peek_kind; [done|]. intros t Ht. simplify_eq.
    destruct (ends_item (kind tw)) eqn:Hend.
    + assert (Hfol : forall e, follows e (drop (pos s) tokens)).
      { intros e. right. by rewrite (drop_S _ tw) by done. }
      destruct es as [|e [|e' es]].
      * by apply wp_bind; unfold wp at 1, slift; rewrite Hsp'.
      * apply wp_ret. rewrite <- (with_pos_pos s) at 1.
        apply HQ; [lia|done|by apply Y_single|done].
      * apply wp_bind. unfold wp at 1, slift. rewrite Hsp'. apply wp_ret.
        rewrite <- (with_pos_pos s) at 1. apply HQ; [lia|done| |done].
        apply Y_sequence; [done|simpl; lia|done].
    + destruct (not_ends_item_fresh _ Hend) as [Htr Hne].
      apply wp_bind, Hexpr; [by exists tw|simpl; lia|]. intros p e Hp Hpn He.
      apply (Hloop _ _ p0); [done|simpl; lia| |simpl; lia|].
      * simpl. rewrite (sub_app _ p0 (pos s) p) by lia. apply Y_next; [done|done|].
        eapply heads_at; [done|]. by rewrite Hend.
      * simpl. intros q e' Hq Hqn He' Hfol. rewrite with_pos_twice. apply HQ; [lia|done|done|done].
Qed.

Lemma all_sound f : specs f.
Proof.
  induction f as [|f IH].
  - split_and!.
    + intros s Q Hfr Hf. lia.
    + intros s Q t0 _ _ _ _ Hf. lia.
    + intros s Q stop x acc _ Hf. lia.
    + intros s Q acc _ Hf. lia.
    + intros s Q _ Hf. lia.
    + intros s Q p0 es _ _ _ Hf. lia.
  - split_and!; [by apply expr_sound|by apply if_sound|by apply until_sound|by apply block_sound
      |by apply item_sound|by apply loop_sound].
Qed.

(** ** Items *)

Lemma wp_skip_item_trivia_loop fuel s Q :
  ok s -> n - pos s < fuel ->
  (forall p d, pos s <= p -> fresh (mkParser p d) ->
     (forall c ts rest its d2, yields_items c d ts rest its d2 ->
        yields_items c (pending_docs s) (seg (pos s) p ++ ts) rest its d2) ->
     Q tt (mkParser p d)) ->
  wpp (skip_item_trivia_loop tokens fuel) s Q.
Proof.
  revert s Q. induction fuel as [|fuel IH]; intros s Q Hok Hf HQ; [lia|]. simpl.
  apply wp_bind, wp_peek_kind; [done|]. intros t Ht.
  assert (Hskip : is_trivia (kind t) = true -> S (pos s) < n)
    by (intros E; eapply eof_last; [done|]; intros E'; by rewrite E' in E).
  assert (Hstop : is_trivia (kind t) = false -> Q tt s).
  { intros E. replace s with (mkParser (pos s) (pending_docs s)) by by destruct s.
    apply HQ; [done|by exists t|]. intros. by rewrite sub_empty. }
  destruct (kind t) eqn:Hk; try (apply wp_ret, Hstop; done);
    apply wp_bind, wp_modify; (apply IH; [by apply Hskip|unfold ok in Hok; simpl; lia|]); simpl;
    intros p d Hp Hfr Hy; apply HQ; try (done || lia); intros c ts rest its d2 H;
    rewrite (sub_cons _ _ _ t) by (done || lia); simpl.
  - by eapply YI_doc, Hy.
  - by apply YI_newline, Hy.
Qed.

Lemma wp_skip_item_trivia s Q :
  ok s ->
  (forall p d, pos s <= p -> fresh (mkParser p d) ->
     (forall c ts rest its d2, yields_items c d ts rest its d2 ->
        yields_items c (pending_docs s) (seg (pos s) p ++ ts) rest its d2) ->
     Q tt (mkParser p d)) ->
  wpp (skip_item_trivia tokens) s Q.
Proof. intros. apply wp_skip_item_trivia_loop; [done|unfold n; lia|done]. Qed.

Lemma seg_drop a b : a <= b -> drop a tokens = seg a b ++ drop b tokens.
Proof.
  intros. unfold sub. rewrite <- (take_drop (b - a) (drop a tokens)) at 1. f_equal.
  rewrite drop_drop. f_equal. lia.
Qed.

Lemma drop_lookup a t l : drop a tokens = t :: l -> tokens !! a = Some t /\ drop (S a) tokens = l.
Proof.
  intros H. split.
  - rewrite <- (Nat.add_0_r a), <- lookup_drop, H. done.
  - replace (S a) with (a + 1) by lia. by rewrite <- drop_drop, H.
Qed.

(** An argument list is determined by where it starts. *)
Lemma yields_args_body o ts a : yields_args o ts a -> Forall (fun t => kind t <> TokenKind.RightParen) ts.
Proof.
  induction 1 as [|o t ts a Ht|o t ts a Ht|t ts a w Ht|t ts a w Ht]; constructor; try done; try congruence.
  unfold trivia in Ht. intros E. by rewrite E in Ht.
Qed.

Lemma split_at_first {A : Type} (p : A -> Prop) l1 x1 r1 l2 x2 r2 :
  Forall p l1 -> Forall p l2 -> ~ p x1 -> ~ p x2 -> l1 ++ x1 :: r1 = l2 ++ x2 :: r2 ->
  l1 = l2 /\ x1 = x2 /\ r1 = r2.
Proof.
  intros H1. revert l2. induction H1 as [|y l1 Hy _ IH]; intros [|y2 l2] H2 N1 N2 E; simplify_eq/=.
  - done.
  - by inversion H2.
  - done.
  - inversion H2; subst. destruct (IH l2) as (-> & -> & ->); auto.
Qed.

Lemma args_tokens_unique ts1 a1 r1 ts2 a2 r2 :
  args_tokens ts1 a1 -> args_tokens ts2 a2 -> ts1 ++ r1 = ts2 ++ r2 -> ts1 = ts2 /\ r1 = r2.
Proof.
  intros (t0 & b & t1 & -> & _ & K1 & Y1) (t0' & b' & t1' & -> & _ & K1' & Y1') E.
  simpl in E. rewrite <- !app_assoc in E. injection E as -> E.
  destruct (split_at_first (fun t => kind t <> TokenKind.RightParen) b t1 r1 b' t1' r2) as (-> & -> & ->);
    [by eapply yields_args_body|by eapply yields_args_body|tauto|tauto|done|done].
Qed.

Lemma named_not_paren t w : named t w -> kind t <> TokenKind.LeftParen.
Proof. unfold named. intros [?|?]; congruence. Qed.

Lemma wp_try_parse_macro f s Q :
  fresh s -> 4 * (n - pos s) + 3 <= f ->
  (forall p m, pos s < p -> p < n ->
     (forall d, yields_item d (seg (pos s) p) (drop p tokens) (Item.Macro (macro_with_docs d m)) []) ->
     Q (Some m) (with_pos p s)) ->
  (~ begins_macro (drop (pos s) tokens) -> Q None s) ->
  wpp (try_parse_macro tokens f) s Q.
Proof.
  intros Hfr Hf HS HN. assert (Hok : pos s < n) by by apply fresh_ok.
  apply wp_bind, wp_skip_fresh; [done|]. apply wp_bind, wp_get. cbv zeta.
  apply wp_bind, wp_current_span; [done|]. intros tn Htn.
  apply wp_bind, wp_peek_kind; [done|]. intros tn' Htn'. assert (tn' = tn) as -> by congruence.
  assert (Hnot : (forall w, kind tn <> TokenKind.String w) -> ~ begins_macro (drop (pos s) tokens)).
  { intros H (t & x & tm & r & E & Ht & _). apply drop_lookup in E as [E _].
    eapply H. by replace tn with t by congruence. }
  destruct (kind tn) as [| | |name| | | | | | | | |] eqn:Hkn; try (apply wp_ret, HN, Hnot; done).
  assert (HSn : S (pos s) < n) by (eapply eof_last; [done|congruence]).
  apply wp_bind, wp_advance; [done|]. intros t Ht. clear t Ht.
  apply wp_bind, wp_consume_symbol; [done| |]; simpl.
  2: { intros tm Htm Hkm. apply wp_bind, wp_modify, wp_ret. rewrite with_pos_twice, with_pos_pos. apply HN.
       intros (t & x & tm' & r & E & _ & Hm). apply drop_lookup in E as [_ E].
       apply drop_lookup in E as [E _]. unfold word in Hm. congruence. }
  intros tm Htm Hkm HSm. rewrite with_pos_twice.
  apply wp_bind, wp_skip_newlines; [done|]. simpl. intros p1 Hp1 Htr1 Hfr1. rewrite with_pos_twice in *.
  assert (Hp1n : p1 < n) by by apply fresh_ok in Hfr1.
  apply wp_bind, wp_peek_kind; [done|]. simpl. intros t1 Ht1.
  (* the argument list, up to the bracket *)
  apply wp_bind, (wp_mono _ _ (fun args s' => exists p2, s' = with_pos p2 s /\ p1 <= p2 < n
    /\ macro_args_tokens (seg (S (S (pos s))) p2) args) _ names_token); [| |done].
  { destruct (is_left_paren (kind t1)).
    - apply wp_bind, wp_parse_args; [done|]. simpl. intros p a t2 t3 Hp Hpn H2 K2 H3 K3 Ha.
      apply wp_bind, wp_skip_newlines; [done|]. simpl. intros p2 Hp2 Htr2 Hfr2.
      apply wp_ret. exists p2. split; [done|]. apply fresh_ok in Hfr2. split; [unfold ok in Hfr2; simpl in Hfr2; lia|].
      rewrite (sub_app _ _ p1 p2), (sub_app _ p1 (S p) p2) by lia. apply MA_some; [done| |done].
      exists t2, (seg (S p1) p), t3. split; [by apply seg_delimited|done].
    - apply wp_ret. exists p1. split; [done|]. split; [lia|]. by apply MA_none. }
  intros args s' (p2 & -> & Hp2 & Hargs).
  apply wp_bind, wp_peek_kind; [unfold ok; simpl; lia|]. simpl. intros tl Htl.
  destruct (is_left_bracket (kind tl)) eqn:Hkl; simpl; [|apply wp_expected_here; unfold ok; simpl; lia].
  assert (HS2 : S p2 < n) by (eapply eof_last; [done|]; intros E; by rewrite E in Hkl).
  apply wp_bind, wp_advance; [unfold ok; simpl; lia|]. simpl. intros tl' Htl'.
  destruct (all_sound f) as (_ & _ & _ & Hblock & _).
  apply wp_bind, Hblock; [done|simpl; lia|]. simpl. intros p3 b tr Hp3 Hp3n Htr Hkr Hb.
  apply wp_bind, wp_expect_kind; [done|done|]. simpl. intros tr' Htr' _ HS3.
  apply wp_bind, wp_skip_newlines; [done|]. simpl. intros p4 Hp4 Htr4 Hfr4.
  apply wp_bind, wp_expect_symbol; [by apply fresh_ok in Hfr4|]. simpl. intros te Hte Hke HS4.
  apply wp_bind, (wp_previous_span _ _ te); [simpl; lia|simpl; by rewrite Nat.sub_0_r|].
  apply wp_ret. rewrite !with_pos_twice. apply HS; [lia|done|]. intros d.
  rewrite (sub_snoc _ _ p4 te) by (done || lia).
  rewrite (sub_cons _ _ _ tn), (sub_cons _ _ _ tm) by (done || lia).
  rewrite (seg_snoc_app _ p2 _ tl), (seg_snoc_app (S p2) p3 _ tr) by (done || lia).
  simpl. rewrite <- app_assoc. simpl. rewrite <- app_assoc. simpl.
  apply YI_macro; try done. by destruct (kind tl).
Qed.

(** The end of a name-led declaration: a name not followed by [w]. *)
Lemma not_begins_function p args q :
  function_args_tokens (seg p q) args -> p <= q ->
  (forall t, tokens !! p = Some t -> kind t = TokenKind.LeftParen -> p < q) ->
  (forall tn tf x, tokens !! q = Some tn -> tokens !! S q = Some tf -> named tn x ->
     ~ word tf "function") ->
  ~ begins_function (drop p tokens).
Proof.
  intros Hargs Hpq Hparen Hno (pre & args' & tn & x & tf & r & E & Hargs' & Hn & Hw).
  assert (pre = seg p q) as ->.
  { rewrite (seg_drop p q) in E by lia. remember (seg p q) as pre0 eqn:Epre.
    destruct Hargs as [|ts a Ha], Hargs' as [|ts' a' Ha'].
    - simpl in E. done.
    - destruct Ha' as (t0 & b & t1 & -> & K0 & _). simpl in E.
      apply drop_lookup in E as [E _].
      assert (q < n) by by eapply lookup_lt_Some.
      apply (f_equal length) in Epre. rewrite sub_length in Epre by (unfold n in *; lia).
      simpl in Epre. assert (p = q) as <- by lia. specialize (Hparen t0 E K0). lia.
    - destruct Ha as (t0 & b & t1 & -> & K0 & _). simplify_eq/=. by apply named_not_paren in Hn.
    - by destruct (args_tokens_unique _ _ _ _ _ _ Ha Ha' E) as [-> _]. }
  rewrite (seg_drop p q) in E by lia. apply app_inv_head in E.
  apply drop_lookup in E as [E1 E2]. apply drop_lookup in E2 as [E2 _]. by eapply Hno.
Qed.

Lemma wp_try_parse_function f s Q :
  fresh s -> 4 * (n - pos s) + 3 <= f ->
  (forall p fn, pos s < p -> p < n ->
     (forall d, ~ begins_class (drop (pos s) tokens) ->
        yields_item d (seg (pos s) p) (drop p tokens) (Item.Function (function_with_docs d fn)) []) ->
     Q (Some fn) (with_pos p s)) ->
  (~ begins_function (drop (pos s) tokens) -> Q None s) ->
  wpp (try_parse_function tokens f) s Q.
Proof.
  intros Hfr Hf HS HN. assert (Hok : pos s < n) by by apply fresh_ok.
  apply wp_bind, wp_skip_fresh; [done|]. apply wp_bind, wp_get. cbv zeta.
  apply wp_bind, wp_current_span; [done|]. intros t0 Ht0.
  apply wp_bind, wp_peek_kind; [done|]. intros t0' Ht0'. assert (t0' = t0) as -> by congruence.
  apply wp_bind, (wp_mono _ _ (fun args s' => exists p1, s' = with_pos p1 s /\ pos s <= p1 < n
    /\ function_args_tokens (seg (pos s) p1) args
    /\ (kind t0 = TokenKind.LeftParen -> pos s < p1)) _ names_token); [| |done].
  { destruct (is_left_paren (kind t0)) eqn:Hlp.
    - apply wp_bind, wp_parse_args; [done|]. simpl. intros p a t2 t3 Hp Hpn H2 K2 H3 K3 Ha.
      apply wp_ret. exists (S p). split; [done|]. split; [lia|]. split; [|lia]. apply FA_some.
      exists t2, (seg (S (pos s)) p), t3. split; [by apply seg_delimited|done].
    - apply wp_ret. exists (pos s). split; [by rewrite with_pos_pos|]. split; [lia|].
      rewrite sub_empty. split; [apply FA_none|]. intros E. by rewrite E in Hlp. }
  intros args s' (p1 & -> & Hp1 & Hargs & Hlp).
  assert (Hback : (forall tn tf x, tokens !! p1 = Some tn -> tokens !! S p1 = Some tf -> named tn x ->
            ~ word tf "function") -> Q None s).
  { intros H. apply HN. eapply not_begins_function; [done|lia| |done]. intros t Ht. by simplify_eq. }
  apply wp_bind, wp_peek_symbol_like; [unfold ok; simpl; lia| |]; simpl.
  2: { intros tn Htn Hno. apply wp_bind, wp_modify, wp_ret. rewrite with_pos_twice, with_pos_pos.
       apply Hback. intros tn' tf x H1 _ H2. assert (tn' = tn) as -> by congruence. by apply Hno in H2. }
  intros tn name Htn Hname.
  assert (HS1 : S p1 < n).
  { eapply eof_last; [done|]. unfold named in Hname. intros E. rewrite E in Hname. naive_solver. }
  apply wp_bind, wp_advance; [unfold ok; simpl; lia|]. simpl. intros tn' _. clear tn'.
  apply wp_bind, wp_consume_symbol; [done| |]; simpl.
  2: { intros tf Htf Hkf. apply wp_bind, wp_modify, wp_ret. rewrite !with_pos_twice, with_pos_pos.
       apply Hback. intros tn' tf' x _ H2 _ Hw. unfold word in Hw. congruence. }
  intros tf Htf Hkf HS2. rewrite with_pos_twice.
  destruct (all_sound f) as (_ & _ & Huntil & _).
  apply wp_bind, wp_bind, Huntil; [done|simpl; lia|]. simpl. intros p2 b te Hp2 Hp2n Hte Hke Hb.
  apply wp_bind, wp_expect_symbol; [done|]. simpl. intros te' Hte' Hke' HS3. simplify_eq.
  apply wp_ret, wp_bind, (wp_previous_span _ _ te); [simpl; lia|simpl; by rewrite Nat.sub_0_r|].
  apply wp_ret. rewrite !with_pos_twice. apply HS; [lia|done|]. intros d Hnc.
  rewrite (seg_drop (pos s) (S p2)) in Hnc by lia. revert Hnc.
  assert (Hseg : seg (pos s) (S p2) = seg (pos s) p1 ++ tn :: tf :: seg (S (S p1)) p2 ++ [te]).
  { rewrite (sub_snoc _ _ p2 te) by (done || lia). rewrite (seg_snoc_app _ p1 _ tn) by (done || lia).
    rewrite (sub_cons _ (S p1) _ tf) by (done || lia). by rewrite <- app_assoc. }
  rewrite Hseg. intros Hnc. apply YI_function; try done.
  destruct (decide (pos s = p1)) as [<-|].
  - rewrite sub_empty. simpl. congruence.
  - by rewrite (sub_cons _ _ _ t0) by (done || lia).
Qed.

Definition spec_class (f : nat) : Prop := forall s Q,
  fresh s -> pending_docs s = [] -> 4 * (n - pos s) + 3 <= f ->
  (forall p c d', pos s < p -> p < n ->
     (forall d, yields_item d (seg (pos s) p) (drop p tokens) (Item.Class (class_with_docs d c)) d') ->
     Q (Some c) (mkParser p d')) ->
  (~ begins_class (drop (pos s) tokens) -> Q None s) ->
  wpp (try_parse_class tokens f) s Q.

Definition spec_class_body (f : nat) : Prop := forall s Q acc,
  ok s -> 4 * (n - pos s) + 5 <= f ->
  (forall p its d' t, pos s <= p -> S p < n -> tokens !! p = Some t -> word t "end" ->
     yields_items true (pending_docs s) (seg (pos s) p) (drop p tokens) its d' ->
     Q (acc ++ its, end_ (tspan t)) (mkParser (S p) d')) ->
  wpp (parse_class_body tokens f acc) s Q.

Definition spec_parse_item (f : nat) : Prop := forall s Q,
  fresh s -> 4 * (n - pos s) + 4 <= f ->
  (forall p it d', pos s < p -> p < n ->
     yields_item (pending_docs s) (seg (pos s) p) (drop p tokens) it d' -> Q it (mkParser p d')) ->
  wpp (parse_item tokens f) s Q.

Lemma class_sound f : spec_class_body f -> spec_class (S f).
Proof.
  intros Hbody s Q Hfr Hd Hf HS HN. assert (Hok : pos s < n) by by apply fresh_ok.
  apply wp_bind, wp_skip_fresh; [done|]. apply wp_bind, wp_get. cbv zeta.
  apply wp_bind, wp_current_span; [done|]. intros t0 Ht0.
  assert (Hback : (forall tn tp tc x y, tokens !! pos s = Some tn -> tokens !! S (pos s) = Some tp ->
            tokens !! S (S (pos s)) = Some tc -> named tn x -> named tp y -> ~ word tc "Subclass") -> Q None s).
  { intros H. apply HN. intros (tn & x & tp & y & tc & r & E & H1 & H2 & H3).
    apply drop_lookup in E as [E1 E]. apply drop_lookup in E as [E2 E]. apply drop_lookup in E as [E3 _].
    by eapply H. }
  assert (Hnamed : forall t w, named t w -> kind t <> TokenKind.Eof) by (unfold named; intros t w [E|E]; by rewrite E).
  apply wp_bind, wp_peek_symbol_like; [done| |].
  2: { intros tz Htz Hno. apply wp_ret, Hback. intros. simplify_eq. by exfalso; eapply Hno. }
  intros tn name Htn Hname. simplify_eq.
  apply wp_bind, wp_advance; [done|]. intros _ _.
  assert (HS1 : S (pos s) < n) by eauto using eof_last.
  apply wp_bind, wp_peek_symbol_like; [done| |]; simpl.
  2: { intros tz Htz Hno. apply wp_bind, wp_modify, wp_ret. rewrite with_pos_twice, with_pos_pos.
       apply Hback. intros. simplify_eq. by exfalso; eapply Hno. }
  intros tp super Htp Hsuper.
  apply wp_bind, wp_advance; [done|]. simpl. intros _ _. rewrite with_pos_twice.
  assert (HS2 : S (S (pos s)) < n) by eauto using eof_last.
  apply wp_bind, wp_consume_symbol; [done| |]; simpl.
  2: { intros tz Htz Hno. apply wp_bind, wp_modify, wp_ret. rewrite with_pos_twice, with_pos_pos.
       apply Hback. intros. simplify_eq. done. }
  intros tc Htc Hkc HS3. rewrite with_pos_twice.
  apply wp_bind, Hbody; [done|simpl; lia|]. simpl. intros p its d' te Hp Hpn Hte Hke Hits.
  apply wp_ret. apply HS; [lia|done|]. intros d. rewrite Hd in Hits.
  rewrite (sub_snoc _ _ p te), (sub_cons _ _ _ t0), (sub_cons _ _ _ tp), (sub_cons _ _ _ tc) by (done || lia).
  rewrite (drop_S _ te) in Hits by done. simpl. by apply YI_class.
Qed.

Lemma class_body_sound f : spec_parse_item f -> spec_class_body f -> spec_class_body (S f).
Proof.
  intros Hitem Hbody s Q acc Hok Hf HQ. simpl.
  apply wp_bind, wp_skip_item_trivia; [done|]. intros p d Hp Hfr Hpre.
  assert (Hpn : p < n) by by apply fresh_ok in Hfr.
  apply wp_bind, wp_consume_symbol; [done| |]; simpl.
  - intros te Hte Hke HSp.
    apply wp_bind, (wp_previous_span _ _ te); [simpl; lia|simpl; by rewrite Nat.sub_0_r|].
    apply wp_ret. rewrite <- (app_nil_r acc). apply (HQ p [] d te); [done|done|done|done|].
    rewrite <- (app_nil_r (seg _ _)). apply Hpre, YI_nil.
  - intros t Ht Hno.
    apply wp_bind, wp_at_eof; [done|]. simpl. intros t' Ht'. assert (t' = t) as -> by congruence.
    destruct (is_eof (kind t)); [by apply wp_expected_here|].
    apply wp_bind, Hitem; [done|simpl; lia|]. simpl. intros q it d1 Hq Hqn Hit.
    apply Hbody; [done|simpl; lia|]. simpl. intros r its d2 te Hr Hrn Hte Hke Hits.
    rewrite <- app_assoc. apply (HQ r (it :: its) d2 te); [lia|done|done|done|].
    rewrite (sub_app _ _ p r), (sub_app _ p q r) by lia.
    apply Hpre. eapply YI_cons; [by rewrite <- seg_drop by lia| |done].
    eapply heads_at; [done|]. simpl. apply negb_true_iff.
    destruct (is_symbol "end" (kind t)) eqn:E; [|done]. by apply is_symbol_true in E.
Qed.

Lemma parse_item_sound f : spec_class f -> spec_parse_item (S f).
Proof.
  intros Hclass s Q Hfr Hf HQ. apply wp_bind, wp_bind, wp_get, wp_bind.
  unfold wp at 1, sput. apply wp_ret.
  change (mkParser (pos s) []) with (with_pos (pos s) (mkParser 0 [])).
  apply wp_bind, Hclass; [done|done|simpl; lia| |]; simpl.
  { intros p c d' Hp Hpn Hy. apply wp_ret. apply HQ; [done|done|by apply Hy]. }
  intros Hnc. apply wp_bind, wp_try_parse_macro; [done|simpl; lia| |]; simpl.
  { intros p m Hp Hpn Hy. apply wp_ret. apply HQ; [done|done|by apply Hy]. }
  intros Hnm. apply wp_bind, wp_try_parse_function; [done|simpl; lia| |]; simpl.
  { intros p fn Hp Hpn Hy. apply wp_ret. apply HQ; [done|done|by apply Hy]. }
  intros Hnf. destruct (all_sound f) as (_ & _ & _ & _ & Hitem & _).
  apply wp_bind, Hitem; [done|simpl; lia|]. simpl. intros p e Hp Hpn He Hfol. apply wp_ret.
  apply HQ; [done|done|]. apply YI_expr; [done|done|..]; by rewrite <- seg_drop by lia.
Qed.

Lemma items_sound f : spec_class f /\ spec_class_body f /\ spec_parse_item f.
Proof.
  induction f as [|f (IH1 & IH2 & IH3)].
  - split_and!.
    + intros s Q _ _ Hf. lia.
    + intros s Q acc _ Hf. lia.
    + intros s Q _ Hf. lia.
  - split_and!; [by apply class_sound|by apply class_body_sound|by apply parse_item_sound].
Qed.
Lemma module_sound f s Q acc :
  ok s -> 4 * (n - pos s) + 5 <= f ->
  (forall p its d t, pos s <= p -> tokens !! p = Some t -> kind t = TokenKind.Eof ->
     yields_items false (pending_docs s) (seg (pos s) p) (drop p tokens) its d ->
     Q (mkModule (acc ++ its)) (mkParser p d)) ->
  wpp (parse_module_loop tokens f acc) s Q.
Proof.
  revert s Q acc. induction f as [|f IH]; intros s Q acc Hok Hf HQ; [lia|]. simpl.
  apply wp_bind, wp_skip_item_trivia; [done|]. intros p d Hp Hfr Hpre.
  assert (Hpn : p < n) by by apply fresh_ok in Hfr.
  apply wp_bind, wp_at_eof; [done|]. simpl. intros t Ht. destruct (is_eof (kind t)) eqn:He.
  - apply wp_ret. rewrite <- (app_nil_r acc). apply (HQ p [] d t); [done|done|by destruct (kind t)|].
    rewrite <- (app_nil_r (seg _ _)). apply Hpre, YI_nil.
  - destruct (items_sound f) as (_ & _ & Hitem).
    apply wp_bind, Hitem; [done|simpl; lia|]. simpl. intros q it d1 Hq Hqn Hit.
    apply IH; [done|simpl; lia|]. simpl. intros r its d2 te Hr Hte Hke Hits.
    rewrite <- app_assoc. apply (HQ r (it :: its) d2 te); [lia|done|done|].
    rewrite (sub_app _ _ p r), (sub_app _ p q r) by lia.
    apply Hpre. eapply YI_cons; [by rewrite <- seg_drop by lia|by eapply (heads_at _ _ _ t)|done].
Qed.

Lemma at_eof_last p t : tokens !! p = Some t -> kind t = TokenKind.Eof -> S p = n.
Proof.
  intros Ht Hk. destruct (decide (S p < n)); [by destruct (not_eof_before p t)|].
  apply lookup_lt_Some in Ht. unfold n in *. lia.
Qed.

Lemma parse_tokens_spec :
  match parse_tokens tokens with
  | Ok m => yields_module tokens m
  | Err e => names_token e
  | _ => False
  end.
Proof.
  pose proof n_pos as Hn.
  pose proof (module_sound (parse_fuel tokens) (mkParser 0 [])
    (fun m _ => yields_module tokens m) []) as H.
  unfold parse_tokens. unfold wp in H.
  destruct (parse_module_loop _ _ _ _) as [[m s]|e| |]; apply H; try done;
    try (unfold parse_fuel, ok, n; simpl; lia);
    intros p its d t _ Ht Hk Hits; simpl in Hits; exists (seg 0 p), t, d;
    pose proof (at_eof_last p t Ht Hk) as Hp;
    (rewrite (drop_S _ t), (drop_ge _ (S p)) in Hits by (done || unfold n in Hp; lia));
    (split; [|done]); rewrite <- (sub_snoc _ _ _ t), Hp by (done || lia);
    unfold sub, n; by rewrite drop_0, Nat.sub_0_r, firstn_all.
Qed.
End sound.

(** What the lexer returns ends with its only [Eof]. *)
Lemma lex_eof_ended source ts : utf8 (as_bytes source) -> lex source = Ok ts -> eof_ended ts.
Proof.
  intros Hu Hts. destruct (covers_eof _ _ _ (lex_tiles source ts Hu Hts)) as (front & -> & Hf).
  by exists front, (mkToken TokenKind.Eof (mkSpan (length (as_bytes source)) (length (as_bytes source)))).
Qed.
