(* ===== verification/ParserComplete.v ===== *)
(** * The parser's theorems: completeness

    Every token list the grammar relates to a module is parsed to that very
    module.  With [ParserProofs.v] this makes [Grammar.v] an exact
    specification of the parser. *)

From stdpp Require Import base tactics list strings option numbers.
From Stdlib Require Import ZArith NArith Lia Ascii String.
From S2P Require Import Prelude RustStr RustFloat Syntax Lexer LexerProofs Parser Grammar ParserProofs.

Open Scope string_scope.
Open Scope list_scope.
Open Scope nat_scope.

Scheme yields_min := Minimality for yields Sort Prop
  with yields_line_min := Minimality for yields_line Sort Prop
  with yields_stmt_min := Minimality for yields_stmt Sort Prop
  with yields_stmts_min := Minimality for yields_stmts Sort Prop.
Combined Scheme yields_mutind from yields_min, yields_line_min, yields_stmt_min, yields_stmts_min.

Section complete.
Variable tokens : list Token.

Let n := length tokens.

(** The state is in front of the tokens [ts]. *)
Definition at_tokens (s : Parser) (ts : list Token) : Prop := drop (pos s) tokens = ts.

Lemma at_lookup s t ts : at_tokens s (t :: ts) -> tokens !! pos s = Some t.
Proof. intros H. by apply drop_lookup in H as [? _]. Qed.

Lemma at_next s t ts : at_tokens s (t :: ts) -> at_tokens (with_pos (S (pos s)) s) ts.
Proof. intros H. by apply drop_lookup in H as [_ ?]. Qed.

Lemma at_skip s ts1 ts2 : at_tokens s (ts1 ++ ts2) -> at_tokens (with_pos (pos s + length ts1) s) ts2.
Proof. unfold at_tokens. simpl. intros H. by rewrite <- drop_drop, H, drop_app_length. Qed.

Lemma at_length s ts : at_tokens s ts -> length ts = n - pos s.
Proof. intros <-. unfold n. by rewrite length_drop. Qed.

(** ** Token access *)

Lemma run_current s t ts : at_tokens s (t :: ts) -> current_token tokens s = Ok (t, s).
Proof.
  intros H. apply at_lookup in H. unfold current_token, sbind, sget, slift, token_at.
  rewrite Nat.min_l by (apply lookup_lt_Some in H; lia).
  unfold index. by rewrite H.
Qed.

Lemma run_peek s t ts : at_tokens s (t :: ts) -> peek_kind tokens s = Ok (kind t, s).
Proof. intros H. unfold peek_kind. by rewrite (sbind_run _ _ _ _ _ (run_current _ _ _ H)). Qed.

Lemma run_span s t ts : at_tokens s (t :: ts) -> current_span tokens s = Ok (tspan t, s).
Proof. intros H. unfold current_span. by rewrite (sbind_run _ _ _ _ _ (run_current _ _ _ H)). Qed.

Lemma run_eof s t ts : at_tokens s (t :: ts) -> at_eof tokens s = Ok (is_eof (kind t), s).
Proof. intros H. unfold at_eof. by rewrite (sbind_run _ _ _ _ _ (run_peek _ _ _ H)). Qed.

Lemma run_advance s t ts :
  at_tokens s (t :: ts) -> advance tokens s = Ok (t, with_pos (S (pos s)) s).
Proof. intros H. unfold advance. by rewrite (sbind_run _ _ _ _ _ (run_current _ _ _ H)). Qed.

Lemma run_previous s t :
  0 < pos s -> tokens !! (pos s - 1) = Some t -> previous_span tokens s = Ok (tspan t, s).
Proof.
  intros Hp H. unfold previous_span, sbind, sget, slift, token_at.
  rewrite Nat.min_l by (apply lookup_lt_Some in H; lia).
  unfold index. by rewrite H.
Qed.

Lemma run_symbol_like s t ts :
  at_tokens s (t :: ts) ->
  peek_symbol_like tokens s =
    Ok (match kind t with TokenKind.Symbol w | TokenKind.String w => Some w | _ => None end, s).
Proof. intros H. unfold peek_symbol_like. by rewrite (sbind_run _ _ _ _ _ (run_peek _ _ _ H)). Qed.

Lemma run_named s t ts w :
  at_tokens s (t :: ts) -> named t w -> peek_symbol_like tokens s = Ok (Some w, s).
Proof. intros H [K|K]; rewrite (run_symbol_like _ _ _ H), K; done. Qed.

Lemma run_expect x p s t ts :
  at_tokens s (t :: ts) -> p (kind t) = true ->
  expect_kind tokens x p s = Ok (tt, with_pos (S (pos s)) s).
Proof. intros H K. unfold expect_kind. by rewrite (sbind_run _ _ _ _ _ (run_advance _ _ _ H)), K. Qed.

Lemma run_expect_symbol w s t ts :
  at_tokens s (t :: ts) -> kind t = TokenKind.Symbol w ->
  expect_symbol tokens w s = Ok (tt, with_pos (S (pos s)) s).
Proof. intros H K. eapply run_expect; [done|]. by apply is_symbol_true. Qed.

Lemma run_consume w s t ts :
  at_tokens s (t :: ts) -> kind t = TokenKind.Symbol w ->
  consume_symbol tokens w s = Ok (true, with_pos (S (pos s)) s).
Proof.
  intros H K. unfold consume_symbol. rewrite (sbind_run _ _ _ _ _ (run_peek _ _ _ H)).
  rewrite (proj2 (is_symbol_true w (kind t))) by done.
  by rewrite (sbind_run _ _ _ _ _ (run_advance _ _ _ H)).
Qed.

Lemma run_consume_not w s t ts :
  at_tokens s (t :: ts) -> is_symbol w (kind t) = false -> consume_symbol tokens w s = Ok (false, s).
Proof. intros H K. unfold consume_symbol. by rewrite (sbind_run _ _ _ _ _ (run_peek _ _ _ H)), K. Qed.

(** ** Trivia *)

Definition starts_fresh (ts : list Token) : Prop :=
  match ts with [] => False | t :: _ => is_trivia (kind t) = false end.

Lemma run_skip_loop fuel s tr ts :
  at_tokens s (tr ++ ts) -> Forall trivia tr -> starts_fresh ts -> length tr < fuel ->
  skip_newlines_loop tokens fuel s = Ok (tt, with_pos (pos s + length tr) s).
Proof.
  intros H Htr Hfr. revert s fuel H. induction Htr as [|t tr Ht _ IH]; intros s fuel H Hf;
    (destruct fuel as [|fuel]; [simpl in Hf; lia|]); simpl in H |- *.
  - destruct ts as [|t ts]; [done|]. rewrite (sbind_run _ _ _ _ _ (run_peek _ _ _ H)).
    simpl in Hfr. by rewrite Hfr, Nat.add_0_r, with_pos_pos.
  - rewrite (sbind_run _ _ _ _ _ (run_peek _ _ _ H)). unfold trivia in Ht. rewrite Ht.
    erewrite sbind_run by done. rewrite (IH _ fuel (at_next _ _ _ H)) by (simpl in Hf; lia).
    simpl. by rewrite Nat.add_succ_r.
Qed.

Lemma run_skip s tr ts :
  at_tokens s (tr ++ ts) -> Forall trivia tr -> starts_fresh ts ->
  skip_newlines tokens s = Ok (tt, with_pos (pos s + length tr) s).
Proof.
  intros H Htr Hfr. eapply run_skip_loop; [done..|].
  apply at_length in H. rewrite length_app in H. unfold n in H. lia.
Qed.

Lemma run_skip_fresh s ts :
  at_tokens s ts -> starts_fresh ts -> skip_newlines tokens s = Ok (tt, s).
Proof.
  intros H Hfr. rewrite (run_skip s [] ts H) by done. simpl. by rewrite Nat.add_0_r, with_pos_pos.
Qed.

(** ** Argument lists *)

(** Trivia seen so far, [tr], are skipped by the iteration that reads the token
    after them. *)
Lemma trivia_snoc tr t : Forall trivia tr -> trivia t -> Forall trivia (tr ++ [t]).
Proof. intros. apply Forall_app_2; auto. Qed.

Lemma run_args_loop o ts a tr s t rest fuel ins outs :
  yields_args o ts a -> Forall trivia tr -> at_tokens s (tr ++ ts ++ t :: rest) ->
  kind t = TokenKind.RightParen -> length ts < fuel ->
  parse_args_loop tokens fuel o ins outs s
  = Ok (push_args ins outs a, with_pos (pos s + length tr + length ts) s).
Proof.
  intros H. revert tr s fuel ins outs.
  induction H as [o|o t0 ts a Ht0 _ IH|o t0 ts a Hk _ IH|t0 ts a w Hk _ IH|t0 ts a w Hk _ IH];
    intros tr s fuel ins outs Htr Hat Hkt Hf; simpl in Hat, Hf |- *.
  2: { rewrite (cons_middle t0), app_assoc in Hat. rewrite (IH (tr ++ [t0]) s) by (auto using trivia_snoc || lia).
       do 3 f_equal. rewrite length_app. simpl. lia. }
  all: (destruct fuel as [|fuel]; [lia|]); simpl;
    rewrite (sbind_run _ _ _ _ _ (run_skip s tr _ Hat Htr ltac:(simpl; by rewrite ?Hkt, ?Hk)));
    apply at_skip in Hat;
    rewrite (sbind_run _ _ _ _ _ (run_peek _ _ _ Hat)), ?Hkt, ?Hk; simpl.
  { unfold push_args, sret. simpl. by rewrite !app_nil_r, Nat.add_0_r. }
  all: rewrite (sbind_run _ _ _ _ _ (run_advance _ _ _ Hat)), Hk; apply at_next in Hat;
    rewrite (IH [] _ fuel) by (done || lia); unfold push_args; simpl; rewrite <- ?app_assoc, ?with_pos_twice;
    do 3 f_equal; lia.
Qed.

Lemma run_args s ts a rest :
  args_tokens ts a -> at_tokens s (ts ++ rest) ->
  parse_args tokens s = Ok (a, with_pos (pos s + length ts) s).
Proof.
  intros (t0 & body & t1 & -> & K0 & K1 & Ha) Hat. simpl in Hat. rewrite <- app_assoc in Hat. simpl in Hat.
  unfold parse_args. erewrite sbind_run by (eapply run_expect; [done|by rewrite K0]).
  apply at_next in Hat. assert (Hl := at_length _ _ Hat). rewrite length_app in Hl.
  erewrite sbind_run by (eapply (run_args_loop _ _ _ []); [done|done|exact Hat|done|unfold n in Hl; simpl in *; lia]).
  apply at_skip in Hat. simpl in Hat |- *.
  replace (S (pos s + 0 + length body)) with (S (pos s + length body)) in * by lia.
  erewrite sbind_run by (eapply run_expect; [exact Hat|by rewrite K1]).
  unfold sret, push_args. destruct a as [i o]. simpl. rewrite ?with_pos_twice.
  do 3 f_equal. rewrite length_app. simpl. lia.
Qed.
(** ** Expressions *)

Lemma yields_head ts e :
  yields ts e -> exists t ts', ts = t :: ts' /\ is_trivia (kind t) = false
    /\ kind t <> TokenKind.Symbol "while" /\ kind t <> TokenKind.Eof
    /\ is_right_bracket (kind t) = false.
Proof.
  destruct 1 as [t e Ha| t0 ? ? ? K| t0 ? ? ? K| t0 ? ? ? K| t0 ? ? ? ? ? ? K]; eexists _, _;
    (split; [done|]); try (rewrite K; done).
  destruct (kind t); simpl in Ha; naive_solver.
Qed.

(** The kinds an expression begins with. *)
Definition begins_expr (k : TokenKind) : Prop :=
  is_trivia k = false /\ k <> TokenKind.Eof /\ is_right_bracket k = false.

Lemma yields_line_head ts es :
  yields_line ts es -> exists t ts', ts = t :: ts' /\ begins_expr (kind t).
Proof.
  induction 1 as [ts e H|ts es ts' e _ (t & ts1 & -> & ?) _ _].
  - apply yields_head in H as (t & ts' & ? & ? & _ & ? & ?). unfold begins_expr. eauto 6.
  - eexists _, _. simpl. eauto.
Qed.

Lemma yields_stmt_head ts e :
  yields_stmt ts e -> exists t ts', ts = t :: ts' /\ begins_expr (kind t).
Proof.
  destruct 1 as [ts e H|ts es sp H|c tw b t1 ? ? ? ? ? H]; apply yields_line_head in H as (t & ts' & -> & ?);
    eexists _, _; simpl; eauto.
Qed.

Definition c_expr (ts : list Token) (e : SpannedExpr) : Prop := forall f s rest,
  at_tokens s (ts ++ rest) -> 4 * (n - pos s) + 1 <= f ->
  parse_expr tokens f s = Ok (e, with_pos (pos s + length ts) s).

Definition c_line (ts : list Token) (es : list SpannedExpr) : Prop := forall f s rest,
  at_tokens s (ts ++ rest) -> 4 * (n - pos s) + 2 <= f ->
  exists f', 4 * (n - (pos s + length ts)) + 2 <= f'
    /\ parse_expr_item tokens f s = parse_expr_item_loop tokens f' es (with_pos (pos s + length ts) s).

Definition c_stmt (ts : list Token) (e : SpannedExpr) : Prop := forall f s t rest,
  at_tokens s (ts ++ t :: rest) -> follows e (t :: rest) -> 4 * (n - pos s) + 2 <= f ->
  parse_expr_item tokens f s = Ok (e, with_pos (pos s + length ts) s).

Definition c_stmts (stop : list string) (ts : list Token) (es : list SpannedExpr) : Prop :=
  forall tr f s acc t rest,
  Forall trivia tr -> at_tokens s (tr ++ ts ++ t :: rest) ->
  ends_item (kind t) = true -> is_trivia (kind t) = false -> 4 * (n - pos s) + 3 <= f ->
  (forall x, is_stop stop (kind t) = true ->
     parse_exprs_until tokens f stop x acc s
     = Ok (acc ++ es, with_pos (pos s + length tr + length ts) s))
  /\ (stop = [] -> kind t = TokenKind.RightBracket ->
     parse_block_exprs tokens f acc s
     = Ok (acc ++ es, with_pos (pos s + length tr + length ts) s)).

Lemma is_stop_ends k : is_stop ["else"; "end"] k = true -> ends_item k = true /\ is_trivia k = false.
Proof. destruct k; try done. simpl. rewrite orb_false_r. done. Qed.

Lemma is_stop_end k : is_stop ["end"] k = true <-> k = TokenKind.Symbol "end".
Proof.
  destruct k; simpl; try (split; congruence).
  rewrite orb_false_r, String.eqb_eq. split; congruence.
Qed.

Lemma at_bound s ts : at_tokens s ts -> n - pos s = length ts.
Proof. intros H. by rewrite (at_length _ _ H). Qed.

(** The close of a bracketed expression. *)
Lemma run_close (e : Expr) s (a : nat) t1 q :
  0 < q -> tokens !! (q - 1) = Some t1 ->
  (let* previous := previous_span tokens in
   sret (mkSpanned e (mkSpan a (end_ previous)))) (with_pos q s)
  = Ok (mkSpanned e (mkSpan a (end_ (tspan t1))), with_pos q s).
Proof. intros Hq Ht. by erewrite sbind_run by (by apply run_previous). Qed.

Lemma at_lookup_app s ts t rest :
  at_tokens s (ts ++ t :: rest) -> tokens !! (pos s + length ts) = Some t.
Proof. intros H. by apply at_skip, at_lookup in H. Qed.

Lemma c_atom t e : atom (kind t) e -> c_expr [t] (mkSpanned e (join (tspan t) (tspan t))).
Proof.
  intros Ha f s rest Hat Hf. destruct f as [|f]; [lia|]. simpl in Hat |- *.
  assert (Hfr : starts_fresh (t :: rest)) by (simpl; destruct (kind t); simpl in Ha; naive_solver).
  rewrite (sbind_run _ _ _ _ _ (run_skip_fresh _ _ Hat Hfr)).
  rewrite (sbind_run _ _ _ _ _ (run_advance _ _ _ Hat)).
  assert (Hclose := run_close e s (start (tspan t)) t (S (pos s)) ltac:(lia)
                      ltac:(simpl; rewrite Nat.sub_0_r; by eapply at_lookup)).
  rewrite Nat.add_1_r. destruct (kind t) as [w| | | |lit| | | | | | | |]; simpl in Ha; try done;
    try (subst e; by erewrite sbind_run by done).
  - destruct Ha as (H1 & H2 & ->). apply String.eqb_neq in H1, H2. rewrite H1, H2.
    by erewrite sbind_run by done.
  - erewrite sbind_run by (unfold slift; by rewrite Ha). done.
Qed.

Lemma c_args t0 body t1 a :
  kind t0 = TokenKind.LeftParen -> kind t1 = TokenKind.RightParen -> yields_args false body a ->
  c_expr (t0 :: body ++ [t1]) (mkSpanned (Expr.Args a) (join (tspan t0) (tspan t1))).
Proof.
  intros K0 K1 Ha f s rest Hat Hf. destruct f as [|f]; [lia|].
  assert (Hargs : args_tokens (t0 :: body ++ [t1]) a) by (exists t0, body, t1; done).
  assert (Hrun := run_args s _ a rest Hargs Hat).
  assert (Hl : tokens !! (pos s + length (t0 :: body)) = Some t1).
  { apply (at_lookup_app s (t0 :: body) t1 rest). simpl in Hat |- *. by rewrite <- app_assoc in Hat. }
  simpl in Hat |- *.
  rewrite (sbind_run _ _ _ _ _ (run_skip_fresh _ _ Hat ltac:(simpl; by rewrite K0))).
  rewrite (sbind_run _ _ _ _ _ (run_advance _ _ _ Hat)), K0.
  erewrite sbind_run; cycle 1.
  { erewrite sbind_run by done. rewrite with_pos_twice. simpl. rewrite Nat.sub_0_r, with_pos_pos.
    erewrite sbind_run by exact Hrun. done. }
  apply (run_close _ s); simpl; [lia|].
  rewrite length_app in *. simpl in *. rewrite <- Hl. f_equal. lia.
Qed.
Lemma pos_eq s p q : p = q -> with_pos p s = with_pos q s.
Proof. by intros ->. Qed.

(** Positions and tokens after a prefix, in the form the runs leave them. *)
Lemma at_pos s p q ts : at_tokens (with_pos p s) ts -> p = q -> at_tokens (with_pos q s) ts.
Proof. by intros ? <-. Qed.

Lemma c_block t0 body t1 b :
  kind t0 = TokenKind.LeftBracket -> kind t1 = TokenKind.RightBracket -> c_stmts [] body b ->
  c_expr (t0 :: body ++ [t1]) (mkSpanned (Expr.Block b) (join (tspan t0) (tspan t1))).
Proof.
  intros K0 K1 Hb f s rest Hat Hf. destruct f as [|f]; [lia|].
  assert (Hn := at_bound _ _ Hat). simpl in Hat, Hn |- *. rewrite <- app_assoc in Hat. simpl in Hat.
  rewrite (sbind_run _ _ _ _ _ (run_skip_fresh _ _ Hat ltac:(simpl; by rewrite K0))).
  rewrite (sbind_run _ _ _ _ _ (run_advance _ _ _ Hat)), K0. apply at_next in Hat.
  destruct (Hb [] f (with_pos (S (pos s)) s) [] t1 rest) as [_ Hrun];
    [done|done|by rewrite K1|by rewrite K1|simpl; lia|].
  specialize (Hrun eq_refl K1). simpl in Hrun.
  assert (Hl := at_lookup_app _ body t1 rest Hat). simpl in Hl.
  erewrite sbind_run; cycle 1.
  { erewrite sbind_run by exact Hrun. apply at_skip in Hat. rewrite with_pos_twice in *.
    erewrite sbind_run; [|eapply run_expect; [eapply at_pos; [exact Hat|simpl; lia]|by rewrite K1]].
    unfold sret. rewrite with_pos_twice. done. }
  replace (pos s + S (length (body ++ [t1]))) with (S (pos s + 1 + length body))
    by (rewrite length_app; simpl; lia).
  simpl. erewrite pos_eq; [apply (run_close _ s)|]; simpl; [lia| |lia]. rewrite <- Hl. f_equal. lia.
Qed.

(** The part of [parse_if_expr] after the first body. *)
Lemma c_if t0 body t1 b :
  kind t0 = TokenKind.Symbol "if" -> kind t1 = TokenKind.Symbol "end" ->
  c_stmts ["else"; "end"] body b ->
  c_expr (t0 :: body ++ [t1]) (mkSpanned (Expr.If b []) (join (tspan t0) (tspan t1))).
Proof.
  intros K0 K1 Hb f s rest Hat Hf. destruct f as [|f]; [lia|].
  assert (Hn := at_bound _ _ Hat). simpl in Hat, Hn |- *. rewrite <- app_assoc in Hat. simpl in Hat.
  rewrite (sbind_run _ _ _ _ _ (run_skip_fresh _ _ Hat ltac:(simpl; by rewrite K0))).
  rewrite (sbind_run _ _ _ _ _ (run_advance _ _ _ Hat)), K0. simpl. apply at_next in Hat.
  destruct f as [|f]; [simpl in Hn; lia|].
  destruct (Hb [] f (with_pos (S (pos s)) s) [] t1 rest) as [Hrun _];
    [done|done|by rewrite K1|by rewrite K1|simpl; lia|].
  specialize (Hrun "if terminator" ltac:(by rewrite K1)). simpl in Hrun.
  assert (Hl := at_lookup_app _ body t1 rest Hat). simpl in Hl.
  apply at_skip in Hat. rewrite with_pos_twice in *.
  assert (Hat' : at_tokens (with_pos (S (pos s + 0 + length body)) s) (t1 :: rest))
    by (eapply at_pos; [exact Hat|simpl; lia]).
  erewrite sbind_run; cycle 1.
  { simpl. erewrite sbind_run by exact Hrun.
    erewrite sbind_run by (eapply run_consume_not; [exact Hat'|by rewrite K1]).
    erewrite sbind_run by done. erewrite sbind_run by (eapply run_expect_symbol; [exact Hat'|done]). done. }
  erewrite pos_eq; [apply (run_close _ s)|]; simpl; [lia| |rewrite length_app; simpl; lia].
  rewrite <- Hl. f_equal. rewrite length_app. simpl. lia.
Qed.

Lemma c_if_else t0 body te ebody t1 b eb :
  kind t0 = TokenKind.Symbol "if" -> kind te = TokenKind.Symbol "else" ->
  kind t1 = TokenKind.Symbol "end" ->
  c_stmts ["else"; "end"] body b -> c_stmts ["end"] ebody eb ->
  c_expr (t0 :: body ++ te :: ebody ++ [t1]) (mkSpanned (Expr.If b eb) (join (tspan t0) (tspan t1))).
Proof.
  intros K0 Ke K1 Hb Heb f s rest Hat Hf. destruct f as [|f]; [lia|].
  assert (Hn := at_bound _ _ Hat). simpl in Hat, Hn |- *.
  rewrite <- app_assoc in Hat. simpl in Hat. rewrite <- app_assoc in Hat. simpl in Hat.
  rewrite !length_app in Hn. simpl in Hn. rewrite length_app in Hn. simpl in Hn.
  rewrite (sbind_run _ _ _ _ _ (run_skip_fresh _ _ Hat ltac:(simpl; by rewrite K0))).
  rewrite (sbind_run _ _ _ _ _ (run_advance _ _ _ Hat)), K0. simpl. apply at_next in Hat.
  destruct f as [|f]; [simpl in Hn; lia|].
  destruct (Hb [] f (with_pos (S (pos s)) s) [] te (ebody ++ t1 :: rest)) as [Hrun _];
    [done|done|by rewrite Ke|by rewrite Ke|simpl; lia|].
  specialize (Hrun "if terminator" ltac:(by rewrite Ke)). simpl in Hrun.
  apply at_skip in Hat. rewrite with_pos_twice in *. simpl in Hat.
  assert (Hat1 : at_tokens (with_pos (S (pos s + 0 + length body)) s) (te :: ebody ++ t1 :: rest))
    by (eapply at_pos; [exact Hat|lia]).
  assert (Hat2 := at_next _ _ _ Hat1). rewrite with_pos_twice in Hat2. simpl in Hat2.
  destruct (Heb [] f _ [] t1 rest ltac:(done) Hat2) as [Hrun2 _];
    [by rewrite K1|by rewrite K1|simpl; lia|].
  specialize (Hrun2 "if terminator" ltac:(by rewrite K1)). simpl in Hrun2.
  assert (Hl := at_lookup_app _ ebody t1 rest Hat2). simpl in Hl.
  apply at_skip in Hat2. rewrite with_pos_twice in *. simpl in Hat2.
  assert (Hat3 : at_tokens (with_pos (S (S (pos s + 0 + length body + 0 + length ebody))) s) (t1 :: rest))
    by (eapply at_pos; [exact Hat2|lia]).
  erewrite sbind_run; cycle 1.
  { simpl. erewrite sbind_run by exact Hrun.
    erewrite sbind_run by (eapply run_consume; [exact Hat1|done]). rewrite with_pos_twice. simpl.
    erewrite sbind_run by exact Hrun2.
    erewrite sbind_run; [|eapply run_expect_symbol; [exact Hat3|done]]. done. }
  erewrite pos_eq; [apply (run_close _ s)|]; simpl; [lia| |rewrite !length_app; simpl; rewrite length_app; simpl; lia].
  rewrite <- Hl. f_equal. rewrite !length_app. simpl. rewrite length_app. simpl. lia.
Qed.
(** ** Lines and statements *)

Lemma c_first ts e : yields ts e -> c_expr ts e -> c_line ts [e].
Proof.
  intros Hy He f s rest Hat Hf. destruct f as [|f]; [lia|].
  assert (Hn := at_bound _ _ Hat). rewrite length_app in Hn.
  exists f. destruct (yields_head _ _ Hy) as (t & ts' & -> & _). simpl in Hn. split; [simpl; lia|].
  simpl parse_expr_item. by erewrite sbind_run by (eapply He; [exact Hat|lia]).
Qed.

(** The loop goes on: the next token neither ends the line nor is [while]. *)
Lemma run_loop_next f es s t rest :
  at_tokens s (t :: rest) -> ends_item (kind t) = false -> kind t <> TokenKind.Symbol "while" ->
  parse_expr_item_loop tokens (S f) es s
  = sbind (parse_expr tokens f) (fun e => parse_expr_item_loop tokens f (es ++ [e])) s.
Proof.
  intros Hat He Hw. simpl.
  erewrite sbind_run; cycle 1.
  { eapply run_consume_not; [exact Hat|]. destruct (is_symbol "while" (kind t)) eqn:E; [|done].
    by apply is_symbol_true in E. }
  cbv beta iota. by rewrite (sbind_run _ _ _ _ _ (run_peek _ _ _ Hat)), He.
Qed.

(** The loop ends. *)
Lemma run_loop_end f es s t rest :
  at_tokens s (t :: rest) -> ends_item (kind t) = true ->
  parse_expr_item_loop tokens (S f) es s
  = match es with
    | [e] => sret e
    | _ => let* sp := slift (exprs_span es) in sret (mkSpanned (Expr.Sequence es) sp)
    end s.
Proof.
  intros Hat He. simpl.
  erewrite sbind_run; cycle 1.
  { eapply run_consume_not; [exact Hat|]. destruct (is_symbol "while" (kind t)) eqn:E; [|done].
    apply is_symbol_true in E. by rewrite E in He. }
  cbv beta iota. by rewrite (sbind_run _ _ _ _ _ (run_peek _ _ _ Hat)), He.
Qed.

Lemma c_next ts es ts' e :
  c_line ts es -> yields ts' e -> c_expr ts' e -> heads (fun k => negb (ends_item k)) ts' ->
  c_line (ts ++ ts') (es ++ [e]).
Proof.
  intros Hl Hy He Hh f s rest Hat Hf. rewrite <- app_assoc in Hat.
  destruct (Hl f s (ts' ++ rest) Hat Hf) as (f1 & Hf1 & ->).
  assert (Hn := at_bound _ _ Hat). rewrite !length_app in Hn. apply at_skip in Hat.
  destruct (yields_head _ _ Hy) as (t & ts1 & -> & Htr & Hw & Heof & _). simpl in Hh, Hn |- *.
  apply negb_true_iff in Hh. destruct f1 as [|f1]; [lia|].
  rewrite (run_loop_next _ _ _ _ _ Hat Hh Hw).
  exists f1. rewrite length_app. simpl. split; [lia|].
  erewrite sbind_run by (eapply He; [exact Hat|simpl; lia]).
  rewrite with_pos_twice. f_equal. apply pos_eq. simpl. lia.
Qed.

Lemma c_single ts e : yields_line ts [e] -> c_line ts [e] -> is_while_expr e = false -> c_stmt ts e.
Proof.
  intros Hy Hl Hw f s t rest Hat Hfol Hf.
  destruct (Hl f s _ Hat Hf) as (f1 & Hf1 & ->). destruct f1 as [|f1]; [lia|].
  apply at_skip in Hat. destruct Hfol as [Hfol|Hfol]; [congruence|].
  by rewrite (run_loop_end _ _ _ _ _ Hat Hfol).
Qed.

Lemma c_sequence ts es sp :
  c_line ts es -> 2 <= length es -> spans_of es = Some sp ->
  c_stmt ts (mkSpanned (Expr.Sequence es) sp).
Proof.
  intros Hl Hlen Hsp f s t rest Hat Hfol Hf.
  destruct (Hl f s _ Hat Hf) as (f1 & Hf1 & ->). destruct f1 as [|f1]; [lia|].
  apply at_skip in Hat. destruct Hfol as [Hfol|Hfol]; [done|].
  rewrite (run_loop_end _ _ _ _ _ Hat Hfol).
  destruct es as [|e1 [|e2 es]]; [simpl in Hlen; lia..|].
  assert (Hs : exprs_span (e1 :: e2 :: es) = Ok sp).
  { unfold spans_of in Hsp. unfold exprs_span. simpl in Hsp |- *.
    destruct (list.last (e2 :: es)); [|done]. by injection Hsp as <-. }
  by erewrite sbind_run by (unfold slift; by rewrite Hs).
Qed.

Lemma c_while cond tw body t1 c b sp :
  kind tw = TokenKind.Symbol "while" -> kind t1 = TokenKind.Symbol "end" ->
  c_line cond c -> spans_of c = Some sp -> c_stmts ["end"] body b ->
  c_stmt (cond ++ tw :: body ++ [t1]) (mkSpanned (Expr.While c b) (join sp (tspan t1))).
Proof.
  intros Kw K1 Hl Hsp Hb f s t rest Hat Hfol Hf.
  rewrite <- app_assoc in Hat. simpl in Hat. rewrite <- app_assoc in Hat. simpl in Hat.
  destruct (Hl f s _ Hat Hf) as (f1 & Hf1 & ->). destruct f1 as [|f1]; [lia|].
  assert (Hn := at_bound _ _ Hat). rewrite length_app in Hn. simpl in Hn.
  apply at_skip in Hat. simpl.
  erewrite sbind_run by (eapply run_consume; [exact Hat|done]). apply at_next in Hat.
  rewrite with_pos_twice in *. simpl in Hat |- *.
  destruct (Hb [] f1 _ [] t1 (t :: rest) ltac:(done) Hat) as [Hrun _];
    [by rewrite K1|by rewrite K1|simpl; lia|].
  specialize (Hrun "while terminator" ltac:(by rewrite K1)). simpl in Hrun.
  erewrite sbind_run by exact Hrun. apply at_skip in Hat. simpl in Hat.
  assert (Hat1 : at_tokens (with_pos (S (pos s + length cond + 0 + length body)) s) (t1 :: t :: rest))
    by (eapply at_pos; [exact Hat|lia]).
  erewrite sbind_run by (eapply run_expect_symbol; [exact Hat1|done]).
  assert (Hs : exists sp', exprs_span c = Ok sp' /\ start sp' = start sp).
  { unfold spans_of in Hsp. unfold exprs_span.
    destruct (head c), (list.last c); try done. injection Hsp as <-. eauto. }
  destruct Hs as (sp' & Hs & Hst).
  erewrite sbind_run by (unfold slift; by rewrite Hs). rewrite with_pos_twice. simpl.
  assert (Hl1 := at_lookup _ _ _ Hat1). simpl in Hl1.
  erewrite sbind_run by (apply (run_previous _ t1); simpl; [lia|rewrite ?Nat.sub_0_r; done]).
  rewrite Hst. unfold sret, join. rewrite !with_pos_twice. do 2 f_equal. apply pos_eq.
  rewrite !length_app. simpl. rewrite length_app. simpl. lia.
Qed.

(** ** Bodies *)

Lemma c_nil stop : c_stmts stop [] [].
Proof.
  intros tr f s acc t rest Htr Hat Hend Hnt Hf. simpl in Hat |- *.
  assert (Hn := at_bound _ _ Hat). rewrite length_app in Hn. simpl in Hn.
  destruct f as [|f]; [lia|].
  assert (Hskip := run_skip s tr (t :: rest) Hat Htr Hnt).
  apply at_skip in Hat. rewrite app_nil_r, Nat.add_0_r. split.
  - intros x Hs. simpl. rewrite (sbind_run _ _ _ _ _ Hskip).
    by rewrite (sbind_run _ _ _ _ _ (run_peek _ _ _ Hat)), Hs.
  - intros -> Hk. simpl. rewrite (sbind_run _ _ _ _ _ Hskip).
    by rewrite (sbind_run _ _ _ _ _ (run_peek _ _ _ Hat)), Hk.
Qed.

Lemma c_trivia stop t ts es : trivia t -> c_stmts stop ts es -> c_stmts stop (t :: ts) es.
Proof.
  intros Ht Hc tr f s acc t' rest Htr Hat Hend Hnt Hf. simpl in Hat.
  rewrite (cons_middle t), app_assoc in Hat.
  destruct (Hc (tr ++ [t]) f s acc t' rest) as [H1 H2]; auto using trivia_snoc.
  rewrite length_app in H1, H2. simpl in H1, H2 |- *.
  replace (pos s + length tr + S (length ts)) with (pos s + (length tr + 1) + length ts) by lia. auto.
Qed.

Lemma c_cons stop ts1 e ts2 es :
  yields_stmt ts1 e -> c_stmt ts1 e -> heads (fun k => negb (is_stop stop k)) ts1 -> follows e ts2 ->
  c_stmts stop ts2 es -> c_stmts stop (ts1 ++ ts2) (e :: es).
Proof.
  intros Hy Hc Hh Hfol Hcs tr f s acc t rest Htr Hat Hend Hnt Hf.
  assert (Hn := at_bound _ _ Hat). rewrite !length_app in Hn. simpl in Hn.
  destruct f as [|f]; [lia|].
  destruct (yields_stmt_head _ _ Hy) as (t1 & ts' & -> & Htr1 & Heof1 & Hbr1).
  rewrite <- app_assoc in Hat. assert (Hskip := run_skip s tr _ Hat Htr Htr1). apply at_skip in Hat.
  simpl in Hh. apply negb_true_iff in Hh.
  assert (Hitem : parse_expr_item tokens f (with_pos (pos s + length tr) s)
                  = Ok (e, with_pos (pos s + length tr + length (t1 :: ts')) s)).
  { assert (Hfol' : follows e (ts2 ++ t :: rest)).
    { destruct ts2 as [|t2 ts2]; [by right|]. destruct Hfol as [|Hfol]; [by left|by right]. }
    simpl in Hn. destruct (ts2 ++ t :: rest) as [|t2 rest2] eqn:E; [by destruct ts2|].
    rewrite (Hc f _ t2 rest2); [done|exact Hat|done|simpl; lia]. }
  rewrite !length_app. simpl in Hn.
  assert (Heof : is_eof (kind t1) = false) by by destruct (kind t1).
  assert (Hat' := Hat). apply at_skip in Hat'. rewrite with_pos_twice in Hat'.
  destruct (Hcs [] f _ (acc ++ [e]) t rest ltac:(done) Hat' Hend Hnt ltac:(simpl; lia)) as [H1 H2].
  rewrite <- app_assoc in H1, H2. simpl in Hat', H1, H2.
  split; [intros x Hs; specialize (H1 x Hs) | intros -> Hk; specialize (H2 eq_refl Hk)]; simpl;
    rewrite (sbind_run _ _ _ _ _ Hskip), (sbind_run _ _ _ _ _ (run_peek _ _ _ Hat)).
  - rewrite Hh. rewrite (sbind_run _ _ _ _ _ (run_eof _ _ _ Hat)), Heof.
    rewrite (sbind_run _ _ _ _ _ Hitem). unfold push_statement. simpl. rewrite H1, with_pos_twice.
    do 2 f_equal. apply pos_eq. lia.
  - rewrite Hbr1. rewrite (sbind_run _ _ _ _ _ (run_eof _ _ _ Hat)), Heof.
    rewrite (sbind_run _ _ _ _ _ Hitem). unfold push_statement. simpl. rewrite H2, with_pos_twice.
    do 2 f_equal. apply pos_eq. lia.
Qed.
Lemma all_complete :
  (forall ts e, yields ts e -> c_expr ts e) /\ (forall ts es, yields_line ts es -> c_line ts es)
  /\ (forall ts e, yields_stmt ts e -> c_stmt ts e)
  /\ (forall stop ts es, yields_stmts stop ts es -> c_stmts stop ts es).
Proof.
  apply yields_mutind; intros;
    eauto using c_atom, c_args, c_block, c_if, c_if_else, c_first, c_next, c_sequence, c_while,
      c_nil, c_trivia, c_cons.
  apply c_single; [done|done|].
  match goal with H : yields_line _ [?e] |- _ => remember [e] as es eqn:E; destruct H as [ts' e' H|ts1 es1 ts' e' _ H] end.
  - injection E as ->. by eapply yields_not_while.
  - destruct es1 as [|? []]; simplify_eq/=. by eapply yields_not_while.
Qed.

(** ** Items *)

Hypothesis Htokens : eof_ended tokens.

Lemma named_symbol_like t w : named t w ->
  match kind t with TokenKind.Symbol w | TokenKind.String w => Some w | _ => None end = Some w.
Proof. by intros [-> | ->]. Qed.

Lemma symbol_like_named t w :
  match kind t with TokenKind.Symbol w | TokenKind.String w => Some w | _ => None end = Some w ->
  named t w.
Proof. unfold named. destruct (kind t); naive_solver. Qed.

(** A name is never the last token. *)
Lemma named_next s t w ts : at_tokens s (t :: ts) -> named t w -> exists t' ts', ts = t' :: ts'.
Proof.
  intros Hat Hn. assert (Ht := at_lookup _ _ _ Hat). assert (Hl := at_bound _ _ Hat).
  assert (S (pos s) < length tokens).
  { eapply eof_last; [done|done|]. destruct Hn as [E|E]; by rewrite E. }
  destruct ts as [|t' ts']; [unfold n in Hl; simpl in Hl; lia|eauto].
Qed.

(** The fallback of the three declaration parsers. *)
Lemma run_backtrack {A : Type} s p : backtrack (A:=A) (pos s) (with_pos p s) = Ok (None, s).
Proof. unfold backtrack. erewrite sbind_run by done. by rewrite with_pos_twice, with_pos_pos. Qed.

(** A name, then a token that is not the word [w]. *)
Lemma run_not_word s t ts w :
  at_tokens s (t :: ts) -> ~ word t w -> consume_symbol tokens w s = Ok (false, s).
Proof.
  intros Hat Hw. eapply run_consume_not; [done|].
  destruct (is_symbol w (kind t)) eqn:E; [|done]. by apply is_symbol_true in E.
Qed.

Lemma run_class_none f s t ts :
  at_tokens s (t :: ts) -> is_trivia (kind t) = false -> ~ begins_class (t :: ts) ->
  try_parse_class tokens (S f) s = Ok (None, s).
Proof.
  intros Hat Hfr Hnot. simpl.
  rewrite (sbind_run _ _ _ _ _ (run_skip_fresh _ _ Hat Hfr)). erewrite sbind_run by done.
  rewrite (sbind_run _ _ _ _ _ (run_span _ _ _ Hat)), (sbind_run _ _ _ _ _ (run_symbol_like _ _ _ Hat)).
  destruct (match kind t with TokenKind.Symbol w | TokenKind.String w => Some w | _ => None end)
    as [name|] eqn:En; [|done].
  apply symbol_like_named in En. destruct (named_next _ _ _ _ Hat En) as (tp & ts1 & ->).
  rewrite (sbind_run _ _ _ _ _ (run_advance _ _ _ Hat)). apply at_next in Hat.
  rewrite (sbind_run _ _ _ _ _ (run_symbol_like _ _ _ Hat)).
  destruct (match kind tp with TokenKind.Symbol w | TokenKind.String w => Some w | _ => None end)
    as [super|] eqn:Ep; [|apply run_backtrack].
  apply symbol_like_named in Ep. destruct (named_next _ _ _ _ Hat Ep) as (tc & ts2 & ->).
  rewrite (sbind_run _ _ _ _ _ (run_advance _ _ _ Hat)). apply at_next in Hat.
  erewrite sbind_run; [|eapply run_not_word; [exact Hat|]].
  - cbv beta iota. rewrite ?with_pos_twice. apply run_backtrack.
  - intros Hw. apply Hnot. unfold begins_class. eauto 12.
Qed.

Lemma run_macro_none f s t ts :
  at_tokens s (t :: ts) -> is_trivia (kind t) = false -> ~ begins_macro (t :: ts) ->
  try_parse_macro tokens f s = Ok (None, s).
Proof.
  intros Hat Hfr Hnot. unfold try_parse_macro.
  rewrite (sbind_run _ _ _ _ _ (run_skip_fresh _ _ Hat Hfr)). erewrite sbind_run by done.
  rewrite (sbind_run _ _ _ _ _ (run_span _ _ _ Hat)), (sbind_run _ _ _ _ _ (run_peek _ _ _ Hat)).
  destruct (kind t) as [| | |name| | | | | | | | |] eqn:Ek; try done.
  destruct (named_next _ _ name _ Hat ltac:(by right)) as (tm & ts1 & ->).
  rewrite (sbind_run _ _ _ _ _ (run_advance _ _ _ Hat)). apply at_next in Hat.
  erewrite sbind_run; [|eapply run_not_word; [exact Hat|]].
  - cbv beta iota. rewrite ?with_pos_twice. apply run_backtrack.
  - intros Hw. apply Hnot. unfold begins_macro. eauto 8.
Qed.

(** The optional argument list of a function. *)
Lemma run_function_args s pre args t ts t0 :
  function_args_tokens pre args -> at_tokens s (pre ++ t :: ts) -> head (pre ++ [t]) = Some t0 ->
  (pre = [] -> kind t <> TokenKind.LeftParen) ->
  (let* k := peek_kind tokens in
   if is_left_paren k then let* a := parse_args tokens in sret (Some a) else sret None) s
  = Ok (args, with_pos (pos s + length pre) s) /\ tokens !! pos s = Some t0.
Proof.
  intros Hargs Hat Hhd Hnot.
  assert (Hat0 : exists ts0, at_tokens s (t0 :: ts0)).
  { destruct pre; simpl in *; simplify_eq; eauto. }
  destruct Hat0 as [ts0 Hat0]. split; [|by eapply at_lookup].
  rewrite (sbind_run _ _ _ _ _ (run_peek _ _ _ Hat0)).
  destruct Hargs as [|pre a Ha].
  - simpl in Hhd, Hat. injection Hhd as <-. rewrite Nat.add_0_r, with_pos_pos.
    destruct (kind t); try done. by destruct Hnot.
  - assert (Hrun := run_args _ _ _ _ Ha Hat).
    destruct Ha as (tl & body & tr & -> & Kl & _). simpl in Hhd. injection Hhd as <-. rewrite Kl. simpl.
    by erewrite sbind_run by exact Hrun.
Qed.

Lemma run_function_none f s pre args t ts t0 :
  function_args_tokens pre args -> at_tokens s (pre ++ t :: ts) -> head (pre ++ [t]) = Some t0 ->
  is_trivia (kind t0) = false -> (pre = [] -> kind t <> TokenKind.LeftParen) ->
  ~ begins_function (pre ++ t :: ts) ->
  try_parse_function tokens f s = Ok (None, s).
Proof.
  intros Hargs Hat Hhd Hfr Hparen Hnot. unfold try_parse_function.
  assert (Hat0 : exists ts0, at_tokens s (t0 :: ts0)) by (destruct pre; simpl in *; simplify_eq; eauto).
  destruct Hat0 as [ts0 Hat0].
  destruct (run_function_args s pre args t ts t0 Hargs Hat Hhd Hparen) as [Hrun _].
  rewrite (sbind_run _ _ _ _ _ (run_skip_fresh _ _ Hat0 Hfr)). erewrite sbind_run by done.
  rewrite (sbind_run _ _ _ _ _ (run_span _ _ _ Hat0)). cbv zeta.
  assert (Hflat : forall (k : option ArgsDecl -> stm Parser ParseError (option FunctionDecl)),
    (let* k0 := peek_kind tokens in
     let* a := if is_left_paren k0 then let* a := parse_args tokens in sret (Some a) else sret None in k a) s
    = k args (with_pos (pos s + length pre) s)).
  { intros k. rewrite (sbind_run _ _ _ _ _ (run_peek _ _ _ Hat0)) in Hrun.
    rewrite (sbind_run _ _ _ _ _ (run_peek _ _ _ Hat0)). by erewrite sbind_run by exact Hrun. }
  rewrite Hflat. apply at_skip in Hat.
  rewrite (sbind_run _ _ _ _ _ (run_symbol_like _ _ _ Hat)).
  destruct (match kind t with TokenKind.Symbol w | TokenKind.String w => Some w | _ => None end)
    as [name|] eqn:En; [|apply run_backtrack].
  apply symbol_like_named in En. destruct (named_next _ _ _ _ Hat En) as (tf & ts1 & ->).
  rewrite (sbind_run _ _ _ _ _ (run_advance _ _ _ Hat)). apply at_next in Hat.
  erewrite sbind_run; [|eapply run_not_word; [exact Hat|]].
  - cbv beta iota. rewrite ?with_pos_twice. apply run_backtrack.
  - intros Hw. apply Hnot. unfold begins_function. eauto 12.
Qed.
(** ** Declarations *)

(** Newlines and comments in front of an item: the docs they leave pending. *)
Inductive item_trivia : list string -> list Token -> list string -> Prop :=
  | IT_nil d : item_trivia d [] d
  | IT_newline d tr d' t :
      item_trivia d tr d' -> kind t = TokenKind.Newline -> item_trivia d (tr ++ [t]) d'
  | IT_doc d tr d' t text :
      item_trivia d tr d' -> kind t = TokenKind.DocComment text -> item_trivia d (tr ++ [t]) (d' ++ [text]).

Lemma run_item_trivia_stop fuel s t ts :
  at_tokens s (t :: ts) -> is_trivia (kind t) = false ->
  skip_item_trivia_loop tokens (S fuel) s = Ok (tt, s).
Proof.
  intros Hat Hfr. simpl. rewrite (sbind_run _ _ _ _ _ (run_peek _ _ _ Hat)).
  by destruct (kind t).
Qed.

Lemma run_item_trivia_loop d tr d' : item_trivia d tr d' -> forall fuel s ts,
  pending_docs s = d -> at_tokens s (tr ++ ts) ->
  skip_item_trivia_loop tokens (length tr + fuel) s
  = skip_item_trivia_loop tokens fuel (mkParser (pos s + length tr) d').
Proof.
  induction 1 as [d|d tr d' t _ IH Hk|d tr d' t text _ IH Hk]; intros fuel s ts Hd Hat.
  - simpl. rewrite Nat.add_0_r, <- Hd. by destruct s.
  - rewrite <- app_assoc in Hat. rewrite !length_app. simpl. replace (length tr + 1 + fuel) with (length tr + S fuel) by lia.
    rewrite (IH _ _ _ Hd Hat). apply at_skip in Hat. simpl.
    assert (Hat' : at_tokens (mkParser (pos s + length tr) d') (t :: ts)) by done.
    rewrite (sbind_run _ _ _ _ _ (run_peek _ _ _ Hat')), Hk. erewrite sbind_run by done.
    unfold with_pos. simpl. do 2 f_equal. lia.
  - rewrite <- app_assoc in Hat. rewrite !length_app. simpl. replace (length tr + 1 + fuel) with (length tr + S fuel) by lia.
    rewrite (IH _ _ _ Hd Hat). apply at_skip in Hat. simpl.
    assert (Hat' : at_tokens (mkParser (pos s + length tr) d') (t :: ts)) by done.
    rewrite (sbind_run _ _ _ _ _ (run_peek _ _ _ Hat')), Hk. erewrite sbind_run by done.
    simpl. do 2 f_equal. lia.
Qed.

Lemma run_item_trivia s d tr d' t ts :
  item_trivia d tr d' -> pending_docs s = d -> at_tokens s (tr ++ t :: ts) ->
  is_trivia (kind t) = false ->
  skip_item_trivia tokens s = Ok (tt, mkParser (pos s + length tr) d').
Proof.
  intros Htr Hd Hat Hfr. unfold skip_item_trivia.
  assert (Hl := at_bound _ _ Hat). rewrite length_app in Hl. simpl in Hl.
  replace (S (length tokens)) with (length tr + S (length tokens - length tr)) by (unfold n in Hl; lia).
  rewrite (run_item_trivia_loop _ _ _ Htr _ _ _ Hd Hat). apply at_skip in Hat.
  by eapply run_item_trivia_stop.
Qed.

Definition c_item (d : list string) (ts rest : list Token) (it : Item) (d' : list string) : Prop :=
  forall f s, pending_docs s = d -> at_tokens s (ts ++ rest) -> rest <> [] ->
  4 * (n - pos s) + 4 <= f ->
  parse_item tokens f s = Ok (it, mkParser (pos s + length ts) d').

Definition c_items (c : bool) (d : list string) (ts rest : list Token) (its : list Item)
    (d' : list string) : Prop :=
  forall d0 tr f s acc, item_trivia d0 tr d -> pending_docs s = d0 ->
  at_tokens s (tr ++ ts ++ rest) -> 4 * (n - pos s) + 5 <= f ->
  (forall te rest', c = true -> rest = te :: rest' -> word te "end" ->
     parse_class_body tokens f acc s
     = Ok ((acc ++ its, end_ (tspan te)), mkParser (S (pos s + length tr + length ts)) d'))
  /\ (forall eof, c = false -> rest = [eof] -> kind eof = TokenKind.Eof ->
     parse_module_loop tokens f acc s
     = Ok (mkModule (acc ++ its), mkParser (pos s + length tr + length ts) d')).

(** The first token of an item, and that its kind is one an item begins with. *)
Definition item_start (k : TokenKind) : Prop := is_trivia k = false /\ is_eof k = false.

Lemma named_start t w : named t w -> item_start (kind t).
Proof. by intros [-> | ->]. Qed.

Lemma function_args_start pre args t w :
  function_args_tokens pre args -> named t w ->
  exists t0, head (pre ++ [t]) = Some t0 /\ item_start (kind t0) /\ (pre = [] -> kind t <> TokenKind.LeftParen).
Proof.
  intros Hargs Hn. destruct Hargs as [|pre a (tl & body & tr & -> & Kl & _)].
  - exists t. split; [done|]. split; [by eapply named_start|]. intros _. by eapply named_not_paren.
  - exists tl. split; [done|]. rewrite Kl. by split.
Qed.

Lemma yields_item_head d ts rest it d' :
  yields_item d ts rest it d' -> exists t ts', ts = t :: ts' /\ item_start (kind t).
Proof.
  destruct 1 as [d tn name tp super tc body tend rest its d' Hn|d tn name tm pre args tl body tr post tend rest b Hn
    |d pre args t0 tn name tf body tend rest b Hargs Hhd Hn|d ts rest e He].
  - eexists _, _. split; [done|]. by eapply named_start.
  - eexists _, _. split; [done|]. by rewrite Hn.
  - destruct (function_args_start _ _ _ _ Hargs Hn) as (t1 & Hhd1 & Hst & _).
    destruct pre as [|t2 pre]; simplify_eq/=; eauto.
  - apply yields_stmt_head in He as (t & ts' & -> & Htr & Heof & _). eexists _, _. split; [done|].
    split; [done|]. by destruct (kind t).
Qed.

Lemma c_class d tn name tp super tc body tend rest its d' :
  named tn name -> named tp super -> word tc "Subclass" -> word tend "end" ->
  c_items true [] body (tend :: rest) its d' ->
  c_item d (tn :: tp :: tc :: body ++ [tend]) rest
    (Item.Class (mkClass name super its d (join (tspan tn) (tspan tend)))) d'.
Proof.
  intros Hn Hp Hc He Hb f s Hd Hat _ Hf.
  assert (Hl := at_bound _ _ Hat). simpl in Hat, Hl. rewrite <- app_assoc in Hat. simpl in Hat.
  destruct f as [|[|f]]; [lia|lia|]. simpl parse_item.
  unfold take_pending_docs. erewrite sbind_run by (erewrite sbind_run by done; done).
  set (s0 := mkParser (pos s) []).
  assert (Hat0 : at_tokens s0 (tn :: tp :: tc :: body ++ tend :: rest)) by done.
  destruct (named_start _ _ Hn) as [Hfr _].
  erewrite sbind_run; cycle 1.
  { rewrite (sbind_run _ _ _ _ _ (run_skip_fresh _ _ Hat0 Hfr)). erewrite sbind_run by done.
    rewrite (sbind_run _ _ _ _ _ (run_span _ _ _ Hat0)), (sbind_run _ _ _ _ _ (run_named _ _ _ _ Hat0 Hn)).
    rewrite (sbind_run _ _ _ _ _ (run_advance _ _ _ Hat0)). apply at_next in Hat0.
    rewrite (sbind_run _ _ _ _ _ (run_named _ _ _ _ Hat0 Hp)).
    rewrite (sbind_run _ _ _ _ _ (run_advance _ _ _ Hat0)). apply at_next in Hat0.
    rewrite (sbind_run _ _ _ _ _ (run_consume "Subclass" _ _ _ Hat0 Hc)). apply at_next in Hat0. simpl.
    destruct (Hb [] [] f (mkParser (S (S (S (pos s)))) []) [] (IT_nil _) eq_refl Hat0) as [Hrun _]; [simpl in *; lia|].
    rewrite (sbind_run _ _ _ _ _ (Hrun tend rest eq_refl eq_refl He)). done. }
  simpl. unfold sret. rewrite Hd. do 3 f_equal. rewrite length_app. simpl. lia.
Qed.
(** The alternatives of [parse_item], tried in order. *)
Lemma item_via_macro f s s' m :
  try_parse_class tokens f (mkParser (pos s) []) = Ok (None, mkParser (pos s) []) ->
  try_parse_macro tokens f (mkParser (pos s) []) = Ok (Some m, s') ->
  parse_item tokens (S f) s = Ok (Item.Macro (macro_with_docs (pending_docs s) m), s').
Proof.
  intros H1 H2. simpl. unfold take_pending_docs. erewrite sbind_run by (erewrite sbind_run by done; done).
  by rewrite (sbind_run _ _ _ _ _ H1), (sbind_run _ _ _ _ _ H2).
Qed.

Lemma item_via_function f s s' fn :
  try_parse_class tokens f (mkParser (pos s) []) = Ok (None, mkParser (pos s) []) ->
  try_parse_macro tokens f (mkParser (pos s) []) = Ok (None, mkParser (pos s) []) ->
  try_parse_function tokens f (mkParser (pos s) []) = Ok (Some fn, s') ->
  parse_item tokens (S f) s = Ok (Item.Function (function_with_docs (pending_docs s) fn), s').
Proof.
  intros H1 H2 H3. simpl. unfold take_pending_docs. erewrite sbind_run by (erewrite sbind_run by done; done).
  by rewrite (sbind_run _ _ _ _ _ H1), (sbind_run _ _ _ _ _ H2), (sbind_run _ _ _ _ _ H3).
Qed.

Lemma item_via_expr f s s' e :
  try_parse_class tokens f (mkParser (pos s) []) = Ok (None, mkParser (pos s) []) ->
  try_parse_macro tokens f (mkParser (pos s) []) = Ok (None, mkParser (pos s) []) ->
  try_parse_function tokens f (mkParser (pos s) []) = Ok (None, mkParser (pos s) []) ->
  parse_expr_item tokens f (mkParser (pos s) []) = Ok (e, s') ->
  parse_item tokens (S f) s = Ok (Item.Expr (expr e) (span e) (pending_docs s), s').
Proof.
  intros H1 H2 H3 H4. simpl. unfold take_pending_docs. erewrite sbind_run by (erewrite sbind_run by done; done).
  by rewrite (sbind_run _ _ _ _ _ H1), (sbind_run _ _ _ _ _ H2), (sbind_run _ _ _ _ _ H3), (sbind_run _ _ _ _ _ H4).
Qed.

Lemma macro_not_class tn tm pre args tl ts :
  word tm "Macro" -> macro_args_tokens pre args -> kind tl = TokenKind.LeftBracket ->
  ~ begins_class (tn :: tm :: pre ++ tl :: ts).
Proof.
  intros Hm Hpre Hl (t1 & x & t2 & y & tc & r & E & _ & _ & Hc). injection E as -> -> E.
  destruct Hpre as [tr Htr|tr1 ts1 a tr2 Htr (t0 & b & t3 & -> & K & _) _].
  - destruct Htr as [|t tr Ht]; injection E as -> _; unfold word, trivia in *; [congruence|by rewrite Hc in Ht].
  - destruct Htr as [|t tr Ht]; injection E as -> _; unfold word, trivia in *; [congruence|by rewrite Hc in Ht].
Qed.

(** The macro's optional argument list, with the trivia around it. *)
Lemma run_macro_args s pre args tl ts :
  macro_args_tokens pre args -> at_tokens s (pre ++ tl :: ts) -> kind tl = TokenKind.LeftBracket ->
  exists s1, skip_newlines tokens s = Ok (tt, s1) /\
  (exists t1 ts1, at_tokens s1 (t1 :: ts1) /\
   (if is_left_paren (kind t1) then let* a := parse_args tokens in skip_newlines tokens ;; sret (Some a)
    else sret None) s1 = Ok (args, with_pos (pos s + length pre) s)).
Proof.
  intros Hpre Hat Hl. destruct Hpre as [tr Htr|tr1 ts1 a tr2 Htr1 Ha Htr2].
  - eexists. split; [eapply run_skip; [done|done|by simpl; rewrite Hl]|].
    apply at_skip in Hat. eexists _, _. split; [done|]. by rewrite Hl.
  - rewrite <- !app_assoc in Hat. eexists.
    assert (Hh : exists t1 r, ts1 = t1 :: r /\ kind t1 = TokenKind.LeftParen)
      by (destruct Ha as (t0 & b & t3 & -> & K & _); eauto).
    destruct Hh as (t1 & r & -> & K). split; [eapply run_skip; [done|done|by simpl; rewrite K]|].
    apply at_skip in Hat. eexists _, _. split; [exact Hat|]. rewrite K. simpl.
    rewrite (sbind_run _ _ _ _ _ (run_args _ _ _ _ Ha Hat)). apply at_skip in Hat.
    rewrite (sbind_run _ _ _ _ _ (run_skip _ _ _ Hat Htr2 ltac:(by simpl; rewrite Hl))).
    unfold sret. rewrite !with_pos_twice. do 2 f_equal. apply pos_eq. repeat (rewrite ?length_app; simpl). lia.
Qed.

Lemma run_macro f s tn name tm pre args tl body tr post tend rest b :
  kind tn = TokenKind.String name -> word tm "Macro" -> macro_args_tokens pre args ->
  kind tl = TokenKind.LeftBracket -> yields_stmts [] body b -> kind tr = TokenKind.RightBracket ->
  Forall trivia post -> word tend "end" ->
  at_tokens s ((tn :: tm :: pre ++ tl :: body ++ tr :: post ++ [tend]) ++ rest) ->
  4 * (n - pos s) + 3 <= f ->
  try_parse_macro tokens f s
  = Ok (Some (mkMacro name args b [] (join (tspan tn) (tspan tend))),
        with_pos (pos s + length (tn :: tm :: pre ++ tl :: body ++ tr :: post ++ [tend])) s).
Proof.
  intros Hn Hm Hpre Hl Hb Hr Hpost He Hat Hf. assert (Hlen := at_bound _ _ Hat).
  simpl in Hat. do 3 (rewrite <- !app_assoc in Hat; simpl in Hat).
  unfold try_parse_macro.
  rewrite (sbind_run _ _ _ _ _ (run_skip_fresh _ _ Hat ltac:(by simpl; rewrite Hn))).
  erewrite sbind_run by done. cbv zeta.
  rewrite (sbind_run _ _ _ _ _ (run_span _ _ _ Hat)), (sbind_run _ _ _ _ _ (run_peek _ _ _ Hat)), Hn.
  rewrite (sbind_run _ _ _ _ _ (run_advance _ _ _ Hat)). apply at_next in Hat.
  rewrite (sbind_run _ _ _ _ _ (run_consume "Macro" _ _ _ Hat Hm)). apply at_next in Hat. cbv beta; cbn [negb is_left_bracket]; cbv iota.
  rewrite !with_pos_twice in *. simpl pos in *.
  destruct (run_macro_args _ _ _ _ _ Hpre Hat Hl) as (s1 & Hs1 & t1 & ts1 & Hat1 & Hargs).
  rewrite (sbind_run _ _ _ _ _ Hs1), (sbind_run _ _ _ _ _ (run_peek _ _ _ Hat1)), (sbind_run _ _ _ _ _ Hargs).
  apply at_skip in Hat. rewrite with_pos_twice in *. simpl pos in *.
  rewrite (sbind_run _ _ _ _ _ (run_peek _ _ _ Hat)), Hl. cbv beta; cbn [negb is_left_bracket]; cbv iota.
  rewrite (sbind_run _ _ _ _ _ (run_advance _ _ _ Hat)). apply at_next in Hat.
  rewrite with_pos_twice in *. simpl pos in *.
  destruct all_complete as (_ & _ & _ & Hstmts).
  destruct (Hstmts _ _ _ Hb [] f _ [] tr (post ++ tend :: rest) ltac:(done) Hat) as [_ Hrun];
    [by rewrite Hr|by rewrite Hr|simpl in *; lia|].
  rewrite (sbind_run _ _ _ _ _ (Hrun eq_refl Hr)). apply at_skip in Hat. simpl in Hat |- *.
  rewrite with_pos_twice in *.
  eapply (at_pos _ _ (S (S (S (pos s)) + length pre) + 0 + length body)) in Hat; [|lia].
  unfold expect_right_bracket.
  rewrite (sbind_run _ _ _ _ _ (run_expect _ is_right_bracket _ _ _ Hat ltac:(by rewrite Hr))).
  apply at_next in Hat. rewrite with_pos_twice in *. simpl pos in *.
  rewrite (sbind_run _ _ _ _ _ (run_skip _ _ _ Hat Hpost ltac:(by simpl; rewrite He))).
  apply at_skip in Hat. rewrite with_pos_twice in *. simpl pos in *.
  rewrite (sbind_run _ _ _ _ _ (run_expect_symbol "end" _ _ _ Hat He)). apply at_lookup in Hat. simpl pos in Hat.
  erewrite sbind_run by (apply (run_previous _ tend); simpl; [lia|by rewrite ?Nat.sub_0_r]).
  unfold sret. rewrite ?with_pos_twice. unfold join. do 2 f_equal. apply pos_eq.
  simpl. repeat (rewrite ?length_app; simpl). lia.
Qed.
Lemma run_function f s pre args t0 tn name tf body tend rest b :
  function_args_tokens pre args -> head (pre ++ [tn]) = Some t0 -> named tn name -> word tf "function" ->
  yields_stmts ["end"] body b -> word tend "end" ->
  at_tokens s ((pre ++ tn :: tf :: body ++ [tend]) ++ rest) -> 4 * (n - pos s) + 3 <= f ->
  try_parse_function tokens f s
  = Ok (Some (mkFunction name args b [] (join (tspan t0) (tspan tend))),
        with_pos (pos s + length (pre ++ tn :: tf :: body ++ [tend])) s).
Proof.
  intros Hargs Hhd Hn Hw Hb He Hat Hf. assert (Hlen := at_bound _ _ Hat).
  do 3 (rewrite <- ?app_assoc in Hat; simpl in Hat).
  destruct (function_args_start _ _ _ _ Hargs Hn) as (t1 & Hhd1 & [Hfr _] & Hparen).
  assert (t1 = t0) as -> by congruence.
  destruct (run_function_args s pre args tn _ t0 Hargs Hat Hhd Hparen) as [Hrun Ht0].
  assert (Hat0 : exists ts0, at_tokens s (t0 :: ts0)) by (destruct pre; simpl in *; simplify_eq; eauto).
  destruct Hat0 as [ts0 Hat0]. unfold try_parse_function.
  rewrite (sbind_run _ _ _ _ _ (run_skip_fresh _ _ Hat0 Hfr)). erewrite sbind_run by done.
  rewrite (sbind_run _ _ _ _ _ (run_span _ _ _ Hat0)). cbv zeta.
  rewrite (sbind_run _ _ _ _ _ (run_peek _ _ _ Hat0)) in Hrun.
  rewrite (sbind_run _ _ _ _ _ (run_peek _ _ _ Hat0)). erewrite sbind_run by exact Hrun.
  apply at_skip in Hat. rewrite (sbind_run _ _ _ _ _ (run_named _ _ _ _ Hat Hn)).
  rewrite (sbind_run _ _ _ _ _ (run_advance _ _ _ Hat)). apply at_next in Hat.
  rewrite (sbind_run _ _ _ _ _ (run_consume "function" _ _ _ Hat Hw)). apply at_next in Hat.
  cbv beta; cbn [negb]; cbv iota. rewrite !with_pos_twice in *. simpl pos in *.
  destruct all_complete as (_ & _ & _ & Hstmts).
  destruct (Hstmts _ _ _ Hb [] f _ [] tend rest ltac:(done) Hat) as [Hbody _];
    [by rewrite He|by rewrite He|simpl in *; lia|].
  apply at_skip in Hat. simpl in Hat. rewrite with_pos_twice in Hat.
  eapply (at_pos _ _ (S (S (pos s + length pre)) + 0 + length body)) in Hat; [|lia].
  assert (Ht := at_lookup _ _ _ Hat). simpl pos in Ht.
  unfold parse_expr_body_until_end. erewrite sbind_run; cycle 1.
  { erewrite sbind_run by exact (Hbody "end" ltac:(by rewrite He)).
    erewrite sbind_run by (eapply run_expect_symbol; [exact Hat|done]). done. }
  erewrite sbind_run by (apply (run_previous _ tend); simpl; [lia|by rewrite ?Nat.sub_0_r]).
  unfold sret. rewrite ?with_pos_twice. unfold join. do 2 f_equal. apply pos_eq.
  simpl. repeat (rewrite ?length_app; simpl). lia.
Qed.

(** The argument list a statement begins with, if it begins with one. *)
Lemma stmt_args_prefix ts e t rest :
  yields_stmt ts e -> exists pre args t' ts' t0,
    ts ++ t :: rest = pre ++ t' :: ts' /\ function_args_tokens pre args /\ head (pre ++ [t']) = Some t0
    /\ is_trivia (kind t0) = false /\ (pre = [] -> kind t' <> TokenKind.LeftParen).
Proof.
  intros Hs.
  assert (Hfirst : exists ts1 e1 ts2, yields ts1 e1 /\ ts = ts1 ++ ts2).
  { assert (Hline : forall ts es, yields_line ts es -> exists ts1 e1 ts2, yields ts1 e1 /\ ts = ts1 ++ ts2).
    { induction 1 as [ts1 e1 H|ts1 es ts' e1 _ (ta & ea & tb & Ha & ->) _ _].
      - exists ts1, e1, []. by rewrite app_nil_r.
      - exists ta, ea, (tb ++ ts'). by rewrite <- app_assoc. }
    destruct Hs as [ts e H|ts es sp H|c tw b t1 ? ? ? ? ? H]; apply Hline in H as (ta & ea & tb & Ha & ->);
      exists ta, ea; rewrite <- ?app_assoc; eauto. }
  destruct Hfirst as (ts1 & e1 & ts2 & H1 & ->).
  destruct (yields_head _ _ H1) as (t1 & ts' & -> & Htr & _).
  destruct (decide (kind t1 = TokenKind.LeftParen)) as [K|K].
  - remember (t1 :: ts') as l eqn:El.
    destruct H1 as [t2 e2 Ha|ta body tb a Ka Kb Ha|ta body tb b0 Ka|ta body tb b0 Ka|ta body te eb tb b0 eb' Ka];
      injection El as -> ?; subst; try congruence; [by rewrite K in Ha|].
    assert (Hargs : args_tokens (t1 :: body ++ [tb]) a) by (exists t1, body, tb; done).
    destruct (ts2 ++ t :: rest) as [|t' r] eqn:E; [by destruct ts2|].
    exists (t1 :: body ++ [tb]), (Some a), t', r, t1. rewrite <- (app_assoc _ ts2), E.
    split_and!; try done. by constructor.
  - exists [], None, t1, (ts' ++ ts2 ++ t :: rest), t1. simpl. rewrite <- app_assoc. split_and!; try done.
    constructor.
Qed.

Lemma c_item_expr d ts rest e :
  yields_stmt ts e -> follows e rest -> ~ begins_class (ts ++ rest) -> ~ begins_macro (ts ++ rest) ->
  ~ begins_function (ts ++ rest) -> c_item d ts rest (Item.Expr (expr e) (span e) d) [].
Proof.
  intros He Hfol Hc Hm Hfn f s Hd Hat Hrest Hf. destruct f as [|[|f]]; [lia|lia|].
  set (s0 := mkParser (pos s) []).
  assert (Hat0 : at_tokens s0 (ts ++ rest)) by done.
  destruct rest as [|t rest]; [done|].
  destruct (yields_stmt_head _ _ He) as (t1 & ts' & E & Hfr & _).
  destruct (stmt_args_prefix ts e t rest He) as (pre & args & t' & r & t0 & E' & Hargs & Hhd & Hfr0 & Hparen).
  rewrite <- Hd. apply item_via_expr.
  - rewrite E in *. by eapply (run_class_none f s0).
  - rewrite E in *. by eapply (run_macro_none _ s0).
  - rewrite E' in *. by eapply (run_function_none _ s0).
  - destruct all_complete as (_ & _ & Hstmt & _).
    apply (Hstmt _ _ He (S f) s0 t rest Hat0 Hfol). simpl. lia.
Qed.

Lemma c_item_macro d tn name tm pre args tl body tr post tend rest b :
  kind tn = TokenKind.String name -> word tm "Macro" -> macro_args_tokens pre args ->
  kind tl = TokenKind.LeftBracket -> yields_stmts [] body b -> kind tr = TokenKind.RightBracket ->
  Forall trivia post -> word tend "end" ->
  c_item d (tn :: tm :: pre ++ tl :: body ++ tr :: post ++ [tend]) rest
    (Item.Macro (mkMacro name args b d (join (tspan tn) (tspan tend)))) [].
Proof.
  intros Hn Hm Hpre Hl Hb Hr Hpost He f s Hd Hat _ Hf. destruct f as [|[|f]]; [lia|lia|].
  assert (Hat0 : at_tokens (mkParser (pos s) [])
    ((tn :: tm :: pre ++ tl :: body ++ tr :: post ++ [tend]) ++ rest)) by done.
  erewrite item_via_macro; [| |by eapply (run_macro _ (mkParser (pos s) [])); eauto; simpl; lia].
  - by rewrite Hd.
  - simpl in Hat0. rewrite <- app_assoc in Hat0. simpl in Hat0.
    eapply run_class_none; [exact Hat0|by rewrite Hn|]. by eapply macro_not_class.
Qed.

Lemma c_item_function d pre args t0 tn name tf body tend rest b :
  function_args_tokens pre args -> head (pre ++ [tn]) = Some t0 -> named tn name -> word tf "function" ->
  yields_stmts ["end"] body b -> word tend "end" ->
  ~ begins_class ((pre ++ tn :: tf :: body ++ [tend]) ++ rest) ->
  c_item d (pre ++ tn :: tf :: body ++ [tend]) rest
    (Item.Function (mkFunction name args b d (join (tspan t0) (tspan tend)))) [].
Proof.
  intros Hargs Hhd Hn Hw Hb He Hnc f s Hd Hat _ Hf. destruct f as [|[|f]]; [lia|lia|].
  set (s0 := mkParser (pos s) []).
  assert (Hat0 : at_tokens s0 ((pre ++ tn :: tf :: body ++ [tend]) ++ rest)) by done.
  destruct (function_args_start _ _ _ _ Hargs Hn) as (t1 & Hhd1 & [Hfr _] & Hparen).
  assert (t1 = t0) as -> by congruence.
  assert (Hnm : ~ begins_macro ((pre ++ tn :: tf :: body ++ [tend]) ++ rest)).
  { intros (ta & x & tb & r & E & Ka & Kb). destruct Hargs as [|pre a (tl & bd & tr & -> & Kl & _)].
    - injection E as -> -> _. unfold word in *. congruence.
    - injection E as -> _. congruence. }
  assert (Hl : exists r, (pre ++ tn :: tf :: body ++ [tend]) ++ rest = t0 :: r)
    by (destruct pre; simpl in *; simplify_eq; eauto).
  destruct Hl as [r Hl].
  erewrite item_via_function; [| | |by eapply (run_function _ s0); eauto; simpl; lia].
  - by rewrite Hd.
  - rewrite Hl in *. by eapply (run_class_none _ s0).
  - rewrite Hl in *. by eapply (run_macro_none _ s0).
Qed.
(** ** Item lists *)

Lemma ci_nil c d rest : c_items c d [] rest [] d.
Proof.
  intros d0 tr f s acc Htr Hd Hat Hf. simpl in Hat. rewrite app_nil_r, Nat.add_0_r.
  destruct f as [|f]; [lia|]. split.
  - intros te rest' _ -> He. simpl.
    rewrite (sbind_run _ _ _ _ _ (run_item_trivia _ _ _ _ _ _ Htr Hd Hat ltac:(by rewrite He))).
    apply at_skip in Hat. assert (Hat' : at_tokens (mkParser (pos s + length tr) d) (te :: rest')) by done.
    rewrite (sbind_run _ _ _ _ _ (run_consume "end" _ _ _ Hat' He)). simpl.
    assert (Ht := at_lookup _ _ _ Hat'). simpl in Ht.
    by erewrite sbind_run by (apply (run_previous _ te); simpl; [lia|by rewrite ?Nat.sub_0_r]).
  - intros eof _ -> He. simpl.
    rewrite (sbind_run _ _ _ _ _ (run_item_trivia _ _ _ _ _ _ Htr Hd Hat ltac:(by rewrite He))).
    apply at_skip in Hat. assert (Hat' : at_tokens (mkParser (pos s + length tr) d) [eof]) by done.
    by rewrite (sbind_run _ _ _ _ _ (run_eof _ _ _ Hat')), He.
Qed.

Lemma ci_trivia c d d1 t ts rest its d' :
  (forall d0 tr, item_trivia d0 tr d -> item_trivia d0 (tr ++ [t]) d1) ->
  c_items c d1 ts rest its d' -> c_items c d (t :: ts) rest its d'.
Proof.
  intros Ht Hc d0 tr f s acc Htr Hd Hat Hf. simpl in Hat. rewrite (cons_middle t), app_assoc in Hat.
  destruct (Hc d0 (tr ++ [t]) f s acc (Ht _ _ Htr) Hd Hat Hf) as [H1 H2].
  rewrite length_app in H1, H2. simpl in H1, H2 |- *.
  replace (pos s + length tr + S (length ts)) with (pos s + (length tr + 1) + length ts) by lia. auto.
Qed.

Lemma ci_cons c d ts1 it d1 ts2 rest its d2 :
  yields_item d ts1 (ts2 ++ rest) it d1 -> c_item d ts1 (ts2 ++ rest) it d1 ->
  heads (fun k => negb (c && is_symbol "end" k)) ts1 ->
  c_items c d1 ts2 rest its d2 -> c_items c d (ts1 ++ ts2) rest (it :: its) d2.
Proof.
  intros Hy Hc Hh Hcs d0 tr f s acc Htr Hd Hat Hf.
  assert (Hn := at_bound _ _ Hat). rewrite !length_app in Hn.
  destruct f as [|f]; [lia|].
  destruct (yields_item_head _ _ _ _ _ Hy) as (t & ts' & E & Hst & Hne). rewrite <- app_assoc in Hat.
  assert (Hskip : skip_item_trivia tokens s = Ok (tt, mkParser (pos s + length tr) d)).
  { rewrite E in Hat. by eapply run_item_trivia. }
  apply at_skip in Hat.
  assert (Hat' : at_tokens (mkParser (pos s + length tr) d) (ts1 ++ ts2 ++ rest)) by done.
  assert (Hitem : rest <> [] -> parse_item tokens f (mkParser (pos s + length tr) d)
            = Ok (it, mkParser (pos s + length tr + length ts1) d1)).
  { intros Hrest. apply Hc; [done|exact Hat'| |subst; simpl in *; lia].
    destruct ts2; [done|]. by destruct rest. }
  assert (Hat2 : at_tokens (mkParser (pos s + length tr + length ts1) d1) (ts2 ++ rest))
    by by apply at_skip in Hat'.
  destruct (Hcs d1 [] f (mkParser (pos s + length tr + length ts1) d1) (acc ++ [it]) (IT_nil _) eq_refl Hat2 ltac:(subst; simpl in *; lia)) as [H1 H2].
  rewrite <- app_assoc in H1, H2. simpl in H1, H2. rewrite length_app.
  replace (pos s + length tr + (length ts1 + length ts2))
    with (pos s + length tr + length ts1 + 0 + length ts2) by lia.
  rewrite E in Hat' at 1. simpl in Hat'. split.
  - intros te rest' -> -> He. specialize (H1 te rest' eq_refl eq_refl He). simpl.
    rewrite (sbind_run _ _ _ _ _ Hskip). subst ts1. simpl in Hh. apply negb_true_iff in Hh.
    rewrite (sbind_run _ _ _ _ _ (run_consume_not "end" _ _ _ Hat' Hh)).
    rewrite (sbind_run _ _ _ _ _ (run_eof _ _ _ Hat')), Hne.
    rewrite (sbind_run _ _ _ _ _ (Hitem ltac:(done))). exact H1.
  - intros eof -> -> He. specialize (H2 eof eq_refl eq_refl He). simpl.
    rewrite (sbind_run _ _ _ _ _ Hskip).
    rewrite (sbind_run _ _ _ _ _ (run_eof _ _ _ Hat')), Hne.
    rewrite (sbind_run _ _ _ _ _ (Hitem ltac:(done))). exact H2.
Qed.
End complete.

Scheme yields_items_min := Minimality for yields_items Sort Prop
  with yields_item_min := Minimality for yields_item Sort Prop.
Combined Scheme yields_items_mutind from yields_items_min, yields_item_min.

Lemma items_complete tokens :
  eof_ended tokens ->
  (forall c d ts rest its d', yields_items c d ts rest its d' -> c_items tokens c d ts rest its d')
  /\ (forall d ts rest it d', yields_item d ts rest it d' -> c_item tokens d ts rest it d').
Proof.
  intros Ht. apply yields_items_mutind; intros;
    eauto using ci_nil, ci_cons, c_class, c_item_macro, c_item_function, c_item_expr.
  - eapply ci_trivia; [|done]. intros. by apply IT_newline.
  - eapply ci_trivia; [|done]. intros. by apply IT_doc.
Qed.

Lemma parse_tokens_complete tokens m :
  eof_ended tokens -> yields_module tokens m -> parse_tokens tokens = Ok m.
Proof.
  intros Ht (ts & eof & docs & -> & He & Hits).
  destruct (items_complete _ Ht) as [Hc _].
  destruct (Hc _ _ _ _ _ _ Hits [] [] (parse_fuel (ts ++ [eof])) (mkParser 0 []) []) as [_ H];
    [constructor|done|done|unfold parse_fuel; simpl; lia|].
  unfold parse_tokens. rewrite (H eof eq_refl eq_refl He). by destruct m.
Qed.

(** ** Properties *)

Lemma parse_terminates source :
  utf8 (as_bytes source) ->
  (exists m, parse_module source = Ok m) \/ (exists e, parse_module source = Err e).
Proof.
  intros Hu. unfold parse_module.
  destruct (lex_terminates source Hu) as [[ts Hts]|[e He]].
  - rewrite Hts. simpl. pose proof (parse_tokens_spec ts (lex_eof_ended _ _ Hu Hts)) as H.
    destruct (parse_tokens ts); [left|right|done|done]; eauto.
  - rewrite He. right. by eexists.
Qed.

(** On every valid UTF-8 source the parser returns a module or an error:
    it never indexes out of bounds, unwraps an empty sequence or loops, and
    the fuel its definition supplies is enough. *)
Theorem parse_module_total source :
  utf8 (as_bytes source) ->
  (exists m, parse_module source = Ok m) \/ (exists e, parse_module source = Err e).
Proof. exact (parse_terminates source). Qed.

(** C1: the parser accepts exactly the grammar: on the token list of a source,
    it returns a module precisely when the grammar relates the tokens to that
    module, spans and doc comments included.  In particular no token is lost,
    duplicated or invented, and the grammar is unambiguous. *)
Theorem parse_module_exact source ts m :
  utf8 (as_bytes source) -> lex source = Ok ts ->
  (parse_module source = Ok m <-> yields_module ts m).
Proof.
  intros Hu Hts. assert (Ht := lex_eof_ended _ _ Hu Hts).
  unfold parse_module. rewrite Hts. simpl. split.
  - intros Hm. pose proof (parse_tokens_spec ts Ht) as H. by rewrite Hm in H.
  - by apply parse_tokens_complete.
Qed.

(** A parse error that is not a lexical one names a token of the source,
    by its kind and its span: the error a user sees points at what was read. *)
Theorem parse_error_token source ts e :
  utf8 (as_bytes source) -> lex source = Ok ts -> parse_module source = Err e ->
  exists t, t ∈ ts /\ error_token e t.
Proof.
  intros Hu Hts. unfold parse_module. rewrite Hts. simpl. intros He.
  pose proof (parse_tokens_spec ts (lex_eof_ended _ _ Hu Hts)) as H. by rewrite He in H.
Qed.

Lemma parse_module_total_witness :
  utf8 (as_bytes "A B Subclass x function 1 end end") /\
  ((exists m, parse_module "A B Subclass x function 1 end end" = Ok m)
   \/ (exists e, parse_module "A B Subclass x function 1 end end" = Err e)).
Proof.
  assert (H : utf8 (as_bytes "A B Subclass x function 1 end end")) by (eexists; vm_compute; reflexivity).
  split; [exact H | exact (parse_module_total _ H)].
Defined.

Lemma parse_module_exact_witness :
  let ts := [mkToken (TokenKind.Symbol "c") (mkSpan 0 1);
             mkToken (TokenKind.Symbol "if") (mkSpan 2 4);
             mkToken (TokenKind.Symbol "end") (mkSpan 5 8);
             mkToken TokenKind.Eof (mkSpan 8 8)] in
  yields_module ts
    (mkModule [Item.Expr (Expr.Sequence [mkSpanned (Expr.Symbol "c") (mkSpan 0 1);
                                         mkSpanned (Expr.If [] []) (mkSpan 2 8)]) (mkSpan 0 8) []]).
Proof.
  intros ts. apply (parse_module_exact "c if end" ts).
  - eexists. vm_compute. reflexivity.
  - vm_compute. reflexivity.
  - vm_compute. reflexivity.
Defined.

Lemma parse_error_token_witness :
  exists t, t ∈ [mkToken (TokenKind.Symbol "while") (mkSpan 0 5); mkToken TokenKind.Eof (mkSpan 5 5)]
    /\ error_token (ParseError.MissingWhileCondition (mkSpan 0 5)) t.
Proof.
  apply (parse_error_token "while").
  - eexists. vm_compute. reflexivity.
  - vm_compute. reflexivity.
  - vm_compute. reflexivity.
Defined.
