(* ===== verification/Diagnostic.v ===== *)
(** * Source diagnostics

    [crates/ricochet_syntax/src/diagnostic.rs]: line and column of an offset,
    UTF-16 positions for editors, the bounds a diagnostic's span is put in and
    the text a diagnostic is rendered to.  Messages are unrendered pieces
    ([RustStr.msg]), since [{:?}] of a string depends on Unicode tables. *)

From stdpp Require Import base tactics list strings option numbers.
From Stdlib Require Import ZArith NArith Lia Ascii String.
From S2P Require Import Prelude RustStr RustFloat Syntax Lexer LexerProofs Parser Grammar ParserProofs.

Open Scope string_scope.
Open Scope list_scope.
Open Scope nat_scope.

Record SourceDiagnostic : Type := mkDiagnostic {
  diag_file : string; diag_span : Span; message : msg; help : option msg }.

Record SourcePosition : Type := mkPosition { line : nat; character : nat }.
Record SourceRange : Type := mkRange { range_start : SourcePosition; range_end : SourcePosition }.

Definition new_diagnostic (file : string) (sp : Span) (m : msg) : SourceDiagnostic :=
  mkDiagnostic file sp m None.

Definition with_help (h : msg) (d : SourceDiagnostic) : SourceDiagnostic :=
  mkDiagnostic (diag_file d) (diag_span d) (message d) (Some h).

(** ** Lines and columns *)

(** The offsets after the newlines of [l], whose first byte is at [i]. *)
Fixpoint newline_ends (i : nat) (l : list byte) : list nat :=
  match l with
  | [] => []
  | b :: l' => if byte_eqb b newline then S i :: newline_ends (S i) l' else newline_ends (S i) l'
  end.

Definition line_starts (source : string) : list nat := 0 :: newline_ends 0 (as_bytes source).

(** [slice::partition_point(|y| y < x)] on a sorted slice. *)
Fixpoint partition_point (l : list nat) (x : nat) : nat :=
  match l with
  | y :: l' => if y <? x then S (partition_point l' x) else 0
  | [] => 0
  end.

(** [slice::binary_search] on a sorted slice without duplicates: [inl] is
    [Ok], [inr] is [Err]. *)
Definition binary_search (l : list nat) (x : nat) : nat + nat :=
  let p := partition_point l x in
  match l !! p with
  | Some y => if y =? x then inl p else inr p
  | None => inr p
  end.

(** [match binary_search { Ok(index) => index, Err(index) => index.saturating_sub(1) }]. *)
Definition line_index (starts : list nat) (offset : nat) : nat :=
  match binary_search starts offset with
  | inl index => index
  | inr index => index - 1
  end.

Definition line_column (starts : list nat) (offset : nat) : nat * nat :=
  let index := line_index starts offset in
  let line_start := default 0 (starts !! index) in
  (index + 1, offset - line_start + 1).

(** ** UTF-16 positions *)

Definition utf16_position {E : Type} (source : string) (offset : nat) : res E SourcePosition :=
  let bytes := as_bytes source in
  let offset := offset `min` length bytes in
  let starts := line_starts source in
  let index := line_index starts offset in
  let line_start := default 0 (starts !! index) in
  let? text := slice bytes line_start offset in
  let? cs := chars text in
  Ok (mkPosition index (list_sum (len_utf16 <$> cs))).

(** [BoundDiagnostic::with_source_bounds]. *)
Definition bound_span (source : string) (sp : Span) : Span :=
  let length := str_len source in
  let s := start sp `min` length in
  mkSpan s ((end_ sp `max` saturating_add s 1) `min` length).

Definition with_source_bounds (source : string) (d : SourceDiagnostic) : SourceDiagnostic :=
  mkDiagnostic (diag_file d) (bound_span source (diag_span d)) (message d) (help d).

Definition utf16_range_for_span {E : Type} (source : string) (sp : Span) : res E SourceRange :=
  let bounded := with_source_bounds source (new_diagnostic "" sp []) in
  let? s := utf16_position source (start (diag_span bounded)) in
  let? e := utf16_position source (end_ (diag_span bounded)) in
  Ok (mkRange s e).

(** ** From errors to diagnostics *)

Definition point_span (position : nat) : Span := mkSpan position (saturating_add position 1).

Definition word_span (position : nat) (w : string) : Span :=
  mkSpan position (saturating_add position (str_len w) `max` saturating_add position 1).

Definition token_label (token : TokenKind) : msg :=
  match token with
  | TokenKind.Symbol value => [Lit "symbol "; Dbg value]
  | TokenKind.DotWord value => [Lit "leading-dot word "; Dbg value]
  | TokenKind.Reference value => [Lit "reference "; Dbg value]
  | TokenKind.String value => [Lit "string "; Dbg value]
  | TokenKind.Number value => [Lit "number "; Dbg value]
  | TokenKind.DocComment _ => [Lit "doc comment"]
  | TokenKind.LeftParen => [Lit "'('"]
  | TokenKind.RightParen => [Lit "')'"]
  | TokenKind.LeftBracket => [Lit "'['"]
  | TokenKind.RightBracket => [Lit "']'"]
  | TokenKind.Arrow => [Lit "'->'"]
  | TokenKind.Newline => [Lit "newline"]
  | TokenKind.Eof => [Lit "end of file"]
  end.

Definition lex_error_diagnostic (file : string) (error : LexError) : SourceDiagnostic :=
  match error with
  | LexError.UnterminatedString position =>
      new_diagnostic file (point_span position) [Lit "unterminated string literal"]
  | LexError.UnterminatedComment position =>
      new_diagnostic file (point_span position) [Lit "unterminated doc comment"]
  | LexError.InvalidStringEscape escape position =>
      new_diagnostic file (point_span position) [Lit "invalid string escape \"; DispChar escape]
  | LexError.EmptyReference position =>
      new_diagnostic file (point_span position) [Lit "empty reference"]
  | LexError.LeadingExclamationWord w position =>
      with_help [Lit "use ordinary word names; collection mutators are push, put, insert_at, remove, remove_at, and clear_items"]
        (new_diagnostic file (word_span position w) [Lit "leading ! word "; Dbg w; Lit " is not supported"])
  | LexError.InvalidWord w position =>
      with_help [Lit "use _ for word separators; - is reserved for subtraction and negative numbers"]
        (new_diagnostic file (word_span position w) [Lit "invalid word "; Dbg w])
  end.

Definition parse_error_diagnostic (file source : string) (error : ParseError) : SourceDiagnostic :=
  with_source_bounds source
    match error with
    | ParseError.Lex error => lex_error_diagnostic file error
    | ParseError.Unexpected found sp =>
        new_diagnostic file sp (Lit "unexpected token " :: token_label found)
    | ParseError.Expected expected found sp =>
        new_diagnostic file sp ([Lit "expected "; Disp expected; Lit ", found "] ++ token_label found)
    | ParseError.InvalidNumber literal sp =>
        new_diagnostic file sp [Lit "invalid number literal "; Dbg literal]
    | ParseError.MissingWhileCondition sp =>
        new_diagnostic file sp [Lit "while requires a condition before it"]
    end.

(** ** Rendering *)

(** [s.lines()]: split at newlines, the newline and one carriage return before
    it dropped, no empty line at the end. *)
Fixpoint split_lines (cur l : list byte) : list (list byte) :=
  match l with
  | [] => match cur with [] => [] | _ => [reverse cur] end
  | b :: l' => if byte_eqb b newline
               then reverse (match cur with
                             | c :: cur' => if byte_eqb c carriage_return then cur' else cur
                             | [] => cur
                             end) :: split_lines [] l'
               else split_lines (b :: cur) l'
  end.

Definition lines (s : string) : list (list byte) := split_lines [] (as_bytes s).

Fixpoint drop_returns (l : list byte) : list byte :=
  match l with
  | b :: l' => if byte_eqb b carriage_return then drop_returns l' else l
  | [] => []
  end.

(** [line.trim_end_matches('\r')]. *)
Definition trim_end_returns (l : list byte) : list byte := reverse (drop_returns (reverse l)).

Definition source_line (source : string) (n : nat) : option string :=
  (fun l => from_bytes (trim_end_returns l)) <$> lines source !! (n - 1).

Definition caret_width (source : string) (starts : list nat) (sp : Span) : nat :=
  let index := line_index starts (start sp) in
  let line_end := default (str_len source) (starts !! (index + 1)) in
  ((end_ sp `min` line_end) - start sp) `max` (if start sp <? end_ sp then 1 else 0).

Definition repeat_byte (b : byte) (n : nat) : string := from_bytes (replicate n b).

(** [output.trim_end()] on a message whose last pieces are literal. *)
Fixpoint trim_end_pieces {E : Type} (m : msg) : res E msg :=
  match m with
  | [] => Ok []
  | p :: m' =>
      let? rest := trim_end_pieces m' in
      match rest with
      | _ :: _ => Ok (p :: rest)
      | [] =>
          let trimmed mk s :=
            let? cs := chars s in
            match trim_end_chars cs with
            | [] => Ok []
            | cs' => Ok [mk (from_bytes (encode cs'))]
            end in
          match p with
          | Lit s => trimmed Lit s
          | Disp s => trimmed Disp s
          | DispChar c => Ok (if is_whitespace c then [] else [p])
          | Dbg _ | DispN _ => Ok [p]
          end
      end
  end.

Definition eol : piece := Lit (String newline EmptyString).

Definition render_source_diagnostic {E : Type} (diagnostic : SourceDiagnostic) (source : string) : res E msg :=
  let bounded := with_source_bounds source diagnostic in
  let starts := line_starts source in
  let '(line, column) := line_column starts (start (diag_span bounded)) in
  let text := default "" (source_line source line) in
  let caret_count := caret_width source starts (diag_span bounded) `max` 1 in
  let gutter := repeat_byte " " (String.length (show_N (N.of_nat line))) in
  trim_end_pieces
    ([Lit "error: "] ++ message bounded ++ [eol]
     ++ [Lit " --> "; Disp (diag_file bounded); Lit ":"; DispN (N.of_nat line); Lit ":";
         DispN (N.of_nat column); eol]
     ++ [Lit gutter; Lit " |"; eol]
     ++ [DispN (N.of_nat line); Lit " | "; Disp text; eol]
     ++ [Lit gutter; Lit " | "; Lit (repeat_byte " " (column - 1)); Lit (repeat_byte "^" caret_count); eol]
     ++ match help bounded with Some h => Lit "help: " :: h ++ [eol] | None => [] end).

(** * The theorems on source positions

    [line_column] computes the line and the column by its binary search over
    the line starts; the bounds put on a span keep it inside the source; and
    the UTF-16 range of a parse error's diagnostic is always defined: its
    offsets fall on character boundaries. *)

(** The number of newlines of a text. *)
Definition count_newlines (l : list byte) : nat := length (filter (fun b => b = newline) l).

Lemma count_newlines_cons b l :
  count_newlines (b :: l) = (if byte_eqb b newline then 1 else 0) + count_newlines l.
Proof.
  unfold count_newlines. rewrite filter_cons. destruct (byte_eqb b newline) eqn:E.
  - apply byte_eqb_true in E as ->. by rewrite decide_True.
  - rewrite decide_False; [done|]. intros ->. by rewrite byte_eqb_refl in E.
Qed.

Lemma newline_ends_lt i l y : y ∈ newline_ends i l -> i < y.
Proof.
  revert i. induction l as [|b l IH]; intros i; simpl; [by intros ?%elem_of_nil|].
  destruct (byte_eqb b newline); [rewrite elem_of_cons; intros [->|H]; [lia|]|intros H];
    apply IH in H; lia.
Qed.

Lemma newline_ends_head_gt i l x : x <= i -> partition_point (newline_ends i l) x = 0 /\
  newline_ends i l !! 0 <> Some x.
Proof.
  intros H. pose proof (newline_ends_lt i l) as Hlt. destruct (newline_ends i l) as [|y ys]; [done|].
  specialize (Hlt y ltac:(apply list_elem_of_here)). simpl. destruct (Nat.ltb_spec y x); [lia|].
  split; [done|]. intros [= ->]. lia.
Qed.

(** The binary search over the ends counts the newlines before [x]. *)
Lemma search_newline_ends i l x :
  let p := partition_point (newline_ends i l) x in
  (if bool_decide (newline_ends i l !! p = Some x) then S p else p) = count_newlines (take (x - i) l).
Proof.
  revert i. induction l as [|b l IH]; intros i; simpl; [by destruct (x - i)|].
  destruct (decide (x <= i)) as [Hle|Hgt].
  { replace (x - i) with 0 by lia. simpl.
    destruct (newline_ends_head_gt i (b :: l) x Hle) as [H1 H2]. simpl in H1, H2. rewrite H1.
    by rewrite bool_decide_false. }
  replace (x - i) with (S (x - S i)) by lia. simpl. rewrite count_newlines_cons.
  specialize (IH (S i)). simpl in IH. destruct (byte_eqb b newline); [|exact IH]. simpl.
  destruct (Nat.ltb_spec (S i) x) as [Hlt|Hge]; simpl.
  - rewrite <- IH. by case_bool_decide.
  - assert (x = S i) as -> by lia. rewrite bool_decide_true by done. by rewrite Nat.sub_diag.
Qed.

Lemma line_index_count source offset :
  line_index (line_starts source) offset = count_newlines (take offset (as_bytes source)).
Proof.
  pose proof (search_newline_ends 0 (as_bytes source) offset) as H. simpl in H.
  rewrite Nat.sub_0_r in H. rewrite <- H. unfold line_index, binary_search, line_starts. simpl.
  destruct offset as [|offset]; simpl.
  { destruct (newline_ends_head_gt 0 (as_bytes source) 0 ltac:(lia)) as [H1 H2]. rewrite H1.
    by rewrite bool_decide_false. }
  destruct (newline_ends 0 (as_bytes source) !! _) as [y|] eqn:E.
  - destruct (Nat.eqb_spec y (S offset)) as [->|Hne].
    + by rewrite bool_decide_true.
    + rewrite bool_decide_false by congruence. lia.
  - rewrite bool_decide_false by done. lia.
Qed.

(** The [k]-th end is after the [k]-th newline and no newline is between it
    and an offset before which there are [k+1] newlines. *)
Lemma newline_ends_lookup i l k : k < count_newlines l ->
  exists j, newline_ends i l !! k = Some (i + S j) /\ l !! j = Some newline
    /\ count_newlines (take j l) = k.
Proof.
  revert i k. induction l as [|b l IH]; intros i k; [unfold count_newlines; simpl; lia|].
  rewrite count_newlines_cons. simpl. destruct (byte_eqb b newline) eqn:E; intros Hk.
  - apply byte_eqb_true in E as ->. destruct k as [|k].
    + exists 0. simpl. split; [f_equal; lia|done].
    + destruct (IH (S i) k) as (j & H1 & H2 & H3); [lia|]. exists (S j). simpl. rewrite H1.
      split; [f_equal; lia|]. split; [done|]. rewrite count_newlines_cons, H3. done.
  - destruct (IH (S i) k) as (j & H1 & H2 & H3); [lia|]. exists (S j). rewrite H1.
    split; [f_equal; lia|]. split; [done|]. simpl. by rewrite count_newlines_cons, E, H3.
Qed.

Lemma count_newlines_app l1 l2 : count_newlines (l1 ++ l2) = count_newlines l1 + count_newlines l2.
Proof. unfold count_newlines. by rewrite list.filter_app, length_app. Qed.

Lemma count_newlines_0 l : count_newlines l = 0 -> Forall (fun b => b <> newline) l.
Proof.
  induction l as [|b l IH]; [done|]. rewrite count_newlines_cons.
  destruct (byte_eqb b newline) eqn:E; [lia|]. intros H. constructor; [|by apply IH].
  intros ->. by rewrite byte_eqb_refl in E.
Qed.

(** The line start found for an offset. *)
Lemma line_start_spec source offset :
  offset <= length (as_bytes source) ->
  let bytes := as_bytes source in
  let s := default 0 (line_starts source !! line_index (line_starts source) offset) in
  s <= offset /\ (s = 0 \/ (0 < s /\ bytes !! (s - 1) = Some newline))
  /\ Forall (fun b => b <> newline) (sub bytes s offset).
Proof.
  intros Hoff bytes. rewrite line_index_count. fold bytes.
  destruct (count_newlines (take offset bytes)) as [|k] eqn:Ek; simpl.
  { split; [lia|]. split; [by left|]. unfold sub. rewrite drop_0, Nat.sub_0_r. by apply count_newlines_0. }
  assert (Hk : k < count_newlines bytes).
  { rewrite <- (take_drop offset bytes), count_newlines_app. lia. }
  destruct (newline_ends_lookup 0 bytes k Hk) as (j & H1 & H2 & H3). fold bytes. rewrite H1. simpl.
  assert (Hj : S j <= offset).
  { destruct (decide (S j <= offset)); [done|]. exfalso.
    assert (E : take j bytes = take offset bytes ++ drop offset (take j bytes)).
    { rewrite <- (take_drop offset (take j bytes)) at 1. f_equal. rewrite take_take. f_equal. lia. }
    rewrite E, count_newlines_app in H3. lia. }
  split; [done|]. split; [right; split; [lia|]; by rewrite Nat.sub_0_r|].
  apply count_newlines_0. assert (Hjl : S j <= length bytes) by (unfold bytes in *; lia).
  assert (E : take offset bytes = take j bytes ++ newline :: sub bytes (S j) offset).
  { pose proof (sub_app bytes 0 j offset ltac:(lia) ltac:(lia)) as E.
    rewrite (sub_cons _ j _ newline) in E by (done || lia). unfold sub in E at 1 2.
    by rewrite drop_0, !Nat.sub_0_r in E. }
  rewrite E, count_newlines_app, count_newlines_cons, byte_eqb_refl, H3 in Ek. lia.
Qed.

(** ** Positions on character boundaries *)

Lemma utf16_position_ok {E : Type} source offset :
  utf8 (as_bytes source) -> is_char_boundary (as_bytes source) offset = true ->
  offset <= length (as_bytes source) ->
  exists p, utf16_position (E:=E) source offset = Ok p.
Proof.
  intros Hu Hb Hoff. pose proof (line_start_spec source offset Hoff) as (Hs & Hst & _).
  unfold utf16_position. rewrite Nat.min_l by done. cbv zeta.
  set (s := default 0 _) in *.
  assert (Hsb : is_char_boundary (as_bytes source) s = true).
  { destruct Hst as [->|[Hs0 Hnl]]; [apply boundary_0|]. destruct Hu as [cs Hcs].
    destruct (boundary_ascii _ _ _ _ Hcs Hnl ltac:(vm_compute; done)) as [_ H].
    by replace (S (s - 1)) with s in H by lia. }
  destruct (slice_utf8 (E:=E) (as_bytes source) s offset Hu Hs Hoff Hsb Hb) as [-> [cs Hcs]].
  simpl. unfold chars. rewrite as_from_bytes, Hcs. simpl. eauto.
Qed.

(** A span whose bounded ends are on boundaries. *)
Definition on_boundaries (source : string) (sp : Span) : Prop :=
  is_char_boundary (as_bytes source) (start (bound_span source sp)) = true
  /\ is_char_boundary (as_bytes source) (end_ (bound_span source sp)) = true.

Lemma str_len_bytes s : str_len s = length (as_bytes s).
Proof. induction s as [|b s IH]; simpl; [done|]. by rewrite <- IH. Qed.

Lemma bound_span_in source sp :
  start (bound_span source sp) <= str_len source /\ end_ (bound_span source sp) <= str_len source.
Proof. unfold bound_span. simpl. lia. Qed.

Lemma utf16_range_ok {E : Type} source sp :
  utf8 (as_bytes source) -> on_boundaries source sp ->
  exists r, utf16_range_for_span (E:=E) source sp = Ok r.
Proof.
  intros Hu [H1 H2]. destruct (bound_span_in source sp) as [B1 B2]. rewrite str_len_bytes in B1, B2.
  unfold utf16_range_for_span, with_source_bounds. cbv zeta. cbn [diag_span new_diagnostic].
  destruct (utf16_position_ok (E:=E) source _ Hu H1 B1) as [p ->]. cbn [rbind].
  destruct (utf16_position_ok (E:=E) source _ Hu H2 B2) as [q ->]. cbn [rbind]. eauto.
Qed.

(** ** The spans of parse errors *)

(** Spans of an in-range source stay as they are, except that an empty one is
    widened by a byte. *)
Lemma bound_span_inside source sp :
  (N.of_nat (str_len source) < usize_max)%N -> start sp < end_ sp -> end_ sp <= str_len source -> bound_span source sp = sp.
Proof.
  intros Hlen H1 H2. destruct sp as [a b]. unfold bound_span. simpl in *. f_equal; [lia|].
  replace (a `min` str_len source) with a by lia. rewrite saturating_add_le by lia. lia.
Qed.

Lemma covers_token bytes i ts t :
  covers bytes i ts -> t ∈ ts ->
  t = mkToken TokenKind.Eof (mkSpan (length bytes) (length bytes))
  \/ (start (tspan t) < end_ (tspan t) /\ end_ (tspan t) <= length bytes
      /\ is_char_boundary bytes (start (tspan t)) = true
      /\ is_char_boundary bytes (end_ (tspan t)) = true).
Proof.
  revert i. induction ts as [|t' ts IH]; intros i Hc Ht; [by apply elem_of_nil in Ht|].
  apply elem_of_cons in Ht. apply covers_cons in Hc as [[-> Hc]|(_&?&?&?&?&_&_&Hc)].
  - destruct Hc as (_ & _ & ->). left. destruct Ht as [->|Ht]; [done|by apply elem_of_nil in Ht].
  - destruct Ht as [->|Ht]; [by right|by eapply IH].
Qed.

Lemma token_on_boundaries source ts t :
  (N.of_nat (str_len source) < usize_max)%N -> covers (as_bytes source) 0 ts -> t ∈ ts -> on_boundaries source (tspan t).
Proof.
  intros Hlen Hc Ht. unfold on_boundaries.
  destruct (covers_token _ _ _ _ Hc Ht) as [->|(H1 & H2 & H3 & H4)].
  - unfold bound_span. simpl. rewrite !str_len_bytes.
    replace (length (as_bytes source) `min` length (as_bytes source)) with (length (as_bytes source)) by lia.
    replace ((_ `max` _) `min` length (as_bytes source)) with (length (as_bytes source)) by lia.
    split; apply boundary_len.
  - rewrite bound_span_inside; [done|done|done|by rewrite str_len_bytes].
Qed.

(** A byte span at an ASCII byte, and the span of a word. *)
Lemma point_on_boundaries source p b :
  utf8 (as_bytes source) -> (N.of_nat (str_len source) < usize_max)%N ->
  as_bytes source !! p = Some b -> (byte_val b < 128)%N -> on_boundaries source (point_span p).
Proof.
  intros [cs Hcs] Hlen Hp Hb. assert (p < str_len source) by (rewrite str_len_bytes; by eapply lookup_lt_Some).
  unfold on_boundaries, point_span. rewrite saturating_add_le by lia.
  rewrite bound_span_inside by (simpl; lia). simpl. rewrite Nat.add_1_r. by eapply boundary_ascii.
Qed.

Lemma word_on_boundaries source p b w :
  utf8 (as_bytes source) -> (N.of_nat (str_len source) < usize_max)%N ->
  as_bytes source !! p = Some b -> (byte_val b < 128)%N ->
  p + length (as_bytes w) <= length (as_bytes source) ->
  is_char_boundary (as_bytes source) (p + length (as_bytes w)) = true ->
  as_bytes w = sub (as_bytes source) p (p + length (as_bytes w)) ->
  on_boundaries source (word_span p w).
Proof.
  intros Hu Hlen Hp Hb Hq Hqb Hw. assert (p < str_len source) by (rewrite str_len_bytes; by eapply lookup_lt_Some).
  destruct (as_bytes w) as [|c l] eqn:Ew.
  - unfold word_span. rewrite str_len_bytes, Ew. simpl.
    replace (saturating_add p 0 `max` saturating_add p 1) with (saturating_add p 1)
      by (rewrite !saturating_add_le by lia; lia).
    by eapply (point_on_boundaries source p b).
  - unfold on_boundaries, word_span. rewrite str_len_bytes, Ew.
    rewrite <- str_len_bytes in Hq. simpl length in *. rewrite !saturating_add_le by lia.
    rewrite bound_span_inside by (simpl; lia). simpl. rewrite Nat.max_l by lia. split; [|done].
    destruct Hu as [cs Hcs]. by eapply boundary_ascii.
Qed.

Lemma lex_error_on_boundaries source file e :
  utf8 (as_bytes source) -> (N.of_nat (str_len source) < usize_max)%N -> error_ok (as_bytes source) e ->
  on_boundaries source (diag_span (lex_error_diagnostic file e)).
Proof.
  intros Hu Hlen [He Hw].
  destruct e; simpl in *;
    try (by eapply point_on_boundaries; [..|exact He|vm_compute; done]);
    (eapply word_on_boundaries; [done|done|exact He|vm_compute; done|apply Hw..]).
Qed.

Lemma bound_span_idem source sp : bound_span source (bound_span source sp) = bound_span source sp.
Proof.
  unfold bound_span. simpl. f_equal; [lia|].
  replace ((start sp `min` str_len source) `min` str_len source) with (start sp `min` str_len source) by lia.
  lia.
Qed.

Lemma parse_error_on_boundaries source file e :
  utf8 (as_bytes source) -> (N.of_nat (str_len source) < usize_max)%N -> parse_module source = Err e ->
  on_boundaries source (diag_span (parse_error_diagnostic file source e)).
Proof.
  intros Hu Hlen He. unfold on_boundaries, parse_error_diagnostic, with_source_bounds. cbn [diag_span].
  rewrite bound_span_idem. unfold parse_module in He. pose proof (lex_spec source Hu) as Hlex.
  destruct (lex source) as [ts|le| |] eqn:Hts; try done; simpl in He.
  - pose proof (parse_tokens_spec ts (lex_eof_ended _ _ Hu Hts)) as H. rewrite He in H.
    destruct H as (t & Ht & Het). pose proof (token_on_boundaries source ts t Hlen Hlex Ht) as Hb.
    unfold on_boundaries in Hb. destruct e; simpl in Het; destruct_and?; subst; done.
  - injection He as <-. by eapply lex_error_on_boundaries.
Qed.

(** ** Properties *)

(** The line and column [line_column] computes by binary search are the
    line (one more than the newlines before the offset) and the distance from
    the line's start, which follows a newline or begins the source, with no
    newline in between. *)
Theorem line_column_correct source offset :
  offset <= length (as_bytes source) ->
  exists s, line_column (line_starts source) offset
            = (count_newlines (take offset (as_bytes source)) + 1, offset - s + 1)
    /\ s <= offset /\ (s = 0 \/ (0 < s /\ as_bytes source !! (s - 1) = Some newline))
    /\ Forall (fun b => b <> newline) (sub (as_bytes source) s offset).
Proof.
  intros H. pose proof (line_start_spec source offset H) as Hs. eexists. split; [|exact Hs].
  unfold line_column. by rewrite line_index_count.
Qed.

(** The diagnostic of every parse or lexical error of a source below
    [usize::MAX] bytes has a UTF-16 range: the slice taken up to each of its ends
    never falls inside a character, so an editor request cannot panic on it. *)
Theorem parse_error_range {E : Type} source file e :
  utf8 (as_bytes source) -> (N.of_nat (str_len source) < usize_max)%N -> parse_module source = Err e ->
  exists r, utf16_range_for_span (E:=E) source (diag_span (parse_error_diagnostic file source e)) = Ok r.
Proof.
  intros Hu Hlen He. apply utf16_range_ok; [done|]. by apply parse_error_on_boundaries.
Qed.

Lemma line_column_correct_witness :
  let source := from_bytes ["a"%char; newline; "b"%char; "c"%char] in
  3 <= length (as_bytes source) /\ line_column (line_starts source) 3 = (2, 2)
  /\ exists s, line_column (line_starts source) 3
            = (count_newlines (take 3 (as_bytes source)) + 1, 3 - s + 1)
    /\ s <= 3 /\ (s = 0 \/ (0 < s /\ as_bytes source !! (s - 1) = Some newline))
    /\ Forall (fun b => b <> newline) (sub (as_bytes source) s 3).
Proof.
  split; [vm_compute; lia|]. split; [reflexivity|].
  apply line_column_correct. vm_compute. lia.
Defined.

Lemma parse_error_range_witness :
  parse_module "while" = Err (ParseError.MissingWhileCondition (mkSpan 0 5))
  /\ exists r, utf16_range_for_span (E:=unit) "while"
       (diag_span (parse_error_diagnostic "f" "while" (ParseError.MissingWhileCondition (mkSpan 0 5)))) = Ok r.
Proof.
  assert (H : parse_module "while" = Err (ParseError.MissingWhileCondition (mkSpan 0 5)))
    by (vm_compute; reflexivity).
  split; [exact H|]. apply parse_error_range; [eexists; vm_compute; reflexivity| |exact H].
  vm_compute. reflexivity.
Defined.
