(* ===== verification/Bytecode.v ===== *)
(** * Bytecode

    [crates/ricochet_bytecode/src]: instructions, chunks and source spans.
    Jump targets and block indices are [usize] operands, kept as [N]; a chunk's
    JSON form is produced by serde and is not modelled. *)

From stdpp Require Import base tactics list strings option numbers.
From Stdlib Require Import ZArith NArith Lia Ascii String.
From S2P Require Import Prelude RustStr RustFloat.

Open Scope list_scope.
Open Scope nat_scope.

Record SourceSpan : Type := mkSourceSpan {
  ss_file : string; ss_start : nat; ss_end : nat; ss_line : nat; ss_column : nat }.

Record ArgsSpec : Type := mkArgsSpec { spec_inputs : list string; spec_outputs : list string }.

Module Op.
Inductive Op : Type :=
  | PushNil
  | PushBool (b : bool)
  | PushNumber (n : Z)
  | PushFloat (x : f64)
  | PushString (s : string)
  | PushBlock (block : N)
  | CallWord (word : string)
  | CallMethod (name : string)
  | Send
  | GetVar (name : string)
  | SetVar (name : string)
  | DeclareVar (name : string)
  | BeginClass (name superclass : string)
  | EndClass
  | AddField (name : string)
  | AddAccessor (name : string)
  | AddMethod (name : string) (block : N) (args : option ArgsSpec)
  | AddFunction (name : string) (block : N) (args : option ArgsSpec)
  | Return
  | JumpIfFalse (target : N)
  | Jump (target : N)
  | Pop.
End Op.

Abbreviation Op := Op.Op.

Record Instruction : Type := mkInstruction { op : Op; ispan : SourceSpan }.

Inductive Chunk : Type :=
  | mkChunk (file : string) (instructions : list Instruction) (blocks : list Chunk).

Definition chunk_file (c : Chunk) : string := let 'mkChunk f _ _ := c in f.
Definition instructions (c : Chunk) : list Instruction := let 'mkChunk _ i _ := c in i.
Definition blocks (c : Chunk) : list Chunk := let 'mkChunk _ _ b := c in b.

Definition new_chunk (file : string) : Chunk := mkChunk file [] [].

Definition push (o : Op) (sp : SourceSpan) (c : Chunk) : Chunk :=
  mkChunk (chunk_file c) (instructions c ++ [mkInstruction o sp]) (blocks c).

Definition push_block (b : Chunk) (c : Chunk) : N * Chunk :=
  (N.of_nat (length (blocks c)), mkChunk (chunk_file c) (instructions c) (blocks c ++ [b])).

(** [chunk.ops()]. *)
Definition ops (c : Chunk) : list Op := op <$> instructions c.

(** [chunk.instructions[i].op = o]: panics out of bounds. *)
Definition set_op {E : Type} (i : nat) (o : Op) (c : Chunk) : res E Chunk :=
  match instructions c !! i with
  | Some instr => Ok (mkChunk (chunk_file c) (<[i := mkInstruction o (ispan instr)]> (instructions c)) (blocks c))
  | None => Panic
  end.

(** Induction on chunks, through their blocks. *)
Section chunk_induction.
Variable P : Chunk -> Prop.
Hypothesis H : forall f i b, Forall P b -> P (mkChunk f i b).

Fixpoint Chunk_ind' (c : Chunk) : P c :=
  let 'mkChunk f i b := c in
  H f i b ((fix all (l : list Chunk) : Forall P l :=
              match l with
              | [] => Forall_nil_2 P
              | x :: l' => Forall_cons_2 P x l' (Chunk_ind' x) (all l')
              end) b).
End chunk_induction.
