(* ===== verification/BTree.v ===== *)
(** * [BTreeMap<String, V>] of the Rust standard library

    A map ordered by the bytes of its keys, kept as its list of entries in key
    order: the order in which [iter], [keys] and [values] enumerate it. *)

From stdpp Require Import base tactics list strings option numbers.
From Stdlib Require Import ZArith NArith Lia Ascii String Sorted.
From S2P Require Import Prelude.

Open Scope string_scope.
Open Scope list_scope.
Open Scope nat_scope.

Definition btree (A : Type) : Type := list (string * A).

Section ops.
Context {A : Type}.
Implicit Types (m : btree A) (k : string).

Fixpoint bt_get (k : string) (m : btree A) : option A :=
  match m with
  | [] => None
  | (k', v) :: m' => if String.eqb k k' then Some v else bt_get k m'
  end.

Definition bt_contains_key (k : string) (m : btree A) : bool :=
  match bt_get k m with Some _ => true | None => false end.

Fixpoint bt_insert (k : string) (v : A) (m : btree A) : btree A :=
  match m with
  | [] => [(k, v)]
  | (k', v') :: m' =>
      match String.compare k k' with
      | Lt => (k, v) :: m
      | Eq => (k, v) :: m'
      | Gt => (k', v') :: bt_insert k v m'
      end
  end.

Fixpoint bt_remove (k : string) (m : btree A) : btree A :=
  match m with
  | [] => []
  | (k', v') :: m' => if String.eqb k k' then m' else (k', v') :: bt_remove k m'
  end.

Definition bt_keys (m : btree A) : list string := m.*1.
Definition bt_values (m : btree A) : list A := m.*2.
End ops.

(** ** The order *)

Definition key_lt (a b : string) : Prop := String.compare a b = Lt.

Lemma compare_refl s : String.compare s s = Eq.
Proof. induction s as [|c s IH]; simpl; [done|]. unfold Ascii.compare. by rewrite N.compare_refl. Qed.

Lemma key_lt_irrefl a : ~ key_lt a a.
Proof. unfold key_lt. by rewrite compare_refl. Qed.

Lemma compare_cons c1 s1 c2 s2 :
  String.compare (String c1 s1) (String c2 s2) = Lt <->
  (N_of_ascii c1 < N_of_ascii c2)%N \/ c1 = c2 /\ String.compare s1 s2 = Lt.
Proof.
  simpl. unfold Ascii.compare. destruct (N.compare_spec (N_of_ascii c1) (N_of_ascii c2)) as [E|E|E].
  - apply (f_equal ascii_of_N) in E. rewrite !ascii_N_embedding in E. subst. split; [auto|].
    intros [?|[_ ?]]; [lia|done].
  - tauto.
  - split; [done|]. intros [?|[-> _]]; lia.
Qed.

#[export] Instance key_lt_trans : Transitive key_lt.
Proof.
  unfold key_lt. intros a. induction a as [|c1 a IH]; intros [|c2 b] [|c3 c]; try done.
  rewrite !compare_cons. intros [H1|[-> H1]] [H2|[-> H2]]; [left; lia|left; lia|left; lia|right; split; [done|]; by eapply IH].
Qed.

Lemma key_gt a b : String.compare a b = Gt -> key_lt b a.
Proof. intros H. unfold key_lt. rewrite String.compare_antisym, H. done. Qed.

Lemma key_ne a b : key_lt a b -> a <> b.
Proof. intros H ->. by apply key_lt_irrefl in H. Qed.

(** ** Well-formed maps *)

Definition bt_wf {A} (m : btree A) : Prop := StronglySorted key_lt (bt_keys m).

Section proofs.
Context {A : Type}.
Implicit Types (m : btree A) (k : string) (v : A).

Lemma bt_get_lt k m : Forall (key_lt k) (bt_keys m) -> bt_get k m = None.
Proof.
  induction m as [|[k' v'] m IH]; simpl; [done|]. intros [H1 H2]%Forall_cons_1.
  destruct (String.eqb_spec k k') as [->|_]; [by apply key_lt_irrefl in H1|]. by apply IH.
Qed.

Lemma bt_insert_Forall k v m (P : string -> Prop) :
  P k -> Forall P (bt_keys m) -> Forall P (bt_keys (bt_insert k v m)).
Proof.
  intros Hk. induction m as [|[k' v'] m IH]; simpl; [by constructor|]. intros [H1 H2]%Forall_cons_1.
  destruct (String.compare k k'); simpl; repeat constructor; auto.
Qed.

Lemma bt_insert_wf k v m : bt_wf m -> bt_wf (bt_insert k v m).
Proof.
  unfold bt_wf. induction m as [|[k' v'] m IH]; simpl; [intros; repeat constructor|].
  intros Hs. apply StronglySorted_inv in Hs as [Hs Hf]. destruct (String.compare k k') eqn:E; simpl.
  - apply String.compare_eq_iff in E as ->. by constructor.
  - constructor; [by constructor|]. constructor; [done|].
    eapply list.Forall_impl; [exact Hf|]. intros x Hx. by etrans.
  - constructor; [by apply IH|]. apply bt_insert_Forall; [by apply key_gt|done].
Qed.

Lemma bt_remove_Forall k m (P : string -> Prop) : Forall P (bt_keys m) -> Forall P (bt_keys (bt_remove k m)).
Proof.
  induction m as [|[k' v'] m IH]; simpl; [done|]. intros [H1 H2]%Forall_cons_1.
  case_match; simpl; [done|]. constructor; auto.
Qed.

Lemma bt_remove_wf k m : bt_wf m -> bt_wf (bt_remove k m).
Proof.
  unfold bt_wf. induction m as [|[k' v'] m IH]; simpl; [done|].
  intros Hs. apply StronglySorted_inv in Hs as [Hs Hf]. case_match; [done|]. simpl.
  constructor; [by apply IH|]. by apply bt_remove_Forall.
Qed.

Lemma bt_get_insert k k' v m :
  bt_get k (bt_insert k' v m) = if String.eqb k k' then Some v else bt_get k m.
Proof.
  induction m as [|[k1 v1] m IH]; simpl; [done|].
  destruct (String.compare k' k1) eqn:E; simpl.
  - apply String.compare_eq_iff in E as ->. by destruct (String.eqb_spec k k1).
  - done.
  - rewrite IH. destruct (String.eqb_spec k k1) as [->|]; [|done].
    destruct (String.eqb_spec k1 k') as [->|]; [|done]. by rewrite compare_refl in E.
Qed.

Lemma bt_get_remove k k' m : bt_wf m ->
  bt_get k (bt_remove k' m) = if String.eqb k k' then None else bt_get k m.
Proof.
  unfold bt_wf. induction m as [|[k1 v1] m IH]; simpl; [by case_match|]. intros Hs.
  apply StronglySorted_inv in Hs as [Hs Hf]. destruct (String.eqb_spec k' k1) as [->|Hne].
  - destruct (String.eqb_spec k k1) as [->|]; [|done]. by apply bt_get_lt.
  - simpl. rewrite IH by done. destruct (String.eqb_spec k k1) as [->|]; [|done].
    by destruct (String.eqb_spec k1 k') as [->|].
Qed.

Lemma bt_contains_get k m : bt_contains_key k m = true <-> is_Some (bt_get k m).
Proof. unfold bt_contains_key. destruct (bt_get k m); [by split; [eexists|]|]. split; [done|by intros []]. Qed.

Lemma bt_get_In k v m : bt_get k m = Some v -> (k, v) ∈ m.
Proof.
  induction m as [|[k' v'] m IH]; simpl; [done|]. destruct (String.eqb_spec k k') as [->|]; intros H.
  - simplify_eq. left.
  - right. auto.
Qed.
End proofs.

#[export] Hint Resolve bt_insert_wf bt_remove_wf : ricochet.
