(* ===== verification/Compiler.v ===== *)
(** * The compiler's lowering

    [crates/ricochet_compiler/src/compiler.rs], the [Compiler] that turns a
    module whose macros are expanded into bytecode.  Jumps are emitted with the
    placeholder [usize::MAX] and patched when their target is known, as the
    source does; [loop_stack] records the break jumps still to patch. *)

From stdpp Require Import base tactics list strings option numbers.
From Stdlib Require Import ZArith NArith Lia Ascii String.
From S2P Require Import Prelude RustStr RustFloat Syntax Lexer Parser Diagnostic Bytecode.

Open Scope string_scope.
Open Scope list_scope.
Open Scope nat_scope.

Module CompileError.
Inductive CompileError : Type :=
  | Parse (e : ParseError)
  | Unsupported (feature : msg) (span : Span) (help : option msg)
  | LoopControlOutsideLoop (word : string) (span : Span).
End CompileError.

Abbreviation CompileError := CompileError.CompileError.

Record LoopContext : Type := mkLoop { continue_target : nat; break_jumps : list nat }.

Record Compiler : Type := mkCompiler {
  chunk : Chunk; comp_line_starts : list nat; default_span : Span; loop_stack : list LoopContext }.

Abbreviation C := (stm Compiler CompileError).

Definition set_chunk (c : Chunk) (s : Compiler) : Compiler :=
  mkCompiler c (comp_line_starts s) (default_span s) (loop_stack s).
Definition set_default_span (sp : Span) (s : Compiler) : Compiler :=
  mkCompiler (chunk s) (comp_line_starts s) sp (loop_stack s).
(** The last element of the [Vec] is the head of the list. *)
Definition set_loop_stack (l : list LoopContext) (s : Compiler) : Compiler :=
  mkCompiler (chunk s) (comp_line_starts s) (default_span s) l.

Definition new_compiler (file : string) : Compiler := mkCompiler (new_chunk file) [0] (mkSpan 0 0) [].

Definition from_source (file source : string) : Compiler :=
  let s := new_compiler file in
  mkCompiler (chunk s) (line_starts source) (default_span s) (loop_stack s).

(** ** Emission *)

Definition source_span (s : Compiler) (sp : Span) : SourceSpan :=
  let '(line, column) := line_column (comp_line_starts s) (start sp) in
  mkSourceSpan (chunk_file (chunk s)) (start sp) (end_ sp) line column.

Definition push_at (o : Op) (sp : Span) : C unit :=
  smodify (fun s => set_chunk (push o (source_span s sp) (chunk s)) s).

Definition push_op (o : Op) : C unit := let* s := sget in push_at o (default_span s).

Definition emit_block (b : Chunk) : C N :=
  let* s := sget in
  let '(index, c) := push_block b (chunk s) in
  smodify (set_chunk c) ;; sret index.

(** [self.chunk.instructions.len()]. *)
Definition here : C nat := let* s := sget in sret (length (instructions (chunk s))).

Definition patch (i : nat) (o : Op) : C unit :=
  let* s := sget in
  let* c := slift (set_op i o (chunk s)) in
  smodify (set_chunk c).

Fixpoint patch_breaks (jumps : list nat) (target : N) : C unit :=
  match jumps with
  | [] => sret tt
  | j :: jumps' => patch j (Op.Jump target) ;; patch_breaks jumps' target
  end.

(** Run [m] with another default span. *)
Definition with_default_span (sp : Span) (m : C unit) : C unit :=
  let* s := sget in
  let previous := default_span s in
  smodify (set_default_span sp) ;;
  m ;;
  smodify (set_default_span previous).

(** ** Declarations as expressions *)

Definition declaration_name (e : SpannedExpr) : option string :=
  match expr e with Expr.Symbol name | Expr.String name => Some name | _ => None end.

Definition is_word (w : string) (e : SpannedExpr) : bool :=
  match expr e with Expr.Symbol word => String.eqb word w | _ => false end.

Definition is_declaration (w : string) (exprs : list SpannedExpr) : option string :=
  match exprs with
  | [name; operator] => if is_word w operator then declaration_name name else None
  | _ => None
  end.

Definition is_field_declaration (exprs : list SpannedExpr) : option string := is_declaration "Field" exprs.
Definition is_accessor_declaration (exprs : list SpannedExpr) : option string := is_declaration "Accessor" exprs.
Definition table_declaration (exprs : list SpannedExpr) : option string := is_declaration "Table" exprs.

Definition block_method_declaration (exprs : list SpannedExpr)
    : option (option ArgsDecl * string * list SpannedExpr) :=
  match exprs with
  | [block; name; operator] =>
      match expr block with
      | Expr.Block body =>
          if is_word "Method" operator then n ← declaration_name name; Some (None, n, body) else None
      | _ => None
      end
  | [args; block; name; operator] =>
      match expr args, expr block with
      | Expr.Args a, Expr.Block body =>
          if is_word "Method" operator then n ← declaration_name name; Some (Some a, n, body) else None
      | _, _ => None
      end
  | _ => None
  end.

Definition binding_operators : list string :=
  ["get"; "set"; "var"; "array"; "list"; "map"; "Array"; "List"; "Map"; "Set"].

(** [variable_binding_pair(exprs, index)], on the expressions from [index]. *)
Definition variable_binding_pair (exprs : list SpannedExpr) : option (string * string) :=
  match exprs with
  | e1 :: e2 :: _ =>
      match expr e1, expr e2 with
      | Expr.Symbol name, Expr.Symbol operator =>
          if existsb (String.eqb operator) binding_operators then Some (name, operator) else None
      | _, _ => None
      end
  | _ => None
  end.

Definition args_spec (a : ArgsDecl) : ArgsSpec := mkArgsSpec (inputs a) (outputs a).

(** ** Expressions *)

Definition compile_symbol (word : string) : C unit :=
  if String.eqb word "nil" then push_op Op.PushNil
  else if String.eqb word "true" then push_op (Op.PushBool true)
  else if String.eqb word "false" then push_op (Op.PushBool false)
  else if String.eqb word "return" then push_op Op.Return
  else if String.eqb word "break" then
    let* s := sget in
    match loop_stack s with
    | [] => sfail (CompileError.LoopControlOutsideLoop word (default_span s))
    | loop :: loops =>
        let* jump := here in
        push_op (Op.Jump usize_max) ;;
        smodify (set_loop_stack (mkLoop (continue_target loop) (break_jumps loop ++ [jump]) :: loops))
    end
  else if String.eqb word "continue" then
    let* s := sget in
    match loop_stack s with
    | [] => sfail (CompileError.LoopControlOutsideLoop word (default_span s))
    | loop :: _ => push_op (Op.Jump (N.of_nat (continue_target loop)))
    end
  else push_op (Op.CallWord word).

(** [compile_exprs], over the expression compiler it calls. *)
Section compile_exprs.
Variable compile_expr : Expr -> C unit.

Fixpoint compile_exprs_with (exprs : list SpannedExpr) : C unit :=
  match exprs with
  | [] => sret tt
  | mkSpanned e sp :: exprs1 =>
      match variable_binding_pair exprs with
      | Some (name, operator) =>
          match exprs1 with
          | mkSpanned _ sp2 :: exprs2 =>
              push_at (Op.PushString name) sp ;;
              push_at (Op.CallWord operator) sp2 ;;
              compile_exprs_with exprs2
          | [] => sret tt
          end
      | None =>
          with_default_span sp (compile_expr e) ;;
          compile_exprs_with exprs1
      end
  end.
End compile_exprs.

(** [compile_block_chunk], over the body's compilation. *)
Definition block_chunk_with (body : C unit) (sp : Span) : C Chunk :=
  let* s := sget in
  let* s' := slift (match body (mkCompiler (new_chunk (chunk_file (chunk s))) (comp_line_starts s) sp []) with
                    | Ok (_, s') => Ok s'
                    | Err e => Err e
                    | Panic => Panic
                    | OutOfFuel => OutOfFuel
                    end) in
  sret (push Op.Return (source_span s' (default_span s')) (chunk s')).

(** [self.loop_stack.pop().expect(..)]. *)
Definition pop_loop : C LoopContext :=
  let* s := sget in
  match loop_stack s with
  | loop :: loops => smodify (set_loop_stack loops) ;; sret loop
  | [] => slift Panic
  end.

Fixpoint compile_expr (e : Expr) : C unit :=
  match e with
  | Expr.Symbol word => compile_symbol word
  | Expr.DotWord word =>
      let* s := sget in
      sfail (CompileError.Unsupported [Lit "leading-dot method syntax "; Dbg word] (default_span s)
               (Some [Lit "use postfix selectors, for example: user email.get or http_request"]))
  | Expr.Reference name => push_op (Op.PushString name) ;; push_op (Op.CallWord "get")
  | Expr.String value => push_op (Op.PushString value)
  | Expr.Number value => push_op (Op.PushNumber value)
  | Expr.Float value => push_op (Op.PushFloat value)
  | Expr.Block body =>
      let* s := sget in
      let* block := block_chunk_with (compile_exprs_with compile_expr body) (default_span s) in
      let* index := emit_block block in
      push_op (Op.PushBlock index)
  | Expr.Sequence exprs => compile_exprs_with compile_expr exprs
  | Expr.Args _ =>
      let* s := sget in
      sfail (CompileError.Unsupported [Lit "argument declarations"] (default_span s)
               (Some [Lit "remove the signature and pop arguments from the stack"]))
  | Expr.If then_body else_body =>
      let* jump_if_false := here in
      push_op (Op.JumpIfFalse usize_max) ;;
      compile_exprs_with compile_expr then_body ;;
      let* jump_over_else := here in
      push_op (Op.Jump usize_max) ;;
      let* else_start := here in
      compile_exprs_with compile_expr else_body ;;
      let* end_ := here in
      patch jump_if_false (Op.JumpIfFalse (N.of_nat else_start)) ;;
      patch jump_over_else (Op.Jump (N.of_nat end_))
  | Expr.While condition body =>
      let* condition_start := here in
      compile_exprs_with compile_expr condition ;;
      let* exit_jump := here in
      push_op (Op.JumpIfFalse usize_max) ;;
      smodify (fun s => set_loop_stack (mkLoop condition_start [] :: loop_stack s) s) ;;
      compile_exprs_with compile_expr body ;;
      let* loop_context := pop_loop in
      push_op (Op.Jump (N.of_nat condition_start)) ;;
      let* loop_end := here in
      patch exit_jump (Op.JumpIfFalse (N.of_nat loop_end)) ;;
      patch_breaks (break_jumps loop_context) (N.of_nat loop_end)
  end.

Definition compile_exprs : list SpannedExpr -> C unit := compile_exprs_with compile_expr.
Definition compile_block_chunk (exprs : list SpannedExpr) (sp : Span) : C Chunk :=
  block_chunk_with (compile_exprs exprs) sp.

Definition compile_expr_item (e : Expr) (sp : Span) : C unit := with_default_span sp (compile_expr e).

(** ** Items *)

Definition compile_function_decl (f : FunctionDecl) : C unit :=
  let* block := compile_block_chunk (function_body f) (function_span f) in
  let* index := emit_block block in
  push_at (Op.AddFunction (function_name f) index (args_spec <$> function_args f)) (function_span f).

Definition compile_method_decl (m : MethodDecl) : C unit :=
  let* block := compile_block_chunk (method_body m) (method_span m) in
  let* index := emit_block block in
  push_at (Op.AddMethod (method_name m) index (args_spec <$> method_args m)) (method_span m).

(** A statement of a class body. *)
Definition compile_class_expr (e : Expr) (sp : Span) : C unit :=
  match e with
  | Expr.Sequence exprs =>
      match table_declaration exprs, is_field_declaration exprs, is_accessor_declaration exprs,
            block_method_declaration exprs with
      | Some name, _, _, _ =>
          match exprs with
          | [mkSpanned _ sp0; mkSpanned _ sp1] =>
              push_at (Op.PushString name) sp0 ;; push_at (Op.CallWord "Table") sp1
          | _ => slift Panic
          end
      | None, Some name, _, _ => push_at (Op.AddField name) sp
      | None, None, Some name, _ => push_at (Op.AddAccessor name) sp
      | None, None, None, Some (args, name, body) =>
          let* block := compile_block_chunk body sp in
          let* index := emit_block block in
          push_at (Op.AddMethod name index (args_spec <$> args)) sp
      | None, None, None, None => compile_expr_item e sp
      end
  | _ => compile_expr_item e sp
  end.

Definition compile_class_body_item (item : Item) : C unit :=
  match item with
  | Item.Method method => compile_method_decl method
  | Item.Expr e sp _ => compile_class_expr e sp
  | Item.Class (mkClass name _ _ _ sp) =>
      sfail (CompileError.Unsupported [Lit "nested class declaration "; Disp name] sp
               (Some [Lit "move nested classes to the top level"]))
  | Item.Function f =>
      sfail (CompileError.Unsupported [Lit "function declaration "; Disp (function_name f)] (function_span f)
               (Some [Lit "move function declarations to the top level"]))
  | Item.Macro m =>
      sfail (CompileError.Unsupported
               [Lit "compile-time macros are not implemented yet: macro declaration "; Dbg (macro_name m)]
               (macro_span m)
               (Some [Lit "macro declarations inside class bodies are parsed for editor support, but macro expansion is not available yet"]))
  end.

Fixpoint compile_all (f : Item -> C unit) (items : list Item) : C unit :=
  match items with
  | [] => sret tt
  | item :: items' => f item ;; compile_all f items'
  end.

(** The span of the class is computed before its body is compiled. *)
Definition compile_class (c : ClassDecl) : C unit :=
  let 'mkClass name superclass body _ sp := c in
  let* s := sget in
  let class_span := source_span s sp in
  smodify (fun s => set_chunk (push (Op.BeginClass name superclass) class_span (chunk s)) s) ;;
  compile_all compile_class_body_item body ;;
  smodify (fun s => set_chunk (push Op.EndClass class_span (chunk s)) s).

Definition compile_item (item : Item) : C unit :=
  match item with
  | Item.Class class => compile_class class
  | Item.Expr e sp _ => compile_expr_item e sp
  | Item.Function f => compile_function_decl f
  | Item.Macro m =>
      sfail (CompileError.Unsupported
               [Lit "compile-time macros are not implemented yet: macro declaration "; Dbg (macro_name m)]
               (macro_span m)
               (Some [Lit "macro declarations parse for editor support, but expansion and lowering will land in a later compiler slice"]))
  | Item.Method m =>
      sfail (CompileError.Unsupported [Lit "top-level method declaration "; Disp (method_name m)] (method_span m)
               (Some [Lit "methods must be declared inside a class body with postfix Method syntax"]))
  end.

Definition compile_module (m : Module_) : C unit := compile_all compile_item (items m).

(** Lowering a macro-free module: [Compiler::from_source], [compile_module]
    and [finish]. *)
Definition lower_module (file source : string) (m : Module_) : res CompileError Chunk :=
  match compile_module m (from_source file source) with
  | Ok (_, s) => Ok (chunk s)
  | Err e => Err e
  | Panic => Panic
  | OutOfFuel => OutOfFuel
  end.

Example lower_loop :
  match parse_module "a while b if break end continue end" with
  | Ok m => match lower_module "f" "" m with Ok c => ops c | _ => [] end
  | _ => []
  end = [Op.CallWord "a"; Op.JumpIfFalse 8; Op.CallWord "b"; Op.JumpIfFalse 6; Op.Jump 8; Op.Jump 6;
         Op.Jump 0; Op.Jump 0].
Proof. vm_compute. reflexivity. Qed.
