(* ===== verification/Macro.v ===== *)
(** * The macro expander: data and resolution

    [crates/ricochet_compiler/src/compiler.rs], the part before the lowering.
    A [HashMap] is a [btree]: the source iterates over one only to build
    another or to sort the result by key.  SHA-256 is an interface. *)

From stdpp Require Import base tactics list strings option numbers.
From Stdlib Require Import ZArith NArith Lia Ascii String.
From S2P Require Import Prelude RustStr RustFloat BTree Syntax Lexer Parser Diagnostic Bytecode Compiler.

Open Scope string_scope.
Open Scope list_scope.
Open Scope nat_scope.

Definition MAX_MACRO_EXPANSION_DEPTH : nat := 32.
Definition MAX_SAME_MACRO_RECURSION : nat := 8.
Definition MAX_MACRO_EVALUATOR_STEPS : N := 10000.
Definition MAX_GENERATED_AST_NODES : N := 100000.

(** A quotation mark in a message. *)
Definition quote_mark : piece := DispChar 34.

Definition unsupported {A : Type} (feature : msg) (sp : Span) (help : option msg) : res CompileError A :=
  Err (CompileError.Unsupported feature sp help).

(** ** Data *)

Module MacroSourceKind.
Inductive MacroSourceKind : Type := Local | Package.
End MacroSourceKind.
Abbreviation MacroSourceKind := MacroSourceKind.MacroSourceKind.

Record MacroPackageMetadata : Type := mkPackage {
  package_name : string; package_package : option string; package_module_path : string; package_version : option string;
  package_integrity : option string; package_source_kind : option string; package_commit : option string }.

Record MacroImportSummary : Type := mkImportSummary { import_summary_specifier : string; import_summary_module_id : string }.

Record MacroSummary : Type := mkMacroSummary {
  sum_name : string; sum_inputs : list string; sum_outputs : list string; sum_docs : list string; sum_span : Span;
  sum_body_span : option Span }.

Record MacroTableSummary : Type := mkTableSummary {
  ts_module_id : string; ts_import_specifier : option string; ts_macros : list MacroSummary; ts_source_hash : string;
  ts_source_kind : MacroSourceKind; ts_package : option MacroPackageMetadata; ts_source_len : nat; ts_line_starts : list nat }.

Record MacroExpansionTraceEntry : Type := mkTrace {
  trace_entry_id : string; invocation_module_id : string; trace_module_id : string; trace_import_specifier : option string;
  trace_macro_name : string; invocation_span : Span; name_span : Span; definition_span : Span; trace_depth : nat;
  argument_count : nat; output_node_count : N }.

Record MacroExpansion : Type := mkExpansion {
  exp_module_id : string; exp_module : Module_; exp_imports : list MacroImportSummary;
  exp_macro_tables : list MacroTableSummary; exp_trace : list MacroExpansionTraceEntry }.

Record MacroDefinition : Type := mkDefinition {
  def_module_id : string; def_import_specifier : option string; def_name : string; def_inputs : list string;
  def_outputs : list string; def_docs : list string; def_body : list SpannedExpr; def_span : Span }.

Inductive ImportedMacroTable : Type := mkTable {
  import_specifier : string; table_module_id : string; exported_macros : btree MacroDefinition;
  table_local_macros : btree MacroDefinition; table_imported_macros : list ImportedMacroTable; table_source_hash : string;
  table_source_kind : MacroSourceKind; table_package : option MacroPackageMetadata; table_source_len : nat;
  table_line_starts : list nat }.

Record MacroScope : Type := mkScope {
  scope_module_id : string; scope_local_macros : btree MacroDefinition; scope_imported_macros : list ImportedMacroTable }.

Record MacroExpander : Type := mkExpander {
  module_id : string; source_hash : string; source_kind : MacroSourceKind; package : option MacroPackageMetadata;
  source_len : nat; macro_line_starts : list nat; local_macros : btree MacroDefinition;
  imported_macros : list ImportedMacroTable; generated_ast_nodes : N; trace : list MacroExpansionTraceEntry }.

Module MacroOutput.
Inductive MacroExpansionOutput : Type := Exprs (exprs : list SpannedExpr) | Items (rows : list SpannedExpr).
End MacroOutput.
Abbreviation MacroExpansionOutput := MacroOutput.MacroExpansionOutput.

Definition output_exprs (o : MacroExpansionOutput) : list SpannedExpr :=
  match o with MacroOutput.Exprs exprs | MacroOutput.Items exprs => exprs end.

Module ItemRowContext.
Inductive ItemRowContext : Type := TopLevel | ClassBody.
End ItemRowContext.
Abbreviation ItemRowContext := ItemRowContext.ItemRowContext.

(** ** Spans, counts and shapes *)

Definition exprs_span (exprs : list SpannedExpr) : option Span :=
  match head exprs, list.last exprs with
  | Some first, Some last => Some (mkSpan (start (span first)) (end_ (span last)))
  | _, _ => None
  end.

Fixpoint count_expr (e : Expr) : N :=
  let sum := fix sum (l : list SpannedExpr) : N :=
    match l with
    | [] => 0
    | mkSpanned e' _ :: l' => count_expr e' + sum l'
    end%N in
  (1 + match e with
       | Expr.Block body | Expr.Sequence body => sum body
       | Expr.If then_body else_body => sum then_body + sum else_body
       | Expr.While condition body => sum condition + sum body
       | _ => 0
       end)%N.

Fixpoint count_spanned_exprs (l : list SpannedExpr) : N :=
  match l with
  | [] => 0
  | e :: l' => count_expr (expr e) + count_spanned_exprs l'
  end%N.

Record ExpandedSegment : Type := mkSegment { seg_exprs : list SpannedExpr; seg_span : Span }.

Definition new_segment (exprs : list SpannedExpr) (fallback_span : Span) : ExpandedSegment :=
  mkSegment exprs (default fallback_span (exprs_span exprs)).
Definition single_segment (e : SpannedExpr) : ExpandedSegment := mkSegment [e] (span e).

Definition as_operand (s : ExpandedSegment) : SpannedExpr :=
  match seg_exprs s with
  | [e] => e
  | _ => mkSpanned (Expr.Sequence (seg_exprs s)) (seg_span s)
  end.

Definition string_literal (s : ExpandedSegment) : option (string * Span) :=
  match seg_exprs s with
  | [mkSpanned (Expr.String value) sp] => Some (value, sp)
  | _ => None
  end.

Definition flatten_segments (segments : list ExpandedSegment) : list SpannedExpr := segments ≫= seg_exprs.

Definition flatten_quoted_block (exprs : list SpannedExpr) : list SpannedExpr :=
  match exprs with
  | [mkSpanned (Expr.Sequence sequence) _] => sequence
  | [_] => []
  | _ => exprs
  end.

Definition expr_as_spanned_exprs (e : Expr) (sp : Span) : list SpannedExpr :=
  match e with
  | Expr.Sequence exprs => exprs
  | _ => [mkSpanned e sp]
  end.

Definition expr_from_spanned_exprs (exprs : list SpannedExpr) : Expr :=
  match exprs with
  | [e] => expr e
  | _ => Expr.Sequence exprs
  end.

Definition declaration_item_macro_output_error {A : Type} (sp : Span) : res CompileError A :=
  unsupported [Lit "declaration-item macro output can expand only as a whole item"] sp
    (Some [Lit "place the declaration-generating macro call where it owns a whole item"]).

Definition is_word (word : string) (e : SpannedExpr) : bool :=
  match expr e with Expr.Symbol w => String.eqb w word | _ => false end.

(** ** Rows that declare items *)

Definition function_declaration_row (exprs : list SpannedExpr) (sp : Span) (docs : list string) : option FunctionDecl :=
  match exprs with
  | [mkSpanned (Expr.Block body) _; name; operator] =>
      if is_word "function" operator
      then (fun name => mkFunction name None body docs sp) <$> declaration_name name else None
  | [mkSpanned (Expr.Args args) _; mkSpanned (Expr.Block body) _; name; operator] =>
      if is_word "function" operator
      then (fun name => mkFunction name (Some args) body docs sp) <$> declaration_name name else None
  | _ => None
  end.

(** The body, name and superclass of a row that declares a class. *)
Definition class_row_parts (exprs : list SpannedExpr) : option (list SpannedExpr * string * string) :=
  match exprs with
  | [mkSpanned (Expr.Block body) _; name; superclass; operator] =>
      if is_word "Subclass" operator
      then match declaration_name name, declaration_name superclass with
           | Some name, Some superclass => Some (body, name, superclass)
           | _, _ => None
           end
      else None
  | _ => None
  end.

Definition is_class_declaration_row (exprs : list SpannedExpr) : bool :=
  match class_row_parts exprs with Some _ => true | None => false end.

Definition has_declaration_item_rows (rows : list SpannedExpr) : bool :=
  existsb (fun row =>
    let row_exprs := expr_as_spanned_exprs (expr row) (span row) in
    match function_declaration_row row_exprs (span row) [] with Some _ => true | None => false end
    || is_class_declaration_row row_exprs) rows.

(** [iter().map(f).collect::<Result<Vec<_>, _>>()]. *)
Fixpoint try_map {E A B : Type} (f : A -> res E B) (l : list A) : res E (list B) :=
  match l with
  | [] => Ok []
  | a :: l' => let? b := f a in let? bs := try_map f l' in Ok (b :: bs)
  end.

(** [item_row_to_item] and [class_declaration_row] call each other: a class
    row is turned into a class, rows of its body included, before the context
    refuses it.  [fuel] bounds the nesting of class rows. *)
Fixpoint item_row_to_item (fuel : nat) (row : SpannedExpr) (docs : list string) (context : ItemRowContext) : res CompileError Item :=
  match fuel with
  | O => OutOfFuel
  | S fuel' =>
      let row_exprs := expr_as_spanned_exprs (expr row) (span row) in
      match function_declaration_row row_exprs (span row) docs with
      | Some function =>
          match context with
          | ItemRowContext.TopLevel => Ok (Item.Function function)
          | ItemRowContext.ClassBody => declaration_item_macro_output_error (span row)
          end
      | None =>
          match class_row_parts row_exprs with
          | Some (body, name, superclass) =>
              let? body := try_map (fun row => item_row_to_item fuel' row [] ItemRowContext.ClassBody) body in
              match context with
              | ItemRowContext.TopLevel => Ok (Item.Class (mkClass name superclass body docs (span row)))
              | ItemRowContext.ClassBody => declaration_item_macro_output_error (span row)
              end
          | None => Ok (Item.Expr (expr row) (span row) docs)
          end
      end
  end.

(** The documentation goes to the first item.  Class rows nest less deep than
    the rows have nodes. *)
Definition item_rows_to_items (rows : list SpannedExpr) (docs : list string) (context : ItemRowContext) : res CompileError (list Item) :=
  match rows with
  | [] => Ok []
  | row :: rows' =>
      let fuel := S (exprs_size rows) in
      let? item := item_row_to_item fuel row docs context in
      let? items := try_map (fun row => item_row_to_item fuel row [] context) rows' in Ok (item :: items)
  end.

Definition class_body_item_to_row (item : Item) : res CompileError SpannedExpr :=
  match item with
  | Item.Expr e sp _ => Ok (mkSpanned e sp)
  | Item.Function function => declaration_item_macro_output_error (function_span function)
  | Item.Class (mkClass _ _ _ _ sp) => declaration_item_macro_output_error sp
  | Item.Method m =>
      unsupported [Lit "generated method declaration "; Disp (method_name m)] (method_span m)
        (Some [Lit "emit class-body Method rows like `[ body ] "; quote_mark; Lit "name"; quote_mark; Lit " Method` from quote_items"])
  | Item.Macro m =>
      unsupported [Lit "generated class-body macro declaration "; Dbg (macro_name m)] (macro_span m)
        (Some [Lit "declare compile-time macros at top level before expansion"])
  end.

(** ** The evaluator of macro bodies *)

Module MacroValue.
Inductive MacroValue : Type :=
  | Ast (e : SpannedExpr) | AstList (exprs : list SpannedExpr) | ItemList (rows : list SpannedExpr)
  | QuotedBlock (body : list SpannedExpr) | String | Number | Float | Bool | Nil.
End MacroValue.
Abbreviation MacroValue := MacroValue.MacroValue.

(** The top of the stack first. *)
Record MacroEvaluator : Type := mkEvaluator { eval_stack : list MacroValue; steps : N }.
Abbreviation EV := (stm MacroEvaluator CompileError).

Definition new_evaluator : MacroEvaluator := mkEvaluator [] 0.

Definition push_value (v : MacroValue) : EV unit := smodify (fun s => mkEvaluator (v :: eval_stack s) (steps s)).

Definition bump (sp : Span) : EV unit :=
  smodify (fun s => mkEvaluator (eval_stack s) (steps s + 1)) ;;
  let* s := sget in
  if (MAX_MACRO_EVALUATOR_STEPS <? steps s)%N
  then slift (unsupported [Lit "macro evaluator step limit "; DispN MAX_MACRO_EVALUATOR_STEPS; Lit " exceeded"] sp
                (Some [Lit "simplify the compile-time macro body"]))
  else sret tt.

Definition fail_unallowlisted (word : string) (sp : Span) : EV unit :=
  slift (unsupported [Lit "compile-time macro body used unallowlisted word "; Dbg word] sp
           (Some [Lit "macro bodies are fail-closed and cannot call runtime words or host capabilities"])).

Definition splice_reference_error {A : Type} (sp : Span) : EV A :=
  slift (unsupported [Lit "ast_splice requires a macro argument reference immediately before it"] sp
           (Some [Lit "use $arg ast_splice inside quote_ast output"])).

Section evaluator.
Context (bindings : btree SpannedExpr).

(** [quote_expr] of the expressions, pairs with [ast_splice] replaced. *)
Definition quote_exprs_with (quote_expr : Expr -> Span -> EV SpannedExpr) : list SpannedExpr -> EV (list SpannedExpr) :=
  fix quote_exprs (l : list SpannedExpr) : EV (list SpannedExpr) :=
    match l with
    | [] => sret []
    | mkSpanned e sp :: l' =>
        match l' with
        | next :: rest =>
            if is_word "ast_splice" next then
              match e with
              | Expr.Reference name =>
                  match bt_get name bindings with
                  | None =>
                      slift (unsupported [Lit "unknown compile-time macro argument $"; Disp name] sp
                               (Some [Lit "declare the argument in the macro Args input list before splicing it"]))
                  | Some value =>
                      bump (span next) ;;
                      let* es := quote_exprs rest in sret (value :: es)
                  end
              | _ => splice_reference_error (span next)
              end
            else
              let* e := quote_expr e sp in
              let* es := quote_exprs l' in sret (e :: es)
        | [] =>
            let* e := quote_expr e sp in
            let* es := quote_exprs l' in sret (e :: es)
        end
    end.

Fixpoint quote_ast_expr (e : Expr) (sp : Span) : EV SpannedExpr :=
  bump sp ;;
  match e with
  | Expr.Block body => let* body := quote_exprs_with quote_ast_expr body in sret (mkSpanned (Expr.Block body) sp)
  | Expr.Sequence exprs => let* exprs := quote_exprs_with quote_ast_expr exprs in sret (mkSpanned (Expr.Sequence exprs) sp)
  | Expr.If then_body else_body =>
      let* then_body := quote_exprs_with quote_ast_expr then_body in
      let* else_body := quote_exprs_with quote_ast_expr else_body in
      sret (mkSpanned (Expr.If then_body else_body) sp)
  | Expr.While condition body =>
      let* condition := quote_exprs_with quote_ast_expr condition in
      let* body := quote_exprs_with quote_ast_expr body in
      sret (mkSpanned (Expr.While condition body) sp)
  | Expr.Symbol word => if String.eqb word "ast_splice" then splice_reference_error sp else sret (mkSpanned e sp)
  | _ => sret (mkSpanned e sp)
  end.

Definition quote_ast_exprs : list SpannedExpr -> EV (list SpannedExpr) := quote_exprs_with quote_ast_expr.

(** Pops the block that [quote_ast] and [quote_items] quote. *)
Definition pop_quoted_block (word : string) (sp : Span) : EV (list SpannedExpr) :=
  let* s := sget in
  let help := Some [Lit "place a block literal immediately before "; Lit word] in
  match eval_stack s with
  | [] => slift (unsupported [Lit word; Lit " requires a quoted block"] sp help)
  | value :: rest =>
      sput (mkEvaluator rest (steps s)) ;;
      match value with
      | MacroValue.QuotedBlock body => sret body
      | _ => slift (unsupported [Lit word; Lit " can only convert quoted block literals"] sp help)
      end
  end.

Definition eval_quote_ast (sp : Span) : EV unit :=
  let* body := pop_quoted_block "quote_ast" sp in
  let* quoted := quote_ast_exprs body in
  push_value (MacroValue.AstList (flatten_quoted_block quoted)).

Definition eval_quote_items (sp : Span) : EV unit :=
  let* body := pop_quoted_block "quote_items" sp in
  let* quoted := quote_ast_exprs body in
  push_value (MacroValue.ItemList quoted).

Definition eval_symbol (word : string) (sp : Span) : EV unit :=
  if String.eqb word "quote_ast" then eval_quote_ast sp
  else if String.eqb word "quote_items" then eval_quote_items sp
  else if String.eqb word "true" || String.eqb word "false" then push_value MacroValue.Bool
  else if String.eqb word "nil" then push_value MacroValue.Nil
  else fail_unallowlisted word sp.

Definition eval_exprs_with (eval : Expr -> Span -> Span -> EV unit) (default_span : Span) : list SpannedExpr -> EV unit :=
  fix eval_exprs (l : list SpannedExpr) : EV unit :=
    match l with
    | [] => sret tt
    | mkSpanned e sp :: l' => eval e sp default_span ;; eval_exprs l'
    end.

Fixpoint eval_expr (e : Expr) (sp default_span : Span) : EV unit :=
  bump sp ;;
  match e with
  | Expr.Sequence exprs => eval_exprs_with eval_expr sp exprs
  | Expr.Block body => push_value (MacroValue.QuotedBlock body)
  | Expr.Reference name =>
      match bt_get name bindings with
      | None =>
          slift (unsupported [Lit "unknown compile-time macro argument $"; Disp name] sp
                   (Some [Lit "macro bodies can read only declared macro arguments in this slice"]))
      | Some value => push_value (MacroValue.Ast value)
      end
  | Expr.String _ => push_value MacroValue.String
  | Expr.Number _ => push_value MacroValue.Number
  | Expr.Float _ => push_value MacroValue.Float
  | Expr.Symbol word => eval_symbol word sp
  | Expr.DotWord word => fail_unallowlisted word sp
  | Expr.Args _ =>
      slift (unsupported [Lit "argument declarations are not supported inside compile-time macro bodies"] sp None)
  | Expr.If _ _ | Expr.While _ _ =>
      slift (unsupported [Lit "control flow is not supported inside compile-time macro bodies in this slice"]
               (if start sp =? end_ sp then default_span else sp)
               (Some [Lit "use quote_ast to emit runtime control flow instead"]))
  end.

Definition evaluate (macro_def : MacroDefinition) : EV MacroExpansionOutput :=
  eval_exprs_with eval_expr (def_span macro_def) (def_body macro_def) ;;
  let* s := sget in
  match eval_stack s with
  | [] =>
      slift (unsupported [Lit "compile-time macro "; Dbg (def_name macro_def); Lit " did not produce quoted AST"] (def_span macro_def)
               (Some [Lit "end the macro body with a quoted block followed by quote_ast"]))
  | value :: rest =>
      sput (mkEvaluator rest (steps s)) ;;
      match rest with
      | _ :: _ =>
          slift (unsupported [Lit "compile-time macro "; Dbg (def_name macro_def); Lit " left extra values on the evaluator stack"]
                   (def_span macro_def) (Some [Lit "return exactly one quoted AST value from the macro body"]))
      | [] =>
          match value with
          | MacroValue.AstList exprs => sret (MacroOutput.Exprs exprs)
          | MacroValue.Ast e => sret (MacroOutput.Exprs [e])
          | MacroValue.ItemList rows => sret (MacroOutput.Items rows)
          | _ =>
              slift (unsupported [Lit "compile-time macro "; Dbg (def_name macro_def); Lit " returned a scalar instead of quoted AST"]
                       (def_span macro_def) (Some [Lit "use quote_ast to turn a quoted block into expansion AST"]))
          end
      end
  end.
End evaluator.
