(* ===== verification/Expander.v ===== *)
(** * The macro expander: resolution and expansion

    [crates/ricochet_compiler/src/compiler.rs], [MacroExpander] and the
    functions around it.  A call is expanded in a context one level deeper, and
    the source refuses level 32, so the mutual recursion is indexed by the
    levels that are left; within a level it is structural. *)

From stdpp Require Import base tactics list strings option numbers.
From Stdlib Require Import ZArith NArith Lia Ascii String.
From S2P Require Import Prelude RustStr RustText RustFloat BTree Syntax Lexer Parser Diagnostic Bytecode Compiler Macro.

Open Scope string_scope.
Open Scope list_scope.
Open Scope nat_scope.

(** ** Definitions and tables *)

Definition from_decl (module_id : string) (m : MacroDecl) : MacroDefinition :=
  mkDefinition module_id None (macro_name m)
    (match macro_args m with Some args => inputs args | None => [] end)
    (match macro_args m with Some args => outputs args | None => [] end)
    (macro_docs m) (macro_body m) (macro_span m).

Definition def_with_import_specifier (import_specifier : string) (d : MacroDefinition) : MacroDefinition :=
  mkDefinition (def_module_id d) (Some import_specifier) (def_name d) (def_inputs d) (def_outputs d) (def_docs d) (def_body d) (def_span d).
Definition def_with_module_id (module_id : string) (d : MacroDefinition) : MacroDefinition :=
  mkDefinition module_id (def_import_specifier d) (def_name d) (def_inputs d) (def_outputs d) (def_docs d) (def_body d) (def_span d).

Definition stack_key (d : MacroDefinition) : string := (def_module_id d ++ "#" ++ def_name d)%string.

Fixpoint collect_from (module_id : string) (macros : btree MacroDefinition) (l : list Item) : res CompileError (btree MacroDefinition) :=
  match l with
  | [] => Ok macros
  | Item.Macro m :: l' =>
      if contains_byte "#" (macro_name m) then
        unsupported [Lit "compile-time macro name "; Dbg (macro_name m); Lit " cannot contain #"] (macro_span m)
          (Some [Lit "# is reserved for qualified macro calls like "; quote_mark; Lit "module#macro"; quote_mark; Lit " macro_call"])
      else if bt_contains_key (macro_name m) macros then
        unsupported [Lit "ambiguous compile-time macro "; Dbg (macro_name m); Lit ": duplicate local declarations"] (macro_span m)
          (Some [Lit "keep one local macro declaration for each macro name in this file"])
      else collect_from module_id (bt_insert (macro_name m) (from_decl module_id m) macros) l'
  | _ :: l' => collect_from module_id macros l'
  end.

Definition collect_macro_definitions (module_id : string) (m : Module_) : res CompileError (btree MacroDefinition) :=
  collect_from module_id [] (items m).

Definition exported_macro_subset (macros : btree MacroDefinition) : btree MacroDefinition :=
  List.filter (fun kv => negb (starts_with "_" kv.1)) macros.

Definition macro_summary (d : MacroDefinition) : MacroSummary :=
  mkMacroSummary (def_name d) (def_inputs d) (def_outputs d) (def_docs d) (def_span d) (exprs_span (def_body d)).

(** [left.name.cmp(&right.name)] *)
Definition compare_summaries (x y : MacroSummary) : comparison := String.compare (sum_name x) (sum_name y).

Definition macro_table_summary (module_id : string) (import_specifier : option string) (macros : btree MacroDefinition)
    (hash : string) (kind : MacroSourceKind) (package : option MacroPackageMetadata) (len : nat) (line_starts : list nat) : MacroTableSummary :=
  mkTableSummary module_id import_specifier (sort_by compare_summaries (macro_summary <$> bt_values macros)) hash kind package len line_starts.

Definition bt_map {A B : Type} (f : A -> B) (m : btree A) : btree B := (fun kv => (kv.1, f kv.2)) <$> m.

Definition with_import_specifier (specifier : string) (t : ImportedMacroTable) : ImportedMacroTable :=
  mkTable specifier (table_module_id t) (bt_map (def_with_import_specifier specifier) (exported_macros t))
    (bt_map (def_with_import_specifier specifier) (table_local_macros t)) (table_imported_macros t) (table_source_hash t)
    (table_source_kind t) (table_package t) (table_source_len t) (table_line_starts t).

Definition with_source_identity (module_id source_hash : string) (kind : MacroSourceKind) (package : option MacroPackageMetadata)
    (t : ImportedMacroTable) : ImportedMacroTable :=
  mkTable (import_specifier t) module_id (bt_map (def_with_module_id module_id) (exported_macros t))
    (bt_map (def_with_module_id module_id) (table_local_macros t)) (table_imported_macros t) source_hash kind package
    (table_source_len t) (table_line_starts t).

Definition table_summary (t : ImportedMacroTable) : MacroTableSummary :=
  macro_table_summary (table_module_id t) (Some (import_specifier t)) (exported_macros t) (table_source_hash t) (table_source_kind t)
    (table_package t) (table_source_len t) (table_line_starts t).

Definition table_get (name : string) (t : ImportedMacroTable) : option MacroDefinition := bt_get name (exported_macros t).

Definition definition_scope (t : ImportedMacroTable) : MacroScope :=
  mkScope (table_module_id t) (table_local_macros t) (table_imported_macros t).

Definition normalize_module_id (module_id : string) : string :=
  let module_id := from_bytes ((fun b => if Ascii.eqb b "\" then "/"%char else b) <$> as_bytes module_id) in
  if String.eqb module_id "" then "<source>" else module_id.

(** SHA-256. *)
Class Sha256 : Type := sha256 : list byte -> list byte.

Definition hex_nibble (n : N) : byte := nth (N.to_nat n) (as_bytes "0123456789abcdef") "0"%char.

Definition sha256_text `{Sha256} (source : string) : string :=
  ("sha256:" ++ from_bytes (flat_map (fun b => [hex_nibble (byte_val b / 16); hex_nibble (byte_val b mod 16)]) (sha256 (as_bytes source))))%string.

(** One character for each: a continuation byte belongs to the one before. *)
Definition trace_component (value : string) : string :=
  from_bytes ((fun b => if is_ascii_alphanumeric b || Ascii.eqb b "_" || Ascii.eqb b "-" then b else "_"%char)
                <$> List.filter (fun b => negb (is_cont b)) (as_bytes value)).

Definition trace_id (d : MacroDefinition) (sp : Span) (depth : nat) : string :=
  ("macro:" ++ trace_component (def_module_id d) ++ ":" ++ trace_component (def_name d) ++ ":depth" ++ show_N (N.of_nat depth)
   ++ ":" ++ show_N (N.of_nat (start sp)) ++ "-" ++ show_N (N.of_nat (end_ sp)))%string.

(** ** Resolution *)

Definition available_import_specifiers (s : MacroScope) : msg :=
  match scope_imported_macros s with
  | [] => []
  | t :: ts => Dbg (import_specifier t) :: (ts ≫= fun t => [Lit ", "; Dbg (import_specifier t)])
  end.

Definition comma_separated {A : Type} (f : A -> msg) (l : list A) : msg :=
  match l with
  | [] => []
  | a :: l' => f a ++ (l' ≫= fun a => Lit ", " :: f a)
  end.

Definition resolve_qualified_macro (s : MacroScope) (qualifier name : string) (sp : Span) : res CompileError MacroDefinition :=
  if String.eqb qualifier "" || String.eqb name "" then
    unsupported [Lit "qualified compile-time macro calls must use <import-specifier>#<macro-name>"] sp
      (Some [Lit "use "; quote_mark; Lit "self#name"; quote_mark; Lit " or "; quote_mark; Lit "import/specifier#name"; quote_mark;
             Lit " before macro_call"])
  else if String.eqb qualifier "self" then
    match bt_get name (scope_local_macros s) with
    | Some d => Ok d
    | None =>
        unsupported [Lit "unknown local compile-time macro "; Dbg name; Lit " in qualified macro call"] sp
          (Some [Lit "declare a local top-level macro with that name before using "; quote_mark; Lit "self#name"; quote_mark])
    end
  else
    match List.filter (fun t => String.eqb (import_specifier t) qualifier) (scope_imported_macros s) with
    | [] =>
        unsupported [Lit "unknown macro import specifier "; Dbg qualifier; Lit " in qualified macro call"] sp
          (Some (match scope_imported_macros s with
                 | [] => [Lit "add a static import before invoking an imported macro"]
                 | _ => Lit "available macro import specifiers: " :: available_import_specifiers s
                 end))
    | [table] =>
        match table_get name table with
        | Some d => Ok d
        | None =>
            unsupported [Lit "import "; Dbg qualifier; Lit " does not export compile-time macro "; Dbg name] sp
              (Some [Lit "check the top-level Macro declarations exported by "; Dbg qualifier])
        end
    | tables =>
        unsupported ([Lit "ambiguous macro import specifier "; Dbg qualifier; Lit ": it resolves to "]
                     ++ comma_separated (fun t => [Disp (table_module_id t)]) tables) sp
          (Some [Lit "keep one static import for each qualified macro specifier"])
    end.

(** The tables that export a macro, with it. *)
Definition imported_matches (s : MacroScope) (name : string) : list (ImportedMacroTable * MacroDefinition) :=
  omap (fun t => (fun d => (t, d)) <$> table_get name t) (scope_imported_macros s).

Definition resolve_macro (s : MacroScope) (name : string) (sp : Span) : res CompileError MacroDefinition :=
  match rsplit_once "#" (as_bytes name) with
  | Some (qualifier, macro_name) => resolve_qualified_macro s (from_bytes qualifier) (from_bytes macro_name) sp
  | None =>
      match bt_get name (scope_local_macros s) with
      | Some d => Ok d
      | None =>
          match imported_matches s name with
          | [] =>
              unsupported [Lit "unknown compile-time macro "; Dbg name] sp
                (Some [Lit "declare a local top-level macro or import exactly one module exporting that macro"])
          | [(_, d)] => Ok d
          | matches =>
              unsupported ([Lit "ambiguous imported compile-time macro "; Dbg name; Lit ": exported by "]
                           ++ comma_separated (fun td => [Dbg (import_specifier td.1); Lit " from "; Disp (table_module_id td.1)]) matches) sp
                (Some [Lit "use "; quote_mark; Lit "<import-specifier>#"; Disp name; quote_mark;
                       Lit " macro_call or declare a local macro named "; Dbg name])
          end
      end
  end.

(** ** The state *)

(** The expander, and the [stack] that its methods hand on; its top is the
    head. *)
Record ExpansionState : Type := mkState { expander : MacroExpander; call_stack : list string }.
Abbreviation X := (stm ExpansionState CompileError).

Definition set_expander (f : MacroExpander -> MacroExpander) (s : ExpansionState) : ExpansionState := mkState (f (expander s)) (call_stack s).
Definition set_call_stack (f : list string -> list string) (s : ExpansionState) : ExpansionState := mkState (expander s) (f (call_stack s)).

Definition set_generated (n : N) (e : MacroExpander) : MacroExpander :=
  mkExpander (module_id e) (source_hash e) (source_kind e) (package e) (source_len e) (macro_line_starts e) (local_macros e)
    (imported_macros e) n (trace e).
Definition push_trace (t : MacroExpansionTraceEntry) (e : MacroExpander) : MacroExpander :=
  mkExpander (module_id e) (source_hash e) (source_kind e) (package e) (source_len e) (macro_line_starts e) (local_macros e)
    (imported_macros e) (generated_ast_nodes e) (trace e ++ [t]).

Definition root_scope (e : MacroExpander) : MacroScope := mkScope (module_id e) (local_macros e) (imported_macros e).

Definition record_generated_nodes (exprs : list SpannedExpr) (sp : Span) : X unit :=
  smodify (set_expander (fun e => set_generated (generated_ast_nodes e + count_spanned_exprs exprs) e)) ;;
  let* s := sget in
  if (MAX_GENERATED_AST_NODES <? generated_ast_nodes (expander s))%N
  then slift (unsupported [Lit "generated macro AST node limit "; DispN MAX_GENERATED_AST_NODES; Lit " exceeded"] sp
                (Some [Lit "reduce macro expansion output for this source file"]))
  else sret tt.

Definition option_string_eqb (a b : option string) : bool :=
  match a, b with
  | Some a, Some b => String.eqb a b
  | None, None => true
  | _, _ => false
  end.

Definition scope_for_macro_definition (e : MacroExpander) (d : MacroDefinition) (current : MacroScope) : res CompileError MacroScope :=
  match def_import_specifier d with
  | None => Ok (root_scope e)
  | Some specifier =>
      if match bt_get (def_name d) (scope_local_macros current) with
         | Some candidate =>
             String.eqb (def_module_id candidate) (def_module_id d)
             && option_string_eqb (def_import_specifier candidate) (def_import_specifier d)
         | None => false
         end
      then Ok current
      else
        match List.find (fun t => String.eqb (import_specifier t) specifier && String.eqb (table_module_id t) (def_module_id d))
                (scope_imported_macros current) with
        | Some table => Ok (definition_scope table)
        | None =>
            unsupported [Lit "missing compile-time macro definition scope for "; Dbg specifier; Lit "#"; Disp (def_name d)] (def_span d)
              (Some [Lit "rebuild the macro import table for this source file"])
        end
  end.

(** ** Expansion *)

Definition is_macro_call : SpannedExpr -> bool := is_word "macro_call".

(** [bindings.insert(..)] for each input and its operand. *)
Definition bind_inputs (names : list string) (operands : list SpannedExpr) : btree SpannedExpr :=
  foldl (fun m kv => bt_insert kv.1 kv.2 m) [] (zip names operands).

Section level.
(** [expand_exprs] and [expand_item_rows] one level deeper. *)
Context (deeper_exprs : MacroScope -> list SpannedExpr -> X (list SpannedExpr)).
Context (deeper_rows : MacroScope -> list SpannedExpr -> X (list SpannedExpr)).
Context (depth : nat) (scope : MacroScope).

(** The result, and what is left of [output]. *)
Definition evaluate_macro_call (call_span : Span) (output : list ExpandedSegment) : X (MacroExpansionOutput * list ExpandedSegment) :=
  match list.last output with
  | None =>
      slift (unsupported [Lit "macro_call requires a literal macro name immediately before it"] call_span
               (Some [Lit "use MacroOperand* "; quote_mark; Lit "name"; quote_mark; Lit " macro_call"]))
  | Some name_segment =>
      match string_literal name_segment with
      | None =>
          slift (unsupported [Lit "nonliteral compile-time macro names are not supported"] (seg_span name_segment)
                   (Some [Lit "use a string literal macro name before macro_call"]))
      | Some (name, name_span) =>
          let* d := slift (resolve_macro scope name name_span) in
          if MAX_MACRO_EXPANSION_DEPTH <=? depth then
            slift (unsupported [Lit "macro expansion depth limit "; DispN (N.of_nat MAX_MACRO_EXPANSION_DEPTH);
                                Lit " exceeded while expanding "; Dbg (def_name d)] name_span
                     (Some [Lit "shorten the macro expansion chain or remove recursive expansion"]))
          else
            let* s := sget in
            let same_macro_depth := length (List.filter (String.eqb (stack_key d)) (call_stack s)) in
            if MAX_SAME_MACRO_RECURSION <=? same_macro_depth then
              slift (unsupported [Lit "same-macro recursion limit "; DispN (N.of_nat MAX_SAME_MACRO_RECURSION);
                                  Lit " exceeded while expanding "; Dbg (def_name d)] name_span
                       (Some [Lit "make the macro expansion terminate before recursively invoking itself"]))
            else
              let arg_count := length (def_inputs d) in
              if length output <? arg_count + 1 then
                slift (unsupported [Lit "compile-time macro "; Dbg (def_name d); Lit " expected "; DispN (N.of_nat arg_count);
                                    Lit " operand(s), but invocation has fewer"] name_span
                         (Some [Lit "place the macro operands immediately before the literal macro name"]))
              else
                let operand_start := length output - 1 - arg_count in
                let operands := as_operand <$> sub output operand_start (length output - 1) in
                let output := take operand_start output in
                let bindings := bind_inputs (def_inputs d) operands in
                smodify (set_call_stack (cons (stack_key d))) ;;
                let* expansion := slift (let? (expansion, _) := evaluate bindings d new_evaluator in Ok expansion) in
                record_generated_nodes (output_exprs expansion) name_span ;;
                let* s := sget in
                let* expansion_scope := slift (scope_for_macro_definition (expander s) d scope) in
                let* expansion :=
                  match expansion with
                  | MacroOutput.Exprs exprs => let* exprs := deeper_exprs expansion_scope exprs in sret (MacroOutput.Exprs exprs)
                  | MacroOutput.Items rows => let* rows := deeper_rows expansion_scope rows in sret (MacroOutput.Items rows)
                  end in
                smodify (set_expander (push_trace (mkTrace (trace_id d call_span depth) (scope_module_id scope) (def_module_id d)
                  (def_import_specifier d) (def_name d) call_span name_span (def_span d) depth arg_count
                  (count_spanned_exprs (output_exprs expansion))))) ;;
                smodify (set_call_stack tail) ;;
                sret (expansion, output)
      end
  end.

Definition expand_macro_call (call_span : Span) (output : list ExpandedSegment) : X (list ExpandedSegment) :=
  let* (expansion, output) := evaluate_macro_call call_span output in
  match expansion with
  | MacroOutput.Exprs exprs => sret (output ++ [new_segment exprs call_span])
  | MacroOutput.Items rows =>
      if has_declaration_item_rows rows then slift (declaration_item_macro_output_error call_span)
      else slift (unsupported [Lit "quote_items macros can expand only as whole items"] call_span
                    (Some [Lit "use quote_ast for expression-position macro expansion"]))
  end.

Definition expand_exprs_with (expand_expr : Expr -> X Expr) : list ExpandedSegment -> list SpannedExpr -> X (list SpannedExpr) :=
  fix expand_exprs (output : list ExpandedSegment) (l : list SpannedExpr) : X (list SpannedExpr) :=
    match l with
    | [] => sret (flatten_segments output)
    | mkSpanned e sp :: l' =>
        if is_macro_call (mkSpanned e sp)
        then let* output := expand_macro_call sp output in expand_exprs output l'
        else let* e := expand_expr e in expand_exprs (output ++ [single_segment (mkSpanned e sp)]) l'
    end.

Fixpoint expand_expr (e : Expr) : X Expr :=
  match e with
  | Expr.Block body => let* body := expand_exprs_with expand_expr [] body in sret (Expr.Block body)
  | Expr.Sequence exprs => let* exprs := expand_exprs_with expand_expr [] exprs in sret (Expr.Sequence exprs)
  | Expr.If then_body else_body =>
      let* then_body := expand_exprs_with expand_expr [] then_body in
      let* else_body := expand_exprs_with expand_expr [] else_body in
      sret (Expr.If then_body else_body)
  | Expr.While condition body =>
      let* condition := expand_exprs_with expand_expr [] condition in
      let* body := expand_exprs_with expand_expr [] body in
      sret (Expr.While condition body)
  | _ => sret e
  end.

Definition expand_exprs : list SpannedExpr -> X (list SpannedExpr) := expand_exprs_with expand_expr [].

(** The loop of [expand_expr_item] over what is left of the expressions. *)
Fixpoint expand_item_from (sp : Span) (docs : list string) (context : ItemRowContext) (output : list ExpandedSegment)
    (l : list SpannedExpr) : X (list Item) :=
  match l with
  | [] => sret [Item.Expr (expr_from_spanned_exprs (flatten_segments output)) sp docs]
  | e :: l' =>
      if is_macro_call e then
        let* (expansion, output) := evaluate_macro_call (span e) output in
        match expansion with
        | MacroOutput.Exprs exprs => expand_item_from sp docs context (output ++ [new_segment exprs (span e)]) l'
        | MacroOutput.Items rows =>
            match l', output with
            | [], [] => slift (item_rows_to_items rows docs context)
            | _, _ =>
                if has_declaration_item_rows rows then slift (declaration_item_macro_output_error (span e))
                else slift (unsupported [Lit "quote_items macros must be the entire expression item"] (span e)
                       (Some [Lit "place operands, the macro name, and macro_call in one item with no surrounding expressions"]))
            end
        end
      else
        let* e' := expand_expr (expr e) in
        expand_item_from sp docs context (output ++ [single_segment (mkSpanned e' (span e))]) l'
  end.

Definition expand_expr_item (e : Expr) (sp : Span) (docs : list string) (context : ItemRowContext) : X (list Item) :=
  expand_item_from sp docs context [] (expr_as_spanned_exprs e sp).

Fixpoint expand_class_body_item_rows (rows : list SpannedExpr) : X (list SpannedExpr) :=
  match rows with
  | [] => sret []
  | row :: rows' =>
      let* items := expand_expr_item (expr row) (span row) [] ItemRowContext.ClassBody in
      let* expanded := slift (try_map class_body_item_to_row items) in
      let* rest := expand_class_body_item_rows rows' in
      sret (expanded ++ rest)
  end.

Definition expand_class_declaration_item_row (exprs : list SpannedExpr) (sp : Span) : X (option SpannedExpr) :=
  match exprs with
  | [mkSpanned (Expr.Block body_rows) body_span; name; superclass; operator] =>
      if is_class_declaration_row exprs then
        let* expanded_body := expand_class_body_item_rows body_rows in
        sret (Some (mkSpanned (Expr.Sequence [mkSpanned (Expr.Block expanded_body) body_span; name; superclass; operator]) sp))
      else sret None
  | _ => sret None
  end.

Fixpoint expand_item_rows (rows : list SpannedExpr) : X (list SpannedExpr) :=
  match rows with
  | [] => sret []
  | row :: rows' =>
      let row_exprs := expr_as_spanned_exprs (expr row) (span row) in
      let* expanded_row := expand_class_declaration_item_row row_exprs (span row) in
      let* expanded_row :=
        match expanded_row with
        | Some expanded_row => sret expanded_row
        | None => let* row_exprs := expand_exprs row_exprs in sret (mkSpanned (expr_from_spanned_exprs row_exprs) (span row))
        end in
      let* rest := expand_item_rows rows' in
      sret (expanded_row :: rest)
  end.
End level.

(** The expansion with [levels] levels left below the limit. *)
Fixpoint exprs_at (levels : nat) (scope : MacroScope) (exprs : list SpannedExpr) : X (list SpannedExpr) :=
  match levels with
  | O => sfuel
  | S levels' => expand_exprs (exprs_at levels') (rows_at levels') (MAX_MACRO_EXPANSION_DEPTH - levels') scope exprs
  end
with rows_at (levels : nat) (scope : MacroScope) (rows : list SpannedExpr) : X (list SpannedExpr) :=
  match levels with
  | O => sfuel
  | S levels' => expand_item_rows (exprs_at levels') (rows_at levels') (MAX_MACRO_EXPANSION_DEPTH - levels') scope rows
  end.

Definition top_levels : nat := S MAX_MACRO_EXPANSION_DEPTH.

(** At depth 0. *)
Definition expand_body (scope : MacroScope) (exprs : list SpannedExpr) : X (list SpannedExpr) := exprs_at top_levels scope exprs.
Definition expand_item (scope : MacroScope) (e : Expr) (sp : Span) (docs : list string) (context : ItemRowContext) : X (list Item) :=
  expand_expr_item (exprs_at MAX_MACRO_EXPANSION_DEPTH) (rows_at MAX_MACRO_EXPANSION_DEPTH) 0 scope e sp docs context.

(** ** Items and modules *)

Definition expand_method (scope : MacroScope) (m : MethodDecl) : X MethodDecl :=
  let* body := expand_body scope (method_body m) in
  sret (mkMethod (method_name m) (method_args m) body (method_docs m) (method_span m)).

Definition expand_function (scope : MacroScope) (f : FunctionDecl) : X FunctionDecl :=
  let* body := expand_body scope (function_body f) in
  sret (mkFunction (function_name f) (function_args f) body (function_docs f) (function_span f)).

Fixpoint expand_class_body_item (scope : MacroScope) (item : Item) : X (list Item) :=
  match item with
  | Item.Macro m =>
      slift (unsupported [Lit "macro declarations are only supported at top level in this local macro slice"] (macro_span m)
               (Some [Lit "move the macro declaration to the top level of the file and invoke it from the class body"]))
  | Item.Class (mkClass name superclass body docs sp) =>
      let* body :=
        (fix expand_all (l : list Item) : X (list Item) :=
           match l with
           | [] => sret []
           | item :: l' =>
               let* items := expand_class_body_item scope item in
               let* rest := expand_all l' in sret (items ++ rest)
           end) body in
      sret [Item.Class (mkClass name superclass body docs sp)]
  | Item.Method m => let* m := expand_method scope m in sret [Item.Method m]
  | Item.Function f => let* f := expand_function scope f in sret [Item.Function f]
  | Item.Expr e sp docs => expand_item scope e sp docs ItemRowContext.ClassBody
  end.

(** A class is expanded in the same way at the top level and in a class. *)
Definition expand_top_level_item (scope : MacroScope) (item : Item) : X (list Item) :=
  match item with
  | Item.Macro _ => sret []
  | Item.Expr e sp docs => expand_item scope e sp docs ItemRowContext.TopLevel
  | _ => expand_class_body_item scope item
  end.

Fixpoint expand_items (scope : MacroScope) (l : list Item) : X (list Item) :=
  match l with
  | [] => sret []
  | item :: l' =>
      let* items := expand_top_level_item scope item in
      let* rest := expand_items scope l' in sret (items ++ rest)
  end.

Definition expand_module_items (m : Module_) : X Module_ :=
  let* s := sget in
  let* items := expand_items (root_scope (expander s)) (items m) in
  sret (mkModule items).

Section source.
Context `{Sha256}.

Definition new_expander (module_id : string) (m : Module_) (source : string) (imported : list ImportedMacroTable)
    : res CompileError MacroExpander :=
  let? local := collect_macro_definitions module_id m in
  Ok (mkExpander module_id (sha256_text source) MacroSourceKind.Local None (String.length source) (line_starts source) local
        imported 0 []).

Definition macro_table_summaries (e : MacroExpander) : list MacroTableSummary :=
  macro_table_summary (module_id e) None (local_macros e) (source_hash e) (source_kind e) (package e) (source_len e) (macro_line_starts e)
  :: (table_summary <$> imported_macros e).

Definition import_summaries (e : MacroExpander) : list MacroImportSummary :=
  (fun t => mkImportSummary (import_specifier t) (table_module_id t)) <$> imported_macros e.

Definition finish_expansion (e : MacroExpander) (m : Module_) : MacroExpansion :=
  mkExpansion (module_id e) m (import_summaries e) (macro_table_summaries e) (trace e).

Definition expand_module (module_id : string) (m : Module_) (source : string) (imported : list ImportedMacroTable)
    : res CompileError MacroExpansion :=
  let module_id := normalize_module_id module_id in
  let? e := new_expander module_id m source imported in
  let? (m, s) := expand_module_items m (mkState e []) in
  Ok (finish_expansion (expander s) m).
End source.

(** ** From source *)

Section from_source.
Context `{Sha256}.

Definition parse_source (source : string) : res CompileError Module_ := rmap_err CompileError.Parse (parse_module source).

Definition expand_source (module_id source : string) (imported : list ImportedMacroTable) : res CompileError MacroExpansion :=
  let? m := parse_source source in expand_module module_id m source imported.

Definition exported_macro_table (module_id : string) (m : Module_) (source : string) (imported : list ImportedMacroTable)
    : res CompileError ImportedMacroTable :=
  let module_id := normalize_module_id module_id in
  let? local := collect_macro_definitions module_id m in
  Ok (mkTable "" module_id (exported_macro_subset local) local imported (sha256_text source) MacroSourceKind.Local None
        (String.length source) (line_starts source)).

Definition exported_macro_table_from_source (module_id source : string) (imported : list ImportedMacroTable)
    : res CompileError ImportedMacroTable :=
  let? m := parse_source source in exported_macro_table module_id m source imported.

Definition compile_source (file module_id source : string) (imported : list ImportedMacroTable) : res CompileError Chunk :=
  let? expansion := expand_source module_id source imported in
  lower_module file source (exp_module expansion).
End from_source.

(** ** Examples *)

#[local] Instance no_hash : Sha256 := fun _ => [].

Definition compiled_ops (source : string) : option (list Op) :=
  match compile_source "f" "f" source [] with Ok c => Some (ops c) | _ => None end.

(** The text with each [~] read as a quotation mark. *)
Definition quoted (s : string) : string :=
  from_bytes ((fun b => if Ascii.eqb b "~" then "034"%char else b) <$> as_bytes s).

Example expands_operands :
  compiled_ops (quoted "~double~ Macro ( value -> expansion ) [ [ $value ast_splice $value ast_splice + ] quote_ast ] end
$total ~double~ macro_call")
  = Some [Op.PushString "total"; Op.CallWord "get"; Op.PushString "total"; Op.CallWord "get"; Op.CallWord "+"].
Proof. vm_compute. reflexivity. Qed.

Example expands_class :
  compiled_ops (quoted "~point~ Macro ( name -> items ) [ [ [ [ 1 ] ~one~ Method ] $name ast_splice Model Subclass ] quote_items ] end
~Point~ ~point~ macro_call")
  = Some [Op.BeginClass "Point" "Model"; Op.AddMethod "one" 0 None; Op.EndClass].
Proof. vm_compute. reflexivity. Qed.

(** Quoting a block of one expression that is not a sequence gives nothing:
    [flatten_quoted_block] takes the expression out of the vector before it
    looks at it. *)
Example quotes_nothing :
  compiled_ops (quoted "~answer~ Macro [ [ 42 ] quote_ast ] end ~answer~ macro_call") = Some [] /\
  compiled_ops (quoted "~answer~ Macro [ [ 42 1 ] quote_ast ] end ~answer~ macro_call") = Some [Op.PushNumber 42; Op.PushNumber 1].
Proof. split; vm_compute; reflexivity. Qed.
