(* ===== verification/ExpanderProofs.v ===== *)
(** * What macro expansion guarantees

    It ends; its result has no macro left; and it cannot blow up: the nodes of
    the result are bounded by those of the source and the generated-node
    limit. *)

From stdpp Require Import base tactics list strings option numbers.
From Stdlib Require Import ZArith NArith Lia Ascii String.
From S2P Require Import Prelude RustStr RustText RustFloat BTree Syntax Lexer Parser Diagnostic Bytecode Compiler Macro Expander.

Open Scope string_scope.
Open Scope list_scope.
Open Scope nat_scope.

(** ** Expressions without macro calls *)

Definition exprs_all (P : Expr -> Prop) : list SpannedExpr -> Prop :=
  fix all (l : list SpannedExpr) : Prop := match l with [] => True | mkSpanned e _ :: l' => P e /\ all l' end.

Fixpoint macro_free (e : Expr) : Prop :=
  match e with
  | Expr.Symbol s => s <> "macro_call"
  | Expr.Block b | Expr.Sequence b => exprs_all macro_free b
  | Expr.If t f => exprs_all macro_free t /\ exprs_all macro_free f
  | Expr.While c b => exprs_all macro_free c /\ exprs_all macro_free b
  | _ => True
  end.

Definition exprs_free (l : list SpannedExpr) : Prop := Forall (fun e => macro_free (expr e)) l.

Lemma all_free (l : list SpannedExpr) : exprs_all macro_free l <-> exprs_free l.
Proof.
  unfold exprs_free. induction l as [|[e sp] l IH]; [split; [by constructor|done]|]. rewrite list.Forall_cons, <- IH. done.
Qed.

Lemma free_block b : macro_free (Expr.Block b) <-> exprs_free b.
Proof. apply all_free. Qed.
Lemma free_sequence b : macro_free (Expr.Sequence b) <-> exprs_free b.
Proof. apply all_free. Qed.
Lemma free_if t f : macro_free (Expr.If t f) <-> exprs_free t /\ exprs_free f.
Proof. rewrite <- !all_free. done. Qed.
Lemma free_while c b : macro_free (Expr.While c b) <-> exprs_free c /\ exprs_free b.
Proof. rewrite <- !all_free. done. Qed.

Lemma count_list (l : list SpannedExpr) :
  (fix sum (l : list SpannedExpr) : N := match l with [] => 0 | mkSpanned e' _ :: l' => count_expr e' + sum l' end)%N l
  = count_spanned_exprs l.
Proof. induction l as [|[e sp] l IH]; [done|]. simpl. by rewrite IH. Qed.

Lemma count_block b : count_expr (Expr.Block b) = (1 + count_spanned_exprs b)%N.
Proof. simpl. by rewrite count_list. Qed.
Lemma count_sequence b : count_expr (Expr.Sequence b) = (1 + count_spanned_exprs b)%N.
Proof. simpl. by rewrite count_list. Qed.
Lemma count_if t f : count_expr (Expr.If t f) = (1 + (count_spanned_exprs t + count_spanned_exprs f))%N.
Proof. simpl. by rewrite !count_list. Qed.
Lemma count_while c b : count_expr (Expr.While c b) = (1 + (count_spanned_exprs c + count_spanned_exprs b))%N.
Proof. simpl. by rewrite !count_list. Qed.
Lemma count_app l l' : count_spanned_exprs (l ++ l') = (count_spanned_exprs l + count_spanned_exprs l')%N.
Proof. induction l as [|e l IH]; [done|]. cbn [app count_spanned_exprs]. rewrite IH. lia. Qed.
Lemma node_count_pos e : (1 <= count_expr e)%N.
Proof. destruct e; simpl; lia. Qed.

Definition item_free_all (item_free : Item -> Prop) : list Item -> Prop :=
  fix all (l : list Item) : Prop := match l with [] => True | i :: l' => item_free i /\ all l' end.

(** Items without macros. *)
Fixpoint item_free (item : Item) : Prop :=
  match item with
  | Item.Class (mkClass _ _ body _ _) => item_free_all item_free body
  | Item.Method m => exprs_free (method_body m)
  | Item.Function f => exprs_free (function_body f)
  | Item.Macro _ => False
  | Item.Expr e _ _ => macro_free e
  end.

Definition count_all (count : Item -> N) : list Item -> N :=
  fix sum (l : list Item) : N := match l with [] => 0 | i :: l' => count i + sum l' end%N.

(** The nodes of an item; a macro declaration has none at run time. *)
Fixpoint count_item (item : Item) : N :=
  match item with
  | Item.Class (mkClass _ _ body _ _) => count_all count_item body
  | Item.Method m => count_spanned_exprs (method_body m)
  | Item.Function f => count_spanned_exprs (function_body f)
  | Item.Macro _ => 0
  | Item.Expr e _ _ => count_expr e
  end%N.

Lemma items_free l : item_free_all item_free l <-> Forall item_free l.
Proof. induction l as [|i l IH]; [split; [by constructor|done]|]. rewrite list.Forall_cons. simpl. by rewrite IH. Qed.
Lemma count_all_app l l' : count_all count_item (l ++ l') = (count_all count_item l + count_all count_item l')%N.
Proof. induction l as [|i l IH]; [done|]. cbn [app count_all]. fold (count_all count_item). rewrite IH. lia. Qed.

Abbreviation may m s Q := (wp m s Q (fun _ => True)).

Lemma may_lift {S E A : Type} (r : res E A) (s : S) (Q : A -> S -> Prop) : settles r (fun a => Q a s) -> may (slift r) s Q.
Proof. unfold wp, slift. by destruct r. Qed.

Lemma may_mono {S E A : Type} (m : stm S E A) s (P Q : A -> S -> Prop) : (forall a s', P a s' -> Q a s') -> may m s P -> may m s Q.
Proof. unfold wp. destruct (m s) as [[a s']| | |]; auto. Qed.

Lemma may_put {S E : Type} (a s : S) (Q : unit -> S -> Prop) : Q tt a -> wp (E := E) (sput a) s Q (fun _ => True).
Proof. done. Qed.

Ltac step := match goal with
  | |- wp (sbind _ _) _ _ _ => apply wp_bind
  | |- wp (sret _) _ _ _ => apply wp_ret
  | |- wp (slift (unsupported _ _ _)) _ _ _ => exact I
  | |- wp (slift (declaration_item_macro_output_error _)) _ _ _ => exact I
  | |- wp sget _ _ _ => apply wp_get
  | |- wp (smodify _) _ _ _ => apply wp_modify
  | |- wp (sput _) _ _ _ => apply may_put
  end; cbv beta.

(** ** The evaluator ends *)

Lemma push_value_may v s : may (push_value v) s (fun _ _ => True).
Proof. done. Qed.

Lemma bump_may sp s : may (bump sp) s (fun _ _ => True).
Proof. unfold bump. repeat step. destruct (_ <? _)%N; step. done. Qed.

Section evaluator.
Context (bindings : btree SpannedExpr).

Lemma quote_exprs_may (quote : Expr -> Span -> EV SpannedExpr) l :
  Forall (fun e => forall sp s, may (quote (expr e) sp) s (fun _ _ => True)) l ->
  forall s, may (quote_exprs_with bindings quote l) s (fun _ _ => True).
Proof.
  assert (Hind : forall n l, length l <= n -> Forall (fun e => forall sp s, may (quote (expr e) sp) s (fun _ _ => True)) l ->
    forall s, may (quote_exprs_with bindings quote l) s (fun _ _ => True)); [|intros; by eapply Hind].
  clear l. induction n as [|n IH]; intros [|[e sp] l] Hn Hl s; simpl in Hn; try lia; try done.
  apply Forall_cons_1 in Hl as [He Hl].
  assert (Hone : may (let* e := quote e sp in let* es := quote_exprs_with bindings quote l in sret (e :: es)) s (fun _ _ => True)).
  { step. eapply may_mono; [|apply He]. intros e' s' _. step. eapply may_mono; [|apply (IH l); [lia|done]]. done. }
  cbn [quote_exprs_with]. destruct l as [|next rest]; [exact Hone|]. destruct (is_word "ast_splice" next); [|exact Hone].
  destruct e; try exact I. destruct (bt_get s0 bindings); [|exact I]. step. eapply may_mono; [|apply bump_may]. intros _ s' _.
  step. apply Forall_cons_1 in Hl as [_ Hl]. eapply may_mono; [|apply (IH rest); [simpl in Hn; lia|done]]. done.
Qed.

Lemma quote_ast_may e : forall sp s, may (quote_ast_expr bindings e sp) s (fun _ _ => True).
Proof.
  assert (Hlist : forall l, Forall (fun e => forall sp s, may (quote_ast_expr bindings (expr e) sp) s (fun _ _ => True)) l ->
    forall (k : list SpannedExpr -> EV SpannedExpr) s, (forall l' s', may (k l') s' (fun _ _ => True)) ->
    may (sbind (quote_exprs_with bindings (quote_ast_expr bindings) l) k) s (fun _ _ => True)).
  { intros l Hl k s Hk. step. eapply may_mono; [|by apply quote_exprs_may]. intros l' s' _. apply Hk. }
  induction e using Expr_ind'; intros sp st; cbn [quote_ast_expr]; step; (eapply may_mono; [|apply bump_may]); intros _ s' _; try done.
  - by destruct (String.eqb s "ast_splice").
  - by apply Hlist.
  - by apply Hlist.
  - apply Hlist; [done|]. intros. by apply Hlist.
  - apply Hlist; [done|]. intros. by apply Hlist.
Qed.

Lemma pop_block_may word sp s : may (pop_quoted_block word sp) s (fun _ _ => True).
Proof. unfold pop_quoted_block. repeat step. destruct (eval_stack s) as [|v rest]; step. step. by destruct v. Qed.

Lemma quote_list_may l s : may (quote_ast_exprs bindings l) s (fun _ _ => True).
Proof. apply quote_exprs_may. apply list.Forall_forall. intros e _ sp s'. apply quote_ast_may. Qed.

Lemma eval_symbol_may word sp s : may (eval_symbol bindings word sp) s (fun _ _ => True).
Proof.
  unfold eval_symbol. repeat (destruct (String.eqb word _)); try done; simpl; try done.
  - unfold eval_quote_ast. step. eapply may_mono; [|apply pop_block_may]. intros body s' _. step.
    by eapply may_mono; [|apply quote_list_may].
  - unfold eval_quote_items. step. eapply may_mono; [|apply pop_block_may]. intros body s' _. step.
    by eapply may_mono; [|apply quote_list_may].
Qed.

Lemma eval_expr_may e : forall sp d s, may (eval_expr bindings e sp d) s (fun _ _ => True).
Proof.
  induction e using Expr_ind'; intros sp d st; cbn [eval_expr]; step; (eapply may_mono; [|apply bump_may]); intros _ s' _; try done.
  - apply eval_symbol_may.
  - by destruct (bt_get s bindings).
  - revert s'. induction b as [|[e sp'] b IH]; intros s'; [done|]. apply Forall_cons_1 in H as [He Hb].
    cbn [eval_exprs_with]. step. eapply may_mono; [|apply He]. intros _ s'' _. by apply IH.
Qed.

Lemma eval_exprs_may l d s : may (eval_exprs_with (eval_expr bindings) d l) s (fun _ _ => True).
Proof.
  revert s. induction l as [|[e sp] l IH]; intros s; [done|]. cbn [eval_exprs_with]. step.
  eapply may_mono; [|apply eval_expr_may]. intros _ s' _. apply IH.
Qed.

Lemma evaluate_may d s : may (evaluate bindings d) s (fun _ _ => True).
Proof.
  unfold evaluate. step. eapply may_mono; [|apply eval_exprs_may]. intros _ s' _. repeat step.
  destruct (eval_stack s') as [|v [|w rest]]; step; [step; by destruct v|]. by step.
Qed.
End evaluator.

(** ** Rows *)

(** A row without macro calls, or one that declares a class and whose body has
    none; its name may be any word. *)
Definition row_free (row : SpannedExpr) : Prop :=
  macro_free (expr row) \/
  exists body name superclass, class_row_parts (expr_as_spanned_exprs (expr row) (span row)) = Some (body, name, superclass) /\ exprs_free body.

Lemma as_exprs_count e sp : (count_spanned_exprs (expr_as_spanned_exprs e sp) <= count_expr e)%N.
Proof. destruct e; simpl; try lia. rewrite count_list. lia. Qed.

Lemma sequence_cases e : (exists l, e = Expr.Sequence l) \/ (forall sp, expr_as_spanned_exprs e sp = [mkSpanned e sp]).
Proof. destruct e; try (by right). left. by eexists. Qed.

Lemma as_exprs_free e sp : macro_free e -> exprs_free (expr_as_spanned_exprs e sp).
Proof.
  destruct e; try apply free_sequence; intros He; by apply list.Forall_singleton.
Qed.

Lemma from_exprs_free l : exprs_free l -> macro_free (expr_from_spanned_exprs l).
Proof.
  destruct l as [|e [|e' l]]; intros Hl; simpl expr_from_spanned_exprs; try (by apply free_sequence). by apply Forall_cons_1 in Hl as [He _].
Qed.

Lemma from_exprs_count l : (count_expr (expr_from_spanned_exprs l) <= 1 + count_spanned_exprs l)%N.
Proof. destruct l as [|e [|e' l]]; simpl expr_from_spanned_exprs; rewrite ?count_sequence; cbn [count_spanned_exprs]; lia. Qed.

Lemma class_row_spec exprs body name superclass : class_row_parts exprs = Some (body, name, superclass) ->
  exists sp x y z, exprs = [mkSpanned (Expr.Block body) sp; x; y; z].
Proof.
  unfold class_row_parts. destruct exprs as [|[b sp] [|x [|y [|z []]]]]; try done; destruct b; try done.
  destruct (is_word _ _), (declaration_name x), (declaration_name y); try done. intros [= <- _ _]. by eexists _, _, _, _.
Qed.

Lemma row_sequence row b x y z : expr_as_spanned_exprs (expr row) (span row) = b :: x :: y :: z ->
  expr row = Expr.Sequence (b :: x :: y :: z).
Proof. destruct row as [[] sp]; try done. by intros [= ->]. Qed.

Lemma exprs_size_cons e l : exprs_size (e :: l) = S (expr_size (expr e)) + exprs_size l.
Proof. done. Qed.

Lemma size_list (l : list SpannedExpr) : expr_size (Expr.Block l) = S (exprs_size l).
Proof.
  unfold exprs_size. simpl. f_equal. induction l as [|[e sp] l IH]; [done|]. exact (f_equal (fun n => S (expr_size e) + n) IH).
Qed.

(** The body of a class row is smaller than the row, and as free. *)
Lemma class_row_body row body name superclass : class_row_parts (expr_as_spanned_exprs (expr row) (span row)) = Some (body, name, superclass) ->
  exprs_size body < expr_size (expr row) /\ (count_spanned_exprs body < count_expr (expr row))%N /\ (macro_free (expr row) -> exprs_free body).
Proof.
  intros H. apply class_row_spec in H as (sp & x & y & z & H). apply row_sequence in H. rewrite H, count_sequence, free_sequence.
  split_and!.
  - match goal with |- context [Expr.Sequence ?l] => change (expr_size (Expr.Sequence l)) with (expr_size (Expr.Block l)); rewrite size_list end.
    rewrite exprs_size_cons. cbn [expr]. rewrite size_list. lia.
  - cbn [count_spanned_exprs expr]. rewrite count_block. lia.
  - intros [Hb _]%Forall_cons_1. by apply free_block in Hb.
Qed.

Lemma function_row_body exprs sp docs f : function_declaration_row exprs sp docs = Some f ->
  (count_spanned_exprs (function_body f) <= count_spanned_exprs exprs)%N /\ (exprs_free exprs -> exprs_free (function_body f)).
Proof.
  unfold function_declaration_row. intros H.
  destruct exprs as [|[a spa] [|[b spb] [|c [|d []]]]]; try done; destruct a; try done; try (by destruct b).
  - destruct (is_word "function" c); [|done]. destruct (declaration_name _); [|done]. injection H as <-. simpl. rewrite count_list.
    split; [lia|]. intros [Hb _]%Forall_cons_1. by apply free_block in Hb.
  - destruct b; try done. destruct (is_word "function" d); [|done]. destruct (declaration_name _); [|done]. injection H as <-. simpl. rewrite count_list.
    split; [lia|]. intros [_ [Hb _]%Forall_cons_1]%Forall_cons_1. by apply free_block in Hb.
Qed.

(** A row that is a function declaration and is free has a free body: the
    class shape is another one. *)
Lemma function_not_class exprs sp docs f : function_declaration_row exprs sp docs = Some f -> class_row_parts exprs = None.
Proof.
  unfold function_declaration_row, class_row_parts. intros H.
  destruct exprs as [|[a spa] [|[b spb] [|c [|d []]]]]; try done; destruct a; try done; by destruct b.
Qed.

Definition items_good (limit : N) (l : list Item) : Prop := Forall item_free l /\ (count_all count_item l <= limit)%N.

Lemma row_item fuel row docs context : expr_size (expr row) < fuel -> row_free row ->
  settles (item_row_to_item fuel row docs context) (fun item => item_free item /\ (count_item item <= count_expr (expr row))%N).
Proof.
  revert row docs context. induction fuel as [|fuel IH]; intros row docs context Hf Hfree; [lia|]. cbn [item_row_to_item].
  destruct (function_declaration_row _ _ _) as [f|] eqn:Ef.
  - destruct context; [|done]. cbn [settles item_free count_item]. pose proof (function_not_class _ _ _ _ Ef) as Hn.
    apply function_row_body in Ef as [Hc Hb]. pose proof (as_exprs_count (expr row) (span row)). split; [|lia].
    apply Hb. destruct Hfree as [Hfree|(? & ? & ? & Hp & _)]; [by apply as_exprs_free|congruence].
  - destruct (class_row_parts _) as [[[body name] superclass]|] eqn:Ep.
    + destruct (class_row_body _ _ _ _ Ep) as (Hs & Hc & Hb). assert (Hbody : exprs_free body).
      { destruct Hfree as [Hfree|(? & ? & ? & Hp & Hbf)]; [by apply Hb|]. congruence. }
      apply settles_bind. eapply (settles_mono _ (items_good (count_spanned_exprs body))).
      { intros l [Hl Hcl]. destruct context; [|done]. cbn [settles item_free count_item]. rewrite items_free. split; [done|]. unfold count_all in *. lia. }
      assert (Hsz : exprs_size body < fuel) by lia. clear Hs Hc Hb Ep Hfree Ef. induction body as [|r body IHb]; [by split|].
      apply Forall_cons_1 in Hbody as [Hr Hbody]. rewrite exprs_size_cons in Hsz. cbn [try_map]. apply settles_bind.
      eapply settles_mono; [|apply IH; [lia|by left]]. intros item [Hi Hci]. apply settles_bind.
      eapply settles_mono; [|apply IHb; [done|lia]]. intros l [Hl Hcl]. split; [by constructor|].
      cbn [count_all count_spanned_exprs]. fold (count_all count_item). lia.
    + simpl. split; [|lia]. destruct Hfree as [Hfree|(? & ? & ? & Hp & _)]; [done|congruence].
Qed.

Lemma rows_items rows docs context : Forall row_free rows ->
  settles (item_rows_to_items rows docs context) (items_good (count_spanned_exprs rows)).
Proof.
  assert (Hrest : forall fuel l, exprs_size l < fuel -> Forall row_free l ->
    settles (try_map (fun row => item_row_to_item fuel row [] context) l) (items_good (count_spanned_exprs l))).
  { intros fuel. induction l as [|r l IH]; intros Hf Hl; [by split|]. apply Forall_cons_1 in Hl as [Hr Hl]. rewrite exprs_size_cons in Hf.
    cbn [try_map]. apply settles_bind. eapply settles_mono; [|apply row_item; [lia|done]]. intros item [Hi Hci].
    apply settles_bind. eapply settles_mono; [|apply IH; [lia|done]]. intros l' [Hl' Hcl]. split; [by constructor|].
    cbn [count_all count_spanned_exprs]. fold (count_all count_item). lia. }
  intros Hrows. destruct rows as [|r rows]; [by split|]. apply Forall_cons_1 in Hrows as [Hr Hrows].
  unfold item_rows_to_items. cbv zeta. pose proof (exprs_size_cons r rows) as Hsz.
  apply settles_bind. eapply settles_mono; [|apply row_item; [lia|done]]. intros item [Hi Hci].
  apply settles_bind. eapply settles_mono; [|apply Hrest; [lia|done]]. intros l [Hl Hcl]. split; [by constructor|].
  cbn [count_all count_spanned_exprs]. fold (count_all count_item). lia.
Qed.

(** Items back to rows, in the body of a class row. *)
Lemma items_rows items limit : items_good limit items ->
  settles (try_map class_body_item_to_row items) (fun rows => exprs_free rows /\ (count_spanned_exprs rows <= limit)%N).
Proof.
  revert limit. induction items as [|item items IH]; intros limit [Hf Hc]; [split; [constructor|simpl; lia]|].
  apply Forall_cons_1 in Hf as [Hi Hf]. cbn [count_all] in Hc. fold (count_all count_item) in Hc. cbn [try_map]. apply settles_bind.
  destruct item as [[]|m|f|m|e sp docs]; try exact I; simpl settles at 1; cbv beta.
  apply settles_bind. eapply settles_mono; [|apply (IH (limit - count_expr e)%N); split; [done|simpl in Hc; lia]].
  intros rows [Hr Hcr]. split; [by constructor|]. simpl in *. lia.
Qed.

(** ** Expansion *)

Definition gen (s : ExpansionState) : N := generated_ast_nodes (expander s).

(** What expansion may do to the state. *)
Record evolves (s s' : ExpansionState) : Prop := {
  ev_gen : (gen s <= gen s')%N;
  ev_limit : (gen s <= MAX_GENERATED_AST_NODES -> gen s' <= MAX_GENERATED_AST_NODES)%N;
  ev_stack : call_stack s' = call_stack s;
  ev_trace : exists t, trace (expander s') = trace (expander s) ++ t /\ Forall (fun e => trace_depth e < MAX_MACRO_EXPANSION_DEPTH) t }.

Lemma evolves_refl s : evolves s s.
Proof. split; try done. exists []. by rewrite app_nil_r. Qed.

Lemma evolves_trans s1 s2 s3 : evolves s1 s2 -> evolves s2 s3 -> evolves s1 s3.
Proof.
  intros [G1 L1 S1 (t1 & T1 & F1)] [G2 L2 S2 (t2 & T2 & F2)]. split; [lia|auto|congruence|].
  exists (t1 ++ t2). rewrite T2, T1, <- app_assoc. split; [done|]. by apply Forall_app.
Qed.

#[local] Hint Resolve evolves_refl : core.

(** [m] turns [n] nodes, and what it generates, into a result of [count]
    nodes. *)
Definition expands {A : Type} (n : N) (count : A -> N) (good : A -> Prop) (m : X A) : Prop :=
  forall s, may m s (fun a s' => evolves s s' /\ good a /\ (count a + gen s <= n + gen s')%N).

Lemma expands_bind {A B : Type} n (count : A -> N) good n' (count' : B -> N) good' (m : X A) (k : A -> X B) s (extra : N) :
  expands n count good m ->
  (forall a s', evolves s s' -> good a -> (count a + gen s <= n + gen s')%N ->
     may (k a) s' (fun b s'' => evolves s s'' /\ good' b /\ (count' b + gen s <= n' + gen s'')%N)) ->
  may (sbind m k) s (fun b s' => evolves s s' /\ good' b /\ (count' b + gen s <= n' + gen s')%N).
Proof. intros Hm Hk. apply wp_bind. eapply may_mono; [|apply Hm]. intros a s' (He & Hg & Hc). by apply Hk. Qed.

Definition segs_free (l : list ExpandedSegment) : Prop := Forall (fun g => exprs_free (seg_exprs g)) l.
Definition segs_count (l : list ExpandedSegment) : N := count_spanned_exprs (flatten_segments l).

Lemma flatten_app l l' : flatten_segments (l ++ l') = flatten_segments l ++ flatten_segments l'.
Proof. apply bind_app. Qed.

Lemma segs_snoc l g : segs_count (l ++ [g]) = (segs_count l + count_spanned_exprs (seg_exprs g))%N.
Proof. unfold segs_count. rewrite flatten_app, count_app. simpl. by rewrite app_nil_r. Qed.

Lemma segs_take l k : (segs_count (take k l) <= segs_count l)%N.
Proof. rewrite <- (take_drop k l) at 2. unfold segs_count. rewrite flatten_app, count_app. lia. Qed.

Lemma segs_flatten l : segs_free l -> exprs_free (flatten_segments l).
Proof. induction 1; [constructor|]. simpl. by apply Forall_app. Qed.

Definition output_free (o : MacroExpansionOutput) : Prop :=
  match o with MacroOutput.Exprs l => exprs_free l | MacroOutput.Items rows => Forall row_free rows end.
Definition output_count (o : MacroExpansionOutput) : N := count_spanned_exprs (output_exprs o).

Definition exprs_spec (f : MacroScope -> list SpannedExpr -> X (list SpannedExpr)) : Prop :=
  forall scope l, expands (count_spanned_exprs l) count_spanned_exprs exprs_free (f scope l).
Definition rows_spec (f : MacroScope -> list SpannedExpr -> X (list SpannedExpr)) : Prop :=
  forall scope l, expands (count_spanned_exprs l) count_spanned_exprs (Forall row_free) (f scope l).

Lemma resolve_settles scope name sp : settles (resolve_macro scope name sp) (fun _ => True).
Proof.
  unfold resolve_macro. destruct (rsplit_once _ _) as [[q m]|].
  - unfold resolve_qualified_macro. destruct (_ || _); [done|]. destruct (String.eqb _ "self"); [by destruct (bt_get _ _)|].
    destruct (List.filter _ _) as [|t []]; try done. by destruct (table_get _ _).
  - destruct (bt_get _ _); [done|]. by destruct (imported_matches scope name) as [|[? ?] []].
Qed.

Lemma scope_settles e d current : settles (scope_for_macro_definition e d current) (fun _ => True).
Proof.
  unfold scope_for_macro_definition. destruct (def_import_specifier d); [|done].
  destruct (match bt_get _ _ with Some _ => _ | None => _ end); [done|]. by destruct (List.find _ _).
Qed.

Lemma record_nodes_may exprs sp s : may (record_generated_nodes exprs sp) s (fun _ s' =>
  s' = set_expander (fun e => set_generated (generated_ast_nodes e + count_spanned_exprs exprs) e) s /\ (gen s' <= MAX_GENERATED_AST_NODES)%N).
Proof.
  unfold record_generated_nodes. repeat step. cbn [set_expander expander set_generated generated_ast_nodes].
  destruct (N.ltb_spec MAX_GENERATED_AST_NODES (generated_ast_nodes (expander s) + count_spanned_exprs exprs)); [exact I|]. by split.
Qed.

Section level.
Context (deeper_exprs deeper_rows : MacroScope -> list SpannedExpr -> X (list SpannedExpr)) (depth : nat) (scope : MacroScope).
Hypothesis Hexprs : depth < MAX_MACRO_EXPANSION_DEPTH -> exprs_spec deeper_exprs.
Hypothesis Hrows : depth < MAX_MACRO_EXPANSION_DEPTH -> rows_spec deeper_rows.

Lemma deeper_output o scope' : depth < MAX_MACRO_EXPANSION_DEPTH ->
  expands (output_count o) output_count output_free
    match o with
    | MacroOutput.Exprs exprs => let* exprs := deeper_exprs scope' exprs in sret (MacroOutput.Exprs exprs)
    | MacroOutput.Items rows => let* rows := deeper_rows scope' rows in sret (MacroOutput.Items rows)
    end.
Proof using Hexprs Hrows.
  intros Hd s. destruct o as [l|l]; step; (eapply may_mono; [|by first [apply Hexprs|apply Hrows]]); intros l' s' (He & Hf & Hc); step; done.
Qed.

Definition call_good (output : list ExpandedSegment) (r : MacroExpansionOutput * list ExpandedSegment) : Prop :=
  output_free r.1 /\ exists k, r.2 = take k output.

Lemma call_expands call_span output :
  expands 0 (fun r => output_count r.1) (call_good output) (evaluate_macro_call deeper_exprs deeper_rows depth scope call_span output).
Proof using Hexprs Hrows.
  intros s. unfold evaluate_macro_call. destruct (list.last output) as [g|]; [|exact I].
  destruct (string_literal g) as [[name name_span]|]; [|exact I]. step. apply may_lift.
  eapply settles_mono; [|apply resolve_settles]. intros d _.
  destruct (Nat.leb_spec MAX_MACRO_EXPANSION_DEPTH depth) as [|Hd]; [exact I|]. repeat step.
  destruct (_ <=? _); [exact I|]. destruct (_ <? _); [exact I|]. cbv zeta. repeat step.
  apply may_lift, settles_bind.
  pose proof (evaluate_may (bind_inputs (def_inputs d) (as_operand <$> sub output (length output - 1 - length (def_inputs d)) (length output - 1))) d new_evaluator) as He.
  unfold wp in He. destruct (evaluate _ d new_evaluator) as [[o ev]| | |]; try done. cbn [settles]. clear He.
  step. eapply may_mono; [|apply record_nodes_may]. intros [] s1 [-> Hlim]. repeat step. apply may_lift.
  eapply settles_mono; [|apply scope_settles]. intros scope' _. step.
  eapply may_mono; [|by apply deeper_output]. intros o' s2 ([G L S (t & T & F)] & Hfree & Hcount). repeat step.
  unfold gen in *. simpl in G, L, S, T, Hcount, Hlim. split; [|split; [split; [done|by eexists]|]].
  - split; unfold gen; simpl; [lia|intros; apply L; exact Hlim|by rewrite S|].
    eexists (t ++ [_]). rewrite T, <- app_assoc. split; [done|]. apply Forall_app. split; [done|]. by constructor.
  - unfold output_count in *. simpl in *. lia.
Qed.

Lemma macro_call_expands call_span output : segs_free output ->
  expands (segs_count output) segs_count segs_free (expand_macro_call deeper_exprs deeper_rows depth scope call_span output).
Proof using Hexprs Hrows.
  intros Hf s. unfold expand_macro_call. step. eapply may_mono; [|apply call_expands]. intros [o out] s1 (He & [Ho [k Hk]] & Hc). simpl in Hk. subst out.
  destruct o as [l|rows].
  - step. simpl in *. split; [done|]. split; [apply Forall_app; split; [by apply Forall_take|by repeat constructor]|].
    rewrite segs_snoc. unfold output_count in Hc. simpl in *. pose proof (segs_take output k). lia.
  - destruct (has_declaration_item_rows rows); exact I.
Qed.

Definition expr_spec (e : Expr) : Prop :=
  e <> Expr.Symbol "macro_call" -> expands (count_expr e) count_expr macro_free (expand_expr deeper_exprs deeper_rows depth scope e).

Lemma is_call_spec e sp : is_macro_call (mkSpanned e sp) = false -> e <> Expr.Symbol "macro_call".
Proof. intros H ->. done. Qed.

Lemma list_expands l : Forall (fun e => expr_spec (expr e)) l -> forall output, segs_free output ->
  expands (segs_count output + count_spanned_exprs l) count_spanned_exprs exprs_free
    (expand_exprs_with deeper_exprs deeper_rows depth scope (expand_expr deeper_exprs deeper_rows depth scope) output l).
Proof using Hexprs Hrows.
  induction l as [|[e sp] l IH]; intros Hl output Ho s.
  - cbn [expand_exprs_with]. step. split; [done|]. split; [by apply segs_flatten|]. unfold segs_count. simpl. lia.
  - apply Forall_cons_1 in Hl as [He Hl]. cbn [expand_exprs_with].
    destruct (is_macro_call (mkSpanned e sp)) eqn:Ec.
    + step. eapply may_mono; [|by apply macro_call_expands]. intros out s1 (Hev & Hout & Hc).
      eapply may_mono; [|by apply (IH Hl)]. intros l' s2 (Hev' & Hl' & Hc'). split; [by eapply evolves_trans|]. split; [done|].
      cbn [count_spanned_exprs expr]. pose proof (node_count_pos e). lia.
    + step. eapply may_mono; [|apply He; by eapply is_call_spec]. intros e' s1 (Hev & Hfree & Hc). simpl in Hc.
      eapply may_mono; [|apply (IH Hl)].
      * intros l' s2 (Hev' & Hl' & Hc'). split; [by eapply evolves_trans|]. split; [done|]. rewrite segs_snoc in Hc'.
        cbn [count_spanned_exprs expr single_segment seg_exprs] in *. lia.
      * apply Forall_app. split; [done|]. by repeat constructor.
Qed.

Lemma expand_list_bind {B : Type} l n (count : B -> N) good (k : list SpannedExpr -> X B) s :
  Forall (fun e => expr_spec (expr e)) l ->
  (forall l' s', evolves s s' -> exprs_free l' -> (count_spanned_exprs l' + gen s <= count_spanned_exprs l + gen s')%N ->
     may (k l') s' (fun b s'' => evolves s s'' /\ good b /\ (count b + gen s <= n + gen s'')%N)) ->
  may (sbind (expand_exprs_with deeper_exprs deeper_rows depth scope (expand_expr deeper_exprs deeper_rows depth scope) [] l) k) s
    (fun b s'' => evolves s s'' /\ good b /\ (count b + gen s <= n + gen s'')%N).
Proof using Hexprs Hrows.
  intros Hl Hk. step. eapply may_mono; [|by apply list_expands; [|constructor]]. intros l' s' (He & Hf & Hc). by apply Hk.
Qed.

Lemma expr_expands e : expr_spec e.
Proof using Hexprs Hrows.
  induction e using Expr_ind'; intros Hn s'; cbn [expand_expr]; try (step; split; [done|]; split; [done|]; lia).
  - step. split; [done|]. split; [|lia]. simpl. by intros ->.
  - apply expand_list_bind; [done|]. intros b' s1 He Hf Hc. step. rewrite free_block, !count_block. split; [done|]. split; [done|]. lia.
  - apply expand_list_bind; [done|]. intros b' s1 He Hf Hc. step. rewrite free_sequence, !count_sequence. split; [done|]. split; [done|]. lia.
  - apply expand_list_bind; [done|]. intros t' s1 He Hf Hc. step.
    eapply may_mono; [|by apply list_expands; [|constructor]]. intros f' s2 (He' & Hf' & Hc'). step.
    rewrite free_if, !count_if. split; [by eapply evolves_trans|]. split; [done|]. change (segs_count []) with 0%N in Hc'. lia.
  - apply expand_list_bind; [done|]. intros t' s1 He Hf Hc. step.
    eapply may_mono; [|by apply list_expands; [|constructor]]. intros f' s2 (He' & Hf' & Hc'). step.
    rewrite free_while, !count_while. split; [by eapply evolves_trans|]. split; [done|]. change (segs_count []) with 0%N in Hc'. lia.
Qed.

Lemma exprs_expand l :
  expands (count_spanned_exprs l) count_spanned_exprs exprs_free (expand_exprs deeper_exprs deeper_rows depth scope l).
Proof using Hexprs Hrows.
  apply (list_expands l); [|constructor]. apply list.Forall_forall. intros e _. apply expr_expands.
Qed.

(** The loop over an item: the result has a node more when the segments are
    not one expression. *)
Lemma item_from_expands sp docs context l : forall output, segs_free output ->
  expands (1 + segs_count output + count_spanned_exprs l) (count_all count_item) (Forall item_free)
    (expand_item_from deeper_exprs deeper_rows depth scope sp docs context output l).
Proof using Hexprs Hrows.
  induction l as [|e l IH]; intros output Ho s.
  - cbn [expand_item_from]. step. split; [done|]. split; [constructor; [|constructor]; by apply from_exprs_free, segs_flatten|].
    cbn [count_all count_item]. pose proof (from_exprs_count (flatten_segments output)). unfold segs_count. simpl. lia.
  - cbn [expand_item_from]. destruct (is_macro_call e) eqn:Ec.
    + step. eapply may_mono; [|apply call_expands]. intros [o out] s1 (Hev & [Hfree [k Hk]] & Hc). simpl in Hk, Hfree. subst out.
      pose proof (segs_take output k) as Ht. pose proof (node_count_pos (expr e)) as Hp. unfold output_count in Hc. simpl in Hc.
      destruct o as [exprs|rows].
      * eapply may_mono; [|apply IH; apply Forall_app; split; [by apply Forall_take|by repeat constructor]].
        intros items s2 (Hev' & Hf & Hc'). split; [by eapply evolves_trans|]. split; [done|].
        rewrite segs_snoc in Hc'. simpl in Hc'. cbn [count_spanned_exprs]. simpl in Hc. lia.
      * destruct l as [|e' l]; [destruct (take k output)|]; [|destruct (has_declaration_item_rows rows); exact I..].
        apply may_lift. eapply settles_mono; [|by apply rows_items]. intros items [Hf Hci]. split; [done|]. split; [done|]. simpl in Hc. lia.
    + step. eapply may_mono; [|apply expr_expands]; [|destruct e as [x ?]; by eapply is_call_spec]. intros e' s1 (Hev & Hfree & Hc).
      eapply may_mono; [|apply IH; apply Forall_app; split; [done|by repeat constructor]].
      intros items s2 (Hev' & Hf & Hc'). split; [by eapply evolves_trans|]. split; [done|].
      rewrite segs_snoc in Hc'. cbn [count_spanned_exprs expr single_segment seg_exprs] in *. lia.
Qed.

Lemma item_expands e sp docs context :
  expands (count_expr e) (count_all count_item) (Forall item_free)
    (expand_expr_item deeper_exprs deeper_rows depth scope e sp docs context).
Proof using Hexprs Hrows.
  intros s. unfold expand_expr_item. destruct (sequence_cases e) as [[l ->]|Hone].
  - eapply may_mono; [|apply item_from_expands; constructor]. intros items s' (He & Hf & Hc). split; [done|]. split; [done|].
    change (segs_count []) with 0%N in Hc. rewrite count_sequence. simpl in Hc. lia.
  - rewrite Hone. cbn [expand_item_from]. destruct (is_macro_call (mkSpanned e sp)) eqn:Ec; [exact I|].
    step. eapply may_mono; [|apply expr_expands; by eapply is_call_spec]. intros e' s1 (Hev & Hfree & Hc). step.
    split; [done|]. split; [by repeat constructor|]. simpl in *. lia.
Qed.

Lemma class_rows_expand rows :
  expands (count_spanned_exprs rows) count_spanned_exprs exprs_free
    (expand_class_body_item_rows deeper_exprs deeper_rows depth scope rows).
Proof using Hexprs Hrows.
  induction rows as [|row rows IH]; intros s; cbn [expand_class_body_item_rows].
  - step. split; [done|]. split; [constructor|]. lia.
  - step. eapply may_mono; [|apply item_expands]. intros items s1 (Hev & Hf & Hc). step. apply may_lift.
    eapply settles_mono; [|apply (items_rows items (count_all count_item items)); by split]. intros expanded [Hfree Hce].
    step. eapply may_mono; [|apply IH]. intros rest s2 (Hev' & Hf' & Hc'). step. split; [by eapply evolves_trans|].
    split; [by apply Forall_app|]. rewrite count_app. cbn [count_spanned_exprs]. lia.
Qed.

Lemma class_row_expands row s :
  may (expand_class_declaration_item_row deeper_exprs deeper_rows depth scope (expr_as_spanned_exprs (expr row) (span row)) (span row)) s
    (fun r s' =>
      match r with
      | Some row' => evolves s s' /\ row_free row' /\ (count_expr (expr row') + gen s <= count_expr (expr row) + gen s')%N
      | None => s' = s
      end).
Proof using Hexprs Hrows.
  unfold expand_class_declaration_item_row, is_class_declaration_row.
  destruct (class_row_parts _) as [[[body name] superclass]|] eqn:Ep.
  - pose proof Ep as Hp. apply class_row_spec in Hp as (bsp & x & y & z & Hrow). rewrite Hrow in *. apply row_sequence in Hrow.
    step. eapply may_mono; [|apply class_rows_expand]. intros body' s1 (Hev & Hf & Hc). step. split; [done|]. split.
    + right. exists body', name, superclass. split; [|done]. cbn [expr span expr_as_spanned_exprs]. unfold class_row_parts in *.
      destruct (is_word "Subclass" z); [|done]. destruct (declaration_name x); [|done]. destruct (declaration_name y); [|done].
      by simplify_eq.
    + rewrite Hrow. cbn [expr]. rewrite !count_sequence. cbn [count_spanned_exprs expr]. rewrite !count_block. lia.
  - destruct (expr_as_spanned_exprs _ _) as [|[[] ?] [|? [|? [|? []]]]]; by step.
Qed.

Lemma row_exprs_expand e sp :
  expands (count_expr e) (fun l => count_expr (expr_from_spanned_exprs l)) exprs_free
    (expand_exprs deeper_exprs deeper_rows depth scope (expr_as_spanned_exprs e sp)).
Proof using Hexprs Hrows.
  intros s. destruct (sequence_cases e) as [[l ->]|Hone].
  - eapply may_mono; [|apply exprs_expand]. intros l' s' (He & Hf & Hc). split; [done|]. split; [done|].
    pose proof (from_exprs_count l'). rewrite count_sequence. simpl in Hc. lia.
  - rewrite Hone. unfold expand_exprs. cbn [expand_exprs_with]. destruct (is_macro_call (mkSpanned e sp)) eqn:Ec; [exact I|].
    step. eapply may_mono; [|apply expr_expands; by eapply is_call_spec]. intros e' s1 (Hev & Hfree & Hc). step.
    split; [done|]. split; [by repeat constructor|]. done.
Qed.

Lemma rows_expand rows :
  expands (count_spanned_exprs rows) count_spanned_exprs (Forall row_free) (expand_item_rows deeper_exprs deeper_rows depth scope rows).
Proof using Hexprs Hrows.
  induction rows as [|row rows IH]; intros s; cbn [expand_item_rows].
  - step. split; [done|]. split; [constructor|]. lia.
  - pose proof (as_exprs_count (expr row) (span row)) as Hcount. step.
    eapply may_mono; [|apply class_row_expands]. intros r s1 Hr. step.
    assert (Hrow : may (match r with
      | Some expanded_row => sret expanded_row
      | None => let* row_exprs := expand_exprs deeper_exprs deeper_rows depth scope (expr_as_spanned_exprs (expr row) (span row)) in
                sret (mkSpanned (expr_from_spanned_exprs row_exprs) (span row))
      end) s1 (fun row' s' => evolves s s' /\ row_free row' /\ (count_expr (expr row') + gen s <= count_expr (expr row) + gen s')%N)).
    { destruct r as [row'|].
      - step. destruct Hr as (Hev & Hf & Hc). split; [done|]. split; [done|]. lia.
      - subst s1. step. eapply may_mono; [|apply row_exprs_expand]. intros l s2 (Hev & Hf & Hc). step.
        split; [done|]. split; [left; by apply from_exprs_free|]. done. }
    eapply may_mono; [|exact Hrow]. intros row' s2 (Hev & Hf & Hc). step. eapply may_mono; [|apply IH].
    intros rest s3 (Hev' & Hf' & Hc'). step. split; [by eapply evolves_trans|]. split; [by constructor|]. cbn [count_spanned_exprs]. lia.
Qed.
End level.

Lemma levels_expand n : n <= MAX_MACRO_EXPANSION_DEPTH -> exprs_spec (exprs_at (S n)) /\ rows_spec (rows_at (S n)).
Proof.
  induction n as [|n IH]; intros Hn; (split; intros scope l; [apply exprs_expand|apply rows_expand]); intros Hd; try lia;
    (apply IH; lia).
Qed.

Lemma body_expands scope l : expands (count_spanned_exprs l) count_spanned_exprs exprs_free (expand_body scope l).
Proof. unfold expand_body, top_levels. by apply levels_expand. Qed.

Lemma expand_item_expands scope e sp docs context :
  expands (count_expr e) (count_all count_item) (Forall item_free) (expand_item scope e sp docs context).
Proof.
  assert (Hl : 31 <= MAX_MACRO_EXPANSION_DEPTH) by (unfold MAX_MACRO_EXPANSION_DEPTH; lia).
  apply item_expands; intros _; [exact (proj1 (levels_expand 31 Hl))|exact (proj2 (levels_expand 31 Hl))].
Qed.

Section item_induction.
Variable P : Item -> Prop.
Hypothesis HClass : forall name superclass body docs sp, Forall P body -> P (Item.Class (mkClass name superclass body docs sp)).
Hypothesis HMethod : forall m, P (Item.Method m).
Hypothesis HFunction : forall f, P (Item.Function f).
Hypothesis HMacro : forall m, P (Item.Macro m).
Hypothesis HExpr : forall e sp docs, P (Item.Expr e sp docs).

Fixpoint Item_ind' (item : Item) : P item :=
  match item with
  | Item.Class (mkClass name superclass body docs sp) =>
      HClass name superclass body docs sp
        ((fix all (l : list Item) : Forall P l :=
            match l with [] => Forall_nil_2 _ | i :: l' => Forall_cons_2 P i l' (Item_ind' i) (all l') end) body)
  | Item.Method m => HMethod m
  | Item.Function f => HFunction f
  | Item.Macro m => HMacro m
  | Item.Expr e sp docs => HExpr e sp docs
  end.
End item_induction.

Lemma class_item_expands scope item :
  expands (count_item item) (count_all count_item) (Forall item_free) (expand_class_body_item scope item).
Proof.
  induction item as [name superclass body docs sp IH|m|f|m|e sp docs] using Item_ind'; intros s; cbn [expand_class_body_item].
  - step. assert (Hbody : forall s, may ((fix expand_all (l : list Item) : X (list Item) :=
        match l with
        | [] => sret []
        | item :: l' => let* items := expand_class_body_item scope item in let* rest := expand_all l' in sret (items ++ rest)
        end) body) s (fun l s' => evolves s s' /\ Forall item_free l /\ (count_all count_item l + gen s <= count_all count_item body + gen s')%N)).
    { induction IH as [|item body Hi _ IHb]; intros s'; [step; split; [done|]; split; [constructor|]; lia|].
      step. eapply may_mono; [|apply Hi]. intros items s1 (Hev & Hf & Hc). step. eapply may_mono; [|apply IHb].
      intros rest s2 (Hev' & Hf' & Hc'). step. split; [by eapply evolves_trans|]. split; [by apply Forall_app|].
      rewrite count_all_app. cbn [count_all]. fold (count_all count_item). lia. }
    eapply may_mono; [|apply Hbody]. intros body' s1 (Hev & Hf & Hc). step. split; [done|]. split.
    + constructor; [|constructor]. cbn [item_free]. by apply items_free.
    + cbn [count_all count_item]. lia.
  - step. unfold expand_method. step. eapply may_mono; [|apply body_expands]. intros body s1 (Hev & Hf & Hc). repeat step.
    split; [done|]. split; [by repeat constructor|]. simpl. lia.
  - step. unfold expand_function. step. eapply may_mono; [|apply body_expands]. intros body s1 (Hev & Hf & Hc). repeat step.
    split; [done|]. split; [by repeat constructor|]. simpl. lia.
  - exact I.
  - apply expand_item_expands.
Qed.

Lemma items_expand scope l :
  expands (count_all count_item l) (count_all count_item) (Forall item_free) (expand_items scope l).
Proof.
  induction l as [|item l IH]; intros s; cbn [expand_items]; [step; split; [done|]; split; [constructor|]; lia|].
  step. assert (Hitem : expands (count_item item) (count_all count_item) (Forall item_free) (expand_top_level_item scope item)).
  { destruct item; try apply class_item_expands; [|apply expand_item_expands].
    intros s'. cbn [expand_top_level_item]. step. split; [done|]. split; [constructor|]. simpl. lia. }
  eapply may_mono; [|apply Hitem]. intros items s1 (Hev & Hf & Hc). step. eapply may_mono; [|apply IH].
  intros rest s2 (Hev' & Hf' & Hc'). step. split; [by eapply evolves_trans|]. split; [by apply Forall_app|].
  rewrite count_all_app. cbn [count_all]. fold (count_all count_item). lia.
Qed.

Lemma collect_settles id l : forall m, settles (collect_from id m l) (fun _ => True).
Proof.
  induction l as [|item l IH]; intros m; [done|]. destruct item as [|?|?|d|]; simpl; try apply IH.
  destruct (contains_byte _ _); [done|]. destruct (bt_contains_key _ _); [done|]. apply IH.
Qed.

Section modules.
Context `{Sha256}.

(** Everything expansion of a module guarantees. *)
Lemma module_expands id m source imported :
  settles (expand_module id m source imported) (fun x =>
    Forall item_free (items (exp_module x)) /\
    (count_all count_item (items (exp_module x)) <= count_all count_item (items m) + MAX_GENERATED_AST_NODES)%N /\
    Forall (fun t => trace_depth t < MAX_MACRO_EXPANSION_DEPTH) (exp_trace x)).
Proof.
  unfold expand_module, new_expander, collect_macro_definitions. cbv zeta. apply settles_bind, settles_bind.
  eapply settles_mono; [|apply collect_settles]. intros local _. cbn [settles]. apply settles_bind.
  unfold expand_module_items. set (s := mkState _ _).
  pose proof (items_expand (root_scope (expander s)) (items m) s) as Hex. unfold wp in Hex. unfold sbind, sget.
  destruct (expand_items (root_scope (expander s)) (items m) s) as [[l s']| | |]; try done. simpl.
  destruct Hex as ([_ Hl _ (t & Ht & Hd)] & Hf & Hc). split; [done|].
  assert (gen s' <= MAX_GENERATED_AST_NODES)%N by (apply Hl; simpl; unfold gen; simpl; unfold MAX_GENERATED_AST_NODES; lia).
  change (gen s) with 0%N in Hc. split; [lia|]. rewrite Ht. done.
Qed.
End modules.

(** ** Modules that call no macro *)

Lemma not_call e sp : macro_free e -> is_macro_call (mkSpanned e sp) = false.
Proof. destruct e; try done. cbn. intros Hs. by apply String.eqb_neq. Qed.

Section unchanged.
Context (deeper_exprs deeper_rows : MacroScope -> list SpannedExpr -> X (list SpannedExpr)) (depth : nat) (scope : MacroScope).

Lemma list_unchanged l : Forall (fun e => macro_free (expr e) -> forall s, expand_expr deeper_exprs deeper_rows depth scope (expr e) s = Ok (expr e, s)) l ->
  exprs_free l -> forall output s,
  expand_exprs_with deeper_exprs deeper_rows depth scope (expand_expr deeper_exprs deeper_rows depth scope) output l s
  = Ok (flatten_segments output ++ l, s).
Proof.
  induction l as [|[e sp] l IH]; intros Hl Hf output s; [by rewrite app_nil_r|].
  apply Forall_cons_1 in Hl as [He Hl]. apply Forall_cons_1 in Hf as [Hfe Hf]. cbn [expand_exprs_with].
  rewrite not_call by done. rewrite (sbind_run _ _ s _ s (He Hfe s)). rewrite (IH Hl Hf), flatten_app, <- app_assoc. done.
Qed.

Lemma expr_unchanged e : macro_free e -> forall s, expand_expr deeper_exprs deeper_rows depth scope e s = Ok (e, s).
Proof.
  induction e using Expr_ind'; intros Hf st; cbn [expand_expr]; try done.
  - apply free_block in Hf. by rewrite (sbind_run _ _ st _ st (list_unchanged b H Hf [] st)).
  - apply free_sequence in Hf. by rewrite (sbind_run _ _ st _ st (list_unchanged b H Hf [] st)).
  - apply free_if in Hf as [Ht Hf]. rewrite (sbind_run _ _ st _ st (list_unchanged t H Ht [] st)).
    by rewrite (sbind_run _ _ st _ st (list_unchanged f H0 Hf [] st)).
  - apply free_while in Hf as [Hc Hb]. rewrite (sbind_run _ _ st _ st (list_unchanged c H Hc [] st)).
    by rewrite (sbind_run _ _ st _ st (list_unchanged b H0 Hb [] st)).
Qed.

Lemma exprs_unchanged l s : exprs_free l -> expand_exprs deeper_exprs deeper_rows depth scope l s = Ok (l, s).
Proof. intros Hf. apply (list_unchanged l); [|done]. apply list.Forall_forall. intros e _. apply expr_unchanged. Qed.

(** The parser makes no sequence of one expression. *)
Definition normal (e : Expr) : Prop := expr_from_spanned_exprs (expr_as_spanned_exprs e (mkSpan 0 0)) = e.

Lemma item_expr_unchanged e sp docs context s : macro_free e -> normal e ->
  expand_expr_item deeper_exprs deeper_rows depth scope e sp docs context s = Ok ([Item.Expr e sp docs], s).
Proof.
  intros Hf Hn. assert (Hfrom : expr_from_spanned_exprs (expr_as_spanned_exprs e sp) = e) by (destruct e; done).
  unfold expand_expr_item. rewrite <- Hfrom at 2. apply (as_exprs_free e sp) in Hf. revert Hf. generalize (expr_as_spanned_exprs e sp).
  clear. intros l Hf. assert (Hind : forall l output, exprs_free l ->
    expand_item_from deeper_exprs deeper_rows depth scope sp docs context output l s
    = Ok ([Item.Expr (expr_from_spanned_exprs (flatten_segments output ++ l)) sp docs], s)); [|by apply (Hind l [])].
  clear. induction l as [|[e sp'] l IH]; intros output Hf; [by rewrite app_nil_r|].
  apply Forall_cons_1 in Hf as [He Hf]. cbn [expand_item_from]. rewrite not_call by done. cbn [expr span].
  rewrite (sbind_run _ _ s _ s (expr_unchanged e He s)). rewrite (IH _ Hf), flatten_app, <- app_assoc. done.
Qed.
End unchanged.

(** An item without macros, as the parser makes it. *)
Fixpoint item_plain (item : Item) : Prop :=
  match item with
  | Item.Class (mkClass _ _ body _ _) => item_free_all item_plain body
  | Item.Method m => exprs_free (method_body m)
  | Item.Function f => exprs_free (function_body f)
  | Item.Macro _ => False
  | Item.Expr e _ _ => macro_free e /\ normal e
  end.

Lemma class_item_unchanged scope item : item_plain item -> forall s, expand_class_body_item scope item s = Ok ([item], s).
Proof.
  induction item as [name superclass body docs sp IH|m|f|m|e sp docs] using Item_ind'; intros Hp s; cbn [expand_class_body_item item_plain] in *.
  - assert (Hbody : (fix expand_all (l : list Item) : X (list Item) :=
        match l with
        | [] => sret []
        | item :: l' => let* items := expand_class_body_item scope item in let* rest := expand_all l' in sret (items ++ rest)
        end) body s = Ok (body, s)).
    { induction IH as [|item body Hi _ IHb]; [done|]. destruct Hp as [Hpi Hp]. rewrite (sbind_run _ _ s _ s (Hi Hpi s)).
      by rewrite (sbind_run _ _ s _ s (IHb Hp)). }
    by rewrite (sbind_run _ _ s _ s Hbody).
  - unfold expand_method. rewrite (sbind_run _ _ s m s); [done|].
    rewrite (sbind_run _ _ s (method_body m) s) by (by apply exprs_unchanged). by destruct m.
  - unfold expand_function. rewrite (sbind_run _ _ s f s); [done|].
    rewrite (sbind_run _ _ s (function_body f) s) by (by apply exprs_unchanged). by destruct f.
  - done.
  - destruct Hp. by apply item_expr_unchanged.
Qed.

Definition is_macro_item (item : Item) : bool := match item with Item.Macro _ => true | _ => false end.

Definition without_macros (m : Module_) : Module_ := mkModule (List.filter (fun item => negb (is_macro_item item)) (items m)).

Lemma items_unchanged scope l s : Forall (fun item => is_macro_item item = true \/ item_plain item) l ->
  expand_items scope l s = Ok (List.filter (fun item => negb (is_macro_item item)) l, s).
Proof.
  induction 1 as [|item l Hi Hl IH]; [done|]. cbn [expand_items List.filter].
  assert (Hitem : expand_top_level_item scope item s = Ok (if negb (is_macro_item item) then [item] else [], s)).
  { destruct Hi as [Hm|Hp]; [by destruct item|].
    destruct item; try (by apply (class_item_unchanged scope _ Hp)); [done|]. destruct Hp. by apply item_expr_unchanged. }
  rewrite (sbind_run _ _ s _ s Hitem), (sbind_run _ _ s _ s IH). by destruct (negb (is_macro_item item)).
Qed.

Section theorems.
Context `{Sha256}.

(** C14: macro expansion ends on every module, whatever the tables it imports:
    with an error, or with a module in which no macro is left, neither a
    declaration nor a call, at any depth.  Calls nest less than 32 deep. *)
Theorem expand_module_macro_free (id : string) (m : Module_) (source : string) (imported : list ImportedMacroTable) :
  match expand_module id m source imported with
  | Ok x => Forall item_free (items (exp_module x)) /\ Forall (fun t => trace_depth t < MAX_MACRO_EXPANSION_DEPTH) (exp_trace x)
  | Err _ => True
  | Panic | OutOfFuel => False
  end.
Proof.
  pose proof (module_expands id m source imported) as Hx. destruct (expand_module id m source imported); try done.
  by destruct Hx as (? & _ & ?).
Qed.

(** C25: expansion cannot blow up: the result has at most the nodes of the
    source, macro declarations not counted, and the 100000 nodes that macros
    may generate. *)
Theorem expand_module_bounded (id : string) (m : Module_) (source : string) (imported : list ImportedMacroTable) (x : MacroExpansion) :
  expand_module id m source imported = Ok x ->
  (count_all count_item (items (exp_module x)) <= count_all count_item (items m) + 100000)%N.
Proof. intros Hx. pose proof (module_expands id m source imported) as Hs. rewrite Hx in Hs. by destruct Hs as (_ & ? & _). Qed.

(** A module that calls no macro expands to itself, without its macro
    declarations, and leaves no trace. *)
Theorem expand_module_unchanged (id : string) (m : Module_) (source : string) (imported : list ImportedMacroTable) (local : btree MacroDefinition) :
  Forall (fun item => is_macro_item item = true \/ item_plain item) (items m) ->
  collect_macro_definitions (normalize_module_id id) m = Ok local ->
  exists x, expand_module id m source imported = Ok x /\ exp_module x = without_macros m /\ exp_trace x = [].
Proof.
  intros Hi Hc. unfold expand_module, new_expander. cbv zeta. rewrite Hc. cbn [rbind]. unfold expand_module_items, sbind at 1, sget.
  rewrite (sbind_run _ _ _ _ _ (items_unchanged _ _ _ Hi)). cbn [sret rbind]. eexists. split; [done|]. by split.
Qed.
End theorems.

(** ** Examples *)

Definition parsed (source : string) : Module_ := match parse_module (quoted source) with Ok m => m | _ => mkModule [] end.

Definition sample_module : Module_ := parsed "~two~ Macro ( v -> v ) [ [ $v ast_splice $v ast_splice ] quote_ast ] end 1 ~two~ macro_call".

Lemma expand_module_bounded_witness :
  exists x, expand_module (H := fun _ => []) "m" sample_module "" [] = Ok x /\ length (items (exp_module x)) = 1 /\
    (count_all count_item (items (exp_module x)) <= count_all count_item (items sample_module) + 100000)%N.
Proof.
  eexists. split; [vm_compute; reflexivity|]. split; [vm_compute; reflexivity|].
  apply (expand_module_bounded (H := fun _ => []) "m" sample_module "" []). vm_compute. reflexivity.
Defined.

Lemma expand_module_unchanged_witness :
  let m := parsed "~two~ Macro [ [ 1 2 ] quote_ast ] end a if b end 3 [ c ]" in
  exists x, expand_module (H := fun _ => []) "m" m "" [] = Ok x /\ exp_module x = without_macros m /\ exp_trace x = [].
Proof.
  intros m. eapply (expand_module_unchanged (H := fun _ => []) "m" m "" []); [|vm_compute; reflexivity].
  vm_compute. repeat (constructor; [by (left; reflexivity) || (right; repeat split; discriminate)|]). constructor.
Defined.
