(* ===== verification/Layout.v ===== *)
(** * The layout the compiler is specified by

    A one-pass, structural description of the code of an expression: every
    jump is written with its target, computed from the sizes of the parts; no
    placeholder, no patching and no loop stack.  [CompilerProofs.v] shows that
    the back-patching compiler produces this layout. *)

From stdpp Require Import base tactics list strings option numbers.
From Stdlib Require Import ZArith NArith Lia Ascii String.
From S2P Require Import Prelude RustStr RustFloat Syntax Lexer Parser Diagnostic Bytecode Compiler.

Open Scope string_scope.
Open Scope list_scope.
Open Scope nat_scope.

(** The innermost loop: where [continue] and [break] go. *)
Record Loop : Type := mkTargets { continue_to : nat; break_to : N }.

(** ** Sizes *)

Section size.
Variable size : Expr -> nat.
Fixpoint sizes_with (exprs : list SpannedExpr) : nat :=
  match exprs with
  | [] => 0
  | mkSpanned e sp :: exprs1 =>
      match variable_binding_pair exprs with
      | Some _ => match exprs1 with _ :: exprs2 => 2 + sizes_with exprs2 | [] => 0 end
      | None => size e + sizes_with exprs1
      end
  end.
End size.

(** The number of instructions of an expression. *)
Fixpoint size (e : Expr) : nat :=
  match e with
  | Expr.Reference _ => 2
  | Expr.DotWord _ | Expr.Args _ => 0
  | Expr.Sequence exprs => sizes_with size exprs
  | Expr.If t f => 1 + sizes_with size t + 1 + sizes_with size f
  | Expr.While c b => sizes_with size c + 1 + sizes_with size b + 1
  | _ => 1
  end.

Definition sizes : list SpannedExpr -> nat := sizes_with size.

(** ** Code *)

Section layout.
Variables (file : string) (starts : list nat).

Definition at_span (sp : Span) : SourceSpan :=
  let '(line, column) := line_column starts (start sp) in
  mkSourceSpan file (start sp) (end_ sp) line column.

Definition instr (o : Op) (sp : Span) : Instruction := mkInstruction o (at_span sp).

Definition code : Type := list Instruction * list Chunk.

Definition word_op (loop : option Loop) (sp : Span) (word : string) : res CompileError Op :=
  if String.eqb word "nil" then Ok Op.PushNil
  else if String.eqb word "true" then Ok (Op.PushBool true)
  else if String.eqb word "false" then Ok (Op.PushBool false)
  else if String.eqb word "return" then Ok Op.Return
  else if String.eqb word "break" then
    match loop with
    | Some l => Ok (Op.Jump (break_to l))
    | None => Err (CompileError.LoopControlOutsideLoop word sp)
    end
  else if String.eqb word "continue" then
    match loop with
    | Some l => Ok (Op.Jump (N.of_nat (continue_to l)))
    | None => Err (CompileError.LoopControlOutsideLoop word sp)
    end
  else Ok (Op.CallWord word).

(** The code of the expressions from address [at_] on, in a chunk that already
    has [nb] blocks. *)
Section gens.
Variable gen : option Loop -> Span -> nat -> nat -> Expr -> res CompileError code.

Fixpoint gens_with (loop : option Loop) (at_ nb : nat) (exprs : list SpannedExpr) : res CompileError code :=
  match exprs with
  | [] => Ok ([], [])
  | mkSpanned e sp :: exprs1 =>
      match variable_binding_pair exprs with
      | Some (name, operator) =>
          match exprs1 with
          | mkSpanned _ sp2 :: exprs2 =>
              let? (c, b) := gens_with loop (at_ + 2) nb exprs2 in
              Ok (instr (Op.PushString name) sp :: instr (Op.CallWord operator) sp2 :: c, b)
          | [] => Ok ([], [])
          end
      | None =>
          let? (c1, b1) := gen loop sp at_ nb e in
          let? (c2, b2) := gens_with loop (at_ + length c1) (nb + length b1) exprs1 in
          Ok (c1 ++ c2, b1 ++ b2)
      end
  end.
End gens.

(** A block: its code in a chunk of its own, closed by a return. *)
Definition block_of (body : res CompileError code) (sp : Span) : res CompileError Chunk :=
  let? (c, b) := body in Ok (mkChunk file (c ++ [instr Op.Return sp]) b).

Fixpoint gen (loop : option Loop) (sp : Span) (at_ nb : nat) (e : Expr) : res CompileError code :=
  match e with
  | Expr.Symbol word => let? o := word_op loop sp word in Ok ([instr o sp], [])
  | Expr.DotWord word =>
      Err (CompileError.Unsupported [Lit "leading-dot method syntax "; Dbg word] sp
             (Some [Lit "use postfix selectors, for example: user email.get or http_request"]))
  | Expr.Reference name => Ok ([instr (Op.PushString name) sp; instr (Op.CallWord "get") sp], [])
  | Expr.String value => Ok ([instr (Op.PushString value) sp], [])
  | Expr.Number value => Ok ([instr (Op.PushNumber value) sp], [])
  | Expr.Float value => Ok ([instr (Op.PushFloat value) sp], [])
  | Expr.Block body =>
      let? block := block_of (gens_with gen None 0 0 body) sp in
      Ok ([instr (Op.PushBlock (N.of_nat nb)) sp], [block])
  | Expr.Sequence exprs => gens_with gen loop at_ nb exprs
  | Expr.Args _ =>
      Err (CompileError.Unsupported [Lit "argument declarations"] sp
             (Some [Lit "remove the signature and pop arguments from the stack"]))
  | Expr.If t f =>
      let? (ct, bt) := gens_with gen loop (at_ + 1) nb t in
      let else_start := at_ + 1 + length ct + 1 in
      let? (cf, bf) := gens_with gen loop else_start (nb + length bt) f in
      Ok ([instr (Op.JumpIfFalse (N.of_nat else_start)) sp] ++ ct
          ++ [instr (Op.Jump (N.of_nat (else_start + length cf))) sp] ++ cf, bt ++ bf)
  | Expr.While c b =>
      let? (cc, bc) := gens_with gen loop at_ nb c in
      let body_start := at_ + length cc + 1 in
      let loop_end := body_start + sizes b + 1 in
      let? (cb, bb) := gens_with gen (Some (mkTargets at_ (N.of_nat loop_end))) body_start
                         (nb + length bc) b in
      Ok (cc ++ [instr (Op.JumpIfFalse (N.of_nat loop_end)) sp] ++ cb
          ++ [instr (Op.Jump (N.of_nat at_)) sp], bc ++ bb)
  end.

Definition gens : option Loop -> nat -> nat -> list SpannedExpr -> res CompileError code := gens_with gen.

Definition block (body : list SpannedExpr) (sp : Span) : res CompileError Chunk :=
  block_of (gens None 0 0 body) sp.

(** ** Items *)

(** A declaration that stores a block. *)
Definition decl (mk : N -> Op) (body : list SpannedExpr) (sp : Span) (nb : nat) : res CompileError code :=
  let? b := block body sp in Ok ([instr (mk (N.of_nat nb)) sp], [b]).

Definition gen_class_expr (at_ nb : nat) (e : Expr) (sp : Span) : res CompileError code :=
  match e with
  | Expr.Sequence exprs =>
      match table_declaration exprs, is_field_declaration exprs, is_accessor_declaration exprs,
            block_method_declaration exprs with
      | Some name, _, _, _ =>
          match exprs with
          | [mkSpanned _ sp0; mkSpanned _ sp1] =>
              Ok ([instr (Op.PushString name) sp0; instr (Op.CallWord "Table") sp1], [])
          | _ => Panic
          end
      | None, Some name, _, _ => Ok ([instr (Op.AddField name) sp], [])
      | None, None, Some name, _ => Ok ([instr (Op.AddAccessor name) sp], [])
      | None, None, None, Some (args, name, body) =>
          decl (fun i => Op.AddMethod name i (args_spec <$> args)) body sp nb
      | None, None, None, None => gen None sp at_ nb e
      end
  | _ => gen None sp at_ nb e
  end.

Definition gen_class_item (at_ nb : nat) (item : Item) : res CompileError code :=
  match item with
  | Item.Method m =>
      decl (fun i => Op.AddMethod (method_name m) i (args_spec <$> method_args m)) (method_body m) (method_span m) nb
  | Item.Expr e sp _ => gen_class_expr at_ nb e sp
  | _ => match compile_class_body_item item (new_compiler file) with
         | Err e => Err e
         | _ => Panic
         end
  end.

Fixpoint gen_all (f : nat -> nat -> Item -> res CompileError code) (at_ nb : nat) (items : list Item)
    : res CompileError code :=
  match items with
  | [] => Ok ([], [])
  | item :: items' =>
      let? (c1, b1) := f at_ nb item in
      let? (c2, b2) := gen_all f (at_ + length c1) (nb + length b1) items' in
      Ok (c1 ++ c2, b1 ++ b2)
  end.

Definition gen_item (at_ nb : nat) (item : Item) : res CompileError code :=
  match item with
  | Item.Class (mkClass name superclass body _ sp) =>
      let? (c, b) := gen_all gen_class_item (at_ + 1) nb body in
      Ok ([instr (Op.BeginClass name superclass) sp] ++ c ++ [instr Op.EndClass sp], b)
  | Item.Expr e sp _ => gen None sp at_ nb e
  | Item.Function f =>
      decl (fun i => Op.AddFunction (function_name f) i (args_spec <$> function_args f)) (function_body f) (function_span f) nb
  | _ => match compile_item item (new_compiler file) with
         | Err e => Err e
         | _ => Panic
         end
  end.

Definition layout_module (m : Module_) : res CompileError Chunk :=
  let? (c, b) := gen_all gen_item 0 0 (items m) in Ok (mkChunk file c b).
End layout.
