(* ===== verification/CompilerProofs.v ===== *)
(** * The compiler produces the layout

    [compile_spec] relates the back-patching compiler to [Layout.gen]: from any
    state it appends the layout's code and blocks (with [usize::MAX] for the
    break jumps of the enclosing loop, which it records), or fails with the
    layout's error.  [lower_module_layout] is the equality for modules. *)

From stdpp Require Import base tactics list strings option numbers.
From Stdlib Require Import ZArith NArith Lia Ascii String.
From S2P Require Import Prelude RustStr RustFloat Syntax Lexer Parser Diagnostic Bytecode Compiler Layout.

Open Scope string_scope.
Open Scope list_scope.
Open Scope nat_scope.

(** ** Break jumps *)

Section brk.
Variable brk : nat -> Expr -> list nat.
Fixpoint brks_with (at_ : nat) (exprs : list SpannedExpr) : list nat :=
  match exprs with
  | [] => []
  | mkSpanned e sp :: exprs1 =>
      match variable_binding_pair exprs with
      | Some _ => match exprs1 with _ :: exprs2 => brks_with (at_ + 2) exprs2 | [] => [] end
      | None => brk at_ e ++ brks_with (at_ + size e) exprs1
      end
  end.
End brk.

(** The addresses of the break jumps an expression has for the loop around it. *)
Fixpoint brk (at_ : nat) (e : Expr) : list nat :=
  match e with
  | Expr.Symbol word => if String.eqb word "break" then [at_] else []
  | Expr.Sequence exprs => brks_with brk at_ exprs
  | Expr.If t f => brks_with brk (at_ + 1) t ++ brks_with brk (at_ + 1 + sizes t + 1) f
  | Expr.While c b => brks_with brk at_ c
  | _ => []
  end.

Abbreviation brks := (brks_with brk).

Definition jump_to (b : N) (i : Instruction) : Instruction := mkInstruction (Op.Jump b) (ispan i).

Definition patch_list (b : N) (ps : list nat) (l : list Instruction) : list Instruction :=
  foldl (fun l p => alter (jump_to b) p l) l ps.

(** Induction on a statement list the way [compile_exprs] walks it. *)
Lemma pairs_ind (P : list SpannedExpr -> Prop) :
  P [] ->
  (forall e sp es, variable_binding_pair (mkSpanned e sp :: es) = None -> P es -> P (mkSpanned e sp :: es)) ->
  (forall e1 s1 e2 s2 es p, variable_binding_pair (mkSpanned e1 s1 :: mkSpanned e2 s2 :: es) = Some p ->
     P es -> P (mkSpanned e1 s1 :: mkSpanned e2 s2 :: es)) ->
  forall es, P es.
Proof.
  intros H0 H1 H2 es. remember (length es) as n eqn:Hn. revert es Hn.
  induction (lt_wf n) as [n _ IH]. intros [|[e sp] es] ->; [done|].
  destruct (variable_binding_pair (mkSpanned e sp :: es)) as [p|] eqn:E.
  - destruct es as [|[e2 s2] es]; [done|]. eapply H2; [done|]. eapply IH; [|done]. simpl. lia.
  - apply H1; [done|]. eapply IH; [|done]. simpl. lia.
Qed.

(** ** Sizes of the layout *)

Section proofs.
Variables (file : string) (starts : list nat).
Abbreviation gen := (gen file starts).
Abbreviation gens := (gens file starts).

(** The code has the size computed from the syntax. *)
Definition sized (n : nat) (r : res CompileError code) : Prop :=
  match r with Ok (c, _) => length c = n | Err _ => True | _ => False end.

Lemma gens_sized es : Forall (fun e => forall loop sp at_ nb, sized (size (expr e)) (gen loop sp at_ nb (expr e))) es ->
  forall loop at_ nb, sized (sizes es) (gens loop at_ nb es).
Proof.
  induction es as [|e sp es Hv IH|e1 s1 e2 s2 es p Hv IH] using pairs_ind; intros Hes loop at_ nb; [done| |].
  - apply Forall_cons_1 in Hes as [He Hes]. unfold gens, sizes. cbn [gens_with sizes_with]. rewrite Hv.
    specialize (He loop sp at_ nb). simpl in He.
    destruct (gen loop sp at_ nb e) as [[c1 b1]|er| |]; simpl in He |- *; try done.
    specialize (IH Hes loop (at_ + length c1) (nb + length b1)). unfold gens, sizes in IH.
    destruct (gens_with _ _ _ _ _ _ es) as [[c2 b2]|er| |]; simpl in IH |- *; try done.
    rewrite length_app. lia.
  - apply Forall_cons_1 in Hes as [_ Hes]. apply Forall_cons_1 in Hes as [_ Hes].
    unfold gens, sizes. cbn [gens_with sizes_with]. rewrite Hv. destruct p as [n o].
    specialize (IH Hes loop (at_ + 2) nb). unfold gens, sizes in IH.
    destruct (gens_with _ _ _ _ _ _ es) as [[c2 b2]|er| |]; simpl in IH |- *; try done. lia.
Qed.

Lemma gen_sized e loop sp at_ nb : sized (size e) (gen loop sp at_ nb e).
Proof.
  revert loop sp at_ nb.
  induction e as [w|w|w|w|z|x|a|b Hb|b Hb|t f Ht Hf|c b Hc Hb] using Expr_ind'; intros loop sp at_ nb; simpl; try done.
  - unfold word_op. repeat case_match; done.
  - pose proof (gens_sized b Hb None 0 0) as H. unfold gens in H. unfold block_of.
    destruct (gens_with _ _ _ _ _ _ b) as [[cb bb]|er| |]; done.
  - apply (gens_sized b Hb).
  - pose proof (gens_sized t Ht loop (at_ + 1) nb) as H. unfold gens, sizes in H.
    destruct (gens_with _ _ _ _ _ _ t) as [[ct bt]|er| |]; simpl in H |- *; try done.
    pose proof (gens_sized f Hf loop (at_ + 1 + length ct + 1) (nb + length bt)) as H2. unfold gens, sizes in H2.
    destruct (gens_with _ _ _ _ _ _ f) as [[cf bf]|er| |]; simpl in H2 |- *; try done.
    rewrite length_app. simpl. lia.
  - pose proof (gens_sized c Hc loop at_ nb) as H. unfold gens, sizes in H.
    destruct (gens_with _ _ _ _ _ _ c) as [[cc bc]|er| |]; simpl in H |- *; try done.
    match goal with |- context [gens_with _ _ _ ?l ?a ?n b] =>
      pose proof (gens_sized b Hb l a n) as H2 end. unfold gens, sizes in H2.
    destruct (gens_with _ _ _ _ _ _ b) as [[cb bb]|er| |]; simpl in H2 |- *; try done.
    rewrite !length_app. simpl. rewrite length_app. simpl. lia.
Qed.

Lemma gens_size es loop at_ nb : sized (sizes es) (gens loop at_ nb es).
Proof. apply gens_sized. apply Forall_forall. intros. apply gen_sized. Qed.

(** ** Patching *)

Lemma patch_list_length b ps l : length (patch_list b ps l) = length l.
Proof. revert l. induction ps as [|p ps IH]; intros l; simpl; [done|]. rewrite IH. apply length_alter. Qed.

Lemma patch_list_app b ps1 ps2 l : patch_list b (ps1 ++ ps2) l = patch_list b ps2 (patch_list b ps1 l).
Proof. apply foldl_app. Qed.

Lemma patch_list_post b ps l post :
  Forall (fun p => p < length l) ps -> patch_list b ps (l ++ post) = patch_list b ps l ++ post.
Proof.
  revert l. induction ps as [|p ps IH]; intros l Hps; simpl; [done|].
  apply Forall_cons_1 in Hps as [Hp Hps]. rewrite alter_app_l by done. apply IH. by rewrite length_alter.
Qed.
(** Break addresses lie in the code of the expression. *)
Lemma brks_range_with es :
  Forall (fun e => forall at_, Forall (fun p => at_ <= p < at_ + size (expr e)) (brk at_ (expr e))) es ->
  forall at_, Forall (fun p => at_ <= p < at_ + sizes es) (brks at_ es).
Proof.
  induction es as [|e sp es Hv IH|e1 s1 e2 s2 es p Hv IH] using pairs_ind; intros Hes at_; [done| |].
  - apply Forall_cons_1 in Hes as [He Hes]. unfold sizes. cbn [brks_with sizes_with]. rewrite Hv.
    specialize (IH Hes (at_ + size e)). unfold sizes in IH. apply Forall_app_2.
    + eapply list.Forall_impl; [apply He|]. simpl. lia.
    + eapply list.Forall_impl; [exact IH|]. simpl. lia.
  - apply Forall_cons_1 in Hes as [_ Hes]. apply Forall_cons_1 in Hes as [_ Hes].
    unfold sizes. cbn [brks_with sizes_with]. rewrite Hv.
    specialize (IH Hes (at_ + 2)). unfold sizes in IH. eapply list.Forall_impl; [exact IH|]. simpl. lia.
Qed.

Lemma brk_range e at_ : Forall (fun p => at_ <= p < at_ + size e) (brk at_ e).
Proof.
  revert at_. induction e as [w|w|w|w|z|x|a|b Hb|b Hb|t f Ht Hf|c b Hc Hb] using Expr_ind'; intros at_; simpl; try done.
  - case_match; [|done]. constructor; [lia|done].
  - by apply brks_range_with.
  - apply Forall_app_2.
    + eapply list.Forall_impl; [by apply brks_range_with|]. unfold sizes. simpl. lia.
    + eapply list.Forall_impl; [by apply brks_range_with|]. unfold sizes. simpl. lia.
  - eapply list.Forall_impl; [by apply brks_range_with|]. unfold sizes. simpl. lia.
Qed.

Lemma brks_range es at_ : Forall (fun p => at_ <= p < at_ + sizes es) (brks at_ es).
Proof. apply brks_range_with. apply Forall_forall. intros. apply brk_range. Qed.

(** [r'] is [r] with the break jumps at [ps] going to [b]. *)
Definition rebroken (at_ : nat) (ps : list nat) (b : N) (r r' : res CompileError code) : Prop :=
  match r with
  | Ok (c, bl) => exists c', r' = Ok (c', bl) /\ length c' = length c
      /\ forall pre, length pre = at_ -> patch_list b ps (pre ++ c) = pre ++ c'
  | Err er => r' = Err er
  | _ => False
  end.

Lemma patch_one b at_ pre i :
  length pre = at_ -> patch_list b [at_] (pre ++ [i]) = pre ++ [jump_to b i].
Proof. intros <-. simpl. rewrite alter_app_r_alt by lia. by rewrite Nat.sub_diag. Qed.

Definition breaking (ct : nat) (b : N) : option Loop := Some (mkTargets ct b).

(** Two consecutive parts. *)
Lemma patch_parts b at_ ps1 c1 c1' mid ps2 c2 c2' :
  Forall (fun p => p < at_ + length c1) ps1 -> length c1' = length c1 ->
  (forall pre, length pre = at_ -> patch_list b ps1 (pre ++ c1) = pre ++ c1') ->
  (forall pre, length pre = at_ + length c1 + length mid -> patch_list b ps2 (pre ++ c2) = pre ++ c2') ->
  forall pre, length pre = at_ ->
  patch_list b (ps1 ++ ps2) (pre ++ c1 ++ mid ++ c2) = pre ++ c1' ++ mid ++ c2'.
Proof.
  intros H1 Hl Hp1 Hp2 pre Hpre. rewrite patch_list_app, app_assoc.
  rewrite patch_list_post by (rewrite length_app, Hpre; done). rewrite Hp1 by done.
  rewrite (app_assoc (pre ++ c1')), Hp2; [by rewrite <- !app_assoc|]. rewrite !length_app. lia.
Qed.

Lemma range_lt at_ n ps : Forall (fun p => at_ <= p < at_ + n) ps -> Forall (fun p => p < at_ + n) ps.
Proof. intros H. eapply list.Forall_impl; [exact H|]. simpl. lia. Qed.

Lemma gens_rebreak_with ct b es :
  Forall (fun e => forall sp at_ nb, rebroken at_ (brk at_ (expr e)) b
    (gen (breaking ct usize_max) sp at_ nb (expr e)) (gen (breaking ct b) sp at_ nb (expr e))) es ->
  forall at_ nb, rebroken at_ (brks at_ es) b
    (gens (breaking ct usize_max) at_ nb es) (gens (breaking ct b) at_ nb es).
Proof.
  induction es as [|e sp es Hv IH|e1 s1 e2 s2 es p Hv IH] using pairs_ind; intros Hes at_ nb.
  - exists []. done.
  - apply Forall_cons_1 in Hes as [He Hes]. unfold gens. cbn [gens_with brks_with]. rewrite Hv.
    specialize (He sp at_ nb). simpl in He. pose proof (gen_sized e (breaking ct usize_max) sp at_ nb) as Hsz.
    destruct (gen (breaking ct usize_max) sp at_ nb e) as [[c1 b1]|er| |]; simpl in He; [|by rewrite He|done|done].
    destruct He as (c1' & -> & Hl1 & Hp1). simpl in Hsz |- *. rewrite Hl1.
    specialize (IH Hes (at_ + length c1) (nb + length b1)). unfold gens in IH.
    destruct (gens_with _ _ _ (breaking ct usize_max) _ _ es) as [[c2 b2]|er| |]; simpl in IH; [|by rewrite IH|done|done].
    destruct IH as (c2' & -> & Hl2 & Hp2). simpl. exists (c1' ++ c2'). split; [done|].
    split; [by rewrite !length_app, Hl1, Hl2|].
    apply (patch_parts b at_ (brk at_ e) c1 c1' [] (brks (at_ + size e) es) c2 c2'); [|done|done|].
    + rewrite Hsz. apply range_lt, brk_range.
    + intros pre Hpre. rewrite <- Hsz. apply Hp2. rewrite Hpre. simpl. lia.
  - apply Forall_cons_1 in Hes as [_ Hes]. apply Forall_cons_1 in Hes as [_ Hes].
    unfold gens. cbn [gens_with brks_with]. rewrite Hv. destruct p as [nm o].
    specialize (IH Hes (at_ + 2) nb). unfold gens in IH.
    destruct (gens_with _ _ _ (breaking ct usize_max) _ _ es) as [[c2 b2]|er| |]; simpl in IH; [|by rewrite IH|done|done].
    destruct IH as (c2' & -> & Hl2 & Hp2). simpl. eexists. split; [done|]. split; [simpl; lia|].
    intros pre Hpre.
    apply (patch_parts b at_ [] [] [] [instr file starts (Op.PushString nm) s1; instr file starts (Op.CallWord o) s2]
             (brks (at_ + 2) es) c2 c2'); [done|done| |simpl; by rewrite Nat.add_0_r|done].
    intros pre' _. simpl. by rewrite app_nil_r.
Qed.

Lemma gen_rebreak ct b e sp at_ nb :
  rebroken at_ (brk at_ e) b (gen (breaking ct usize_max) sp at_ nb e) (gen (breaking ct b) sp at_ nb e).
Proof.
  revert sp at_ nb.
  induction e as [w|w|w|w|z|x|a|bd Hbd|bd Hbd|t f Ht Hf|c bd Hc Hbd] using Expr_ind'; intros sp at_ nb; simpl;
    try (by eexists).
  - destruct (String.eqb_spec w "break") as [->|Hnb].
    + simpl. eexists. split; [done|]. split; [done|]. intros pre Hpre. by apply patch_one.
    + apply String.eqb_neq in Hnb. unfold word_op, breaking. rewrite Hnb. cbv iota. cbn [continue_to].
      repeat case_match; simplify_eq/=; (eexists; split; [done|]; split; done).
  - destruct (block_of file starts _ sp) as [bk|er| |] eqn:E; simpl; try done; [by eexists| |];
      unfold block_of in E; pose proof (gens_size bd None 0 0) as Hs; unfold gens in Hs;
      by destruct (gens_with _ _ _ None 0 0 bd) as [[? ?]| | |].
  - by apply gens_rebreak_with.
  - pose proof (gens_rebreak_with ct b t Ht (at_ + 1) nb) as IH1. unfold gens in IH1.
    pose proof (gens_size t (breaking ct usize_max) (at_ + 1) nb) as Hsz. unfold gens in Hsz.
    destruct (gens_with _ _ _ (breaking ct usize_max) _ _ t) as [[c1 b1]|er| |]; simpl in IH1; [|by rewrite IH1|done|done].
    destruct IH1 as (c1' & -> & Hl1 & Hp1). simpl in Hsz |- *. rewrite Hl1.
    pose proof (gens_rebreak_with ct b f Hf (at_ + 1 + length c1 + 1) (nb + length b1)) as IH2. unfold gens in IH2.
    destruct (gens_with _ _ _ (breaking ct usize_max) _ _ f) as [[c2 b2]|er| |]; simpl in IH2; [|by rewrite IH2|done|done].
    destruct IH2 as (c2' & -> & Hl2 & Hp2). simpl. rewrite Hl2. eexists. split; [done|].
    split; [simpl; by rewrite !length_app, Hl1; simpl; rewrite Hl2|]. intros pre Hpre.
    set (j1 := instr _ _ (Op.JumpIfFalse _) sp). set (j2 := instr _ _ (Op.Jump _) sp).
    assert (E : forall x y, pre ++ j1 :: x ++ j2 :: y = (pre ++ [j1]) ++ x ++ [j2] ++ y)
      by (intros; by rewrite <- app_assoc).
    rewrite !E.
    apply (patch_parts b (at_ + 1) (brks (at_ + 1) t) c1 c1' [j2] _ c2 c2'); [|done|done| |].
    + rewrite Hsz. apply range_lt, brks_range.
    + intros pre' Hpre'. rewrite <- Hsz. apply Hp2. simpl in Hpre'. lia.
    + rewrite length_app. simpl. lia.
  - pose proof (gens_rebreak_with ct b c Hc at_ nb) as IH1. unfold gens in IH1.
    pose proof (gens_size c (breaking ct usize_max) at_ nb) as Hsz. unfold gens in Hsz.
    destruct (gens_with _ _ _ (breaking ct usize_max) _ _ c) as [[c1 b1]|er| |]; simpl in IH1; [|by rewrite IH1|done|done].
    destruct IH1 as (c1' & -> & Hl1 & Hp1). simpl in Hsz |- *. rewrite Hl1.
    match goal with |- context [gens_with _ _ _ ?l ?a ?n bd] => pose proof (gens_size bd l a n) as Hb end.
    unfold gens in Hb.
    destruct (gens_with _ _ _ _ _ _ bd) as [[c2 b2]|er| |]; simpl in Hb |- *; try done.
    eexists. split; [done|]. split; [by rewrite !length_app, Hl1|]. intros pre Hpre.
    rewrite (app_assoc pre c1), patch_list_post, Hp1, <- app_assoc; try done.
    rewrite length_app, Hpre, Hsz. apply range_lt, brks_range.
Qed.

Lemma gens_rebreak ct b es at_ nb :
  rebroken at_ (brks at_ es) b (gens (breaking ct usize_max) at_ nb es) (gens (breaking ct b) at_ nb es).
Proof. apply gens_rebreak_with. apply Forall_forall. intros. apply gen_rebreak. Qed.
End proofs.

(** ** The compiler's state *)

Definition bump (ps : list nat) (loops : list LoopContext) : list LoopContext :=
  match loops with
  | l :: ls => mkLoop (continue_target l) (break_jumps l ++ ps) :: ls
  | [] => []
  end.

(** The state after emitting code and blocks, with break jumps at [ps]. *)
Definition after (s : Compiler) (c : list Instruction) (b : list Chunk) (ps : list nat) : Compiler :=
  mkCompiler (mkChunk (chunk_file (chunk s)) (instructions (chunk s) ++ c) (blocks (chunk s) ++ b))
    (comp_line_starts s) (default_span s) (bump ps (loop_stack s)).

Definition top_loop (s : Compiler) : option Loop :=
  match loop_stack s with
  | l :: _ => Some (mkTargets (continue_target l) usize_max)
  | [] => None
  end.

Definition at_ (s : Compiler) : nat := length (instructions (chunk s)).
Definition nb (s : Compiler) : nat := length (blocks (chunk s)).
Definition instr_of (s : Compiler) (o : Op) (sp : Span) : Instruction :=
  instr (chunk_file (chunk s)) (comp_line_starts s) o sp.
Definition gen_of (s : Compiler) := gen (chunk_file (chunk s)) (comp_line_starts s).
Definition gens_of (s : Compiler) := gens (chunk_file (chunk s)) (comp_line_starts s).

Lemma bump_nil l : bump [] l = l.
Proof. destruct l as [|[c b] l]; simpl; [done|]. by rewrite app_nil_r. Qed.

Lemma bump_bump p q l : bump q (bump p l) = bump (p ++ q) l.
Proof. destruct l as [|[c b] l]; simpl; [done|]. by rewrite <- app_assoc. Qed.

Lemma after_after s c1 b1 p1 c2 b2 p2 :
  after (after s c1 b1 p1) c2 b2 p2 = after s (c1 ++ c2) (b1 ++ b2) (p1 ++ p2).
Proof. unfold after. simpl. by rewrite bump_bump, <- !app_assoc. Qed.

Lemma after_id s : after s [] [] [] = s.
Proof. destruct s as [[f i b] l d st]. unfold after. simpl. by rewrite !app_nil_r, bump_nil. Qed.

Lemma at_after s c b p : at_ (after s c b p) = at_ s + length c.
Proof. unfold at_. simpl. by rewrite length_app. Qed.

Lemma nb_after s c b p : nb (after s c b p) = nb s + length b.
Proof. unfold nb. simpl. by rewrite length_app. Qed.

Lemma top_after s c b p : top_loop (after s c b p) = top_loop s.
Proof. unfold top_loop. simpl. by destruct (loop_stack s). Qed.

Lemma span_after s c b p : default_span (after s c b p) = default_span s.
Proof. done. Qed.

Lemma gens_after s c b p : gens_of (after s c b p) = gens_of s.
Proof. done. Qed.

Lemma instr_after s c b p : instr_of (after s c b p) = instr_of s.
Proof. done. Qed.

(** [m], run in [s], emits what the layout [r] says. *)
Definition emits (r : res CompileError code) (m : C unit) (s : Compiler) (ps : list nat) : Prop :=
  match r with
  | Ok (c, b) => m s = Ok (tt, after s c b ps)
  | Err er => m s = Err er
  | _ => False
  end.

Lemma push_at_run o sp s : push_at o sp s = Ok (tt, after s [instr_of s o sp] [] []).
Proof.
  unfold push_at, smodify, after. destruct s as [[f i b] l d st]. simpl. by rewrite app_nil_r, bump_nil.
Qed.

Lemma push_op_run o s : push_op o s = Ok (tt, after s [instr_of s o (default_span s)] [] []).
Proof. unfold push_op, sbind, sget. apply push_at_run. Qed.

Lemma here_run s : here s = Ok (at_ s, s).
Proof. done. Qed.

Lemma emit_block_run b s : emit_block b s = Ok (N.of_nat (nb s), after s [] [b] []).
Proof.
  unfold emit_block, after, nb. destruct s as [[f i bl] l d st]. simpl. unfold sbind, sret, smodify, set_chunk.
  simpl. by rewrite app_nil_r, bump_nil.
Qed.

(** Patching the code emitted since a state. *)
Definition with_instructions (s : Compiler) (l : list Instruction) : Compiler :=
  mkCompiler (mkChunk (chunk_file (chunk s)) l (blocks (chunk s))) (comp_line_starts s) (default_span s)
    (loop_stack s).

Lemma patch_run s i o :
  i < length (instructions (chunk s)) ->
  patch i o s = Ok (tt, with_instructions s (alter (fun x => mkInstruction o (ispan x)) i (instructions (chunk s)))).
Proof.
  intros Hi. destruct (lookup_lt_is_Some_2 _ _ Hi) as [x Hx].
  unfold patch, sbind, sget, slift, set_op. rewrite Hx. unfold smodify, set_chunk, with_instructions. simpl.
  do 4 f_equal. apply list_eq. intros j. destruct (decide (i = j)) as [<-|Hne].
  - by rewrite list_lookup_insert_eq, list_lookup_alter_eq, Hx by (by eapply lookup_lt_Some).
  - by rewrite list_lookup_insert_ne, list_lookup_alter_ne by done.
Qed.

Lemma patch_breaks_run ps b s :
  Forall (fun p => p < length (instructions (chunk s))) ps ->
  patch_breaks ps b s = Ok (tt, with_instructions s (patch_list b ps (instructions (chunk s)))).
Proof.
  revert s. induction ps as [|p ps IH]; intros s Hps; simpl.
  - by destruct s as [[f i bl] l d st].
  - apply Forall_cons_1 in Hps as [Hp Hps]. unfold sbind. rewrite patch_run by done.
    rewrite IH; [done|]. simpl. by rewrite length_alter.
Qed.

(** ** Expressions *)

Lemma emits_seq r1 r2 m1 m2 s p1 p2 :
  emits r1 m1 s p1 ->
  (forall c1 b1, r1 = Ok (c1, b1) -> emits (r2 c1 b1) m2 (after s c1 b1 p1) p2) ->
  emits (let? (c1, b1) := r1 in let? (c2, b2) := r2 c1 b1 in Ok (c1 ++ c2, b1 ++ b2)) (m1 ;; m2) s (p1 ++ p2).
Proof.
  unfold emits at 1. intros H1 H2. destruct r1 as [[c1 b1]|er| |]; [|simpl|done|done].
  - specialize (H2 c1 b1 eq_refl). simpl. unfold emits in H2 |- *.
    destruct (r2 c1 b1) as [[c2 b2]|er| |]; simpl; try done; unfold sbind; rewrite H1.
    + by rewrite H2, after_after.
    + done.
  - unfold sbind. by rewrite H1.
Qed.

(** An instruction in front. *)
Lemma emits_op (r : res CompileError code) o m s ps :
  emits r m (after s [instr_of s o (default_span s)] [] []) ps ->
  emits (let? (c, b) := r in Ok (instr_of s o (default_span s) :: c, b)) (push_op o ;; m) s ps.
Proof.
  unfold emits. intros H.
  destruct r as [[c b]|er| |]; simpl; try done; rewrite (sbind_run _ _ _ _ _ (push_op_run _ _)), H; [|done].
  by rewrite after_after.
Qed.

Lemma emits_push_at o sp s : emits (Ok ([instr_of s o sp], [])) (push_at o sp) s [].
Proof. apply push_at_run. Qed.

Lemma emits_push o s : emits (Ok ([instr_of s o (default_span s)], [])) (push_op o) s [].
Proof. apply push_op_run. Qed.

Lemma emits_default r sp m s ps :
  emits r m (set_default_span sp s) ps -> emits r (with_default_span sp m) s ps.
Proof.
  unfold emits, with_default_span. intros H. destruct r as [[c b]|er| |]; try done;
    unfold sbind, sget, smodify; rewrite H; [|done]. by destruct s as [[f i bl] l d st].
Qed.

(** [compile_exprs] emits the layout of a statement list, given that
    [compile_expr] does for each of its expressions. *)
Definition emits_expr (e : Expr) : Prop := forall s,
  emits (gen_of s (top_loop s) (default_span s) (at_ s) (nb s) e) (compile_expr e) s (brk (at_ s) e).

Lemma exprs_emits es :
  Forall (fun e => emits_expr (expr e)) es -> forall s,
  emits (gens_of s (top_loop s) (at_ s) (nb s) es) (compile_exprs es) s (brks (at_ s) es).
Proof.
  induction es as [|e sp es Hv IH|e1 s1 e2 s2 es p Hv IH] using pairs_ind; intros Hes s.
  - simpl. unfold sret. by rewrite after_id.
  - apply Forall_cons_1 in Hes as [He Hes]. unfold gens_of, gens, compile_exprs.
    cbn [gens_with compile_exprs_with brks_with]. rewrite Hv.
    specialize (He (set_default_span sp s)). apply emits_default in He.
    change (gen_of (set_default_span sp s)) with (gen_of s) in He.
    change (top_loop (set_default_span sp s)) with (top_loop s) in He.
    change (at_ (set_default_span sp s)) with (at_ s) in He.
    change (nb (set_default_span sp s)) with (nb s) in He. simpl in He.
    apply (emits_seq _ (fun c1 b1 => gens_of s (top_loop s) (at_ s + length c1) (nb s + length b1) es)
             _ _ s (brk (at_ s) e) (brks (at_ s + size e) es)); [exact He|].
    intros c1 b1 Hr. pose proof (gen_sized (chunk_file (chunk s)) (comp_line_starts s) e (top_loop s) sp (at_ s) (nb s)) as Hsz.
    unfold gen_of in Hr. rewrite Hr in Hsz. simpl in Hsz. rewrite <- Hsz.
    specialize (IH Hes (after s c1 b1 (brk (at_ s) e))). by rewrite top_after, at_after, nb_after in IH.
  - apply Forall_cons_1 in Hes as [_ Hes]. apply Forall_cons_1 in Hes as [_ Hes].
    unfold gens_of, gens, compile_exprs. cbn [gens_with compile_exprs_with brks_with]. rewrite Hv.
    destruct p as [nm o].
    specialize (IH Hes (after s [instr_of s (Op.PushString nm) s1; instr_of s (Op.CallWord o) s2] [] [])).
    rewrite top_after, at_after, nb_after in IH. rewrite Nat.add_0_r in IH. unfold emits in IH |- *.
    change (gens_of (after s _ _ _)) with (gens_of s) in IH. unfold gens_of, gens in IH. simpl length in IH.
    destruct (gens_with _ _ _ (top_loop s) (at_ s + 2) (nb s) es) as [[c b]|er| |]; simpl; try done;
      rewrite (sbind_run _ _ _ _ _ (push_at_run _ _ _)), (sbind_run _ _ _ _ _ (push_at_run _ _ _)), after_after;
      unfold compile_exprs in IH; etrans; try exact IH; try done. by rewrite after_after.
Qed.

Lemma symbol_emits w : emits_expr (Expr.Symbol w).
Proof.
  intros s. unfold gen_of. cbn [gen brk compile_expr]. unfold compile_symbol, word_op, top_loop.
  destruct (String.eqb w "nil") eqn:E1; [apply String.eqb_eq in E1 as ->; apply emits_push|].
  destruct (String.eqb w "true") eqn:E2; [apply String.eqb_eq in E2 as ->; apply emits_push|].
  destruct (String.eqb w "false") eqn:E3; [apply String.eqb_eq in E3 as ->; apply emits_push|].
  destruct (String.eqb w "return") eqn:E4; [apply String.eqb_eq in E4 as ->; apply emits_push|].
  destruct (String.eqb w "break") eqn:E5.
  { destruct (loop_stack s) as [|l ls] eqn:El; simpl; unfold sbind at 1; simpl; rewrite El; [done|].
    rewrite (sbind_run _ _ _ _ _ (here_run _)), (sbind_run _ _ _ _ _ (push_op_run _ _)).
    unfold smodify, after. simpl. by rewrite El. }
  destruct (String.eqb w "continue") eqn:E6; [|apply emits_push].
  destruct (loop_stack s) as [|l ls] eqn:El; simpl; unfold sbind at 1; simpl; rewrite El; [done|].
  by rewrite push_op_run.
Qed.

(** A block is compiled in a compiler of its own. *)
Lemma block_run es sp s :
  Forall (fun e => emits_expr (expr e)) es ->
  compile_block_chunk es sp s
  = match block (chunk_file (chunk s)) (comp_line_starts s) es sp with
    | Ok b => Ok (b, s)
    | Err er => Err er
    | Panic => Panic
    | OutOfFuel => OutOfFuel
    end.
Proof.
  intros Hes. unfold compile_block_chunk, block_chunk_with, block, block_of, gens.
  set (s0 := mkCompiler (new_chunk (chunk_file (chunk s))) (comp_line_starts s) sp []).
  pose proof (exprs_emits es Hes s0) as H. unfold emits in H.
  unfold gens_of, gens, top_loop, at_, nb in H. simpl in H. unfold sbind at 1, sget. fold s0.
  destruct (gens_with _ _ _ None 0 0 es) as [[c b]|er| |]; simpl; try done;
    unfold sbind, slift; rewrite H; [|done].
  unfold sret. do 2 f_equal.
Qed.

Lemma block_emits b : Forall (fun e => emits_expr (expr e)) b -> emits_expr (Expr.Block b).
Proof.
  intros Hb s. unfold gen_of. cbn [gen brk compile_expr].
  pose proof (block_run b (default_span s) s Hb) as Hrun. unfold block, gens, compile_block_chunk, compile_exprs in Hrun.
  unfold emits.
  destruct (block_of _ _ _ (default_span s)) as [bk|er| |] eqn:E; cbn [rbind]; rewrite ?sbind_get.
  - rewrite (sbind_run _ _ _ _ _ Hrun), (sbind_run _ _ _ _ _ (emit_block_run _ _)), push_op_run, after_after. done.
  - by rewrite (sbind_err _ _ _ _ Hrun).
  - unfold block_of in E. pose proof (gens_size (chunk_file (chunk s)) (comp_line_starts s) b None 0 0) as Hs.
    unfold gens in Hs. by destruct (gens_with _ _ _ None 0 0 b) as [[? ?]| | |].
  - unfold block_of in E. pose proof (gens_size (chunk_file (chunk s)) (comp_line_starts s) b None 0 0) as Hs.
    unfold gens in Hs. by destruct (gens_with _ _ _ None 0 0 b) as [[? ?]| | |].
Qed.

(** Patching one instruction of the code emitted since [s]. *)
Lemma patch_after s c1 x c2 b ps o :
  patch (at_ s + length c1) o (after s (c1 ++ x :: c2) b ps)
  = Ok (tt, after s (c1 ++ mkInstruction o (ispan x) :: c2) b ps).
Proof.
  unfold at_. rewrite patch_run by (simpl; rewrite !length_app; simpl; lia).
  unfold with_instructions, after. simpl. do 4 f_equal.
  rewrite alter_app_r_alt by lia. f_equal. rewrite alter_app_r_alt by lia.
  by replace (length (instructions (chunk s)) + length c1 - length (instructions (chunk s)) - length c1) with 0 by lia.
Qed.

Lemma instr_ispan s o sp o' : mkInstruction o' (ispan (instr_of s o sp)) = instr_of s o' sp.
Proof. done. Qed.

(** The same runs, from a state that has emitted since [s]. *)
Lemma push_after o s c b p :
  push_op o (after s c b p) = Ok (tt, after s (c ++ [instr_of s o (default_span s)]) b p).
Proof. by rewrite push_op_run, after_after, !app_nil_r. Qed.

Lemma here_after s c b p : here (after s c b p) = Ok (at_ s + length c, after s c b p).
Proof. rewrite here_run. by rewrite at_after. Qed.

Lemma exprs_after es s c b p :
  Forall (fun e => emits_expr (expr e)) es ->
  match gens_of s (top_loop s) (at_ s + length c) (nb s + length b) es with
  | Ok (c', b') => compile_exprs es (after s c b p)
                   = Ok (tt, after s (c ++ c') (b ++ b') (p ++ brks (at_ s + length c) es))
                   /\ length c' = sizes es
  | Err er => compile_exprs es (after s c b p) = Err er
  | _ => False
  end.
Proof.
  intros Hes. pose proof (exprs_emits es Hes (after s c b p)) as H.
  rewrite top_after, at_after, nb_after in H. change (gens_of (after s c b p)) with (gens_of s) in H.
  pose proof (gens_size (chunk_file (chunk s)) (comp_line_starts s) es (top_loop s) (at_ s + length c) (nb s + length b)) as Hs.
  unfold emits, gens_of in *. destruct (gens _ _ _ _ _ es) as [[c' b']|er| |]; try done.
  split; [|done]. by rewrite H, after_after.
Qed.

Lemma if_emits t f :
  Forall (fun e => emits_expr (expr e)) t -> Forall (fun e => emits_expr (expr e)) f ->
  emits_expr (Expr.If t f).
Proof.
  intros Ht Hf s. unfold gen_of. cbn [gen brk compile_expr].
  change (compile_exprs_with compile_expr) with compile_exprs.
  change (gens_with (chunk_file (chunk s)) (comp_line_starts s)
            (gen (chunk_file (chunk s)) (comp_line_starts s))) with (gens_of s).
  set (j1 := instr_of s (Op.JumpIfFalse usize_max) (default_span s)).
  set (j2 := instr_of s (Op.Jump usize_max) (default_span s)).
  pose proof (exprs_after t s [j1] [] [] Ht) as H1. simpl length in H1. rewrite Nat.add_0_r in H1.
  unfold emits.
  destruct (gens_of s (top_loop s) (at_ s + 1) (nb s) t) as [[ct bt]|er| |]; cbn [rbind]; try done; cycle 1.
  { erewrite sbind_run by apply here_run. erewrite sbind_run by apply push_op_run. by apply sbind_err. }
  destruct H1 as [H1 Hs1].
  pose proof (exprs_after f s (([j1] ++ ct) ++ [j2]) ([] ++ bt) ([] ++ brks (at_ s + 1) t) Hf) as H2.
  rewrite !length_app in H2. simpl length in H2.
  replace (at_ s + (1 + length ct + 1)) with (at_ s + 1 + length ct + 1) in H2 by lia.
  change (0 + length bt) with (length bt) in H2.
  destruct (gens_of s (top_loop s) (at_ s + 1 + length ct + 1) (nb s + length bt) f) as [[cf bf]|er| |]; cbn [rbind]; try done; cycle 1.
  { erewrite sbind_run by apply here_run. erewrite sbind_run by apply push_op_run.
    erewrite sbind_run by apply H1. erewrite sbind_run by apply here_after. erewrite sbind_run by apply push_after.
    erewrite sbind_run by apply here_after. by apply sbind_err. }
  destruct H2 as [H2 Hs2].
  erewrite sbind_run by apply here_run. erewrite sbind_run by apply push_op_run.
  erewrite sbind_run by apply H1. erewrite sbind_run by apply here_after. erewrite sbind_run by apply push_after.
  erewrite sbind_run by apply here_after. erewrite sbind_run by apply H2. erewrite sbind_run by apply here_after.
  simpl app. rewrite <- !app_assoc. simpl app. fold j1 j2. rewrite Hs1.
  pose proof (patch_after s [] j1 (ct ++ j2 :: cf) (bt ++ bf)) as P1. simpl app in P1. simpl length in P1. rewrite Nat.add_0_r in P1.
  replace (at_ s + length (j1 :: ct ++ [j2])) with (at_ s + 1 + sizes t + 1)
    by (simpl; rewrite length_app; simpl; lia).
  replace (at_ s + length (j1 :: ct ++ j2 :: cf)) with (at_ s + 1 + sizes t + 1 + length cf)
    by (simpl; rewrite length_app; simpl; lia).
  erewrite sbind_run by apply P1.
  apply (patch_after s (instr_of s (Op.JumpIfFalse (N.of_nat (at_ s + 1 + sizes t + 1))) (default_span s) :: ct)
           j2 cf (bt ++ bf)).
Qed.

Lemma while_emits c b :
  Forall (fun e => emits_expr (expr e)) c -> Forall (fun e => emits_expr (expr e)) b ->
  emits_expr (Expr.While c b).
Proof.
  intros Hc Hb s. unfold gen_of. cbn [gen brk compile_expr].
  change (compile_exprs_with compile_expr) with compile_exprs.
  change (gens_with (chunk_file (chunk s)) (comp_line_starts s)
            (gen (chunk_file (chunk s)) (comp_line_starts s))) with (gens_of s).
  set (j1 := instr_of s (Op.JumpIfFalse usize_max) (default_span s)).
  pose proof (exprs_after c s [] [] [] Hc) as H1. simpl length in H1. rewrite !Nat.add_0_r, after_id in H1.
  unfold emits.
  destruct (gens_of s (top_loop s) (at_ s) (nb s) c) as [[cc bc]|er| |]; cbn [rbind]; try done; cycle 1.
  { erewrite sbind_run by apply here_run. by apply sbind_err. }
  destruct H1 as [H1 Hs1]. simpl app in H1.
  (* the state the body is compiled in: a new innermost loop *)
  set (s1 := after s (cc ++ [j1]) bc (brks (at_ s) c)) in *.
  set (s2 := set_loop_stack (mkLoop (at_ s) [] :: loop_stack s1) s1).
  set (stop := at_ s + length cc + 1 + sizes b + 1).
  pose proof (exprs_emits b Hb s2) as H2.
  change (gens_of s2) with (gens_of s) in H2.
  replace (at_ s2) with (at_ s + length cc + 1) in H2
    by (change (at_ s2) with (at_ s1); unfold s1; rewrite at_after, length_app; simpl; lia).
  replace (nb s2) with (nb s + length bc) in H2 by (change (nb s2) with (nb s1); unfold s1; by rewrite nb_after).
  change (top_loop s2) with (breaking (at_ s) usize_max) in H2.
  pose proof (gens_rebreak (chunk_file (chunk s)) (comp_line_starts s) (at_ s) (N.of_nat stop) b
                (at_ s + length cc + 1) (nb s + length bc)) as Hre.
  pose proof (gens_size (chunk_file (chunk s)) (comp_line_starts s) b (breaking (at_ s) usize_max)
                (at_ s + length cc + 1) (nb s + length bc)) as Hsz.
  change (gens (chunk_file (chunk s)) (comp_line_starts s)) with (gens_of s) in Hre, Hsz.
  change (Some (mkTargets (at_ s) (N.of_nat stop))) with (breaking (at_ s) (N.of_nat stop)).
  unfold emits in H2.
  destruct (gens_of s (breaking (at_ s) usize_max) _ _ b) as [[cb bb]|er| |]; try done; simpl in Hre, Hsz; cycle 1.
  { rewrite Hre. cbn [rbind]. erewrite sbind_run by apply here_run. erewrite sbind_run by apply H1.
    erewrite sbind_run by apply here_after. erewrite sbind_run by apply push_after.
    erewrite sbind_run by done. fold s1. by apply sbind_err. }
  destruct Hre as (cb' & -> & Hl & Hp). cbn [rbind].
  erewrite sbind_run by apply here_run. erewrite sbind_run by apply H1.
  erewrite sbind_run by apply here_after. erewrite sbind_run by apply push_after.
  fold j1 s1. erewrite sbind_run by done. fold s2. erewrite sbind_run by apply H2.
  set (ps := brks (at_ s + length cc + 1) b) in *.
  set (jend := instr_of s (Op.Jump (N.of_nat (at_ s))) (default_span s)).
  assert (Hpop : pop_loop (after s2 cb bb ps)
    = Ok (mkLoop (at_ s) ps, after s ((cc ++ [j1]) ++ cb) (bc ++ bb) (brks (at_ s) c))).
  { rewrite <- (app_nil_r (brks (at_ s) c)), <- after_after. fold s1. unfold pop_loop, sbind, sget, smodify, sret, after.
    simpl. by rewrite bump_nil. }
  erewrite sbind_run by apply Hpop. erewrite sbind_run by apply push_after.
  erewrite sbind_run by apply here_after. fold jend.
  replace (at_ s + length (((cc ++ [j1]) ++ cb) ++ [jend])) with stop
    by (unfold stop; rewrite !length_app; simpl; lia).
  rewrite <- !app_assoc. simpl app.
  erewrite sbind_run by apply patch_after. cbn [break_jumps].
  set (j1' := mkInstruction (Op.JumpIfFalse (N.of_nat stop)) (ispan j1)).
  pose proof (brks_range b (at_ s + length cc + 1)) as Hr. fold ps in Hr.
  rewrite patch_breaks_run; cycle 1.
  { eapply list.Forall_impl; [exact Hr|]. intros x. simpl. unfold at_.
    rewrite !length_app. simpl. rewrite length_app. simpl. lia. }
  unfold with_instructions, after. simpl. do 4 f_equal.
  replace (instructions (chunk s) ++ cc ++ j1' :: cb ++ [jend])
    with (((instructions (chunk s) ++ cc ++ [j1']) ++ cb) ++ [jend]) by by rewrite <- !app_assoc.
  assert (Hlen : length (instructions (chunk s) ++ cc ++ [j1']) = at_ s + length cc + 1)
    by (unfold at_; rewrite !length_app; simpl; lia).
  rewrite patch_list_post, Hp by (done || (eapply list.Forall_impl; [exact Hr|]; intros x; simpl;
    rewrite length_app; lia)).
  by rewrite <- !app_assoc.
Qed.

(** The compiler emits the layout of every expression. *)
Lemma compile_spec e : emits_expr e.
Proof.
  induction e as [w|w|w|w|z|x|a|b Hb|b Hb|t f Ht Hf|c b Hc Hb] using Expr_ind'.
  - apply symbol_emits.
  - intros s. done.
  - intros s. unfold gen_of. cbn [gen brk compile_expr]. unfold emits.
    by rewrite (sbind_run _ _ _ _ _ (push_op_run _ _)), push_op_run, after_after.
  - intros s. apply emits_push.
  - intros s. apply emits_push.
  - intros s. apply emits_push.
  - intros s. done.
  - by apply block_emits.
  - intros s. by apply exprs_emits.
  - by apply if_emits.
  - by apply while_emits.
Qed.

Lemma all_emit es : Forall (fun e => emits_expr (expr e)) es.
Proof. apply Forall_forall. intros. apply compile_spec. Qed.

(** ** Items *)

Lemma emits_no_loop r m s ps qs : loop_stack s = [] -> emits r m s ps -> emits r m s qs.
Proof. intros Hl. unfold emits, after. by rewrite Hl. Qed.

Lemma expr_item_emits e sp s :
  loop_stack s = [] -> emits (gen_of s None sp (at_ s) (nb s) e) (compile_expr_item e sp) s [].
Proof.
  intros Hl. eapply emits_no_loop; [done|]. apply emits_default.
  pose proof (compile_spec e (set_default_span sp s)) as H.
  change (gen_of (set_default_span sp s)) with (gen_of s) in H.
  replace (top_loop (set_default_span sp s)) with (@None Loop) in H by (unfold top_loop; simpl; by rewrite Hl).
  exact H.
Qed.

(** A declaration: the block is stored, then one instruction refers to it. *)
Lemma decl_emits mk body sp s ps :
  loop_stack s = [] ->
  emits (decl (chunk_file (chunk s)) (comp_line_starts s) mk body sp (nb s))
    (let* b := compile_block_chunk body sp in let* i := emit_block b in push_at (mk i) sp) s ps.
Proof.
  intros Hl. apply (emits_no_loop _ _ _ []); [done|]. unfold decl, emits.
  pose proof (block_run body sp s (all_emit body)) as Hrun.
  destruct (block _ _ body sp) as [b|er| |] eqn:E; cbn [rbind].
  - rewrite (sbind_run _ _ _ _ _ Hrun), (sbind_run _ _ _ _ _ (emit_block_run _ _)), push_at_run, after_after. done.
  - by rewrite (sbind_err _ _ _ _ Hrun).
  - unfold block, block_of in E. pose proof (gens_size (chunk_file (chunk s)) (comp_line_starts s) body None 0 0) as Hs.
    by destruct (gens _ _ None 0 0 body) as [[? ?]| | |].
  - unfold block, block_of in E. pose proof (gens_size (chunk_file (chunk s)) (comp_line_starts s) body None 0 0) as Hs.
    by destruct (gens _ _ None 0 0 body) as [[? ?]| | |].
Qed.

Lemma is_declaration_pair w es name : is_declaration w es = Some name -> exists e1 s1 e2 s2, es = [mkSpanned e1 s1; mkSpanned e2 s2].
Proof. destruct es as [|[e1 s1] [|[e2 s2] []]]; try done. intros _. eauto. Qed.

Lemma class_expr_emits e sp s :
  loop_stack s = [] ->
  emits (gen_class_expr (chunk_file (chunk s)) (comp_line_starts s) (at_ s) (nb s) e sp) (compile_class_expr e sp) s [].
Proof.
  intros Hl. unfold gen_class_expr, compile_class_expr.
  destruct e; try (by apply expr_item_emits).
  destruct (table_declaration exprs) as [name|] eqn:E1.
  { destruct (is_declaration_pair _ _ _ E1) as (e1 & s1 & e2 & s2 & ->). unfold emits.
    by rewrite (sbind_run _ _ _ _ _ (push_at_run _ _ _)), push_at_run, after_after. }
  destruct (is_field_declaration exprs); [apply emits_push_at|].
  destruct (is_accessor_declaration exprs); [apply emits_push_at|].
  destruct (block_method_declaration exprs) as [[[args name] body]|]; [|by apply expr_item_emits].
  by apply decl_emits.
Qed.

Lemma class_item_emits it s :
  loop_stack s = [] ->
  emits (gen_class_item (chunk_file (chunk s)) (comp_line_starts s) (at_ s) (nb s) it) (compile_class_body_item it) s [].
Proof.
  intros Hl. destruct it as [[name sup b d sp]|m|f|m|e sp d]; simpl; try done.
  - by apply decl_emits.
  - by apply class_expr_emits.
Qed.

Lemma all_emits (g : nat -> nat -> Item -> res CompileError code) (f : Item -> C unit) s its :
  (forall it c b, loop_stack s = [] -> emits (g (at_ (after s c b [])) (nb (after s c b [])) it) (f it) (after s c b []) []) ->
  loop_stack s = [] -> forall c b,
  emits (gen_all g (at_ (after s c b [])) (nb (after s c b [])) its) (compile_all f its) (after s c b []) [].
Proof.
  intros Hf Hl. induction its as [|it its IH]; intros c b.
  - simpl. unfold sret. by rewrite after_id.
  - simpl. apply (emits_seq _ (fun c1 b1 => gen_all g (at_ (after s c b []) + length c1) (nb (after s c b []) + length b1) its)
      _ _ _ [] []); [by apply Hf|]. intros c1 b1 _.
    rewrite after_after. specialize (IH (c ++ c1) (b ++ b1)).
    rewrite !at_after, !nb_after, !length_app, !Nat.add_assoc in IH. by rewrite at_after, nb_after.
Qed.

Lemma item_emits it s :
  loop_stack s = [] ->
  emits (gen_item (chunk_file (chunk s)) (comp_line_starts s) (at_ s) (nb s) it) (compile_item it) s [].
Proof.
  intros Hl. destruct it as [[name sup body d sp]|m|f|m|e sp d]; simpl; try done.
  - set (x1 := instr (chunk_file (chunk s)) (comp_line_starts s) (Op.BeginClass name sup) sp).
    pose proof (all_emits (gen_class_item (chunk_file (chunk s)) (comp_line_starts s)) compile_class_body_item s body) as H.
    specialize (H ltac:(intros it c b _; apply (class_item_emits it (after s c b [])); simpl; by rewrite Hl) Hl [x1] []).
    rewrite at_after, nb_after, Nat.add_0_r in H. simpl length in H. unfold emits in H |- *.
    assert (Hbegin : forall o, smodify (E:=CompileError) (fun s0 => set_chunk (push o (source_span s sp) (chunk s0)) s0) s
      = Ok (tt, after s [instr (chunk_file (chunk s)) (comp_line_starts s) o sp] [] [])) by (intros o; apply (push_at_run o sp s)).
    destruct (gen_all _ _ _ body) as [[c b]|er| |]; cbn [rbind]; try done; rewrite sbind_get;
      rewrite (sbind_run _ _ _ _ _ (Hbegin _)); fold x1; [|by apply sbind_err].
    rewrite (sbind_run _ _ _ _ _ H), after_after.
    pose proof (push_at_run Op.EndClass sp (after s ([x1] ++ c) ([] ++ b) ([] ++ []))) as Hend.
    etrans; [exact Hend|]. rewrite after_after. by rewrite !app_nil_r, <- app_assoc.
  - by apply decl_emits.
  - by apply expr_item_emits.
Qed.

Lemma lower_module_eq file source m :
  lower_module file source m = layout_module file (line_starts source) m.
Proof.
  unfold lower_module, layout_module, compile_module.
  pose proof (all_emits (gen_item file (line_starts source)) compile_item (from_source file source) (items m)) as H.
  specialize (H ltac:(intros it c b _; by apply (item_emits it (after (from_source file source) c b []))) eq_refl [] []).
  rewrite after_id in H. unfold emits in H. change (at_ (from_source file source)) with 0 in H.
  change (nb (from_source file source)) with 0 in H.
  destruct (gen_all _ 0 0 (items m)) as [[c b]|er| |]; simpl; try done; by rewrite H.
Qed.
