(* ===== verification/CodeSafety.v ===== *)
(** * Compiled code is well formed

    What the virtual machine relies on and checks again at run time
    ([validate_jump], the block lookups of [execute_instruction]): every jump
    of a chunk lands inside it or just past its end, every block operand names
    a block of the chunk, and every nested block is closed by a return; and
    the same from source text on: what [compile_source] gives is well formed. *)

From stdpp Require Import base tactics list strings option numbers.
From Stdlib Require Import ZArith NArith Lia Ascii String.
From S2P Require Import Prelude RustStr RustFloat Syntax Lexer Parser ParserComplete Diagnostic Bytecode BTree Compiler Macro Expander ExpanderProofs.
From S2P Require Import Layout CompilerProofs.

Open Scope string_scope.
Open Scope list_scope.
Open Scope nat_scope.

(** The operands of an instruction fit a chunk of [n] instructions and [nb]
    blocks. *)
Definition fits (n nb : nat) (i : Instruction) : bool :=
  match op i with
  | Op.Jump t | Op.JumpIfFalse t => (t <=? N.of_nat n)%N
  | Op.PushBlock b | Op.AddMethod _ b _ | Op.AddFunction _ b _ => (b <? N.of_nat nb)%N
  | _ => true
  end.

Definition returns (c : Chunk) : bool :=
  match list.last (ops c) with Some Op.Return => true | _ => false end.

(** Fitting instructions, all the way down; nested blocks end with a return. *)
Fixpoint safe_chunk (c : Chunk) : bool :=
  let 'mkChunk _ i b := c in
  forallb (fits (length i) (length b)) i && forallb (fun b => returns b && safe_chunk b) b.

(** ** Proof *)

Definition loop_fits (n : nat) (loop : option Loop) : Prop :=
  match loop with
  | Some l => continue_to l <= n /\ (break_to l <= N.of_nat n)%N
  | None => True
  end.

Definition safe_block (b : Chunk) : Prop := (returns b && safe_chunk b) = true.

(** Code placed at [at_] in a chunk of [n] instructions, its blocks after the
    first [nb] of the chunk's [m]. *)
Definition safe (n m at_ nb : nat) (r : res CompileError code) : Prop :=
  match r with
  | Ok (c, b) => at_ + length c <= n -> nb + length b <= m ->
                 Forall (fun i => fits n m i = true) c /\ Forall safe_block b
  | Err _ => True
  | Panic | OutOfFuel => False
  end.

Lemma block_of_safe file starts c b sp :
  Forall (fun i => fits (length c) (length b) i = true) c -> Forall safe_block b ->
  safe_block (mkChunk file (c ++ [instr file starts Op.Return sp]) b).
Proof.
  intros Hc Hb. unfold safe_block, returns, ops. simpl. rewrite fmap_app. simpl. rewrite last_snoc. simpl.
  apply andb_true_intro. split.
  - apply forallb_forall. intros i [Hi|[<-|[]]]%in_app_or; [|done].
    rewrite List.Forall_forall in Hc. apply Hc in Hi. revert Hi.
    unfold fits. rewrite length_app. simpl. case_match; rewrite ?N.leb_le, ?N.ltb_lt; try done; lia.
  - apply forallb_forall. intros x Hx. rewrite List.Forall_forall in Hb. by apply Hb.
Qed.

Section safety.
Variables (file : string) (starts : list nat).
Local Abbreviation gen := (gen file starts).
Local Abbreviation gens := (gens file starts).

Definition gen_safe_at (e : Expr) : Prop := forall n m loop sp at_ nb,
  loop_fits n loop -> safe n m at_ nb (gen loop sp at_ nb e).

Lemma safe_bind n' m' at_ nb r (k : code -> res CompileError code) :
  safe n' m' at_ nb r ->
  (forall c b, (at_ + length c <= n' -> nb + length b <= m' ->
                Forall (fun i => fits n' m' i = true) c /\ Forall safe_block b) ->
     r = Ok (c, b) -> safe n' m' at_ nb (k (c, b))) ->
  safe n' m' at_ nb (rbind r k).
Proof. destruct r as [[c b]| | |]; simpl; try done. intros H Hk. by apply Hk. Qed.

Lemma gens_safe es : Forall (fun e => gen_safe_at (expr e)) es ->
  forall n m loop at_ nb, loop_fits n loop -> safe n m at_ nb (gens loop at_ nb es).
Proof.
  induction es as [|e sp es Hv IH|e1 s1 e2 s2 es p Hv IH] using pairs_ind; intros Hes n' m' loop at_ nb Hl; [done| |].
  - apply Forall_cons_1 in Hes as [He Hes]. unfold gens. cbn [gens_with]. rewrite Hv.
    apply safe_bind; [by apply He|]. intros c1 b1 H1 _. specialize (IH Hes n' m' loop (at_ + length c1) (nb + length b1) Hl).
    unfold gens in IH. destruct (gens_with _ _ _ _ _ _ es) as [[c2 b2]|er| |]; simpl in IH |- *; try done.
    rewrite !length_app. intros Hc Hb. destruct H1 as [? ?]; [lia..|]. destruct IH as [? ?]; [lia..|].
    by split; apply Forall_app_2.
  - apply Forall_cons_1 in Hes as [_ Hes]. apply Forall_cons_1 in Hes as [_ Hes].
    unfold gens. cbn [gens_with]. rewrite Hv. destruct p as [nm o].
    specialize (IH Hes n' m' loop (at_ + 2) nb Hl). unfold gens in IH.
    destruct (gens_with _ _ _ _ _ _ es) as [[c2 b2]|er| |]; simpl in IH |- *; try done.
    intros Hc Hb. destruct IH as [? ?]; [lia..|]. split; [|done]. by repeat constructor.
Qed.

Lemma fits_jump n' m' t sp : t <= n' -> fits n' m' (instr file starts (Op.Jump (N.of_nat t)) sp) = true.
Proof. intros. unfold fits. simpl. apply N.leb_le. lia. Qed.

Lemma fits_jump_if_false n' m' t sp :
  t <= n' -> fits n' m' (instr file starts (Op.JumpIfFalse (N.of_nat t)) sp) = true.
Proof. intros. unfold fits. simpl. apply N.leb_le. lia. Qed.
Lemma if_safe t f : Forall (fun e => gen_safe_at (expr e)) t -> Forall (fun e => gen_safe_at (expr e)) f ->
  gen_safe_at (Expr.If t f).
Proof.
  intros Ht Hf n m loop sp at_ nb Hl. cbn [Layout.gen].
  pose proof (gens_safe t Ht n m loop (at_ + 1) nb Hl) as H1. unfold Layout.gens in H1.
  destruct (gens_with _ _ _ _ _ _ t) as [[ct bt]|er| |]; simpl in H1 |- *; try done.
  pose proof (gens_safe f Hf n m loop (at_ + 1 + length ct + 1) (nb + length bt) Hl) as H2. unfold Layout.gens in H2.
  destruct (gens_with _ _ _ _ _ _ f) as [[cf bf]|er| |]; simpl in H2 |- *; try done.
  rewrite !length_app. simpl. intros Hc Hb. destruct H1 as [Hct Hbt]; [lia..|]. destruct H2 as [Hcf Hbf]; [lia..|].
  split; [|by apply Forall_app_2]. constructor; [apply fits_jump_if_false; lia|]. apply Forall_app_2; [done|].
  constructor; [apply fits_jump; lia|done].
Qed.

Lemma while_safe c b : Forall (fun e => gen_safe_at (expr e)) c -> Forall (fun e => gen_safe_at (expr e)) b ->
  gen_safe_at (Expr.While c b).
Proof.
  intros Hc Hb n m loop sp at_ nb Hl. cbn [Layout.gen].
  pose proof (gens_safe c Hc n m loop at_ nb Hl) as H1. unfold Layout.gens in H1.
  destruct (gens_with _ _ _ _ _ _ c) as [[cc bc]|er| |]; simpl in H1 |- *; try done.
  set (loop_end := at_ + length cc + 1 + sizes b + 1).
  pose proof (gens_size file starts b (Some (mkTargets at_ (N.of_nat loop_end))) (at_ + length cc + 1) (nb + length bc)) as Hs.
  pose proof (gens_safe b Hb n m (Some (mkTargets at_ (N.of_nat loop_end))) (at_ + length cc + 1) (nb + length bc)) as H2.
  unfold Layout.gens in H2, Hs. fold loop_end.
  destruct (gens_with _ _ _ _ _ _ b) as [[cb bb]|er| |]; simpl in H2, Hs |- *; try done.
  rewrite !length_app. simpl. rewrite !length_app. simpl. intros Hn Hm.
  destruct H1 as [Hcc Hbc]; [lia..|]. destruct H2 as [Hcb Hbb]; [simpl; lia..|].
  split; [|by apply Forall_app_2]. apply Forall_app_2; [done|]. constructor; [apply fits_jump_if_false; lia|].
  apply Forall_app_2; [done|]. constructor; [apply fits_jump; lia|done].
Qed.

Lemma gen_safe e : gen_safe_at e.
Proof.
  induction e as [w|w|w|w|z|x|a|b Hb|b Hb|t f Ht Hf|c b Hc Hb] using Expr_ind'; intros n m loop sp at_ nb Hl; simpl;
    try by (intros; repeat constructor).
  - unfold word_op. destruct loop as [[ct bt]|]; repeat case_match; simplify_eq/=; try done; intros; split; try done;
      constructor; try done; unfold fits; simpl; apply N.leb_le; lia.
  - pose proof (gens_size file starts b None 0 0) as Hs. unfold block_of.
    pose proof (fun n m => gens_safe b Hb n m None 0 0 I) as H. unfold Layout.gens in H, Hs.
    destruct (gens_with _ _ _ _ _ _ b) as [[cb bb]|er| |]; simpl in H |- *; try done; [|by apply (H 0 0)..].
    intros Hc Hn. destruct (H (length cb) (length bb)) as [H1 H2]; [lia..|].
    split; constructor; try done; [|by apply block_of_safe]. unfold fits. simpl. apply N.ltb_lt. lia.
  - by apply (gens_safe b).
  - by apply if_safe.
  - by apply while_safe.
Qed.

Lemma all_gen_safe es : Forall (fun e => gen_safe_at (expr e)) es.
Proof. induction es; constructor; [apply gen_safe|done]. Qed.

Lemma decl_safe mk body sp n m at_ nb :
  (forall b, (b < N.of_nat m)%N -> fits n m (instr file starts (mk b) sp) = true) ->
  safe n m at_ nb (decl file starts mk body sp nb).
Proof.
  intros Hmk. unfold decl, block, block_of.
  pose proof (fun n m => gens_safe body (all_gen_safe body) n m None 0 0 I) as H.
  destruct (Layout.gens _ _ _ _ _ body) as [[cb bb]|er| |]; simpl in H |- *; try done; [|by apply (H 0 0)..].
  intros Hc Hn. destruct (H (length cb) (length bb)) as [H1 H2]; [lia..|].
  split; constructor; try done; [|by apply block_of_safe]. apply Hmk. lia.
Qed.

Lemma class_expr_safe e sp n m at_ nb : safe n m at_ nb (gen_class_expr file starts at_ nb e sp).
Proof.
  destruct e as [w|w|w|w|z|x|a|b|b|t f|c b]; try by apply gen_safe. unfold gen_class_expr.
  destruct (table_declaration b) as [name|] eqn:Et.
  - apply is_declaration_pair in Et as (e1 & s1 & e2 & s2 & ->). simpl. intros; split; [|done].
    by repeat constructor.
  - repeat case_match; try (simpl; intros; split; [|done]; by repeat constructor); [|by apply gen_safe].
    apply decl_safe. intros i Hi. unfold fits. simpl. by apply N.ltb_lt.
Qed.

Lemma class_item_safe it n m at_ nb : safe n m at_ nb (gen_class_item file starts at_ nb it).
Proof.
  destruct it as [c|f|mm|mm|e sp d]; simpl; try done.
  all: try by (apply decl_safe; intros i Hi; unfold fits; simpl; apply N.ltb_lt).
  all: try apply class_expr_safe. by destruct c.
Qed.

Lemma gen_all_safe (g : nat -> nat -> Item -> res CompileError code) n m its :
  (forall it at_ nb, safe n m at_ nb (g at_ nb it)) ->
  forall at_ nb, safe n m at_ nb (gen_all g at_ nb its).
Proof.
  intros Hg. induction its as [|it its IH]; intros at_ nb; [done|]. cbn [gen_all].
  apply safe_bind; [apply Hg|]. intros c1 b1 H1 _. specialize (IH (at_ + length c1) (nb + length b1)).
  destruct (gen_all g _ _ its) as [[c2 b2]|er| |]; simpl in IH |- *; try done.
  rewrite !length_app. intros Hc Hb. destruct H1 as [? ?]; [lia..|]. destruct IH as [? ?]; [lia..|].
  by split; apply Forall_app_2.
Qed.

Lemma item_safe it n m at_ nb : safe n m at_ nb (gen_item file starts at_ nb it).
Proof.
  destruct it as [c|f|mm|mm|e sp d]; simpl; try done.
  all: try by (apply decl_safe; intros i Hi; unfold fits; simpl; apply N.ltb_lt).
  all: try apply gen_safe; try done. destruct c as [name super body doc sp].
  pose proof (gen_all_safe (gen_class_item file starts) n m body (fun it a b => class_item_safe it n m a b) (at_ + 1) nb) as H.
  destruct (gen_all _ _ _ body) as [[cb bb]|er| |]; simpl in H |- *; try done.
  rewrite !length_app. simpl. intros Hc Hb. destruct H as [? ?]; [lia..|]. split; [|done].
  constructor; [done|]. apply Forall_app_2; [done|]. by repeat constructor.
Qed.
End safety.

(** ** Theorems *)

Lemma layout_module_safe file starts m :
  match layout_module file starts m with
  | Ok c => safe_chunk c = true
  | Err _ => True
  | Panic | OutOfFuel => False
  end.
Proof.
  unfold layout_module. pose proof (fun n k => gen_all_safe (gen_item file starts) n k (items m) (fun it a b => item_safe file starts it n k a b) 0 0) as H.
  destruct (gen_all _ _ _ _) as [[c b]|er| |]; simpl in H |- *; try done; [|by apply (H 0 0)..].
  destruct (H (length c) (length b)) as [H1 H2]; [lia..|]. apply andb_true_intro.
  split; apply forallb_forall; intros x Hx; rewrite List.Forall_forall in H1, H2; [by apply H1|by apply H2].
Qed.

(** The back-patching compiler and the one-pass layout agree on every
    module: the same chunk, nested blocks and source spans included, or the same
    error.  In particular every placeholder jump is patched to the address the
    layout computes from the sizes of the parts. *)
Theorem lower_module_layout (file source : string) (m : Module_) :
  lower_module file source m = layout_module file (line_starts source) m.
Proof. apply lower_module_eq. Qed.

(** Lowering never panics, and the chunk it produces is safe: in it and in
    every nested block all jumps land inside the chunk or just past its end
    (no [usize::MAX] placeholder survives), all block operands name existing
    blocks, and nested blocks end with a return. *)
Theorem lower_module_safe (file source : string) (m : Module_) :
  match lower_module file source m with
  | Ok c => safe_chunk c = true
  | Err _ => True
  | Panic | OutOfFuel => False
  end.
Proof. rewrite lower_module_eq. apply layout_module_safe. Qed.

(** * From source text to bytecode

    The front end, the macro expander and the compiler put together, as
    [compile_source] of [crates/ricochet_compiler/src/compiler.rs] does. *)

(** ** Reports *)

Definition format_compile_error {E : Type} (file source : string) (error : CompileError) : res E msg :=
  match error with
  | CompileError.Parse error => render_source_diagnostic (parse_error_diagnostic file source error) source
  | CompileError.Unsupported feature sp help =>
      let diagnostic := new_diagnostic file sp (Lit "unsupported compiler feature: " :: feature) in
      render_source_diagnostic (match help with Some help => with_help help diagnostic | None => diagnostic end) source
  | CompileError.LoopControlOutsideLoop word sp =>
      render_source_diagnostic (new_diagnostic file sp [Disp word; Lit " can only be used inside a loop"]) source
  end.

(** ** The whole way *)

Lemma compile_settles `{Sha256} (file id source : string) (imported : list ImportedMacroTable) :
  utf8 (as_bytes source) -> settles (compile_source file id source imported) (fun c => safe_chunk c = true).
Proof.
  intros Hu. unfold compile_source, expand_source, parse_source.
  destruct (parse_terminates source Hu) as [[m Hm]|[e He]]; [rewrite Hm|by rewrite He]. cbn [rmap_err rbind].
  pose proof (module_expands id m source imported) as Hx.
  destruct (expand_module id m source imported) as [x| | |]; try done. cbn [rbind].
  rewrite lower_module_eq. apply layout_module_safe.
Qed.

(** C7: compilation of any UTF-8 text, with any imported macro tables, ends
    with an error or with a safe chunk: no panic in the lexer, the parser, the
    expander or the lowering, and every jump and block operand of the result
    is in range. *)
Theorem compile_source_safe `{Sha256} (file id source : string) (imported : list ImportedMacroTable) :
  utf8 (as_bytes source) ->
  match compile_source file id source imported with
  | Ok c => safe_chunk c = true
  | Err _ => True
  | Panic | OutOfFuel => False
  end.
Proof. exact (compile_settles file id source imported). Qed.

Lemma compile_source_safe_witness :
  let source := quoted "~twice~ Macro ( v -> v ) [ [ $v ast_splice $v ast_splice ] quote_ast ] end while a if ~x~ ~twice~ macro_call break end end" in
  utf8 (as_bytes source) /\
  match compile_source (H := fun _ => []) "f" "f" source [] with
  | Ok c => safe_chunk c = true
  | Err _ => True
  | Panic | OutOfFuel => False
  end.
Proof.
  intros source. assert (H : utf8 (as_bytes source)) by (eexists; vm_compute; reflexivity).
  split; [exact H|]. exact (compile_source_safe (H := fun _ => []) "f" "f" source [] H).
Defined.

(** ** Where an error is *)

(** A macro of an imported file fails, and the error has the place of the
    macro in that file: here offset 71, where the importing text of 16 bytes
    has nothing. *)
Example imported_error_place :
  match exported_macro_table_from_source (H := fun _ => []) "lib" (quoted "~a~ Macro [ 1 ] end                                                    ~bad~ Macro [ 1 ] end") [] with
  | Ok table =>
      match compile_source (H := fun _ => []) "main" "main" (quoted "~bad~ macro_call") [with_import_specifier "lib" table] with
      | Err (CompileError.Unsupported _ sp _) => Some sp
      | _ => None
      end
  | _ => None
  end = Some (mkSpan 71 92).
Proof. vm_compute. reflexivity. Qed.
