(* ===== verification/Imports.v ===== *)
(** * Imports

    [crates/ricochet_compiler/src/imports.rs]: the import lines of a source,
    the files they name, and the resolver that compiles a file after the files
    it imports and links the chunks into one. *)

From stdpp Require Import base tactics list strings option numbers.
From Stdlib Require Import ZArith NArith Lia Ascii String.
From S2P Require Import Prelude RustStr RustText RustFloat RustPath BTree Syntax Lexer Parser Diagnostic Bytecode Compiler Macro Expander.

Open Scope string_scope.
Open Scope list_scope.
Open Scope nat_scope.

(** ** Errors *)

(** A message, or a compile error with the file and source that
    [format_compile_error] renders it with. *)
Inductive cause : Type :=
  | Text (m : msg)
  | CompileFailure (file source : string) (error : CompileError).

(** [anyhow::Error]: the outermost context first. *)
Definition anyhow : Type := list cause.

Definition bail {A : Type} (m : msg) : res anyhow A := Err [Text m].

Definition with_context {A : Type} (m : msg) (r : res anyhow A) : res anyhow A :=
  match r with Err e => Err (Text m :: e) | r => r end.

(** A call of a library, its failure under a context. *)
Definition lib_call {A : Type} (m : msg) (r : A + msg) : res anyhow A :=
  match r with inl a => Ok a | inr e => Err [Text m; Text e] end.

Definition option_context {A : Type} (m : msg) (o : option A) : res anyhow A :=
  match o with Some a => Ok a | None => bail m end.

(** ** Import lines *)

Section strings.
Local Open Scope N_scope.

(** The loop of [parse_string_prefix], with the text decoded so far. *)
Fixpoint string_prefix_from (escape : bool) (value : list char) (source : list char) : res anyhow (option (list char * list char)) :=
  match source with
  | [] => if escape then bail [Lit "unterminated import string escape"] else Ok None
  | ch :: rest =>
      if escape then
        let decoded :=
          if ch =? 110 then Some 10 else if ch =? 114 then Some 13 else if ch =? 116 then Some 9
          else if ch =? 34 then Some 34 else if ch =? 92 then Some 92 else None in
        match decoded with
        | Some d => string_prefix_from false (value ++ [d]) rest
        | None => bail [Lit "invalid import string escape \"; DispChar ch]
        end
      else if ch =? 92 then string_prefix_from true value rest
      else if ch =? 34 then Ok (Some (value, rest))
      else string_prefix_from false (value ++ [ch]) rest
  end.

Definition parse_string_prefix (source : list char) : res anyhow (option (list char * list char)) :=
  string_prefix_from false [] source.

Definition trim_chars (cs : list char) : list char := trim_end_chars (trim_start_chars cs).

Definition import_word : list char := [105; 109; 112; 111; 114; 116].

(** [None] when the line is no import. *)
Definition parse_static_import_line (line : list char) : option (res anyhow string) :=
  match line with
  | 34 :: rest =>
      match parse_string_prefix rest with
      | Ok (Some (value, rest)) =>
          if bool_decide (trim_chars rest = import_word) then Some (Ok (from_bytes (encode value))) else None
      | Ok None => Some (bail [Lit "unterminated import string"])
      | Err error => Some (Err error)
      | Panic => Some Panic
      | OutOfFuel => Some OutOfFuel
      end
  | _ => None
  end.
End strings.

(** [source.lines().filter_map(..).collect()]. *)
Fixpoint imports_of_lines (lines : list (list byte)) : res anyhow (list string) :=
  match lines with
  | [] => Ok []
  | line :: lines' =>
      let? cs := chars (from_bytes line) in
      match parse_static_import_line (trim_chars cs) with
      | None => imports_of_lines lines'
      | Some r => let? import := r in let? rest := imports_of_lines lines' in Ok (import :: rest)
      end
  end.

Definition static_imports (source : string) : res anyhow (list string) := imports_of_lines (lines source).

Fixpoint unique_from (seen : list string) (imports : list string) : list string :=
  match imports with
  | [] => []
  | import :: imports' => if decide (import ∈ seen) then unique_from seen imports' else import :: unique_from (import :: seen) imports'
  end.
Definition unique_imports (imports : list string) : list string := unique_from [] imports.

(** [split_inclusive]: segments that keep their newline. *)
Fixpoint split_inclusive (cur l : list byte) : list (list byte) :=
  match l with
  | [] => match cur with [] => [] | _ => [reverse cur] end
  | b :: l' => if byte_eqb b newline then reverse (b :: cur) :: split_inclusive [] l' else split_inclusive (b :: cur) l'
  end.

(** [segment.strip_suffix(b)], with the suffix that came off. *)
Definition strip_byte (b : byte) (segment : list byte) : list byte * list byte :=
  match reverse segment with
  | c :: rest => if Ascii.eqb c b then (reverse rest, [b]) else (segment, [])
  | [] => (segment, [])
  end.

Definition strip_segment (segment : list byte) : res anyhow (list byte) :=
  let '(line, newline) := strip_byte newline segment in
  let '(content, carriage_return) := strip_byte carriage_return line in
  let? cs := chars (from_bytes content) in
  match parse_static_import_line (trim_chars cs) with
  | Some r => let? _ := r in Ok (replicate (length content) " "%char ++ carriage_return ++ newline)
  | None => Ok segment
  end.

Fixpoint strip_segments (segments : list (list byte)) : res anyhow (list byte) :=
  match segments with
  | [] => Ok []
  | segment :: segments' =>
      let? stripped := strip_segment segment in
      let? rest := strip_segments segments' in
      Ok (stripped ++ rest)
  end.

(** Import lines are blanked, so that offsets stay what they are. *)
Definition strip_static_imports (source : string) : res anyhow string :=
  let? stripped := strip_segments (split_inclusive [] (as_bytes source)) in Ok (from_bytes stripped).

(** ** Linking *)

Definition rebase_op (instruction_offset block_offset : N) (o : Op) : Op :=
  match o with
  | Op.PushBlock index => Op.PushBlock (index + block_offset)
  | Op.AddMethod name block args => Op.AddMethod name (block + block_offset) args
  | Op.AddFunction name block args => Op.AddFunction name (block + block_offset) args
  | Op.JumpIfFalse target => Op.JumpIfFalse (target + instruction_offset)
  | Op.Jump target => Op.Jump (target + instruction_offset)
  | o => o
  end.

Definition rebase (instruction_offset block_offset : N) (i : Instruction) : Instruction :=
  mkInstruction (rebase_op instruction_offset block_offset (op i)) (ispan i).

Definition append_chunk (target chunk : Chunk) : Chunk :=
  let instruction_offset := N.of_nat (length (instructions target)) in
  let block_offset := N.of_nat (length (blocks target)) in
  mkChunk (chunk_file target) (instructions target ++ (rebase instruction_offset block_offset <$> instructions chunk))
    (blocks target ++ blocks chunk).

(** ** Import paths *)

Definition replace_byte (a b : byte) (s : string) : string :=
  from_bytes ((fun c => if Ascii.eqb c a then b else c) <$> as_bytes s).

Definition backslash : byte := "\"%char.

(** [s.split_once(b)] *)
Fixpoint split_once_bytes (b : byte) (l : list byte) : option (list byte * list byte) :=
  match l with
  | [] => None
  | c :: l' => if Ascii.eqb c b then Some ([], l')
               else '(before, after) ← split_once_bytes b l'; Some (c :: before, after)
  end.
Definition split_once (b : byte) (s : string) : option (string * string) :=
  '(before, after) ← split_once_bytes b (as_bytes s); Some (from_bytes before, from_bytes after).

Fixpoint check_import_components (import : string) (explicit_relative : bool) (l : list Component) : res anyhow unit :=
  match l with
  | [] => Ok tt
  | c :: l' =>
      let? _ :=
        match c with
        | Component.Normal _ => Ok tt
        | Component.CurDir | Component.ParentDir =>
            if explicit_relative then Ok tt else bail [Lit "import path must not contain . or .. components: "; Dbg import]
        | Component.RootDir => bail [Lit "absolute imports are not allowed: "; Dbg import]
        end in
      check_import_components import explicit_relative l'
  end.

Definition validate_import_path (import : string) : res anyhow unit :=
  if String.eqb import "" then bail [Lit "import path must not be empty"]
  else if contains_byte "#" import then bail [Lit "import path must not contain #: "; Dbg import]
  else if contains_byte backslash import then bail [Lit "import path must use forward slashes: "; Dbg import]
  else if is_absolute import then bail [Lit "absolute imports are not allowed: "; Dbg import]
  else
    let explicit_relative := starts_with "./" import || starts_with "../" import in
    check_import_components import explicit_relative (components import).

Fixpoint check_dependency_components (package : string) (l : list Component) : res anyhow unit :=
  match l with
  | [] => Ok tt
  | c :: l' =>
      let? _ :=
        match c with
        | Component.Normal _ | Component.CurDir => Ok tt
        | Component.ParentDir => bail [Lit "dependency "; Dbg package; Lit " path must not contain .. components"]
        | Component.RootDir => bail [Lit "dependency "; Dbg package; Lit " path must be inside the project"]
        end in
      check_dependency_components package l'
  end.

Definition validate_dependency_path (path package : string) : res anyhow unit :=
  if contains_byte backslash path then bail [Lit "dependency "; Dbg package; Lit " path must use forward slashes"]
  else if is_absolute path then bail [Lit "dependency "; Dbg package; Lit " path must be inside the project"]
  else check_dependency_components package (components path).

Definition package_module_is_safe (module : string) : bool :=
  negb (String.eqb module "") && negb (contains_byte backslash module)
  && forallb (fun c => match c with Component.Normal _ => true | _ => false end) (components module).

Record PackageImport : Type := mkPackageImport { import_package : string; import_module : string }.

Definition parse_package_import (import : string) : option PackageImport :=
  if is_absolute import || starts_with "." import || contains_byte backslash import then None
  else
    let dotted :=
      '(package, module) ← split_once "."%char import;
      if String.eqb package "" || String.eqb module "" then None
      else
        let module := replace_byte "." "/" module in
        if package_module_is_safe module then Some (mkPackageImport package module) else None in
    match split_once "/"%char import with
    | Some (package, module) =>
        if negb (String.eqb package "") && negb (String.eqb module "") && package_module_is_safe module
        then Some (mkPackageImport package module) else dotted
    | None => dotted
    end.

(** The extension of the language, unless the path has one. *)
Definition with_rco (path : string) : string :=
  match extension path with None => set_extension "rco" path | Some _ => path end.

Definition relative_import_path (parent import : string) : string := with_rco (join parent import).

Definition package_import_candidates (base_path module : string) : list string :=
  with_rco <$> [join base_path module; join (join base_path "src") module].

(** The directory of a file: [.] for a bare name. *)
Definition parent_dir (canonical : string) : string :=
  match parent canonical with Some p => if String.eqb p "" then "." else p | None => "." end.

Definition logical_module_id (canonical_source_path root : string) : string :=
  let path := default canonical_source_path (path_strip_prefix canonical_source_path root) in
  let module_id := replace_byte backslash "/" path in
  if String.eqb module_id "" then "." else module_id.

(** ** Resolution *)

(** [toml::Value::get(key)]: nothing but a table has keys. *)
Definition toml_get (key : string) (v : Toml) : option Toml := t ← toml_as_table v; bt_get key t.
Definition toml_get_str (key : string) (t : list (string * Toml)) : option string := v ← bt_get key t; toml_as_str v.

Inductive ResolvedImportKind : Type := Local | Package (package : string).
Record ResolvedImport : Type := mkResolved { resolved_path : string; resolved_kind : ResolvedImportKind }.

Record PackageLockMetadata : Type := mkLockMetadata {
  lock_package : option string; lock_version : option string; lock_integrity : option string;
  lock_source_kind : option string; lock_commit : option string }.
Record PackageManifestMetadata : Type := mkManifestMetadata { manifest_package : option string; manifest_version : option string }.
Record SourceIdentity : Type := mkIdentity {
  identity_module_id : string; identity_source_kind : MacroSourceKind; identity_package : option MacroPackageMetadata }.

Section resolution.
Context `{FileSystem} `{TomlParser}.

Definition find_nearest_manifest (parent : string) : option string :=
  let start := match canonicalize parent with inl p => p | inr _ => parent end in
  List.find is_file ((fun ancestor => join ancestor "ricochet.toml") <$> ancestors start).

(** [manifest_path.parent().expect(..)]. *)
Definition manifest_parent {E : Type} (manifest_path : string) : res E string :=
  match parent manifest_path with Some dir => Ok dir | None => Panic end.

Definition import_root_for_parent (parent : string) : res anyhow string :=
  match find_nearest_manifest parent with
  | Some manifest_path =>
      let? manifest_dir := manifest_parent manifest_path in
      lib_call [Lit "failed to resolve project root "; Disp manifest_dir] (canonicalize manifest_dir)
  | None => lib_call [Lit "failed to resolve import root "; Disp parent] (canonicalize parent)
  end.

Definition contained_file (root candidate import : string) : res anyhow string :=
  let? canonical := lib_call [Lit "failed to resolve import "; Dbg import; Lit " at "; Disp candidate] (canonicalize candidate) in
  if path_starts_with canonical root then Ok canonical
  else bail [Lit "import "; Dbg import; Lit " resolves outside allowed root "; Disp root].

Definition read_toml (path : string) : res anyhow Toml :=
  let? source := lib_call [Lit "failed to read "; Disp path] (read_to_string path) in
  lib_call [Lit "failed to parse "; Disp path] (toml_from_str source).

Definition dependency_base_path (manifest_path package : string) : res anyhow (option string) :=
  let? manifest := read_toml manifest_path in
  match dependencies ← toml_get "dependencies" manifest; toml_get package dependencies with
  | None => Ok None
  | Some dependency =>
      let? manifest_dir := manifest_parent manifest_path in
      match path ← toml_get "path" dependency; toml_as_str path with
      | Some path =>
          let? _ := validate_dependency_path path package in
          Ok (Some (if is_absolute path then path else join manifest_dir path))
      | None =>
          match toml_get "git" dependency with
          | Some _ => Ok (Some (join (join (join manifest_dir ".ricochet") "packages") package))
          | None => Ok None
          end
      end
  end.

Definition contained_dependency_base (manifest_path base_path package : string) : res anyhow string :=
  let? dir := manifest_parent manifest_path in
  let? manifest_dir := lib_call [Lit "failed to resolve "; Disp dir] (canonicalize dir) in
  let? canonical_base := lib_call [Lit "failed to resolve dependency "; Dbg package; Lit " at "; Disp base_path] (canonicalize base_path) in
  if path_starts_with canonical_base manifest_dir then Ok canonical_base
  else bail [Lit "dependency "; Dbg package; Lit " resolves outside the project root: "; Disp base_path].

Definition comma_paths (l : list string) : string := String.concat ", " l.

Definition resolve_package_import (parent : string) (p : PackageImport) : res anyhow (option string) :=
  match find_nearest_manifest parent with
  | None => Ok None
  | Some manifest_path =>
      let? base := dependency_base_path manifest_path (import_package p) in
      match base with
      | None => Ok None
      | Some base_path =>
          let? base_path := contained_dependency_base manifest_path base_path (import_package p) in
          let candidates := package_import_candidates base_path (import_module p) in
          match List.find is_file candidates with
          | Some candidate => let? path := contained_file base_path candidate (import_module p) in Ok (Some path)
          | None =>
              bail [Lit "package dependency "; Dbg (import_package p); Lit " does not contain import "; Dbg (import_module p);
                    Lit "; tried "; Disp (comma_paths candidates)]
          end
      end
  end.

Definition resolve_import_metadata (parent import : string) : res anyhow ResolvedImport :=
  let? _ := validate_import_path import in
  let? import_root := import_root_for_parent parent in
  let relative_path := relative_import_path parent import in
  if is_file relative_path then
    let? path := contained_file import_root relative_path import in Ok (mkResolved path Local)
  else
    let? package_path :=
      match parse_package_import import with
      | Some p =>
          let? path := resolve_package_import parent p in
          Ok ((fun path => mkResolved path (Package (import_package p))) <$> path)
      | None => Ok None
      end in
    match package_path with
    | Some resolved => Ok resolved
    | None => Ok (mkResolved relative_path Local)
    end.

(** ** Identities of imported macros *)

Definition package_lock_source_kind (entry : list (string * Toml)) : option string :=
  if bt_contains_key "git" entry || bt_contains_key "commit" entry then Some "git"
  else if bt_contains_key "registry" entry then Some "registry"
  else if bt_contains_key "path" entry then Some "path"
  else None.

(** [lock.get("package")...get(name)], each a table. *)
Definition lock_entry (lock : Toml) (name : string) : option (list (string * Toml)) :=
  packages ← toml_get "package" lock; packages ← toml_as_table packages; entry ← bt_get name packages; toml_as_table entry.

Definition package_lock_metadata (dir package : string) : res anyhow (option PackageLockMetadata) :=
  match find_nearest_manifest dir with
  | None => Ok None
  | Some manifest_path =>
      match (fun manifest_dir => join manifest_dir "ricochet.lock") <$> parent manifest_path with
      | None => Ok None
      | Some lock_path =>
          if is_file lock_path then
            let? lock := read_toml lock_path in
            match lock_entry lock package with
            | None => Ok None
            | Some entry =>
                Ok (Some (mkLockMetadata (toml_get_str "package" entry) (toml_get_str "version" entry)
                            (toml_get_str "integrity" entry) (package_lock_source_kind entry) (toml_get_str "commit" entry)))
            end
          else Ok None
      end
  end.

Definition package_manifest_metadata_for_source (source_path : string) : res anyhow PackageManifestMetadata :=
  match find_nearest_manifest (parent_dir source_path) with
  | None => Ok (mkManifestMetadata None None)
  | Some manifest_path =>
      let? manifest := read_toml manifest_path in
      let field key := package ← toml_get "package" manifest; package ← toml_as_table package; toml_get_str key package in
      Ok (mkManifestMetadata (field "name") (field "version"))
  end.

(** [a.or(b)]. *)
Definition option_or {A : Type} (a b : option A) : option A := match a with Some _ => a | None => b end.

Definition canonical_package_module_id (package module_path : string) (lock : option PackageLockMetadata) : string :=
  let module_path := replace_byte backslash "/" module_path in
  let revision :=
    option_or (lock ≫= lock_integrity)
      (option_or ((fun commit => ("git:" ++ commit)%string) <$> (lock ≫= lock_commit))
         ((fun version => ("version:" ++ version)%string) <$> (lock ≫= lock_version))) in
  match revision with
  | Some revision => (package ++ "@" ++ revision ++ "/" ++ module_path)%string
  | None => (package ++ "/" ++ module_path)%string
  end.

Definition source_identity_for_import (parent import : string) (resolved : ResolvedImport) : res anyhow (option SourceIdentity) :=
  match resolved_kind resolved with
  | Local => Ok None
  | Package package =>
      match parse_package_import import with
      | None => bail [Lit "failed to parse package import metadata for "; Dbg import]
      | Some package_import =>
          let? lock := package_lock_metadata parent package in
          let? manifest := package_manifest_metadata_for_source (resolved_path resolved) in
          let module_path := import_module package_import in
          Ok (Some (mkIdentity (canonical_package_module_id package module_path lock) MacroSourceKind.Package
            (Some (mkPackage package (option_or (lock ≫= lock_package) (manifest_package manifest)) module_path
                     (option_or (lock ≫= lock_version) (manifest_version manifest)) (lock ≫= lock_integrity)
                     (lock ≫= lock_source_kind) (lock ≫= lock_commit)))))
      end
  end.

Definition read_source_path (source_path : string) : res anyhow string :=
  lib_call [Lit "failed to read "; Disp source_path] (read_to_string source_path).

Definition bind_imported_macro_table `{Sha256} (parent import : string) (resolved : ResolvedImport) (table : ImportedMacroTable)
    : res anyhow ImportedMacroTable :=
  let? source := read_source_path (resolved_path resolved) in
  let source_hash := sha256_text source in
  let? identity := source_identity_for_import parent import resolved in
  let bound :=
    match identity with
    | Some identity =>
        with_source_identity (identity_module_id identity) source_hash (identity_source_kind identity) (identity_package identity) table
    | None => with_source_identity (table_module_id table) source_hash MacroSourceKind.Local None table
    end in
  Ok (with_import_specifier import bound).
End resolution.

(** ** The resolver *)

(** A path in a set or as a key of a map is compared by its components. *)
Definition path_key : Type := list Component.

Record SourceResolver : Type := mkResolver {
  loaded : list path_key; visiting : list path_key; exported : list (path_key * ImportedMacroTable); root : option string }.

Definition default_resolver : SourceResolver := mkResolver [] [] [] None.

Fixpoint assoc {A : Type} (k : path_key) (l : list (path_key * A)) : option A :=
  match l with
  | [] => None
  | (k', a) :: l' => if decide (k = k') then Some a else assoc k l'
  end.

Definition remove_key (k : path_key) (l : list path_key) : list path_key := List.filter (fun k' => bool_decide (k' <> k)) l.

Record CompiledFile : Type := mkCompiled { compiled_chunk : Chunk; compiled_macros : ImportedMacroTable }.

Abbreviation resolver := (stm SourceResolver anyhow).

Definition scontext {A : Type} (m : msg) (k : resolver A) : resolver A := fun s => with_context m (k s).

(** [map_err(|error| anyhow!(format_compile_error(file, source, &error)))]. *)
Definition compile_context {A : Type} (file source : string) (r : res CompileError A) : res anyhow A :=
  rmap_err (fun error => [CompileFailure file source error]) r.

Section resolver.
Context `{FileSystem} `{TomlParser} `{Sha256}.

Definition root_for (canonical : string) : resolver string :=
  let* s := sget in
  match root s with
  | Some r => sret r
  | None =>
      let* r := slift (import_root_for_parent (parent_dir canonical)) in
      let* _ := smodify (fun s => mkResolver (loaded s) (visiting s) (exported s) (Some r)) in
      sret r
  end.

(** [if !self.visiting.insert(..) { bail!(..) }]. *)
Definition enter_file (canonical source_path : string) : resolver unit :=
  let* s := sget in
  if decide (components canonical ∈ visiting s) then slift (bail [Lit "cyclic Ricochet import involving "; Disp source_path])
  else smodify (fun s => mkResolver (loaded s) (components canonical :: visiting s) (exported s) (root s)).

Definition leave_file (canonical : string) : resolver unit :=
  smodify (fun s => mkResolver (loaded s) (remove_key (components canonical) (visiting s)) (exported s) (root s)).

Definition record_file (canonical : string) (macros : ImportedMacroTable) : resolver unit :=
  smodify (fun s => mkResolver (components canonical :: loaded s) (visiting s) ((components canonical, macros) :: exported s) (root s)).

Definition import_context (import source_path : string) : msg := [Lit "failed to import "; Dbg import; Lit " from "; Disp source_path].

(** [for import in unique_imports(&imports)]. *)
Fixpoint compile_imports (compile_file : string -> resolver CompiledFile) (parent source_path : string) (imports : list string)
    (combined : Chunk) (tables : list ImportedMacroTable) : resolver (Chunk * list ImportedMacroTable) :=
  match imports with
  | [] => sret (combined, tables)
  | import :: imports' =>
      let* resolved := slift (resolve_import_metadata parent import) in
      let* compiled := scontext (import_context import source_path) (compile_file (resolved_path resolved)) in
      let* table := slift (bind_imported_macro_table parent import resolved (compiled_macros compiled)) in
      compile_imports compile_file parent source_path imports' (append_chunk combined (compiled_chunk compiled)) (tables ++ [table])
  end.

(** The macros of a file, with its identity. *)
Definition exported_table (file module_id source stripped : string) (tables : list ImportedMacroTable) : res anyhow ImportedMacroTable :=
  let? table := compile_context file stripped (exported_macro_table_from_source module_id stripped tables) in
  Ok (with_source_identity module_id (sha256_text source) MacroSourceKind.Local None table).

Fixpoint compile_file (fuel : nat) (source_path : string) : resolver CompiledFile :=
  match fuel with
  | O => sfuel
  | S fuel' =>
      let* canonical := slift (lib_call [Lit "failed to resolve "; Disp source_path] (canonicalize source_path)) in
      let* r := root_for canonical in
      let* s := sget in
      if decide (components canonical ∈ loaded s) then
        let* macros := slift (option_context [Lit "missing cached macro table for already loaded import "; Disp source_path]
                                (assoc (components canonical) (exported s))) in
        sret (mkCompiled (new_chunk source_path) macros)
      else
        let* _ := enter_file canonical source_path in
        let* source := slift (read_source_path source_path) in
        let module_id := logical_module_id canonical r in
        let* imports := slift (with_context [Lit "failed to scan imports in "; Disp source_path] (static_imports source)) in
        let* stripped := slift (strip_static_imports source) in
        let* linked := compile_imports (compile_file fuel') (parent_dir canonical) source_path (unique_imports imports)
                         (new_chunk source_path) [] in
        let '(combined, tables) := linked in
        let* macros := slift (exported_table source_path module_id source stripped tables) in
        let* own_chunk := slift (compile_context source_path stripped (compile_source source_path module_id stripped tables)) in
        let* _ := leave_file canonical in
        let* _ := record_file canonical macros in
        sret (mkCompiled (append_chunk combined own_chunk) macros)
  end.

Definition compile_file_with_imports (fuel : nat) (source_path : string) : res anyhow Chunk :=
  let? (compiled, _) := compile_file fuel source_path default_resolver in Ok (compiled_chunk compiled).

(** ** Expansion *)

Record ResolvedExpansion : Type := mkResolvedExpansion {
  original_source : string; resolved_expansion : MacroExpansion; expansion_macros : ImportedMacroTable }.

Fixpoint expand_imports (expand_file : string -> resolver ResolvedExpansion) (parent source_path : string) (imports : list string)
    (tables : list ImportedMacroTable) : resolver (list ImportedMacroTable) :=
  match imports with
  | [] => sret tables
  | import :: imports' =>
      let* resolved := slift (resolve_import_metadata parent import) in
      let* imported := scontext (import_context import source_path) (expand_file (resolved_path resolved)) in
      let* table := slift (bind_imported_macro_table parent import resolved (expansion_macros imported)) in
      expand_imports expand_file parent source_path imports' (tables ++ [table])
  end.

(** [iter_mut().find(..)]: the file's own table gets the hash of its text. *)
Fixpoint set_root_table (file source_hash : string) (tables : list MacroTableSummary) : list MacroTableSummary :=
  match tables with
  | [] => []
  | t :: tables' =>
      if String.eqb (ts_module_id t) file && match ts_import_specifier t with None => true | Some _ => false end
      then mkTableSummary (ts_module_id t) (ts_import_specifier t) (ts_macros t) source_hash MacroSourceKind.Local None
             (ts_source_len t) (ts_line_starts t) :: tables'
      else t :: set_root_table file source_hash tables'
  end.

Fixpoint expand_file (fuel : nat) (source_path : string) : resolver ResolvedExpansion :=
  match fuel with
  | O => sfuel
  | S fuel' =>
      let* canonical := slift (lib_call [Lit "failed to resolve "; Disp source_path] (canonicalize source_path)) in
      let* r := root_for canonical in
      let* _ := enter_file canonical source_path in
      let* source := slift (read_source_path source_path) in
      let file := logical_module_id canonical r in
      let* imports := slift (with_context [Lit "failed to scan imports in "; Disp source_path] (static_imports source)) in
      let* stripped := slift (strip_static_imports source) in
      let* tables := expand_imports (expand_file fuel') (parent_dir canonical) source_path (unique_imports imports) [] in
      let* macros := slift (exported_table file file source stripped tables) in
      let* expansion := slift (compile_context file stripped (expand_source file stripped tables)) in
      let expansion := mkExpansion (exp_module_id expansion) (exp_module expansion) (exp_imports expansion)
                         (set_root_table file (sha256_text source) (exp_macro_tables expansion)) (exp_trace expansion) in
      let* _ := leave_file canonical in
      sret (mkResolvedExpansion source expansion macros)
  end.

Record FileMacroExpansion : Type := mkFileExpansion { expansion_source : string; file_expansion : MacroExpansion }.

Definition expand_file_with_imports (fuel : nat) (source_path : string) : res anyhow FileMacroExpansion :=
  let? (resolved, _) := expand_file fuel source_path default_resolver in
  Ok (mkFileExpansion (original_source resolved) (resolved_expansion resolved)).
End resolver.

(** ** Example *)

(** A file system of three files under one root: [main] imports the others,
    which import each other when [cyclic]. *)
Module Example_.
Section files.
Variable cyclic : bool.
Definition file_text (p : string) : option string :=
  if String.eqb p "/p/main.rco" then Some (quoted "~a~ import" ++ from_bytes [newline] ++ quoted "~b~ import" ++ from_bytes [newline] ++ "1 print")%string
  else if String.eqb p "/p/a.rco" then Some (quoted "~b~ import" ++ from_bytes [newline] ++ "2 print")%string
  else if String.eqb p "/p/b.rco" then Some (if cyclic then quoted "~a~ import" else "[ 3 ] if 4 end")%string
  else None.
#[export] Instance files : FileSystem := {|
  canonicalize p := if String.eqb p "/" || String.eqb p "/p" then inl p else match file_text p with Some _ => inl p | None => inr [Lit "not found"] end;
  is_file p := match file_text p with Some _ => true | None => false end;
  is_dir p := String.eqb p "/p";
  read_to_string p := match file_text p with Some s => inl s | None => inr [Lit "not found"] end;
  read p := match file_text p with Some s => inl (as_bytes s) | None => inr [Lit "not found"] end;
  read_dir p := inr [Lit "not a directory"];
  symlink_metadata p := match file_text p with Some _ => inl FileType.File | None => inr [Lit "not found"] end |}.
End files.
#[export] Instance no_toml : TomlParser := fun _ => inr [Lit "no parser"].
End Example_.

Example linked_ops : (let? c := compile_file_with_imports (H := Example_.files false) (H0 := Example_.no_toml) (H1 := fun _ => []) 4 "/p/main.rco" in Ok (ops c, length (blocks c)))
  = Ok ([Op.PushBlock 0; Op.JumpIfFalse 4; Op.PushNumber 4; Op.Jump 4; Op.PushNumber 2; Op.CallWord "print"; Op.PushNumber 1; Op.CallWord "print"], 1).
Proof. vm_compute. reflexivity. Qed.

(** A cycle of imports, and a program that only [compile_source] takes: the
    string that ends on a line of its own is read as an import that is not
    terminated. *)
Example cyclic_imports : exists e, compile_file_with_imports (H := Example_.files true) (H0 := Example_.no_toml) (H1 := fun _ => []) 4 "/p/main.rco"
  = Err e /\ list.last e = Some (Text [Lit "cyclic Ricochet import involving "; Disp "/p/a.rco"]).
Proof. eexists. split; vm_compute; reflexivity. Qed.

Definition two_line_string : string := (quoted "~one" ++ from_bytes [newline] ++ quoted "~ print")%string.

Example multi_line_string_refused :
  static_imports two_line_string = bail [Lit "unterminated import string"] /\
  is_Some (compiled_ops two_line_string).
Proof. split; vm_compute; [reflexivity|by eexists]. Qed.
