(* ===== verification/ImportsProofs.v ===== *)
(** * Imports, proved

    Blanking the import lines keeps every offset, leaves no import and does not
    touch another line; linking chunks keeps them safe; every file that a
    compilation reads is inside the project, and a successful compilation links
    each file once, after the files it imports. *)

From stdpp Require Import base tactics list strings option numbers relations.
From Stdlib Require Import ZArith NArith Lia Ascii String.
From S2P Require Import Prelude RustStr RustText RustPath RustFloat Syntax Lexer Parser ParserComplete Diagnostic Bytecode BTree Compiler Macro.
From S2P Require Import Expander ExpanderProofs CodeSafety Imports.

Open Scope string_scope.
Open Scope list_scope.
Open Scope nat_scope.

(** ** Segments *)

(** Newlines only at the ends, and at all ends but the last. *)
Inductive rows : list (list byte) -> Prop :=
  | rows_nil : rows []
  | rows_last l : l <> [] -> Forall (fun b => b <> newline) l -> rows [l]
  | rows_cons l ls : Forall (fun b => b <> newline) l -> rows ls -> rows ((l ++ [newline]) :: ls).

Lemma byte_eqb_spec a b : reflect (a = b) (byte_eqb a b).
Proof. apply Ascii.eqb_spec. Qed.

Lemma split_inclusive_rows l : forall cur, Forall (fun b => b <> newline) cur -> rows (split_inclusive cur l).
Proof.
  induction l as [|b l IH]; intros cur Hcur; simpl.
  - destruct cur as [|c cur]; [constructor|]. constructor; [|by rewrite Forall_reverse]. by rewrite reverse_cons; destruct (reverse cur).
  - destruct (byte_eqb_spec b newline) as [->|Hb]; [|by apply IH; constructor].
    rewrite reverse_cons. constructor; [by rewrite Forall_reverse|]. by apply IH.
Qed.

Lemma split_inclusive_app l : forall cur m, Forall (fun b => b <> newline) l ->
  split_inclusive cur (l ++ m) = split_inclusive (reverse l ++ cur) m.
Proof.
  induction l as [|b l IH]; intros cur m; [done|]. intros [Hb Hl]%Forall_cons_1. simpl.
  destruct (byte_eqb_spec b newline) as [->|_]; [done|]. rewrite IH by done. by rewrite reverse_cons, <- app_assoc.
Qed.

Lemma split_inclusive_concat ls : rows ls -> split_inclusive [] (concat ls) = ls.
Proof.
  induction 1 as [|l Hne Hl|l ls Hl _ IH]; [done|..]; simpl.
  - rewrite app_nil_r, <- (app_nil_r l) at 1. rewrite split_inclusive_app by done. simpl. rewrite app_nil_r, reverse_involutive.
    destruct (reverse l) eqn:Hr; [|done]. apply (f_equal reverse) in Hr. by rewrite reverse_involutive in Hr.
  - rewrite <- app_assoc, split_inclusive_app by done. simpl. by rewrite app_nil_r, IH, reverse_cons, reverse_involutive.
Qed.

Lemma concat_split_inclusive l : forall cur, concat (split_inclusive cur l) = reverse cur ++ l.
Proof.
  induction l as [|b l IH]; intros cur; simpl.
  - destruct cur; simpl; by rewrite ?app_nil_r.
  - destruct (byte_eqb b newline) eqn:Hb; simpl; rewrite IH; by rewrite reverse_cons, <- app_assoc.
Qed.

(** The line of a segment, as [lines] has it. *)
Definition line_of (segment : list byte) : list byte :=
  match strip_byte newline segment with
  | (line, []) => line
  | (line, _) => (strip_byte carriage_return line).1
  end.

Lemma strip_byte_snoc b l : strip_byte b (l ++ [b]) = (l, [b]).
Proof. unfold strip_byte. rewrite reverse_app. simpl. rewrite Ascii.eqb_refl. by rewrite reverse_involutive. Qed.

Lemma strip_byte_none b l : Forall (fun c => c <> b) l -> strip_byte b l = (l, []).
Proof.
  intros Hl. unfold strip_byte. destruct (reverse l) as [|c r] eqn:Hr; [done|].
  assert (c ∈ l) as Hin by (rewrite <- (reverse_involutive l), Hr, elem_of_reverse; left).
  rewrite list.Forall_forall in Hl. apply Hl in Hin. by destruct (Ascii.eqb_spec c b).
Qed.

Lemma split_lines_of l : forall cur, Forall (fun b => b <> newline) cur -> split_lines cur l = line_of <$> split_inclusive cur l.
Proof.
  induction l as [|b l IH]; intros cur Hcur; simpl.
  - destruct cur as [|c cur]; [done|]. simpl. f_equal. unfold line_of. by rewrite strip_byte_none by (by rewrite Forall_reverse).
  - destruct (byte_eqb_spec b newline) as [->|Hb]; [|by apply IH; constructor]. simpl. rewrite <- IH by done. f_equal.
    unfold line_of. rewrite reverse_cons, strip_byte_snoc. unfold strip_byte. rewrite reverse_involutive. destruct cur as [|c cur]; [done|].
    unfold byte_eqb. by destruct (Ascii.eqb c carriage_return).
Qed.

Lemma lines_of s : lines s = line_of <$> split_inclusive [] (as_bytes s).
Proof. by apply split_lines_of. Qed.

(** ** Trimming *)

Lemma drop_while_app (p : char -> bool) l m : drop_while p l <> [] -> drop_while p (l ++ m) = drop_while p l ++ m.
Proof. induction l as [|c l IH]; simpl; [done|]. by destruct (p c). Qed.

Lemma drop_while_all (p : char -> bool) l m : drop_while p l = [] -> drop_while p (l ++ m) = drop_while p m.
Proof. induction l as [|c l IH]; simpl; [done|]. by destruct (p c). Qed.

(** White space at the end does not count. *)
Lemma trim_chars_snoc cs c : is_whitespace c = true -> trim_chars (cs ++ [c]) = trim_chars cs.
Proof.
  intros Hc. unfold trim_chars, trim_start_chars. destruct (decide (drop_while is_whitespace cs = [])) as [He|He].
  - rewrite drop_while_all, He by done. simpl. by rewrite Hc.
  - rewrite drop_while_app by done. unfold trim_end_chars. rewrite reverse_app. simpl. by rewrite Hc.
Qed.

Lemma trim_chars_blank n : trim_chars (replicate n 32%N) = [].
Proof. unfold trim_chars, trim_start_chars. assert (drop_while is_whitespace (replicate n 32%N) = []) as -> by (by induction n). done. Qed.

(** ** Stripping *)

Lemma string_prefix_settles source : forall escape value, settles (string_prefix_from escape value source) (fun _ => True).
Proof. induction source as [|c rest IH]; intros [] value; simpl; repeat case_match; try done; apply IH. Qed.

(** A line is an import, an error or neither. *)
Lemma parse_line_cases line : parse_static_import_line line = None \/
  (exists i, parse_static_import_line line = Some (Ok i)) \/ (exists e, parse_static_import_line line = Some (Err e)).
Proof.
  unfold parse_static_import_line. pose proof (fun rest => string_prefix_settles rest false []) as Hs. fold (parse_string_prefix) in Hs.
  repeat case_match; try (by auto); try (by right; left; eexists); try (by right; right; eexists);
    match goal with H : parse_string_prefix ?r = _ |- _ => specialize (Hs r); unfold parse_string_prefix in H; by rewrite H in Hs end.
Qed.

Definition content (segment : list byte) : list byte := (strip_byte carriage_return (strip_byte newline segment).1).1.

(** What a segment is as an import line. *)
Definition import_of (segment : list byte) : option (res anyhow string) :=
  match utf8_chars (content segment) with Some cs => parse_static_import_line (trim_chars cs) | None => None end.

Lemma import_of_cases l : import_of l = None \/ (exists i, import_of l = Some (Ok i)) \/ (exists e, import_of l = Some (Err e)).
Proof. unfold import_of. destruct (utf8_chars (content l)); [apply parse_line_cases|by left]. Qed.

Definition blank (segment : list byte) : list byte :=
  let '(line, newline) := strip_byte newline segment in
  let '(content, carriage_return) := strip_byte carriage_return line in
  replicate (length content) " "%char ++ carriage_return ++ newline.

Lemma strip_byte_app b l : (strip_byte b l).1 ++ (strip_byte b l).2 = l.
Proof.
  unfold strip_byte. destruct (reverse l) as [|c r] eqn:Hr; [by rewrite app_nil_r|]. destruct (Ascii.eqb_spec c b) as [->|_]; [|by rewrite app_nil_r].
  simpl. rewrite <- (reverse_involutive l), Hr. by rewrite reverse_cons.
Qed.

Lemma strip_byte_cases b l : strip_byte b l = (l, []) \/ exists m, l = m ++ [b] /\ strip_byte b l = (m, [b]).
Proof.
  unfold strip_byte. destruct (reverse l) as [|c r] eqn:Hr; [by left|]. destruct (Ascii.eqb_spec c b) as [->|_]; [right|by left].
  exists (reverse r). split; [|done]. rewrite <- (reverse_involutive l), Hr. by rewrite reverse_cons.
Qed.

Lemma utf8_ascii_split p b q cs : (byte_val b < 128)%N -> utf8_chars (p ++ b :: q) = Some cs ->
  exists cs1 cs2, cs = cs1 ++ byte_val b :: cs2 /\ utf8_chars p = Some cs1 /\ utf8_chars q = Some cs2.
Proof.
  intros Hb Hcs. assert ((p ++ b :: q) !! length p = Some b) as Hl by (by apply list_lookup_middle).
  destruct (boundary_ascii _ _ _ _ Hcs Hl Hb) as [Hb1 Hb2].
  destruct (utf8_split _ _ (length p) Hcs ltac:(rewrite length_app; lia) Hb1) as (cs1 & cs2 & -> & H1 & H2).
  rewrite take_app_length in H1. rewrite drop_app_length in H2.
  destruct (utf8_split _ _ (S (length p)) Hcs ltac:(rewrite length_app; simpl; lia) Hb2) as (cs1' & cs2' & Heq & _ & H2').
  replace (S (length p)) with (length (p ++ [b])) in H2' by (rewrite length_app; simpl; lia).
  replace (p ++ b :: q) with ((p ++ [b]) ++ q) in H2' by (by rewrite <- app_assoc). rewrite drop_app_length in H2'.
  exists cs1, cs2'. split; [|done]. f_equal.
  assert (utf8_chars (encode_char (byte_val b) ++ q) = Some cs2) as H3 by (by rewrite encode_ascii).
  rewrite utf8_chars_encode_char, H2' in H3 by (unfold scalar; lia). by injection H3 as <-.
Qed.

Lemma utf8_ascii_parts p b q : (byte_val b < 128)%N -> utf8 (p ++ b :: q) -> utf8 p /\ utf8 q.
Proof. intros Hb [cs Hcs]. apply utf8_ascii_split in Hcs as (? & ? & _ & ? & ?); [|done]. by split; eexists. Qed.

Lemma utf8_join p q : utf8 p -> utf8 q -> utf8 (p ++ q).
Proof. intros [cs1 H1] [cs2 H2]. exists (cs1 ++ cs2). by rewrite (utf8_app _ _ _ H1), H2. Qed.

Lemma utf8_ascii_all l : Forall (fun b => (byte_val b < 128)%N) l -> utf8 l.
Proof.
  induction 1 as [|b l Hb _ IH]; [by eexists|]. apply (utf8_join [b]); [|done]. exists [byte_val b].
  rewrite <- (encode_ascii b Hb), <- (app_nil_r (encode_char _)), utf8_chars_encode_char; [done|unfold scalar; lia].
Qed.

(** The segments of a text are texts. *)
Lemma rows_utf8 ls : rows ls -> utf8 (concat ls) -> Forall utf8 ls.
Proof.
  induction 1 as [|l Hne Hl|l ls Hl _ IH]; simpl; [constructor|..].
  - rewrite app_nil_r. by repeat constructor.
  - rewrite <- app_assoc. intros [Hl' Hls]%utf8_ascii_parts; [|done]. constructor; [|auto]. apply utf8_join; [done|]. by eexists.
Qed.

Lemma strip_byte_utf8 b l : (byte_val b < 128)%N -> utf8 l -> utf8 (strip_byte b l).1.
Proof.
  intros Hb Hl. destruct (strip_byte_cases b l) as [->|(m & -> & ->)]; [done|]. by apply utf8_ascii_parts in Hl as [? _].
Qed.

Lemma content_utf8 l : utf8 l -> utf8 (content l).
Proof. intros Hl. unfold content. apply strip_byte_utf8; [done|]. by apply strip_byte_utf8. Qed.

(** Trimmed, a line and the content of its segment are the same. *)
Lemma line_content l cs : utf8_chars (line_of l) = Some cs ->
  exists cs', utf8_chars (content l) = Some cs' /\ trim_chars cs = trim_chars cs'.
Proof.
  unfold line_of, content. destruct (strip_byte_cases newline l) as [->|(m & -> & ->)]; [|by exists cs]. simpl.
  destruct (strip_byte_cases carriage_return l) as [->|(m & -> & ->)]; [by exists cs|]. simpl. intros Hcs.
  apply utf8_ascii_split in Hcs as (cs1 & cs2 & -> & Hcs1 & Hcs2); [|done]. injection Hcs2 as <-. exists cs1. split; [done|]. by apply trim_chars_snoc.
Qed.

Lemma line_of_utf8 l : utf8 l -> utf8 (line_of l).
Proof.
  intros Hl. unfold line_of. pose proof (strip_byte_utf8 newline l eq_refl Hl) as H. destruct (strip_byte newline l) as [x [|]]; [done|].
  by apply strip_byte_utf8.
Qed.

Lemma chars_of {E : Type} l cs : utf8_chars l = Some cs -> chars (E:=E) (from_bytes l) = Ok cs.
Proof. intros H. unfold chars, as_bytes, from_bytes. by rewrite list_ascii_of_string_of_list_ascii, H. Qed.

Lemma strip_segment_eq l : utf8 l -> strip_segment l =
  match import_of l with Some r => let? _ := r in Ok (blank l) | None => Ok l end.
Proof.
  intros Hl. destruct (content_utf8 l Hl) as [cs Hcs]. unfold strip_segment, import_of. rewrite Hcs. unfold content, blank in *.
  destruct (strip_byte newline l) as [line nl]. simpl in Hcs. destruct (strip_byte carriage_return line) as [c cr]. simpl in Hcs.
  by rewrite (chars_of _ cs Hcs).
Qed.

Lemma imports_of_lines_cons l ls : utf8 l -> imports_of_lines (line_of l :: ls) =
  match import_of l with
  | Some r => let? import := r in let? rest := imports_of_lines ls in Ok (import :: rest)
  | None => imports_of_lines ls
  end.
Proof.
  intros Hl. destruct (line_of_utf8 l Hl) as [cs Hcs]. destruct (line_content l cs Hcs) as (cs' & Hcs' & Ht).
  cbn [imports_of_lines]. unfold import_of. rewrite (chars_of _ cs Hcs), Hcs'. cbn [rbind]. by rewrite Ht.
Qed.

(** What stripping makes of a segment. *)
Definition stripped_segment (l l' : list byte) : Prop :=
  import_of l = None /\ l' = l \/ (exists i, import_of l = Some (Ok i)) /\ l' = blank l.

Lemma strip_lockstep ls : Forall utf8 ls ->
  match imports_of_lines (line_of <$> ls), strip_segments ls with
  | Ok _, Ok bytes => exists ls', bytes = concat ls' /\ Forall2 stripped_segment ls ls'
  | Err e, Err e' => e = e'
  | _, _ => False
  end.
Proof.
  induction 1 as [|l ls Hl _ IH]; [by exists []|]. rewrite fmap_cons, imports_of_lines_cons by done. cbn [strip_segments]. rewrite strip_segment_eq by done.
  destruct (import_of_cases l) as [Hi|[[i Hi]|[e Hi]]]; rewrite Hi; cbn [rbind]; [| |done].
  all: destruct (imports_of_lines _), (strip_segments ls); cbn [rbind]; try done.
  all: destruct IH as (ls' & -> & IH); eexists (_ :: ls'); split; [done|]; constructor; [|done].
  - by left.
  - right. split; [by eexists|done].
Qed.

(** Each byte is kept, or blanked where it is no newline. *)
Definition kept_or_blank (a b : byte) : Prop := b = a \/ b = " "%char /\ a <> newline.

Lemma kept_refl l : Forall2 kept_or_blank l l.
Proof. induction l; [constructor|]. constructor; [by left|done]. Qed.

Lemma blank_bytes l : rows [l] -> Forall2 kept_or_blank l (blank l).
Proof.
  intros Hr. unfold blank. pose proof (strip_byte_app newline l) as Hl. assert (Forall (fun b => b <> newline) (strip_byte newline l).1) as Hno.
  { inversion Hr as [|? Hne Hl'|x ? Hx]; subst; [by rewrite strip_byte_none|by rewrite strip_byte_snoc]. }
  destruct (strip_byte newline l) as [line nl]. simpl in *. pose proof (strip_byte_app carriage_return line) as Hline.
  destruct (strip_byte carriage_return line) as [c cr]. simpl in *. subst. rewrite <- app_assoc. apply Forall_app in Hno as [Hc _].
  apply Forall2_app; [|apply kept_refl]. clear Hr. induction Hc as [|b c Hb _ IH]; [constructor|]. simpl. constructor; [by right|done].
Qed.

Lemma rows_cons_inv l ls : rows (l :: ls) -> rows [l] /\ rows ls.
Proof.
  inversion 1; subst; split; try done; try constructor; try done; constructor.
Qed.

Lemma stripped_bytes ls ls' : rows ls -> Forall2 stripped_segment ls ls' -> Forall2 kept_or_blank (concat ls) (concat ls').
Proof.
  intros Hr HF. induction HF as [|l l' ls ls' Hl _ IH]; [constructor|]. simpl.
  apply rows_cons_inv in Hr as [Hr1 Hr2].
  apply Forall2_app; [|auto]. destruct Hl as [[_ ->]|[_ ->]]; [|by apply blank_bytes].
  apply kept_refl.
Qed.

Lemma kept_newlines l l' : Forall2 kept_or_blank l l' -> forall i, newline_ends i l' = newline_ends i l.
Proof.
  induction 1 as [|a b l l' Hab _ IH]; intros i; [done|]. simpl. rewrite IH.
  destruct Hab as [->|[-> Hn]]; [done|]. by destruct (byte_eqb_spec a newline).
Qed.

Lemma kept_free l l' : Forall2 kept_or_blank l l' -> Forall (fun b => b <> newline) l -> Forall (fun b => b <> newline) l'.
Proof. induction 1 as [|a b l l' Hab _ IH]; [done|]. intros [Ha Hl]%Forall_cons_1. constructor; [|auto]. by destruct Hab as [->|[-> _]]. Qed.

Lemma stripped_rows ls ls' : rows ls -> Forall2 stripped_segment ls ls' -> rows ls'.
Proof.
  intros Hr. revert ls'. induction Hr as [|l Hne Hl|l ls Hl Hr IH]; intros ls' HF; inversion HF as [|? l' ? ls1 Hl' HF1]; subst; [constructor|..].
  - inversion HF1; subst. assert (Forall2 kept_or_blank l l') as Hk.
    { replace l with (concat [l]) by (simpl; by rewrite app_nil_r). replace l' with (concat [l']) by (simpl; by rewrite app_nil_r).
      apply (stripped_bytes [l] [l']); [by apply rows_last|done]. }
    apply rows_last; [|by eapply kept_free]. apply Forall2_length in Hk. by destruct l, l'.
  - destruct Hl' as [[_ ->]|[_ ->]]; [by constructor; [|apply IH]|]. unfold blank. rewrite strip_byte_snoc.
    pose proof (strip_byte_app carriage_return l) as Happ. destruct (strip_byte carriage_return l) as [c cr]. simpl in Happ. subst l.
    rewrite app_assoc. constructor; [|by apply IH]. apply Forall_app in Hl as [_ Hcr]. apply Forall_app. split; [|done]. by apply Forall_replicate.
Qed.

(** A line of spaces, as long as the one it stands for. *)
Definition blank_line (l l' : list byte) : Prop :=
  length l' = length l /\ Forall (fun b => b = " "%char \/ b = carriage_return) l'.

Lemma blank_line_of l : rows [l] -> blank_line (line_of l) (line_of (blank l)).
Proof.
  intros Hr. assert (forall n, Forall (fun b => b = " "%char \/ b = carriage_return) (replicate n " "%char)) as Hrep by (intros; apply Forall_replicate; auto).
  inversion Hr as [|? Hne Hl|x ? Hx]; subst; unfold blank, line_of.
  - rewrite (strip_byte_none newline l Hl). destruct (strip_byte_cases carriage_return l) as [Hc|(m & -> & Hc)]; rewrite Hc; cbn [app]; rewrite ?app_nil_r.
    + rewrite strip_byte_none by (by apply Forall_replicate). split; [by rewrite length_replicate|done].
    + rewrite strip_byte_none by (apply Forall_app; split; [by apply Forall_replicate|by repeat constructor]).
      split; [by rewrite !length_app, length_replicate|]. apply Forall_app. split; [done|]. constructor; [by right|constructor].
  - rewrite strip_byte_snoc. destruct (strip_byte_cases carriage_return x) as [Hc|(m & -> & Hc)]; rewrite Hc; rewrite app_assoc, strip_byte_snoc; cbn [fst].
    + rewrite app_nil_r, strip_byte_none by (by apply Forall_replicate). cbn [fst]. split; [by rewrite length_replicate|done].
    + rewrite strip_byte_snoc. cbn [fst]. split; [by rewrite length_replicate|done].
Qed.

(** A blank line is no import. *)
Lemma blank_no_import l : import_of (blank l) = None.
Proof.
  unfold import_of. destruct (utf8_chars (content (blank l))) as [cs|] eqn:Hcs; [|done].
  assert (exists n, content (blank l) = replicate n " "%char) as [n Hn].
  { unfold content, blank. destruct (strip_byte newline l) as [line nl] eqn:Hnl. destruct (strip_byte carriage_return line) as [c cr] eqn:Hcr.
    exists (length c). assert (forall b, b <> " "%char -> Forall (fun x => x <> b) (replicate (length c) " "%char)) as Hrep by (intros; apply Forall_replicate; congruence).
    assert (nl = [] \/ nl = [newline]) as Hnl' by (destruct (strip_byte_cases newline l) as [H|(? & _ & H)]; rewrite H in Hnl; injection Hnl as <- <-; auto).
    assert (cr = [] \/ cr = [carriage_return]) as Hcr' by (destruct (strip_byte_cases carriage_return line) as [H|(? & _ & H)]; rewrite H in Hcr; injection Hcr as <- <-; auto).
    assert ((strip_byte newline (replicate (length c) " "%char ++ cr ++ nl)).1 = replicate (length c) " "%char ++ cr) as ->.
    { destruct Hnl' as [-> | ->]; [|by rewrite app_assoc, strip_byte_snoc]. rewrite app_nil_r, strip_byte_none; [done|].
      apply Forall_app. split; [by apply Hrep|]. destruct Hcr' as [-> | ->]; repeat constructor; done. }
    destruct Hcr' as [-> | ->]; [|by rewrite strip_byte_snoc]. by rewrite app_nil_r, strip_byte_none by (by apply Hrep). }
  rewrite Hn in Hcs. assert (utf8_chars (replicate n " "%char) = Some (replicate n 32%N)) as Hr.
  { clear. induction n as [|n IH]; [done|]. simpl. by rewrite IH. }
  rewrite Hr in Hcs. injection Hcs as <-. by rewrite trim_chars_blank.
Qed.

Lemma blank_utf8 l : utf8 l -> utf8 (blank l).
Proof.
  intros Hl. unfold blank. destruct (strip_byte newline l) as [line nl] eqn:Hnl. destruct (strip_byte carriage_return line) as [c cr] eqn:Hcr.
  apply utf8_join; [by apply utf8_ascii_all, Forall_replicate|]. apply utf8_ascii_all, Forall_app. split.
  - destruct (strip_byte_cases carriage_return line) as [H|(? & _ & H)]; rewrite H in Hcr; injection Hcr as <- <-; by repeat constructor.
  - destruct (strip_byte_cases newline l) as [H|(? & _ & H)]; rewrite H in Hnl; injection Hnl as <- <-; by repeat constructor.
Qed.

Lemma stripped_utf8 ls ls' : Forall utf8 ls -> Forall2 stripped_segment ls ls' -> Forall utf8 ls'.
Proof.
  intros Hu HF. induction HF as [|l l' ls ls' Hl _ IH]; [constructor|]. apply Forall_cons_1 in Hu as [Hu Hus]. constructor; [|auto].
  destruct Hl as [[_ ->]|[_ ->]]; [done|by apply blank_utf8].
Qed.

Lemma concat_utf8 ls : Forall utf8 ls -> utf8 (concat ls).
Proof. induction 1; simpl; [by eexists|by apply utf8_join]. Qed.

Lemma stripped_no_imports ls ls' : Forall utf8 ls' -> Forall2 stripped_segment ls ls' -> imports_of_lines (line_of <$> ls') = Ok [].
Proof.
  intros Hu HF. induction HF as [|l l' ls ls' Hl _ IH]; [done|]. apply Forall_cons_1 in Hu as [Hu Hus].
  rewrite fmap_cons, imports_of_lines_cons by done. destruct Hl as [[Hi ->]|[_ ->]]; [rewrite Hi; auto|]. rewrite blank_no_import. auto.
Qed.

(** Is the line an import? *)
Definition is_import_line (l : list byte) : bool :=
  match utf8_chars l with
  | Some cs => match parse_static_import_line (trim_chars cs) with Some _ => true | None => false end
  | None => false
  end.

Lemma import_line_of l : utf8 l -> is_import_line (line_of l) = match import_of l with Some _ => true | None => false end.
Proof.
  intros Hl. destruct (line_of_utf8 l Hl) as [cs Hcs]. destruct (line_content l cs Hcs) as (cs' & Hcs' & Ht).
  unfold is_import_line, import_of. by rewrite Hcs, Hcs', Ht.
Qed.

(** Stripping succeeds when the imports are read, with the same error if not. *)
Lemma strip_settles source : utf8 (as_bytes source) ->
  match static_imports source, strip_static_imports source with
  | Ok _, Ok stripped => utf8 (as_bytes stripped)
  | Err e, Err e' => e = e'
  | _, _ => False
  end.
Proof.
  intros Hu. unfold static_imports, strip_static_imports. rewrite lines_of. pose proof (split_inclusive_rows (as_bytes source) [] ltac:(constructor)) as Hr.
  assert (Forall utf8 (split_inclusive [] (as_bytes source))) as Hus by (apply rows_utf8; [done|]; by rewrite concat_split_inclusive).
  pose proof (strip_lockstep _ Hus) as Hl. set (segs := split_inclusive [] (as_bytes source)) in *.
  destruct (imports_of_lines (line_of <$> segs)), (strip_segments segs); cbn [rbind]; try done.
  destruct Hl as (ls' & -> & HF). unfold as_bytes, from_bytes. rewrite list_ascii_of_string_of_list_ascii. by eapply concat_utf8, stripped_utf8.
Qed.

(** ** Linking *)

Lemma rebase_fits n nb io bo m mb i : fits n nb i = true -> n + io <= m -> nb + bo <= mb ->
  fits m mb (rebase (N.of_nat io) (N.of_nat bo) i) = true.
Proof.
  unfold fits, rebase. destruct i as [o sp]. destruct o; simpl; rewrite ?N.leb_le, ?N.ltb_lt; try done; lia.
Qed.

Lemma fits_mono n nb m mb i : fits n nb i = true -> n <= m -> nb <= mb -> fits m mb i = true.
Proof. unfold fits. destruct (op i); rewrite ?N.leb_le, ?N.ltb_lt; try done; lia. Qed.

(** Linking keeps chunks safe. *)
Lemma append_chunk_safe a b : safe_chunk a = true -> safe_chunk b = true -> safe_chunk (append_chunk a b) = true.
Proof.
  destruct a as [fa ia ba], b as [fb ib bb]. unfold append_chunk. cbn [safe_chunk instructions blocks chunk_file]. rewrite !andb_true_iff.
  intros [Ha Hba] [Hb Hbb]. rewrite !forallb_app, !andb_true_iff, !length_app, length_fmap. rewrite forallb_forall in Ha, Hb. split_and!; [| |done..].
  - apply forallb_forall. intros i Hi. eapply fits_mono; [by apply Ha|lia..].
  - apply forallb_forall. intros i Hi. apply list_elem_of_In, list_elem_of_fmap in Hi as (j & -> & Hj).
    apply list_elem_of_In in Hj. eapply rebase_fits; [by apply Hb|lia..].
Qed.

Lemma rebase_rebase a b c d i : rebase a b (rebase c d i) = rebase (a + c) (b + d) i.
Proof. destruct i as [o sp]. unfold rebase. destruct o; simpl; do 2 f_equal; lia. Qed.

Lemma append_chunk_assoc a b c : append_chunk (append_chunk a b) c = append_chunk a (append_chunk b c).
Proof.
  destruct a as [fa ia ba], b as [fb ib bb], c as [fc ic bc]. unfold append_chunk. cbn [instructions blocks chunk_file].
  rewrite fmap_app, <- !app_assoc. do 3 f_equal. rewrite <- list_fmap_compose. apply list_fmap_ext. intros _ i _. cbn [compose].
  rewrite rebase_rebase. f_equal; rewrite !length_app, ?length_fmap; lia.
Qed.

Lemma append_new_chunk a f : append_chunk a (new_chunk f) = a.
Proof. destruct a as [fa ia ba]. unfold append_chunk. cbn. by rewrite !app_nil_r. Qed.

(** The chunks of files, linked in order. *)
Definition link (file : string) (chunks : list Chunk) : Chunk := foldl append_chunk (new_chunk file) chunks.

Lemma append_new_l f f' i b : append_chunk (new_chunk f) (mkChunk f' i b) = mkChunk f i b.
Proof.
  unfold append_chunk. cbn. f_equal. rewrite <- (list_fmap_id i) at 2. apply list_fmap_ext. intros _ [o sp] _. unfold rebase. simpl. f_equal.
  destruct o; simpl; by rewrite ?N.add_0_r.
Qed.

Lemma link_append chunks : forall a f, append_chunk a (link f chunks) = foldl append_chunk a chunks.
Proof.
  unfold link. induction chunks as [|c chunks IH] using rev_ind; intros a f; [apply append_new_chunk|].
  rewrite !foldl_app. simpl. by rewrite <- append_chunk_assoc, IH.
Qed.

Lemma link_app f f' chunks chunks' : append_chunk (link f chunks) (link f' chunks') = link f (chunks ++ chunks').
Proof. rewrite link_append. unfold link. by rewrite foldl_app. Qed.

Lemma link_safe f chunks : Forall (fun c => safe_chunk c = true) chunks -> safe_chunk (link f chunks) = true.
Proof.
  unfold link. induction chunks as [|c chunks IH] using rev_ind; [done|]. intros [Hc [Hl _]%Forall_cons_1]%Forall_app.
  rewrite foldl_app. simpl. apply append_chunk_safe; auto.
Qed.

(** An instruction where it stands: the block it names, and how far it jumps. *)
Definition relocatable_op (c : Chunk) (pc : nat) (o : Op) : Op * option Chunk * Z :=
  match o with
  | Op.PushBlock b => (Op.PushBlock 0, blocks c !! N.to_nat b, 0%Z)
  | Op.AddMethod name b args => (Op.AddMethod name 0 args, blocks c !! N.to_nat b, 0%Z)
  | Op.AddFunction name b args => (Op.AddFunction name 0 args, blocks c !! N.to_nat b, 0%Z)
  | Op.JumpIfFalse t => (Op.JumpIfFalse 0, None, (Z.of_N t - Z.of_nat pc)%Z)
  | Op.Jump t => (Op.Jump 0, None, (Z.of_N t - Z.of_nat pc)%Z)
  | o => (o, None, 0%Z)
  end.

(** The code of a chunk, wherever it is placed. *)
Definition relocatable (c : Chunk) : list (Op * option Chunk * Z * SourceSpan) :=
  imap (fun pc i => (relocatable_op c pc (op i), ispan i)) (instructions c).

(** Linking puts code behind code: every instruction names the block, and jumps
    the distance, that it did before. *)
Lemma append_relocatable a b : safe_chunk a = true -> relocatable (append_chunk a b) = relocatable a ++ relocatable b.
Proof.
  destruct a as [fa ia ba], b as [fb ib bb]. unfold relocatable, append_chunk. cbn [instructions blocks chunk_file]. intros Ha.
  cbn [safe_chunk] in Ha. apply andb_prop in Ha as [Ha _]. rewrite forallb_forall in Ha. rewrite imap_app. f_equal.
  - apply imap_ext. intros pc [o sp] Hi. assert (fits (length ia) (length ba) (mkInstruction o sp) = true) as Hf
      by (apply Ha, list_elem_of_In; by eapply list_elem_of_lookup_2).
    destruct o; simpl in *; try done; unfold fits in Hf; simpl in Hf; apply N.ltb_lt in Hf || done; by rewrite lookup_app_l by lia.
  - rewrite imap_fmap. apply imap_ext. intros pc [o sp] _. cbn [compose op ispan rebase]. f_equal. destruct o; simpl; try done; f_equal; try lia.
    all: rewrite N2Nat.inj_add, Nat2N.id, lookup_app_r by lia; by rewrite Nat.add_sub || (do 2 f_equal; lia).
Qed.

Lemma link_relocatable f chunks : Forall (fun c => safe_chunk c = true) chunks -> relocatable (link f chunks) = flat_map relocatable chunks.
Proof.
  induction chunks as [|c chunks IH] using rev_ind; [done|]. intros [Hl Hc]%Forall_app. rewrite flat_map_app. simpl. rewrite app_nil_r, <- IH by done.
  unfold link. rewrite foldl_app. simpl. apply append_relocatable. by apply link_safe.
Qed.

(** ** Theorem *)

(** Blanking the import lines of a text and reading them succeed together,
    or fail with the same error.  The stripped text has the length and the line
    starts of the text, so every offset means the same place; a line that is no
    import is untouched, an import is replaced by a blank line of its length,
    and no import is left. *)
Theorem strip_static_imports_correct (source : string) (Hu : utf8 (as_bytes source)) :
  match static_imports source, strip_static_imports source with
  | Ok _, Ok stripped =>
      String.length stripped = String.length source /\ line_starts stripped = line_starts source /\
      (forall n l, lines source !! n = Some l -> exists l', lines stripped !! n = Some l' /\
         if is_import_line l then blank_line l l' else l' = l) /\
      static_imports stripped = Ok []
  | Err e, Err e' => e = e'
  | _, _ => False
  end.
Proof.
  unfold static_imports, strip_static_imports. rewrite lines_of. pose proof (split_inclusive_rows (as_bytes source) [] ltac:(constructor)) as Hr.
  assert (Forall utf8 (split_inclusive [] (as_bytes source))) as Hus by (apply rows_utf8; [done|]; by rewrite concat_split_inclusive).
  pose proof (strip_lockstep _ Hus) as Hl. pose proof (concat_split_inclusive (as_bytes source) []) as Hcat. set (segs := split_inclusive [] (as_bytes source)) in *.
  destruct (imports_of_lines (line_of <$> segs)) as [imports|e| |], (strip_segments segs) as [bytes| | |]; cbn [rbind]; try done.
  destruct Hl as (ls' & -> & HF). pose proof (stripped_bytes _ _ Hr HF) as Hk. rewrite Hcat in Hk. simpl in Hk.
  assert (as_bytes (from_bytes (concat ls')) = concat ls') as Hb by apply list_ascii_of_string_of_list_ascii.
  assert (lines (from_bytes (concat ls')) = line_of <$> ls') as Hlines by (rewrite lines_of, Hb, split_inclusive_concat; [done|by eapply stripped_rows]).
  split_and!.
  - change (str_len (from_bytes (concat ls')) = str_len source). rewrite !str_len_bytes, Hb. symmetry. by apply Forall2_length in Hk.
  - unfold line_starts. rewrite Hb. f_equal. by apply kept_newlines.
  - intros n l Hn. rewrite Hlines. apply list_lookup_fmap_Some in Hn as (seg & -> & Hseg).
    destruct (Forall2_lookup_l _ _ _ _ _ HF Hseg) as (seg' & Hseg' & Hs). rewrite list_lookup_fmap, Hseg'. eexists. split; [done|].
    pose proof (list.Forall_lookup_1 _ _ _ _ Hus Hseg) as Hu'. rewrite import_line_of by done.
    destruct Hs as [[-> ->]|[[i ->] ->]]; [done|]. apply blank_line_of. clear -Hr Hseg.
    revert n Hseg. induction segs as [|l ls IH]; intros n Hn; [done|]. apply rows_cons_inv in Hr as [Hl Hls]. destruct n; simpl in Hn; [by simplify_eq|by eapply IH].
  - rewrite Hlines. eapply stripped_no_imports; [|done]. by eapply stripped_utf8.
Qed.

Example strip_static_imports_correct_witness :
  let source := (quoted "~lib/a~ import" ++ from_bytes [carriage_return; newline] ++ quoted "~x~ print")%string in
  utf8 (as_bytes source) /\
  exists stripped, strip_static_imports source = Ok stripped /\ line_starts stripped = [0; 16] /\ static_imports stripped = Ok [].
Proof.
  intros source. assert (utf8 (as_bytes source)) as Hu by (by eexists; vm_compute). split; [exact Hu|].
  pose proof (strip_static_imports_correct source Hu) as H. destruct (static_imports source) eqn:E; [|vm_compute in E; discriminate..].
  destruct (strip_static_imports source) as [stripped| | |] eqn:E'; [|vm_compute in E'; discriminate..].
  exists stripped. destruct H as (_ & Hs & _ & Hi). split; [reflexivity|]. split; [rewrite Hs; vm_compute; reflexivity|exact Hi].
Defined.

(** * The import resolver, proved

    Every file that a compilation reads is inside the project, and a successful
    compilation links each file once, after the files it imports. *)

Lemma good_literal n : n <> "" -> n <> "." -> n <> ".." -> forallb (fun b => negb (Ascii.eqb b slash)) (as_bytes n) = true -> good_name n.
Proof.
  intros H1 H2 H3 H. split_and!; [done..|]. rewrite list.Forall_forall. intros b Hb. rewrite forallb_forall in H.
  apply list_elem_of_In in Hb. apply H in Hb. by destruct (Ascii.eqb_spec b slash).
Qed.

Lemma toml_name : good_name "ricochet.toml".
Proof. by apply good_literal. Qed.

Lemma manifest_normal names : normal_names names -> normal_names (names ++ ["ricochet.toml"]).
Proof. intros Hn. apply Forall_app. split; [done|]. constructor; [exact toml_name|constructor]. Qed.

Section containment.
Context {fs : FileSystem} {laws : FileSystemLaws fs} {toml : TomlParser}.

(** The canonical directory [names] has the root [base]: the nearest directory
    above it with a manifest, or itself. *)
Definition has_manifest (names : list string) : bool := is_file (absolute (names ++ ["ricochet.toml"])).

Definition root_of (names base : list string) : Prop :=
  base `prefix_of` names /\
  (has_manifest base = true /\ (forall b, b `prefix_of` names -> has_manifest b = true -> b `prefix_of` base) \/
   base = names /\ forall b, b `prefix_of` names -> has_manifest b = false).


Lemma find_map_join l :
  List.find is_file ((fun ancestor => join ancestor "ricochet.toml") <$> l) =
  (fun ancestor => join ancestor "ricochet.toml") <$> List.find (fun a => is_file (join a "ricochet.toml")) l.
Proof. induction l as [|a l IH]; [done|]. rewrite fmap_cons. cbn [List.find]. destruct (is_file (join a "ricochet.toml")); [done|exact IH]. Qed.

Lemma normal_prefix (b names : list string) : b `prefix_of` names -> normal_names names -> normal_names b.
Proof. intros [k ->] Hn. by apply Forall_app in Hn as [? _]. Qed.

(** A canonical directory: it is what it resolves to. *)
Definition canonical_dir (names : list string) : Prop := normal_names names /\ canonicalize (absolute names) = inl (absolute names).

Lemma canonical_prefix b names : b `prefix_of` names -> canonical_dir names -> canonical_dir b.
Proof.
  intros [k ->] [Hn Hc]. split; [by apply Forall_app in Hn as [? _]|]. by eapply canonicalize_ancestor.
Qed.

Lemma nearest_manifest names : canonical_dir names ->
  match find_nearest_manifest (absolute names) with
  | Some m => exists base, m = absolute (base ++ ["ricochet.toml"]) /\ base `prefix_of` names /\ has_manifest base = true /\
      forall b, b `prefix_of` names -> has_manifest b = true -> b `prefix_of` base
  | None => forall b, b `prefix_of` names -> has_manifest b = false
  end.
Proof.
  intros [Hn Hc]. unfold find_nearest_manifest. rewrite Hc, find_map_join.
  pose proof (find_ancestor (fun a => is_file (join a "ricochet.toml")) names Hn) as Hf.
  assert (forall b, b `prefix_of` names -> has_manifest b = is_file (join (absolute b) "ricochet.toml")) as Hj.
  { intros b Hb. unfold has_manifest. rewrite join_absolute; [done|by eapply normal_prefix|exact toml_name]. }
  destruct (List.find _ (ancestors (absolute names))) as [a|]; simpl.
  - destruct Hf as (base & -> & Hb & HP & Hmax). exists base. rewrite join_absolute by (exact toml_name || by eapply normal_prefix). split_and!; [done..| |].
    + by rewrite Hj.
    + intros b Hb'. rewrite Hj by done. by apply Hmax.
  - intros b Hb. rewrite Hj by done. by apply Hf.
Qed.

Lemma import_root names : canonical_dir names ->
  exists base, import_root_for_parent (absolute names) = Ok (absolute base) /\ root_of names base.
Proof.
  intros Hcd. pose proof (nearest_manifest names Hcd) as Hm. unfold import_root_for_parent. destruct (find_nearest_manifest (absolute names)) as [m|].
  - destruct Hm as (base & -> & Hb & HP & Hmax). exists base. assert (normal_names (base ++ ["ricochet.toml"])) as Hn.
    { apply manifest_normal. by eapply normal_prefix, Hcd. }
    unfold manifest_parent. rewrite parent_absolute by done. simpl. destruct (canonical_prefix base names Hb Hcd) as [_ ->].
    split; [done|]. split; [done|]. by left.
  - destruct Hcd as [_ Hc]. rewrite Hc. exists names. split; [done|]. split; [done|]. by right.
Qed.

(** Directories below a root have their root below it. *)
Lemma root_below names base dir base' : root_of names base -> base `prefix_of` dir -> root_of dir base' -> base `prefix_of` base'.
Proof.
  intros [Hb Hcase] Hd [Hb' Hcase']. destruct Hcase' as [[Hm' Hmax']|[-> Hno']]; [|done].
  destruct Hcase as [[Hm Hmax]|[-> Hno]]; [by apply Hmax'|].
  (* both are above [dir]; one above [names] would have a manifest *)
  destruct (prefix_weak_total base' names dir Hb' Hd) as [Hle|Hle]; [|done]. specialize (Hno base' Hle). congruence.
Qed.

Lemma contained_spec base candidate import p : normal_names base -> contained_file (absolute base) candidate import = Ok p ->
  canonicalize candidate = inl p /\ exists rest, normal_names (base ++ rest) /\ p = absolute (base ++ rest).
Proof.
  intros Hb. unfold contained_file, lib_call. destruct (canonicalize candidate) as [q|] eqn:Hq; [|done]. cbn [rbind].
  destruct (path_starts_with q (absolute base)) eqn:Hs; [|done]. intros [= <-]. split; [done|].
  destruct (canonicalize_normal _ _ Hq) as (names & Hn & ->). apply starts_with_absolute in Hs as [rest ->]; [|done..]. by exists rest.
Qed.

(** What an import of a file in the directory [names] resolves to: a file below
    the root of the directory, or something that is not a regular file. *)
Lemma resolve_contained names base import r : canonical_dir names -> root_of names base ->
  resolve_import_metadata (absolute names) import = Ok r ->
  is_file (resolved_path r) = false \/
  is_file (resolved_path r) = true /\ exists rest, resolved_path r = absolute (base ++ rest) /\ canonical_dir (base ++ rest).
Proof.
  intros Hcd Hroot Hr. destruct (import_root names Hcd) as (base' & Hbase' & Hroot').
  assert (base' = base) as ->.
  { assert (base `prefix_of` base') as [k1 H1] by (eapply root_below; [done|apply Hroot|done]).
    assert (base' `prefix_of` base) as [k2 H2] by (eapply root_below; [done|apply Hroot'|done]).
    subst base. rewrite <- app_assoc in H1. rewrite <- (app_nil_r base') in H1 at 1. apply app_inv_head in H1. symmetry in H1.
    apply app_eq_nil in H1 as [-> _]. by rewrite app_nil_r. }
  assert (normal_names base) as Hn by (eapply normal_prefix; [apply Hroot|apply Hcd]).
  assert (forall candidate p, is_file candidate = true -> canonicalize candidate = inl p -> (exists rest, normal_names (base ++ rest) /\ p = absolute (base ++ rest)) ->
    is_file p = true /\ exists rest, p = absolute (base ++ rest) /\ canonical_dir (base ++ rest)) as Hfile.
  { intros candidate p Hf Hc (rest & Hnr & ->). split; [by eapply canonicalize_file|]. exists rest. split; [done|]. split; [done|].
    by eapply canonicalize_again. }
  unfold resolve_import_metadata in Hr. destruct (validate_import_path import); try done. cbn [rbind] in Hr. rewrite Hbase' in Hr. cbn [rbind] in Hr.
  destruct (is_file (relative_import_path (absolute names) import)) eqn:Hf.
  { apply rbind_Ok in Hr as (p & Hp & [= <-]). right. apply contained_spec in Hp as [Hc Hp]; [|done]. by eapply Hfile. }
  apply rbind_Ok in Hr as (o & Ho & Hr). destruct o as [resolved|]; [|left; by injection Hr as <-]. injection Hr as ->. right.
  destruct (parse_package_import import) as [pkg|]; [|done]. apply rbind_Ok in Ho as (o & Ho & Heq). destruct o as [path|]; [|done]. injection Heq as <-. simpl.
  unfold resolve_package_import in Ho. pose proof (nearest_manifest names Hcd) as Hm.
  destruct (find_nearest_manifest (absolute names)) as [m|]; [|done]. destruct Hm as (b & -> & Hb & HPb & Hmax).
  assert (b = base) as ->.
  { destruct Hroot as [Hp [[Hm1 Hmax1]|[-> Hno]]]; [|by rewrite Hno in HPb]. apply (anti_symm prefix); auto. }
  apply rbind_Ok in Ho as (bp & _ & Ho). destruct bp as [base_path|]; [|done]. apply rbind_Ok in Ho as (cb & Hcb & Ho).
  unfold contained_dependency_base, manifest_parent in Hcb. rewrite parent_absolute in Hcb by (by apply manifest_normal).
  cbn [rbind] in Hcb. destruct (canonical_prefix base names Hb Hcd) as [_ Hcbase]. rewrite Hcbase in Hcb. cbn [lib_call rbind] in Hcb.
  destruct (canonicalize base_path) as [q|] eqn:Hq; [|done]. cbn [lib_call rbind] in Hcb. destruct (path_starts_with q (absolute base)) eqn:Hs; [|done]. injection Hcb as <-.
  destruct (canonicalize_normal _ _ Hq) as (qn & Hqn & ->). apply starts_with_absolute in Hs as [k ->]; [|done..].
  destruct (List.find is_file _) as [candidate|] eqn:Hfind; [|done]. apply find_some in Hfind as [_ Hcf]. apply rbind_Ok in Ho as (p & Hp & [= <-]).
  apply contained_spec in Hp as [Hc (rest & Hnr & ->)]; [|done]. eapply Hfile; [exact Hcf|exact Hc|]. exists (k ++ rest). by rewrite app_assoc.
Qed.

(** ** The files that imports lead to *)

(** A file: the path it is read at, and its canonical path. *)
Definition file : Type := string * string.

Definition imports_to (f g : file) : Prop := exists source imports import r,
  read_to_string f.1 = inl source /\ static_imports source = Ok imports /\ import ∈ imports /\
  resolve_import_metadata (parent_dir f.2) import = Ok r /\ g.1 = resolved_path r /\ canonicalize g.1 = inl g.2.

(** An import of a regular file. *)
Definition imports_file (f g : file) : Prop := imports_to f g /\ is_file g.1 = true.

(** [f] is a regular file below [root], in a directory with a root below it. *)
Definition inside (root : list string) (f : file) : Prop := exists rest n base,
  f.2 = absolute (root ++ rest ++ [n]) /\ normal_names (root ++ rest ++ [n]) /\ canonicalize f.1 = inl f.2 /\
  root_of (root ++ rest) base /\ root `prefix_of` base.

Lemma parent_dir_absolute names n : normal_names (names ++ [n]) -> parent_dir (absolute (names ++ [n])) = absolute names.
Proof. intros Hn. unfold parent_dir. rewrite parent_absolute by done. by destruct names. Qed.

Lemma inside_dir root f : inside root f -> exists names base,
  parent_dir f.2 = absolute names /\ canonical_dir names /\ root_of names base /\ root `prefix_of` base /\ is_file (absolute names) = false.
Proof.
  intros (rest & n & base & Hf & Hn & Hc & Hr & Hp). rewrite app_assoc in Hf, Hn. exists (root ++ rest), base. rewrite Hf. split; [by apply parent_dir_absolute|].
  rewrite Hf in Hc. split_and!; [|done|done|].
  - split; [by apply Forall_app in Hn as [? _]|]. by apply (canonicalize_ancestor f.1 _ [n]).
  - by eapply (canonicalize_in_dir f.1 (root ++ rest) n []).
Qed.

(** No root is a file. *)
Lemma root_no_file names base : canonical_dir names -> root_of names base -> is_file (absolute names) = false -> is_file (absolute base) = false.
Proof. intros Hcd [Hb [[Hm _]|[-> _]]] Hf; [|done]. eapply file_in_dir; [|exact Hm]. apply manifest_normal. by eapply normal_prefix, Hcd. Qed.

Lemma dir_has_root names : canonical_dir names -> exists base, root_of names base.
Proof. intros Hcd. destruct (import_root names Hcd) as (base & _ & ?). by exists base. Qed.

Lemma import_inside root f g : inside root f -> imports_file f g -> inside root g.
Proof.
  intros Hin [(source & imports & import & r & _ & _ & _ & Hr & Hg & Hcg) Hf].
  destruct (inside_dir root f Hin) as (names & base & Hdir & Hcd & Hroot & Hp & Hnf). rewrite Hdir in Hr.
  destruct (resolve_contained names base import r Hcd Hroot Hr) as [Hno|[_ (rest & Hpath & Hn & Hc)]]; [by rewrite Hg, Hno in Hf|].
  rewrite Hg, Hpath in Hf. assert (rest <> []) as Hrest.
  { intros ->. rewrite app_nil_r in Hf. by rewrite (root_no_file names base) in Hf. }
  destruct (exists_last Hrest) as (rest' & n & ->). destruct Hp as [k ->]. rewrite Hg, Hpath in Hcg.
  assert (g.2 = absolute ((root ++ k) ++ rest' ++ [n])) as Hg2 by congruence.
  assert (canonical_dir (root ++ k ++ rest')) as Hcd'.
  { rewrite app_assoc in Hn, Hc. rewrite (app_assoc root). split; [by apply Forall_app in Hn as [? _]|]. by apply (canonicalize_ancestor _ _ [n] Hn Hc). }
  destruct (dir_has_root _ Hcd') as (base' & Hroot'). exists (k ++ rest'), n, base'. rewrite <- !app_assoc in *. split_and!; [done..| |done|].
  - by rewrite Hg, Hpath, Hg2.
  - apply prefix_app_l with k. eapply (root_below names); [exact Hroot| |exact Hroot']. rewrite app_assoc. by apply prefix_app_r.
Qed.

Lemma entry_inside entry c0 : is_file entry = true -> canonicalize entry = inl c0 ->
  exists base, import_root_for_parent (parent_dir c0) = Ok (absolute base) /\ normal_names base /\ inside base (entry, c0).
Proof.
  intros Hf Hc. destruct (canonicalize_normal _ _ Hc) as (names & Hn & ->). pose proof (canonicalize_file _ _ Hf Hc) as Hf'.
  destruct (decide (names = [])) as [->|Hne]; [by rewrite root_is_dir in Hf'|]. destruct (exists_last Hne) as (dir & n & ->).
  assert (canonical_dir dir) as Hcd by (split; [by apply Forall_app in Hn as [? _]|by apply (canonicalize_ancestor entry _ [n])]).
  destruct (import_root dir Hcd) as (base & Hbase & Hroot). exists base. rewrite parent_dir_absolute by done. split; [done|].
  split; [eapply normal_prefix; [apply Hroot|apply Hcd]|]. destruct Hroot as [[rest ->] Hroot]. exists rest, n, base.
  rewrite <- app_assoc in Hn, Hc |- *. split_and!; [done..| |done]. by split; [exists rest|].
Qed.

(** C8: every regular file that compiling [entry] reads through imports, local
    or of a package, however long the chain, is inside the root of the project
    of [entry]: the directory of the nearest manifest above it, or its own
    directory when there is none.  No symbolic link, [..] or dependency path
    leads out of it. *)
Theorem imports_stay_inside (entry c0 : string) (g : file) :
  is_file entry = true -> canonicalize entry = inl c0 -> rtc imports_file (entry, c0) g ->
  exists root, import_root_for_parent (parent_dir c0) = Ok root /\ path_starts_with g.2 root = true.
Proof.
  intros Hf Hc Hg. destruct (entry_inside entry c0 Hf Hc) as (base & Hbase & Hn & Hin). exists (absolute base). split; [done|].
  assert (inside base g) as (rest & n & b & -> & Hng & _).
  { clear -Hg Hin laws. remember (entry, c0) as f eqn:Hf. clear Hf. induction Hg as [|f f' g Hff' _ IH]; [done|]. apply IH. by eapply import_inside. }
  apply starts_with_absolute; [done..|]. by exists (rest ++ [n]).
Qed.
End containment.

(** ** Witnesses *)

(** The files of [Imports.Example_] obey the laws. *)
Section example.
Variable cyclic : bool.
Local Abbreviation fs := (Example_.files cyclic).

Definition example_files : list (list string) := [["p"; "main.rco"]; ["p"; "a.rco"]; ["p"; "b.rco"]].
Definition example_paths : list (list string) := [] :: ["p"] :: example_files.

Lemma example_normal : Forall normal_names example_paths.
Proof. repeat constructor; try discriminate. Qed.

Lemma example_text p s : Example_.file_text cyclic p = Some s -> (exists names, names ∈ example_files /\ p = absolute names) /\ utf8 (as_bytes s).
Proof.
  unfold Example_.file_text, example_files. destruct (String.eqb_spec p "/p/main.rco") as [->|_]; [|destruct (String.eqb_spec p "/p/a.rco") as [->|_]; [|destruct (String.eqb_spec p "/p/b.rco") as [->|_]; [|done]]];
    intros [= <-].
  - split; [|eexists; vm_compute; reflexivity]. exists ["p"; "main.rco"]. split; [left|done].
  - split; [|eexists; vm_compute; reflexivity]. exists ["p"; "a.rco"]. split; [right; left|done].
  - split; [|destruct cyclic; eexists; vm_compute; reflexivity]. exists ["p"; "b.rco"]. split; [right; right; left|done].
Qed.

Lemma example_canonical p q : canonicalize (FileSystem := fs) p = inl q -> q = p /\ exists names, names ∈ example_paths /\ p = absolute names.
Proof.
  simpl. destruct (String.eqb_spec p "/") as [->|_]; [intros [= <-]; split; [done|]; exists []; split; [left|done]|].
  destruct (String.eqb_spec p "/p") as [->|_]; [intros [= <-]; split; [done|]; exists ["p"]; split; [right; left|done]|]. simpl.
  destruct (Example_.file_text cyclic p) as [s|] eqn:Hs; [|done]. intros [= <-]. split; [done|].
  apply example_text in Hs as [(names & Hn & ->) _]. exists names. split; [by right; right|done].
Qed.

Lemma example_known p names : normal_names names -> canonicalize (FileSystem := fs) p = inl (absolute names) -> names ∈ example_paths.
Proof.
  intros Hn Hc. apply example_canonical in Hc as [<- (names' & Hin & Heq)]. pose proof example_normal as Hall. rewrite list.Forall_forall in Hall.
  by pose proof (absolute_inj _ _ Hn (Hall _ Hin) Heq) as ->.
Qed.

Lemma example_prefix names rest : names ++ rest ∈ example_paths -> names ∈ example_paths.
Proof.
  unfold example_paths, example_files. rewrite !elem_of_cons, !elem_of_nil.
  destruct names as [|a [|b [|c names]]]; simpl; naive_solver.
Qed.

#[export] Instance example_laws : FileSystemLaws fs.
Proof.
  split.
  - intros p s. simpl. destruct (Example_.file_text cyclic p) eqn:Hs; [|done]. intros [= <-]. by apply example_text in Hs as [_ ?].
  - intros p q Hc. apply example_canonical in Hc as [-> (names & Hin & ->)]. exists names. split; [|done].
    pose proof example_normal as Hall. rewrite list.Forall_forall in Hall. auto.
  - intros p names rest Hn Hc. apply example_known in Hc; [|done]. apply example_prefix in Hc. clear Hn. revert Hc.
    unfold example_paths, example_files. rewrite !elem_of_cons, elem_of_nil. intros [->|[->|[->|[->|[->|[]]]]]]; reflexivity.
  - intros p q Hc. by pose proof Hc as [-> _]%example_canonical.
  - intros p q Hc. by apply example_canonical in Hc as [-> _].
  - intros p q Hf Hc. by apply example_canonical in Hc as [-> _].
  - intros p names n rest Hn Hc. apply example_known in Hc; [|done]. clear Hn. revert Hc.
    unfold example_paths, example_files. rewrite !elem_of_cons, elem_of_nil. destruct names as [|a [|b names]]; [done| |].
    + intros [?|[?|[?|[?|[?|[]]]]]]; simplify_eq/=; reflexivity.
    + intros [?|[?|[?|[?|[?|[]]]]]]; simplify_eq/=; by destruct names.
  - reflexivity.
  - intros names n Hn. simpl. destruct (Example_.file_text cyclic (absolute (names ++ [n]))) as [s|] eqn:Hs; [|done]. intros _.
    apply example_text in Hs as [(names' & Hin & Heq) _]. pose proof example_normal as Hall. rewrite list.Forall_forall in Hall.
    apply absolute_inj in Heq; [|done|by apply Hall; right; right]. subst names'. clear -Hin. revert Hin.
    unfold example_files. rewrite !elem_of_cons, elem_of_nil. intros [H|[H|[H|[]]]]; destruct names as [|a [|b names]]; simplify_eq/=; try reflexivity; by destruct names.
Qed.
End example.

Example imports_stay_inside_witness :
  let fs := Example_.files true in
  is_file "/p/main.rco" = true /\
  exists g : file, g.2 = "/p/a.rco" /\ path_starts_with g.2 "/p" = true.
Proof.
  intros fs. split; [reflexivity|]. exists ("/p/a.rco", "/p/a.rco"). split; [reflexivity|].
  destruct (imports_stay_inside (fs := fs) (toml := Example_.no_toml) "/p/main.rco" "/p/main.rco" ("/p/a.rco", "/p/a.rco")) as (root & Hroot & H).
  - reflexivity.
  - reflexivity.
  - assert (forall i j name source imports, read_to_string (FileSystem := fs) i = inl source -> static_imports source = Ok imports -> name ∈ imports ->
      resolve_import_metadata (H := fs) (H0 := Example_.no_toml) (parent_dir i) name = Ok (mkResolved j Local) -> canonicalize (FileSystem := fs) j = inl j -> is_file (FileSystem := fs) j = true ->
      imports_file (fs := fs) (toml := Example_.no_toml) (i, i) (j, j)) as Hstep
      by (intros i j name source imports H1 H2 H3 H4 H5 H6; split; [|exact H6]; exists source, imports, name, (mkResolved j Local); auto 10).
    (* main imports b, and b imports a *)
    eapply rtc_l; [eapply (Hstep "/p/main.rco" "/p/b.rco" "b"); [reflexivity|vm_compute; reflexivity|right; left|vm_compute; reflexivity|reflexivity|reflexivity]|].
    eapply rtc_l; [eapply (Hstep "/p/b.rco" "/p/a.rco" "a"); [reflexivity|vm_compute; reflexivity|left|vm_compute; reflexivity|reflexivity|reflexivity]|].
    apply rtc_refl.
  - assert (root = "/p") as -> by (revert Hroot; vm_compute; congruence). exact H.
Defined.

(** * Compiling a file with its imports, proved

    The depth-first search of the resolver ends on every finite file system.
    When it succeeds, the chunk links the chunk of each file once, every file
    after the files it imports, and so there is no cycle of imports. *)

(** ** Calls that settle *)

Lemma settles_rmap_err {E1 E2 A : Type} (f : E1 -> E2) (r : res E1 A) P : settles r P -> settles (rmap_err f r) P.
Proof. by destruct r. Qed.

Lemma settles_context {A : Type} m (r : res anyhow A) P : settles r P -> settles (with_context m r) P.
Proof. by destruct r. Qed.

Lemma settles_lib {A : Type} m (r : A + msg) : settles (lib_call m r) (fun a => r = inl a).
Proof. by destruct r. Qed.

Lemma settles_true {E A : Type} (r : res E A) P : settles r P -> settles r (fun _ => True).
Proof. by apply settles_mono. Qed.

(** A path that ends with a name has a parent. *)
Lemma split_slash_join l m : split_slash (l ++ slash :: m) = split_slash l ++ split_slash m.
Proof.
  induction l as [|b l IH]; simpl.
  - by destruct (split_slash_cons m) as (? & ? & ->).
  - rewrite IH. destruct (split_slash_cons l) as (seg & rest & ->). simpl. by case_match.
Qed.

Lemma trim_snoc a x n : skipped n = false -> trim_segments a (x ++ [n]) = x ++ [n].
Proof.
  intros Hn. unfold trim_segments. rewrite reverse_app. simpl. rewrite Hn. change (n :: reverse x) with ([n] ++ reverse x).
  rewrite reverse_app, reverse_involutive. by destruct x.
Qed.

Lemma parent_snoc p x n : body p = x ++ [n] -> skipped n = false -> is_Some (parent p).
Proof. intros Hb Hn. unfold parent. rewrite Hb, trim_snoc, reverse_app by done. by eexists. Qed.

Lemma join_parent base n : good_name n -> is_Some (parent (join base n)).
Proof.
  intros Hg. pose proof (good_not_skipped n Hg) as Hsk. destruct Hg as (Hn & _ & _ & Hs).
  assert (is_absolute n = false) as Hrel.
  { destruct n as [|b n]; [done|]. apply Forall_cons_1 in Hs as [Hb _]. unfold is_absolute. cbn [starts_with]. by destruct (Ascii.eqb_spec "/" b) as [<-|]. }
  assert (forall p, exists x, x <> [] /\ segments (p ++ String slash n)%string = x ++ [n]) as Hseg.
  { intros p. unfold segments. rewrite as_bytes_app. change (as_bytes (String slash n)) with (slash :: as_bytes n).
    rewrite split_slash_join, (split_slash_none (as_bytes n)), fmap_app by done. exists (from_bytes <$> split_slash (as_bytes p)). split.
    - destruct (split_slash_cons (as_bytes p)) as (? & ? & ->). done.
    - simpl. do 2 f_equal. apply string_of_list_ascii_of_string. }
  assert (forall p, is_Some (parent (p ++ String slash n)%string)) as Hpar.
  { intros p. destruct (Hseg p) as (x & Hx & Hp). unfold body. destruct (is_absolute (p ++ String slash n)) eqn:Ha.
    - destruct x as [|y x]; [done|]. apply (parent_snoc _ x n); [|done]. unfold body. by rewrite Ha, Hp.
    - apply (parent_snoc _ x n); [|done]. unfold body. by rewrite Ha, Hp. }
  unfold join. rewrite Hrel. destruct (list.last (as_bytes base)) as [b|] eqn:Hlast; [|].
  - destruct (Ascii.eqb_spec b "/") as [->|_]; [|apply Hpar]. apply last_Some in Hlast as [l Hl].
    replace (base ++ n)%string with (from_bytes l ++ String slash n)%string; [apply Hpar|].
    assert (base = from_bytes (l ++ ["/"%char])) as -> by (rewrite <- Hl; symmetry; apply string_of_list_ascii_of_string).
    clear. induction l as [|c l IH]; [done|].
    change (String c (from_bytes l ++ String slash n) = String c (from_bytes (l ++ ["/"%char]) ++ n))%string. by rewrite IH.
  - apply (parent_snoc _ [] n); [|done]. unfold body, segments. rewrite Hrel, split_slash_none by done. simpl. f_equal. apply string_of_list_ascii_of_string.
Qed.

Section settle.
Context {fs : FileSystem} {laws : FileSystemLaws fs} {toml : TomlParser} {sha : Sha256}.

Lemma manifest_settles dir m : find_nearest_manifest dir = Some m -> settles (manifest_parent (E:=anyhow) m) (fun _ => True).
Proof.
  unfold find_nearest_manifest. intros H. apply find_some in H as [H _]. apply list_elem_of_In, list_elem_of_fmap in H as (a & -> & _).
  unfold manifest_parent. by destruct (join_parent a _ toml_name) as [d ->].
Qed.

Lemma root_settles dir : settles (import_root_for_parent dir) (fun _ => True).
Proof.
  unfold import_root_for_parent. destruct (find_nearest_manifest dir) as [m|] eqn:Hm; [|by eapply settles_true, settles_lib].
  apply settles_bind. eapply settles_mono; [|by eapply manifest_settles]. intros d _. by eapply settles_true, settles_lib.
Qed.

Lemma contained_settles root candidate import : settles (contained_file root candidate import) (fun _ => True).
Proof. unfold contained_file. through ltac:(apply settles_lib). intros p _. by case_match. Qed.

Lemma toml_settles path : settles (read_toml path) (fun _ => True).
Proof. unfold read_toml. through ltac:(apply settles_lib). intros p _. by eapply settles_true, settles_lib. Qed.

Lemma import_components_settle import b l : settles (check_import_components import b l) (fun _ => True).
Proof. induction l as [|c l IH]; [done|]. by destruct c, b. Qed.

Lemma dependency_components_settle package l : settles (check_dependency_components package l) (fun _ => True).
Proof. induction l as [|c l IH]; [done|]. by destruct c. Qed.

Lemma dependency_base_settles dir m package : find_nearest_manifest dir = Some m ->
  settles (dependency_base_path m package) (fun _ => True).
Proof.
  intros Hm. unfold dependency_base_path. through ltac:(apply toml_settles). intros manifest _. case_match; [|done].
  through ltac:(by eapply manifest_settles). intros d _. case_match; [|by case_match].
  apply settles_bind. eapply (settles_mono _ (fun _ => True)); [done|]. unfold validate_dependency_path.
  repeat case_match; try done. apply dependency_components_settle.
Qed.

Lemma package_settles dir p : settles (resolve_package_import dir p) (fun _ => True).
Proof.
  unfold resolve_package_import. destruct (find_nearest_manifest dir) as [m|] eqn:Hm; [|done].
  through ltac:(by eapply dependency_base_settles). intros [base|] _; [|done]. apply settles_bind.
  unfold contained_dependency_base. through ltac:(by eapply manifest_settles). intros d _. through ltac:(apply settles_lib). intros md _.
  through ltac:(apply settles_lib). intros cb _. case_match; [|done]. cbn [settles]. case_match; [|done].
  through ltac:(apply contained_settles). done.
Qed.

Lemma resolve_import_settles dir import : settles (resolve_import_metadata dir import) (fun _ => True).
Proof.
  unfold resolve_import_metadata. apply settles_bind. apply (settles_mono _ (fun _ => True)).
  - intros _ _. through ltac:(apply root_settles). intros root _. case_match; [by through ltac:(apply contained_settles)|].
    apply settles_bind. apply (settles_mono _ (fun _ => True)); [by intros [] _|]. case_match; [|done]. by through ltac:(apply package_settles).
  - unfold validate_import_path. repeat case_match; try done. apply import_components_settle.
Qed.

Lemma bind_settles dir import r t : settles (bind_imported_macro_table dir import r t) (fun _ => True).
Proof.
  unfold bind_imported_macro_table, read_source_path. through ltac:(apply settles_lib). intros source _.
  apply settles_bind. apply (settles_mono _ (fun _ => True)); [done|]. unfold source_identity_for_import. case_match; [done|]. case_match; [|done].
  assert (settles (package_lock_metadata dir package) (fun _ => True)) as Hl.
  { unfold package_lock_metadata. repeat case_match; try done. through ltac:(apply toml_settles). intros lock _. by case_match. }
  through ltac:(exact Hl). intros lock _. apply settles_bind. apply (settles_mono _ (fun _ => True)); [done|].
  unfold package_manifest_metadata_for_source. case_match; [|done]. by through ltac:(apply toml_settles).
Qed.

Lemma table_settles f id source stripped tables : utf8 (as_bytes stripped) -> settles (exported_table f id source stripped tables) (fun _ => True).
Proof.
  intros Hu. unfold exported_table. apply settles_bind. apply (settles_mono _ (fun _ => True)); [done|]. unfold compile_context. apply settles_rmap_err.
  unfold exported_macro_table_from_source, parse_source. destruct (parse_terminates stripped Hu) as [[m Hm]|[e He]]; [rewrite Hm|by rewrite He].
  cbn [rmap_err rbind]. unfold exported_macro_table, collect_macro_definitions. cbv zeta. apply settles_bind. eapply settles_mono; [|apply collect_settles]. done.
Qed.
End settle.

(** ** What a successful run has linked *)

Section run.
Context {fs : FileSystem} {laws : FileSystemLaws fs} {toml : TomlParser} {sha : Sha256}.

Definition key (f : file) : path_key := components f.2.
Definition keys (order : list (file * Chunk)) : list path_key := key <$> order.*1.

(** The chunk of a file by itself: what its text without the import lines
    compiles to, with some imported macros. *)
Definition own_chunk (f : file) (c : Chunk) : Prop := exists source stripped root tables,
  read_to_string f.1 = inl source /\ strip_static_imports source = Ok stripped /\
  compile_source f.1 (logical_module_id f.2 root) stripped tables = Ok c.

(** Files in an order in which each comes once, after all it imports; those in
    [L] came before. *)
Inductive linked (L : list path_key) : list (file * Chunk) -> Prop :=
  | linked_nil : linked L []
  | linked_snoc order f c : linked L order -> key f ∉ L -> key f ∉ keys order -> own_chunk f c ->
      (forall g, imports_to f g -> key g ∈ L \/ key g ∈ keys order) -> linked L (order ++ [(f, c)]).

Lemma keys_app o1 o2 : keys (o1 ++ o2) = keys o1 ++ keys o2.
Proof. unfold keys. by rewrite !fmap_app. Qed.

Lemma linked_app L L' o1 o2 : linked L o1 -> linked L' o2 -> (forall k, k ∈ L' <-> k ∈ L \/ k ∈ keys o1) -> linked L (o1 ++ o2).
Proof.
  intros H1 H2 HL. induction H2 as [|order f c _ IH Hf Hk Hc Hg]; [by rewrite app_nil_r|]. rewrite app_assoc. constructor; [done|..].
  - rewrite HL in Hf. tauto.
  - rewrite keys_app, elem_of_app. rewrite HL in Hf. tauto.
  - done.
  - intros g Hfg. rewrite keys_app, elem_of_app. specialize (Hg g Hfg). rewrite HL in Hg. tauto.
Qed.

Record ran (s s' : SourceResolver) (order : list (file * Chunk)) : Prop := mkRan {
  ran_linked : linked (loaded s) order;
  ran_loaded k : k ∈ loaded s' <-> k ∈ loaded s \/ k ∈ keys order;
  ran_visiting k : k ∈ visiting s' <-> k ∈ visiting s;
  ran_fresh k : k ∈ keys order -> k ∉ visiting s }.

Lemma ran_nil s s' : loaded s' = loaded s -> visiting s' = visiting s -> ran s s' [].
Proof.
  intros Hl Hv. split; [constructor|..]; intros k; rewrite ?Hl, ?Hv; unfold keys; simpl; rewrite ?elem_of_nil; tauto.
Qed.

Lemma ran_app s s1 s2 o1 o2 : ran s s1 o1 -> ran s1 s2 o2 -> ran s s2 (o1 ++ o2).
Proof.
  intros [H1 L1 V1 F1] [H2 L2 V2 F2]. split.
  - by eapply linked_app.
  - intros k. rewrite L2, L1, keys_app, elem_of_app. tauto.
  - intros k. by rewrite V2, V1.
  - intros k. rewrite keys_app, elem_of_app. intros [Hk|Hk]; [auto|]. rewrite <- V1. auto.
Qed.

(** Every path there is resolves into [U]. *)
Variable U : list path_key.
Hypothesis finite : forall p q, canonicalize p = inl q -> components q ∈ U.

Abbreviation left V := (length (left_out U V)).

Lemma ran_left s s' order : ran s s' order -> left (visiting s') = left (visiting s).
Proof.
  intros [_ _ V _]. apply Nat.le_antisymm; apply left_out_mono; intros k; apply V.
Qed.

Definition file_compiled (p : string) (s : SourceResolver) (c : CompiledFile) (s' : SourceResolver) : Prop :=
  exists canonical order, canonicalize p = inl canonical /\ ran s s' order /\ compiled_chunk c = link p order.*2 /\
    components canonical ∈ loaded s' /\ Forall (fun f => rtc imports_to (p, canonical) f) order.*1 /\
    (components canonical ∉ loaded s -> list.last order.*1 = Some (p, canonical)).

(** An import of the file in directory [dir] leads to [f]. *)
Definition from_import (dir : string) (imports : list string) (f : file) : Prop := exists import r g,
  import ∈ imports /\ resolve_import_metadata dir import = Ok r /\ g.1 = resolved_path r /\ canonicalize g.1 = inl g.2 /\ rtc imports_to g f.

Lemma from_import_cons dir i imports f : from_import dir imports f -> from_import dir (i :: imports) f.
Proof. intros (import & r & g & H & ?). exists import, r, g. split; [by right|done]. Qed.

Definition imports_compiled (dir : string) (imports : list string) (combined : Chunk) (s : SourceResolver)
    (r : Chunk * list ImportedMacroTable) (s' : SourceResolver) : Prop :=
  exists order, ran s s' order /\ r.1 = foldl append_chunk combined order.*2 /\
    (forall import r g, import ∈ imports -> resolve_import_metadata dir import = Ok r -> g.1 = resolved_path r ->
       canonicalize g.1 = inl g.2 -> key g ∈ loaded s') /\
    Forall (from_import dir imports) order.*1.

Lemma compile_imports_runs compile dir path fuel imports :
  (forall p s, left (visiting s) < fuel -> may (compile p) s (file_compiled p s)) ->
  forall combined tables s, left (visiting s) < fuel ->
  may (compile_imports compile dir path imports combined tables) s (imports_compiled dir imports combined s).
Proof.
  intros Hcompile. induction imports as [|import imports IH]; intros combined tables s Hf.
  { exists []. split; [by apply ran_nil|]. split; [done|]. split; [|constructor]. intros ? ? ? Hin. by apply elem_of_nil in Hin. }
  cbn [compile_imports]. apply wp_bind, may_lift.
  destruct (resolve_import_metadata dir import) as [r| | |] eqn:Hr; [|done|by (pose proof (resolve_import_settles dir import) as Hs; rewrite Hr in Hs)..].
  cbn [settles]. apply wp_bind. unfold scontext. assert (may (compile (resolved_path r)) s (file_compiled (resolved_path r) s)) as Hc by auto.
  unfold wp in Hc |- *. destruct (compile (resolved_path r) s) as [[c s1]| | |]; try done. cbn [with_context].
  destruct Hc as (canonical & o1 & Hcan & Hran1 & Hchunk & Hin1 & Hreach & _).
  change (may (sbind (slift (bind_imported_macro_table dir import r (compiled_macros c))) (fun table =>
    compile_imports compile dir path imports (append_chunk combined (compiled_chunk c)) (tables ++ [table]))) s1 (imports_compiled dir (import :: imports) combined s)).
  apply wp_bind, may_lift. eapply settles_mono; [|apply bind_settles]. intros table _.
  eapply wp_mono; [apply IH; by rewrite (ran_left _ _ _ Hran1)| |done]. intros [combined' tables'] s2 (o2 & Hran2 & Hcomb & Hall & Hfrom). simpl in Hcomb.
  exists (o1 ++ o2). split; [by eapply ran_app|]. split; [|split].
  - simpl. by rewrite Hcomb, Hchunk, link_append, fmap_app, foldl_app.
  - intros i r' g Hi Hr' Hg Hcg. apply elem_of_cons in Hi as [->|Hi]; [|by eapply Hall]. assert (r' = r) as -> by congruence.
    assert (g.2 = canonical) as Hg2 by congruence. unfold key. rewrite Hg2. apply (ran_loaded _ _ _ Hran2). by left.
  - rewrite fmap_app. apply Forall_app. split.
    + eapply list.Forall_impl; [exact Hreach|]. intros f Hf'. exists import, r, (resolved_path r, canonical). split; [left|done].
    + eapply list.Forall_impl; [exact Hfrom|]. intros f. apply from_import_cons.
Qed.

Lemma unique_imports_elem i imports : forall seen, i ∈ imports -> i ∉ seen -> i ∈ unique_from seen imports.
Proof.
  induction imports as [|j imports IH]; intros seen Hi Hs; [by apply elem_of_nil in Hi|]. simpl. case_decide as Hd.
  - apply elem_of_cons in Hi as [->|Hi]; [done|auto].
  - destruct (decide (i = j)) as [->|Hne]; [left|right]. apply elem_of_cons in Hi as [->|Hi]; [done|]. apply IH; [done|]. intros [->|?]%elem_of_cons; done.
Qed.

Lemma unique_imports_sub i imports : forall seen, i ∈ unique_from seen imports -> i ∈ imports.
Proof.
  induction imports as [|j imports IH]; intros seen; simpl; [done|]. case_decide; [right; by eapply IH|].
  intros [->|Hi]%elem_of_cons; [left|right; by eapply IH].
Qed.

Lemma remove_key_elem k k' l : k' ∈ remove_key k l <-> k' ∈ l /\ k' <> k.
Proof.
  unfold remove_key. by rewrite !list_elem_of_In, filter_In, bool_decide_eq_true.
Qed.

Lemma root_for_may canonical s : may (root_for canonical) s (fun _ s' => loaded s' = loaded s /\ visiting s' = visiting s).
Proof.
  unfold root_for. apply wp_bind, wp_get. destruct (root s); [done|]. apply wp_bind, may_lift.
  eapply settles_mono; [|apply root_settles]. intros r _. done.
Qed.

Lemma compile_settles_own p id stripped tables : utf8 (as_bytes stripped) ->
  settles (compile_context p stripped (compile_source p id stripped tables)) (fun c => compile_source p id stripped tables = Ok c).
Proof.
  intros Hu. apply settles_rmap_err. pose proof (compile_settles p id stripped tables Hu) as Hs. by destruct (compile_source p id stripped tables).
Qed.

Lemma compile_file_runs fuel : forall p s, left (visiting s) < fuel -> may (compile_file fuel p) s (file_compiled p s).
Proof.
  induction fuel as [|fuel IH]; intros p s Hf; [lia|]. cbn [compile_file]. apply wp_bind, may_lift.
  eapply settles_mono; [|apply settles_lib]. intros canonical Hcan. apply wp_bind. eapply wp_mono; [apply root_for_may| |done].
  intros r s1 [Hl1 Hv1]. apply wp_bind, wp_get. rewrite Hl1. case_decide as Hloaded.
  { apply wp_bind, may_lift. destruct (assoc _ _); [|done]. exists canonical, []. split; [done|]. split; [by apply ran_nil|]. split; [done|].
    rewrite Hl1. split; [done|]. split; [constructor|done]. }
  apply wp_bind. unfold enter_file. apply wp_bind, wp_get. rewrite Hv1. case_decide as Hvis; [done|]. apply wp_modify. rewrite Hl1, Hv1.
  set (s2 := mkResolver _ _ _ _). apply wp_bind, may_lift. unfold read_source_path. eapply settles_mono; [|apply settles_lib]. intros source Hsource.
  pose proof (strip_settles source (read_utf8 _ _ Hsource)) as Hstrip. cbv zeta.
  destruct (static_imports source) as [imports|e| |] eqn:Himports; [|done|by destruct (strip_static_imports source)..].
  apply wp_bind, may_lift. cbn [with_context settles].
  destruct (strip_static_imports source) as [stripped| | |] eqn:Hstripped; [|done..]. apply wp_bind, may_lift. cbn [settles].
  assert (left (components canonical :: visiting s) < fuel) as Hf2 by (eapply Nat.lt_le_trans; [apply (left_out_cons U (visiting s) _ (finite _ _ Hcan) Hvis)|lia]).
  apply wp_bind. eapply wp_mono; [apply (compile_imports_runs _ _ _ fuel); [exact IH|exact Hf2]| |done].
  intros [combined tables] s3 (order & [Hlinked Hload Hvisit Hfresh] & Hcomb & Hall & Hfrom). simpl in Hlinked, Hload, Hvisit, Hfresh, Hcomb.
  apply wp_bind, may_lift. eapply settles_mono; [|by apply table_settles]. intros macros _.
  apply wp_bind, may_lift. eapply settles_mono; [|by apply compile_settles_own]. intros own Hown.
  apply wp_bind, wp_modify, wp_bind, wp_modify, wp_ret. exists canonical, (order ++ [((p, canonical), own)]). simpl.
  assert (components canonical ∉ keys order) as Hnew by (intros Hk; apply (Hfresh _ Hk); left).
  split; [done|]. split; [|split; [|split; [|split]]].
  - split; simpl.
    + constructor; [done|done|done| |].
      * exists source, stripped, r, tables. done.
      * intros g (source' & imports' & import & r' & Hs' & Hi' & Hin & Hr & Hg & Hcg). cbn [fst snd] in *.
        assert (imports' = imports) as -> by congruence. apply Hload. apply (Hall import r' g); [|exact Hr|exact Hg|exact Hcg]. apply unique_imports_elem; [done|]. by intros ?%elem_of_nil.
    + intros k. rewrite elem_of_cons, keys_app, elem_of_app, Hload. change (keys [((p, canonical), own)]) with [components canonical]. rewrite list_elem_of_singleton. tauto.
    + intros k. rewrite remove_key_elem, Hvisit, elem_of_cons. split; [tauto|]. intros Hk. split; [by right|]. by intros ->.
    + intros k. rewrite keys_app, elem_of_app. intros [Hk|Hk].
      * intros Hv. apply (Hfresh _ Hk). by right.
      * unfold keys in Hk. simpl in Hk. apply list_elem_of_singleton in Hk as ->. done.
  - rewrite Hcomb, fmap_app. simpl. unfold link. by rewrite foldl_app.
  - left.
  - rewrite fmap_app. apply Forall_app. split; [|by repeat constructor]. eapply list.Forall_impl; [exact Hfrom|].
    intros f (import & r' & g & Hin & Hr & Hg & Hcg & Hreach). eapply rtc_l; [|exact Hreach]. exists source, imports, import, r'.
    split_and!; [done|done|by eapply unique_imports_sub|done..].
  - intros _. rewrite fmap_app. cbn [fmap list_fmap fst]. by rewrite last_snoc.
Qed.

(** ** No cycles *)

(** A file is what its canonical path says. *)
Definition resolved (f : file) : Prop := canonicalize f.1 = inl f.2.

Lemma imports_to_resolved f g : imports_to f g -> resolved g.
Proof. by intros (_ & _ & _ & _ & _ & _ & _ & _ & _ & ?). Qed.

Lemma key_inj f g : resolved f -> resolved g -> key f = key g -> f.2 = g.2.
Proof.
  intros Hf Hg Hk. destruct (canonicalize_normal _ _ Hf) as (nf & Hnf & Ef), (canonicalize_normal _ _ Hg) as (ng & Hng & Eg).
  unfold key in Hk. rewrite Ef, Eg in *. rewrite !components_absolute in Hk by done. injection Hk as Hk.
  apply list_fmap_eq_inj in Hk; [by subst|]. by intros ? ? [= ->].
Qed.

Lemma imports_to_same f f' g : resolved f -> resolved f' -> key f = key f' -> imports_to f g -> imports_to f' g.
Proof.
  intros Hf Hf' Hk (source & imports & import & r & Hs & H). exists source, imports, import, r.
  rewrite <- (key_inj f f' Hf Hf' Hk). split; [|exact H].
  rewrite (read_canonical _ _ Hf'), <- (key_inj f f' Hf Hf' Hk), <- (read_canonical _ _ Hf). exact Hs.
Qed.

(** From a file of the order, imports lead to earlier ones. *)
Lemma linked_earlier order : linked [] order -> Forall resolved order.*1 ->
  forall o1 o2 f g, order = o1 ++ o2 -> resolved f -> key f ∈ keys o1 -> imports_to f g -> exists o3 c h o4, o1 = o3 ++ (h, c) :: o4 /\ key h = key f /\ key g ∈ keys o3.
Proof.
  induction 1 as [|order f' c Hl IH _ Hnew _ Hg]; intros Hres o1 o2 f g Ho Hf Hk Hfg.
  { symmetry in Ho. apply app_eq_nil in Ho as [-> ->]. by apply elem_of_nil in Hk. }
  rewrite fmap_app in Hres. apply Forall_app in Hres as [Hres [Hf' _]%Forall_cons_1].
  destruct (decide (o2 = [])) as [->|Hne].
  - rewrite app_nil_r in Ho. subst o1. rewrite keys_app, elem_of_app in Hk. destruct Hk as [Hk|Hk].
    + destruct (IH Hres order [] f g ltac:(by rewrite app_nil_r) Hf Hk Hfg) as (o3 & c' & h & o4 & -> & H). exists o3, c', h, (o4 ++ [(f', c)]).
      by rewrite <- app_assoc.
    + apply list_elem_of_singleton in Hk. change (key f = key f') in Hk. exists order, c, f', []. split_and!; [done|done|].
      destruct (Hg g) as [?%elem_of_nil|?]; [|done..]. by eapply imports_to_same.
  - destruct (exists_last Hne) as (o2' & x & ->). rewrite app_assoc in Ho. apply app_inj_tail in Ho as [Ho _]. by eapply IH.
Qed.

Lemma no_cycle order : linked [] order -> Forall resolved order.*1 ->
  forall f g, key f ∈ keys order -> resolved f -> tc imports_to f g -> key g <> key f.
Proof.
  intros Hl Hres. assert (forall n o1 o2 f g, length o1 < n -> order = o1 ++ o2 -> resolved f -> key f ∈ keys o1 -> tc imports_to f g ->
    exists o3 c h o4, o1 = o3 ++ (h, c) :: o4 /\ key h = key f /\ key g ∈ keys o3) as Hstep.
  { induction n as [|n IH]; intros o1 o2 f g Hn Ho Hf Hk Hfg; [lia|]. destruct Hfg as [f g Hfg|f f' g Hff' Hfg].
    - by eapply linked_earlier.
    - destruct (linked_earlier order Hl Hres o1 o2 f f' Ho Hf Hk Hff') as (o3 & c & h & o4 & -> & Hh & Hf').
      exists o3, c, h, o4. split_and!; [done..|]. rewrite length_app in Hn. simpl in Hn.
      destruct (IH o3 ((h, c) :: o4 ++ o2) f' g) as (o5 & c' & h' & o6 & -> & _ & Hg); [lia|by rewrite Ho, <- app_assoc|by eapply imports_to_resolved|done..|].
      rewrite keys_app, elem_of_app. by left. }
  intros f g Hk Hf Hfg Heq. destruct (Hstep (S (length order)) order [] f g) as (o3 & c & h & o4 & Ho & Hh & Hg); [lia|by rewrite app_nil_r|done..|].
  (* the key of [f] would come twice *)
  clear -Hl Ho Hh Hg Heq. revert o4 Ho. induction Hl as [|order f' c' Hl IH _ Hnew _ _]; intros o4 Ho; [by destruct o3|].
  destruct (decide (o4 = [])) as [->|Hne].
  - apply app_inj_tail in Ho as [-> [= -> ->]]. apply Hnew. by rewrite Hh, <- Heq.
  - destruct (exists_last Hne) as (o4' & x & ->). change ((h, c) :: o4' ++ [x]) with (((h, c) :: o4') ++ [x]) in Ho. rewrite app_assoc in Ho.
    apply app_inj_tail in Ho as [Ho _]. by eapply IH.
Qed.

Lemma rtc_resolved f g : resolved f -> rtc imports_to f g -> resolved g.
Proof. intros Hf Hr. induction Hr as [|f f' g Hff' _ IH]; [done|]. eapply IH, imports_to_resolved, Hff'. Qed.

Lemma reach_in_order order f g : linked [] order -> Forall resolved order.*1 -> key f ∈ keys order -> resolved f ->
  rtc imports_to f g -> key g ∈ keys order.
Proof.
  intros Hl Hres Hk Hf Hr. induction Hr as [|f f' g Hff' _ IH]; [done|]. apply IH; [|by eapply imports_to_resolved].
  destruct (linked_earlier order Hl Hres order [] f f' ltac:(by rewrite app_nil_r) Hf Hk Hff') as (o3 & c & h & o4 & -> & _ & Hin).
  rewrite keys_app, elem_of_app. by left.
Qed.

Lemma linked_safe L order : linked L order -> Forall (fun c => safe_chunk c = true) order.*2.
Proof.
  induction 1 as [|order f c _ IH _ _ (source & stripped & r & tables & Hs & Hst & Hc) _]; [constructor|].
  rewrite fmap_app. apply Forall_app. split; [done|]. constructor; [|constructor]. simpl.
  pose proof (strip_settles source (read_utf8 _ _ Hs)) as Hu. rewrite Hst in Hu. destruct (static_imports source); try done.
  pose proof (compile_settles f.1 (logical_module_id f.2 r) stripped tables Hu) as Hc'. by rewrite Hc in Hc'.
Qed.

(** ** Theorems *)

(** C9: on a file system with finitely many resolved paths, compiling a file
    with its imports ends.  When it succeeds, its code is that of the files
    imports lead to from the entry, each once and after everything it imports,
    the entry last, with the blocks and the jumps each had; it is a safe chunk;
    and no file imports itself, directly or
    through others, so every cycle is refused. *)
Theorem compile_file_with_imports_correct (fuel : nat) (p : string) (Hfuel : length U < fuel) :
  match compile_file_with_imports fuel p with
  | Ok chunk => exists canonical order, canonicalize p = inl canonical /\
      linked [] order /\ relocatable chunk = flat_map relocatable order.*2 /\ list.last order.*1 = Some (p, canonical) /\
      Forall (fun f => rtc imports_to (p, canonical) f) order.*1 /\ safe_chunk chunk = true /\
      forall f g, rtc imports_to (p, canonical) f -> tc imports_to f g -> key g <> key f
  | Err _ => True
  | Panic | OutOfFuel => False
  end.
Proof.
  assert (left (visiting default_resolver) < fuel) as Hf.
  { simpl. unfold left_out. pose proof (length_filter (fun k => k ∉ []) U). lia. }
  pose proof (compile_file_runs fuel p default_resolver Hf) as Hrun. unfold compile_file_with_imports. unfold wp in Hrun.
  destruct (compile_file fuel p default_resolver) as [[c s']| | |]; try done. cbn [rbind].
  destruct Hrun as (canonical & order & Hcan & [Hl _ _ _] & Hchunk & _ & Hreach & Hlast). specialize (Hlast (not_elem_of_nil _)).
  assert (forall f, rtc imports_to (p, canonical) f -> resolved f) as Hres by (intros f Hr; eapply rtc_resolved; [|exact Hr]; exact Hcan).
  assert (Forall resolved order.*1) as Hall by (eapply list.Forall_impl; [exact Hreach|exact Hres]).
  assert (Forall (fun c => safe_chunk c = true) order.*2) as Hsafe by (by eapply linked_safe).
  exists canonical, order. split_and!; [done..| |done|done| |].
  - rewrite Hchunk. by apply link_relocatable.
  - rewrite Hchunk. by apply link_safe.
  - intros f g Hr Hfg. apply (no_cycle order); [done..| |by apply Hres|done].
    apply (reach_in_order order (p, canonical)); [done..| |by apply Hres|done]. unfold keys. apply (list_elem_of_fmap_2 key).
    by apply last_Some_elem_of.
Qed.
End run.

(** ** Witness *)

Example compile_file_with_imports_correct_witness :
  exists chunk order, compile_file_with_imports (H := Example_.files false) (H0 := Example_.no_toml) (H1 := fun _ => []) 6 "/p/main.rco" = Ok chunk /\
    linked (fs := Example_.files false) (toml := Example_.no_toml) (sha := fun _ => []) [] order /\ relocatable chunk = flat_map relocatable order.*2.
Proof.
  assert (Hfin : forall p q, canonicalize (FileSystem := Example_.files false) p = inl q -> components q ∈ (components ∘ absolute) <$> example_paths).
  { intros p q Hc. apply example_canonical in Hc as [-> (names & Hn & ->)]. by apply (list_elem_of_fmap_2 (components ∘ absolute)). }
  pose proof (compile_file_with_imports_correct (fs := Example_.files false) (laws := example_laws false) (toml := Example_.no_toml) (sha := fun _ => [])
    ((components ∘ absolute) <$> example_paths) Hfin 6 "/p/main.rco" ltac:(vm_compute; lia)) as H.
  destruct (compile_file_with_imports (H := Example_.files false) (H0 := Example_.no_toml) (H1 := fun _ => []) 6 "/p/main.rco") as [chunk| | |] eqn:E;
    [|vm_compute in E; discriminate..].
  destruct H as (canonical & order & _ & Hl & Hc & _). exists chunk, order. auto.
Defined.
