(* ===== verification/PackageLocks.v ===== *)
(** * Package locks

    The check of [crates/ricochet_compiler/src/imports.rs] that the packages on
    disk are those of ricochet.lock: every declared dependency has an entry
    with the digest of its files, and the lock has no other entry.  What is
    digested determines the names and contents of the files. *)

From stdpp Require Import base tactics list strings option numbers sorting.
From Stdlib Require Import ZArith NArith Lia Ascii String.
From S2P Require Import Prelude RustStr RustText RustFloat RustPath BTree Syntax Lexer Parser Diagnostic Bytecode Compiler Macro Expander Imports.

Open Scope string_scope.
Open Scope list_scope.
Open Scope nat_scope.

Definition hex_digest (bytes : list byte) : string :=
  from_bytes (flat_map (fun b => [hex_nibble (byte_val b / 16); hex_nibble (byte_val b mod 16)]) bytes).

Definition path_to_slash (path : string) : string := replace_byte backslash "/" path.

Definition is_ascii_hexdigit (b : byte) : bool :=
  is_ascii_digit b || byte_between 97 102 b || byte_between 65 70 b.

Definition invalid_integrity (integrity : string) : msg :=
  [Lit "invalid package integrity "; Dbg integrity; Lit "; expected sha256:<64 hex chars>"].

(** Characters that are not ASCII are no hex digits either. *)
Definition validate_package_integrity (integrity : string) : res anyhow unit :=
  match strip_prefix "sha256:" integrity with
  | None => bail (invalid_integrity integrity)
  | Some hex =>
      if negb (String.length hex =? 64) || negb (forallb is_ascii_hexdigit (as_bytes hex)) then bail (invalid_integrity integrity) else Ok tt
  end.

Definition nul : byte := ascii_of_N 0.

(** What the hasher is given. *)
Definition integrity_header : list byte := as_bytes "ricochet-package-integrity-v1" ++ [nul].

Definition integrity_entry (relative : string) (bytes : list byte) : list byte :=
  as_bytes relative ++ [nul] ++ show_N_bytes (N.of_nat (length bytes)) ++ [nul] ++ bytes ++ [nul].

Definition integrity_input (files : list (string * list byte)) : list byte :=
  integrity_header ++ flat_map (fun f => integrity_entry f.1 f.2) files.

(** [files.sort_by(|left, right| left.0.cmp(&right.0))] *)
Definition name_compare {A : Type} (f g : string * A) : comparison := String.compare f.1 g.1.
Definition sort_by_name {A : Type} : list (string * A) -> list (string * A) := sort_by name_compare.

Section locks.
Context `{FileSystem} `{TomlParser} `{Sha256}.

(** The entries of one directory, with the search of a directory in it. *)
Fixpoint collect_entries (collect : string -> list (string * string) -> res anyhow (list (string * string)))
    (package_root current : string) (entries : list (string + msg)) (files : list (string * string)) : res anyhow (list (string * string)) :=
  match entries with
  | [] => Ok files
  | entry :: entries' =>
      let? path := lib_call [Lit "failed to read entry in "; Disp current] entry in
      let name := default "" (file_name path) in
      let? metadata := lib_call [Lit "failed to inspect "; Disp path] (symlink_metadata path) in
      match metadata with
      | FileType.Symlink =>
          bail [Lit "package integrity cannot include symlink "; Disp path; Lit "; copy the target file into the package"]
      | FileType.Dir =>
          if String.eqb name ".git" then collect_entries collect package_root current entries' files
          else
            let? files := collect path files in
            collect_entries collect package_root current entries' files
      | FileType.File =>
          let? relative := option_context [Lit "failed to make "; Disp path; Lit " package-relative"] (path_strip_prefix path package_root) in
          collect_entries collect package_root current entries' (files ++ [(path_to_slash relative, path)])
      | FileType.Other => collect_entries collect package_root current entries' files
      end
  end.

(** The fuel bounds how deep directories nest. *)
Fixpoint collect_package_integrity_files (fuel : nat) (package_root current : string) (files : list (string * string))
    : res anyhow (list (string * string)) :=
  match fuel with
  | O => OutOfFuel
  | S fuel' =>
      let? entries := lib_call [Lit "failed to read "; Disp current] (read_dir current) in
      collect_entries (collect_package_integrity_files fuel' package_root) package_root current entries files
  end.

Fixpoint read_files (files : list (string * string)) : res anyhow (list (string * list byte)) :=
  match files with
  | [] => Ok []
  | (relative, path) :: files' =>
      let? bytes := lib_call [Lit "failed to read package file "; Disp path] (read path) in
      let? rest := read_files files' in
      Ok ((relative, bytes) :: rest)
  end.

Variable depth : nat.

Definition package_tree_integrity (package_dir : string) : res anyhow string :=
  if negb (is_dir package_dir) then bail [Lit "cannot compute package integrity for non-directory "; Disp package_dir]
  else
    let? files := collect_package_integrity_files depth package_dir package_dir [] in
    let? contents := read_files (sort_by_name files) in
    Ok ("sha256:" ++ hex_digest (sha256 (integrity_input contents)))%string.

Definition expected_dependency_lock_path (name : string) (dependency : list (string * Toml)) : string :=
  default (".ricochet/packages/" ++ name)%string (toml_get_str "path" dependency).

(** [{:?}] of an optional string. *)
Definition debug_option (o : option string) : msg := match o with Some s => [Lit "Some("; Dbg s; Lit ")"] | None => [Lit "None"] end.

Definition verify_runtime_dependency_lock (manifest_path lock_path : string) (lock : option Toml) (name : string) (dependency : Toml)
    : res anyhow unit :=
  let? dependency := option_context [Lit "dependency "; Disp name; Lit " in "; Disp manifest_path; Lit " must be a table"] (toml_as_table dependency) in
  let? base := dependency_base_path manifest_path name in
  match base with
  | None => Ok tt
  | Some base_path =>
      let? package_dir := contained_dependency_base manifest_path base_path name in
      let? entry := option_context [Lit "dependency "; Disp name; Lit " is missing from "; Disp lock_path; Lit "; run rco install"]
                      (lock ← lock; lock_entry lock name) in
      let expected_path := expected_dependency_lock_path name dependency in
      let? lock_path_value := option_context [Lit "lock entry for "; Disp name; Lit " must include a string path"] (toml_get_str "path" entry) in
      if negb (String.eqb lock_path_value expected_path) then
        bail [Lit "lock entry for "; Disp name; Lit " has path "; Dbg lock_path_value; Lit ", expected "; Dbg expected_path]
      else if bt_contains_key "git" dependency && match toml_get_str "commit" entry with None => true | Some _ => false end then
        bail [Lit "git dependency "; Disp name; Lit " is not pinned; run rco install"]
      else
        let? _ :=
          match toml_get_str "registry" dependency with
          | None => Ok tt
          | Some registry =>
              let locked_registry := toml_get_str "registry" entry in
              if decide (locked_registry = Some registry) then Ok tt
              else bail ([Lit "lock entry for "; Disp name; Lit " has registry "] ++ debug_option locked_registry ++ [Lit ", expected "; Dbg registry])
          end in
        let? expected_integrity := option_context [Lit "lock entry for "; Disp name; Lit " is missing package integrity"] (toml_get_str "integrity" entry) in
        let? _ := validate_package_integrity expected_integrity in
        let? actual_integrity := package_tree_integrity package_dir in
        if String.eqb actual_integrity expected_integrity then Ok tt
        else bail [Lit "package integrity for "; Disp name; Lit " changed: expected "; Disp expected_integrity; Lit ", got "; Disp actual_integrity;
                   Lit "; run rco install if this update is intentional"]
  end.

(** [for name in packages.keys()]. *)
Fixpoint check_declared (lock_path : string) (declared names : list string) : res anyhow unit :=
  match names with
  | [] => Ok tt
  | name :: names' =>
      if decide (name ∈ declared) then check_declared lock_path declared names'
      else bail [Disp lock_path; Lit " contains package "; Dbg name; Lit ", but ricochet.toml does not declare it"]
  end.

Definition verify_no_stale_runtime_locks (lock_path : string) (lock : option Toml) (declared : list string) : res anyhow unit :=
  match lock ← lock; packages ← toml_get "package" lock; toml_as_table packages with
  | None => Ok tt
  | Some packages => check_declared lock_path declared (bt_keys packages)
  end.

Fixpoint verify_dependencies (manifest_path lock_path : string) (lock : option Toml) (dependencies : list (string * Toml)) : res anyhow unit :=
  match dependencies with
  | [] => Ok tt
  | (name, dependency) :: dependencies' =>
      let? _ := verify_runtime_dependency_lock manifest_path lock_path lock name dependency in
      verify_dependencies manifest_path lock_path lock dependencies'
  end.

Definition verify_manifest_dependency_locks (manifest_path : string) : res anyhow unit :=
  let? manifest_dir := manifest_parent manifest_path in
  let? manifest := read_toml manifest_path in
  let lock_path := join manifest_dir "ricochet.lock" in
  let? lock := if is_file lock_path then let? lock := read_toml lock_path in Ok (Some lock) else Ok None in
  match dependencies ← toml_get "dependencies" manifest; toml_as_table dependencies with
  | None => verify_no_stale_runtime_locks lock_path lock []
  | Some dependencies =>
      let? _ := verify_dependencies manifest_path lock_path lock dependencies in
      verify_no_stale_runtime_locks lock_path lock (bt_keys dependencies)
  end.

Definition verify_runtime_import_locks_for_parent (dir : string) : res anyhow unit :=
  match find_nearest_manifest dir with
  | None => Ok tt
  | Some manifest_path => verify_manifest_dependency_locks manifest_path
  end.
End locks.

(** ** What is digested *)

Lemma first_separator {A : Type} (c : A) x y r r' : c ∉ x -> c ∉ y -> x ++ c :: r = y ++ c :: r' -> x = y /\ r = r'.
Proof.
  revert y. induction x as [|a x IH]; intros [|b y] Hx Hy; simpl; intros H; simplify_eq.
  - done.
  - exfalso. apply Hy. left.
  - exfalso. apply Hx. left.
  - rewrite not_elem_of_cons in Hx, Hy. destruct (IH y) as [-> ->]; tauto.
Qed.

Lemma digits_no_nul n : nul ∉ show_N_bytes n.
Proof.
  intros Hin. destruct (show_N_val n) as (_ & Hd & _). rewrite forallb_forall in Hd. apply list_elem_of_In in Hin. by apply Hd in Hin.
Qed.

(** A relative path holds no NUL. *)
Definition nul_free (f : string * list byte) : Prop := nul ∉ as_bytes f.1.

Lemma integrity_entry_split f g r r' : nul_free f -> nul_free g ->
  integrity_entry f.1 f.2 ++ r = integrity_entry g.1 g.2 ++ r' -> f = g /\ r = r'.
Proof.
  destruct f as [n b], g as [n' b']. unfold nul_free, integrity_entry. cbn [fst snd]. intros Hf Hg. rewrite <- !app_assoc. cbn [app].
  intros H. apply first_separator in H as [Hn H]; [|done..]. apply first_separator in H as [Hlen H]; [|apply digits_no_nul..].
  apply show_N_bytes_inj, Nat2N.inj in Hlen. apply app_inj_1 in H as [-> H]; [|done]. injection H as ->. split; [|done]. f_equal.
  apply (f_equal from_bytes) in Hn. unfold from_bytes, as_bytes in Hn. by rewrite !string_of_list_ascii_of_string in Hn.
Qed.

Lemma integrity_input_inj fs gs : Forall nul_free fs -> Forall nul_free gs -> integrity_input fs = integrity_input gs -> fs = gs.
Proof.
  unfold integrity_input. intros Hf Hg H. apply app_inv_head in H. revert gs Hg H. induction Hf as [|f fs Hf _ IH]; intros [|g gs] Hg; [done|..].
  - intros H. exfalso. apply (f_equal length) in H. revert H. cbn [flat_map]. unfold integrity_entry. rewrite !length_app. simpl. lia.
  - intros H. exfalso. apply (f_equal length) in H. revert H. cbn [flat_map]. unfold integrity_entry. rewrite !length_app. simpl. lia.
  - apply Forall_cons_1 in Hg as [Hg Hgs]. cbn [flat_map]. intros H. apply integrity_entry_split in H as [-> H]; [|done..]. f_equal. by apply IH.
Qed.

Definition name_lt {A : Type} (f g : string * A) : Prop := key_lt f.1 g.1.

Lemma sort_by_name_perm {A : Type} (l : list (string * A)) : sort_by_name l ≡ₚ l.
Proof. apply sort_by_perm. Qed.

Lemma insert_by_name_sorted {A : Type} (f : string * A) l : f.1 ∉ l.*1 -> StronglySorted name_lt l -> StronglySorted name_lt (sort_insert name_compare f l).
Proof.
  induction l as [|g l IH]; intros Hf Hs; simpl; [repeat constructor|]. simpl in Hf. rewrite not_elem_of_cons in Hf. destruct Hf as [Hne Hf].
  apply StronglySorted_inv in Hs as [Hs Hg]. unfold name_compare at 1. destruct (String.compare f.1 g.1) eqn:Hc.
  - by apply String.compare_eq_iff in Hc.
  - constructor; [by constructor|]. constructor; [done|]. eapply list.Forall_impl; [exact Hg|]. intros h Hh. unfold name_lt in *. by etrans.
  - constructor; [by apply IH|]. rewrite sort_insert_perm. constructor; [by apply key_gt|done].
Qed.

Lemma sort_by_name_sorted {A : Type} (l : list (string * A)) : NoDup l.*1 -> StronglySorted name_lt (sort_by_name l).
Proof.
  induction l as [|f l IH]; [constructor|]. simpl. intros [Hf Hl]%list.NoDup_cons. apply insert_by_name_sorted; [by rewrite sort_by_name_perm|auto].
Qed.

(** The bytes that a package's digest is of are the same for two trees
    exactly when these have the same files with the same contents: neither the
    order in which a directory is listed nor any choice of names and contents
    can confuse two packages. *)
Theorem integrity_identifies (fs gs : list (string * list byte)) :
  Forall nul_free fs -> Forall nul_free gs -> NoDup fs.*1 -> NoDup gs.*1 ->
  integrity_input (sort_by_name fs) = integrity_input (sort_by_name gs) <-> fs ≡ₚ gs.
Proof.
  intros Hf Hg Hnf Hng. split.
  - intros H. apply integrity_input_inj in H; [|by rewrite sort_by_name_perm..]. by rewrite <- (sort_by_name_perm fs), H, sort_by_name_perm.
  - intros Hp. f_equal. eapply StronglySorted_unique_strong; [|by apply sort_by_name_sorted..|by rewrite !sort_by_name_perm].
    intros x y _ _ Hxy Hyx. unfold name_lt in *. exfalso. apply (key_lt_irrefl x.1). by etrans.
Qed.

Example integrity_identifies_witness :
  let fs := [("src/a.rco", as_bytes "1"); ("b", [nul])] in
  Forall nul_free fs /\ NoDup fs.*1 /\ integrity_input (sort_by_name fs) = integrity_input (sort_by_name (reverse fs)).
Proof.
  intros fs. assert (Hn : Forall nul_free fs) by (repeat constructor; unfold nul_free; apply (bool_decide_unpack _); vm_compute; reflexivity).
  assert (Hd : NoDup fs.*1) by (apply (bool_decide_unpack _); vm_compute; reflexivity). split; [exact Hn|]. split; [exact Hd|].
  apply integrity_identifies; [exact Hn|by rewrite reverse_Permutation|exact Hd| |by rewrite reverse_Permutation].
  apply (bool_decide_unpack _). vm_compute. reflexivity.
Defined.
