(* ===== verification/Value.v ===== *)
(** * Values and the shared store

    [crates/ricochet_vm/src/value.rs], [collection.rs], [object.rs],
    [result.rs] and [capability.rs].  Arrays, lists, maps and sets are
    [Arc]-shared and mutable: a value holds the location of its collection and
    the store maps locations to contents, so aliases observe each other's
    updates and collections may contain themselves.  The identity of a
    collection ([Arc::as_ptr]) is its location.  A [Regex] is its pattern, and
    the opaque handles of the host (credentials, secret references, secure
    session actions) are identities. *)

From stdpp Require Import base tactics list strings option numbers.
From Stdlib Require Import ZArith NArith Lia Ascii String SpecFloat.
From S2P Require Import Prelude RustStr RustFloat Bytecode BTree.

Open Scope string_scope.
Open Scope list_scope.
Open Scope nat_scope.

Module Capability.
Inductive Capability : Type := FileSystem | Http | Process | Terminal | Webview.
End Capability.
Abbreviation Capability := Capability.Capability.

#[export] Instance capability_eq_dec : EqDecision Capability.
Proof. solve_decision. Defined.

Record RicochetError : Type := mkRicochetError { kind : string; message : string }.

#[export] Instance ricochet_error_eq_dec : EqDecision RicochetError.
Proof. solve_decision. Defined.

Inductive RicochetResult (A : Type) : Type :=
  | ROk (a : A)
  | RErr (e : RicochetError).
Arguments ROk {A} a.
Arguments RErr {A} e.

Abbreviation loc := nat.

Local Set Warnings "-register-all".

Module Value.
Inductive Value : Type :=
  | Nil
  | Bool (b : bool)
  | Number (n : Z)
  | Float (x : f64)
  | String (s : string)
  | Array (l : loc)
  | List (l : loc)
  | Map (l : loc)
  | Set_ (l : loc)
  | Class (name : string)
  | Instance (class_name : string) (fields : btree Value)
  | Member (name : string)
  | Block (chunk : Chunk)
  | Task (id : N)
  | Result (r : RicochetResult Value)
  | Regex (pattern : string)
  | Capability (c : Capability)
  | DeferredHttpCredentials (id : N)
  | SecretRef (id : N)
  | SecureSessionAction (id : N).
End Value.
Abbreviation Value := Value.Value.

Definition result_ok (v : Value) : Value := Value.Result (ROk v).
Definition result_err (k m : string) : Value := Value.Result (RErr (mkRicochetError k m)).

(** ** The store *)

Module CollectionKind.
Inductive CollectionKind : Type := Array | List | Map | Set_.
End CollectionKind.
Abbreviation CollectionKind := CollectionKind.CollectionKind.

#[export] Instance collection_kind_eq_dec : EqDecision CollectionKind.
Proof. solve_decision. Defined.

(** The contents of a collection. *)
Inductive Cell : Type :=
  | CArray (values : list Value)
  | CList (values : list Value)
  | CSet (values : list Value)
  | CMap (entries : btree Value).

Abbreviation heap := (list Cell).

Definition cell_kind (c : Cell) : CollectionKind :=
  match c with
  | CArray _ => CollectionKind.Array
  | CList _ => CollectionKind.List
  | CSet _ => CollectionKind.Set_
  | CMap _ => CollectionKind.Map
  end.

(** The values a cell holds, in iteration order. *)
Definition cell_values (c : Cell) : list Value :=
  match c with CArray vs | CList vs | CSet vs => vs | CMap m => bt_values m end.

(** [snapshot] of a sequence or a set. *)
Definition snapshot (h : heap) (l : loc) : list Value :=
  match h !! l with Some (CArray vs) | Some (CList vs) | Some (CSet vs) => vs | _ => [] end.

(** [MapValue::snapshot]. *)
Definition map_snapshot (h : heap) (l : loc) : btree Value :=
  match h !! l with Some (CMap m) => m | _ => [] end.

(** The collection a value is, if any. *)
Definition collection_of (v : Value) : option (CollectionKind * loc) :=
  match v with
  | Value.Array l => Some (CollectionKind.Array, l)
  | Value.List l => Some (CollectionKind.List, l)
  | Value.Map l => Some (CollectionKind.Map, l)
  | Value.Set_ l => Some (CollectionKind.Set_, l)
  | _ => None
  end.

(** The elements of a collection, whatever its kind. *)
Definition contents (h : heap) (k : CollectionKind) (l : loc) : list Value :=
  match k with CollectionKind.Map => bt_values (map_snapshot h l) | _ => snapshot h l end.

(** A fresh collection. *)
Definition alloc (c : Cell) (h : heap) : loc * heap := (length h, h ++ [c]).

(** ** Truthiness *)

Module TruthinessError.
Inductive TruthinessError : Type :=
  | ResultRequiresExplicitOk
  | OpaqueDeferredHttpCredentials
  | OpaqueSecretRef
  | OpaqueSecureSessionAction.
End TruthinessError.
Abbreviation TruthinessError := TruthinessError.TruthinessError.

Definition is_empty {A : Type} (l : list A) : bool := match l with [] => true | _ => false end.

Definition truthy (h : heap) (v : Value) : bool :=
  match v with
  | Value.Nil => false
  | Value.Bool b => b
  | Value.Number n => negb (n =? 0)%Z
  | Value.Float x => negb (is_nan x) && negb (f64_eqb x (S754_zero false))
  | Value.String s => negb (String.eqb s "")
  | Value.Array l | Value.List l | Value.Set_ l => negb (is_empty (snapshot h l))
  | Value.Map l => negb (is_empty (map_snapshot h l))
  | _ => true
  end.

Definition truthy_for_condition (h : heap) (v : Value) : res TruthinessError bool :=
  match v with
  | Value.Result _ => Err TruthinessError.ResultRequiresExplicitOk
  | Value.DeferredHttpCredentials _ => Err TruthinessError.OpaqueDeferredHttpCredentials
  | Value.SecretRef _ => Err TruthinessError.OpaqueSecretRef
  | Value.SecureSessionAction _ => Err TruthinessError.OpaqueSecureSessionAction
  | _ => Ok (truthy h v)
  end.

(** [Value::call_predicate]. *)
Definition value_predicate (h : heap) (v : Value) (name : string) : option Value :=
  if String.eqb name "ok?" then
    match v with
    | Value.Result (ROk _) => Some (Value.Bool true)
    | Value.Result (RErr _) => Some (Value.Bool false)
    | _ => None
    end
  else if String.eqb name "nil?" then
    match v with Value.Nil => Some (Value.Bool true) | _ => Some (Value.Bool false) end
  else if String.eqb name "empty?" then
    match v with
    | Value.String s => Some (Value.Bool (String.eqb s ""))
    | Value.Array l | Value.List l | Value.Set_ l => Some (Value.Bool (is_empty (snapshot h l)))
    | Value.Map l => Some (Value.Bool (is_empty (map_snapshot h l)))
    | _ => None
    end
  else None.

Definition value_kind (v : Value) : string :=
  match v with
  | Value.Nil => "nil"
  | Value.Bool _ => "bool"
  | Value.Number _ => "number"
  | Value.Float _ => "float"
  | Value.String _ => "string"
  | Value.Array _ => "array"
  | Value.List _ => "list"
  | Value.Map _ => "map"
  | Value.Set_ _ => "set"
  | Value.Class _ => "class"
  | Value.Instance _ _ => "instance"
  | Value.Member _ => "member selector"
  | Value.Block _ => "block"
  | Value.Task _ => "task"
  | Value.Result _ => "result"
  | Value.Regex _ => "regex"
  | Value.Capability _ => "capability"
  | Value.DeferredHttpCredentials _ => "deferred HTTP credentials"
  | Value.SecretRef _ => "secret reference"
  | Value.SecureSessionAction _ => "secure session action"
  end.

(** ** Well-formed stores *)

(** The location of a collection value names a cell of its kind. *)
Definition typed (h : heap) (k : CollectionKind) (l : loc) : Prop :=
  exists c, h !! l = Some c /\ cell_kind c = k.

(** The values nested in a value, not through the store. *)
Fixpoint subvalues (v : Value) : list Value :=
  v :: match v with
       | Value.Instance _ fields => flat_map (fun kv => subvalues kv.2) fields
       | Value.Result (ROk w) => subvalues w
       | _ => []
       end.

Definition wf_value (h : heap) (v : Value) : Prop :=
  forall w k l, In w (subvalues v) -> collection_of w = Some (k, l) -> typed h k l.

Definition wf_heap (h : heap) : Prop :=
  forall l c, h !! l = Some c -> Forall (wf_value h) (cell_values c).

(** ** Induction on values *)

Section value_induction.
Variable P : Value -> Prop.
Hypothesis Hleaf : forall v,
  match v with Value.Instance _ _ | Value.Result (ROk _) => False | _ => True end -> P v.
Hypothesis Hinst : forall c fields, Forall (fun kv => P kv.2) fields -> P (Value.Instance c fields).
Hypothesis Hok : forall v, P v -> P (Value.Result (ROk v)).

Fixpoint Value_ind' (v : Value) : P v :=
  match v with
  | Value.Instance c fields =>
      Hinst c fields ((fix all (l : btree Value) : Forall (fun kv => P kv.2) l :=
        match l with
        | [] => Forall_nil_2 _
        | kv :: l' => Forall_cons_2 _ kv l' (Value_ind' kv.2) (all l')
        end) fields)
  | Value.Result (ROk w) => Hok w (Value_ind' w)
  | v => Hleaf v I
  end.
End value_induction.
