(* ===== verification/SetMatch.v ===== *)
(** * Matching the elements of two sets

    [set_values_equal] and [assign_set_match] of
    [crates/ricochet_vm/src/collection.rs]: two sets are equal when their
    elements can be paired off.  Equality is not transitive on all values, so
    the code looks for a perfect matching of the compatibility matrix by
    augmenting paths; the theorem shows that it finds one exactly when one
    exists. *)

From stdpp Require Import base tactics list strings option numbers.
From Stdlib Require Import ZArith NArith Lia.
From S2P Require Import Prelude.

Open Scope list_scope.
Open Scope nat_scope.

(** [visited_right] and [matched_right], which the search updates in place. *)
Record Matching : Type := mkMatching { visited_right : list bool; matched_right : list (option nat) }.

Section search.
Context {E : Type}.
Variable compatibility : list (list bool).

(** The loop over the right elements, over the search for a displaced left
    element. *)
Section loop.
Variable assign : nat -> Matching -> res E (bool * Matching).

Fixpoint try_rights (left_index : nat) (rights : list nat) (s : Matching) : res E (bool * Matching) :=
  match rights with
  | [] => Ok (false, s)
  | right_index :: rights' =>
      let? row := index compatibility left_index in
      let? compatible := index row right_index in
      let? visited := index (visited_right s) right_index in
      if negb compatible || visited then try_rights left_index rights' s
      else
        let s1 := mkMatching (<[right_index := true]> (visited_right s)) (matched_right s) in
        let? m := index (matched_right s1) right_index in
        let? (free, s2) := match m with
                           | None => Ok (true, s1)
                           | Some matched_left => assign matched_left s1
                           end in
        if free : bool
        then Ok (true, mkMatching (visited_right s2) (<[right_index := Some left_index]> (matched_right s2)))
        else try_rights left_index rights' s2
  end.
End loop.

(** The recursion marks a right element each time it descends: it is at most
    as deep as there are right elements. *)
Fixpoint assign_set_match (fuel : nat) (left_index : nat) (s : Matching) : res E (bool * Matching) :=
  match fuel with
  | O => OutOfFuel
  | S fuel' => try_rights (assign_set_match fuel') left_index (seq 0 (length (matched_right s))) s
  end.

Fixpoint assign_all (lefts : list nat) (n : nat) (matched : list (option nat)) : res E bool :=
  match lefts with
  | [] => Ok true
  | left_index :: lefts' =>
      let? (found, s) := assign_set_match (S n) left_index (mkMatching (replicate n false) matched) in
      if found : bool then assign_all lefts' n (matched_right s) else Ok false
  end.
End search.

(** [set_values_equal], given the lengths and the compatibility matrix of the
    two snapshots. *)
Definition match_sets {E : Type} (left_len right_len : nat) (compatibility : list (list bool)) : res E bool :=
  if negb (left_len =? right_len) then Ok false
  else assign_all compatibility (seq 0 left_len) right_len (replicate right_len None).

(** ** Specification *)

Definition compatible (m : list (list bool)) (l r : nat) : Prop :=
  exists row, m !! l = Some row /\ row !! r = Some true.

(** Every left element has a right element of its own. *)
Definition perfect_matching (m : list (list bool)) (n : nat) : Prop :=
  exists f : nat -> nat,
    (forall l, l < n -> f l < n /\ compatible m l (f l)) /\
    (forall l1 l2, l1 < n -> l2 < n -> f l1 = f l2 -> l1 = l2).

(** ** Proof *)

Definition count {A : Type} `{EqDecision A} (x : A) (l : list A) : nat := length (filter (.= x) l).

Lemma count_cons {A} `{EqDecision A} (x y : A) l : count x (y :: l) = (if decide (y = x) then 1 else 0) + count x l.
Proof. unfold count. rewrite filter_cons. by case_decide. Qed.

Lemma count_insert {A} `{EqDecision A} (x y z : A) l i :
  l !! i = Some y ->
  count x (<[i := z]> l) + (if decide (y = x) then 1 else 0) = count x l + (if decide (z = x) then 1 else 0).
Proof.
  revert i. induction l as [|a l IH]; intros [|i]; try done; simpl.
  - intros [= ->]. rewrite !count_cons. lia.
  - intros Hi. rewrite !count_cons. specialize (IH i Hi). lia.
Qed.

Lemma count_zero {A} `{EqDecision A} (x : A) l : count x l = 0 -> x ∉ l.
Proof.
  induction l as [|y l IH]; [intros _; apply not_elem_of_nil|]. rewrite count_cons. case_decide; [done|].
  intros H0. apply not_elem_of_cons. auto.
Qed.

Lemma count_one {A} `{EqDecision A} (x : A) l i j :
  count x l <= 1 -> l !! i = Some x -> l !! j = Some x -> i = j.
Proof.
  revert i j. induction l as [|y l IH]; intros i j; [done|]. rewrite count_cons. case_decide as Hy.
  - intros Hc. assert (x ∉ l) as Hx by (apply count_zero; lia).
    destruct i as [|i], j as [|j]; simpl; intros H1 H2; try done; exfalso; apply Hx; by eapply list_elem_of_lookup_2.
  - intros Hc. destruct i as [|i], j as [|j]; simpl; intros H1 H2; try done; simplify_eq. f_equal. by eapply IH.
Qed.

Lemma count_replicate {A} `{EqDecision A} (x y : A) k : y <> x -> count x (replicate k y) = 0.
Proof. intros Hne. induction k as [|k IH]; [done|]. simpl. rewrite count_cons. by rewrite decide_False. Qed.

Section proof.
Context {E : Type}.
Variables (m : list (list bool)) (n : nat).
Hypothesis m_rows : forall l, l < n -> exists row, m !! l = Some row /\ length row = n.
Implicit Types (V : list bool) (M : list (option nat)).

Definition seen V (r : nat) : Prop := V !! r = Some true.
#[local] Instance seen_dec V r : Decision (seen V r).
Proof. unfold seen. apply _. Defined.

Definition grows V V' : Prop := forall r, seen V r -> seen V' r.
Definition valid M : Prop := forall r l, M !! r = Some (Some l) -> l < n /\ compatible m l r.

(** The right elements marked on the way from [V] to [V'] are all taken, by
    left elements that see no unmarked right element. *)
Definition exhausted V V' M : Prop := forall r, seen V' r -> ~ seen V r ->
  exists l, M !! r = Some (Some l) /\ forall r', compatible m l r' -> seen V' r'.

(** What a search for the left element [l] over the right elements [rs] does. *)
Definition found V M l V' M' : Prop :=
  valid M' /\ (forall r, seen V r -> M' !! r = M !! r) /\
  (forall x, count (Some x) M' = count (Some x) M + (if decide (l = x) then 1 else 0)).

Definition missed V M l (rs : list nat) V' M' : Prop :=
  M' = M /\ exhausted V V' M /\ (forall r, r ∈ rs -> compatible m l r -> seen V' r).

Definition searched V M l rs (o : res E (bool * Matching)) : Prop :=
  exists b V' M', o = Ok (b, mkMatching V' M') /\ length V' = n /\ length M' = n /\ grows V V' /\
    count false V' <= count false V /\
    if b : bool then found V M l V' M' else missed V M l rs V' M'.

Lemma grows_refl V : grows V V.
Proof. by intros r. Qed.

Lemma grows_trans V1 V2 V3 : grows V1 V2 -> grows V2 V3 -> grows V1 V3.
Proof. unfold grows. auto. Qed.

Lemma grows_insert V r : grows V (<[r := true]> V).
Proof.
  intros r' H. unfold seen in *. destruct (decide (r = r')) as [->|]; [|by rewrite list_lookup_insert_ne].
  apply list_lookup_insert_eq. by eapply lookup_lt_Some.
Qed.

Lemma seen_insert V r r' : seen (<[r := true]> V) r' -> r' = r \/ seen V r'.
Proof.
  unfold seen. destruct (decide (r = r')) as [->|]; [by left|]. rewrite list_lookup_insert_ne by done. by right.
Qed.
Lemma compatible_lt l r : l < n -> compatible m l r -> r < n.
Proof.
  intros Hl (row & Hrow & Hr). destruct (m_rows l Hl) as (row' & Hrow' & Hlen). simplify_eq.
  by eapply lookup_lt_Some.
Qed.

(** Marking an unmarked element. *)
Lemma count_mark V r : V !! r = Some false -> S (count false (<[r := true]> V)) = count false V.
Proof. intros Hr. pose proof (count_insert false false true V r Hr) as H. simpl in H. lia. Qed.

Lemma found_insert V M l r V1 M1 (x : option nat) :
  l < n -> compatible m l r -> ~ seen V r -> grows V V1 -> M1 !! r = Some x -> valid M1 ->
  (forall r', seen V r' -> M1 !! r' = M !! r') ->
  (forall y, count (Some y) M1 = count (Some y) M + (if decide (x = Some y) then 1 else 0)) ->
  found V M l V1 (<[r := Some l]> M1).
Proof.
  intros Hl Hc Hnr _ Hx Hv Ha Hcnt. split; [|split].
  - intros r' l'. destruct (decide (r = r')) as [->|]; [|rewrite list_lookup_insert_ne by done; apply Hv].
    rewrite list_lookup_insert_eq by (by eapply lookup_lt_Some). by intros [= <-].
  - intros r' Hr'. rewrite list_lookup_insert_ne by (intros ->; by apply Hnr). by apply Ha.
  - intros y. pose proof (count_insert (Some y) x (Some l) M1 r Hx) as H. specialize (Hcnt y).
    destruct (decide (Some l = Some y)), (decide (l = y)); simplify_eq; lia.
Qed.

Section loop.
Variables (assign : nat -> Matching -> res E (bool * Matching)) (fuel : nat).
Hypothesis assign_ok : forall l V M, l < n -> length V = n -> length M = n -> valid M -> count false V < fuel ->
  searched V M l (seq 0 n) (assign l (mkMatching V M)).

Lemma skip_right l r rs V M o : seen V r \/ ~ compatible m l r -> searched V M l rs o -> searched V M l (r :: rs) o.
Proof.
  intros Hr (b & V' & M' & -> & HV & HM & Hg & Hc & Hb). exists b, V', M'. repeat (split; [done|]).
  destruct b; [done|]. destruct Hb as (-> & He & Hs). split; [done|]. split; [done|].
  intros r' [->|Hr']%elem_of_cons Hcomp; [|by apply Hs]. destruct Hr as [Hr|Hr]; [by apply Hg|done].
Qed.

(** Going on after a right element whose owner could not be moved. *)
Lemma searched_after l r rs V M V2 ml o :
  V !! r = Some false -> M !! r = Some (Some ml) ->
  grows (<[r := true]> V) V2 -> count false V2 <= count false V ->
  missed (<[r := true]> V) M ml (seq 0 n) V2 M -> ml < n ->
  searched V2 M l rs o -> searched V M l (r :: rs) o.
Proof.
  intros Hr Hml Hg Hc2 (_ & He & Hs) Hlt (b & V' & M' & -> & HV & HM & Hg' & Hc & Hb).
  assert (grows V V2) as HgV by (eapply grows_trans; [apply grows_insert|exact Hg]).
  assert (seen V2 r) as Hr2 by (apply Hg; unfold seen; apply list_lookup_insert_eq; by eapply lookup_lt_Some).
  exists b, V', M'. split; [done|]. split; [done|]. split; [done|]. split; [by eapply grows_trans|]. split; [lia|].
  destruct b.
  - destruct Hb as (? & Ha & ?). split; [done|]. split; [|done]. intros r' Hr'. by apply Ha, HgV.
  - destruct Hb as (-> & He' & Hs'). split; [done|]. split.
    + intros r' Hr' Hn. destruct (decide (V2 !! r' = Some true)) as [H2|H2]; [|by apply He'].
      destruct (decide ((<[r := true]> V) !! r' = Some true)) as [H1|H1].
      * apply seen_insert in H1 as [->|]; [|done]. exists ml. split; [done|].
        intros r'' Hc''. apply Hg', Hs; [|done]. apply elem_of_seq. split; [lia|]. by eapply compatible_lt.
      * destruct (He r' H2 H1) as (l' & Hl' & Hn'). exists l'. split; [done|]. intros. by apply Hg', Hn'.
    + intros r' [->|Hr']%elem_of_cons Hcomp; [by apply Hg'|by apply Hs'].
Qed.

Lemma try_rights_spec l rs : l < n -> Forall (fun r => r < n) rs -> forall V M,
  length V = n -> length M = n -> valid M -> count false V <= fuel ->
  searched V M l rs (try_rights m assign l rs (mkMatching V M)).
Proof.
  intros Hl. induction rs as [|r rs IH]; intros Hrs V M HV HM Hval Hf.
  { exists false, V, M. split; [done|]. split; [done|]. split; [done|]. split; [by apply grows_refl|]. split; [done|].
    split; [done|]. split; [by intros ? ? ?|]. intros r Hr. by apply elem_of_nil in Hr. }
  apply Forall_cons_1 in Hrs as [Hr Hrs]. destruct (m_rows l Hl) as (row & Hrow & Hlen).
  destruct (lookup_lt_is_Some_2 row r) as [c Hc]; [lia|]. destruct (lookup_lt_is_Some_2 V r) as [v Hv]; [lia|].
  destruct (lookup_lt_is_Some_2 M r) as [x Hx]; [lia|].
  cbn [try_rights visited_right matched_right]. unfold index. rewrite Hrow. cbn [rbind]. rewrite Hc. cbn [rbind].
  rewrite Hv. cbn [rbind]. destruct (negb c || v) eqn:Hskip.
  - apply skip_right; [|by apply IH]. apply orb_prop in Hskip as [Hs|Hs]; [|left; by subst].
    right. intros (row' & Hrow' & Hr'). by simplify_eq.
  - apply orb_false_elim in Hskip as [Hcc ->]. apply negb_false_iff in Hcc as ->. rewrite Hx. cbn [rbind].
    assert (compatible m l r) as Hcomp by (by exists row). assert (~ seen V r) as Hns by (unfold seen; congruence).
    pose proof (count_mark V r Hv) as Hmark. destruct x as [ml|].
    + destruct (Hval r ml Hx) as [Hml _].
      destruct (assign_ok ml (<[r := true]> V) M) as (b & V2 & M2 & -> & HV2 & HM2 & Hg2 & Hc2 & Hb);
        [done|by rewrite length_insert|done|done|lia|]. cbn [rbind]. destruct b.
      * destruct Hb as (Hval2 & Ha2 & Hcnt2). exists true, V2, (<[r := Some l]> M2). split; [done|].
        split; [done|]. split; [by rewrite length_insert|]. split; [eapply grows_trans; [apply grows_insert|done]|].
        split; [lia|]. apply (found_insert V M l r V2 M2 (Some ml)); try done.
        -- eapply grows_trans; [apply grows_insert|done].
        -- rewrite Ha2; [done|]. unfold seen. apply list_lookup_insert_eq. lia.
        -- intros r' Hr'. apply Ha2. by apply grows_insert.
        -- intros y. rewrite Hcnt2. destruct (decide (ml = y)), (decide (Some ml = Some y)); simplify_eq; lia.
      * pose proof Hb as [-> _]. eapply searched_after; [done|done|exact Hg2|lia|exact Hb|done|]. apply IH; try done. lia.
    + exists true, (<[r := true]> V), (<[r := Some l]> M). split; [done|]. rewrite !length_insert. split; [done|].
      split; [done|]. split; [apply grows_insert|]. split; [lia|].
      apply (found_insert V M l r (<[r := true]> V) M None); try done.
      { apply grows_insert. }
      all: intros y; simpl; lia.
Qed.
End loop.

Lemma assign_spec fuel l V M : l < n -> length V = n -> length M = n -> valid M -> count false V < fuel ->
  searched V M l (seq 0 n) (assign_set_match m fuel l (mkMatching V M)).
Proof.
  revert l V M. induction fuel as [|fuel IH]; intros l V M Hl HV HM Hval Hf; [lia|].
  cbn [assign_set_match matched_right]. rewrite HM. eapply try_rights_spec; try done; [|lia].
  apply list.Forall_forall. intros r Hr. apply elem_of_seq in Hr. lia.
Qed.
(** ** From searches to matchings *)

(** The first [k] left elements are matched, once each, and no other. *)
Definition matched_upto (k : nat) M : Prop :=
  valid M /\ length M = n /\ forall x, count (Some x) M = if decide (x < k) then 1 else 0.

Lemma count_pos {A} `{EqDecision A} (x : A) l : 0 < count x l -> exists i, l !! i = Some x.
Proof.
  induction l as [|y l IH]; [unfold count; simpl; lia|]. rewrite count_cons. case_decide as Hy; [intros _; by exists 0; subst|].
  intros H. destruct IH as [i Hi]; [lia|]. by exists (S i).
Qed.

Lemma matched_all M : matched_upto n M -> perfect_matching m n.
Proof.
  intros (Hval & HM & Hcnt).
  set (f l := default 0 (fst <$> list_find (.= Some l) M)).
  assert (forall l, l < n -> M !! f l = Some (Some l)) as Hf.
  { intros l Hl. unfold f. destruct (list_find (.= Some l) M) as [[i x]|] eqn:Hfind; simpl.
    - apply list_find_Some in Hfind as (Hi & -> & _). done.
    - exfalso. apply list_find_None in Hfind. destruct (count_pos (Some l) M) as [i Hi].
      { rewrite Hcnt. case_decide; lia. }
      rewrite list.Forall_forall in Hfind. apply (Hfind (Some l)); [by eapply list_elem_of_lookup_2|done]. }
  exists f. split.
  - intros l Hl. specialize (Hf l Hl). split; [rewrite <- HM; by eapply lookup_lt_Some|]. by apply Hval in Hf as [_ ?].
  - intros l1 l2 H1 H2 Heq. apply Hf in H1, H2. rewrite Heq in H1. congruence.
Qed.

(** A search that fails shows that there is no perfect matching: the left
    elements it reached have fewer neighbours than they are. *)
Lemma missed_no_matching k M V' : k < n -> length V' = n -> matched_upto k M ->
  missed (replicate n false) M k (seq 0 n) V' M -> ~ perfect_matching m n.
Proof.
  intros Hk HV' (Hval & HM & Hcnt) (_ & He & Hs) (f & Hf & Hinj).
  assert (forall r, ~ seen (replicate n false) r) as Hnone.
  { intros r Hr. unfold seen in Hr. by apply lookup_replicate in Hr as [? _]. }
  set (R := filter (seen V') (seq 0 n)). set (owner r := match M !! r with Some (Some l) => l | _ => 0 end).
  assert (forall r, r ∈ R -> seen V' r) as HR by (intros r Hr; by apply list_elem_of_filter in Hr as [? _]).
  assert (forall r, r ∈ R -> M !! r = Some (Some (owner r)) /\ owner r < n /\
            forall r', compatible m (owner r) r' -> seen V' r') as Hown.
  { intros r Hr. destruct (He r (HR r Hr) (Hnone r)) as (l & Hl & Hn). unfold owner. rewrite Hl.
    split; [done|]. split; [by apply Hval in Hl as [? _]|done]. }
  set (L := k :: (owner <$> R)).
  assert (NoDup L) as HL.
  { constructor.
    - intros (r & Hk' & Hr)%list_elem_of_fmap. destruct (Hown r Hr) as (HMr & _).
      pose proof (Hcnt k) as Hc. rewrite decide_False in Hc by lia.
      apply (count_zero _ _ Hc). rewrite Hk'. by eapply list_elem_of_lookup_2.
    - apply NoDup_fmap_2_strong; [|apply list.NoDup_filter, NoDup_seq]. intros r1 r2 H1 H2 Heq.
      destruct (Hown r1 H1) as (E1 & _), (Hown r2 H2) as (E2 & _). rewrite Heq in E1.
      eapply count_one; [|done|done]. rewrite Hcnt. case_decide; lia. }
  assert (forall l, l ∈ L -> l < n /\ f l ∈ R) as HLR.
  { intros l Hl. assert (l < n /\ forall r', compatible m l r' -> seen V' r') as [Hln Hn].
    { apply elem_of_cons in Hl as [->|(r & -> & Hr)%list_elem_of_fmap].
      - split; [done|]. intros r' Hc. apply Hs; [|done]. apply elem_of_seq. split; [lia|]. by eapply compatible_lt.
      - by destruct (Hown r Hr) as (_ & ? & ?). }
    split; [done|]. destruct (Hf l Hln) as [Hfl Hc]. apply list_elem_of_filter. split; [by apply Hn|].
    apply elem_of_seq. lia. }
  assert (NoDup (f <$> L)) as HfL.
  { apply NoDup_fmap_2_strong; [|done]. intros l1 l2 H1 H2. apply Hinj; by apply HLR. }
  assert (length (f <$> L) <= length R) as Hlen.
  { apply submseteq_length, NoDup_submseteq; [done|]. intros x (l & -> & Hl)%list_elem_of_fmap. by apply HLR. }
  rewrite length_fmap in Hlen. unfold L in Hlen. simpl in Hlen. rewrite length_fmap in Hlen. lia.
Qed.

Lemma assign_all_spec k M : k <= n -> matched_upto k M ->
  exists b, assign_all (E:=E) m (seq k (n - k)) n M = Ok b /\ (b = true <-> perfect_matching m n).
Proof.
  remember (n - k) as d eqn:Hd. revert k M Hd. induction d as [|d IH]; intros k M Hd Hk HM.
  - exists true. split; [done|]. split; [|done]. intros _. apply (matched_all M). by replace n with k by lia.
  - cbn [seq assign_all]. pose proof HM as (Hval & Hlen & Hcnt).
    destruct (assign_spec (S n) k (replicate n false) M) as (b & V' & M' & -> & HV' & HM' & _ & _ & Hb);
      [lia|by rewrite length_replicate|done|done| |].
    { unfold count. pose proof (length_filter (.= false) (replicate n false)) as H.
      rewrite length_replicate in H. lia. }
    cbn [rbind]. destruct b; cbn [matched_right].
    + apply IH; [lia|lia|]. destruct Hb as (Hval' & _ & Hcnt'). split; [done|]. split; [done|].
      intros x. rewrite Hcnt', Hcnt. repeat case_decide; lia.
    + exists false. split; [done|]. split; [done|]. intros Hp. exfalso. pose proof Hb as [-> _].
      by eapply missed_no_matching in Hp; [..|exact HM|exact Hb]; [|lia|done].
Qed.
End proof.

(** The search decides perfect matchings. *)
Lemma match_sets_spec {E : Type} (n : nat) (m : list (list bool)) :
  (forall l, l < n -> exists row, m !! l = Some row /\ length row = n) ->
  exists b, match_sets (E:=E) n n m = Ok b /\ (b = true <-> perfect_matching m n).
Proof.
  intros Hm. unfold match_sets. rewrite Nat.eqb_refl. cbn [negb].
  pose proof (assign_all_spec (E:=E) m n Hm 0 (replicate n None)) as H. rewrite Nat.sub_0_r in H.
  apply H; [lia|]. split.
  - intros r l Hr. by apply lookup_replicate in Hr as [? _].
  - split; [by rewrite length_replicate|]. intros x. rewrite decide_False by lia.
    by apply count_replicate.
Qed.
