(* ===== verification/ValueEq.v ===== *)
(** * Equality of values

    The derived [PartialEq] of [Value] and the hand-written ones of the
    collections ([crates/ricochet_vm/src/collection.rs]).  Collections may be
    cyclic: [EqualityVisitGuard] keeps the stack of pairs under comparison, and
    a pair met again on the way down counts as equal.  The fuel bounds the
    depth of the recursion; [ValueEqProofs.v] shows that the fuel
    [values_equal] supplies is always enough. *)

From stdpp Require Import base tactics list strings option numbers.
From Stdlib Require Import ZArith NArith Lia Ascii String.
From S2P Require Import Prelude RustStr RustFloat Bytecode BTree Value SetMatch.

Open Scope string_scope.
Open Scope list_scope.
Open Scope nat_scope.

(** ** Blocks: the derived equality of chunks *)

#[export] Instance args_spec_eq_dec : EqDecision ArgsSpec.
Proof. solve_decision. Defined.
#[export] Instance op_eq_dec : EqDecision Op.
Proof. solve_decision. Defined.
#[export] Instance source_span_eq_dec : EqDecision SourceSpan.
Proof. solve_decision. Defined.

Definition op_eqb (a b : Op) : bool :=
  match a, b with
  | Op.PushFloat x, Op.PushFloat y => f64_eqb x y
  | _, _ => bool_decide (a = b)
  end.

Definition instruction_eqb (a b : Instruction) : bool :=
  op_eqb (op a) (op b) && bool_decide (ispan a = ispan b).

Section list_eqb.
Context {A : Type}.
Variable eqb : A -> A -> bool.
Fixpoint list_eqb (l1 l2 : list A) : bool :=
  match l1, l2 with
  | [], [] => true
  | a :: l1', b :: l2' => eqb a b && list_eqb l1' l2'
  | _, _ => false
  end.
End list_eqb.

Fixpoint chunk_eqb (a b : Chunk) : bool :=
  let 'mkChunk f1 i1 b1 := a in
  let 'mkChunk f2 i2 b2 := b in
  String.eqb f1 f2 && list_eqb instruction_eqb i1 i2 && list_eqb chunk_eqb b1 b2.

(** ** The stack of comparisons *)

Record EqualityVisit : Type := mkVisit { visit_kind : CollectionKind; visit_first : loc; visit_second : loc }.

#[export] Instance equality_visit_eq_dec : EqDecision EqualityVisit.
Proof. solve_decision. Defined.

Definition visit_of (k : CollectionKind) (left right : loc) : EqualityVisit :=
  if left <=? right then mkVisit k left right else mkVisit k right left.

(** [EqualityVisitGuard::enter]: [None] when the pair is being compared. *)
Definition enter (visits : list EqualityVisit) (k : CollectionKind) (left right : loc)
    : option (list EqualityVisit) :=
  let visit := visit_of k left right in
  if decide (visit ∈ visits) then None else Some (visit :: visits).

(** ** Comparison *)

Section compare.
Context {E : Type}.
Variable h : heap.

Section elements.
Variable eq : Value -> Value -> res E bool.

(** [Vec<Value> == Vec<Value>]. *)
Fixpoint zip_equal (left right : list Value) : res E bool :=
  match left, right with
  | a :: left', b :: right' =>
      let? e := eq a b in
      if e : bool then zip_equal left' right' else Ok false
  | _, _ => Ok true
  end.

Definition vec_equal (left right : list Value) : res E bool :=
  if negb (length left =? length right) then Ok false else zip_equal left right.

(** [BTreeMap<String, Value> == BTreeMap<String, Value>]. *)
Fixpoint zip_entries_equal (left right : btree Value) : res E bool :=
  match left, right with
  | (k1, a) :: left', (k2, b) :: right' =>
      if String.eqb k1 k2 then
        let? e := eq a b in
        if e : bool then zip_entries_equal left' right' else Ok false
      else Ok false
  | _, _ => Ok true
  end.

Definition map_equal (left right : btree Value) : res E bool :=
  if negb (length left =? length right) then Ok false else zip_entries_equal left right.

(** [right.iter().map(|right| left == right).collect()]. *)
Fixpoint compat_row (left : Value) (right : list Value) : res E (list bool) :=
  match right with
  | [] => Ok []
  | b :: right' => let? e := eq left b in let? row := compat_row left right' in Ok (e :: row)
  end.

Fixpoint compat_matrix (left right : list Value) : res E (list (list bool)) :=
  match left with
  | [] => Ok []
  | a :: left' => let? row := compat_row a right in let? rows := compat_matrix left' right in Ok (row :: rows)
  end.

Definition set_values_equal (left right : list Value) : res E bool :=
  if negb (length left =? length right) then Ok false
  else
    let? compatibility := compat_matrix left right in
    match_sets (length left) (length right) compatibility.

(** The contents of two collections of the same kind. *)
Definition contents_equal (k : CollectionKind) (l1 l2 : loc) : res E bool :=
  match k with
  | CollectionKind.Map => map_equal (map_snapshot h l1) (map_snapshot h l2)
  | CollectionKind.Set_ => set_values_equal (snapshot h l1) (snapshot h l2)
  | _ => vec_equal (snapshot h l1) (snapshot h l2)
  end.
End elements.

(** The [PartialEq] of the four collection types. *)
Definition collection_equal (eq : list EqualityVisit -> Value -> Value -> res E bool)
    (visits : list EqualityVisit) (k : CollectionKind) (l1 l2 : loc) : res E bool :=
  if l1 =? l2 then Ok true
  else match enter visits k l1 l2 with
       | None => Ok true
       | Some visits' => contents_equal (eq visits') k l1 l2
       end.

(** Values without parts. *)
Definition atom_equal (a b : Value) : bool :=
  match a, b with
  | Value.Nil, Value.Nil => true
  | Value.Bool x, Value.Bool y => Bool.eqb x y
  | Value.Number x, Value.Number y => (x =? y)%Z
  | Value.Float x, Value.Float y => f64_eqb x y
  | Value.String x, Value.String y => String.eqb x y
  | Value.Class x, Value.Class y => String.eqb x y
  | Value.Member x, Value.Member y => String.eqb x y
  | Value.Block x, Value.Block y => chunk_eqb x y
  | Value.Task x, Value.Task y => (x =? y)%N
  | Value.Result (RErr x), Value.Result (RErr y) => bool_decide (x = y)
  | Value.Regex x, Value.Regex y => String.eqb x y
  | Value.Capability x, Value.Capability y => bool_decide (x = y)
  | Value.DeferredHttpCredentials x, Value.DeferredHttpCredentials y => (x =? y)%N
  | Value.SecretRef x, Value.SecretRef y => (x =? y)%N
  | Value.SecureSessionAction x, Value.SecureSessionAction y => (x =? y)%N
  | _, _ => false
  end.

Fixpoint value_equal (fuel : nat) (visits : list EqualityVisit) (a b : Value) : res E bool :=
  match fuel with
  | O => OutOfFuel
  | S fuel' =>
      match a, b with
      | Value.Array l1, Value.Array l2 => collection_equal (value_equal fuel') visits CollectionKind.Array l1 l2
      | Value.List l1, Value.List l2 => collection_equal (value_equal fuel') visits CollectionKind.List l1 l2
      | Value.Map l1, Value.Map l2 => collection_equal (value_equal fuel') visits CollectionKind.Map l1 l2
      | Value.Set_ l1, Value.Set_ l2 => collection_equal (value_equal fuel') visits CollectionKind.Set_ l1 l2
      | Value.Instance c1 f1, Value.Instance c2 f2 =>
          if String.eqb c1 c2 then map_equal (value_equal fuel' visits) f1 f2 else Ok false
      | Value.Result (ROk v1), Value.Result (ROk v2) => value_equal fuel' visits v1 v2
      | _, _ => Ok (atom_equal a b)
      end
  end.
End compare.

(** ** The fuel of a comparison *)

Fixpoint depth (v : Value) : nat :=
  match v with
  | Value.Instance _ fields => S (list_max ((fun kv => depth kv.2) <$> fields))
  | Value.Result (ROk w) => S (depth w)
  | _ => 1
  end.

Definition heap_depth (h : heap) : nat := list_max ((fun c => list_max (depth <$> cell_values c)) <$> h).

(** All the pairs of collections of a store. *)
Definition all_visits (h : heap) : list EqualityVisit :=
  flat_map (fun k => flat_map (fun i => (fun j => mkVisit k i j) <$> seq 0 (length h)) (seq 0 (length h)))
    [CollectionKind.Array; CollectionKind.List; CollectionKind.Map; CollectionKind.Set_].

Definition equal_fuel (h : heap) (a : Value) : nat :=
  length (all_visits h) * S (heap_depth h) + depth a + 1.

(** [left == right]. *)
Definition values_equal {E : Type} (h : heap) (a b : Value) : res E bool :=
  value_equal h (equal_fuel h a) [] a b.

(** Two arrays that contain themselves. *)
Example cyclic_equal :
  values_equal (E:=unit) [CArray [Value.Number 1; Value.Array 0]; CArray [Value.Number 1; Value.Array 1]]
    (Value.Array 0) (Value.Array 1) = Ok true.
Proof. vm_compute. reflexivity. Qed.

Example cyclic_unequal :
  values_equal (E:=unit) [CArray [Value.Number 1; Value.Array 0]; CArray [Value.Number 2; Value.Array 1]]
    (Value.Array 0) (Value.Array 1) = Ok false.
Proof. vm_compute. reflexivity. Qed.
