(* ===== verification/ValueEqProofs.v ===== *)
(** * Equality of values is bisimilarity

    The abstract meaning of [==] on values that may share and contain
    themselves: two values are equal when some relation on collections relates
    their contents, hereditarily ([equal_values]).  The comparison terminates
    on every store, cyclic ones included, and decides that relation. *)

From stdpp Require Import base tactics list strings option numbers sets.
From Stdlib Require Import ZArith NArith Lia Ascii String Permutation.
From S2P Require Import Prelude RustStr RustFloat Bytecode BTree Value SetMatch ValueEq.

Open Scope string_scope.
Open Scope list_scope.
Open Scope nat_scope.

(** ** Specification *)

Definition loc_rel : Type := CollectionKind -> loc -> loc -> Prop.

Section entries.
Variable R : Value -> Value -> Prop.
Fixpoint entries_rel (m1 m2 : btree Value) : Prop :=
  match m1, m2 with
  | [], [] => True
  | (k1, a) :: m1', (k2, b) :: m2' => k1 = k2 /\ R a b /\ entries_rel m1' m2'
  | _, _ => False
  end.
End entries.

(** Values that agree where they are not collections, and whose collections
    are identical or related by [R]. *)
Fixpoint eqv (R : loc_rel) (a b : Value) : Prop :=
  match a, b with
  | Value.Array l1, Value.Array l2 => l1 = l2 \/ R CollectionKind.Array l1 l2
  | Value.List l1, Value.List l2 => l1 = l2 \/ R CollectionKind.List l1 l2
  | Value.Map l1, Value.Map l2 => l1 = l2 \/ R CollectionKind.Map l1 l2
  | Value.Set_ l1, Value.Set_ l2 => l1 = l2 \/ R CollectionKind.Set_ l1 l2
  | Value.Instance c1 f1, Value.Instance c2 f2 => c1 = c2 /\ entries_rel (eqv R) f1 f2
  | Value.Result (ROk v1), Value.Result (ROk v2) => eqv R v1 v2
  | _, _ => atom_equal a b = true
  end.

(** Arrays and lists elementwise, maps entry by entry, sets up to a
    rearrangement. *)
Definition contents_rel (R : loc_rel) (h : heap) : loc_rel := fun k l1 l2 =>
  match k with
  | CollectionKind.Map => entries_rel (eqv R) (map_snapshot h l1) (map_snapshot h l2)
  | CollectionKind.Set_ => exists ys, ys ≡ₚ snapshot h l2 /\ Forall2 (eqv R) (snapshot h l1) ys
  | _ => Forall2 (eqv R) (snapshot h l1) (snapshot h l2)
  end.

Definition bisimulation (h : heap) (R : loc_rel) : Prop :=
  forall k l1 l2, R k l1 l2 -> contents_rel R h k l1 l2.

Definition equal_values (h : heap) (a b : Value) : Prop :=
  exists R, bisimulation h R /\ eqv R a b.

(** ** Monotonicity and symmetry *)

Definition rle (R S : loc_rel) : Prop := forall k l1 l2, R k l1 l2 -> S k l1 l2.
Definition rsym (R : loc_rel) : Prop := forall k l1 l2, R k l1 l2 -> R k l2 l1.
Definition runion (R S : loc_rel) : loc_rel := fun k l1 l2 => R k l1 l2 \/ S k l1 l2.

Lemma entries_rel_mono (R S : Value -> Value -> Prop) m1 m2 :
  Forall (fun kv => forall b, R kv.2 b -> S kv.2 b) m1 -> entries_rel R m1 m2 -> entries_rel S m1 m2.
Proof.
  revert m2. induction m1 as [|[k a] m1 IH]; intros [|[k' b] m2]; try done. simpl.
  intros [H1 H2]%Forall_cons_1 (-> & Hab & Hm). split; [done|]. split; [by apply H1|]. by apply IH.
Qed.

Lemma eqv_mono R S a b : rle R S -> eqv R a b -> eqv S a b.
Proof.
  intros HRS. revert b. induction a as [a Ha|c f Hf|a IH] using Value_ind'; intros b.
  - destruct a as [| | | | | | | | | | | | | |[]| | | | |], b as [| | | | | | | | | | | | | |[]| | | | |]; simpl; try done;
      intros [->|H]; auto.
  - destruct b; simpl; try done. intros [-> Hfs]. split; [done|]. by eapply entries_rel_mono.
  - destruct b as [| | | | | | | | | | | | | |[]| | | | |]; simpl; try done. apply IH.
Qed.

Lemma contents_mono R S h k l1 l2 : rle R S -> contents_rel R h k l1 l2 -> contents_rel S h k l1 l2.
Proof.
  intros HRS. assert (forall a b, eqv R a b -> eqv S a b) as Hm by (intros; by eapply eqv_mono).
  destruct k; simpl; try (by apply List.Forall2_impl).
  - apply entries_rel_mono. apply list.Forall_forall. auto.
  - intros (ys & Hp & Hf). exists ys. split; [done|]. by eapply List.Forall2_impl.
Qed.

Lemma f64_eqb_sym x y : f64_eqb x y = f64_eqb y x.
Proof.
  unfold f64_eqb, f64_partial_cmp. destruct x as [[]|[]| |[] mx ex], y as [[]|[]| |[] my ey]; simpl; try done.
  all: rewrite (Z.compare_antisym ey ex); destruct (Z.compare ey ex); simpl; try done.
  all: change (Pcompare mx my Eq) with (Pos.compare mx my); change (Pcompare my mx Eq) with (Pos.compare my mx);
    rewrite (Pos.compare_antisym my mx); by destruct (Pos.compare my mx).
Qed.

Lemma list_eqb_sym {A} (eqb : A -> A -> bool) l1 l2 :
  Forall (fun a => forall b, eqb a b = eqb b a) l1 -> list_eqb eqb l1 l2 = list_eqb eqb l2 l1.
Proof.
  revert l2. induction l1 as [|a l1 IH]; intros [|b l2]; try done. simpl.
  intros [Ha Hl]%Forall_cons_1. by rewrite Ha, IH.
Qed.

Lemma instruction_eqb_sym a b : instruction_eqb a b = instruction_eqb b a.
Proof.
  unfold instruction_eqb, op_eqb. f_equal; [|by apply bool_decide_ext].
  destruct (op a), (op b); try (by apply bool_decide_ext). apply f64_eqb_sym.
Qed.

Lemma chunk_eqb_sym a b : chunk_eqb a b = chunk_eqb b a.
Proof.
  revert b. induction a as [f i bs IH] using Chunk_ind'. intros [f2 i2 bs2]. simpl. rewrite String.eqb_sym.
  rewrite (list_eqb_sym instruction_eqb i i2) by (apply list.Forall_forall; intros; apply instruction_eqb_sym).
  by rewrite (list_eqb_sym chunk_eqb bs bs2).
Qed.

Lemma atom_equal_sym a b : atom_equal a b = atom_equal b a.
Proof.
  destruct a as [| | | | | | | | | | | | | |[]| | | | |], b as [| | | | | | | | | | | | | |[]| | | | |]; simpl; try done.
  all: try apply String.eqb_sym; try apply N.eqb_sym; try apply Z.eqb_sym; try apply f64_eqb_sym;
    try apply chunk_eqb_sym; try (by apply bool_decide_ext).
  by destruct b0, b.
Qed.

Lemma entries_rel_sym (R : Value -> Value -> Prop) m1 m2 :
  Forall (fun kv => forall b, R kv.2 b -> R b kv.2) m1 -> entries_rel R m1 m2 -> entries_rel R m2 m1.
Proof.
  revert m2. induction m1 as [|[k a] m1 IH]; intros [|[k' b] m2]; try done. simpl.
  intros [H1 H2]%Forall_cons_1 (-> & Hab & Hm). split; [done|]. split; [by apply H1|]. by apply IH.
Qed.

Lemma eqv_sym R a b : rsym R -> eqv R a b -> eqv R b a.
Proof.
  intros HR. revert b. induction a as [a Ha|c f Hf|a IH] using Value_ind'; intros b.
  - destruct a as [| | | | | | | | | | | | | |[]| | | | |], b as [| | | | | | | | | | | | | |[]| | | | |]; try done;
      cbn [eqv]; try (by rewrite atom_equal_sym); intros [->|H]; auto.
  - destruct b; simpl; try done. intros [-> Hfs]. split; [done|]. by apply entries_rel_sym.
  - destruct b as [| | | | | | | | | | | | | |[]| | | | |]; simpl; try done. apply IH.
Qed.

Lemma Forall2_perm_sym {A} (R : A -> A -> Prop) l1 l2 ys :
  (forall a b, R a b -> R b a) -> ys ≡ₚ l2 -> Forall2 R l1 ys -> exists xs, xs ≡ₚ l1 /\ Forall2 R l2 xs.
Proof.
  intros HR Hp Hf. apply Forall2_flip in Hf. destruct (Permutation_Forall2 Hp Hf) as (xs & Hxs & Hf').
  exists xs. split; [done|]. eapply List.Forall2_impl; [|exact Hf']. simpl. auto.
Qed.

Lemma contents_sym R h k l1 l2 : rsym R -> contents_rel R h k l1 l2 -> contents_rel R h k l2 l1.
Proof.
  intros HR. assert (forall a b, eqv R a b -> eqv R b a) as Hs by (intros; by apply eqv_sym).
  destruct k; simpl.
  1, 2: intros Hf; apply Forall2_flip in Hf; eapply List.Forall2_impl; [|exact Hf]; auto.
  - apply entries_rel_sym. apply list.Forall_forall. auto.
  - intros (ys & Hp & Hf). by eapply Forall2_perm_sym.
Qed.

(** ** Matchings and rearrangements *)

Section matrix.
Context {E : Type}.
Variable eq : Value -> Value -> res E bool.

Lemma compat_row_spec a ys row : compat_row eq a ys = Ok row ->
  length row = length ys /\ forall j c, row !! j = Some c -> exists b, ys !! j = Some b /\ eq a b = Ok c.
Proof.
  revert row. induction ys as [|b ys IH]; intros row; simpl; [by intros [= <-]|].
  intros H. inv_ok. destruct (IH _ H1) as [Hl Hr]. split; [simpl; lia|].
  intros [|j] c; simpl; [intros [= <-]; eauto|apply Hr].
Qed.

Lemma compat_matrix_spec xs ys m : compat_matrix eq xs ys = Ok m ->
  length m = length xs /\
  forall i row, m !! i = Some row -> exists a, xs !! i = Some a /\ compat_row eq a ys = Ok row.
Proof.
  revert m. induction xs as [|a xs IH]; intros m; simpl; [by intros [= <-]|].
  intros H. inv_ok. destruct (IH _ H1) as [Hl Hr]. split; [simpl; lia|].
  intros [|i] row; simpl; [intros [= <-]; eauto|apply Hr].
Qed.

Lemma compat_matrix_rows xs ys m : compat_matrix eq xs ys = Ok m ->
  forall l, l < length xs -> exists row, m !! l = Some row /\ length row = length ys.
Proof.
  intros H l Hl. apply compat_matrix_spec in H as [Hlen Hr].
  destruct (lookup_lt_is_Some_2 m l) as [row Hrow]; [lia|]. exists row. split; [done|].
  apply Hr in Hrow as (a & _ & Ha). by apply compat_row_spec in Ha as [? _].
Qed.

Lemma compat_matrix_compatible xs ys m i j : compat_matrix eq xs ys = Ok m ->
  compatible m i j -> exists a b, xs !! i = Some a /\ ys !! j = Some b /\ eq a b = Ok true.
Proof.
  intros H (row & Hrow & Hj). apply compat_matrix_spec in H as [_ Hr]. apply Hr in Hrow as (a & Ha & Hc).
  apply compat_row_spec in Hc as [_ Hc]. apply Hc in Hj as (b & Hb & He). eauto.
Qed.

Lemma matrix_compatible xs ys m i j a b : compat_matrix eq xs ys = Ok m ->
  xs !! i = Some a -> ys !! j = Some b -> (forall c, eq a b = Ok c -> c = true) -> compatible m i j.
Proof.
  intros H Ha Hb He. destruct (compat_matrix_rows xs ys m H i) as (row & Hrow & Hlen).
  { by eapply lookup_lt_Some. }
  exists row. split; [done|]. destruct (lookup_lt_is_Some_2 row j) as [c Hc].
  { rewrite Hlen. by eapply lookup_lt_Some. }
  apply compat_matrix_spec in H as [_ Hr]. apply Hr in Hrow as (a' & Ha' & Hrow').
  apply compat_row_spec in Hrow' as [_ Hrow']. destruct (Hrow' j c Hc) as (b' & Hb' & Hab). simplify_eq.
  by rewrite Hc, (He c).
Qed.
End matrix.

(** A matching of [n] elements rearranges the right ones. *)
Lemma matching_permutation (f : nat -> nat) (ys : list Value) :
  (forall l, l < length ys -> f l < length ys) ->
  (forall l1 l2, l1 < length ys -> l2 < length ys -> f l1 = f l2 -> l1 = l2) ->
  exists zs, zs ≡ₚ ys /\ length zs = length ys /\ forall i, i < length ys -> zs !! i = ys !! f i.
Proof.
  intros Hf Hinj. set (n := length ys).
  set (zs := (fun i => default Value.Nil (ys !! f i)) <$> seq 0 n).
  assert (length zs = n) as Hlen by (unfold zs; by rewrite length_fmap, length_seq).
  assert (forall i, i < n -> zs !! i = ys !! f i) as Hz.
  { intros i Hi. unfold zs. rewrite list_lookup_fmap, lookup_seq_lt by done. simpl.
    destruct (lookup_lt_is_Some_2 ys (f i)) as [y Hy]; [by apply Hf|]. by rewrite Hy. }
  exists zs. split; [|done]. apply Permutation_inj. split; [done|].
  exists (fun i => if decide (i < n) then f i else i). split.
  - intros i j. repeat case_decide; intros; subst; auto; exfalso.
    + assert (f i < n) by (by apply Hf). lia.
    + assert (f j < n) by (by apply Hf). lia.
  - intros i. case_decide; [by apply Hz|]. rewrite !lookup_ge_None_2; [done|lia|lia].
Qed.

Lemma set_values_equal_true {E} (eq : Value -> Value -> res E bool) (P : Value -> Value -> Prop) xs ys :
  (forall a b, eq a b = Ok true -> P a b) -> set_values_equal eq xs ys = Ok true ->
  exists zs, zs ≡ₚ ys /\ Forall2 P xs zs.
Proof.
  intros HP. unfold set_values_equal. destruct (length xs =? length ys) eqn:Hl; [|done].
  apply Nat.eqb_eq in Hl. simpl. intros H. inv_ok. rename x into m.
  destruct (match_sets_spec (E:=E) (length xs) m) as (b & Hb & Hm).
  { rewrite Hl. intros l Hlt. eapply compat_matrix_rows; [done|lia]. }
  rewrite <- Hl, Hb in H. simplify_eq. destruct (proj1 Hm eq_refl) as (f & Hf & Hinj). rewrite Hl in Hf, Hinj.
  destruct (matching_permutation f ys) as (zs & Hp & Hlz & Hz); [intros; by apply Hf|done|].
  exists zs. split; [done|]. apply Forall2_same_length_lookup_2; [lia|]. intros i a z Ha Hzi.
  assert (i < length ys) as Hi by (rewrite <- Hlz; by eapply lookup_lt_Some).
  destruct (Hf i Hi) as [_ Hc]. apply (compat_matrix_compatible eq xs ys m) in Hc as (a' & b & Ha' & Hb' & He); [|done].
  rewrite Hz in Hzi by done. simplify_eq. by apply HP.
Qed.

Lemma set_values_equal_complete {E} (eq : Value -> Value -> res E bool) (P : Value -> Value -> Prop) xs ys zs b :
  (forall a b c, P a b -> eq a b = Ok c -> c = true) -> zs ≡ₚ ys -> Forall2 P xs zs ->
  set_values_equal eq xs ys = Ok b -> b = true.
Proof.
  intros HP Hp Hf. unfold set_values_equal.
  assert (length xs = length ys) as Hl by (rewrite (Forall2_length Hf); by rewrite Hp).
  rewrite Hl, Nat.eqb_refl. simpl. intros H. inv_ok. rename x into m.
  destruct (match_sets_spec (E:=E) (length ys) m) as (b' & Hb & Hm).
  { intros l Hlt. eapply compat_matrix_rows; [done|lia]. }
  rewrite Hb in H. simplify_eq. apply Hm. apply Permutation_inj in Hp as (Hlz & g & Hg & Hz). exists g. split.
  - intros l Hlt. destruct (lookup_lt_is_Some_2 xs l) as [a Ha]; [lia|].
    destruct (Forall2_lookup_l _ _ _ _ _ Hf Ha) as (z & Hzl & HPz). rewrite Hz in Hzl.
    split; [by eapply lookup_lt_Some|]. eapply matrix_compatible; [done|done|done|]. intros c. by apply HP.
  - intros l1 l2 _ _. apply Hg.
Qed.

(** ** Elementwise comparisons *)

Section elementwise.
Context {E : Type}.
Variables (eq : Value -> Value -> res E bool) (P : Value -> Value -> Prop).

Lemma vec_equal_true xs ys : (forall a b, eq a b = Ok true -> P a b) ->
  vec_equal eq xs ys = Ok true -> Forall2 P xs ys.
Proof.
  intros HP. unfold vec_equal. destruct (length xs =? length ys) eqn:Hl; [|done]. apply Nat.eqb_eq in Hl. simpl.
  revert ys Hl. induction xs as [|a xs IH]; intros [|b ys] Hl H; try done. simpl in H. inv_ok.
  destruct x; [|done]. constructor; auto.
Qed.

Lemma vec_equal_complete xs ys b : (forall a b c, P a b -> eq a b = Ok c -> c = true) -> Forall2 P xs ys ->
  vec_equal eq xs ys = Ok b -> b = true.
Proof.
  intros HP Hf. unfold vec_equal. rewrite (Forall2_length Hf), Nat.eqb_refl. simpl. revert b.
  induction Hf as [|a c xs ys Hac Hf IH]; intros b; simpl; [by intros [= <-]|]. intros H. inv_ok.
  rewrite (HP _ _ _ Hac H0) in H. eauto.
Qed.

Lemma map_equal_true xs ys : (forall a b, eq a b = Ok true -> P a b) ->
  map_equal eq xs ys = Ok true -> entries_rel P xs ys.
Proof.
  intros HP. unfold map_equal. destruct (length xs =? length ys) eqn:Hl; [|done]. apply Nat.eqb_eq in Hl. simpl.
  revert ys Hl. induction xs as [|[k a] xs IH]; intros [|[k' b] ys] Hl H; try done. simpl in H |- *.
  destruct (String.eqb_spec k k') as [->|]; [|done]. inv_ok. destruct x; [|done]. auto.
Qed.

Lemma map_equal_complete xs ys b : (forall a b c, P a b -> eq a b = Ok c -> c = true) -> entries_rel P xs ys ->
  map_equal eq xs ys = Ok b -> b = true.
Proof.
  intros HP Hf. unfold map_equal.
  assert (length xs = length ys) as ->.
  { revert ys Hf. induction xs as [|[k a] xs IH]; intros [|[k' c] ys]; try done. simpl. intros (_ & _ & H). by rewrite (IH ys). }
  rewrite Nat.eqb_refl. simpl. revert ys b Hf.
  induction xs as [|[k a] xs IH]; intros [|[k' c] ys] b Hf; try done; simpl; [by intros [= <-]|].
  simpl in Hf. destruct Hf as (-> & Hac & Hf). rewrite String.eqb_refl. intros H. inv_ok.
  rewrite (HP _ _ _ Hac H0) in H. eauto.
Qed.
End elementwise.

(** ** Soundness *)

Definition visited (V : list EqualityVisit) : loc_rel := fun k l1 l2 => visit_of k l1 l2 ∈ V.

Lemma visit_of_sym k l1 l2 : visit_of k l1 l2 = visit_of k l2 l1.
Proof.
  unfold visit_of. destruct (Nat.leb_spec l1 l2), (Nat.leb_spec l2 l1); try done; try lia.
  by replace l1 with l2 by lia.
Qed.

Lemma visit_of_inj k l1 l2 k' l1' l2' : visit_of k l1 l2 = visit_of k' l1' l2' ->
  k = k' /\ (l1 = l1' /\ l2 = l2' \/ l1 = l2' /\ l2 = l1').
Proof. unfold visit_of. repeat case_match; intros; simplify_eq; auto. Qed.

Section soundness.
Variable h : heap.

(** The greatest relation whose contents are related by itself or by the
    comparisons under way. *)
Definition post (V : list EqualityVisit) : loc_rel := fun k l1 l2 => exists R, rsym R /\
  (forall k l1 l2, R k l1 l2 -> contents_rel (runion R (visited V)) h k l1 l2) /\ R k l1 l2.

Abbreviation assuming V := (runion (post V) (visited V)).

Lemma post_step V k l1 l2 : post V k l1 l2 -> contents_rel (assuming V) h k l1 l2.
Proof.
  intros (R & Hs & Hp & HR). eapply contents_mono; [|by apply Hp]. intros k' a b [H|H]; [left|by right]. by exists R.
Qed.

Lemma assuming_sym V : rsym (assuming V).
Proof.
  intros k a b [(R & Hs & Hp & HR)|H]; [left; exists R; auto|right]. unfold visited. by rewrite visit_of_sym.
Qed.

Lemma post_enter V k l1 l2 :
  contents_rel (assuming (visit_of k l1 l2 :: V)) h k l1 l2 -> post V k l1 l2.
Proof.
  set (V' := visit_of k l1 l2 :: V). intros Hc.
  exists (fun k' a b => post V' k' a b \/ visit_of k' a b = visit_of k l1 l2). split; [|split; [|by right]].
  - intros k' a b [(R & Hs & Hp & HR)|H]; [left; exists R; auto|right]. by rewrite visit_of_sym.
  - assert (rle (assuming V')
              (runion (fun k' a b => post V' k' a b \/ visit_of k' a b = visit_of k l1 l2) (visited V))) as Hle.
    { intros k' a b [H|H]; [by left; left|]. apply elem_of_cons in H as [H|H]; [by left; right|by right]. }
    intros k' a b [H|H]; (eapply contents_mono; [exact Hle|]).
    + by apply post_step.
    + apply visit_of_inj in H as (-> & [[-> ->]|[-> ->]]); [done|]. apply contents_sym; [apply assuming_sym|done].
Qed.

Lemma contents_equal_true {E} (eq : Value -> Value -> res E bool) R k l1 l2 :
  (forall a b, eq a b = Ok true -> eqv R a b) -> contents_equal h eq k l1 l2 = Ok true -> contents_rel R h k l1 l2.
Proof.
  intros HP. destruct k; simpl.
  - by apply vec_equal_true.
  - by apply vec_equal_true.
  - by apply map_equal_true.
  - by apply set_values_equal_true.
Qed.

Lemma collection_equal_true {E} (eq : list EqualityVisit -> Value -> Value -> res E bool) V k l1 l2 :
  (forall V a b, eq V a b = Ok true -> eqv (assuming V) a b) ->
  collection_equal h eq V k l1 l2 = Ok true -> l1 = l2 \/ assuming V k l1 l2.
Proof.
  intros HP. unfold collection_equal, enter. destruct (Nat.eqb_spec l1 l2) as [->|Hne]; [by left|]. right.
  case_decide as Hv; [by right|]. left. apply post_enter. by eapply contents_equal_true; [apply HP|].
Qed.

Lemma value_equal_sound {E} fuel V a b :
  value_equal (E:=E) h fuel V a b = Ok true -> eqv (assuming V) a b.
Proof.
  revert V a b. induction fuel as [|fuel IH]; intros V a b; [done|].
  destruct a as [| | | | | | | | | |c1 f1| | | |[v1|]| | | | |], b as [| | | | | | | | | |c2 f2| | | |[v2|]| | | | |];
    cbn [value_equal eqv]; try done.
  all: try (by apply collection_equal_true). all: try (intros H; by injection H as H).
  - destruct (String.eqb_spec c1 c2) as [->|]; [|done]. intros H. split; [done|].
    eapply map_equal_true; [|exact H]. apply IH.
  - apply IH.
Qed.
End soundness.

(** ** Completeness *)

Lemma value_equal_complete {E} h R fuel V a b c : bisimulation h R ->
  eqv R a b -> value_equal (E:=E) h fuel V a b = Ok c -> c = true.
Proof.
  intros HR. revert V a b c. induction fuel as [|fuel IH]; intros V a b c; [done|].
  assert (forall k l1 l2 V c, l1 = l2 \/ R k l1 l2 ->
            collection_equal (E:=E) h (value_equal h fuel) V k l1 l2 = Ok c -> c = true) as Hc.
  { intros k l1 l2 V' c' [->|Hk]; unfold collection_equal; [rewrite Nat.eqb_refl; by intros [= <-]|].
    case_match; [by intros [= <-]|]. unfold enter. case_decide; [by intros [= <-]|].
    apply HR in Hk. destruct k; simpl in Hk |- *.
    - eapply vec_equal_complete; [|exact Hk]. eauto.
    - eapply vec_equal_complete; [|exact Hk]. eauto.
    - eapply map_equal_complete; [|exact Hk]. eauto.
    - destruct Hk as (zs & Hp & Hf). eapply set_values_equal_complete; [|exact Hp|exact Hf]. eauto. }
  destruct a as [| | | | | | | | | |c1 f1| | | |[v1|]| | | | |], b as [| | | | | | | | | |c2 f2| | | |[v2|]| | | | |];
    cbn [value_equal eqv]; try done; try (by apply Hc); try (intros <-; by intros [= <-]).
  - intros [-> Hf]. rewrite String.eqb_refl. eapply map_equal_complete; [|exact Hf]. eauto.
  - apply IH.
Qed.

(** ** Termination *)

Lemma list_max_ge n l : n ∈ l -> n <= list_max l.
Proof.
  intros H. assert (list_max l <= list_max l) as Hm by lia. apply list_max_le in Hm.
  rewrite list.Forall_forall in Hm. by apply Hm.
Qed.

Lemma contents_depth h k l v : v ∈ contents h k l -> depth v <= heap_depth h.
Proof.
  intros Hv. assert (exists c, h !! l = Some c /\ v ∈ cell_values c) as (c & Hc & Hin).
  { unfold contents, snapshot, map_snapshot in Hv. destruct (h !! l) as [c|] eqn:Hl; [exists c; split; [done|]|].
    - destruct k, c; simpl in *; try done; by apply elem_of_nil in Hv.
    - destruct k; simpl in *; by apply elem_of_nil in Hv. }
  etrans; [apply list_max_ge, list_elem_of_fmap_2, Hin|].
  unfold heap_depth. apply list_max_ge. apply list_elem_of_fmap. exists c. split; [done|]. by eapply list_elem_of_lookup_2.
Qed.

Section totals.
Context {E : Type}.
Variable eq : Value -> Value -> res E bool.
Definition total_on (xs : list Value) : Prop := forall a b, a ∈ xs -> exists c, eq a b = Ok c.

Lemma total_on_cons a xs : total_on (a :: xs) -> (forall b, exists c, eq a b = Ok c) /\ total_on xs.
Proof. intros H. split; [intros b; apply H; left|]. intros x b Hx. apply H. by right. Qed.

Lemma vec_equal_total xs ys : total_on xs -> exists c, vec_equal eq xs ys = Ok c.
Proof.
  intros H. unfold vec_equal. case_match; [by eexists|]. clear -H. revert ys.
  induction xs as [|a xs IH]; intros [|b ys]; simpl; try by eexists. apply total_on_cons in H as [Ha H].
  destruct (Ha b) as [[] ->]; simpl; [by apply IH|by eexists].
Qed.

Lemma map_equal_total xs ys : total_on (bt_values xs) -> exists c, map_equal eq xs ys = Ok c.
Proof.
  intros H. unfold map_equal. case_match; [by eexists|]. clear -H. revert ys.
  induction xs as [|[k a] xs IH]; intros [|[k' b] ys]; simpl; try by eexists. apply total_on_cons in H as [Ha H].
  case_match; [|by eexists]. simpl in Ha. destruct (Ha b) as [[] ->]; simpl; [by apply IH|by eexists].
Qed.

Lemma set_values_equal_total xs ys : total_on xs -> exists c, set_values_equal eq xs ys = Ok c.
Proof.
  intros H. unfold set_values_equal. destruct (length xs =? length ys) eqn:Hl; [|by eexists].
  apply Nat.eqb_eq in Hl. simpl. assert (exists m, compat_matrix eq xs ys = Ok m) as [m Hm].
  { clear Hl. induction xs as [|a xs IH]; simpl; [by eexists|]. apply total_on_cons in H as [Ha H].
    assert (exists row, compat_row eq a ys = Ok row) as [row ->].
    { clear -Ha. induction ys as [|b ys [row IH]]; simpl; [by eexists|]. destruct (Ha b) as [c ->]. simpl. rewrite IH. by eexists. }
    destruct (IH H) as [m Hm]. simpl. rewrite Hm. by eexists. }
  rewrite Hm. simpl. rewrite <- Hl. destruct (match_sets_spec (E:=E) (length xs) m) as (b & Hb & _); [|by exists b].
  intros l Hlt. rewrite Hl. by eapply compat_matrix_rows.
Qed.

Lemma contents_equal_total h k l1 l2 :
  total_on (contents h k l1) -> exists c, contents_equal h eq k l1 l2 = Ok c.
Proof.
  destruct k; simpl; [apply vec_equal_total|apply vec_equal_total|apply map_equal_total|apply set_values_equal_total].
Qed.

(** An unallocated collection has no contents to descend into. *)
Lemma contents_equal_none h k l1 l2 : length h <= l1 \/ length h <= l2 ->
  exists c, contents_equal h eq k l1 l2 = Ok c.
Proof.
  intros [Hl|Hl]; apply lookup_ge_None_2 in Hl.
  - apply contents_equal_total. intros a b Ha. unfold contents, snapshot, map_snapshot in Ha.
    destruct k; rewrite Hl in Ha; by apply elem_of_nil in Ha.
  - unfold contents_equal, set_values_equal, vec_equal, map_equal, snapshot, map_snapshot.
    destruct k; rewrite Hl; destruct (h !! l1) as [[[]|[]|[]|[]]|]; by eexists.
Qed.
End totals.

Definition free (h : heap) (V : list EqualityVisit) : nat := length (left_out (all_visits h) V).

Lemma visit_in_all h k l1 l2 : l1 < length h -> l2 < length h -> visit_of k l1 l2 ∈ all_visits h.
Proof.
  intros H1 H2. unfold all_visits. apply list_elem_of_In, in_flat_map. exists k. split; [destruct k; simpl; tauto|].
  unfold visit_of. case_match; apply in_flat_map; [exists l1|exists l2]; (split; [apply in_seq; lia|]);
    apply list_elem_of_In, list_elem_of_fmap; eexists; (split; [done|apply elem_of_seq; lia]).
Qed.

Lemma value_equal_total {E} h fuel V a b : free h V * S (heap_depth h) + depth a < fuel ->
  exists c, value_equal (E:=E) h fuel V a b = Ok c.
Proof.
  revert V a b. induction fuel as [|fuel IH]; intros V a b Hf; [lia|].
  assert (forall k l1 l2, free h V * S (heap_depth h) < S fuel ->
            exists c, collection_equal (E:=E) h (value_equal h fuel) V k l1 l2 = Ok c) as Hcoll.
  { intros k l1 l2 Hfuel. unfold collection_equal, enter. case_match; [by eexists|]. case_decide as Hv; [by eexists|].
    destruct (decide (l1 < length h /\ l2 < length h)) as [[H1 H2]|Hn]; [|apply contents_equal_none; lia].
    apply contents_equal_total. intros x y Hx. apply IH. apply contents_depth in Hx.
    pose proof (left_out_cons (all_visits h) V _ (visit_in_all h k l1 l2 H1 H2) Hv). unfold free in *. nia. }
  destruct a as [| | | | | | | | | |c1 f1| | | |[v1|]| | | | |], b as [| | | | | | | | | |c2 f2| | | |[v2|]| | | | |];
    cbn [value_equal]; try (by eexists); try (apply Hcoll; simpl in Hf; lia).
  - case_match; [|by eexists]. apply map_equal_total. intros x y Hx. apply IH. cbn [depth] in Hf.
    assert (depth x <= list_max ((fun kv => depth kv.2) <$> f1)); [|lia]. apply list_max_ge.
    unfold bt_values in Hx. apply list_elem_of_fmap in Hx as (kv & -> & Hkv). apply list_elem_of_fmap. by exists kv.
  - apply IH. simpl in Hf. lia.
Qed.

(** ** Theorems *)

Lemma visited_nil k l1 l2 : ~ visited [] k l1 l2.
Proof. intros H. by apply elem_of_nil in H. Qed.

Lemma values_equal_total {E} h a b : exists c, values_equal (E:=E) h a b = Ok c.
Proof.
  apply value_equal_total. assert (free h [] <= length (all_visits h)) by apply length_filter.
  unfold equal_fuel. nia.
Qed.

Lemma values_equal_true {E} h a b : values_equal (E:=E) h a b = Ok true <-> equal_values h a b.
Proof.
  split.
  - intros H. apply value_equal_sound in H.
    assert (rle (runion (post h []) (visited [])) (post h [])) as Hle.
    { intros k l1 l2 [Hp|Hv]; [done|]. by apply visited_nil in Hv. }
    exists (post h []). split; [|by eapply eqv_mono]. intros k l1 l2 Hp. eapply contents_mono; [exact Hle|by apply post_step].
  - intros (R & HR & Hab). destruct (values_equal_total (E:=E) h a b) as [c Hc].
    by rewrite <- (value_equal_complete h R _ _ _ _ _ HR Hab Hc).
Qed.

Lemma equal_values_sym h a b : equal_values h a b -> equal_values h b a.
Proof.
  intros H. apply (values_equal_true (E:=unit)), value_equal_sound in H. exists (post h []).
  assert (rle (runion (post h []) (visited [])) (post h [])) as Hle.
  { intros k l1 l2 [Hp|Hv]; [done|]. by apply visited_nil in Hv. }
  split; [intros k l1 l2 Hp; eapply contents_mono; [exact Hle|by apply post_step]|].
  eapply eqv_mono; [exact Hle|]. apply eqv_sym; [apply assuming_sym|done].
Qed.

(** C4: comparing two values always terminates, on any store, cyclic
    collections included, and answers whether they are bisimilar: equal where
    they are not collections, with identical collections or collections whose
    contents are equal in turn, elementwise, entry by entry, or for sets up to
    a one-to-one pairing of the elements. *)
Theorem values_equal_bisimilar (E : Type) (h : heap) (a b : Value) :
  exists c, values_equal (E:=E) h a b = Ok c /\ (c = true <-> equal_values h a b).
Proof.
  destruct (values_equal_total (E:=E) h a b) as [c Hc]. exists c. split; [done|].
  rewrite <- (values_equal_true (E:=E)), Hc. split; [by intros ->|by intros [= ->]].
Qed.

(** The pairing of two sets is found exactly when it exists: the
    augmenting-path search over a square compatibility matrix returns whether
    a perfect matching exists, without panicking and within the depth of one
    step per right element. *)
Theorem match_sets_correct (E : Type) (n : nat) (m : list (list bool)) :
  (forall l, l < n -> exists row, m !! l = Some row /\ length row = n) ->
  exists b, match_sets (E:=E) n n m = Ok b /\ (b = true <-> perfect_matching m n).
Proof. apply match_sets_spec. Qed.

Lemma match_sets_correct_witness :
  exists b, match_sets (E:=unit) 2 2 [[true; true]; [true; false]] = Ok b /\
            (b = true <-> perfect_matching [[true; true]; [true; false]] 2).
Proof.
  apply (match_sets_correct unit 2 [[true; true]; [true; false]]).
  intros [|[|l]] Hl; [by eexists|by eexists|lia].
Defined.

(** Equality of values is symmetric, also between collections that
    contain each other. *)
Theorem values_equal_sym (E : Type) (h : heap) (a b : Value) :
  values_equal (E:=E) h a b = values_equal h b a.
Proof.
  destruct (values_equal_total (E:=E) h a b) as [c Hc], (values_equal_total (E:=E) h b a) as [d Hd].
  assert (c = true <-> d = true) as Hcd.
  { split; intros ->; [apply values_equal_true, equal_values_sym, (values_equal_true (E:=E)) in Hc
                      |apply values_equal_true, equal_values_sym, (values_equal_true (E:=E)) in Hd]; congruence. }
  rewrite Hc, Hd. f_equal. destruct c, d; intuition congruence.
Qed.
