(* ===== verification/Opaque.v ===== *)
(** * Searching values for opaque handles

    [opaque_value_kind] and [contains_deferred_http_credential] of
    [crates/ricochet_vm/src/value.rs]: a depth-first search through instances,
    results and shared collections that marks the collections it has entered.
    Comparisons, set updates and serialisation rely on it to refuse values that
    hold a credential or a secret anywhere inside. *)

From stdpp Require Import base tactics list strings option numbers sets.
From Stdlib Require Import ZArith NArith Lia Ascii String.
From S2P Require Import Prelude RustStr RustFloat Bytecode BTree Value ValueEq ValueEqProofs.

Open Scope string_scope.
Open Scope list_scope.
Open Scope nat_scope.

Abbreviation OpaqueValueVisit := (prod CollectionKind loc).

Section search.
Context {E A : Type}.
Variables (h : heap) (leaf : Value -> option A).

(** [iter().find_map(|value| value.inner(visits))]. *)
Section find_map.
Variable inner : list OpaqueValueVisit -> Value -> res E (option A * list OpaqueValueVisit).
Fixpoint find_map (visits : list OpaqueValueVisit) (values : list Value)
    : res E (option A * list OpaqueValueVisit) :=
  match values with
  | [] => Ok (None, visits)
  | v :: values' =>
      let? (found, visits') := inner visits v in
      match found with
      | Some a => Ok (Some a, visits')
      | None => find_map visits' values'
      end
  end.
End find_map.

Fixpoint search_inner (fuel : nat) (visits : list OpaqueValueVisit) (v : Value)
    : res E (option A * list OpaqueValueVisit) :=
  match fuel with
  | O => OutOfFuel
  | S fuel' =>
      match leaf v with
      | Some a => Ok (Some a, visits)
      | None =>
          match v, collection_of v with
          | Value.Instance _ fields, _ => find_map (search_inner fuel') visits (bt_values fields)
          | Value.Result (ROk w), _ => search_inner fuel' visits w
          | _, Some (k, l) =>
              if decide ((k, l) ∈ visits) then Ok (None, visits)
              else find_map (search_inner fuel') ((k, l) :: visits) (contents h k l)
          | _, None => Ok (None, visits)
          end
      end
  end.

Definition all_locs : list OpaqueValueVisit :=
  flat_map (fun k => (fun l => (k, l)) <$> seq 0 (length h))
    [CollectionKind.Array; CollectionKind.List; CollectionKind.Map; CollectionKind.Set_].

Definition search (v : Value) : res E (option A) :=
  let? (found, _) := search_inner (length all_locs * S (heap_depth h) + depth v + 2) [] v in Ok found.
End search.

Definition opaque_leaf (v : Value) : option string :=
  match v with
  | Value.DeferredHttpCredentials _ => Some "deferred HTTP credentials"
  | Value.SecretRef _ => Some "secret reference"
  | Value.SecureSessionAction _ => Some "secure session action"
  | _ => None
  end.

Definition deferred_leaf (v : Value) : option unit :=
  match v with Value.DeferredHttpCredentials _ => Some tt | _ => None end.

Definition opaque_value_kind {E : Type} (h : heap) (v : Value) : res E (option string) :=
  search h opaque_leaf v.

Definition contains_deferred_http_credential {E : Type} (h : heap) (v : Value) : res E bool :=
  let? found := search h deferred_leaf v in Ok (match found with Some _ => true | None => false end).

(** ** Reachability *)

Definition child (h : heap) (v w : Value) : Prop :=
  match v with
  | Value.Instance _ fields => w ∈ bt_values fields
  | Value.Result (ROk u) => w = u
  | _ => exists k l, collection_of v = Some (k, l) /\ w ∈ contents h k l
  end.

Inductive reach (h : heap) (v : Value) : Value -> Prop :=
  | reach_here : reach h v v
  | reach_child w u : reach h v w -> child h w u -> reach h v u.

Lemma reach_from h v w u : child h v w -> reach h w u -> reach h v u.
Proof. intros Hc Hr. induction Hr as [|x y _ IH Hxy]; econstructor; eauto using reach. Qed.

(** ** Proof *)

Section proof.
Context {E A : Type}.
Variables (h : heap) (leaf : Value -> option A).
Implicit Types (V : list OpaqueValueVisit).
Abbreviation search_inner := (search_inner (E:=E) h leaf).
Abbreviation find_map := (find_map (E:=E) (A:=A)).

Lemma search_found fuel V v a V' : search_inner fuel V v = Ok (Some a, V') ->
  exists w, reach h v w /\ leaf w = Some a.
Proof.
  revert V v V'. induction fuel as [|fuel IH]; intros V v V'; [done|].
  assert (forall vs V, find_map (search_inner fuel) V vs = Ok (Some a, V') ->
            exists v w, v ∈ vs /\ reach h v w /\ leaf w = Some a) as Hlist.
  { intros vs. induction vs as [|x vs IHvs]; intros W; simpl; [done|]. intros H. inv_ok. destruct x0 as [[a'|] W'].
    - simplify_eq. destruct (IH _ _ _ H0) as (w & ? & ?). exists x, w. split; [left|done].
    - destruct (IHvs _ H) as (y & w & ? & ?). exists y, w. split; [by right|done]. }
  cbn [Opaque.search_inner]. destruct (leaf v) as [a'|] eqn:Hl; [intros [= ->]; exists v; by split; [constructor|]|].
  destruct v as [| | | | |l|l|l|l| |c f| | | |[w|]| | | | |]; simpl; try done; repeat case_decide; try done.
  all: try (intros Hs; apply Hlist in Hs as (x & w & Hx & Hr & Hw); exists w; split; [|done];
            apply (reach_from h _ x); [|done]; simpl; eauto).
  intros H. apply IH in H as (w' & Hr & Hw). exists w'. split; [|done]. by eapply reach_from.
Qed.

(** The parts of [v] that are not behind a collection hold no leaf, and its
    collections are marked. *)
Definition clean V (v : Value) : Prop := forall w, In w (subvalues v) ->
  leaf w = None /\ forall k l, collection_of w = Some (k, l) -> (k, l) ∈ V.

(** The collections marked on the way from [V] to [V'] have been searched. *)
Definition closed V V' : Prop := forall k l, (k, l) ∈ V' -> (k, l) ∉ V -> Forall (clean V') (contents h k l).

Lemma clean_mono V V' v : V ⊆ V' -> clean V v -> clean V' v.
Proof. intros HV H w Hw. destruct (H w Hw) as [? Hc]. split; [done|]. intros. by apply HV, Hc. Qed.

Lemma closed_trans V1 V2 V3 : V2 ⊆ V3 -> closed V1 V2 -> closed V2 V3 -> closed V1 V3.
Proof.
  intros Hle H12 H23 k l Hin Hn. destruct (decide ((k, l) ∈ V2)) as [H2|H2]; [|by apply H23].
  eapply list.Forall_impl; [by apply H12|]. intros v. by apply clean_mono.
Qed.

Lemma find_map_none fuel : 
  (forall V v V', search_inner fuel V v = Ok (None, V') -> V ⊆ V' /\ clean V' v /\ closed V V') ->
  forall vs V V', find_map (search_inner fuel) V vs = Ok (None, V') ->
  V ⊆ V' /\ Forall (clean V') vs /\ closed V V'.
Proof.
  intros IH vs. induction vs as [|v vs IHvs]; intros V V'; simpl.
  - intros [= <-]. split; [done|]. split; [constructor|]. by intros k l ? ?.
  - intros H. inv_ok. destruct x as [[a|] V1]; [done|]. destruct (IH _ _ _ H0) as (Hle1 & Hc1 & Hcl1).
    destruct (IHvs _ _ H) as (Hle2 & Hc2 & Hcl2). split; [set_solver|]. split; [|by eapply closed_trans].
    constructor; [by eapply clean_mono|done].
Qed.

Lemma search_none fuel V v V' : search_inner fuel V v = Ok (None, V') ->
  V ⊆ V' /\ clean V' v /\ closed V V'.
Proof.
  revert V v V'. induction fuel as [|fuel IH]; intros V v V'; [done|].
  cbn [Opaque.search_inner]. destruct (leaf v) as [a'|] eqn:Hl; [done|].
  assert (forall k l, collection_of v = Some (k, l) -> subvalues v = [v] ->
    (if decide ((k, l) ∈ V) then Ok (None, V)
     else find_map (search_inner fuel) ((k, l) :: V) (contents h k l)) = Ok (None, V') ->
    V ⊆ V' /\ clean V' v /\ closed V V') as Hcoll.
  { intros k l Hk Hsub. case_decide as Hv.
    - intros [= <-]. split; [done|]. split; [|by intros ? ? ? ?]. unfold clean. rewrite Hsub. intros w [<-|[]]. naive_solver.
    - intros H. apply (find_map_none _ IH) in H as (Hle & Hf & Hcl). split; [set_solver|]. split.
      + unfold clean. rewrite Hsub. intros w [<-|[]]. split; [done|]. intros k' l' Hk'. simplify_eq. set_solver.
      + intros k' l' Hin Hn. destruct (decide ((k', l') = (k, l))) as [[= -> ->]|]; [done|]. apply Hcl; [done|set_solver]. }
  assert (subvalues v = [v] -> collection_of v = None -> Ok (None, V) = Ok (None, V') :> res E (option A * list OpaqueValueVisit) ->
    V ⊆ V' /\ clean V' v /\ closed V V') as Hleaf.
  { intros Hsub Hk [= <-]. split; [done|]. split; [|by intros ? ? ? ?]. unfold clean. rewrite Hsub. intros w [<-|[]]. naive_solver. }
  destruct v as [| | | | |l|l|l|l| |c f| | | |[w|]| | | | |]; try (by apply Hleaf); try (by apply Hcoll).
  - intros H. apply (find_map_none _ IH) in H as (Hle & Hf & Hcl). split; [done|]. split; [|done].
    intros w [<-|Hw]; [done|]. apply in_flat_map in Hw as (kv & Hkv & Hw).
    rewrite list.Forall_forall in Hf. eapply (Hf kv.2); [|done]. apply list_elem_of_In in Hkv.
    by apply (list_elem_of_fmap_2 snd).
  - intros H. apply IH in H as (Hle & Hc & Hcl). split; [done|]. split; [|done].
    intros u [<-|Hu]; [done|]. by apply Hc.
Qed.

(** A clean value over a closed set of collections reaches no leaf. *)
Lemma clean_child V v w : closed [] V -> clean V v -> child h v w -> clean V w.
Proof.
  intros Hcl Hc. assert (forall k l, collection_of v = Some (k, l) -> In v (subvalues v) -> w ∈ contents h k l -> clean V w) as Hk.
  { intros k l Hkl Hin Hw. apply Hc in Hin as [_ Hin]. specialize (Hcl k l (Hin k l Hkl) (not_elem_of_nil _)).
    rewrite list.Forall_forall in Hcl. by apply Hcl. }
  destruct v as [| | | | |l|l|l|l| |c f| | | |[u|]| | | | |]; simpl; intros Hch.
  all: try (destruct Hch as (k & l' & Hkl & Hw); eapply Hk; [exact Hkl|by left|exact Hw]).
  - intros u Hu. apply Hc. right. apply list_elem_of_fmap in Hch as (kv & -> & Hkv).
    apply in_flat_map. exists kv. split; [by apply list_elem_of_In|done].
  - subst. intros x Hx. apply Hc. by right.
Qed.

Lemma subvalues_here v : In v (subvalues v).
Proof. by destruct v as [| | | | | | | | | | | | | |[]| | | | |]; left. Qed.

Lemma clean_reach V v w : closed [] V -> clean V v -> reach h v w -> leaf w = None.
Proof.
  intros Hcl Hc Hr. assert (clean V w) as Hw; [|by destruct (Hw w (subvalues_here w))].
  induction Hr as [|x y _ IH Hxy]; [done|]. by eapply clean_child.
Qed.

(** *** Termination *)

Definition unmarked V : nat := length (left_out (all_locs h) V).

Lemma loc_in_all k l : l < length h -> (k, l) ∈ all_locs h.
Proof.
  intros Hl. unfold all_locs. apply list_elem_of_In, in_flat_map. exists k. split; [destruct k; simpl; tauto|].
  apply list_elem_of_In, list_elem_of_fmap. exists l. split; [done|apply elem_of_seq; lia].
Qed.

Lemma find_map_total fuel vs V :
  (forall v V', V ⊆ V' -> v ∈ vs -> exists r, search_inner fuel V' v = Ok r) ->
  exists r, find_map (search_inner fuel) V vs = Ok r.
Proof.
  revert V. induction vs as [|v vs IH]; intros V H; simpl; [by eexists|].
  destruct (H v V) as [[[a|] V'] Hv]; [done|left|..]; rewrite Hv; simpl; [by eexists|].
  apply search_none in Hv as (Hle & _). apply IH. intros w V'' Hle' Hw. apply H; [set_solver|by right].
Qed.

Lemma search_total fuel V v : unmarked V * S (heap_depth h) + depth v < fuel ->
  exists r, search_inner fuel V v = Ok r.
Proof.
  revert V v. induction fuel as [|fuel IH]; intros V v Hf; [lia|].
  cbn [Opaque.search_inner]. destruct (leaf v) as [a'|] eqn:Hl; [by eexists|].
  assert (forall k l, unmarked V * S (heap_depth h) < S fuel -> exists r,
    (if decide ((k, l) ∈ V) then Ok (None, V)
     else find_map (search_inner fuel) ((k, l) :: V) (contents h k l)) = Ok r) as Hcoll.
  { intros k l Hfuel. case_decide as Hv; [by eexists|]. apply find_map_total. intros w V' Hle Hw.
    destruct (decide (l < length h)) as [Hlt|Hge].
    - apply IH. apply contents_depth in Hw.
      pose proof (left_out_cons (all_locs h) V _ (loc_in_all k l Hlt) Hv) as H1.
      pose proof (left_out_mono (all_locs h) _ _ Hle) as H2.
      assert (S (unmarked V') * S (heap_depth h) <= unmarked V * S (heap_depth h)) as H3
        by (apply Nat.mul_le_mono_r; unfold unmarked; lia).
      rewrite Nat.mul_succ_l in H3. lia.
    - exfalso. unfold contents, snapshot, map_snapshot in Hw.
      destruct k; rewrite lookup_ge_None_2 in Hw by lia; by apply elem_of_nil in Hw. }
  destruct v as [| | | | |l|l|l|l| |c f| | | |[w|]| | | | |]; cbn [collection_of]; try (by eexists);
    try (apply Hcoll; simpl in Hf; lia).
  - apply find_map_total. intros w V' Hle Hw. apply IH. cbn [depth] in Hf.
    assert (depth w <= list_max ((fun kv => depth kv.2) <$> f)).
    { apply list_max_ge. unfold bt_values in Hw. apply list_elem_of_fmap in Hw as (kv & -> & Hkv).
      apply list_elem_of_fmap. by exists kv. }
    pose proof (left_out_mono (all_locs h) _ _ Hle). unfold unmarked in *. nia.
  - apply IH. simpl in Hf. lia.
Qed.

(** The search returns a leaf that is reachable, or there is none. *)
Lemma search_correct v : exists o, search (E:=E) h leaf v = Ok o /\
  match o with
  | Some a => exists w, reach h v w /\ leaf w = Some a
  | None => forall w, reach h v w -> leaf w = None
  end.
Proof.
  unfold search. destruct (search_total (length (all_locs h) * S (heap_depth h) + depth v + 2) [] v) as [[o V'] Hs].
  { assert (unmarked [] <= length (all_locs h)) by apply length_filter. nia. }
  rewrite Hs. exists o. split; [done|]. destruct o as [a|]; [by apply search_found in Hs|].
  apply search_none in Hs as (_ & Hc & Hcl). intros w. by apply clean_reach with V'.
Qed.
End proof.

(** ** Theorems *)

(** The search for opaque values terminates on every store, and reports
    no opaque value exactly when none is reachable from the value through
    instance fields, results and collections, however shared or cyclic; a kind
    it reports is that of a reachable opaque value. *)
Theorem opaque_value_kind_correct (E : Type) (h : heap) (v : Value) :
  exists o, opaque_value_kind (E:=E) h v = Ok o /\
  (o = None <-> forall w, reach h v w -> opaque_leaf w = None) /\
  (forall k, o = Some k -> exists w, reach h v w /\ opaque_leaf w = Some k /\ value_kind w = k).
Proof.
  destruct (search_correct (E:=E) h opaque_leaf v) as (o & Hs & Ho). exists o. split; [done|]. split.
  - destruct o as [a|]; [|done]. destruct Ho as (w & Hr & Hw). split; [done|]. intros H. by rewrite H in Hw.
  - intros k ->. destruct Ho as (w & Hr & Hw). exists w. split; [done|]. split; [done|]. by destruct w; simplify_eq/=.
Qed.

(** The credential search finds a deferred HTTP credential exactly when
    one is reachable. *)
Theorem contains_deferred_correct (E : Type) (h : heap) (v : Value) :
  exists b, contains_deferred_http_credential (E:=E) h v = Ok b /\
  (b = true <-> exists id, reach h v (Value.DeferredHttpCredentials id)).
Proof.
  unfold contains_deferred_http_credential. destruct (search_correct (E:=E) h deferred_leaf v) as (o & -> & Ho).
  simpl. eexists. split; [done|]. destruct o as [[]|].
  - destruct Ho as (w & Hr & Hw). split; [|done]. intros _. destruct w; simplify_eq/=. by eexists.
  - split; [done|]. intros [id Hr]. by apply Ho in Hr.
Qed.
