(* ===== verification/Json.v ===== *)
(** * Values and JSON

    [value_to_json] and [json_to_value] of [crates/ricochet_vm/src/builtins.rs],
    and the encoder of [crates/ricochet_web/src/value_json.rs].  A JSON value
    is the tree of the serde_json crate; its text is that crate's.  The
    encoders keep the collections they are inside of, and refuse to enter one
    of them again.  The proofs follow: which values have a JSON form, and that
    decoding is undone by encoding. *)

From stdpp Require Import base tactics list strings option numbers sets sorting.
From Stdlib Require Import ZArith NArith Lia Ascii String Sorted.
From S2P Require Import Prelude RustStr RustFloat Bytecode BTree Value ValueEq ValueEqProofs Opaque.

Open Scope string_scope.
Open Scope list_scope.
Open Scope nat_scope.

(** ** JSON values of serde_json *)

(** Integers are kept by sign, as [u64] and [i64]. *)
Inductive JsonNumber : Type :=
  | PosInt (n : N)
  | NegInt (z : Z)
  | JFloat (x : f64).

Local Set Warnings "-register-all".

Module JsonValue.
Inductive JsonValue : Type :=
  | Null
  | Bool (b : bool)
  | Number (n : JsonNumber)
  | String (s : string)
  | Array (l : list JsonValue)
  | Object (m : btree JsonValue).
End JsonValue.
Abbreviation JsonValue := JsonValue.JsonValue.

(** [Number::from(i64)] and [Number::from_f64]. *)
Definition number_of_i64 (z : Z) : JsonNumber := if (z <? 0)%Z then NegInt z else PosInt (Z.to_N z).
Definition number_of_f64 (x : f64) : option JsonNumber := if is_finite x then Some (JFloat x) else None.

Definition as_i64 (n : JsonNumber) : option Z :=
  match n with
  | PosInt n => if (Z.of_N n <=? i64_max)%Z then Some (Z.of_N n) else None
  | NegInt z => Some z
  | JFloat _ => None
  end.
Definition as_u64 (n : JsonNumber) : option N := match n with PosInt n => Some n | _ => None end.
Definition as_f64 (n : JsonNumber) : option f64 :=
  match n with PosInt n => Some (f64_of_Z (Z.of_N n)) | NegInt z => Some (f64_of_Z z) | JFloat x => Some x end.

(** [i64::try_from(u64)]. *)
Definition i64_of_u64 (n : N) : option Z := if (Z.of_N n <=? i64_max)%Z then Some (Z.of_N n) else None.

(** ** Encoding (builtins.rs) *)

Abbreviation JsonVisit := (prod CollectionKind loc).

Definition json_path (path : list string) : string :=
  match path with [] => "$" | _ => ("$" ++ String.concat "" path)%string end.

Definition enter_json_collection (visits : list JsonVisit) (visit : JsonVisit) (path : list string) : res string (list JsonVisit) :=
  if decide (visit ∈ visits) then Err ("cannot encode cyclic collection as JSON at " ++ json_path path)%string
  else Ok (visit :: visits).

Definition index_step (i : nat) : string := ("[" ++ show_N (N.of_nat i) ++ "]")%string.

Section loops.
Context {A B : Type}.

(** [for (index, value) in values.iter().enumerate() { output.push(..) }]. *)
Fixpoint encode_sequence (inner : nat -> A -> res B JsonValue) (i : nat) (values : list A) : res B (list JsonValue) :=
  match values with
  | [] => Ok []
  | v :: values' =>
      let? j := inner i v in
      let? js := encode_sequence inner (S i) values' in
      Ok (j :: js)
  end.

(** [for (key, value) in entries { output.insert(key, ..) }]. *)
Fixpoint encode_entries (inner : string -> A -> res B JsonValue) (entries : btree A) (output : btree JsonValue) : res B (btree JsonValue) :=
  match entries with
  | [] => Ok output
  | (key, v) :: entries' =>
      let? j := inner key v in
      encode_entries inner entries' (bt_insert key j output)
  end.
End loops.

Section encode.
Variable h : heap.

(** The path is the list of its steps, as the source's vector of strings. *)
Fixpoint value_to_json_inner (fuel : nat) (visits : list JsonVisit) (path : list string) (v : Value) : res string JsonValue :=
  match fuel with
  | O => OutOfFuel
  | S fuel' =>
      match v with
      | Value.Nil => Ok JsonValue.Null
      | Value.Bool b => Ok (JsonValue.Bool b)
      | Value.Number n => Ok (JsonValue.Number (number_of_i64 n))
      | Value.Float x =>
          match number_of_f64 x with
          | Some n => Ok (JsonValue.Number n)
          | None => Err "cannot encode non-finite float as JSON"
          end
      | Value.String s => Ok (JsonValue.String s)
      | Value.Array l =>
          let? visits := enter_json_collection visits (CollectionKind.Array, l) path in
          let? js := encode_sequence (fun i w => value_to_json_inner fuel' visits (path ++ [index_step i]) w) 0 (snapshot h l) in
          Ok (JsonValue.Array js)
      | Value.List l =>
          let? visits := enter_json_collection visits (CollectionKind.List, l) path in
          let? js := encode_sequence (fun i w => value_to_json_inner fuel' visits (path ++ [index_step i]) w) 0 (snapshot h l) in
          Ok (JsonValue.Array js)
      | Value.Set_ l =>
          let? visits := enter_json_collection visits (CollectionKind.Set_, l) path in
          let? js := encode_sequence (fun i w => value_to_json_inner fuel' visits (path ++ [index_step i]) w) 0 (snapshot h l) in
          Ok (JsonValue.Array js)
      | Value.Map l =>
          let? visits := enter_json_collection visits (CollectionKind.Map, l) path in
          let? m := encode_entries (fun key w => value_to_json_inner fuel' visits (path ++ ["." ++ key]%string) w) (map_snapshot h l) [] in
          Ok (JsonValue.Object m)
      | v => Err ("cannot encode " ++ value_kind v ++ " as JSON")%string
      end
  end.

(** A path enters each collection at most once. *)
Definition json_fuel : nat := length (all_locs h) + 2.

Definition value_to_json (v : Value) : res string JsonValue :=
  let? kind := opaque_value_kind h v in
  match kind with
  | Some _ => Err "cannot encode non-serializable value as JSON"
  | None => value_to_json_inner json_fuel [] [] v
  end.

End encode.

(** ** Encoding (value_json.rs) *)

Module SetMode.
Inductive SetMode : Type := Array | Reject.
End SetMode.
Abbreviation SetMode := SetMode.SetMode.

(** The errors end with the place, or with the [Debug] text of a value. *)
Module WebJsonError.
Inductive WebJsonError : Type :=
  | NotSerializable (root : string)
  | NonFinite (path : string)
  | Cyclic (path : string)
  | CannotEncode (v : Value) (path : string).
End WebJsonError.
Abbreviation WebJsonError := WebJsonError.WebJsonError.

Section web.
Variable h : heap.

Definition with_collection {A : Type} (visits : list JsonVisit) (visit : JsonVisit) (path : string)
    (serialize : list JsonVisit -> res WebJsonError A) : res WebJsonError A :=
  if decide (visit ∈ visits) then Err (WebJsonError.Cyclic path) else serialize (visit :: visits).

Definition sequence_to_json (inner : string -> Value -> res WebJsonError JsonValue) (path : string) (values : list Value)
    : res WebJsonError JsonValue :=
  let? js := encode_sequence (fun i v => inner (path ++ index_step i)%string v) 0 values in Ok (JsonValue.Array js).

Fixpoint web_value_to_json_inner (fuel : nat) (path : string) (set_mode : SetMode) (visits : list JsonVisit) (v : Value)
    : res WebJsonError JsonValue :=
  match fuel with
  | O => OutOfFuel
  | S fuel' =>
      let sequence l visits := sequence_to_json (fun path w => web_value_to_json_inner fuel' path set_mode visits w) path (snapshot h l) in
      match v with
      | Value.Nil => Ok JsonValue.Null
      | Value.Bool b => Ok (JsonValue.Bool b)
      | Value.Number n => Ok (JsonValue.Number (number_of_i64 n))
      | Value.Float x =>
          match number_of_f64 x with
          | Some n => Ok (JsonValue.Number n)
          | None => Err (WebJsonError.NonFinite path)
          end
      | Value.String s => Ok (JsonValue.String s)
      | Value.Array l => with_collection visits (CollectionKind.Array, l) path (sequence l)
      | Value.List l => with_collection visits (CollectionKind.List, l) path (sequence l)
      | Value.Set_ l =>
          match set_mode with
          | SetMode.Array => with_collection visits (CollectionKind.Set_, l) path (sequence l)
          | SetMode.Reject => Err (WebJsonError.CannotEncode v path)
          end
      | Value.Map l =>
          with_collection visits (CollectionKind.Map, l) path (fun visits =>
            let? m := encode_entries (fun key w => web_value_to_json_inner fuel' (path ++ "." ++ key)%string set_mode visits w)
                        (map_snapshot h l) [] in
            Ok (JsonValue.Object m))
      | v => Err (WebJsonError.CannotEncode v path)
      end
  end.

Definition web_value_to_json (v : Value) (root : string) (set_mode : SetMode) : res WebJsonError JsonValue :=
  let? kind := opaque_value_kind h v in
  match kind with
  | Some _ => Err (WebJsonError.NotSerializable root)
  | None => web_value_to_json_inner (json_fuel h) root set_mode [] v
  end.
End web.

(** ** Decoding *)

Definition number_to_value (n : JsonNumber) : Value :=
  match as_i64 n with
  | Some z => Value.Number z
  | None =>
      match (u ← as_u64 n; i64_of_u64 u) with
      | Some z => Value.Number z
      | None => match as_f64 n with Some x => Value.Float x | None => Value.Nil end
      end
  end.

(** The elements in order, then the collection that holds them. *)
Fixpoint json_to_value (j : JsonValue) (h : heap) : Value * heap :=
  match j with
  | JsonValue.Null => (Value.Nil, h)
  | JsonValue.Bool b => (Value.Bool b, h)
  | JsonValue.Number n => (number_to_value n, h)
  | JsonValue.String s => (Value.String s, h)
  | JsonValue.Array values =>
      let fix all (values : list JsonValue) (h : heap) : list Value * heap :=
        match values with
        | [] => ([], h)
        | j :: values' => let '(v, h) := json_to_value j h in let '(vs, h) := all values' h in (v :: vs, h)
        end in
      let '(vs, h) := all values h in
      let '(l, h) := alloc (CArray vs) h in (Value.Array l, h)
  | JsonValue.Object values =>
      let fix all (values : btree JsonValue) (m : btree Value) (h : heap) : btree Value * heap :=
        match values with
        | [] => (m, h)
        | (key, j) :: values' => let '(v, h) := json_to_value j h in all values' (bt_insert key v m) h
        end in
      let '(m, h) := all values [] h in
      let '(l, h) := alloc (CMap m) h in (Value.Map l, h)
  end.

(** Integers beyond [i64] become floats. *)
Example decodes_large : json_to_value (JsonValue.Number (PosInt 9223372036854775808)) []
  = (Value.Float (f64_of_Z 9223372036854775808), []).
Proof. vm_compute. reflexivity. Qed.

Example refuses_cycle :
  value_to_json [CArray [Value.Number 1; Value.Array 0]] (Value.Array 0)
  = Err "cannot encode cyclic collection as JSON at $[1]".
Proof. vm_compute. reflexivity. Qed.

(** * Encoding values as JSON, proved

    [encodes h v j]: [j] is the finite tree that [v] unfolds to in the store
    [h].  The encoder finds that tree whenever there is one, however much of it
    is shared, and stops with an error on everything else: cycles, secrets,
    floats without a JSON form and values that are not data. *)

(** ** The tree of a value *)

Local Set Warnings "-register-all".

Inductive encodes (h : heap) : Value -> JsonValue -> Prop :=
  | encodes_nil : encodes h Value.Nil JsonValue.Null
  | encodes_bool b : encodes h (Value.Bool b) (JsonValue.Bool b)
  | encodes_number n : encodes h (Value.Number n) (JsonValue.Number (number_of_i64 n))
  | encodes_float x : is_finite x = true -> encodes h (Value.Float x) (JsonValue.Number (JFloat x))
  | encodes_string s : encodes h (Value.String s) (JsonValue.String s)
  | encodes_sequence v k l js : collection_of v = Some (k, l) -> k <> CollectionKind.Map ->
      Forall2 (encodes h) (snapshot h l) js -> encodes h v (JsonValue.Array js)
  | encodes_map l m : Forall2 (fun e f => e.1 = f.1 /\ encodes h e.2 f.2) (map_snapshot h l) m ->
      encodes h (Value.Map l) (JsonValue.Object m).

(** The maps of a store list their entries by key. *)
Definition wf_maps (h : heap) : Prop := forall l m, h !! l = Some (CMap m) -> bt_wf m.

(** How deep collections nest. *)
Fixpoint height (j : JsonValue) : nat :=
  match j with
  | JsonValue.Array js => S (list_max (height <$> js))
  | JsonValue.Object m => S (list_max ((fun kv => height kv.2) <$> m))
  | _ => 0
  end.

Lemma height_element j js : j ∈ js -> height j < height (JsonValue.Array js).
Proof. intros H. apply le_n_S, list_max_ge, list_elem_of_fmap. by exists j. Qed.

Lemma height_entry (kv : string * JsonValue) m : kv ∈ m -> height kv.2 < height (JsonValue.Object m).
Proof. intros H. apply le_n_S, list_max_ge, list_elem_of_fmap. by exists kv. Qed.

Lemma Forall2_functional {A B} (R : A -> B -> Prop) xs ys zs :
  (forall x y z, y ∈ ys -> R x y -> R x z -> y = z) -> Forall2 R xs ys -> Forall2 R xs zs -> ys = zs.
Proof.
  intros HR Hy. revert zs. induction Hy as [|x y xs ys Hxy Hy IH]; intros zs Hz; inversion Hz as [|? z ? zs' Hxz Hzs]; subst; [done|].
  f_equal; [by eapply HR; [left| |]|]. apply IH; [|done]. intros ? ? ? ?. apply HR. by right.
Qed.

Lemma encodes_functional h v j1 j2 : encodes h v j1 -> encodes h v j2 -> j1 = j2.
Proof.
  remember (S (height j1)) as n eqn:Hn. assert (height j1 < n) as Hh by lia. clear Hn. revert v j1 j2 Hh.
  induction n as [|n IH]; intros v j1 j2 Hh H1 H2; [lia|].
  destruct H1 as [| | | | |v k l js Hv Hk Hjs|l m Hm]; inversion H2 as [| | | | |? k' l' js' Hv' Hk' Hjs'|l' m' Hm']; subst; simplify_eq/=; try done; f_equal.
  - eapply (Forall2_functional (encodes h)); [|done..]. intros x y z Hy Hxy. apply IH; [|done]. apply height_element in Hy. simpl in *. lia.
  - eapply (Forall2_functional (fun e f => e.1 = f.1 /\ encodes h e.2 f.2)); [|done..].
    intros [k x] [k1 y] [k2 z] Hy [Hk1 Hxy] [Hk2 Hxz]. simpl in *. subst. f_equal. apply (IH x); [|done..]. apply height_entry in Hy. simpl in *. lia.
Qed.

(** ** The loops *)

Section loops.
Context {A B : Type}.
Implicit Types (R : A -> JsonValue -> Prop).

Lemma encode_sequence_settles (inner : nat -> A -> res B JsonValue) R vs : forall i,
  (forall i v, v ∈ vs -> settles (inner i v) (R v)) -> settles (encode_sequence inner i vs) (fun js => Forall2 R vs js).
Proof.
  induction vs as [|v vs IH]; intros i Hi; [by constructor|]. cbn [encode_sequence].
  apply settles_bind. eapply settles_mono; [|apply Hi; left]. intros j Hj.
  apply settles_bind. eapply settles_mono; [|apply (IH (S i)); intros; apply Hi; by right]. intros js Hjs. by constructor.
Qed.

Lemma encode_sequence_complete (inner : nat -> A -> res B JsonValue) R vs js :
  Forall2 R vs js -> forall i, (forall i v j, v ∈ vs -> j ∈ js -> R v j -> inner i v = Ok j) -> encode_sequence inner i vs = Ok js.
Proof.
  intros HR. induction HR as [|v j vs js Hvj HR IH]; intros i Hi; [done|]. cbn [encode_sequence].
  rewrite (Hi i v j) by (done || left). simpl. rewrite IH; [done|]. intros. apply Hi; [by right..|done].
Qed.

Lemma bt_insert_last {C} k (c : C) m : Forall (fun k' => key_lt k' k) (bt_keys m) -> bt_insert k c m = m ++ [(k, c)].
Proof.
  induction m as [|[k' c'] m IH]; simpl; [done|]. intros [Hk Hm]%Forall_cons_1.
  rewrite String.compare_antisym, Hk. simpl. by rewrite IH.
Qed.

(** Entries in key order are inserted at the end. *)
Lemma encode_entries_settles (inner : string -> A -> res B JsonValue) R m : forall output,
  StronglySorted key_lt (bt_keys output ++ bt_keys m) -> (forall key v, (key, v) ∈ m -> settles (inner key v) (R v)) ->
  settles (encode_entries inner m output) (fun o => exists o', o = output ++ o' /\ Forall2 (fun e f => e.1 = f.1 /\ R e.2 f.2) m o').
Proof.
  induction m as [|[key v] m IH]; intros output Hs Hi; [exists []; by rewrite app_nil_r|]. cbn [encode_entries].
  apply settles_bind. eapply settles_mono; [|apply Hi; left]. intros j Hj. rewrite bt_insert_last.
  - eapply settles_mono; [|apply IH].
    + intros o (o' & -> & Ho'). exists ((key, j) :: o'). rewrite <- app_assoc. split; [done|]. by constructor.
    + unfold bt_keys in *. rewrite fmap_app, <- app_assoc. done.
    + intros. apply Hi. by right.
  - rewrite list.Forall_forall. intros k' Hk'. eapply StronglySorted_app_1_elem_of; [done|done|left].
Qed.

Lemma encode_entries_complete (inner : string -> A -> res B JsonValue) R m o :
  Forall2 (fun e f => e.1 = f.1 /\ R e.2 f.2) m o -> forall output,
  StronglySorted key_lt (bt_keys output ++ bt_keys m) ->
  (forall key v j, (key, v) ∈ m -> (key, j) ∈ o -> R v j -> inner key v = Ok j) -> encode_entries inner m output = Ok (output ++ o).
Proof.
  intros HR. induction HR as [|[key v] [key' j] m o [Hk Hvj] HR IH]; intros output Hs Hi; [by rewrite app_nil_r|]. simpl in Hk, Hvj. subst key'.
  cbn [encode_entries]. rewrite (Hi key v j) by (done || left). simpl. rewrite bt_insert_last.
  - rewrite IH, <- app_assoc; [done| |intros; apply Hi; [by right..|done]]. unfold bt_keys in *. rewrite fmap_app, <- app_assoc. done.
  - rewrite list.Forall_forall. intros k' Hk'. eapply StronglySorted_app_1_elem_of; [done|done|left].
Qed.
End loops.

(** ** The encoder *)

Section encoder.
Variable h : heap.
Hypothesis Hmaps : wf_maps h.

Abbreviation left V := (length (left_out (all_locs h) V)).

Lemma map_snapshot_wf l : bt_wf (map_snapshot h l).
Proof. unfold map_snapshot. destruct (h !! l) as [[]|] eqn:Hl; try by constructor. by eapply Hmaps. Qed.

(** Entering a collection that holds something leaves one fewer to enter. *)
Lemma left_enter (V : list JsonVisit) k l w : (k, l) ∉ V -> w ∈ contents h k l -> left ((k, l) :: V) < left V.
Proof.
  intros Hv Hw. destruct (decide (l < length h)) as [Hl|Hl]; [by apply left_out_cons; [apply loc_in_all|]|].
  exfalso. unfold contents, snapshot, map_snapshot in Hw. destruct k; rewrite lookup_ge_None_2 in Hw by lia; by apply elem_of_nil in Hw.
Qed.

(** The three kinds of sequence are encoded alike. *)
Lemma inner_sequence fuel V path v k l : collection_of v = Some (k, l) -> k <> CollectionKind.Map ->
  value_to_json_inner h (S fuel) V path v =
  (let? V := enter_json_collection V (k, l) path in
   let? js := encode_sequence (fun i w => value_to_json_inner h fuel V (path ++ [index_step i]) w) 0 (snapshot h l) in
   Ok (JsonValue.Array js)).
Proof. destruct v; intros [= <- <-] ?; done. Qed.

Lemma sequence_contents k l : k <> CollectionKind.Map -> contents h k l = snapshot h l.
Proof. by destruct k. Qed.

(** A result is the tree of the value; with fuel for the collections not yet
    entered there is a result or an error. *)
Lemma inner_settles fuel V path v : S (left V) < fuel -> settles (value_to_json_inner h fuel V path v) (encodes h v).
Proof.
  revert V path v. induction fuel as [|fuel IH]; intros V path v Hf; [lia|].
  assert (forall k l w V', enter_json_collection V (k, l) path = Ok V' -> w ∈ contents h k l -> S (left V') < fuel) as Henter.
  { intros k l w V' He Hw. unfold enter_json_collection in He. case_decide as Hv; [done|]. injection He as <-. apply (left_enter V k l w Hv) in Hw. lia. }
  assert (forall k l, collection_of v = Some (k, l) -> k <> CollectionKind.Map -> settles (value_to_json_inner h (S fuel) V path v) (encodes h v)) as Hseq.
  { intros k l Hv Hk. rewrite (inner_sequence _ _ _ _ k l) by done. destruct (enter_json_collection V (k, l) path) as [V'| | |] eqn:He; try done;
      [|unfold enter_json_collection in He; by case_decide..].
    simpl. apply settles_bind. eapply settles_mono; [|apply (encode_sequence_settles _ (encodes h))].
    - intros js Hjs. by eapply encodes_sequence.
    - intros i w Hw. apply IH. eapply Henter; [done|]. by rewrite sequence_contents. }
  destruct v; try done; try (by eapply Hseq); try (by constructor).
  - cbn [value_to_json_inner]. unfold number_of_f64. destruct (is_finite x) eqn:Hx; [by constructor|done].
  - cbn [value_to_json_inner]. destruct (enter_json_collection V _ path) as [V'| | |] eqn:He; try done;
      [|unfold enter_json_collection in He; by case_decide..].
    simpl. apply settles_bind. eapply settles_mono; [|apply (encode_entries_settles _ (encodes h))].
    + intros m (o' & -> & Hm). by apply encodes_map.
    + apply map_snapshot_wf.
    + intros key w Hw. apply IH. eapply (Henter _ _ w); [done|]. by apply (list_elem_of_fmap_2 snd) in Hw.
Qed.

(** The collections entered hold deeper trees. *)
Lemma inner_complete fuel V path v j : encodes h v j -> S (left V) < fuel ->
  (forall k l u j', (k, l) ∈ V -> collection_of u = Some (k, l) -> encodes h u j' -> height j < height j') ->
  value_to_json_inner h fuel V path v = Ok j.
Proof.
  revert V path v j. induction fuel as [|fuel IH]; intros V path v j Hj Hf HV; [lia|].
  assert (forall k l, collection_of v = Some (k, l) -> enter_json_collection V (k, l) path = Ok ((k, l) :: V) /\
    forall w j' path', w ∈ contents h k l -> encodes h w j' -> height j' < height j ->
    value_to_json_inner h fuel ((k, l) :: V) path' w = Ok j') as Henter.
  { intros k l Hv. assert ((k, l) ∉ V) as Hn by (intros Hin; specialize (HV k l v j Hin Hv Hj); lia).
    split; [unfold enter_json_collection; by rewrite decide_False|]. intros w j' path' Hw Hj' Hh.
    apply IH; [done|pose proof (left_enter V k l w Hn Hw); lia|]. intros k' l' u j'' Hin Hu Hj''.
    apply elem_of_cons in Hin as [[= -> ->]|Hin].
    - assert (u = v) as -> by (destruct u, v; simplify_eq/=; done). by rewrite (encodes_functional _ _ _ _ Hj'' Hj).
    - specialize (HV _ _ _ _ Hin Hu Hj''). lia. }
  destruct Hj as [| | |x Hx| |v k l js Hv Hk Hjs|l m Hm]; try done.
  - cbn [value_to_json_inner]. unfold number_of_f64. by rewrite Hx.
  - rewrite (inner_sequence _ _ _ _ k l) by done. destruct (Henter k l Hv) as [-> Hin]. simpl.
    rewrite (encode_sequence_complete _ (encodes h) _ js Hjs); [done|]. intros i w j' Hw Hj' Hwj.
    apply Hin; [by rewrite sequence_contents|done|by apply height_element].
  - destruct (Henter CollectionKind.Map l eq_refl) as [He Hin]. cbn [value_to_json_inner]. rewrite He. simpl.
    rewrite (encode_entries_complete _ (encodes h) _ m Hm); [done|apply map_snapshot_wf|]. intros key w j' Hw Hj' Hwj.
    apply Hin; [by apply (list_elem_of_fmap_2 snd) in Hw|done|by apply (height_entry (key, j'))].
Qed.

Lemma inner_exact path v : exists r, value_to_json_inner h (json_fuel h) [] path v = r /\ r <> OutOfFuel /\ r <> Panic /\
  forall j, r = Ok j <-> encodes h v j.
Proof.
  assert (S (left []) < json_fuel h) as Hf by (unfold json_fuel; pose proof (length_filter (fun x => x ∉ []) (all_locs h)); unfold left_out; lia).
  eexists. split; [done|]. pose proof (inner_settles (json_fuel h) [] path v Hf) as Hs.
  split; [intros Hr; by rewrite Hr in Hs|]. split; [intros Hr; by rewrite Hr in Hs|].
  intros j. split; [intros Hr; by rewrite Hr in Hs|]. intros Hj. apply inner_complete; [done..|]. intros k l u j' Hin. by apply elem_of_nil in Hin.
Qed.

(** What is reached from a value that has a tree has a tree, so is no secret. *)
Lemma encodes_child v w j : encodes h v j -> child h v w -> exists j', encodes h w j'.
Proof.
  intros Hj Hc. destruct Hj as [| | | | |v k l js Hv Hk Hjs|l m Hm];
    try (destruct Hc as (k & l' & Hv & _); done).
  - assert (w ∈ snapshot h l) as Hw by (destruct v; simplify_eq/=; destruct Hc as (k' & l' & ? & Hw); simplify_eq/=; done).
    apply list_elem_of_lookup in Hw as [i Hi]. destruct (Forall2_lookup_l _ _ _ _ _ Hjs Hi) as (j' & _ & Hj'). by exists j'.
  - destruct Hc as (k & l' & [= <- <-] & Hw). unfold contents, bt_values in Hw. apply list_elem_of_fmap in Hw as (kv & -> & Hw).
    apply list_elem_of_lookup in Hw as [i Hi]. destruct (Forall2_lookup_l _ _ _ _ _ Hm Hi) as (f & _ & _ & Hf). by exists f.2.
Qed.

Lemma encodes_reach v w j : encodes h v j -> reach h v w -> exists j', encodes h w j'.
Proof.
  intros Hj Hr. induction Hr as [|x y _ [j' IH] Hxy]; [by eexists|]. by eapply encodes_child.
Qed.

Lemma encodes_not_opaque (E : Type) v j : encodes h v j -> opaque_value_kind (E:=E) h v = Ok None.
Proof.
  intros Hj. unfold opaque_value_kind. destruct (search_correct (E:=E) h opaque_leaf v) as (o & -> & Ho).
  destruct o as [a|]; [|done]. destruct Ho as (w & Hr & Hw). destruct (encodes_reach v w j Hj Hr) as [j' Hj'].
  exfalso. destruct Hj'; try done. by destruct v0.
Qed.
End encoder.

(** ** The web's encoder *)

(** The second computation returns as the first, but may stop with an error of
    its own unless [P]. *)
Definition agree {E1 E2 A : Type} (P : Prop) (r1 : res E1 A) (r2 : res E2 A) : Prop :=
  match r1, r2 with
  | Ok a, Ok b => a = b
  | Err _, Err _ | Panic, Panic | OutOfFuel, OutOfFuel => True
  | _, Err _ => ~ P
  | _, _ => False
  end.

Section agree.
Context {E1 E2 : Type}.

Lemma agree_bind {A B : Type} P (r1 : res E1 A) (r2 : res E2 A) (k1 : A -> res E1 B) (k2 : A -> res E2 B) :
  agree P r1 r2 -> (forall a, agree P (k1 a) (k2 a)) -> agree P (rbind r1 k1) (rbind r2 k2).
Proof. destruct r1, r2; simpl; try done; [by intros ->|]. intros HP _. by destruct (k1 a). Qed.

Lemma agree_mono {A : Type} (P Q : Prop) (r1 : res E1 A) (r2 : res E2 A) : (Q -> P) -> agree P r1 r2 -> agree Q r1 r2.
Proof. intros HPQ. destruct r1, r2; simpl; tauto. Qed.

Lemma agree_Ok {A : Type} (P : Prop) (r1 : res E1 A) (r2 : res E2 A) a : P -> agree P r1 r2 -> r1 = Ok a <-> r2 = Ok a.
Proof. destruct r1, r2; simpl; naive_solver. Qed.

Lemma agree_fuel {A : Type} (P : Prop) (r1 : res E1 A) (r2 : res E2 A) : agree P r1 r2 -> r2 = OutOfFuel -> r1 = OutOfFuel.
Proof. destruct r1, r2; simpl; naive_solver. Qed.

Lemma encode_sequence_agree {A} P (f1 : nat -> A -> res E1 JsonValue) (f2 : nat -> A -> res E2 JsonValue) vs :
  (forall i v, v ∈ vs -> agree P (f1 i v) (f2 i v)) -> forall i, agree P (encode_sequence f1 i vs) (encode_sequence f2 i vs).
Proof.
  induction vs as [|v vs IH]; intros Hf i; [done|]. cbn [encode_sequence]. apply agree_bind; [apply Hf; left|]. intros j.
  apply agree_bind; [apply IH; intros; apply Hf; by right|done].
Qed.

Lemma encode_entries_agree {A} P (f1 : string -> A -> res E1 JsonValue) (f2 : string -> A -> res E2 JsonValue) m :
  (forall k v, (k, v) ∈ m -> agree P (f1 k v) (f2 k v)) -> forall o, agree P (encode_entries f1 m o) (encode_entries f2 m o).
Proof.
  induction m as [|[k v] m IH]; intros Hf o; [done|]. cbn [encode_entries]. apply agree_bind; [apply Hf; left|]. intros j.
  apply IH. intros. apply Hf. by right.
Qed.
End agree.

Definition is_set (v : Value) : bool := match v with Value.Set_ _ => true | _ => false end.

Section web.
Variable h : heap.

Lemma web_sequence fuel path mode V v k l : collection_of v = Some (k, l) -> k <> CollectionKind.Map ->
  mode = SetMode.Array \/ is_set v = false ->
  web_value_to_json_inner h (S fuel) path mode V v =
  with_collection V (k, l) path (fun V =>
    sequence_to_json (fun path w => web_value_to_json_inner h fuel path mode V w) path (snapshot h l)).
Proof. intros Hv Hk Hm. destruct v; simplify_eq/=; try done. by destruct Hm as [->|]. Qed.

(** The mode has a form for every set reachable from the value. *)
Definition sets_allowed (mode : SetMode) (v : Value) : Prop := mode = SetMode.Reject -> forall w, reach h v w -> is_set w = false.

Lemma sets_allowed_child mode v k l w : collection_of v = Some (k, l) -> w ∈ contents h k l -> sets_allowed mode v -> sets_allowed mode w.
Proof.
  intros Hv Hw Hs Hm u Hu. apply Hs; [done|]. eapply reach_from; [|done]. destruct v; simplify_eq/=; by eexists _, _.
Qed.

Lemma web_agrees fuel : forall V path path' mode v,
  agree (sets_allowed mode v) (value_to_json_inner h fuel V path v) (web_value_to_json_inner h fuel path' mode V v).
Proof.
  induction fuel as [|fuel IH]; intros V path path' mode v; [done|].
  assert ((mode = SetMode.Array \/ is_set v = false) \/ mode = SetMode.Reject /\ is_set v = true) as [Hm|[-> Hset]] by (destruct mode, (is_set v); tauto).
  2: { destruct v; try done. cbn [web_value_to_json_inner]. assert (~ sets_allowed SetMode.Reject (Value.Set_ l)) as Hn
         by (intros Ha; specialize (Ha eq_refl _ (reach_here _ _)); done). by destruct (value_to_json_inner h (S fuel) V path (Value.Set_ l)). }
  assert (forall k l, collection_of v = Some (k, l) -> k <> CollectionKind.Map ->
    agree (sets_allowed mode v) (value_to_json_inner h (S fuel) V path v) (web_value_to_json_inner h (S fuel) path' mode V v)) as Hseq.
  { intros k l Hv Hk. rewrite (inner_sequence _ _ _ _ _ k l), (web_sequence _ _ _ _ _ k l) by done.
    unfold enter_json_collection, with_collection. case_decide; [done|]. simpl. apply agree_bind; [|done].
    apply encode_sequence_agree. intros i w Hw. eapply agree_mono; [|apply IH]. apply (sets_allowed_child mode v k l); [done|].
    by rewrite sequence_contents. }
  destruct v; try done; try (by eapply Hseq).
  - cbn. by destruct (number_of_f64 x).
  - cbn [value_to_json_inner web_value_to_json_inner]. unfold enter_json_collection, with_collection. case_decide; [done|]. simpl.
    apply agree_bind; [|done]. apply encode_entries_agree. intros key w Hw. eapply agree_mono; [|apply IH].
    apply (sets_allowed_child mode _ CollectionKind.Map l); [done|]. by apply (list_elem_of_fmap_2 snd) in Hw.
Qed.

Lemma reach_cases v w : reach h v w -> w = v \/ exists u, child h v u /\ reach h u w.
Proof.
  induction 1 as [|x y Hx IH Hxy]; [by left|right]. destruct IH as [->|(u & Hu & Hux)].
  - exists y. split; [done|constructor].
  - exists u. split; [done|]. by econstructor.
Qed.

Lemma encode_sequence_each {A E : Type} (f : nat -> A -> res E JsonValue) vs v : v ∈ vs ->
  forall i js, encode_sequence f i vs = Ok js -> exists i j, f i v = Ok j.
Proof.
  induction 1 as [v vs|v v' vs _ IH]; intros i js; cbn [encode_sequence]; intros H; inv_ok; eauto.
Qed.

Lemma encode_entries_each {A E : Type} (f : string -> A -> res E JsonValue) m key v : (key, v) ∈ m ->
  forall o o', encode_entries f m o = Ok o' -> exists j, f key v = Ok j.
Proof.
  induction m as [|[key' v'] m IH]; [by intros ?%elem_of_nil|]. intros [[= -> ->]|Hin]%elem_of_cons o o'; cbn [encode_entries]; intros H; inv_ok; eauto.
Qed.

Lemma web_rejects_sets fuel : forall path V v j, web_value_to_json_inner h fuel path SetMode.Reject V v = Ok j ->
  forall w, reach h v w -> is_set w = false.
Proof.
  induction fuel as [|fuel IH]; intros path V v j Hj w Hw; [done|]. destruct (is_set v) eqn:Hset; [by destruct v|].
  apply reach_cases in Hw as [->|(u & Hu & Hw)]; [done|].
  assert (forall k l, collection_of v = Some (k, l) -> k <> CollectionKind.Map -> is_set w = false) as Hseq.
  { intros k l Hv Hk. rewrite (web_sequence _ _ _ _ _ k l) in Hj by auto. unfold with_collection, sequence_to_json in Hj. case_decide; [done|]. inv_ok.
    assert (u ∈ snapshot h l) as Hin by (destruct v; simplify_eq/=; destruct Hu as (k' & l' & ? & Hu); simplify_eq/=; done).
    destruct (encode_sequence_each _ _ _ Hin _ _ H0) as (i & j' & Hj'). by eapply IH. }
  destruct v; try done; try (by eapply Hseq); try (by destruct Hu as (? & ? & ? & ?)).
  destruct Hu as (k & l' & [= <- <-] & Hu). cbn [web_value_to_json_inner] in Hj. unfold with_collection in Hj. case_decide; [done|]. inv_ok.
  unfold contents, bt_values in Hu. apply list_elem_of_fmap in Hu as ([key u'] & -> & Hin).
  destruct (encode_entries_each _ _ _ _ Hin _ _ H0) as (j' & Hj'). by eapply IH.
Qed.
End web.

(** ** Decoding *)

Definition canonical_number (n : JsonNumber) : Prop :=
  match n with
  | PosInt n => (Z.of_N n <= i64_max)%Z
  | NegInt z => (z < 0)%Z
  | JFloat x => is_finite x = true
  end.

(** Integers in the range of [i64], floats that are finite, objects by key. *)
Fixpoint canonical (j : JsonValue) : Prop :=
  match j with
  | JsonValue.Number n => canonical_number n
  | JsonValue.Array js => fold_right (fun j P => canonical j /\ P) True js
  | JsonValue.Object m => bt_wf m /\ fold_right (fun kv P => canonical kv.2 /\ P) True m
  | _ => True
  end.

Definition decode_all : list JsonValue -> heap -> list Value * heap :=
  fix all (values : list JsonValue) (h : heap) : list Value * heap :=
    match values with
    | [] => ([], h)
    | j :: values' => let '(v, h) := json_to_value j h in let '(vs, h) := all values' h in (v :: vs, h)
    end.

Definition decode_entries : btree JsonValue -> btree Value -> heap -> btree Value * heap :=
  fix all (values : btree JsonValue) (m : btree Value) (h : heap) : btree Value * heap :=
    match values with
    | [] => (m, h)
    | (key, j) :: values' => let '(v, h) := json_to_value j h in all values' (bt_insert key v m) h
    end.

(** What a decoded value looks like in every later store. *)
Definition decodes (h : heap) (j : JsonValue) (v : Value) (h' : heap) : Prop :=
  (exists e, h' = h ++ e) /\ (wf_maps h -> wf_maps h') /\ forall e, encodes (h' ++ e) v j.

Lemma number_to_value_encodes n : canonical_number n -> forall h, encodes h (number_to_value n) (JsonValue.Number n).
Proof.
  intros Hn h. destruct n as [n|z|x]; cbn [canonical_number] in Hn; unfold number_to_value; cbn [as_i64].
  - rewrite (proj2 (Z.leb_le _ _) Hn). replace (PosInt n) with (number_of_i64 (Z.of_N n)); [constructor|].
    unfold number_of_i64. rewrite (proj2 (Z.ltb_ge _ _)) by lia. by rewrite N2Z.id.
  - replace (NegInt z) with (number_of_i64 z); [constructor|]. unfold number_of_i64. by rewrite (proj2 (Z.ltb_lt _ _)).
  - by constructor.
Qed.

Lemma decode_all_spec js : (forall j h, j ∈ js -> forall v h', json_to_value j h = (v, h') -> decodes h j v h') ->
  forall h vs h', decode_all js h = (vs, h') ->
  (exists e, h' = h ++ e) /\ (wf_maps h -> wf_maps h') /\ forall e, Forall2 (encodes (h' ++ e)) vs js.
Proof.
  induction js as [|j js IH]; intros Hj h vs h' Hd; [injection Hd as <- <-; split; [exists []; by rewrite app_nil_r|by repeat constructor]|].
  cbn [decode_all] in Hd. destruct (json_to_value j h) as [v h1] eqn:Hv. fold decode_all in Hd. destruct (decode_all js h1) as [vs1 h2] eqn:Hvs.
  injection Hd as <- <-. destruct (Hj j h ltac:(left) v h1 Hv) as ([e1 ->] & Hw1 & Henc).
  destruct (IH (fun j h H => Hj j h ltac:(by right)) _ _ _ Hvs) as ([e2 ->] & Hw2 & Hall). split; [exists (e1 ++ e2); by rewrite app_assoc|].
  split; [auto|]. intros e. constructor; [|done]. rewrite <- app_assoc. apply Henc.
Qed.

Lemma decode_entries_spec m : (forall k j h, (k, j) ∈ m -> forall v h', json_to_value j h = (v, h') -> decodes h j v h') ->
  forall o h m' h', StronglySorted key_lt (bt_keys o ++ bt_keys m) -> decode_entries m o h = (m', h') ->
  (exists e, h' = h ++ e) /\ (wf_maps h -> wf_maps h') /\
  exists m1, m' = o ++ m1 /\ forall e, Forall2 (fun x y => x.1 = y.1 /\ encodes (h' ++ e) x.2 y.2) m1 m.
Proof.
  induction m as [|[k j] m IH]; intros Hj o h m' h' Hs Hd.
  { injection Hd as <- <-. split; [exists []; by rewrite app_nil_r|]. split; [done|]. exists []. rewrite app_nil_r. by repeat constructor. }
  cbn [decode_entries] in Hd. destruct (json_to_value j h) as [v h1] eqn:Hv. fold decode_entries in Hd.
  rewrite bt_insert_last in Hd by (rewrite list.Forall_forall; intros k' Hk'; eapply StronglySorted_app_1_elem_of; [done|done|left]).
  destruct (Hj k j h ltac:(left) v h1 Hv) as ([e1 ->] & Hw1 & Henc).
  destruct (IH (fun k j h H => Hj k j h ltac:(by right)) (o ++ [(k, v)]) _ _ _ ltac:(unfold bt_keys in *; by rewrite fmap_app, <- app_assoc) Hd)
    as ([e2 ->] & Hw2 & m1 & -> & Hall).
  split; [exists (e1 ++ e2); by rewrite app_assoc|]. split; [auto|]. exists ((k, v) :: m1). split; [by rewrite <- app_assoc|].
  intros e. constructor; [|done]. split; [done|]. rewrite <- app_assoc. apply Henc.
Qed.

Lemma fold_right_In {A} (P : A -> Prop) l x : fold_right (fun x Q => P x /\ Q) True l -> x ∈ l -> P x.
Proof. induction l as [|y l IH]; [by intros _ ?%elem_of_nil|]. intros [Hy Hl] [->|Hin]%elem_of_cons; auto. Qed.

(** Allocating what was decoded. *)
Lemma lookup_fresh (h : heap) c e : ((h ++ [c]) ++ e) !! length h = Some c.
Proof. rewrite <- app_assoc. by apply list_lookup_middle. Qed.

Lemma wf_maps_alloc h c : wf_maps h -> (forall m, c = CMap m -> bt_wf m) -> wf_maps (h ++ [c]).
Proof. intros Hw Hc l m [Hl|[_ Hl]]%lookup_app_Some; [by eapply Hw|]. apply list_lookup_singleton_Some in Hl as [_ ->]. by apply Hc. Qed.

Lemma json_to_value_decodes j : canonical j -> forall h v h', json_to_value j h = (v, h') -> decodes h j v h'.
Proof.
  remember (S (height j)) as n eqn:Hn. assert (height j < n) as Hh by lia. clear Hn. revert j Hh.
  induction n as [|n IH]; intros j Hh Hc h v h' Hd; [lia|].
  destruct j as [|b|x|s|js|m]; try (injection Hd as <- <-; split; [exists []; by rewrite app_nil_r|]; split; [done|intros e; by constructor]).
  - injection Hd as <- <-. split; [exists []; by rewrite app_nil_r|]. split; [done|]. intros e. by apply number_to_value_encodes.
  - change (json_to_value (JsonValue.Array js) h) with
      (let '(vs, h) := decode_all js h in let '(l, h) := alloc (CArray vs) h in (Value.Array l, h)) in Hd.
    destruct (decode_all js h) as [vs h1] eqn:Hvs. injection Hd as <- <-. apply decode_all_spec in Hvs as ([e1 ->] & Hw & Henc).
    + split; [exists (e1 ++ [CArray vs]); by rewrite app_assoc|]. split; [intros; apply wf_maps_alloc; auto; discriminate|].
      intros e. eapply encodes_sequence; [done|done|]. unfold snapshot. rewrite lookup_fresh, <- app_assoc. apply Henc.
    + intros j h0 Hin. apply IH; [apply height_element in Hin; lia|]. by eapply (fold_right_In canonical).
  - change (json_to_value (JsonValue.Object m) h) with
      (let '(m, h) := decode_entries m [] h in let '(l, h) := alloc (CMap m) h in (Value.Map l, h)) in Hd.
    destruct (decode_entries m [] h) as [m' h1] eqn:Hm. injection Hd as <- <-. destruct Hc as [Hs Hc].
    apply decode_entries_spec in Hm as ([e1 ->] & Hw & m1 & -> & Henc).
    + split; [exists (e1 ++ [CMap m1]); by rewrite app_assoc|]. split.
      * intros Hh'. apply wf_maps_alloc; [auto|]. intros m2 [= <-]. unfold bt_wf. replace (bt_keys m1) with (bt_keys m); [done|].
        specialize (Henc []). clear - Henc. induction Henc as [|[k1 x] [k2 y] ? ? [Hk _] _ IH]; [done|]. unfold bt_keys in *. simpl in *. by subst; f_equal.
      * intros e. apply encodes_map. unfold map_snapshot. rewrite lookup_fresh, <- app_assoc. apply Henc.
    + intros k j h0 Hin. apply IH; [apply height_entry in Hin; simpl in *; lia|]. by apply (fold_right_In (fun kv => canonical kv.2) _ _ Hc) in Hin.
    + done.
Qed.

(** ** Theorems *)

(** C31: encoding as JSON always returns, and succeeds with [j] exactly when the
    value unfolds to the finite tree [j] through arrays, lists, sets and maps:
    collections may be shared without limit, while a cycle, an opaque value or
    a value that is not data anywhere inside makes it an error. *)
Theorem value_to_json_exact (h : heap) (v : Value) (Hmaps : wf_maps h) :
  exists r, value_to_json h v = r /\ r <> OutOfFuel /\ r <> Panic /\ forall j, r = Ok j <-> encodes h v j.
Proof.
  unfold value_to_json. destruct (opaque_value_kind (E:=string) h v) as [o| | |] eqn:Ho;
    try (unfold opaque_value_kind in Ho; destruct (search_correct (E:=string) h opaque_leaf v) as (? & Hs & _); congruence).
  simpl. destruct o as [k|]; [|by apply inner_exact].
  eexists. split; [done|]. split; [done|]. split; [done|]. intros j. split; [done|]. intros Hj.
  rewrite (encodes_not_opaque h string v j Hj) in Ho. done.
Qed.

(** The web's encoder produces the same JSON from the same values, in the
    mode for sessions, which rejects sets, exactly when no set is reachable. *)
Theorem web_value_to_json_agrees (h : heap) (v : Value) (root : string) (set_mode : SetMode) (Hmaps : wf_maps h) :
  web_value_to_json h v root set_mode <> OutOfFuel /\ forall j,
  web_value_to_json h v root set_mode = Ok j <->
  value_to_json h v = Ok j /\ (set_mode = SetMode.Reject -> forall w, reach h v w -> is_set w = false).
Proof.
  unfold web_value_to_json, value_to_json.
  assert (opaque_value_kind (E:=WebJsonError) h v = Ok None /\ opaque_value_kind (E:=string) h v = Ok None \/
    exists k k', opaque_value_kind (E:=WebJsonError) h v = Ok (Some k) /\ opaque_value_kind (E:=string) h v = Ok (Some k')) as [[-> ->]|(k & k' & -> & ->)].
  { unfold opaque_value_kind. destruct (search_correct (E:=WebJsonError) h opaque_leaf v) as (o & -> & Ho).
    destruct (search_correct (E:=string) h opaque_leaf v) as (o' & -> & Ho'). destruct o as [k|], o' as [k'|]; eauto; exfalso.
    - destruct Ho as (w & Hr & Hw). by rewrite Ho' in Hw.
    - destruct Ho' as (w & Hr & Hw). by rewrite Ho in Hw. }
  2: { simpl. split; [done|]. intros j. naive_solver. }
  simpl. destruct (inner_exact h Hmaps [] v) as (r & Hr & Hf & _).
  pose proof (web_agrees h (json_fuel h) [] [] root set_mode v) as Ha. rewrite Hr in Ha |- *. split; [intros Hw; by apply Hf, (agree_fuel _ _ _ Ha)|].
  intros j. split.
  - intros Hj. assert (sets_allowed h set_mode v) as Hs by (intros ->; by eapply web_rejects_sets). split; [|done]. by apply (agree_Ok _ _ _ j Hs Ha).
  - intros [Hj Hs]. by apply (agree_Ok _ _ _ j Hs Ha).
Qed.

(** Decoding JSON with integers in range and finite floats into fresh
    collections, then encoding the value, gives the JSON back. *)
Theorem json_roundtrip (h : heap) (j : JsonValue) (Hmaps : wf_maps h) (Hj : canonical j) :
  let '(v, h') := json_to_value j h in (exists e, h' = h ++ e) /\ wf_maps h' /\ value_to_json h' v = Ok j.
Proof.
  destruct (json_to_value j h) as [v h'] eqn:Hd. destruct (json_to_value_decodes j Hj h v h' Hd) as (He & Hw & Henc).
  split; [done|]. split; [auto|]. specialize (Henc []). rewrite app_nil_r in Henc. unfold value_to_json.
  rewrite (encodes_not_opaque h' string v j Henc). simpl. destruct (inner_exact h' (Hw Hmaps) [] v) as (r & <- & _ & _ & Hr). by apply Hr.
Qed.

(** ** Witnesses *)

Lemma wf_maps_each h : Forall (fun c => match c with CMap m => bt_wf m | _ => True end) h -> wf_maps h.
Proof. intros Hf l m Hl. by apply (list.Forall_lookup_1 _ _ _ _ Hf) in Hl. Qed.

(** A child shared by both entries of a map, and an array that holds itself. *)
Definition sharing : heap :=
  [CArray [Value.Number 7; Value.Set_ 3]; CMap [("left", Value.Array 0); ("right", Value.Array 0)];
   CList [Value.List 2]; CSet [Value.Bool true]].

Lemma sharing_wf : wf_maps sharing.
Proof. apply wf_maps_each. repeat constructor. Qed.

Example value_to_json_exact_witness :
  wf_maps sharing /\
  let shared := JsonValue.Array [JsonValue.Number (PosInt 7); JsonValue.Array [JsonValue.Bool true]] in
  encodes sharing (Value.Map 1) (JsonValue.Object [("left", shared); ("right", shared)]) /\
  ~ exists j, encodes sharing (Value.List 2) j.
Proof.
  split; [exact sharing_wf|]. split.
  - destruct (value_to_json_exact sharing (Value.Map 1) sharing_wf) as (r & Hr & _ & _ & Hj). apply Hj. rewrite <- Hr. vm_compute. reflexivity.
  - destruct (value_to_json_exact sharing (Value.List 2) sharing_wf) as (r & Hr & _ & _ & Hj). intros [j Hc]. apply Hj in Hc. rewrite <- Hr in Hc.
    vm_compute in Hc. discriminate.
Defined.

Example web_value_to_json_agrees_witness :
  wf_maps sharing /\
  (exists j, value_to_json sharing (Value.Map 1) = Ok j /\ web_value_to_json sharing (Value.Map 1) "$" SetMode.Array = Ok j) /\
  ~ (exists j, web_value_to_json sharing (Value.Map 1) "$.session" SetMode.Reject = Ok j).
Proof.
  split; [exact sharing_wf|]. split.
  - eexists. split; [vm_compute; reflexivity|]. apply (web_value_to_json_agrees sharing (Value.Map 1) "$" SetMode.Array sharing_wf).
    split; [vm_compute; reflexivity|discriminate].
  - intros [j Hj]. apply (web_value_to_json_agrees sharing (Value.Map 1) "$.session" SetMode.Reject sharing_wf) in Hj as [_ Hs].
    specialize (Hs eq_refl (Value.Set_ 3)). discriminate Hs. eapply reach_child; [eapply reach_child; [apply reach_here|]|].
    + exists CollectionKind.Map, 1. split; [reflexivity|]. left.
    + exists CollectionKind.Array, 0. split; [reflexivity|]. right. left.
Defined.

Example json_roundtrip_witness :
  let j := JsonValue.Object [("a", JsonValue.Array [JsonValue.Number (PosInt 1); JsonValue.Null]); ("b", JsonValue.Object [])] in
  canonical j /\ (let '(v, h') := json_to_value j sharing in v = Value.Map 6 /\ value_to_json h' v = Ok j).
Proof.
  set (j := JsonValue.Object _). assert (canonical j) as Hj by (simpl; repeat split; repeat constructor; unfold i64_max; lia).
  split; [exact Hj|]. pose proof (json_roundtrip sharing j sharing_wf Hj) as H. revert H. cbn. intros (_ & _ & H). split; [reflexivity|exact H].
Defined.
