(* ===== verification/VmState.v ===== *)
(** * The virtual machine: errors, classes, state

    [Vm], [VmError] and the class model of [crates/ricochet_vm/src/vm.rs] and
    [class.rs].  A Rust method on [&mut self] that returns [Result<A, VmError>]
    is a function from the machine to an outcome that keeps the machine also
    when it fails: callers inspect and restore the stack after an error.

    The top of the stack, of the local frames and of the self stack is the
    head of the list.  Host facilities (files, HTTP, processes, sockets,
    terminals, debugging hooks, tasks) are not part of this state; [config]
    holds the fields no modelled operation changes. *)

From stdpp Require Import base tactics list strings option numbers.
From Stdlib Require Import ZArith NArith Lia Ascii String.
From S2P Require Import Prelude RustStr RustFloat Bytecode BTree Value.

Open Scope string_scope.
Open Scope list_scope.
Open Scope nat_scope.

(** Text that may embed the [Debug] form of a value, which is not rendered. *)
Inductive Text : Type :=
  | Plain (s : string)
  | DebugValue (v : Value)
  | DebugResult (r : RicochetResult Value).

Module VmError.
Inductive VmError : Type :=
  | StackUnderflow (word : string) (needed available : nat)
  | UnknownWord (word : string)
  | UnsupportedOpcode (o : Op)
  | ArithmeticOverflow (word : string)
  | DivisionByZero (word : string)
  | IndexOutOfBounds (word : string) (index length : N)
  | InvalidArgument (word message : string)
  | HostError (word message : string)
  | ExitRequested (code : Z)
  | TypeError (word expected actual : string)
  | NoCurrentClass (word : string)
  | UnknownClass (name : string)
  | UnknownMethod (class_name method : string)
  | InheritanceCycle (name : string)
  | InvalidBlock (index : N) (available : nat)
  | NoCurrentSelf (word : string)
  | UnknownVariable (name : string)
  | UncheckedResultCondition
  | ResultUnwrap (word expected actual : string)
  | InvalidJump (target : N) (available : nat)
  | AssertionFailed (expected actual : Text)
  | ExecutionAborted (frame location : string)
  | InstructionLimitExceeded (used limit : N)
  | UnknownTask (id : N).
End VmError.
Abbreviation VmError := VmError.VmError.

Record RuntimeErrorSite : Type := mkSite { site_frame : string; site_span : SourceSpan; site_op : Op }.

(** ** Classes *)

Record BytecodeCallable : Type := mkCallable { callable_chunk : Chunk; callable_args : option ArgsSpec }.

(** The native methods the machine itself installs: the accessors of
    [add_accessor].  Those of an embedding host are not modelled. *)
Inductive NativeMethod : Type :=
  | Getter (field : string)
  | Setter (field : string).

Definition native_input_count (m : NativeMethod) : nat := match m with Getter _ => 0 | Setter _ => 1 end.

Record Class : Type := mkClassRec {
  cls_name : string; superclass : string; table_name : option string; cls_fields : list string;
  native_methods : btree NativeMethod; bytecode_methods : btree BytecodeCallable; revision : N }.

Definition new_class (name super : string) : Class := mkClassRec name super None [] [] [] 0.

Definition class_add_field (name : string) (c : Class) : Class :=
  if existsb (String.eqb name) (cls_fields c) then c
  else mkClassRec (cls_name c) (superclass c) (table_name c) (cls_fields c ++ [name])
         (native_methods c) (bytecode_methods c) (revision c + 1).

Definition class_set_table (name : string) (c : Class) : Class :=
  mkClassRec (cls_name c) (superclass c) (Some name) (cls_fields c)
    (native_methods c) (bytecode_methods c) (revision c + 1).

Definition class_set_superclass (super : string) (c : Class) : Class :=
  mkClassRec (cls_name c) super (table_name c) (cls_fields c) (native_methods c) (bytecode_methods c) (revision c).

Definition class_add_native_method (name : string) (m : NativeMethod) (c : Class) : Class :=
  mkClassRec (cls_name c) (superclass c) (table_name c) (cls_fields c)
    (bt_insert name m (native_methods c)) (bt_remove name (bytecode_methods c)) (revision c + 1).

Definition class_add_bytecode_method (name : string) (method : Chunk) (args : option ArgsSpec) (c : Class) : Class :=
  mkClassRec (cls_name c) (superclass c) (table_name c) (cls_fields c)
    (bt_remove name (native_methods c)) (bt_insert name (mkCallable method args) (bytecode_methods c)) (revision c + 1).

(** ** The machine *)

Module StrictnessDiagnostic.
Inductive StrictnessDiagnosticKind : Type := UnknownQuestionWordFallback | NilProducingLookup.
End StrictnessDiagnostic.

Record StrictnessDiagnostic : Type := mkDiagnostic {
  diag_kind : StrictnessDiagnostic.StrictnessDiagnosticKind; diag_message : msg }.

Record Config : Type := mkConfig {
  instruction_limit : option N;
  warn_unknown_question_word_fallback : bool; warn_nil_producing_lookup : bool;
  filesystem_enabled : bool; http_enabled : bool; process_enabled : bool;
  terminal_enabled : bool; webview_enabled : bool }.

Record Vm : Type := mkVm {
  stack : list Value; variables : btree Value; local_variables : list (btree Value);
  last_call_variables : btree Value; functions : btree BytecodeCallable; classes : btree Class;
  current_class : option string; self_stack : list Value;
  output_lines : list Text; stdout : list Text;
  instructions_executed : N; last_error_site : option RuntimeErrorSite;
  strictness_diagnostics : list StrictnessDiagnostic;
  store : heap; config : Config }.

Definition default_config : Config := mkConfig None false false false false false false false.
Definition default_vm : Vm := mkVm [] [] [] [] [] [] None [] [] [] 0 None [] [] default_config.

Definition set_stack (x : list Value) (s : Vm) : Vm :=
  mkVm x (variables s) (local_variables s) (last_call_variables s) (functions s) (classes s) (current_class s)
    (self_stack s) (output_lines s) (stdout s) (instructions_executed s) (last_error_site s)
    (strictness_diagnostics s) (store s) (config s).
Definition set_scopes (g : btree Value) (l : list (btree Value)) (s : Vm) : Vm :=
  mkVm (stack s) g l (last_call_variables s) (functions s) (classes s) (current_class s)
    (self_stack s) (output_lines s) (stdout s) (instructions_executed s) (last_error_site s)
    (strictness_diagnostics s) (store s) (config s).
Definition set_last_call_variables (x : btree Value) (s : Vm) : Vm :=
  mkVm (stack s) (variables s) (local_variables s) x (functions s) (classes s) (current_class s)
    (self_stack s) (output_lines s) (stdout s) (instructions_executed s) (last_error_site s)
    (strictness_diagnostics s) (store s) (config s).
Definition set_functions (x : btree BytecodeCallable) (s : Vm) : Vm :=
  mkVm (stack s) (variables s) (local_variables s) (last_call_variables s) x (classes s) (current_class s)
    (self_stack s) (output_lines s) (stdout s) (instructions_executed s) (last_error_site s)
    (strictness_diagnostics s) (store s) (config s).
Definition set_classes (x : btree Class) (s : Vm) : Vm :=
  mkVm (stack s) (variables s) (local_variables s) (last_call_variables s) (functions s) x (current_class s)
    (self_stack s) (output_lines s) (stdout s) (instructions_executed s) (last_error_site s)
    (strictness_diagnostics s) (store s) (config s).
Definition set_current_class (x : option string) (s : Vm) : Vm :=
  mkVm (stack s) (variables s) (local_variables s) (last_call_variables s) (functions s) (classes s) x
    (self_stack s) (output_lines s) (stdout s) (instructions_executed s) (last_error_site s)
    (strictness_diagnostics s) (store s) (config s).
Definition set_self_stack (x : list Value) (s : Vm) : Vm :=
  mkVm (stack s) (variables s) (local_variables s) (last_call_variables s) (functions s) (classes s) (current_class s)
    x (output_lines s) (stdout s) (instructions_executed s) (last_error_site s)
    (strictness_diagnostics s) (store s) (config s).
Definition set_output (lines out : list Text) (s : Vm) : Vm :=
  mkVm (stack s) (variables s) (local_variables s) (last_call_variables s) (functions s) (classes s) (current_class s)
    (self_stack s) lines out (instructions_executed s) (last_error_site s)
    (strictness_diagnostics s) (store s) (config s).
Definition set_instructions_executed (x : N) (s : Vm) : Vm :=
  mkVm (stack s) (variables s) (local_variables s) (last_call_variables s) (functions s) (classes s) (current_class s)
    (self_stack s) (output_lines s) (stdout s) x (last_error_site s)
    (strictness_diagnostics s) (store s) (config s).
Definition set_last_error_site (x : option RuntimeErrorSite) (s : Vm) : Vm :=
  mkVm (stack s) (variables s) (local_variables s) (last_call_variables s) (functions s) (classes s) (current_class s)
    (self_stack s) (output_lines s) (stdout s) (instructions_executed s) x
    (strictness_diagnostics s) (store s) (config s).
Definition set_diagnostics (x : list StrictnessDiagnostic) (s : Vm) : Vm :=
  mkVm (stack s) (variables s) (local_variables s) (last_call_variables s) (functions s) (classes s) (current_class s)
    (self_stack s) (output_lines s) (stdout s) (instructions_executed s) (last_error_site s)
    x (store s) (config s).
Definition set_store (x : heap) (s : Vm) : Vm :=
  mkVm (stack s) (variables s) (local_variables s) (last_call_variables s) (functions s) (classes s) (current_class s)
    (self_stack s) (output_lines s) (stdout s) (instructions_executed s) (last_error_site s)
    (strictness_diagnostics s) x (config s).

(** ** Outcomes *)

Inductive out (A : Type) : Type :=
  | Val (a : A) (s : Vm)
  | Exn (e : VmError) (s : Vm)
  | Crash
  | NoFuel.
Arguments Val {A} a s.
Arguments Exn {A} e s.
Arguments Crash {A}.
Arguments NoFuel {A}.

Definition VM (A : Type) : Type := Vm -> out A.

Definition vret {A} (a : A) : VM A := fun s => Val a s.
Definition vfail {A} (e : VmError) : VM A := fun s => Exn e s.
Definition vcrash {A} : VM A := fun _ => Crash.
Definition vbind {A B} (m : VM A) (k : A -> VM B) : VM B := fun s =>
  match m s with
  | Val a s' => k a s'
  | Exn e s' => Exn e s'
  | Crash => Crash
  | NoFuel => NoFuel
  end.
Definition vget : VM Vm := fun s => Val s s.
Definition vmodify (f : Vm -> Vm) : VM unit := fun s => Val tt (f s).
(** A pure computation on the machine. *)
Definition vlift {A} (r : res VmError A) : VM A := fun s =>
  match r with Ok a => Val a s | Err e => Exn e s | Panic => Crash | OutOfFuel => NoFuel end.
(** [match m { Ok(a) => Ok(a), Err(error) => { f(self); Err(error) } }]. *)
Definition on_err {A} (m : VM A) (f : Vm -> Vm) : VM A := fun s =>
  match m s with Exn e s' => Exn e (f s') | r => r end.
(** The outcome of [m] as a value. *)
Definition vtry {A} (m : VM A) : VM (res VmError A) := fun s =>
  match m s with
  | Val a s' => Val (Ok a) s'
  | Exn e s' => Val (Err e) s'
  | Crash => Crash
  | NoFuel => NoFuel
  end.

Declare Scope vm_scope.
Delimit Scope vm_scope with vm.
Open Scope vm_scope.
Notation "'let!' x := m 'in' k" := (vbind m (fun x => k))
  (at level 10, x pattern, m at level 100, k at level 200) : vm_scope.
Notation "m ;;! k" := (vbind m (fun _ => k)) (at level 100, k at level 200, right associativity) : vm_scope.

(** ** The stack *)

Definition push_value (v : Value) : VM unit := vmodify (fun s => set_stack (v :: stack s) s).

Definition restore_stack (before : list Value) : Vm -> Vm := set_stack before.

Definition ensure_stack (word : string) (needed : nat) : VM unit := fun s =>
  if length (stack s) <? needed then Exn (VmError.StackUnderflow word needed (length (stack s))) s else Val tt s.

Definition pop (word : string) : VM Value := fun s =>
  match stack s with
  | v :: st => Val v (set_stack st s)
  | [] => Exn (VmError.StackUnderflow word 1 0) s
  end.

(** Panics on an empty stack. *)
Definition pop_unchecked : VM Value := fun s =>
  match stack s with
  | v :: st => Val v (set_stack st s)
  | [] => Crash
  end.

Definition type_error (word expected : string) (v : Value) : VmError :=
  VmError.TypeError word expected (value_kind v).

(** [self.stack = stack_before; return Err(error)]. *)
Definition fail_restoring {A} (before : list Value) (e : VmError) : VM A := fun s => Exn e (set_stack before s).

Definition pop_string (word expected : string) : VM string :=
  let! v := pop word in
  match v with Value.String s => vret s | v => vfail (type_error word expected v) end.

Definition pop_number (word : string) : VM Z :=
  let! v := pop word in
  match v with Value.Number n => vret n | v => vfail (type_error word "number" v) end.

Definition pop_block (word : string) : VM Chunk :=
  let! v := pop word in
  match v with Value.Block c => vret c | v => vfail (type_error word "block" v) end.

(** An [i64] that is not negative always fits [usize] on a 64-bit target. *)
Definition pop_index (word : string) : VM N :=
  let! v := pop word in
  match v with
  | Value.Number n =>
      if (0 <=? n)%Z then vret (Z.to_N n)
      else vfail (VmError.InvalidArgument word ("index cannot be negative: " ++ show_Z n))
  | v => vfail (type_error word "non-negative index" v)
  end.

Definition pop_number_or_restore (word : string) (before : list Value) : VM Z :=
  on_err (pop_number word) (restore_stack before).

(** Record a lookup that produced nil, when asked to. *)
Definition record_nil_producing_lookup (m : msg) : VM unit := vmodify (fun s =>
  if warn_nil_producing_lookup (config s)
  then set_diagnostics (strictness_diagnostics s ++
         [mkDiagnostic StrictnessDiagnostic.NilProducingLookup m]) s
  else s).

Definition record_unknown_question_word_fallback (word : string) : VM unit := vmodify (fun s =>
  if warn_unknown_question_word_fallback (config s)
  then set_diagnostics (strictness_diagnostics s ++
         [mkDiagnostic StrictnessDiagnostic.UnknownQuestionWordFallback
            [Disp word; Lit " fell back to generic predicate dispatch"]]) s
  else s).

(** A fresh collection. *)
Definition new_cell (c : Cell) : VM loc := fun s =>
  let '(l, h) := alloc c (store s) in Val l (set_store h s).
Definition new_array (vs : list Value) : VM Value := let! l := new_cell (CArray vs) in vret (Value.Array l).
Definition new_list (vs : list Value) : VM Value := let! l := new_cell (CList vs) in vret (Value.List l).
Definition new_map (m : btree Value) : VM Value := let! l := new_cell (CMap m) in vret (Value.Map l).
Definition write_cell (l : loc) (c : Cell) : VM unit := vmodify (fun s => set_store (<[l := c]> (store s)) s).
