(* ===== verification/Numeric.v ===== *)
(** * Numbers

    The numeric core of the machine: [NumericValue] and the arithmetic of
    [crates/ricochet_vm/src/vm.rs] and [builtins.rs].  Integers are [i64] with
    checked operations; a mixed operation promotes to [f64] and fails rather
    than produce an infinity or a NaN; comparisons between an integer and a
    float are exact, without rounding the integer. *)

From stdpp Require Import base tactics list strings option numbers.
From Stdlib Require Import ZArith NArith Lia Ascii String SpecFloat.
From S2P Require Import Prelude RustStr RustFloat Bytecode BTree Value VmState.

Open Scope list_scope.
Open Scope nat_scope.
Open Scope string_scope.

Module NumericValue.
Inductive NumericValue : Type := Integer (n : Z) | Float (x : f64).
End NumericValue.
Abbreviation NumericValue := NumericValue.NumericValue.

Definition as_f64 (v : NumericValue) : f64 :=
  match v with NumericValue.Integer n => f64_of_Z n | NumericValue.Float x => x end.

Definition numeric_value (v : Value) : option NumericValue :=
  match v with
  | Value.Number n => Some (NumericValue.Integer n)
  | Value.Float x => Some (NumericValue.Float x)
  | _ => None
  end.

(** ** Comparison *)

Definition i64_lower_bound : f64 := f64_of_Z i64_min.
Definition i64_upper_bound : f64 := f64_of_Z (i64_max + 1).

Definition f64_lt (x y : f64) : bool := match f64_partial_cmp x y with Some Lt => true | _ => false end.
Definition f64_le (x y : f64) : bool := match f64_partial_cmp x y with Some Lt | Some Eq => true | _ => false end.

Definition compare_integer_float (integer : Z) (float : f64) : option comparison :=
  if is_nan float then None
  else if f64_lt float i64_lower_bound then Some Gt
  else if f64_le i64_upper_bound float then Some Lt
  else
    let truncated := f64_trunc float in
    match (integer ?= f64_as_i64 truncated)%Z with
    | Eq => if f64_lt truncated float then Some Lt
            else if f64_lt float truncated then Some Gt
            else Some Eq
    | ordering => Some ordering
    end.

Definition numeric_ordering (left right : NumericValue) : option comparison :=
  match left, right with
  | NumericValue.Integer l, NumericValue.Integer r => Some (l ?= r)%Z
  | NumericValue.Float l, NumericValue.Float r => f64_partial_cmp l r
  | NumericValue.Integer l, NumericValue.Float r => compare_integer_float l r
  | NumericValue.Float l, NumericValue.Integer r => CompOpp <$> compare_integer_float r l
  end.

Definition numeric_values_equal (left right : Value) : option bool :=
  l ← numeric_value left; r ← numeric_value right;
  Some (match numeric_ordering l r with Some Eq => true | _ => false end).

(** ** Arithmetic *)

Definition arithmetic_overflow (word : string) : VmError := VmError.ArithmeticOverflow word.

Definition finite_float_result (word : string) (x : f64) : res VmError Value :=
  if is_finite x then Ok (Value.Float x) else Err (arithmetic_overflow word).

(** An [i64] operation with its overflow check. *)
Definition checked (z : Z) : option Z := if in_i64 z then Some z else None.
Definition checked_div (l r : Z) : option Z := if (r =? 0)%Z then None else checked (Z.quot l r).
(** [i64::MIN % -1] overflows although the remainder would be zero. *)
Definition checked_rem (l r : Z) : option Z :=
  if (r =? 0)%Z then None
  else if (l =? i64_min)%Z && (r =? -1)%Z then None
  else Some (Z.rem l r).

Definition checked_result (word : string) (z : option Z) : res VmError Value :=
  match z with Some n => Ok (Value.Number n) | None => Err (arithmetic_overflow word) end.

Definition numeric_add (word : string) (left right : NumericValue) : res VmError Value :=
  match left, right with
  | NumericValue.Integer l, NumericValue.Integer r => checked_result word (checked (l + r))
  | _, _ => finite_float_result word (f64_add (as_f64 left) (as_f64 right))
  end.

Definition numeric_subtract (word : string) (left right : NumericValue) : res VmError Value :=
  match left, right with
  | NumericValue.Integer l, NumericValue.Integer r => checked_result word (checked (l - r))
  | _, _ => finite_float_result word (f64_sub (as_f64 left) (as_f64 right))
  end.

Definition numeric_multiply (word : string) (left right : NumericValue) : res VmError Value :=
  match left, right with
  | NumericValue.Integer l, NumericValue.Integer r => checked_result word (checked (l * r))
  | _, _ => finite_float_result word (f64_mul (as_f64 left) (as_f64 right))
  end.

Definition is_zero (v : NumericValue) : bool :=
  match v with
  | NumericValue.Integer n => (n =? 0)%Z
  | NumericValue.Float x => f64_eqb x (S754_zero false)
  end.

Definition numeric_divide (word : string) (left right : NumericValue) : res VmError Value :=
  if is_zero right then Err (VmError.DivisionByZero word)
  else match left, right with
       | NumericValue.Integer l, NumericValue.Integer r => checked_result word (checked_div l r)
       | _, _ => finite_float_result word (f64_div (as_f64 left) (as_f64 right))
       end.

Definition numeric_negate (word : string) (v : NumericValue) : res VmError Value :=
  match v with
  | NumericValue.Integer n => checked_result word (checked (- n))
  | NumericValue.Float x => finite_float_result word (f64_neg x)
  end.

Definition numeric_abs (word : string) (v : NumericValue) : res VmError Value :=
  match v with
  | NumericValue.Integer n => checked_result word (checked (Z.abs n))
  | NumericValue.Float x => finite_float_result word (f64_abs x)
  end.

(** [f64::min] and [f64::max]: the other operand when one is NaN. *)
Definition f64_min (x y : f64) : f64 := if is_nan x then y else if is_nan y then x else if f64_lt y x then y else x.
Definition f64_max (x y : f64) : f64 := if is_nan x then y else if is_nan y then x else if f64_lt x y then y else x.

Definition numeric_min (left right : NumericValue) : Value :=
  match left, right with
  | NumericValue.Integer l, NumericValue.Integer r => Value.Number (Z.min l r)
  | _, _ => Value.Float (f64_min (as_f64 left) (as_f64 right))
  end.

Definition numeric_max (left right : NumericValue) : Value :=
  match left, right with
  | NumericValue.Integer l, NumericValue.Integer r => Value.Number (Z.max l r)
  | _, _ => Value.Float (f64_max (as_f64 left) (as_f64 right))
  end.

(** [f64::clamp]: panics unless [minimum <= maximum]. *)
Definition f64_clamp {E : Type} (x minimum maximum : f64) : res E f64 :=
  if f64_le minimum maximum
  then Ok (let x := if f64_lt x minimum then minimum else x in if f64_lt maximum x then maximum else x)
  else Panic.

Definition numeric_clamp (word : string) (v minimum maximum : NumericValue) : res VmError Value :=
  match v, minimum, maximum with
  | NumericValue.Integer n, NumericValue.Integer lo, NumericValue.Integer hi =>
      if (hi <? lo)%Z then Err (VmError.InvalidArgument word "minimum cannot exceed maximum")
      else Ok (Value.Number (Z.min hi (Z.max lo n)))
  | _, _, _ =>
      match numeric_ordering minimum maximum with
      | Some Gt => Err (VmError.InvalidArgument word "minimum cannot exceed maximum")
      | None => Err (VmError.InvalidArgument word "minimum and maximum must be ordered numbers")
      | Some _ =>
          let? x := f64_clamp (as_f64 v) (as_f64 minimum) (as_f64 maximum) in
          finite_float_result word x
      end
  end.

(** ** Conversions *)

Definition conversion (A : Type) : Type := res (string * string) A.

Definition conversion_integer_result (r : conversion Z) : res VmError Value :=
  match r with
  | Ok n => Ok (result_ok (Value.Number n))
  | Err (k, m) => Ok (result_err k m)
  | Panic => Panic
  | OutOfFuel => OutOfFuel
  end.

Definition conversion_float_result (r : conversion f64) : res VmError Value :=
  match r with
  | Ok x => Ok (result_ok (Value.Float x))
  | Err (k, m) => Ok (result_err k m)
  | Panic => Panic
  | OutOfFuel => OutOfFuel
  end.

Definition checked_integer_range (n minimum maximum : Z) (word : string) : conversion Z :=
  if (minimum <=? n)%Z && (n <=? maximum)%Z then Ok n
  else Err ("RangeError", show_Z n ++ " is outside " ++ word ++ " range " ++ show_Z minimum ++ ".." ++ show_Z maximum).

(** The [Display] of the error of [str::parse::<i64>]: the first digit that
    is invalid or overflows. *)
Fixpoint parse_digits_error (neg : bool) (acc : Z) (ds : list byte) : string :=
  match ds with
  | [] => ""
  | b :: ds' =>
      if is_ascii_digit b then
        let acc' := if neg then (10 * acc - Z.of_N (digit_val b))%Z else (10 * acc + Z.of_N (digit_val b))%Z in
        if in_i64 acc' then parse_digits_error neg acc' ds'
        else if neg then "number too small to fit in target type"
        else "number too large to fit in target type"
      else "invalid digit found in string"
  end.

Definition parse_int_error (s : string) : string :=
  match as_bytes s with
  | [] => "cannot parse integer from empty string"
  | b :: l =>
      let signed := Ascii.eqb b "-" || Ascii.eqb b "+" in
      if signed && is_empty l then "invalid digit found in string"
      else parse_digits_error (Ascii.eqb b "-") 0 (if signed then l else b :: l)
  end.

Definition parse_float_error (s : string) : string :=
  if String.eqb s "" then "cannot parse float from empty string" else "invalid float literal".

Definition input_to_integer (v : Value) : conversion Z :=
  match v with
  | Value.Number n => Ok n
  | Value.Float x =>
      if is_finite x then
        if f64_is_integer x then
          if f64_lt x (f64_of_Z i64_min) || f64_le i64_upper_bound x
          then Err ("RangeError", show_f64 x ++ " is outside integer range")
          else Ok (f64_as_i64 x)
        else Err ("RangeError", show_f64 x ++ " is not an integer")
      else Err ("RangeError", show_f64 x ++ " is not finite")
  | Value.String s =>
      match parse_i64 s with
      | Some n => Ok n
      | None => Err ("ParseError", parse_int_error s)
      end
  | v => Err ("TypeError", "cannot convert " ++ value_kind v ++ " to integer")
  end.

Definition input_to_bit (v : Value) : conversion Z :=
  match v with
  | Value.Bool b => Ok (if b then 1 else 0)%Z
  | v => let? n := input_to_integer v in checked_integer_range n 0 1 "to_bit"
  end.

Definition input_to_float (v : Value) : conversion f64 :=
  match v with
  | Value.Number n => Ok (f64_of_Z n)
  | Value.Float x => if is_finite x then Ok x else Err ("RangeError", show_f64 x ++ " is not finite")
  | Value.String s =>
      match parse_f64 s with
      | Some x => if is_finite x then Ok x else Err ("RangeError", show_f64 x ++ " is not finite")
      | None => Err ("ParseError", parse_float_error s)
      end
  | v => Err ("TypeError", "cannot convert " ++ value_kind v ++ " to float")
  end.

(** [value as f32], then back: round to 24 bits, exponents up to 128. *)
Definition narrow_f32 (x : f64) : f64 :=
  match x with
  | S754_finite s m e => binary_normalize 24 128 (if s then Z.neg m else Z.pos m) e s
  | x => x
  end.
(** The [f64] with the value of an [f32]. *)
Definition widen_f32 (x : f64) : f64 :=
  match x with
  | S754_finite s m e => binary_normalize f64_prec f64_emax (if s then Z.neg m else Z.pos m) e s
  | x => x
  end.

(** The range of each integer conversion. *)
Definition integer_range (word : string) : option (Z * Z) :=
  if existsb (String.eqb word) ["to_number"; "to_integer"; "to_bigint"] then Some (i64_min, i64_max)
  else if String.eqb word "to_int" then Some (-2147483648, 2147483647)%Z
  else if String.eqb word "to_mediumint" then Some (-8388608, 8388607)%Z
  else if String.eqb word "to_smallint" then Some (-32768, 32767)%Z
  else if String.eqb word "to_tinyint" then Some (-128, 127)%Z
  else if String.eqb word "to_unsigned_int" then Some (0, 4294967295)%Z
  else if String.eqb word "to_unsigned_mediumint" then Some (0, 16777215)%Z
  else if String.eqb word "to_unsigned_smallint" then Some (0, 65535)%Z
  else if String.eqb word "to_unsigned_tinyint" then Some (0, 255)%Z
  else if String.eqb word "to_unsigned_bigint" then Some (0, i64_max)%Z
  else None.

Definition convert_numeric (word : string) (v : Value) : res VmError Value :=
  if existsb (String.eqb word) ["to_float"; "to_float64"; "to_double"; "to_real"] then
    conversion_float_result (input_to_float v)
  else if String.eqb word "to_float32" then
    conversion_float_result
      (let? x := input_to_float v in
       let narrowed := narrow_f32 x in
       if is_finite narrowed then Ok (widen_f32 narrowed)
       else Err ("RangeError", show_f64 x ++ " is outside float32 range"))
  else if String.eqb word "to_bit" then conversion_integer_result (input_to_bit v)
  else match integer_range word with
       | Some (minimum, maximum) =>
           conversion_integer_result (let? n := input_to_integer v in checked_integer_range n minimum maximum word)
       | None => Panic
       end.

(** ** Display *)

Definition display_float (x : f64) : string :=
  let formatted := show_f64 x in
  if contains_byte "." formatted || contains_byte "e" formatted || contains_byte "E" formatted
  then formatted else formatted ++ ".0".

Definition output_string (v : Value) : Text :=
  match v with
  | Value.Nil => Plain "nil"
  | Value.Bool b => Plain (if b then "true" else "false")
  | Value.Number n => Plain (show_Z n)
  | Value.Float x => Plain (display_float x)
  | Value.String s => Plain s
  | v => DebugValue v
  end.

Definition display_value (v : Value) : Text :=
  match v with
  | Value.Class name => Plain name
  | Value.Regex pattern => Plain ("/" ++ pattern ++ "/")
  | v => output_string v
  end.

Example divide_truncates : numeric_divide "/" (NumericValue.Integer (-7)) (NumericValue.Integer 2) = Ok (Value.Number (-3)).
Proof. reflexivity. Qed.
Example compare_exact :
  compare_integer_float 9007199254740993 (f64_of_Z 9007199254740992) = Some Gt.
Proof. vm_compute. reflexivity. Qed.
Example to_tinyint_range :
  convert_numeric "to_tinyint" (Value.Number 200) =
  Ok (result_err "RangeError" "200 is outside to_tinyint range -128..127").
Proof. vm_compute. reflexivity. Qed.

(** * Numbers: exact comparison, overflow, conversions

    Integers are 64-bit and floats are binary64; the comparison of the two is
    exact, arithmetic never wraps or overflows to infinity silently, and the
    conversions keep to their declared ranges.  A finite float is an integer
    multiple of [2^-1074], so its exact value is an integer once scaled. *)

Open Scope string_scope.
Open Scope list_scope.
Open Scope Z_scope.

(** ** The value of a float *)

Definition valid (x : f64) : Prop := valid_binary f64_prec f64_emax x = true.

(** The value of a finite float, times [2^1074]. *)
Definition scaled (x : f64) : Z :=
  match x with
  | S754_finite s m e => let v := Z.pos m * 2 ^ (e + 1074) in if s then - v else v
  | _ => 0
  end.

(** The order of an integer and the exact value of a float. *)
Definition exact_order (n : Z) (x : f64) : option comparison :=
  match x with
  | S754_nan => None
  | S754_infinity s => Some (if s then Gt else Lt)
  | _ => Some (n * 2 ^ 1074 ?= scaled x)
  end.

Lemma digits2_bounds (p : positive) : 2 ^ (Z.pos (digits2_pos p) - 1) <= Z.pos p < 2 ^ Z.pos (digits2_pos p).
Proof.
  induction p as [p IH|p IH|]; simpl digits2_pos; [..|done]; rewrite Pos2Z.inj_succ;
    replace (Z.succ (Z.pos (digits2_pos p)) - 1) with (Z.pos (digits2_pos p) - 1 + 1) by lia;
    rewrite Z.pow_succ_r, Z.pow_add_r by lia; lia.
Qed.

(** A canonical mantissa has at most 53 bits, exactly 53 above the least exponent. *)
Lemma bounded_mantissa m e : bounded f64_prec f64_emax m e = true ->
  -1074 <= e <= 971 /\ Z.pos m < 2 ^ 53 /\ (e = -1074 \/ 2 ^ 52 <= Z.pos m).
Proof.
  unfold bounded, canonical_mantissa, fexp, emin, f64_prec, f64_emax. intros [H1 H2]%andb_prop.
  apply Z.eqb_eq in H1. apply Z.leb_le in H2. pose proof (digits2_bounds m) as [Hl Hu].
  assert (Hd : Z.pos (digits2_pos m) <= 53) by lia.
  split; [lia|]. split; [eapply Z.lt_le_trans; [exact Hu|]; apply Z.pow_le_mono_r; lia|].
  destruct (decide (e = -1074)) as [|Hne]; [by left|right].
  assert (E : Z.pos (digits2_pos m) = 53) by lia. by rewrite E in Hl.
Qed.

Lemma scaled_lt m1 e1 m2 e2 : bounded f64_prec f64_emax m1 e1 = true -> bounded f64_prec f64_emax m2 e2 = true -> e1 < e2 ->
  Z.pos m1 * 2 ^ (e1 + 1074) < Z.pos m2 * 2 ^ (e2 + 1074).
Proof.
  intros (? & H1 & _)%bounded_mantissa (? & _ & [->|H2])%bounded_mantissa He; [lia|].
  assert (Hp : 0 < 2 ^ (e1 + 1074)) by (apply Z.pow_pos_nonneg; lia).
  replace (e2 + 1074) with (e1 + 1074 + 1 + (e2 - e1 - 1)) by lia. 
  rewrite (Z.pow_add_r 2 (e1 + 1074 + 1)), (Z.pow_add_r 2 (e1 + 1074) 1) by lia.
  assert (1 <= 2 ^ (e2 - e1 - 1)) by (apply (Z.pow_le_mono_r 2 0); lia).
  change (2 ^ 1) with 2. change (2 ^ 53) with (2 * 2 ^ 52) in H1.
  generalize dependent (2 ^ (e1 + 1074)). generalize dependent (2 ^ (e2 - e1 - 1)). generalize dependent (2 ^ 52).
  intros B H2 H1 K HK W HW. apply Z.lt_le_trans with (2 * B * W); [nia|].
  assert (2 * B * W <= B * (W * 2 * K)) by (replace (B * (W * 2 * K)) with (2 * B * W * K) by ring;
    rewrite <- (Z.mul_1_r (2 * B * W)) at 1; apply Z.mul_le_mono_nonneg_l; nia).
  assert (B * (W * 2 * K) <= Z.pos m2 * (W * 2 * K)) by (apply Z.mul_le_mono_nonneg_r; nia). lia.
Qed.

Lemma scaled_pos m e : -1074 <= e -> 0 < Z.pos m * 2 ^ (e + 1074).
Proof. intros. apply Z.mul_pos_pos; [lia|]. apply Z.pow_pos_nonneg; lia. Qed.

(** Comparing sign, exponent and mantissa compares values. *)
Lemma compare_scaled x y : valid x -> valid y -> is_finite x = true -> is_finite y = true ->
  f64_partial_cmp x y = Some (scaled x ?= scaled y).
Proof.
  unfold f64_partial_cmp, valid. intros Hx Hy Fx Fy.
  destruct x as [sx| | |sx mx ex], y as [sy| | |sy my ey]; try done; simpl in Hx, Hy.
  - apply bounded_mantissa in Hy as [? _]. pose proof (scaled_pos my ey). cbn [scaled SFcompare].
    destruct sy; f_equal; symmetry; [apply Z.compare_gt_iff|apply Z.compare_lt_iff]; lia.
  - apply bounded_mantissa in Hx as [? _]. pose proof (scaled_pos mx ex). cbn [scaled SFcompare].
    destruct sx; f_equal; symmetry; [apply Z.compare_lt_iff|apply Z.compare_gt_iff]; lia.
  - pose proof (bounded_mantissa _ _ Hx) as [? _]. pose proof (bounded_mantissa _ _ Hy) as [? _].
    pose proof (scaled_pos mx ex). pose proof (scaled_pos my ey). cbn [scaled SFcompare].
    assert (Hc : match ex ?= ey with Lt => Lt | Gt => Gt | Eq => (mx ?= my)%positive end =
                 (Z.pos mx * 2 ^ (ex + 1074) ?= Z.pos my * 2 ^ (ey + 1074))).
    { destruct (Z.compare_spec ex ey) as [->|Hlt|Hgt]; symmetry.
      - rewrite <- Zmult_compare_compat_r; [done|]. assert (0 < 2 ^ (ey + 1074)) by (apply Z.pow_pos_nonneg; lia). lia.
      - apply Z.compare_lt_iff. by apply scaled_lt.
      - apply Z.compare_gt_iff. by apply scaled_lt. }
    destruct sx, sy; f_equal; symmetry; [|apply Z.compare_lt_iff; lia|apply Z.compare_gt_iff; lia|by rewrite <- Hc; destruct (ex ?= ey)].
    rewrite Z.compare_opp, (Z.compare_antisym (Z.pos mx * _)), <- Hc.
    by destruct (ex ?= ey).
Qed.

(** ** Integer against float *)

Lemma lower_bound_scaled : valid i64_lower_bound /\ is_finite i64_lower_bound = true /\ scaled i64_lower_bound = i64_min * 2 ^ 1074.
Proof. vm_compute. done. Qed.
Lemma upper_bound_scaled : valid i64_upper_bound /\ is_finite i64_upper_bound = true /\
  scaled i64_upper_bound = (i64_max + 1) * 2 ^ 1074.
Proof. vm_compute. done. Qed.

Lemma f64_lt_spec x y : valid x -> valid y -> is_finite x = true -> is_finite y = true ->
  f64_lt x y = (scaled x <? scaled y).
Proof. intros. unfold f64_lt. rewrite compare_scaled by done. by rewrite Z.ltb_compare. Qed.
Lemma f64_le_spec x y : valid x -> valid y -> is_finite x = true -> is_finite y = true ->
  f64_le x y = (scaled x <=? scaled y).
Proof. intros. unfold f64_le. rewrite compare_scaled by done. rewrite Z.leb_compare. by destruct (_ ?= _). Qed.

Lemma compare_scale n v : (n * 2 ^ 1074 ?= v * 2 ^ 1074) = (n ?= v).
Proof. symmetry. by rewrite <- Zmult_compare_compat_r by done. Qed.

(** What is left after the range checks, for the parts of a finite float: its
    integer part [q], toward zero, and the rest [r] of it. *)
Lemma compare_parts n q r D (s : bool) : 0 <= q -> 0 <= r < D ->
  let sign v := if s then - v else v in
  (n * D ?= sign (q * D + r)) =
  match (n ?= sign q) with
  | Eq => if sign (q * D) <? sign (q * D + r) then Lt else if sign (q * D + r) <? sign (q * D) then Gt else Eq
  | o => o
  end.
Proof.
  intros Hq Hr sign. subst sign. simpl.
  destruct s.
  - destruct (Z.compare_spec n (- q)) as [->|Hl|Hg].
    + repeat case_match; try (apply Z.compare_lt_iff; lia); try (apply Z.compare_gt_iff; lia); apply Z.compare_eq_iff; lia.
    + apply Z.compare_lt_iff. nia.
    + apply Z.compare_gt_iff. nia.
  - destruct (Z.compare_spec n q) as [->|Hl|Hg].
    + repeat case_match; try (apply Z.compare_lt_iff; lia); try (apply Z.compare_gt_iff; lia); apply Z.compare_eq_iff; lia.
    + apply Z.compare_lt_iff. nia.
    + apply Z.compare_gt_iff. nia.
Qed.

Lemma trunc_below s m e : e < 0 ->
  let x := S754_finite s m e in
  let D := 2 ^ (- e) in
  let q := Z.pos m / D in
  let sign v := if s then - v else v in
  f64_lt (f64_trunc x) x = (sign (q * D) <? sign (Z.pos m)) /\
  f64_lt x (f64_trunc x) = (sign (Z.pos m) <? sign (q * D)) /\
  f64_as_i64 (f64_trunc x) = Z.max i64_min (Z.min i64_max (sign q)).
Proof.
  intros He x D q sign. assert (HD : 0 < D) by (apply Z.pow_pos_nonneg; lia).
  assert (Hq : 0 <= q) by (apply Z.div_pos; lia).
  unfold x, f64_trunc. rewrite (proj2 (Z.leb_gt 0 e)) by lia. fold D. fold q.
  destruct (q * D) as [|p|p] eqn:E; [| |nia].
  - assert (q = 0) as -> by nia. unfold sign. destruct s; done.
  - assert (Hp : f64_trunc_Z (S754_finite s p e) = sign q).
    { unfold f64_trunc_Z. rewrite (proj2 (Z.ltb_lt e 0)) by lia. fold D. by rewrite <- E, Z.div_mul by lia. }
    unfold f64_as_i64. rewrite Hp. unfold f64_lt, f64_partial_cmp, SFcompare, sign. rewrite Z.compare_refl.
    rewrite !Z.ltb_compare. split; [|split; [|done]]; by destruct s.
Qed.

Lemma sign_mul (s : bool) v W : (if s then - (v * W) else v * W) = (if s then - v else v) * W.
Proof. destruct s; lia. Qed.

Lemma scale_range lo v hi p : 0 < p -> lo * p <= v * p < hi * p -> lo <= v < hi.
Proof. intros. nia. Qed.

(** The checked path: the value is in the range of the integers. *)
Lemma compare_in_range n s m e :
  bounded f64_prec f64_emax m e = true ->
  i64_min * 2 ^ 1074 <= scaled (S754_finite s m e) < (i64_max + 1) * 2 ^ 1074 ->
  let x := S754_finite s m e in
  match (n ?= f64_as_i64 (f64_trunc x)) with
  | Eq => if f64_lt (f64_trunc x) x then Lt else if f64_lt x (f64_trunc x) then Gt else Eq
  | o => o
  end = (n * 2 ^ 1074 ?= scaled x).
Proof.
  intros Hb Hr x. pose proof (bounded_mantissa _ _ Hb) as [He _].
  assert (HW : 0 < 2 ^ (e + 1074)) by (apply Z.pow_pos_nonneg; lia).
  cbn [scaled] in Hr |- *. unfold x. cbn [scaled]. rewrite sign_mul in *.
  destruct (Z.leb_spec 0 e) as [Hpos|Hneg].
  - assert (E : 2 ^ (e + 1074) = 2 ^ e * 2 ^ 1074) by (apply Z.pow_add_r; lia).
    rewrite E, Z.mul_assoc, compare_scale in *. unfold f64_trunc. rewrite (proj2 (Z.leb_le 0 e)) by done.
    assert (Hs : f64_as_i64 (S754_finite s m e) = (if s then - Z.pos m else Z.pos m) * 2 ^ e).
    { unfold f64_as_i64, f64_trunc_Z. rewrite (proj2 (Z.ltb_ge e 0)) by lia. rewrite sign_mul.
      apply scale_range in Hr; [|done]. rewrite Z.max_r, Z.min_r; lia. }
    rewrite Hs. unfold f64_lt. rewrite compare_scaled, Z.compare_refl by done. by destruct (_ ?= _).
  - pose proof (trunc_below s m e Hneg) as (H1 & H2 & H3). cbv zeta in H1, H2, H3. rewrite H1, H2, H3. clear H1 H2 H3.
    set (D := 2 ^ (- e)) in *. assert (HD : 0 < D) by (apply Z.pow_pos_nonneg; lia).
    pose proof (Z.div_mod (Z.pos m) D) as Hm. pose proof (Z.mod_pos_bound (Z.pos m) D HD) as Hr'.
    assert (Hq : 0 <= Z.pos m / D) by (apply Z.div_pos; lia).
    assert (E : 2 ^ 1074 = D * 2 ^ (e + 1074)) by (unfold D; rewrite <- Z.pow_add_r by lia; f_equal; lia).
    rewrite E, !Z.mul_assoc in *. rewrite <- Zmult_compare_compat_r by lia. apply scale_range in Hr; [|done].
    set (q := Z.pos m / D) in *. set (r := Z.pos m mod D) in *.
    replace (Z.pos m) with (q * D + r) in * by lia.
    rewrite (compare_parts n q r D s) by lia.
    rewrite Z.max_r, Z.min_r; [done| |]; destruct s; unfold i64_min, i64_max in *; nia.
Qed.

(** C29: the order of an integer and a float is the order of their exact
    values, whatever their sizes: neither is rounded to the type of the
    other; NaN is unordered. *)
Theorem compare_integer_float_exact (n : Z) (x : f64) :
  in_i64 n = true -> valid x -> compare_integer_float n x = exact_order n x.
Proof.
  intros Hn Hx. unfold compare_integer_float.
  destruct lower_bound_scaled as (Vl & Fl & El), upper_bound_scaled as (Vu & Fu & Eu).
  assert (Hn' : i64_min <= n < i64_max + 1) by (unfold in_i64, i64_min, i64_max in *; lia).
  destruct x as [s|[]| |s m e]; cbn [is_nan]; try done.
  - change (f64_lt (S754_zero s) i64_lower_bound) with false. change (f64_le i64_upper_bound (S754_zero s)) with false.
    cbn [exact_order]. change (scaled (S754_zero s)) with (0 * 2 ^ 1074). rewrite compare_scale.
    change (f64_as_i64 _) with 0. by destruct (n ?= 0).
  - rewrite f64_lt_spec, f64_le_spec, El, Eu by done.
    destruct (Z.ltb_spec (scaled (S754_finite s m e)) (i64_min * 2 ^ 1074)) as [H1|H1].
    { cbn [exact_order]. f_equal. symmetry. apply Z.compare_gt_iff.
      apply (Z.lt_le_trans _ _ _ H1), Z.mul_le_mono_nonneg_r; [done|lia]. }
    destruct (Z.leb_spec ((i64_max + 1) * 2 ^ 1074) (scaled (S754_finite s m e))) as [H2|H2].
    { cbn [exact_order]. f_equal. symmetry. apply Z.compare_lt_iff.
      eapply Z.lt_le_trans; [|exact H2]. apply Z.mul_lt_mono_pos_r; [done|lia]. }
    cbn [exact_order]. rewrite <- (compare_in_range n s m e Hx) by done.
    destruct (n ?= _); [|done..]. by repeat case_match.
Qed.

Lemma compare_integer_float_exact_witness :
  (in_i64 9007199254740993 = true /\ valid (f64_of_Z 9007199254740992)) /\
  compare_integer_float 9007199254740993 (f64_of_Z 9007199254740992) =
  exact_order 9007199254740993 (f64_of_Z 9007199254740992).
Proof.
  split; [split; vm_compute; reflexivity|]. apply compare_integer_float_exact; vm_compute; reflexivity.
Defined.

(** ** Conversions *)

(** The float is the integer [n]. *)
Lemma scaled_integer x n : valid x -> is_finite x = true ->
  scaled x = n * 2 ^ 1074 <-> f64_is_integer x = true /\ f64_trunc_Z x = n.
Proof.
  intros Hx Fx. destruct x as [s| | |s m e]; try done.
  - simpl. split; [intros; split; [done|nia]|intros [_ <-]; done].
  - pose proof (bounded_mantissa _ _ Hx) as [He _]. cbn [scaled f64_is_integer f64_trunc_Z]. rewrite sign_mul.
    assert (HW : 0 < 2 ^ (e + 1074)) by (apply Z.pow_pos_nonneg; lia).
    destruct (Z.leb_spec 0 e) as [Hpos|Hneg]; simpl orb.
    + rewrite (proj2 (Z.ltb_ge e 0)) by lia. rewrite sign_mul.
      replace (2 ^ (e + 1074)) with (2 ^ e * 2 ^ 1074) by (rewrite <- Z.pow_add_r by lia; done).
      rewrite Z.mul_assoc. split; [intros H; split; [done|]|intros [_ ->]; done].
      by apply Z.mul_cancel_r in H.
    + rewrite (proj2 (Z.ltb_lt e 0)) by lia. set (D := 2 ^ (- e)) in *.
      assert (HD : 0 < D) by (apply Z.pow_pos_nonneg; lia).
      assert (E : 2 ^ 1074 = D * 2 ^ (e + 1074)) by (unfold D; rewrite <- Z.pow_add_r by lia; f_equal; lia).
      rewrite E, Z.mul_assoc, Z.mul_cancel_r by lia.
      pose proof (Z.div_mod (Z.pos m) D) as Hm. pose proof (Z.mod_pos_bound (Z.pos m) D HD) as Hr.
      rewrite Z.eqb_eq. destruct s; split; intros H.
      * assert (Z.pos m = - n * D) as Hk by lia. rewrite Hk, Z.mod_mul, Z.div_mul by lia. lia.
      * destruct H as [H1 <-]. nia.
      * assert (Z.pos m = n * D) as Hk by lia. rewrite Hk, Z.mod_mul, Z.div_mul by lia. lia.
      * destruct H as [H1 <-]. nia.
Qed.

(** The value is, or spells, the integer [n]. *)
Definition denotes (v : Value) (n : Z) : Prop :=
  match v with
  | Value.Number m => m = n
  | Value.Float x => is_finite x = true /\ scaled x = n * 2 ^ 1074
  | Value.String s => parse_i64 s = Some n
  | _ => False
  end.

(** Numbers are 64-bit integers and valid floats. *)
Definition well_sized (v : Value) : Prop :=
  match v with Value.Number n => in_i64 n = true | Value.Float x => valid x | _ => True end.

Lemma input_to_integer_spec v n : well_sized v ->
  input_to_integer v = Ok n <-> denotes v n /\ i64_min <= n <= i64_max.
Proof.
  intros Hv. destruct v; cbn [input_to_integer denotes well_sized] in *; try (split; [done|by intros [? _]]).
  - unfold in_i64, i64_min, i64_max in *. split; [intros [= ->]; lia|by intros [-> _]].
  - destruct (is_finite x) eqn:F; [|split; [done|by intros [[? _] _]]].
    destruct lower_bound_scaled as (Vl & Fl & El), upper_bound_scaled as (Vu & Fu & Eu).
    change (f64_of_Z i64_min) with i64_lower_bound. rewrite f64_lt_spec, f64_le_spec, El, Eu by done.
    pose proof (scaled_integer x n Hv F) as Hs.
    destruct (f64_is_integer x) eqn:I; [|split; [done|intros [[_ H] _]; by apply Hs in H as [? _]]].
    assert (Ht : scaled x = f64_trunc_Z x * 2 ^ 1074) by (by apply scaled_integer).
    rewrite Ht in *. 
    destruct (Z.ltb_spec (f64_trunc_Z x * 2 ^ 1074) (i64_min * 2 ^ 1074)) as [H1|H1]; simpl orb.
    { split; [done|]. intros [[_ H] Hn]. nia. }
    destruct (Z.leb_spec ((i64_max + 1) * 2 ^ 1074) (f64_trunc_Z x * 2 ^ 1074)) as [H2|H2].
    { split; [done|]. intros [[_ H] Hn]. nia. }
    assert (Hr : i64_min <= f64_trunc_Z x < i64_max + 1) by (by apply (scale_range _ _ _ (2 ^ 1074))).
    assert (f64_as_i64 x = f64_trunc_Z x) as ->.
    { unfold f64_as_i64. destruct x; try done. rewrite Z.max_r, Z.min_r; lia. }
    split; [intros [= <-]; lia|]. intros [[_ H] _]. f_equal. by apply Z.mul_cancel_r in H.
  - destruct (parse_i64 s) as [m|] eqn:E; [|split; [done|by intros [? _]]].
    split; [intros [= ->]; split; [done|]|by intros [[= ->] _]].
    unfold parse_i64 in E. repeat case_match; simplify_eq; unfold in_i64, i64_min, i64_max in *; lia.
Qed.

(** The conversion always gives a value or a reason. *)
Lemma input_to_integer_total v : exists r : Z + string * string,
  input_to_integer v = match r with inl n => Ok n | inr e => Err e end.
Proof.
  destruct v; simpl; try (by eexists (inr (_, _))); [by exists (inl n)|..]; repeat case_match;
    solve [by eexists (inl _)|by eexists (inr (_, _))].
Qed.

Lemma integer_word word r : integer_range word = Some r ->
  convert_numeric word = fun v =>
    conversion_integer_result (let? n := input_to_integer v in checked_integer_range n (fst r) (snd r) word).
Proof.
  unfold integer_range. intros H.
  repeat (case_match; [
    match goal with E : (_ =? _)%string = true |- _ => apply String.eqb_eq in E as -> | E : existsb _ _ = true |- _ => idtac end|]);
    simplify_eq; try reflexivity.
  apply existsb_exists in H0 as (w & [<-|[<-|[<-|[]]]] & E%String.eqb_eq); subst; reflexivity.
Qed.

(** A conversion to an integer type never fails with an error of the
    machine: it gives a result, which holds [n] exactly when the value is, or
    spells, the integer [n] and [n] is in the range of the type.  No float is
    rounded and nothing wraps. *)
Theorem convert_numeric_exact (word : string) (lo hi : Z) (v : Value) :
  integer_range word = Some (lo, hi) -> well_sized v ->
  (exists r, convert_numeric word v = Ok (Value.Result r)) /\
  (forall n, convert_numeric word v = Ok (result_ok (Value.Number n)) <-> denotes v n /\ lo <= n <= hi).
Proof.
  intros Hw Hv. rewrite (integer_word _ _ Hw). cbn [fst snd].
  assert (Hr : i64_min <= lo /\ hi <= i64_max).
  { unfold integer_range in Hw. repeat case_match; simplify_eq; vm_compute; done. }
  split.
  - destruct (input_to_integer_total v) as [[n|[k m]] ->]; simpl; [|by eexists].
    unfold checked_integer_range. case_match; by eexists.
  - intros n. pose proof (input_to_integer_spec v n Hv) as Hs.
    destruct (input_to_integer_total v) as [[n'|[k m]] E]; rewrite E in *; simpl.
    + unfold checked_integer_range. destruct (_ && _) eqn:B; simpl.
      * split; [intros [= ->]|intros [Hd Hn]].
        -- destruct Hs as [Hs _]. destruct (Hs eq_refl). split; [done|lia].
        -- assert (Ok n' = Ok n :> conversion Z) as [= ->] by (apply Hs; split; [done|lia]). done.
      * split; [done|]. intros [Hd Hn].
        assert (Ok n' = Ok n :> conversion Z) as [= ->] by (apply Hs; split; [done|lia]). lia.
    + split; [done|]. intros [Hd Hn].
      assert (Err (k, m) = Ok n :> conversion Z) by (apply Hs; split; [done|lia]). done.
Qed.

Lemma convert_numeric_exact_witness :
  (integer_range "to_tinyint" = Some (-128, 127) /\ well_sized (Value.Float (f64_of_Z 100))) /\
  (exists r, convert_numeric "to_tinyint" (Value.Float (f64_of_Z 100)) = Ok (Value.Result r)) /\
  (forall n, convert_numeric "to_tinyint" (Value.Float (f64_of_Z 100)) = Ok (result_ok (Value.Number n)) <->
     denotes (Value.Float (f64_of_Z 100)) n /\ -128 <= n <= 127).
Proof.
  split; [split; [reflexivity|vm_compute; reflexivity]|].
  apply convert_numeric_exact; [reflexivity|vm_compute; reflexivity].
Defined.
