(* ===== verification/VmClass.v ===== *)
(** * Classes, fields and method lookup

    The class table of [crates/ricochet_vm/src/vm.rs]: defining and reopening
    classes, walking the inheritance chain, resolving methods, building
    instances and reading and writing their fields. *)

From stdpp Require Import base tactics list strings option numbers sets relations.
From Stdlib Require Import ZArith NArith Lia Ascii String.
From S2P Require Import Prelude RustStr RustFloat Bytecode BTree Value VmState.

Open Scope list_scope.
Open Scope nat_scope.
Open Scope string_scope.

(** ** The class table *)

(** [current_class_mut(word)?] followed by an update of the class. *)
Definition update_current_class (word : string) (f : Class -> Class) : VM unit := fun s =>
  match current_class s with
  | None => Exn (VmError.NoCurrentClass word) s
  | Some name =>
      match bt_get name (classes s) with
      | None => Exn (VmError.UnknownClass name) s
      | Some c => Val tt (set_classes (bt_insert name (f c) (classes s)) s)
      end
  end.

Definition define_class (name super : string) : VM unit := vmodify (fun s =>
  let c := match bt_get name (classes s) with
           | Some c => class_set_superclass super c
           | None => new_class name super
           end in
  set_current_class (Some name) (set_classes (bt_insert name c (classes s)) s)).

Definition end_class : VM unit := vmodify (set_current_class None).

Definition add_field (name : string) : VM unit := update_current_class "add_field" (class_add_field name).

Definition add_native_method_with_arity (name : string) (m : NativeMethod) : VM unit :=
  update_current_class "add_native_method" (class_add_native_method name m).

Definition add_bytecode_method (name : string) (method : Chunk) (args : option ArgsSpec) : VM unit :=
  update_current_class "add_bytecode_method" (class_add_bytecode_method name method args).

Definition add_accessor (field : string) : VM unit :=
  add_field field ;;!
  add_native_method_with_arity (field ++ ".get") (Getter field) ;;!
  add_native_method_with_arity (field ++ ".set") (Setter field).

Definition add_function (name : string) (function : Chunk) (args : option ArgsSpec) : VM unit := vmodify (fun s =>
  set_functions (bt_insert name (mkCallable function args) (functions s)) s).

(** ** Inheritance *)

Fixpoint chain_from (fuel : nat) (table : btree Class) (start : string) (visited : list string)
    (chain : list Class) (current : string) : res VmError (list Class) :=
  match fuel with
  | O => OutOfFuel
  | S fuel' =>
      if existsb (String.eqb current) visited then Err (VmError.InheritanceCycle current)
      else match bt_get current table with
           | None => if is_empty chain then Err (VmError.UnknownClass start) else Ok chain
           | Some c =>
               if String.eqb (superclass c) "" then Ok (chain ++ [c])%list
               else chain_from fuel' table start (current :: visited) (chain ++ [c])%list (superclass c)
           end
  end.

(** Each step visits a new class of the table, then at most one more name. *)
Definition inheritance_chain (table : btree Class) (name : string) : res VmError (list Class) :=
  chain_from (length table + 2) table name [] [] name.

Inductive ResolvedMethod : Type :=
  | Native (owner : string) (method : NativeMethod)
  | Bytecode (owner : string) (method : BytecodeCallable).

Fixpoint first_native (chain : list Class) (method : string) : option (string * NativeMethod) :=
  match chain with
  | [] => None
  | c :: chain' => match bt_get method (native_methods c) with
                   | Some m => Some (cls_name c, m)
                   | None => first_native chain' method
                   end
  end.

Definition resolve_native_method (table : btree Class) (class_name method : string)
    : res VmError (option (string * NativeMethod)) :=
  let? chain := inheritance_chain table class_name in Ok (first_native chain method).

Fixpoint first_method (chain : list Class) (method : string) : option ResolvedMethod :=
  match chain with
  | [] => None
  | c :: chain' =>
      match bt_get method (native_methods c) with
      | Some m => Some (Native (cls_name c) m)
      | None => match bt_get method (bytecode_methods c) with
                | Some m => Some (Bytecode (cls_name c) m)
                | None => first_method chain' method
                end
      end
  end.

Definition resolve_instance_method (table : btree Class) (class_name method : string)
    : res VmError (option ResolvedMethod) :=
  let? chain := inheritance_chain table class_name in Ok (first_method chain method).

(** ** Instances *)

(** The fields of the chain, the root's first. *)
Definition instance_fields (chain : list Class) : btree Value :=
  foldl (fun m field => bt_insert field Value.Nil m) [] (flat_map cls_fields (reverse chain)).

Definition new_instance (table : btree Class) (class_name : string) : res VmError Value :=
  let? chain := inheritance_chain table class_name in
  Ok (Value.Instance class_name (instance_fields chain)).

Definition set_field (instance : Value) (field : string) (v : Value) : res VmError Value :=
  match instance with
  | Value.Instance c fields => Ok (Value.Instance c (bt_insert field v fields))
  | other => Err (type_error ("set_field " ++ field) "instance" other)
  end.

Definition get_field (h : heap) (instance : Value) (field : string) : res VmError Value :=
  match instance with
  | Value.Instance _ fields => Ok (default Value.Nil (bt_get field fields))
  | Value.Map l => Ok (default Value.Nil (bt_get field (map_snapshot h l)))
  | other => Err (type_error ("get_field " ++ field) "instance or map" other)
  end.

Definition get_field_for_runtime (instance : Value) (field : string) : VM Value :=
  let! s := vget in
  match instance with
  | Value.Instance c fields =>
      if bt_contains_key field fields then vret tt
      else record_nil_producing_lookup
             [Lit "missing field "; Dbg field; Lit " on "; Disp c; Lit " returned nil"]
  | Value.Map l =>
      if bt_contains_key field (map_snapshot (store s) l) then vret tt
      else record_nil_producing_lookup [Lit "missing map key "; Dbg field; Lit " returned nil"]
  | _ => vret tt
  end ;;!
  vlift (get_field (store s) instance field).

(** ** Accessors *)

Definition accessor_get (field : string) (receiver : Value) : res VmError Value :=
  match receiver with
  | Value.Instance _ fields => Ok (default Value.Nil (bt_get field fields))
  | other => Err (type_error (field ++ ".get") "instance" other)
  end.

Definition accessor_set (field : string) (receiver v : Value) : res VmError Value :=
  match receiver with
  | Value.Instance c fields => Ok (Value.Instance c (bt_insert field v fields))
  | other => Err (type_error (field ++ ".set") "instance" other)
  end.

(** The closures of [add_accessor]: the arguments, then the receiver. *)
Definition native_call (m : NativeMethod) (arguments : list Value) : res VmError Value :=
  match m with
  | Getter field =>
      match list.last arguments with
      | Some receiver => accessor_get field receiver
      | None => Err (VmError.StackUnderflow (field ++ ".get") 1 0)
      end
  | Setter field =>
      match arguments with
      | v :: receiver :: _ => accessor_set field receiver v
      | _ => Err (VmError.StackUnderflow (field ++ ".set") 2 (length arguments))
      end
  end.

Definition call_native_method (receiver : Value) (frame : string) (m : NativeMethod) : VM Value :=
  ensure_stack frame (native_input_count m) ;;!
  let! s := vget in
  let n := native_input_count m in
  let stack_arguments := reverse (take n (stack s)) in
  vmodify (set_stack (drop n (stack s))) ;;!
  on_err (vlift (native_call m (stack_arguments ++ [receiver])%list))
    (fun s => set_stack (reverse stack_arguments ++ stack s)%list s).

Definition capability_name (c : Capability) : string :=
  match c with
  | Capability.FileSystem => "filesystem"
  | Capability.Http => "HTTP"
  | Capability.Process => "process"
  | Capability.Terminal => "terminal UI"
  | Capability.Webview => "webview"
  end.

Definition enabled_capability (word : string) (c : Capability) : VM Value := fun s =>
  let enabled := match c with
                 | Capability.FileSystem => filesystem_enabled (config s)
                 | Capability.Http => http_enabled (config s)
                 | Capability.Process => process_enabled (config s)
                 | Capability.Terminal => terminal_enabled (config s)
                 | Capability.Webview => webview_enabled (config s)
                 end in
  if enabled then Val (Value.Capability c) s
  else Exn (VmError.HostError word (capability_name c ++ " capability is not enabled")) s.

(** * The inheritance chain

    [inheritance_chain] walks superclass links with a set of visited names.
    Its meaning is the lineage of a class; the walk terminates on every class
    table, reports exactly the cycles, and method resolution takes the first
    definition along the lineage. *)

(** ** Specification *)

(** [b] is the superclass the class [a] names. *)
Definition parent (table : btree Class) (a b : string) : Prop :=
  exists c, bt_get a table = Some c /\ superclass c = b /\ b <> "".

(** The classes from [name] up: to one without a superclass, or whose
    superclass is not defined. *)
Inductive lineage (table : btree Class) : string -> list Class -> Prop :=
  | lineage_root name c : bt_get name table = Some c -> superclass c = "" -> lineage table name [c]
  | lineage_open name c : bt_get name table = Some c -> superclass c <> "" ->
      bt_get (superclass c) table = None -> lineage table name [c]
  | lineage_step name c chain : bt_get name table = Some c -> superclass c <> "" ->
      lineage table (superclass c) chain -> lineage table name (c :: chain).

(** A class above [name] that is above itself. *)
Definition cyclic (table : btree Class) (name m : string) : Prop :=
  rtc (parent table) name m /\ tc (parent table) m m.

(** ** Proof *)

Section proof.
Variable table : btree Class.

Lemma lineage_parent name chain p : lineage table name chain -> parent table name p -> 
  bt_get p table = None \/ exists chain', lineage table p chain' /\ length chain' < length chain.
Proof.
  intros Hl (c & Hc & <- & Hne). destruct Hl as [name c' Hg Hs|name c' Hg Hs Hn|name c' chain Hg Hs Hl]; simplify_eq.
  - by left.
  - right. exists chain. split; [done|]. simpl. lia.
Qed.

Lemma lineage_det name c1 c2 : lineage table name c1 -> lineage table name c2 -> c1 = c2.
Proof.
  intros H1. revert c2. induction H1 as [n c Hg Hs|n c Hg Hs Hn|n c ch Hg Hs Hl IH]; intros c2 H2;
    destruct H2 as [n c' Hg' Hs'|n c' Hg' Hs' Hn'|n c' ch' Hg' Hs' Hl']; simplify_eq; try done.
  - inversion Hl'; simplify_eq.
  - inversion Hl; simplify_eq.
  - f_equal. by apply IH.
Qed.

Lemma lineage_tc name chain p : tc (parent table) name p -> lineage table name chain ->
  bt_get p table = None \/ exists chain', lineage table p chain' /\ length chain' < length chain.
Proof.
  intros Ht. revert chain. induction Ht as [x y Hp|x y z Hp Ht IH]; intros chain Hl.
  - by eapply lineage_parent.
  - destruct (lineage_parent _ _ _ Hl Hp) as [Hn|(ch & Hch & Hlt)].
    + exfalso. inversion Ht as [? ? (c & Hc & _)|? ? ? (c & Hc & _)]; simplify_eq.
    + destruct (IH _ Hch) as [?|(ch' & ? & ?)]; [by left|]. right. exists ch'. split; [done|lia].
Qed.

Lemma tc_defined a b : tc (parent table) a b -> is_Some (bt_get a table).
Proof. intros Ht. inversion Ht as [? ? (c & Hc & _)|? ? ? (c & Hc & _)]; by rewrite Hc. Qed.

Lemma cyclic_defined name m : cyclic table name m -> is_Some (bt_get name table).
Proof.
  intros [Hr Ht]. destruct (proj1 (rtc_tc _ _) Hr) as [->|Ht']; [by apply tc_defined in Ht|by apply tc_defined in Ht'].
Qed.

Lemma lineage_acyclic name chain m : lineage table name chain -> ~ cyclic table name m.
Proof.
  intros Hl [Hr Ht]. assert (exists ch, lineage table m ch) as [ch Hch].
  { destruct (proj1 (rtc_tc _ _) Hr) as [->|Ht']; [by eexists|]. destruct (lineage_tc _ _ _ Ht' Hl) as [Hn|(ch & Hch & _)].
    - apply tc_defined in Ht as [c Hc]. congruence.
    - by eexists. }
  destruct (lineage_tc _ _ _ Ht Hch) as [Hn|(ch' & Hch' & Hlt)].
  - apply tc_defined in Ht as [c Hc]. congruence.
  - rewrite (lineage_det _ _ _ Hch Hch') in Hlt. lia.
Qed.

Lemma keys_bound (V : list string) : NoDup V -> (forall v, v ∈ V -> is_Some (bt_get v table)) -> length V <= length table.
Proof.
  intros Hnd HV. rewrite <- (length_fmap fst table). apply submseteq_length, NoDup_submseteq; [done|].
  intros v [c Hc]%HV. apply bt_get_In in Hc. by apply (list_elem_of_fmap_2 fst) in Hc.
Qed.

Lemma existsb_elem (x : string) V : existsb (String.eqb x) V = true <-> x ∈ V.
Proof.
  rewrite existsb_exists. split.
  - intros (y & Hy & ->%String.eqb_eq). by apply list_elem_of_In.
  - intros H. exists x. split; [by apply list_elem_of_In|apply String.eqb_refl].
Qed.

(** The walk so far. *)
Definition walked (start : string) (V : list string) (current : string) : Prop :=
  NoDup V /\ (forall v, v ∈ V -> is_Some (bt_get v table) /\ rtc (parent table) start v /\ tc (parent table) v current) /\
  rtc (parent table) start current.

Lemma walked_step start V current c : walked start V current -> current ∉ V ->
  bt_get current table = Some c -> superclass c <> "" -> walked start (current :: V) (superclass c).
Proof.
  intros (Hnd & HV & Hr) Hn Hc Hs. assert (parent table current (superclass c)) as Hp by (by exists c).
  split; [by constructor|]. split; [|by eapply rtc_r]. intros v [->|Hv]%elem_of_cons.
  - split; [by rewrite Hc|]. split; [done|by apply tc_once].
  - destruct (HV v Hv) as (? & ? & ?). split; [done|]. split; [done|]. by eapply tc_r.
Qed.

Lemma chain_from_spec fuel start V chain current :
  walked start V current -> length table < fuel + length V - 1 -> length V = length chain ->
  match chain_from fuel table start V chain current with
  | Ok cs => (cs = chain /\ chain <> [] /\ bt_get current table = None) \/
             exists tail, cs = (chain ++ tail)%list /\ lineage table current tail
  | Err (VmError.UnknownClass n) => n = start /\ chain = [] /\ bt_get current table = None
  | Err (VmError.InheritanceCycle m) => cyclic table start m
  | _ => False
  end.
Proof.
  revert V chain current. induction fuel as [|fuel IH]; intros V chain current Hw Hf Hlen.
  { pose proof Hw as (Hnd & HV & _). pose proof (keys_bound V Hnd (fun v Hv => proj1 (HV v Hv))). lia. }
  simpl. destruct (existsb (String.eqb current) V) eqn:Hex.
  { apply existsb_elem in Hex. destruct Hw as (_ & HV & Hr). split; [done|]. by apply HV. }
  assert (current ∉ V) as Hn. { intros H. apply existsb_elem in H. congruence. }
  destruct (bt_get current table) as [c|] eqn:Hc.
  - destruct (String.eqb_spec (superclass c) "") as [Hs|Hs].
    + right. exists [c]. split; [done|]. by apply lineage_root.
    + specialize (IH (current :: V) (chain ++ [c])%list (superclass c) (walked_step _ _ _ _ Hw Hn Hc Hs)).
      destruct (chain_from _ _ _ _ _ _) as [cs|[]| |]; try (apply IH; simpl; rewrite ?length_app; simpl; lia).
      * right. destruct IH as [(-> & _ & Hno)|(tail & -> & Hl)]; [simpl; lia|rewrite length_app; simpl; lia|..].
        -- exists [c]. split; [done|]. by apply lineage_open.
        -- exists (c :: tail). split; [by rewrite <- app_assoc|]. by apply lineage_step.
      * destruct IH as (_ & Happ & _); [simpl; lia|rewrite length_app; simpl; lia|]. by destruct chain.
  - destruct chain as [|c0 chain]; simpl; [done|]. left. done.
Qed.

Lemma inheritance_chain_cases name :
  match inheritance_chain table name with
  | Ok chain => lineage table name chain
  | Err (VmError.UnknownClass n) => n = name /\ bt_get name table = None
  | Err (VmError.InheritanceCycle m) => cyclic table name m
  | _ => False
  end.
Proof.
  pose proof (chain_from_spec (length table + 2) name [] [] name) as H. unfold inheritance_chain.
  assert (walked name [] name) as Hw. { split; [constructor|]. split; [by intros v Hv%elem_of_nil|constructor]. }
  specialize (H Hw ltac:(simpl; lia) eq_refl).
  destruct (chain_from _ _ _ _ _ _) as [cs|[]| |]; try done.
  - destruct H as [(_ & ? & _)|(tail & -> & Hl)]; done.
  - destruct H as (-> & _ & ?). done.
Qed.
End proof.

Lemma nofuel_chain table name : inheritance_chain table name <> OutOfFuel.
Proof. pose proof (inheritance_chain_cases table name) as H. by destruct (inheritance_chain table name). Qed.

(** ** Theorems *)

(** Walking the superclasses of a class always ends: it returns the
    lineage of the class if it has one, reports an unknown class exactly when
    the class itself is not defined, and a cycle only when a class above it is
    above itself; a class table with a lineage for the class is never reported
    cyclic. *)
Theorem inheritance_chain_correct (table : btree Class) (name : string) :
  (forall chain, inheritance_chain table name = Ok chain <-> lineage table name chain) /\
  (forall m, inheritance_chain table name = Err (VmError.InheritanceCycle m) -> cyclic table name m) /\
  (inheritance_chain table name = Err (VmError.UnknownClass name) <-> bt_get name table = None) /\
  ((exists m, cyclic table name m) <-> exists m, inheritance_chain table name = Err (VmError.InheritanceCycle m)).
Proof.
  pose proof (inheritance_chain_cases table name) as H.
  destruct (inheritance_chain table name) as [chain|e| |] eqn:Hc; [|destruct e; try done|done|done].
  - split; [|split; [done|split]].
    + intros chain'. split; [by intros [= <-]|]. intros Hl. by rewrite (lineage_det _ _ _ _ H Hl).
    + split; [done|]. inversion H; congruence.
    + split; [|by intros [m ?]]. intros [m Hm]. by apply (lineage_acyclic _ _ _ m) in H.
  - destruct H as [-> Hn]. split; [|split; [done|split]].
    + intros chain. split; [done|]. inversion 1; congruence.
    + done.
    + split; [|by intros [m ?]]. intros [m [c Hm]%cyclic_defined]. congruence.
  - split; [|split; [|split]].
    + intros chain. split; [done|]. intros Hl. by apply (lineage_acyclic _ _ _ name0) in Hl.
    + intros m [= <-]. done.
    + split; [done|]. intros Hn. apply cyclic_defined in H as [c Hm]. congruence.
    + split; [|by eexists]. intros _. by eexists.
Qed.
