(* ===== verification/VmWords.v ===== *)
(** * Words of the machine

    The words of [crates/ricochet_vm/src/vm.rs] and [builtins.rs] that do not
    call back into bytecode: stack manipulation, arithmetic, comparison,
    booleans, results, assertions, variables, classes and instances, and the
    collection words.  Each definition follows its [call_*] method, including
    where it restores the stack before reporting an error. *)

From stdpp Require Import base tactics list strings option numbers.
From Stdlib Require Import ZArith NArith Lia Ascii String.
From S2P Require Import Prelude RustStr RustFloat Bytecode BTree Value ValueEq Opaque VmState Numeric VmClass.

Open Scope list_scope.
Open Scope nat_scope.
Open Scope string_scope.

(** ** Stack words *)

Definition call_swap (word : string) : VM unit :=
  ensure_stack word 2 ;;!
  let! s := vget in
  match stack s with
  | a :: b :: st => vmodify (set_stack (b :: a :: st))
  | _ => vcrash
  end.

Definition call_dup (word : string) : VM unit :=
  ensure_stack word 1 ;;!
  let! s := vget in
  match stack s with v :: _ => push_value v | [] => vcrash end.

Definition call_drop (word : string) : VM unit := pop word ;;! vret tt.

Definition call_over (word : string) : VM unit :=
  ensure_stack word 2 ;;!
  let! s := vget in
  match stack s with _ :: v :: _ => push_value v | _ => vcrash end.

Definition call_rot (word : string) : VM unit :=
  ensure_stack word 3 ;;!
  let! s := vget in
  match stack s with
  | a :: b :: c :: st => vmodify (set_stack (c :: a :: b :: st))
  | _ => vcrash
  end.

Definition call_nip (word : string) : VM unit :=
  ensure_stack word 2 ;;!
  let! top := pop_unchecked in
  pop_unchecked ;;!
  push_value top.

Definition call_tuck (word : string) : VM unit :=
  ensure_stack word 2 ;;!
  let! top := pop_unchecked in
  let! below := pop_unchecked in
  push_value top ;;! push_value below ;;! push_value top.

(** The length reported is that of the restored stack. *)
Definition stack_index (word : string) (k : N -> VM unit) : VM unit :=
  let! s0 := vget in
  let! index := pop_index word in
  let! s := vget in
  if (N.of_nat (length (stack s)) <=? index)%N
  then fail_restoring (stack s0) (VmError.IndexOutOfBounds word index (N.of_nat (length (stack s0))))
  else k index.

Definition call_pick (word : string) : VM unit :=
  stack_index word (fun index =>
    let! s := vget in
    match stack s !! N.to_nat index with Some v => push_value v | None => vcrash end).

Definition call_roll (word : string) : VM unit :=
  stack_index word (fun index =>
    let! s := vget in
    match stack s !! N.to_nat index with
    | Some v => vmodify (set_stack (v :: delete (N.to_nat index) (stack s)))
    | None => vcrash
    end).

Definition call_depth : VM unit :=
  let! s := vget in push_value (Value.Number (Z.of_nat (length (stack s)))).

Definition call_clear : VM unit := vmodify (set_stack []).

(** ** Arithmetic words *)

Definition pop_numeric (word : string) : VM NumericValue :=
  let! v := pop word in
  match numeric_value v with
  | Some n => vret n
  | None => vfail (type_error word "number" v)
  end.

Definition pop_numeric_or_restore (word : string) (before : list Value) : VM NumericValue :=
  on_err (pop_numeric word) (restore_stack before).

(** [match op { Ok(value) => push(value), Err(error) => { restore; Err(error) } }]. *)
Definition push_or_restore (before : list Value) (r : res VmError Value) : VM unit :=
  let! v := on_err (vlift r) (restore_stack before) in push_value v.

Definition numeric_binary (f : string -> NumericValue -> NumericValue -> res VmError Value) (word : string) : VM unit :=
  ensure_stack word 2 ;;!
  let! s := vget in
  let! rhs := pop_numeric_or_restore word (stack s) in
  let! lhs := pop_numeric_or_restore word (stack s) in
  push_or_restore (stack s) (f word lhs rhs).

Definition numeric_unary (f : string -> NumericValue -> res VmError Value) (word : string) : VM unit :=
  ensure_stack word 1 ;;!
  let! s := vget in
  let! v := pop_numeric_or_restore word (stack s) in
  push_or_restore (stack s) (f word v).

Definition call_add : string -> VM unit := numeric_binary numeric_add.
Definition call_subtract : string -> VM unit := numeric_binary numeric_subtract.
Definition call_multiply : string -> VM unit := numeric_binary numeric_multiply.
Definition call_divide : string -> VM unit := numeric_binary numeric_divide.
Definition call_negate : string -> VM unit := numeric_unary numeric_negate.
Definition call_abs : string -> VM unit := numeric_unary numeric_abs.
Definition call_min : string -> VM unit := numeric_binary (fun _ l r => Ok (numeric_min l r)).
Definition call_max : string -> VM unit := numeric_binary (fun _ l r => Ok (numeric_max l r)).

Definition call_modulo (word : string) : VM unit :=
  ensure_stack word 2 ;;!
  let! s := vget in
  let! rhs := pop_number_or_restore word (stack s) in
  let! lhs := pop_number_or_restore word (stack s) in
  if (rhs =? 0)%Z then fail_restoring (stack s) (VmError.DivisionByZero word)
  else match checked_rem lhs rhs with
       | None => fail_restoring (stack s) (VmError.ArithmeticOverflow word)
       | Some v => push_value (Value.Number v)
       end.

Definition call_clamp (word : string) : VM unit :=
  ensure_stack word 3 ;;!
  let! s := vget in
  let! maximum := pop_numeric_or_restore word (stack s) in
  let! minimum := pop_numeric_or_restore word (stack s) in
  let! v := pop_numeric_or_restore word (stack s) in
  push_or_restore (stack s) (numeric_clamp word v minimum maximum).

Definition call_number_comparison (word : string) (compare : comparison -> bool) : VM unit :=
  ensure_stack word 2 ;;!
  let! s := vget in
  let! rhs := pop_numeric_or_restore word (stack s) in
  let! lhs := pop_numeric_or_restore word (stack s) in
  push_value (Value.Bool (match numeric_ordering lhs rhs with Some c => compare c | None => false end)).

(** A range is empty when its bounds are equal; it counts down when they are
    reversed. *)
Definition range_values (start stop : Z) : list Value :=
  if (start <=? stop)%Z
  then (fun i => Value.Number (start + Z.of_nat i)) <$> seq 0 (Z.to_nat (stop - start))
  else (fun i => Value.Number (start - Z.of_nat i)) <$> seq 0 (Z.to_nat (start - stop)).

Definition call_range (word : string) : VM unit :=
  ensure_stack word 2 ;;!
  let! s := vget in
  let! stop := pop_number_or_restore word (stack s) in
  let! start := pop_number_or_restore word (stack s) in
  let! v := new_array (range_values start stop) in
  push_value v.

Definition call_numeric_conversion (word : string) : VM unit :=
  let! v := pop word in
  let! r := vlift (convert_numeric word v) in
  push_value r.

(** ** Booleans and equality *)

Definition condition (v : Value) : VM bool := fun s =>
  match truthy_for_condition (store s) v with
  | Ok b => Val b s
  | _ => Exn VmError.UncheckedResultCondition s
  end.

Definition call_not (word : string) : VM unit :=
  let! s := vget in
  let! v := pop word in
  let! b := on_err (condition v) (restore_stack (stack s)) in
  push_value (Value.Bool (negb b)).

Definition call_boolean_binary (word : string) (combine : bool -> bool -> bool) : VM unit :=
  ensure_stack word 2 ;;!
  let! s := vget in
  let! rhs := pop_unchecked in
  let! lhs := pop_unchecked in
  let! l := on_err (condition lhs) (restore_stack (stack s)) in
  let! r := on_err (condition rhs) (restore_stack (stack s)) in
  push_value (Value.Bool (combine l r)).

(** [left.opaque_value_kind().or_else(|| right.opaque_value_kind())]. *)
Definition opaque_kind (left right : Value) : VM (option string) :=
  let! s := vget in
  let! l := vlift (opaque_value_kind (store s) left) in
  match l with
  | Some k => vret (Some k)
  | None => vlift (opaque_value_kind (store s) right)
  end.

Definition opaque_equality_error (word : string) (left right : Value) : VM (option VmError) :=
  let! k := opaque_kind left right in
  vret (VmError.TypeError word "comparable values" <$> k).

(** [numeric_values_equal(left, right).unwrap_or(left == right)]. *)
Definition language_equal (left right : Value) : VM bool :=
  let! s := vget in
  match numeric_values_equal left right with
  | Some b => vret b
  | None => vlift (values_equal (store s) left right)
  end.

Definition compare_words (word : string) (k : bool -> Value) : VM unit :=
  ensure_stack word 2 ;;!
  let! s := vget in
  let! rhs := pop_unchecked in
  let! lhs := pop_unchecked in
  let! e := opaque_equality_error word lhs rhs in
  match e with
  | Some error => fail_restoring (stack s) error
  | None => let! equal := language_equal lhs rhs in push_value (k equal)
  end.

Definition call_equals (word : string) : VM unit := compare_words word Value.Bool.
Definition call_not_equals (word : string) : VM unit := compare_words word (fun b => Value.Bool (negb b)).

Definition call_assert_equals (word : string) : VM unit :=
  ensure_stack word 2 ;;!
  let! s := vget in
  let! expected := pop_unchecked in
  let! actual := pop_unchecked in
  let! e := opaque_equality_error word actual expected in
  match e with
  | Some error => fail_restoring (stack s) error
  | None =>
      let! equal := language_equal actual expected in
      if equal : bool then vret tt
      else fail_restoring (stack s) (VmError.AssertionFailed (DebugValue expected) (DebugValue actual))
  end.

Definition call_assert (word : string) : VM unit :=
  let! s := vget in
  let! v := pop word in
  match truthy_for_condition (store s) v with
  | Ok true => vret tt
  | Ok false => fail_restoring (stack s) (VmError.AssertionFailed (Plain "truthy") (DebugValue v))
  | _ => fail_restoring (stack s) (VmError.InvalidArgument word "Result values require ok? before assertion")
  end.

Definition call_assert_bool (expected : bool) (word : string) : VM unit :=
  let! s := vget in
  let! v := pop word in
  let name (b : bool) := if b then "true" else "false" in
  match v with
  | Value.Bool b =>
      if Bool.eqb b expected then vret tt
      else fail_restoring (stack s) (VmError.AssertionFailed (Plain (name expected)) (Plain (name b)))
  | v => fail_restoring (stack s) (type_error word "bool" v)
  end.

Definition call_assert_true : string -> VM unit := call_assert_bool true.
Definition call_assert_false : string -> VM unit := call_assert_bool false.

Definition call_assert_ok (word : string) : VM unit :=
  let! s := vget in
  let! v := pop word in
  match v with
  | Value.Result (ROk _) => vret tt
  | Value.Result (RErr e) =>
      fail_restoring (stack s) (VmError.AssertionFailed (Plain "ok result") (DebugResult (RErr e)))
  | v => fail_restoring (stack s) (type_error word "result" v)
  end.

Definition call_assert_error (word : string) : VM unit :=
  let! s := vget in
  let! v := pop word in
  match v with
  | Value.Result (RErr _) => vret tt
  | Value.Result (ROk w) =>
      fail_restoring (stack s) (VmError.AssertionFailed (Plain "error result") (DebugResult (ROk w)))
  | v => fail_restoring (stack s) (type_error word "result" v)
  end.

(** ** Results *)

Definition call_ok (word : string) : VM unit :=
  let! v := pop word in push_value (result_ok v).

(** The operands are gone when a type error is reported. *)
Definition call_fail (word : string) : VM unit :=
  ensure_stack word 2 ;;!
  let! m := pop_string word "error message string" in
  let! k := pop_string word "error kind string" in
  push_value (result_err k m).

Definition call_result_value (word : string) : VM unit :=
  let! s := vget in
  let! v := pop word in
  match v with
  | Value.Result (ROk w) => push_value w
  | Value.Result (RErr _) => fail_restoring (stack s) (VmError.ResultUnwrap word "ok" "error")
  | v => fail_restoring (stack s) (type_error word "result" v)
  end.

Definition call_result_error (word : string) : VM unit :=
  let! s := vget in
  let! v := pop word in
  match v with
  | Value.Result (RErr e) =>
      let! m := new_map (bt_insert "message" (Value.String (message e))
                          (bt_insert "kind" (Value.String (kind e)) [])) in
      push_value m
  | Value.Result (ROk _) => fail_restoring (stack s) (VmError.ResultUnwrap word "error" "ok")
  | v => fail_restoring (stack s) (type_error word "result" v)
  end.

Definition result_envelope_value (r : RicochetResult Value) (meta : btree Value) : VM Value :=
  let capability := match bt_get "capability" meta with
                    | Some (Value.String v) => if String.eqb v "" then None else Some v
                    | _ => None
                    end in
  match r with
  | ROk v =>
      let! meta_map := new_map meta in
      new_map (bt_insert "meta" meta_map (bt_insert "error" Value.Nil
                 (bt_insert "data" v (bt_insert "ok" (Value.Bool true) []))))
  | RErr e =>
      let error_map := bt_insert "message" (Value.String (message e))
                         (bt_insert "code" (Value.String (kind e)) (bt_insert "kind" (Value.String (kind e)) [])) in
      let error_map := match capability with
                       | Some c => bt_insert "capability" (Value.String c) error_map
                       | None => error_map
                       end in
      let! error_value := new_map error_map in
      let! meta_map := new_map meta in
      new_map (bt_insert "meta" meta_map (bt_insert "error" error_value
                 (bt_insert "data" Value.Nil (bt_insert "ok" (Value.Bool false) []))))
  end.

Definition call_result_envelope (word : string) : VM unit :=
  let! s := vget in
  let! options := on_err (pop word) (restore_stack (stack s)) in
  let! v := on_err (pop word) (restore_stack (stack s)) in
  match v with
  | Value.Result r =>
      match options with
      | Value.Map l =>
          let! s' := vget in
          let! e := result_envelope_value r (map_snapshot (store s') l) in
          push_value e
      | options => fail_restoring (stack s) (type_error word "map" options)
      end
  | v => fail_restoring (stack s) (type_error word "result" v)
  end.

(** ** Variables *)

Fixpoint lookup_frames (name : string) (frames : list (btree Value)) : option Value :=
  match frames with
  | [] => None
  | frame :: frames' => match bt_get name frame with
                        | Some v => Some v
                        | None => lookup_frames name frames'
                        end
  end.

Definition lookup_variable (s : Vm) (name : string) : option Value :=
  match lookup_frames name (local_variables s) with
  | Some v => Some v
  | None => bt_get name (variables s)
  end.

(** A global that exists keeps its value. *)
Definition declare_variable (name : string) (v : Value) : VM unit := vmodify (fun s =>
  match local_variables s with
  | frame :: frames => set_scopes (variables s) (bt_insert name v frame :: frames) s
  | [] => if bt_contains_key name (variables s) then s
          else set_scopes (bt_insert name v (variables s)) [] s
  end).

(** The frames with the innermost binding of [name] updated, if there is one. *)
Fixpoint set_frames (name : string) (v : Value) (frames : list (btree Value)) : option (list (btree Value)) :=
  match frames with
  | [] => None
  | frame :: frames' =>
      if bt_contains_key name frame then Some (bt_insert name v frame :: frames')
      else frames1 ← set_frames name v frames'; Some (frame :: frames1)
  end.

Definition set_existing_variable (name : string) (v : Value) : VM bool := fun s =>
  match set_frames name v (local_variables s) with
  | Some frames => Val true (set_scopes (variables s) frames s)
  | None =>
      if bt_contains_key name (variables s)
      then Val true (set_scopes (bt_insert name v (variables s)) (local_variables s) s)
      else Val false s
  end.

Definition push_variable_frame : VM unit :=
  vmodify (fun s => set_scopes (variables s) ([] :: local_variables s) s).

Definition pop_variable_frame : VM (btree Value) := fun s =>
  match local_variables s with
  | frame :: frames => Val frame (set_scopes (variables s) frames s)
  | [] => Crash
  end.

Definition call_field_get (word : string) (before : list Value) (field : string) : VM unit :=
  let! receiver := on_err (pop word) (restore_stack before) in
  let! v := on_err (get_field_for_runtime receiver field) (restore_stack before) in
  push_value v.

Definition call_get (word : string) : VM unit :=
  let! s := vget in
  let! selector := pop word in
  match selector with
  | Value.Member field => call_field_get word (stack s) field
  | Value.String name =>
      match lookup_variable s name with
      | Some v => push_value v
      | None => fail_restoring (stack s) (VmError.UnknownVariable name)
      end
  | v => fail_restoring (stack s) (type_error word "member selector or variable name string" v)
  end.

Definition call_field_set (word : string) (before : list Value) (field : string) : VM unit :=
  let! receiver := on_err (pop word) (restore_stack before) in
  let! v := on_err (pop word) (restore_stack before) in
  push_or_restore before (set_field receiver field v).

Definition call_set (word : string) : VM unit :=
  let! s := vget in
  let! selector := pop word in
  match selector with
  | Value.Member field => call_field_set word (stack s) field
  | Value.String name =>
      let! v := on_err (pop word) (restore_stack (stack s)) in
      let! found := set_existing_variable name v in
      if found : bool then vret tt
      else fail_restoring (stack s) (VmError.UnknownVariable name)
  | v => fail_restoring (stack s) (type_error word "member selector or variable name string" v)
  end.

(** Declares nil when nothing is below the name. *)
Definition call_var (word : string) : VM unit :=
  let! s := vget in
  let! v := pop word in
  match v with
  | Value.String name =>
      let! s' := vget in
      match stack s' with
      | w :: st => vmodify (set_stack st) ;;! declare_variable name w
      | [] => declare_variable name Value.Nil
      end
  | v => fail_restoring (stack s) (type_error word "variable name string" v)
  end.

Definition call_self (word : string) : VM unit :=
  let! s := vget in
  match self_stack s with
  | v :: _ => push_value v
  | [] => vfail (VmError.NoCurrentSelf word)
  end.

(** ** Classes *)

Definition pop_class_name (word expected : string) (before : list Value) : VM string :=
  let! v := pop_unchecked in
  match v with
  | Value.Class name | Value.String name => vret name
  | v => fail_restoring before (type_error word expected v)
  end.

Definition pop_name (word expected : string) (before : list Value) : VM string :=
  let! v := pop_unchecked in
  match v with
  | Value.String name => vret name
  | v => fail_restoring before (type_error word expected v)
  end.

(** [match self.classes.get_mut(name) { Some(class) => f(class), None => error }]. *)
Definition update_class (name : string) (before : list Value) (f : Class -> Class) : VM unit := fun s =>
  match bt_get name (classes s) with
  | Some c => Val tt (set_classes (bt_insert name (f c) (classes s)) s)
  | None => Exn (VmError.UnknownClass name) (set_stack before s)
  end.

Definition call_targeted_table (word : string) : VM unit :=
  ensure_stack word 2 ;;!
  let! s := vget in
  let! table := pop_name word "table name string" (stack s) in
  let! class := pop_class_name word "class or class name string" (stack s) in
  update_class class (stack s) (class_set_table table).

Definition call_table (word : string) : VM unit :=
  let! s := vget in
  match current_class s with
  | None => call_targeted_table word
  | Some _ =>
      let! v := pop word in
      match v with
      | Value.String table =>
          on_err (update_current_class word (class_set_table table)) (restore_stack (stack s))
      | v => fail_restoring (stack s) (type_error word "table name string" v)
      end
  end.

Definition call_field_declaration (word : string) : VM unit :=
  ensure_stack word 2 ;;!
  let! s := vget in
  let! field := pop_name word "field name string" (stack s) in
  let! class := pop_class_name word "class or class name string" (stack s) in
  update_class class (stack s) (class_add_field field).

Definition call_targeted_accessor (word : string) : VM unit :=
  ensure_stack word 2 ;;!
  let! s := vget in
  let! field := pop_name word "field name string" (stack s) in
  let! class := pop_class_name word "class or class name string" (stack s) in
  let! s' := vget in
  vmodify (set_current_class (Some class)) ;;!
  let! r := vtry (add_accessor field) in
  vmodify (set_current_class (current_class s')) ;;!
  on_err (vlift r) (restore_stack (stack s)).

Definition call_accessor_declaration (word : string) : VM unit :=
  let! s := vget in
  match current_class s with
  | None => call_targeted_accessor word
  | Some _ =>
      let! v := pop word in
      match v with
      | Value.String field => on_err (add_accessor field) (restore_stack (stack s))
      | v => fail_restoring (stack s) (type_error word "field name string" v)
      end
  end.

Definition call_subclass (word : string) : VM unit :=
  ensure_stack word 2 ;;!
  let! s := vget in
  let! super := pop_class_name word "class or class name string" (stack s) in
  let! class := pop_name word "class name string" (stack s) in
  on_err (define_class class super) (restore_stack (stack s)) ;;! end_class.

Definition call_install_current_class_method (word : string) : VM unit :=
  ensure_stack word 2 ;;!
  let! s := vget in
  let! method := pop_name word "method name string" (stack s) in
  let! v := pop_unchecked in
  match v with
  | Value.Block body => on_err (add_bytecode_method method body None) (restore_stack (stack s))
  | v => fail_restoring (stack s) (type_error word "method block" v)
  end.

(** The built-in collection classes. *)
Definition new_collection (name : string) : option (VM Value) :=
  if String.eqb name "Array" then Some (new_array [])
  else if String.eqb name "List" then Some (new_list [])
  else if String.eqb name "Map" then Some (new_map [])
  else if String.eqb name "Set" then Some (let! l := new_cell (CSet []) in vret (Value.Set_ l))
  else None.

Definition call_new (word : string) : VM unit :=
  let! s := vget in
  let! v := pop word in
  match v with
  | Value.String name | Value.Class name =>
      match new_collection name with
      | Some m => let! c := m in push_value c
      | None => push_or_restore (stack s) (new_instance (classes s) name)
      end
  | v => fail_restoring (stack s) (type_error word "class or class name string" v)
  end.

(** A name on top declares a variable holding the new collection. *)
Definition declare_or_push (v : Value) (otherwise : Value) : VM unit :=
  let! s := vget in
  match stack s with
  | Value.String name :: st => vmodify (set_stack st) ;;! declare_variable name v
  | _ => push_value otherwise
  end.

Definition call_collection_declaration_or_constructor (m : VM Value) : VM unit :=
  let! v := m in declare_or_push v v.

Definition call_collection_class_or_declaration (name : string) : VM unit :=
  match new_collection name with
  | Some m => let! v := m in declare_or_push v (Value.Class name)
  | None => vcrash
  end.

(** ** Collections *)

(** [snapshot.contains(value)]: the candidates on the left of [==]. *)
Fixpoint contains_value (h : heap) (vs : list Value) (v : Value) : res VmError bool :=
  match vs with
  | [] => Ok false
  | w :: vs' => let? e := values_equal h w v in if e : bool then Ok true else contains_value h vs' v
  end.

(** [iter().position(|candidate| candidate == value)]. *)
Fixpoint position_value (h : heap) (vs : list Value) (v : Value) : res VmError (option nat) :=
  match vs with
  | [] => Ok None
  | w :: vs' =>
      let? e := values_equal h w v in
      if e : bool then Ok (Some 0) else let? i := position_value h vs' v in Ok (S <$> i)
  end.

(** [reject_opaque_set_operation]: the kind that forbids the operation. *)
Fixpoint first_opaque (h : heap) (vs : list Value) : res VmError (option string) :=
  match vs with
  | [] => Ok None
  | v :: vs' =>
      let? k := opaque_value_kind h v in
      match k with Some k => Ok (Some k) | None => first_opaque h vs' end
  end.

Definition reject_opaque_set_operation (h : heap) (stored : list Value) (candidate : Value) : res VmError (option string) :=
  first_opaque h (stored ++ [candidate])%list.

Definition collection_equality_error (word actual : string) : VmError :=
  VmError.TypeError word "comparable values" actual.

(** [SetValue::insert], with the error a word reports. *)
Definition set_insert (word : string) (l : loc) (v : Value) : VM bool :=
  let! s := vget in
  let vs := snapshot (store s) l in
  let! k := vlift (reject_opaque_set_operation (store s) vs v) in
  match k with
  | Some actual => vfail (collection_equality_error word actual)
  | None =>
      let! found := vlift (contains_value (store s) vs v) in
      if found : bool then vret false
      else write_cell l (CSet (vs ++ [v])%list) ;;! vret true
  end.

(** [SetValue::try_from]. *)
Fixpoint insert_all (word : string) (l : loc) (vs : list Value) : VM unit :=
  match vs with
  | [] => vret tt
  | v :: vs' => set_insert word l v ;;! insert_all word l vs'
  end.

Definition new_set (word : string) (vs : list Value) : VM Value :=
  let! l := new_cell (CSet []) in
  insert_all word l vs ;;!
  vret (Value.Set_ l).

Definition call_push (word : string) : VM unit :=
  ensure_stack word 2 ;;!
  let! s := vget in
  let! v := pop_unchecked in
  let! c := pop_unchecked in
  match c with
  | Value.Array l => write_cell l (CArray (snapshot (store s) l ++ [v])%list) ;;! push_value c
  | Value.List l => write_cell l (CList (snapshot (store s) l ++ [v])%list) ;;! push_value c
  | Value.Set_ l =>
      let! e := opaque_equality_error word (Value.Set_ l) v in
      match e with
      | Some error => fail_restoring (stack s) error
      | None => set_insert word l v ;;! push_value c
      end
  | c => fail_restoring (stack s) (type_error word "array, list, or set" c)
  end.

Definition call_put (word : string) : VM unit :=
  ensure_stack word 3 ;;!
  let! s := vget in
  let! v := pop_unchecked in
  let! key := pop_name word "map key string" (stack s) in
  let! c := pop_unchecked in
  match c with
  | Value.Map l => write_cell l (CMap (bt_insert key v (map_snapshot (store s) l))) ;;! push_value c
  | c => fail_restoring (stack s) (type_error word "map" c)
  end.

(** ** Predicates and reflection *)

Definition is_known_predicate (name : string) : bool := existsb (String.eqb name) ["ok?"; "nil?"; "empty?"].

Definition predicate_expected_receiver (name : string) : string :=
  if String.eqb name "ok?" then "result"
  else if String.eqb name "empty?" then "string, array, or map"
  else if String.eqb name "nil?" then "any value"
  else "value".

Definition call_predicate (word : string) : VM unit :=
  ensure_stack word 1 ;;!
  let! s := vget in
  match stack s with
  | v :: st =>
      match value_predicate (store s) v word with
      | Some result => vmodify (set_stack (result :: st))
      | None =>
          if is_known_predicate word
          then vfail (type_error word (predicate_expected_receiver word) v)
          else vfail (VmError.UnknownWord word)
      end
  | [] => vcrash
  end.

Definition is_opaque (v : Value) : bool :=
  match v with
  | Value.DeferredHttpCredentials _ | Value.SecretRef _ | Value.SecureSessionAction _ => true
  | _ => false
  end.

Definition call_type (word : string) : VM unit :=
  let! v := pop word in
  if is_opaque v then vfail (type_error word "language value" v)
  else push_value (Value.String (value_kind v)).

Definition builtin_class_name (v : Value) : option string :=
  match v with
  | Value.Nil => Some "Nil"
  | Value.Bool _ => Some "Bool"
  | Value.Number _ => Some "Number"
  | Value.Float _ => Some "Float"
  | Value.String _ => Some "String"
  | Value.Array _ => Some "Array"
  | Value.List _ => Some "List"
  | Value.Map _ => Some "Map"
  | Value.Set_ _ => Some "Set"
  | Value.Class _ => Some "Class"
  | Value.Member _ => Some "Member"
  | Value.Block _ => Some "Block"
  | Value.Task _ => Some "Task"
  | Value.Result _ => Some "Result"
  | Value.Regex _ => Some "Regex"
  | Value.Capability _ => Some "Capability"
  | _ => None
  end.

Definition call_class_of (word : string) : VM unit :=
  let! v := pop word in
  match v with
  | Value.Instance c _ => push_value (Value.Class c)
  | v => match builtin_class_name v with
         | Some c => push_value (Value.Class c)
         | None => vfail (type_error word "language value" v)
         end
  end.

Definition call_instance_of (word : string) : VM unit :=
  ensure_stack word 2 ;;!
  let! c := pop_unchecked in
  match c with
  | Value.Class class | Value.String class =>
      let! v := pop_unchecked in
      let! s := vget in
      let! matches := match v with
        | Value.Instance name _ =>
            let! chain := vlift (inheritance_chain (classes s) name) in
            vret (existsb (fun c => String.eqb (cls_name c) class) chain)
        | v => vret (match builtin_class_name v with Some n => String.eqb n class | None => false end)
        end in
      push_value (Value.Bool matches)
  | c => vfail (type_error word "class or class name string" c)
  end.

Definition class_name_from_value (v : Value) (word : string) : VM string :=
  match v with
  | Value.Class c => vret c
  | Value.Instance c _ => vret c
  | v => vfail (type_error word "class or instance" v)
  end.

(** The fields, the root class's first, without repetition. *)
Definition chain_fields (chain : list Class) : list string :=
  foldl (fun fs f => if existsb (String.eqb f) fs then fs else (fs ++ [f])%list) []
    (flat_map cls_fields (reverse chain)).

Definition call_fields (word : string) : VM unit :=
  let! v := pop word in
  let! name := class_name_from_value v word in
  let! s := vget in
  let! chain := vlift (inheritance_chain (classes s) name) in
  let! a := new_array (Value.String <$> chain_fields chain) in
  push_value a.

Definition call_methods (word : string) : VM unit :=
  let! v := pop word in
  let! name := class_name_from_value v word in
  let! s := vget in
  let! chain := vlift (inheritance_chain (classes s) name) in
  let names := flat_map (fun c => bt_keys (native_methods c) ++ bt_keys (bytecode_methods c))%list (reverse chain) in
  let! m := vtry (new_set word (Value.String <$> names)) in
  match m with
  | Ok set => push_value set
  | Err _ => vcrash
  | Panic => vcrash
  | OutOfFuel => fun _ => NoFuel
  end.

Definition call_callable (word : string) : VM unit :=
  let! v := pop word in
  push_value (Value.Bool (match v with Value.Block _ | Value.Class _ => true | _ => false end)).

(** ** Output *)

Definition call_println (word : string) : VM unit :=
  let! v := pop word in
  let text := output_string v in
  vmodify (fun s => set_output (output_lines s ++ [text])%list (stdout s ++ [text; Plain (String (ascii_of_nat 10) "")])%list s).

Definition call_print (word : string) : VM unit :=
  let! v := pop word in
  vmodify (fun s => set_output (output_lines s) (stdout s ++ [display_value v])%list s).
