(* ===== verification/VmMethods.v ===== *)
(** * Built-in methods

    The methods of strings, arrays, lists, sets, maps and results
    ([crates/ricochet_vm/src/builtins.rs]).  A built-in method pops its
    arguments from the stack and returns a value; [call_builtin_method] restores
    the stack when it fails.  Methods that take a block call back into the
    machine through [call_block_with_args], a parameter here that [Vm.v]
    instantiates.  The methods of tasks, regular expressions and host
    capabilities, and the string methods that need Unicode tables or regular
    expressions, are the parameter [host_method]. *)

From stdpp Require Import base tactics list strings option numbers.
From Stdlib Require Import ZArith NArith Lia Ascii String.
From S2P Require Import Prelude RustStr RustText RustFloat Bytecode BTree Value ValueEq Opaque VmState Numeric VmClass VmWords.

Open Scope list_scope.
Open Scope nat_scope.
Open Scope string_scope.

Definition one_of (method : string) (names : list string) : bool := existsb (String.eqb method) names.

Definition builtin_method_exists (receiver : Value) (method : string) : bool :=
  match receiver with
  | Value.String _ => one_of method
      ["length"; "count"; "at"; "first"; "last"; "take"; "skip"; "reverse"; "contains?"; "starts_with?";
       "ends_with?"; "blank?"; "trim"; "trim_start"; "trim_end"; "uppercase"; "lowercase"; "slice"; "index_of";
       "last_index_of"; "repeat"; "lines"; "chars"; "split"; "replace"; "concat"; "to_number"]
  | Value.Array _ | Value.List _ => one_of method
      ["count"; "at"; "first"; "last"; "take"; "skip"; "reverse"; "has?"; "push"; "insert_at"; "remove";
       "remove_at"; "clear_items"; "each"; "transform"; "select"; "reduce"; "find"; "any?"; "all?"; "join"]
  | Value.Set_ _ => one_of method
      ["count"; "first"; "last"; "take"; "skip"; "reverse"; "has?"; "push"; "remove"; "clear_items"; "each";
       "transform"; "select"; "reduce"; "find"; "any?"; "all?"; "join"]
  | Value.Map _ => one_of method
      ["count"; "at"; "has?"; "keys"; "values"; "put"; "remove"; "clear_items"; "each"; "transform"; "select";
       "find"; "any?"; "all?"]
  | Value.Result _ => one_of method ["error?"; "unwrap_or"; "map_result"; "and_then"]
  | Value.Task _ => one_of method ["id"; "info"; "task_status"; "pending?"; "running?"; "completed?"; "failed?"]
  | Value.Capability Capability.FileSystem => one_of method
      ["read_text"; "write_text"; "exists?"; "list"; "create_dir"; "delete"]
  | Value.Capability Capability.Http => one_of method
      ["get"; "post_json"; "request"; "get_task"; "post_json_task"; "request_task"]
  | Value.Capability Capability.Terminal => one_of method
      ["enter"; "leave"; "clear"; "move_to"; "write"; "flush"; "size"; "poll_key"; "read_key"]
  | Value.Capability Capability.Webview => one_of method
      ["text"; "heading"; "button"; "command"; "command_button"; "action"; "input"; "link"; "container"; "toolbar";
       "sidebar"; "tabs"; "split_pane"; "table"; "form_row"; "status_bar"; "menu"; "menu_bar"; "open_file";
       "save_file"; "choose_folder"; "clipboard_read"; "clipboard_write"; "open_url"; "window"; "window_app"; "document"]
  | Value.Regex _ => one_of method ["matches?"; "regex_find"; "captures"; "regex_replace"]
  | _ => false
  end.

(** ** Helpers *)

Definition method_type_error (word expected : string) (v : Value) : VmError := type_error word expected v.
Definition method_receiver_type_error (word expected : string) (v : Value) : VmError :=
  type_error word ("receiver " ++ expected) v.

Definition number_from_usize (word : string) (n : nat) : res VmError Value :=
  if (Z.of_nat n <=? i64_max)%Z then Ok (Value.Number (Z.of_nat n)) else Err (VmError.ArithmeticOverflow word).

Definition condition_value (word : string) (v : Value) : VM bool := fun s =>
  match truthy_for_condition (store s) v with
  | Ok b => Val b s
  | _ => Exn (VmError.InvalidArgument word "Result values require ok? before use as a predicate") s
  end.

Definition reject_opaque_equality_operands (word : string) (receiver argument : Value) : VM unit :=
  let! k := opaque_kind receiver argument in
  match k with
  | Some actual => vfail (VmError.TypeError word "comparable values" actual)
  | None => vret tt
  end.

Definition collection_arguments (h : heap) (receiver : Value) (method : string) : res VmError (list (list Value)) :=
  match receiver with
  | Value.Array l | Value.List l | Value.Set_ l => Ok ((fun v => [v]) <$> snapshot h l)
  | Value.Map l => Ok ((fun kv => [Value.String kv.1; kv.2]) <$> map_snapshot h l)
  | v => Err (method_type_error method "collection" v)
  end.

Definition sequence_snapshot (h : heap) (receiver : Value) (method : string) : res VmError (list Value) :=
  match receiver with
  | Value.Array l | Value.List l | Value.Set_ l => Ok (snapshot h l)
  | v => Err (method_type_error method "array, list, or set" v)
  end.

(** A new collection of the receiver's kind. *)
Definition collection_from_sequence_receiver (receiver : Value) (vs : list Value) (method : string) : VM Value :=
  match receiver with
  | Value.Array _ => new_array vs
  | Value.List _ => new_list vs
  | Value.Set_ _ => new_set method vs
  | v => vfail (method_type_error method "array, list, or set" v)
  end.

Definition collection_length (h : heap) (receiver : Value) : nat :=
  match receiver with
  | Value.Array l | Value.List l | Value.Set_ l => length (snapshot h l)
  | Value.Map l => length (map_snapshot h l)
  | _ => 0
  end.

(** The characters of a string value. *)
Definition string_chars (s : string) : VM (list char) := vlift (chars s).
Definition string_of_chars (cs : list char) : Value := Value.String (from_bytes (encode cs)).

(** ** Elements *)

Definition method_count (receiver : Value) (method : string) : VM Value :=
  let! s := vget in
  match receiver with
  | Value.String str => let! cs := string_chars str in vlift (number_from_usize method (length cs))
  | Value.Array l | Value.List l | Value.Set_ l => vlift (number_from_usize method (length (snapshot (store s) l)))
  | Value.Map l => vlift (number_from_usize method (length (map_snapshot (store s) l)))
  | v => vfail (method_type_error method "countable value" v)
  end.

(** A missing element is nil, and recorded. *)
Definition or_nil (v : option Value) (m : msg) : VM Value :=
  match v with
  | Some v => vret v
  | None => record_nil_producing_lookup m ;;! vret Value.Nil
  end.

Definition method_at (receiver : Value) (method : string) : VM Value :=
  match receiver with
  | Value.String str =>
      let! index := pop_index method in
      let! cs := string_chars str in
      or_nil ((fun c => string_of_chars [c]) <$> cs !! N.to_nat index)
        [Disp method; Lit " returned nil for string index "; Disp (show_N index)]
  | Value.Array l =>
      let! index := pop_index method in
      let! s := vget in
      or_nil (snapshot (store s) l !! N.to_nat index)
        [Disp method; Lit " returned nil for array index "; Disp (show_N index)]
  | Value.List l =>
      let! index := pop_index method in
      let! s := vget in
      or_nil (snapshot (store s) l !! N.to_nat index)
        [Disp method; Lit " returned nil for list index "; Disp (show_N index)]
  | Value.Map l =>
      let! key := pop_string method "map key string" in
      let! s := vget in
      or_nil (bt_get key (map_snapshot (store s) l))
        [Disp method; Lit " returned nil for missing map key "; Dbg key]
  | v => vfail (method_type_error method "string, array, list, or map" v)
  end.

(** [first] and [last], over the end they take. *)
Definition method_end (pick : forall A : Type, list A -> option A) (receiver : Value) (method : string) : VM Value :=
  let! s := vget in
  match receiver with
  | Value.String str =>
      let! cs := string_chars str in
      or_nil ((fun c => string_of_chars [c]) <$> pick _ cs) [Disp method; Lit " returned nil for empty string"]
  | Value.Array l => or_nil (pick _ (snapshot (store s) l)) [Disp method; Lit " returned nil for empty array"]
  | Value.List l => or_nil (pick _ (snapshot (store s) l)) [Disp method; Lit " returned nil for empty list"]
  | Value.Set_ l => or_nil (pick _ (snapshot (store s) l)) [Disp method; Lit " returned nil for empty set"]
  | v => vfail (method_type_error method "string, array, list, or set" v)
  end.

Definition method_first : Value -> string -> VM Value := method_end (fun _ l => l !! 0).
Definition method_last : Value -> string -> VM Value := method_end (fun _ l => list.last l).

(** [take], [skip] and [reverse]: a part of a string or of a sequence. *)
Definition method_part (part : forall A : Type, list A -> list A) (receiver : Value) (method : string) : VM Value :=
  match receiver with
  | Value.String str => let! cs := string_chars str in vret (string_of_chars (part _ cs))
  | receiver =>
      let! s := vget in
      let! vs := vlift (sequence_snapshot (store s) receiver method) in
      collection_from_sequence_receiver receiver (part _ vs) method
  end.

Definition method_take (receiver : Value) (method : string) : VM Value :=
  let! count := pop_index method in method_part (fun _ l => take (N.to_nat count) l) receiver method.
Definition method_skip (receiver : Value) (method : string) : VM Value :=
  let! count := pop_index method in method_part (fun _ l => drop (N.to_nat count) l) receiver method.
Definition method_reverse (receiver : Value) (method : string) : VM Value :=
  method_part (fun _ l => reverse l) receiver method.

(** [haystack.contains(needle)] on strings. *)
Fixpoint string_contains (needle haystack : string) : bool :=
  starts_with needle haystack ||
  match haystack with
  | EmptyString => false
  | String _ rest => string_contains needle rest
  end.

Definition method_has (receiver : Value) (method : string) : VM Value :=
  let! needle := pop method in
  match receiver with
  | Value.String _ | Value.Map _ => vret tt
  | _ => reject_opaque_equality_operands method receiver needle
  end ;;!
  let! s := vget in
  let! result := match receiver with
    | Value.String str =>
        match needle with
        | Value.String n => vret (string_contains n str)
        | needle => vfail (method_type_error method "string needle" needle)
        end
    | Value.Array l | Value.List l => vlift (contains_value (store s) (snapshot (store s) l) needle)
    | Value.Set_ l =>
        let! k := vlift (reject_opaque_set_operation (store s) (snapshot (store s) l) needle) in
        match k with
        | Some actual => vfail (collection_equality_error method actual)
        | None => vlift (contains_value (store s) (snapshot (store s) l) needle)
        end
    | Value.Map l =>
        match needle with
        | Value.String key => vret (bt_contains_key key (map_snapshot (store s) l))
        | needle => vfail (method_type_error method "map key string" needle)
        end
    | v => vfail (method_type_error method "collection or string" v)
    end in
  vret (Value.Bool result).

Definition method_keys (receiver : Value) (method : string) : VM Value :=
  let! s := vget in
  match receiver with
  | Value.Map l => new_array (Value.String <$> bt_keys (map_snapshot (store s) l))
  | v => vfail (method_type_error method "map" v)
  end.

Definition method_values (receiver : Value) (method : string) : VM Value :=
  let! s := vget in
  match receiver with
  | Value.Map l => new_array (bt_values (map_snapshot (store s) l))
  | v => vfail (method_type_error method "map" v)
  end.

(** ** Updates *)

Definition method_push (receiver : Value) (method : string) : VM Value :=
  let! v := pop method in
  let! s := vget in
  match receiver with
  | Value.Array l => write_cell l (CArray (snapshot (store s) l ++ [v])%list) ;;! vret receiver
  | Value.List l => write_cell l (CList (snapshot (store s) l ++ [v])%list) ;;! vret receiver
  | Value.Set_ l =>
      reject_opaque_equality_operands method receiver v ;;!
      set_insert method l v ;;!
      vret receiver
  | r => vfail (method_type_error method "array, list, or set" r)
  end.

Definition method_put (receiver : Value) (method : string) : VM Value :=
  let! v := pop method in
  let! key := pop_string method "map key string" in
  let! s := vget in
  match receiver with
  | Value.Map l => write_cell l (CMap (bt_insert key v (map_snapshot (store s) l))) ;;! vret receiver
  | r => vfail (method_type_error method "map" r)
  end.

(** The cell of a sequence with other contents. *)
Definition write_sequence (receiver : Value) (vs : list Value) : VM unit :=
  match receiver with
  | Value.Array l => write_cell l (CArray vs)
  | Value.List l => write_cell l (CList vs)
  | Value.Set_ l => write_cell l (CSet vs)
  | _ => vret tt
  end.

Definition method_insert (receiver : Value) (method : string) : VM Value :=
  let! v := pop method in
  let! index := pop_index method in
  let! s := vget in
  match receiver with
  | Value.Array l | Value.List l =>
      let vs := snapshot (store s) l in
      if (N.of_nat (length vs) <? index)%N
      then vfail (VmError.IndexOutOfBounds method index (N.of_nat (length vs)))
      else write_sequence receiver (take (N.to_nat index) vs ++ v :: drop (N.to_nat index) vs)%list ;;! vret receiver
  | r => vfail (method_type_error method "array or list" r)
  end.

(** Remove the first element equal to the target, if any. *)
Definition remove_first (receiver : Value) (l : loc) (target : Value) : VM unit :=
  let! s := vget in
  let vs := snapshot (store s) l in
  let! i := vlift (position_value (store s) vs target) in
  match i with
  | Some i => write_sequence receiver (delete i vs)
  | None => vret tt
  end.

Definition method_remove (receiver : Value) (method : string) : VM Value :=
  let! target := pop method in
  match receiver with
  | Value.Map _ => vret tt
  | _ => reject_opaque_equality_operands method receiver target
  end ;;!
  let! s := vget in
  match receiver with
  | Value.Array l | Value.List l => remove_first receiver l target
  | Value.Set_ l =>
      let! k := vlift (reject_opaque_set_operation (store s) (snapshot (store s) l) target) in
      match k with
      | Some actual => vfail (collection_equality_error method actual)
      | None => remove_first receiver l target
      end
  | Value.Map l =>
      match target with
      | Value.String key => write_cell l (CMap (bt_remove key (map_snapshot (store s) l)))
      | target => vfail (method_type_error method "map key string" target)
      end
  | v => vfail (method_type_error method "array, list, set, or map" v)
  end ;;!
  vret receiver.

Definition method_remove_at (receiver : Value) (method : string) : VM Value :=
  let! index := pop_index method in
  let! s := vget in
  match receiver with
  | Value.Array l | Value.List l =>
      let vs := snapshot (store s) l in
      if (index <? N.of_nat (length vs))%N
      then write_sequence receiver (delete (N.to_nat index) vs) ;;! vret receiver
      else vfail (VmError.IndexOutOfBounds method index (N.of_nat (length vs)))
  | r => vfail (method_type_error method "array or list" r)
  end.

Definition method_clear (receiver : Value) (method : string) : VM Value :=
  match receiver with
  | Value.Array _ | Value.List _ | Value.Set_ _ => write_sequence receiver [] ;;! vret receiver
  | Value.Map l => write_cell l (CMap []) ;;! vret receiver
  | v => vfail (method_type_error method "collection" v)
  end.

(** ** Strings *)

Definition string_unary (receiver : Value) (method : string) (f : list char -> list char) : VM Value :=
  match receiver with
  | Value.String str => let! cs := string_chars str in vret (string_of_chars (f cs))
  | v => vfail (method_receiver_type_error method "string" v)
  end.

Definition string_predicate (receiver : Value) (method : string) (p : string -> string -> bool) : VM Value :=
  match receiver with
  | Value.String str =>
      let! needle := pop_string method "string below receiver" in
      vret (Value.Bool (p str needle))
  | v => vfail (method_receiver_type_error method "string" v)
  end.

(** [value.ends_with(needle)]. *)
Definition ends_with (needle s : string) : bool :=
  (String.length needle <=? String.length s)%nat &&
  String.eqb (substring (String.length s - String.length needle) (String.length needle) s) needle.

Definition method_blank (receiver : Value) (method : string) : VM Value :=
  match receiver with
  | Value.String str => let! cs := string_chars str in vret (Value.Bool (is_empty (trim_end_chars (trim_start_chars cs))))
  | v => vfail (method_receiver_type_error method "string" v)
  end.

Definition method_slice (receiver : Value) (method : string) : VM Value :=
  match receiver with
  | Value.String str =>
      let! count := pop_index method in
      let! start := pop_index method in
      let! cs := string_chars str in
      vret (string_of_chars (take (N.to_nat count) (drop (N.to_nat start) cs)))
  | v => vfail (method_receiver_type_error method "string" v)
  end.

Definition byte_to_char_index (s : string) (i : nat) : res VmError nat :=
  let? prefix := slice (as_bytes s) 0 i in
  let? cs := chars prefix in
  Ok (length cs).

Definition method_find_index (find : string -> string -> option nat) (receiver : Value) (method : string) : VM Value :=
  match receiver with
  | Value.String str =>
      let! needle := pop_string method "needle string below receiver" in
      match find needle str with
      | Some i =>
          let! n := vlift (byte_to_char_index str i) in
          vlift (number_from_usize method n)
      | None => vret Value.Nil
      end
  | v => vfail (method_receiver_type_error method "string" v)
  end.

Definition method_index_of : Value -> string -> VM Value := method_find_index string_find.
Definition method_last_index_of : Value -> string -> VM Value := method_find_index string_rfind.

Definition method_concat (receiver : Value) (method : string) : VM Value :=
  match receiver with
  | Value.String str => let! suffix := pop_string method "string" in vret (Value.String (str ++ suffix))
  | v => vfail (method_receiver_type_error method "string" v)
  end.

Definition method_to_number (receiver : Value) (method : string) : VM Value :=
  match receiver with
  | Value.String str =>
      vret (match parse_i64 str with
            | Some n => result_ok (Value.Number n)
            | None => result_err "ParseError" (parse_int_error str)
            end)
  | v => vfail (method_receiver_type_error method "string" v)
  end.

Definition method_chars (receiver : Value) (method : string) : VM Value :=
  match receiver with
  | Value.String str => let! cs := string_chars str in new_array ((fun c => string_of_chars [c]) <$> cs)
  | v => vfail (method_receiver_type_error method "string" v)
  end.

Definition method_split (receiver : Value) (method : string) : VM Value :=
  match receiver with
  | Value.String str =>
      let! delimiter := pop_string method "delimiter string" in
      if String.eqb delimiter "" then
        let! cs := string_chars str in new_array ((fun c => string_of_chars [c]) <$> cs)
      else new_array (Value.String <$> split_string delimiter str)
  | v => vfail (method_receiver_type_error method "string" v)
  end.

Fixpoint all_strings (vs : list Value) (method : string) : res VmError (list string) :=
  match vs with
  | [] => Ok []
  | Value.String str :: vs' => let? strs := all_strings vs' method in Ok (str :: strs)
  | v :: _ => Err (method_type_error method "collection of strings" v)
  end.

Definition method_join (receiver : Value) (method : string) : VM Value :=
  let! delimiter := pop_string method "delimiter string" in
  let! s := vget in
  let! vs := vlift (sequence_snapshot (store s) receiver method) in
  let! strs := vlift (all_strings vs method) in
  vret (Value.String (String.concat delimiter strs)).

(** [value.replace(pattern, replacement)]; an empty pattern matches around
    every character. *)
Definition method_replace (receiver : Value) (method : string) : VM Value :=
  match receiver with
  | Value.String str =>
      let! replacement := pop_string method "replacement string" in
      let! pattern := pop_string method "pattern string" in
      if String.eqb pattern "" then
        let! cs := string_chars str in
        vret (Value.String (replacement ++ String.concat "" ((fun c => from_bytes (encode [c]) ++ replacement) <$> cs)))
      else vret (Value.String (String.concat replacement (split_string pattern str)))
  | v => vfail (method_receiver_type_error method "string" v)
  end.

(** [usize::checked_mul]: the capacity of the result is checked, then the
    string is repeated. *)
Definition method_repeat (receiver : Value) (method : string) : VM Value :=
  match receiver with
  | Value.String str =>
      let! count := pop_index method in
      if (N.of_nat (String.length str) * count <=? usize_max)%N
      then vret (Value.String (from_bytes (concat (replicate (N.to_nat count) (as_bytes str)))))
      else vfail (VmError.ArithmeticOverflow method)
  | v => vfail (method_receiver_type_error method "string" v)
  end.

Definition method_result_error (receiver : Value) (method : string) : VM Value :=
  match receiver with
  | Value.Result (ROk _) => vret (Value.Bool false)
  | Value.Result (RErr _) => vret (Value.Bool true)
  | v => vfail (method_type_error method "result" v)
  end.

Definition method_unwrap_or (receiver : Value) (method : string) : VM Value :=
  let! fallback := pop method in
  match receiver with
  | Value.Result (ROk v) => vret v
  | Value.Result (RErr _) => vret fallback
  | v => vfail (method_type_error method "result" v)
  end.

(** ** Methods that call blocks *)

Section blocks.
(** [call_bytecode_block_with_args(frame, block, arguments)]. *)
Variable call_block_with_args : string -> Chunk -> list Value -> VM Value.

Fixpoint each_loop (method : string) (block : Chunk) (rows : list (list Value)) : VM unit :=
  match rows with
  | [] => vret tt
  | arguments :: rows' =>
      call_block_with_args method block arguments ;;! each_loop method block rows'
  end.

Definition rows_of (receiver : Value) (method : string) : VM (list (list Value)) :=
  let! s := vget in vlift (collection_arguments (store s) receiver method).

Definition method_each (receiver : Value) (method : string) : VM Value :=
  let! block := pop_block method in
  let! rows := rows_of receiver method in
  each_loop method block rows ;;!
  vret receiver.

Fixpoint transform_loop (method : string) (block : Chunk) (rows : list (list Value)) : VM (list Value) :=
  match rows with
  | [] => vret []
  | arguments :: rows' =>
      let! v := call_block_with_args method block arguments in
      let! vs := transform_loop method block rows' in
      vret (v :: vs)
  end.

Definition method_transform (receiver : Value) (method : string) : VM Value :=
  let! block := pop_block method in
  let! rows := rows_of receiver method in
  let! output := transform_loop method block rows in
  new_array output.

Fixpoint select_loop (method : string) (block : Chunk) (vs : list Value) : VM (list Value) :=
  match vs with
  | [] => vret []
  | v :: vs' =>
      let! keep := call_block_with_args method block [v] in
      let! b := condition_value method keep in
      let! selected := select_loop method block vs' in
      vret (if b : bool then v :: selected else selected)
  end.

(** The entries are inserted into the map already allocated. *)
Fixpoint select_entries (method : string) (block : Chunk) (l : loc) (entries : btree Value) : VM unit :=
  match entries with
  | [] => vret tt
  | (key, v) :: entries' =>
      let! keep := call_block_with_args method block [Value.String key; v] in
      let! b := condition_value method keep in
      (if b : bool
       then let! s := vget in write_cell l (CMap (bt_insert key v (map_snapshot (store s) l)))
       else vret tt) ;;!
      select_entries method block l entries'
  end.

Definition method_select (receiver : Value) (method : string) : VM Value :=
  let! block := pop_block method in
  match receiver with
  | Value.Map m =>
      let! l := new_cell (CMap []) in
      let! s := vget in
      select_entries method block l (map_snapshot (store s) m) ;;!
      vret (Value.Map l)
  | receiver =>
      let! s := vget in
      let! vs := vlift (sequence_snapshot (store s) receiver method) in
      let! selected := select_loop method block vs in
      collection_from_sequence_receiver receiver selected method
  end.

Fixpoint reduce_loop (method : string) (block : Chunk) (accumulator : Value) (vs : list Value) : VM Value :=
  match vs with
  | [] => vret accumulator
  | v :: vs' =>
      let! next := call_block_with_args method block [accumulator; v] in
      reduce_loop method block next vs'
  end.

Definition method_reduce (receiver : Value) (method : string) : VM Value :=
  let! block := pop_block method in
  let! accumulator := pop method in
  let! s := vget in
  let! vs := vlift (sequence_snapshot (store s) receiver method) in
  reduce_loop method block accumulator vs.

(** The first row the block accepts. *)
Fixpoint find_loop (method : string) (block : Chunk) (rows : list (list Value)) : VM (option (list Value)) :=
  match rows with
  | [] => vret None
  | arguments :: rows' =>
      let! matched := call_block_with_args method block arguments in
      let! b := condition_value method matched in
      if b : bool then vret (Some arguments) else find_loop method block rows'
  end.

Definition method_find (receiver : Value) (method : string) : VM Value :=
  let! block := pop_block method in
  let! rows := rows_of receiver method in
  let! found := find_loop method block rows in
  vret (match found with Some arguments => default Value.Nil (list.last arguments) | None => Value.Nil end).

Definition method_any (receiver : Value) (method : string) : VM Value :=
  let! block := pop_block method in
  let! rows := rows_of receiver method in
  let! found := find_loop method block rows in
  vret (Value.Bool (match found with Some _ => true | None => false end)).

Fixpoint all_loop (method : string) (block : Chunk) (rows : list (list Value)) : VM bool :=
  match rows with
  | [] => vret true
  | arguments :: rows' =>
      let! matched := call_block_with_args method block arguments in
      let! b := condition_value method matched in
      if b : bool then all_loop method block rows' else vret false
  end.

Definition method_all (receiver : Value) (method : string) : VM Value :=
  let! block := pop_block method in
  let! rows := rows_of receiver method in
  let! b := all_loop method block rows in
  vret (Value.Bool b).

Definition method_map_result (receiver : Value) (method : string) : VM Value :=
  let! block := pop_block method in
  match receiver with
  | Value.Result (ROk v) => let! w := call_block_with_args method block [v] in vret (result_ok w)
  | Value.Result (RErr e) => vret (Value.Result (RErr e))
  | v => vfail (method_type_error method "result" v)
  end.

Definition method_and_then (receiver : Value) (method : string) : VM Value :=
  let! block := pop_block method in
  match receiver with
  | Value.Result (ROk v) =>
      let! result := call_block_with_args method block [v] in
      match result with
      | Value.Result _ => vret result
      | result => vfail (method_type_error method "block returning result" result)
      end
  | Value.Result (RErr e) => vret (Value.Result (RErr e))
  | v => vfail (method_type_error method "result" v)
  end.

(** ** Dispatch *)

(** Tasks, regular expressions, capabilities, letter case. *)
Variable host_method : Value -> string -> VM Value.

Definition methods_table : list (string * (Value -> string -> VM Value)) :=
  [("count", method_count); ("length", method_count); ("at", method_at); ("first", method_first);
   ("last", method_last); ("take", method_take); ("skip", method_skip); ("reverse", method_reverse);
   ("has?", method_has); ("contains?", method_has); ("keys", method_keys); ("values", method_values);
   ("push", method_push); ("put", method_put); ("insert_at", method_insert); ("remove", method_remove);
   ("remove_at", method_remove_at); ("clear_items", method_clear); ("each", method_each);
   ("transform", method_transform); ("select", method_select); ("reduce", method_reduce); ("find", method_find);
   ("any?", method_any); ("all?", method_all); ("blank?", method_blank);
   ("trim", fun r m => string_unary r m (fun cs => trim_end_chars (trim_start_chars cs)));
   ("trim_start", fun r m => string_unary r m trim_start_chars);
   ("trim_end", fun r m => string_unary r m trim_end_chars);
   ("slice", method_slice); ("index_of", method_index_of); ("last_index_of", method_last_index_of);
   ("repeat", method_repeat); ("chars", method_chars);
   ("starts_with?", fun r m => string_predicate r m (fun s needle => starts_with needle s));
   ("ends_with?", fun r m => string_predicate r m (fun s needle => ends_with needle s));
   ("split", method_split); ("join", method_join); ("replace", method_replace); ("concat", method_concat);
   ("to_number", method_to_number); ("error?", method_result_error); ("unwrap_or", method_unwrap_or);
   ("map_result", method_map_result); ("and_then", method_and_then)].

Definition host_methods : list string :=
  ["clear"; "regex_find"; "uppercase"; "lowercase"; "lines"; "regex_replace"; "id"; "info"; "task_status";
   "pending?"; "running?"; "completed?"; "failed?"; "read_text"; "write_text"; "exists?"; "list"; "create_dir";
   "delete"; "get"; "post_json"; "request"; "get_task"; "post_json_task"; "request_task"; "enter"; "leave";
   "move_to"; "write"; "flush"; "size"; "poll_key"; "read_key"; "text"; "heading"; "button"; "command";
   "command_button"; "action"; "input"; "link"; "container"; "toolbar"; "sidebar"; "tabs"; "split_pane"; "table";
   "form_row"; "status_bar"; "menu"; "menu_bar"; "open_file"; "save_file"; "choose_folder"; "clipboard_read";
   "clipboard_write"; "open_url"; "window_state"; "window_app"; "window"; "document"; "matches?"; "captures"].

Definition call_builtin_method_inner (receiver : Value) (method : string) : VM Value :=
  match bt_get method methods_table with
  | Some f => f receiver method
  | None =>
      if one_of method host_methods then host_method receiver method
      else vfail (VmError.UnknownMethod (value_kind receiver) method)
  end.

Definition call_builtin_method (receiver : Value) (method : string) : VM Value :=
  let! s := vget in
  on_err (call_builtin_method_inner receiver method) (restore_stack (stack s)).
End blocks.
