(* ===== verification/Vm.v ===== *)
(** * The virtual machine: calls, dispatch and the execution loop

    [run_chunk], [execute_instruction], [call_word] and the calls into blocks,
    functions and methods of [crates/ricochet_vm/src/vm.rs].

    Execution is fuel-indexed: every instruction of a chunk, and every chunk
    called from it, runs with one unit less, so the fuel bounds the length of
    a run and the nesting of its calls together.  Debugger hooks are not
    modelled (a machine without a debugger attached).  The words of tasks,
    dynamic modules, files, HTTP, sockets, processes, terminals, windows, time
    and JSON are the parameter [host_word], those of host objects
    [host_method]. *)

From stdpp Require Import base tactics list strings option numbers.
From Stdlib Require Import ZArith NArith Lia Ascii String.
From S2P Require Import Prelude RustStr RustText RustFloat Bytecode BTree Value ValueEq Opaque VmState Numeric VmClass VmWords.
From S2P Require Import VmMethods.

Open Scope list_scope.
Open Scope nat_scope.
Open Scope string_scope.

Module ExecutionSignal.
Inductive ExecutionSignal : Type := Continue | Jump (target : N) | Return.
End ExecutionSignal.
Abbreviation ExecutionSignal := ExecutionSignal.ExecutionSignal.

Definition consume_instruction_budget : VM unit := fun s =>
  match instruction_limit (config s) with
  | Some limit =>
      if (limit <=? instructions_executed s)%N
      then Exn (VmError.InstructionLimitExceeded (instructions_executed s) limit) s
      else Val tt (set_instructions_executed (instructions_executed s + 1) s)
  | None => Val tt (set_instructions_executed (instructions_executed s + 1) s)
  end.

Definition validate_jump (target : N) (chunk : Chunk) : VM unit :=
  if (N.of_nat (length (instructions chunk)) <? target)%N
  then vfail (VmError.InvalidJump target (length (instructions chunk)))
  else vret tt.

Definition get_block (chunk : Chunk) (block : N) : VM Chunk :=
  match blocks chunk !! N.to_nat block with
  | Some b => vret b
  | None => vfail (VmError.InvalidBlock block (length (blocks chunk)))
  end.

(** Words that run on the machine alone. *)
Definition simple_words : list (string * (string -> VM unit)) :=
  [("+", call_add); ("add", call_add); ("-", call_subtract); ("subtract", call_subtract);
   ("*", call_multiply); ("multiply", call_multiply); ("/", call_divide); ("divide", call_divide);
   ("%", call_modulo); ("modulo", call_modulo); ("negate", call_negate); ("abs", call_abs);
   ("min", call_min); ("max", call_max); ("clamp", call_clamp); ("not", call_not);
   ("and", fun w => call_boolean_binary w andb); ("or", fun w => call_boolean_binary w orb);
   ("equals", call_equals); ("=", call_equals); ("not_equals?", call_not_equals); ("!=", call_not_equals);
   ("assert", call_assert); ("assert_true", call_assert_true); ("assert_false", call_assert_false);
   ("assert_ok", call_assert_ok); ("assert_error", call_assert_error); ("assert_equals", call_assert_equals);
   ("less_than?", fun w => call_number_comparison w (fun c => match c with Lt => true | _ => false end));
   ("<", fun w => call_number_comparison w (fun c => match c with Lt => true | _ => false end));
   ("greater_than?", fun w => call_number_comparison w (fun c => match c with Gt => true | _ => false end));
   (">", fun w => call_number_comparison w (fun c => match c with Gt => true | _ => false end));
   ("less_or_equals?", fun w => call_number_comparison w (fun c => match c with Gt => false | _ => true end));
   ("<=", fun w => call_number_comparison w (fun c => match c with Gt => false | _ => true end));
   ("greater_or_equals?", fun w => call_number_comparison w (fun c => match c with Lt => false | _ => true end));
   (">=", fun w => call_number_comparison w (fun c => match c with Lt => false | _ => true end));
   ("self", call_self); ("get", call_get); ("set", call_set); ("var", call_var);
   ("Field", call_field_declaration); ("Accessor", call_accessor_declaration); ("Table", call_table);
   ("Subclass", call_subclass); ("Method", call_install_current_class_method); ("new", call_new);
   ("swap", call_swap); ("dup", call_dup); ("drop", call_drop); ("over", call_over); ("rot", call_rot);
   ("nip", call_nip); ("tuck", call_tuck); ("pick", call_pick); ("roll", call_roll);
   ("depth", fun _ => call_depth); ("clear", fun _ => call_clear);
   ("push", call_push); ("put", call_put);
   ("println", call_println); ("print", call_print);
   ("fs", fun w => let! c := enabled_capability w Capability.FileSystem in push_value c);
   ("http", fun w => let! c := enabled_capability w Capability.Http in push_value c);
   ("tui", fun w => let! c := enabled_capability w Capability.Terminal in push_value c);
   ("webview", fun w => let! c := enabled_capability w Capability.Webview in push_value c);
   ("value", call_result_value); ("error", call_result_error); ("ok", call_ok); ("fail", call_fail);
   ("result_envelope", call_result_envelope); ("range", call_range);
   ("to_number", call_numeric_conversion); ("to_integer", call_numeric_conversion);
   ("to_bigint", call_numeric_conversion); ("to_int", call_numeric_conversion);
   ("to_mediumint", call_numeric_conversion); ("to_smallint", call_numeric_conversion);
   ("to_tinyint", call_numeric_conversion); ("to_bit", call_numeric_conversion);
   ("to_unsigned_int", call_numeric_conversion); ("to_unsigned_mediumint", call_numeric_conversion);
   ("to_unsigned_smallint", call_numeric_conversion); ("to_unsigned_tinyint", call_numeric_conversion);
   ("to_unsigned_bigint", call_numeric_conversion); ("to_float", call_numeric_conversion);
   ("to_float32", call_numeric_conversion); ("to_float64", call_numeric_conversion);
   ("to_double", call_numeric_conversion); ("to_real", call_numeric_conversion);
   ("type", call_type); ("class_of", call_class_of); ("instance_of?", call_instance_of);
   ("fields", call_fields); ("methods", call_methods); ("callable?", call_callable);
   ("Array", call_collection_class_or_declaration); ("List", call_collection_class_or_declaration);
   ("Map", call_collection_class_or_declaration); ("Set", call_collection_class_or_declaration);
   ("array", fun _ => call_collection_declaration_or_constructor (new_array []));
   ("list", fun _ => call_collection_declaration_or_constructor (new_list []));
   ("map", fun _ => call_collection_declaration_or_constructor (new_map []))].

(** Words that call a method of a host capability. *)
Definition capability_words : list (string * (Capability * string)) :=
  [("fs_read_text", (Capability.FileSystem, "read_text")); ("fs_write_text", (Capability.FileSystem, "write_text"));
   ("fs_exists?", (Capability.FileSystem, "exists?")); ("fs_list", (Capability.FileSystem, "list"));
   ("fs_create_dir", (Capability.FileSystem, "create_dir")); ("fs_delete", (Capability.FileSystem, "delete"));
   ("http_get", (Capability.Http, "get")); ("http_post_json", (Capability.Http, "post_json"));
   ("http_request", (Capability.Http, "request")); ("http_get_task", (Capability.Http, "get_task"));
   ("http_post_json_task", (Capability.Http, "post_json_task")); ("http_request_task", (Capability.Http, "request_task"));
   ("tui_enter", (Capability.Terminal, "enter")); ("tui_leave", (Capability.Terminal, "leave"));
   ("tui_clear", (Capability.Terminal, "clear")); ("tui_move_to", (Capability.Terminal, "move_to"));
   ("tui_write", (Capability.Terminal, "write")); ("tui_flush", (Capability.Terminal, "flush"));
   ("tui_size", (Capability.Terminal, "size")); ("tui_poll_key", (Capability.Terminal, "poll_key"));
   ("tui_read_key", (Capability.Terminal, "read_key"));
   ("webview_text", (Capability.Webview, "text")); ("webview_heading", (Capability.Webview, "heading"));
   ("webview_button", (Capability.Webview, "button")); ("web_command", (Capability.Webview, "command"));
   ("web_command_button", (Capability.Webview, "command_button")); ("webview_action", (Capability.Webview, "action"));
   ("webview_input", (Capability.Webview, "input")); ("webview_link", (Capability.Webview, "link"));
   ("webview_container", (Capability.Webview, "container")); ("web_toolbar", (Capability.Webview, "toolbar"));
   ("web_sidebar", (Capability.Webview, "sidebar")); ("web_tabs", (Capability.Webview, "tabs"));
   ("web_split_pane", (Capability.Webview, "split_pane")); ("web_table", (Capability.Webview, "table"));
   ("web_form_row", (Capability.Webview, "form_row")); ("web_status_bar", (Capability.Webview, "status_bar"));
   ("web_menu", (Capability.Webview, "menu")); ("web_menu_bar", (Capability.Webview, "menu_bar"));
   ("webview_open_file", (Capability.Webview, "open_file")); ("webview_save_file", (Capability.Webview, "save_file"));
   ("webview_choose_folder", (Capability.Webview, "choose_folder"));
   ("webview_clipboard_read", (Capability.Webview, "clipboard_read"));
   ("webview_clipboard_write", (Capability.Webview, "clipboard_write"));
   ("webview_open_url", (Capability.Webview, "open_url")); ("webview_window_state", (Capability.Webview, "window_state"));
   ("webview_window_app", (Capability.Webview, "window_app")); ("webview_window", (Capability.Webview, "window"));
   ("webview_document", (Capability.Webview, "window"))].

(** The words left to the host. *)
Definition host_words : list string :=
  ["spawn"; "await"; "await_all"; "release_task"; "tasks"; "import_dynamic"; "module_call"; "module_get";
   "workspace_resolve"; "workspace_contains?"; "workspace_metadata"; "workspace_list"; "workspace_read_text";
   "workspace_read_text_snapshot"; "workspace_write_text"; "workspace_mkdir"; "workspace_delete"; "workspace_copy";
   "workspace_move"; "config_get"; "secret_env"; "secret_literal"; "secret_resolve"; "secret_session_get";
   "secret_session_present?"; "password_hash"; "password_verify"; "http_request_new"; "http_header_put";
   "http_bearer_auth"; "http_json_body"; "http_timeout"; "http_stream_start"; "http_streams"; "http_stream";
   "http_stream_read"; "http_stream_cancel"; "http_stream_release"; "upload_streams"; "upload_stream"; "upload_read";
   "upload_release"; "tcp_listen"; "tcp_listeners"; "tcp_listener"; "tcp_accept"; "tcp_listener_close";
   "tcp_listener_release"; "tcp_connect"; "tcp_connections"; "tcp_connection"; "tcp_write"; "tcp_read"; "tcp_close";
   "tcp_release"; "ws_listen"; "ws_listeners"; "ws_listener"; "ws_accept"; "ws_listener_close"; "ws_listener_release";
   "ws_connect"; "ws_connections"; "ws_connection"; "ws_send"; "ws_read"; "ws_close"; "ws_release"; "process_env_put";
   "process_spawn"; "process_spawn_task"; "process_start"; "process_jobs"; "process_job"; "process_cancel";
   "process_release"; "process_write"; "process_read"; "pty_start"; "pty_write"; "pty_read"; "pty_resize"; "pty_stop";
   "pty_release"; "pty_list"; "pty_detail"; "approval_create"; "approval_claim"; "approval_complete";
   "approval_reject"; "approval_detail"; "approval_release"; "webview_secure_session_action"; "inspect"; "debug";
   "eprint"; "read_line"; "args"; "env"; "env_get"; "env_set"; "cwd"; "runtime_capabilities"; "now"; "timestamp_now";
   "timestamp_parse"; "timestamp_format"; "timestamp_format_pattern"; "timestamp_parts"; "timestamp_from_parts";
   "timestamp_add"; "timestamp_diff"; "date_from_timestamp"; "date_to_timestamp"; "date_parse"; "date_format";
   "date_add_days"; "date_diff_days"; "duration_millis"; "duration_seconds"; "duration_minutes"; "duration_hours";
   "duration_days"; "duration_weeks"; "duration_parts"; "sleep"; "random"; "exit"; "view"; "text"; "json"; "redirect";
   "status"; "header"; "regex"; "to_string"; "json_encode"; "json_decode"].

Section machine.
Variables (host_word : string -> VM unit) (host_method : Value -> string -> VM Value).

(** ** Calls, over the runner of chunks *)

Section calls.
(** [run_chunk_with_frame(chunk, frame, allow_return)]. *)
Variable run : Chunk -> string -> bool -> VM ExecutionSignal.

(** What a call does with its frame of the stack: the values above [base] are
    dropped, the top one is the result. *)
Definition close_frame (base : nat) (available : nat) (r : res VmError ExecutionSignal) : VM Value := fun s =>
  let truncate (st : list Value) := drop (length st - base)%nat st in
  match r with
  | Ok (ExecutionSignal.Jump target) => Exn (VmError.InvalidJump target available) s
  | Ok _ =>
      match stack s with
      | v :: st => if (base <? length (stack s))%nat
                   then Val v (set_stack (truncate st) s) else Val Value.Nil (set_stack (truncate (stack s)) s)
      | [] => Val Value.Nil s
      end
  | Err e => Exn e (set_stack (truncate (stack s)) s)
  | Panic => Crash
  | OutOfFuel => NoFuel
  end.

Definition call_bytecode_block_with_args (frame : string) (block : Chunk) (arguments : list Value) : VM Value :=
  let! s := vget in
  vmodify (fun s => set_stack (reverse arguments ++ stack s)%list s) ;;!
  let! r := vtry (run block frame true) in
  close_frame (length (stack s)) (length (instructions block)) r.

Definition call_bytecode_function (name : string) (function : Chunk) (input_count : nat) : VM Value :=
  ensure_stack name input_count ;;!
  let! s := vget in
  push_variable_frame ;;!
  let! r := vtry (run function name true) in
  let! frame := pop_variable_frame in
  vmodify (set_last_call_variables frame) ;;!
  close_frame (length (stack s) - input_count) (length (instructions function)) r.

Definition pop_self : VM unit := fun s =>
  match self_stack s with
  | _ :: st => Val tt (set_self_stack st s)
  | [] => Crash
  end.

Definition call_bytecode_method (receiver : Value) (frame : string) (method : Chunk) (input_count : nat) : VM Value :=
  ensure_stack frame input_count ;;!
  let! s := vget in
  vmodify (fun s => set_self_stack (receiver :: self_stack s) s) ;;!
  push_variable_frame ;;!
  let! r := vtry (run method frame true) in
  let! locals := pop_variable_frame in
  vmodify (set_last_call_variables locals) ;;!
  pop_self ;;!
  close_frame (length (stack s) - input_count) (length (instructions method)) r.

Definition builtin_method : Value -> string -> VM Value :=
  call_builtin_method call_bytecode_block_with_args host_method.

Definition input_count (args : option ArgsSpec) : nat :=
  match args with Some a => length (spec_inputs a) | None => 0 end.

Definition call_method_value (receiver : Value) (method_name : string) : VM Value :=
  if builtin_method_exists receiver method_name then builtin_method receiver method_name
  else
    let! s := vget in
    match receiver with
    | Value.Class class_name =>
        let! m := vlift (resolve_native_method (classes s) class_name method_name) in
        match m with
        | Some (owner, method) => call_native_method receiver (owner ++ "." ++ method_name) method
        | None => vfail (VmError.UnknownMethod class_name method_name)
        end
    | Value.Instance class_name _ =>
        let! m := vlift (resolve_instance_method (classes s) class_name method_name) in
        match m with
        | Some (Native owner method) => call_native_method receiver (owner ++ "." ++ method_name) method
        | Some (Bytecode owner method) =>
            call_bytecode_method receiver (owner ++ "." ++ method_name) (callable_chunk method)
              (input_count (callable_args method))
        | None => vfail (VmError.UnknownMethod class_name method_name)
        end
    | v => vfail (type_error ("call_method " ++ method_name) "class or instance" v)
    end.

(** [match call { Ok(value) => push(value), Err(error) => { self.stack = before; Err(error) } }]. *)
Definition push_result_or_restore (before : list Value) (m : VM Value) : VM unit :=
  let! v := on_err m (restore_stack before) in push_value v.

Definition receiver_method_exists (name : string) : VM bool :=
  let! s := vget in
  match stack s with
  | Value.Class c :: _ =>
      let! m := vlift (resolve_native_method (classes s) c name) in
      vret (match m with Some _ => true | None => false end)
  | Value.Instance c _ :: _ =>
      let! m := vlift (resolve_instance_method (classes s) c name) in
      vret (match m with Some _ => true | None => false end)
  | v :: _ => vret (builtin_method_exists v name)
  | [] => vret false
  end.

Definition call_top_receiver_method (name : string) : VM unit :=
  let! s := vget in
  let! receiver := pop_unchecked in
  push_result_or_restore (stack s) (call_method_value receiver name).

Definition call_method_or_member (name : string) : VM unit :=
  let! should_dispatch := receiver_method_exists name in
  if should_dispatch : bool then call_top_receiver_method name
  else push_value (Value.Member name).

Definition call_function (name : string) : VM unit :=
  let! s := vget in
  match bt_get name (functions s) with
  | Some f =>
      let! v := call_bytecode_function name (callable_chunk f) (input_count (callable_args f)) in
      push_value v
  | None =>
      if bt_contains_key name (classes s) then push_value (Value.Class name)
      else
        let! exists_ := receiver_method_exists name in
        if exists_ : bool then call_top_receiver_method name
        else vfail (VmError.UnknownWord name)
  end.

Definition call_question_word (word : string) : VM unit :=
  if is_known_predicate word then
    let! exists_ := receiver_method_exists word in
    if exists_ : bool then call_top_receiver_method word else call_predicate word
  else
    let! r := vtry (call_function word) in
    match r with
    | Err (VmError.UnknownWord _) =>
        record_unknown_question_word_fallback word ;;! call_predicate word
    | r => vlift r
    end.

Definition call_block (word : string) : VM unit :=
  let! s := vget in
  let! v := pop word in
  match v with
  | Value.Block block =>
      push_result_or_restore (stack s) (call_bytecode_block_with_args "<block>" block [])
  | v => fail_restoring (stack s) (type_error word "block" v)
  end.

Definition call_send (word : string) : VM unit :=
  let! s := vget in
  let! v := pop word in
  match v with
  | Value.String method_name =>
      let! receiver := on_err (pop word) (restore_stack (stack s)) in
      push_result_or_restore (stack s) (call_method_value receiver method_name)
  | v => fail_restoring (stack s) (type_error word "method name string" v)
  end.

Definition call_receiver_argument_method (word method : string) : VM unit :=
  ensure_stack word 2 ;;!
  let! s := vget in
  let! argument := pop_unchecked in
  let! receiver := pop_unchecked in
  push_value argument ;;!
  push_result_or_restore (stack s) (builtin_method receiver method).

Definition call_receiver_two_argument_method (word method : string) : VM unit :=
  ensure_stack word 3 ;;!
  let! s := vget in
  let! second := pop_unchecked in
  let! first := pop_unchecked in
  let! receiver := pop_unchecked in
  push_value first ;;! push_value second ;;!
  push_result_or_restore (stack s) (builtin_method receiver method).

Definition call_capability_method_word (word : string) (c : Capability) (method : string) : VM unit :=
  let! capability := enabled_capability word c in
  let! v := builtin_method capability method in
  push_value v.

Definition call_responds_to (word : string) : VM unit :=
  ensure_stack word 2 ;;!
  let! receiver := pop_unchecked in
  let! method := pop_string word "method name string" in
  let! s := vget in
  let! responds :=
    if builtin_method_exists receiver method then vret true
    else match receiver with
         | Value.Class c =>
             let! m := vlift (resolve_native_method (classes s) c method) in
             vret (match m with Some _ => true | None => false end)
         | Value.Instance c _ =>
             let! m := vlift (resolve_instance_method (classes s) c method) in
             vret (match m with Some _ => true | None => false end)
         | _ => vret false
         end in
  push_value (Value.Bool responds).

Definition argument_words : list string :=
  ["at"; "has?"; "contains?"; "take"; "skip"; "repeat"; "split"; "join"; "concat"; "index_of"; "last_index_of";
   "starts_with?"; "ends_with?"; "remove"; "remove_at"].

Definition two_argument_words : list string := ["slice"; "replace"; "regex_replace"; "insert_at"].

Definition call_word (word : string) : VM unit :=
  match bt_get word simple_words with
  | Some f => f word
  | None =>
      if String.eqb word "call" then call_block word
      else if String.eqb word "send" then call_send word
      else if String.eqb word "responds_to?" then call_responds_to word
      else if one_of word argument_words then call_receiver_argument_method word word
      else if one_of word two_argument_words then call_receiver_two_argument_method word word
      else match bt_get word capability_words with
           | Some (c, method) => call_capability_method_word word c method
           | None =>
               if one_of word host_words then host_word word
               else
                 let! receiver_word := if one_of word ["info"; "task_status"]
                                       then receiver_method_exists word else vret false in
                 if receiver_word : bool then call_top_receiver_method word
                 else if ends_with "?" word then call_question_word word
                 else call_function word
           end
  end.

(** ** Instructions *)

Definition execute_instruction (o : Op) (chunk : Chunk) (allow_return : bool) : VM ExecutionSignal :=
  match o with
  | Op.PushNil => push_value Value.Nil ;;! vret ExecutionSignal.Continue
  | Op.PushBool b => push_value (Value.Bool b) ;;! vret ExecutionSignal.Continue
  | Op.PushNumber n => push_value (Value.Number n) ;;! vret ExecutionSignal.Continue
  | Op.PushFloat x => push_value (Value.Float x) ;;! vret ExecutionSignal.Continue
  | Op.PushString str => push_value (Value.String str) ;;! vret ExecutionSignal.Continue
  | Op.PushBlock block =>
      let! b := get_block chunk block in
      push_value (Value.Block b) ;;! vret ExecutionSignal.Continue
  | Op.CallMethod name => call_method_or_member name ;;! vret ExecutionSignal.Continue
  | Op.CallWord word => call_word word ;;! vret ExecutionSignal.Continue
  | Op.BeginClass name super => define_class name super ;;! vret ExecutionSignal.Continue
  | Op.EndClass => end_class ;;! vret ExecutionSignal.Continue
  | Op.AddField name => add_field name ;;! vret ExecutionSignal.Continue
  | Op.AddAccessor name => add_accessor name ;;! vret ExecutionSignal.Continue
  | Op.AddMethod name block args =>
      let! method := get_block chunk block in
      add_bytecode_method name method args ;;! vret ExecutionSignal.Continue
  | Op.AddFunction name block args =>
      let! function := get_block chunk block in
      add_function name function args ;;! vret ExecutionSignal.Continue
  | Op.Return => if allow_return then vret ExecutionSignal.Return else vfail (VmError.UnsupportedOpcode o)
  | Op.JumpIfFalse target =>
      validate_jump target chunk ;;!
      let! s := vget in
      let! v := pop "if" in
      let! b := on_err (condition v) (restore_stack (stack s)) in
      vret (if b : bool then ExecutionSignal.Continue else ExecutionSignal.Jump target)
  | Op.Jump target => validate_jump target chunk ;;! vret (ExecutionSignal.Jump target)
  | Op.Pop => pop "pop" ;;! vret ExecutionSignal.Continue
  | o => vfail (VmError.UnsupportedOpcode o)
  end.
End calls.

(** The site of the innermost instruction that failed is kept. *)
Definition record_error_site (frame : string) (i : Instruction) (s : Vm) : Vm :=
  match last_error_site s with
  | Some _ => s
  | None => set_last_error_site (Some (mkSite frame (ispan i) (op i))) s
  end.

(** ** The loop *)

Fixpoint run_from (fuel : nat) (chunk : Chunk) (frame : string) (allow_return : bool) (ip : N) : VM ExecutionSignal :=
  match fuel with
  | O => fun _ => NoFuel
  | S fuel' =>
      match instructions chunk !! N.to_nat ip with
      | None => vret ExecutionSignal.Continue
      | Some i =>
          consume_instruction_budget ;;!
          let! signal := on_err
            (execute_instruction (fun c f a => run_from fuel' c f a 0) (op i) chunk allow_return)
            (record_error_site frame i) in
          match signal with
          | ExecutionSignal.Continue => run_from fuel' chunk frame allow_return (ip + 1)
          | ExecutionSignal.Jump target => run_from fuel' chunk frame allow_return target
          | ExecutionSignal.Return => vret ExecutionSignal.Return
          end
      end
  end.

Definition run_chunk_with_frame (fuel : nat) (chunk : Chunk) (frame : string) (allow_return : bool)
    : VM ExecutionSignal :=
  run_from fuel chunk frame allow_return 0.

Definition run_chunk (fuel : nat) (chunk : Chunk) : VM unit :=
  vmodify (fun s => set_instructions_executed 0 (set_last_error_site None s)) ;;!
  run_chunk_with_frame fuel chunk "<main>" false ;;!
  vret tt.
End machine.
