(* ===== verification/VmFrames.v ===== *)
(** * Every run is bounded and balanced

    Two facts about all code the machine runs, proved together because they
    follow the same structure.  With an instruction limit a run ends: the fuel
    that covers the limit is never exhausted, whatever the program.  And a run
    leaves the machine's control state as it found it, also when it fails:
    the local variable frames and the self stack have the depth they had, the
    instruction counter has only grown, the configuration is unchanged. *)

From stdpp Require Import base tactics list strings option numbers.
From Stdlib Require Import ZArith NArith Lia Ascii String.
From S2P Require Import Prelude RustStr RustText RustFloat Bytecode BTree Value SetMatch ValueEq ValueEqProofs Opaque VmState.
From S2P Require Import Numeric VmClass VmWords VmMethods Vm.

Open Scope list_scope.
Open Scope nat_scope.
Open Scope string_scope.

(** ** The property *)

Definition balanced (s s' : Vm) : Prop :=
  config s' = config s /\ (instructions_executed s <= instructions_executed s')%N /\
  length (local_variables s') = length (local_variables s) /\ self_stack s' = self_stack s.

(** [fuel] covers what is left of the instruction limit. *)
Definition covered (fuel : nat) (s : Vm) : Prop :=
  exists limit, instruction_limit (config s) = Some limit /\ (limit - instructions_executed s < N.of_nat fuel)%N.

(** An outcome, from [s], of code whose nested runs have [fuel]. *)
Definition sane_from (fuel : nat) {A : Type} (s : Vm) (o : out A) : Prop :=
  match o with
  | Val _ s' | Exn _ s' => balanced s s'
  | Crash => True
  | NoFuel => ~ covered fuel s
  end.

Definition sane (fuel : nat) {A : Type} (m : VM A) : Prop := forall s, sane_from fuel s (m s).

Lemma balanced_refl s : balanced s s.
Proof. unfold balanced. repeat split; lia. Qed.

Lemma balanced_trans s1 s2 s3 : balanced s1 s2 -> balanced s2 s3 -> balanced s1 s3.
Proof. intros (Hc & Hi & Hl & Hs) (Hc' & Hi' & Hl' & Hs'). unfold balanced. repeat split; try congruence. lia. Qed.

Lemma covered_balanced fuel s s' : balanced s s' -> covered fuel s -> covered fuel s'.
Proof. intros (Hc & Hi & _) (limit & Hl & Hlt). exists limit. rewrite Hc. split; [done|lia]. Qed.

Section rules.
Variable fuel : nat.
Context {A B : Type}.

Lemma sane_ret (a : A) : sane fuel (vret a).
Proof. intros s. apply balanced_refl. Qed.

Lemma sane_fail e : sane fuel (A:=A) (vfail e).
Proof. intros s. apply balanced_refl. Qed.

Lemma sane_crash : sane fuel (A:=A) vcrash.
Proof. by intros s. Qed.

Lemma sane_get : sane fuel vget.
Proof. intros s. apply balanced_refl. Qed.

Lemma sane_bind (m : VM A) (k : A -> VM B) : sane fuel m -> (forall a, sane fuel (k a)) -> sane fuel (vbind m k).
Proof.
  intros Hm Hk s. unfold vbind. specialize (Hm s). destruct (m s) as [a s'|e s'| |]; try done.
  specialize (Hk a s'). destruct (k a s') as [b s''|e s''| |]; try done; try (by eapply balanced_trans).
  intros Hc. by apply Hk, (covered_balanced _ s).
Qed.

Lemma sane_modify f : (forall s, balanced s (f s)) -> sane fuel (vmodify f).
Proof. intros Hf s. apply Hf. Qed.

Lemma sane_lift (r : res VmError A) : r <> OutOfFuel -> sane fuel (vlift r).
Proof. intros Hr s. unfold vlift. destruct r; try done; apply balanced_refl. Qed.

Lemma sane_on_err (m : VM A) f : sane fuel m -> (forall s, balanced s (f s)) -> sane fuel (on_err m f).
Proof.
  intros Hm Hf s. unfold on_err. specialize (Hm s). destruct (m s); try done. eapply balanced_trans; [exact Hm|apply Hf].
Qed.

(** A caught outcome is never the end of the fuel. *)
Lemma sane_try_bind (m : VM A) (k : res VmError A -> VM B) :
  sane fuel m -> (forall r, r <> OutOfFuel -> sane fuel (k r)) -> sane fuel (vbind (vtry m) k).
Proof.
  intros Hm Hk s. unfold vbind, vtry. specialize (Hm s). destruct (m s) as [a s'|e s'| |]; try done.
  - specialize (Hk (Ok a) ltac:(done) s'). destruct (k (Ok a) s'); try done; try (by eapply balanced_trans).
    intros Hc. by apply Hk, (covered_balanced _ s).
  - specialize (Hk (Err e) ltac:(done) s'). destruct (k (Err e) s'); try done; try (by eapply balanced_trans).
    intros Hc. by apply Hk, (covered_balanced _ s).
Qed.

Lemma sane_try (m : VM A) : sane fuel m -> sane fuel (vtry m).
Proof. intros Hm s. unfold vtry. specialize (Hm s). by destruct (m s). Qed.
End rules.

(** Changes the property does not see. *)
Lemma balanced_stack st s : balanced s (set_stack st s).
Proof. unfold balanced. simpl. repeat split; lia. Qed.
Lemma balanced_store h s : balanced s (set_store h s).
Proof. unfold balanced. simpl. repeat split; lia. Qed.
Lemma balanced_classes c s : balanced s (set_classes c s).
Proof. unfold balanced. simpl. repeat split; lia. Qed.
Lemma balanced_current c s : balanced s (set_current_class c s).
Proof. unfold balanced. simpl. repeat split; lia. Qed.
Lemma balanced_functions c s : balanced s (set_functions c s).
Proof. unfold balanced. simpl. repeat split; lia. Qed.
Lemma balanced_output l o s : balanced s (set_output l o s).
Proof. unfold balanced. simpl. repeat split; lia. Qed.
Lemma balanced_diagnostics d s : balanced s (set_diagnostics d s).
Proof. unfold balanced. simpl. repeat split; lia. Qed.
Lemma balanced_last_call v s : balanced s (set_last_call_variables v s).
Proof. unfold balanced. simpl. repeat split; lia. Qed.
Lemma balanced_error_site f i s : balanced s (record_error_site f i s).
Proof. unfold record_error_site. case_match; [apply balanced_refl|]. unfold balanced. simpl. repeat split; lia. Qed.
Lemma balanced_scopes g l s : length l = length (local_variables s) -> balanced s (set_scopes g l s).
Proof. intros. unfold balanced. simpl. repeat split; lia. Qed.

Create HintDb sane.
#[export] Hint Resolve sane_ret sane_fail sane_crash sane_get sane_bind sane_lift sane_on_err sane_try balanced_refl balanced_stack
  balanced_store balanced_classes balanced_current balanced_functions balanced_output balanced_diagnostics
  balanced_last_call balanced_error_site : sane.

(** Take a word apart along its structure. *)
Ltac sane_step :=
  match goal with
  | |- sane _ (vbind (vtry _) _) => apply sane_try_bind; [|intros]
  | |- sane _ (vbind _ _) => apply sane_bind; [|intros]
  | H : OutOfFuel <> OutOfFuel |- _ => by destruct H
  | |- sane _ (on_err _ _) => apply sane_on_err; [|intros; apply balanced_stack]
  | |- sane _ (vtry _) => apply sane_try
  | |- sane _ (vmodify _) => apply sane_modify; intros
  | |- sane _ (vret _) => apply sane_ret
  | |- sane _ (vfail _) => apply sane_fail
  | |- sane _ vcrash => apply sane_crash
  | |- sane _ vget => apply sane_get
  | |- sane _ (match ?x with _ => _ end) => first [is_var x; destruct x | destruct x eqn:?]
  | |- sane _ (let '_ := ?x in _) => destruct x eqn:?
  end.
Ltac sane_auto := repeat (sane_step || solve [eauto 2 with sane nocore]).

(** ** Pure parts never run out of fuel *)

Lemma nofuel_bind {E A B} (m : res E A) (k : A -> res E B) :
  m <> OutOfFuel -> (forall a, k a <> OutOfFuel) -> rbind m k <> OutOfFuel.
Proof. destruct m; simpl; auto. Qed.

Lemma nofuel_equal h a b : values_equal (E:=VmError) h a b <> OutOfFuel.
Proof. destruct (values_equal_total (E:=VmError) h a b) as [c ->]. done. Qed.

Lemma nofuel_opaque h v : opaque_value_kind (E:=VmError) h v <> OutOfFuel.
Proof. unfold opaque_value_kind. by destruct (search_correct (E:=VmError) h opaque_leaf v) as (o & -> & _). Qed.

#[export] Hint Resolve nofuel_equal nofuel_opaque : sane.

Ltac nofuel := repeat match goal with
  | |- rbind _ _ <> OutOfFuel => apply nofuel_bind; [|intros]
  | |- (match ?x with _ => _ end) <> OutOfFuel => destruct x
  | |- Ok _ <> OutOfFuel => done
  | |- Err _ <> OutOfFuel => done
  | |- Panic <> OutOfFuel => done
  end; eauto 2 with sane nocore.

Lemma nofuel_contains h vs v : contains_value h vs v <> OutOfFuel.
Proof. induction vs as [|w vs IH]; simpl; nofuel. Qed.
Lemma nofuel_position h vs v : position_value h vs v <> OutOfFuel.
Proof. induction vs as [|w vs IH]; simpl; nofuel. Qed.
Lemma nofuel_first_opaque h vs : first_opaque h vs <> OutOfFuel.
Proof. induction vs as [|w vs IH]; simpl; nofuel. Qed.
Lemma nofuel_reject h vs v : reject_opaque_set_operation h vs v <> OutOfFuel.
Proof. apply nofuel_first_opaque. Qed.
Lemma nofuel_chars s : chars (E:=VmError) s <> OutOfFuel.
Proof. unfold chars. nofuel. Qed.
Lemma nofuel_slice l a b : slice (E:=VmError) l a b <> OutOfFuel.
Proof. unfold slice. nofuel. Qed.
#[export] Hint Resolve nofuel_contains nofuel_position nofuel_first_opaque nofuel_reject nofuel_chars nofuel_slice : sane.

Lemma nofuel_usize w n : number_from_usize w n <> OutOfFuel.
Proof. unfold number_from_usize. nofuel. Qed.
Lemma nofuel_char_index s i : byte_to_char_index s i <> OutOfFuel.
Proof. unfold byte_to_char_index. nofuel. Qed.
Lemma nofuel_all_strings vs m : all_strings vs m <> OutOfFuel.
Proof. induction vs as [|[] vs IH]; simpl; nofuel. Qed.
Lemma nofuel_arguments h v m : collection_arguments h v m <> OutOfFuel.
Proof. unfold collection_arguments. nofuel. Qed.
Lemma nofuel_sequence h v m : sequence_snapshot h v m <> OutOfFuel.
Proof. unfold sequence_snapshot. nofuel. Qed.
Lemma nofuel_set_field v f w : set_field v f w <> OutOfFuel.
Proof. unfold set_field. nofuel. Qed.
Lemma nofuel_get_field h v f : get_field h v f <> OutOfFuel.
Proof. unfold get_field. nofuel. Qed.
Lemma nofuel_native m vs : native_call m vs <> OutOfFuel.
Proof. unfold native_call, accessor_get, accessor_set. nofuel. Qed.
Lemma nofuel_int r : r <> OutOfFuel -> conversion_integer_result r <> OutOfFuel.
Proof. unfold conversion_integer_result. by destruct r as [|[]| |]. Qed.
Lemma nofuel_float r : r <> OutOfFuel -> conversion_float_result r <> OutOfFuel.
Proof. unfold conversion_float_result. by destruct r as [|[]| |]. Qed.
Lemma nofuel_to_integer v : input_to_integer v <> OutOfFuel.
Proof. unfold input_to_integer. nofuel. Qed.
Lemma nofuel_to_float v : input_to_float v <> OutOfFuel.
Proof. unfold input_to_float. nofuel. Qed.
Lemma nofuel_range n a b w : checked_integer_range n a b w <> OutOfFuel.
Proof. unfold checked_integer_range. nofuel. Qed.
#[local] Hint Resolve nofuel_int nofuel_float nofuel_to_integer nofuel_to_float nofuel_range : sane.
Lemma nofuel_convert w v : convert_numeric w v <> OutOfFuel.
Proof.
  unfold convert_numeric, input_to_bit. repeat case_match; try done; (apply nofuel_float || apply nofuel_int); nofuel.
Qed.
Lemma nofuel_checked w z : checked_result w z <> OutOfFuel.
Proof. unfold checked_result. nofuel. Qed.
Lemma nofuel_finite w x : finite_float_result w x <> OutOfFuel.
Proof. unfold finite_float_result. nofuel. Qed.
#[export] Hint Resolve nofuel_usize nofuel_char_index nofuel_all_strings nofuel_arguments nofuel_sequence
  nofuel_set_field nofuel_get_field nofuel_native nofuel_convert nofuel_checked nofuel_finite : sane.

Lemma nofuel_clamp w v a b : numeric_clamp w v a b <> OutOfFuel.
Proof. unfold numeric_clamp, f64_clamp. nofuel. Qed.

Lemma nofuel_resolve_native t c m : resolve_native_method t c m <> OutOfFuel.
Proof. unfold resolve_native_method. nofuel. apply nofuel_chain. Qed.
Lemma nofuel_resolve t c m : resolve_instance_method t c m <> OutOfFuel.
Proof. unfold resolve_instance_method. nofuel. apply nofuel_chain. Qed.
Lemma nofuel_instance t c : new_instance t c <> OutOfFuel.
Proof. unfold new_instance. nofuel. apply nofuel_chain. Qed.
#[export] Hint Resolve nofuel_clamp nofuel_chain nofuel_resolve_native nofuel_resolve nofuel_instance : sane.

(** ** Primitives *)

Section words.
Variable fuel : nat.
Local Abbreviation sane := (sane fuel).

Lemma sane_push v : sane (push_value v).
Proof. unfold push_value. sane_auto. Qed.
Lemma sane_ensure w n : sane (ensure_stack w n).
Proof. intros s. unfold ensure_stack. repeat case_match; simplify_eq/=; auto with sane. Qed.
Lemma sane_pop w : sane (pop w).
Proof. intros s. unfold pop. repeat case_match; simplify_eq/=; auto with sane. Qed.
Lemma sane_pop_unchecked : sane pop_unchecked.
Proof. intros s. unfold pop_unchecked. repeat case_match; simplify_eq/=; auto with sane. Qed.
Lemma sane_restoring {A} st e : sane (fail_restoring (A:=A) st e).
Proof. intros s. apply balanced_stack. Qed.
Lemma sane_new_cell c : sane (new_cell c).
Proof. intros s. unfold new_cell. simpl. apply balanced_store. Qed.
Lemma sane_write l c : sane (write_cell l c).
Proof. unfold write_cell. sane_auto. Qed.
Lemma sane_nil m : sane (record_nil_producing_lookup m).
Proof. unfold record_nil_producing_lookup. sane_auto. case_match; auto with sane. Qed.
Lemma sane_fallback m : sane (record_unknown_question_word_fallback m).
Proof. unfold record_unknown_question_word_fallback. sane_auto. case_match; auto with sane. Qed.
Lemma sane_condition v : sane (condition v).
Proof. intros s. unfold condition. repeat case_match; simplify_eq/=; auto with sane. Qed.
Lemma sane_condition_value w v : sane (condition_value w v).
Proof. intros s. unfold condition_value. repeat case_match; simplify_eq/=; auto with sane. Qed.
Lemma sane_update_current w f : sane (update_current_class w f).
Proof. intros s. unfold update_current_class. repeat case_match; simplify_eq/=; auto with sane. Qed.
Lemma sane_update n st f : sane (update_class n st f).
Proof. intros s. unfold update_class. repeat case_match; simplify_eq/=; auto with sane. Qed.
Lemma sane_define n p : sane (define_class n p).
Proof. unfold define_class. sane_auto. eapply balanced_trans; [apply balanced_classes|apply balanced_current]. Qed.
Lemma sane_capability w c : sane (enabled_capability w c).
Proof. intros s. unfold enabled_capability. repeat case_match; simplify_eq/=; auto with sane. Qed.
Lemma sane_declare n v : sane (declare_variable n v).
Proof.
  unfold declare_variable. sane_auto. destruct (local_variables s) eqn:Hl; [case_match; auto with sane|];
    apply balanced_scopes; by rewrite Hl.
Qed.
Lemma set_frames_length n v fs fs' : set_frames n v fs = Some fs' -> length fs' = length fs.
Proof.
  revert fs'. induction fs as [|f fs IH]; intros fs'; simpl; [done|]. case_match; [by intros [= <-]|].
  destruct (set_frames n v fs) as [fs1|]; simpl; [|done]. intros [= <-]. simpl. by rewrite (IH fs1).
Qed.
Lemma sane_set_existing n v : sane (set_existing_variable n v).
Proof.
  intros s. unfold set_existing_variable. destruct (set_frames _ _ _) eqn:Hf; [|destruct (bt_contains_key _ _); simpl; auto with sane].
  - apply balanced_scopes. by eapply set_frames_length.
  - by apply balanced_scopes.
Qed.
End words.

#[export] Hint Resolve sane_push sane_ensure sane_pop sane_pop_unchecked sane_restoring sane_new_cell sane_write sane_nil
  sane_fallback sane_condition sane_condition_value sane_update_current sane_update sane_define sane_capability
  sane_declare sane_set_existing : sane.

(** ** Words *)

Section simple.
Variable fuel : nat.
Local Abbreviation sane := (sane fuel).

Ltac word := intros; sane_auto.

Lemma sane_pop_string w e : sane (pop_string w e).
Proof. unfold pop_string. word. Qed.
Lemma sane_pop_number w : sane (pop_number w).
Proof. unfold pop_number. word. Qed.
Lemma sane_pop_block w : sane (pop_block w).
Proof. unfold pop_block. word. Qed.
Lemma sane_pop_index w : sane (pop_index w).
Proof. unfold pop_index. word. Qed.
Lemma sane_pop_number_or w st : sane (pop_number_or_restore w st).
Proof. unfold pop_number_or_restore, pop_number. word. Qed.
Lemma sane_pop_numeric w st : sane (pop_numeric_or_restore w st).
Proof. unfold pop_numeric_or_restore, pop_numeric. word. Qed.
Lemma sane_new_array vs : sane (new_array vs).
Proof. unfold new_array. word. Qed.
Lemma sane_new_list vs : sane (new_list vs).
Proof. unfold new_list. word. Qed.
Lemma sane_new_map vs : sane (new_map vs).
Proof. unfold new_map. word. Qed.
Lemma sane_push_or st r : r <> OutOfFuel -> sane (push_or_restore st r).
Proof. unfold push_or_restore. word. Qed.
End simple.
#[export] Hint Resolve sane_pop_string sane_pop_number sane_pop_block sane_pop_index sane_pop_number_or sane_pop_numeric
  sane_new_array sane_new_list sane_new_map sane_push_or : sane.

Section arithmetic.
Variable fuel : nat.
Local Abbreviation sane := (sane fuel).
Ltac word := intros; sane_auto.

Lemma sane_binary f w : (forall l r, f w l r <> OutOfFuel) -> sane (numeric_binary f w).
Proof. unfold numeric_binary. word. Qed.
Lemma sane_unary f w : (forall v, f w v <> OutOfFuel) -> sane (numeric_unary f w).
Proof. unfold numeric_unary. word. Qed.
Lemma sane_add w : sane (call_add w).
Proof. apply sane_binary. intros [] []; apply nofuel_checked || apply nofuel_finite. Qed.
Lemma sane_subtract w : sane (call_subtract w).
Proof. apply sane_binary. intros [] []; apply nofuel_checked || apply nofuel_finite. Qed.
Lemma sane_multiply w : sane (call_multiply w).
Proof. apply sane_binary. intros [] []; apply nofuel_checked || apply nofuel_finite. Qed.
Lemma sane_divide w : sane (call_divide w).
Proof. apply sane_binary. intros l r. unfold numeric_divide. nofuel. Qed.
Lemma sane_negate w : sane (call_negate w).
Proof. apply sane_unary. intros []; apply nofuel_checked || apply nofuel_finite. Qed.
Lemma sane_abs w : sane (call_abs w).
Proof. apply sane_unary. intros []; apply nofuel_checked || apply nofuel_finite. Qed.
Lemma sane_min w : sane (call_min w).
Proof. by apply sane_binary. Qed.
Lemma sane_max w : sane (call_max w).
Proof. by apply sane_binary. Qed.
Lemma sane_modulo w : sane (call_modulo w).
Proof. unfold call_modulo. word. Qed.
Lemma sane_clamp w : sane (call_clamp w).
Proof. unfold call_clamp. word. Qed.
Lemma sane_comparison w c : sane (call_number_comparison w c).
Proof. unfold call_number_comparison. word. Qed.
Lemma sane_range w : sane (call_range w).
Proof. unfold call_range. word. Qed.
Lemma sane_conversion w : sane (call_numeric_conversion w).
Proof. unfold call_numeric_conversion. word. Qed.
Lemma sane_not w : sane (call_not w).
Proof. unfold call_not. word. Qed.
Lemma sane_boolean w c : sane (call_boolean_binary w c).
Proof. unfold call_boolean_binary. word. Qed.
Lemma sane_opaque_kind l r : sane (opaque_kind l r).
Proof. unfold opaque_kind. word. Qed.
Lemma sane_opaque_error w l r : sane (opaque_equality_error w l r).
Proof. unfold opaque_equality_error. word. apply sane_opaque_kind. Qed.
Lemma sane_language_equal l r : sane (language_equal l r).
Proof. unfold language_equal. word. Qed.
Lemma sane_reject w l r : sane (reject_opaque_equality_operands w l r).
Proof. unfold reject_opaque_equality_operands. word. apply sane_opaque_kind. Qed.
End arithmetic.
#[export] Hint Resolve sane_add sane_subtract sane_multiply sane_divide sane_negate sane_abs sane_min sane_max sane_modulo
  sane_clamp sane_comparison sane_range sane_conversion sane_not sane_boolean sane_opaque_kind sane_opaque_error
  sane_language_equal sane_reject : sane.

Section more.
Variable fuel : nat.
Local Abbreviation sane := (sane fuel).
Ltac word := intros; sane_auto.

Lemma sane_set_insert w l v : sane (set_insert w l v).
Proof. unfold set_insert. word. Qed.
Lemma sane_insert_all w l vs : sane (insert_all w l vs).
Proof. induction vs as [|v vs IH]; simpl; word; apply sane_set_insert. Qed.
Lemma sane_new_set w vs : sane (new_set w vs).
Proof. unfold new_set. word; try apply sane_insert_all. Qed.
Lemma sane_get_field v f : sane (get_field_for_runtime v f).
Proof. unfold get_field_for_runtime. word. Qed.
Lemma sane_add_accessor f : sane (add_accessor f).
Proof. unfold add_accessor, add_field, add_native_method_with_arity. word. Qed.
Lemma sane_add_bytecode n m a : sane (add_bytecode_method n m a).
Proof. unfold add_bytecode_method. word. Qed.
Lemma sane_add_function n m a : sane (add_function n m a).
Proof. unfold add_function. word; try apply balanced_functions. Qed.
Lemma sane_end_class : sane end_class.
Proof. unfold end_class. word; try apply balanced_current. Qed.
Lemma sane_new_collection n m : new_collection n = Some m -> sane m.
Proof. unfold new_collection. repeat case_match; intros; simplify_eq; word. Qed.
Lemma sane_pop_name w e st : sane (pop_name w e st).
Proof. unfold pop_name. word. Qed.
Lemma sane_pop_class_name w e st : sane (pop_class_name w e st).
Proof. unfold pop_class_name. word. Qed.
Lemma sane_class_name v w : sane (class_name_from_value v w).
Proof. unfold class_name_from_value. word. Qed.
Lemma sane_declare_or_push v o : sane (declare_or_push v o).
Proof. unfold declare_or_push. word; try apply balanced_stack; auto with sane. Qed.
Lemma sane_collection_class n : sane (call_collection_class_or_declaration n).
Proof.
  unfold call_collection_class_or_declaration. destruct (new_collection n) eqn:Hn; [|apply sane_crash].
  apply sane_bind; [by eapply sane_new_collection|]. intros. apply sane_declare_or_push.
Qed.
Lemma sane_new w : sane (call_new w).
Proof.
  unfold call_new. word; try (by eapply sane_new_collection); auto with sane.
Qed.
Lemma sane_predicate w : sane (call_predicate w).
Proof. unfold call_predicate. word; try apply balanced_stack. Qed.
Lemma sane_modify_stack f : sane (vmodify (fun s => set_stack (f s) s)).
Proof. apply sane_modify. intros. apply balanced_stack. Qed.
End more.
#[export] Hint Resolve sane_set_insert sane_insert_all sane_new_set sane_get_field sane_add_accessor sane_add_bytecode
  sane_add_function sane_end_class sane_pop_name sane_pop_class_name sane_class_name sane_declare_or_push
  sane_collection_class sane_new sane_predicate : sane.

Lemma sane_simple_words fuel : Forall (fun e => forall w, sane fuel (e.2 w)) simple_words.
Proof.
  assert (forall w k, (forall i, sane fuel (k i)) -> sane fuel (stack_index w k)) as Hindex.
  { intros w k Hk. unfold stack_index. sane_auto. }
  unfold simple_words. repeat (apply Forall_cons_2; [intros w; cbn [snd]|]); try apply Forall_nil_2;
    unfold call_equals, call_not_equals, compare_words, call_assert, call_assert_true, call_assert_false,
      call_assert_bool, call_assert_ok, call_assert_error, call_assert_equals, call_self, call_get, call_field_get,
      call_set, call_field_set, call_var, call_field_declaration, call_accessor_declaration, call_targeted_accessor,
      call_table, call_targeted_table, call_subclass, call_install_current_class_method, call_swap, call_dup, call_drop,
      call_over, call_rot, call_nip, call_tuck, call_pick, call_roll, call_depth, call_clear, call_push, call_put,
      call_println, call_print, call_result_value, call_result_error, call_ok, call_fail, call_result_envelope,
      result_envelope_value, call_type, call_class_of, call_instance_of, call_fields, call_methods, call_callable,
      call_collection_declaration_or_constructor; sane_auto; try (apply balanced_stack || apply balanced_output || apply balanced_current).
  all: try (apply Hindex; intros; sane_auto; apply balanced_stack).
Qed.

(** ** Methods *)

Lemma sane_string_chars fuel s : sane fuel (string_chars s).
Proof. apply sane_lift, nofuel_chars. Qed.
Lemma sane_or_nil fuel v m : sane fuel (or_nil v m).
Proof. unfold or_nil. sane_auto. Qed.
Lemma sane_from_sequence fuel v vs m : sane fuel (collection_from_sequence_receiver v vs m).
Proof. unfold collection_from_sequence_receiver. sane_auto. Qed.
Lemma sane_write_sequence fuel v vs : sane fuel (write_sequence v vs).
Proof. unfold write_sequence. sane_auto. Qed.
#[export] Hint Resolve sane_string_chars sane_or_nil sane_from_sequence sane_write_sequence : sane.
Lemma sane_part fuel p v m : sane fuel (method_part p v m).
Proof. unfold method_part. sane_auto. Qed.
Lemma sane_remove_first fuel v l t : sane fuel (remove_first v l t).
Proof. unfold remove_first. sane_auto. Qed.
#[export] Hint Resolve sane_part sane_remove_first : sane.

Section methods.
Variable fuel : nat.
Variables (call : string -> Chunk -> list Value -> VM Value) (host_method : Value -> string -> VM Value).
Hypothesis call_sane : forall f b vs, sane fuel (call f b vs).
Hypothesis host_sane : forall v m, sane fuel (host_method v m).

Lemma sane_rows v m : sane fuel (rows_of v m).
Proof. unfold rows_of. sane_auto. Qed.
Lemma sane_each m b rows : sane fuel (each_loop call m b rows).
Proof. induction rows as [|r rows IH]; simpl; sane_auto. Qed.
Lemma sane_transform m b rows : sane fuel (transform_loop call m b rows).
Proof. induction rows as [|r rows IH]; simpl; sane_auto. Qed.
Lemma sane_select m b vs : sane fuel (select_loop call m b vs).
Proof. induction vs as [|r vs IH]; simpl; sane_auto. Qed.
Lemma sane_entries m b l es : sane fuel (select_entries call m b l es).
Proof. induction es as [|[k v] es IH]; simpl; sane_auto. Qed.
Lemma sane_reduce m b a vs : sane fuel (reduce_loop call m b a vs).
Proof. revert a. induction vs as [|r vs IH]; intros a; simpl; sane_auto. Qed.
Lemma sane_find m b rows : sane fuel (find_loop call m b rows).
Proof. induction rows as [|r rows IH]; simpl; sane_auto. Qed.
Lemma sane_all m b rows : sane fuel (all_loop call m b rows).
Proof. induction rows as [|r rows IH]; simpl; sane_auto. Qed.
#[local] Hint Resolve sane_rows sane_each sane_transform sane_select sane_entries sane_reduce sane_find sane_all : sane.

Lemma sane_methods_table : Forall (fun e => forall v m, sane fuel (e.2 v m)) (methods_table call).
Proof.
  unfold methods_table. repeat (apply Forall_cons_2; [intros v m; cbn [snd]|]); try apply Forall_nil_2;
    unfold method_count, method_at, method_first, method_last, method_end, method_take, method_skip, method_reverse,
      method_has, method_keys, method_values, method_push, method_put, method_insert, method_remove, method_remove_at,
      method_clear, method_each, method_transform, method_select, method_reduce, method_find, method_any, method_all,
      method_blank, string_unary, method_slice, method_index_of, method_last_index_of, method_find_index, method_repeat,
      method_chars, string_predicate, method_split, method_join, method_replace, method_concat, method_to_number,
      method_result_error, method_unwrap_or, method_map_result, method_and_then; sane_auto.
Qed.

Lemma sane_builtin v m : sane fuel (call_builtin_method call host_method v m).
Proof.
  unfold call_builtin_method, call_builtin_method_inner. sane_auto.
  pose proof sane_methods_table as H. rewrite list.Forall_forall in H.
  match goal with Hm : bt_get _ _ = Some _ |- _ => apply bt_get_In in Hm; exact (H _ Hm _ _) end.
Qed.
End methods.

(** ** The host interface *)

(** What the machine relies on the host words and methods for: they finish,
    and leave the configuration, the frames and the self stack alone. *)
Class HostSane (host_word : string -> VM unit) (host_method : Value -> string -> VM Value) : Prop := {
  host_word_sane : forall w fuel, sane fuel (host_word w);
  host_method_sane : forall v m fuel, sane fuel (host_method v m) }.

(** A host without words. *)
Definition no_host_word (w : string) : VM unit := vfail (VmError.UnknownWord w).
Definition no_host_method (v : Value) (m : string) : VM Value := vfail (VmError.UnknownMethod (value_kind v) m).

#[export] Instance no_host_sane : HostSane no_host_word no_host_method.
Proof. split; intros; apply sane_fail. Qed.

(** ** Calls *)

Section calls.
Context (host_word : string -> VM unit) (host_method : Value -> string -> VM Value) `{!HostSane host_word host_method}.
Variable fuel : nat.
Variable run : Chunk -> string -> bool -> VM ExecutionSignal.
Hypothesis run_sane : forall c f a, sane fuel (run c f a).

Lemma sane_close b n r : r <> OutOfFuel -> sane fuel (close_frame b n r).
Proof.
  intros Hr s. unfold close_frame. destruct r as [[]| | |]; simpl; try done; auto with sane;
    destruct (stack s); simpl; auto with sane; destruct (_ <? _)%nat; simpl; auto with sane.
Qed.
#[local] Hint Resolve sane_close : sane.

Lemma sane_block_call f b vs : sane fuel (call_bytecode_block_with_args run f b vs).
Proof. unfold call_bytecode_block_with_args. sane_auto. Qed.
#[local] Hint Resolve sane_block_call : sane.

Lemma sane_from_trans {A} s s1 (o : out A) : balanced s s1 -> sane_from fuel s1 o -> sane_from fuel s o.
Proof.
  intros Hb. destruct o; simpl; try done; try (by apply balanced_trans). intros Hn Hc. by apply Hn, (covered_balanced _ s).
Qed.

(** A run from a machine [s1] that differs from [s] in its frames. *)
Lemma sane_bracket {A} s s1 c f (k : res VmError ExecutionSignal -> VM A) : (covered fuel s -> covered fuel s1) ->
  (forall r s2, r <> OutOfFuel -> balanced s1 s2 -> sane_from fuel s (k r s2)) ->
  sane_from fuel s (vbind (vtry (run c f true)) k s1).
Proof.
  intros Hcov Hk. unfold vbind, vtry. pose proof (run_sane c f true s1) as Hr.
  destruct (run c f true s1) as [sig s2|e s2| |]; simpl in Hr |- *; [by apply Hk|by apply Hk|done|auto].
Qed.

Lemma sane_function_call n c i : sane fuel (call_bytecode_function run n c i).
Proof.
  unfold call_bytecode_function. apply sane_bind; [auto with sane|]. intros _. apply sane_bind; [apply sane_get|].
  intros s0 s. unfold push_variable_frame, vmodify. unfold vbind at 1. apply sane_bracket; [done|].
  intros r s2 Hr (Hc & Hi & Hl & Hs). unfold vbind, pop_variable_frame. simpl in Hl, Hs.
  destruct (local_variables s2) as [|fr frs] eqn:Hlv; [done|].
  eapply sane_from_trans; [|by apply sane_close]. unfold balanced. simpl in *. repeat split; try done; lia.
Qed.

Lemma sane_method_call v f c i : sane fuel (call_bytecode_method run v f c i).
Proof.
  unfold call_bytecode_method. apply sane_bind; [auto with sane|]. intros _. apply sane_bind; [apply sane_get|].
  intros s0 s. unfold push_variable_frame, vmodify. unfold vbind at 1. unfold vbind at 1. apply sane_bracket; [done|].
  intros r s2 Hr (Hc & Hi & Hl & Hs). unfold vbind, pop_variable_frame, pop_self. simpl in Hl, Hs.
  destruct (local_variables s2) as [|fr frs] eqn:Hlv; [done|]. simpl. rewrite Hs.
  eapply sane_from_trans; [|by apply sane_close]. unfold balanced. simpl in *. repeat split; try done; lia.
Qed.
#[local] Hint Resolve sane_function_call sane_method_call : sane.

Lemma sane_builtin_method v m : sane fuel (builtin_method host_method run v m).
Proof. apply sane_builtin; [apply sane_block_call|intros; apply host_method_sane]. Qed.
Lemma sane_native v f m : sane fuel (call_native_method v f m).
Proof. unfold call_native_method. sane_auto; intros; apply balanced_stack. Qed.
#[local] Hint Resolve sane_builtin_method sane_native : sane.
Lemma sane_method_value v m : sane fuel (call_method_value host_method run v m).
Proof. unfold call_method_value. sane_auto. Qed.
Lemma sane_method_exists m : sane fuel (receiver_method_exists m).
Proof. unfold receiver_method_exists. sane_auto. Qed.
#[local] Hint Resolve sane_method_value sane_method_exists : sane.
Lemma sane_top m : sane fuel (call_top_receiver_method host_method run m).
Proof. unfold call_top_receiver_method, push_result_or_restore. sane_auto. Qed.
#[local] Hint Resolve sane_top : sane.
Lemma sane_function m : sane fuel (call_function host_method run m).
Proof. unfold call_function. sane_auto. Qed.
#[local] Hint Resolve sane_function : sane.
Lemma sane_question m : sane fuel (call_question_word host_method run m).
Proof. unfold call_question_word. sane_auto. Qed.
#[local] Hint Resolve sane_question : sane.

Lemma sane_word w : sane fuel (call_word host_word host_method run w).
Proof.
  unfold call_word. destruct (bt_get w simple_words) as [f|] eqn:Hf.
  { pose proof (sane_simple_words fuel) as H. rewrite list.Forall_forall in H. apply bt_get_In in Hf. exact (H _ Hf w). }
  unfold call_block, call_send, call_responds_to, call_receiver_argument_method, call_receiver_two_argument_method,
    call_capability_method_word, push_result_or_restore. sane_auto. apply host_word_sane.
Qed.
#[local] Hint Resolve sane_word : sane.

Lemma sane_instruction o c a : sane fuel (execute_instruction host_word host_method run o c a).
Proof.
  unfold execute_instruction, validate_jump, get_block, call_method_or_member, add_field. sane_auto.
Qed.
End calls.

Section loop.
Context (host_word : string -> VM unit) (host_method : Value -> string -> VM Value) `{!HostSane host_word host_method}.

Lemma run_from_sane fuel c f a ip : sane fuel (run_from host_word host_method fuel c f a ip).
Proof.
  revert c f a ip. induction fuel as [|fuel IH]; intros c f a ip s.
  { simpl. intros (limit & _ & Hlt). lia. }
  cbn [run_from]. destruct (instructions c !! N.to_nat ip) as [i|]; [|apply balanced_refl].
  unfold vbind at 1. unfold consume_instruction_budget.
  assert (forall s1, balanced s s1 -> (covered (S fuel) s -> covered fuel s1) -> sane_from (S fuel) s
    ((let! signal := on_err (execute_instruction host_word host_method
         (fun c f a => run_from host_word host_method fuel c f a 0) (op i) c a) (record_error_site f i) in
      match signal with
      | ExecutionSignal.Continue => run_from host_word host_method fuel c f a (ip + 1)
      | ExecutionSignal.Jump target => run_from host_word host_method fuel c f a target
      | ExecutionSignal.Return => vret ExecutionSignal.Return
      end) s1)) as Hgo.
  { intros s1 Hb Hcov.
    assert (forall A (m : VM A), sane fuel m -> sane_from (S fuel) s (m s1)) as Hm.
    { intros A m Hm. specialize (Hm s1). destruct (m s1); simpl in Hm |- *; try done; [by eapply balanced_trans..|].
      intros Hc. by apply Hm, Hcov. }
    apply Hm. apply sane_bind.
    - apply sane_on_err; [|intros; apply balanced_error_site]. by apply sane_instruction.
    - intros []; [apply IH|apply IH|apply sane_ret]. }
  assert (balanced s (set_instructions_executed (instructions_executed s + 1) s)) as Hb.
  { unfold balanced. simpl. repeat split; lia. }
  destruct (instruction_limit (config s)) as [limit|] eqn:Hlim; [destruct (N.leb_spec limit (instructions_executed s))|].
  - apply balanced_refl.
  - apply Hgo; [done|]. intros (l & Hl & Hlt). exists l. simpl. split; [done|]. simplify_eq. lia.
  - apply Hgo; [done|]. intros (l & Hl & Hlt). congruence.
Qed.
End loop.

(** ** Theorems *)

Lemma run_ends (host_word : string -> VM unit) (host_method : Value -> string -> VM Value)
    `{!HostSane host_word host_method} (limit : N) (c : Chunk) (s : Vm) :
  instruction_limit (config s) = Some limit ->
  run_chunk host_word host_method (S (N.to_nat limit)) c s <> NoFuel.
Proof.
  intros Hl. unfold run_chunk, run_chunk_with_frame, vbind, vmodify.
  set (s1 := set_instructions_executed 0 _).
  pose proof (run_from_sane host_word host_method (S (N.to_nat limit)) c "<main>" false 0 s1) as H.
  destruct (run_from _ _ _ _ _ _ _ s1); try done. exfalso. apply H. exists limit. simpl. split; [done|lia].
Qed.

(** C10: a machine with an instruction limit stops on every program.  Fuel one
    above the limit is enough for any chunk, from any state, with any host
    words that themselves finish: the run returns, fails (for one with
    [InstructionLimitExceeded]) or panics, and never needs more. *)
Theorem run_chunk_terminates (host_word : string -> VM unit) (host_method : Value -> string -> VM Value)
    `{!HostSane host_word host_method} (limit : N) (c : Chunk) (s : Vm) :
  instruction_limit (config s) = Some limit ->
  run_chunk host_word host_method (S (N.to_nat limit)) c s <> NoFuel.
Proof. exact (run_ends host_word host_method limit c s). Qed.

(** A loop that jumps to itself, under a limit of five instructions. *)
Lemma run_chunk_terminates_witness :
  let c := mkChunk "f" [mkInstruction (Op.Jump 0) (mkSourceSpan "f" 0 0 1 1)] [] in
  let s := mkVm [] [] [] [] [] [] None [] [] [] 0 None [] [] (mkConfig (Some 5%N) false false false false false false false) in
  run_chunk no_host_word no_host_method 6 c s <> NoFuel /\
  exists s', run_chunk no_host_word no_host_method 6 c s = Exn (VmError.InstructionLimitExceeded 5 5) s'.
Proof.
  simpl. split; [|eexists; vm_compute; reflexivity].
  apply (run_chunk_terminates no_host_word no_host_method 5%N). reflexivity.
Defined.

(** C12: with host words and methods that finish and keep to this themselves,
    running any chunk, whether it returns or fails, leaves as many frames of
    local variables as there were, the very same self stack and the same
    configuration, and has not set the instruction count back: calls open and
    close their frames in pairs also on the error paths. *)
Theorem run_from_balanced (host_word : string -> VM unit) (host_method : Value -> string -> VM Value)
    `{!HostSane host_word host_method} (fuel : nat) (c : Chunk) (frame : string) (allow_return : bool) (ip : N) (s : Vm) :
  match run_from host_word host_method fuel c frame allow_return ip s with
  | Val _ s' | Exn _ s' => balanced s s'
  | Crash | NoFuel => True
  end.
Proof.
  pose proof (run_from_sane host_word host_method fuel c frame allow_return ip s) as H.
  by destruct (run_from _ _ _ _ _ _ _ s).
Qed.

(** A method that declares a variable and fails in an unknown word, called. *)
Definition failing_call : Chunk :=
  let chunk ops := mkChunk "f" ((fun o => mkInstruction o (mkSourceSpan "f" 0 0 1 1)) <$> ops) in
  chunk [Op.BeginClass "A" "Object"; Op.AddMethod "m" 0 None; Op.EndClass; Op.CallWord "A"; Op.CallWord "new"; Op.CallMethod "m"]
    [chunk [Op.PushNumber 1; Op.PushString "x"; Op.CallWord "var"; Op.CallWord "nope"] []].

Lemma run_from_balanced_witness :
  HostSane no_host_word no_host_method /\
  exists s', run_from no_host_word no_host_method 20 failing_call "<main>" false 0 default_vm = Exn (VmError.UnknownWord "nope") s' /\
    instructions_executed s' = 10%N /\ balanced default_vm s'.
Proof.
  split; [exact no_host_sane|]. eexists. split; [vm_compute; reflexivity|]. split; [reflexivity|].
  exact (run_from_balanced no_host_word no_host_method 20 failing_call "<main>" false 0 default_vm).
Defined.
