(* ===== verification/VmRestore.v ===== *)
(** * Words that fail leave the stack as they found it

    A word that reports an error puts back the operands it popped, so that a
    failed operation can be inspected.  The rules below follow a word from
    its start, where the stack is still the original one, through the point
    where operands are popped, after which every error must restore. *)

From stdpp Require Import base tactics list strings option numbers.
From Stdlib Require Import ZArith NArith Lia Ascii String.
From S2P Require Import Prelude RustStr RustText RustFloat Bytecode BTree Value SetMatch ValueEq ValueEqProofs Opaque VmState.
From S2P Require Import Numeric VmClass VmWords VmMethods Vm VmFrames.

Open Scope list_scope.
Open Scope nat_scope.
Open Scope string_scope.

(** [m] fails only with the stack [st]. *)
Definition fails_with {A : Type} (st : list Value) (m : VM A) : Prop :=
  forall s e s', m s = Exn e s' -> stack s' = st.

(** Started in [s], [m] fails only with the stack of [s]. *)
Definition restores_at {A : Type} (s : Vm) (m : VM A) : Prop := forall e s', m s = Exn e s' -> stack s' = stack s.

Definition restores {A : Type} (m : VM A) : Prop := forall s, restores_at s m.

Lemma fails_ret {A} st (a : A) : fails_with st (vret a).
Proof. done. Qed.
Lemma fails_crash {A} st : fails_with st (@vcrash A).
Proof. done. Qed.
Lemma fails_get st : fails_with st vget.
Proof. done. Qed.
Lemma fails_modify st f : fails_with st (vmodify f).
Proof. done. Qed.
Lemma fails_bind {A B} st (m : VM A) (k : A -> VM B) :
  fails_with st m -> (forall a, fails_with st (k a)) -> fails_with st (vbind m k).
Proof. intros Hm Hk s e s' H. unfold vbind in H. destruct (m s) eqn:E; simplify_eq; [by eapply Hk|by eapply Hm]. Qed.
Lemma fails_on_err {A} st (m : VM A) : fails_with st (on_err m (restore_stack st)).
Proof. intros s e s' H. unfold on_err in H. destruct (m s); by simplify_eq. Qed.
Lemma fails_try {A} st (m : VM A) : fails_with st (vtry m).
Proof. intros s e s' H. unfold vtry in H. by destruct (m s). Qed.
Lemma fails_restoring {A} st e : fails_with st (@fail_restoring A st e).
Proof. intros s e' s' H. by injection H as <- <-. Qed.
Lemma fails_lift {A} st (r : res VmError A) : (forall e, r <> Err e) -> fails_with st (vlift r).
Proof. intros Hr s e s' H. unfold vlift in H. destruct r; simplify_eq. by destruct (Hr e). Qed.
Lemma fails_pop_unchecked st : fails_with st pop_unchecked.
Proof. intros s e s' H. unfold pop_unchecked in H. by destruct (stack s). Qed.

Lemma restores_fails {A} s (m : VM A) : fails_with (stack s) m -> restores_at s m.
Proof. intros H e s' E. by eapply H. Qed.
(** While [m] changes nothing, the rest still starts in [s]. *)
Lemma restores_bind {A B} s (m : VM A) (k : A -> VM B) :
  restores_at s m -> (forall a s', m s = Val a s' -> s' = s) -> (forall a, restores_at s (k a)) -> restores_at s (vbind m k).
Proof.
  intros Hm Hv Hk e s' H. unfold vbind in H. destruct (m s) eqn:E; simplify_eq; [|by eapply Hm].
  rewrite (Hv _ _ eq_refl) in *. by eapply Hk.
Qed.
Lemma restores_pop {B} s w (k : Value -> VM B) : (forall v, fails_with (stack s) (k v)) -> restores_at s (vbind (pop w) k).
Proof.
  intros Hk e s' H. unfold vbind, pop in H. destruct (stack s) as [|v st] eqn:E; simplify_eq; [by rewrite E|]. by eapply Hk.
Qed.
Lemma restores_get {B} s (k : Vm -> VM B) : restores_at s (k s) -> restores_at s (vbind vget k).
Proof. done. Qed.
Lemma restores_ensure s w n : restores_at s (ensure_stack w n).
Proof. intros e s' H. unfold ensure_stack in H. case_match; by simplify_eq. Qed.
Lemma ensure_same s w n a s' : ensure_stack w n s = Val a s' -> s' = s.
Proof. intros H. unfold ensure_stack in H. case_match; by simplify_eq. Qed.

Create HintDb restores.

Ltac fails_step :=
  match goal with
  | |- fails_with _ (vret _) => apply fails_ret
  | |- fails_with _ vcrash => apply fails_crash
  | |- fails_with _ vget => apply fails_get
  | |- fails_with _ (vmodify _) => apply fails_modify
  | |- fails_with _ (vbind _ _) => apply fails_bind; [|intros]
  | |- fails_with _ (on_err _ (restore_stack _)) => apply fails_on_err
  | |- fails_with _ (vtry _) => apply fails_try
  | |- fails_with _ (fail_restoring _ _) => apply fails_restoring
  | |- fails_with _ (vlift (Ok _)) => apply fails_lift; discriminate
  | |- fails_with _ pop_unchecked => apply fails_pop_unchecked
  | |- fails_with _ (match ?x with _ => _ end) => destruct x eqn:?
  end.
Ltac fails_auto := repeat (fails_step || solve [eauto 2 with restores nocore]).

Lemma fails_new_cell st c : fails_with st (new_cell c).
Proof. done. Qed.
Lemma fails_write st l c : fails_with st (write_cell l c).
Proof. done. Qed.
Lemma fails_declare st n v : fails_with st (declare_variable n v).
Proof. done. Qed.
Lemma fails_nil st m : fails_with st (record_nil_producing_lookup m).
Proof. done. Qed.
Lemma fails_set_existing st n v : fails_with st (set_existing_variable n v).
Proof. intros s e s' H. unfold set_existing_variable in H. by repeat case_match. Qed.
Lemma fails_update st n f : fails_with st (update_class n st f).
Proof. intros s e s' H. unfold update_class in H. case_match; by simplify_eq. Qed.
#[export] Hint Resolve fails_new_cell fails_write fails_declare fails_nil fails_set_existing fails_update : restores.

Lemma fails_push_value st v : fails_with st (push_value v).
Proof. done. Qed.
Lemma fails_new_array st vs : fails_with st (new_array vs).
Proof. done. Qed.
Lemma fails_new_list st vs : fails_with st (new_list vs).
Proof. done. Qed.
Lemma fails_new_map st vs : fails_with st (new_map vs).
Proof. done. Qed.
Lemma fails_end_class st : fails_with st end_class.
Proof. done. Qed.
#[export] Hint Resolve fails_push_value fails_new_array fails_new_list fails_new_map fails_end_class : restores.

Lemma fails_numeric st w : fails_with st (pop_numeric_or_restore w st).
Proof. apply fails_on_err. Qed.
Lemma fails_number st w : fails_with st (pop_number_or_restore w st).
Proof. apply fails_on_err. Qed.
Lemma fails_push_or st r : fails_with st (push_or_restore st r).
Proof. unfold push_or_restore. fails_auto. Qed.
Lemma fails_name st w ex : fails_with st (pop_name w ex st).
Proof. unfold pop_name. fails_auto. Qed.
Lemma fails_class_name st w ex : fails_with st (pop_class_name w ex st).
Proof. unfold pop_class_name. fails_auto. Qed.
Lemma fails_convert st w v : fails_with st (vlift (convert_numeric w v)).
Proof.
  apply fails_lift. intros e. unfold convert_numeric, conversion_float_result, conversion_integer_result.
  repeat case_match; done.
Qed.
Lemma fails_declare_or_push st v o : fails_with st (declare_or_push v o).
Proof. unfold declare_or_push. fails_auto. Qed.
Lemma fails_envelope st r m : fails_with st (result_envelope_value r m).
Proof. unfold result_envelope_value. fails_auto. Qed.
Lemma fails_new_collection st n m : new_collection n = Some m -> fails_with st m.
Proof. unfold new_collection. intros. repeat case_match; simplify_eq; done. Qed.
#[export] Hint Resolve fails_numeric fails_number fails_push_or fails_name fails_class_name fails_convert
  fails_declare_or_push fails_envelope fails_new_collection : restores.

(** Comparisons and searches never fail. *)
Lemma fails_opaque st a b : fails_with st (opaque_kind a b).
Proof.
  unfold opaque_kind. intros s e s' H. unfold vbind, vget, vlift in H.
  destruct (search_correct (E:=VmError) (store s) opaque_leaf a) as (o & Ho & _).
  destruct (search_correct (E:=VmError) (store s) opaque_leaf b) as (o' & Ho' & _).
  unfold opaque_value_kind in H. rewrite Ho, Ho' in H. by destruct o.
Qed.
Lemma fails_opaque_error st w a b : fails_with st (opaque_equality_error w a b).
Proof. unfold opaque_equality_error. fails_auto. apply fails_opaque. Qed.
Lemma fails_equal st a b : fails_with st (language_equal a b).
Proof.
  intros s e s' H. unfold language_equal, vbind, vget in H. case_match; [done|].
  unfold vlift in H. destruct (values_equal_total (E:=VmError) (store s) a b) as [? E]. by rewrite E in H.
Qed.
#[export] Hint Resolve fails_opaque fails_opaque_error fails_equal : restores.

(** A set that accepted the operands of an insertion accepts the insertion. *)
Lemma first_opaque_none h vs : (forall v, v ∈ vs -> opaque_value_kind (E:=VmError) h v = Ok None) -> first_opaque h vs = Ok None.
Proof.
  induction vs as [|v vs IH]; intros H; simpl; [done|]. rewrite (H v) by (by left). simpl.
  apply IH. intros w Hw. apply H. by right.
Qed.

Lemma contains_value_total h vs v : exists b, contains_value h vs v = Ok b.
Proof.
  induction vs as [|w vs IH]; simpl; [by eexists|]. destruct (values_equal_total (E:=VmError) h w v) as [[] ->]; simpl; [by eexists|done].
Qed.

Lemma opaque_elements h l v : opaque_value_kind (E:=VmError) h (Value.Set_ l) = Ok None -> v ∈ snapshot h l ->
  opaque_value_kind (E:=VmError) h v = Ok None.
Proof.
  unfold opaque_value_kind. intros Hs Hv.
  destruct (search_correct (E:=VmError) h opaque_leaf (Value.Set_ l)) as (o & Ho & Hr). rewrite Hs in Ho. injection Ho as <-.
  destruct (search_correct (E:=VmError) h opaque_leaf v) as ([a|] & -> & Hr'); [|done].
  destruct Hr' as (w & Hw & Hl). rewrite Hr in Hl; [done|]. eapply reach_from; [|exact Hw].
  exists CollectionKind.Set_, l. done.
Qed.

Lemma opaque_kind_total a b s : exists o, opaque_kind a b s = Val o s /\
  (o = None -> opaque_value_kind (E:=VmError) (store s) a = Ok None /\ opaque_value_kind (E:=VmError) (store s) b = Ok None).
Proof.
  unfold opaque_kind, vbind, vget, vlift, opaque_value_kind.
  destruct (search_correct (E:=VmError) (store s) opaque_leaf a) as (o & -> & _).
  destruct (search_correct (E:=VmError) (store s) opaque_leaf b) as (o' & -> & _).
  destruct o; (eexists; split; [reflexivity|intros E; by simplify_eq]).
Qed.

Lemma fails_set_push st w l v (k : bool -> VM unit) : (forall b, fails_with st (k b)) ->
  fails_with st (let! e := opaque_equality_error w (Value.Set_ l) v in
                 match e with Some error => fail_restoring st error | None => let! b := set_insert w l v in k b end).
Proof.
  intros Hk s e s' H.
  destruct (opaque_kind_total (Value.Set_ l) v s) as (o & Ho & Hn).
  unfold opaque_equality_error in H. unfold vbind at 1 2 in H. rewrite Ho in H.
  destruct o as [a|]; simpl in H; [by injection H as <- <-|]. destruct Hn as [Hs Hv]; [done|].
  unfold vbind at 1, set_insert at 1 in H. unfold vbind, vget, vlift in H.
  unfold reject_opaque_set_operation in H.
  rewrite first_opaque_none in H.
  - destruct (contains_value_total (store s) (snapshot (store s) l) v) as [b Hc]; rewrite Hc in H.
    destruct b; exact (Hk _ _ _ _ H).
  - intros w' [Hw| ->%list_elem_of_singleton]%elem_of_app; [by eapply opaque_elements|done].
Qed.

(** ** The words *)

(** The words that report an error after losing operands. *)
Definition losing_words : list string := ["fail"; "pick"; "roll"; "type"; "class_of"; "instance_of?"; "fields"; "methods"].

Ltac restore_word :=
  intros s;
  unfold call_add, call_subtract, call_multiply, call_divide, call_negate, call_abs, call_min, call_max, numeric_binary,
    numeric_unary, call_modulo, call_clamp, call_not, call_boolean_binary, call_equals, call_not_equals, compare_words,
    call_assert, call_assert_true, call_assert_false, call_assert_bool, call_assert_ok, call_assert_error,
    call_assert_equals, call_number_comparison, call_get, call_set, call_field_get, call_field_set, call_var,
    call_field_declaration, call_accessor_declaration, call_targeted_accessor, call_table, call_targeted_table,
    call_subclass, call_install_current_class_method, call_new, call_swap, call_dup, call_drop, call_over, call_rot,
    call_nip, call_tuck, call_depth, call_clear, call_put, call_println, call_print, call_result_value,
    call_result_error, call_ok, call_result_envelope, call_range, call_numeric_conversion, call_callable,
    call_collection_class_or_declaration, call_collection_declaration_or_constructor, call_push;
  repeat (match goal with
          | |- restores_at _ (vbind (ensure_stack _ _) _) =>
              apply restores_bind; [apply restores_ensure|by intros; eapply ensure_same|intros]
          | |- restores_at _ (vbind vget _) => apply restores_get
          end);
  first [apply restores_pop; intros; fails_auto|apply restores_fails; fails_auto].

Lemma restores_push w : restores (call_push w).
Proof.
  intros s. unfold call_push.
  apply restores_bind; [apply restores_ensure|by intros; eapply ensure_same|intros _].
  apply restores_get, restores_fails. apply fails_bind; [fails_auto|intros v]. apply fails_bind; [fails_auto|intros c].
  destruct c; try by fails_auto. apply (fails_set_push _ w l v (fun _ => _)). intros. fails_auto.
Qed.
Lemma restores_targeted_table w : restores (call_targeted_table w).
Proof. restore_word. Qed.
Lemma restores_targeted_accessor w : restores (call_targeted_accessor w).
Proof. restore_word. Qed.
Lemma restores_table w : restores (call_table w).
Proof.
  intros s. unfold call_table. apply restores_get. destruct (current_class s); [|apply restores_targeted_table].
  apply restores_pop; intros; fails_auto.
Qed.
Lemma restores_accessor w : restores (call_accessor_declaration w).
Proof.
  intros s. unfold call_accessor_declaration. apply restores_get.
  destruct (current_class s); [|apply restores_targeted_accessor]. apply restores_pop; intros; fails_auto.
Qed.
Lemma restores_self w : restores (call_self w).
Proof. intros s e s' H. unfold call_self, vbind, vget in H. destruct (self_stack s); unfold push_value, vmodify, vfail in H; congruence. Qed.
Lemma restores_capability w c : restores (let! v := enabled_capability w c in push_value v).
Proof.
  intros s. apply restores_bind; [| |intros v; apply restores_fails, fails_push_value].
  - intros e s' H. unfold enabled_capability in H. destruct c; case_match; congruence.
  - intros v s' H. unfold enabled_capability in H. destruct c; case_match; congruence.
Qed.

Lemma restores_simple name m : In (name, m) simple_words -> ~ In name losing_words -> restores (m name).
Proof.
  unfold simple_words. intros H Hn.
  repeat (destruct H as [[= <- <-]|H]; [first [by destruct Hn; simpl; tauto|clear Hn]|]); [..|done].
  all: first [apply restores_push|apply restores_table|apply restores_accessor|apply restores_self
             |apply restores_capability|restore_word].
Qed.

(** ** Theorems *)

(** A word that runs on the machine alone and reports an error leaves the
    operand stack as it was before the word, whatever the stack, the store and
    the error; the eight words of [losing_words] are the exceptions. *)
Theorem words_restore_stack (name : string) (m : string -> VM unit) (s s' : Vm) (e : VmError) :
  In (name, m) simple_words -> ~ In name losing_words -> m name s = Exn e s' -> stack s' = stack s.
Proof. intros Hi Hn. by apply restores_simple. Qed.

Lemma words_restore_stack_witness :
  let s := set_stack [Value.Number 1; Value.Nil] default_vm in
  exists e s', call_add "+" s = Exn e s' /\ stack s' = stack s.
Proof.
  eexists _, _. split; [vm_compute; reflexivity|].
  eapply (words_restore_stack "+" call_add (set_stack [Value.Number 1; Value.Nil] default_vm)).
  - by left.
  - vm_compute. intuition discriminate.
  - vm_compute. reflexivity.
Defined.

(** Each of the exceptions does lose an operand on some error. *)
Example fail_loses_operands : exists e s',
  call_fail "fail" (set_stack [Value.Nil; Value.Nil] default_vm) = Exn e s' /\ stack s' = [Value.Nil].
Proof. eexists _, _. split; vm_compute; reflexivity. Qed.
Example pick_loses_operand : exists e s',
  call_pick "pick" (set_stack [Value.Nil; Value.Nil] default_vm) = Exn e s' /\ stack s' = [Value.Nil].
Proof. eexists _, _. split; vm_compute; reflexivity. Qed.
Example fields_loses_operand : exists e s',
  call_fields "fields" (set_stack [Value.Nil] default_vm) = Exn e s' /\ stack s' = [].
Proof. eexists _, _. split; vm_compute; reflexivity. Qed.
(** The index counts as part of the stack whose length is reported. *)
Example pick_reports_index : exists s',
  call_pick "pick" (set_stack [Value.Number 1; Value.Nil] default_vm) = Exn (VmError.IndexOutOfBounds "pick" 1 2) s'.
Proof. eexists. vm_compute. reflexivity. Qed.
