(* ===== verification/VmProofs.v ===== *)
(** * Variables and strings

    Variables follow lexical scoping by frames: an assignment changes exactly
    the binding a lookup finds, and a declaration inside a call is gone when
    the frame is.  Splitting a string and joining the parts gives it back. *)

From stdpp Require Import base tactics list strings option numbers.
From Stdlib Require Import ZArith NArith Lia Ascii String.
From S2P Require Import Prelude RustStr RustText RustFloat Bytecode BTree Value VmState Numeric VmClass VmWords VmMethods.

Open Scope list_scope.
Open Scope nat_scope.
Open Scope string_scope.

(** ** Variables *)

Lemma set_frames_lookup name v fs :
  match set_frames name v fs with
  | Some fs' => is_Some (lookup_frames name fs) /\ length fs' = length fs /\
      forall other, lookup_frames other fs' = if String.eqb other name then Some v else lookup_frames other fs
  | None => lookup_frames name fs = None
  end.
Proof.
  induction fs as [|f fs IH]; simpl; [done|].
  destruct (bt_contains_key name f) eqn:E; simpl.
  - apply bt_contains_get in E as [w E]. rewrite E. split; [by eexists|]. split; [done|]. intros other.
    rewrite bt_get_insert. by destruct (String.eqb other name).
  - destruct (bt_get name f) eqn:G; [by apply mk_is_Some, bt_contains_get in G; congruence|].
    destruct (set_frames name v fs) as [fs'|]; simpl; [|done].
    destruct IH as (Hs & Hl & Ho). split; [done|]. split; [by f_equal|]. intros other.
    rewrite Ho. destruct (String.eqb_spec other name) as [->|]; [by rewrite G|done].
Qed.

(** An assignment finds a variable exactly when a lookup does; it then
    changes that variable and no other, opens and closes no frame, and
    otherwise leaves the machine as it is. *)
Theorem set_existing_variable_correct (name : string) (v : Value) (s : Vm) :
  match set_existing_variable name v s with
  | Val found s' =>
      (found = true <-> is_Some (lookup_variable s name)) /\
      (forall other, lookup_variable s' other =
         if found && String.eqb other name then Some v else lookup_variable s other) /\
      length (local_variables s') = length (local_variables s) /\
      set_scopes (variables s) (local_variables s) s' = s
  | _ => False
  end.
Proof.
  unfold set_existing_variable, lookup_variable. pose proof (set_frames_lookup name v (local_variables s)) as H.
  destruct (set_frames name v (local_variables s)) as [fs|]; simpl.
  - destruct H as ([w Hw] & Hl & Ho). rewrite Hw. split; [by split; [eexists|]|].
    split; [|split; [done|by destruct s]]. intros other. rewrite Ho. by destruct (String.eqb other name).
  - rewrite H. destruct (bt_contains_key name (variables s)) eqn:E; simpl.
    + apply bt_contains_get in E. split; [done|]. split; [|split; [done|by destruct s]].
      intros other. rewrite bt_get_insert. destruct (String.eqb_spec other name) as [->|]; [by rewrite H|].
      by destruct (lookup_frames other _).
    + split; [|split; [done|by destruct s]]. rewrite <- bt_contains_get, E. done.
Qed.

(** A variable declared in a call's frame shadows its namesakes while the
    frame is open, and closing the frame gives back the scopes as they were,
    with the call's own variables. *)
Theorem declare_in_frame (name : string) (v : Value) (s : Vm) : exists inner,
  (push_variable_frame ;;! declare_variable name v) s = Val tt inner /\
  lookup_variable inner name = Some v /\
  (forall other, other <> name -> lookup_variable inner other = lookup_variable s other) /\
  pop_variable_frame inner = Val [(name, v)] s.
Proof.
  eexists. split; [reflexivity|]. unfold lookup_variable. simpl. rewrite String.eqb_refl.
  split; [done|]. split; [|by destruct s].
  intros other Hne. by rewrite (proj2 (String.eqb_neq other name)).
Qed.

(** ** Splitting and joining *)

#[local] Arguments String.append : simpl nomatch.

Lemma substring_whole (s : string) : substring 0 (String.length s) s = s.
Proof. induction s as [|c s IH]; simpl; [done|by rewrite IH]. Qed.

Lemma starts_with_split d s : starts_with d s = true ->
  s = d ++ substring (String.length d) (String.length s - String.length d) s.
Proof.
  revert s. induction d as [|a d IH]; intros s H.
  - simpl. rewrite Nat.sub_0_r. by rewrite substring_whole.
  - destruct s as [|b s]; [done|]. simpl in H. apply andb_prop in H as [->%Ascii.eqb_eq H]. simpl. f_equal. by apply IH.
Qed.

Lemma string_find_split d s i : string_find d s = Some i ->
  s = substring 0 i s ++ d ++ substring (i + String.length d) (String.length s - (i + String.length d)) s.
Proof.
  revert i. induction s as [|c s IH]; intros i H; simpl string_find in H.
  - destruct (starts_with d "") eqn:E; [|done]. injection H as <-. by apply starts_with_split in E.
  - destruct (starts_with d (String c s)) eqn:E.
    + injection H as <-. by apply starts_with_split in E.
    + destruct (string_find d s) as [j|] eqn:F; [|done]. injection H as <-. simpl. f_equal. by apply IH.
Qed.

Lemma starts_with_prefix d s i : starts_with d (substring 0 i s) = true -> starts_with d s = true.
Proof.
  revert s i. induction d as [|a d IH]; intros s i; [by destruct s|]. destruct s as [|b s], i as [|i]; simpl; try done.
  intros [-> H]%andb_prop. simpl. by eapply IH.
Qed.

(** Nothing before the first occurrence contains the delimiter. *)
Lemma string_find_first d s i : d <> "" -> string_find d s = Some i -> string_contains d (substring 0 i s) = false.
Proof.
  intros Hd. revert i. induction s as [|c s IH]; intros i H; simpl string_find in H.
  - by destruct d.
  - destruct (starts_with d (String c s)) eqn:E.
    + injection H as <-. by destruct d.
    + destruct (string_find d s) as [j|] eqn:F; [|done]. injection H as <-. cbn [substring string_contains].
      rewrite (IH j) by done. destruct (starts_with d (String c (substring 0 j s))) eqn:G; [|done].
      change (String c (substring 0 j s)) with (substring 0 (S j) (String c s)) in G. 
      apply starts_with_prefix in G. congruence.
Qed.

Lemma contains_find d s : string_find d s = None -> string_contains d s = false.
Proof.
  induction s as [|c s IH]; cbn [string_find string_contains]; (destruct (starts_with _ _); [done|]); [done|].
  destruct (string_find d s); [done|]. intros _. by apply IH.
Qed.

Lemma split_on_ne fuel d s : exists p ps, split_on fuel d s = p :: ps.
Proof. destruct fuel; simpl; [by eexists _, _|]. case_match; by eexists _, _. Qed.

Lemma split_on_concat fuel d s : String.concat d (split_on fuel d s) = s.
Proof.
  revert s. induction fuel as [|fuel IH]; intros s; cbn [split_on]; [done|].
  destruct (string_find d s) as [i|] eqn:E; [|done].
  pose proof (string_find_split _ _ _ E) as Hs.
  set (rest := substring (i + String.length d) _ s) in *. pose proof (IH rest) as Hr.
  destruct (split_on_ne fuel d rest) as (p & ps & Hp). rewrite Hp in *. rewrite <- Hr in Hs. by rewrite Hs at 2.
Qed.

Lemma substring_length i n (s : string) : String.length (substring i n s) <= n.
Proof.
  revert i n. induction s as [|c s IH]; intros [|i] [|n]; simpl; try lia; [|apply IH..].
  specialize (IH 0 n). lia.
Qed.

Lemma split_on_parts fuel d s : d <> "" -> String.length s <= fuel ->
  Forall (fun p => string_contains d p = false) (split_on fuel d s).
Proof.
  intros Hd. revert s. induction fuel as [|fuel IH]; intros s Hf; cbn [split_on].
  - destruct s; [|simpl in Hf; lia]. apply Forall_singleton. by destruct d.
  - destruct (string_find d s) as [i|] eqn:E; [|by apply Forall_singleton, contains_find].
    apply Forall_cons_2; [by apply string_find_first|]. apply IH.
    pose proof (substring_length (i + String.length d) (String.length s - (i + String.length d)) s).
    destruct d; [done|simpl in *; lia].
Qed.

Lemma split_string_correct d s : d <> "" ->
  String.concat d (split_string d s) = s /\ Forall (fun p => string_contains d p = false) (split_string d s).
Proof. intros Hd. split; [apply split_on_concat|by apply split_on_parts]. Qed.

Lemma concat_chars cs : String.concat "" ((fun c => from_bytes (encode [c])) <$> cs) = from_bytes (encode cs).
Proof.
  induction cs as [|c cs IH]; [done|]. rewrite fmap_cons.
  assert (H : forall x xs, String.concat "" (x :: xs) = x ++ String.concat "" xs).
  { intros x [|y xs]; [|done]. simpl. symmetry. induction x as [|a x IHx]; simpl; [done|by f_equal]. }
  rewrite H, IH. unfold encode. simpl. rewrite app_nil_r.
  induction (encode_char c) as [|b l IHl]; simpl; [done|by f_equal].
Qed.

Lemma all_strings_of strs m : all_strings (Value.String <$> strs) m = Ok strs.
Proof. induction strs as [|x strs IH]; [done|]. rewrite fmap_cons. cbn [all_strings]. by rewrite IH. Qed.

Lemma join_array strs l d st m s : snapshot (store s) l = Value.String <$> strs -> stack s = Value.String d :: st ->
  method_join (Value.Array l) m s = Val (Value.String (String.concat d strs)) (set_stack st s).
Proof.
  intros Hl Hst. unfold method_join, pop_string, vbind, pop. rewrite Hst. unfold vget, vret, vlift. simpl.
  rewrite Hl, all_strings_of. done.
Qed.

Lemma new_array_snapshot vs s : exists l s', new_array vs s = Val (Value.Array l) s' /\
  snapshot (store s') l = vs /\ stack s' = stack s.
Proof.
  eexists _, _. split; [reflexivity|]. simpl. split; [|done].
  unfold snapshot. by rewrite lookup_app_r, Nat.sub_diag by done.
Qed.

(** Splitting a string gives an array of strings none of which contains
    the delimiter, and joining that array with the same delimiter gives the
    string back; the empty delimiter splits into characters. *)
Theorem split_join (str d m1 m2 : string) (st : list Value) (s : Vm) : utf8 (as_bytes str) ->
  exists strs l s1,
    method_split (Value.String str) m1 (set_stack (Value.String d :: st) s) = Val (Value.Array l) s1 /\
    snapshot (store s1) l = Value.String <$> strs /\ stack s1 = st /\
    (d <> "" -> Forall (fun p => string_contains d p = false) strs) /\
    method_join (Value.Array l) m2 (set_stack (Value.String d :: st) s1) =
      Val (Value.String str) (set_stack st s1).
Proof.
  intros [cs Hcs].
  assert (Hs : exists strs, String.concat d strs = str /\ (d <> "" -> Forall (fun p => string_contains d p = false) strs) /\
    method_split (Value.String str) m1 (set_stack (Value.String d :: st) s) =
    new_array (Value.String <$> strs) (set_stack st s)).
  { unfold method_split, pop_string, vbind, pop, vret. simpl. destruct (String.eqb_spec d "") as [->|Hd].
    - exists ((fun c => from_bytes (encode [c])) <$> cs). split; [|split; [done|]].
      + rewrite concat_chars, (utf8_chars_encode _ _ Hcs). apply string_of_list_ascii_of_string.
      + unfold string_chars, vlift, chars. rewrite Hcs. by rewrite <- list_fmap_compose.
    - exists (split_string d str). destruct (split_string_correct d str Hd). by split. }
  destruct Hs as (strs & Hc & Hp & Hm). exists strs.
  destruct (new_array_snapshot (Value.String <$> strs) (set_stack st s)) as (l & s1 & Hn & Hl & Hst).
  exists l, s1. split; [congruence|]. split; [done|]. split; [done|]. split; [done|].
  by rewrite (join_array strs l d st), Hc.
Qed.

Lemma split_join_witness : utf8 (as_bytes "a,b,,c") /\
  exists strs l s1,
    method_split (Value.String "a,b,,c") "split" (set_stack [Value.String ","] default_vm) = Val (Value.Array l) s1 /\
    snapshot (store s1) l = Value.String <$> strs /\ stack s1 = [] /\
    ("," <> "" -> Forall (fun p => string_contains "," p = false) strs) /\
    method_join (Value.Array l) "join" (set_stack [Value.String ","] s1) =
      Val (Value.String "a,b,,c") (set_stack [] s1).
Proof.
  assert (H : utf8 (as_bytes "a,b,,c")) by (eexists; vm_compute; reflexivity).
  split; [exact H|]. apply (split_join "a,b,,c" "," "split" "join" [] default_vm H).
Defined.
