(* ===== verification/VmHost.v ===== *)
(** * Host policies of a machine

    What a machine may do with its host: the switches and limits of
    [crates/ricochet_vm/src/runtime_state.rs], the checks of [vm.rs] that hosts
    and paths go through, and the words and methods of [builtins.rs] for the
    environment and for files.  The operating system is a parameter. *)

From stdpp Require Import base tactics list strings option numbers.
From Stdlib Require Import ZArith NArith Lia Ascii String.
From S2P Require Import Prelude RustStr RustText RustPath Lexer Bytecode BTree Expander Imports ImportsProofs Value VmState.

Open Scope string_scope.
Open Scope list_scope.
Open Scope nat_scope.

(** ** Policies *)

(** A set of names as a list. *)
Record HostRuntimeState : Type := mkHost {
  fs_enabled : bool; filesystem_root : option string; fs_writes_enabled : bool;
  net_http_enabled : bool; http_allowed_hosts : option (list string);
  socket_enabled : bool; socket_allowed_hosts : option (list string);
  host_process_enabled : bool; process_root : option string; pty_enabled : bool;
  host_terminal_enabled : bool; host_webview_enabled : bool;
  environment_enabled : bool; environment_allowed_names : option (list string); sleep_enabled : bool }.

Definition default_host : HostRuntimeState :=
  mkHost false None false false None false None false None false false false false None false.

(** [PathBuf::pop]; the empty path and the root stay. *)
Definition path_pop (p : string) : string := default p (parent p).

Definition normalize_step (normalized : string) (c : Component) : string :=
  match c with
  | Component.CurDir => normalized
  | Component.ParentDir => path_pop normalized
  | Component.RootDir => join normalized "/"
  | Component.Normal value => join normalized value
  end.

Definition normalize_path (path : string) : string := foldl normalize_step "" (components path).

Definition enable_cli_capabilities (p : HostRuntimeState) : HostRuntimeState :=
  mkHost true (filesystem_root p) true true (http_allowed_hosts p) true (socket_allowed_hosts p) true (process_root p) true true true
    true (environment_allowed_names p) true.

Definition set_host_capabilities (filesystem http : bool) (p : HostRuntimeState) : HostRuntimeState :=
  mkHost filesystem (filesystem_root p) filesystem http (http_allowed_hosts p) (socket_enabled p) (socket_allowed_hosts p)
    (host_process_enabled p) (process_root p) (pty_enabled p) (host_terminal_enabled p) (host_webview_enabled p) (environment_enabled p)
    (environment_allowed_names p) (sleep_enabled p).

Definition set_filesystem_root (root : string) (p : HostRuntimeState) : HostRuntimeState :=
  mkHost (fs_enabled p) (Some (normalize_path root)) (fs_writes_enabled p) (net_http_enabled p) (http_allowed_hosts p) (socket_enabled p)
    (socket_allowed_hosts p) (host_process_enabled p) (process_root p) (pty_enabled p) (host_terminal_enabled p) (host_webview_enabled p)
    (environment_enabled p) (environment_allowed_names p) (sleep_enabled p).

Definition set_filesystem_writes_enabled (enabled : bool) (p : HostRuntimeState) : HostRuntimeState :=
  mkHost (fs_enabled p) (filesystem_root p) enabled (net_http_enabled p) (http_allowed_hosts p) (socket_enabled p)
    (socket_allowed_hosts p) (host_process_enabled p) (process_root p) (pty_enabled p) (host_terminal_enabled p) (host_webview_enabled p)
    (environment_enabled p) (environment_allowed_names p) (sleep_enabled p).

Definition set_http_allowed_hosts (hosts : list string) (p : HostRuntimeState) : HostRuntimeState :=
  mkHost (fs_enabled p) (filesystem_root p) (fs_writes_enabled p) (net_http_enabled p) (Some (to_ascii_lowercase <$> hosts)) (socket_enabled p)
    (socket_allowed_hosts p) (host_process_enabled p) (process_root p) (pty_enabled p) (host_terminal_enabled p) (host_webview_enabled p)
    (environment_enabled p) (environment_allowed_names p) (sleep_enabled p).

Definition set_socket_policy (enabled : bool) (hosts : option (list string)) (p : HostRuntimeState) : HostRuntimeState :=
  mkHost (fs_enabled p) (filesystem_root p) (fs_writes_enabled p) (net_http_enabled p) (http_allowed_hosts p) enabled
    hosts (host_process_enabled p) (process_root p) (pty_enabled p) (host_terminal_enabled p) (host_webview_enabled p)
    (environment_enabled p) (environment_allowed_names p) (sleep_enabled p).

Definition set_socket_enabled (enabled : bool) (p : HostRuntimeState) : HostRuntimeState := set_socket_policy enabled (socket_allowed_hosts p) p.
Definition set_socket_allowed_hosts (hosts : list string) (p : HostRuntimeState) : HostRuntimeState :=
  set_socket_policy (socket_enabled p) (Some (to_ascii_lowercase <$> hosts)) p.
Definition clear_socket_allowed_hosts (p : HostRuntimeState) : HostRuntimeState := set_socket_policy (socket_enabled p) None p.

Definition set_process_policy (enabled : bool) (root : option string) (pty : bool) (p : HostRuntimeState) : HostRuntimeState :=
  mkHost (fs_enabled p) (filesystem_root p) (fs_writes_enabled p) (net_http_enabled p) (http_allowed_hosts p) (socket_enabled p)
    (socket_allowed_hosts p) enabled root pty (host_terminal_enabled p) (host_webview_enabled p)
    (environment_enabled p) (environment_allowed_names p) (sleep_enabled p).

Definition set_process_enabled (enabled : bool) (p : HostRuntimeState) : HostRuntimeState := set_process_policy enabled (process_root p) (pty_enabled p) p.
Definition set_process_root (root : string) (p : HostRuntimeState) : HostRuntimeState :=
  set_process_policy (host_process_enabled p) (Some (normalize_path root)) (pty_enabled p) p.
Definition set_pty_enabled (enabled : bool) (p : HostRuntimeState) : HostRuntimeState := set_process_policy (host_process_enabled p) (process_root p) enabled p.

Definition set_environment_policy (enabled : bool) (names : option (list string)) (p : HostRuntimeState) : HostRuntimeState :=
  mkHost (fs_enabled p) (filesystem_root p) (fs_writes_enabled p) (net_http_enabled p) (http_allowed_hosts p) (socket_enabled p)
    (socket_allowed_hosts p) (host_process_enabled p) (process_root p) (pty_enabled p) (host_terminal_enabled p) (host_webview_enabled p)
    enabled names (sleep_enabled p).

Definition set_environment_enabled (enabled : bool) (p : HostRuntimeState) : HostRuntimeState := set_environment_policy enabled (environment_allowed_names p) p.
Definition set_environment_allowed_names (names : list string) (p : HostRuntimeState) : HostRuntimeState :=
  set_environment_policy (environment_enabled p) (Some names) p.
Definition clear_environment_allowed_names (p : HostRuntimeState) : HostRuntimeState := set_environment_policy (environment_enabled p) None p.

Definition filesystem_writes_enabled (p : HostRuntimeState) : bool := fs_enabled p && fs_writes_enabled p.

(** ** Hosts *)

(** [reqwest::Url::parse]: the scheme and the host, if any. *)
Class UrlParser : Type := url_parse : string -> (string * option string) + msg.

(** [{:?}] of a text. *)
Class StrDebug : Type := str_debug : string -> string.

Definition member (name : string) (names : list string) : bool := existsb (String.eqb name) names.

Section hosts.
Context `{UrlParser} `{IoErrors} `{StrDebug}.

Definition check_http_url_allowed (p : HostRuntimeState) (word url : string) : res VmError unit :=
  match http_allowed_hosts p with
  | None => Ok tt
  | Some allowed_hosts =>
      match url_parse url with
      | inr error => Err (VmError.InvalidArgument word ("invalid HTTP URL " ++ str_debug url ++ ": " ++ io_error_text error))
      | inl (scheme, host) =>
          if negb (String.eqb scheme "http" || String.eqb scheme "https")
          then Err (VmError.InvalidArgument word ("unsupported HTTP URL scheme: " ++ scheme))
          else match host with
               | None => Err (VmError.InvalidArgument word ("HTTP URL has no host: " ++ str_debug url))
               | Some host =>
                   let host := to_ascii_lowercase host in
                   if member host allowed_hosts then Ok tt
                   else Err (VmError.HostError word ("HTTP host is not allowed: " ++ host))
               end
      end
  end.
End hosts.

Definition check_socket_host_allowed (p : HostRuntimeState) (word host : string) : res VmError unit :=
  match socket_allowed_hosts p with
  | None => Ok tt
  | Some allowed_hosts =>
      let host := to_ascii_lowercase host in
      if member host allowed_hosts then Ok tt
      else Err (VmError.HostError word ("socket host is not allowed: " ++ host))
  end.

(** ** Paths *)

Section paths.
Context `{FileSystem} `{PathExists} `{IoErrors}.

(** The loops pop the path until it has no parent: they go over its ancestors. *)
Definition nearest_resolvable_ancestor (path : string) : string + string :=
  match List.find path_exists (ancestors path) with
  | Some current => inl current
  | None => inr ("no resolvable ancestor for " ++ path)%string
  end.

Fixpoint strict_ancestor_from (path : string) (ancestors : list string) : string + string :=
  match ancestors with
  | [] => inr ("no existing ancestor for " ++ path)%string
  | current :: ancestors' =>
      match symlink_metadata current with
      | inl _ => inl current
      | inr error => if is_not_found error then strict_ancestor_from path ancestors' else inr (io_error_text error)
      end
  end.

Definition nearest_strict_existing_ancestor (path : string) : string + string := strict_ancestor_from path (ancestors path).

Definition canonical_path (path : string) : option string :=
  match canonicalize path with inl canonical => Some (normalize_path canonical) | inr _ => None end.

Definition canonical_directory (path : string) : option string :=
  canonical ← canonical_path path; if is_dir canonical then Some canonical else None.

Definition host_error (word message : string) : VmError := VmError.HostError word message.

Definition resolve_bounded_path (word label root source : string) : res VmError string :=
  let candidate := if is_absolute source then source else join root source in
  let normalized := normalize_path candidate in
  if negb (path_starts_with normalized root) then Err (host_error word (label ++ " path is outside root: " ++ source))
  else match canonical_directory root with
  | None => Err (host_error word ("failed to resolve " ++ label ++ " root: " ++ root))
  | Some canonical_root =>
      match nearest_resolvable_ancestor normalized with
      | inr error => Err (host_error word ("failed to resolve " ++ label ++ " path " ++ source ++ ": " ++ error))
      | inl existing =>
          match canonicalize existing with
          | inr error => Err (host_error word ("failed to resolve " ++ label ++ " path " ++ source ++ ": " ++ io_error_text error))
          | inl canonical_existing =>
              if negb (path_starts_with (normalize_path canonical_existing) canonical_root)
              then Err (host_error word (label ++ " path is outside root: " ++ source))
              else Ok normalized
          end
      end
  end.

Definition resolve_filesystem_path (p : HostRuntimeState) (word source : string) : res VmError string :=
  match filesystem_root p with
  | None => Ok source
  | Some root => resolve_bounded_path word "filesystem" root source
  end.

(** [std::env::current_dir] may fail. *)
Definition workspace_contains_path (p : HostRuntimeState) (current_dir : option string) (word root_source path_source : string) : bool :=
  match resolve_filesystem_path p word root_source, resolve_filesystem_path p word path_source with
  | Ok root, Ok candidate =>
      let relative := negb (is_absolute root) || negb (is_absolute candidate) in
      match (if relative then match current_dir with Some d => Some (Some d) | None => None end else Some None) with
      | None => false
      | Some current_directory =>
          let place path := match current_directory with
                            | Some d => if negb (is_absolute path) then normalize_path (join d path) else normalize_path path
                            | None => normalize_path path
                            end in
          let normalized_root := place root in
          let normalized_candidate := place candidate in
          if negb (path_starts_with normalized_candidate normalized_root) then false
          else match canonical_directory normalized_root with
          | None => false
          | Some canonical_root =>
              match nearest_strict_existing_ancestor normalized_candidate with
              | inr _ => false
              | inl existing =>
                  match canonical_path existing with
                  | None => false
                  | Some canonical_existing => path_starts_with canonical_existing canonical_root
                  end
              end
          end
      end
  | _, _ => false
  end.

Definition resolve_process_path (p : HostRuntimeState) (word source : string) : res VmError string :=
  match process_root p with
  | Some root => resolve_bounded_path word "process" root source
  | None => resolve_filesystem_path p word source
  end.

Definition resolve_process_command (p : HostRuntimeState) (word source : string) : res VmError string :=
  match process_root p with
  | None => Ok source
  | Some root =>
      let? path := resolve_bounded_path word "process executable" root source in
      if negb (is_file path) then Err (host_error word ("process executable is not a file inside process root: " ++ source))
      else Ok path
  end.
End paths.

(** ** The environment *)

Definition contains_nul (s : string) : bool := contains_byte "000"%char s.

Definition validate_environment_name (name : string) : option string :=
  if String.eqb name "" then Some "environment variable name must not be empty"
  else if contains_byte "="%char name then Some "environment variable name must not contain ="
  else if contains_nul name then Some "environment variable name must not contain NUL"
  else None.

Definition validate_environment_assignment (name value : string) : option string :=
  match validate_environment_name name with
  | Some message => Some message
  | None => if contains_nul value then Some "environment variable value must not contain NUL" else None
  end.

Definition environment_denied (p : HostRuntimeState) (name : string) : bool :=
  match environment_allowed_names p with Some names => negb (member name names) | None => false end.

Definition environment_disabled (word : string) : VmError := VmError.HostError word "environment capability is not enabled".
Definition environment_name_denied (word name : string) : VmError := VmError.HostError word ("environment variable is not allowed: " ++ name).

Definition call_env `{Environment} (p : HostRuntimeState) (word : string) : VM unit :=
  if negb (environment_enabled p) then vfail (environment_disabled word)
  else
    let! s := vget in
    let! name := on_err (pop_string word "environment variable name string") (restore_stack (stack s)) in
    if environment_denied p name then fail_restoring (stack s) (environment_name_denied word name)
    else push_value (match env_var name with
                     | inl value => result_ok (Value.String value)
                     | inr error => result_err "EnvironmentError" error
                     end).

(** The variable that [std::env::set_var] is called for, if it is. *)
Definition call_env_set (p : HostRuntimeState) (word : string) : VM (option (string * string)) :=
  if negb (environment_enabled p) then vfail (environment_disabled word)
  else
    let! s := vget in
    let! value := on_err (pop_string word "environment variable value string") (restore_stack (stack s)) in
    let! name := on_err (pop_string word "environment variable name string") (restore_stack (stack s)) in
    if environment_denied p name then fail_restoring (stack s) (environment_name_denied word name)
    else match validate_environment_assignment name value with
         | Some message => push_value (result_err "EnvironmentError" message) ;;! vret None
         | None => push_value (result_ok Value.Nil) ;;! vret (Some (name, value))
         end.

Definition resolve_environment_value `{Environment} (p : HostRuntimeState) (word name : string) : res VmError (string + string) :=
  if negb (environment_enabled p) then Err (environment_disabled word)
  else if environment_denied p name then Err (environment_name_denied word name)
  else Ok (env_var name).

Definition call_cwd (p : HostRuntimeState) (current_dir : string + string) : VM unit :=
  if negb (environment_enabled p) then vfail (environment_disabled "cwd")
  else push_value (match current_dir with
                   | inl path => result_ok (Value.String path)
                   | inr error => result_err "IoError" error
                   end).

Definition child_process_must_clear_environment (p : HostRuntimeState) : bool :=
  negb (environment_enabled p) || match environment_allowed_names p with Some _ => true | None => false end.

Definition validate_child_environment_policy (p : HostRuntimeState) (label : string) (env : btree string) : res Value unit :=
  match env with
  | [] => Ok tt
  | _ =>
      if negb (environment_enabled p) then Err (result_err "ProcessRequestError" (label ++ " env requires the environment capability"))
      else match environment_allowed_names p with
           | None => Ok tt
           | Some allowed_names =>
               match List.find (fun name => negb (member name allowed_names)) (bt_keys env) with
               | Some name => Err (result_err "ProcessRequestError" (label ++ " environment variable is not allowed: " ++ name))
               | None => Ok tt
               end
           end
  end.

(** ** Files *)

Definition require_capability (receiver : Value) (expected : Capability) (word : string) : VM unit :=
  match receiver with
  | Value.Capability c => if decide (c = expected) then vret tt else vfail (type_error word "matching capability" receiver)
  | _ => vfail (type_error word "matching capability" receiver)
  end.

(** What is asked of the file system, in order; how each ends is up to it. *)
Module FsEffect.
Inductive FsEffect : Type :=
  | Write (path contents : string)
  | CreateDirAll (path : string)
  | RemoveFile (path : string)
  | RemoveDir (path : string)
  | RemoveDirAll (path : string).
End FsEffect.
Abbreviation FsEffect := FsEffect.FsEffect.

Definition effect_path (e : FsEffect) : string :=
  match e with
  | FsEffect.Write path _ | FsEffect.CreateDirAll path | FsEffect.RemoveFile path | FsEffect.RemoveDir path | FsEffect.RemoveDirAll path => path
  end.

Class FsOutcomes : Type := perform : FsEffect -> unit + msg.

(** The text of an error, which the thiserror crate derives. *)
Class VmErrorDisplay : Type := vm_error_text : VmError -> string.

Section files.
Context `{FileSystem} `{PathExists} `{IoErrors} `{FsOutcomes} `{VmErrorDisplay}.
Variable p : HostRuntimeState.

Definition permission_error (e : VmError) : Value := result_err "PermissionError" (vm_error_text e).
Definition io_result_error (error : msg) : Value := result_err "IoError" (io_error_text error).
Definition writes_disabled : Value := result_err "PermissionError" "filesystem writes are disabled".

(** [self.resolve_filesystem_path(method, &path)], whose error is a result. *)
Definition with_path (method path : string) (k : string -> VM (Value * list FsEffect)) : VM (Value * list FsEffect) :=
  match resolve_filesystem_path p method path with
  | Ok path => k path
  | Err error => vret (permission_error error, [])
  | Panic => vcrash
  | OutOfFuel => fun _ => NoFuel
  end.

Definition method_fs_read_text (receiver : Value) (method : string) : VM (Value * list FsEffect) :=
  require_capability receiver Capability.FileSystem method ;;!
  let! path := pop_string method "path string" in
  with_path method path (fun path =>
    vret (match read_to_string path with inl contents => result_ok (Value.String contents) | inr error => io_result_error error end, [])).

(** One change of the file system, whose result is the path. *)
Definition change (e : FsEffect) (path : string) : VM (Value * list FsEffect) :=
  vret (match perform e with inl _ => result_ok (Value.String path) | inr error => io_result_error error end, [e]).

Definition method_fs_write_text (receiver : Value) (method : string) : VM (Value * list FsEffect) :=
  require_capability receiver Capability.FileSystem method ;;!
  let! contents := pop_string method "file contents string" in
  let! path := pop_string method "path string" in
  if negb (filesystem_writes_enabled p) then vret (writes_disabled, [])
  else with_path method path (fun path => change (FsEffect.Write path contents) path).

Definition method_fs_exists (receiver : Value) (method : string) : VM (Value * list FsEffect) :=
  require_capability receiver Capability.FileSystem method ;;!
  let! path := pop_string method "path string" in
  match resolve_filesystem_path p method path with
  | Ok path => vret (Value.Bool (path_exists path), [])
  | _ => vret (Value.Bool false, [])
  end.

Fixpoint directory_values (entries : list (string + msg)) : list Value + msg :=
  match entries with
  | [] => inl []
  | inr error :: _ => inr error
  | inl path :: entries' => match directory_values entries' with inl values => inl (Value.String path :: values) | inr error => inr error end
  end.

Definition method_fs_list (receiver : Value) (method : string) : VM (Value * list FsEffect) :=
  require_capability receiver Capability.FileSystem method ;;!
  let! path := pop_string method "directory path string" in
  with_path method path (fun path =>
    match read_dir path with
    | inr error => vret (io_result_error error, [])
    | inl entries =>
        match directory_values entries with
        | inl values => let! array := new_array values in vret (result_ok array, [])
        | inr error => vret (io_result_error error, [])
        end
    end).

Definition method_fs_create_dir (receiver : Value) (method : string) : VM (Value * list FsEffect) :=
  require_capability receiver Capability.FileSystem method ;;!
  let! path := pop_string method "directory path string" in
  if negb (filesystem_writes_enabled p) then vret (writes_disabled, [])
  else with_path method path (fun path => change (FsEffect.CreateDirAll path) path).

Definition is_filesystem_root_path (path : string) (root : option string) : bool :=
  match root with Some root => bool_decide (components path = components root) | None => false end.

Definition remove_symlink (path : string) : (unit + msg) * list FsEffect :=
  match perform (FsEffect.RemoveFile path) with
  | inl _ => (inl tt, [FsEffect.RemoveFile path])
  | inr file_error =>
      (match perform (FsEffect.RemoveDir path) with inl _ => inl tt | inr _ => inr file_error end,
       [FsEffect.RemoveFile path; FsEffect.RemoveDir path])
  end.

(** The metadata of the path itself; what is no link and no directory is
    removed as a file. *)
Definition delete_filesystem_path (path : string) (recursive : bool) : (unit + msg) * list FsEffect :=
  match symlink_metadata path with
  | inr error => (inr error, [])
  | inl FileType.Symlink => remove_symlink path
  | inl FileType.Dir =>
      let e := if recursive then FsEffect.RemoveDirAll path else FsEffect.RemoveDir path in (perform e, [e])
  | inl _ => (perform (FsEffect.RemoveFile path), [FsEffect.RemoveFile path])
  end.

Definition method_fs_delete (receiver : Value) (method : string) : VM (Value * list FsEffect) :=
  require_capability receiver Capability.FileSystem method ;;!
  let! path := pop_string method "path string" in
  if negb (filesystem_writes_enabled p) then vret (writes_disabled, [])
  else with_path method path (fun path =>
    if is_filesystem_root_path path (filesystem_root p) then vret (result_err "PermissionError" "refusing to delete filesystem root", [])
    else
      let '(outcome, effects) := delete_filesystem_path path false in
      vret (match outcome with inl _ => result_ok (Value.String path) | inr error => io_result_error error end, effects)).

(** The methods of the [fs] capability. *)
Definition fs_methods : list (string * (Value -> string -> VM (Value * list FsEffect))) :=
  [("read_text", method_fs_read_text); ("write_text", method_fs_write_text); ("exists?", method_fs_exists); ("list", method_fs_list);
   ("create_dir", method_fs_create_dir); ("delete", method_fs_delete)].
End files.

(** * Host policies of a machine, proved

    A machine with a file system root reads and changes nothing that its path
    leads to outside the root. *)

(** ** Normal paths *)

Lemma split_slash_slashless l : Forall (Forall (fun b => b <> slash)) (split_slash l).
Proof.
  induction l as [|b l IH]; simpl; [by repeat constructor|]. destruct (split_slash_cons l) as (seg & rest & Hs). rewrite Hs in *.
  apply Forall_cons_1 in IH as [H1 H2]. destruct (Ascii.eqb_spec b slash); repeat constructor; auto.
Qed.

Lemma segments_slashless p : Forall (fun s => Forall (fun b => b <> slash) (as_bytes s)) (segments p).
Proof.
  unfold segments. apply Forall_fmap. eapply list.Forall_impl; [apply split_slash_slashless|]. intros l Hl. simpl.
  unfold as_bytes, from_bytes. by rewrite list_ascii_of_string_of_list_ascii.
Qed.

Lemma body_slashless p : Forall (fun s => Forall (fun b => b <> slash) (as_bytes s)) (body p).
Proof.
  unfold body. pose proof (segments_slashless p) as H. destruct (is_absolute p); [|done]. destruct H; [constructor|done].
Qed.

(** Names of components are good names. *)
Definition good_component (c : Component) : Prop := match c with Component.Normal n => good_name n | _ => True end.

Lemma segment_component_good s : Forall (fun b => b <> slash) (as_bytes s) -> Forall good_component (segment_component s).
Proof.
  intros Hs. unfold segment_component. destruct (skipped s) eqn:Hk; [constructor|]. destruct (String.eqb_spec s "..") as [|Hd]; [by repeat constructor|].
  unfold skipped in Hk. apply orb_false_iff in Hk as [H1 H2]. apply String.eqb_neq in H1, H2. constructor; [|constructor]. by split_and!.
Qed.

Lemma flat_good l : Forall (fun s => Forall (fun b => b <> slash) (as_bytes s)) l -> Forall good_component (flat_map segment_component l).
Proof. induction 1 as [|s l Hs _ IH]; simpl; [constructor|]. apply Forall_app. split; [by apply segment_component_good|done]. Qed.

Lemma components_good p : Forall good_component (components p).
Proof.
  unfold components. pose proof (body_slashless p) as Hb. destruct (is_absolute p); [constructor; [done|by apply flat_good]|].
  destruct (body p) as [|s rest]; [constructor|]. apply Forall_cons_1 in Hb as [Hs Hr].
  destruct (String.eqb s "."); [constructor; [done|by apply flat_good]|]. apply (flat_good (s :: rest)). by constructor.
Qed.

Lemma normalize_from names cs : normal_names names -> Forall good_component cs ->
  exists names', normal_names names' /\ foldl normalize_step (absolute names) cs = absolute names'.
Proof.
  intros Hn Hc. revert names Hn. induction Hc as [|c cs Hc _ IH]; intros names Hn; [by exists names|]. simpl. destruct c; simpl.
  - change (join (absolute names) "/") with (absolute []). apply IH. constructor.
  - by apply IH.
  - unfold path_pop. destruct (decide (names = [])) as [->|Hne]; [apply (IH []); constructor|].
    destruct (exists_last Hne) as (names' & n & ->). rewrite parent_absolute by done. simpl. apply IH. by apply Forall_app in Hn as [? _].
  - rewrite join_absolute by done. apply IH. apply Forall_app. split; [done|]. constructor; [done|constructor].
Qed.

Lemma join_absolute_is p root : is_absolute root = true -> is_absolute (if is_absolute p then p else join root p) = true.
Proof.
  intros Hr. destruct (is_absolute p) eqn:Hp; [done|]. unfold join. rewrite Hp. unfold is_absolute in *. destruct root as [|b root]; [done|].
  change (as_bytes (String b root)) with (b :: as_bytes root). destruct (list.last (b :: as_bytes root)) as [c|] eqn:Hl; [by destruct (Ascii.eqb c "/")|].
  by apply last_None in Hl.
Qed.

(** The normal form of an absolute path. *)
Lemma normalize_absolute_path p : is_absolute p = true -> exists names, normal_names names /\ normalize_path p = absolute names.
Proof.
  intros Hp. unfold normalize_path. pose proof (components_good p) as Hc. unfold components in *. rewrite Hp in *. simpl.
  apply Forall_cons_1 in Hc as [_ Hc]. change (join "" "/") with (absolute []). apply normalize_from; [constructor|done].
Qed.

Lemma normalize_normal names : normal_names names -> normalize_path (absolute names) = absolute names.
Proof.
  intros Hn. unfold normalize_path. rewrite components_absolute by done. simpl. change (join "" "/") with (absolute []).
  assert (forall pre, normal_names (pre ++ names) -> foldl normalize_step (absolute pre) (Component.Normal <$> names) = absolute (pre ++ names)) as H.
  { clear Hn. induction names as [|n names IH]; intros pre Hn; [by rewrite app_nil_r|]. simpl.
    assert (normal_names (pre ++ [n])) as Hp by (change (n :: names) with ([n] ++ names) in Hn; rewrite app_assoc in Hn; by apply Forall_app in Hn as [? _]).
    apply Forall_app in Hp as Hp'. destruct Hp' as [Hpre [Hgood _]%Forall_cons_1]. rewrite join_absolute by done. rewrite IH by (by rewrite <- app_assoc). by rewrite <- app_assoc. }
  apply (H []). done.
Qed.

(** ** Containment *)

(** What the documentation of [exists], [canonicalize] and reading says: a path
    exists when it has a canonical path, and only such a path is read. *)
Class PathExistsLaws (fs : FileSystem) (ex : PathExists) : Prop := {
  exists_canonical p : path_exists p = true <-> exists q, canonicalize p = inl q;
  read_exists p s : read_to_string p = inl s -> path_exists p = true;
  read_dir_exists p l : read_dir p = inl l -> path_exists p = true }.

Section containment.
Context {fs : FileSystem} {laws : FileSystemLaws fs} {ex : PathExists} {ex_laws : PathExistsLaws fs ex} {io : IoErrors}.

Definition below (croot : list string) (q : string) : Prop := exists rest, normal_names (croot ++ rest) /\ q = absolute (croot ++ rest).

(** Where the system finds, or makes, what a path names: a path that exists is
    at its canonical path; a name under which there is nothing, not even a link,
    is made in the directory that the path before it leads to.  A link whose
    target does not exist leads nowhere here. *)
Inductive leads : list string -> list string -> Prop :=
  | leads_there names place :
      canonicalize (absolute names) = inl (absolute place) -> normal_names place -> leads names place
  | leads_new names n place :
      (forall q, canonicalize (absolute (names ++ [n])) <> inl q) -> (exists e, symlink_metadata (absolute (names ++ [n])) = inr e) ->
      leads names place -> leads (names ++ [n]) (place ++ [n]).

(** What is removed: a file or directory at its canonical path, and a link
    whose target does not exist in its directory. *)
Definition removed (names place : list string) : Prop :=
  (exists t, symlink_metadata (absolute names) = inl t /\ t <> FileType.Symlink /\
     canonicalize (absolute names) = inl (absolute place) /\ normal_names place) \/
  (forall q, canonicalize (absolute names) <> inl q) /\ exists dir n at_, names = dir ++ [n] /\ leads dir at_ /\ place = at_ ++ [n].

(** The places that an effect changes.  Directories are made below the last
    one that exists. *)
Definition changes (e : FsEffect) (place : list string) : Prop :=
  exists names, normal_names names /\ effect_path e = absolute names /\
  match e with
  | FsEffect.Write _ _ => leads names place
  | FsEffect.CreateDirAll _ =>
      exists made, made `prefix_of` names /\ leads made place /\
        forall longer, made `prefix_of` longer -> longer `prefix_of` names -> path_exists (absolute longer) = false
  | FsEffect.RemoveFile _ | FsEffect.RemoveDir _ | FsEffect.RemoveDirAll _ => removed names place
  end.

(** A path below the root [base], as a text; if it exists, below it on the disk,
    and else its nearest directory that exists is. *)
Definition bounded (base : list string) (path : string) : Prop :=
  exists rest croot existing, normal_names (base ++ rest) /\ path = absolute (base ++ rest) /\
    canonicalize (absolute base) = inl (absolute croot) /\ normal_names croot /\
    (forall q, canonicalize path = inl q -> below croot q) /\
    existing `prefix_of` base ++ rest /\ (exists q, canonicalize (absolute existing) = inl q /\ below croot q) /\
    (forall longer, existing `prefix_of` longer -> longer `prefix_of` base ++ rest -> path_exists (absolute longer) = true -> longer = existing).

Lemma canonical_path_eq p q : canonical_path p = Some q <-> canonicalize p = inl q.
Proof.
  unfold canonical_path. destruct (canonicalize p) as [c|] eqn:Hc; [|by split]. destruct (canonicalize_normal _ _ Hc) as (names & Hn & ->).
  rewrite normalize_normal by done. split; congruence.
Qed.

Lemma starts_below croot q : normal_names croot -> (exists p, canonicalize p = inl q) -> path_starts_with q (absolute croot) = true -> below croot q.
Proof.
  intros Hr [p Hp] Hs. destruct (canonicalize_normal _ _ Hp) as (names & Hn & ->). apply starts_with_absolute in Hs as [rest ->]; [|done..]. by exists rest.
Qed.

Lemma prefix_both (a b c : list string) : a `prefix_of` b -> b `prefix_of` a -> a = b.
Proof. intros. by apply (anti_symm prefix). Qed.

Lemma resolve_bounded base word label source path : normal_names base ->
  resolve_bounded_path word label (absolute base) source = Ok path -> bounded base path.
Proof.
  intros Hb. unfold resolve_bounded_path. set (candidate := if is_absolute source then source else join (absolute base) source).
  destruct (normalize_absolute_path candidate) as (names & Hn & ->); [apply join_absolute_is, is_absolute_absolute|].
  destruct (path_starts_with (absolute names) (absolute base)) eqn:Hs; [|done]. cbn [negb]. apply starts_with_absolute in Hs as [rest ->]; [|done..].
  unfold canonical_directory. destruct (canonical_path (absolute base)) as [cr|] eqn:Hcr; [|done]. cbn [mbind option_bind].
  destruct (is_dir cr); [|done]. apply canonical_path_eq in Hcr. destruct (canonicalize_normal _ _ Hcr) as (croot & Hcn & ->).
  unfold nearest_resolvable_ancestor. pose proof (find_ancestor path_exists (base ++ rest) Hn) as Hf.
  destruct (List.find path_exists (ancestors (absolute (base ++ rest)))) as [a|]; [|done]. destruct Hf as (existing & -> & Hp & Hpe & Hmax).
  destruct (canonicalize (absolute existing)) as [ce|] eqn:Hce; [|done]. destruct (canonicalize_normal _ _ Hce) as (cen & Hcen & ->).
  rewrite normalize_normal by done. destruct (path_starts_with (absolute cen) (absolute croot)) eqn:Hs'; [|done]. cbn [negb]. intros [= <-].
  assert (below croot (absolute cen)) as Hbelow by (apply starts_below; [done|by eexists|done]).
  exists rest, croot, existing. split_and!; try done.
  - intros q Hq. assert (path_exists (absolute (base ++ rest)) = true) as He by (apply exists_canonical; by exists q).
    assert (existing = base ++ rest) as -> by (apply (anti_symm prefix); [done|by apply Hmax]). rewrite Hce in Hq. by injection Hq as <-.
  - by exists (absolute cen).
  - intros longer H1 H2 H3. apply (anti_symm prefix); [by apply Hmax|done].
Qed.

(** What a machine with a root resolves. *)
Lemma filesystem_bounded p base word source path : normal_names base -> filesystem_root p = Some (absolute base) ->
  resolve_filesystem_path p word source = Ok path -> bounded base path.
Proof. intros Hb Hr. unfold resolve_filesystem_path. rewrite Hr. by apply resolve_bounded. Qed.

Lemma find_none_error word label root source : settles (resolve_bounded_path word label root source) (fun _ => True).
Proof. unfold resolve_bounded_path. by repeat case_match. Qed.

(** What a path that was checked leads to, by itself or after names that were
    taken from its end, is below the root. *)
Lemma leads_below names existing croot : existing `prefix_of` names -> normal_names croot ->
  (exists q, canonicalize (absolute existing) = inl q /\ below croot q) ->
  (forall longer, existing `prefix_of` longer -> longer `prefix_of` names -> path_exists (absolute longer) = true -> longer = existing) ->
  forall made place, leads made place -> existing `prefix_of` made -> made `prefix_of` names -> croot `prefix_of` place.
Proof.
  intros Hex Hcn (q & Hq & (rest & Hn & ->)) Hmax made place Hl. induction Hl as [made place Hc Hp|made n place Hno He Hl IH]; intros H1 H2.
  - assert (made = existing) as -> by (apply Hmax; try done; apply exists_canonical; by eexists).
    assert (absolute (croot ++ rest) = absolute place) as Hpl by congruence. apply absolute_inj in Hpl; [|done..]. subst place. by apply prefix_app_r.
  - apply prefix_app_r, IH; [|by etrans; [apply prefix_app_r|]]. destruct H1 as [k Hk]. destruct k as [|x k _] using rev_ind.
    + rewrite app_nil_r in Hk. subst existing. by destruct (Hno _ Hq).
    + rewrite app_assoc in Hk. apply app_inj_tail in Hk as [-> _]. by exists k.
Qed.

Lemma bounded_changes base e place : bounded base (effect_path e) -> changes e place ->
  exists croot, canonicalize (absolute base) = inl (absolute croot) /\ croot `prefix_of` place.
Proof.
  intros (rest & croot & existing & Hn & Hp & Hc & Hcn & Hq & Hex & Heq & Hmax) (names & Hn' & Hp' & He).
  rewrite Hp in Hp'. apply absolute_inj in Hp'; [|done..]. subst names. exists croot. split; [done|].
  pose proof (leads_below _ _ _ Hex Hcn Heq Hmax) as Hbelow.
  assert (removed (base ++ rest) place -> croot `prefix_of` place) as Hrm.
  { intros [(t & _ & _ & Hcp & Hnp)|(Hno & dir & n & at_ & Hd & Hl & ->)].
    - rewrite Hp in Hq. destruct (Hq _ Hcp) as (r & Hr & Hpl). apply absolute_inj in Hpl; [|done..]. subst place. by apply prefix_app_r.
    - apply prefix_app_r. apply (Hbelow dir at_ Hl); [|rewrite Hd; by apply prefix_app_r].
      destruct Heq as (q & Hqe & _). destruct Hex as [k Hk]. destruct k as [|x k _] using rev_ind.
      + rewrite app_nil_r in Hk. rewrite Hk in Hno. by destruct (Hno _ Hqe).
      + rewrite Hk, app_assoc in Hd. apply app_inj_tail in Hd as [<- _]. by apply prefix_app_r. }
  destruct e as [path contents|path|path|path|path]; [by apply (Hbelow _ _ He)| |by apply Hrm..].
  destruct He as (made & Hm & Hl & Hnone). apply (Hbelow _ _ Hl); [|done].
  destruct (prefix_weak_total existing made (base ++ rest) Hex Hm) as [H1|H1]; [done|].
  destruct Heq as (q & Hqe & _). specialize (Hnone existing H1 Hex). assert (path_exists (absolute existing) = true) by (apply exists_canonical; by exists q). congruence.
Qed.

(** Text that is read is the text of a file below the root. *)
Lemma bounded_read base path s : bounded base path -> read_to_string path = inl s ->
  exists croot q, canonicalize (absolute base) = inl (absolute croot) /\ below croot q /\ read_to_string q = inl s.
Proof.
  intros (rest & croot & existing & _ & -> & Hc & _ & Hq & _) Hs. pose proof (read_exists _ _ Hs) as He. apply exists_canonical in He as [q Hcq].
  exists croot, q. split; [done|]. split; [by apply Hq|]. by rewrite <- (read_canonical _ _ Hcq).
Qed.
End containment.

(** ** Methods *)

Section methods.
Context {fs : FileSystem} {laws : FileSystemLaws fs} {ex : PathExists} {ex_laws : PathExistsLaws fs ex} {io : IoErrors}.
Context {outcomes : FsOutcomes} {display : VmErrorDisplay}.
Variables (p : HostRuntimeState) (base : list string).
Hypotheses (Hbase : normal_names base) (Hroot : filesystem_root p = Some (absolute base)).

(** What a method may ask of the file system. *)
Definition allowed_change (e : FsEffect) : Prop :=
  filesystem_writes_enabled p = true /\ bounded base (effect_path e) /\
  match e with
  | FsEffect.RemoveFile path | FsEffect.RemoveDir path => path <> absolute base
  | FsEffect.RemoveDirAll _ => False
  | _ => True
  end.

Definition allowed (r : out (Value * list FsEffect)) : Prop :=
  match r with Val (_, effects) _ => Forall allowed_change effects | _ => True end.

Lemma allowed_require receiver c word k : (forall s, allowed (k tt s)) -> forall s, allowed (vbind (require_capability receiver c word) k s).
Proof. intros Hk s. unfold vbind, require_capability. destruct receiver; try done. destruct (decide (c0 = c)); [apply Hk|done]. Qed.

Lemma allowed_pop word expected k : (forall str s, allowed (k str s)) -> forall s, allowed (vbind (pop_string word expected) k s).
Proof. intros Hk s. unfold vbind, pop_string, vbind, pop. destruct (stack s) as [|v st]; [done|]. destruct v; try done. apply Hk. Qed.

Lemma allowed_path method path k : (forall path' s, resolve_filesystem_path p method path = Ok path' -> allowed (k path' s)) ->
  forall s, allowed (with_path p method path k s).
Proof. intros Hk s. unfold with_path. destruct (resolve_filesystem_path p method path) eqn:Hr; try done; [by apply Hk|apply Forall_nil; done]. Qed.

Lemma allowed_none v s : allowed (Val (v, []) s).
Proof. by apply Forall_nil. Qed.

Lemma allowed_one v e s : allowed_change e -> allowed (Val (v, [e]) s).
Proof. intros He. by apply Forall_singleton. Qed.

Lemma not_root method path path' : resolve_filesystem_path p method path = Ok path' ->
  is_filesystem_root_path path' (filesystem_root p) = false -> path' <> absolute base.
Proof. intros Hr Hn ->. unfold is_filesystem_root_path in Hn. rewrite Hroot in Hn. by apply bool_decide_eq_false in Hn. Qed.

Lemma allowed_method name m : (name, m) ∈ fs_methods p -> forall receiver s, allowed (m receiver name s).
Proof.
  intros Hm receiver s. unfold fs_methods in Hm. rewrite !elem_of_cons, elem_of_nil in Hm.
  assert (forall method path path', resolve_filesystem_path p method path = Ok path' -> bounded base path') as Hres by (intros; by eapply filesystem_bounded).
  destruct Hm as [[= -> ->]|[[= -> ->]|[[= -> ->]|[[= -> ->]|[[= -> ->]|[[= -> ->]|[]]]]]]]; apply allowed_require; clear s; intros s.
  - apply allowed_pop. clear s. intros path s. apply allowed_path. clear s. intros path' s _. apply allowed_none.
  - apply allowed_pop. clear s. intros contents s. apply allowed_pop. clear s. intros path s.
    destruct (filesystem_writes_enabled p) eqn:Hw; [|apply allowed_none]. apply allowed_path. clear s. intros path' s Hr. apply allowed_one.
    split_and!; [done|by eapply Hres|done].
  - apply allowed_pop. clear s. intros path s. destruct (resolve_filesystem_path p "exists?" path); apply allowed_none.
  - apply allowed_pop. clear s. intros path s. apply allowed_path. clear s. intros path' s _. destruct (read_dir path') as [entries|]; [|apply allowed_none].
    destruct (directory_values entries); apply allowed_none.
  - apply allowed_pop. clear s. intros path s. destruct (filesystem_writes_enabled p) eqn:Hw; [|apply allowed_none]. apply allowed_path. clear s. intros path' s Hr.
    apply allowed_one. split_and!; [done|by eapply Hres|done].
  - apply allowed_pop. clear s. intros path s. destruct (filesystem_writes_enabled p) eqn:Hw; [|apply allowed_none]. apply allowed_path. clear s. intros path' s Hr.
    destruct (is_filesystem_root_path path' (filesystem_root p)) eqn:Hn; [apply allowed_none|]. pose proof (not_root _ _ _ Hr Hn) as Hne.
    pose proof (Hres _ _ _ Hr) as Hbd. destruct (delete_filesystem_path path' false) as [outcome effects] eqn:Hd. simpl.
    assert (forall e, effect_path e = path' -> match e with FsEffect.RemoveFile path | FsEffect.RemoveDir path => path <> absolute base | FsEffect.RemoveDirAll _ => False | _ => True end ->
      allowed_change e) as Hac by (intros e He Hm; split_and!; [done|by rewrite He|done]).
    unfold delete_filesystem_path in Hd. destruct (symlink_metadata path') as [[]|]; try (injection Hd as <- <-); try (by constructor); try (constructor; [by apply Hac|constructor]).
    unfold remove_symlink in Hd. destruct (perform (FsEffect.RemoveFile path')); injection Hd as <- <-; (constructor; [by apply Hac|]); try constructor; [by apply Hac|constructor].
Qed.
End methods.

(** ** Theorems *)

(** C16: with a file system root, whatever path a script gives, a method of
    the [fs] capability that changes the file system names a path below the root,
    and the places that it changes on the disk, through whatever links, are
    below the canonical root: the file that is written, every directory that is
    made, and the file, the directory or the link without a target that is
    removed.  Nothing is changed when writes are disabled, and the root itself
    is never removed.  The disk is taken to be as it was when the path was
    checked.  Two cases are excepted, and the examples below show that
    they do lead out of the root: a link whose target does not exist that is
    written through, and the removal of a link whose target exists. *)
Theorem fs_methods_bounded (fs : FileSystem) (laws : FileSystemLaws fs) (ex : PathExists) (ex_laws : PathExistsLaws fs ex) (io : IoErrors)
    (outcomes : FsOutcomes) (display : VmErrorDisplay) (p : HostRuntimeState) (base : list string) (name : string) (m : Value -> string -> VM (Value * list FsEffect))
    (receiver v : Value) (effects : list FsEffect) (s s' : Vm)
    (Hbase : normal_names base) (Hroot : filesystem_root p = Some (absolute base)) (Hm : (name, m) ∈ fs_methods p)
    (Hcall : m receiver name s = Val (v, effects) s') :
  Forall (fun e => filesystem_writes_enabled p = true /\
    (exists rest, normal_names (base ++ rest) /\ effect_path e = absolute (base ++ rest)) /\
    (forall place, changes e place -> exists croot, canonicalize (absolute base) = inl (absolute croot) /\ croot `prefix_of` place) /\
    match e with
    | FsEffect.RemoveFile path | FsEffect.RemoveDir path => path <> absolute base
    | FsEffect.RemoveDirAll _ => False
    | _ => True
    end) effects.
Proof.
  pose proof (allowed_method p base Hbase Hroot name m Hm receiver s) as H. rewrite Hcall in H.
  eapply list.Forall_impl; [exact H|]. intros e (Hw & Hb & He). split_and!; [done| |by intros place; apply bounded_changes|done].
  destruct Hb as (rest & croot & existing & Hn & Hp & _). by exists rest.
Qed.

(** The text that [read_text] gives is that of a file whose canonical path
    is below the canonical root, through whatever links it is reached. *)
Theorem fs_read_contained (fs : FileSystem) (laws : FileSystemLaws fs) (ex : PathExists) (ex_laws : PathExistsLaws fs ex) (io : IoErrors)
    (outcomes : FsOutcomes) (display : VmErrorDisplay) (p : HostRuntimeState) (base : list string) (receiver : Value) (contents : string)
    (effects : list FsEffect) (s s' : Vm) (Hbase : normal_names base) (Hroot : filesystem_root p = Some (absolute base))
    (Hcall : method_fs_read_text p receiver "read_text" s = Val (result_ok (Value.String contents), effects) s') :
  exists croot q, canonicalize (absolute base) = inl (absolute croot) /\ below croot q /\ read_to_string q = inl contents.
Proof.
  unfold method_fs_read_text, vbind, require_capability, pop_string, vbind, pop in Hcall. destruct receiver; try done.
  destruct (decide (c = Capability.FileSystem)); [|done]. unfold vret in Hcall. destruct (stack s) as [|v st]; [done|]. destruct v; try done.
  unfold with_path in Hcall. destruct (resolve_filesystem_path p "read_text" s0) as [path'|e'| |] eqn:Hr; try done.
  unfold vret in Hcall. destruct (read_to_string path') as [text|] eqn:Ht; [|done]. injection Hcall as -> _ _.
  eapply bounded_read; [by eapply filesystem_bounded|done].
Qed.

(** A link to a path that does not exist does not exist itself, so that only the
    directory it is in is checked: a write through it reaches its target,
    wherever that is.  [workspace_contains_path] refuses it. *)
Definition dangling : FileSystem := {|
  canonicalize path := if existsb (String.eqb path) ["/"; "/r"] then inl path else inr [Lit "not found"];
  is_file _ := false; is_dir path := existsb (String.eqb path) ["/"; "/r"];
  read_to_string _ := inr [Lit "not found"]; read _ := inr [Lit "not found"]; read_dir _ := inr [Lit "not found"];
  symlink_metadata path := if String.eqb path "/r/link" then inl FileType.Symlink else if existsb (String.eqb path) ["/"; "/r"] then inl FileType.Dir else inr [Lit "not found"] |}.

Definition all_not_found : IoErrors := {| is_not_found _ := true; io_error_text _ := "not found" |}.

Definition rooted (root : string) : HostRuntimeState := set_filesystem_root root (set_host_capabilities true false default_host).

Lemma dangling_link_written :
  let ex : PathExists := fun path => match canonicalize (FileSystem := dangling) path with inl _ => true | inr _ => false end in
  symlink_metadata (FileSystem := dangling) "/r/link" = inl FileType.Symlink /\
  (exists v s', method_fs_write_text (H := dangling) (H0 := ex) (H1 := all_not_found) (H2 := fun _ => inl tt) (H3 := fun _ => "") (rooted "/r")
     (Value.Capability Capability.FileSystem) "write_text" (set_stack [Value.String "text"; Value.String "link"] default_vm)
     = Val (v, [FsEffect.Write "/r/link" "text"]) s') /\
  workspace_contains_path (H := dangling) (H0 := ex) (H1 := all_not_found) (rooted "/r") None "workspace_contains?" "." "link" = false.
Proof. split; [reflexivity|]. split; [do 2 eexists|]; vm_compute; reflexivity. Qed.

(** Two links, one out of the root and one back into it: the second is outside
    the root, but its target is not, so the check lets it be removed. *)
Definition there_and_back : FileSystem := {|
  canonicalize path :=
    if existsb (String.eqb path) ["/"; "/r"; "/r/file"; "/o"] then inl path
    else if String.eqb path "/r/out" then inl "/o"
    else if existsb (String.eqb path) ["/r/out/back"; "/o/back"] then inl "/r/file" else inr [Lit "not found"];
  is_file path := existsb (String.eqb path) ["/r/file"; "/r/out/back"; "/o/back"];
  is_dir path := existsb (String.eqb path) ["/"; "/r"; "/o"; "/r/out"];
  read_to_string _ := inr [Lit "not found"]; read _ := inr [Lit "not found"]; read_dir _ := inr [Lit "not found"];
  symlink_metadata path :=
    if existsb (String.eqb path) ["/r/out"; "/r/out/back"; "/o/back"] then inl FileType.Symlink
    else if existsb (String.eqb path) ["/"; "/r"; "/o"] then inl FileType.Dir
    else if String.eqb path "/r/file" then inl FileType.File else inr [Lit "not found"] |}.

Lemma link_outside_removed :
  let ex : PathExists := fun path => match canonicalize (FileSystem := there_and_back) path with inl _ => true | inr _ => false end in
  canonicalize (FileSystem := there_and_back) "/r/out" = inl "/o" /\
  symlink_metadata (FileSystem := there_and_back) "/o/back" = inl FileType.Symlink /\
  exists v s', method_fs_delete (H := there_and_back) (H0 := ex) (H1 := all_not_found) (H2 := fun _ => inl tt) (H3 := fun _ => "") (rooted "/r")
     (Value.Capability Capability.FileSystem) "delete" (set_stack [Value.String "out/back"] default_vm)
     = Val (v, [FsEffect.RemoveFile "/r/out/back"]) s'.
Proof. split; [reflexivity|]. split; [reflexivity|]. do 2 eexists; vm_compute; reflexivity. Qed.

(** ** Witnesses *)

#[local] Instance example_exists : PathExists := fun path => match canonicalize (FileSystem := Example_.files false) path with inl _ => true | inr _ => false end.

#[local] Instance example_exists_laws : PathExistsLaws (Example_.files false) example_exists.
Proof.
  split.
  - intros path. unfold path_exists, example_exists. destruct (canonicalize path) as [q|]; split; try done; [by exists q|by intros [? ?]].
  - intros path s Hs. unfold path_exists, example_exists. simpl in *. destruct (Example_.file_text false path); [|done].
    by destruct (String.eqb path "/" || String.eqb path "/p").
  - done.
Qed.

Example fs_methods_bounded_witness : exists v s' effects,
  method_fs_write_text (H := Example_.files false) (H1 := all_not_found) (H2 := fun _ => inl tt) (H3 := fun _ => "") (rooted "/p")
    (Value.Capability Capability.FileSystem) "write_text" (set_stack [Value.String "text"; Value.String "../p/./new"] default_vm) = Val (v, effects) s' /\
  effects = [FsEffect.Write "/p/new" "text"] /\
  changes (fs := Example_.files false) (ex := example_exists) (FsEffect.Write "/p/new" "text") ["p"; "new"] /\
  Forall (fun e => forall place, changes (fs := Example_.files false) (ex := example_exists) e place ->
    exists croot, canonicalize (FileSystem := Example_.files false) (absolute ["p"]) = inl (absolute croot) /\ croot `prefix_of` place) effects.
Proof.
  do 3 eexists. split; [vm_compute; reflexivity|]. split; [reflexivity|]. split.
  { exists ["p"; "new"]. split; [repeat constructor; discriminate|]. split; [reflexivity|].
    apply (leads_new ["p"] "new" ["p"]); [intros q; vm_compute; discriminate|eexists; vm_compute; reflexivity|].
    apply leads_there; [reflexivity|repeat constructor; discriminate]. }
  match goal with |- Forall _ ?l => set (effects := l) end.
  assert (exists v s', method_fs_write_text (H := Example_.files false) (H0 := example_exists) (H1 := all_not_found) (H2 := fun _ => inl tt) (H3 := fun _ => "") (rooted "/p")
    (Value.Capability Capability.FileSystem) "write_text" (set_stack [Value.String "text"; Value.String "../p/./new"] default_vm) = Val (v, effects) s') as (v & s' & Hc)
    by (do 2 eexists; vm_compute; reflexivity).
  assert (("write_text", method_fs_write_text (H := Example_.files false) (H0 := example_exists) (H1 := all_not_found) (H2 := fun _ => inl tt) (H3 := fun _ => "") (rooted "/p"))
    ∈ fs_methods (H := Example_.files false) (H0 := example_exists) (H1 := all_not_found) (H2 := fun _ => inl tt) (H3 := fun _ => "") (rooted "/p")) as Hin by (right; left).
  assert (normal_names ["p"]) as Hn by (repeat constructor; discriminate).
  pose proof (fs_methods_bounded (Example_.files false) (example_laws false) example_exists example_exists_laws all_not_found (fun _ => inl tt) (fun _ => "") (rooted "/p") ["p"]
    "write_text" _ _ _ _ _ _ Hn eq_refl Hin Hc) as Hall.
  eapply list.Forall_impl; [exact Hall|]. intros e (_ & _ & Hb & _). exact Hb.
Defined.

Example fs_read_contained_witness : exists contents s',
  method_fs_read_text (H := Example_.files false) (H1 := all_not_found) (H3 := fun _ => "") (rooted "/p")
    (Value.Capability Capability.FileSystem) "read_text" (set_stack [Value.String "a.rco"] default_vm) = Val (result_ok (Value.String contents), []) s' /\
  exists croot q, below croot q /\ read_to_string (FileSystem := Example_.files false) q = inl contents.
Proof.
  do 2 eexists. split; [vm_compute; reflexivity|].
  destruct (fs_read_contained (Example_.files false) (example_laws false) example_exists example_exists_laws all_not_found (fun _ => inl tt) (fun _ => "") (rooted "/p") ["p"]
    (Value.Capability Capability.FileSystem) _ [] (set_stack [Value.String "a.rco"] default_vm) (set_stack [] default_vm)
    ltac:(repeat constructor; discriminate) ltac:(vm_compute; reflexivity) ltac:(vm_compute; reflexivity)) as (croot & q & _ & Hq & Hr).
  exists croot, q. split; [exact Hq|exact Hr].
Defined.
