(* ===== verification/VmMono.v ===== *)
(** * More fuel changes nothing

    The fuel of [run_from] only decides whether a run is cut off: a run that
    ends with some fuel ends the same way with more.  The proof compares the
    machine over two runners of nested chunks, one of which may give up where
    the other goes on. *)

From stdpp Require Import base tactics list strings option numbers.
From Stdlib Require Import ZArith NArith Lia Ascii String.
From S2P Require Import Prelude RustStr RustText RustFloat Bytecode BTree Value VmState Numeric VmClass VmWords VmMethods Vm.
From S2P Require Import VmFrames.

Open Scope list_scope.
Open Scope nat_scope.
Open Scope string_scope.

(** [m'] goes on where [m] may give up. *)
Definition approx {A : Type} (m m' : VM A) : Prop := forall s, m s = NoFuel \/ m s = m' s.

Lemma approx_refl {A} (m : VM A) : approx m m.
Proof. intros s. by right. Qed.

Lemma approx_trans {A} (m1 m2 m3 : VM A) : approx m1 m2 -> approx m2 m3 -> approx m1 m3.
Proof. intros H1 H2 s. destruct (H1 s) as [?|E]; [by left|]. rewrite E. apply H2. Qed.

Lemma approx_bind {A B} (m m' : VM A) (k k' : A -> VM B) :
  approx m m' -> (forall a, approx (k a) (k' a)) -> approx (vbind m k) (vbind m' k').
Proof.
  intros Hm Hk s. unfold vbind. destruct (Hm s) as [->|<-]; [by left|]. destruct (m s) as [a s'|e s'| |]; auto. apply Hk.
Qed.

Lemma approx_on_err {A} (m m' : VM A) f : approx m m' -> approx (on_err m f) (on_err m' f).
Proof. intros Hm s. unfold on_err. destruct (Hm s) as [->|<-]; [by left|]. by right. Qed.

Lemma approx_try {A} (m m' : VM A) : approx m m' -> approx (vtry m) (vtry m').
Proof. intros Hm s. unfold vtry. destruct (Hm s) as [->|<-]; [by left|]. by right. Qed.

Create HintDb approx.

Ltac approx_step :=
  match goal with
  | |- approx ?m ?m => apply approx_refl
  | |- approx (vbind _ _) (vbind _ _) => apply approx_bind; [|intros]
  | |- approx (on_err _ _) (on_err _ _) => apply approx_on_err
  | |- approx (vtry _) (vtry _) => apply approx_try
  | |- approx (match ?x with _ => _ end) _ => destruct x
  end.
Ltac approx_auto := repeat (approx_step || solve [eauto 2 with approx nocore]).

Section methods.
Variables (call call' : string -> Chunk -> list Value -> VM Value) (host_method : Value -> string -> VM Value).
Hypothesis call_approx : forall f b vs, approx (call f b vs) (call' f b vs).
#[local] Hint Resolve call_approx : approx.

Lemma approx_each m b rows : approx (each_loop call m b rows) (each_loop call' m b rows).
Proof. induction rows as [|r rows IH]; simpl; approx_auto. Qed.
Lemma approx_transform m b rows : approx (transform_loop call m b rows) (transform_loop call' m b rows).
Proof. induction rows as [|r rows IH]; simpl; approx_auto. Qed.
Lemma approx_select m b vs : approx (select_loop call m b vs) (select_loop call' m b vs).
Proof. induction vs as [|r vs IH]; simpl; approx_auto. Qed.
Lemma approx_entries m b l es : approx (select_entries call m b l es) (select_entries call' m b l es).
Proof. induction es as [|[k v] es IH]; simpl; approx_auto. Qed.
Lemma approx_reduce m b a vs : approx (reduce_loop call m b a vs) (reduce_loop call' m b a vs).
Proof. revert a. induction vs as [|r vs IH]; intros a; simpl; approx_auto. Qed.
Lemma approx_find m b rows : approx (find_loop call m b rows) (find_loop call' m b rows).
Proof. induction rows as [|r rows IH]; simpl; approx_auto. Qed.
Lemma approx_all m b rows : approx (all_loop call m b rows) (all_loop call' m b rows).
Proof. induction rows as [|r rows IH]; simpl; approx_auto. Qed.
#[local] Hint Resolve approx_each approx_transform approx_select approx_entries approx_reduce approx_find approx_all : approx.

(** The two method tables have the same methods, related one by one. *)
Lemma approx_table name :
  match bt_get name (methods_table call), bt_get name (methods_table call') with
  | Some f, Some f' => forall v m, approx (f v m) (f' v m)
  | None, None => True
  | _, _ => False
  end.
Proof.
  unfold methods_table, bt_get. 
  repeat (match goal with |- context [String.eqb name ?x] => destruct (String.eqb name x) end;
          [intros v m; unfold method_each, method_transform, method_select, method_reduce, method_find, method_any,
             method_all, method_map_result, method_and_then; solve [approx_auto]|]).
  done.
Qed.

Lemma approx_builtin v m : approx (call_builtin_method call host_method v m) (call_builtin_method call' host_method v m).
Proof.
  unfold call_builtin_method, call_builtin_method_inner. pose proof (approx_table m) as H.
  approx_step; [apply approx_refl|]. apply approx_on_err.
  destruct (bt_get m (methods_table call)), (bt_get m (methods_table call')); try done. apply approx_refl.
Qed.
End methods.

Section calls.
Variables (host_word : string -> VM unit) (host_method : Value -> string -> VM Value).
Variables run run' : Chunk -> string -> bool -> VM ExecutionSignal.
Hypothesis run_approx : forall c f a, approx (run c f a) (run' c f a).
#[local] Hint Resolve run_approx : approx.

Lemma approx_block_call f b vs :
  approx (call_bytecode_block_with_args run f b vs) (call_bytecode_block_with_args run' f b vs).
Proof. unfold call_bytecode_block_with_args. approx_auto. Qed.
Lemma approx_function_call n c i : approx (call_bytecode_function run n c i) (call_bytecode_function run' n c i).
Proof. unfold call_bytecode_function. approx_auto. Qed.
Lemma approx_method_call v f c i : approx (call_bytecode_method run v f c i) (call_bytecode_method run' v f c i).
Proof. unfold call_bytecode_method. approx_auto. Qed.
#[local] Hint Resolve approx_block_call approx_function_call approx_method_call : approx.
Lemma approx_builtin_method v m : approx (builtin_method host_method run v m) (builtin_method host_method run' v m).
Proof. apply approx_builtin, approx_block_call. Qed.
#[local] Hint Resolve approx_builtin_method : approx.
Lemma approx_method_value v m : approx (call_method_value host_method run v m) (call_method_value host_method run' v m).
Proof. unfold call_method_value. approx_auto. Qed.
#[local] Hint Resolve approx_method_value : approx.
Lemma approx_top m : approx (call_top_receiver_method host_method run m) (call_top_receiver_method host_method run' m).
Proof. unfold call_top_receiver_method, push_result_or_restore. approx_auto. Qed.
#[local] Hint Resolve approx_top : approx.
Lemma approx_function m : approx (call_function host_method run m) (call_function host_method run' m).
Proof. unfold call_function. approx_auto. Qed.
#[local] Hint Resolve approx_function : approx.

Lemma approx_word w : approx (call_word host_word host_method run w) (call_word host_word host_method run' w).
Proof.
  unfold call_word, call_block, call_send, call_receiver_argument_method, call_receiver_two_argument_method,
    call_capability_method_word, push_result_or_restore, call_question_word. approx_auto.
Qed.
#[local] Hint Resolve approx_word : approx.

Lemma approx_instruction o c a :
  approx (execute_instruction host_word host_method run o c a) (execute_instruction host_word host_method run' o c a).
Proof. unfold execute_instruction, call_method_or_member. approx_auto. Qed.
End calls.

Section loop.
Variables (host_word : string -> VM unit) (host_method : Value -> string -> VM Value).
Local Abbreviation run_from := (run_from host_word host_method).

Lemma run_from_step fuel c f a ip : approx (run_from fuel c f a ip) (run_from (S fuel) c f a ip).
Proof.
  revert c f a ip. induction fuel as [|fuel IH]; intros c f a ip; [by intros s; left|].
  cbn [Vm.run_from]. destruct (instructions c !! N.to_nat ip) as [i|]; [|apply approx_refl].
  apply approx_bind; [apply approx_refl|intros _]. apply approx_bind.
  - apply approx_on_err, approx_instruction. intros c' f' a'. apply IH.
  - intros []; try apply IH. apply approx_refl.
Qed.

Lemma run_from_mono fuel fuel' c f a ip : fuel <= fuel' -> approx (run_from fuel c f a ip) (run_from fuel' c f a ip).
Proof.
  induction 1 as [|fuel' _ IH]; [apply approx_refl|]. eapply approx_trans; [exact IH|apply run_from_step].
Qed.
End loop.

(** ** Theorem *)

(** The fuel of the model is only a bound: a run that ends with some fuel
    (returns, fails or panics) has the same outcome and final state with any
    larger fuel. *)
Theorem run_from_fuel (host_word : string -> VM unit) (host_method : Value -> string -> VM Value)
    (fuel fuel' : nat) (c : Chunk) (frame : string) (allow_return : bool) (ip : N) (s : Vm) :
  fuel <= fuel' -> run_from host_word host_method fuel c frame allow_return ip s <> NoFuel ->
  run_from host_word host_method fuel' c frame allow_return ip s =
  run_from host_word host_method fuel c frame allow_return ip s.
Proof.
  intros Hle Hne. destruct (run_from_mono host_word host_method fuel fuel' c frame allow_return ip Hle s); congruence.
Qed.

Lemma run_from_fuel_witness :
  2 <= 9 /\
  let c := mkChunk "f" [mkInstruction (Op.PushNumber 7) (mkSourceSpan "f" 0 0 1 1)] [] in
  run_from no_host_word no_host_method 9 c "<main>" false 0 default_vm =
  run_from no_host_word no_host_method 2 c "<main>" false 0 default_vm.
Proof.
  split; [lia|]. apply (run_from_fuel no_host_word no_host_method 2 9); [lia|]. vm_compute. discriminate.
Defined.
