(* ===== verification/Semantics.v ===== *)
(** * A structured semantics of the language

    What a module means without jumps, addresses or code: an interpreter over
    the syntax tree in which [if] chooses, [while] iterates and [break],
    [continue] and [return] are outcomes of an expression.  Every instruction
    the compiler emits for an expression is one unit of the machine's
    instruction budget, so the interpreter counts them too.  A block literal
    denotes the compiled chunk, which is what the machine's values hold;
    [SemanticsProofs.v] relates the interpreter to the compiled code. *)

From stdpp Require Import base tactics list strings option numbers.
From Stdlib Require Import ZArith NArith Lia Ascii String.
From S2P Require Import Prelude RustStr RustText RustFloat Syntax Lexer Parser Diagnostic Bytecode Compiler Layout.
From S2P Require Import BTree Value VmState Numeric VmClass VmWords VmMethods Vm.

Open Scope string_scope.
Open Scope list_scope.
Open Scope nat_scope.

(** How an expression ends. *)
Inductive Flow : Type := Next | Broke | Continued | Returned.

Section semantics.
Variables (host_word : string -> VM unit) (host_method : Value -> string -> VM Value).
(** The runner of the chunks that words call. *)
Variable callee : Chunk -> string -> bool -> VM ExecutionSignal.
(** The iterations a loop may take. *)
Variable n : nat.
Variables (file : string) (starts : list nat) (frame : string) (allow_return : bool).

Abbreviation word := (call_word host_word host_method callee).

(** One unit of the budget; a failure is reported at [sp]. *)
Definition step {A : Type} (o : Op) (sp : Span) (m : VM A) : VM A :=
  consume_instruction_budget ;;! on_err m (record_error_site frame (instr file starts o sp)).

Definition next (o : Op) (sp : Span) (m : VM unit) : VM Flow := step o sp (m ;;! vret Next).

(** Takes the condition from the stack. *)
Definition test (sp : Span) : VM bool :=
  step (Op.JumpIfFalse 0) sp
    (let! s := vget in
     let! v := pop "if" in
     on_err (condition v) (restore_stack (stack s))).

Definition exec_word (sp : Span) (w : string) : VM Flow :=
  if String.eqb w "nil" then next Op.PushNil sp (push_value Value.Nil)
  else if String.eqb w "true" then next (Op.PushBool true) sp (push_value (Value.Bool true))
  else if String.eqb w "false" then next (Op.PushBool false) sp (push_value (Value.Bool false))
  else if String.eqb w "return" then
    step Op.Return sp (if allow_return then vret Returned else vfail (VmError.UnsupportedOpcode Op.Return))
  else if String.eqb w "break" then step (Op.Jump 0) sp (vret Broke)
  else if String.eqb w "continue" then step (Op.Jump 0) sp (vret Continued)
  else next (Op.CallWord w) sp (word w).

Section execs.
Variable exec : Span -> Expr -> VM Flow.

(** One after the other, while the flow goes on to the next. *)
Fixpoint execs_with (exprs : list SpannedExpr) : VM Flow :=
  match exprs with
  | [] => vret Next
  | mkSpanned e sp :: exprs1 =>
      match variable_binding_pair exprs with
      | Some (name, operator) =>
          match exprs1 with
          | mkSpanned _ sp2 :: exprs2 =>
              next (Op.PushString name) sp (push_value (Value.String name)) ;;!
              next (Op.CallWord operator) sp2 (word operator) ;;!
              execs_with exprs2
          | [] => vret Next
          end
      | None =>
          let! flow := exec sp e in
          match flow with Next => execs_with exprs1 | _ => vret flow end
      end
  end.
End execs.

(** The iterations of a loop. *)
Section iterate.
Variables (sp : Span) (condition body : VM Flow).
Fixpoint iterate (m : nat) : VM Flow :=
  match m with
  | O => fun _ => NoFuel
  | S m' =>
      let! flow := condition in
      match flow with
      | Next =>
          let! go := test sp in
          if go : bool then
            let! flow := body in
            match flow with
            | Next => next (Op.Jump 0) sp (vret tt) ;;! iterate m'
            | Continued => iterate m'
            | Broke => vret Next
            | Returned => vret Returned
            end
          else vret Next
      | _ => vret flow
      end
  end.
End iterate.

Definition with_block (body : list SpannedExpr) (sp : Span) (k : Chunk -> VM Flow) : VM Flow :=
  match block file starts body sp with Ok c => k c | _ => vcrash end.

(** [DotWord] and [Args] have no meaning: the compiler refuses them. *)
Fixpoint exec (sp : Span) (e : Expr) : VM Flow :=
  match e with
  | Expr.Symbol w => exec_word sp w
  | Expr.Reference name =>
      next (Op.PushString name) sp (push_value (Value.String name)) ;;! next (Op.CallWord "get") sp (word "get")
  | Expr.String value => next (Op.PushString value) sp (push_value (Value.String value))
  | Expr.Number value => next (Op.PushNumber value) sp (push_value (Value.Number value))
  | Expr.Float value => next (Op.PushFloat value) sp (push_value (Value.Float value))
  | Expr.Block body => with_block body sp (fun c => next (Op.PushBlock 0) sp (push_value (Value.Block c)))
  | Expr.Sequence exprs => execs_with exec exprs
  | Expr.If t f =>
      let! go := test sp in
      if go : bool then
        let! flow := execs_with exec t in
        match flow with Next => next (Op.Jump 0) sp (vret tt) | _ => vret flow end
      else execs_with exec f
  | Expr.While c b => iterate sp (execs_with exec c) (execs_with exec b) n
  | Expr.DotWord _ | Expr.Args _ => vcrash
  end.

Definition execs : list SpannedExpr -> VM Flow := execs_with exec.

(** ** Items *)

Definition exec_decl (o : Op) (body : list SpannedExpr) (sp : Span) (m : Chunk -> VM unit) : VM Flow :=
  with_block body sp (fun c => next o sp (m c)).

Definition exec_method (name : string) (args : option ArgsDecl) (body : list SpannedExpr) (sp : Span) : VM Flow :=
  exec_decl (Op.AddMethod name 0 (args_spec <$> args)) body sp
    (fun c => add_bytecode_method name c (args_spec <$> args)).

Definition exec_class_expr (e : Expr) (sp : Span) : VM Flow :=
  match e with
  | Expr.Sequence exprs =>
      match table_declaration exprs, is_field_declaration exprs, is_accessor_declaration exprs,
            block_method_declaration exprs with
      | Some name, _, _, _ =>
          match exprs with
          | [mkSpanned _ sp0; mkSpanned _ sp1] =>
              next (Op.PushString name) sp0 (push_value (Value.String name)) ;;!
              next (Op.CallWord "Table") sp1 (word "Table")
          | _ => vcrash
          end
      | None, Some name, _, _ => next (Op.AddField name) sp (add_field name)
      | None, None, Some name, _ => next (Op.AddAccessor name) sp (add_accessor name)
      | None, None, None, Some (args, name, body) => exec_method name args body sp
      | None, None, None, None => exec sp e
      end
  | _ => exec sp e
  end.

Definition exec_class_item (item : Item) : VM Flow :=
  match item with
  | Item.Method m => exec_method (method_name m) (method_args m) (method_body m) (method_span m)
  | Item.Expr e sp _ => exec_class_expr e sp
  | _ => vcrash
  end.

Fixpoint exec_all (f : Item -> VM Flow) (items : list Item) : VM Flow :=
  match items with
  | [] => vret Next
  | item :: items' =>
      let! flow := f item in
      match flow with Next => exec_all f items' | _ => vret flow end
  end.

Definition exec_item (item : Item) : VM Flow :=
  match item with
  | Item.Class (mkClass name superclass body _ sp) =>
      next (Op.BeginClass name superclass) sp (define_class name superclass) ;;!
      let! flow := exec_all exec_class_item body in
      match flow with Next => next Op.EndClass sp end_class | _ => vret flow end
  | Item.Expr e sp _ => exec sp e
  | Item.Function f =>
      exec_decl (Op.AddFunction (function_name f) 0 (args_spec <$> function_args f)) (function_body f) (function_span f)
        (fun c => add_function (function_name f) c (args_spec <$> function_args f))
  | _ => vcrash
  end.
End semantics.

(** A module at the top level: [return] is an error there. *)
Definition run_module (host_word : string -> VM unit) (host_method : Value -> string -> VM Value)
    (n : nat) (file source : string) (m : Module_) : VM unit :=
  vmodify (fun s => set_instructions_executed 0 (set_last_error_site None s)) ;;!
  exec_all (exec_item host_word host_method (fun c f a => run_from host_word host_method n c f a 0) n file
              (line_starts source) "<main>" false) (items m) ;;!
  vret tt.

(** The body of a block, function or method. *)
Definition run_body (host_word : string -> VM unit) (host_method : Value -> string -> VM Value)
    (n : nat) (file source frame : string) (body : list SpannedExpr) (sp : Span) : VM ExecutionSignal :=
  let starts := line_starts source in
  let! flow := execs host_word host_method (fun c f a => run_from host_word host_method n c f a 0) n file
                 starts frame true body in
  match flow with
  | Next => step file starts frame Op.Return sp (vret ExecutionSignal.Return)
  | _ => vret ExecutionSignal.Return
  end.
