(* ===== verification/SemanticsProofs.v ===== *)
(** * The compiled code means what the source means

    The lowering of a module, run by the machine, does what the structured
    semantics of [Semantics.v] says: the same final state and the same
    outcome, error and error position included, and it runs on exactly when the
    structured semantics does.  The code of an expression is simulated at any
    address of any chunk that contains it; the machine's nested calls are the
    same on both sides. *)

From stdpp Require Import base tactics list strings option numbers.
From Stdlib Require Import ZArith NArith Lia Ascii String.
From S2P Require Import Prelude RustStr RustText RustFloat Syntax Lexer Parser Diagnostic Bytecode Compiler Layout CompilerProofs.
From S2P Require Import BTree Value VmState Numeric VmClass VmWords VmMethods Vm VmFrames VmMono Semantics.

Open Scope string_scope.
Open Scope list_scope.
Open Scope nat_scope.

(** ** Error sites up to addresses

    The structured semantics has no addresses, so the operation an error site
    names is compared without its jump target or block index. *)

Definition erase (o : Op) : Op :=
  match o with
  | Op.PushBlock _ => Op.PushBlock 0
  | Op.JumpIfFalse _ => Op.JumpIfFalse 0
  | Op.Jump _ => Op.Jump 0
  | Op.AddMethod name _ args => Op.AddMethod name 0 args
  | Op.AddFunction name _ args => Op.AddFunction name 0 args
  | o => o
  end.

Definition erase_site (s : RuntimeErrorSite) : RuntimeErrorSite := mkSite (site_frame s) (site_span s) (erase (site_op s)).
Definition forget (s : Vm) : Vm := set_last_error_site (erase_site <$> last_error_site s) s.

(** The same outcome, sites compared without addresses. *)
Definition same {A : Type} (o o' : out A) : Prop :=
  match o, o' with
  | Val a s, Val a' s' => a = a' /\ s = s'
  | Exn e s, Exn e' s' => e = e' /\ forget s = forget s'
  | Crash, Crash | NoFuel, NoFuel => True
  | _, _ => False
  end.

Lemma forget_record frame i i' s :
  erase (op i) = erase (op i') -> ispan i = ispan i' ->
  forget (record_error_site frame i s) = forget (record_error_site frame i' s).
Proof.
  intros Ho Hs. unfold record_error_site, forget. destruct (last_error_site s) eqn:E; [done|].
  simpl. unfold erase_site. simpl. by rewrite Ho, Hs.
Qed.

(** ** The machine at a fixed chunk, over a fixed runner of nested chunks *)

Section machine.
Variables (host_word : string -> VM unit) (host_method : Value -> string -> VM Value).
Variable callee : Chunk -> string -> bool -> VM ExecutionSignal.
Variables (ch : Chunk) (frame : string) (allow_return : bool).

Abbreviation execute := (execute_instruction host_word host_method callee).

Fixpoint mloop (fuel : nat) (ip : N) : VM ExecutionSignal :=
  match fuel with
  | O => fun _ => NoFuel
  | S fuel' =>
      match instructions ch !! N.to_nat ip with
      | None => vret ExecutionSignal.Continue
      | Some i =>
          consume_instruction_budget ;;!
          let! signal := on_err (execute (op i) ch allow_return) (record_error_site frame i) in
          match signal with
          | ExecutionSignal.Continue => mloop fuel' (ip + 1)
          | ExecutionSignal.Jump target => mloop fuel' target
          | ExecutionSignal.Return => vret ExecutionSignal.Return
          end
      end
  end.

Lemma mloop_mono f f' ip : f <= f' -> approx (mloop f ip) (mloop f' ip).
Proof.
  revert f' ip. induction f as [|f IH]; intros f' ip Hle; [by intros s; left|].
  destruct f' as [|f']; [lia|]. simpl. destruct (instructions ch !! _); [|apply approx_refl].
  apply approx_bind; [apply approx_refl|intros _]. apply approx_bind; [apply approx_refl|].
  intros []; [apply IH; lia..|apply approx_refl].
Qed.

Lemma mloop_nofuel f f' ip s : f <= f' -> mloop f' ip s = NoFuel -> mloop f ip s = NoFuel.
Proof. intros Hle H. destruct (mloop_mono f f' ip Hle s) as [E|E]; congruence. Qed.

(** From [ip] the machine comes to [ip'], or ends with [o], in a number of steps
    that does not depend on the fuel. *)
Definition arrives (ip : N) (s : Vm) (ip' : N) (s' : Vm) : Prop :=
  exists k, forall f, mloop (k + f) ip s = mloop f ip' s'.
Definition ends (ip : N) (s : Vm) (o : out ExecutionSignal) : Prop :=
  exists k, forall f, mloop (k + f) ip s = o.

Lemma arrives_refl ip s : arrives ip s ip s.
Proof. by exists 0. Qed.

Lemma arrives_trans ip s ip1 s1 ip2 s2 : arrives ip s ip1 s1 -> arrives ip1 s1 ip2 s2 -> arrives ip s ip2 s2.
Proof.
  intros [k Hk] [k1 Hk1]. exists (k + k1). intros f. replace (k + k1 + f) with (k + (k1 + f)) by lia. by rewrite Hk.
Qed.

Lemma arrives_ends ip s ip1 s1 o : arrives ip s ip1 s1 -> ends ip1 s1 o -> ends ip s o.
Proof.
  intros [k Hk] [k1 Hk1]. exists (k + k1). intros f. replace (k + k1 + f) with (k + (k1 + f)) by lia. by rewrite Hk.
Qed.

Lemma arrives_nofuel n ip s ip1 s1 : arrives ip s ip1 s1 -> mloop n ip1 s1 = NoFuel -> mloop n ip s = NoFuel.
Proof. intros [k Hk] H. apply (mloop_nofuel n (k + n)); [lia|]. by rewrite Hk. Qed.

(** ** Simulation

    [o] is what the structured semantics gives for code at [ip] that is
    followed by [after], inside [loop]; [n] bounds the iterations. *)
Definition simulates (n : nat) (loop : option Loop) (after ip : N) (s : Vm) (o : out Flow) : Prop :=
  match o with
  | Val Next s' => arrives ip s after s'
  | Val Broke s' => match loop with Some l => arrives ip s (break_to l) s' | None => False end
  | Val Continued s' =>
      match loop with Some l => arrives ip s (N.of_nat (continue_to l)) s' | None => False end
  | Val Returned s' => ends ip s (Val ExecutionSignal.Return s')
  | Exn e s' => exists s'', forget s'' = forget s' /\ ends ip s (Exn e s'')
  | Crash => ends ip s Crash
  | NoFuel => mloop n ip s = NoFuel
  end.

Lemma simulates_le n n' loop after ip s o : n <= n' -> simulates n' loop after ip s o -> simulates n loop after ip s o.
Proof. intros Hle. destruct o as [[] s'|e s'| |]; simpl; try done. by apply mloop_nofuel. Qed.

Lemma simulates_from n loop after ip s ip1 s1 o :
  arrives ip s ip1 s1 -> simulates n loop after ip1 s1 o -> simulates n loop after ip s o.
Proof.
  intros Ha. destruct o as [[] s'|e s'| |]; simpl; [..|intros (s'' & ? & ?); exists s''; split; [done|]| |];
    try destruct loop; eauto using arrives_trans, arrives_ends, arrives_nofuel.
Qed.

Lemma simulates_after n loop after ip s ip1 s1 o :
  (forall f, mloop (S f) ip s = mloop f ip1 s1) -> simulates n loop after ip1 s1 o -> simulates (S n) loop after ip s o.
Proof.
  intros Hm. assert (Ha : arrives ip s ip1 s1) by (exists 1; apply Hm).
  destruct o as [a s2|e s2| |]; [apply (simulates_from n _ _ _ _ _ _ (Val a s2) Ha)
    |apply (simulates_from n _ _ _ _ _ _ (Exn e s2) Ha)|apply (simulates_from n _ _ _ _ _ _ Crash Ha)|].
  cbn [simulates]. by rewrite Hm.
Qed.

(** The code of [m] is followed by the code of [k]. *)
Lemma simulates_seq n loop mid after ip (m k : VM Flow) s :
  simulates n loop mid ip s (m s) -> (forall s', simulates n loop after mid s' (k s')) ->
  simulates n loop after ip s ((let! flow := m in match flow with Next => k | _ => vret flow end) s).
Proof.
  unfold vbind. intros Hm Hk. destruct (m s) as [[] s'|e s'| |]; try done. eapply simulates_from; [exact Hm|apply Hk].
Qed.

(** One instruction: [o] in the structured semantics, [o'], with its addresses,
    in the code. *)
Section instruction.
Variables (file : string) (starts : list nat).
Abbreviation instr := (instr file starts).
Abbreviation step := (step file starts frame).
Abbreviation next := (next file starts frame).

Lemma next_bind {A} o sp m (k : VM A) s : (next o sp m ;;! k) s = (let! _ := step o sp m in k) s.
Proof.
  unfold next, Semantics.step, vbind, on_err. destruct (consume_instruction_budget s) as [a s1|e s1| |]; [|done..].
  by destruct (m s1).
Qed.

Lemma next_ret o sp m s : next o sp m s = (let! _ := step o sp m in vret Next) s.
Proof.
  unfold next, Semantics.step, vbind, on_err. destruct (consume_instruction_budget s) as [a s1|e s1| |]; [|done..].
  by destruct (m s1).
Qed.

Lemma step_ret {A} o sp (x : A) s : step o sp (vret x) s = (let! _ := step o sp (vret tt) in vret x) s.
Proof. unfold Semantics.step, vbind, on_err. by destruct (consume_instruction_budget s). Qed.

Lemma step_fail {A} o sp e (x : A) s : step o sp (vfail e) s = (let! _ := step o sp (vfail e : VM unit) in vret x) s.
Proof. unfold Semantics.step, vbind, on_err. by destruct (consume_instruction_budget s). Qed.

Lemma simulates_step {A} n loop after ip o o' sp (m : VM A) (g : A -> ExecutionSignal) (k : A -> VM Flow) s :
  instructions ch !! ip = Some (instr o' sp) -> erase o' = erase o ->
  (forall s, execute o' ch allow_return s = (let! a := m in vret (g a)) s) ->
  (forall a s', match g a with
                | ExecutionSignal.Continue => simulates n loop after (N.of_nat (ip + 1)) s' (k a s')
                | ExecutionSignal.Jump t => simulates n loop after t s' (k a s')
                | ExecutionSignal.Return => k a s' = Val Returned s'
                end) ->
  simulates (S n) loop after (N.of_nat ip) s ((let! a := step o sp m in k a) s).
Proof.
  intros Hi He Hx Hk. unfold step, vbind at 1 2.
  assert (Hm : forall f, mloop (S f) (N.of_nat ip) s = (consume_instruction_budget ;;!
     let! signal := on_err (execute o' ch allow_return) (record_error_site frame (instr o' sp)) in
     match signal with
     | ExecutionSignal.Continue => mloop f (N.of_nat (ip + 1))
     | ExecutionSignal.Jump target => mloop f target
     | ExecutionSignal.Return => vret ExecutionSignal.Return
     end) s) 
    by (intros f; rewrite (Nat2N.inj_add ip 1); cbn [mloop]; by rewrite Nat2N.id, Hi).
  unfold vbind at 1 in Hm.
  destruct (consume_instruction_budget s) as [[] s1|e s1| |] eqn:Hc; cbn [simulates].
  2:{ exists s1. split; [done|]. by exists 1. }
  2:{ by exists 1. }
  2:{ by rewrite Hm. }
  unfold vbind, on_err in Hm. rewrite Hx in Hm. unfold vbind in Hm. unfold on_err.
  destruct (m s1) as [a s2|e s2| |] eqn:Em; cbn [simulates vret] in *.
  2:{ eexists. split; [|by exists 1]. by apply forget_record. }
  2:{ by exists 1. }
  2:{ by rewrite Hm. }
  specialize (Hk a s2). destruct (g a) as [|t|]; [by eapply simulates_after..|].
  rewrite Hk. by exists 1.
Qed.

(** An instruction that goes on to the next. *)
Lemma simulates_then n loop after ip o o' sp (m : VM unit) (k : VM Flow) s :
  instructions ch !! ip = Some (instr o' sp) -> erase o' = erase o ->
  (forall s, execute o' ch allow_return s = (m ;;! vret ExecutionSignal.Continue) s) ->
  (forall s', simulates n loop after (N.of_nat (ip + 1)) s' (k s')) ->
  simulates n loop after (N.of_nat ip) s ((next o sp m ;;! k) s).
Proof.
  intros Hi He Hx Hk.
  rewrite next_bind. apply (simulates_le n (S n)); [lia|].
  by apply (simulates_step n loop after ip o o' sp m (fun _ => ExecutionSignal.Continue) (fun _ => k)).
Qed.

Lemma simulates_next n loop ip o o' sp (m : VM unit) s :
  instructions ch !! ip = Some (instr o' sp) -> erase o' = erase o ->
  (forall s, execute o' ch allow_return s = (m ;;! vret ExecutionSignal.Continue) s) ->
  simulates n loop (N.of_nat (ip + 1)) (N.of_nat ip) s (next o sp m s).
Proof.
  intros Hi He Hx.
  pose proof (simulates_then n loop (N.of_nat (ip + 1)) ip o o' sp m (vret Next) s Hi He Hx) as H.
  rewrite next_bind, <- next_ret in H. apply H. intros s'. apply arrives_refl.
Qed.

(** The two ways a condition can go. *)
Lemma simulates_test n loop after ip t sp (k : bool -> VM Flow) s :
  instructions ch !! ip = Some (instr (Op.JumpIfFalse t) sp) ->
  (t <= N.of_nat (length (instructions ch)))%N ->
  (forall s', simulates n loop after (N.of_nat (ip + 1)) s' (k true s')) ->
  (forall s', simulates n loop after t s' (k false s')) ->
  simulates (S n) loop after (N.of_nat ip) s ((let! go := test file starts frame sp in k go) s).
Proof.
  intros Hi Ht Hk1 Hk2.
  eapply (simulates_step n loop after ip _ _ sp _
            (fun b : bool => if b then ExecutionSignal.Continue else ExecutionSignal.Jump t)); [exact Hi|done| |].
  - intros s0. simpl. unfold validate_jump. rewrite (proj2 (N.ltb_ge _ _)) by lia.
    unfold vbind, vget, vret. destruct (pop "if" s0) as [v s1|e s1| |]; [|done..].
    by destruct (on_err _ _ s1) as [[] s2|e s2| |].
  - by intros [] s'.
Qed.

(** A jump. *)
Lemma simulates_jump n loop after ip t sp (k : VM Flow) s :
  instructions ch !! ip = Some (instr (Op.Jump t) sp) ->
  (t <= N.of_nat (length (instructions ch)))%N ->
  (forall s', simulates n loop after t s' (k s')) ->
  simulates n loop after (N.of_nat ip) s ((next (Op.Jump 0) sp (vret tt) ;;! k) s).
Proof.
  intros Hi Ht Hk. rewrite next_bind. apply (simulates_le n (S n)); [lia|].
  eapply (simulates_step n loop after ip _ _ sp (vret tt) (fun _ => ExecutionSignal.Jump t)); [exact Hi|done| |].
  - intros s0. simpl. unfold validate_jump. by rewrite (proj2 (N.ltb_ge _ _)) by lia.
  - by intros _ s'.
Qed.

(** ** Code in a chunk *)

(** The code stands in the chunk at address [a], its blocks from [nb] on. *)
Definition placed (a nb : nat) (c : code) : Prop :=
  (forall i x, c.1 !! i = Some x -> instructions ch !! (a + i) = Some x) /\
  (forall i x, c.2 !! i = Some x -> blocks ch !! (nb + i) = Some x).

Lemma placed_app a nb c1 b1 c2 b2 :
  placed a nb (c1 ++ c2, b1 ++ b2) -> placed a nb (c1, b1) /\ placed (a + length c1) (nb + length b1) (c2, b2).
Proof.
  intros [Hc Hb]; simpl in *. repeat split; simpl; intros i x Hi.
  - apply Hc. by apply lookup_app_l_Some.
  - apply Hb. by apply lookup_app_l_Some.
  - rewrite <- Nat.add_assoc. apply Hc. rewrite lookup_app_r by lia. by replace (length c1 + i - length c1) with i by lia.
  - rewrite <- Nat.add_assoc. apply Hb. rewrite lookup_app_r by lia. by replace (length b1 + i - length b1) with i by lia.
Qed.

Lemma placed_cons a nb i c b :
  placed a nb (i :: c, b) -> instructions ch !! a = Some i /\ placed (a + 1) nb (c, b).
Proof.
  intros H. split; [rewrite <- (Nat.add_0_r a); by apply H|].
  apply (placed_app a nb [i] [] c b) in H as [_ H]. by rewrite Nat.add_0_r in H.
Qed.

Lemma placed_end a nb c b : placed a nb (c, b) -> a <= length (instructions ch) -> a + length c <= length (instructions ch).
Proof.
  intros [Hc _] Ha. destruct (decide (c = [])) as [->|Hne]; [simpl; lia|].
  destruct (lookup_lt_is_Some_2 c (length c - 1)) as [x Hx].
  { destruct c; [done|simpl; lia]. }
  apply Hc, lookup_lt_Some in Hx. destruct c; [done|simpl in *; lia].
Qed.

Lemma placed_block a nb c x b : placed a nb (c, x :: b) -> blocks ch !! nb = Some x.
Proof. intros [_ Hb]. rewrite <- (Nat.add_0_r nb). by apply Hb. Qed.

Definition loop_ok (loop : option Loop) : Prop :=
  match loop with
  | Some l => (break_to l <= N.of_nat (length (instructions ch)))%N /\ continue_to l <= length (instructions ch)
  | None => True
  end.

Section expressions.
Variable n : nat.
Abbreviation exec := (exec host_word host_method callee n file starts frame allow_return).
Abbreviation execs := (execs host_word host_method callee n file starts frame allow_return).
Abbreviation execs_with := (execs_with host_word host_method callee file starts frame).
Abbreviation gen := (gen file starts).
Abbreviation gens := (gens file starts).

Definition expr_ok (e : Expr) : Prop := forall loop sp a nb c b s,
  gen loop sp a nb e = Ok (c, b) -> placed a nb (c, b) -> a <= length (instructions ch) -> loop_ok loop ->
  simulates n loop (N.of_nat (a + length c)) (N.of_nat a) s (exec sp e s).

Definition exprs_ok (es : list SpannedExpr) : Prop := forall loop a nb c b s,
  gens loop a nb es = Ok (c, b) -> placed a nb (c, b) -> a <= length (instructions ch) -> loop_ok loop ->
  simulates n loop (N.of_nat (a + length c)) (N.of_nat a) s (execs es s).

Lemma word_ok loop sp a nb w o s :
  word_op loop sp w = Ok o -> placed a nb ([instr o sp], []) -> loop_ok loop ->
  simulates n loop (N.of_nat (a + 1)) (N.of_nat a) s
    (exec_word host_word host_method callee file starts frame allow_return sp w s).
Proof.
  intros Ho [Hp _]%placed_cons Hl. unfold word_op in Ho. unfold exec_word.
  repeat (case_match; [simplify_eq|]); simplify_eq; try (by eapply simulates_next; [exact Hp|done|by intros]).
  - rewrite step_ret. apply (simulates_le n (S n)); [lia|].
    by eapply (simulates_step n _ _ a _ _ sp (vret tt) (fun _ => ExecutionSignal.Return));
      [exact Hp|done|intros; simpl; destruct allow_return|].
  - rewrite (step_fail _ _ _ Returned). apply (simulates_le n (S n)); [lia|].
    by eapply (simulates_step n _ _ a _ _ sp (vfail _) (fun _ => ExecutionSignal.Return));
      [exact Hp|done|intros; simpl; destruct allow_return|].
  - rewrite step_ret, <- next_bind. eapply simulates_jump; [exact Hp|apply Hl|]. intros s'. apply arrives_refl.
  - rewrite step_ret, <- next_bind. eapply simulates_jump; [exact Hp|destruct Hl; lia|]. intros s'. apply arrives_refl.
Qed.

Lemma all_ok es : Forall (fun e => expr_ok (expr e)) es -> exprs_ok es.
Proof.
  induction es as [|e sp es Hv IH|e1 s1 e2 s2 es p Hv IH] using pairs_ind; intros Hes loop a nb c b s Hg Hp Ha Hl.
  - injection Hg as <- <-. rewrite Nat.add_0_r. apply arrives_refl.
  - apply Forall_cons_1 in Hes as [He Hes]. unfold gens, execs in *. cbn [gens_with Semantics.execs_with] in *.
    rewrite Hv in *.
    destruct (gen loop sp a nb e) as [[c1 b1]|er| |] eqn:E1; try done. simpl in Hg.
    destruct (gens_with _ _ _ loop _ _ es) as [[c2 b2]|er| |] eqn:E2; try done. injection Hg as <- <-.
    apply placed_app in Hp as [Hp1 Hp2]. rewrite length_app, Nat.add_assoc.
    eapply simulates_seq; [by eapply He|]. intros s'. eapply (IH Hes); [exact E2|done| |done].
    by apply (placed_end _ _ _ _ Hp1).
  - apply Forall_cons_1 in Hes as [_ Hes]. apply Forall_cons_1 in Hes as [_ Hes].
    unfold gens, execs in *. cbn [gens_with Semantics.execs_with] in *. rewrite Hv in *. destruct p as [name operator].
    destruct (gens_with _ _ _ loop (a + 2) nb es) as [[c2 b2]|er| |] eqn:E2; try done. injection Hg as <- <-.
    apply placed_cons in Hp as [Hi1 Hp]. apply placed_cons in Hp as [Hi2 Hp]. rewrite <- Nat.add_assoc in Hp.
    simpl. replace (a + S (S (length c2))) with (a + 2 + length c2) by lia.
    eapply simulates_then; [exact Hi1|done|by intros|]. intros s'.
    eapply simulates_then; [exact Hi2|done|by intros|]. intros s''.
    replace (a + 1 + 1) with (a + 2) by lia. eapply (IH Hes); [exact E2|exact Hp| |done].
    apply lookup_lt_Some in Hi2. lia.
Qed.

(** The iterations of a loop whose condition is at [a], its test after it, its
    body at [body_start] and its end at [loop_end]. *)
Lemma iterate_ok loop sp a test_at body_end (condition body : VM Flow) m :
  let loop_end := N.of_nat (body_end + 1) in
  m <= n -> body_end < length (instructions ch) -> a <= length (instructions ch) ->
  instructions ch !! test_at = Some (instr (Op.JumpIfFalse loop_end) sp) ->
  instructions ch !! body_end = Some (instr (Op.Jump (N.of_nat a)) sp) ->
  (forall s, simulates n loop (N.of_nat test_at) (N.of_nat a) s (condition s)) ->
  (forall s, simulates n (Some (mkTargets a loop_end)) (N.of_nat body_end) (N.of_nat (test_at + 1)) s (body s)) ->
  forall s, simulates m loop loop_end (N.of_nat a) s (iterate file starts frame sp condition body m s).
Proof.
  intros loop_end Hm Hend Ha Ht Hj Hc Hb. induction m as [|m IH]; intros s; [done|]. cbn [iterate].
  eapply simulates_seq; [apply (simulates_le _ n); [lia|apply Hc]|]. intros s1.
  apply simulates_test with (t := loop_end); [done|unfold loop_end; lia| |intros s'; apply arrives_refl].
  intros s2. specialize (Hb s2). unfold vbind. destruct (body s2) as [[] s3|e s3| |].
  - eapply simulates_from; [exact Hb|].
    apply (simulates_jump m loop loop_end body_end _ sp _ s3 Hj); [lia|]. apply IH. lia.
  - exact Hb.
  - eapply simulates_from; [exact Hb|]. apply IH. lia.
  - exact Hb.
  - exact Hb.
  - exact Hb.
  - by apply (mloop_nofuel m n); [lia|].
Qed.

Lemma if_ok loop sp a nb t f : exprs_ok t -> exprs_ok f -> forall c b s,
  gen loop sp a nb (Expr.If t f) = Ok (c, b) -> placed a nb (c, b) -> a <= length (instructions ch) -> loop_ok loop ->
  simulates n loop (N.of_nat (a + length c)) (N.of_nat a) s (exec sp (Expr.If t f) s).
Proof.
  intros Ht Hf c b s Hg Hp Ha Hl. cbn [Layout.gen] in Hg.
  destruct (gens_with _ _ _ loop (a + 1) nb t) as [[ct bt]|er| |] eqn:Et; try done. simpl in Hg.
  destruct (gens_with _ _ _ loop _ _ f) as [[cf bf]|er| |] eqn:Ef; try done. injection Hg as <- <-.
  pose proof (placed_end _ _ _ _ Hp Ha) as He. simpl in He. rewrite length_app in He. simpl in He.
  apply placed_cons in Hp as [Hi Hp].
  apply (placed_app _ _ ct bt (_ :: cf) bf) in Hp as [Hpt Hp]. apply placed_cons in Hp as [Hj Hpf].
  replace (a + length (_ :: ct ++ _)) with (a + 1 + length ct + 1 + length cf) by (simpl; rewrite length_app; simpl; lia).
  cbn [Semantics.exec]. apply (simulates_le n (S n)); [lia|].
  eapply simulates_test; [exact Hi|lia| |].
  - intros s1. eapply simulates_seq; [eapply (Ht loop _ _ _ _ _ Et Hpt); [lia|done]|].
    intros s2. pose proof (simulates_jump n loop (N.of_nat (a + 1 + length ct + 1 + length cf)) _ _ sp (vret Next) s2 Hj) as H.
    rewrite next_bind, <- next_ret in H. apply H; [lia|]. intros s3. apply arrives_refl.
  - intros s1. by eapply (Hf loop _ _ _ _ _ Ef Hpf); [lia|].
Qed.

Lemma while_ok loop sp a nb t f : exprs_ok t -> exprs_ok f -> forall c b s,
  gen loop sp a nb (Expr.While t f) = Ok (c, b) -> placed a nb (c, b) -> a <= length (instructions ch) -> loop_ok loop ->
  simulates n loop (N.of_nat (a + length c)) (N.of_nat a) s (exec sp (Expr.While t f) s).
Proof.
  intros Ht Hf c b s Hg Hp Ha Hl. cbn [Layout.gen] in Hg.
  destruct (gens_with _ _ _ loop a nb t) as [[ct bt]|er| |] eqn:Et; try done. simpl in Hg.
  destruct (gens_with _ _ _ _ _ _ f) as [[cf bf]|er| |] eqn:Ef; try done. injection Hg as <- <-.
  pose proof (gens_size file starts f (Some (mkTargets a (N.of_nat (a + length ct + 1 + sizes f + 1))))
                (a + length ct + 1) (nb + length bt)) as Hs.
  unfold gens in Hs. rewrite Ef in Hs. simpl in Hs. rewrite <- Hs in *.
  pose proof (placed_end _ _ _ _ Hp Ha) as He. simpl in He. rewrite !length_app in He. simpl in He. rewrite length_app in He.
  simpl in He.
  apply (placed_app _ _ ct bt (_ :: cf ++ _) bf) in Hp as [Hpt Hp]. apply placed_cons in Hp as [Hi Hp].
  rewrite <- (app_nil_r bf) in Hp.
  apply placed_app in Hp as [Hpf Hp]. apply placed_cons in Hp as [Hj _].
  replace (a + length (ct ++ _)) with (a + length ct + 1 + length cf + 1)
    by (rewrite length_app; simpl; rewrite length_app; simpl; lia).
  cbn [Semantics.exec].
  apply (iterate_ok loop sp a (a + length ct) (a + length ct + 1 + length cf)); [lia|lia|lia|exact Hi|exact Hj|..].
  - intros s1. eapply (Ht loop _ _ _ _ _ Et Hpt); [lia|done].
  - intros s1. eapply (Hf _ _ _ _ _ _ Ef Hpf); [lia|]. simpl. split; lia.
Qed.

Lemma expr_simulates e : expr_ok e.
Proof.
  induction e as [w|w|w|w|z|x|ar|bl Hb|bl Hb|t f Ht Hf|t f Ht Hf] using Expr_ind'; intros loop sp a nb c b s Hg Hp Ha Hl.
  - simpl in Hg. destruct (word_op loop sp w) as [o|er| |] eqn:Eo; try done. injection Hg as <- <-. by eapply word_ok.
  - done.
  - injection Hg as <- <-. apply placed_cons in Hp as [Hi Hp]. apply placed_cons in Hp as [Hj _].
    eapply simulates_then; [exact Hi|done|by intros|]. intros s'.
    change (a + length _) with (a + (1 + 1)). rewrite Nat.add_assoc.
    by eapply simulates_next; [exact Hj|done|intros].
  - injection Hg as <- <-. apply placed_cons in Hp as [Hi _]. by eapply simulates_next; [exact Hi|done|intros].
  - injection Hg as <- <-. apply placed_cons in Hp as [Hi _]. by eapply simulates_next; [exact Hi|done|intros].
  - injection Hg as <- <-. apply placed_cons in Hp as [Hi _]. by eapply simulates_next; [exact Hi|done|intros].
  - done.
  - cbn [Layout.gen] in Hg. cbn [Semantics.exec]. unfold with_block, block, Layout.gens.
    destruct (block_of _ _ _) as [bc|er| |]; try done. injection Hg as <- <-.
    pose proof (placed_block _ _ _ _ _ Hp) as Hbl. apply placed_cons in Hp as [Hi _].
    eapply simulates_next; [exact Hi|done|]. intros s'. simpl. unfold get_block. by rewrite Nat2N.id, Hbl.
  - by apply (all_ok bl Hb loop a nb c b s).
  - by eapply (if_ok loop sp a nb t f (all_ok t Ht) (all_ok f Hf)).
  - by eapply (while_ok loop sp a nb t f (all_ok t Ht) (all_ok f Hf)).
Qed.

Lemma exprs_simulate es : exprs_ok es.
Proof. apply all_ok, list.Forall_forall. intros e _. apply expr_simulates. Qed.

(** ** Items *)

Definition item_ok (g : nat -> nat -> Item -> res CompileError code) (x : Item -> VM Flow) (i : Item) : Prop :=
  forall a nb c b s, g a nb i = Ok (c, b) -> placed a nb (c, b) -> a <= length (instructions ch) ->
  simulates n None (N.of_nat (a + length c)) (N.of_nat a) s (x i s).

Lemma decl_ok mk o body sp a nb c b m s :
  decl file starts mk body sp nb = Ok (c, b) -> placed a nb (c, b) ->
  (forall k, erase (mk k) = erase o) ->
  (forall k s, execute (mk k) ch allow_return s = (let! bl := get_block ch k in m bl ;;! vret ExecutionSignal.Continue) s) ->
  simulates n None (N.of_nat (a + length c)) (N.of_nat a) s (exec_decl file starts frame o body sp m s).
Proof.
  intros Hg Hp He Hx. unfold decl in Hg. unfold exec_decl, with_block.
  destruct (block _ _ _ _) as [bc|er| |]; try done. injection Hg as <- <-.
  pose proof (placed_block _ _ _ _ _ Hp) as Hbl. apply placed_cons in Hp as [Hi _].
  eapply simulates_next; [exact Hi|apply He|]. intros s'. rewrite Hx. unfold get_block. by rewrite Nat2N.id, Hbl.
Qed.

Lemma class_expr_ok e sp a nb c b s :
  gen_class_expr file starts a nb e sp = Ok (c, b) -> placed a nb (c, b) -> a <= length (instructions ch) ->
  simulates n None (N.of_nat (a + length c)) (N.of_nat a) s
    (exec_class_expr host_word host_method callee n file starts frame allow_return e sp s).
Proof.
  intros Hg Hp Ha. unfold gen_class_expr in Hg. unfold exec_class_expr.
  destruct e; try by eapply expr_simulates.
  destruct (table_declaration exprs) as [name|].
  { destruct exprs as [|[e0 sp0] [|[e1 sp1] [|]]]; try done. injection Hg as <- <-.
    apply placed_cons in Hp as [Hi Hp]. apply placed_cons in Hp as [Hj _].
    eapply simulates_then; [exact Hi|done|by intros|]. intros s'.
    change (a + length _) with (a + (1 + 1)). rewrite Nat.add_assoc.
    by eapply simulates_next; [exact Hj|done|intros]. }
  destruct (is_field_declaration exprs) as [name|].
  { injection Hg as <- <-. apply placed_cons in Hp as [Hi _]. by eapply simulates_next; [exact Hi|done|intros]. }
  destruct (is_accessor_declaration exprs) as [name|].
  { injection Hg as <- <-. apply placed_cons in Hp as [Hi _]. by eapply simulates_next; [exact Hi|done|intros]. }
  destruct (block_method_declaration exprs) as [[[args name] body]|]; [|by eapply expr_simulates].
  by eapply decl_ok.
Qed.

Abbreviation run_class_item := (exec_class_item host_word host_method callee n file starts frame allow_return).
Abbreviation run_item := (exec_item host_word host_method callee n file starts frame allow_return).

Lemma class_item_ok i : item_ok (gen_class_item file starts) run_class_item i.
Proof.
  intros a nb c b s Hg Hp Ha. unfold gen_class_item in Hg.
  destruct i as [[]| | | |]; simpl in *; try done.
  - by eapply decl_ok.
  - by eapply class_expr_ok.
Qed.

Lemma items_ok g x its : (forall i, item_ok g x i) -> forall a nb c b s,
  gen_all g a nb its = Ok (c, b) -> placed a nb (c, b) -> a <= length (instructions ch) ->
  simulates n None (N.of_nat (a + length c)) (N.of_nat a) s (exec_all x its s).
Proof.
  intros Hx. induction its as [|i its IH]; intros a nb c b s Hg Hp Ha.
  - injection Hg as <- <-. rewrite Nat.add_0_r. apply arrives_refl.
  - simpl in Hg. destruct (g a nb i) as [[c1 b1]|er| |] eqn:E1; try done. simpl in Hg.
    destruct (gen_all g _ _ its) as [[c2 b2]|er| |] eqn:E2; try done. injection Hg as <- <-.
    apply placed_app in Hp as [Hp1 Hp2]. rewrite length_app, Nat.add_assoc. cbn [exec_all].
    eapply simulates_seq; [by eapply Hx|]. intros s'. eapply IH; [exact E2|done|]. by apply (placed_end _ _ _ _ Hp1).
Qed.

Lemma item_simulates i : item_ok (gen_item file starts) run_item i.
Proof.
  intros a nb c b s Hg Hp Ha. destruct i as [[name super body docs sp]|m|f|m|e sp docs]; simpl in Hg |- *.
  - destruct (gen_all _ _ _ body) as [[cb bb]|er| |] eqn:Eb; try done. injection Hg as <- <-.
    apply placed_cons in Hp as [Hi Hp]. rewrite <- (app_nil_r bb) in Hp.
    apply placed_app in Hp as [Hpb Hp]. apply placed_cons in Hp as [Hj _].
    replace (a + length (_ :: _)) with (a + 1 + length cb + 1) by (simpl; rewrite length_app; simpl; lia).
    eapply simulates_then; [exact Hi|done|by intros|]. intros s1.
    eapply simulates_seq; [eapply (items_ok _ _ _ class_item_ok); [exact Eb|exact Hpb|]|].
    { apply lookup_lt_Some in Hi. lia. }
    intros s2. by eapply simulates_next; [exact Hj|done|intros].
  - done.
  - by eapply decl_ok.
  - done.
  - by eapply expr_simulates.
Qed.
End expressions.
End instruction.
End machine.

(** ** From the fixed runner to the machine *)

(** The runs of the machine, by their fuel, have the outcome [o]: they end like it
    with enough fuel; if [o] is cut off at [n], so are they. *)
Definition implements {A : Type} (run : nat -> out A) (n : nat) (o : out A) : Prop :=
  match o with
  | NoFuel => run n = NoFuel
  | _ => exists k, forall fuel, k <= fuel -> same (run fuel) o
  end.


Lemma implements_map {A B} (g : A -> B) (run : nat -> VM A) (m : VM A) n s :
  implements (fun fuel => run fuel s) n (m s) ->
  implements (fun fuel => (let! a := run fuel in vret (g a)) s) n ((let! a := m in vret (g a)) s).
Proof.
  unfold implements, vbind, same. intros H.
  destruct (m s) as [a s'|e s'| |]; simpl in *; [..|by rewrite H]; destruct H as [k Hk]; exists k; intros fuel Hf;
    specialize (Hk fuel Hf); destruct (run fuel s); simpl in *; naive_solver.
Qed.
(** How the machine reports a flow. *)
Definition signal (flow : Flow) : ExecutionSignal :=
  match flow with Next => ExecutionSignal.Continue | _ => ExecutionSignal.Return end.

Lemma vbind_modify {A} f (k : VM A) s : (vmodify f ;;! k) s = k (f s).
Proof. done. Qed.

Lemma vbind_signal (m : VM Flow) s :
  (let! _ := (let! flow := m in vret (signal flow)) in vret tt) s = (let! _ := m in vret tt) s.
Proof. unfold vbind. by destruct (m s). Qed.

Lemma body_signal file starts frame sp (m : VM Flow) s :
  (let! flow := (let! flow := m in
                 match flow with Next => step file starts frame Op.Return sp (vret Returned) | _ => vret flow end) in
   vret (signal flow)) s =
  (let! flow := m in
   match flow with Next => step file starts frame Op.Return sp (vret ExecutionSignal.Return) | _ => vret ExecutionSignal.Return end) s.
Proof.
  unfold vbind. destruct (m s) as [[] s'|e s'| |] eqn:E; try done.
  unfold step, vbind, on_err. by destruct (consume_instruction_budget s').
Qed.

Section whole.
Variables (host_word : string -> VM unit) (host_method : Value -> string -> VM Value).
Abbreviation run_from := (run_from host_word host_method).
Abbreviation runner n := (fun c f a => run_from n c f a 0%N).
Variables (ch : Chunk) (frame : string) (allow_return : bool).
Abbreviation mloop n := (mloop host_word host_method (runner n) ch frame allow_return).

Lemma mloop_callee n n' f ip : n <= n' -> approx (mloop n f ip) (mloop n' f ip).
Proof.
  intros Hn. revert ip. induction f as [|f IH]; intros ip; [apply approx_refl|]. cbn [SemanticsProofs.mloop].
  destruct (instructions ch !! _); [|apply approx_refl]. apply approx_bind; [apply approx_refl|intros _].
  apply approx_bind; [|intros []; [apply IH..|apply approx_refl]].
  apply approx_on_err, approx_instruction. intros c' f' a'. by apply run_from_mono.
Qed.

Lemma mloop_run n m ip : approx (mloop n m ip) (run_from (n + m) ch frame allow_return ip).
Proof.
  revert ip. induction m as [|m IH]; intros ip; [by intros s; left|]. rewrite Nat.add_succ_r.
  cbn [SemanticsProofs.mloop Vm.run_from].
  destruct (instructions ch !! _); [|apply approx_refl]. apply approx_bind; [apply approx_refl|intros _].
  apply approx_bind; [|intros []; [apply IH..|apply approx_refl]].
  apply approx_on_err, approx_instruction. intros c' f' a'. apply run_from_mono. lia.
Qed.

Lemma run_mloop n ip : approx (run_from n ch frame allow_return ip) (mloop n n ip).
Proof.
  revert ip. induction n as [|n IH]; intros ip; [by intros s; left|].
  assert (Hc : forall c f a, approx (runner n c f a) (runner (S n) c f a)) by (intros; apply run_from_step).
  assert (Hm : forall ip', approx (run_from n ch frame allow_return ip') (mloop (S n) n ip'))
    by (intros ip'; eapply approx_trans; [apply IH|apply mloop_callee; lia]).
  revert Hc Hm. generalize (runner (S n)). intros run Hc Hm.
  cbn [SemanticsProofs.mloop Vm.run_from].
  destruct (instructions ch !! _); [|apply approx_refl]. apply approx_bind; [apply approx_refl|intros _].
  apply approx_bind.
  - apply approx_on_err, approx_instruction, Hc.
  - intros []; [apply Hm..|apply approx_refl].
Qed.

Lemma ends_run n ip s o : ends host_word host_method (runner n) ch frame allow_return ip s o -> o <> NoFuel ->
  exists k, forall fuel, k <= fuel -> run_from fuel ch frame allow_return ip s = o.
Proof.
  intros [k Hk] Ho. exists (n + k). intros fuel Hf.
  specialize (Hk 0). rewrite Nat.add_0_r in Hk.
  destruct (mloop_run n k ip s) as [E|E]; [congruence|].
  destruct (run_from_mono host_word host_method (n + k) fuel ch frame allow_return ip Hf s) as [E'|E']; congruence.
Qed.

(** What the whole chunk does. *)
Lemma simulated_run n s (m : VM Flow) :
  simulates host_word host_method (runner n) ch frame allow_return n None
    (N.of_nat (length (instructions ch))) 0 s (m s) ->
  implements (fun fuel => run_from fuel ch frame allow_return 0 s) n ((let! flow := m in vret (signal flow)) s).
Proof.
  unfold vbind. intros H. destruct (m s) as [[] s'|e s'| |]; simpl in H |- *; try done.
  - assert (He : ends host_word host_method (runner n) ch frame allow_return 0 s (Val ExecutionSignal.Continue s')).
    { eapply arrives_ends; [exact H|]. exists 1. intros f. simpl.
      by rewrite Nat2N.id, lookup_ge_None_2 by lia. }
    destruct (ends_run _ _ _ _ He) as [k Hk]; [done|]. exists k. intros fuel Hf. by rewrite (Hk fuel Hf).
  - destruct (ends_run _ _ _ _ H) as [k Hk]; [done|]. exists k. intros fuel Hf. by rewrite (Hk fuel Hf).
  - destruct H as (s'' & Hs & H). destruct (ends_run _ _ _ _ H) as [k Hk]; [done|]. exists k. intros fuel Hf.
    by rewrite (Hk fuel Hf).
  - destruct (ends_run _ _ _ _ H) as [k Hk]; [done|]. exists k. intros fuel Hf. by rewrite (Hk fuel Hf).
  - destruct (run_mloop n 0 s) as [E|E]; [done|]. by rewrite E.
Qed.

End whole.

(** ** Theorems *)

(** C2: the compiled module, run by the machine, does what the structured
    semantics of its source says.  If the semantics ends, in a final state, an
    error or a panic, so does the machine with enough fuel, in the same state
    and with the same error at the same place; if it does not end within [n]
    iterations and nested steps, the machine does not end within [n] either. *)
Theorem lower_module_correct (host_word : string -> VM unit) (host_method : Value -> string -> VM Value)
    (n : nat) (file source : string) (m : Module_) (c : Chunk) (s : Vm) :
  lower_module file source m = Ok c ->
  implements (fun fuel => run_chunk host_word host_method fuel c s) n
    (run_module host_word host_method n file source m s).
Proof.
  rewrite lower_module_eq. unfold layout_module. intros Hm.
  destruct (gen_all _ 0 0 (items m)) as [[cs bs]|er| |] eqn:Eg; try done. injection Hm as <-.
  unfold run_module, run_chunk, run_chunk_with_frame.
  set (x := exec_all _ (items m)). set (s1 := set_instructions_executed 0 (set_last_error_site None s)).
  rewrite vbind_modify, <- (vbind_signal x).
  apply (@implements_map ExecutionSignal unit (fun _ => tt)
           (fun fuel => run_from host_word host_method fuel (mkChunk file cs bs) "<main>" false 0)).
  apply simulated_run.
  eapply (items_ok _ _ _ _ _ _ _ _ _ _ (item_simulates _ _ _ _ _ _ _ _ _) 0 0 cs bs); [exact Eg|by split|simpl; lia].
Qed.

(** C3: the same for the body of a block, a function or a method: the chunk
    compiled from it, run as a call runs it, returns what the structured
    semantics of the body gives. *)
Theorem block_correct (host_word : string -> VM unit) (host_method : Value -> string -> VM Value)
    (n : nat) (file source frame : string) (body : list SpannedExpr) (sp : Span) (c : Chunk) (compiler : Compiler) (s : Vm) :
  compile_block_chunk body sp (from_source file source) = Ok (c, compiler) ->
  implements (fun fuel => run_from host_word host_method fuel c frame true 0 s) n
    (run_body host_word host_method n file source frame body sp s).
Proof.
  rewrite block_run by (apply list.Forall_forall; intros; apply compile_spec).
  unfold block, block_of. intros Hc. simpl in Hc.
  destruct (gens _ _ None 0 0 body) as [[cs bs]|er| |] eqn:Eg; try done. injection Hc as <- _.
  unfold run_body. set (x := execs _ _ _ _ _ _ _ _ body).
  set (starts := line_starts source) in *. set (ch := mkChunk file _ bs).
  set (y := let! flow := x in
            match flow with Next => step file starts frame Op.Return sp (vret Returned) | _ => vret flow end).
  rewrite <- (body_signal file starts frame sp x s).
  apply (simulated_run _ _ ch frame true n s y).
  assert (Hp : placed ch 0 0 (cs ++ [instr file starts Op.Return sp], bs ++ [])) by (rewrite app_nil_r; by split).
  apply placed_app in Hp as [Hp Hr]. apply placed_cons in Hr as [Hr _].
  pose proof (exprs_simulate host_word host_method (fun c f a => run_from host_word host_method n c f a 0) ch frame true
    file starts n body None 0 0 cs bs s Eg Hp (Nat.le_0_l _) I) as Hx.
  change (execs _ _ _ _ _ _ _ _ body s) with (x s) in Hx. clearbody x ch.
  apply (simulates_seq _ _ _ ch frame true n None _ _ _ x _ s Hx). intros s'.
  rewrite step_ret. apply (simulates_le _ _ _ _ _ _ n (S n)); [lia|].
  by eapply (simulates_step _ _ _ ch frame true file starts n _ _ (0 + length cs) _ _ sp (vret tt) (fun _ => ExecutionSignal.Return)).
Qed.

(** A program with a loop, for the witnesses. *)
Definition sample : string := "0 n var $n 3 < while $n 1 + n set end $n".
Definition sample_module : Module_ := match parse_module sample with Ok m => m | _ => mkModule [] end.

Lemma lower_module_correct_witness : exists c,
  lower_module "f" sample sample_module = Ok c /\
  (exists s, run_module no_host_word no_host_method 9 "f" sample sample_module default_vm = Val tt s /\
     stack s = [Value.Number 3]) /\
  implements (fun fuel => run_chunk no_host_word no_host_method fuel c default_vm) 9
    (run_module no_host_word no_host_method 9 "f" sample sample_module default_vm).
Proof.
  eexists. split; [vm_compute; reflexivity|]. split.
  - eexists. split; vm_compute; reflexivity.
  - apply lower_module_correct. vm_compute. reflexivity.
Defined.

Lemma block_correct_witness : exists c,
  (exists s, compile_block_chunk [mkSpanned (Expr.Symbol "dup") (mkSpan 0 3)] (mkSpan 0 3) (from_source "f" "dup") = Ok (c, s)) /\
  implements (fun fuel => run_from no_host_word no_host_method fuel c "m" true 0 (set_stack [Value.Nil] default_vm)) 3
    (run_body no_host_word no_host_method 3 "f" "dup" "m" [mkSpanned (Expr.Symbol "dup") (mkSpan 0 3)] (mkSpan 0 3)
       (set_stack [Value.Nil] default_vm)).
Proof.
  eexists. split; [eexists; vm_compute; reflexivity|]. eapply block_correct. vm_compute. reflexivity.
Defined.
