(* ===== verification/Approval.v ===== *)
(** * The registry of approvals

    [crates/ricochet_vm/src/approval_runtime.rs].  An approval is created
    pending, with a token that is shown once; whoever has the token may claim
    it before it expires, and only a claimed approval can be completed.  The
    operations take the clock as an argument; one that fails may still mark
    the record it looked at as expired. *)

From stdpp Require Import base tactics list strings option numbers.
From Stdlib Require Import ZArith NArith Lia Ascii String Sorted.
From S2P Require Import Prelude RustStr Bytecode BTree Value.

Open Scope string_scope.
Open Scope list_scope.
Open Scope nat_scope.

Definition MAX_RETAINED_APPROVAL_RECORDS : nat := 1024.

Module ApprovalStatus.
Inductive ApprovalStatus : Type := Pending | Claimed | Completed | Rejected | Expired.
End ApprovalStatus.
Abbreviation ApprovalStatus := ApprovalStatus.ApprovalStatus.

#[export] Instance approval_status_eq_dec : EqDecision ApprovalStatus.
Proof. solve_decision. Defined.

Definition status_text (s : ApprovalStatus) : string :=
  match s with
  | ApprovalStatus.Pending => "pending"
  | ApprovalStatus.Claimed => "claimed"
  | ApprovalStatus.Completed => "completed"
  | ApprovalStatus.Rejected => "rejected"
  | ApprovalStatus.Expired => "expired"
  end.

(** What a record keeps from its creation, and what changes. *)
Record ApprovalRecord : Type := mkApproval {
  approval_id : string; approval_token : string; operation : Value; metadata : Value;
  status : ApprovalStatus; created_at_ms : Z; expires_at_ms : option Z; claimed_at_ms : option Z;
  completed_at_ms : option Z; rejected_at_ms : option Z; completed_result : option Value; rejection_reason : option string }.

Record ApprovalRegistryState : Type := mkRegistry {
  next_id : N; max_retained : nat; approvals : btree ApprovalRecord }.

Record ApprovalCreateRequest : Type := mkCreate {
  req_id : option string; req_token : option string; req_operation : Value; req_metadata : Value;
  req_ttl_ms : option Z; req_expires_at_ms : option Z }.

(** The booleans of the source's snapshot are tests on its status. *)
Record ApprovalSnapshot : Type := mkSnapshot { snap_token : option string; snap_record : ApprovalRecord }.

Definition snapshot_of (include_token : bool) (r : ApprovalRecord) : ApprovalSnapshot :=
  mkSnapshot (if include_token then Some (approval_token r) else None) r.

Module ApprovalError.
Inductive ApprovalError : Type :=
  | RegistryFull (limit : nat)
  | AlreadyExists (id : string)
  | RandomError (message : string)
  | NotFound (id : string)
  | AlreadyClaimed (id : string)
  | Final (id : string)
  | Expired (id : string)
  | Denied
  | NotClaimed (id : string).
End ApprovalError.
Abbreviation ApprovalError := ApprovalError.ApprovalError.

Definition error_kind (e : ApprovalError) : string :=
  match e with
  | ApprovalError.RegistryFull _ => "ApprovalRegistryFull"
  | ApprovalError.AlreadyExists _ => "ApprovalAlreadyExists"
  | ApprovalError.RandomError _ => "ApprovalRandomError"
  | ApprovalError.NotFound _ => "ApprovalNotFound"
  | ApprovalError.AlreadyClaimed _ => "ApprovalAlreadyClaimed"
  | ApprovalError.Final _ => "ApprovalFinal"
  | ApprovalError.Expired _ => "ApprovalExpired"
  | ApprovalError.Denied => "ApprovalDenied"
  | ApprovalError.NotClaimed _ => "ApprovalNotClaimed"
  end.

Definition error_message (e : ApprovalError) : msg :=
  match e with
  | ApprovalError.RegistryFull limit =>
      [Lit "approval registry reached its retained record limit of "; DispN (N.of_nat limit)]
  | ApprovalError.AlreadyExists id => [Lit "approval already exists: "; Disp id]
  | ApprovalError.RandomError message => [Disp message]
  | ApprovalError.NotFound id => [Lit "unknown approval: "; Disp id]
  | ApprovalError.AlreadyClaimed id => [Lit "approval was already claimed: "; Disp id]
  | ApprovalError.Final id => [Lit "approval is already final: "; Disp id]
  | ApprovalError.Expired id => [Lit "approval has expired: "; Disp id]
  | ApprovalError.Denied => [Lit "approval token did not match"]
  | ApprovalError.NotClaimed id => [Lit "approval must be claimed before completion: "; Disp id]
  end.

(** ** Records *)

Definition with_status (s : ApprovalStatus) (r : ApprovalRecord) : ApprovalRecord :=
  mkApproval (approval_id r) (approval_token r) (operation r) (metadata r) s (created_at_ms r) (expires_at_ms r)
    (claimed_at_ms r) (completed_at_ms r) (rejected_at_ms r) (completed_result r) (rejection_reason r).

Definition expired_at (now : Z) (r : ApprovalRecord) : bool :=
  match expires_at_ms r with Some at_ => (at_ <? now)%Z | None => false end.

Definition expire_if_needed (now : Z) (r : ApprovalRecord) : ApprovalRecord :=
  match status r with
  | ApprovalStatus.Pending => if expired_at now r then with_status ApprovalStatus.Expired r else r
  | _ => r
  end.

Definition is_releasable (r : ApprovalRecord) : bool :=
  match status r with
  | ApprovalStatus.Completed | ApprovalStatus.Rejected | ApprovalStatus.Expired => true
  | _ => false
  end.

Definition finalized_at_ms (r : ApprovalRecord) : option Z :=
  match status r with
  | ApprovalStatus.Completed => completed_at_ms r
  | ApprovalStatus.Rejected => rejected_at_ms r
  | ApprovalStatus.Expired => expires_at_ms r
  | _ => None
  end.

Definition claimed (now : Z) (r : ApprovalRecord) : ApprovalRecord :=
  mkApproval (approval_id r) (approval_token r) (operation r) (metadata r) ApprovalStatus.Claimed (created_at_ms r)
    (expires_at_ms r) (Some now) (completed_at_ms r) (rejected_at_ms r) (completed_result r) (rejection_reason r).

Definition completed (now : Z) (v : Value) (r : ApprovalRecord) : ApprovalRecord :=
  mkApproval (approval_id r) (approval_token r) (operation r) (metadata r) ApprovalStatus.Completed (created_at_ms r)
    (expires_at_ms r) (claimed_at_ms r) (Some now) (rejected_at_ms r) (Some v) (rejection_reason r).

Definition rejected (now : Z) (reason : string) (r : ApprovalRecord) : ApprovalRecord :=
  mkApproval (approval_id r) (approval_token r) (operation r) (metadata r) ApprovalStatus.Rejected (created_at_ms r)
    (expires_at_ms r) (claimed_at_ms r) (completed_at_ms r) (Some now) (completed_result r) (Some reason).

(** ** The registry *)

Definition with_approvals (a : btree ApprovalRecord) (s : ApprovalRegistryState) : ApprovalRegistryState :=
  mkRegistry (next_id s) (max_retained s) a.

Definition with_max_retained (n : nat) : ApprovalRegistryState := mkRegistry 0 n [].

Definition new_registry : ApprovalRegistryState := with_max_retained MAX_RETAINED_APPROVAL_RECORDS.

Definition release_key (r : ApprovalRecord) : Z :=
  match finalized_at_ms r with Some at_ => at_ | None => created_at_ms r end.

(** [min_by_key]: the first of the records with the least key. *)
Fixpoint first_releasable (best : option (string * Z)) (l : btree ApprovalRecord) : option (string * Z) :=
  match l with
  | [] => best
  | (id, r) :: l' =>
      first_releasable
        (if is_releasable r then
           match best with
           | Some (_, key) => if (release_key r <? key)%Z then Some (id, release_key r) else best
           | None => Some (id, release_key r)
           end
         else best) l'
  end.

(** The [while] loop removes a record in each round. *)
Fixpoint prune_loop (fuel : nat) (limit : nat) (l : btree ApprovalRecord) : btree ApprovalRecord :=
  match fuel with
  | O => l
  | S fuel' =>
      if limit <=? length l then
        match first_releasable None l with
        | Some (key, _) => prune_loop fuel' limit (bt_remove key l)
        | None => l
        end
      else l
  end.

Definition prune_releasable (now : Z) (s : ApprovalRegistryState) : ApprovalRegistryState :=
  let l := (fun kr => (kr.1, expire_if_needed now kr.2)) <$> approvals s in
  with_approvals (prune_loop (length l) (max_retained s) l) s.

(** What an operation answers, and the state it leaves, also when it fails. *)
Abbreviation outcome := (res ApprovalError ApprovalSnapshot * ApprovalRegistryState)%type.

Definition saturating_add_i64 (a b : Z) : Z := Z.max i64_min (Z.min i64_max (a + b)).

(** The id of an approval that was given none; the counter is a [u64] that no
    run exhausts. *)
Definition generated_id (now : Z) (n : N) : string := "approval_" ++ show_Z now ++ "_" ++ show_N n.

(** [random] is the token the host generates, or its error. *)
Definition create (random : string + string) (now : Z) (request : ApprovalCreateRequest) (s : ApprovalRegistryState) : outcome :=
  let s := prune_releasable now s in
  if max_retained s <=? length (approvals s) then (Err (ApprovalError.RegistryFull (max_retained s)), s)
  else
    let '(id, s) :=
      match req_id request with
      | Some id => (id, s)
      | None => (generated_id now (next_id s + 1), mkRegistry (next_id s + 1) (max_retained s) (approvals s))
      end in
    if bt_contains_key id (approvals s) then (Err (ApprovalError.AlreadyExists id), s)
    else
      match (match req_token request with Some token => inl token | None => random end) with
      | inr message => (Err (ApprovalError.RandomError message), s)
      | inl token =>
          let expires := match req_expires_at_ms request with
                         | Some at_ => Some at_
                         | None => (fun ttl => saturating_add_i64 now ttl) <$> req_ttl_ms request
                         end in
          let record := mkApproval id token (req_operation request) (req_metadata request) ApprovalStatus.Pending now expires
                          None None None None None in
          (Ok (snapshot_of true record), with_approvals (bt_insert id record (approvals s)) s)
      end.

(** [get_mut(id)], [expire_if_needed], and the step [next] takes on the record. *)
Definition on_record (now : Z) (id : string) (next : ApprovalRecord -> res ApprovalError ApprovalRecord)
    (s : ApprovalRegistryState) : outcome :=
  match bt_get id (approvals s) with
  | None => (Err (ApprovalError.NotFound id), s)
  | Some r =>
      let r := expire_if_needed now r in
      match next r with
      | Ok r' => (Ok (snapshot_of false r'), with_approvals (bt_insert id r' (approvals s)) s)
      | Err e => (Err e, with_approvals (bt_insert id r (approvals s)) s)
      | Panic => (Panic, s)
      | OutOfFuel => (OutOfFuel, s)
      end
  end.

Definition claim_record (now : Z) (id token : string) (r : ApprovalRecord) : res ApprovalError ApprovalRecord :=
  match status r with
  | ApprovalStatus.Pending =>
      if negb (String.eqb (approval_token r) token) then Err ApprovalError.Denied else Ok (claimed now r)
  | ApprovalStatus.Claimed => Err (ApprovalError.AlreadyClaimed id)
  | ApprovalStatus.Completed | ApprovalStatus.Rejected => Err (ApprovalError.Final id)
  | ApprovalStatus.Expired => Err (ApprovalError.Expired id)
  end.

Definition complete_record (now : Z) (id : string) (v : Value) (r : ApprovalRecord) : res ApprovalError ApprovalRecord :=
  match status r with
  | ApprovalStatus.Claimed => Ok (completed now v r)
  | ApprovalStatus.Pending => Err (ApprovalError.NotClaimed id)
  | ApprovalStatus.Completed | ApprovalStatus.Rejected => Err (ApprovalError.Final id)
  | ApprovalStatus.Expired => Err (ApprovalError.Expired id)
  end.

Definition reject_record (now : Z) (id reason : string) (r : ApprovalRecord) : res ApprovalError ApprovalRecord :=
  match status r with
  | ApprovalStatus.Pending | ApprovalStatus.Claimed => Ok (rejected now reason r)
  | ApprovalStatus.Completed | ApprovalStatus.Rejected => Err (ApprovalError.Final id)
  | ApprovalStatus.Expired => Err (ApprovalError.Expired id)
  end.

Definition claim (now : Z) (id token : string) : ApprovalRegistryState -> outcome := on_record now id (claim_record now id token).
Definition complete (now : Z) (id : string) (v : Value) : ApprovalRegistryState -> outcome :=
  on_record now id (complete_record now id v).
Definition reject (now : Z) (id reason : string) : ApprovalRegistryState -> outcome :=
  on_record now id (reject_record now id reason).
Definition detail (now : Z) (id : string) : ApprovalRegistryState -> outcome := on_record now id (fun r => Ok r).

Definition release (id : string) (s : ApprovalRegistryState) : bool * ApprovalRegistryState :=
  (bt_contains_key id (approvals s), with_approvals (bt_remove id (approvals s)) s).

(** ** Requests *)

Module ApprovalOp.
Inductive ApprovalOp : Type :=
  | Create (random : string + string) (request : ApprovalCreateRequest)
  | Claim (id token : string)
  | Complete (id : string) (v : Value)
  | Reject (id reason : string)
  | Detail (id : string)
  | Release (id : string).
End ApprovalOp.
Abbreviation ApprovalOp := ApprovalOp.ApprovalOp.

(** An operation at a time; a release has no snapshot to answer with. *)
Definition run_op (o : ApprovalOp) (now : Z) (s : ApprovalRegistryState) : option (res ApprovalError ApprovalSnapshot) * ApprovalRegistryState :=
  match o with
  | ApprovalOp.Create random request => let '(r, s) := create random now request s in (Some r, s)
  | ApprovalOp.Claim id token => let '(r, s) := claim now id token s in (Some r, s)
  | ApprovalOp.Complete id v => let '(r, s) := complete now id v s in (Some r, s)
  | ApprovalOp.Reject id reason => let '(r, s) := reject now id reason s in (Some r, s)
  | ApprovalOp.Detail id => let '(r, s) := detail now id s in (Some r, s)
  | ApprovalOp.Release id => (None, (release id s).2)
  end.

(** * Nothing is completed that was not approved

    The history of a registry is the list of its operations with their
    answers, the newest first.  A completion that succeeds comes after one
    claim, made in time with the token its creation gave out, and the
    approval was not created or claimed again in between. *)

(** ** Histories *)

Record Event : Type := mkEvent { ev_op : ApprovalOp; ev_time : Z; ev_answer : option (res ApprovalError ApprovalSnapshot) }.

Definition next (s : list Event * ApprovalRegistryState) (o : ApprovalOp * Z) : list Event * ApprovalRegistryState :=
  let '(a, s') := run_op o.1 o.2 s.2 in (mkEvent o.1 o.2 a :: s.1, s').

(** The operations, the first one first. *)
Definition run (limit : nat) (ops : list (ApprovalOp * Z)) : list Event * ApprovalRegistryState :=
  foldl next ([], with_max_retained limit) ops.

(** A successful creation or claim of an approval. *)
Definition touches (id : string) (e : Event) : Prop :=
  match ev_op e, ev_answer e with
  | ApprovalOp.Create _ _, Some (Ok k) => approval_id (snap_record k) = id
  | ApprovalOp.Claim id' _, Some (Ok _) => id' = id
  | _, _ => False
  end.

Definition quiet (id : string) (h : list Event) : Prop := Forall (fun e => ~ touches id e) h.

(** The record of a creation, later: its lasting fields, and the token given out. *)
Definition created_as (r : ApprovalRecord) (k : ApprovalSnapshot) : Prop :=
  snap_token k = Some (approval_token r) /\ approval_id (snap_record k) = approval_id r /\
  operation (snap_record k) = operation r /\ metadata (snap_record k) = metadata r /\
  expires_at_ms (snap_record k) = expires_at_ms r.

Definition fresh (h : list Event) (r : ApprovalRecord) : Prop :=
  exists later random request now k earlier,
    h = later ++ mkEvent (ApprovalOp.Create random request) now (Some (Ok k)) :: earlier /\
    quiet (approval_id r) later /\ created_as r k.

Definition taken (h : list Event) (r : ApprovalRecord) : Prop :=
  exists later now k earlier,
    h = later ++ mkEvent (ApprovalOp.Claim (approval_id r) (approval_token r)) now (Some (Ok k)) :: earlier /\
    quiet (approval_id r) later /\ expired_at now r = false /\ fresh earlier r.

Definition story (h : list Event) (r : ApprovalRecord) : Prop :=
  match status r with
  | ApprovalStatus.Pending => fresh h r
  | ApprovalStatus.Claimed => taken h r
  | _ => True
  end.

Record Inv (s : list Event * ApprovalRegistryState) : Prop := mkInv {
  inv_wf : bt_wf (approvals s.2);
  inv_story : forall id r, bt_get id (approvals s.2) = Some r -> approval_id r = id /\ story s.1 r;
  inv_size : length (approvals s.2) <= max_retained s.2 }.

(** ** Lemmas *)

Lemma quiet_cons e id h : ~ touches id e -> quiet id h -> quiet id (e :: h).
Proof. intros. by apply list.Forall_cons. Qed.

Lemma fresh_cons e h r : ~ touches (approval_id r) e -> fresh h r -> fresh (e :: h) r.
Proof.
  intros He (later & random & request & now & k & earlier & -> & Hq & Hc).
  exists (e :: later), random, request, now, k, earlier. split; [done|]. by split; [apply quiet_cons|].
Qed.

Lemma taken_cons e h r : ~ touches (approval_id r) e -> taken h r -> taken (e :: h) r.
Proof.
  intros He (later & now & k & earlier & -> & Hq & Hx & Hf).
  exists (e :: later), now, k, earlier. split; [done|]. by split; [apply quiet_cons|].
Qed.

Lemma story_cons e h r : ~ touches (approval_id r) e -> story h r -> story (e :: h) r.
Proof. intros He. unfold story. destruct (status r); try done; [by apply fresh_cons|by apply taken_cons]. Qed.

Lemma expire_id now r : approval_id (expire_if_needed now r) = approval_id r.
Proof. unfold expire_if_needed. by repeat case_match. Qed.

Lemma story_expire h now r : story h r -> story h (expire_if_needed now r).
Proof. unfold story, expire_if_needed. destruct (status r) eqn:E; try (by rewrite E). destruct (expired_at now r); [done|by rewrite E]. Qed.

(** A record that is still pending is the record itself, in time. *)
Lemma expire_pending now r : status (expire_if_needed now r) = ApprovalStatus.Pending ->
  expire_if_needed now r = r /\ expired_at now r = false /\ status r = ApprovalStatus.Pending.
Proof.
  unfold expire_if_needed. destruct (status r) eqn:E; try (by rewrite E). destruct (expired_at now r) eqn:Ex; [done|]. by rewrite E.
Qed.

Lemma expire_other now r : status (expire_if_needed now r) <> ApprovalStatus.Pending ->
  status (expire_if_needed now r) <> ApprovalStatus.Expired -> expire_if_needed now r = r.
Proof. unfold expire_if_needed. destruct (status r) eqn:E; try done. destruct (expired_at now r); [done|]. by rewrite E. Qed.

(** Pruning removes records and marks the expired ones. *)
Lemma prune_loop_get fuel limit l id r : bt_wf l -> bt_get id (prune_loop fuel limit l) = Some r -> bt_get id l = Some r.
Proof.
  revert l. induction fuel as [|fuel IH]; intros l Hw H; cbn [prune_loop] in H; [done|].
  case_match; [|done]. destruct (first_releasable None l) as [[key z]|]; [|done].
  apply IH in H; [|by apply bt_remove_wf]. rewrite bt_get_remove in H by done. by case_match.
Qed.

Lemma prune_loop_wf fuel limit l : bt_wf l -> bt_wf (prune_loop fuel limit l).
Proof.
  revert l. induction fuel as [|fuel IH]; intros l Hw; cbn [prune_loop]; [done|].
  case_match; [|done]. destruct (first_releasable None l) as [[key z]|]; [|done]. by apply IH, bt_remove_wf.
Qed.

Lemma remove_length {A : Type} k (l : btree A) : length (bt_remove k l) <= length l.
Proof. induction l as [|[k' v] l IH]; simpl; [done|]. case_match; simpl; lia. Qed.

Lemma prune_loop_length fuel limit l : length (prune_loop fuel limit l) <= length l.
Proof.
  revert l. induction fuel as [|fuel IH]; intros l; cbn [prune_loop]; [done|].
  case_match; [|done]. destruct (first_releasable None l) as [[key z]|]; [|done]. etrans; [apply IH|apply remove_length].
Qed.

Lemma expire_keys now (l : btree ApprovalRecord) :
  bt_keys ((fun kr => (kr.1, expire_if_needed now kr.2)) <$> l) = bt_keys l.
Proof. unfold bt_keys. by rewrite <- list_fmap_compose. Qed.

Lemma expire_get now (l : btree ApprovalRecord) id :
  bt_get id ((fun kr => (kr.1, expire_if_needed now kr.2)) <$> l) = expire_if_needed now <$> bt_get id l.
Proof. induction l as [|[k r] l IH]; [done|]. rewrite fmap_cons. simpl. by case_match. Qed.

Lemma prune_inv now h s : Inv (h, s) -> Inv (h, prune_releasable now s).
Proof.
  intros [Hw Hs Hl]. unfold prune_releasable. cbn zeta. cbn [fst snd] in *.
  assert (Hw' : bt_wf ((fun kr => (kr.1, expire_if_needed now kr.2)) <$> approvals s)) by (unfold bt_wf; by rewrite expire_keys).
  split; cbn [fst snd with_approvals approvals max_retained].
  - by apply prune_loop_wf.
  - intros id r Hr. apply prune_loop_get in Hr; [|done]. rewrite expire_get in Hr.
    destruct (bt_get id (approvals s)) as [r0|] eqn:E; [|done]. injection Hr as <-. destruct (Hs _ _ E) as [Hid Hst].
    rewrite expire_id. split; [done|by apply story_expire].
  - etrans; [apply prune_loop_length|]. by rewrite length_fmap.
Qed.

Lemma insert_present {A : Type} k (v w : A) l : bt_wf l -> bt_get k l = Some w -> length (bt_insert k v l) = length l.
Proof.
  unfold bt_wf. induction l as [|[k' v'] l IH]; simpl; [done|]. intros Hs Hg. apply StronglySorted_inv in Hs as [Hs Hf].
  destruct (String.eqb_spec k k') as [->|Hne].
  - by rewrite compare_refl.
  - destruct (String.compare k k') eqn:E; simpl; [done| |by rewrite IH].
    exfalso. rewrite bt_get_lt in Hg; [done|]. eapply list.Forall_impl; [exact Hf|]. intros k1 Hk1. by etrans.
Qed.

Lemma insert_length {A : Type} k (v : A) l : length (bt_insert k v l) <= S (length l).
Proof. induction l as [|[k' v'] l IH]; simpl; [done|]. case_match; simpl; lia. Qed.

(** ** The invariant *)

(** A step on the record of [id]: the event touches no other record, and what
    it does to this one continues its story. *)
Lemma record_inv now id nxt o h s :
  Inv (h, s) ->
  (forall a id', touches id' (mkEvent o now (Some a)) -> id' = id) ->
  (forall e, ~ touches id (mkEvent o now (Some (Err e)))) ->
  (forall r0 r', bt_get id (approvals s) = Some r0 -> nxt (expire_if_needed now r0) = Ok r' ->
     approval_id r' = id /\ story (mkEvent o now (Some (Ok (snapshot_of false r'))) :: h) r') ->
  (forall r, nxt r <> Panic /\ nxt r <> OutOfFuel) ->
  Inv (mkEvent o now (Some (on_record now id nxt s).1) :: h, (on_record now id nxt s).2).
Proof.
  intros [Hw Hs Hl] Ht He Hn Hp. unfold on_record. cbn [fst snd] in *.
  assert (Hother : forall a id' r, bt_get id' (approvals s) = Some r -> id' <> id ->
    approval_id r = id' /\ story (mkEvent o now (Some a) :: h) r).
  { intros a id' r Hr Hne. destruct (Hs _ _ Hr) as [Hid Hst]. split; [done|]. apply story_cons; [|done].
    intros Hto. apply Hne. rewrite <- Hid. by eapply Ht. }
  assert (Hput : forall a r0 r1, bt_get id (approvals s) = Some r0 -> approval_id r1 = id -> story (mkEvent o now (Some a) :: h) r1 ->
    Inv (mkEvent o now (Some a) :: h, with_approvals (bt_insert id r1 (approvals s)) s)).
  { intros a r0 r1 Hr0 Hid Hst. split; cbn [fst snd with_approvals approvals max_retained].
    - by apply bt_insert_wf.
    - intros id' r Hr. rewrite bt_get_insert in Hr. destruct (String.eqb_spec id' id) as [->|Hne]; [by injection Hr as <-|]. by apply Hother.
    - by erewrite insert_present. }
  destruct (bt_get id (approvals s)) as [r0|] eqn:E.
  - destruct (nxt (expire_if_needed now r0)) as [r'|e| |] eqn:En; cbn [fst snd].
    + destruct (Hn _ _ eq_refl En) as [Hid Hst]. by eapply Hput.
    + destruct (Hs _ _ E) as [Hid Hst]. eapply Hput; [done|by rewrite expire_id|].
      apply story_cons; [rewrite expire_id, Hid; apply He|by apply story_expire].
    + by destruct (Hp (expire_if_needed now r0)).
    + by destruct (Hp (expire_if_needed now r0)).
  - cbn [fst snd]. split; cbn [fst snd]; [done| |done]. intros id' r Hr. apply Hother; [done|]. intros ->. congruence.
Qed.

Lemma claim_inv now id token h s : Inv (h, s) ->
  Inv (mkEvent (ApprovalOp.Claim id token) now (Some (claim now id token s).1) :: h, (claim now id token s).2).
Proof.
  intros Hi. apply record_inv; [done| | | |].
  - intros a id' Ht. unfold touches in Ht. simpl in Ht. by destruct a.
  - by intros e Ht.
  - intros r0 r' Hr0 Hn. destruct (inv_story _ Hi _ _ Hr0) as [Hid Hst]. cbn [fst snd] in *. unfold claim_record in Hn.
    destruct (status (expire_if_needed now r0)) eqn:Es; try done. apply expire_pending in Es as (Hre & Hex & Hs0). rewrite Hre in Hn.
    destruct (String.eqb_spec (approval_token r0) token) as [<-|]; [|done]. injection Hn as <-. split; [done|].
    unfold story. cbn [claimed status]. unfold story in Hst. rewrite Hs0 in Hst. subst id.
    exists [], now, (snapshot_of false (claimed now r0)), h. split; [done|]. split; [by apply list.Forall_nil|]. by split.
  - intros r. unfold claim_record. by repeat case_match.
Qed.

(** Operations that touch no record. *)
Lemma calm_inv now id nxt o h s : Inv (h, s) -> (forall a id', ~ touches id' (mkEvent o now (Some a))) ->
  (forall r r', nxt r = Ok r' -> r' = r \/ approval_id r' = approval_id r /\ is_releasable r' = true) ->
  (forall r, nxt r <> Panic /\ nxt r <> OutOfFuel) ->
  Inv (mkEvent o now (Some (on_record now id nxt s).1) :: h, (on_record now id nxt s).2).
Proof.
  intros Hi Ht Hn Hp. apply record_inv; [done| |by intros|  |done].
  - intros a id' H. by destruct (Ht a id').
  - intros r0 r' Hr0 Hr'. destruct (inv_story _ Hi _ _ Hr0) as [Hid Hst]. cbn [fst snd] in *.
    destruct (Hn _ _ Hr') as [->|[Hid' Hrel]]; rewrite ?Hid', expire_id.
    + split; [done|]. apply story_cons; [apply Ht|by apply story_expire].
    + split; [done|]. unfold story. unfold is_releasable in Hrel. by destruct (status r').
Qed.

Lemma create_inv random now request h s : Inv (h, s) ->
  Inv (mkEvent (ApprovalOp.Create random request) now (Some (create random now request s).1) :: h, (create random now request s).2).
Proof.
  intros Hi. unfold create. apply (prune_inv now) in Hi. set (s1 := prune_releasable now s) in *. clearbody s1.
  assert (Hsame : forall a s2, approvals s2 = approvals s1 -> max_retained s2 = max_retained s1 -> (forall k, a <> Ok k) ->
    Inv (mkEvent (ApprovalOp.Create random request) now (Some a) :: h, s2)).
  { intros a s2 Ha Hm Hno. destruct Hi as [Hw Hs Hl]. cbn [fst snd] in *. split; cbn [fst snd]; rewrite ?Ha, ?Hm; [done| |done].
    intros id r Hr. destruct (Hs _ _ Hr) as [Hid Hst]. split; [done|]. apply story_cons; [|done]. unfold touches. cbn. destruct a as [a| | |]; [|by intros ?..].
    by destruct (Hno a). }
  destruct (max_retained s1 <=? length (approvals s1)) eqn:El; [by apply Hsame|]. apply Nat.leb_gt in El.
  set (ids := match req_id request with Some id => (id, s1) | None => _ end).
  assert (Hids : approvals ids.2 = approvals s1 /\ max_retained ids.2 = max_retained s1) by (unfold ids; by destruct (req_id request)).
  destruct ids as [id s2]. cbn [snd] in Hids. destruct Hids as [Ha Hm]. rewrite Ha.
  destruct (bt_contains_key id (approvals s1)) eqn:Ec; [by apply Hsame|].
  destruct (match req_token request with Some token => inl token | None => random end) as [token|message]; [|by apply Hsame].
  set (record := mkApproval id token _ _ _ _ _ _ _ _ _ _). destruct Hi as [Hw Hs Hl]. cbn [fst snd] in *.
  split; cbn [fst snd with_approvals approvals max_retained].
  - by apply bt_insert_wf.
  - intros id' r Hr. rewrite bt_get_insert in Hr. destruct (String.eqb_spec id' id) as [->|Hne].
    + injection Hr as <-. split; [done|]. exists [], random, request, now, (snapshot_of true record), h.
      split; [done|]. split; [by apply list.Forall_nil|]. done.
    + destruct (Hs _ _ Hr) as [Hid Hst]. split; [done|]. apply story_cons; [|done]. unfold touches. cbn. congruence.
  - rewrite Hm. pose proof (insert_length id record (approvals s1)). lia.
Qed.

Lemma release_inv id now h s : Inv (h, s) -> Inv (mkEvent (ApprovalOp.Release id) now None :: h, (release id s).2).
Proof.
  intros [Hw Hs Hl]. cbn [fst snd] in *. split; cbn [fst snd release with_approvals approvals max_retained].
  - by apply bt_remove_wf.
  - intros id' r Hr. rewrite bt_get_remove in Hr by done. destruct (String.eqb_spec id' id) as [->|Hne]; [done|].
    destruct (Hs _ _ Hr) as [Hid Hst]. split; [done|]. apply story_cons; [by intros []|done].
  - pose proof (remove_length id (approvals s)). lia.
Qed.

Lemma next_inv s o : Inv s -> Inv (next s o).
Proof.
  destruct s as [h s], o as [o now]. intros Hi. unfold next, run_op. cbn [fst snd].
  destruct o as [random request|id token|id v|id reason|id|id].
  - pose proof (create_inv random now request h s Hi). by destruct (create random now request s).
  - pose proof (claim_inv now id token h s Hi). by destruct (claim now id token s).
  - assert (H := calm_inv now id (complete_record now id v) (ApprovalOp.Complete id v) h s Hi).
    unfold complete. destruct (on_record _ _ _ _). apply H; [by intros [] ? []| |intros ?; unfold complete_record; by repeat case_match].
    intros r1 r2. unfold complete_record. destruct (status r1); try done. intros [= <-]. by right.
  - assert (H := calm_inv now id (reject_record now id reason) (ApprovalOp.Reject id reason) h s Hi).
    unfold reject. destruct (on_record _ _ _ _). apply H; [by intros [] ? []| |intros ?; unfold reject_record; by repeat case_match].
    intros r1 r2. unfold reject_record. destruct (status r1); try done; intros [= <-]; by right.
  - assert (H := calm_inv now id (fun r => Ok r) (ApprovalOp.Detail id) h s Hi).
    unfold detail. destruct (on_record _ _ _ _). apply H; [by intros [] ? []| |done]. intros r1 r2 [= <-]. by left.
  - by apply release_inv.
Qed.

Lemma run_inv limit ops : Inv (run limit ops).
Proof.
  unfold run. assert (H : Inv ([], with_max_retained limit)).
  { split; cbn; [constructor|done|lia]. }
  revert H. generalize ([] : list Event, with_max_retained limit). induction ops as [|o ops IH]; intros s Hs; [done|]. cbn [foldl].
  by apply IH, next_inv.
Qed.

Definition in_time (now : Z) (expires : option Z) : Prop := match expires with Some at_ => (now <= at_)%Z | None => True end.

Lemma not_expired now r : expired_at now r = false -> in_time now (expires_at_ms r).
Proof. unfold expired_at, in_time. destruct (expires_at_ms r); [|done]. intros H%Z.ltb_ge. done. Qed.

(** C15: whatever operations a registry has run, a completion that succeeds is
    of an operation that was created with a token, was then claimed with this
    very token before it expired, and since its creation was neither created
    again nor claimed a second time. *)
Theorem completion_authorised limit ops now id v snap :
  (complete now id v (run limit ops).2).1 = Ok snap ->
  exists since_claim claimed_at claim_snap since_creation random request created_at k earlier token,
    (run limit ops).1 = since_claim ++ mkEvent (ApprovalOp.Claim id token) claimed_at (Some (Ok claim_snap)) ::
                        since_creation ++ mkEvent (ApprovalOp.Create random request) created_at (Some (Ok k)) :: earlier /\
    quiet id since_claim /\ quiet id since_creation /\
    snap_token k = Some token /\ approval_id (snap_record k) = id /\
    in_time claimed_at (expires_at_ms (snap_record k)) /\
    operation (snap_record snap) = operation (snap_record k) /\ metadata (snap_record snap) = metadata (snap_record k).
Proof.
  pose proof (run_inv limit ops) as Hi. destruct (run limit ops) as [h s]. cbn [fst snd]. unfold complete, on_record.
  destruct (bt_get id (approvals s)) as [r|] eqn:E; [|done]. destruct (inv_story _ Hi _ _ E) as [Hid Hst]. cbn [fst] in Hst.
  unfold complete_record. destruct (status (expire_if_needed now r)) eqn:Es; try done.
  rewrite (expire_other now r) in * by (by rewrite Es). intros [= <-]. unfold story in Hst. rewrite Es in Hst.
  destruct Hst as (later & cnow & csnap & mid & -> & Hq & Hx & Hf).
  destruct Hf as (later' & random & request & know & k & earlier & -> & Hq' & (Hk1 & Hk2 & Hk3 & Hk4 & Hk5)).
  exists later, cnow, csnap, later', random, request, know, k, earlier, (approval_token r). rewrite Hid in *.
  split; [done|]. split; [done|]. split; [done|]. split; [done|]. split; [congruence|].
  split; [|done]. rewrite Hk5. by apply not_expired.
Qed.

Lemma create_limit random now request s : max_retained (create random now request s).2 = max_retained s.
Proof.
  unfold create. cbn zeta. change (max_retained s) with (max_retained (prune_releasable now s)).
  generalize (prune_releasable now s). intros s1. case_match; [done|].
  destruct (req_id request), (bt_contains_key _ _), (req_token request), random; done.
Qed.

Lemma record_limit now id nxt s : max_retained (on_record now id nxt s).2 = max_retained s.
Proof. unfold on_record. by repeat case_match. Qed.

Lemma next_limit s o : max_retained (next s o).2 = max_retained s.2.
Proof.
  destruct s as [h s], o as [o now]. unfold next, run_op. cbn [fst snd].
  destruct o as [random request|id token|id v|id reason|id|id]; [| | | | |done].
  - pose proof (create_limit random now request s). by destruct (create _ _ _ _).
  - pose proof (record_limit now id (claim_record now id token) s). unfold claim. by destruct (on_record _ _ _ _).
  - pose proof (record_limit now id (complete_record now id v) s). unfold complete. by destruct (on_record _ _ _ _).
  - pose proof (record_limit now id (reject_record now id reason) s). unfold reject. by destruct (on_record _ _ _ _).
  - pose proof (record_limit now id (fun r => Ok r) s). unfold detail. by destruct (on_record _ _ _ _).
Qed.

(** The registry never keeps more records than its limit. *)
Theorem registry_bounded limit ops : length (approvals (run limit ops).2) <= limit.
Proof.
  etrans; [apply (inv_size _ (run_inv limit ops))|].
  assert (Hr : forall s, max_retained (foldl next s ops).2 = max_retained s.2).
  { induction ops as [|o ops IH]; intros s; [done|]. cbn [foldl]. by rewrite IH, next_limit. }
  unfold run. by rewrite Hr.
Qed.

Definition sample_request : ApprovalCreateRequest := mkCreate (Some "a") (Some "t") (Value.String "op") Value.Nil (Some 10%Z) None.

Lemma completion_authorised_witness :
  let ops := [(ApprovalOp.Create (inl "x") sample_request, 5%Z); (ApprovalOp.Claim "a" "t", 15%Z)] in
  exists snap,
  (complete 99 "a" Value.Nil (run 4 ops).2).1 = Ok snap /\
  exists since_claim claimed_at claim_snap since_creation random request created_at k earlier token,
    (run 4 ops).1 = since_claim ++ mkEvent (ApprovalOp.Claim "a" token) claimed_at (Some (Ok claim_snap)) ::
                    since_creation ++ mkEvent (ApprovalOp.Create random request) created_at (Some (Ok k)) :: earlier /\
    quiet "a" since_claim /\ quiet "a" since_creation /\
    snap_token k = Some token /\ approval_id (snap_record k) = "a" /\
    in_time claimed_at (expires_at_ms (snap_record k)) /\
    operation (snap_record snap) = operation (snap_record k) /\ metadata (snap_record snap) = metadata (snap_record k).
Proof.
  intros ops. eexists. assert (H : (complete 99 "a" Value.Nil (run 4 ops).2).1
    = Ok (mkSnapshot None (mkApproval "a" "t" (Value.String "op") Value.Nil ApprovalStatus.Completed 5 (Some 15%Z) (Some 15%Z) (Some 99%Z)
            None (Some Value.Nil) None))) by (vm_compute; reflexivity).
  split; [exact H|]. exact (completion_authorised 4 ops 99 "a" Value.Nil _ H).
Defined.

(** Too late, and with another token. *)
Example claims_refused :
  (claim 16 "a" "t" (run 4 [(ApprovalOp.Create (inl "x") sample_request, 5%Z)]).2).1 = Err (ApprovalError.Expired "a") /\
  (claim 6 "a" "u" (run 4 [(ApprovalOp.Create (inl "x") sample_request, 5%Z)]).2).1 = Err ApprovalError.Denied.
Proof. vm_compute. done. Qed.
