(* ===== verification/Formatter.v ===== *)
(** * The formatter

    [crates/ricochet_syntax/src/formatter.rs].  The formatter only appends to
    its output, so each method of [Formatter] is the text it appends.  The
    text of a body is computed by [format_body_with] over the statement
    formatter, which closes the recursion. *)

From stdpp Require Import base tactics list strings option numbers.
From Stdlib Require Import ZArith NArith Lia Ascii String.
From S2P Require Import Prelude RustStr RustFloat Syntax Lexer Parser.

Open Scope string_scope.
Open Scope list_scope.
Open Scope nat_scope.

Definition INDENT : string := "  ".

Definition newline_str : string := String newline EmptyString.

(** ** Literals and argument lists *)

(** The escapes are ASCII, so the characters can be taken byte by byte. *)
Definition escape_byte (b : byte) : list byte :=
  if byte_eqb b backslash then [backslash; backslash]
  else if byte_eqb b quote then [backslash; quote]
  else if byte_eqb b newline then [backslash; "n"%char]
  else if byte_eqb b carriage_return then [backslash; "r"%char]
  else if byte_eqb b tab then [backslash; "t"%char]
  else [b].

Definition escape_string (value : string) : string :=
  from_bytes (flat_map escape_byte (as_bytes value)).

Definition quoted (value : string) : string :=
  String quote (escape_string value ++ String quote EmptyString).

Definition format_float_literal (value : f64) : string :=
  let formatted := show_f64 value in
  if contains_byte "." formatted || contains_byte "e" formatted || contains_byte "E" formatted
  then formatted else (formatted ++ ".0")%string.

Definition format_args (args : ArgsDecl) : string :=
  let parts := inputs args ++ match outputs args with [] => [] | outs => "->" :: outs end in
  ("( " ++ String.concat " " parts ++ " )")%string.

(** ** One line *)

Fixpoint format_expr_inline (e : Expr) : string :=
  let format_exprs_inline := fix format_exprs_inline (l : list SpannedExpr) : list string :=
    match l with
    | [] => []
    | mkSpanned e' _ :: l' => format_expr_inline e' :: format_exprs_inline l'
    end in
  match e with
  | Expr.Symbol word => word
  | Expr.DotWord word => word
  | Expr.Reference name => ("$" ++ name)%string
  | Expr.String value => quoted value
  | Expr.Number value => show_Z value
  | Expr.Float value => format_float_literal value
  | Expr.Args args => format_args args
  | Expr.Block body => ("[ " ++ String.concat " " (format_exprs_inline body) ++ " ]")%string
  | Expr.Sequence exprs => String.concat " " (format_exprs_inline exprs)
  | Expr.If _ _ => "if"
  | Expr.While _ _ => "while"
  end.

Definition format_exprs_inline (exprs : list SpannedExpr) : list string :=
  (fun e => format_expr_inline (expr e)) <$> exprs.

Definition is_inline_expr (e : Expr) : bool :=
  match e with
  | Expr.Symbol _ | Expr.DotWord _ | Expr.Reference _ | Expr.String _
  | Expr.Number _ | Expr.Float _ | Expr.Args _ => true
  | _ => false
  end.

Definition line (indent : nat) (text : string) : string :=
  (String.concat "" (repeat INDENT indent) ++ text ++ newline_str)%string.

(** ** Statements and bodies *)

Definition flush_inline (expressions : list SpannedExpr) (indent : nat) : string :=
  match expressions with
  | [] => ""
  | _ => line indent (String.concat " " (format_exprs_inline expressions))
  end.

(** [inline] holds the inline expressions not yet printed. *)
Definition format_body_with (format_statement : Expr -> nat -> string) : list SpannedExpr -> list SpannedExpr -> nat -> string :=
  fix format_body inline body indent :=
    match body with
    | [] => flush_inline inline indent
    | mkSpanned e s :: body' =>
        if is_inline_expr e then format_body (inline ++ [mkSpanned e s]) body' indent
        else (flush_inline inline indent ++ format_statement e indent ++ format_body [] body' indent)%string
    end.

Definition if_head (prefix : list SpannedExpr) : string :=
  match prefix with
  | [] => "if"
  | _ => (String.concat " " (format_exprs_inline prefix) ++ " if")%string
  end.

(** [format_if], from the texts of the bodies. *)
Definition format_if_with (prefix : list SpannedExpr) (then_text : string) (has_else : bool) (else_text : string) (indent : nat) : string :=
  (line indent (if_head prefix) ++ then_text
   ++ (if has_else then line indent "else" ++ else_text else "") ++ line indent "end")%string.

Definition is_nil {A : Type} (l : list A) : bool := match l with [] => true | _ => false end.

Fixpoint format_statement (e : Expr) (indent : nat) : string :=
  let format_body := fun body => format_body_with format_statement [] body in
  (* [format_sequence] where it is no block declaration *)
  let format_line := fix format_line (prefix exprs : list SpannedExpr) : string :=
    match exprs with
    | [] => line indent (String.concat " " (format_exprs_inline prefix))
    | [mkSpanned (Expr.If then_body else_body) _] =>
        format_if_with prefix (format_body then_body (S indent)) (negb (is_nil else_body))
          (format_body else_body (S indent)) indent
    | x :: exprs' => format_line (prefix ++ [x]) exprs'
    end in
  let format_declaration := fun head block name =>
    (line indent (head ++ "[") ++ format_body block (S indent)
     ++ line indent ("] " ++ format_expr_inline name ++ " Method"))%string in
  match e with
  | Expr.Sequence [mkSpanned (Expr.Block block) _; mkSpanned name _; mkSpanned (Expr.Symbol "Method") _] =>
      format_declaration "" block name
  | Expr.Sequence [mkSpanned (Expr.Args args) _; mkSpanned (Expr.Block block) _; mkSpanned name _; mkSpanned (Expr.Symbol "Method") _] =>
      format_declaration (format_args args ++ " ")%string block name
  | Expr.Sequence exprs => format_line [] exprs
  | Expr.If then_body else_body =>
      format_if_with [] (format_body then_body (S indent)) (negb (is_nil else_body))
        (format_body else_body (S indent)) indent
  | Expr.While condition body =>
      (line indent (String.concat " " (format_exprs_inline condition) ++ " while")
       ++ format_body body (S indent) ++ line indent "end")%string
  | Expr.Block body =>
      (line indent "[" ++ format_body body (S indent) ++ line indent "]")%string
  | other => line indent (format_expr_inline other)
  end.

Definition format_body (body : list SpannedExpr) (indent : nat) : string :=
  format_body_with format_statement [] body indent.

(** [format_if] and [format_sequence] as the code has them; [format_statement]
    follows them ([format_sequence_eq]). *)
Definition format_if (prefix then_body else_body : list SpannedExpr) (indent : nat) : string :=
  (line indent (if_head prefix) ++ format_body then_body (S indent)
   ++ (if negb (is_nil else_body) then line indent "else" ++ format_body else_body (S indent) else "")
   ++ line indent "end")%string.

Definition block_declaration (exprs : list SpannedExpr) : option (option ArgsDecl * list SpannedExpr * Expr) :=
  match exprs with
  | [mkSpanned (Expr.Block block) _; mkSpanned name _; mkSpanned (Expr.Symbol "Method") _] => Some (None, block, name)
  | [mkSpanned (Expr.Args args) _; mkSpanned (Expr.Block block) _; mkSpanned name _; mkSpanned (Expr.Symbol "Method") _] =>
      Some (Some args, block, name)
  | _ => None
  end.

Definition split_if_sequence (exprs : list SpannedExpr) : option (list SpannedExpr * list SpannedExpr * list SpannedExpr) :=
  match list.last exprs with
  | Some (mkSpanned (Expr.If then_body else_body) _) => Some (removelast exprs, then_body, else_body)
  | _ => None
  end.

Definition format_sequence (exprs : list SpannedExpr) (indent : nat) : string :=
  match block_declaration exprs with
  | Some (args, block, name) =>
      let prefix := match args with Some args => (format_args args ++ " ")%string | None => "" end in
      (line indent (prefix ++ "[") ++ format_body block (S indent)
       ++ line indent ("] " ++ format_expr_inline name ++ " Method"))%string
  | None =>
      match split_if_sequence exprs with
      | Some (prefix, then_body, else_body) => format_if prefix then_body else_body indent
      | None => line indent (String.concat " " (format_exprs_inline exprs))
      end
  end.

(** ** Items *)

Definition format_docs (docs : list string) (indent : nat) : string :=
  String.concat "" ((fun doc => line indent ("(( " ++ doc ++ " ))")) <$> docs).

Definition args_prefix (args : option ArgsDecl) : string :=
  match args with Some args => (format_args args ++ " ")%string | None => "" end.

Definition format_method (method : MethodDecl) (indent : nat) : string :=
  (line indent (args_prefix (method_args method) ++ method_name method ++ " Method")
   ++ format_body (method_body method) (S indent) ++ line indent "end")%string.

Definition format_macro (macro_decl : MacroDecl) (indent : nat) : string :=
  (line indent (quoted (macro_name macro_decl) ++ " Macro")
   ++ match macro_args macro_decl with Some args => line (S indent) (format_args args) | None => "" end
   ++ line (S indent) "[" ++ format_body (macro_body macro_decl) (S (S indent)) ++ line (S indent) "]"
   ++ line indent "end")%string.

Definition format_function (function : FunctionDecl) (indent : nat) : string :=
  (line indent (args_prefix (function_args function) ++ function_name function ++ " function")
   ++ format_body (function_body function) (S indent) ++ line indent "end")%string.

Fixpoint format_item (item : Item) (indent : nat) : string :=
  match item with
  | Item.Class (mkClass class_name superclass class_body class_docs _) =>
      (format_docs class_docs indent
       ++ line indent (class_name ++ " " ++ superclass ++ " Subclass")
       ++ String.concat "" ((fun item => format_item item (S indent)) <$> class_body)
       ++ line indent "end")%string
  | Item.Method method => (format_docs (method_docs method) indent ++ format_method method indent)%string
  | Item.Function function => (format_docs (function_docs function) indent ++ format_function function indent)%string
  | Item.Macro macro_decl => (format_docs (macro_docs macro_decl) indent ++ format_macro macro_decl indent)%string
  | Item.Expr e _ docs => (format_docs docs indent ++ format_statement e indent)%string
  end.

Definition format_items (module : Module_) : string :=
  String.concat newline_str ((fun item => format_item item 0) <$> items module).

(** Leaves one newline at the end; the bytes are in reverse. *)
Fixpoint drop_newlines (rev_output : list byte) : list byte :=
  match rev_output with
  | a :: ((b :: _) as rest) => if byte_eqb a newline && byte_eqb b newline then drop_newlines rest else rev_output
  | _ => rev_output
  end.

Definition finish (output : string) : string :=
  let rev_output := drop_newlines (reverse (as_bytes output)) in
  from_bytes (reverse match rev_output with
                      | b :: _ => if byte_eqb b newline then rev_output else newline :: rev_output
                      | [] => [newline]
                      end).

Definition format_module (module : Module_) : string := finish (format_items module).

Definition format_source (source : string) : res ParseError string :=
  let? module := parse_module source in Ok (format_module module).

Lemma format_if_eq then_body else_body indent :
  format_statement (Expr.If then_body else_body) indent = format_if [] then_body else_body indent.
Proof. done. Qed.

(** ** What the formatter loses

    An [if] that does not end its line, and any [if] or [while] in a block
    that is printed on one line, lose their bodies; a declaration name that is
    not one word is printed without its quotes; comments in bodies are not in
    the syntax tree. *)

Example drops_if_body : format_source "cond if 1 else 2 end x var" = Ok ("cond if x var" ++ newline_str)%string.
Proof. vm_compute. reflexivity. Qed.

Example drops_while_body : format_source "[ a while b end ] run" = Ok ("[ while ] run" ++ newline_str)%string.
Proof. vm_compute. reflexivity. Qed.

Definition spaced_name : string := (quoted "my word" ++ " function 1 end")%string.

Example unquotes_name :
  format_source spaced_name = Ok ("my word function" ++ newline_str ++ "  1" ++ newline_str ++ "end" ++ newline_str)%string.
Proof. vm_compute. reflexivity. Qed.

Example drops_body_comment : format_source "f function (( why )) 1 end" = format_source "f function 1 end".
Proof. vm_compute. reflexivity. Qed.
