(* ===== verification/Template.v ===== *)
(** * Web templates

    [crates/ricochet_web/src/template.rs].  A template is text with [{code}]
    expressions and directives, as [{%code if%}].  Rendering compiles the code
    of each with the compiler and runs it on a fresh machine whose variables
    are those of the context; what the run leaves in the variables goes back
    to the context.  The collections in the variables are shared, so the
    context carries the store of the machines too. *)

From stdpp Require Import base tactics list strings option numbers.
From Stdlib Require Import ZArith NArith Lia Ascii String.
From S2P Require Import Prelude RustStr RustText RustFloat BTree Syntax Lexer Parser Bytecode Compiler Macro Expander.
From S2P Require Import Value VmState Vm.

Open Scope string_scope.
Open Scope list_scope.
Open Scope nat_scope.

Definition TEMPLATE_INSTRUCTION_LIMIT : N := 10000.

Module EscapeMode.
Inductive EscapeMode : Type := Html | None.
End EscapeMode.
Abbreviation EscapeMode := EscapeMode.EscapeMode.

(** The [anyhow] errors: a message, an error of a callee with the message of
    its [with_context], or the [Debug] text of a value. *)
Module TemplateError.
Inductive TemplateError : Type :=
  | Message (m : msg)
  | Lexical (e : LexError)
  | Compile (m : msg) (e : CompileError)
  | Execute (m : msg) (e : VmError)
  | Condition (e : TruthinessError)
  | NotIterable (v : Value)
  | NotRenderable (v : Value).
End TemplateError.
Abbreviation TemplateError := TemplateError.TemplateError.

Abbreviation result := (res TemplateError).

Definition bail {A : Type} (m : msg) : result A := Err (TemplateError.Message m).

Local Set Warnings "-register-all".

Module TemplateNode.
Inductive TemplateNode : Type :=
  | Text (text : string)
  | Expression (expression : string)
  | Script (script : string)
  | If (condition : string) (then_nodes else_nodes : list TemplateNode)
  | Each (collection item_name : string) (body : list TemplateNode).
End TemplateNode.
Abbreviation TemplateNode := TemplateNode.TemplateNode.

Module StopDirective.
Inductive StopDirective : Type := Else | End_.
End StopDirective.
Abbreviation StopDirective := StopDirective.StopDirective.

Definition show_stop (stop : StopDirective) : string :=
  match stop with StopDirective.Else => "Else" | StopDirective.End_ => "End" end.

Module Directive.
Inductive Directive : Type :=
  | If (condition : string)
  | Each (collection item_name : string)
  | Script (source : string)
  | Else
  | End_.
End Directive.
Abbreviation Directive := Directive.Directive.

(** ** Where a brace may stand *)

Definition unclosed_tag_before (source open close : string) : bool :=
  match string_rfind open source with
  | Some open_index =>
      match string_rfind close source with Some close_index => close_index <? open_index | None => true end
  | None => false
  end.

(** The test of [Option]s: [None] is below every index. *)
Definition opened_after (last_open last_close : option nat) : bool :=
  match last_open, last_close with
  | Some i, Some j => j <? i
  | Some _, None => true
  | None, _ => false
  end.

Definition ensure_text_context (template : string) (open_index : nat) : result unit :=
  let? before := slice (as_bytes template) 0 open_index in
  let lower_before := to_ascii_lowercase before in
  if unclosed_tag_before lower_before "<script" "</script" then
    bail [Lit "template expressions are not allowed inside script blocks"]
  else if unclosed_tag_before lower_before "<style" "</style" then
    bail [Lit "template expressions are not allowed inside style blocks"]
  else if opened_after (string_rfind "<" before) (string_rfind ">" before) then
    bail [Lit "template expressions are not allowed inside HTML tags or attributes"]
  else Ok tt.

(** ** Directives *)

Definition is_code (t : Token) : bool :=
  match Syntax.kind t with
  | TokenKind.Newline | TokenKind.DocComment _ | TokenKind.Eof => false
  | _ => true
  end.

Definition directive_tokens (source : string) : result (list Token) :=
  let? tokens := rmap_err TemplateError.Lexical (lex source) in
  Ok (List.filter is_code tokens).

Definition valid_template_binding_name (name : string) : result bool :=
  if String.eqb name "" then Ok false
  else
    let? trimmed := trim name in
    if negb (String.eqb trimmed name) then Ok false
    else
      let? cs := chars name in
      Ok (negb (existsb is_control cs) && negb (existsb is_whitespace cs)).

(** [source[..span.start].trim()], which must not be empty. *)
Definition code_before (source : string) (t : Token) (message : msg) : result string :=
  let? before := slice (as_bytes source) 0 (start (tspan t)) in
  let? code := trim before in
  if String.eqb code "" then bail message else Ok code.

Definition unsupported_directive {A : Type} (source : string) : result A :=
  bail [Lit "unsupported template directive: "; Dbg source].

Definition parse_directive (source : string) : result Directive :=
  if String.eqb source "" || contains_byte "{" source then unsupported_directive source
  else if String.eqb source "else" then Ok Directive.Else
  else if String.eqb source "end" then Ok Directive.End_
  else
    let? tokens := directive_tokens source in
    match list.last tokens with
    | None => unsupported_directive source
    | Some t =>
        match Syntax.kind t with
        | TokenKind.Symbol word =>
            if String.eqb word "if" then
              let? condition := code_before source t [Lit "template if directive requires a condition before if"] in
              Ok (Directive.If condition)
            else if String.eqb word "do" then
              let? script := code_before source t [Lit "template do directive requires Ricochet code before do"] in
              Ok (Directive.Script script)
            else if String.eqb word "each" then
              if length tokens <? 3 then
                bail [Lit "template each directive requires collection expression and item name"]
              else
                let? item := index tokens (length tokens - 2) in
                let? item_name :=
                  match Syntax.kind item with
                  | TokenKind.String name =>
                      let? valid := valid_template_binding_name name in
                      if valid then Ok name
                      else bail [Lit "template each item name must be a non-empty variable name"]
                  | _ => bail [Lit "template each directive requires a string item name before each"]
                  end in
                let? collection := code_before source item
                  [Lit "template each directive requires a collection expression before item name"] in
                Ok (Directive.Each collection item_name)
            else unsupported_directive source
        | _ => unsupported_directive source
        end
    end.

(** ** Parsing *)

(** The two ways to leave [parse_nodes]: at a directive that closes a block,
    or at the end of the template. *)
Definition Parsed : Type := list TemplateNode * option StopDirective * nat.

(** [parse_nodes], with the nodes it has so far; each round, and each call
    inside a round, starts further to the right. *)
Fixpoint parse_nodes (fuel : nat) (template : string) (allow_stop : bool) (pos : nat) (nodes : list TemplateNode) : result Parsed :=
  match fuel with
  | O => OutOfFuel
  | S fuel' =>
      if negb (pos <? str_len template) then Ok (nodes, None, pos)
      else
        let? rest := slice (as_bytes template) pos (str_len template) in
        match string_find "{" rest, string_find "}" rest with
        | None, None => Ok (nodes ++ [TemplateNode.Text rest], None, str_len template)
        | None, Some _ => bail [Lit "unmatched closing template brace"]
        | Some open, close =>
            if match close with Some close => close <? open | None => false end then
              bail [Lit "unmatched closing template brace"]
            else
              let? nodes :=
                if 0 <? open then let? text := slice (as_bytes rest) 0 open in Ok (nodes ++ [TemplateNode.Text text])
                else Ok nodes in
              let open_index := pos + open in
              let? _ := ensure_text_context template open_index in
              let? here := slice (as_bytes template) open_index (str_len template) in
              if starts_with "{%" here then
                let directive_start := open_index + 2 in
                let? directive_rest := slice (as_bytes template) directive_start (str_len template) in
                match string_find "%}" directive_rest with
                | None => bail [Lit "unterminated template directive"]
                | Some directive_close =>
                    let directive_end := directive_start + directive_close in
                    let? text := slice (as_bytes template) directive_start directive_end in
                    let? text := trim text in
                    let? directive := parse_directive text in
                    let pos := directive_end + 2 in
                    match directive with
                    | Directive.If condition =>
                        let? (then_nodes, stop, pos) := parse_nodes fuel' template true pos [] in
                        match stop with
                        | Some StopDirective.Else =>
                            let? (else_nodes, stop, pos) := parse_nodes fuel' template true pos [] in
                            match stop with
                            | Some StopDirective.End_ =>
                                parse_nodes fuel' template allow_stop pos (nodes ++ [TemplateNode.If condition then_nodes else_nodes])
                            | Some StopDirective.Else => bail [Lit "template if block has more than one else"]
                            | None => bail [Lit "unterminated template if block"]
                            end
                        | Some StopDirective.End_ =>
                            parse_nodes fuel' template allow_stop pos (nodes ++ [TemplateNode.If condition then_nodes []])
                        | None => bail [Lit "unterminated template if block"]
                        end
                    | Directive.Each collection item_name =>
                        let? (body, stop, pos) := parse_nodes fuel' template true pos [] in
                        match stop with
                        | Some StopDirective.End_ =>
                            parse_nodes fuel' template allow_stop pos (nodes ++ [TemplateNode.Each collection item_name body])
                        | Some StopDirective.Else => bail [Lit "template each block does not support else"]
                        | None => bail [Lit "unterminated template each block"]
                        end
                    | Directive.Script source =>
                        parse_nodes fuel' template allow_stop pos (nodes ++ [TemplateNode.Script source])
                    | Directive.Else =>
                        if allow_stop then Ok (nodes, Some StopDirective.Else, pos)
                        else bail [Lit "unexpected template else directive"]
                    | Directive.End_ =>
                        if allow_stop then Ok (nodes, Some StopDirective.End_, pos)
                        else bail [Lit "unexpected template end directive"]
                    end
                end
              else
                let expression_start := open_index + 1 in
                let? expression_rest := slice (as_bytes template) expression_start (str_len template) in
                match string_find "}" expression_rest with
                | None => bail [Lit "unterminated template expression"]
                | Some expression_close =>
                    let expression_end := expression_start + expression_close in
                    let? text := slice (as_bytes template) expression_start expression_end in
                    let? expression := trim text in
                    if String.eqb expression "" || contains_byte "{" expression then
                      bail [Lit "unsupported template expression: "; Dbg expression]
                    else
                      parse_nodes fuel' template allow_stop (expression_end + 1) (nodes ++ [TemplateNode.Expression expression])
                end
        end
  end.

Definition parse_template (template : string) : result (list TemplateNode) :=
  let? (nodes, stop, _) := parse_nodes (S (str_len template)) template false 0 [] in
  match stop with
  | Some stop => bail [Lit "unexpected template directive "; Lit (show_stop stop)]
  | None => Ok nodes
  end.

(** ** Escaping *)

Definition escape_char (c : char) : list byte :=
  match c with
  | 38 => as_bytes "&amp;"
  | 60 => as_bytes "&lt;"
  | 62 => as_bytes "&gt;"
  | 34 => as_bytes "&quot;"
  | 39 => as_bytes "&#39;"
  | _ => encode_char c
  end%N.

Definition escape_html {E : Type} (input : string) : res E string :=
  let? cs := chars input in Ok (from_bytes (concat (escape_char <$> cs))).

Definition format_float (x : f64) : string :=
  let formatted := show_f64 x in
  if negb (is_finite x) then formatted
  else if contains_byte "." formatted || contains_byte "e" formatted || contains_byte "E" formatted then formatted
  else (formatted ++ ".0")%string.

Definition render_value (v : Value) : result string :=
  match v with
  | Value.Nil => Ok ""
  | Value.Bool b => Ok (if b then "true" else "false")
  | Value.Number n => Ok (show_Z n)
  | Value.Float x => Ok (format_float x)
  | Value.String s => Ok s
  | v => Err (TemplateError.NotRenderable v)
  end.

Definition render_escaped_value (v : Value) (escape : EscapeMode) : result string :=
  let? s := render_value v in
  match escape with EscapeMode.Html => escape_html s | EscapeMode.None => Ok s end.

Definition normalize_template_newlines (template : string) : string :=
  let cr := String "013" "" in
  let lf := String "010" "" in
  if contains_byte "013" template
  then String.concat lf (split_string cr (String.concat lf (split_string (cr ++ lf)%string template)))
  else template.

(** ** Evaluation *)

Record TemplateContext : Type := mkContext { variables : btree Value; store : heap }.

(** The body of the loop over the items of an [each] block. *)
Definition bind_item (item_name : string) (item : Value) (c : TemplateContext) : TemplateContext :=
  mkContext (bt_insert item_name item (variables c)) (store c).

(** The item's name as it was before the block. *)
Definition restore_item (item_name : string) (previous : option Value) (c : TemplateContext) : TemplateContext :=
  mkContext (match previous with
             | Some v => bt_insert item_name v (variables c)
             | None => bt_remove item_name (variables c)
             end) (store c).

Abbreviation T := (stm TemplateContext TemplateError).

Section render.
Context `{Sha256}.
Variables (host_word : string -> VM unit) (host_method : Value -> string -> VM Value).

(** [Vm::default()] with the instruction limit and the variables set; the
    cells the variables refer to exist already. *)
Definition template_vm (c : TemplateContext) : Vm :=
  let limited := mkConfig (Some TEMPLATE_INSTRUCTION_LIMIT) false false false false false false false in
  foldl (fun s nv => set_scopes (bt_insert nv.1 nv.2 (VmState.variables s)) (local_variables s) s)
    (mkVm [] [] [] [] [] [] None [] [] [] 0 None [] (store c) limited) (variables c).

(** Compiling and running a piece of code, up to the look at the stack. *)
Definition run_template_code (compile_context execute_context : msg) (code : string) (c : TemplateContext) : result Vm :=
  let? chunk := rmap_err (TemplateError.Compile compile_context) (compile_source "<template>" "<template>" code []) in
  match run_chunk host_word host_method (S (N.to_nat TEMPLATE_INSTRUCTION_LIMIT)) chunk (template_vm c) with
  | Val _ vm => Ok vm
  | Exn e _ => Err (TemplateError.Execute execute_context e)
  | Crash => Panic
  | NoFuel => OutOfFuel
  end.

Definition context_after (vm : Vm) : TemplateContext := mkContext (VmState.variables vm) (VmState.store vm).

Definition evaluate_expression (expression : string) : T Value := fun c =>
  let? vm := run_template_code [Lit "failed to compile template expression "; Dbg expression]
               [Lit "failed to execute template expression "; Dbg expression] expression c in
  match stack vm with
  | [v] => Ok (v, context_after vm)
  | st => bail [Lit "template expression "; Dbg expression; Lit " must leave exactly one value, left ";
                DispN (N.of_nat (length st))]
  end.

Definition evaluate_script (script : string) : T unit := fun c =>
  let? vm := run_template_code [Lit "failed to compile template script block "; Dbg script]
               [Lit "failed to execute template script block "; Dbg script] script c in
  match stack vm with
  | [] => Ok (tt, context_after vm)
  | st => bail [Lit "template script block "; Dbg script; Lit " must leave no values, left "; DispN (N.of_nat (length st))]
  end.

(** An entry of a map, as a map of its own. *)
Fixpoint entry_items (entries : btree Value) (h : heap) : list Value * heap :=
  match entries with
  | [] => ([], h)
  | (key, value) :: entries' =>
      let '(l, h) := alloc (CMap (bt_insert "value" value (bt_insert "key" (Value.String key) []))) h in
      let '(items, h) := entry_items entries' h in
      (Value.Map l :: items, h)
  end.

Definition template_each_items (collection : Value) : T (list Value) := fun c =>
  match collection with
  | Value.Array l | Value.List l | Value.Set_ l => Ok (snapshot (store c) l, c)
  | Value.Map l =>
      let '(items, h) := entry_items (map_snapshot (store c) l) (store c) in
      Ok (items, mkContext (variables c) h)
  | v => Err (TemplateError.NotIterable v)
  end.

(** [for item in items { .. }], with what it has rendered so far. *)
Fixpoint render_each (item_name : string) (body : T string) (items : list Value) (rendered : string) : T string :=
  match items with
  | [] => sret rendered
  | item :: items' =>
      smodify (bind_item item_name item) ;;
      let* text := body in
      render_each item_name body items' (rendered ++ text)%string
  end.

(** The texts of nodes, one after the other. *)
Definition render_list (render_node : TemplateNode -> T string) : list TemplateNode -> T string :=
  fix go (nodes : list TemplateNode) : T string :=
    match nodes with
    | [] => sret ""
    | node :: nodes' => let* first := render_node node in let* rest := go nodes' in sret (first ++ rest)%string
    end.

Fixpoint render_node (escape : EscapeMode) (node : TemplateNode) : T string :=
  match node with
  | TemplateNode.Text text => sret text
  | TemplateNode.Expression expression =>
      let* v := evaluate_expression expression in slift (render_escaped_value v escape)
  | TemplateNode.Script script => evaluate_script script ;; sret ""
  | TemplateNode.If condition then_nodes else_nodes =>
      let* v := evaluate_expression condition in
      let* c := sget in
      let* truthy := slift (rmap_err TemplateError.Condition (truthy_for_condition (store c) v)) in
      if truthy : bool then render_list (render_node escape) then_nodes else render_list (render_node escape) else_nodes
  | TemplateNode.Each collection item_name body =>
      let* v := evaluate_expression collection in
      let* items := template_each_items v in
      let* c := sget in
      let previous := bt_get item_name (variables c) in
      let* rendered := render_each item_name (render_list (render_node escape) body) items "" in
      smodify (restore_item item_name previous) ;;
      sret rendered
  end.

Definition render_nodes (nodes : list TemplateNode) (escape : EscapeMode) : T string :=
  render_list (render_node escape) nodes.

(** The context starts with the data, and only its store outlives the call. *)
Definition render_template (template : string) (data : btree Value) (escape : EscapeMode) (h : heap) : result (string * heap) :=
  let template := normalize_template_newlines template in
  let? nodes := parse_template template in
  let? (rendered, c) := render_nodes nodes escape (mkContext data h) in
  Ok (rendered, store c).
End render.

(** ** Examples *)

#[local] Instance no_hash : Sha256 := fun _ => [].

Definition no_words (w : string) : VM unit := vfail (VmError.UnknownWord w).
Definition no_methods (v : Value) (m : string) : VM Value := vfail (VmError.UnknownMethod (value_kind v) m).

Definition rendered (template : string) (data : btree Value) : option string :=
  match render_template no_words no_methods (quoted template) data EscapeMode.Html [] with
  | Ok (text, _) => Some text
  | _ => None
  end.

Example renders_escaped :
  rendered "<h1>{ title get }</h1>" [("title", Value.String "a <b> & c")] = Some "<h1>a &lt;b&gt; &amp; c</h1>".
Proof. vm_compute. reflexivity. Qed.

Example renders_blocks :
  rendered "{% 3 ~n~ var do %}{% n get 2 > if %}<b>{ n get }</b>{% else %}few{% end %}" [] = Some "<b>3</b>".
Proof. vm_compute. reflexivity. Qed.

Example renders_each :
  rendered "{% ~a,<~ ~,~ split ~x~ each %}<i>{ x get }</i>{% end %}" [] = Some "<i>a</i><i>&lt;</i>".
Proof. vm_compute. reflexivity. Qed.

Example refuses_attribute : rendered "<a href={ u get }>" [("u", Value.String "x")] = None.
Proof. vm_compute. reflexivity. Qed.
