(* ===== verification/TemplateProofs.v ===== *)
(** * Values are inserted where text may stand

    The parser of templates accepts braces only outside of tags, scripts and
    styles of the template; [insertions_in_text] shows that this carries over
    to what is rendered: whatever the data, however the blocks are taken and
    repeated, every inserted value stands in a text context of the output and
    has no markup of its own. *)

From stdpp Require Import base tactics list strings option numbers.
From Stdlib Require Import ZArith NArith Lia Ascii String.
From S2P Require Import Prelude RustStr RustText RustFloat BTree Syntax Lexer Parser LexerProofs Diagnostic.
From S2P Require Import Bytecode Compiler Macro Expander ExpanderProofs Layout CompilerProofs CodeSafety.
From S2P Require Import Value VmState Vm VmFrames Template.

Open Scope string_scope.
Open Scope list_scope.
Open Scope nat_scope.

(** ** Text contexts *)

(** Every [open] of [l] is followed by a [close]. *)
Definition closed (open close : string) (l : list byte) : Prop :=
  forall i, occurs (as_bytes open) l i -> exists j, i <= j /\ occurs (as_bytes close) l j.

Definition lower_byte (b : byte) : byte := if is_ascii_uppercase b then ascii_of_N (byte_val b + 32) else b.

Lemma lower_bytes s : as_bytes (to_ascii_lowercase s) = lower_byte <$> as_bytes s.
Proof. unfold to_ascii_lowercase. apply as_from_bytes. Qed.

(** A value may be inserted at the end of the text: every tag is closed, every
    script and style has its closing tag. *)
Definition in_text (l : list byte) : Prop :=
  closed "<" ">" l /\ closed "<script" "</script" (lower_byte <$> l) /\ closed "<style" "</style" (lower_byte <$> l).

Lemma unclosed_spec open close s : open <> "" -> close <> "" ->
  opened_after (string_rfind open s) (string_rfind close s) = false <-> closed open close (as_bytes s).
Proof.
  intros Ho Hc. unfold opened_after, closed.
  destruct (string_rfind open s) as [i|] eqn:Ei; [destruct (string_rfind close s) as [j|] eqn:Ej|].
  - rewrite Nat.ltb_ge. split.
    + intros Hij k Hk. exists j. split; [|by apply rfind_occurs].
      destruct (rfind_last open s k Ho Hk) as (i' & Hi' & ?). simplify_eq. lia.
    + intros H. destruct (H i (rfind_occurs _ _ _ Ei)) as (k & ? & Hk).
      destruct (rfind_last close s k Hc Hk) as (j' & Hj' & ?). simplify_eq. lia.
  - split; [done|]. intros H. destruct (H i (rfind_occurs _ _ _ Ei)) as (k & _ & Hk).
    by destruct (rfind_none _ _ Hc Ej k).
  - split; [|done]. intros _ k Hk. by destruct (rfind_none _ _ Ho Ei k).
Qed.

Lemma unclosed_tag_spec open close s : open <> "" -> close <> "" ->
  unclosed_tag_before s open close = false <-> closed open close (as_bytes s).
Proof. apply unclosed_spec. Qed.

Lemma ensure_spec template i :
  ensure_text_context template i = Ok tt <->
  exists before, slice (E:=TemplateError) (as_bytes template) 0 i = Ok before /\ in_text (as_bytes before).
Proof.
  unfold ensure_text_context, in_text. rewrite rbind_Ok. f_equiv. intros before. f_equiv.
  rewrite <- lower_bytes, <- !unclosed_tag_spec by done.
  change (opened_after (string_rfind "<" before) (string_rfind ">" before)) with (unclosed_tag_before before "<" ">").
  destruct (unclosed_tag_before _ "<script" _), (unclosed_tag_before _ "<style" _), (unclosed_tag_before before "<" ">");
    naive_solver.
Qed.

(** ** Neutral texts *)

Definition neutral (l : list byte) : Prop := forall before, in_text before -> in_text (before ++ l).

Lemma lower_less b : lower_byte b = "<"%char -> b = "<"%char.
Proof. destruct b as [[] [] [] [] [] [] [] []]; vm_compute; congruence. Qed.

(** An occurrence in [before ++ l] is in [before], in [l], or has an end of
    [before] without a [>] after its [<]. *)
Lemma occurs_parts open' before l i :
  existsb (Ascii.eqb ">") (as_bytes open') = false -> closed "<" ">" before ->
  occurs (as_bytes (String "<" open')) (lower_byte <$> (before ++ l)) i ->
  occurs (as_bytes (String "<" open')) (lower_byte <$> before) i
  \/ length before <= i /\ occurs (as_bytes (String "<" open')) (lower_byte <$> l) (i - length before).
Proof.
  intros Hn Hb Ho. rewrite fmap_app in Ho.
  destruct (decide (length before <= i)) as [Hi|Hi].
  - right. split; [done|]. apply occurs_app_r in Ho; rewrite length_fmap in *; done.
  - left. pose proof (Ho 0 _ eq_refl) as H0. rewrite lookup_app_l in H0 by (rewrite length_fmap; lia).
    rewrite Nat.add_0_r, list_lookup_fmap, fmap_Some in H0. destruct H0 as (b & Hb0 & ->%eq_sym%lower_less).
    destruct (Hb i) as (j & Hij & Hj).
    { intros [|k] c Hk; [|discriminate Hk]. injection Hk as <-. by rewrite Nat.add_0_r. }
    specialize (Hj 0 _ eq_refl). rewrite Nat.add_0_r in Hj. pose proof (lookup_lt_Some _ _ _ Hj) as Hjl.
    intros k c Hk. destruct (decide (i + k < length before)) as [Hik|Hik].
    { specialize (Ho k c Hk). by rewrite lookup_app_l in Ho by (rewrite length_fmap; lia). }
    exfalso. assert (Hkl : k < length (as_bytes (String "<" open'))) by (by eapply lookup_lt_Some).
    destruct (lookup_lt_is_Some_2 (as_bytes (String "<" open')) (j - i) ltac:(lia)) as [d Hd].
    pose proof (Ho _ _ Hd) as Hod. replace (i + (j - i)) with j in Hod by lia.
    rewrite lookup_app_l, list_lookup_fmap, Hj in Hod by (rewrite length_fmap; lia). injection Hod as <-.
    destruct (j - i) as [|m] eqn:Em; [by vm_compute in Hd|].
    change (as_bytes open' !! m = Some (lower_byte ">")) in Hd.
    eapply not_true_iff_false; [exact Hn|]. apply existsb_exists. exists ">"%char.
    split; [apply list_elem_of_In; by eapply list_elem_of_lookup_2|done].
Qed.

Lemma tag_neutral open' close p l before :
  existsb (Ascii.eqb ">") (as_bytes open') = false ->
  closed (String "<" open') close (lower_byte <$> (p ++ l)) ->
  closed "<" ">" before -> closed (String "<" open') close (lower_byte <$> before) ->
  closed (String "<" open') close (lower_byte <$> (before ++ l)).
Proof.
  intros Hn Hp Ha Hb i Ho. destruct (occurs_parts open' before l i Hn Ha Ho) as [H|[Hi H]].
  - destruct (Hb i H) as (j & Hij & Hj). exists j. split; [done|]. rewrite fmap_app. by apply occurs_app_l.
  - destruct (Hp (length p + (i - length before))) as (j & Hij & Hj).
    { rewrite fmap_app. apply occurs_app_r; rewrite length_fmap; [lia|].
      by replace (length p + (i - length before) - length p) with (i - length before) by lia. }
    rewrite fmap_app in Hj. apply occurs_app_r in Hj; [|rewrite length_fmap; lia]. rewrite length_fmap in Hj.
    exists (j - length p + length before). split; [lia|]. rewrite fmap_app. apply occurs_app_r; rewrite length_fmap; [lia|].
    by replace (j - length p + length before - length before) with (j - length p) by lia.
Qed.

(** The text between two accepted braces is neutral, whatever stands before it. *)
Lemma neutral_between p l : in_text (p ++ l) -> neutral l.
Proof.
  intros (H1 & H2 & H3) before (B1 & B2 & B3). repeat split.
  - intros i Ho. destruct (decide (length before <= i)) as [Hi|Hi].
    + apply occurs_app_r in Ho; [|done]. destruct (H1 (length p + (i - length before))) as (j & Hij & Hj).
      { apply occurs_app_r; [lia|]. by replace (length p + (i - length before) - length p) with (i - length before) by lia. }
      apply occurs_app_r in Hj; [|lia]. exists (j - length p + length before). split; [lia|].
      apply occurs_app_r; [lia|]. by replace (j - length p + length before - length before) with (j - length p) by lia.
    + destruct (B1 i) as (j & Hij & Hj).
      { intros [|k] c Hk; [|discriminate Hk]. specialize (Ho 0 c Hk). by rewrite lookup_app_l in Ho by lia. }
      exists j. split; [done|]. by apply occurs_app_l.
  - by eapply tag_neutral.
  - by eapply tag_neutral.
Qed.

(** The characters of markup that [escape_html] replaces besides [&]. *)
Definition markup (b : byte) : bool := existsb (Ascii.eqb b) ["<"; ">"; "034"; "039"]%char.

Definition plain (l : list byte) : Prop := Forall (fun b => markup b = false) l.

Lemma plain_no_tag open' l i : plain l -> ~ occurs (as_bytes (String "<" open')) (lower_byte <$> l) i.
Proof.
  intros Hp Ho. specialize (Ho 0 _ eq_refl). rewrite list_lookup_fmap, fmap_Some in Ho.
  destruct Ho as (b & Hb & ->%eq_sym%lower_less). eapply list.Forall_lookup_1 in Hb; [|exact Hp]. discriminate Hb.
Qed.

(** A text without markup is neutral. *)
Lemma plain_neutral l : plain l -> neutral l.
Proof.
  intros Hp. apply (neutral_between []). cbn [app]. split; [|split].
  - intros i Ho. exfalso. specialize (Ho 0 _ eq_refl).
    eapply list.Forall_lookup_1 in Ho; [|exact Hp]. discriminate Ho.
  - intros i Ho. by destruct (plain_no_tag _ _ _ Hp Ho).
  - intros i Ho. by destruct (plain_no_tag _ _ _ Hp Ho).
Qed.

Lemma neutral_app a b : neutral a -> neutral b -> neutral (a ++ b).
Proof. intros Ha Hb before H. rewrite app_assoc. by apply Hb, Ha. Qed.

Lemma in_text_nil : in_text [].
Proof. split; [|split]; intros i Ho; specialize (Ho 0 _ eq_refl); discriminate Ho. Qed.

(** ** Escaping *)

Lemma markup_cases b : markup b = true -> (byte_val b = 60 \/ byte_val b = 62 \/ byte_val b = 34 \/ byte_val b = 39)%N.
Proof. unfold markup. simpl. rewrite !orb_true_iff, !Ascii.eqb_eq. intros [->|[->|[->|[->|[=]]]]]; vm_compute; tauto. Qed.

Lemma markup_low b : (128 <= byte_val b)%N -> markup b = false.
Proof. intros Hb. destruct (markup b) eqn:E; [|done]. apply markup_cases in E. lia. Qed.

(** The five characters that are replaced, and their replacements. *)
Definition entities : list (list byte * byte) :=
  [(as_bytes "&amp;", "&"); (as_bytes "&lt;", "<"); (as_bytes "&gt;", ">"); (as_bytes "&quot;", "034"); (as_bytes "&#39;", "039")]%char.

Definition escaped (c : char) : Prop := (c = 38 \/ c = 60 \/ c = 62 \/ c = 34 \/ c = 39)%N.

Lemma escape_other c : ~ escaped c -> escape_char c = encode_char c.
Proof.
  unfold escaped. intros H. unfold escape_char.
  destruct c as [|p]; [done|]. do 6 (destruct p as [p|p|]; try done); exfalso; apply H; tauto.
Qed.

(** The bytes of a character: itself, or none that is ASCII. *)
Lemma encode_bytes c : scalar c ->
  ((c < 128)%N /\ encode_char c = [ascii_of_N c]) \/ Forall (fun b => (128 <= byte_val b)%N) (encode_char c).
Proof.
  intros Hs. destruct (encode_char_cases c Hs) as [H|[(b0 & b1 & H & _ & ->)|[(b0 & b1 & b2 & H & _ & ->)|(b0 & b1 & b2 & b3 & H & _ & ->)]]];
    [by left|right..]; unfold ok2, ok3, ok4, is_cont in H; rewrite ?andb_true_iff, ?byte_between_spec in H;
    repeat (apply list.Forall_cons; split; [lia|]); apply list.Forall_nil; done.
Qed.

Lemma escape_char_plain c : scalar c -> plain (escape_char c).
Proof.
  intros Hs. destruct (decide (escaped c)) as [H|H].
  - destruct H as [->|[->|[->|[->| ->]]]]; vm_compute; repeat constructor.
  - rewrite escape_other by done. destruct (encode_bytes c Hs) as [[Hc ->]|Hb].
    + apply list.Forall_cons; split; [|by apply list.Forall_nil]. destruct (markup (ascii_of_N c)) eqn:E; [|done].
      apply markup_cases in E. rewrite byte_val_of in E by lia. exfalso. apply H. unfold escaped. tauto.
    + eapply list.Forall_impl; [exact Hb|]. intros b. apply markup_low.
Qed.

Lemma escape_html_plain {E : Type} s t : escape_html (E:=E) s = Ok t -> plain (as_bytes t).
Proof.
  unfold escape_html. intros (cs & Hcs & [= <-])%rbind_Ok. rewrite as_from_bytes.
  unfold chars in Hcs. destruct (utf8_chars (as_bytes s)) as [cs'|] eqn:Eu; [|done]. injection Hcs as ->.
  apply utf8_chars_scalar in Eu. induction Eu as [|c cs Hc _ IH]; [by apply list.Forall_nil|].
  rewrite fmap_cons. cbn [concat]. apply list.Forall_app. split; [by apply escape_char_plain|done].
Qed.

(** What a browser reads: each entity is the character it names. *)
Fixpoint strip (prefix l : list byte) : option (list byte) :=
  match prefix, l with
  | [], _ => Some l
  | a :: prefix', b :: l' => if Ascii.eqb a b then strip prefix' l' else None
  | _, _ => None
  end.

Definition entity_at (l : list byte) : option (byte * list byte) :=
  head (omap (fun nb => pair nb.2 <$> strip nb.1 l) entities).

Fixpoint read_entities (fuel : nat) (l : list byte) : list byte :=
  match fuel, l with
  | S fuel', b :: l' =>
      match entity_at l with
      | Some (c, rest) => c :: read_entities fuel' rest
      | None => b :: read_entities fuel' l'
      end
  | _, _ => []
  end.

Lemma entity_escaped c l : escaped c ->
  entity_at (escape_char c ++ l) = Some (ascii_of_N c, l) /\ encode_char c = [ascii_of_N c] /\
  exists b r, escape_char c = b :: r.
Proof. intros [->|[->|[->|[->| ->]]]]; (split; [|split; [done|by eexists _, _]]); reflexivity. Qed.

Lemma entity_none b l : b <> "&"%char -> entity_at (b :: l) = None.
Proof.
  intros Hb. assert (H : forall p, strip (as_bytes (String "&" p)) (b :: l) = None).
  { intros p. change (as_bytes (String "&" p)) with ("&"%char :: as_bytes p). cbn [strip].
    assert (Ascii.eqb "&" b = false) as -> by (apply Ascii.eqb_neq; congruence). done. }
  unfold entity_at, entities. cbn [omap list_omap fst snd]. by rewrite !H.
Qed.

Lemma read_other e l fuel : Forall (fun b => b <> "&"%char) e -> length (e ++ l) <= fuel ->
  read_entities fuel (e ++ l) = e ++ read_entities (fuel - length e) l.
Proof.
  intros He. revert fuel. induction He as [|b e Hb _ IH]; intros fuel Hf; [by rewrite Nat.sub_0_r|].
  destruct fuel as [|fuel]; [simpl in Hf; lia|]. cbn [app read_entities length]. rewrite entity_none by done.
  f_equal. apply IH. simpl in Hf. lia.
Qed.

Lemma read_chars cs fuel : Forall scalar cs -> length (concat (escape_char <$> cs)) <= fuel ->
  read_entities fuel (concat (escape_char <$> cs)) = encode cs.
Proof.
  intros Hs. revert fuel. induction Hs as [|c cs Hc _ IH]; intros fuel Hf; [by destruct fuel|].
  rewrite fmap_cons in *. cbn [concat] in *. unfold encode. rewrite fmap_cons. cbn [concat]. fold (encode cs).
  destruct (decide (escaped c)) as [He|He].
  - destruct (entity_escaped c (concat (escape_char <$> cs)) He) as (Ha & -> & b & r & Hb).
    rewrite Hb in *. cbn [app length] in Hf. destruct fuel as [|fuel]; [lia|]. cbn [app read_entities]. cbn [app] in Ha. rewrite Ha.
    cbn [app]. f_equal. apply IH. rewrite length_app in Hf. lia.
  - rewrite escape_other in * by done. rewrite read_other; [|destruct (encode_bytes c Hc) as [[Hl ->]|Hb]|done].
    + f_equal. apply IH. rewrite length_app in Hf. lia.
    + apply list.Forall_cons. split; [|by apply list.Forall_nil]. intros E. apply He. left.
      rewrite <- (byte_val_of c) by lia. by rewrite E.
    + eapply list.Forall_impl; [exact Hb|]. intros b Hl ->. by vm_compute in Hl.
Qed.

(** Escaped text has no markup left, and reads as the text that was escaped. *)
Theorem escape_html_reads s : utf8 (as_bytes s) ->
  exists t, escape_html (E:=TemplateError) s = Ok t /\ plain (as_bytes t) /\
    from_bytes (read_entities (str_len t) (as_bytes t)) = s.
Proof.
  intros [cs Hcs]. exists (from_bytes (concat (escape_char <$> cs))).
  assert (He : escape_html (E:=TemplateError) s = Ok (from_bytes (concat (escape_char <$> cs)))).
  { unfold escape_html, chars. by rewrite Hcs. }
  split; [done|]. split; [by eapply escape_html_plain|].
  rewrite str_len_bytes, as_from_bytes, read_chars; [|by eapply utf8_chars_scalar|done].
  rewrite (utf8_chars_encode _ _ Hcs). apply from_as_bytes.
Qed.

Lemma escape_html_reads_witness :
  let s := "<a href='x'> & é" in
  utf8 (as_bytes s) /\
  exists t, escape_html (E:=TemplateError) s = Ok t /\ plain (as_bytes t) /\ from_bytes (read_entities (str_len t) (as_bytes t)) = s.
Proof.
  intros s. assert (Hu : utf8 (as_bytes s)) by (eexists; vm_compute; reflexivity).
  split; [exact Hu|]. exact (escape_html_reads s Hu).
Defined.

(** ** Parsing *)

(** Texts are neutral, except for a last one after which no brace stands; code
    is UTF-8. *)
Inductive good : TemplateNode -> Prop :=
  | good_text text : neutral (as_bytes text) -> good (TemplateNode.Text text)
  | good_expression code : utf8 (as_bytes code) -> good (TemplateNode.Expression code)
  | good_script code : utf8 (as_bytes code) -> good (TemplateNode.Script code)
  | good_if code thens elses : utf8 (as_bytes code) -> Forall good thens -> Forall good elses ->
      good (TemplateNode.If code thens elses)
  | good_each code item body : utf8 (as_bytes code) -> Forall good body -> good (TemplateNode.Each code item body).

Definition good_directive (d : Directive) : Prop :=
  match d with
  | Directive.If code | Directive.Each code _ | Directive.Script code => utf8 (as_bytes code)
  | Directive.Else | Directive.End_ => True
  end.

Lemma settles_slice {E : Type} l a b : utf8 l -> a <= b -> b <= length l ->
  is_char_boundary l a = true -> is_char_boundary l b = true ->
  settles (slice (E:=E) l a b) (fun s => as_bytes s = take (b - a) (drop a l) /\ utf8 (as_bytes s)).
Proof. intros Hu H1 H2 H3 H4. destruct (slice_utf8 (E:=E) l a b) as [-> Hs]; [done..|]. simpl. by rewrite as_from_bytes. Qed.

Lemma settles_trim {E : Type} s : utf8 (as_bytes s) -> settles (trim (E:=E) s) (fun t => utf8 (as_bytes t)).
Proof.
  intros [cs Hcs]. unfold trim, chars. rewrite Hcs. simpl. rewrite as_from_bytes.
  eexists. apply utf8_encode. apply utf8_chars_scalar in Hcs.
  assert (Hd : forall p l, Forall scalar l -> Forall scalar (drop_while p l)).
  { intros p l. induction 1 as [|c l Hc Hl IH]; simpl; [by apply list.Forall_nil|]. case_match; [done|]. by apply list.Forall_cons. }
  unfold trim_end_chars, trim_start_chars. apply list.Forall_reverse, Hd, list.Forall_reverse, Hd. done.
Qed.

Lemma settles_chars {E : Type} s : utf8 (as_bytes s) -> settles (chars (E:=E) s) (fun _ => True).
Proof. intros [cs Hcs]. unfold chars. by rewrite Hcs. Qed.

Lemma settles_bail {A : Type} m (P : A -> Prop) : settles (bail m) P.
Proof. done. Qed.

Lemma settles_ensure template i : utf8 (as_bytes template) -> i <= length (as_bytes template) ->
  is_char_boundary (as_bytes template) i = true ->
  settles (ensure_text_context template i) (fun _ => in_text (take i (as_bytes template))).
Proof.
  intros Hu Hi Hb. pose proof (ensure_spec template i) as Hs.
  destruct (slice_utf8 (E:=TemplateError) (as_bytes template) 0 i) as [Hsl _]; [done|lia|done|done|done|].
  rewrite Nat.sub_0_r, drop_0 in Hsl. destruct (ensure_text_context template i) as [[]|e| |] eqn:E; simpl.
  - apply proj1 in Hs. destruct Hs as (before & Hb' & Ht); [done|]. rewrite Hsl in Hb'. injection Hb' as <-.
    by rewrite as_from_bytes in Ht.
  - done.
  - unfold ensure_text_context in E. rewrite Hsl in E. simpl in E. repeat case_match; done.
  - unfold ensure_text_context in E. rewrite Hsl in E. simpl in E. repeat case_match; done.
Qed.

Lemma settles_code source ts t m : utf8 (as_bytes source) -> covers (as_bytes source) 0 ts -> t ∈ ts ->
  settles (code_before source t m) (fun code => utf8 (as_bytes code)).
Proof.
  intros Hu Hc Ht. unfold code_before. apply settles_bind.
  assert (start (tspan t) <= length (as_bytes source) /\ is_char_boundary (as_bytes source) (start (tspan t)) = true) as [H1 H2].
  { destruct (covers_token _ _ _ _ Hc Ht) as [->|(H1 & H2 & H3 & _)]; [split; [done|apply boundary_len]|split; [lia|done]]. }
  eapply settles_mono; [|apply settles_slice; [done|lia|done|done|done]]. intros before [_ Hb]. apply settles_bind.
  eapply settles_mono; [|by apply settles_trim]. intros code Hcode. by case_match.
Qed.

Lemma settles_binding name : utf8 (as_bytes name) -> settles (valid_template_binding_name name) (fun _ => True).
Proof.
  intros Hu. unfold valid_template_binding_name. case_match; [done|]. apply settles_bind.
  eapply settles_mono; [|by apply settles_trim]. intros t _. case_match; [done|]. apply settles_bind.
  by eapply settles_mono; [|by apply settles_chars].
Qed.

(** A string token holds UTF-8. *)
Lemma decoded_scalar off l t : Forall (fun ic => scalar ic.2) l -> decode_chars off l = Ok t -> Forall scalar t.
Proof.
  remember (length l) as n eqn:Hn. revert l t Hn. induction (lt_wf n) as [n _ IH]. intros l t -> Hl H.
  destruct Hl as [|[k c] l Hc Hl]; [injection H as <-; by apply list.Forall_nil|]. cbn [decode_chars snd] in *.
  destruct (N.eqb_spec c 92) as [->|]; cbn [negb] in H.
  - destruct Hl as [|[k' e] l He Hl]; [done|]. destruct (unescape e) as [d|] eqn:Ed; [|done].
    apply rbind_Ok in H as (t' & Ht' & [= <-]). apply list.Forall_cons. split.
    + unfold unescape in Ed. repeat (case_match; [injection Ed as <-; left; done|]). done.
    + eapply (IH (length l)); [simpl; lia|done|done|exact Ht'].
  - apply rbind_Ok in H as (t' & Ht' & [= <-]). apply list.Forall_cons. split; [done|].
    eapply (IH (length l)); [simpl; lia|done|done|exact Ht'].
Qed.

Lemma decoded_utf8 s off t : decode_string s off = Ok t -> utf8 (as_bytes t).
Proof.
  unfold decode_string, chars. destruct (utf8_chars (as_bytes s)) as [cs|] eqn:E; [|done]. cbn [rbind].
  intros (d & Hd & [= <-])%rbind_Ok. rewrite as_from_bytes. eexists. apply utf8_encode. eapply decoded_scalar; [|exact Hd].
  clear Hd. apply utf8_chars_scalar in E. revert E. generalize 0. induction cs as [|c cs IH]; intros n E; [by apply list.Forall_nil|].
  apply list.Forall_cons in E as [Hc E]. apply list.Forall_cons. split; [done|by apply IH].
Qed.

Lemma token_string bytes i ts t name : covers bytes i ts -> t ∈ ts -> Syntax.kind t = TokenKind.String name -> utf8 (as_bytes name).
Proof.
  revert i. induction ts as [|t' ts IH]; intros i Hc Ht Hk; [by apply elem_of_nil in Ht|].
  apply elem_of_cons in Ht. apply covers_cons in Hc as [[-> Hc]|(_&_&_&_&_&_&Hx&Hc)].
  - destruct Hc as (_ & _ & ->). destruct Ht as [->|Ht]; [done|by apply elem_of_nil in Ht].
  - destruct Ht as [->|Ht]; [|by eapply IH]. rewrite Hk in Hx. destruct Hx as (body & _ & Hd). by eapply (decoded_utf8 _ 0).
Qed.

(** ** Directives *)

Lemma settles_tokens source : utf8 (as_bytes source) ->
  settles (directive_tokens source) (fun ts => exists all, covers (as_bytes source) 0 all /\ forall t, t ∈ ts -> t ∈ all).
Proof.
  intros Hu. unfold directive_tokens. destruct (lex_terminates source Hu) as [[all Hts]|[e He]]; [|by rewrite He].
  rewrite Hts. exists all. split; [by apply lex_tiles|]. intros t. rewrite !list_elem_of_In. intros Ht. by apply List.filter_In in Ht as [? _].
Qed.

Lemma settles_directive source : utf8 (as_bytes source) -> settles (parse_directive source) good_directive.
Proof.
  intros Hu. unfold parse_directive, unsupported_directive. repeat (case_match; [done|]). apply settles_bind.
  eapply settles_mono; [|by apply settles_tokens]. intros ts (all & Hc & Hin).
  destruct (list.last ts) as [t|] eqn:El; [|done]. assert (Ht : t ∈ all) by (by apply Hin, last_Some_elem_of).
  destruct (Syntax.kind t); try done. case_match; [|case_match; [|case_match; [|done]]].
  - apply settles_bind. eapply settles_mono; [|by eapply settles_code]. done.
  - apply settles_bind. eapply settles_mono; [|by eapply settles_code]. done.
  - case_match eqn:El3; [done|]. apply Nat.ltb_ge in El3. apply settles_bind. unfold index.
    destruct (lookup_lt_is_Some_2 ts (length ts - 2)) as [item Hitem]; [lia|]. rewrite Hitem. cbn [settles].
    assert (Hi : item ∈ all) by (by eapply Hin, list_elem_of_lookup_2). apply settles_bind.
    assert (Hnext : forall name, settles (let? collection := code_before source item
        [Lit "template each directive requires a collection expression before item name"] in
        Ok (Directive.Each collection name)) good_directive).
    { intros name. apply settles_bind. by eapply settles_mono; [|by eapply settles_code]. }
    destruct (Syntax.kind item) eqn:Ek; try done. apply settles_bind.
    eapply settles_mono; [|apply settles_binding; by eapply token_string]. intros valid _. case_match; [apply Hnext|done].
Qed.

(** ** The parser of templates *)

Definition almost_good (nodes : list TemplateNode) : Prop :=
  Forall good nodes \/ exists init text, nodes = init ++ [TemplateNode.Text text] /\ Forall good init.

Section parser.
Variable template : string.
Hypothesis Hutf8 : utf8 (as_bytes template).

Abbreviation bytes := (as_bytes template).

Definition position (pos : nat) : Prop := pos <= length bytes /\ is_char_boundary bytes pos = true.

Definition parsed (pos : nat) (p : Parsed) : Prop :=
  let '(nodes, stop, pos') := p in
  match stop with
  | Some _ => Forall good nodes /\ pos < pos' /\ position pos'
  | None => almost_good nodes
  end.

Lemma parsed_mono p q r : p <= q -> parsed q r -> parsed p r.
Proof. destruct r as [[nodes [stop|]] pos']; simpl; [intros ? (? & ? & ?); split; [done|split; [lia|done]]|done]. Qed.

(** An ASCII character has positions on both sides. *)
Lemma position_ascii i b : bytes !! i = Some b -> (byte_val b < 128)%N -> position i /\ position (i + 1).
Proof.
  intros Hi Hb. pose proof (lookup_lt_Some _ _ _ Hi) as Hl. destruct Hutf8 as [cs Hcs].
  destruct (boundary_ascii _ _ _ _ Hcs Hi Hb) as [H1 H2]. rewrite Nat.add_1_r. split; split; [lia|done|lia|done].
Qed.

Lemma rest_bytes i j s : as_bytes s = take (length bytes - i) (drop i bytes) -> as_bytes s !! j = bytes !! (i + j).
Proof. intros ->. rewrite take_ge by (rewrite length_drop; lia). apply lookup_drop. Qed.

(** What is found in the rest of the template stands in the template. *)
Lemma found_at i s needle j k b : as_bytes s = take (length bytes - i) (drop i bytes) ->
  string_find needle s = Some j -> as_bytes needle !! k = Some b -> bytes !! (i + j + k) = Some b.
Proof. intros Hs Hf Hk. apply find_occurs in Hf. specialize (Hf k b Hk). by rewrite (rest_bytes i) in Hf; [rewrite Nat.add_assoc in Hf|]. Qed.

Lemma settles_sub {E : Type} i j : position i -> position j -> i <= j ->
  settles (slice (E:=E) bytes i j) (fun s => as_bytes s = take (j - i) (drop i bytes) /\ utf8 (as_bytes s)).
Proof. intros [] [] ?. by apply settles_slice. Qed.

Lemma settles_to_end {E : Type} i : position i ->
  settles (slice (E:=E) bytes i (str_len template)) (fun s => as_bytes s = take (length bytes - i) (drop i bytes) /\ utf8 (as_bytes s)).
Proof.
  intros Hi. rewrite str_len_bytes. apply settles_sub; [done| |apply Hi]. split; [done|apply boundary_len].
Qed.

(** The trimmed text between two positions. *)
Lemma settles_trimmed {E : Type} i j : position i -> position j -> i <= j ->
  settles (let? text := slice (E:=E) bytes i j in trim text) (fun text => utf8 (as_bytes text)).
Proof.
  intros. apply settles_bind. eapply settles_mono; [|by apply settles_sub]. intros s [_ Hs]. by apply settles_trim.
Qed.



Lemma settles_before pos open rest nodes :
  position pos -> as_bytes rest = take (length bytes - pos) (drop pos bytes) -> utf8 (as_bytes rest) ->
  string_find "{" rest = Some open -> Forall good nodes ->
  settles (E:=TemplateError) (if 0 <? open then let? text := slice (as_bytes rest) 0 open in Ok (nodes ++ [TemplateNode.Text text])
           else Ok nodes)
    (fun nodes' => in_text (take (pos + open) bytes) -> Forall good nodes').
Proof.
  intros [Hp _] Hr Hu Hf Hn. case_match; [|by intros _]. pose proof (found_at _ _ _ _ 0 _ Hr Hf eq_refl) as Hb.
  rewrite Nat.add_0_r in Hb. assert (Hl : as_bytes rest !! open = Some "{"%char) by (by rewrite (rest_bytes pos)).
  pose proof (lookup_lt_Some _ _ _ Hl) as Hlt. destruct Hu as [cs Hcs].
  destruct (boundary_ascii _ _ _ _ Hcs Hl eq_refl) as [H1 _].
  through ltac:(apply settles_slice; [by eexists|lia|lia|done|done]). intros text [Ht _] Hin. simpl.
  apply list.Forall_app. split; [done|]. apply list.Forall_cons. split; [|by apply list.Forall_nil]. constructor.
  apply (neutral_between (take pos bytes)). rewrite Ht, Hr, drop_0, Nat.sub_0_r, take_take.
  rewrite <- take_take_drop in Hin. rewrite Nat.min_l; [done|]. apply lookup_lt_Some in Hb. lia.
Qed.

Lemma nodes_settle fuel allow_stop pos nodes :
  position pos -> length bytes - pos < fuel -> Forall good nodes ->
  settles (parse_nodes fuel template allow_stop pos nodes) (parsed pos).
Proof.
  revert allow_stop pos nodes. induction fuel as [|fuel IH]; intros allow_stop pos nodes Hp Hf Hn; [lia|].
  assert (Hnext : forall allow p ns, pos < p -> position p -> Forall good ns ->
    settles (parse_nodes fuel template allow p ns) (fun r => parsed p r /\ parsed pos r)).
  { intros allow p ns Hlt Hpp Hns. eapply settles_mono; [|apply IH; [done|destruct Hpp; lia|done]].
    intros r Hr. split; [done|]. eapply parsed_mono; [|exact Hr]. lia. }
  assert (Hgo : forall allow p node, pos < p -> position p -> good node -> forall ns, Forall good ns ->
    settles (parse_nodes fuel template allow p (ns ++ [node])) (parsed pos)).
  { intros allow p node Hlt Hpp Hg ns Hns. eapply settles_mono; [|apply (Hnext allow p); [done|done|]]; [by intros r [_ Hr]|].
    apply list.Forall_app. split; [done|]. by apply list.Forall_cons. }
  clear IH. cbn [parse_nodes]. rewrite str_len_bytes. case_match eqn:El; [by left|].
  apply negb_false_iff, Nat.ltb_lt in El. rewrite <- str_len_bytes. through ltac:(by apply settles_to_end). intros rest [Hr Hu].
  destruct (string_find "{" rest) as [open|] eqn:Eo; [|destruct (string_find "}" rest); [done|by right; eexists _, _]].
  destruct (match string_find "}" rest with Some close => close <? open | None => false end); [done|].
  pose proof (found_at _ _ _ _ 0 _ Hr Eo eq_refl) as Hb. rewrite Nat.add_0_r in Hb.
  destruct (position_ascii _ _ Hb eq_refl) as [Ho Ho1].
  through ltac:(by eapply (settles_before pos)). intros nodes' Hn'.
  through ltac:(by apply settles_ensure; [|apply Ho|apply Ho]). intros u Hin. specialize (Hn' Hin).
  through ltac:(by apply settles_to_end). intros here [Hh _]. destruct (starts_with "{%" here) eqn:Ed.
  - apply starts_with_occurs in Ed. pose proof (Ed 1 _ eq_refl) as Hc. rewrite (rest_bytes (pos + open)) in Hc by done.
    destruct (position_ascii _ _ Hc eq_refl) as [_ Hds]. rewrite <- Nat.add_assoc in Hds. cbn [Nat.add] in Hds.
    through ltac:(by apply settles_to_end). intros drest [Hdr _].
    destruct (string_find "%}" drest) as [dclose|] eqn:Edc; [|done].
    pose proof (found_at _ _ _ _ 0 _ Hdr Edc eq_refl) as Hd0. pose proof (found_at _ _ _ _ 1 _ Hdr Edc eq_refl) as Hd1.
    rewrite Nat.add_0_r in Hd0. destruct (position_ascii _ _ Hd0 eq_refl) as [Hde _].
    destruct (position_ascii _ _ Hd1 eq_refl) as [_ He]. rewrite <- Nat.add_assoc in He. cbn [Nat.add] in He.
    through ltac:(apply settles_sub; [done|done|lia]). intros text [_ Ht].
    through ltac:(by apply settles_trim). intros code Hcode.
    through ltac:(by apply settles_directive). intros d Hd. set (p := pos + open + 2 + dclose + 2) in *.
    assert (pos < p) by lia. destruct d as [code'|coll item|code'| |]; cbn in Hd.
    + through ltac:(by apply Hnext; [|..|apply list.Forall_nil]). intros [[thens [stop|]] p1] [Hs _]; [|done]. destruct Hs as (Ht1 & Hp1 & Hq1), stop.
      * through ltac:(apply Hnext; [lia|done|by apply list.Forall_nil]). intros [[elses [stop|]] p2] [Hs _]; [|done]. destruct Hs as (Ht2 & Hp2 & Hq2), stop; [done|].
        apply Hgo; [lia|done|by constructor|done].
      * apply Hgo; [lia|done|by constructor; [..|apply list.Forall_nil]|done].
    + through ltac:(by apply Hnext; [|..|apply list.Forall_nil]). intros [[body [stop|]] p1] [Hs _]; [|done]. destruct Hs as (Ht1 & Hp1 & Hq1), stop; [done|].
      apply Hgo; [lia|done|by constructor|done].
    + apply Hgo; [lia|done|by constructor|done].
    + case_match; [|done]. by split; [|split].
    + case_match; [|done]. by split; [|split].
  - through ltac:(by apply settles_to_end). intros erest [Her _].
    destruct (string_find "}" erest) as [eclose|] eqn:Ee; [|done].
    pose proof (found_at _ _ _ _ 0 _ Her Ee eq_refl) as He0. rewrite Nat.add_0_r in He0.
    destruct (position_ascii _ _ He0 eq_refl) as [Hee He1].
    through ltac:(apply settles_sub; [done|done|lia]). intros text [_ Ht].
    through ltac:(by apply settles_trim). intros code Hcode. case_match; [done|].
    apply Hgo; [lia|done|by constructor|done].
Qed.
End parser.
