(* ===== verification/TemplateSafety.v ===== *)
(** * Rendering

    [trace_node] is [render_node] with its output kept as pieces: the text of
    the template and the values that were inserted.  Forgetting the difference
    gives [render_node] back, and in the trace every inserted value is in a
    text context.  Rendering also ends: each piece of code has its budget. *)

From stdpp Require Import base tactics list strings option numbers.
From Stdlib Require Import ZArith NArith Lia Ascii String.
From S2P Require Import Prelude RustStr RustText RustFloat BTree Syntax Lexer Parser LexerProofs Diagnostic VmProofs.
From S2P Require Import Bytecode Compiler Macro Expander ExpanderProofs Layout CompilerProofs CodeSafety.
From S2P Require Import Value VmState Vm VmFrames Template TemplateProofs.

Open Scope string_scope.
Open Scope list_scope.
Open Scope nat_scope.

Section node_induction.
Variable P : TemplateNode -> Prop.
Hypothesis Htext : forall text, P (TemplateNode.Text text).
Hypothesis Hexpression : forall code, P (TemplateNode.Expression code).
Hypothesis Hscript : forall code, P (TemplateNode.Script code).
Hypothesis Hif : forall code thens elses, Forall P thens -> Forall P elses -> P (TemplateNode.If code thens elses).
Hypothesis Heach : forall code item body, Forall P body -> P (TemplateNode.Each code item body).

Fixpoint node_ind' (node : TemplateNode) : P node :=
  let fix all (nodes : list TemplateNode) : Forall P nodes :=
    match nodes with
    | [] => Forall_nil_2 _
    | node :: nodes' => Forall_cons_2 _ node nodes' (node_ind' node) (all nodes')
    end in
  match node with
  | TemplateNode.Text text => Htext text
  | TemplateNode.Expression code => Hexpression code
  | TemplateNode.Script code => Hscript code
  | TemplateNode.If code thens elses => Hif code thens elses (all thens) (all elses)
  | TemplateNode.Each code item body => Heach code item body (all body)
  end.
End node_induction.

(** ** Pieces *)

Inductive Piece : Type :=
  | Verbatim (text : string)
  | Inserted (text : string).

Definition piece_text (p : Piece) : string := match p with Verbatim s | Inserted s => s end.

Definition text_of (ps : list Piece) : string := foldr (fun p s => piece_text p ++ s)%string "" ps.

Lemma text_of_app ps qs : text_of (ps ++ qs) = (text_of ps ++ text_of qs)%string.
Proof. induction ps as [|p ps IH]; [done|]. unfold text_of in *. cbn [app foldr]. by rewrite IH, append_assoc. Qed.

Section trace.
Context `{Sha256}.
Variables (host_word : string -> VM unit) (host_method : Value -> string -> VM Value).

Fixpoint trace_each (item_name : string) (body : T (list Piece)) (items : list Value) (done_ : list Piece) : T (list Piece) :=
  match items with
  | [] => sret done_
  | item :: items' =>
      smodify (bind_item item_name item) ;;
      let* ps := body in
      trace_each item_name body items' (done_ ++ ps)
  end.

Definition trace_list (trace_node : TemplateNode -> T (list Piece)) : list TemplateNode -> T (list Piece) :=
  fix go (nodes : list TemplateNode) : T (list Piece) :=
    match nodes with
    | [] => sret []
    | node :: nodes' => let* first := trace_node node in let* rest := go nodes' in sret (first ++ rest)
    end.

Fixpoint trace_node (escape : EscapeMode) (node : TemplateNode) : T (list Piece) :=
  match node with
  | TemplateNode.Text text => sret [Verbatim text]
  | TemplateNode.Expression expression =>
      let* v := evaluate_expression host_word host_method expression in
      let* text := slift (render_escaped_value v escape) in sret [Inserted text]
  | TemplateNode.Script script => evaluate_script host_word host_method script ;; sret []
  | TemplateNode.If condition then_nodes else_nodes =>
      let* v := evaluate_expression host_word host_method condition in
      let* c := sget in
      let* truthy := slift (rmap_err TemplateError.Condition (truthy_for_condition (store c) v)) in
      if truthy : bool then trace_list (trace_node escape) then_nodes else trace_list (trace_node escape) else_nodes
  | TemplateNode.Each collection item_name body =>
      let* v := evaluate_expression host_word host_method collection in
      let* items := template_each_items v in
      let* c := sget in
      let previous := bt_get item_name (variables c) in
      let* ps := trace_each item_name (trace_list (trace_node escape) body) items [] in
      smodify (restore_item item_name previous) ;;
      sret ps
  end.

(** [m] renders what [t] traces. *)
Definition erases (m : T string) (t : T (list Piece)) : Prop :=
  forall c, m c = let? (ps, c') := t c in Ok (text_of ps, c').

Lemma erases_ret s ps : s = text_of ps -> erases (sret s) (sret ps).
Proof. by intros -> c. Qed.

Lemma erases_bind {A : Type} (m : T A) k t : (forall a, erases (k a) (t a)) -> erases (sbind m k) (sbind m t).
Proof. intros Hk c. unfold sbind. destruct (m c) as [[a c']| | |]; [apply Hk|done..]. Qed.

Lemma erases_then m t k u : erases m t -> (forall ps, erases (k (text_of ps)) (u ps)) -> erases (sbind m k) (sbind t u).
Proof. intros Hm Hk c. unfold sbind. rewrite Hm. destruct (t c) as [[ps c']| | |]; [apply Hk|done..]. Qed.

Lemma erases_list r t nodes : Forall (fun node => erases (r node) (t node)) nodes -> erases (render_list r nodes) (trace_list t nodes).
Proof.
  induction 1 as [|node nodes Hn _ IH]; [by apply erases_ret|]. apply erases_then; [done|]. intros ps.
  apply erases_then; [done|]. intros qs. apply erases_ret. by rewrite text_of_app.
Qed.

Lemma erases_each item m t items ps : erases m t -> erases (render_each item m items (text_of ps)) (trace_each item t items ps).
Proof.
  intros Hm. revert ps. induction items as [|v items IH]; intros ps; [by apply erases_ret|]. apply erases_bind. intros [].
  apply erases_then; [done|]. intros qs. rewrite <- text_of_app. apply IH.
Qed.

Lemma trace_erases escape node : erases (render_node host_word host_method escape node) (trace_node escape node).
Proof.
  induction node as [text|code|code|code thens elses IHt IHe|code item body IH] using node_ind'; cbn [render_node trace_node].
  - apply erases_ret. simpl. by rewrite append_nil_r.
  - apply erases_bind. intros v c. unfold sbind, slift. destruct (render_escaped_value v escape); try done.
    simpl. by rewrite append_nil_r.
  - apply erases_bind. intros []. by apply erases_ret.
  - do 3 (apply erases_bind; intros ?). case_match; by apply erases_list.
  - do 3 (apply erases_bind; intros ?). apply erases_then; [by apply (erases_each item _ _ _ []), erases_list|].
    intros ps. apply erases_bind. intros []. by apply erases_ret.
Qed.

(** ** Pieces in their contexts *)

Definition safe_piece (p : Piece) : Prop :=
  match p with Verbatim s => neutral (as_bytes s) | Inserted s => plain (as_bytes s) end.

Definition gives (t : T (list Piece)) : Prop := forall c ps c', t c = Ok (ps, c') -> Forall safe_piece ps.

Lemma gives_ret ps : Forall safe_piece ps -> gives (sret ps).
Proof. by intros Hs c ps' c' [= <- _]. Qed.

Lemma gives_bind {A : Type} (m : T A) k : (forall a, gives (k a)) -> gives (sbind m k).
Proof. intros Hk c ps c' (a & c1 & _ & Ha)%sbind_Ok. by eapply Hk. Qed.

Lemma gives_then t k : gives t -> (forall ps, Forall safe_piece ps -> gives (k ps)) -> gives (sbind t k).
Proof. intros Ht Hk c ps c' (a & c1 & H1 & H2)%sbind_Ok. eapply Hk; [|exact H2]. by eapply Ht. Qed.

Lemma gives_list t nodes : Forall (fun node => gives (t node)) nodes -> gives (trace_list t nodes).
Proof.
  induction 1 as [|node nodes Hn _ IH]; [by apply gives_ret, list.Forall_nil|]. apply gives_then; [done|]. intros ps Hps.
  apply gives_then; [done|]. intros qs Hqs. apply gives_ret, list.Forall_app. done.
Qed.

Lemma gives_each item t items ps : gives t -> Forall safe_piece ps -> gives (trace_each item t items ps).
Proof.
  intros Ht. revert ps. induction items as [|v items IH]; intros ps Hps; [by apply gives_ret|]. apply gives_bind. intros [].
  apply gives_then; [done|]. intros qs Hqs. apply IH, list.Forall_app. done.
Qed.

(** Good nodes trace safely when each of them does. *)
Lemma all_trace_safe nodes :
  Forall (fun node => good node -> gives (trace_node EscapeMode.Html node)) nodes -> Forall good nodes ->
  gives (trace_list (trace_node EscapeMode.Html) nodes).
Proof.
  intros Hi Hn. apply gives_list. rewrite list.Forall_forall in *. intros node Hnode. by apply Hi, Hn.
Qed.

Lemma trace_safe node : good node -> gives (trace_node EscapeMode.Html node).
Proof.
  induction node as [text|code|code|code thens elses IHt IHe|code item body IH] using node_ind'; cbn [trace_node]; intros Hg;
    inversion_clear Hg.
  - apply gives_ret, Forall_singleton. done.
  - apply gives_bind. intros v c ps c' (text & c1 & Ht & [= <- _])%sbind_Ok. apply Forall_singleton. simpl.
    unfold slift in Ht. destruct (render_escaped_value v EscapeMode.Html) as [s| | |] eqn:E; [|done..]. injection Ht as -> _.
    unfold render_escaped_value in E. apply rbind_Ok in E as (s' & _ & E). by eapply escape_html_plain.
  - apply gives_bind. intros []. by apply gives_ret, list.Forall_nil.
  - do 3 (apply gives_bind; intros ?). case_match; by apply all_trace_safe.
  - do 3 (apply gives_bind; intros ?). apply gives_then; [|intros ps Hps; apply gives_bind; intros []; by apply gives_ret].
    apply gives_each; [|by apply list.Forall_nil]. by apply all_trace_safe.
Qed.
End trace.

(** ** Newlines *)

Lemma utf8_ascii_head x l : (byte_val x < 128)%N -> utf8 (x :: l) -> utf8 l.
Proof.
  intros Hx [cs Hcs]. cbn [utf8_chars] in Hcs. rewrite (proj2 (N.ltb_lt _ _) Hx) in Hcs.
  destruct (utf8_chars l) eqn:E; [by eexists|done].
Qed.

(** A text with an ASCII delimiter inside is UTF-8 on both sides of it. *)
Lemma utf8_around a d b : d <> [] -> Forall (fun x => (byte_val x < 128)%N) d -> utf8 (a ++ d ++ b) -> utf8 a /\ utf8 b.
Proof.
  intros Hd Ha [cs Hcs]. destruct d as [|x d]; [done|]. apply list.Forall_cons in Ha as [Hx Ha].
  assert (Hl : (a ++ (x :: d) ++ b) !! length a = Some x) by (cbn [app]; by apply list_lookup_middle).
  destruct (boundary_ascii _ _ _ _ Hcs Hl Hx) as [Hb _].
  destruct (utf8_split _ _ (length a) Hcs) as (cs1 & cs2 & _ & H1 & H2); [rewrite length_app; lia|done|].
  rewrite take_app_length in H1. rewrite drop_app_length in H2. split; [by eexists|].
  assert (Hu : utf8 (x :: d ++ b)) by (by eexists). clear - Hu Hx Ha.
  apply utf8_ascii_head in Hu; [|done]. induction Ha as [|y d Hy _ IH]; [done|]. by apply IH, (utf8_ascii_head y).
Qed.

Lemma utf8_glue a b : utf8 a -> utf8 b -> utf8 (a ++ b).
Proof. intros [cs Hcs] [ds Hds]. unfold utf8. rewrite (utf8_app _ _ _ Hcs), Hds. by eexists. Qed.

Lemma split_utf8 fuel d s : d <> "" -> Forall (fun x => (byte_val x < 128)%N) (as_bytes d) -> utf8 (as_bytes s) ->
  Forall (fun p => utf8 (as_bytes p)) (split_on fuel d s).
Proof.
  intros Hd Ha. revert s. induction fuel as [|fuel IH]; intros s Hs; cbn [split_on]; [by apply Forall_singleton|].
  destruct (string_find d s) as [i|] eqn:E; [|by apply Forall_singleton]. apply string_find_split in E.
  rewrite E, !as_bytes_app in Hs. apply utf8_around in Hs as [H1 H2]; [|by destruct d|done].
  apply list.Forall_cons. split; [done|by apply IH].
Qed.

Lemma join_utf8 d ps : utf8 (as_bytes d) -> Forall (fun p => utf8 (as_bytes p)) ps -> utf8 (as_bytes (String.concat d ps)).
Proof.
  intros Hd. induction 1 as [|p ps Hp Hps IH]; [by eexists|]. cbn [String.concat]. destruct ps as [|q ps]; [done|].
  rewrite !as_bytes_app. by apply utf8_glue; [|apply utf8_glue].
Qed.

Lemma normalize_utf8 template : utf8 (as_bytes template) -> utf8 (as_bytes (normalize_template_newlines template)).
Proof.
  intros Hu. unfold normalize_template_newlines. case_match; [|done].
  assert (Hlf : utf8 (as_bytes (String "010" ""))) by (eexists; vm_compute; reflexivity).
  apply join_utf8; [done|]. apply split_utf8; [done|by repeat constructor|].
  apply join_utf8; [done|]. apply split_utf8; [done|by repeat constructor|done].
Qed.

(** ** The theorems *)

Lemma parse_settles template : utf8 (as_bytes template) -> settles (parse_template template) almost_good.
Proof.
  intros Hu. unfold parse_template. apply settles_bind. eapply settles_mono; [|apply nodes_settle; [done|..]].
  - intros [[nodes [stop|]] pos] Hp; [done|]. exact Hp.
  - split; [lia|apply boundary_0].
  - rewrite str_len_bytes. lia.
  - by apply list.Forall_nil.
Qed.

(** Parsing a template ends with nodes or an error: no slice is off a
    character boundary, and the rounds and nested blocks are at most one more
    than the bytes. *)
Theorem parse_template_total template : utf8 (as_bytes template) ->
  (exists nodes, parse_template template = Ok nodes) \/ (exists e, parse_template template = Err e).
Proof. intros Hu. pose proof (parse_settles template Hu) as H. destruct (parse_template template); naive_solver. Qed.

Lemma parse_template_total_witness :
  let template := "a{% x if %}b{% else %}{ y }{% end %}" in
  utf8 (as_bytes template) /\ ((exists nodes, parse_template template = Ok nodes) \/ (exists e, parse_template template = Err e)).
Proof.
  intros template. assert (Hu : utf8 (as_bytes template)) by (eexists; vm_compute; reflexivity).
  split; [exact Hu|]. exact (parse_template_total template Hu).
Defined.

Section theorems.
Context `{Sha256}.
Variables (host_word : string -> VM unit) (host_method : Value -> string -> VM Value).

Lemma pieces_neutral ps before : Forall safe_piece ps -> in_text before -> in_text (before ++ as_bytes (text_of ps)).
Proof.
  intros Hs. revert before. induction Hs as [|p ps Hp _ IH]; intros before Hb; [by rewrite app_nil_r|].
  unfold text_of. cbn [foldr]. rewrite as_bytes_app, app_assoc. apply IH.
  destruct p; simpl in *; [by apply Hp|by apply plain_neutral].
Qed.

(** The last text of a template may leave a tag open; nothing is inserted after it. *)
Lemma traced_nodes nodes c ps c' : almost_good nodes ->
  trace_list (trace_node host_word host_method EscapeMode.Html) nodes c = Ok (ps, c') ->
  exists init rest, ps = init ++ rest /\ Forall safe_piece init /\ (rest = [] \/ exists text, rest = [Verbatim text]).
Proof.
  intros [Hg|(init & text & -> & Hg)] Ht.
  - exists ps, []. rewrite app_nil_r. split; [done|]. split; [|by left]. eapply all_trace_safe; [|exact Hg|exact Ht].
    apply list.Forall_true. intros. by apply trace_safe.
  - assert (Happ : forall l1 l2 c ps c', trace_list (trace_node host_word host_method EscapeMode.Html) (l1 ++ l2) c = Ok (ps, c') ->
      exists ps1 c1 ps2, trace_list (trace_node host_word host_method EscapeMode.Html) l1 c = Ok (ps1, c1) /\
        trace_list (trace_node host_word host_method EscapeMode.Html) l2 c1 = Ok (ps2, c') /\ ps = ps1 ++ ps2).
    { induction l1 as [|node l1 IH]; intros l2 c0 qs c1 Hl; [by exists [], c0, qs|].
      cbn [app trace_list] in Hl. apply sbind_Ok in Hl as (fs & c2 & Hf & Hl). apply sbind_Ok in Hl as (rs & c3 & Hr & [= <- <-]).
      destruct (IH _ _ _ _ Hr) as (ps1 & c4 & ps2 & H1 & H2 & ->). exists (fs ++ ps1), c4, ps2. rewrite app_assoc.
      split; [|done]. cbn [trace_list]. rewrite (sbind_run _ _ _ _ _ Hf), (sbind_run _ _ _ _ _ H1). done. }
    destruct (Happ _ _ _ _ _ Ht) as (ps1 & c1 & ps2 & H1 & H2 & ->). exists ps1, ps2. split; [done|]. split.
    + eapply all_trace_safe; [|exact Hg|exact H1]. apply list.Forall_true. intros. by apply trace_safe.
    + right. exists text. by injection H2 as <- _.
Qed.

(** C13: rendering with escaping inserts values in text contexts only: when a
    template renders, the output is the text of the pieces of the trace, no
    inserted piece has a [<], a [>] or a quotation mark, and in what the output
    has before an inserted piece every tag, script and style is closed. *)
Theorem insertions_in_text template data h rendered h' :
  utf8 (as_bytes template) ->
  render_template host_word host_method template data EscapeMode.Html h = Ok (rendered, h') ->
  exists nodes pieces c,
    parse_template (normalize_template_newlines template) = Ok nodes /\
    trace_list (trace_node host_word host_method EscapeMode.Html) nodes (mkContext data h) = Ok (pieces, c) /\
    rendered = text_of pieces /\
    forall before value after, pieces = before ++ Inserted value :: after ->
      in_text (as_bytes (text_of before)) /\ plain (as_bytes value).
Proof.
  intros Hu Hr. unfold render_template in Hr. cbv zeta in Hr. pose proof (parse_settles _ (normalize_utf8 _ Hu)) as Hg.
  destruct (parse_template _) as [nodes| | |]; [|done..]. cbn [rbind] in Hr. apply rbind_Ok in Hr as ([out c] & Ho & [= <- <-]).
  unfold render_nodes in Ho. rewrite (erases_list _ (trace_node host_word host_method EscapeMode.Html)) in Ho;
    [|apply list.Forall_true; intros; apply trace_erases].
  apply rbind_Ok in Ho as ([pieces c1] & Ht & [= <- <-]). exists nodes, pieces, c1. split; [done|]. split; [done|]. split; [done|].
  destruct (traced_nodes _ _ _ _ Hg Ht) as (init & rest & -> & Hs & Hrest). intros before value after Hp.
  assert (Hin : exists tail, init = before ++ Inserted value :: tail).
  { destruct Hrest as [->|[text ->]]; [rewrite app_nil_r in Hp; by eexists|].
    destruct after as [|x tail _] using rev_ind; [by apply app_inj_tail in Hp as [_ ?]|].
    exists tail. rewrite app_comm_cons, app_assoc in Hp. by apply app_inj_tail in Hp as [? _]. }
  destruct Hin as [tail ->]. apply list.Forall_app in Hs as [Hb Hv]. apply list.Forall_cons in Hv as [Hv _]. split; [|done].
  apply (pieces_neutral before []); [done|]. apply in_text_nil.
Qed.
End theorems.

Lemma insertions_in_text_witness :
  let hash : Sha256 := fun _ => [] in
  let template := "<p>{ x get }</p>" in
  let data := [("x", Value.String "<i>")] in
  utf8 (as_bytes template) /\
  exists nodes pieces c,
    parse_template (normalize_template_newlines template) = Ok nodes /\
    trace_list (trace_node no_words no_methods EscapeMode.Html) nodes (mkContext data []) = Ok (pieces, c) /\
    "<p>&lt;i&gt;</p>" = text_of pieces /\
    forall before value after, pieces = before ++ Inserted value :: after ->
      in_text (as_bytes (text_of before)) /\ plain (as_bytes value).
Proof.
  intros hash template data. assert (Hu : utf8 (as_bytes template)) by (eexists; vm_compute; reflexivity).
  split; [exact Hu|]. apply (insertions_in_text no_words no_methods template data [] "<p>&lt;i&gt;</p>" []); [exact Hu|].
  vm_compute. reflexivity.
Defined.

(** ** Rendering ends *)

Section termination.
Context `{Sha256}.
Variables (host_word : string -> VM unit) (host_method : Value -> string -> VM Value).
Context `{!HostSane host_word host_method}.

Definition ends {A : Type} (m : T A) : Prop := forall c, m c <> OutOfFuel.

Lemma ends_ret {A : Type} (a : A) : ends (sret a).
Proof. done. Qed.

Lemma ends_bind {A B : Type} (m : T A) (k : A -> T B) : ends m -> (forall a, ends (k a)) -> ends (sbind m k).
Proof. intros Hm Hk c. unfold sbind. specialize (Hm c). destruct (m c) as [[a c']| | |]; [apply Hk|done..]. Qed.

Lemma ends_lift {A : Type} (r : result A) : r <> OutOfFuel -> ends (slift r).
Proof. intros Hr c. unfold slift. by destruct r. Qed.

Lemma code_ends m1 m2 code c : utf8 (as_bytes code) -> run_template_code host_word host_method m1 m2 code c <> OutOfFuel.
Proof.
  intros Hu. unfold run_template_code. pose proof (compile_settles "<template>" "<template>" code [] Hu) as Hc.
  destruct (compile_source _ _ _ _) as [chunk| | |]; try done. cbn [rmap_err rbind].
  assert (Hl : instruction_limit (config (template_vm c)) = Some TEMPLATE_INSTRUCTION_LIMIT).
  { unfold template_vm. generalize (variables c). intros data.
    set (s := mkVm _ _ _ _ _ _ _ _ _ _ _ _ _ _ _). assert (Hs : instruction_limit (config s) = Some TEMPLATE_INSTRUCTION_LIMIT) by done.
    clearbody s. revert s Hs. induction data as [|nv data IH]; intros s Hs; [done|]. by apply IH. }
  pose proof (run_ends host_word host_method TEMPLATE_INSTRUCTION_LIMIT chunk (template_vm c) Hl) as Hr.
  by destruct (run_chunk _ _ _ _ _).
Qed.

Lemma expression_ends code : utf8 (as_bytes code) -> ends (evaluate_expression host_word host_method code).
Proof.
  intros Hu c. unfold evaluate_expression. pose proof (code_ends [Lit "failed to compile template expression "; Dbg code]
    [Lit "failed to execute template expression "; Dbg code] code c Hu) as Hr.
  destruct (run_template_code _ _ _ _ _ _) as [vm| | |]; [|done..]. cbn [rbind]. by repeat case_match.
Qed.

Lemma script_ends code : utf8 (as_bytes code) -> ends (evaluate_script host_word host_method code).
Proof.
  intros Hu c. unfold evaluate_script. pose proof (code_ends [Lit "failed to compile template script block "; Dbg code]
    [Lit "failed to execute template script block "; Dbg code] code c Hu) as Hr.
  destruct (run_template_code _ _ _ _ _ _) as [vm| | |]; [|done..]. cbn [rbind]. by repeat case_match.
Qed.

Lemma items_end v : ends (template_each_items v).
Proof. intros c. unfold template_each_items. repeat case_match; done. Qed.

Lemma list_ends r nodes : Forall (fun node => ends (r node)) nodes -> ends (render_list r nodes).
Proof.
  induction 1 as [|node nodes Hn _ IH]; [apply ends_ret|]. apply ends_bind; [done|]. intros. apply ends_bind; [done|]. intros. apply ends_ret.
Qed.

Lemma each_ends item m items s : ends m -> ends (render_each item m items s).
Proof.
  intros Hm. revert s. induction items as [|v items IH]; intros s; [apply ends_ret|].
  apply ends_bind; [done|]. intros. by apply ends_bind.
Qed.

Lemma escaped_ends v escape : render_escaped_value v escape <> OutOfFuel.
Proof.
  unfold render_escaped_value, escape_html, chars. destruct v; try done; destruct escape; simpl; try done; by repeat case_match.
Qed.

Lemma node_ends escape node : good node -> ends (render_node host_word host_method escape node).
Proof.
  induction node as [text|code|code|code thens elses IHt IHe|code item body IH] using node_ind'; cbn [render_node]; intros Hg;
    inversion_clear Hg as [| | |? ? ? ? Gt Ge|? ? ? ? Gb].
  - apply ends_ret.
  - apply ends_bind; [by apply expression_ends|]. intros. apply ends_lift, escaped_ends.
  - apply ends_bind; [by apply script_ends|]. intros. apply ends_ret.
  - apply ends_bind; [by apply expression_ends|]. intros v. apply ends_bind; [done|]. intros c. apply ends_bind.
    + apply ends_lift. by destruct v.
    + intros b. case_match; apply list_ends; rewrite list.Forall_forall in *; naive_solver.
  - apply ends_bind; [by apply expression_ends|]. intros v. apply ends_bind; [apply items_end|]. intros items.
    apply ends_bind; [done|]. intros c. apply ends_bind; [|intros; by apply ends_bind].
    apply each_ends, list_ends. rewrite list.Forall_forall in *; naive_solver.
Qed.

(** Rendering ends whatever the template, the data and the escaping: with
    a text, with an error, or with a panic of the machine, when the words and
    methods of the host end. *)
Theorem render_terminates template data escape h :
  utf8 (as_bytes template) -> render_template host_word host_method template data escape h <> OutOfFuel.
Proof.
  intros Hu. unfold render_template. cbv zeta. pose proof (parse_settles _ (normalize_utf8 _ Hu)) as Hg.
  destruct (parse_template _) as [nodes| | |]; [|done..]. cbn [rbind].
  assert (He : ends (render_nodes host_word host_method nodes escape)).
  { assert (Hgood : Forall good nodes \/ exists init text, nodes = init ++ [TemplateNode.Text text] /\ Forall good init) by exact Hg.
    apply list_ends. destruct Hgood as [Hgood|(init & text & -> & Hgood)].
    - eapply list.Forall_impl; [exact Hgood|]. apply node_ends.
    - apply list.Forall_app. split; [eapply list.Forall_impl; [exact Hgood|apply node_ends]|]. apply Forall_singleton, ends_ret. }
  specialize (He (mkContext data h)). by destruct (render_nodes _ _ _ _ _) as [[out c]| | |].
Qed.
End termination.

Lemma render_terminates_witness :
  let hash : Sha256 := fun _ => [] in
  let template := "{ x get }" in
  utf8 (as_bytes template) /\ render_template no_host_word no_host_method template [] EscapeMode.Html [] <> OutOfFuel.
Proof.
  intros hash template. assert (Hu : utf8 (as_bytes template)) by (eexists; vm_compute; reflexivity).
  split; [exact Hu|]. exact (render_terminates no_host_word no_host_method template [] EscapeMode.Html [] Hu).
Defined.
