(* ===== verification/SandboxError.v ===== *)
(** * Errors of the sandbox (error.rs), and the identifiers they carry

    An error has a code, and its code fixes the shape of every other field;
    [validate] checks that shape on errors that come over the wire. *)

From stdpp Require Import base tactics list strings option numbers.
From Stdlib Require Import ZArith NArith Lia Ascii String.
From S2P Require Import Prelude RustStr.

Open Scope string_scope.
Open Scope list_scope.
Open Scope nat_scope.

(** ** Identifiers (identity.rs, destination.rs): the types *)

Record SessionId : Type := mkSessionId { session_str : string }.
Record ToolId : Type := mkToolId { tool_str : string }.
Record BackendFeatureId : Type := mkBackendFeatureId { feature_str : string }.
Record BackendIdentity : Type := mkBackendIdentity { backend_name : string; backend_version : string }.
(** [port] is a [u16]. *)
Record DestinationGrant : Type := mkDestinationGrant { host : string; port : N }.

#[export] Instance SessionId_eq : EqDecision SessionId.
Proof. solve_decision. Defined.
#[export] Instance ToolId_eq : EqDecision ToolId.
Proof. solve_decision. Defined.

(** ** Errors *)

Module SandboxErrorCode.
Inductive SandboxErrorCode : Type :=
  | SandboxUnavailable | SandboxPolicyError | ToolNotApproved | ToolFingerprintMismatch | NetworkDenied
  | ResourceLimitExceeded | SandboxLaunchError | SandboxTerminated | BrokerProtocolError.
End SandboxErrorCode.
Abbreviation SandboxErrorCode := SandboxErrorCode.SandboxErrorCode.

Module SandboxPhase.
Inductive SandboxPhase : Type := Setup | Launch | Runtime | Shutdown | Protocol.
End SandboxPhase.
Abbreviation SandboxPhase := SandboxPhase.SandboxPhase.

Module FailedGuarantee.
Inductive FailedGuarantee : Type :=
  | BrokerAvailability | PolicyValidity | ToolApproval | ToolFingerprint | DestinationGrant | ResourceCeiling
  | NativeLaunch | SessionOwnership | ProtocolAuthenticity.
End FailedGuarantee.
Abbreviation FailedGuarantee := FailedGuarantee.FailedGuarantee.

Module Remediation.
Inductive Remediation : Type :=
  | StartOrInstallBroker | ApproveTool | RefreshToolFingerprint | AddDestinationGrant | LowerRequestedLimit
  | EnableBackendPrerequisite | RetryAfterBrokerRestart | InspectSandboxDoctor.
End Remediation.
Abbreviation Remediation := Remediation.Remediation.

Module ResourceLimitKind.
Inductive ResourceLimitKind : Type :=
  | DescendantProcesses | MemoryBytes | CpuTime | WallTime | OpenDescriptorsOrHandles | CapturedOutput.
End ResourceLimitKind.
Abbreviation ResourceLimitKind := ResourceLimitKind.ResourceLimitKind.

Module TerminationReason.
Inductive TerminationReason : Type :=
  | CancelledByHost | TimedOut | ToolRevoked | BrokerShutdown | PolicyEnforcement
  | ResourceLimit (limit : ResourceLimitKind) | SessionClosed.
End TerminationReason.
Abbreviation TerminationReason := TerminationReason.TerminationReason.

#[export] Instance FailedGuarantee_eq : EqDecision FailedGuarantee.
Proof. solve_decision. Defined.
#[export] Instance Remediation_eq : EqDecision Remediation.
Proof. solve_decision. Defined.
#[export] Instance SandboxPhase_eq : EqDecision SandboxPhase.
Proof. solve_decision. Defined.
#[export] Instance SandboxErrorCode_eq : EqDecision SandboxErrorCode.
Proof. solve_decision. Defined.
#[export] Instance ResourceLimitKind_eq : EqDecision ResourceLimitKind.
Proof. solve_decision. Defined.

Record DiagnosticMetadata : Type := mkMetadata {
  meta_tool_id : option ToolId;
  meta_destination : option DestinationGrant;
  meta_resource_limit : option ResourceLimitKind;
  meta_protocol_version : option N;
  meta_session_id : option SessionId;
  meta_backend_feature : option BackendFeatureId }.

Definition empty_metadata : DiagnosticMetadata := mkMetadata None None None None None None.

Definition with_tool_id (v : ToolId) (m : DiagnosticMetadata) : DiagnosticMetadata :=
  mkMetadata (Some v) (meta_destination m) (meta_resource_limit m) (meta_protocol_version m) (meta_session_id m) (meta_backend_feature m).
Definition with_destination (v : DestinationGrant) (m : DiagnosticMetadata) : DiagnosticMetadata :=
  mkMetadata (meta_tool_id m) (Some v) (meta_resource_limit m) (meta_protocol_version m) (meta_session_id m) (meta_backend_feature m).
Definition with_resource_limit (v : ResourceLimitKind) (m : DiagnosticMetadata) : DiagnosticMetadata :=
  mkMetadata (meta_tool_id m) (meta_destination m) (Some v) (meta_protocol_version m) (meta_session_id m) (meta_backend_feature m).
Definition with_session_id (v : SessionId) (m : DiagnosticMetadata) : DiagnosticMetadata :=
  mkMetadata (meta_tool_id m) (meta_destination m) (meta_resource_limit m) (meta_protocol_version m) (Some v) (meta_backend_feature m).

Definition is_some {A : Type} (o : option A) : bool := match o with Some _ => true | None => false end.
Definition is_none {A : Type} (o : option A) : bool := negb (is_some o).

Definition metadata_is_empty (m : DiagnosticMetadata) : bool :=
  is_none (meta_tool_id m) && is_none (meta_destination m) && is_none (meta_resource_limit m)
  && is_none (meta_protocol_version m) && is_none (meta_session_id m) && is_none (meta_backend_feature m).
Definition has_only_tool_id (m : DiagnosticMetadata) : bool :=
  is_some (meta_tool_id m) && is_none (meta_destination m) && is_none (meta_resource_limit m)
  && is_none (meta_protocol_version m) && is_none (meta_session_id m) && is_none (meta_backend_feature m).
Definition has_only_destination (m : DiagnosticMetadata) : bool :=
  is_none (meta_tool_id m) && is_some (meta_destination m) && is_none (meta_resource_limit m)
  && is_none (meta_protocol_version m) && is_none (meta_session_id m) && is_none (meta_backend_feature m).
Definition has_only_resource_limit (m : DiagnosticMetadata) : bool :=
  is_none (meta_tool_id m) && is_none (meta_destination m) && is_some (meta_resource_limit m)
  && is_none (meta_protocol_version m) && is_none (meta_session_id m) && is_none (meta_backend_feature m).
Definition is_termination (m : DiagnosticMetadata) : bool :=
  is_none (meta_tool_id m) && is_none (meta_destination m) && is_none (meta_protocol_version m)
  && is_some (meta_session_id m) && is_none (meta_backend_feature m).

Definition metadata_matches_termination (reason : TerminationReason) (session : SessionId) (m : DiagnosticMetadata) : bool :=
  is_termination m && bool_decide (meta_session_id m = Some session) &&
  match reason with
  | TerminationReason.ResourceLimit limit => bool_decide (meta_resource_limit m = Some limit)
  | _ => is_none (meta_resource_limit m)
  end.

Record SandboxError : Type := mkSandboxError {
  code : SandboxErrorCode;
  phase : SandboxPhase;
  backend : option BackendIdentity;
  failed_guarantee : option FailedGuarantee;
  message : string;
  remediation : option Remediation;
  metadata : DiagnosticMetadata;
  native_cause : option string }.

Definition message_for (c : SandboxErrorCode) : string :=
  match c with
  | SandboxErrorCode.SandboxUnavailable => "sandbox backend is unavailable"
  | SandboxErrorCode.SandboxPolicyError => "requested execution policy is invalid"
  | SandboxErrorCode.ToolNotApproved => "tool is not approved"
  | SandboxErrorCode.ToolFingerprintMismatch => "tool fingerprint does not match the approved catalog"
  | SandboxErrorCode.NetworkDenied => "network destination is not granted"
  | SandboxErrorCode.ResourceLimitExceeded => "sandbox resource limit was exceeded"
  | SandboxErrorCode.SandboxLaunchError => "native sandbox launch failed"
  | SandboxErrorCode.SandboxTerminated => "sandbox session was terminated"
  | SandboxErrorCode.BrokerProtocolError => "broker protocol validation failed"
  end.

Definition new_error (c : SandboxErrorCode) (p : SandboxPhase) (b : option BackendIdentity) (g : option FailedGuarantee)
    (r : option Remediation) (m : DiagnosticMetadata) : SandboxError :=
  mkSandboxError c p b g (message_for c) r m None.

Definition unavailable (b : option BackendIdentity) (g : FailedGuarantee) (r : Remediation) (m : DiagnosticMetadata) : SandboxError :=
  new_error SandboxErrorCode.SandboxUnavailable SandboxPhase.Setup b (Some g) (Some r) m.
Definition policy (g : FailedGuarantee) (m : DiagnosticMetadata) : SandboxError :=
  new_error SandboxErrorCode.SandboxPolicyError SandboxPhase.Setup None (Some g) None m.
Definition tool_not_approved (t : ToolId) : SandboxError :=
  new_error SandboxErrorCode.ToolNotApproved SandboxPhase.Launch None (Some FailedGuarantee.ToolApproval)
    (Some Remediation.ApproveTool) (with_tool_id t empty_metadata).
Definition tool_fingerprint_mismatch (t : ToolId) : SandboxError :=
  new_error SandboxErrorCode.ToolFingerprintMismatch SandboxPhase.Launch None (Some FailedGuarantee.ToolFingerprint)
    (Some Remediation.RefreshToolFingerprint) (with_tool_id t empty_metadata).
Definition network_denied (d : DestinationGrant) : SandboxError :=
  new_error SandboxErrorCode.NetworkDenied SandboxPhase.Runtime None (Some FailedGuarantee.DestinationGrant)
    (Some Remediation.AddDestinationGrant) (with_destination d empty_metadata).
Definition resource_limit (l : ResourceLimitKind) : SandboxError :=
  new_error SandboxErrorCode.ResourceLimitExceeded SandboxPhase.Runtime None (Some FailedGuarantee.ResourceCeiling)
    (Some Remediation.LowerRequestedLimit) (with_resource_limit l empty_metadata).
Definition launch (b : BackendIdentity) (g : FailedGuarantee) : SandboxError :=
  new_error SandboxErrorCode.SandboxLaunchError SandboxPhase.Launch (Some b) (Some g)
    (Some Remediation.EnableBackendPrerequisite) empty_metadata.
Definition terminated (reason : TerminationReason) (session : SessionId) : SandboxError :=
  let m := match reason with
           | TerminationReason.ResourceLimit limit => with_resource_limit limit (with_session_id session empty_metadata)
           | _ => with_session_id session empty_metadata
           end in
  new_error SandboxErrorCode.SandboxTerminated SandboxPhase.Shutdown None None None m.
Definition protocol (m : DiagnosticMetadata) : SandboxError :=
  new_error SandboxErrorCode.BrokerProtocolError SandboxPhase.Protocol None (Some FailedGuarantee.ProtocolAuthenticity)
    (Some Remediation.RetryAfterBrokerRestart) m.

Definition with_native_cause (cause : string) (e : SandboxError) : SandboxError :=
  mkSandboxError (code e) (phase e) (backend e) (failed_guarantee e) (message e) (remediation e) (metadata e) (Some cause).

Definition typed_denial_shape_valid (c : SandboxErrorCode) (g : option FailedGuarantee) (r : option Remediation) : bool :=
  match c with
  | SandboxErrorCode.SandboxUnavailable => is_some g && is_some r
  | SandboxErrorCode.SandboxPolicyError => is_some g && is_none r
  | SandboxErrorCode.ToolNotApproved =>
      bool_decide (g = Some FailedGuarantee.ToolApproval) && bool_decide (r = Some Remediation.ApproveTool)
  | SandboxErrorCode.ToolFingerprintMismatch =>
      bool_decide (g = Some FailedGuarantee.ToolFingerprint) && bool_decide (r = Some Remediation.RefreshToolFingerprint)
  | SandboxErrorCode.NetworkDenied =>
      bool_decide (g = Some FailedGuarantee.DestinationGrant) && bool_decide (r = Some Remediation.AddDestinationGrant)
  | SandboxErrorCode.ResourceLimitExceeded =>
      bool_decide (g = Some FailedGuarantee.ResourceCeiling) && bool_decide (r = Some Remediation.LowerRequestedLimit)
  | SandboxErrorCode.SandboxLaunchError => is_some g && bool_decide (r = Some Remediation.EnableBackendPrerequisite)
  | SandboxErrorCode.SandboxTerminated => is_none g && is_none r
  | SandboxErrorCode.BrokerProtocolError =>
      bool_decide (g = Some FailedGuarantee.ProtocolAuthenticity) && bool_decide (r = Some Remediation.RetryAfterBrokerRestart)
  end.

Definition validate (e : SandboxError) : res SandboxError unit :=
  let at_phase p := bool_decide (phase e = p) in
  if String.eqb (message e) (message_for (code e)) && typed_denial_shape_valid (code e) (failed_guarantee e) (remediation e) &&
     match code e with
     | SandboxErrorCode.SandboxUnavailable => at_phase SandboxPhase.Setup
     | SandboxErrorCode.SandboxPolicyError => at_phase SandboxPhase.Setup && is_none (backend e)
     | SandboxErrorCode.ToolNotApproved | SandboxErrorCode.ToolFingerprintMismatch =>
         at_phase SandboxPhase.Launch && is_none (backend e) && has_only_tool_id (metadata e)
     | SandboxErrorCode.NetworkDenied =>
         at_phase SandboxPhase.Runtime && is_none (backend e) && has_only_destination (metadata e)
     | SandboxErrorCode.ResourceLimitExceeded =>
         at_phase SandboxPhase.Runtime && is_none (backend e) && has_only_resource_limit (metadata e)
     | SandboxErrorCode.SandboxLaunchError =>
         at_phase SandboxPhase.Launch && is_some (backend e) && metadata_is_empty (metadata e)
     | SandboxErrorCode.SandboxTerminated =>
         at_phase SandboxPhase.Shutdown && is_none (backend e) && is_termination (metadata e)
     | SandboxErrorCode.BrokerProtocolError => at_phase SandboxPhase.Protocol && is_none (backend e)
     end
  then Ok tt
  else Err (policy FailedGuarantee.PolicyValidity empty_metadata).

Definition matches_termination (reason : TerminationReason) (session : SessionId) (e : SandboxError) : bool :=
  bool_decide (code e = SandboxErrorCode.SandboxTerminated) &&
  match validate e with Ok _ => true | _ => false end &&
  metadata_matches_termination reason session (metadata e).

Abbreviation result := (res SandboxError).
Definition policy_error : SandboxError := policy FailedGuarantee.PolicyValidity empty_metadata.
Definition protocol_error : SandboxError := protocol empty_metadata.

(** ** What [validate] accepts *)

(** The errors the constructors make. *)
Inductive constructed : SandboxError -> Prop :=
  | c_unavailable b g r m : constructed (unavailable b g r m)
  | c_policy g m : constructed (policy g m)
  | c_not_approved t : constructed (tool_not_approved t)
  | c_fingerprint t : constructed (tool_fingerprint_mismatch t)
  | c_network d : constructed (network_denied d)
  | c_limit l : constructed (resource_limit l)
  | c_launch b g : constructed (launch b g)
  | c_terminated reason session : constructed (terminated reason session)
  | c_protocol m : constructed (protocol m)
  | c_native e cause : constructed e -> constructed (with_native_cause cause e).

Lemma validate_constructed_1 e : constructed e -> validate e = Ok tt.
Proof.
  intros H. induction H as [| | | | | | |reason session| |e cause He IH]; try done. by destruct reason.
Qed.

Ltac present :=
  repeat match goal with
         | H : andb _ _ = true |- _ => apply andb_prop in H as [? H]
         | H : bool_decide _ = true |- _ => apply bool_decide_eq_true_1 in H
         | H : String.eqb _ _ = true |- _ => apply String.eqb_eq in H
         | H : is_some ?o = true |- _ => destruct o; [clear H|discriminate H]
         | H : is_none ?o = true |- _ => destruct o; [discriminate H|clear H]
         end; simplify_eq/=.

Lemma validate_constructed_2 e : validate e = Ok tt -> native_cause e = None -> constructed e.
Proof.
  destruct e as [c p b g m r md n]. unfold validate. simpl. intros H ->.
  destruct (_ && _) eqn:E; [|done]. apply andb_prop in E as [E1 E2]. apply andb_prop in E1 as [E0 E1].
  apply String.eqb_eq in E0 as ->.
  unfold has_only_tool_id, has_only_destination, has_only_resource_limit, metadata_is_empty, is_termination in E2.
  destruct md as [mt mdst mr mp ms mb]. destruct c; simpl in *; present; try (by constructor).
  - destruct mr as [l|]; [exact (c_terminated (TerminationReason.ResourceLimit l) _)|exact (c_terminated TerminationReason.TimedOut _)].
Qed.

(** An error passes validation exactly when it is one that the
    constructors make, native cause aside: the code fixes the phase, the
    guarantee, the remediation, the message and which diagnostic fields there
    are, and an error that crosses the wire can have no other shape. *)
Theorem validate_constructed (e : SandboxError) :
  native_cause e = None -> (validate e = Ok tt <-> constructed e).
Proof. intros Hn. split; [intros; by apply validate_constructed_2|apply validate_constructed_1]. Qed.

Lemma validate_constructed_witness :
  native_cause policy_error = None /\ (validate policy_error = Ok tt <-> constructed policy_error).
Proof. split; [reflexivity|]. apply validate_constructed. reflexivity. Defined.

(** An error matches the termination of a session for a reason exactly
    when it is the error that termination makes, native cause aside. *)
Theorem matches_termination_correct (reason : TerminationReason) (session : SessionId) (e : SandboxError) :
  native_cause e = None -> (matches_termination reason session e = true <-> e = terminated reason session).
Proof.
  intros Hn. split.
  - unfold matches_termination. intros [[Hc Hv]%andb_prop Hm]%andb_prop.
    apply bool_decide_eq_true_1 in Hc. destruct (validate e) as [[]| | |] eqn:Ev; try done.
    apply validate_constructed_2 in Ev; [|done].
    destruct e as [c p b g m r md n]; simpl in *; subst c n.
    inversion Ev as [| | | | | | |reason' session' E| |]; subst.
    unfold metadata_matches_termination in Hm. apply andb_prop in Hm as [Hm Hr]. apply andb_prop in Hm as [_ Hs].
    apply bool_decide_eq_true_1 in Hs.
    destruct reason, reason'; simpl in *; try apply bool_decide_eq_true_1 in Hr; simplify_eq/=; done.
  - intros ->. unfold matches_termination. rewrite (validate_constructed_1 _ (c_terminated reason session)).
    unfold metadata_matches_termination. destruct reason; simpl; rewrite !bool_decide_eq_true_2 by done; done.
Qed.

Lemma matches_termination_correct_witness :
  let e := terminated (TerminationReason.ResourceLimit ResourceLimitKind.CpuTime) (mkSessionId "s") in
  native_cause e = None /\
  (matches_termination TerminationReason.TimedOut (mkSessionId "s") e = true <-> e = terminated TerminationReason.TimedOut (mkSessionId "s")).
Proof. split; [reflexivity|]. apply matches_termination_correct. reflexivity. Defined.
