(* ===== verification/SandboxIdentity.v ===== *)
(** * Identities of the sandbox (identity.rs, destination.rs, lifecycle.rs)

    Validated names, SHA-256 digests and their hexadecimal form, granted
    network destinations, and the life cycle of a session. *)

From stdpp Require Import base tactics list strings option numbers.
From Stdlib Require Import ZArith NArith Lia Ascii String.
From S2P Require Import Prelude RustStr RustText SandboxError.

Open Scope string_scope.
Open Scope list_scope.
Open Scope nat_scope.

(** ** Names *)

Definition valid_identifier (value : string) : bool :=
  let bytes := as_bytes value in
  (1 <=? length bytes) && (length bytes <=? 64)
  && match head bytes with Some b => is_ascii_alphanumeric b | None => false end
  && match list.last bytes with Some b => is_ascii_alphanumeric b | None => false end
  && forallb (fun b => is_ascii_lowercase b || is_ascii_digit b || Ascii.eqb b "_" || Ascii.eqb b "." || Ascii.eqb b "-") bytes.

Definition parse_session_id (value : string) : result SessionId :=
  if valid_identifier value then Ok (mkSessionId value) else Err policy_error.
Definition parse_tool_id (value : string) : result ToolId :=
  if valid_identifier value then Ok (mkToolId value) else Err policy_error.

(** The generation zero does not exist. *)
Record CatalogGeneration : Type := mkGeneration { generation_number : N }.
Definition new_generation (value : N) : result CatalogGeneration :=
  if (value =? 0)%N then Err policy_error else Ok (mkGeneration value).

Definition is_ascii_graphic (b : byte) : bool := byte_between 33 126 b.

Definition new_backend_identity (name version : string) : result BackendIdentity :=
  if negb (valid_identifier name)
     || negb ((1 <=? String.length version) && (String.length version <=? 64))
     || negb (forallb is_ascii_graphic (as_bytes version))
  then Err policy_error
  else Ok (mkBackendIdentity name version).

(** ** Digests *)

(** 32 bytes. *)
Record Sha256Digest : Type := mkDigest { digest_bytes : list byte }.

Definition decode_lower_hex (b : byte) : option N :=
  if byte_between 48 57 b then Some (byte_val b - 48)%N
  else if byte_between 97 102 b then Some (byte_val b - 97 + 10)%N
  else None.

(** The pairs of characters of the text. *)
Fixpoint decode_pairs (l : list byte) : result (list byte) :=
  match l with
  | h :: l :: rest =>
      match decode_lower_hex h, decode_lower_hex l with
      | Some high, Some low =>
          let? bytes := decode_pairs rest in Ok (ascii_of_N (N.lor (N.shiftl high 4) low) :: bytes)
      | _, _ => Err policy_error
      end
  | _ => Ok []
  end.

Definition parse_hex (value : string) : result Sha256Digest :=
  if negb (String.length value =? 64) then Err policy_error
  else let? bytes := decode_pairs (as_bytes value) in Ok (mkDigest bytes).

Definition lower_hex (n : N) : byte := nth (N.to_nat n) (as_bytes "0123456789abcdef") "0"%char.

Definition to_hex (d : Sha256Digest) : string :=
  from_bytes (flat_map (fun b => [lower_hex (N.shiftr (byte_val b) 4); lower_hex (N.land (byte_val b) 15)]) (digest_bytes d)).

(** ** Life cycle of a session *)

Module SessionState.
Inductive SessionState : Type := Preparing | Ready | Running | Stopping | Closed | Failed.
End SessionState.
Abbreviation SessionState := SessionState.SessionState.

#[export] Instance SessionState_eq : EqDecision SessionState.
Proof. solve_decision. Defined.

Record SessionLifecycle : Type := mkLifecycle { state : SessionState }.

Definition new_lifecycle : SessionLifecycle := mkLifecycle SessionState.Preparing.

Definition transition_allowed (from to : SessionState) : bool :=
  match from, to with
  | SessionState.Preparing, (SessionState.Ready | SessionState.Failed) => true
  | SessionState.Ready, (SessionState.Running | SessionState.Stopping | SessionState.Failed) => true
  | SessionState.Running, (SessionState.Stopping | SessionState.Failed) => true
  | SessionState.Stopping, (SessionState.Closed | SessionState.Failed) => true
  | _, _ => false
  end.

(** The error and the unchanged life cycle when the transition is refused. *)
Definition transition (next : SessionState) (s : SessionLifecycle) : result unit * SessionLifecycle :=
  if negb (transition_allowed (state s) next)
  then (Err (policy FailedGuarantee.SessionOwnership empty_metadata), s)
  else (Ok tt, mkLifecycle next).

(** ** Hexadecimal *)

Lemma lower_hex_byte b :
  decode_lower_hex (lower_hex (N.shiftr (byte_val b) 4)) = Some (N.shiftr (byte_val b) 4) /\
  decode_lower_hex (lower_hex (N.land (byte_val b) 15)) = Some (N.land (byte_val b) 15) /\
  ascii_of_N (N.lor (N.shiftl (N.shiftr (byte_val b) 4) 4) (N.land (byte_val b) 15)) = b.
Proof. by destruct b as [[] [] [] [] [] [] [] []]. Qed.

Lemma decode_lower_hex_spec b n : decode_lower_hex b = Some n -> (n < 16)%N /\ lower_hex n = b.
Proof. destruct b as [[] [] [] [] [] [] [] []]; intros [= <-]; by split. Qed.

Lemma nibbles hi lo : (hi < 16)%N -> (lo < 16)%N ->
  let b := ascii_of_N (N.lor (N.shiftl hi 4) lo) in N.shiftr (byte_val b) 4 = hi /\ N.land (byte_val b) 15 = lo.
Proof.
  intros Hh Hl. assert (H : forallb (fun i => forallb (fun j =>
    let b := ascii_of_N (N.lor (N.shiftl (N.of_nat i) 4) (N.of_nat j)) in
    (N.shiftr (byte_val b) 4 =? N.of_nat i)%N && (N.land (byte_val b) 15 =? N.of_nat j)%N) (seq 0 16)) (seq 0 16) = true)
    by (vm_compute; reflexivity).
  rewrite forallb_forall in H. specialize (H (N.to_nat hi)). rewrite forallb_forall in H.
  assert (Hs : forall k, (k < 16)%N -> In (N.to_nat k) (seq 0 16)) by (intros; apply in_seq; lia).
  specialize (H (Hs hi Hh) (N.to_nat lo) (Hs lo Hl)). rewrite !N2Nat.id in H.
  apply andb_prop in H as [H1 H2]. by apply N.eqb_eq in H1, H2.
Qed.

Definition hex_of (l : list byte) : list byte :=
  flat_map (fun b => [lower_hex (N.shiftr (byte_val b) 4); lower_hex (N.land (byte_val b) 15)]) l.

Lemma decode_hex_of l : decode_pairs (hex_of l) = Ok l.
Proof.
  induction l as [|b l IH]; [done|]. unfold hex_of in *. cbn [flat_map app decode_pairs].
  destruct (lower_hex_byte b) as (-> & -> & Hb). rewrite IH. cbn [rbind]. by rewrite Hb.
Qed.

Lemma length_hex_of l : length (hex_of l) = 2 * length l.
Proof. induction l as [|b l IH]; [done|]. unfold hex_of in *. simpl. lia. Qed.

Lemma decode_pairs_hex n l bs : length l = 2 * n -> decode_pairs l = Ok bs -> length bs = n /\ hex_of bs = l.
Proof.
  revert l bs. induction n as [|n IH]; intros l bs Hn H.
  - destruct l; [|simpl in Hn; lia]. by injection H as <-.
  - destruct l as [|h [|l rest]]; [simpl in Hn; lia..|]. cbn [decode_pairs] in H.
    destruct (decode_lower_hex h) as [hi|] eqn:Eh; [|done]. destruct (decode_lower_hex l) as [lo|] eqn:El; [|done].
    destruct (decode_pairs rest) as [bs'|e| |] eqn:E; try done. injection H as <-.
    destruct (IH rest bs') as [Hl Hr]; [simpl in Hn; lia|done|].
    apply decode_lower_hex_spec in Eh as [Hh <-], El as [Hlo <-].
    destruct (nibbles hi lo Hh Hlo) as [N1 N2]. split; [simpl; lia|].
    unfold hex_of in *. cbn [flat_map app]. by rewrite N1, N2, Hr.
Qed.

(** A text parses to a digest exactly when the digest has 32 bytes and the
    text is its hexadecimal form: parsing and printing are inverse, and no
    other spelling of a digest is accepted. *)
Theorem parse_hex_correct (s : string) (d : Sha256Digest) :
  parse_hex s = Ok d <-> length (digest_bytes d) = 32 /\ to_hex d = s.
Proof.
  unfold parse_hex, to_hex. fold (hex_of (digest_bytes d)). destruct d as [l]. simpl digest_bytes. split.
  - destruct (String.length s =? 64) eqn:E; [|done]. apply Nat.eqb_eq in E. simpl.
    destruct (decode_pairs (as_bytes s)) as [bs|e| |] eqn:Ed; try done. intros [= ->].
    destruct (decode_pairs_hex 32 (as_bytes s) l) as [Hl Hh]; [by rewrite length_as_bytes|done|].
    split; [done|]. rewrite Hh. apply string_of_list_ascii_of_string.
  - intros [Hl <-].
    assert (Hb : as_bytes (from_bytes (hex_of l)) = hex_of l) by apply list_ascii_of_string_of_list_ascii.
    assert (Hlen : String.length (from_bytes (hex_of l)) = 64) by (rewrite <- length_as_bytes, Hb, length_hex_of; lia).
    rewrite Hlen. simpl. by rewrite Hb, decode_hex_of.
Qed.

(** ** The life cycle *)

(** The states a session goes through when the transitions are requested one
    after the other and the refused ones are ignored. *)
Fixpoint accepted (s : SessionLifecycle) (requests : list SessionState) : list SessionState :=
  match requests with
  | [] => []
  | next :: requests' =>
      let '(r, s') := transition next s in
      match r with Ok _ => next :: accepted s' requests' | _ => accepted s' requests' end
  end.

Inductive path : SessionState -> list SessionState -> Prop :=
  | path_end s : path s []
  | path_step s next rest : transition_allowed s next = true -> path next rest -> path s (next :: rest).

Lemma accepted_path s requests : path (state s) (accepted s requests).
Proof.
  revert s. induction requests as [|next requests IH]; intros s; simpl; [constructor|].
  unfold transition. destruct (transition_allowed (state s) next) eqn:E; simpl; [|apply IH].
  constructor; [done|]. apply (IH (mkLifecycle next)).
Qed.

Lemma path_terminal s l : s = SessionState.Closed \/ s = SessionState.Failed -> path s l -> l = [].
Proof. intros [-> | ->] H; inversion H as [|? next rest Hn Hr]; subst; try done; by destruct next. Qed.

Definition all_paths : list (list SessionState) :=
  let stops := [[SessionState.Stopping]; [SessionState.Stopping; SessionState.Closed];
                [SessionState.Stopping; SessionState.Failed]; [SessionState.Failed]; []] in
  [] :: [SessionState.Failed] ::
  ((fun l => SessionState.Ready :: l) <$> stops) ++
  ((fun l => SessionState.Ready :: SessionState.Running :: l) <$> stops).

Lemma path_cases l : path SessionState.Preparing l -> l ∈ all_paths.
Proof.
  intros H. apply (bool_decide_unpack _).
  repeat match goal with
         | H : path ?s ?l |- _ =>
             inversion H as [|? next ? Hn ?]; clear H; subst; [|destruct next; try discriminate Hn; clear Hn]
         end; vm_compute; reflexivity.
Qed.

(** Whatever transitions are requested of a new session, it goes through
    at most four states and none twice, nothing is accepted after [Closed] or
    [Failed], and it is closed exactly on the two ways that stop it first. *)
Theorem lifecycle_paths (requests : list SessionState) :
  let states := accepted new_lifecycle requests in
  length states <= 4 /\ NoDup states /\
  (forall before after s, states = before ++ s :: after ->
     s = SessionState.Closed \/ s = SessionState.Failed -> after = []) /\
  (SessionState.Closed ∈ states <->
     states = [SessionState.Ready; SessionState.Stopping; SessionState.Closed] \/
     states = [SessionState.Ready; SessionState.Running; SessionState.Stopping; SessionState.Closed]).
Proof.
  simpl. pose proof (accepted_path new_lifecycle requests) as H. simpl in H.
  generalize dependent (accepted new_lifecycle requests). intros l H.
  assert (Ht : forall before after s, l = before ++ s :: after -> s = SessionState.Closed \/ s = SessionState.Failed -> after = []).
  { intros before after s -> Hs. revert H. generalize SessionState.Preparing.
    induction before as [|x before IH]; intros from H; inversion H; subst; [by eapply path_terminal|by eapply IH]. }
  apply path_cases in H. split; [|split; [|split; [exact Ht|]]]; clear Ht;
    repeat (apply elem_of_cons in H as [->|H]); try (by apply elem_of_nil in H);
    first [simpl; lia|apply (bool_decide_unpack _); vm_compute; reflexivity].
Qed.
