(* ===== verification/SandboxCatalog.v ===== *)
(** * The catalog of approved tools (catalog.rs)

    A snapshot lists the approved tools of a platform with the helpers each may
    start.  [validate] checks a snapshot, [activate] computes the tools a
    session may use.  Maps and sets keyed by [ToolId] are [btree]s keyed by its
    text; the path normalizer is a trait of the host and is an interface. *)

From stdpp Require Import base tactics list strings option numbers.
From Stdlib Require Import ZArith NArith Lia Ascii String.
From S2P Require Import Prelude RustStr BTree SandboxError SandboxIdentity.

Open Scope string_scope.
Open Scope list_scope.
Open Scope nat_scope.

(** ** Sets of strings *)

Abbreviation bset := (btree unit).
Definition bs_contains (k : string) (s : bset) : bool := bt_contains_key k s.
Definition bs_add (k : string) (s : bset) : bset := bt_insert k tt s.
Definition bs_of_list (l : list string) : bset := foldl (fun s k => bs_add k s) [] l.
Definition bs_elements (s : bset) : list string := bt_keys s.

(** ** Data *)

Module OperatingSystem.
Inductive OperatingSystem : Type := Windows | Linux | Macos.
End OperatingSystem.
Abbreviation OperatingSystem := OperatingSystem.OperatingSystem.

Module Architecture.
Inductive Architecture : Type := X86_64 | Aarch64.
End Architecture.
Abbreviation Architecture := Architecture.Architecture.

Record PlatformId : Type := mkPlatform { os : OperatingSystem; arch : Architecture }.

Module TransportAdapter.
Inductive TransportAdapter : Type := HttpConnect | SshProxyCommand.
End TransportAdapter.
Abbreviation TransportAdapter := TransportAdapter.TransportAdapter.

Module ArtifactKind.
Inductive ArtifactKind : Type := Executable | Library | Resource.
End ArtifactKind.
Abbreviation ArtifactKind := ArtifactKind.ArtifactKind.

#[export] Instance OperatingSystem_eq : EqDecision OperatingSystem.
Proof. solve_decision. Defined.
#[export] Instance Architecture_eq : EqDecision Architecture.
Proof. solve_decision. Defined.
#[export] Instance PlatformId_eq : EqDecision PlatformId.
Proof. solve_decision. Defined.
#[export] Instance ArtifactKind_eq : EqDecision ArtifactKind.
Proof. solve_decision. Defined.
#[export] Instance Sha256Digest_eq : EqDecision Sha256Digest.
Proof. solve_decision. Defined.
#[export] Instance CatalogGeneration_eq : EqDecision CatalogGeneration.
Proof. solve_decision. Defined.

Record HashedArtifact : Type := mkArtifact {
  logical_name : string; managed_canonical_path : string; artifact_sha256 : Sha256Digest; artifact_kind : ArtifactKind }.

Record ToolReference : Type := mkReference { ref_tool_id : ToolId; ref_sha256 : Sha256Digest }.

Record ApprovalActor : Type := mkActor { display_name : string; mechanism : string }.

Record ReplacementLineage : Type := mkLineage { prior_generation : CatalogGeneration; prior_sha256 : Sha256Digest }.

(** [schema_version] is a [u16], [approved_at] a [u64]. *)
Record CatalogRecord : Type := mkRecord {
  schema_version : N; generation : CatalogGeneration; tool_id : ToolId; record_platform : PlatformId;
  original_source_path : string; executable : HashedArtifact; helpers : list ToolReference;
  non_system_libraries : list HashedArtifact; resources : list HashedArtifact;
  transport_adapter : option TransportAdapter; approval_actor : ApprovalActor; approved_at : N;
  replaces : option ReplacementLineage }.

Record CatalogSnapshot : Type := mkSnapshot {
  snap_schema_version : N; snap_generation : CatalogGeneration; snap_platform : PlatformId;
  snap_records : list CatalogRecord; snap_revoked_tools : list ToolId }.

Record PreparedTool : Type := mkPrepared {
  prepared_tool_id : ToolId; prepared_executable : HashedArtifact; helper_ids : list ToolId;
  prepared_libraries : list HashedArtifact; prepared_resources : list HashedArtifact;
  prepared_adapter : option TransportAdapter }.

Record PreparedCatalogClosure : Type := mkClosure {
  closure_generation : CatalogGeneration; closure_platform : PlatformId; roots : bset; tools : btree PreparedTool }.

Record ValidatedCatalogSnapshot : Type := mkValidated {
  val_schema_version : N; val_generation : CatalogGeneration; val_platform : PlatformId;
  records : btree CatalogRecord; revoked_tools : bset }.

Record PublicToolRecord : Type := mkPublic {
  public_tool_id : ToolId; executable_sha256 : Sha256Digest; public_helper_ids : list ToolId;
  public_adapter : option TransportAdapter }.

Record PublicCatalogSnapshot : Type := mkPublicSnapshot {
  pub_schema_version : N; pub_generation : CatalogGeneration; pub_platform : PlatformId;
  pub_records : list PublicToolRecord; pub_revoked_tools : list ToolId }.

Definition CATALOG_SCHEMA_V1 : N := 1.

(** The host's path normalizer. *)
Class CatalogPathNormalizer : Type := normalize : PlatformId -> string -> result string.

(** ** The derived orders *)

Definition then_compare (c d : comparison) : comparison := match c with Eq => d | _ => c end.

Definition digest_compare (a b : Sha256Digest) : comparison :=
  String.compare (from_bytes (digest_bytes a)) (from_bytes (digest_bytes b)).

Definition kind_rank (k : ArtifactKind) : nat :=
  match k with ArtifactKind.Executable => 0 | ArtifactKind.Library => 1 | ArtifactKind.Resource => 2 end.

Definition reference_compare (a b : ToolReference) : comparison :=
  then_compare (String.compare (tool_str (ref_tool_id a)) (tool_str (ref_tool_id b)))
    (digest_compare (ref_sha256 a) (ref_sha256 b)).

Definition artifact_compare (a b : HashedArtifact) : comparison :=
  then_compare (String.compare (logical_name a) (logical_name b))
    (then_compare (String.compare (managed_canonical_path a) (managed_canonical_path b))
       (then_compare (digest_compare (artifact_sha256 a) (artifact_sha256 b))
          (Nat.compare (kind_rank (artifact_kind a)) (kind_rank (artifact_kind b))))).

(** ** Validation of records *)

Definition valid_catalog_text (value : string) : bool :=
  negb (String.eqb value "") && negb (contains_byte "000" value).

Section validate.
Context `{CatalogPathNormalizer}.

(** The artifact with its normalized path, and the logical names and paths
    seen so far. *)
Definition validate_artifact (expected_kind : ArtifactKind) (platform : PlatformId) (logical_names normalized_paths : bset)
    (artifact : HashedArtifact) : result (HashedArtifact * bset * bset) :=
  if negb (bool_decide (artifact_kind artifact = expected_kind))
     || negb (valid_catalog_text (logical_name artifact))
     || bs_contains (logical_name artifact) logical_names
     || negb (valid_catalog_text (managed_canonical_path artifact))
  then Err policy_error
  else
    let logical_names := bs_add (logical_name artifact) logical_names in
    let? normalized := normalize platform (managed_canonical_path artifact) in
    if negb (valid_catalog_text normalized) || bs_contains normalized normalized_paths then Err policy_error
    else Ok (mkArtifact (logical_name artifact) normalized (artifact_sha256 artifact) (artifact_kind artifact),
             logical_names, bs_add normalized normalized_paths).

Fixpoint validate_artifacts (expected_kind : ArtifactKind) (platform : PlatformId) (logical_names normalized_paths : bset)
    (artifacts : list HashedArtifact) : result (list HashedArtifact * bset * bset) :=
  match artifacts with
  | [] => Ok ([], logical_names, normalized_paths)
  | artifact :: artifacts' =>
      let? (artifact, logical_names, normalized_paths) :=
        validate_artifact expected_kind platform logical_names normalized_paths artifact in
      let? (artifacts', logical_names, normalized_paths) :=
        validate_artifacts expected_kind platform logical_names normalized_paths artifacts' in
      Ok (artifact :: artifacts', logical_names, normalized_paths)
  end.

Fixpoint distinct_helpers (helper_ids : bset) (l : list ToolReference) : bool :=
  match l with
  | [] => true
  | reference :: l' =>
      let id := tool_str (ref_tool_id reference) in
      negb (bs_contains id helper_ids) && distinct_helpers (bs_add id helper_ids) l'
  end.

Definition validate_record (platform : PlatformId) (normalized_paths : bset) (record : CatalogRecord)
    : result (CatalogRecord * bset) :=
  if negb (valid_catalog_text (original_source_path record))
     || negb (valid_catalog_text (display_name (approval_actor record)))
     || negb (valid_catalog_text (mechanism (approval_actor record)))
  then Err policy_error
  else
    let? (executable, logical_names, normalized_paths) :=
      validate_artifact ArtifactKind.Executable platform [] normalized_paths (executable record) in
    let? (libraries, logical_names, normalized_paths) :=
      validate_artifacts ArtifactKind.Library platform logical_names normalized_paths (non_system_libraries record) in
    let? (resources, logical_names, normalized_paths) :=
      validate_artifacts ArtifactKind.Resource platform logical_names normalized_paths (resources record) in
    if negb (distinct_helpers [] (helpers record)) then Err policy_error
    else Ok (mkRecord (schema_version record) (generation record) (tool_id record) (record_platform record)
               (original_source_path record) executable (sort_by reference_compare (helpers record))
               (sort_by artifact_compare libraries) (sort_by artifact_compare resources)
               (transport_adapter record) (approval_actor record) (approved_at record) (replaces record),
             normalized_paths).

(** [for record in records.values_mut()]. *)
Fixpoint validate_records (platform : PlatformId) (normalized_paths : bset) (records : btree CatalogRecord)
    : result (btree CatalogRecord) :=
  match records with
  | [] => Ok []
  | (id, record) :: records' =>
      let? (record, normalized_paths) := validate_record platform normalized_paths record in
      let? records' := validate_records platform normalized_paths records' in
      Ok ((id, record) :: records')
  end.

End validate.

(** ** The helper graph *)

(** The references of a record, in order. *)
Fixpoint check_references (records : btree CatalogRecord) (revoked_tools : bset) (l : list ToolReference) : result unit :=
  match l with
  | [] => Ok tt
  | reference :: l' =>
      let id := ref_tool_id reference in
      if bs_contains (tool_str id) revoked_tools then Err (tool_not_approved id)
      else match bt_get (tool_str id) records with
           | None => Err (tool_not_approved id)
           | Some helper =>
               if negb (bool_decide (ref_sha256 reference = artifact_sha256 (executable helper)))
               then Err (tool_fingerprint_mismatch id)
               else check_references records revoked_tools l'
           end
  end.

Fixpoint check_all_references (records : btree CatalogRecord) (revoked_tools : bset) (l : list CatalogRecord) : result unit :=
  match l with
  | [] => Ok tt
  | record :: l' =>
      let? _ := check_references records revoked_tools (helpers record) in
      check_all_references records revoked_tools l'
  end.

Module VisitState.
Inductive VisitState : Type := Visiting | Complete.
End VisitState.
Abbreviation VisitState := VisitState.VisitState.

Record VisitFrame : Type := mkFrame { frame_tool : string; next_helper_index : nat }.

(** One turn of [while let Some(frame) = stack.last_mut()], the top of the
    stack first. *)
Definition visit_step (records : btree CatalogRecord) (states : btree VisitState) (frame : VisitFrame) (stack : list VisitFrame)
    : result (btree VisitState * list VisitFrame) :=
  match bt_get (frame_tool frame) records with
  | None => Panic
  | Some record =>
      match helpers record !! next_helper_index frame with
      | None => Ok (bt_insert (frame_tool frame) VisitState.Complete states, stack)
      | Some reference =>
          let stack := mkFrame (frame_tool frame) (S (next_helper_index frame)) :: stack in
          let helper := tool_str (ref_tool_id reference) in
          match bt_get helper states with
          | Some VisitState.Visiting => Err policy_error
          | Some VisitState.Complete => Ok (states, stack)
          | None => Ok (bt_insert helper VisitState.Visiting states, mkFrame helper 0 :: stack)
          end
      end
  end.

Fixpoint visit_loop (fuel : nat) (records : btree CatalogRecord) (states : btree VisitState) (stack : list VisitFrame)
    : result (btree VisitState) :=
  match fuel with
  | O => OutOfFuel
  | S fuel' =>
      match stack with
      | [] => Ok states
      | frame :: stack' =>
          let? (states, stack) := visit_step records states frame stack' in
          visit_loop fuel' records states stack
      end
  end.

(** A tool is visited once, and once more for each of its helpers. *)
Definition visit_fuel (records : btree CatalogRecord) : nat :=
  S (list_sum ((fun record => S (length (helpers record))) <$> bt_values records)).

Fixpoint visit_roots (records : btree CatalogRecord) (states : btree VisitState) (l : list string) : result unit :=
  match l with
  | [] => Ok tt
  | root :: l' =>
      match bt_get root states with
      | Some VisitState.Complete => visit_roots records states l'
      | _ =>
          let? states := visit_loop (visit_fuel records) records (bt_insert root VisitState.Visiting states) [mkFrame root 0] in
          visit_roots records states l'
      end
  end.

Definition validate_helper_graph (records : btree CatalogRecord) (revoked_tools : bset) : result unit :=
  let? _ := check_all_references records revoked_tools (bt_values records) in
  visit_roots records [] (bt_keys records).

(** ** Validation of a snapshot *)

Definition generation_le (a b : CatalogGeneration) : bool := (generation_number a <=? generation_number b)%N.

(** The records in the order of the snapshot, into a map. *)
Fixpoint insert_records (snapshot_generation : CatalogGeneration) (platform : PlatformId) (records : btree CatalogRecord)
    (l : list CatalogRecord) : result (btree CatalogRecord) :=
  match l with
  | [] => Ok records
  | record :: l' =>
      if negb (schema_version record =? CATALOG_SCHEMA_V1)%N
         || negb (bool_decide (generation record = snapshot_generation))
         || negb (bool_decide (record_platform record = platform))
         || match replaces record with
            | Some lineage => generation_le snapshot_generation (prior_generation lineage)
            | None => false
            end
      then Err policy_error
      else
        let id := tool_str (tool_id record) in
        if bt_contains_key id records then Err policy_error
        else insert_records snapshot_generation platform (bt_insert id record records) l'
  end.

Definition validate `{CatalogPathNormalizer} (s : CatalogSnapshot) : result ValidatedCatalogSnapshot :=
  if negb (snap_schema_version s =? CATALOG_SCHEMA_V1)%N then Err policy_error
  else
    let? records := insert_records (snap_generation s) (snap_platform s) [] (snap_records s) in
    let revoked_tools := bs_of_list (tool_str <$> snap_revoked_tools s) in
    let? records := validate_records (snap_platform s) [] records in
    let? _ := validate_helper_graph records revoked_tools in
    Ok (mkValidated (snap_schema_version s) (snap_generation s) (snap_platform s) records revoked_tools).
(** ** Activation *)

Definition helper_names (record : CatalogRecord) : list string := (fun r => tool_str (ref_tool_id r)) <$> helpers record.

(** The loop of [activate]; the next tool to look at is the head of [pending]. *)
Fixpoint select_tools (fuel : nat) (v : ValidatedCatalogSnapshot) (selected : bset) (pending : list string) : result bset :=
  match fuel with
  | O => OutOfFuel
  | S fuel' =>
      match pending with
      | [] => Ok selected
      | id :: pending' =>
          if bs_contains id (revoked_tools v) then Err (tool_not_approved (mkToolId id))
          else match bt_get id (records v) with
               | None => Err (tool_not_approved (mkToolId id))
               | Some record =>
                   if bs_contains id selected then select_tools fuel' v selected pending'
                   else select_tools fuel' v (bs_add id selected) (helper_names record ++ pending')
               end
      end
  end.

(** A tool is pending once as a root and once for each record that names it. *)
Definition select_fuel (v : ValidatedCatalogSnapshot) (roots : bset) : nat :=
  S (length roots + list_sum ((fun record => length (helpers record)) <$> bt_values (records v))).

Definition prepare (id : string) (record : CatalogRecord) : PreparedTool :=
  mkPrepared (mkToolId id) (executable record) (ref_tool_id <$> helpers record) (non_system_libraries record)
    (resources record) (transport_adapter record).

(** [self.records[&tool_id]] for each selected tool. *)
Fixpoint prepare_tools (records : btree CatalogRecord) (l : list string) : result (btree PreparedTool) :=
  match l with
  | [] => Ok []
  | id :: l' =>
      match bt_get id records with
      | None => Panic
      | Some record => let? tools := prepare_tools records l' in Ok (bt_insert id (prepare id record) tools)
      end
  end.

Definition activate (requested : list ToolId) (v : ValidatedCatalogSnapshot) : result PreparedCatalogClosure :=
  let roots := bs_of_list (tool_str <$> requested) in
  let? selected := select_tools (select_fuel v roots) v [] (bs_elements roots) in
  let? tools := prepare_tools (records v) (bs_elements selected) in
  Ok (mkClosure (val_generation v) (val_platform v) roots tools).

(** ** Public views *)

Definition public_record (record : CatalogRecord) : PublicToolRecord :=
  mkPublic (tool_id record) (artifact_sha256 (executable record)) (ref_tool_id <$> helpers record) (transport_adapter record).

Definition public_snapshot (v : ValidatedCatalogSnapshot) : PublicCatalogSnapshot :=
  mkPublicSnapshot (val_schema_version v) (val_generation v) (val_platform v)
    (public_record <$> bt_values (records v)) (mkToolId <$> bs_elements (revoked_tools v)).

Definition public_prepared_tool (tool : PreparedTool) : PublicToolRecord :=
  mkPublic (prepared_tool_id tool) (artifact_sha256 (prepared_executable tool)) (helper_ids tool) (prepared_adapter tool).

Definition public_records (c : PreparedCatalogClosure) : list PublicToolRecord :=
  public_prepared_tool <$> bt_values (tools c).
