(* ===== verification/SandboxCatalogProofs.v ===== *)
(** * Correctness of the tool catalog

    The helper graph is accepted exactly when every reference names an
    approved tool with its digest and no tool helps itself, directly or not;
    activation selects exactly the tools reachable from the requested ones.
    Both loops end within the fuel of the model. *)

From stdpp Require Import base tactics list strings option numbers relations.
From Stdlib Require Import ZArith NArith Lia Ascii String.
From S2P Require Import Prelude RustStr BTree SandboxError SandboxIdentity SandboxCatalog.

Open Scope string_scope.
Open Scope list_scope.
Open Scope nat_scope.

(** ** Maps and sets *)

Lemma bt_get_keys {A} k (m : btree A) : is_Some (bt_get k m) <-> k ∈ bt_keys m.
Proof.
  induction m as [|[k' v] m IH]; simpl.
  - split; [by intros []|by intros ?%elem_of_nil].
  - rewrite elem_of_cons, <- IH. destruct (String.eqb_spec k k') as [->|Hn]; [split; eauto|].
    split; [auto|by intros [|]].
Qed.

Lemma bt_get_values {A} k (m : btree A) v : bt_get k m = Some v -> v ∈ bt_values m.
Proof. intros H%bt_get_In. unfold bt_values. by apply (list_elem_of_fmap_2' _ _ (k, v)). Qed.

Lemma bs_contains_spec k s : bs_contains k s = true <-> k ∈ bs_elements s.
Proof. unfold bs_contains. by rewrite bt_contains_get, bt_get_keys. Qed.

Lemma bs_contains_add k k' s : bs_contains k (bs_add k' s) = String.eqb k k' || bs_contains k s.
Proof.
  unfold bs_contains, bs_add, bt_contains_key. rewrite bt_get_insert. by destruct (String.eqb k k').
Qed.

Lemma bs_of_list_spec k l : bs_contains k (bs_of_list l) = true <-> k ∈ l.
Proof.
  unfold bs_of_list. assert (H : forall s, bs_contains k (foldl (fun s k => bs_add k s) s l) = true <->
    k ∈ l \/ bs_contains k s = true).
  { induction l as [|x l IH]; intros s; simpl; [rewrite elem_of_nil; tauto|].
    rewrite IH, bs_contains_add, orb_true_iff, String.eqb_eq, elem_of_cons. tauto. }
  rewrite H. simpl. split; [by intros [|]|by left].
Qed.

(** The part of a map outside a set, weighed. *)
Definition weight {A} (w : A -> nat) (seen : string -> bool) (m : btree A) : nat :=
  list_sum ((fun kv => if seen kv.1 then 0 else w kv.2) <$> m).

Lemma weight_cons {A} w p k (v : A) m : weight w p ((k, v) :: m) = (if p k then 0 else w v) + weight w p m.
Proof. done. Qed.

Lemma weight_mono {A} w (p q : string -> bool) (m : btree A) :
  (forall k, q k = true -> p k = true) -> weight w p m <= weight w q m.
Proof.
  intros H. induction m as [|[k v] m IH]; [done|]. rewrite !weight_cons.
  specialize (H k). destruct (p k), (q k); lia.
Qed.

Lemma weight_add {A} w (p q : string -> bool) (m : btree A) k v :
  bt_get k m = Some v -> p k = false -> q k = true -> (forall k', p k' = true -> q k' = true) ->
  weight w q m + w v <= weight w p m.
Proof.
  intros Hg Hp Hq Hm. induction m as [|[k' v'] m IH]; [done|].
  rewrite !weight_cons. simpl in Hg. assert (Hw : weight w q m <= weight w p m) by (apply weight_mono; exact Hm).
  destruct (String.eqb_spec k k') as [<-|_].
  - injection Hg as ->. rewrite Hp, Hq. lia.
  - specialize (IH Hg). specialize (Hm k'). destruct (p k'), (q k'); lia.
Qed.

Lemma weight_all {A} w p (m : btree A) : weight w p m <= list_sum (w <$> bt_values m).
Proof.
  induction m as [|[k v] m IH]; [done|]. rewrite weight_cons. change (bt_values ((k, v) :: m)) with (v :: bt_values m). rewrite fmap_cons. simpl. destruct (p k); lia.
Qed.

(** ** The graph *)

Definition edge (records : btree CatalogRecord) (a b : string) : Prop :=
  exists record, bt_get a records = Some record /\ b ∈ helper_names record.

Definition acyclic (records : btree CatalogRecord) : Prop := forall k, ~ tc (edge records) k k.

(** The tools a session that requests [requested] may come to start. *)
Definition reachable (v : ValidatedCatalogSnapshot) (requested : list ToolId) (id : string) : Prop :=
  exists root, root ∈ tool_str <$> requested /\ rtc (edge (records v)) root id.

Definition approved (v : ValidatedCatalogSnapshot) (id : string) : Prop :=
  bs_contains id (revoked_tools v) = false /\ is_Some (bt_get id (records v)).

(** ** Activation *)

Section activate.
Context (v : ValidatedCatalogSnapshot) (R : string -> Prop).
Hypothesis R_edge : forall a b, R a -> edge (records v) a b -> R b.

Definition pending_weight (selected : bset) (pending : list string) : nat :=
  length pending + weight (fun record => length (helpers record)) (fun k => bs_contains k selected) (records v).

(** Every helper of a selected tool is selected or pending. *)
Definition closed_up (selected : bset) (pending : list string) : Prop :=
  forall a b, bs_contains a selected = true -> edge (records v) a b -> bs_contains b selected = true \/ b ∈ pending.

Definition all_good (selected : bset) : Prop := forall k, bs_contains k selected = true -> R k /\ approved v k.

Lemma select_tools_spec fuel selected pending :
  pending_weight selected pending < fuel -> all_good selected -> Forall R pending -> closed_up selected pending ->
  (exists s, select_tools fuel v selected pending = Ok s /\ all_good s /\ closed_up s [] /\
     (forall k, bs_contains k selected = true \/ k ∈ pending -> bs_contains k s = true)) \/
  (exists k, select_tools fuel v selected pending = Err (tool_not_approved (mkToolId k)) /\ R k /\ ~ approved v k).
Proof.
  revert selected pending. induction fuel as [|fuel IH]; intros selected pending Hw Hg Hp Hc; [lia|]. simpl.
  destruct pending as [|id pending].
  { left. exists selected. split_and!; [done..|]. intros k [|?%elem_of_nil]; done. }
  apply Forall_cons_1 in Hp as [Hid Hp].
  destruct (bs_contains id (revoked_tools v)) eqn:Er.
  { right. exists id. split; [done|]. split; [done|]. intros [? _]. congruence. }
  destruct (bt_get id (records v)) as [record|] eqn:Eg.
  2:{ right. exists id. split; [done|]. split; [done|]. intros [_ [? ?]]. congruence. }
  destruct (bs_contains id selected) eqn:Es.
  - destruct (IH selected pending) as [(s & Hs & Hgs & Hcs & Hall)|(k & Hk)]; try done.
    + unfold pending_weight in *. simpl in Hw. lia.
    + intros a b Ha Hb. destruct (Hc a b Ha Hb) as [|[->|]%elem_of_cons]; auto.
    + left. exists s. split_and!; [done..|]. intros k [|[->|]%elem_of_cons]; auto.
    + right. by exists k.
  - destruct (IH (bs_add id selected) (helper_names record ++ pending)) as [(s & Hs & Hgs & Hcs & Hall)|(k & Hk)].
    + unfold pending_weight in *. rewrite length_app. unfold helper_names. rewrite length_fmap.
      pose proof (weight_add (fun r => length (helpers r)) (fun k => bs_contains k selected)
                    (fun k => bs_contains k (bs_add id selected)) (records v) id record Eg Es) as Ha.
      cbv beta in Ha. rewrite bs_contains_add, String.eqb_refl in Ha. simpl in Hw, Ha.
      enough (weight (fun r => length (helpers r)) (fun k => bs_contains k (bs_add id selected)) (records v)
                + length (helpers record) <= weight (fun r => length (helpers r)) (fun k => bs_contains k selected) (records v)) by lia.
      apply Ha; [done|]. intros k' Hk'. by rewrite bs_contains_add, Hk', orb_true_r.
    + intros k. rewrite bs_contains_add, orb_true_iff, String.eqb_eq. intros [->|]; [|by apply Hg].
      split; [done|]. split; [done|]. by eexists.
    + apply Forall_app. split; [|done]. apply list.Forall_forall. intros b Hb. apply (R_edge id); [done|]. exists record. split; [exact Eg|done].
    + intros a b. rewrite !bs_contains_add, !orb_true_iff, !String.eqb_eq, elem_of_app. intros [->|Ha] Hb.
      * destruct Hb as (r & Hr & Hb). rewrite Eg in Hr. injection Hr as <-. tauto.
      * destruct (Hc a b Ha Hb) as [|[->|]%elem_of_cons]; tauto.
    + left. exists s. split_and!; [done..|].
      intros k Hk. apply Hall. rewrite bs_contains_add, orb_true_iff, String.eqb_eq, elem_of_app.
      destruct Hk as [|[->|]%elem_of_cons]; tauto.
    + right. by exists k.
Qed.
End activate.

Lemma prepare_tools_spec records l :
  Forall (fun k => is_Some (bt_get k records)) l ->
  exists ts, prepare_tools records l = Ok ts /\
    forall k, bt_get k ts = if bool_decide (k ∈ l) then prepare k <$> bt_get k records else None.
Proof.
  induction l as [|id l IH]; cbn [prepare_tools]; intros H.
  - exists []. split; [done|]. intros k. rewrite bool_decide_eq_false_2; [done|apply not_elem_of_nil].
  - apply Forall_cons_1 in H as [[record Hr] H]. rewrite Hr. destruct (IH H) as (ts & -> & Hts). simpl.
    eexists. split; [done|]. intros k. rewrite bt_get_insert, Hts.
    destruct (String.eqb_spec k id) as [->|Hn].
    + rewrite bool_decide_eq_true_2 by left. by rewrite Hr.
    + assert (k ∈ id :: l <-> k ∈ l) as Hiff by (rewrite elem_of_cons; tauto).
      by rewrite (bool_decide_ext _ _ Hiff).
Qed.

Lemma activation_exact (v : ValidatedCatalogSnapshot) (requested : list ToolId) :
  (exists c, activate requested v = Ok c /\
     closure_generation c = val_generation v /\ closure_platform c = val_platform v /\
     (forall id, bs_contains id (roots c) = true <-> id ∈ tool_str <$> requested) /\
     (forall id, is_Some (bt_get id (tools c)) <-> reachable v requested id) /\
     (forall id tool, bt_get id (tools c) = Some tool ->
        exists record, bt_get id (records v) = Some record /\ tool = prepare id record) /\
     (forall id, reachable v requested id -> approved v id)) \/
  (exists id, activate requested v = Err (tool_not_approved (mkToolId id)) /\
     reachable v requested id /\ ~ approved v id).
Proof.
  unfold activate. set (rs := bs_of_list (tool_str <$> requested)).
  assert (Hrs : forall id, id ∈ bs_elements rs <-> id ∈ tool_str <$> requested)
    by (intros id; rewrite <- bs_contains_spec; apply bs_of_list_spec).
  destruct (select_tools_spec v (reachable v requested)) with (fuel := select_fuel v rs) (selected := @nil (string * unit))
    (pending := bs_elements rs) as [(s & -> & Hgood & Hcl & Hall)|(k & -> & Hk)].
  - intros a b (r & Hr & Ha) Hb. exists r. split; [done|]. by eapply rtc_r.
  - unfold pending_weight, select_fuel, bs_elements, bt_keys. rewrite length_fmap.
    pose proof (weight_all (fun record => length (helpers record)) (fun k => bs_contains k []) (records v)). lia.
  - by intros k.
  - apply list.Forall_forall. intros k Hk%Hrs. exists k. split; [done|constructor].
  - by intros a b.
  - left. simpl. destruct (prepare_tools_spec (records v) (bs_elements s)) as (ts & -> & Hts).
    { apply list.Forall_forall. intros k Hk%bs_contains_spec. apply Hgood in Hk as [_ [_ ?]]. done. }
    assert (Hiff : forall id, reachable v requested id <-> id ∈ bs_elements s).
    { intros id. rewrite <- bs_contains_spec. split; [|intros; by apply Hgood].
      intros (r & Hr & Hp). assert (bs_contains r s = true) as Hb by (apply Hall; right; by apply Hrs).
      clear Hr. induction Hp as [|a b c Hab _ IH]; [done|]. apply IH.
      destruct (Hcl a b Hb Hab) as [|?%elem_of_nil]; done. }
    eexists. split; [done|]. simpl. split; [done|]. split; [done|]. split; [intros; apply bs_of_list_spec|].
    split; [|split].
    + intros id. rewrite Hts, Hiff. case_bool_decide as E; [|split; [by intros []|done]].
      split; [done|]. intros _. apply bs_contains_spec, Hgood in E as [_ [_ [r ->]]]. by eexists.
    + intros id tool. rewrite Hts. case_bool_decide as E; [|done].
      destruct (bt_get id (records v)) as [record|]; [|done]. intros [= <-]. by exists record.
    + intros id Hid. by apply Hgood, bs_contains_spec, Hiff.
  - right. by exists k.
Qed.

(** A session gets exactly the tools reachable from the requested ones
    through the helpers of the catalog, each with its record's artifacts; it
    gets none when a reachable tool is revoked or unknown, and the error names
    such a tool.  The search ends within its fuel, cyclic catalogs included. *)
Theorem activate_correct (v : ValidatedCatalogSnapshot) (requested : list ToolId) :
  (exists c, activate requested v = Ok c /\
     closure_generation c = val_generation v /\ closure_platform c = val_platform v /\
     (forall id, bs_contains id (roots c) = true <-> id ∈ tool_str <$> requested) /\
     (forall id, is_Some (bt_get id (tools c)) <-> reachable v requested id) /\
     (forall id tool, bt_get id (tools c) = Some tool ->
        exists record, bt_get id (records v) = Some record /\ tool = prepare id record) /\
     (forall id, reachable v requested id -> approved v id)) \/
  (exists id, activate requested v = Err (tool_not_approved (mkToolId id)) /\
     reachable v requested id /\ ~ approved v id).
Proof. exact (activation_exact v requested). Qed.

(** ** The helper graph *)

(** A reference that [validate] refuses, with its error. *)
Definition refused (records : btree CatalogRecord) (revoked : bset) (r : ToolReference) (e : SandboxError) : Prop :=
  let id := ref_tool_id r in
  (bs_contains (tool_str id) revoked = true \/ bt_get (tool_str id) records = None) /\ e = tool_not_approved id \/
  (exists helper, bt_get (tool_str id) records = Some helper /\ bs_contains (tool_str id) revoked = false /\
     ref_sha256 r <> artifact_sha256 (executable helper) /\ e = tool_fingerprint_mismatch id).

(** A reference to an approved tool with its digest. *)
Definition sound_reference (records : btree CatalogRecord) (revoked : bset) (r : ToolReference) : Prop :=
  bs_contains (tool_str (ref_tool_id r)) revoked = false /\
  exists helper, bt_get (tool_str (ref_tool_id r)) records = Some helper /\
    ref_sha256 r = artifact_sha256 (executable helper).

Definition sound_references (records : btree CatalogRecord) (revoked : bset) (l : list CatalogRecord) : Prop :=
  Forall (fun record => Forall (sound_reference records revoked) (helpers record)) l.

Lemma check_references_spec records revoked l :
  (check_references records revoked l = Ok tt /\ Forall (sound_reference records revoked) l) \/
  (exists r e, check_references records revoked l = Err e /\ r ∈ l /\ refused records revoked r e).
Proof.
  induction l as [|r l IH]; simpl; [by left|].
  destruct (bs_contains (tool_str (ref_tool_id r)) revoked) eqn:Er.
  { right. exists r. eexists. split; [done|]. split; [by left|]. left. auto. }
  destruct (bt_get (tool_str (ref_tool_id r)) records) as [helper|] eqn:Eg.
  2:{ right. exists r. eexists. split; [done|]. split; [by left|]. left. auto. }
  case_bool_decide as Ed; simpl.
  - destruct IH as [[-> Hl]|(r' & e & -> & Hr & He)].
    + left. split; [done|]. constructor; [|done]. split; [done|]. by exists helper.
    + right. exists r', e. split; [done|]. split; [by right|done].
  - right. exists r. eexists. split; [done|]. split; [by left|]. right. by exists helper.
Qed.

Lemma check_all_references_spec records revoked l :
  (check_all_references records revoked l = Ok tt /\ sound_references records revoked l) \/
  (exists record r e, check_all_references records revoked l = Err e /\ record ∈ l /\ r ∈ helpers record /\
     refused records revoked r e).
Proof.
  unfold sound_references. induction l as [|record l IH]; simpl; [by left|].
  destruct (check_references_spec records revoked (helpers record)) as [[-> Hr]|(r & e & -> & Hr & He)]; simpl.
  - destruct IH as [[-> Hl]|(record' & r & e & -> & Hrec & Hr' & He)]; [by left; split; [|constructor]|].
    right. exists record', r, e. split_and!; try done. by right.
  - right. exists record, r, e. split_and!; try done. by left.
Qed.

Section graph.
Context (records : btree CatalogRecord).
(** Every helper has a record. *)
Hypothesis present : forall a b, edge records a b -> is_Some (bt_get b records).

(** Each tool's helpers come later in the list. *)
Fixpoint topological (l : list string) : Prop :=
  match l with
  | [] => True
  | x :: l' => (forall y, edge records x y -> y ∈ l') /\ topological l'
  end.

Lemma topological_path l x y : topological l -> x ∈ l -> tc (edge records) x y ->
  exists before after, l = before ++ x :: after /\ topological after /\ y ∈ after.
Proof.
  intros Hl Hx Hp. revert l Hl Hx. induction Hp as [x y Hxy|x z y Hxz Hzy IH]; intros l Hl Hx.
  all: apply list_elem_of_split in Hx as (before & after & ->).
  all: assert (topological (x :: after)) as [He Ht] by (clear -Hl; induction before; [done|]; apply IHbefore, Hl).
  - exists before, after. auto.
  - destruct (IH after Ht (He z Hxz)) as (b & a & -> & Ha & Hy).
    exists before, (b ++ z :: a). split_and!; [done..|]. apply elem_of_app. right. by right.
Qed.

Lemma topological_acyclic l x : topological l -> x ∈ l -> ~ tc (edge records) x x.
Proof.
  remember (length l) as n eqn:Hn. revert l Hn. induction (lt_wf n) as [n _ IH]. intros l -> Hl Hx Hc.
  destruct (topological_path l x x Hl Hx Hc) as (b & a & -> & Ha & Hxa).
  apply (IH (length a)) with (l := a); try done. rewrite length_app. simpl. lia.
Qed.

(** The stack of the traversal: each frame's helpers before its index are
    complete, or are the tool of the frame above, which is one of them. *)
Fixpoint stacked (done : list string) (above : option string) (stack : list VisitFrame) : Prop :=
  match stack with
  | [] => True
  | f :: stack' =>
      (exists record, bt_get (frame_tool f) records = Some record /\
         forall i h, i < next_helper_index f -> helper_names record !! i = Some h -> h ∈ done \/ above = Some h) /\
      (forall a, above = Some a -> edge records (frame_tool f) a) /\
      stacked done (Some (frame_tool f)) stack'
  end.

Record visiting (states : btree VisitState) (stack : list VisitFrame) (done : list string) : Prop := {
  v_complete : forall k, bt_get k states = Some VisitState.Complete <-> k ∈ done;
  v_visiting : forall k, bt_get k states = Some VisitState.Visiting <-> k ∈ frame_tool <$> stack;
  v_nodup : NoDup (frame_tool <$> stack);
  v_topological : topological done;
  v_stacked : stacked done None stack }.

Lemma stacked_mono done done' above above' stack :
  (forall k, k ∈ done \/ above = Some k -> k ∈ done' \/ above' = Some k) ->
  (forall a, above' = Some a -> forall f, head stack = Some f -> edge records (frame_tool f) a) ->
  (forall k, k ∈ done -> k ∈ done') ->
  stacked done above stack -> stacked done' above' stack.
Proof.
  revert above above'. induction stack as [|f stack IH]; intros above above' Hk Ha Hd; [done|].
  simpl. intros ((record & Hr & Hi) & _ & Hs). split; [|split].
  - exists record. split; [done|]. intros i h Hlt Hh. eauto.
  - intros a ->. by apply Ha.
  - apply (IH (Some (frame_tool f))); try done.
    + intros k [|]; auto.
    + intros a [= <-] f' Hf'. destruct stack as [|f0 stack]; [done|]. injection Hf' as <-. by apply Hs.
Qed.

Lemma stacked_reaches done above f stack g :
  stacked done above (f :: stack) -> g ∈ frame_tool <$> (f :: stack) -> rtc (edge records) g (frame_tool f).
Proof.
  revert above f. induction stack as [|f' stack IH]; intros above f (Hr & _ & Hs) Hg.
  - apply elem_of_cons in Hg as [->|Hg]; [constructor|by apply elem_of_nil in Hg].
  - apply elem_of_cons in Hg as [->|Hg]; [constructor|].
    eapply rtc_r; [by eapply IH|]. destruct Hs as (_ & Ha & _). by apply Ha.
Qed.

(** What is left to do: the rest of each frame and the tools not yet seen. *)
Definition frame_left (f : VisitFrame) : nat :=
  match bt_get (frame_tool f) records with
  | Some record => S (length (helpers record) - next_helper_index f)
  | None => 0
  end.
Definition work (states : btree VisitState) (stack : list VisitFrame) : nat :=
  list_sum (frame_left <$> stack) +
  weight (fun record => S (length (helpers record))) (fun k => bt_contains_key k states) records.

Lemma helper_name_lookup record i reference :
  helpers record !! i = Some reference -> helper_names record !! i = Some (tool_str (ref_tool_id reference)).
Proof. intros H. unfold helper_names. by rewrite list_lookup_fmap, H. Qed.

Lemma contains_insert {A} k k' (v : A) m : bt_contains_key k (bt_insert k' v m) = String.eqb k k' || bt_contains_key k m.
Proof. unfold bt_contains_key. rewrite bt_get_insert. by destruct (String.eqb k k'). Qed.

(** A frame whose helpers are all visited is complete. *)
Lemma visit_pop states f stack done record :
  visiting states (f :: stack) done -> bt_get (frame_tool f) records = Some record ->
  helpers record !! next_helper_index f = None ->
  visiting (bt_insert (frame_tool f) VisitState.Complete states) stack (frame_tool f :: done).
Proof.
  intros [Hc Hv Hn Ht Hs] Hr Hnone. apply list.NoDup_cons in Hn as [Hf Hn].
  destruct Hs as ((record' & Hr' & Hi) & _ & Hs). rewrite Hr in Hr'. injection Hr' as <-. split.
  - intros k. rewrite bt_get_insert, elem_of_cons, <- Hc. destruct (String.eqb_spec k (frame_tool f)); [tauto|].
    split; [auto|by intros [|]].
  - intros k. rewrite bt_get_insert. destruct (String.eqb_spec k (frame_tool f)) as [->|Hk]; [by split|].
    rewrite Hv. rewrite fmap_cons, elem_of_cons. tauto.
  - done.
  - split; [|done]. intros y (record' & Hr' & Hy). rewrite Hr in Hr'. injection Hr' as <-.
    apply list_elem_of_lookup in Hy as [i Hy]. destruct (Hi i y) as [|]; [|done..|done].
    apply lookup_lt_Some in Hy. unfold helper_names in Hy. rewrite length_fmap in Hy.
    apply lookup_ge_None in Hnone. lia.
  - revert Hs. apply stacked_mono; [|done|by right].
    intros k [|[= <-]]; left; [by right|by left].
Qed.

(** A helper that is already complete. *)
Lemma visit_skip states f stack done record h :
  visiting states (f :: stack) done -> bt_get (frame_tool f) records = Some record ->
  helper_names record !! next_helper_index f = Some h -> h ∈ done ->
  visiting states (mkFrame (frame_tool f) (S (next_helper_index f)) :: stack) done.
Proof.
  intros [Hc Hv Hn Ht Hs] Hr Hh Hd. split; try done. destruct Hs as ((record' & Hr' & Hi) & Ha & Hs).
  rewrite Hr in Hr'. injection Hr' as <-. split; [|done]. exists record. split; [done|]. simpl.
  intros i y Hlt Hy. destruct (decide (i = next_helper_index f)) as [->|]; [left; congruence|].
  apply (Hi i); [lia|done].
Qed.

(** A helper not seen before. *)
Lemma visit_push states f stack done record h :
  visiting states (f :: stack) done -> bt_get (frame_tool f) records = Some record ->
  helper_names record !! next_helper_index f = Some h -> bt_get h states = None ->
  visiting (bt_insert h VisitState.Visiting states)
    (mkFrame h 0 :: mkFrame (frame_tool f) (S (next_helper_index f)) :: stack) done.
Proof.
  intros [Hc Hv Hn Ht Hs] Hr Hh Hnew. destruct Hs as ((record' & Hr' & Hi) & Ha & Hs).
  rewrite Hr in Hr'. injection Hr' as <-.
  assert (He : edge records (frame_tool f) h) by (exists record; split; [done|by eapply list_elem_of_lookup_2]).
  split.
  - intros k. rewrite bt_get_insert. destruct (String.eqb_spec k h) as [->|]; [|done].
    split; [done|]. intros ?%Hc. congruence.
  - intros k. rewrite bt_get_insert, fmap_cons, elem_of_cons. simpl frame_tool.
    destruct (String.eqb_spec k h) as [->|]; [tauto|]. rewrite Hv. simpl. tauto.
  - apply list.NoDup_cons. split; [|done]. intros Hin. apply (Hv h) in Hin. congruence.
  - done.
  - destruct (present _ _ He) as [rh Hrh]. simpl. split_and!; try done.
    + exists rh. split; [done|]. intros; lia.
    + exists record. split; [done|]. intros i y Hlt Hy.
      destruct (decide (i = next_helper_index f)) as [->|]; [right; congruence|]. destruct (Hi i y); [lia|done|by left|done].
    + intros a [= <-]. done.
Qed.

Lemma work_cons states f stack : work states (f :: stack) = frame_left f + work states stack.
Proof. unfold work. rewrite fmap_cons. cbn [list_sum foldr]. fold (list_sum (frame_left <$> stack)). lia. Qed.

Lemma work_insert states stack k s : work (bt_insert k s states) stack <= work states stack.
Proof.
  unfold work. apply Nat.add_le_mono_l, weight_mono. intros k' Hk. by rewrite contains_insert, Hk, orb_true_r.
Qed.

(** Marking a tool for the first time pays for its frame. *)
Lemma work_mark states stack k s record :
  bt_get k states = None -> bt_get k records = Some record ->
  work (bt_insert k s states) (mkFrame k 0 :: stack) <= work states stack.
Proof.
  intros Hn Hr. rewrite work_cons. unfold frame_left. simpl. rewrite Hr. unfold work.
  enough (weight (fun r => S (length (helpers r))) (fun k' => bt_contains_key k' (bt_insert k s states)) records
    + S (length (helpers record)) <= weight (fun r => S (length (helpers r))) (fun k' => bt_contains_key k' states) records) by lia.
  apply (weight_add (fun r => S (length (helpers r)))) with (k := k); [done|..].
  - unfold bt_contains_key. by rewrite Hn.
  - by rewrite contains_insert, String.eqb_refl.
  - intros k' Hk. by rewrite contains_insert, Hk, orb_true_r.
Qed.

(** Every tool on the stack is still on it, or complete. *)
Definition kept (stack stack' : list VisitFrame) (done' : list string) : Prop :=
  forall k, k ∈ frame_tool <$> stack -> k ∈ done' \/ k ∈ frame_tool <$> stack'.

Lemma visit_step_spec states f stack done : visiting states (f :: stack) done ->
  (exists states' stack' done', visit_step records states f stack = Ok (states', stack') /\
     visiting states' stack' done' /\ work states' stack' < work states (f :: stack) /\
     (forall k, k ∈ done -> k ∈ done') /\ kept (f :: stack) stack' done') \/
  (visit_step records states f stack = Err policy_error /\ exists k, tc (edge records) k k).
Proof.
  intros Hv. pose proof (v_stacked _ _ _ Hv) as Hstk. destruct Hstk as ((record & Hr & _) & _).
  assert (Hleft : frame_left f = S (length (helpers record) - next_helper_index f)) by (unfold frame_left; by rewrite Hr).
  unfold visit_step. rewrite Hr. destruct (helpers record !! next_helper_index f) as [reference|] eqn:Eh.
  2:{ left. eexists _, _, (frame_tool f :: done). split; [done|]. split; [by eapply visit_pop|]. split; [|split].
      - rewrite work_cons, Hleft. pose proof (work_insert states stack (frame_tool f) VisitState.Complete). lia.
      - by right.
      - intros k. rewrite fmap_cons, elem_of_cons. intros [->|]; [left; by left|by right]. }
  pose proof (helper_name_lookup _ _ _ Eh) as Hname. set (h := tool_str (ref_tool_id reference)) in *.
  assert (Hlt : next_helper_index f < length (helpers record)) by by eapply lookup_lt_Some.
  assert (Hsame : kept (f :: stack) (mkFrame (frame_tool f) (S (next_helper_index f)) :: stack) done) by (intros k; by right).
  assert (He : edge records (frame_tool f) h) by (exists record; split; [done|by eapply list_elem_of_lookup_2]).
  destruct (bt_get h states) as [[]|] eqn:Es.
  - right. split; [done|]. exists h. apply (v_visiting _ _ _ Hv) in Es.
    eapply tc_rtc_l; [eapply stacked_reaches; [apply (v_stacked _ _ _ Hv)|exact Es]|by apply tc_once].
  - left. apply (v_complete _ _ _ Hv) in Es. eexists _, _, done. split; [done|].
    split; [by eapply visit_skip|]. split; [|done].
    rewrite !work_cons, Hleft. unfold frame_left. simpl. rewrite Hr. lia.
  - left. eexists _, _, done. split; [done|]. split; [by eapply visit_push|]. split; [|split; [done|]].
    + destruct (present _ _ He) as [rh Hrh].
      pose proof (work_mark states (mkFrame (frame_tool f) (S (next_helper_index f)) :: stack) h VisitState.Visiting rh Es Hrh) as Hw.
      eapply Nat.le_lt_trans; [exact Hw|]. rewrite !work_cons, Hleft. unfold frame_left. simpl. rewrite Hr. lia.
    + intros k Hk. right. rewrite fmap_cons, elem_of_cons. right. by destruct (Hsame k Hk).
Qed.

Lemma visit_loop_spec fuel states stack done : visiting states stack done -> work states stack < fuel ->
  (exists states' done', visit_loop fuel records states stack = Ok states' /\ visiting states' [] done' /\
     (forall k, k ∈ done \/ k ∈ frame_tool <$> stack -> k ∈ done')) \/
  (visit_loop fuel records states stack = Err policy_error /\ exists k, tc (edge records) k k).
Proof.
  revert states stack done. induction fuel as [|fuel IH]; intros states stack done Hv Hf; [lia|].
  destruct stack as [|f stack]; simpl.
  { left. exists states, done. split_and!; [done..|]. intros k [|?%elem_of_nil]; done. }
  destruct (visit_step_spec states f stack done Hv) as [(st' & sk' & dn' & -> & Hv' & Hw & Hd & Hk)|[-> Hc]]; [|by right].
  simpl. destruct (IH st' sk' dn' Hv') as [(st2 & dn2 & -> & Hv2 & Hall)|[-> Hc]]; [lia| |by right].
  left. exists st2, dn2. split_and!; [done..|]. intros k [Hkd|Hks].
  - apply Hall. left. by apply Hd.
  - apply Hall. by apply Hk.
Qed.

Lemma visit_roots_spec l states done :
  visiting states [] done -> Forall (fun k => is_Some (bt_get k records)) l ->
  (exists done', visit_roots records states l = Ok tt /\ topological done' /\ (forall k, k ∈ done \/ k ∈ l -> k ∈ done')) \/
  (visit_roots records states l = Err policy_error /\ exists k, tc (edge records) k k).
Proof.
  revert states done. induction l as [|root l IH]; intros states done Hv Hl; cbn [visit_roots].
  { left. exists done. split; [done|]. split; [apply Hv|]. intros k [|?%elem_of_nil]; done. }
  apply Forall_cons_1 in Hl as [[record Hr] Hl]. destruct (bt_get root states) as [[]|] eqn:Es.
  - apply (v_visiting _ _ _ Hv) in Es. by apply elem_of_nil in Es.
  - destruct (IH states done Hv Hl) as [(dn & -> & Ht & Hall)|[-> Hc]]; [left|by right].
    exists dn. split_and!; [done..|]. apply (v_complete _ _ _ Hv) in Es.
    intros k [|[->|]%elem_of_cons]; auto.
  - assert (Hv1 : visiting (bt_insert root VisitState.Visiting states) [mkFrame root 0] done).
    { destruct Hv as [Hc Hvis Hn Ht Hs]. split; try done.
      - intros k. rewrite bt_get_insert. destruct (String.eqb_spec k root) as [->|]; [|done].
        split; [done|]. intros ?%Hc. congruence.
      - intros k. rewrite bt_get_insert. simpl. rewrite list_elem_of_singleton.
        destruct (String.eqb_spec k root) as [->|Hk]; [done|]. rewrite Hvis. simpl. split; [by intros ?%elem_of_nil|done].
      - apply list.NoDup_singleton.
      - simpl. split_and!; try done. exists record. split; [done|]. intros; lia. }
    destruct (visit_loop_spec (visit_fuel records) _ _ _ Hv1) as [(st & dn & -> & Hv2 & Hall)|[-> Hc]]; [|simpl|by right].
    + pose proof (work_mark states [] root VisitState.Visiting record Es Hr) as Hw. unfold visit_fuel.
      pose proof (weight_all (fun r => S (length (helpers r))) (fun k => bt_contains_key k states) records).
      unfold work at 2 in Hw. simpl in Hw. lia.
    + destruct (IH st dn Hv2 Hl) as [(dn' & -> & Ht & Hall')|[-> Hc]]; [left|by right].
      exists dn'. split_and!; [done..|]. intros k [Hk|[->|Hk]%elem_of_cons]; apply Hall'; auto.
      left. apply Hall. right. by left.
Qed.

Lemma visit_roots_correct :
  (visit_roots records [] (bt_keys records) = Ok tt /\ acyclic records) \/
  (visit_roots records [] (bt_keys records) = Err policy_error /\ ~ acyclic records).
Proof.
  destruct (visit_roots_spec (bt_keys records) [] []) as [(dn & -> & Ht & Hall)|[-> [k Hk]]].
  - split; simpl; try done; [..|constructor]; intros k; (split; [done|by intros ?%elem_of_nil]).
  - apply list.Forall_forall. intros k. by apply bt_get_keys.
  - left. split; [done|]. intros k Hk. apply (topological_acyclic dn k Ht); [|done]. apply Hall. right.
    apply bt_get_keys. inversion Hk as [? ? (r & Hr & _)|? ? ? (r & Hr & _)]; by rewrite Hr.
  - right. split; [done|]. intros Ha. by apply (Ha k).
Qed.
End graph.

Lemma helper_graph_exact (records : btree CatalogRecord) (revoked : bset) :
  match validate_helper_graph records revoked with
  | Ok _ => sound_references records revoked (bt_values records) /\ acyclic records
  | Err e =>
      (exists record r, record ∈ bt_values records /\ r ∈ helpers record /\ refused records revoked r e) \/
      (sound_references records revoked (bt_values records) /\ ~ acyclic records /\ e = policy_error)
  | _ => False
  end.
Proof.
  unfold validate_helper_graph.
  destruct (check_all_references_spec records revoked (bt_values records)) as [[-> Hs]|(record & r & e & -> & Hr & He)].
  - simpl. destruct (visit_roots_correct records) as [[-> Ha]|[-> Ha]]; [|by split|by right].
    intros a b (record & Hr & Hb). unfold helper_names in Hb. apply list_elem_of_fmap in Hb as (reference & -> & Hb).
    unfold sound_references in Hs. rewrite list.Forall_forall in Hs. specialize (Hs record (bt_get_values _ _ _ Hr)).
    rewrite list.Forall_forall in Hs. destruct (Hs _ Hb) as (_ & helper & -> & _). by eexists.
  - left. by exists record, r.
Qed.

(** The check on the helper graph is exact.  It accepts when every
    reference names an approved tool with its recorded digest and no tool is
    its own helper, directly or not; it refuses with the error of a reference
    that is wrong, or, when all are right, with a policy error for a cycle.
    It ends within its fuel on every catalog and never misses a record. *)
Theorem validate_helper_graph_correct (records : btree CatalogRecord) (revoked : bset) :
  match validate_helper_graph records revoked with
  | Ok _ => sound_references records revoked (bt_values records) /\ acyclic records
  | Err e =>
      (exists record r, record ∈ bt_values records /\ r ∈ helpers record /\ refused records revoked r e) \/
      (sound_references records revoked (bt_values records) /\ ~ acyclic records /\ e = policy_error)
  | _ => False
  end.
Proof. exact (helper_graph_exact records revoked). Qed.
