(* ===== verification/SandboxCatalogWf.v ===== *)
(** * What a validated catalog is

    [well_formed] is the type of validated snapshots in the sense of the
    checks: unique names and paths, kinds, platform and generation, order of
    the lists, sound and acyclic helpers.  [validate] establishes it. *)

From stdpp Require Import base tactics list strings option numbers relations.
From Stdlib Require Import ZArith NArith Lia Ascii String Sorted.
From S2P Require Import Prelude RustStr BTree SandboxError SandboxIdentity SandboxCatalog SandboxCatalogProofs.

Open Scope string_scope.
Open Scope list_scope.
Open Scope nat_scope.

(** ** Sorting *)

Lemma then_compare_flip c c' d d' : c' = CompOpp c -> (d = Gt -> d' <> Gt) -> then_compare c d = Gt -> then_compare c' d' <> Gt.
Proof. intros ->. destruct c; simpl; auto. Qed.

Lemma string_flip a b : String.compare a b = Gt -> String.compare b a <> Gt.
Proof. rewrite (String.compare_antisym a b). by destruct (String.compare b a). Qed.

Lemma reference_flip a b : reference_compare a b = Gt -> reference_compare b a <> Gt.
Proof. apply then_compare_flip; [apply String.compare_antisym|apply string_flip]. Qed.

Lemma artifact_flip a b : artifact_compare a b = Gt -> artifact_compare b a <> Gt.
Proof.
  repeat (apply then_compare_flip; [apply String.compare_antisym|]).
  rewrite (Nat.compare_antisym (kind_rank (artifact_kind b))). by destruct (Nat.compare _ _).
Qed.

(** ** Well-formed records *)

Definition all_artifacts (r : CatalogRecord) : list HashedArtifact :=
  executable r :: non_system_libraries r ++ resources r.

Definition paths (r : CatalogRecord) : list string := managed_canonical_path <$> all_artifacts r.

Definition artifact_ok (k : ArtifactKind) (a : HashedArtifact) : Prop :=
  artifact_kind a = k /\ valid_catalog_text (logical_name a) = true /\ valid_catalog_text (managed_canonical_path a) = true.

Record record_ok (r : CatalogRecord) : Prop := {
  rok_texts : Forall (fun s => valid_catalog_text s = true)
                [original_source_path r; display_name (approval_actor r); mechanism (approval_actor r)];
  rok_executable : artifact_ok ArtifactKind.Executable (executable r);
  rok_libraries : Forall (artifact_ok ArtifactKind.Library) (non_system_libraries r);
  rok_resources : Forall (artifact_ok ArtifactKind.Resource) (resources r);
  rok_names : NoDup (logical_name <$> all_artifacts r);
  rok_helpers : NoDup (helper_names r);
  rok_sorted_helpers : Sorted (in_order reference_compare) (helpers r);
  rok_sorted_libraries : Sorted (in_order artifact_compare) (non_system_libraries r);
  rok_sorted_resources : Sorted (in_order artifact_compare) (resources r) }.

(** What [validate] checks of a record before it looks inside, and keeps. *)
Definition header_ok (g : CatalogGeneration) (p : PlatformId) (r : CatalogRecord) : Prop :=
  schema_version r = CATALOG_SCHEMA_V1 /\ generation r = g /\ record_platform r = p /\
  (forall l, replaces r = Some l -> (generation_number (prior_generation l) < generation_number g)%N).

Record well_formed (v : ValidatedCatalogSnapshot) : Prop := {
  wf_schema : val_schema_version v = CATALOG_SCHEMA_V1;
  wf_keys : bt_wf (records v);
  wf_headers : Forall (fun kr => tool_str (tool_id kr.2) = kr.1 /\ header_ok (val_generation v) (val_platform v) kr.2) (records v);
  wf_records : Forall record_ok (bt_values (records v));
  wf_paths : NoDup (concat (paths <$> bt_values (records v)));
  wf_references : sound_references (records v) (revoked_tools v) (bt_values (records v));
  wf_acyclic : acyclic (records v) }.

(** ** Names collected in a set *)

(** The names of [l] are new and distinct, and [s'] is [s] with them. *)
Definition collected (l : list string) (s s' : bset) : Prop :=
  NoDup l /\ (forall x, x ∈ l -> bs_contains x s = false) /\
  (forall x, bs_contains x s' = true <-> bs_contains x s = true \/ x ∈ l).

Lemma collected_nil s : collected [] s s.
Proof.
  split; [constructor|]. split; [by intros x ?%elem_of_nil|]. intros x. rewrite elem_of_nil. tauto.
Qed.

Lemma collected_one x s : bs_contains x s = false -> collected [x] s (bs_add x s).
Proof.
  intros Hx. split; [apply list.NoDup_singleton|]. split; [by intros y ->%list_elem_of_singleton|].
  intros y. rewrite bs_contains_add, orb_true_iff, String.eqb_eq, list_elem_of_singleton. tauto.
Qed.

Lemma collected_app l1 l2 s s1 s2 : collected l1 s s1 -> collected l2 s1 s2 -> collected (l1 ++ l2) s s2.
Proof.
  intros (N1 & F1 & C1) (N2 & F2 & C2).
  assert (H12 : forall x, x ∈ l2 -> bs_contains x s = false /\ x ∉ l1).
  { intros x Hx. pose proof (F2 x Hx) as Hf. split.
    - apply not_true_iff_false. intros Hs. rewrite (proj2 (C1 x)) in Hf; [done|by left].
    - intros Hl. rewrite (proj2 (C1 x)) in Hf; [done|by right]. }
  split; [|split].
  - apply list.NoDup_app. split_and!; [done| |done]. intros x Hx Hx2. by apply H12 in Hx2 as [_ ?].
  - intros x [Hx|Hx]%elem_of_app; [by apply F1|by apply H12].
  - intros x. rewrite C2, C1, elem_of_app. tauto.
Qed.

Lemma collected_perm l l' s s' : l ≡ₚ l' -> collected l s s' -> collected l' s s'.
Proof.
  intros Hp (N & F & C). split; [by rewrite <- Hp|]. split; intros x; rewrite <- Hp; [apply F|apply C].
Qed.

(** ** The passes of [validate] *)

Section validate.
Context `{CatalogPathNormalizer}.

Lemma validate_artifact_ok k p ln np a a' ln' np' :
  validate_artifact k p ln np a = Ok (a', ln', np') ->
  artifact_ok k a' /\ collected [logical_name a'] ln ln' /\ collected [managed_canonical_path a'] np np'.
Proof.
  unfold validate_artifact. case_bool_decide as Ek; [|done]. simpl.
  destruct (valid_catalog_text (logical_name a)) eqn:En; [|done].
  destruct (bs_contains (logical_name a) ln) eqn:El; [done|].
  destruct (valid_catalog_text (managed_canonical_path a)); [|done]. simpl.
  destruct (normalize p (managed_canonical_path a)) as [path|e| |]; try done. simpl.
  destruct (valid_catalog_text path) eqn:Ep; [|done]. destruct (bs_contains path np) eqn:Eb; [done|].
  simpl. intros [= <- <- <-]. split; [done|]. split; by apply collected_one.
Qed.

Lemma validate_artifacts_ok k p ln np l l' ln' np' :
  validate_artifacts k p ln np l = Ok (l', ln', np') ->
  Forall (artifact_ok k) l' /\ collected (logical_name <$> l') ln ln' /\ collected (managed_canonical_path <$> l') np np'.
Proof.
  revert ln np l' ln' np'. induction l as [|a l IH]; intros ln np l' ln' np' H1; simpl in H1.
  { injection H1 as <- <- <-. split; [constructor|]. split; apply collected_nil. }
  destruct (validate_artifact k p ln np a) as [[[a' ln1] np1]|e| |] eqn:Ea; try done. simpl in H1.
  destruct (validate_artifacts k p ln1 np1 l) as [[[l1 ln2] np2]|e| |] eqn:El; try done. simpl in H1.
  injection H1 as <- <- <-. apply validate_artifact_ok in Ea as (Ha & Hn & Hp).
  apply IH in El as (Hl & Hn2 & Hp2). split; [by constructor|].
  split; [exact (collected_app _ _ _ _ _ Hn Hn2)|exact (collected_app _ _ _ _ _ Hp Hp2)].
Qed.

Lemma distinct_helpers_ok ids l : distinct_helpers ids l = true ->
  NoDup ((fun r => tool_str (ref_tool_id r)) <$> l) /\
  forall r, r ∈ l -> bs_contains (tool_str (ref_tool_id r)) ids = false.
Proof.
  revert ids. induction l as [|r l IH]; intros ids H1; [split; [constructor|by intros ? ?%elem_of_nil]|].
  simpl in H1. apply andb_prop in H1 as [Hc Hl]. apply negb_true_iff in Hc. apply IH in Hl as [Hn Hl]. split.
  - constructor; [|done]. intros (r' & E & Hr')%list_elem_of_fmap. specialize (Hl r' Hr').
    rewrite <- E, bs_contains_add, String.eqb_refl in Hl. done.
  - intros r' [->|Hr']%elem_of_cons; [done|]. specialize (Hl r' Hr').
    rewrite bs_contains_add in Hl. by apply orb_false_iff in Hl as [_ ?].
Qed.

(** The record with its artifacts and lists replaced. *)
Lemma validate_record_ok p np r r' np' : validate_record p np r = Ok (r', np') ->
  record_ok r' /\ collected (paths r') np np' /\
  tool_id r' = tool_id r /\ forall g p', header_ok g p' r -> header_ok g p' r'.
Proof.
  unfold validate_record. destruct (valid_catalog_text (original_source_path r)) eqn:E1; [|done].
  destruct (valid_catalog_text (display_name (approval_actor r))) eqn:E2; [|done].
  destruct (valid_catalog_text (mechanism (approval_actor r))) eqn:E3; [|done]. simpl.
  destruct (validate_artifact _ p [] np (executable r)) as [[[x ln1] np1]|e| |] eqn:Ex; try done. simpl.
  destruct (validate_artifacts _ p ln1 np1 (non_system_libraries r)) as [[[libs ln2] np2]|e| |] eqn:El; try done. simpl.
  destruct (validate_artifacts _ p ln2 np2 (resources r)) as [[[res ln3] np3]|e| |] eqn:Er; try done. simpl.
  destruct (distinct_helpers [] (helpers r)) eqn:Ed; [|done]. simpl. intros [= <- <-].
  apply validate_artifact_ok in Ex as (Hx & Nx & Px). apply validate_artifacts_ok in El as (Hl & Nl & Pl).
  apply validate_artifacts_ok in Er as (Hr & Nr & Pr). apply distinct_helpers_ok in Ed as [Hd _].
  pose proof (collected_app _ _ _ _ _ Nx (collected_app _ _ _ _ _ Nl Nr)) as N.
  pose proof (collected_app _ _ _ _ _ Px (collected_app _ _ _ _ _ Pl Pr)) as P.
  rewrite <- fmap_app in N, P. split; [|split; [|split; [done|by unfold header_ok]]].
  - split; simpl; try done.
    + by repeat constructor.
    + by rewrite sort_by_perm.
    + by rewrite sort_by_perm.
    + unfold all_artifacts. simpl. rewrite !sort_by_perm. apply N.
    + unfold helper_names. simpl. by rewrite sort_by_perm.
    + apply sort_by_sorted, reference_flip.
    + apply sort_by_sorted, artifact_flip.
    + apply sort_by_sorted, artifact_flip.
  - revert P. apply collected_perm. unfold paths, all_artifacts. simpl. by rewrite !sort_by_perm.
Qed.

Lemma validate_records_ok p np m m' : validate_records p np m = Ok m' ->
  bt_keys m' = bt_keys m /\ Forall record_ok (bt_values m') /\
  (exists np', collected (concat (paths <$> bt_values m')) np np') /\
  forall g p', Forall (fun kr => tool_str (tool_id kr.2) = kr.1 /\ header_ok g p' kr.2) m ->
    Forall (fun kr => tool_str (tool_id kr.2) = kr.1 /\ header_ok g p' kr.2) m'.
Proof.
  revert np m'. induction m as [|[k r] m IH]; intros np m' H1; simpl in H1.
  { injection H1 as <-. split_and!; try done. exists np. apply collected_nil. }
  destruct (validate_record p np r) as [[r' np1]|e| |] eqn:Er; try done. simpl in H1.
  destruct (validate_records p np1 m) as [m1|e| |] eqn:Em; try done. simpl in H1. injection H1 as <-.
  apply validate_record_ok in Er as (Hr & Hp & Hid & Hh). apply IH in Em as (Hk & Hm & (np' & Hps) & Hhs).
  split_and!.
  - simpl. by rewrite Hk.
  - by constructor.
  - exists np'. by eapply collected_app.
  - intros g p' [[H1 H2] H3]%Forall_cons_1. constructor; [|by apply Hhs]. simpl in *. rewrite Hid. auto.
Qed.

Lemma insert_records_ok g p m l m' : insert_records g p m l = Ok m' -> bt_wf m ->
  Forall (fun kr => tool_str (tool_id kr.2) = kr.1 /\ header_ok g p kr.2) m ->
  bt_wf m' /\ Forall (fun kr => tool_str (tool_id kr.2) = kr.1 /\ header_ok g p kr.2) m'.
Proof.
  revert m. induction l as [|r l IH]; intros m H1 Hw Hm; simpl in H1; [by injection H1 as <-|].
  destruct (schema_version r =? CATALOG_SCHEMA_V1)%N eqn:Es; [|done]. case_bool_decide as Eg; [|done].
  case_bool_decide as Ep; [|done]. simpl in H1.
  destruct (match replaces r with Some lineage => _ | None => false end) eqn:El; [done|].
  destruct (bt_contains_key (tool_str (tool_id r)) m); [done|]. apply IH in H1; [done|by apply bt_insert_wf|].
  clear IH. assert (Hr : header_ok g p r).
  { split; [by apply N.eqb_eq|]. split; [done|]. split; [done|]. intros lin E. rewrite E in El.
    unfold generation_le in El. by apply N.leb_gt in El. }
  clear H1 Hw. induction m as [|[k' r'] m IH]; simpl; [by constructor; [split|]|].
  apply Forall_cons_1 in Hm as [Hk Hm]. destruct (String.compare (tool_str (tool_id r)) k') eqn:E; simpl.
  - constructor; [|done]. apply String.compare_eq_iff in E. done.
  - constructor; [by split|by constructor].
  - constructor; [done|by apply IH].
Qed.

Lemma validated_catalog (s : CatalogSnapshot) (v : ValidatedCatalogSnapshot) :
  validate s = Ok v ->
  well_formed v /\ val_generation v = snap_generation s /\ val_platform v = snap_platform s /\
  (forall id, bs_contains id (revoked_tools v) = true <-> id ∈ tool_str <$> snap_revoked_tools s).
Proof.
  unfold validate. destruct (snap_schema_version s =? CATALOG_SCHEMA_V1)%N eqn:Es; [|done]. simpl.
  destruct (insert_records _ _ [] (snap_records s)) as [m|e| |] eqn:Ei; try done. simpl.
  destruct (validate_records _ [] m) as [m'|e| |] eqn:Em; try done. simpl.
  pose proof (helper_graph_exact m' (bs_of_list (tool_str <$> snap_revoked_tools s))) as Hg.
  destruct (validate_helper_graph m' _) as [[]|e| |]; try done. simpl. intros [= <-]. simpl.
  split; [|split_and!; try done; intros; apply bs_of_list_spec].
  apply insert_records_ok in Ei as [Hw Hh]; [|constructor|constructor].
  apply validate_records_ok in Em as (Hk & Hr & (np & Hp & _) & Hh'). destruct Hg as [Hs Ha].
  split; simpl; try done.
  - by apply N.eqb_eq.
  - unfold bt_wf in *. by rewrite Hk.
  - by apply Hh'.
Qed.

(** C39: a validated snapshot is well formed: one record per tool, each of the
    snapshot's generation and platform and newer than what it replaces; every
    artifact of the right kind under a name unique in its record and a path
    unique in the catalog; sorted lists; helpers approved, with their digests,
    and without cycles.  It holds whatever the host's path normalizer does. *)
Theorem validate_well_formed (s : CatalogSnapshot) (v : ValidatedCatalogSnapshot) :
  validate s = Ok v ->
  well_formed v /\ val_generation v = snap_generation s /\ val_platform v = snap_platform s /\
  (forall id, bs_contains id (revoked_tools v) = true <-> id ∈ tool_str <$> snap_revoked_tools s).
Proof. exact (validated_catalog s v). Qed.
End validate.

(** In a validated catalog, a request is granted as soon as the requested
    tools themselves are approved: no helper can be the reason of a refusal. *)
Theorem activate_validated `{CatalogPathNormalizer} (s : CatalogSnapshot) (v : ValidatedCatalogSnapshot) (requested : list ToolId) :
  validate s = Ok v ->
  ((exists c, activate requested v = Ok c) <-> forall id, id ∈ tool_str <$> requested -> approved v id).
Proof.
  intros Hv. apply validated_catalog in Hv as [Hw _]. pose proof (wf_references _ Hw) as Hs.
  assert (Hedge : forall a b, edge (records v) a b -> approved v b).
  { intros a b (record & Hr & Hb). unfold helper_names in Hb. apply list_elem_of_fmap in Hb as (r & -> & Hb).
    unfold sound_references in Hs. rewrite list.Forall_forall in Hs. specialize (Hs record (bt_get_values _ _ _ Hr)).
    rewrite list.Forall_forall in Hs. destruct (Hs _ Hb) as (? & helper & Hg & _). split; [done|by eexists]. }
  destruct (activation_exact v requested) as [(c & Hc & _ & _ & _ & _ & _ & Ha)|(id & He & (root & Hr & Hp) & Hn)].
  - split; [|by exists c]. intros _ id Hid. apply Ha. by exists id.
  - split; [intros (c & Hc); congruence|]. intros Hall. exfalso. apply Hn.
    apply rtc_inv_r in Hp as [->|(a & _ & Hab)]; [by apply Hall|by eapply Hedge].
Qed.

(** ** An example *)

Definition same_path : CatalogPathNormalizer := fun _ path => Ok path.

Definition sample_artifact (name : string) (b : byte) : HashedArtifact :=
  mkArtifact name ("/opt/" ++ name)%string (mkDigest (repeat b 32)) ArtifactKind.Executable.

Definition sample_record (name : string) (b : byte) (refs : list ToolReference) : CatalogRecord :=
  mkRecord 1 (mkGeneration 7) (mkToolId name) (mkPlatform OperatingSystem.Linux Architecture.X86_64) "/src"
    (sample_artifact name b) refs [] [] None (mkActor "Ada" "signature") 0 None.

Definition sample_snapshot : CatalogSnapshot :=
  mkSnapshot 1 (mkGeneration 7) (mkPlatform OperatingSystem.Linux Architecture.X86_64)
    [sample_record "git" "001" [mkReference (mkToolId "ssh") (mkDigest (repeat "002"%char 32))];
     sample_record "ssh" "002" []; sample_record "curl" "003" []] [mkToolId "wget"].

Lemma validate_well_formed_witness :
  exists v, validate (H := same_path) sample_snapshot = Ok v /\ well_formed v.
Proof.
  eexists. split; [vm_compute; reflexivity|].
  apply (validate_well_formed (H := same_path) sample_snapshot). vm_compute. reflexivity.
Defined.

Lemma activate_validated_witness :
  exists v, validate (H := same_path) sample_snapshot = Ok v /\
    (exists c, activate [mkToolId "git"] v = Ok c /\ bt_keys (tools c) = ["git"; "ssh"]) /\
    ((exists c, activate [mkToolId "wget"] v = Ok c) <-> forall id, id ∈ ["wget"] -> approved v id).
Proof.
  eexists. split; [vm_compute; reflexivity|]. split.
  - eexists. split; vm_compute; reflexivity.
  - apply (activate_validated (H := same_path) sample_snapshot _ [mkToolId "wget"]). vm_compute. reflexivity.
Defined.
