(* ===== verification/SandboxDestination.v ===== *)
(** * Network destinations (destination.rs)

    A destination is a host name and a port.  The Unicode processing of host
    names is the [idna] crate, an interface; the rest of the checks, and the
    spelling that is printed and parsed back, are modelled. *)

From stdpp Require Import base tactics list strings option numbers.
From Stdlib Require Import ZArith NArith Lia Ascii String.
From S2P Require Import Prelude RustStr RustText SandboxError SandboxIdentity.

Open Scope string_scope.
Open Scope list_scope.
Open Scope nat_scope.

(** ** Text *)

(** [value.strip_suffix(suffix)] and [value.ends_with(suffix)], on bytes. *)
Definition strip_suffix_byte (b : byte) (s : string) : option string :=
  match reverse (as_bytes s) with
  | c :: l => if Ascii.eqb c b then Some (from_bytes (reverse l)) else None
  | [] => None
  end.
Definition ends_with_str (suffix s : string) : bool :=
  starts_with (from_bytes (reverse (as_bytes suffix))) (from_bytes (reverse (as_bytes s))).

Definition any_whitespace {E : Type} (s : string) : res E bool :=
  let? cs := chars s in Ok (existsb is_whitespace cs).

(** [str::parse::<u16>] on ASCII digits. *)
Definition parse_u16_digits (l : list byte) : option N :=
  if (digits_val l <=? 65535)%N then Some (digits_val l) else None.

(** One decimal part of an IPv4 address: at most three digits, no leading
    zero, at most 255. *)
Definition ipv4_part (l : list byte) : bool :=
  negb (length l =? 0) && (length l <=? 3) && forallb is_ascii_digit l && (digits_val l <=? 255)%N
  && ((length l =? 1) || negb (match head l with Some b => Ascii.eqb b "0" | None => false end)).

(** [host.parse::<IpAddr>().is_ok()] on a text without colons, which is no
    IPv6 address. *)
Definition parses_as_ip (host : string) : bool :=
  let parts := split_byte "." (as_bytes host) in
  (length parts =? 4) && forallb ipv4_part parts.

(** ** Destinations *)

Definition validation_error : SandboxError := policy FailedGuarantee.DestinationGrant empty_metadata.

(** The [idna] crate.  [domain_to_unicode] returns a text and whether it met an
    error. *)
Class Idna : Type := {
  domain_to_ascii_strict : string -> option string;
  domain_to_unicode : string -> string * bool }.

(** U+00DF, U+1E9E, U+03C2, U+200C, U+200D. *)
Definition has_uts46_deviation {E : Type} (value : string) : res E bool :=
  let? cs := chars value in
  Ok (existsb (fun c => ((c =? 223) || (c =? 7838) || (c =? 962) || (c =? 8204) || (c =? 8205))%N) cs).

Definition valid_ldh_label (label : list byte) : bool :=
  negb (length label =? 0) && (length label <=? 63)
  && match head label with Some b => is_ascii_alphanumeric b | None => false end
  && match list.last label with Some b => is_ascii_alphanumeric b | None => false end
  && forallb (fun b => is_ascii_lowercase b || is_ascii_digit b || Ascii.eqb b "-") label.

(** The checks on the ASCII form of a host; the [IpAddr] test comes after the
    label test. *)
Definition acceptable_host (host unicode : string) (unicode_ok deviates : bool) : bool :=
  unicode_ok && negb deviates && (String.length host <=? 253)
  && forallb valid_ldh_label (split_byte "." (as_bytes host))
  && negb (parses_as_ip host) && negb (String.eqb host "localhost") && negb (ends_with_str ".localhost" host).

Section destination.
Context `{Idna}.

Definition new_destination (host : string) (port : N) : result DestinationGrant :=
  let? blank := any_whitespace host in
  if (port =? 0)%N || blank then Err validation_error
  else
    let host := match strip_suffix_byte "." host with Some host => host | None => host end in
    let? deviates := has_uts46_deviation host in
    if String.eqb host "" || deviates then Err validation_error
    else match domain_to_ascii_strict host with
         | None => Err validation_error
         | Some ascii =>
             let host := to_ascii_lowercase ascii in
             let '(unicode, failed) := domain_to_unicode host in
             let? deviates := has_uts46_deviation unicode in
             if acceptable_host host unicode (negb failed) deviates then Ok (mkDestinationGrant host port)
             else Err validation_error
         end.

Definition parse_destination (value : string) : result DestinationGrant :=
  let? blank := any_whitespace value in
  if blank : bool then Err validation_error
  else match rsplit_once ":" (as_bytes value) with
       | None => Err validation_error
       | Some (host, port) =>
           if (length port =? 0) || negb (forallb is_ascii_digit port) then Err validation_error
           else match parse_u16_digits port with
                | None => Err validation_error
                | Some port => new_destination (from_bytes host) port
                end
       end.
End destination.

(** [Display]. *)
Definition show_destination (g : DestinationGrant) : string := (host g ++ ":" ++ show_N (port g))%string.
