(* ===== verification/SandboxPolicy.v ===== *)
(** * Execution policies (policy.rs)

    What a session may do: access level, surfaces, workspace, tools,
    destinations, environment and resource limits.  [intersect] combines
    grants, [validate] turns a request into a policy over a validated catalog,
    [resolve_launch_environment] computes what a child process sees.  The
    workspace resolver is a trait of the host; the digest of the audit
    projection (serde_json and sha2) is an interface. *)

From stdpp Require Import base tactics list strings option numbers.
From Stdlib Require Import ZArith NArith Lia Ascii String.
From S2P Require Import Prelude RustStr RustText BTree SandboxError SandboxIdentity SandboxCatalog SandboxDestination.

Open Scope string_scope.
Open Scope list_scope.
Open Scope nat_scope.

(** ** Data *)

Module ExecutionAccess.
Inductive ExecutionAccess : Type := Read | Workspace | Full.
End ExecutionAccess.
Abbreviation ExecutionAccess := ExecutionAccess.ExecutionAccess.

Definition security_rank (a : ExecutionAccess) : nat :=
  match a with ExecutionAccess.Read => 0 | ExecutionAccess.Workspace => 1 | ExecutionAccess.Full => 2 end.
Definition is_constrained (a : ExecutionAccess) : bool :=
  match a with ExecutionAccess.Full => false | _ => true end.

Module ExecutionSurface.
Inductive ExecutionSurface : Type := Process | Pty.
End ExecutionSurface.
Abbreviation ExecutionSurface := ExecutionSurface.ExecutionSurface.

Inductive ScratchDisposition : Type := DeleteOnCleanCloseRetainOtherwise.
Inductive ArgumentAuditMode : Type := CountOnly.
Record AuditPolicy : Type := mkAuditPolicy { arguments : ArgumentAuditMode }.

Record WorkspaceRequest : Type := mkWorkspaceRequest { wanted_root : string }.
Record WorkspaceIdentity : Type := mkWorkspace { requested_root : string; canonical_root : string; native_object_identity : string }.

(** The host's resolver. *)
Class WorkspaceIdentityResolver : Type := resolve : WorkspaceRequest -> result WorkspaceIdentity.

Record EnvironmentVariable : Type := mkVariable { var_name : string; var_value : string }.
Record EnvironmentPolicy : Type := mkEnvironment { base : list EnvironmentVariable }.
Record LaunchEnvironment : Type := mkLaunchEnvironment { clear_environment : bool; launch_entries : list EnvironmentVariable }.
Record EffectiveEnvironment : Type := mkEffective { inherit_ambient : bool; entries : list EnvironmentVariable }.

(** [u32] and [u64] fields. *)
Record ResourceLimits : Type := mkLimits {
  descendant_processes : N; memory_bytes : N; cpu_time_ms : N; wall_time_ms : N;
  open_descriptors_or_handles : N; captured_output_bytes : N }.

#[export] Instance ExecutionAccess_eq : EqDecision ExecutionAccess.
Proof. solve_decision. Defined.
#[export] Instance ExecutionSurface_eq : EqDecision ExecutionSurface.
Proof. solve_decision. Defined.
#[export] Instance DestinationGrant_eq : EqDecision DestinationGrant.
Proof. solve_decision. Defined.
#[export] Instance ResourceLimits_eq : EqDecision ResourceLimits.
Proof. solve_decision. Defined.

Record ExecutionPolicyRequest : Type := mkPolicyRequest {
  req_schema_version : N; req_access : ExecutionAccess; req_allow_process : bool; req_allow_pty : bool;
  req_workspace : option WorkspaceRequest; req_scratch : ScratchDisposition;
  req_catalog_generation : CatalogGeneration; req_activated_tools : list ToolId;
  req_destinations : list DestinationGrant; req_environment : EnvironmentPolicy;
  req_resource_limits : option ResourceLimits; req_audit_policy : AuditPolicy }.

Abbreviation PolicyDigest := Sha256Digest.

Record ValidatedExecutionPolicy : Type := mkPolicy {
  policy_schema_version : N; policy_access : ExecutionAccess; allow_process : bool; allow_pty : bool;
  workspace_identity : option WorkspaceIdentity; scratch_disposition : ScratchDisposition;
  prepared_catalog : PreparedCatalogClosure; policy_destinations : list DestinationGrant;
  policy_environment : EnvironmentPolicy; policy_resource_limits : option ResourceLimits;
  audit_policy : AuditPolicy; audit_digest : PolicyDigest }.

(** A [BTreeSet<T>] is the list of its elements in increasing order. *)
Module GrantSet.
Inductive GrantSet (T : Type) : Type := Unrestricted | Only (values : list T).
Arguments Unrestricted {T}.
Arguments Only {T} values.
End GrantSet.
Abbreviation GrantSet := GrantSet.GrantSet.

Record ExecutionGrant : Type := mkGrant {
  grant_access : option ExecutionAccess; grant_process : bool; grant_pty : bool;
  grant_tools : GrantSet ToolId; grant_destinations : GrantSet DestinationGrant }.

Definition POLICY_SCHEMA_V1 : N := 1.
Definition AUDIT_DIGEST_PROJECTION_V1 : string := "ricochet.sandbox.policy.audit.v1".

Definition resource_policy_error (limit : ResourceLimitKind) : SandboxError :=
  policy FailedGuarantee.ResourceCeiling (with_resource_limit limit empty_metadata).

(** ** Grants *)

Definition resolve_legacy_access (explicit : option ExecutionAccess) (allow_process allow_pty : bool) : option ExecutionAccess :=
  match explicit with
  | Some a => Some a
  | None => if allow_process || allow_pty then Some ExecutionAccess.Full else None
  end.

Definition access_min (a b : ExecutionAccess) : ExecutionAccess :=
  if security_rank a <=? security_rank b then a else b.

Definition narrower_access (first second : option ExecutionAccess) : option ExecutionAccess :=
  match first, second with
  | Some a, Some b => Some (access_min a b)
  | Some a, None | None, Some a => Some a
  | None, None => None
  end.

(** [first.intersection(second)], in order. *)
Definition intersection {T : Type} `{EqDecision T} (first second : list T) : list T :=
  List.filter (fun x => bool_decide (x ∈ second)) first.

Definition intersect_grant_set {T : Type} `{EqDecision T} (first second : GrantSet T) : GrantSet T :=
  match first, second with
  | GrantSet.Unrestricted, other | other, GrantSet.Unrestricted => other
  | GrantSet.Only first, GrantSet.Only second => GrantSet.Only (intersection first second)
  end.

(** The derived order of [DestinationGrant] and insertion into a set. *)
Definition destination_compare (a b : DestinationGrant) : comparison :=
  then_compare (String.compare (host a) (host b)) (N.compare (port a) (port b)).
Definition tool_compare (a b : ToolId) : comparison := String.compare (tool_str a) (tool_str b).

Section ordered.
Context {T : Type} (compare : T -> T -> comparison).
Fixpoint set_insert (x : T) (l : list T) : list T :=
  match l with
  | [] => [x]
  | y :: l' => match compare x y with Lt => x :: l | Eq => l | Gt => y :: set_insert x l' end
  end.
Definition set_of_list (l : list T) : list T := foldl (fun s x => set_insert x s) [] l.

(** Refuses duplicates. *)
Definition collect_unique (values : list T) : result (list T) :=
  let set := set_of_list values in
  if length set =? length values then Ok set else Err policy_error.
End ordered.

Section grants.
Context `{Idna}.

Fixpoint renew_destinations (l : list DestinationGrant) : result (list DestinationGrant) :=
  match l with
  | [] => Ok []
  | grant :: l' =>
      let? grant := new_destination (host grant) (port grant) in
      let? l' := renew_destinations l' in Ok (grant :: l')
  end.

Definition intersect_destination_grant_set (first second : GrantSet DestinationGrant) : result (GrantSet DestinationGrant) :=
  let selected := match first, second with
    | GrantSet.Unrestricted, GrantSet.Unrestricted => None
    | GrantSet.Unrestricted, GrantSet.Only values | GrantSet.Only values, GrantSet.Unrestricted => Some values
    | GrantSet.Only first, GrantSet.Only second => Some (intersection first second)
    end in
  match selected with
  | None => Ok GrantSet.Unrestricted
  | Some values => let? grants := renew_destinations values in Ok (GrantSet.Only (set_of_list destination_compare grants))
  end.

Definition intersect (self requested : ExecutionGrant) : result ExecutionGrant :=
  let? destinations := intersect_destination_grant_set (grant_destinations self) (grant_destinations requested) in
  Ok (mkGrant (narrower_access (grant_access self) (grant_access requested))
        (grant_process self && grant_process requested) (grant_pty self && grant_pty requested)
        (intersect_grant_set (grant_tools self) (grant_tools requested)) destinations).
End grants.

(** ** Resource limits *)

Definition validate_limits (l : ResourceLimits) : result unit :=
  if (descendant_processes l =? 0)%N then Err (resource_policy_error ResourceLimitKind.DescendantProcesses)
  else if (memory_bytes l =? 0)%N then Err (resource_policy_error ResourceLimitKind.MemoryBytes)
  else if (cpu_time_ms l =? 0)%N then Err (resource_policy_error ResourceLimitKind.CpuTime)
  else if (wall_time_ms l =? 0)%N then Err (resource_policy_error ResourceLimitKind.WallTime)
  else if (open_descriptors_or_handles l =? 0)%N then Err (resource_policy_error ResourceLimitKind.OpenDescriptorsOrHandles)
  else if (captured_output_bytes l =? 0)%N then Err (resource_policy_error ResourceLimitKind.CapturedOutput)
  else Ok tt.

Definition ensure_not_above (ceiling l : ResourceLimits) : result unit :=
  if (descendant_processes ceiling <? descendant_processes l)%N then Err (resource_policy_error ResourceLimitKind.DescendantProcesses)
  else if (memory_bytes ceiling <? memory_bytes l)%N then Err (resource_policy_error ResourceLimitKind.MemoryBytes)
  else if (cpu_time_ms ceiling <? cpu_time_ms l)%N then Err (resource_policy_error ResourceLimitKind.CpuTime)
  else if (wall_time_ms ceiling <? wall_time_ms l)%N then Err (resource_policy_error ResourceLimitKind.WallTime)
  else if (open_descriptors_or_handles ceiling <? open_descriptors_or_handles l)%N
       then Err (resource_policy_error ResourceLimitKind.OpenDescriptorsOrHandles)
  else if (captured_output_bytes ceiling <? captured_output_bytes l)%N then Err (resource_policy_error ResourceLimitKind.CapturedOutput)
  else Ok tt.

(** ** Environments *)

Definition valid_environment_name (name : string) : bool :=
  negb (String.eqb name "") && negb (contains_byte "=" name || contains_byte "000" name).

Definition normalized_environment_name (name : string) : string := to_ascii_uppercase name.

Definition reserved_environment_name (name : string) : bool :=
  let name := normalized_environment_name name in
  existsb (String.eqb name)
    ["PATH"; "HOME"; "USERPROFILE"; "TEMP"; "TMP"; "TMPDIR"; "RICOCHET_BROKER_ENDPOINT"; "RICOCHET_SANDBOX_SESSION"]
  || starts_with "RICOCHET_SANDBOX_" name.

Fixpoint validate_entries_into (constrained : bool) (validated : btree EnvironmentVariable) (l : list EnvironmentVariable)
    : result (btree EnvironmentVariable) :=
  match l with
  | [] => Ok validated
  | entry :: l' =>
      if negb (valid_environment_name (var_name entry)) || contains_byte "000" (var_value entry)
         || (constrained && reserved_environment_name (var_name entry))
      then Err policy_error
      else
        let name := normalized_environment_name (var_name entry) in
        if bt_contains_key name validated then Err policy_error
        else validate_entries_into constrained (bt_insert name entry validated) l'
  end.

Definition validate_environment_entries (l : list EnvironmentVariable) (constrained : bool) : result (btree EnvironmentVariable) :=
  validate_entries_into constrained [] l.

Definition validate_environment_policy (p : EnvironmentPolicy) (constrained : bool) : result EnvironmentPolicy :=
  let? validated := validate_environment_entries (base p) constrained in Ok (mkEnvironment (bt_values validated)).

(** [map.extend(other)] and [collect()] into a map. *)
Definition bt_extend {A : Type} (m other : list (string * A)) : btree A := foldl (fun m kv => bt_insert kv.1 kv.2 m) m other.

Definition resolve_launch_environment (p : ValidatedExecutionPolicy) (launch : LaunchEnvironment) : result EffectiveEnvironment :=
  let constrained := is_constrained (policy_access p) in
  let? launched := validate_environment_entries (launch_entries launch) constrained in
  let inherited := bt_extend [] ((fun entry => (normalized_environment_name (var_name entry), entry)) <$> base (policy_environment p)) in
  Ok (mkEffective (negb constrained && negb (clear_environment launch)) (bt_values (bt_extend inherited launched))).

(** ** The audit projection *)

Record AuditArtifact : Type := mkAuditArtifact { audit_name : string; audit_sha256 : Sha256Digest; audit_kind : ArtifactKind }.
Record AuditHelper : Type := mkAuditHelper { helper_tool : ToolId; helper_sha256 : Sha256Digest }.
Record AuditTool : Type := mkAuditTool {
  audit_tool_id : ToolId; audit_executable : AuditArtifact; audit_helpers : list AuditHelper;
  audit_libraries : list AuditArtifact; audit_resources : list AuditArtifact; audit_adapter : option TransportAdapter }.
Record AuditCatalog : Type := mkAuditCatalog {
  audit_generation : CatalogGeneration; audit_platform : PlatformId; audit_roots : list ToolId; audit_tools : list AuditTool }.
Record AuditEnvironment : Type := mkAuditEnvironment { env_count : nat; env_names : list string }.
Record AuditDigestInput : Type := mkDigestInput {
  projection_version : string; in_schema_version : N; in_access : ExecutionAccess; in_process : bool; in_pty : bool;
  in_workspace : option WorkspaceIdentity; in_scratch : ScratchDisposition; in_catalog : AuditCatalog;
  in_destinations : list DestinationGrant; in_environment : AuditEnvironment;
  in_limits : option ResourceLimits; in_audit_policy : AuditPolicy }.

(** The digest of the projection's JSON text. *)
Class AuditDigest : Type := compute_audit_digest : AuditDigestInput -> PolicyDigest.

Definition audit_artifact (a : HashedArtifact) : AuditArtifact :=
  mkAuditArtifact (logical_name a) (artifact_sha256 a) (artifact_kind a).

Definition audit_artifact_compare (a b : AuditArtifact) : comparison :=
  then_compare (String.compare (audit_name a) (audit_name b))
    (then_compare (Nat.compare (kind_rank (audit_kind a)) (kind_rank (audit_kind b)))
       (digest_compare (audit_sha256 a) (audit_sha256 b))).

Definition sorted_audit_artifacts (l : list HashedArtifact) : list AuditArtifact :=
  sort_by audit_artifact_compare (audit_artifact <$> l).

(** [catalog.tools()[helper_id]]. *)
Fixpoint audit_helper_list (catalog : PreparedCatalogClosure) (l : list ToolId) : result (list AuditHelper) :=
  match l with
  | [] => Ok []
  | helper_id :: l' =>
      match bt_get (tool_str helper_id) (tools catalog) with
      | None => Panic
      | Some helper =>
          let? helpers := audit_helper_list catalog l' in
          Ok (mkAuditHelper helper_id (artifact_sha256 (prepared_executable helper)) :: helpers)
      end
  end.

Definition audit_tool (catalog : PreparedCatalogClosure) (tool : PreparedTool) : result AuditTool :=
  let? helpers := audit_helper_list catalog (helper_ids tool) in
  Ok (mkAuditTool (prepared_tool_id tool) (audit_artifact (prepared_executable tool))
        (sort_by (fun a b => tool_compare (helper_tool a) (helper_tool b)) helpers)
        (sorted_audit_artifacts (prepared_libraries tool)) (sorted_audit_artifacts (prepared_resources tool))
        (prepared_adapter tool)).

Fixpoint audit_tool_list (catalog : PreparedCatalogClosure) (l : list PreparedTool) : result (list AuditTool) :=
  match l with
  | [] => Ok []
  | tool :: l' =>
      let? tool := audit_tool catalog tool in
      let? tools := audit_tool_list catalog l' in Ok (tool :: tools)
  end.

Definition audit_catalog (catalog : PreparedCatalogClosure) : result AuditCatalog :=
  let? tools := audit_tool_list catalog (bt_values (tools catalog)) in
  Ok (mkAuditCatalog (closure_generation catalog) (closure_platform catalog) (mkToolId <$> bs_elements (roots catalog)) tools).

(** ** Validation *)

Definition validate_workspace_identity (identity : WorkspaceIdentity) : result unit :=
  if existsb (fun value => String.eqb value "" || contains_byte "000" value)
       [requested_root identity; canonical_root identity; native_object_identity identity]
  then Err policy_error else Ok tt.

Section validate.
Context `{WorkspaceIdentityResolver} `{AuditDigest}.

Definition resolve_workspace (request : option WorkspaceRequest) : result (option WorkspaceIdentity) :=
  match request with
  | None => Ok None
  | Some request =>
      let? identity := resolve request in
      let? _ := validate_workspace_identity identity in Ok (Some identity)
  end.

Definition digest_input (r : ExecutionPolicyRequest) (workspace : option WorkspaceIdentity) (catalog : AuditCatalog)
    (destinations : list DestinationGrant) (environment : EnvironmentPolicy) : AuditDigestInput :=
  mkDigestInput AUDIT_DIGEST_PROJECTION_V1 (req_schema_version r) (req_access r) (req_allow_process r) (req_allow_pty r)
    workspace (req_scratch r) catalog destinations
    (mkAuditEnvironment (length (base environment)) (var_name <$> base environment))
    (req_resource_limits r) (req_audit_policy r).

Definition validate_policy (catalog : ValidatedCatalogSnapshot) (r : ExecutionPolicyRequest) : result ValidatedExecutionPolicy :=
  if negb (req_schema_version r =? POLICY_SCHEMA_V1)%N || (negb (req_allow_process r) && negb (req_allow_pty r))
     || negb (bool_decide (req_catalog_generation r = val_generation catalog))
  then Err policy_error
  else
    let constrained := is_constrained (req_access r) in
    if constrained && (is_none (req_workspace r) || is_none (req_resource_limits r)) then Err policy_error
    else if negb constrained && (negb (length (req_activated_tools r) =? 0) || negb (length (req_destinations r) =? 0))
    then Err policy_error
    else
      let? _ := match req_resource_limits r with Some limits => validate_limits limits | None => Ok tt end in
      let? activated_tools := collect_unique tool_compare (req_activated_tools r) in
      let? destinations := collect_unique destination_compare (req_destinations r) in
      let? environment := validate_environment_policy (req_environment r) constrained in
      let? workspace_identity := resolve_workspace (req_workspace r) in
      let? prepared_catalog := activate activated_tools catalog in
      let? projection := audit_catalog prepared_catalog in
      let audit_digest := compute_audit_digest (digest_input r workspace_identity projection destinations environment) in
      Ok (mkPolicy (req_schema_version r) (req_access r) (req_allow_process r) (req_allow_pty r) workspace_identity
            (req_scratch r) prepared_catalog destinations environment (req_resource_limits r) (req_audit_policy r) audit_digest).
End validate.

Definition allows (surface : ExecutionSurface) (p : ValidatedExecutionPolicy) : bool :=
  match surface with
  | ExecutionSurface.Process => allow_process p
  | ExecutionSurface.Pty => allow_pty p
  end.
