(* ===== verification/SandboxAudit.v ===== *)
(** * The audit trail (audit.rs)

    The context every audit record carries, its checks, and the events.
    [public_tool_projection_valid] checks a received tool list with Kahn's
    algorithm, where the catalog itself was checked depth first. *)

From stdpp Require Import base tactics list strings option numbers.
From Stdlib Require Import ZArith NArith Lia Ascii String.
From S2P Require Import Prelude RustStr RustText BTree SandboxError SandboxIdentity SandboxCatalog SandboxDestination SandboxPolicy.

Open Scope string_scope.
Open Scope list_scope.
Open Scope nat_scope.

Record ScratchId : Type := mkScratchId { scratch_str : string }.
#[export] Instance ScratchId_eq : EqDecision ScratchId.
Proof. solve_decision. Defined.
#[export] Instance BackendIdentity_eq : EqDecision BackendIdentity.
Proof. solve_decision. Defined.
#[export] Instance TransportAdapter_eq : EqDecision TransportAdapter.
Proof. solve_decision. Defined.
#[export] Instance PublicToolRecord_eq : EqDecision PublicToolRecord.
Proof. solve_decision. Defined.

Module EnforcementState.
Inductive EnforcementState : Type := Enforced | UnenforcedFullAccess | MockOnly.
End EnforcementState.
Abbreviation EnforcementState := EnforcementState.EnforcementState.
#[export] Instance EnforcementState_eq : EqDecision EnforcementState.
Proof. solve_decision. Defined.

Definition enforced (s : EnforcementState) : bool := match s with EnforcementState.Enforced => true | _ => false end.

Record AuditWorkspace : Type := mkAuditWorkspace { workspace_root : string; writable : bool }.
#[export] Instance AuditWorkspace_eq : EqDecision AuditWorkspace.
Proof. solve_decision. Defined.

Definition from_identity (identity : WorkspaceIdentity) (writable : bool) : AuditWorkspace :=
  mkAuditWorkspace (canonical_root identity) writable.
Definition audit_workspace_valid (w : AuditWorkspace) : bool :=
  negb (String.eqb (workspace_root w) "") && negb (contains_byte "000" (workspace_root w)).

Record AuditContext : Type := mkContext {
  ctx_session_id : SessionId; ctx_policy_digest : PolicyDigest; ctx_access : ExecutionAccess;
  ctx_enforcement : EnforcementState; ctx_backend : BackendIdentity; ctx_broker_protocol : N;
  ctx_workspace : option AuditWorkspace; ctx_scratch_id : ScratchId; ctx_catalog_generation : CatalogGeneration;
  ctx_tools : list PublicToolRecord; ctx_destinations : list DestinationGrant; ctx_resource_limits : option ResourceLimits }.

Definition audit_validation_error : SandboxError := policy FailedGuarantee.PolicyValidity empty_metadata.

Definition access_enforcement_valid (access : ExecutionAccess) (enforcement : EnforcementState) : bool :=
  match access, enforcement with
  | (ExecutionAccess.Read | ExecutionAccess.Workspace), (EnforcementState.Enforced | EnforcementState.MockOnly) => true
  | ExecutionAccess.Full, (EnforcementState.UnenforcedFullAccess | EnforcementState.MockOnly) => true
  | _, _ => false
  end.

(** ** The tool projection *)

(** [l.windows(2).all(|pair| pair[0] < pair[1])]. *)
Fixpoint increasing {T : Type} (compare : T -> T -> comparison) (l : list T) : bool :=
  match l with
  | a :: ((b :: _) as l') => (match compare a b with Lt => true | _ => false end) && increasing compare l'
  | _ => true
  end.

Definition public_compare (a b : PublicToolRecord) : comparison := tool_compare (public_tool_id a) (public_tool_id b).

(** [tools.binary_search_by(..)], where [tools] is strictly increasing: the
    index of the only match. *)
Fixpoint search_tool (id : ToolId) (tools : list PublicToolRecord) : option nat :=
  match tools with
  | [] => None
  | t :: tools' => if bool_decide (public_tool_id t = id) then Some 0 else S <$> search_tool id tools'
  end.

Definition increment (i : nat) (edges : list nat) : list nat := alter S i edges.

(** The helpers of one tool; [None] when one is not in the list. *)
Fixpoint count_helpers (tools : list PublicToolRecord) (l : list ToolId) (edges : list nat) : option (list nat) :=
  match l with
  | [] => Some edges
  | helper_id :: l' =>
      match search_tool helper_id tools with
      | None => None
      | Some index => count_helpers tools l' (increment index edges)
      end
  end.

Fixpoint count_edges (tools l : list PublicToolRecord) (edges : list nat) : option (list nat) :=
  match l with
  | [] => Some edges
  | tool :: l' =>
      if negb (increasing tool_compare (public_helper_ids tool)) then None
      else match count_helpers tools (public_helper_ids tool) edges with
           | None => None
           | Some edges => count_edges tools l' edges
           end
  end.

(** The indices without incoming edges, in order. *)
Definition initial_pending (edges : list nat) : list nat :=
  List.filter (fun i => match edges !! i with Some 0 => true | _ => false end) (seq 0 (length edges)).

(** Removes the edges of a visited tool; new sources go to the back. *)
Fixpoint release_helpers {E : Type} (tools : list PublicToolRecord) (l : list ToolId) (edges pending : list nat)
    : res E (list nat * list nat) :=
  match l with
  | [] => Ok (edges, pending)
  | helper_id :: l' =>
      match search_tool helper_id tools with
      | None => Panic
      | Some i =>
          match edges !! i with
          | Some (S n) =>
              release_helpers tools l' (<[i := n]> edges) (if n =? 0 then pending ++ [i] else pending)
          | _ => Panic
          end
      end
  end.

Fixpoint kahn_loop {E : Type} (fuel : nat) (tools : list PublicToolRecord) (edges pending : list nat) (visited : nat) : res E nat :=
  match fuel with
  | O => OutOfFuel
  | S fuel' =>
      match pending with
      | [] => Ok visited
      | i :: pending' =>
          let? tool := index tools i in
          let? (edges, pending) := release_helpers tools (public_helper_ids tool) edges pending' in
          kahn_loop fuel' tools edges pending (S visited)
      end
  end.

Definition public_tool_projection_valid {E : Type} (tools : list PublicToolRecord) : res E bool :=
  if negb (increasing public_compare tools) then Ok false
  else match count_edges tools tools (repeat 0 (length tools)) with
       | None => Ok false
       | Some edges =>
           let? visited := kahn_loop (S (length tools)) tools edges (initial_pending edges) 0 in
           Ok (visited =? length tools)
       end.

(** ** The context *)

Definition access_fields_valid (c : AuditContext) : bool :=
  match ctx_access c with
  | ExecutionAccess.Read =>
      match ctx_workspace c with Some w => negb (writable w) | None => false end && is_some (ctx_resource_limits c)
  | ExecutionAccess.Workspace =>
      match ctx_workspace c with Some w => writable w | None => false end && is_some (ctx_resource_limits c)
  | ExecutionAccess.Full =>
      match ctx_workspace c with Some w => writable w | None => true end
      && (length (ctx_tools c) =? 0) && (length (ctx_destinations c) =? 0)
  end.

Definition limits_valid (l : option ResourceLimits) : bool :=
  match l with Some l => match validate_limits l with Ok _ => true | _ => false end | None => true end.

Definition validate_context (c : AuditContext) : result unit :=
  let workspace_valid := match ctx_workspace c with Some w => audit_workspace_valid w | None => true end in
  let destinations_valid := increasing destination_compare (ctx_destinations c) in
  if access_enforcement_valid (ctx_access c) (ctx_enforcement c) && workspace_valid && access_fields_valid c
     && limits_valid (ctx_resource_limits c)
  then
    let? projection := public_tool_projection_valid (ctx_tools c) in
    if projection && destinations_valid then Ok tt else Err audit_validation_error
  else Err audit_validation_error.

Definition policy_workspace (p : ValidatedExecutionPolicy) : option AuditWorkspace :=
  (fun identity => from_identity identity (negb (bool_decide (policy_access p = ExecutionAccess.Read)))) <$> workspace_identity p.

Definition validate_against_policy (p : ValidatedExecutionPolicy) (c : AuditContext) : result unit :=
  let? _ := validate_context c in
  if bool_decide (ctx_access c = policy_access p) && bool_decide (ctx_policy_digest c = audit_digest p)
     && bool_decide (ctx_workspace c = policy_workspace p)
     && bool_decide (ctx_catalog_generation c = closure_generation (prepared_catalog p))
     && bool_decide (ctx_tools c = public_records (prepared_catalog p))
     && bool_decide (ctx_destinations c = policy_destinations p)
     && bool_decide (ctx_resource_limits c = policy_resource_limits p)
  then Ok tt else Err audit_validation_error.

Definition new_context (session : SessionId) (scratch : ScratchId) (backend : BackendIdentity) (broker_protocol : N)
    (enforcement : EnforcementState) (p : ValidatedExecutionPolicy) : result AuditContext :=
  if negb (access_enforcement_valid (policy_access p) enforcement) then Err policy_error
  else
    let context := mkContext session (audit_digest p) (policy_access p) enforcement backend broker_protocol
      (policy_workspace p) scratch (closure_generation (prepared_catalog p)) (public_records (prepared_catalog p))
      (policy_destinations p) (policy_resource_limits p) in
    let? _ := validate_against_policy p context in Ok context.

(** ** Events *)

Module ExecutionInstanceId.
Inductive ExecutionInstanceId : Type := Process (id : N) | Pty (id : N).
End ExecutionInstanceId.
Abbreviation ExecutionInstanceId := ExecutionInstanceId.ExecutionInstanceId.

Record ExecutionAuditIdentity : Type := mkExecution { process_tree_id : N; instance : ExecutionInstanceId }.

Module AuditEventKind.
Inductive AuditEventKind : Type :=
  | StateTransition (from to : SessionState)
  | LaunchRequested (surface : ExecutionSurface) (tool : option ToolId) (argument_count : N)
  | ProcessTreeStarted (tree : N)
  | Exited (execution : ExecutionAuditIdentity) (exit_code : option Z) (success : bool)
  | Cancelled (execution : ExecutionAuditIdentity) (reason : TerminationReason)
  | Revoked (tool : ToolId) (affected_process_trees : list N)
  | TimedOut (execution : ExecutionAuditIdentity)
  | ResourceLimit (execution : ExecutionAuditIdentity) (limit : ResourceLimitKind)
  | Denied (code : SandboxErrorCode) (guarantee : FailedGuarantee) (remediation : option Remediation).
End AuditEventKind.
Abbreviation AuditEventKind := AuditEventKind.AuditEventKind.

Definition validate_event (e : AuditEventKind) : result unit :=
  let valid := match e with
    | AuditEventKind.StateTransition from to => transition_allowed from to
    | AuditEventKind.Denied c g r => typed_denial_shape_valid c (Some g) r
    | _ => true
    end in
  if valid then Ok tt else Err audit_validation_error.

Record AuditRecord : Type := mkAuditRecord { at_ : N; context : AuditContext; event : AuditEventKind }.

Definition validate_audit_record (r : AuditRecord) : result unit :=
  let? _ := validate_context (context r) in validate_event (event r).
