(* ===== verification/SandboxAuditProofs.v ===== *)
(** * The tool projection check

    Kahn's algorithm on a received tool list accepts exactly the sorted,
    closed and acyclic ones, so it agrees with the depth-first check of the
    catalog: the projection of a validated policy is always accepted. *)

From stdpp Require Import base tactics list strings option numbers relations.
From Stdlib Require Import ZArith NArith Lia Ascii String Sorted.
From S2P Require Import Prelude RustStr RustText BTree SandboxError SandboxIdentity SandboxCatalog SandboxCatalogProofs SandboxCatalogWf.
From S2P Require Import SandboxDestination SandboxPolicy SandboxAudit.

Open Scope string_scope.
Open Scope list_scope.
Open Scope nat_scope.

(** ** Sums and occurrences *)

Definition occ (j : nat) (l : list nat) : nat := length (List.filter (Nat.eqb j) l).

Lemma occ_cons j i l : occ j (i :: l) = (if j =? i then 1 else 0) + occ j l.
Proof. unfold occ. simpl. by destruct (j =? i). Qed.

Lemma occ_pos j l : 0 < occ j l <-> j ∈ l.
Proof.
  induction l as [|i l IH]; [split; [unfold occ; simpl; lia|by intros ?%elem_of_nil]|].
  rewrite occ_cons, elem_of_cons, <- IH. destruct (Nat.eqb_spec j i); lia.
Qed.

Lemma repeated (l : list nat) : ~ NoDup l -> exists x a b c, l = a ++ x :: b ++ x :: c.
Proof.
  induction l as [|y l IH]; intros Hd; [by destruct Hd; constructor|].
  destruct (decide (y ∈ l)) as [Hy|Hy].
  - apply list_elem_of_split in Hy as (b & c & ->). by exists y, [], b, c.
  - destruct IH as (x & a & b & c & ->); [intros Hn; apply Hd; by constructor|]. by exists x, (y :: a), b, c.
Qed.

(** A backward walk that never ends runs into a cycle. *)
Section cycle.
Context (R : nat -> nat -> Prop) (n : nat) (U : nat -> Prop).
Hypothesis bounded : forall i, U i -> i < n.
Hypothesis back : forall j, U j -> exists i, U i /\ R i j.

Fixpoint walk (l : list nat) : Prop :=
  match l with
  | a :: ((b :: _) as l') => R a b /\ walk l'
  | _ => True
  end.

Lemma long_walk j k : U j -> exists l, length l = S k /\ walk l /\ Forall U l.
Proof.
  intros Hj. induction k as [|k (l & Hl & Hw & Hu)]; [exists [j]; repeat constructor; auto|].
  destruct l as [|a l]; [done|]. apply Forall_cons_1 in Hu as [Ha Hu]. destruct (back a Ha) as (i & Hi & Hr).
  exists (i :: a :: l). split; [simpl in *; lia|]. split; [by split|]. by repeat constructor.
Qed.

Lemma walk_tc a x b y c : walk (a ++ x :: b ++ y :: c) -> tc R x y.
Proof.
  induction a as [|z a IH]; intros Hw.
  - revert x Hw. induction b as [|z b IHb]; intros x Hw; simpl in Hw; [apply tc_once, Hw|].
    destruct Hw as [Hr Hw]. eapply tc_l; [exact Hr|by apply IHb].
  - apply IH. simpl in Hw. destruct (a ++ x :: b ++ y :: c) eqn:E; [done|]. apply Hw.
Qed.

Lemma walk_cycle j : U j -> exists x, tc R x x.
Proof.
  intros Hj. destruct (long_walk j n Hj) as (l & Hl & Hw & Hu).
  destruct (repeated l) as (x & a & b & c & ->); [|exists x; by eapply walk_tc].
  intros Hn. assert (length l <= length (seq 0 n)); [|rewrite length_seq in *; lia].
  apply submseteq_length, NoDup_submseteq; [done|]. intros i Hi. apply elem_of_seq.
  rewrite list.Forall_forall in Hu. specialize (bounded i (Hu i Hi)). lia.
Qed.
End cycle.

(** ** The graph of a tool list *)

Section kahn.
Context (tools : list PublicToolRecord).

Let n := length tools.

Definition succ_of (l : list ToolId) : list nat := omap (fun h => search_tool h tools) l.
Definition succ (i : nat) : list nat :=
  match tools !! i with Some t => succ_of (public_helper_ids t) | None => [] end.
Definition closed : Prop := forall t h, t ∈ tools -> h ∈ public_helper_ids t -> is_Some (search_tool h tools).

Definition E (i j : nat) : Prop := j ∈ succ i.

(** The edges into [j] from the tools not in [V]. *)
Definition incoming (V : list nat) (j : nat) : nat :=
  list_sum ((fun i => if bool_decide (i ∈ V) then 0 else occ j (succ i)) <$> seq 0 n).

Lemma search_tool_spec h i : search_tool h tools = Some i -> exists t, tools !! i = Some t /\ public_tool_id t = h.
Proof.
  unfold n in *. clear n. revert i. induction tools as [|t ts IH]; intros i; simpl; [done|].
  case_bool_decide as Hd; [intros [= <-]; by exists t|].
  destruct (search_tool h ts) as [i'|]; [|done]. intros [= <-]. by apply IH.
Qed.

Lemma search_tool_lt h i : search_tool h tools = Some i -> i < n.
Proof. intros (t & Ht & _)%search_tool_spec. by eapply lookup_lt_Some. Qed.

Lemma succ_lt i j : E i j -> j < n.
Proof.
  unfold E, succ, succ_of. destruct (tools !! i) as [t|]; [|by intros ?%elem_of_nil].
  intros (h & _ & Hh)%list_elem_of_omap. by eapply search_tool_lt.
Qed.

Lemma E_lt i j : E i j -> i < n.
Proof.
  unfold E, succ. destruct (tools !! i) eqn:Ei; [intros _; by eapply lookup_lt_Some|by intros ?%elem_of_nil].
Qed.

Lemma incoming_visit V i j : i ∉ V -> i < n -> incoming V j = incoming (i :: V) j + occ j (succ i).
Proof.
  intros Hi Hn. unfold incoming. assert (Hin : i ∈ seq 0 n) by (apply elem_of_seq; lia).
  pose proof (NoDup_seq 0 n) as Hd. revert Hin Hd. generalize (seq 0 n). intros l. induction l as [|k l IH]; [by intros ?%elem_of_nil|].
  intros Hin [Hk Hd]%list.NoDup_cons. rewrite !fmap_cons. simpl.
  apply elem_of_cons in Hin as [<-|Hin].
  - rewrite (bool_decide_eq_false_2 (i ∈ V)) by done. rewrite (bool_decide_eq_true_2 (i ∈ i :: V)) by (by left).
    assert (Hsame : ((fun i0 => if bool_decide (i0 ∈ V) then 0 else occ j (succ i0)) <$> l) =
                    ((fun i0 => if bool_decide (i0 ∈ i :: V) then 0 else occ j (succ i0)) <$> l)); [|rewrite Hsame; lia].
    apply list_fmap_ext. intros a x Hx%list_elem_of_lookup_2.
    assert (x <> i) by (intros ->; done).
    rewrite (bool_decide_ext (x ∈ i :: V) (x ∈ V)); [done|]. rewrite elem_of_cons. tauto.
  - assert (k <> i) by (intros ->; done). rewrite (bool_decide_ext (k ∈ i :: V) (k ∈ V)); [|rewrite elem_of_cons; tauto].
    specialize (IH Hin Hd). lia.
Qed.

Lemma incoming_zero V i j : incoming V j = 0 -> E i j -> i ∈ V.
Proof.
  intros Hz He. destruct (decide (i ∈ V)) as [|Hi]; [done|]. exfalso.
  pose proof (incoming_visit V i j Hi (E_lt _ _ He)). apply occ_pos in He. lia.
Qed.

Lemma incoming_pos V j : 0 < incoming V j -> exists i, (i ∉ V) /\ i < n /\ E i j.
Proof.
  unfold incoming. intros H. assert (exists i, i ∈ seq 0 n /\ (i ∉ V) /\ E i j) as (i & Hs & Hi & He).
  { revert H. generalize (seq 0 n). intros l. induction l as [|k l IH]; [simpl; lia|]. rewrite fmap_cons. simpl.
    case_bool_decide as Hk; [|destruct (decide (0 < occ j (succ k))) as [Ho|]].
    - intros H. destruct IH as (i & ? & ?); [lia|]. exists i. split; [by right|done].
    - intros _. exists k. split; [by left|]. split; [done|by apply occ_pos].
    - intros H. destruct IH as (i & ? & ?); [lia|]. exists i. split; [by right|done]. }
  exists i. apply elem_of_seq in Hs. split; [done|]. split; [lia|done].
Qed.

(** *** Counting the edges *)

Lemma occ_succ_cons j h l i : search_tool h tools = Some i -> occ j (succ_of (h :: l)) = (if j =? i then 1 else 0) + occ j (succ_of l).
Proof. intros H. unfold succ_of. simpl. rewrite H. apply occ_cons. Qed.

(** [edges'] has the edges of [edges] and [f j] more into each [j]. *)
Definition plus (edges : list nat) (f : nat -> nat) (edges' : list nat) : Prop :=
  length edges' = length edges /\ forall j x, edges !! j = Some x -> edges' !! j = Some (x + f j).

Lemma count_helpers_spec l edges : length edges = n ->
  match count_helpers tools l edges with
  | Some edges' => Forall (fun h => is_Some (search_tool h tools)) l /\ plus edges (fun j => occ j (succ_of l)) edges'
  | None => exists h, h ∈ l /\ search_tool h tools = None
  end.
Proof.
  revert edges. induction l as [|h l IH]; intros edges Hl; cbn [count_helpers].
  { split; [constructor|]. split; [done|]. intros j x Hx. unfold succ_of, occ. simpl. by rewrite Nat.add_0_r. }
  destruct (search_tool h tools) as [i|] eqn:Eh; [|exists h; split; [by left|done]].
  specialize (IH (increment i edges)). unfold increment in *. rewrite length_alter in IH. specialize (IH Hl).
  destruct (count_helpers tools l (alter S i edges)) as [edges'|].
  - destruct IH as (Hall & Hlen & He). split; [by constructor; [eexists|]|]. split; [by rewrite Hlen, length_alter|].
    intros j x Hx. rewrite (occ_succ_cons j h l i Eh). destruct (Nat.eqb_spec j i) as [->|Hn].
    + rewrite (He i (S x)); [f_equal; lia|]. by rewrite list_lookup_alter_eq, Hx.
    + rewrite (He j x); [done|]. by rewrite list_lookup_alter_ne.
  - destruct IH as (h' & Hh & Hs). exists h'. split; [by right|done].
Qed.

Lemma count_edges_spec l edges : length edges = n ->
  match count_edges tools l edges with
  | Some edges' =>
      Forall (fun t => increasing tool_compare (public_helper_ids t) = true /\
                       Forall (fun h => is_Some (search_tool h tools)) (public_helper_ids t)) l /\
      plus edges (fun j => list_sum ((fun t => occ j (succ_of (public_helper_ids t))) <$> l)) edges'
  | None => exists t, t ∈ l /\ (increasing tool_compare (public_helper_ids t) = false \/
                       exists h, h ∈ public_helper_ids t /\ search_tool h tools = None)
  end.
Proof.
  revert edges. induction l as [|t l IH]; intros edges Hl; cbn [count_edges].
  { split; [constructor|]. split; [done|]. intros j x Hx. simpl. by rewrite Nat.add_0_r. }
  destruct (increasing tool_compare (public_helper_ids t)) eqn:Ei; simpl.
  2:{ exists t. split; [by left|by left]. }
  pose proof (count_helpers_spec (public_helper_ids t) edges Hl) as Hc.
  destruct (count_helpers tools (public_helper_ids t) edges) as [edges1|].
  2:{ exists t. split; [by left|by right]. }
  destruct Hc as (Hall & Hlen & He). specialize (IH edges1). rewrite Hlen in IH. specialize (IH Hl).
  destruct (count_edges tools l edges1) as [edges2|].
  - destruct IH as (Hall2 & Hlen2 & He2). split; [by constructor|]. split; [congruence|].
    intros j x Hx. rewrite (He2 j (x + occ j (succ_of (public_helper_ids t)))); [|by apply He].
    f_equal. by rewrite <- Nat.add_assoc.
  - destruct IH as (t' & Ht & Hc). exists t'. split; [by right|done].
Qed.

Lemma incoming_all j : incoming [] j = list_sum ((fun t => occ j (succ_of (public_helper_ids t))) <$> tools).
Proof.
  unfold incoming. f_equal. apply list_eq. intros i. rewrite !list_lookup_fmap.
  destruct (decide (i < n)) as [Hi|Hi].
  - rewrite lookup_seq_lt by done. simpl. unfold succ.
    destruct (tools !! i) as [t|] eqn:Et; [done|]. apply lookup_ge_None in Et. unfold n in Hi. lia.
  - rewrite lookup_seq_ge by lia. rewrite lookup_ge_None_2 by (unfold n in Hi; lia). done.
Qed.

(** *** Releasing the edges of a visited tool *)

Lemma release_helpers_spec {Er : Type} l edges pending :
  Forall (fun h => is_Some (search_tool h tools)) l ->
  (forall j, j < n -> exists x, edges !! j = Some x /\ occ j (succ_of l) <= x) -> length edges = n ->
  exists edges' new, release_helpers (E := Er) tools l edges pending = Ok (edges', pending ++ new) /\
    length edges' = n /\
    (forall j x, edges !! j = Some x -> edges' !! j = Some (x - occ j (succ_of l))) /\
    NoDup new /\ (forall j, j ∈ new <-> 0 < occ j (succ_of l) /\ edges !! j = Some (occ j (succ_of l))).
Proof.
  revert edges pending. induction l as [|h l IH]; intros edges pending Hall Hle Hlen; cbn [release_helpers].
  { exists edges, []. rewrite app_nil_r. split_and!; try done; [|constructor|].
    - intros j x Hx. unfold succ_of, occ. simpl. by rewrite Nat.sub_0_r.
    - intros j. unfold succ_of, occ. simpl. split; [by intros ?%elem_of_nil|lia]. }
  apply Forall_cons_1 in Hall as [[i Hi] Hall]. rewrite Hi.
  pose proof (fun j => occ_succ_cons j h l i Hi) as Hocc. pose proof (search_tool_lt _ _ Hi) as Hlt.
  destruct (Hle i Hlt) as (x & Hx & Hox). rewrite Hocc, Nat.eqb_refl in Hox. rewrite Hx.
  destruct x as [|x]; [lia|].
  destruct (IH (<[i := x]> edges) (if x =? 0 then pending ++ [i] else pending)) as (edges' & new & Hr & Hl' & He & Hd & Hn); try done.
  - intros j Hj. destruct (decide (j = i)) as [->|Hne].
    + exists x. rewrite list_lookup_insert_eq by (unfold n in *; lia). split; [done|lia].
    + rewrite list_lookup_insert_ne by done. destruct (Hle j Hj) as (y & Hy & Ho). exists y. split; [done|].
      rewrite Hocc in Ho. lia.
  - by rewrite length_insert.
  - assert (Hins : (<[i := x]> edges) !! i = Some x) by (rewrite list_lookup_insert_eq by (unfold n in *; lia); done).
    exists edges', ((if x =? 0 then [i] else []) ++ new). split; [|split; [done|split; [|split]]].
    + rewrite Hr. destruct (x =? 0); [by rewrite <- app_assoc|done].
    + intros j y Hy. rewrite Hocc. destruct (Nat.eqb_spec j i) as [->|Hne].
      * rewrite (He i x Hins). f_equal. assert (y = S x) by congruence. lia.
      * rewrite (He j y); [done|]. by rewrite list_lookup_insert_ne.
    + destruct (Nat.eqb_spec x 0) as [->|]; [|done]. simpl. apply list.NoDup_cons. split; [|done].
      rewrite Hn, Hins. intros [Hp [= Hq]]. lia.
    + intros j. rewrite elem_of_app, Hn, Hocc. destruct (Nat.eqb_spec j i) as [->|Hne].
      * rewrite Hins, Hx. destruct (Nat.eqb_spec x 0) as [->|Hx0].
        -- rewrite list_elem_of_singleton. split; [intros _; split; [lia|f_equal; lia]|by left].
        -- rewrite elem_of_nil. split; [intros [[]|[? [= ?]]]; split; [lia|f_equal; lia]|].
           intros [_ [= Hq]]. right. split; [lia|f_equal; lia].
      * rewrite list_lookup_insert_ne by done. simpl. split; [intros [Hj|?]; [|done]|by right].
        destruct (x =? 0); [by apply list_elem_of_singleton in Hj|by apply elem_of_nil in Hj].
Qed.

(** *** The loop *)

Hypothesis closed_tools : closed.

(** Each tool's predecessors come later in the list. *)
Fixpoint ordered (V : list nat) : Prop :=
  match V with
  | [] => True
  | x :: V' => (forall i, E i x -> i ∈ V') /\ ordered V'
  end.

Record visited (edges pending V : list nat) : Prop := {
  k_length : length edges = n;
  k_edges : forall j, j < n -> edges !! j = Some (incoming V j);
  k_sources : forall j, j ∈ pending \/ j ∈ V <-> j < n /\ incoming V j = 0;
  k_nodup : NoDup (pending ++ V);
  k_ordered : ordered V }.

Lemma visit_source {Er : Type} edges i pending V t : visited edges (i :: pending) V -> tools !! i = Some t ->
  exists edges' new, release_helpers (E := Er) tools (public_helper_ids t) edges pending = Ok (edges', pending ++ new) /\
    visited edges' (pending ++ new) (i :: V).
Proof.
  intros [Hlen Hedges Hsrc Hdup Hord] Ht.
  destruct (proj1 (Hsrc i)) as [Hi Hi0]; [left; by left|].
  apply list.NoDup_cons in Hdup as [Hnot Hdup]. rewrite elem_of_app in Hnot.
  assert (HV : i ∉ V) by tauto. assert (Hsucc : succ_of (public_helper_ids t) = succ i) by (unfold succ; by rewrite Ht).
  pose proof (fun j => incoming_visit V i j HV Hi) as Hvisit.
  destruct (release_helpers_spec (Er := Er) (public_helper_ids t) edges pending) as (edges' & new & Hr & Hl & He & Hd & Hn); try done.
  { apply list.Forall_forall. intros h Hh. apply (closed_tools t); [by eapply list_elem_of_lookup_2|done]. }
  { intros j Hj. exists (incoming V j). split; [by apply Hedges|]. rewrite Hsucc, Hvisit. lia. }
  rewrite Hsucc in He, Hn. exists edges', new. split; [done|].
  assert (Hnew : forall j, j ∈ new -> j < n /\ 0 < incoming V j /\ incoming (i :: V) j = 0).
  { intros j Hj. apply Hn in Hj as [Ho Hj]. assert (Hlt : j < n) by (apply lookup_lt_Some in Hj; lia).
    rewrite (Hedges j Hlt) in Hj. injection Hj as Hj. specialize (Hvisit j). lia. }
  split; try done.
  - intros j Hj. rewrite (He j (incoming V j)); [|by apply Hedges]. f_equal. specialize (Hvisit j). lia.
  - intros j. rewrite elem_of_app, elem_of_cons. specialize (Hvisit j). specialize (Hsrc j). rewrite elem_of_cons in Hsrc. split.
    + intros [[Hp|Hj]|[->|Hj]].
      * destruct Hsrc as [Hsrc _]. destruct Hsrc as [? ?]; [tauto|]. split; [done|lia].
      * apply Hnew in Hj. tauto.
      * split; [done|lia].
      * destruct Hsrc as [Hsrc _]. destruct Hsrc as [? ?]; [tauto|]. split; [done|lia].
    + intros [Hj H0]. destruct (decide (incoming V j = 0)) as [Hz|Hz].
      * destruct Hsrc as [_ Hsrc]. destruct Hsrc as [[|]|]; tauto.
      * left. right. apply Hn. split; [lia|]. rewrite (Hedges j Hj). f_equal. lia.
  - rewrite <- (Permutation_middle (pending ++ new) V i). apply list.NoDup_cons. split.
    + rewrite !elem_of_app. intros [[?|Hj]|?]; [tauto| |tauto]. apply Hnew in Hj. lia.
    + rewrite <- app_assoc, (Permutation_app_comm new V), app_assoc. apply list.NoDup_app. split_and!; [done| |done].
      intros j Hj Hj'. apply Hnew in Hj' as (_ & Hpos & _). apply elem_of_app in Hj.
      specialize (Hsrc j). rewrite elem_of_cons in Hsrc. destruct Hsrc as [Hsrc _]. destruct Hsrc as [_ ?]; [tauto|lia].
  - split; [|done]. intros k Hk. by eapply incoming_zero.
Qed.

Lemma kahn_loop_spec {Er : Type} fuel edges pending V : visited edges pending V -> fuel + length V = S n ->
  exists V', kahn_loop (E := Er) fuel tools edges pending (length V) = Ok (length V') /\ NoDup V' /\ ordered V' /\
    forall j, j ∈ V' <-> j < n /\ incoming V' j = 0.
Proof.
  revert edges pending V. induction fuel as [|fuel IH]; intros edges pending V Hv Hf.
  { exfalso. assert (length V <= length (seq 0 n)); [|rewrite length_seq in *; lia].
    pose proof (k_nodup _ _ _ Hv) as Hd. apply list.NoDup_app in Hd as (_ & _ & Hd).
    apply submseteq_length, NoDup_submseteq; [done|].
    intros j Hj. apply elem_of_seq. destruct (proj1 (k_sources _ _ _ Hv j)) as [? _]; [by right|lia]. }
  destruct pending as [|i pending]; cbn [kahn_loop].
  - exists V. split; [done|]. split; [apply Hv|]. split; [apply Hv|]. intros j. rewrite <- (k_sources _ _ _ Hv j).
    split; [by right|]. intros [Hj|]; [by apply elem_of_nil in Hj|done].
  - destruct (proj1 (k_sources _ _ _ Hv i)) as [Hi _]; [left; by left|].
    destruct (lookup_lt_is_Some_2 tools i Hi) as [t Ht]. unfold index. rewrite Ht. simpl.
    destruct (visit_source (Er := Er) _ _ _ _ t Hv Ht) as (edges' & new & -> & Hv'). simpl.
    apply (IH edges' (pending ++ new) (i :: V)); [done|simpl; lia].
Qed.

Lemma ordered_path V x y : ordered V -> y ∈ V -> tc E x y ->
  exists a b, V = a ++ y :: b /\ ordered b /\ x ∈ b.
Proof.
  intros Ho Hy Hp. apply list_elem_of_split in Hy as (a & b & ->). exists a, b. split; [done|].
  assert (ordered (y :: b)) as [Hi Hb] by (clear -Ho; induction a; [done|apply IHa, Ho]). split; [done|].
  clear Ho. revert b Hi Hb. induction Hp as [x y Hxy|x z y Hxz Hzy IH]; intros b Hi Hb; [by apply Hi|].
  specialize (IH b Hi Hb). apply list_elem_of_split in IH as (c & d & ->).
  assert (ordered (z :: d)) as [Hz _] by (clear -Hb; induction c; [done|apply IHc, Hb]).
  apply elem_of_app. right. right. by apply Hz.
Qed.

Lemma ordered_acyclic V x : ordered V -> x ∈ V -> ~ tc E x x.
Proof.
  remember (length V) as k eqn:Hk. revert V Hk. induction (lt_wf k) as [k _ IH]. intros V -> Ho Hx Hc.
  destruct (ordered_path V x x Ho Hx Hc) as (a & b & -> & Hb & Hxb).
  apply (IH (length b)) with (V := b); try done. rewrite length_app. simpl. lia.
Qed.

Lemma kahn_correct {Er : Type} edges : visited edges (initial_pending edges) [] ->
  exists k, kahn_loop (E := Er) (S n) tools edges (initial_pending edges) 0 = Ok k /\ (k = n <-> forall i, ~ tc E i i).
Proof.
  intros Hv. destruct (kahn_loop_spec (Er := Er) (S n) _ _ _ Hv) as (V & Hr & Hd & Ho & HV); [simpl; lia|].
  exists (length V). split; [done|]. assert (Hle : V ⊆+ seq 0 n).
  { apply NoDup_submseteq; [done|]. intros j Hj%HV. apply elem_of_seq. lia. }
  split.
  - intros Hk i Hc. apply (ordered_acyclic V i Ho); [|done]. apply submseteq_length_Permutation in Hle; [|rewrite length_seq; lia].
    rewrite Hle. apply elem_of_seq. assert (i < n); [|lia]. inversion Hc as [? ? He|? ? ? He]; by eapply E_lt.
  - intros Ha. destruct (decide (length V = n)) as [|Hk]; [done|]. exfalso.
    assert (exists j, j < n /\ j ∉ V) as (j & Hj & HjV).
    { destruct (decide (Forall (fun j => j ∈ V) (seq 0 n))) as [Hs|Hs].
      - assert (seq 0 n ⊆+ V) as Hsub.
        { apply NoDup_submseteq; [apply NoDup_seq|]. intros j Hj. rewrite list.Forall_forall in Hs. by apply Hs. }
        apply submseteq_length in Hsub, Hle. rewrite length_seq in *. lia.
      - apply not_Forall_Exists in Hs; [|apply _]. apply list.Exists_exists in Hs as (j & Hj & HjV). exists j.
        apply elem_of_seq in Hj. split; [lia|done]. }
    destruct (walk_cycle E n (fun j => j < n /\ j ∉ V)) with (j := j) as [x Hx]; [by intros ? []| |done|by apply (Ha x)].
    intros j' [Hj' HV']. destruct (decide (incoming V j' = 0)) as [Hz|Hz]; [by destruct HV'; apply HV|].
    destruct (incoming_pos V j') as (i & Hi & Hi' & He); [lia|]. by exists i.
Qed.
End kahn.

Lemma lookup_repeat {A} (x : A) k j : j < k -> repeat x k !! j = Some x.
Proof. revert j. induction k as [|k IH]; intros [|j] Hj; simpl; [lia|lia|done|apply IH; lia]. Qed.

Lemma initial_visited tools edges : plus (repeat 0 (length tools))
    (fun j => list_sum ((fun t => occ j (succ_of tools (public_helper_ids t))) <$> tools)) edges ->
  visited tools edges (initial_pending edges) [].
Proof.
  intros [Hl He]. rewrite repeat_length in Hl.
  assert (Hedges : forall j, j < length tools -> edges !! j = Some (incoming tools [] j)).
  { intros j Hj. rewrite (He j 0); [|by apply lookup_repeat].
    by rewrite incoming_all. }
  split; try done.
  - intros j. rewrite elem_of_nil. unfold initial_pending. rewrite list_elem_of_In, List.filter_In, in_seq, Hl. split.
    + intros [[Hj Hz]|[]]. split; [lia|]. rewrite Hedges in Hz by lia. by destruct (incoming tools [] j).
    + intros [Hj Hz]. left. split; [lia|]. by rewrite Hedges, Hz by lia.
  - rewrite app_nil_r. apply NoDup_ListNoDup, List.NoDup_filter, NoDup_ListNoDup, NoDup_seq.
Qed.

(** ** Tools by name *)

Definition helper_edge (tools : list PublicToolRecord) (a b : ToolId) : Prop :=
  exists t, t ∈ tools /\ public_tool_id t = a /\ b ∈ public_helper_ids t.

Lemma increasing_sorted {T} (compare : T -> T -> comparison) l :
  increasing compare l = true -> Sorted (fun a b => compare a b = Lt) l.
Proof.
  induction l as [|a l IH]; [constructor|]. destruct l as [|b l]; [by repeat constructor|]. simpl.
  destruct (compare a b) eqn:E1; try done. intros H. constructor; [by apply IH|by constructor].
Qed.

Lemma increasing_nodup tools : increasing public_compare tools = true -> NoDup (public_tool_id <$> tools).
Proof.
  intros Hs%increasing_sorted. apply Sorted_StronglySorted in Hs.
  2:{ intros a b c. unfold public_compare, tool_compare. apply key_lt_trans. }
  induction Hs as [|t l _ IH Hf]; [constructor|]. apply list.NoDup_cons. split; [|done].
  intros (t' & E1 & Ht')%list_elem_of_fmap. rewrite list.Forall_forall in Hf. specialize (Hf t' Ht').
  unfold public_compare, tool_compare in Hf. rewrite E1 in Hf. by apply key_lt_irrefl in Hf.
Qed.

Lemma search_unique tools i t : NoDup (public_tool_id <$> tools) -> tools !! i = Some t ->
  search_tool (public_tool_id t) tools = Some i.
Proof.
  revert i. induction tools as [|x tools IH]; intros i Hd Ht; [done|]. apply list.NoDup_cons in Hd as [Hx Hd]. simpl.
  destruct i as [|i]; simpl in Ht.
  - injection Ht as ->. by rewrite bool_decide_eq_true_2.
  - rewrite bool_decide_eq_false_2; [by rewrite (IH i)|]. intros E1. apply Hx. rewrite E1.
    apply list_elem_of_fmap. exists t. split; [done|by eapply list_elem_of_lookup_2].
Qed.

Lemma search_present tools h : is_Some (search_tool h tools) <-> exists t, t ∈ tools /\ public_tool_id t = h.
Proof.
  split.
  - intros [i (t & Ht & E1)%search_tool_spec]. exists t. split; [by eapply list_elem_of_lookup_2|done].
  - intros (t & Ht & <-). induction tools as [|x tools IH]; [by apply elem_of_nil in Ht|]. simpl.
    case_bool_decide; [by eexists|]. apply elem_of_cons in Ht as [->|Ht]; [done|]. destruct (IH Ht) as [i ->]. by eexists.
Qed.

Lemma index_path tools i j : tc (E tools) i j -> exists t t', tools !! i = Some t /\ tools !! j = Some t' /\
  tc (helper_edge tools) (public_tool_id t) (public_tool_id t').
Proof.
  assert (Hone : forall i j, E tools i j -> exists t t', tools !! i = Some t /\ tools !! j = Some t' /\
    helper_edge tools (public_tool_id t) (public_tool_id t')).
  { intros x y Hxy. unfold E, succ, succ_of in Hxy. destruct (tools !! x) as [t|] eqn:Et; [|by apply elem_of_nil in Hxy].
    apply list_elem_of_omap in Hxy as (h & Hh & (t' & Ht' & Hid)%search_tool_spec). exists t, t'. split_and!; try done.
    exists t. split; [by eapply list_elem_of_lookup_2|]. by rewrite Hid. }
  induction 1 as [x y Hxy|x y z Hxy _ (t1 & t2 & H1 & H2 & Hp)].
  - destruct (Hone _ _ Hxy) as (t & t' & ? & ? & ?). exists t, t'. split_and!; try done. by apply tc_once.
  - destruct (Hone _ _ Hxy) as (t & t' & Ht & Ht' & He). rewrite H1 in Ht'. injection Ht' as <-.
    exists t, t2. split_and!; try done. by eapply tc_l.
Qed.

Lemma name_path tools a b : NoDup (public_tool_id <$> tools) -> closed tools -> tc (helper_edge tools) a b ->
  exists i j, search_tool a tools = Some i /\ search_tool b tools = Some j /\ tc (E tools) i j.
Proof.
  intros Hd Hc.
  assert (Hone : forall a b, helper_edge tools a b -> exists i j, search_tool a tools = Some i /\ search_tool b tools = Some j /\ E tools i j).
  { intros x y (t & Ht & <- & Hy). destruct (Hc t y Ht Hy) as [j Hj]. apply list_elem_of_lookup in Ht as [i Hi].
    exists i, j. split; [by apply search_unique|]. split; [done|]. unfold E, succ, succ_of. rewrite Hi.
    apply list_elem_of_omap. by exists y. }
  induction 1 as [x y Hxy|x y z Hxy _ (i1 & j1 & H1 & H2 & Hp)].
  - destruct (Hone _ _ Hxy) as (i & j & ? & ? & ?). exists i, j. split_and!; try done. by apply tc_once.
  - destruct (Hone _ _ Hxy) as (i & j & Hi & Hj & He). rewrite H1 in Hj. injection Hj as <-.
    exists i, j1. split_and!; try done. by eapply tc_l.
Qed.

(** What the projection of a catalog looks like. *)
Record projection (tools : list PublicToolRecord) : Prop := {
  pr_increasing : increasing public_compare tools = true;
  pr_helpers : Forall (fun t => increasing tool_compare (public_helper_ids t) = true) tools;
  pr_closed : forall a b, helper_edge tools a b -> exists t, t ∈ tools /\ public_tool_id t = b;
  pr_acyclic : forall a, ~ tc (helper_edge tools) a a }.

Lemma projection_exact {Er : Type} (tools : list PublicToolRecord) :
  exists b, public_tool_projection_valid (E := Er) tools = Ok b /\ (b = true <-> projection tools).
Proof.
  unfold public_tool_projection_valid. destruct (increasing public_compare tools) eqn:Ei; cbn [negb].
  2:{ exists false. split; [done|]. split; [done|intros []; congruence]. }
  pose proof (count_edges_spec tools tools (repeat 0 (length tools)) (repeat_length _ _)) as Hc.
  destruct (count_edges tools tools (repeat 0 (length tools))) as [edges|].
  - destruct Hc as [Hall Hplus]. rewrite list.Forall_forall in Hall.
    assert (Hclosed : closed tools).
    { intros t h Ht Hh. destruct (Hall t Ht) as [_ Hp]. rewrite list.Forall_forall in Hp. by apply Hp. }
    destruct (kahn_correct tools Hclosed (Er := Er) edges (initial_visited tools edges Hplus)) as (k & -> & Hk).
    cbn [rbind]. exists (k =? length tools). split; [done|]. rewrite Nat.eqb_eq, Hk. split.
    + intros Ha. split; [done| | |].
      * apply list.Forall_forall. intros t Ht. by apply Hall.
      * intros a b (t & Ht & _ & Hb). apply search_present. by apply (Hclosed t).
      * intros a Hp. destruct (name_path tools a a (increasing_nodup _ Ei) Hclosed Hp) as (i & j & Hi & Hj & He).
        rewrite Hi in Hj. injection Hj as <-. by apply (Ha i).
    + intros [_ _ _ Ha] i Hp. destruct (index_path tools i i Hp) as (t & t' & Ht & Ht' & He).
      rewrite Ht in Ht'. injection Ht' as <-. by apply (Ha (public_tool_id t)).
  - exists false. split; [done|]. split; [done|]. intros [_ Hh Hcl _].
    destruct Hc as (t & Ht & [Hi|(h & Hh' & Hs)]).
    + rewrite list.Forall_forall in Hh. specialize (Hh t Ht). congruence.
    + assert (is_Some (search_tool h tools)) as [? ?]; [|congruence]. apply search_present, (Hcl (public_tool_id t)).
      by exists t.
Qed.

(** The check of a received tool list is exact and total: it accepts the
    lists in increasing order, with increasing helpers that are all in the
    list and no tool that helps itself, directly or not.  Neither its counters
    nor its lookups can fail, and it ends within one turn per tool. *)
Theorem public_tool_projection_correct {Er : Type} (tools : list PublicToolRecord) :
  exists b, public_tool_projection_valid (E := Er) tools = Ok b /\ (b = true <-> projection tools).
Proof. exact (projection_exact tools). Qed.
