(* ===== verification/SandboxPolicyProofs.v ===== *)
(** * Policies and their audit contexts

    A policy validated over a validated catalog keeps its promises, and its
    audit context always passes the checks that receivers make. *)

From stdpp Require Import base tactics list strings option numbers relations.
From Stdlib Require Import ZArith NArith Lia Ascii String Sorted.
From S2P Require Import Prelude RustStr RustText BTree SandboxError SandboxIdentity SandboxCatalog SandboxCatalogProofs SandboxCatalogWf.
From S2P Require Import SandboxDestination SandboxPolicy SandboxAudit SandboxAuditProofs.

Open Scope string_scope.
Open Scope list_scope.
Open Scope nat_scope.

(** ** Ordered lists *)

Section ordered.
Context {T : Type} (compare : T -> T -> comparison).
Hypothesis compare_gt : forall a b, compare a b = Gt -> compare b a = Lt.

Lemma set_insert_head x y l : compare y x = Lt -> increasing compare (y :: l) = true -> increasing compare (y :: set_insert compare x l) = true.
Proof.
  destruct l as [|z l]; intros Hy Hs; [simpl; by rewrite Hy|].
  cbn [set_insert]. simpl in Hs. destruct (compare x z) eqn:E; [done| |].
  - cbn [increasing]. rewrite Hy, E. simpl. by destruct (compare y z).
  - cbn [increasing]. destruct (compare y z) eqn:E2; try done.
    revert y z Hy Hs E E2. induction l as [|w l IH]; intros y z Hy Hs E E2.
    + simpl. by rewrite (compare_gt _ _ E).
    + simpl in Hs. cbn [set_insert]. destruct (compare x w) eqn:E3; [done| |].
      * cbn [increasing]. rewrite (compare_gt _ _ E), E3. simpl. by destruct (compare z w).
      * cbn [increasing]. destruct (compare z w) eqn:E4; try done. apply (IH z w); try done. by apply compare_gt.
Qed.

Lemma set_insert_increasing x l : increasing compare l = true -> increasing compare (set_insert compare x l) = true.
Proof.
  destruct l as [|y l]; intros Hs; [done|]. cbn [set_insert]. destruct (compare x y) eqn:E; [done| |].
  - cbn [increasing]. by rewrite E.
  - apply set_insert_head; [by apply compare_gt|done].
Qed.

Lemma set_of_list_increasing l : increasing compare (set_of_list compare l) = true.
Proof.
  unfold set_of_list. assert (H : increasing compare (@nil T) = true) by done. revert H. generalize (@nil T).
  induction l as [|x l IH]; intros s Hs; [done|]. simpl. apply IH. by apply set_insert_increasing.
Qed.

Hypothesis compare_eq : forall a b, compare a b = Eq -> a = b.

Lemma set_insert_elem x y l : y ∈ set_insert compare x l <-> y = x \/ y ∈ l.
Proof.
  induction l as [|z l IH]; simpl; [by rewrite elem_of_cons|]. destruct (compare x z) eqn:E.
  - apply compare_eq in E as ->. rewrite elem_of_cons. tauto.
  - by rewrite elem_of_cons.
  - rewrite !elem_of_cons, IH. tauto.
Qed.

Lemma set_of_list_elem y l : y ∈ set_of_list compare l <-> y ∈ l.
Proof.
  unfold set_of_list. assert (H : forall s, y ∈ foldl (fun s x => set_insert compare x s) s l <-> y ∈ l \/ y ∈ s).
  { induction l as [|x l IH]; intros s; simpl; [rewrite elem_of_nil; tauto|].
    rewrite IH, set_insert_elem, elem_of_cons. tauto. }
  rewrite H, elem_of_nil. tauto.
Qed.

Lemma collect_unique_ok values set : collect_unique compare values = Ok set ->
  increasing compare set = true /\ (forall x, x ∈ set <-> x ∈ values) /\ length set = length values.
Proof.
  unfold collect_unique. destruct (length (set_of_list compare values) =? length values) eqn:E; [|done]. intros [= <-].
  split; [apply set_of_list_increasing|]. split; [intros; apply set_of_list_elem|by apply Nat.eqb_eq].
Qed.
End ordered.

Lemma string_gt a b : String.compare a b = Gt -> String.compare b a = Lt.
Proof. rewrite (String.compare_antisym a b). by destruct (String.compare b a). Qed.

Lemma tool_gt a b : tool_compare a b = Gt -> tool_compare b a = Lt.
Proof. apply string_gt. Qed.

Lemma tool_eq a b : tool_compare a b = Eq -> a = b.
Proof. destruct a, b. unfold tool_compare. simpl. by intros ->%String.compare_eq_iff. Qed.

Lemma destination_gt a b : destination_compare a b = Gt -> destination_compare b a = Lt.
Proof.
  unfold destination_compare, then_compare. rewrite (String.compare_antisym (host b) (host a)), (N.compare_antisym (port a) (port b)).
  destruct (String.compare (host a) (host b)); simpl; try done. by destruct (N.compare (port a) (port b)).
Qed.

Lemma destination_eq a b : destination_compare a b = Eq -> a = b.
Proof.
  unfold destination_compare, then_compare. destruct (String.compare (host a) (host b)) eqn:E; try done.
  apply String.compare_eq_iff in E. intros Hp%N.compare_eq_iff. destruct a, b. simpl in *. congruence.
Qed.

(** ** The closure of a validated catalog *)

Lemma bt_elem_get {A} k (v : A) m : bt_wf m -> (k, v) ∈ m -> bt_get k m = Some v.
Proof.
  unfold bt_wf. induction m as [|[k' v'] m IH]; intros Hs Hin; [by apply elem_of_nil in Hin|].
  simpl in Hs. apply StronglySorted_inv in Hs as [Hs Hf]. simpl. apply elem_of_cons in Hin as [[= -> ->]|Hin].
  - by rewrite String.eqb_refl.
  - destruct (String.eqb_spec k k') as [->|]; [|by apply IH]. exfalso. rewrite list.Forall_forall in Hf.
    assert (k' ∈ bt_keys m) as Hk by (apply (list_elem_of_fmap_2' _ _ (k', v)); done). apply Hf in Hk. by apply key_lt_irrefl in Hk.
Qed.

Lemma bt_values_get {A} (v : A) m : bt_wf m -> v ∈ bt_values m -> exists k, bt_get k m = Some v.
Proof.
  intros Hw ((k & v') & -> & Hin)%list_elem_of_fmap. exists k. by apply bt_elem_get.
Qed.

Lemma prepare_tools_wf m l ts : prepare_tools m l = Ok ts -> bt_wf ts.
Proof.
  revert ts. induction l as [|id l IH]; intros ts; simpl; [intros [= <-]; constructor|].
  destruct (bt_get id m); [|done]. destruct (prepare_tools m l) as [ts'| | |]; try done. intros [= <-].
  apply bt_insert_wf. by apply IH.
Qed.

Lemma activate_wf requested v c : activate requested v = Ok c -> bt_wf (tools c).
Proof.
  unfold activate. destruct (select_tools _ v _ _) as [s| | |]; try done. simpl.
  destruct (prepare_tools (records v) (bs_elements s)) as [ts| | |] eqn:Et; try done. intros [= <-].
  by eapply prepare_tools_wf.
Qed.

Lemma public_increasing (m : btree PreparedTool) : bt_wf m ->
  (forall k t, bt_get k m = Some t -> prepared_tool_id t = mkToolId k) ->
  increasing public_compare (public_prepared_tool <$> bt_values m) = true.
Proof.
  intros Hw Hid. assert (Hall : Forall (fun kt => prepared_tool_id kt.2 = mkToolId kt.1) m).
  { apply list.Forall_forall. intros [k t] Hin. apply Hid. by apply bt_elem_get. }
  clear Hid. unfold bt_wf in Hw. induction m as [|[k t] m IH]; [done|].
  apply Forall_cons_1 in Hall as [Hk Hall]. simpl in Hw. apply StronglySorted_inv in Hw as [Hw Hf].
  destruct m as [|[k' t'] m]; [done|]. specialize (IH Hw Hall). cbn [bt_values fmap list_fmap increasing] in *.
  apply Forall_cons_1 in Hall as [Hk' _]. simpl in Hf. apply Forall_cons_1 in Hf as [Hlt _].
  unfold public_compare at 1, tool_compare at 1. simpl in *. rewrite Hk, Hk'. simpl. unfold key_lt in Hlt. by rewrite Hlt.
Qed.

Lemma helpers_increasing l : Sorted (in_order reference_compare) l -> NoDup ((fun r => tool_str (ref_tool_id r)) <$> l) ->
  increasing tool_compare (ref_tool_id <$> l) = true.
Proof.
  induction l as [|a l IH]; [done|]. intros [Hs Hh]%Sorted_inv [Hn Hd]%list.NoDup_cons. specialize (IH Hs Hd).
  destruct l as [|b l]; [done|]. simpl in *. inversion Hh as [|? ? Hab]. subst.
  destruct (tool_compare (ref_tool_id a) (ref_tool_id b)) eqn:E; [exfalso|done|exfalso].
  - apply Hn. apply tool_eq in E. rewrite E. by left.
  - apply Hab. unfold reference_compare, then_compare. unfold tool_compare in E. by rewrite E.
Qed.

(** The tools granted to a session project to a list that receivers accept. *)
Lemma closure_projection v requested c : well_formed v -> activate requested v = Ok c -> projection (public_records c).
Proof.
  intros Hwf Hc. pose proof (activate_wf _ _ _ Hc) as Hw.
  destruct (activation_exact v requested) as [(c' & Hc' & _ & _ & _ & Hdom & Htool & _)|(id & He & _)]; [|congruence].
  rewrite Hc in Hc'. injection Hc' as <-. unfold public_records.
  assert (Hget : forall t, t ∈ public_prepared_tool <$> bt_values (tools c) -> exists id record,
    bt_get id (records v) = Some record /\ bt_get id (tools c) = Some (prepare id record) /\ t = public_prepared_tool (prepare id record)).
  { intros t (tool & -> & Ht)%list_elem_of_fmap. apply bt_values_get in Ht as [id Hid]; [|done].
    destruct (Htool id tool Hid) as (record & Hr & ->). by exists id, record. }
  assert (Hedge : forall a b, helper_edge (public_prepared_tool <$> bt_values (tools c)) a b ->
    edge (records v) (tool_str a) (tool_str b) /\ is_Some (bt_get (tool_str b) (tools c))).
  { intros a b (t & Ht & Ha & Hb). destruct (Hget t Ht) as (id & record & Hr & Hid & ->). simpl in Ha, Hb. subst a. simpl.
    assert (He : edge (records v) id (tool_str b)).
    { exists record. split; [done|]. unfold helper_names. apply list_elem_of_fmap in Hb as (r0 & -> & Hb). by apply (list_elem_of_fmap_2 (fun r => tool_str (ref_tool_id r))). }
    split; [done|]. apply Hdom. destruct (proj1 (Hdom id)) as (root & Hroot & Hp); [by eexists|].
    exists root. split; [done|]. by eapply rtc_r. }
  split.
  - apply public_increasing; [done|]. intros k t Hk. destruct (Htool k t Hk) as (r & _ & ->). done.
  - apply list.Forall_forall. intros t Ht. destruct (Hget t Ht) as (id & record & Hr & _ & ->). simpl.
    pose proof (wf_records v Hwf) as Hrec. rewrite list.Forall_forall in Hrec.
    specialize (Hrec record (bt_get_values _ _ _ Hr)). apply helpers_increasing; apply Hrec.
  - intros a b Hab. apply Hedge in Hab as [_ [tool Hb]]. exists (public_prepared_tool tool). split.
    + apply list_elem_of_fmap_2. by eapply bt_get_values.
    + destruct (Htool _ _ Hb) as (r & _ & ->). by destruct b.
  - intros a Hp. apply (wf_acyclic v Hwf (tool_str a)).
    assert (Hmap : forall x y, tc (helper_edge (public_prepared_tool <$> bt_values (tools c))) x y -> tc (edge (records v)) (tool_str x) (tool_str y)).
    { induction 1 as [x y Hxy|x y z Hxy _ IH]; [apply tc_once, Hedge, Hxy|]. eapply tc_l; [apply Hedge, Hxy|done]. }
    by apply Hmap.
Qed.

(** ** Environments *)

Definition entry_ok (constrained : bool) (entry : EnvironmentVariable) : Prop :=
  valid_environment_name (var_name entry) = true /\ contains_byte "000" (var_value entry) = false /\
  (constrained = true -> reserved_environment_name (var_name entry) = false).

(** Entries by their normalized name. *)
Record environment_map (constrained : bool) (m : btree EnvironmentVariable) : Prop := {
  em_wf : bt_wf m;
  em_entry : forall k e, bt_get k m = Some e -> k = normalized_environment_name (var_name e) /\ entry_ok constrained e }.

Lemma environment_insert constrained m k e : environment_map constrained m ->
  k = normalized_environment_name (var_name e) -> entry_ok constrained e -> environment_map constrained (bt_insert k e m).
Proof.
  intros [Hw He] Hk Hok. split; [by apply bt_insert_wf|]. intros k' e'. rewrite bt_get_insert.
  destruct (String.eqb_spec k' k) as [->|]; [intros [= <-]; done|apply He].
Qed.

Lemma validate_entries_ok constrained m l m' : validate_entries_into constrained m l = Ok m' -> environment_map constrained m ->
  environment_map constrained m' /\
  (forall e, e ∈ l -> bt_get (normalized_environment_name (var_name e)) m' = Some e) /\
  (forall k e, bt_get k m' = Some e -> bt_get k m = Some e \/ e ∈ l) /\
  (forall k e, bt_get k m = Some e -> bt_get k m' = Some e).
Proof.
  revert m. induction l as [|e l IH]; intros m H Hm; cbn [validate_entries_into] in H.
  { injection H as <-. split_and!; auto. by intros e ?%elem_of_nil. }
  destruct (valid_environment_name (var_name e)) eqn:Ev; [|done]. destruct (contains_byte "000" (var_value e)) eqn:Ec; [done|].
  destruct (constrained && reserved_environment_name (var_name e)) eqn:Er; [done|]. simpl in H.
  destruct (bt_contains_key (normalized_environment_name (var_name e)) m) eqn:Ek; [done|].
  apply IH in H as (Hm' & Hl & Hback & Hkeep).
  2:{ apply environment_insert; try done. split_and!; try done. intros ->. done. }
  split; [done|]. split; [|split].
  - intros e' [->|He']%elem_of_cons; [|by apply Hl]. apply Hkeep. by rewrite bt_get_insert, String.eqb_refl.
  - intros k e' Hk. apply Hback in Hk as [Hk|Hk]; [|right; by right]. rewrite bt_get_insert in Hk.
    destruct (String.eqb_spec k (normalized_environment_name (var_name e))); [|by left].
    injection Hk as ->. right. by left.
  - intros k e' Hk. apply Hkeep. rewrite bt_get_insert. destruct (String.eqb_spec k (normalized_environment_name (var_name e))) as [->|]; [|done].
    unfold bt_contains_key in Ek. by rewrite Hk in Ek.
Qed.

Lemma validate_environment_ok constrained l m : validate_environment_entries l constrained = Ok m ->
  environment_map constrained m /\
  (forall e, e ∈ l -> bt_get (normalized_environment_name (var_name e)) m = Some e) /\
  (forall k e, bt_get k m = Some e -> e ∈ l).
Proof.
  intros H. apply validate_entries_ok in H as (Hm & Hl & Hback & _).
  - split_and!; try done. intros k e Hk. by apply Hback in Hk as [Hk|].
  - split; [constructor|done].
Qed.

Lemma bt_extend_get {A} k (m other : btree A) : NoDup (bt_keys other) ->
  bt_get k (bt_extend m other) = match bt_get k other with Some v => Some v | None => bt_get k m end.
Proof.
  unfold bt_extend. revert m. induction other as [|[k' v] other IH]; intros m Hd; [done|].
  cbn [bt_keys fmap list_fmap fst] in Hd. apply list.NoDup_cons in Hd as [Hk Hd]. cbn [foldl fst snd]. rewrite (IH _ Hd).
  simpl. rewrite bt_get_insert. destruct (String.eqb_spec k k') as [->|]; [|done].
  destruct (bt_get k' other) eqn:E; [|done]. exfalso. apply Hk, bt_get_keys. by rewrite E.
Qed.

Lemma bt_extend_wf {A} (m other : btree A) : bt_wf m -> bt_wf (bt_extend m other).
Proof.
  unfold bt_extend. revert m. induction other as [|[k v] other IH]; intros m Hw; [done|]. simpl. apply IH. by apply bt_insert_wf.
Qed.

Lemma bt_wf_nodup {A} (m : btree A) : bt_wf m -> NoDup (bt_keys m).
Proof.
  unfold bt_wf. induction 1 as [|k l _ IH Hf]; [constructor|]. apply list.NoDup_cons. split; [|done].
  intros Hk. rewrite list.Forall_forall in Hf. apply (key_lt_irrefl k), Hf, Hk.
Qed.

(** The entry for a name, compared as the code compares names. *)
Definition entry_for (name : string) (l : list EnvironmentVariable) (e : EnvironmentVariable) : Prop :=
  e ∈ l /\ normalized_environment_name (var_name e) = normalized_environment_name name.

(** The base environment of a validated policy is the list of a map. *)
Definition base_valid (p : ValidatedExecutionPolicy) : Prop :=
  exists m, environment_map (is_constrained (policy_access p)) m /\ base (policy_environment p) = bt_values m.

Lemma base_map constrained m : environment_map constrained m ->
  (fun e => (normalized_environment_name (var_name e), e)) <$> bt_values m = m.
Proof.
  intros [Hw He]. unfold bt_values. rewrite <- list_fmap_compose. rewrite <- (list_fmap_id m) at 2.
  apply list_fmap_ext. intros i [k e] Hi. simpl. apply list_elem_of_lookup_2 in Hi. apply bt_elem_get in Hi; [|done].
  by destruct (He k e Hi) as [-> _].
Qed.

(** What a child process sees: for each name, the entry of its launch
    request, and otherwise that of the policy, names being compared without
    case; the ambient variables are inherited only under full access and only
    when the launch does not clear them, and under a constrained policy no
    reserved variable is set. *)
Theorem launch_environment_correct (p : ValidatedExecutionPolicy) (launch : LaunchEnvironment) (e : EffectiveEnvironment) :
  base_valid p -> resolve_launch_environment p launch = Ok e ->
  NoDup ((fun x => normalized_environment_name (var_name x)) <$> entries e) /\
  (forall x, x ∈ entries e <-> x ∈ launch_entries launch \/
     (x ∈ base (policy_environment p) /\ forall y, ~ entry_for (var_name x) (launch_entries launch) y)) /\
  (inherit_ambient e = true <-> policy_access p = ExecutionAccess.Full /\ clear_environment launch = false) /\
  (is_constrained (policy_access p) = true -> forall x, x ∈ entries e -> reserved_environment_name (var_name x) = false).
Proof.
  intros (m & Hm & Hbase). unfold resolve_launch_environment.
  destruct (validate_environment_entries _ _) as [lm| | |] eqn:El; try done. cbn [rbind]. intros [= <-]. simpl.
  rewrite Hbase, (base_map _ _ Hm). apply validate_environment_ok in El as (Hlm & Hin & Hback).
  set (inherited := bt_extend [] m). pose proof (bt_wf_nodup lm (em_wf _ _ Hlm)) as Hdl.
  assert (Hinh : forall k, bt_get k inherited = bt_get k m).
  { intros k. unfold inherited. rewrite bt_extend_get by apply bt_wf_nodup, Hm. by destruct (bt_get k m). }
  assert (Hget : forall k, bt_get k (bt_extend inherited lm) = match bt_get k lm with Some v => Some v | None => bt_get k m end).
  { intros k. rewrite bt_extend_get by done. by rewrite Hinh. }
  assert (Hall : environment_map (is_constrained (policy_access p)) (bt_extend inherited lm)).
  { split; [apply bt_extend_wf, bt_extend_wf; constructor|]. intros k x. rewrite Hget.
    destruct (bt_get k lm) eqn:E1; [intros [= <-]; by apply Hlm|by apply Hm]. }
  assert (Hmem : forall x, x ∈ bt_values (bt_extend inherited lm) <-> bt_get (normalized_environment_name (var_name x)) (bt_extend inherited lm) = Some x).
  { intros x. split; [|apply bt_get_values]. intros [k Hk]%bt_values_get; [|apply Hall].
    destruct (em_entry _ _ Hall k x Hk) as [-> _]. done. }
  split; [|split; [|split]].
  - rewrite <- (base_map _ _ Hall) at 1. unfold bt_values. rewrite <- !list_fmap_compose.
    rewrite (list_fmap_ext _ (fun kv => kv.1) (bt_extend inherited lm)); [apply bt_wf_nodup, Hall|].
    intros i [k x] Hi. simpl. apply list_elem_of_lookup_2, bt_elem_get in Hi; [|apply Hall].
    by destruct (em_entry _ _ Hall k x Hi) as [-> _].
  - intros x. rewrite Hmem, Hget. destruct (bt_get (normalized_environment_name (var_name x)) lm) as [y|] eqn:E.
    + split; [intros [= ->]; left; by eapply Hback|]. intros [Hx|[_ Hno]]; [by rewrite <- (Hin x Hx)|].
      exfalso. apply (Hno y). split; [by eapply Hback|]. by destruct (em_entry _ _ Hlm _ _ E) as [-> _].
    + split.
      * intros Hx. right. split; [by eapply bt_get_values|]. intros y [Hy Heq].
        specialize (Hin y Hy). rewrite Heq in Hin. congruence.
      * intros [Hx|[Hx _]]; [rewrite (Hin x Hx) in E; done|].
        apply bt_values_get in Hx as [k Hk]; [|apply Hm]. by destruct (em_entry _ _ Hm k x Hk) as [<- _].
  - destruct (policy_access p), (clear_environment launch); simpl; split; try done; by intros [? ?].
  - intros Hc x Hx%Hmem. destruct (em_entry _ _ Hall _ _ Hx) as [_ (_ & _ & Hr)]. by apply Hr.
Qed.

(** ** Validated policies *)

Definition limits_positive (l : ResourceLimits) : Prop :=
  (0 < descendant_processes l /\ 0 < memory_bytes l /\ 0 < cpu_time_ms l /\ 0 < wall_time_ms l /\
   0 < open_descriptors_or_handles l /\ 0 < captured_output_bytes l)%N.

Lemma validate_limits_spec l : validate_limits l = Ok tt <-> limits_positive l.
Proof.
  unfold validate_limits, limits_positive.
  repeat (match goal with |- context [(?x =? 0)%N] => destruct (N.eqb_spec x 0) end; [split; [done|lia]|]). split; [lia|done].
Qed.

Definition workspace_ok (w : WorkspaceIdentity) : Prop :=
  Forall (fun value => String.eqb value "" = false /\ contains_byte "000" value = false) [requested_root w; canonical_root w; native_object_identity w].

Lemma validate_workspace_ok w : validate_workspace_identity w = Ok tt -> workspace_ok w.
Proof.
  unfold validate_workspace_identity, workspace_ok.
  destruct (existsb _ _) eqn:E; [done|]. intros _. apply list.Forall_forall. intros x Hx.
  apply orb_false_iff. destruct (_ || _) eqn:Ex; [|done]. exfalso.
  rewrite <- not_true_iff_false in E. apply E, existsb_exists. exists x. by rewrite <- list_elem_of_In.
Qed.

(** What a validated policy promises, against the request it was made from. *)
Record policy_ok (v : ValidatedCatalogSnapshot) (r : ExecutionPolicyRequest) (p : ValidatedExecutionPolicy) : Prop := {
  po_request : policy_access p = req_access r /\ allow_process p = req_allow_process r /\ allow_pty p = req_allow_pty r /\
               policy_resource_limits p = req_resource_limits r;
  po_surface : allow_process p = true \/ allow_pty p = true;
  po_constrained : is_constrained (policy_access p) = true ->
                   is_Some (workspace_identity p) /\ is_Some (policy_resource_limits p);
  po_full : is_constrained (policy_access p) = false -> req_activated_tools r = [] /\ policy_destinations p = [];
  po_limits : forall l, policy_resource_limits p = Some l -> limits_positive l;
  po_workspace : forall w, workspace_identity p = Some w -> workspace_ok w;
  po_destinations : increasing destination_compare (policy_destinations p) = true /\
                    forall d, d ∈ policy_destinations p <-> d ∈ req_destinations r;
  po_environment : base_valid p /\ forall e, e ∈ base (policy_environment p) <-> e ∈ base (req_environment r);
  po_generation : closure_generation (prepared_catalog p) = req_catalog_generation r /\ req_catalog_generation r = val_generation v;
  po_tools : exists ids, activate ids v = Ok (prepared_catalog p) /\ forall t, t ∈ ids <-> t ∈ req_activated_tools r }.

Section policy.
Context `{WorkspaceIdentityResolver} `{AuditDigest}.

Lemma resolve_workspace_ok r w : resolve_workspace r = Ok w ->
  (is_Some w <-> is_Some r) /\ forall x, w = Some x -> workspace_ok x.
Proof.
  destruct r as [r|]; simpl; [|intros [= <-]; split; [done|done]].
  destruct (resolve r) as [x| | |]; try done. simpl.
  destruct (validate_workspace_identity x) as [[]| | |] eqn:E; try done. simpl. intros [= <-].
  split; [split; by eexists|]. intros y [= <-]. by apply validate_workspace_ok.
Qed.

Lemma validate_environment_policy_ok e constrained e' : validate_environment_policy e constrained = Ok e' ->
  (exists m, environment_map constrained m /\ base e' = bt_values m) /\ forall x, x ∈ base e' <-> x ∈ base e.
Proof.
  unfold validate_environment_policy. destruct (validate_environment_entries (base e) constrained) as [m| | |] eqn:E; try done.
  intros [= <-]. apply validate_environment_ok in E as (Hm & Hin & Hback). split; [by exists m|]. intros x. simpl. split.
  - intros [k Hk]%bt_values_get; [|apply Hm]. by eapply Hback.
  - intros Hx. eapply bt_get_values. by apply Hin.
Qed.

Lemma validated_policy (v : ValidatedCatalogSnapshot) (r : ExecutionPolicyRequest) (p : ValidatedExecutionPolicy) :
  validate_policy v r = Ok p -> policy_ok v r p.
Proof.
  unfold validate_policy. destruct (req_schema_version r =? POLICY_SCHEMA_V1)%N; [|done].
  destruct (negb (req_allow_process r) && negb (req_allow_pty r)) eqn:Es; [done|].
  case_bool_decide as Eg; [|done]. cbn [negb orb]. set (constrained := is_constrained (req_access r)).
  destruct (constrained && (is_none (req_workspace r) || is_none (req_resource_limits r))) eqn:Ec; [done|].
  destruct (negb constrained && _) eqn:Ef; [done|].
  destruct (match req_resource_limits r with Some limits => validate_limits limits | None => Ok tt end) as [[]| | |] eqn:El; try done.
  cbn [rbind]. destruct (collect_unique tool_compare (req_activated_tools r)) as [ids| | |] eqn:Et; try done. cbn [rbind].
  destruct (collect_unique destination_compare (req_destinations r)) as [ds| | |] eqn:Ed; try done. cbn [rbind].
  destruct (validate_environment_policy (req_environment r) constrained) as [env| | |] eqn:Ee; try done. cbn [rbind].
  destruct (resolve_workspace (req_workspace r)) as [w| | |] eqn:Ew; try done. cbn [rbind].
  destruct (activate ids v) as [c| | |] eqn:Ea; try done. cbn [rbind].
  destruct (audit_catalog c) as [proj| | |]; try done. cbn [rbind]. intros [= <-].
  apply (collect_unique_ok tool_compare tool_gt tool_eq) in Et as (_ & Ht & _).
  apply (collect_unique_ok destination_compare destination_gt destination_eq) in Ed as (Hds & Hd & Hdl).
  apply resolve_workspace_ok in Ew as [Hw Hwok]. apply validate_environment_policy_ok in Ee as [Hb He].
  assert (Hgen : closure_generation c = val_generation v).
  { destruct (activation_exact v ids) as [(c' & Hc & Hg & _)|(id & Hc & _)]; congruence. }
  split; simpl; try done.
  - destruct (req_allow_process r), (req_allow_pty r); auto.
  - intros Hc. unfold constrained in Ec. rewrite Hc in Ec. simpl in Ec. apply orb_false_iff in Ec as [E1 E2]. rewrite Hw.
    unfold is_none, is_some in E1, E2. destruct (req_workspace r), (req_resource_limits r); try done; split; by eexists.
  - intros Hc. unfold constrained in Ef. rewrite Hc in Ef. simpl in Ef. apply orb_false_iff in Ef as [E1 E2].
    apply negb_false_iff, Nat.eqb_eq in E1, E2. split; apply nil_length_inv; [done|]. by rewrite Hdl.
  - intros l Hl. rewrite Hl in El. by apply validate_limits_spec.
  - split; [by rewrite Hgen|done].
  - exists ids. split; [done|exact Ht].
Qed.

(** A validated policy promises what its users rely on: at least one
    surface; under constrained access a workspace and positive limits; under
    full access no tools and no destinations; sorted destinations and the
    environment of the request without duplicates, malformed or reserved
    names; and the tools that the requested ones reach in the catalog. *)
Theorem validate_policy_sound (v : ValidatedCatalogSnapshot) (r : ExecutionPolicyRequest) (p : ValidatedExecutionPolicy) :
  validate_policy v r = Ok p -> policy_ok v r p.
Proof. exact (validated_policy v r p). Qed.

(** The context that describes a policy. *)
Definition policy_context (session : SessionId) (scratch : ScratchId) (backend : BackendIdentity) (broker_protocol : N)
    (enforcement : EnforcementState) (p : ValidatedExecutionPolicy) : AuditContext :=
  mkContext session (audit_digest p) (policy_access p) enforcement backend broker_protocol (policy_workspace p) scratch
    (closure_generation (prepared_catalog p)) (public_records (prepared_catalog p)) (policy_destinations p) (policy_resource_limits p).

Lemma policy_projection v r p : well_formed v -> policy_ok v r p -> projection (public_records (prepared_catalog p)).
Proof using. intros Hwf Hp. destruct (po_tools _ _ _ Hp) as (ids & Hact & _). by eapply closure_projection. Qed.

Lemma policy_fields v r p session scratch backend protocol enforcement : policy_ok v r p ->
  access_fields_valid (policy_context session scratch backend protocol enforcement p) = true.
Proof using.
  intros Hp. destruct (po_tools _ _ _ Hp) as (ids & Hact & Hids).
  unfold access_fields_valid, policy_context. cbn [ctx_access ctx_workspace ctx_resource_limits ctx_tools ctx_destinations].
  unfold policy_workspace. pose proof (po_constrained _ _ _ Hp) as Hc. pose proof (po_full _ _ _ Hp) as Hf.
  destruct (policy_access p); simpl in *.
  - destruct Hc as [[w ->] [l ->]]; done.
  - destruct Hc as [[w ->] [l ->]]; done.
  - destruct Hf as [Hnil ->]; [done|]. assert (ids = []) as ->.
    { destruct ids as [|t ids]; [done|]. exfalso. assert (t ∈ req_activated_tools r) as Ht by (apply Hids; by left).
      rewrite Hnil in Ht. by apply elem_of_nil in Ht. }
    assert (tools (prepared_catalog p) = []) as Htl by (unfold activate in Hact; simpl in Hact; injection Hact as Hact; by rewrite <- Hact).
    unfold public_records. rewrite Htl. simpl. by destruct (workspace_identity p).
Qed.

Lemma policy_limits_valid v r p : policy_ok v r p -> limits_valid (policy_resource_limits p) = true.
Proof using.
  intros Hp. unfold limits_valid. destruct (policy_resource_limits p) as [l|] eqn:E; [|done].
  by rewrite (proj2 (validate_limits_spec l) (po_limits _ _ _ Hp l E)).
Qed.

Lemma policy_workspace_valid v r p : policy_ok v r p ->
  match policy_workspace p with Some w => audit_workspace_valid w | None => true end = true.
Proof using.
  intros Hp. unfold policy_workspace. destruct (workspace_identity p) as [w|] eqn:E; [|done]. simpl.
  pose proof (po_workspace _ _ _ Hp w E) as Hw. unfold workspace_ok in Hw.
  apply Forall_cons_1 in Hw as [_ Hw]. apply Forall_cons_1 in Hw as [[Hne Hnul] _].
  unfold audit_workspace_valid. simpl. by rewrite Hnul, Hne.
Qed.

Lemma policy_context_valid v r p session scratch backend protocol enforcement : well_formed v -> policy_ok v r p ->
  access_enforcement_valid (policy_access p) enforcement = true ->
  validate_context (policy_context session scratch backend protocol enforcement p) = Ok tt.
Proof using.
  intros Hwf Hp Ea. unfold validate_context.
  rewrite (policy_fields _ _ _ session scratch backend protocol enforcement Hp).
  cbn [ctx_access ctx_enforcement ctx_workspace ctx_resource_limits ctx_tools ctx_destinations policy_context].
  rewrite Ea, (policy_limits_valid _ _ _ Hp), (policy_workspace_valid _ _ _ Hp). cbn [andb].
  destruct (projection_exact (Er := SandboxError) (public_records (prepared_catalog p))) as (b & -> & Hb).
  assert (b = true) as -> by (apply Hb; by eapply policy_projection).
  destruct (po_destinations _ _ _ Hp) as [-> _]. done.
Qed.

(** Every validated policy over a validated catalog can be audited: its
    context is built, and passes the checks that any receiver makes of it,
    exactly when the enforcement state fits the access level. *)
Theorem new_context_total `{CatalogPathNormalizer} (s : CatalogSnapshot) (v : ValidatedCatalogSnapshot)
    (r : ExecutionPolicyRequest) (p : ValidatedExecutionPolicy)
    (session : SessionId) (scratch : ScratchId) (backend : BackendIdentity) (broker_protocol : N) (enforcement : EnforcementState) :
  validate s = Ok v -> validate_policy v r = Ok p ->
  if access_enforcement_valid (policy_access p) enforcement
  then exists c, new_context session scratch backend broker_protocol enforcement p = Ok c /\
         validate_context c = Ok tt /\ validate_against_policy p c = Ok tt
  else new_context session scratch backend broker_protocol enforcement p = Err policy_error.
Proof.
  intros Hv Hp. apply validated_catalog in Hv as [Hwf _]. apply validated_policy in Hp.
  unfold new_context. destruct (access_enforcement_valid (policy_access p) enforcement) eqn:Ea; [|done]. cbn [negb].
  pose proof (policy_context_valid _ _ _ session scratch backend broker_protocol enforcement Hwf Hp Ea) as Hvalid.
  fold (policy_context session scratch backend broker_protocol enforcement p). eexists.
  assert (Hagainst : validate_against_policy p (policy_context session scratch backend broker_protocol enforcement p) = Ok tt).
  { unfold validate_against_policy. rewrite Hvalid. cbn [rbind policy_context].
    cbn [ctx_access ctx_policy_digest ctx_workspace ctx_catalog_generation ctx_tools ctx_destinations ctx_resource_limits].
    by rewrite !bool_decide_eq_true_2. }
  rewrite Hagainst. by split_and!.
Qed.
End policy.

(** ** An example *)

Definition sample_resolver : WorkspaceIdentityResolver := fun r => Ok (mkWorkspace (wanted_root r) "/real" "17").
Definition sample_digest : AuditDigest := fun _ => mkDigest (repeat "000"%char 32).

Definition sample_request : ExecutionPolicyRequest :=
  mkPolicyRequest 1 ExecutionAccess.Workspace true false (Some (mkWorkspaceRequest "/work")) DeleteOnCleanCloseRetainOtherwise
    (mkGeneration 7) [mkToolId "git"] [mkDestinationGrant "b.example" 443; mkDestinationGrant "a.example" 22]
    (mkEnvironment [mkVariable "Lang" "C"]) (Some (mkLimits 1 2 3 4 5 6)) (mkAuditPolicy CountOnly).

Lemma validate_policy_sound_witness :
  exists v p, validate (H := same_path) sample_snapshot = Ok v /\
    validate_policy (H := sample_resolver) (H0 := sample_digest) v sample_request = Ok p /\ policy_ok v sample_request p.
Proof.
  eexists _, _. split; [vm_compute; reflexivity|]. split; [vm_compute; reflexivity|].
  apply (validate_policy_sound (H := sample_resolver) (H0 := sample_digest)). vm_compute. reflexivity.
Defined.

Lemma new_context_total_witness :
  let context p := new_context (mkSessionId "s") (mkScratchId "x") (mkBackendIdentity "mock" "1") 1 EnforcementState.Enforced p in
  exists v p, validate (H := same_path) sample_snapshot = Ok v /\
    validate_policy (H := sample_resolver) (H0 := sample_digest) v sample_request = Ok p /\
    if access_enforcement_valid (policy_access p) EnforcementState.Enforced
    then exists c, context p = Ok c /\ validate_context c = Ok tt /\ validate_against_policy p c = Ok tt
    else context p = Err policy_error.
Proof.
  intros context. eexists _, _. split; [vm_compute; reflexivity|]. split; [vm_compute; reflexivity|].
  eapply (new_context_total (H := sample_resolver) (H0 := sample_digest) (H1 := same_path) sample_snapshot _ sample_request
           _ (mkSessionId "s") (mkScratchId "x") (mkBackendIdentity "mock" "1") 1 EnforcementState.Enforced); vm_compute; reflexivity.
Defined.

Lemma launch_environment_correct_witness :
  exists v p e, validate_policy (H := sample_resolver) (H0 := sample_digest) v sample_request = Ok p /\
    resolve_launch_environment p (mkLaunchEnvironment false [mkVariable "LANG" "de"; mkVariable "X" "1"]) = Ok e /\
    entries e = [mkVariable "LANG" "de"; mkVariable "X" "1"] /\
    (is_constrained (policy_access p) = true -> forall x, x ∈ entries e -> reserved_environment_name (var_name x) = false).
Proof.
  exists (mkValidated 1 (mkGeneration 7) (mkPlatform OperatingSystem.Linux Architecture.X86_64)
            [("git", sample_record "git" "001" [])] []).
  eexists _, _. split; [vm_compute; reflexivity|]. split; [vm_compute; reflexivity|]. split; [vm_compute; reflexivity|].
  eapply (launch_environment_correct _ (mkLaunchEnvironment false [mkVariable "LANG" "de"; mkVariable "X" "1"])); [|vm_compute; reflexivity].
  exists [("LANG", mkVariable "Lang" "C")]. split; [|reflexivity]. split; [repeat constructor|].
  intros k e. simpl. destruct (String.eqb_spec k "LANG") as [->|]; [|done]. intros [= <-]. split; [reflexivity|by repeat split].
Defined.

(** * Destinations are parsed back, grants only narrow

    A destination that was built is printed as a text that parses to it.  The
    law asked of the [idna] crate is that its ASCII form is stable.  With it,
    the intersection of two grants permits exactly what both permit. *)

(** ** ASCII text *)


Definition is_ascii (b : byte) : bool := (byte_val b <? 128)%N.

Lemma ascii_chars {Er : Type} (s : string) : forallb is_ascii (as_bytes s) = true ->
  chars (E := Er) s = Ok (byte_val <$> as_bytes s).
Proof.
  intros H. unfold chars. assert (He : encode (byte_val <$> as_bytes s) = as_bytes s /\ Forall scalar (byte_val <$> as_bytes s)).
  { induction (as_bytes s) as [|b l IH]; [done|]. simpl in H. apply andb_prop in H as [Hb H]. apply N.ltb_lt in Hb.
    destruct (IH H) as [He Hs]. split.
    - change (encode (byte_val <$> b :: l)) with (encode_char (byte_val b) ++ encode (byte_val <$> l)). rewrite He.
      unfold encode_char. rewrite (proj2 (N.ltb_lt _ _) Hb). simpl.
      f_equal. by apply byte_of_val.
    - constructor; [left; lia|done]. }
  destruct He as [He Hs]. apply utf8_encode in Hs. rewrite He in Hs. by rewrite Hs.
Qed.

Lemma existsb_map_false {A B} (f : B -> bool) (g : A -> B) l : (forall x, x ∈ l -> f (g x) = false) -> existsb f (g <$> l) = false.
Proof.
  induction l as [|x l IH]; intros H; [done|]. simpl. rewrite H by left. apply IH. intros; apply H; by right.
Qed.

(** The bytes of host names. *)
Definition host_byte (b : byte) : bool :=
  is_ascii_lowercase b || is_ascii_digit b || Ascii.eqb b "-" || Ascii.eqb b ".".

Lemma host_byte_cases b : host_byte b = true ->
  is_ascii b = true /\ is_whitespace (byte_val b) = false /\ is_ascii_uppercase b = false /\ b <> ":"%char.
Proof. destruct b as [[] [] [] [] [] [] [] []]; intros H; try discriminate H; by split_and!. Qed.

Lemma rsplit_once_spec b before after : (forall c, c ∈ after -> c <> b) ->
  rsplit_once b (before ++ b :: after) = Some (before, after).
Proof.
  intros Ha. assert (Hnone : rsplit_once b after = None).
  { induction after as [|c after IH]; [done|]. simpl. rewrite IH by (intros; apply Ha; by right).
    destruct (Ascii.eqb_spec c b) as [->|]; [|done]. exfalso. by apply (Ha b); [left|]. }
  induction before as [|c before IH]; simpl; [by rewrite Hnone, Ascii.eqb_refl|]. by rewrite IH.
Qed.

(** ** Accepted hosts *)

Lemma ldh_host_bytes label : valid_ldh_label label = true -> forallb host_byte label = true.
Proof.
  unfold valid_ldh_label. intros [_ H]%andb_prop. apply forallb_forall. intros b Hb.
  rewrite forallb_forall in H. specialize (H b Hb). unfold host_byte. by rewrite H.
Qed.

Record host_ok (h : string) : Prop := {
  h_bytes : forallb host_byte (as_bytes h) = true;
  h_nonempty : h <> "";
  h_no_dot : strip_suffix_byte "." h = None }.

Lemma labels_host_ok h : forallb valid_ldh_label (split_byte "." (as_bytes h)) = true -> host_ok h.
Proof.
  intros H. split.
  - apply forallb_forall. intros b Hb. apply list_elem_of_In in Hb.
    destruct (split_bytes "." (as_bytes h) host_byte) with (c := b) as [->|]; try done.
    apply forallb_forall. intros l Hl. apply ldh_host_bytes. rewrite forallb_forall in H. by apply H.
  - by intros ->.
  - unfold strip_suffix_byte. destruct (reverse (as_bytes h)) as [|c l] eqn:E; [done|].
    destruct (Ascii.eqb_spec c ".") as [->|]; [exfalso|done].
    assert (as_bytes h = reverse l ++ ["."%char]) as Hb by (by rewrite <- (reverse_involutive (as_bytes h)), E, reverse_cons).
    rewrite Hb, split_snoc, forallb_app in H. apply andb_prop in H as [_ H]. done.
Qed.

Lemma host_lowercase h : forallb host_byte (as_bytes h) = true -> to_ascii_lowercase h = h.
Proof.
  intros H. unfold to_ascii_lowercase. transitivity (from_bytes (as_bytes h)); [|apply string_of_list_ascii_of_string]. f_equal.
  rewrite <- (list_fmap_id (as_bytes h)) at 2. apply list_fmap_ext. intros i b Hb%list_elem_of_lookup_2. simpl.
  rewrite forallb_forall in H. apply list_elem_of_In in Hb. destruct (host_byte_cases b (H b Hb)) as (_ & _ & -> & _). done.
Qed.

Lemma host_chars {Er : Type} (s : string) : forallb is_ascii (as_bytes s) = true ->
  (forall b, b ∈ as_bytes s -> is_whitespace (byte_val b) = false) -> any_whitespace (E := Er) s = Ok false.
Proof.
  intros Ha Hw. unfold any_whitespace. rewrite ascii_chars by done. cbn [rbind]. by rewrite existsb_map_false.
Qed.

Lemma host_deviation {Er : Type} (s : string) : forallb is_ascii (as_bytes s) = true -> has_uts46_deviation (E := Er) s = Ok false.
Proof.
  intros Ha. unfold has_uts46_deviation. rewrite ascii_chars by done. cbn [rbind]. rewrite existsb_map_false; [done|].
  intros b Hb. rewrite forallb_forall in Ha. apply list_elem_of_In in Hb. specialize (Ha b Hb). apply N.ltb_lt in Ha.
  rewrite !orb_false_iff, !N.eqb_neq. lia.
Qed.

Lemma host_ascii h : forallb host_byte (as_bytes h) = true -> forallb is_ascii (as_bytes h) = true.
Proof.
  rewrite !forallb_forall. intros H b Hb. by destruct (host_byte_cases b (H b Hb)).
Qed.

Lemma digit_cases b : is_ascii_digit b = true -> is_ascii b = true /\ is_whitespace (byte_val b) = false /\ b <> ":"%char.
Proof. destruct b as [[] [] [] [] [] [] [] []]; intros H; try discriminate H; by split_and!. Qed.

Section destination.
Context `{Idna}.
(** The ASCII form of a name is its own ASCII form. *)
Hypothesis ascii_stable : forall x y, domain_to_ascii_strict x = Some y ->
  domain_to_ascii_strict (to_ascii_lowercase y) = Some (to_ascii_lowercase y).

Lemma new_destination_inv h p g : new_destination h p = Ok g ->
  (p <> 0)%N /\ port g = p /\ host_ok (host g) /\ domain_to_ascii_strict (host g) = Some (host g) /\
  let '(unicode, failed) := domain_to_unicode (host g) in
  exists deviates, has_uts46_deviation (E := SandboxError) unicode = Ok deviates /\
    acceptable_host (host g) unicode (negb failed) deviates = true.
Proof.
  unfold new_destination. destruct (any_whitespace h) as [blank| | |]; try done. cbn [rbind].
  destruct (N.eqb_spec p 0) as [|Hp]; [done|]. destruct blank; [done|]. cbn [orb].
  set (h1 := match strip_suffix_byte "." h with Some h' => h' | None => h end).
  destruct (has_uts46_deviation h1) as [dev| | |]; try done. cbn [rbind].
  destruct (String.eqb h1 "" || dev); [done|]. destruct (domain_to_ascii_strict h1) as [ascii|] eqn:Ea; [|done].
  pose proof (ascii_stable _ _ Ea) as Hs. set (h2 := to_ascii_lowercase ascii) in *.
  destruct (domain_to_unicode h2) as [unicode failed] eqn:Eu.
  destruct (has_uts46_deviation unicode) as [dev2| | |] eqn:Ed; try done. cbn [rbind].
  destruct (acceptable_host h2 unicode (negb failed) dev2) eqn:Eh; [|done]. intros [= <-]. cbn [host port].
  split; [done|]. split; [done|]. split; [|split; [done|]].
  - apply labels_host_ok. unfold acceptable_host in Eh. rewrite !andb_true_iff in Eh. tauto.
  - rewrite Eu. by exists dev2.
Qed.

(** A destination is rebuilt from its own fields. *)
Lemma new_destination_again h p g : new_destination h p = Ok g -> new_destination (host g) (port g) = Ok g.
Proof.
  intros Hn. apply new_destination_inv in Hn as (Hp & Hport & [Hb Hne Hdot] & Ha & Hu). unfold new_destination.
  pose proof (host_ascii _ Hb) as Hasc. rewrite host_chars; [|done|].
  2:{ intros b Hin. rewrite forallb_forall in Hb. apply list_elem_of_In in Hin. by destruct (host_byte_cases b (Hb b Hin)) as (_ & ? & _). }
  cbn [rbind]. destruct (N.eqb_spec (port g) 0); [congruence|]. cbn [orb]. rewrite Hdot, host_deviation by done. cbn [rbind].
  destruct (String.eqb_spec (host g) ""); [done|]. cbn [orb]. rewrite Ha, (host_lowercase _ Hb).
  destruct (domain_to_unicode (host g)) as [unicode failed]. destruct Hu as (dev & -> & Hacc). cbn [rbind]. rewrite Hacc.
  by destruct g.
Qed.

(** A destination that was accepted is printed as a text that parses back
    to it, so its spelling is canonical: what a policy stores and what a
    message carries name the same destination. *)
Theorem parse_destination_roundtrip (h : string) (p : N) (g : DestinationGrant) :
  (p <= 65535)%N -> new_destination h p = Ok g -> parse_destination (show_destination g) = Ok g.
Proof.
  intros Hp Hn. pose proof (new_destination_again _ _ _ Hn) as Hagain.
  apply new_destination_inv in Hn as (_ & Hport & [Hb _ _] & _). rewrite <- Hport in Hp.
  destruct (show_N_val (port g)) as (Hval & Hdig & Hnil). rewrite forallb_forall in Hdig.
  assert (Hbytes : as_bytes (show_destination g) = as_bytes (host g) ++ ":"%char :: show_N_bytes (port g)).
  { unfold show_destination, show_N. rewrite !as_bytes_app. simpl. do 2 f_equal. apply list_ascii_of_string_of_list_ascii. }
  assert (Hall : forall b, b ∈ as_bytes (show_destination g) -> is_ascii b = true /\ is_whitespace (byte_val b) = false).
  { intros b. rewrite Hbytes, elem_of_app, elem_of_cons, !list_elem_of_In. rewrite forallb_forall in Hb. intros [Hin|[->|Hin]].
    - by destruct (host_byte_cases b (Hb b Hin)) as (? & ? & _).
    - done.
    - by destruct (digit_cases b (Hdig b Hin)) as (? & ? & _). }
  unfold parse_destination. rewrite host_chars; cycle 1.
  { apply forallb_forall. intros b Hin. by apply Hall, list_elem_of_In. }
  { intros b Hin. by apply Hall. }
  cbn [rbind]. rewrite Hbytes, rsplit_once_spec.
  2:{ intros c Hc%list_elem_of_In. by destruct (digit_cases c (Hdig c Hc)) as (_ & _ & ?). }
  rewrite (proj2 (Nat.eqb_neq _ _)) by (by destruct (show_N_bytes (port g))).
  rewrite (proj2 (forallb_forall _ _) Hdig). cbn [negb orb]. unfold parse_u16_digits. rewrite Hval.
  rewrite (proj2 (N.leb_le _ _)) by done. unfold from_bytes, as_bytes. by rewrite string_of_list_ascii_of_string.
Qed.
End destination.

(** ** Grants *)

(** What a grant lets a session do. *)
Definition permits {T : Type} (s : GrantSet T) (x : T) : Prop :=
  match s with GrantSet.Unrestricted => True | GrantSet.Only values => x ∈ values end.

Lemma intersection_elem {T} `{EqDecision T} (x : T) first second : x ∈ intersection first second <-> x ∈ first /\ x ∈ second.
Proof.
  unfold intersection. rewrite list_elem_of_In, List.filter_In, bool_decide_eq_true. by rewrite <- list_elem_of_In.
Qed.

Lemma intersect_grant_set_permits {T} `{EqDecision T} (a b : GrantSet T) x :
  permits (intersect_grant_set a b) x <-> permits a x /\ permits b x.
Proof. destruct a, b; simpl; try tauto. apply intersection_elem. Qed.

Section grants.
Context `{Idna}.
Hypothesis ascii_stable : forall x y, domain_to_ascii_strict x = Some y ->
  domain_to_ascii_strict (to_ascii_lowercase y) = Some (to_ascii_lowercase y).

(** Every destination value comes from [new_destination]. *)
Definition built (s : GrantSet DestinationGrant) : Prop :=
  match s with
  | GrantSet.Unrestricted => True
  | GrantSet.Only values => forall d, d ∈ values -> exists h p, new_destination h p = Ok d
  end.

Lemma renew_built values : (forall d, d ∈ values -> exists h p, new_destination h p = Ok d) -> renew_destinations values = Ok values.
Proof.
  induction values as [|d values IH]; intros Hb; [done|]. cbn [renew_destinations].
  destruct (Hb d) as (h & p & Hn); [by left|]. rewrite (new_destination_again ascii_stable _ _ _ Hn). cbn [rbind].
  rewrite IH; [done|]. intros d' Hd'. apply Hb. by right.
Qed.

Lemma intersect_destinations_permits a b : built a -> built b ->
  exists s, intersect_destination_grant_set a b = Ok s /\ built s /\ forall d, permits s d <-> permits a d /\ permits b d.
Proof.
  intros Ha Hb. pose proof (set_of_list_elem destination_compare destination_eq) as Hset.
  assert (Honly : forall values, (forall d, d ∈ values -> exists h p, new_destination h p = Ok d) ->
    exists s, (let? grants := renew_destinations values in Ok (GrantSet.Only (set_of_list destination_compare grants))) = Ok s /\
      built s /\ forall d, permits s d <-> d ∈ values).
  { intros values Hv. rewrite renew_built by done. eexists. split; [done|]. split; [|intros d; apply Hset].
    intros d Hd. by apply Hv, Hset. }
  unfold intersect_destination_grant_set. destruct a as [|va], b as [|vb]; simpl in *.
  - exists GrantSet.Unrestricted. by split_and!.
  - destruct (Honly vb Hb) as (s & -> & Hs & Hp). exists s. split_and!; try done. intros d. rewrite Hp. tauto.
  - destruct (Honly va Ha) as (s & -> & Hs & Hp). exists s. split_and!; try done. intros d. rewrite Hp. tauto.
  - destruct (Honly (intersection va vb)) as (s & -> & Hs & Hp).
    + intros d Hd. apply intersection_elem in Hd as [Hd _]. by apply Ha.
    + exists s. split_and!; try done. intros d. by rewrite Hp, intersection_elem.
Qed.

(** No access level means no statement about it. *)
Definition access_within (limit : option ExecutionAccess) (a : ExecutionAccess) : Prop :=
  forall l, limit = Some l -> security_rank a <= security_rank l.

(** The intersection of two grants is their greatest lower bound: it
    exists, it permits a tool, a destination or a surface exactly when both
    do, and its access level is within exactly the levels within both. *)
Theorem intersect_narrows (self requested : ExecutionGrant) :
  built (grant_destinations self) -> built (grant_destinations requested) ->
  exists g, intersect self requested = Ok g /\
    (grant_process g = true <-> grant_process self = true /\ grant_process requested = true) /\
    (grant_pty g = true <-> grant_pty self = true /\ grant_pty requested = true) /\
    (forall t, permits (grant_tools g) t <-> permits (grant_tools self) t /\ permits (grant_tools requested) t) /\
    (forall d, permits (grant_destinations g) d <-> permits (grant_destinations self) d /\ permits (grant_destinations requested) d) /\
    (forall a, access_within (grant_access g) a <-> access_within (grant_access self) a /\ access_within (grant_access requested) a) /\
    built (grant_destinations g).
Proof.
  intros Ha Hb. destruct (intersect_destinations_permits _ _ Ha Hb) as (s & Hs & Hbs & Hp).
  unfold intersect. rewrite Hs. eexists. split; [done|]. cbn [grant_process grant_pty grant_tools grant_destinations grant_access].
  split; [apply andb_true_iff|]. split; [apply andb_true_iff|]. split; [intros; apply intersect_grant_set_permits|].
  split; [done|]. split; [|done]. intros a. unfold access_within, narrower_access, access_min.
  destruct (grant_access self) as [x|], (grant_access requested) as [y|].
  - destruct (Nat.leb_spec (security_rank x) (security_rank y)); split.
    all: try (intros H1; split; intros l [= <-]; specialize (H1 _ eq_refl); lia).
    all: intros [H1 H2] l [= <-]; auto.
  - split; [intros H1; split; [done|by intros l]|tauto].
  - split; [intros H1; split; [by intros l|done]|tauto].
  - split; [intros _; by split|tauto].
Qed.
End grants.

(** ** An example *)

(** On ASCII names the crate changes nothing. *)
Definition plain_idna : Idna := {| domain_to_ascii_strict := Some; domain_to_unicode := fun x => (x, false) |}.

Lemma plain_stable x y : @domain_to_ascii_strict plain_idna x = Some y ->
  @domain_to_ascii_strict plain_idna (to_ascii_lowercase y) = Some (to_ascii_lowercase y).
Proof. done. Qed.

Lemma parse_destination_roundtrip_witness :
  new_destination (H := plain_idna) "API.Example." 443 = Ok (mkDestinationGrant "api.example" 443) /\
  parse_destination (H := plain_idna) (show_destination (mkDestinationGrant "api.example" 443)) = Ok (mkDestinationGrant "api.example" 443).
Proof.
  split; [vm_compute; reflexivity|].
  apply (parse_destination_roundtrip (H := plain_idna) plain_stable "API.Example." 443); [done|vm_compute; reflexivity].
Defined.

Lemma intersect_narrows_witness :
  let grant tools access := mkGrant access true true tools (GrantSet.Only [mkDestinationGrant "api.example" 443]) in
  exists g, intersect (H := plain_idna) (grant GrantSet.Unrestricted None)
      (grant (GrantSet.Only [mkToolId "git"]) (Some ExecutionAccess.Read)) = Ok g /\
    (forall t, permits (grant_tools g) t <-> True /\ t ∈ [mkToolId "git"]).
Proof.
  assert (Hb : built (H := plain_idna) (GrantSet.Only [mkDestinationGrant "api.example" 443])).
  { intros d ->%list_elem_of_singleton. exists "api.example", 443%N. vm_compute. reflexivity. }
  intros grant. destruct (intersect_narrows (H := plain_idna) plain_stable (grant GrantSet.Unrestricted None)
    (grant (GrantSet.Only [mkToolId "git"]) (Some ExecutionAccess.Read)) Hb Hb) as (g & Hg & _ & _ & Ht & _).
  by exists g.
Defined.
