(* ===== verification/SandboxMessage.v ===== *)
(** * Messages between a host and its sandbox broker (protocol/message.rs): data

    Requests, responses and events, with the checks each side makes on what it
    sends and receives.  Checks on a message alone and against a policy are
    here; the correlation of responses with requests is in SandboxProtocol. *)

From stdpp Require Import base tactics list strings option numbers gmap.
From Stdlib Require Import ZArith NArith Lia Ascii String.
From S2P Require Import Prelude RustStr RustText BTree SandboxError SandboxIdentity SandboxCatalog SandboxDestination SandboxPolicy SandboxAudit.

Open Scope string_scope.
Open Scope list_scope.
Open Scope nat_scope.

Definition PROTOCOL_V1 : N := 1.
Definition MAX_IO_CHUNK_BYTES : N := 65536.

Definition valid_wire_text (value : string) : bool := negb (String.eqb value "") && negb (contains_byte "000" value).

Definition is_ok {E A : Type} (r : res E A) : bool := match r with Ok _ => true | _ => false end.

Definition ensure (valid : bool) : result unit := if valid then Ok tt else Err protocol_error.

(** [iter().try_for_each(f)]. *)
Fixpoint try_for_each {A : Type} (f : A -> result unit) (l : list A) : result unit :=
  match l with
  | [] => Ok tt
  | a :: l' => let? _ := f a in try_for_each f l'
  end.

(** [u64::checked_add]. *)
Definition checked_add_u64 (a b : N) : result N :=
  if (a + b <? 2 ^ 64)%N then Ok (a + b)%N else Err protocol_error.

(** ** Connections *)

Module EndpointRole.
Inductive EndpointRole : Type := Host | Broker.
End EndpointRole.
Abbreviation EndpointRole := EndpointRole.EndpointRole.

Definition peer (r : EndpointRole) : EndpointRole :=
  match r with EndpointRole.Host => EndpointRole.Broker | EndpointRole.Broker => EndpointRole.Host end.

(** 32 bytes. *)
Record ConnectionNonce : Type := mkNonce { nonce_bytes : list byte }.

(** [char::to_digit(16)] on a byte. *)
Definition hex_digit (b : byte) : option N :=
  if byte_between 48 57 b then Some (byte_val b - 48)%N
  else if byte_between 97 102 b then Some (byte_val b - 87)%N
  else if byte_between 65 70 b then Some (byte_val b - 55)%N
  else None.

(** [u8::from_str_radix(pair, 16)] on two bytes; a leading plus sign is
    allowed. *)
Definition u8_from_hex (h l : byte) : option N :=
  match hex_digit l with
  | None => None
  | Some low =>
      if Ascii.eqb h "+" then Some low
      else match hex_digit h with Some high => Some (high * 16 + low)%N | None => None end
  end.

Fixpoint nonce_pairs (l : list byte) : result (list byte) :=
  match l with
  | h :: l :: rest =>
      match u8_from_hex h l with
      | None => Err protocol_error
      | Some n => let? bytes := nonce_pairs rest in Ok (ascii_of_N n :: bytes)
      end
  | _ => Ok []
  end.

Definition parse_nonce (value : string) : result ConnectionNonce :=
  if negb (String.length value =? 64)
     || negb (forallb (fun b => is_ascii_digit b || byte_between 97 102 b) (as_bytes value))
  then Err protocol_error
  else let? bytes := nonce_pairs (as_bytes value) in Ok (mkNonce bytes).

Definition nonce_to_hex (n : ConnectionNonce) : string := to_hex (mkDigest (nonce_bytes n)).

Record WireBytes : Type := mkWireBytes { wire_bytes : list byte }.

Definition wire_len (w : WireBytes) : N := N.of_nat (length (wire_bytes w)).

Definition new_wire_bytes (bytes : list byte) : result WireBytes :=
  if (MAX_IO_CHUNK_BYTES <? N.of_nat (length bytes))%N then Err protocol_error else Ok (mkWireBytes bytes).

(** [bytes.chunks(size)]; a chunk is not empty, so the length is enough fuel. *)
Fixpoint chunks {A : Type} (fuel size : nat) (l : list A) : list (list A) :=
  match fuel, l with
  | S fuel', _ :: _ => take size l :: chunks fuel' size (drop size l)
  | _, _ => []
  end.

Definition chunk_wire_bytes (bytes : list byte) : list WireBytes :=
  mkWireBytes <$> chunks (length bytes) (N.to_nat MAX_IO_CHUNK_BYTES) bytes.

Record PeerContextId : Type := mkPeer { peer_str : string }.

Definition parse_peer_context_id (value : string) : result PeerContextId :=
  if negb ((1 <=? str_len value) && (str_len value <=? 256)) then Err protocol_error
  else
    let? cs := chars value in
    if existsb is_control cs || contains_byte "000" value then Err protocol_error
    else Ok (mkPeer value).

Record AuthenticatedChannelContext : Type := mkChannel { channel_peer : PeerContextId; channel_binding : Sha256Digest }.

#[export] Instance ConnectionNonce_eq : EqDecision ConnectionNonce.
Proof. solve_decision. Defined.
#[export] Instance PeerContextId_eq : EqDecision PeerContextId.
Proof. solve_decision. Defined.

(** Versions are [u16]s. *)
Record HandshakeRequest : Type := mkHandshake {
  supported_protocol_versions : list N; hs_connection_nonce : ConnectionNonce; hs_channel_binding : Sha256Digest }.

Definition validate_versions (r : HandshakeRequest) : result unit :=
  ensure (bool_decide (supported_protocol_versions r = [PROTOCOL_V1])).

Definition validate_channel (context : AuthenticatedChannelContext) (r : HandshakeRequest) : result unit :=
  let? _ := validate_versions r in
  ensure (bool_decide (hs_channel_binding r = channel_binding context)).

Record HandshakeResponse : Type := mkHandshakeResponse {
  selected_protocol_version : N; resp_connection_nonce : ConnectionNonce; broker_nonce : ConnectionNonce;
  broker_identity : BackendIdentity; resp_peer_context_id : PeerContextId; resp_channel_binding : Sha256Digest }.

Record HandshakeExpectation : Type := mkExpectation {
  offered_protocol_versions : list N; expected_nonce : ConnectionNonce;
  expected_peer_context_id : PeerContextId; expected_channel_binding : Sha256Digest }.

Definition validate_handshake (expected : HandshakeExpectation) (r : HandshakeResponse) : result unit :=
  ensure ((selected_protocol_version r =? PROTOCOL_V1)%N
          && existsb (N.eqb (selected_protocol_version r)) (offered_protocol_versions expected)
          && bool_decide (resp_connection_nonce r = expected_nonce expected)
          && bool_decide (resp_peer_context_id r = expected_peer_context_id expected)
          && bool_decide (resp_channel_binding r = expected_channel_binding expected)).

(** ** Requests *)

(** Process, tree, PTY and request numbers are [u64]s, and so are times. *)
Module ExecutableRef.
Inductive ExecutableRef : Type := ManagedTool (tool : ToolId) | HostCommand (command : string).
End ExecutableRef.
Abbreviation ExecutableRef := ExecutableRef.ExecutableRef.

Record CreateSessionRequest : Type := mkCreateSession { create_session_id : SessionId; create_policy : ExecutionPolicyRequest }.
Record SessionRequest : Type := mkSessionRequest { sr_session_id : SessionId }.
Record CancelSessionRequest : Type := mkCancelSession { cancel_session_id : SessionId }.

Record ProcessLaunchRequest : Type := mkProcessLaunch {
  pl_session_id : SessionId; pl_executable : ExecutableRef; pl_arguments : list string; pl_cwd : option string;
  pl_stdin_open : bool; pl_environment : LaunchEnvironment; timeout_ms : N; stdout_max_bytes : N; stderr_max_bytes : N }.

Record ProcessRequest : Type := mkProcessRequest { pr_session_id : SessionId; pr_process_id : N }.

(** [max_bytes_per_stream] is a [u32]. *)
Record ProcessReadRequest : Type := mkProcessRead {
  rd_session_id : SessionId; rd_process_id : N; rd_stdout_offset : N; rd_stderr_offset : N; max_bytes_per_stream : N }.

Record ProcessWriteRequest : Type := mkProcessWrite {
  wr_session_id : SessionId; wr_process_id : N; wr_bytes : WireBytes; close_stdin : bool }.

(** [rows] and [cols] are [u16]s. *)
Record PtyLaunchRequest : Type := mkPtyLaunch {
  ptl_session_id : SessionId; ptl_executable : ExecutableRef; ptl_arguments : list string; ptl_cwd : option string;
  ptl_environment : LaunchEnvironment; ptl_rows : N; ptl_cols : N; output_max_bytes : N }.

Record PtyRequest : Type := mkPtyRequest { pt_session_id : SessionId; pt_pty_id : N }.
Record PtyReadRequest : Type := mkPtyRead { ptr_session_id : SessionId; ptr_pty_id : N; ptr_offset : N; ptr_max_bytes : N }.
Record PtyWriteRequest : Type := mkPtyWrite { ptw_session_id : SessionId; ptw_pty_id : N; ptw_bytes : WireBytes }.
Record PtyResizeRequest : Type := mkPtyResize { rs_session_id : SessionId; rs_pty_id : N; rs_rows : N; rs_cols : N }.

Module BrokerRequest.
Inductive BrokerRequest : Type :=
  | Handshake (r : HandshakeRequest) | CreateSession (r : CreateSessionRequest) | CloseSession (r : SessionRequest)
  | CancelSession (r : CancelSessionRequest) | ProcessStart (r : ProcessLaunchRequest) | ProcessList (r : SessionRequest)
  | ProcessDetail (r : ProcessRequest) | ProcessRead (r : ProcessReadRequest) | ProcessWrite (r : ProcessWriteRequest)
  | ProcessCancel (r : ProcessRequest) | ProcessRelease (r : ProcessRequest) | PtyStart (r : PtyLaunchRequest)
  | PtyList (r : SessionRequest) | PtyDetail (r : PtyRequest) | PtyRead (r : PtyReadRequest) | PtyWrite (r : PtyWriteRequest)
  | PtyResize (r : PtyResizeRequest) | PtyStop (r : PtyRequest) | PtyRelease (r : PtyRequest)
  | CatalogPublicSnapshot | Ping.
End BrokerRequest.
Abbreviation BrokerRequest := BrokerRequest.BrokerRequest.

Module RequestKind.
Inductive BrokerRequestKind : Type :=
  | Handshake | CreateSession | CloseSession | CancelSession | ProcessStart | ProcessList | ProcessDetail | ProcessRead
  | ProcessWrite | ProcessCancel | ProcessRelease | PtyStart | PtyList | PtyDetail | PtyRead | PtyWrite | PtyResize
  | PtyStop | PtyRelease | CatalogPublicSnapshot | Ping.
End RequestKind.
Abbreviation BrokerRequestKind := RequestKind.BrokerRequestKind.

Definition request_kind (r : BrokerRequest) : BrokerRequestKind :=
  match r with
  | BrokerRequest.Handshake _ => RequestKind.Handshake
  | BrokerRequest.CreateSession _ => RequestKind.CreateSession
  | BrokerRequest.CloseSession _ => RequestKind.CloseSession
  | BrokerRequest.CancelSession _ => RequestKind.CancelSession
  | BrokerRequest.ProcessStart _ => RequestKind.ProcessStart
  | BrokerRequest.ProcessList _ => RequestKind.ProcessList
  | BrokerRequest.ProcessDetail _ => RequestKind.ProcessDetail
  | BrokerRequest.ProcessRead _ => RequestKind.ProcessRead
  | BrokerRequest.ProcessWrite _ => RequestKind.ProcessWrite
  | BrokerRequest.ProcessCancel _ => RequestKind.ProcessCancel
  | BrokerRequest.ProcessRelease _ => RequestKind.ProcessRelease
  | BrokerRequest.PtyStart _ => RequestKind.PtyStart
  | BrokerRequest.PtyList _ => RequestKind.PtyList
  | BrokerRequest.PtyDetail _ => RequestKind.PtyDetail
  | BrokerRequest.PtyRead _ => RequestKind.PtyRead
  | BrokerRequest.PtyWrite _ => RequestKind.PtyWrite
  | BrokerRequest.PtyResize _ => RequestKind.PtyResize
  | BrokerRequest.PtyStop _ => RequestKind.PtyStop
  | BrokerRequest.PtyRelease _ => RequestKind.PtyRelease
  | BrokerRequest.CatalogPublicSnapshot => RequestKind.CatalogPublicSnapshot
  | BrokerRequest.Ping => RequestKind.Ping
  end.

(** ** Checks on a request alone *)

Definition validate_launch_text (executable : ExecutableRef) (arguments : list string) (cwd : option string) : result unit :=
  let executable_valid := match executable with
    | ExecutableRef.ManagedTool _ => true
    | ExecutableRef.HostCommand command => valid_wire_text command
    end in
  ensure (executable_valid && forallb (fun argument => negb (contains_byte "000" argument)) arguments
          && match cwd with Some cwd => valid_wire_text cwd | None => true end).

Definition validate_chunk_bound (value : N) : result unit := ensure ((1 <=? value)%N && (value <=? MAX_IO_CHUNK_BYTES)%N).

Definition validate_dimensions (rows cols : N) : result unit := ensure ((0 <? rows)%N && (0 <? cols)%N).

Definition validate_process_launch_local (r : ProcessLaunchRequest) : result unit :=
  let? _ := validate_launch_text (pl_executable r) (pl_arguments r) (pl_cwd r) in
  if (timeout_ms r =? 0)%N then Err protocol_error else Ok tt.

Definition validate_pty_launch_local (r : PtyLaunchRequest) : result unit :=
  let? _ := validate_launch_text (ptl_executable r) (ptl_arguments r) (ptl_cwd r) in
  validate_dimensions (ptl_rows r) (ptl_cols r).

Definition validate_local (r : BrokerRequest) : result unit :=
  match r with
  | BrokerRequest.Handshake r => validate_versions r
  | BrokerRequest.CreateSession r => ensure (req_schema_version (create_policy r) =? POLICY_SCHEMA_V1)%N
  | BrokerRequest.ProcessStart r => validate_process_launch_local r
  | BrokerRequest.ProcessRead r => validate_chunk_bound (max_bytes_per_stream r)
  | BrokerRequest.ProcessWrite r => ensure (negb (wire_len (wr_bytes r) =? 0)%N || close_stdin r)
  | BrokerRequest.PtyStart r => validate_pty_launch_local r
  | BrokerRequest.PtyRead r => validate_chunk_bound (ptr_max_bytes r)
  | BrokerRequest.PtyWrite r => if (wire_len (ptw_bytes r) =? 0)%N then Err protocol_error else Ok tt
  | BrokerRequest.PtyResize r => validate_dimensions (rs_rows r) (rs_cols r)
  | _ => Ok tt
  end.

(** ** Checks on a request against the policy of its session *)

Definition validate_executable (executable : ExecutableRef) (p : ValidatedExecutionPolicy) : result unit :=
  ensure match executable with
    | ExecutableRef.HostCommand _ => bool_decide (policy_access p = ExecutionAccess.Full)
    | ExecutableRef.ManagedTool tool =>
        negb (bool_decide (policy_access p = ExecutionAccess.Full))
        && bs_contains (tool_str tool) (roots (prepared_catalog p))
    end.

Definition ensure_session (actual expected : SessionId) : result unit := ensure (bool_decide (actual = expected)).

Definition ensure_surface_session (actual expected : SessionId) (surface : ExecutionSurface) (p : ValidatedExecutionPolicy) : result unit :=
  let? _ := ensure_session actual expected in
  ensure (allows surface p).

Definition validate_against (expected : SessionId) (p : ValidatedExecutionPolicy) (r : BrokerRequest) : result unit :=
  let? _ := validate_local r in
  match r with
  | BrokerRequest.Handshake _ | BrokerRequest.CatalogPublicSnapshot | BrokerRequest.Ping => Ok tt
  | BrokerRequest.CreateSession r => ensure_session (create_session_id r) expected
  | BrokerRequest.CloseSession r => ensure_session (sr_session_id r) expected
  | BrokerRequest.CancelSession r => ensure_session (cancel_session_id r) expected
  | BrokerRequest.ProcessStart r =>
      let? _ := ensure_surface_session (pl_session_id r) expected ExecutionSurface.Process p in
      let? _ := validate_executable (pl_executable r) p in
      let? _ := resolve_launch_environment p (pl_environment r) in
      let? total := checked_add_u64 (stdout_max_bytes r) (stderr_max_bytes r) in
      match policy_resource_limits p with
      | Some limits =>
          if (wall_time_ms limits <? timeout_ms r)%N || (captured_output_bytes limits <? total)%N
          then Err protocol_error else Ok tt
      | None => Ok tt
      end
  | BrokerRequest.ProcessDetail r | BrokerRequest.ProcessCancel r | BrokerRequest.ProcessRelease r =>
      ensure_surface_session (pr_session_id r) expected ExecutionSurface.Process p
  | BrokerRequest.ProcessRead r => ensure_surface_session (rd_session_id r) expected ExecutionSurface.Process p
  | BrokerRequest.ProcessWrite r => ensure_surface_session (wr_session_id r) expected ExecutionSurface.Process p
  | BrokerRequest.ProcessList r => ensure_surface_session (sr_session_id r) expected ExecutionSurface.Process p
  | BrokerRequest.PtyStart r =>
      let? _ := ensure_surface_session (ptl_session_id r) expected ExecutionSurface.Pty p in
      let? _ := validate_executable (ptl_executable r) p in
      let? _ := resolve_launch_environment p (ptl_environment r) in
      if match policy_resource_limits p with
         | Some limits => (captured_output_bytes limits <? output_max_bytes r)%N
         | None => false
         end
      then Err protocol_error else Ok tt
  | BrokerRequest.PtyDetail r | BrokerRequest.PtyStop r | BrokerRequest.PtyRelease r =>
      ensure_surface_session (pt_session_id r) expected ExecutionSurface.Pty p
  | BrokerRequest.PtyRead r => ensure_surface_session (ptr_session_id r) expected ExecutionSurface.Pty p
  | BrokerRequest.PtyWrite r => ensure_surface_session (ptw_session_id r) expected ExecutionSurface.Pty p
  | BrokerRequest.PtyResize r => ensure_surface_session (rs_session_id r) expected ExecutionSurface.Pty p
  | BrokerRequest.PtyList r => ensure_surface_session (sr_session_id r) expected ExecutionSurface.Pty p
  end.
