(* ===== verification/SandboxProtocol.v ===== *)
(** * Replies of the sandbox broker and their correlation (protocol/message.rs)

    Snapshots, confirmed capabilities, responses and events with their checks;
    [ResponseCorrelation] remembers the requests that wait for a response. *)

From stdpp Require Import base tactics list strings option numbers gmap.
From Stdlib Require Import ZArith NArith Lia Ascii String.
From S2P Require Import Prelude RustStr RustText BTree SandboxError SandboxIdentity SandboxCatalog SandboxDestination SandboxPolicy SandboxAudit.
From S2P Require Import SandboxMessage.

Open Scope string_scope.
Open Scope list_scope.
Open Scope nat_scope.

(** ** Errors of operations *)

Module ProcessStatus.
Inductive ProcessStatus : Type := Running | Exited | Failed | Cancelled | TimedOut.
End ProcessStatus.
Abbreviation ProcessStatus := ProcessStatus.ProcessStatus.

Module PtyStatus.
Inductive PtyStatus : Type := Running | Exited | Failed | Stopped.
End PtyStatus.
Abbreviation PtyStatus := PtyStatus.PtyStatus.

Module OpCode.
Inductive OperationErrorCode : Type :=
  | ProcessError | ProcessNotFound | ProcessRunning | ProcessNotRunning | ProcessStdinClosed
  | PtyError | PtyNotFound | PtyRunning | PtyClosed | RegistryFull.
End OpCode.
Abbreviation OperationErrorCode := OpCode.OperationErrorCode.

Module OpSubject.
Inductive OperationSubject : Type := Process (id : N) | Pty (id : N) | Registry (surface : ExecutionSurface).
End OpSubject.
Abbreviation OperationSubject := OpSubject.OperationSubject.

Record OperationError : Type := mkOperationError { op_code : OperationErrorCode; subject : OperationSubject; op_message : string }.

Definition operation_message (c : OperationErrorCode) : string :=
  match c with
  | OpCode.ProcessError => "sandbox process operation failed"
  | OpCode.ProcessNotFound => "sandbox process was not found"
  | OpCode.ProcessRunning => "sandbox process is still running"
  | OpCode.ProcessNotRunning => "sandbox process is not running"
  | OpCode.ProcessStdinClosed => "sandbox process stdin is closed"
  | OpCode.PtyError => "sandbox PTY operation failed"
  | OpCode.PtyNotFound => "sandbox PTY was not found"
  | OpCode.PtyRunning => "sandbox PTY is still running"
  | OpCode.PtyClosed => "sandbox PTY is closed"
  | OpCode.RegistryFull => "sandbox execution registry is full"
  end.

Definition operation_kind (c : OperationErrorCode) : string :=
  match c with
  | OpCode.ProcessError => "ProcessError"
  | OpCode.ProcessNotFound => "ProcessNotFound"
  | OpCode.ProcessRunning => "ProcessRunning"
  | OpCode.ProcessNotRunning => "ProcessNotRunning"
  | OpCode.ProcessStdinClosed => "ProcessStdinClosed"
  | OpCode.PtyError => "PtyError"
  | OpCode.PtyNotFound => "PtyNotFound"
  | OpCode.PtyRunning => "PtyRunning"
  | OpCode.PtyClosed => "PtyClosed"
  | OpCode.RegistryFull => "RegistryFull"
  end.

Definition validate_operation_error (e : OperationError) : result unit :=
  let subject_matches := match op_code e with
    | OpCode.ProcessError | OpCode.ProcessNotFound | OpCode.ProcessRunning | OpCode.ProcessNotRunning
    | OpCode.ProcessStdinClosed => match subject e with OpSubject.Process _ => true | _ => false end
    | OpCode.PtyError | OpCode.PtyNotFound | OpCode.PtyRunning | OpCode.PtyClosed =>
        match subject e with OpSubject.Pty _ => true | _ => false end
    | OpCode.RegistryFull => match subject e with OpSubject.Registry _ => true | _ => false end
    end in
  ensure (subject_matches && String.eqb (op_message e) (operation_message (op_code e))).

Definition new_operation_error (c : OperationErrorCode) (s : OperationSubject) : result OperationError :=
  let error := mkOperationError c s (operation_message c) in
  let? _ := validate_operation_error error in Ok error.

(** ** Snapshots *)

(** [exit_code] is an [i64], [argument_count] a [usize], the other numbers
    [u64]s. *)
Record ProcessSnapshot : Type := mkProcessSnapshot {
  ps_id : N; ps_process_tree_id : N; ps_command_display : string; ps_arguments : list string; ps_argument_count : N;
  ps_cwd : option string; ps_started_at : N; ps_status : ProcessStatus; ps_running : bool; ps_success : bool;
  ps_exit_code : option Z; ps_error : option SandboxError; stdout_len : N; stderr_len : N;
  stdout_truncated : bool; stderr_truncated : bool; ps_stdin_open : bool; ps_timed_out : bool; ps_cancelled : bool }.

(** The part common to processes and PTYs. *)
Definition snapshot_text_valid (argument_count : N) (arguments : list string) (command_display : string) (cwd : option string)
    (error : option SandboxError) : bool :=
  (argument_count =? N.of_nat (length arguments))%N && valid_wire_text command_display
  && forallb (fun value => negb (contains_byte "000" value)) arguments
  && match cwd with Some value => valid_wire_text value | None => true end
  && match error with Some e => is_ok (SandboxError.validate e) | None => true end.

Definition success_is_zero (success : bool) (exit_code : option Z) : bool :=
  Bool.eqb success (bool_decide (exit_code = Some 0%Z)).

Definition process_status_valid (s : ProcessSnapshot) : bool :=
  match ps_status s with
  | ProcessStatus.Running =>
      ps_running s && negb (ps_success s) && is_none (ps_exit_code s) && is_none (ps_error s)
      && negb (ps_timed_out s) && negb (ps_cancelled s)
  | ProcessStatus.Exited =>
      negb (ps_running s) && is_none (ps_error s) && negb (ps_stdin_open s) && negb (ps_timed_out s) && negb (ps_cancelled s)
      && is_some (ps_exit_code s) && success_is_zero (ps_success s) (ps_exit_code s)
  | ProcessStatus.Failed =>
      negb (ps_running s) && negb (ps_success s) && negb (ps_stdin_open s) && negb (ps_timed_out s) && negb (ps_cancelled s)
      && is_some (ps_error s)
  | ProcessStatus.Cancelled =>
      negb (ps_running s) && negb (ps_success s) && negb (ps_stdin_open s) && negb (ps_timed_out s) && ps_cancelled s
  | ProcessStatus.TimedOut =>
      negb (ps_running s) && negb (ps_success s) && negb (ps_stdin_open s) && ps_timed_out s && negb (ps_cancelled s)
  end.

Definition validate_process (s : ProcessSnapshot) : result unit :=
  if negb (snapshot_text_valid (ps_argument_count s) (ps_arguments s) (ps_command_display s) (ps_cwd s) (ps_error s))
  then Err protocol_error
  else ensure (process_status_valid s).

Record ProcessReadSnapshot : Type := mkProcessReadSnapshot {
  process_snapshot : ProcessSnapshot; stdout : WireBytes; stderr : WireBytes; stdout_offset : N; stderr_offset : N }.

Definition validate_process_read (r : ProcessReadSnapshot) : result unit :=
  let? _ := validate_process (process_snapshot r) in
  let? stdout_end := checked_add_u64 (stdout_offset r) (wire_len (stdout r)) in
  let? stderr_end := checked_add_u64 (stderr_offset r) (wire_len (stderr r)) in
  ensure ((stdout_end <=? stdout_len (process_snapshot r))%N && (stderr_end <=? stderr_len (process_snapshot r))%N).

Record PtySnapshot : Type := mkPtySnapshot {
  pty_id : N; pty_process_tree_id : N; pty_command_display : string; pty_arguments : list string; pty_argument_count : N;
  pty_cwd : option string; pty_started_at : N; pty_status : PtyStatus; pty_running : bool; pty_success : bool;
  pty_exit_code : option Z; pty_error : option SandboxError; output_len : N; output_truncated : bool;
  pty_rows : N; pty_cols : N; native_process_id : option N; pty_stopped : bool }.

Definition pty_status_valid (s : PtySnapshot) : bool :=
  match pty_status s with
  | PtyStatus.Running =>
      pty_running s && negb (pty_success s) && is_none (pty_exit_code s) && is_none (pty_error s) && negb (pty_stopped s)
  | PtyStatus.Exited =>
      negb (pty_running s) && is_none (pty_error s) && negb (pty_stopped s) && is_some (pty_exit_code s)
      && success_is_zero (pty_success s) (pty_exit_code s)
  | PtyStatus.Failed => negb (pty_running s) && negb (pty_success s) && is_some (pty_error s) && negb (pty_stopped s)
  | PtyStatus.Stopped => negb (pty_running s) && negb (pty_success s) && pty_stopped s
  end.

Definition validate_pty (s : PtySnapshot) : result unit :=
  if negb (snapshot_text_valid (pty_argument_count s) (pty_arguments s) (pty_command_display s) (pty_cwd s) (pty_error s))
     || (pty_rows s =? 0)%N || (pty_cols s =? 0)%N
  then Err protocol_error
  else ensure (pty_status_valid s).

Record PtyReadSnapshot : Type := mkPtyReadSnapshot { pty_snapshot : PtySnapshot; output : WireBytes; output_offset : N }.

Definition validate_pty_read (r : PtyReadSnapshot) : result unit :=
  let? _ := validate_pty (pty_snapshot r) in
  let? end_ := checked_add_u64 (output_offset r) (wire_len (output r)) in
  ensure (end_ <=? output_len (pty_snapshot r))%N.

(** ** Confirmed capabilities *)

Record ConfirmedExecutionCapabilities : Type := mkCapabilities {
  cap_access : ExecutionAccess; cap_enforcement : EnforcementState; cap_backend : BackendIdentity; cap_broker_protocol : N;
  cap_session_id : SessionId; cap_policy_digest : PolicyDigest; cap_workspace : option AuditWorkspace;
  cap_scratch_id : ScratchId; cap_catalog_generation : CatalogGeneration; cap_tools : list PublicToolRecord;
  cap_destinations : list DestinationGrant; cap_resource_limits : option ResourceLimits }.

Definition cap_access_fields_valid (c : ConfirmedExecutionCapabilities) : bool :=
  match cap_access c with
  | ExecutionAccess.Read =>
      match cap_workspace c with Some w => negb (writable w) | None => false end && is_some (cap_resource_limits c)
  | ExecutionAccess.Workspace =>
      match cap_workspace c with Some w => writable w | None => false end && is_some (cap_resource_limits c)
  | ExecutionAccess.Full =>
      match cap_workspace c with Some w => writable w | None => true end
      && (length (cap_tools c) =? 0) && (length (cap_destinations c) =? 0)
  end.

Definition validate_capabilities (c : ConfirmedExecutionCapabilities) : result unit :=
  let workspace_valid := match cap_workspace c with Some w => valid_wire_text (workspace_root w) | None => true end in
  let? tools_valid := public_tool_projection_valid (cap_tools c) in
  let destinations_valid := increasing destination_compare (cap_destinations c) in
  ensure ((cap_broker_protocol c =? PROTOCOL_V1)%N && cap_access_fields_valid c
          && access_enforcement_valid (cap_access c) (cap_enforcement c) && workspace_valid && tools_valid
          && destinations_valid && limits_valid (cap_resource_limits c)).

Definition validate_capabilities_against_policy (p : ValidatedExecutionPolicy) (c : ConfirmedExecutionCapabilities) : result unit :=
  let? _ := validate_capabilities c in
  ensure (bool_decide (cap_access c = policy_access p) && bool_decide (cap_policy_digest c = audit_digest p)
          && bool_decide (cap_workspace c = policy_workspace p)
          && bool_decide (cap_catalog_generation c = closure_generation (prepared_catalog p))
          && bool_decide (cap_tools c = public_records (prepared_catalog p))
          && bool_decide (cap_destinations c = policy_destinations p)
          && bool_decide (cap_resource_limits c = policy_resource_limits p)).

Definition new_capabilities (session : SessionId) (scratch : ScratchId) (backend : BackendIdentity) (broker_protocol : N)
    (enforcement : EnforcementState) (p : ValidatedExecutionPolicy) : result ConfirmedExecutionCapabilities :=
  let value := mkCapabilities (policy_access p) enforcement backend broker_protocol session (audit_digest p)
    (policy_workspace p) scratch (closure_generation (prepared_catalog p)) (public_records (prepared_catalog p))
    (policy_destinations p) (policy_resource_limits p) in
  let? _ := validate_capabilities_against_policy p value in Ok value.

(** ** Responses *)

(** The binary search of the source is a membership test, for it counts only
    when the list is sorted. *)
Definition validate_public_catalog (s : PublicCatalogSnapshot) : result unit :=
  let records_sorted := increasing public_compare (pub_records s) in
  let revoked_sorted := increasing tool_compare (pub_revoked_tools s) in
  let helpers_not_revoked :=
    forallb (fun record => forallb (fun helper => negb (bool_decide (helper ∈ pub_revoked_tools s))) (public_helper_ids record))
      (pub_records s) in
  if (pub_schema_version s =? CATALOG_SCHEMA_V1)%N && records_sorted && revoked_sorted && helpers_not_revoked
  then let? projection := public_tool_projection_valid (pub_records s) in ensure projection
  else Err protocol_error.

Module BrokerResponse.
Inductive BrokerResponse : Type :=
  | Handshake (r : HandshakeResponse) | SessionCreated (c : ConfirmedExecutionCapabilities) | Acknowledged
  | Process (s : ProcessSnapshot) | Processes (l : list ProcessSnapshot) | ProcessRead (r : ProcessReadSnapshot)
  | Pty (s : PtySnapshot) | Ptys (l : list PtySnapshot) | PtyRead (r : PtyReadSnapshot)
  | PublicCatalog (s : PublicCatalogSnapshot) | Pong | OperationError (e : OperationError) | Error (e : SandboxError).
End BrokerResponse.
Abbreviation BrokerResponse := BrokerResponse.BrokerResponse.

Definition validate_response (r : BrokerResponse) : result unit :=
  match r with
  | BrokerResponse.Handshake r => ensure (selected_protocol_version r =? PROTOCOL_V1)%N
  | BrokerResponse.SessionCreated c => validate_capabilities c
  | BrokerResponse.Process s => validate_process s
  | BrokerResponse.Processes l => try_for_each validate_process l
  | BrokerResponse.ProcessRead r => validate_process_read r
  | BrokerResponse.Pty s => validate_pty s
  | BrokerResponse.Ptys l => try_for_each validate_pty l
  | BrokerResponse.PtyRead r => validate_pty_read r
  | BrokerResponse.PublicCatalog s => validate_public_catalog s
  | BrokerResponse.OperationError e => validate_operation_error e
  | BrokerResponse.Error e => SandboxError.validate e
  | BrokerResponse.Acknowledged | BrokerResponse.Pong => Ok tt
  end.

(** ** Events *)

Record TerminationNotice : Type := mkNotice {
  notice_reason : TerminationReason; process_tree_ids : list N; notice_error : option SandboxError }.

Definition validate_notice (session : SessionId) (n : TerminationNotice) : result unit :=
  let unique := size (list_to_set (process_tree_ids n) : gset N) =? length (process_tree_ids n) in
  ensure (unique && match notice_error n with
                    | Some e => matches_termination (notice_reason n) session e
                    | None => true
                    end).

Module BrokerEvent.
Inductive BrokerEvent : Type := Audit (r : AuditRecord) | SessionState (s : SessionState) | Terminated (n : TerminationNotice).
End BrokerEvent.
Abbreviation BrokerEvent := BrokerEvent.BrokerEvent.

Definition validate_event_for_session (session : SessionId) (e : BrokerEvent) : result unit :=
  match e with
  | BrokerEvent.Audit record =>
      let? _ := validate_audit_record record in
      let? _ := ensure_session (ctx_session_id (context record)) session in
      ensure (ctx_broker_protocol (context record) =? PROTOCOL_V1)%N
  | BrokerEvent.SessionState _ => Ok tt
  | BrokerEvent.Terminated notice => validate_notice session notice
  end.

Definition validate_event_against_policy (session : SessionId) (p : ValidatedExecutionPolicy) (e : BrokerEvent) : result unit :=
  let? _ := validate_event_for_session session e in
  match e with
  | BrokerEvent.Audit record => validate_against_policy p (context record)
  | _ => Ok tt
  end.

(** ** Messages *)

Module ProtocolMessage.
Inductive ProtocolMessage : Type :=
  | Request (request_id : N) (request : BrokerRequest)
  | Response (request_id : N) (response : BrokerResponse)
  | Event (session_id : SessionId) (event : BrokerEvent).
End ProtocolMessage.
Abbreviation ProtocolMessage := ProtocolMessage.ProtocolMessage.

Definition validate_for (sender : EndpointRole) (m : ProtocolMessage) : result unit :=
  match sender, m with
  | EndpointRole.Host, ProtocolMessage.Request _ request => validate_local request
  | EndpointRole.Broker, ProtocolMessage.Response _ response => validate_response response
  | EndpointRole.Broker, ProtocolMessage.Event session event => validate_event_for_session session event
  | _, _ => Err protocol_error
  end.

(** ** Correlation *)

Module Outstanding.
Inductive OutstandingRequest : Type := Handshake (expected : HandshakeExpectation) | Ordinary (kind : BrokerRequestKind).
End Outstanding.
Abbreviation OutstandingRequest := Outstanding.OutstandingRequest.

Record ResponseCorrelation : Type := mkCorrelation { outstanding : gmap N OutstandingRequest }.

Definition new_correlation : ResponseCorrelation := mkCorrelation ∅.

#[export] Instance RequestKind_eq : EqDecision BrokerRequestKind.
Proof. solve_decision. Defined.
#[export] Instance OpCode_eq : EqDecision OperationErrorCode.
Proof. solve_decision. Defined.

Definition insert_outstanding (id : N) (o : OutstandingRequest) (c : ResponseCorrelation) : result unit * ResponseCorrelation :=
  match outstanding c !! id with
  | Some _ => (Err protocol_error, c)
  | None => (Ok tt, mkCorrelation (<[id := o]> (outstanding c)))
  end.

Definition record_handshake (id : N) (r : HandshakeRequest) (channel : AuthenticatedChannelContext) (c : ResponseCorrelation)
    : result unit * ResponseCorrelation :=
  match validate_channel channel r with
  | Ok _ =>
      insert_outstanding id
        (Outstanding.Handshake (mkExpectation (supported_protocol_versions r) (hs_connection_nonce r)
           (channel_peer channel) (channel_binding channel))) c
  | e => (e, c)
  end.

Definition record_request (id : N) (r : BrokerRequest) (c : ResponseCorrelation) : result unit * ResponseCorrelation :=
  match r with
  | BrokerRequest.Handshake _ => (Err protocol_error, c)
  | _ =>
      match validate_local r with
      | Ok _ => insert_outstanding id (Outstanding.Ordinary (request_kind r)) c
      | e => (e, c)
      end
  end.

Definition operation_error_allowed (kind : BrokerRequestKind) (e : OperationError) : bool :=
  let registry_subject_matches := match kind, subject e with
    | RequestKind.ProcessStart, OpSubject.Registry ExecutionSurface.Process => true
    | RequestKind.PtyStart, OpSubject.Registry ExecutionSurface.Pty => true
    | _, OpSubject.Registry _ => false
    | _, _ => true
    end in
  if negb registry_subject_matches then false
  else match kind with
    | RequestKind.ProcessStart => match op_code e with OpCode.ProcessError | OpCode.RegistryFull => true | _ => false end
    | RequestKind.ProcessDetail | RequestKind.ProcessRead => bool_decide (op_code e = OpCode.ProcessNotFound)
    | RequestKind.ProcessWrite =>
        match op_code e with
        | OpCode.ProcessNotFound | OpCode.ProcessNotRunning | OpCode.ProcessStdinClosed | OpCode.ProcessError => true
        | _ => false
        end
    | RequestKind.ProcessCancel => match op_code e with OpCode.ProcessNotFound | OpCode.ProcessError => true | _ => false end
    | RequestKind.ProcessRelease => match op_code e with OpCode.ProcessNotFound | OpCode.ProcessRunning => true | _ => false end
    | RequestKind.PtyStart => match op_code e with OpCode.PtyError | OpCode.RegistryFull => true | _ => false end
    | RequestKind.PtyDetail | RequestKind.PtyRead => bool_decide (op_code e = OpCode.PtyNotFound)
    | RequestKind.PtyWrite | RequestKind.PtyResize =>
        match op_code e with OpCode.PtyNotFound | OpCode.PtyClosed | OpCode.PtyError => true | _ => false end
    | RequestKind.PtyStop => match op_code e with OpCode.PtyNotFound | OpCode.PtyError => true | _ => false end
    | RequestKind.PtyRelease => match op_code e with OpCode.PtyNotFound | OpCode.PtyRunning => true | _ => false end
    | RequestKind.Handshake | RequestKind.CreateSession | RequestKind.CloseSession | RequestKind.CancelSession
    | RequestKind.ProcessList | RequestKind.PtyList | RequestKind.CatalogPublicSnapshot | RequestKind.Ping => false
    end.

Definition response_allowed (kind : BrokerRequestKind) (r : BrokerResponse) : bool :=
  match r with
  | BrokerResponse.Error _ => true
  | BrokerResponse.Handshake _ => bool_decide (kind = RequestKind.Handshake)
  | BrokerResponse.SessionCreated _ => bool_decide (kind = RequestKind.CreateSession)
  | BrokerResponse.Acknowledged =>
      match kind with
      | RequestKind.CloseSession | RequestKind.CancelSession | RequestKind.ProcessRelease | RequestKind.PtyRelease => true
      | _ => false
      end
  | BrokerResponse.Process _ =>
      match kind with
      | RequestKind.ProcessStart | RequestKind.ProcessDetail | RequestKind.ProcessWrite | RequestKind.ProcessCancel => true
      | _ => false
      end
  | BrokerResponse.Processes _ => bool_decide (kind = RequestKind.ProcessList)
  | BrokerResponse.ProcessRead _ => bool_decide (kind = RequestKind.ProcessRead)
  | BrokerResponse.Pty _ =>
      match kind with
      | RequestKind.PtyStart | RequestKind.PtyDetail | RequestKind.PtyWrite | RequestKind.PtyResize | RequestKind.PtyStop => true
      | _ => false
      end
  | BrokerResponse.Ptys _ => bool_decide (kind = RequestKind.PtyList)
  | BrokerResponse.PtyRead _ => bool_decide (kind = RequestKind.PtyRead)
  | BrokerResponse.PublicCatalog _ => bool_decide (kind = RequestKind.CatalogPublicSnapshot)
  | BrokerResponse.Pong => bool_decide (kind = RequestKind.Ping)
  | BrokerResponse.OperationError e => operation_error_allowed kind e
  end.

Definition outstanding_accepts (o : OutstandingRequest) (r : BrokerResponse) : bool :=
  match o with
  | Outstanding.Handshake expected =>
      match r with
      | BrokerResponse.Handshake r => is_ok (validate_handshake expected r)
      | BrokerResponse.Error _ => true
      | _ => false
      end
  | Outstanding.Ordinary kind => response_allowed kind r
  end.

Definition validate_and_complete (id : N) (r : BrokerResponse) (c : ResponseCorrelation) : result unit * ResponseCorrelation :=
  match validate_response r with
  | Ok _ =>
      match outstanding c !! id with
      | None => (Err protocol_error, c)
      | Some o =>
          if outstanding_accepts o r then (Ok tt, mkCorrelation (delete id (outstanding c)))
          else (Err protocol_error, c)
      end
  | e => (e, c)
  end.

Definition event_permitted_for (kind : BrokerRequestKind) (e : BrokerEvent) : bool :=
  match kind with
  | RequestKind.CreateSession => match e with BrokerEvent.SessionState _ | BrokerEvent.Audit _ => true | _ => false end
  | RequestKind.CloseSession | RequestKind.CancelSession => true
  | RequestKind.ProcessStart | RequestKind.ProcessWrite | RequestKind.ProcessCancel
  | RequestKind.PtyStart | RequestKind.PtyWrite | RequestKind.PtyStop =>
      match e with BrokerEvent.Audit _ | BrokerEvent.Terminated _ => true | _ => false end
  | RequestKind.PtyResize => match e with BrokerEvent.Audit _ => true | _ => false end
  | _ => false
  end.
