(* ===== verification/SandboxProtocolProofs.v ===== *)
(** * What the checks of the protocol guarantee

    Launches stay within the policy, what an honest broker says about its
    catalog and policies is accepted, and a response is accepted exactly when
    it answers a request that waits. *)

From stdpp Require Import base tactics list strings option numbers relations gmap.
From Stdlib Require Import ZArith NArith Lia Ascii String Sorting.Sorted.
From S2P Require Import Prelude RustStr RustText BTree SandboxError SandboxIdentity SandboxCatalog SandboxCatalogProofs SandboxCatalogWf.
From S2P Require Import SandboxDestination SandboxPolicy SandboxAudit SandboxAuditProofs SandboxPolicyProofs SandboxMessage SandboxProtocol.

Open Scope string_scope.
Open Scope list_scope.
Open Scope nat_scope.

Lemma ensure_ok b : ensure b = Ok tt <-> b = true.
Proof. by destruct b. Qed.

Lemma bind_ok {E A B : Type} (m : res E A) (k : A -> res E B) b : rbind m k = Ok b <-> exists a, m = Ok a /\ k a = Ok b.
Proof. destruct m; simpl; split; try done; try (intros (? & ? & ?); congruence); intros; by eexists. Qed.

Lemma bind_unit {E B : Type} (m : res E unit) (k : unit -> res E B) b : rbind m k = Ok b <-> m = Ok tt /\ k tt = Ok b.
Proof. rewrite bind_ok. split; [intros ([] & ? & ?); done|intros []; by exists tt]. Qed.

(** ** Chunks *)

Lemma chunks_spec {A : Type} size (l : list A) fuel : 0 < size -> length l <= fuel ->
  concat (chunks fuel size l) = l /\ Forall (fun c => 0 < length c <= size) (chunks fuel size l).
Proof.
  intros Hs. revert l. induction fuel as [|fuel IH]; intros l Hf; destruct l as [|a l]; simpl in *; try (by split); [lia|].
  destruct (IH (drop size (a :: l))) as [Hc Ha].
  { rewrite length_drop. simpl. lia. }
  split; [rewrite Hc; apply take_drop|]. constructor; [|done]. rewrite length_take. simpl. lia.
Qed.

(** The chunks of an output put together again are the output; none is
    empty and each is one that a receiver accepts. *)
Theorem chunk_wire_bytes_correct (bytes : list byte) :
  concat (wire_bytes <$> chunk_wire_bytes bytes) = bytes /\
  Forall (fun w => wire_bytes w <> [] /\ new_wire_bytes (wire_bytes w) = Ok w) (chunk_wire_bytes bytes).
Proof.
  unfold chunk_wire_bytes. rewrite <- list_fmap_compose. unfold compose. simpl. rewrite list_fmap_id.
  destruct (chunks_spec (N.to_nat MAX_IO_CHUNK_BYTES) bytes (length bytes)) as [Hc Ha]; [unfold MAX_IO_CHUNK_BYTES; lia|done|].
  split; [done|]. apply Forall_fmap. eapply list.Forall_impl; [exact Ha|]. intros c [H0 H1]. simpl. split; [by destruct c; simpl in *; [lia|]|].
  unfold new_wire_bytes. destruct (N.ltb_spec MAX_IO_CHUNK_BYTES (N.of_nat (length c))); [lia|done].
Qed.

(** ** Launches *)

Definition executable_authorized (v : ValidatedCatalogSnapshot) (r : ExecutionPolicyRequest) (p : ValidatedExecutionPolicy)
    (executable : ExecutableRef) : Prop :=
  match executable with
  | ExecutableRef.HostCommand command => req_access r = ExecutionAccess.Full /\ valid_wire_text command = true
  | ExecutableRef.ManagedTool tool =>
      req_access r <> ExecutionAccess.Full /\ tool ∈ req_activated_tools r /\
      exists record, bt_get (tool_str tool) (records v) = Some record /\ bs_contains (tool_str tool) (revoked_tools v) = false /\
        bt_get (tool_str tool) (tools (prepared_catalog p)) = Some (prepare (tool_str tool) record)
  end.

Section launches.
Context `{WorkspaceIdentityResolver} `{AuditDigest} (v : ValidatedCatalogSnapshot) (r : ExecutionPolicyRequest).
Context (p : ValidatedExecutionPolicy) (Hp : policy_ok v r p).

Lemma executable_sound executable arguments cwd :
  validate_launch_text executable arguments cwd = Ok tt -> validate_executable executable p = Ok tt ->
  executable_authorized v r p executable.
Proof using Hp.
  destruct (po_request _ _ _ Hp) as (Hacc & _). unfold validate_launch_text, validate_executable. rewrite !ensure_ok.
  destruct executable as [tool|command]; simpl.
  - intros _ [Ha Hr]%andb_prop. rewrite negb_true_iff, bool_decide_eq_false in Ha. split; [congruence|].
    destruct (po_tools _ _ _ Hp) as (ids & Hact & Hids).
    destruct (activation_exact v ids) as [(c & Hc & _ & _ & Hroots & Hdom & Htool & Happ)|(id & He & _)]; [|congruence].
    rewrite Hact in Hc. injection Hc as <-. apply Hroots in Hr.
    assert (Hreach : reachable v ids (tool_str tool)) by (exists (tool_str tool); split; [done|constructor]).
    apply list_elem_of_fmap in Hr as (t & Ht & Hin).
    assert (t = tool) as -> by (destruct t, tool; simpl in *; congruence).
    split; [by apply Hids|]. destruct (Happ _ Hreach) as [Hrev _]. apply Hdom in Hreach as [prepared Hpre].
    destruct (Htool _ _ Hpre) as (record & Hrec & ->). by exists record.
  - intros Ht Hf. apply bool_decide_eq_true in Hf. split; [congruence|].
    apply andb_prop in Ht as [Ht _]. by apply andb_prop in Ht as [Ht _].
Qed.
End launches.

Lemma surface_ok actual expected surface p : ensure_surface_session actual expected surface p = Ok tt <->
  actual = expected /\ allows surface p = true.
Proof. unfold ensure_surface_session, ensure_session. by rewrite bind_unit, !ensure_ok, bool_decide_eq_true. Qed.

(** A process launch that passes the check of its session is within the
    policy's request, and so within the catalog: the session and the surface
    are right; a managed tool was requested, is approved, is not revoked, and
    is prepared from its record; host commands need full access; the
    environment has an effective form; the timeout and the sum of both output
    limits, which does not overflow, are within the resource limits. *)
Theorem launch_authorized `{WorkspaceIdentityResolver} `{AuditDigest}
    (v : ValidatedCatalogSnapshot) (r : ExecutionPolicyRequest) (p : ValidatedExecutionPolicy)
    (session : SessionId) (launch : ProcessLaunchRequest) :
  validate_policy v r = Ok p ->
  validate_against session p (BrokerRequest.ProcessStart launch) = Ok tt ->
  pl_session_id launch = session /\ req_allow_process r = true /\
  executable_authorized v r p (pl_executable launch) /\
  (exists e, resolve_launch_environment p (pl_environment launch) = Ok e) /\
  (0 < timeout_ms launch)%N /\ (stdout_max_bytes launch + stderr_max_bytes launch < 2 ^ 64)%N /\
  forall l, req_resource_limits r = Some l ->
    (timeout_ms launch <= wall_time_ms l /\ stdout_max_bytes launch + stderr_max_bytes launch <= captured_output_bytes l)%N.
Proof.
  intros Hp%validated_policy. destruct (po_request _ _ _ Hp) as (_ & Hproc & _ & Hlim). unfold validate_against.
  rewrite bind_unit. cbn [validate_local]. unfold validate_process_launch_local. rewrite bind_unit. intros [[Htext Htime] Hok].
  apply bind_unit in Hok as [[Hs Ha]%surface_ok Hok]. apply bind_unit in Hok as [Hexe Hok].
  apply bind_ok in Hok as (e & He & Hok). apply bind_ok in Hok as (total & Ht & Hok).
  unfold checked_add_u64 in Ht. destruct (N.ltb_spec (stdout_max_bytes launch + stderr_max_bytes launch) (2 ^ 64)); [|done].
  injection Ht as <-. destruct (N.eqb_spec (timeout_ms launch) 0); [done|].
  split_and!; try done; [by rewrite <- Hproc|by eapply executable_sound|by exists e|lia|].
  intros l Hl. rewrite Hlim, Hl in Hok. destruct (_ || _) eqn:E; [done|]. apply orb_false_iff in E as [E1 E2].
  by apply N.ltb_ge in E1, E2.
Qed.

(** ** What an honest broker says *)

Lemma bs_of_list_wf l : bt_wf (bs_of_list l).
Proof.
  unfold bs_of_list. assert (Hw : bt_wf (@nil (string * unit))) by constructor. revert Hw. generalize (@nil (string * unit)).
  induction l as [|k l IH]; intros s Hs; simpl; [done|]. apply IH. by apply bt_insert_wf.
Qed.

Lemma elements_increasing (s : bset) : bt_wf s -> increasing tool_compare (mkToolId <$> bs_elements s) = true.
Proof.
  unfold bt_wf, bs_elements. generalize (bt_keys s). intros l. clear s. induction l as [|a l IH]; [done|].
  intros [Hs Hf]%StronglySorted_inv. specialize (IH Hs). destruct l as [|b l]; [done|].
  apply Forall_cons_1 in Hf as [Hab _]. cbn [fmap list_fmap increasing] in *. unfold tool_compare at 1. simpl.
  unfold key_lt in Hab. by rewrite Hab.
Qed.

Lemma records_increasing (m : btree CatalogRecord) : bt_wf m -> Forall (fun kr => tool_str (tool_id kr.2) = kr.1) m ->
  increasing public_compare (public_record <$> bt_values m) = true.
Proof.
  unfold bt_wf. induction m as [|[k t] m IH]; [done|]. intros [Hs Hf]%StronglySorted_inv [Hk Hall]%Forall_cons_1.
  specialize (IH Hs Hall). destruct m as [|[k' t'] m]; [done|]. cbn [bt_values fmap list_fmap increasing] in *.
  apply Forall_cons_1 in Hall as [Hk' _]. simpl in Hf. apply Forall_cons_1 in Hf as [Hlt _].
  unfold public_compare at 1, tool_compare at 1. simpl in *. rewrite Hk, Hk'. unfold key_lt in Hlt. by rewrite Hlt.
Qed.

(** The edges between public records are those of the catalog. *)
Lemma catalog_projection v : well_formed v -> projection (public_record <$> bt_values (records v)).
Proof.
  intros Hwf. pose proof (wf_headers v Hwf) as Hh. rewrite list.Forall_forall in Hh.
  assert (Hget : forall t, t ∈ public_record <$> bt_values (records v) -> exists record,
    bt_get (tool_str (public_tool_id t)) (records v) = Some record /\ t = public_record record).
  { intros t (record & -> & Ht)%list_elem_of_fmap. exists record. split; [|done]. unfold bt_values in Ht.
    apply list_elem_of_fmap in Ht as ([k record'] & -> & Hin). simpl. destruct (Hh _ Hin) as [Hid _]. simpl in Hid. rewrite Hid.
    by apply bt_elem_get; [apply (wf_keys v)|]. }
  assert (Hedge : forall a b, helper_edge (public_record <$> bt_values (records v)) a b -> edge (records v) (tool_str a) (tool_str b)).
  { intros a b (t & Ht & Ha & Hb). destruct (Hget t Ht) as (record & Hr & ->). simpl in *. subst a. exists record. split; [done|].
    unfold helper_names. apply list_elem_of_fmap in Hb as (r0 & -> & Hb). by apply (list_elem_of_fmap_2 (fun r => tool_str (ref_tool_id r))). }
  split.
  - apply records_increasing; [apply Hwf|]. apply list.Forall_forall. intros kr Hin. by destruct (Hh kr Hin).
  - apply list.Forall_forall. intros t Ht. destruct (Hget t Ht) as (record & Hr & ->). simpl.
    pose proof (wf_records v Hwf) as Hrec. rewrite list.Forall_forall in Hrec.
    specialize (Hrec record (bt_get_values _ _ _ Hr)). apply helpers_increasing; apply Hrec.
  - intros a b Hab. apply Hedge in Hab as (record & Hr & Hb). unfold helper_names in Hb.
    apply list_elem_of_fmap in Hb as (reference & Heq & Hb). pose proof (wf_references v Hwf) as Hs. unfold sound_references in Hs.
    rewrite list.Forall_forall in Hs. specialize (Hs record (bt_get_values _ _ _ Hr)). rewrite list.Forall_forall in Hs.
    destruct (Hs _ Hb) as (_ & helper & Hg & _). exists (public_record helper).
    split; [apply list_elem_of_fmap_2; by eapply bt_get_values|]. simpl. rewrite <- Heq in Hg.
    assert (Hin : (tool_str b, helper) ∈ records v) by (by apply bt_get_In).
    destruct (Hh _ Hin) as [Hid _]. simpl in Hid. destruct (tool_id helper), b. simpl in *. congruence.
  - intros a Hp. apply (wf_acyclic v Hwf (tool_str a)).
    assert (Hmap : forall x y, tc (helper_edge (public_record <$> bt_values (records v))) x y -> tc (edge (records v)) (tool_str x) (tool_str y)).
    { induction 1 as [x y Hxy|x y z Hxy _ IH]; [apply tc_once, Hedge, Hxy|]. eapply tc_l; [apply Hedge, Hxy|done]. }
    by apply Hmap.
Qed.

Lemma validate_revoked `{CatalogPathNormalizer} s v : validate s = Ok v -> revoked_tools v = bs_of_list (tool_str <$> snap_revoked_tools s).
Proof.
  unfold validate. destruct (snap_schema_version s =? CATALOG_SCHEMA_V1)%N; [|done]. simpl.
  destruct (insert_records _ _ [] (snap_records s)) as [m| | |]; try done. simpl.
  destruct (validate_records _ [] m) as [m'| | |]; try done. simpl.
  destruct (validate_helper_graph m' _) as [[]| | |]; try done. simpl. by intros [= <-].
Qed.

Lemma projection_accepted {Er : Type} l : projection l -> public_tool_projection_valid (E := Er) l = Ok true.
Proof. intros Hl. destruct (projection_exact (Er := Er) l) as (b & -> & Hb). f_equal. by apply Hb. Qed.

(** The context an audit record would carry for the same capabilities. *)
Definition capabilities_context (c : ConfirmedExecutionCapabilities) : AuditContext :=
  mkContext (cap_session_id c) (cap_policy_digest c) (cap_access c) (cap_enforcement c) (cap_backend c) (cap_broker_protocol c)
    (cap_workspace c) (cap_scratch_id c) (cap_catalog_generation c) (cap_tools c) (cap_destinations c) (cap_resource_limits c).

Lemma capabilities_as_context c :
  validate_capabilities c = Ok tt <-> cap_broker_protocol c = PROTOCOL_V1 /\ validate_context (capabilities_context c) = Ok tt.
Proof.
  unfold validate_capabilities, validate_context. cbn [capabilities_context ctx_access ctx_enforcement ctx_workspace ctx_resource_limits ctx_tools ctx_destinations].
  destruct (projection_exact (Er := SandboxError) (cap_tools c)) as (b & -> & _). cbn [rbind]. rewrite ensure_ok, !andb_true_iff, N.eqb_eq.
  change (access_fields_valid (capabilities_context c)) with (cap_access_fields_valid c).
  change (fun w => valid_wire_text (workspace_root w)) with audit_workspace_valid.
  destruct (cap_access_fields_valid c), (access_enforcement_valid (cap_access c) (cap_enforcement c)),
    (limits_valid (cap_resource_limits c)), b, (increasing destination_compare (cap_destinations c)),
    (cap_workspace c) as [w|]; simpl; unfold audit_workspace_valid, valid_wire_text;
    try destruct (_ && _); simpl; naive_solver.
Qed.

(** C40: what an honest broker says is accepted.  The public view of a
    validated catalog passes the check of its receiver, and the capabilities
    confirmed for a policy over it are made, and pass, exactly when the
    enforcement state fits the access level and the protocol is version 1. *)
Theorem broker_replies_accepted `{CatalogPathNormalizer} `{WorkspaceIdentityResolver} `{AuditDigest}
    (s : CatalogSnapshot) (v : ValidatedCatalogSnapshot) (r : ExecutionPolicyRequest) (p : ValidatedExecutionPolicy)
    (session : SessionId) (scratch : ScratchId) (backend : BackendIdentity) (broker_protocol : N) (enforcement : EnforcementState) :
  validate s = Ok v -> validate_policy v r = Ok p ->
  validate_response (BrokerResponse.PublicCatalog (public_snapshot v)) = Ok tt /\
  if access_enforcement_valid (policy_access p) enforcement && (broker_protocol =? 1)%N
  then exists c, new_capabilities session scratch backend broker_protocol enforcement p = Ok c /\
         validate_response (BrokerResponse.SessionCreated c) = Ok tt
  else new_capabilities session scratch backend broker_protocol enforcement p = Err protocol_error.
Proof.
  intros Hv Hp%validated_policy. pose proof (validate_revoked _ _ Hv) as Hrev. apply validated_catalog in Hv as [Hwf _].
  split.
  - simpl. unfold validate_public_catalog. pose proof (catalog_projection v Hwf) as Hproj.
    cbn [public_snapshot pub_schema_version pub_records pub_revoked_tools].
    rewrite (pr_increasing _ Hproj), (projection_accepted _ Hproj), (wf_schema v Hwf), Hrev, elements_increasing by apply bs_of_list_wf.
    cbn [andb N.eqb CATALOG_SCHEMA_V1 Pos.eqb]. rewrite (proj2 (forallb_forall _ _)); [done|].
    intros t Ht%list_elem_of_In. apply forallb_forall. intros h Hh%list_elem_of_In. apply negb_true_iff, bool_decide_eq_false.
    apply list_elem_of_fmap in Ht as (record & -> & Ht). simpl in Hh. apply list_elem_of_fmap in Hh as (reference & -> & Hr).
    pose proof (wf_references v Hwf) as Hs. unfold sound_references in Hs. rewrite list.Forall_forall in Hs. specialize (Hs record Ht).
    rewrite list.Forall_forall in Hs. destruct (Hs _ Hr) as [Hn _].
    intros (name & Heq & Hin)%list_elem_of_fmap. apply bs_contains_spec in Hin. rewrite Heq in Hn. simpl in Hn. congruence.
  - unfold new_capabilities. set (c := mkCapabilities _ _ _ _ _ _ _ _ _ _ _ _).
    assert (Hc : capabilities_context c = policy_context session scratch backend broker_protocol enforcement p) by done.
    destruct (_ && _) eqn:E.
    + apply andb_prop in E as [Ea Eb%N.eqb_eq]. exists c.
      assert (Hok : validate_capabilities c = Ok tt) by (apply capabilities_as_context; rewrite Hc; split; [done|by eapply policy_context_valid]).
      split; [|done]. unfold validate_capabilities_against_policy. rewrite Hok. cbn [rbind].
      cbn [c cap_access cap_policy_digest cap_workspace cap_catalog_generation cap_tools cap_destinations cap_resource_limits].
      by rewrite !bool_decide_eq_true_2.
    + unfold validate_capabilities_against_policy, validate_capabilities.
      cbn [c cap_access cap_enforcement cap_tools cap_destinations cap_workspace cap_resource_limits cap_broker_protocol].
      rewrite (projection_accepted _ (policy_projection _ _ _ Hwf Hp)). cbn [rbind]. unfold PROTOCOL_V1.
      destruct (broker_protocol =? 1)%N; [|done]. rewrite andb_true_r in E. rewrite E, andb_false_r. done.
Qed.

(** ** Correlation *)

Inductive correlation_op : Type :=
  | RecordHandshake (id : N) (r : HandshakeRequest) (channel : AuthenticatedChannelContext)
  | RecordRequest (id : N) (r : BrokerRequest)
  | Complete (id : N) (r : BrokerResponse).

Definition op_id (o : correlation_op) : N :=
  match o with RecordHandshake id _ _ | RecordRequest id _ | Complete id _ => id end.

Definition apply_op (o : correlation_op) (c : ResponseCorrelation) : result unit * ResponseCorrelation :=
  match o with
  | RecordHandshake id r channel => record_handshake id r channel c
  | RecordRequest id r => record_request id r c
  | Complete id r => validate_and_complete id r c
  end.

(** The operations with their outcomes, the latest first. *)
Abbreviation history := (list (correlation_op * result unit)).

Definition apply_logged (o : correlation_op) (hc : history * ResponseCorrelation) : history * ResponseCorrelation :=
  let '(outcome, c) := apply_op o hc.2 in ((o, outcome) :: hc.1, c).

Definition run_ops (ops : list correlation_op) : history * ResponseCorrelation :=
  foldl (fun hc o => apply_logged o hc) ([], new_correlation) ops.

(** What an accepted request asks of its response. *)
Definition asks (o : correlation_op) : option OutstandingRequest :=
  match o with
  | RecordHandshake _ r channel =>
      Some (Outstanding.Handshake (mkExpectation (supported_protocol_versions r) (hs_connection_nonce r)
              (channel_peer channel) (channel_binding channel)))
  | RecordRequest _ r => Some (Outstanding.Ordinary (request_kind r))
  | Complete _ _ => None
  end.

(** Request [id] waits: the latest operation on it that succeeded was its
    recording. *)
Inductive waits : history -> N -> OutstandingRequest -> Prop :=
  | waits_recorded h o out : asks o = Some out -> waits ((o, Ok tt) :: h) (op_id o) out
  | waits_still h o outcome id out : waits h id out -> op_id o <> id \/ outcome <> Ok tt -> waits ((o, outcome) :: h) id out.

(** An operation fails and changes nothing, or succeeds and changes its own
    request only. *)
Lemma insert_outstanding_spec id out c :
  match insert_outstanding id out c with
  | (Ok _, c') => outstanding c !! id = None /\ outstanding c' = <[id := out]> (outstanding c)
  | (e, c') => c' = c /\ is_Some (outstanding c !! id) /\ e = Err protocol_error
  end.
Proof. unfold insert_outstanding. destruct (outstanding c !! id) eqn:E; [by split_and!|done]. Qed.

Lemma apply_op_spec o c :
  match apply_op o c with
  | (Ok _, c') =>
      match asks o with
      | Some out => outstanding c !! op_id o = None /\ outstanding c' = <[op_id o := out]> (outstanding c)
      | None => is_Some (outstanding c !! op_id o) /\ outstanding c' = delete (op_id o) (outstanding c)
      end
  | (_, c') => c' = c
  end.
Proof.
  destruct o as [id r channel|id r|id r]; cbn [apply_op op_id asks].
  - unfold record_handshake. destruct (validate_channel channel r) as [[]| | |]; try done.
    pose proof (insert_outstanding_spec id (Outstanding.Handshake (mkExpectation (supported_protocol_versions r)
      (hs_connection_nonce r) (channel_peer channel) (channel_binding channel))) c) as Hs.
    destruct (insert_outstanding id _ c) as [[[]| | |] c']; by try apply Hs.
  - unfold record_request. pose proof (insert_outstanding_spec id (Outstanding.Ordinary (request_kind r)) c) as Hs.
    destruct r; try done; destruct (validate_local _) as [[]| | |]; try done;
      destruct (insert_outstanding id _ c) as [[[]| | |] c']; by try apply Hs.
  - unfold validate_and_complete. destruct (validate_response r) as [[]| | |]; try done.
    destruct (outstanding c !! id) as [out|] eqn:E; [|done]. destruct (outstanding_accepts out r); [|done]. by split.
Qed.

Lemma waits_agree h c o : (forall id out, outstanding c !! id = Some out <-> waits h id out) ->
  let '(h', c') := apply_logged o (h, c) in forall id out, outstanding c' !! id = Some out <-> waits h' id out.
Proof.
  intros Hag. unfold apply_logged. simpl. pose proof (apply_op_spec o c) as Hs. destruct (apply_op o c) as [outcome c'].
  intros id out. assert (Hd : op_id o = id /\ outcome = Ok tt \/ (op_id o <> id \/ outcome <> Ok tt)).
  { destruct outcome as [[]| | |], (decide (op_id o = id)); naive_solver. }
  destruct Hd as [[<- ->]|Hn].
  - destruct (asks o) as [out'|] eqn:Ea; destruct Hs as [_ ->].
    + rewrite lookup_insert_eq. split; [intros [= <-]; by constructor|].
      intros Hw. inversion Hw; subst; [congruence|naive_solver].
    + rewrite lookup_delete_eq. split; [done|]. intros Hw. inversion Hw; subst; [congruence|naive_solver].
  - assert (Hc : outstanding c' !! id = outstanding c !! id).
    { destruct outcome as [[]| | |]; try (by subst).
      assert (op_id o <> id) as Hne by naive_solver.
      destruct (asks o); destruct Hs as [_ ->]; [by rewrite lookup_insert_ne|by rewrite lookup_delete_ne]. }
    rewrite Hc, Hag. split.
    + intros Hw. by constructor.
    + intros Hw. inversion Hw; subst; [naive_solver|done].
Qed.

Lemma run_ops_agree ops h c : run_ops ops = (h, c) -> forall id out, outstanding c !! id = Some out <-> waits h id out.
Proof.
  unfold run_ops. intros Hrun. assert (Hind : forall ops h0 c0, (forall id out, outstanding c0 !! id = Some out <-> waits h0 id out) ->
    foldl (fun hc o => apply_logged o hc) (h0, c0) ops = (h, c) -> forall id out, outstanding c !! id = Some out <-> waits h id out).
  { clear. induction ops as [|o ops IH]; intros h0 c0 H0; simpl; [by intros [= <- <-]|].
    pose proof (waits_agree h0 c0 o H0) as Hag. destruct (apply_logged o (h0, c0)) as [h1 c1]. by apply IH. }
  eapply Hind; [|exact Hrun]. intros id out. simpl. rewrite lookup_empty. split; [done|]. intros Hw. inversion Hw.
Qed.

Lemma record_request_ok id r c : (record_request id r c).1 = Ok tt <->
  request_kind r <> RequestKind.Handshake /\ validate_local r = Ok tt /\ outstanding c !! id = None.
Proof.
  assert (Hins : forall out, (insert_outstanding id out c).1 = Ok tt <-> outstanding c !! id = None)
    by (intros out; unfold insert_outstanding; by destruct (outstanding c !! id)).
  unfold record_request. destruct r; try (split; [done|by intros []]);
    destruct (validate_local _) as [[]| | |]; try (split; [done|by intros (? & ? & ?)]); rewrite Hins; naive_solver.
Qed.

(** After any sequence of operations, a response is accepted exactly when
    it is valid and answers the request that waits under its number: one that
    was recorded and not completed since.  So no response is accepted twice,
    or without a request.  A request is recorded exactly when it is valid in
    itself and none waits under its number; and a refusal changes nothing. *)
Theorem correlation_correct (ops : list correlation_op) (h : history) (c : ResponseCorrelation) (id : N)
    (request : BrokerRequest) (response : BrokerResponse) :
  run_ops ops = (h, c) ->
  ((validate_and_complete id response c).1 = Ok tt <->
     validate_response response = Ok tt /\ exists out, waits h id out /\ outstanding_accepts out response = true) /\
  ((record_request id request c).1 = Ok tt <->
     request_kind request <> RequestKind.Handshake /\ validate_local request = Ok tt /\ ~ exists out, waits h id out) /\
  forall o outcome c', apply_op o c = (outcome, c') -> outcome <> Ok tt -> c' = c.
Proof.
  intros Hrun. pose proof (run_ops_agree ops h c Hrun) as Hag. split_and!.
  - unfold validate_and_complete. destruct (validate_response response) as [[]| | |]; try (split; [done|by intros []]).
    destruct (outstanding c !! id) as [out|] eqn:E.
    + apply Hag in E as Hw. destruct (outstanding_accepts out response) eqn:Eo.
      * split; [|done]. intros _. split; [done|]. by exists out.
      * split; [done|]. intros [_ (out' & Hw' & Ha)]. apply Hag in Hw'. congruence.
    + split; [done|]. intros [_ (out' & Hw' & Ha)]. apply Hag in Hw'. congruence.
  - rewrite record_request_ok. assert (Hnone : outstanding c !! id = None <-> ~ exists out, waits h id out).
    { destruct (outstanding c !! id) as [out|] eqn:E; split; try done.
      - intros []. exists out. by apply Hag.
      - intros _ (out & Hw). apply Hag in Hw. congruence. }
    by rewrite Hnone.
  - intros o outcome c' Ho Hn. pose proof (apply_op_spec o c) as Hs. rewrite Ho in Hs. by destruct outcome as [[]| | |].
Qed.

(** Which surface a request, and the subject of an operation error, is about. *)
Definition kind_surface (k : BrokerRequestKind) : option ExecutionSurface :=
  match k with
  | RequestKind.ProcessStart | RequestKind.ProcessList | RequestKind.ProcessDetail | RequestKind.ProcessRead
  | RequestKind.ProcessWrite | RequestKind.ProcessCancel | RequestKind.ProcessRelease => Some ExecutionSurface.Process
  | RequestKind.PtyStart | RequestKind.PtyList | RequestKind.PtyDetail | RequestKind.PtyRead | RequestKind.PtyWrite
  | RequestKind.PtyResize | RequestKind.PtyStop | RequestKind.PtyRelease => Some ExecutionSurface.Pty
  | _ => None
  end.

Definition subject_surface (s : OperationSubject) : ExecutionSurface :=
  match s with
  | OpSubject.Process _ => ExecutionSurface.Process
  | OpSubject.Pty _ => ExecutionSurface.Pty
  | OpSubject.Registry s => s
  end.

(** An operation error that answers a request is about the surface of the
    request, and is one of those the constructor makes. *)
Theorem operation_error_surface (kind : BrokerRequestKind) (e : OperationError) :
  validate_response (BrokerResponse.OperationError e) = Ok tt ->
  response_allowed kind (BrokerResponse.OperationError e) = true ->
  kind_surface kind = Some (subject_surface (subject e)) /\ new_operation_error (op_code e) (subject e) = Ok e.
Proof.
  destruct e as [c s m]. simpl. intros Hv Ha. unfold new_operation_error. cbn [op_code subject].
  unfold validate_operation_error in *. cbn [op_code subject op_message] in *. rewrite ensure_ok in Hv.
  apply andb_prop in Hv as [Hs Hm%String.eqb_eq]. subst m. rewrite Hs, String.eqb_refl. split; [|done].
  unfold operation_error_allowed in Ha. cbn [op_code subject] in Ha.
  destruct kind; try (destruct s as [| |[]]; done); destruct s as [| |[]]; destruct c; done.
Qed.

(** ** Examples *)

Definition sample_launch : ProcessLaunchRequest :=
  mkProcessLaunch (mkSessionId "s") (ExecutableRef.ManagedTool (mkToolId "git")) ["status"] (Some "/work") false
    (mkLaunchEnvironment true [mkVariable "X" "1"]) 4 3 3.

Lemma launch_authorized_witness :
  exists v p, validate (H := same_path) sample_snapshot = Ok v /\
    validate_policy (H := sample_resolver) (H0 := sample_digest) v sample_request = Ok p /\
    validate_against (mkSessionId "s") p (BrokerRequest.ProcessStart sample_launch) = Ok tt /\
    executable_authorized v sample_request p (pl_executable sample_launch).
Proof.
  eexists _, _. split; [vm_compute; reflexivity|]. split; [vm_compute; reflexivity|]. split; [vm_compute; reflexivity|].
  eapply (launch_authorized (H := sample_resolver) (H0 := sample_digest) _ sample_request _ (mkSessionId "s") sample_launch);
    vm_compute; reflexivity.
Defined.

(** A command of the host is refused under constrained access, and so is an
    output limit above the session's. *)
Example launch_refused :
  exists v p, validate (H := same_path) sample_snapshot = Ok v /\
    validate_policy (H := sample_resolver) (H0 := sample_digest) v sample_request = Ok p /\
    validate_against (mkSessionId "s") p (BrokerRequest.ProcessStart (mkProcessLaunch (mkSessionId "s")
      (ExecutableRef.HostCommand "sh") [] None false (mkLaunchEnvironment true []) 4 3 3)) = Err protocol_error /\
    validate_against (mkSessionId "s") p (BrokerRequest.ProcessStart (mkProcessLaunch (mkSessionId "s")
      (ExecutableRef.ManagedTool (mkToolId "git")) [] None false (mkLaunchEnvironment true []) 4 3 4)) = Err protocol_error.
Proof. eexists _, _. split; [vm_compute; reflexivity|]. split; [vm_compute; reflexivity|]. split; vm_compute; reflexivity. Qed.

Lemma broker_replies_accepted_witness :
  let capabilities p := new_capabilities (mkSessionId "s") (mkScratchId "x") (mkBackendIdentity "mock" "1") 1 EnforcementState.Enforced p in
  exists v p, validate (H := same_path) sample_snapshot = Ok v /\
    validate_policy (H := sample_resolver) (H0 := sample_digest) v sample_request = Ok p /\
    validate_response (BrokerResponse.PublicCatalog (public_snapshot v)) = Ok tt /\
    if access_enforcement_valid (policy_access p) EnforcementState.Enforced && (1 =? 1)%N
    then exists c, capabilities p = Ok c /\ validate_response (BrokerResponse.SessionCreated c) = Ok tt
    else capabilities p = Err protocol_error.
Proof.
  intros capabilities. eexists _, _. split; [vm_compute; reflexivity|]. split; [vm_compute; reflexivity|].
  eapply (broker_replies_accepted (H := same_path) (H0 := sample_resolver) (H1 := sample_digest) sample_snapshot _ sample_request _
           (mkSessionId "s") (mkScratchId "x") (mkBackendIdentity "mock" "1") 1 EnforcementState.Enforced); vm_compute; reflexivity.
Defined.

Lemma correlation_correct_witness :
  let ops := [RecordRequest 7 BrokerRequest.Ping; Complete 8 BrokerResponse.Pong; RecordRequest 7 BrokerRequest.Ping] in
  let '(h, c) := run_ops ops in
  h = [(RecordRequest 7 BrokerRequest.Ping, Err protocol_error); (Complete 8 BrokerResponse.Pong, Err protocol_error);
       (RecordRequest 7 BrokerRequest.Ping, Ok tt)] /\
  ((validate_and_complete 7 BrokerResponse.Pong c).1 = Ok tt <->
     validate_response BrokerResponse.Pong = Ok tt /\ exists out, waits h 7 out /\ outstanding_accepts out BrokerResponse.Pong = true).
Proof.
  intros ops. destruct (run_ops ops) as [h c] eqn:E. split; [by vm_compute in E; injection E as <- _|].
  exact (proj1 (correlation_correct ops h c 7 BrokerRequest.Ping BrokerResponse.Pong E)).
Defined.

Lemma operation_error_surface_witness :
  let e := mkOperationError OpCode.RegistryFull (OpSubject.Registry ExecutionSurface.Pty) "sandbox execution registry is full" in
  validate_response (BrokerResponse.OperationError e) = Ok tt /\
  response_allowed RequestKind.PtyStart (BrokerResponse.OperationError e) = true /\
  kind_surface RequestKind.PtyStart = Some (subject_surface (subject e)).
Proof.
  intros e. split; [reflexivity|]. split; [reflexivity|].
  exact (proj1 (operation_error_surface RequestKind.PtyStart e eq_refl eq_refl)).
Defined.
