(* ===== verification/SandboxSession.v ===== *)
(** * Sessions of a sandbox backend (backend.rs, mock.rs)

    The commands of a session, and the backend that the crate brings with it:
    a deterministic state machine of processes and terminals that answers
    every command, keeps the life cycle and writes the audit trail, without
    starting anything.  An operation that fails may leave the session changed:
    the session after it is part of its result. *)

From stdpp Require Import base tactics list strings option numbers gmap.
From Stdlib Require Import ZArith NArith Lia Ascii String.
From S2P Require Import Prelude RustStr RustText BTree SandboxError SandboxIdentity SandboxCatalog SandboxDestination SandboxPolicy SandboxAudit.
From S2P Require Import SandboxMessage SandboxProtocol.

Open Scope string_scope.
Open Scope list_scope.
Open Scope nat_scope.

(** ** Backends *)

Record BackendCapabilities : Type := mkBackendCapabilities {
  can_process : bool; can_pty : bool; filesystem_read : bool; filesystem_write : bool; executable_closure : bool;
  descendant_confinement : bool; destination_transport : bool; resource_limits : bool; scratch_isolation : bool }.

Definition supports_complete_contract (c : BackendCapabilities) : bool :=
  can_process c && can_pty c && filesystem_read c && filesystem_write c && executable_closure c
  && descendant_confinement c && destination_transport c && resource_limits c && scratch_isolation c.

Record BackendSelfTestFailure : Type := mkSelfTestFailure {
  feature : BackendFeatureId; guarantee : FailedGuarantee; failure_remediation : option Remediation }.

Record BackendSelfTest : Type := mkSelfTest {
  self_test_identity : BackendIdentity; capabilities : BackendCapabilities; production_enforcement : bool;
  self_test_failures : list BackendSelfTestFailure }.

Module SessionCommand.
Inductive SessionCommand : Type :=
  | Close (r : SessionRequest) | Cancel (r : CancelSessionRequest)
  | ProcessStart (r : ProcessLaunchRequest) | ProcessList (r : SessionRequest) | ProcessDetail (r : ProcessRequest)
  | ProcessRead (r : ProcessReadRequest) | ProcessWrite (r : ProcessWriteRequest) | ProcessCancel (r : ProcessRequest)
  | ProcessRelease (r : ProcessRequest)
  | PtyStart (r : PtyLaunchRequest) | PtyList (r : SessionRequest) | PtyDetail (r : PtyRequest) | PtyRead (r : PtyReadRequest)
  | PtyWrite (r : PtyWriteRequest) | PtyResize (r : PtyResizeRequest) | PtyStop (r : PtyRequest) | PtyRelease (r : PtyRequest).
End SessionCommand.
Abbreviation SessionCommand := SessionCommand.SessionCommand.

Definition command_session_id (c : SessionCommand) : SessionId :=
  match c with
  | SessionCommand.Close r | SessionCommand.ProcessList r | SessionCommand.PtyList r => sr_session_id r
  | SessionCommand.Cancel r => cancel_session_id r
  | SessionCommand.ProcessStart r => pl_session_id r
  | SessionCommand.ProcessDetail r | SessionCommand.ProcessCancel r | SessionCommand.ProcessRelease r => pr_session_id r
  | SessionCommand.ProcessRead r => rd_session_id r
  | SessionCommand.ProcessWrite r => wr_session_id r
  | SessionCommand.PtyStart r => ptl_session_id r
  | SessionCommand.PtyDetail r | SessionCommand.PtyStop r | SessionCommand.PtyRelease r => pt_session_id r
  | SessionCommand.PtyRead r => ptr_session_id r
  | SessionCommand.PtyWrite r => ptw_session_id r
  | SessionCommand.PtyResize r => rs_session_id r
  end.

Definition try_from_request (r : BrokerRequest) : result SessionCommand :=
  match r with
  | BrokerRequest.CloseSession r => Ok (SessionCommand.Close r)
  | BrokerRequest.CancelSession r => Ok (SessionCommand.Cancel r)
  | BrokerRequest.ProcessStart r => Ok (SessionCommand.ProcessStart r)
  | BrokerRequest.ProcessList r => Ok (SessionCommand.ProcessList r)
  | BrokerRequest.ProcessDetail r => Ok (SessionCommand.ProcessDetail r)
  | BrokerRequest.ProcessRead r => Ok (SessionCommand.ProcessRead r)
  | BrokerRequest.ProcessWrite r => Ok (SessionCommand.ProcessWrite r)
  | BrokerRequest.ProcessCancel r => Ok (SessionCommand.ProcessCancel r)
  | BrokerRequest.ProcessRelease r => Ok (SessionCommand.ProcessRelease r)
  | BrokerRequest.PtyStart r => Ok (SessionCommand.PtyStart r)
  | BrokerRequest.PtyList r => Ok (SessionCommand.PtyList r)
  | BrokerRequest.PtyDetail r => Ok (SessionCommand.PtyDetail r)
  | BrokerRequest.PtyRead r => Ok (SessionCommand.PtyRead r)
  | BrokerRequest.PtyWrite r => Ok (SessionCommand.PtyWrite r)
  | BrokerRequest.PtyResize r => Ok (SessionCommand.PtyResize r)
  | BrokerRequest.PtyStop r => Ok (SessionCommand.PtyStop r)
  | BrokerRequest.PtyRelease r => Ok (SessionCommand.PtyRelease r)
  | BrokerRequest.Handshake _ | BrokerRequest.CreateSession _ | BrokerRequest.CatalogPublicSnapshot | BrokerRequest.Ping =>
      Err protocol_error
  end.

(** ** The state of a session *)

Module FailurePoint.
Inductive MockFailurePoint : Type := SelfTest | Prepare | Launch | Write | Resize | Cancel | Close | Revocation.
End FailurePoint.
Abbreviation MockFailurePoint := FailurePoint.MockFailurePoint.

(** The failures are a map that nothing changes.  The exit code is an [i64]. *)
Record MockBackendConfig : Type := mkConfig {
  failures : MockFailurePoint -> option SandboxError; scripted_exit_code : Z;
  scripted_stdout : list byte; scripted_stderr : list byte }.

Record MockProcess : Type := mkMockProcess {
  p_snapshot : ProcessSnapshot; p_stdout : list byte; p_stderr : list byte; p_stdin : list byte; p_tool_id : option ToolId }.

Record MockPty : Type := mkMockPty {
  t_snapshot : PtySnapshot; t_output : list byte; t_input : list byte; t_tool_id : option ToolId }.

Module MockExecution.
Inductive MockExecution : Type := Process (id : N) | Pty (id : N).
End MockExecution.
Abbreviation MockExecution := MockExecution.MockExecution.

(** The four counters are [u64]s. *)
Record MockSandboxSession : Type := mkSession {
  config : MockBackendConfig; session_id : SessionId; session_policy : ValidatedExecutionPolicy;
  session_capabilities : ConfirmedExecutionCapabilities; audit_context : AuditContext; lifecycle : SessionLifecycle;
  events : list BrokerEvent; next_timestamp : N; next_process_id : N; next_pty_id : N; next_process_tree_id : N;
  processes : gmap N MockProcess; ptys : gmap N MockPty; session_revoked_tools : bset }.

Definition set_lifecycle (l : SessionLifecycle) (s : MockSandboxSession) : MockSandboxSession :=
  mkSession (config s) (session_id s) (session_policy s) (session_capabilities s) (audit_context s) l (events s)
    (next_timestamp s) (next_process_id s) (next_pty_id s) (next_process_tree_id s) (processes s) (ptys s) (session_revoked_tools s).
Definition set_events (e : list BrokerEvent) (s : MockSandboxSession) : MockSandboxSession :=
  mkSession (config s) (session_id s) (session_policy s) (session_capabilities s) (audit_context s) (lifecycle s) e
    (next_timestamp s) (next_process_id s) (next_pty_id s) (next_process_tree_id s) (processes s) (ptys s) (session_revoked_tools s).
Definition set_next_timestamp (n : N) (s : MockSandboxSession) : MockSandboxSession :=
  mkSession (config s) (session_id s) (session_policy s) (session_capabilities s) (audit_context s) (lifecycle s) (events s)
    n (next_process_id s) (next_pty_id s) (next_process_tree_id s) (processes s) (ptys s) (session_revoked_tools s).
Definition set_next_process_id (n : N) (s : MockSandboxSession) : MockSandboxSession :=
  mkSession (config s) (session_id s) (session_policy s) (session_capabilities s) (audit_context s) (lifecycle s) (events s)
    (next_timestamp s) n (next_pty_id s) (next_process_tree_id s) (processes s) (ptys s) (session_revoked_tools s).
Definition set_next_pty_id (n : N) (s : MockSandboxSession) : MockSandboxSession :=
  mkSession (config s) (session_id s) (session_policy s) (session_capabilities s) (audit_context s) (lifecycle s) (events s)
    (next_timestamp s) (next_process_id s) n (next_process_tree_id s) (processes s) (ptys s) (session_revoked_tools s).
Definition set_next_process_tree_id (n : N) (s : MockSandboxSession) : MockSandboxSession :=
  mkSession (config s) (session_id s) (session_policy s) (session_capabilities s) (audit_context s) (lifecycle s) (events s)
    (next_timestamp s) (next_process_id s) (next_pty_id s) n (processes s) (ptys s) (session_revoked_tools s).
Definition set_processes (m : gmap N MockProcess) (s : MockSandboxSession) : MockSandboxSession :=
  mkSession (config s) (session_id s) (session_policy s) (session_capabilities s) (audit_context s) (lifecycle s) (events s)
    (next_timestamp s) (next_process_id s) (next_pty_id s) (next_process_tree_id s) m (ptys s) (session_revoked_tools s).
Definition set_ptys (m : gmap N MockPty) (s : MockSandboxSession) : MockSandboxSession :=
  mkSession (config s) (session_id s) (session_policy s) (session_capabilities s) (audit_context s) (lifecycle s) (events s)
    (next_timestamp s) (next_process_id s) (next_pty_id s) (next_process_tree_id s) (processes s) m (session_revoked_tools s).
Definition set_session_revoked_tools (b : bset) (s : MockSandboxSession) : MockSandboxSession :=
  mkSession (config s) (session_id s) (session_policy s) (session_capabilities s) (audit_context s) (lifecycle s) (events s)
    (next_timestamp s) (next_process_id s) (next_pty_id s) (next_process_tree_id s) (processes s) (ptys s) b.

(** The values of a [BTreeMap<u64, _>], in the order of the keys. *)
Definition values {A : Type} (m : gmap N A) : list A :=
  (sort_by (fun a b : N * A => N.compare a.1 b.1) (map_to_list m)).*2.

(** A method that takes [&mut self]: the session after it, also when it
    fails. *)
Abbreviation method := (smethod MockSandboxSession SandboxError).

(** ** Time stamps and counters *)

Definition counter_exhausted : SandboxError :=
  unavailable None FailedGuarantee.BrokerAvailability Remediation.RetryAfterBrokerRestart empty_metadata.

(** [a.checked_add(b).ok_or_else(counter_exhausted)] on [u64]s. *)
Definition counter_add (a b : N) : result N := if (a + b <? 2 ^ 64)%N then Ok (a + b)%N else Err counter_exhausted.

(** [u64::try_from(n)] for a length. *)
Definition u64_of_len (n : nat) : result N := if (N.of_nat n <? 2 ^ 64)%N then Ok (N.of_nat n) else Err counter_exhausted.

Record MockTimestampBatch : Type := mkBatch { cursor : N; remaining : N; batch_next : N }.

Definition new_batch (next_timestamp : N) (count : nat) : result MockTimestampBatch :=
  let? count := u64_of_len count in
  let? reserved_next := counter_add next_timestamp count in
  Ok (mkBatch next_timestamp count reserved_next).

(** The time stamp and the batch after it. *)
Definition batch_take (b : MockTimestampBatch) : result (N * MockTimestampBatch) :=
  if (remaining b =? 0)%N then Err counter_exhausted
  else
    let? next := counter_add (cursor b) 1 in
    Ok (cursor b, mkBatch next (remaining b - 1)%N (batch_next b)).

Definition batch_finish (b : MockTimestampBatch) : result N :=
  if (remaining b =? 0)%N && (cursor b =? batch_next b)%N then Ok (batch_next b) else Err counter_exhausted.

(** The reserved number and the next one. *)
Definition reserve_numeric_id (next_id : N) : result (N * N) :=
  let? reserved_next := counter_add next_id 1 in Ok (next_id, reserved_next).

Definition mock_wire_len (bytes : list byte) : result N := u64_of_len (length bytes).

Definition truncate_to_cap (bytes : list byte) (cap : N) : list byte :=
  take (N.to_nat (N.min (N.of_nat (length bytes)) cap)) bytes.

(** The chunk and the offset where it starts. *)
Definition read_chunk (bytes : list byte) (requested_offset max_bytes : N) : result (list byte * N) :=
  let? buffer_len := u64_of_len (length bytes) in
  let offset := N.min requested_offset buffer_len in
  let? end_ := counter_add offset max_bytes in
  let end_ := N.min end_ (N.of_nat (length bytes)) in
  Ok (take (N.to_nat (end_ - offset)) (drop (N.to_nat offset) bytes), offset).

Section session.
Implicit Types (s : MockSandboxSession).

Definition planned_audit (context : AuditContext) (timestamps : MockTimestampBatch) (event : AuditEventKind)
    : result (BrokerEvent * MockTimestampBatch) :=
  let? (at_, timestamps) := batch_take timestamps in
  Ok (BrokerEvent.Audit (mkAuditRecord at_ context event), timestamps).

Definition validate_request (request : BrokerRequest) : method unit := fun s =>
  (validate_against (session_id s) (session_policy s) request, s).

Definition operation_error (c : OperationErrorCode) (subject : OperationSubject) : result BrokerResponse :=
  let? e := new_operation_error c subject in Ok (BrokerResponse.OperationError e).

(** [if let Some(error) = self.config.failures.get(&point) { return Err(..) }]. *)
Definition injected (point : MockFailurePoint) : method unit := fun s =>
  (match failures (config s) point with Some error => Err error | None => Ok tt end, s).

Definition executable_tool (e : ExecutableRef) : option ToolId :=
  match e with ExecutableRef.ManagedTool tool_id => Some tool_id | ExecutableRef.HostCommand _ => None end.

Definition command_display (e : ExecutableRef) : string :=
  match e with
  | ExecutableRef.ManagedTool tool_id => "managed:" +:+ tool_str tool_id
  | ExecutableRef.HostCommand _ => "host:[REDACTED]"
  end.

(** The life cycle after a launch, and the event of its transition. *)
Definition launch_transition (transition_for_launch : bool) s (timestamps : MockTimestampBatch)
    : result (SessionLifecycle * list BrokerEvent * MockTimestampBatch) :=
  if transition_for_launch then
    let from := state (lifecycle s) in
    let '(r, next) := transition SessionState.Running (lifecycle s) in
    let? _ := r in
    let? (event, timestamps) :=
      planned_audit (audit_context s) timestamps (AuditEventKind.StateTransition from SessionState.Running) in
    Ok (next, [event], timestamps)
  else Ok (lifecycle s, [], timestamps).

(** ** Processes *)

Definition handle_process_start (request : ProcessLaunchRequest) : method BrokerResponse :=
  let^ _ := injected FailurePoint.Launch in
  let^ self := mself in
  let tool_id := executable_tool (pl_executable request) in
  let argument_count := N.of_nat (length (pl_arguments request)) in
  let transition_for_launch := bool_decide (state (lifecycle self) = SessionState.Ready) in
  let^ timestamps := mtry (new_batch (next_timestamp self) (if transition_for_launch then 4 else 3)) in
  let^ (launch_event, timestamps) := mtry (planned_audit (audit_context self) timestamps
    (AuditEventKind.LaunchRequested ExecutionSurface.Process tool_id argument_count)) in
  let^ (process_id, next_process_id) := mtry (reserve_numeric_id (next_process_id self)) in
  let^ (process_tree_id, next_process_tree_id) := mtry (reserve_numeric_id (next_process_tree_id self)) in
  let^ (started_at, timestamps) := mtry (batch_take timestamps) in
  let stdout := truncate_to_cap (scripted_stdout (config self)) (stdout_max_bytes request) in
  let stderr := truncate_to_cap (scripted_stderr (config self)) (stderr_max_bytes request) in
  let^ stdout_len := mtry (mock_wire_len stdout) in
  let^ stderr_len := mtry (mock_wire_len stderr) in
  let snapshot := mkProcessSnapshot process_id process_tree_id (command_display (pl_executable request))
    (pl_arguments request) argument_count (pl_cwd request) started_at ProcessStatus.Running true false None None
    stdout_len stderr_len (negb (length stdout =? length (scripted_stdout (config self))))
    (negb (length stderr =? length (scripted_stderr (config self)))) (pl_stdin_open request) false false in
  let^ _ := mtry (validate_process snapshot) in
  let^ (process_tree_event, timestamps) := mtry (planned_audit (audit_context self) timestamps
    (AuditEventKind.ProcessTreeStarted process_tree_id)) in
  let^ (next_lifecycle, transition_event, timestamps) := mtry (launch_transition transition_for_launch self timestamps) in
  let^ next_timestamp := mtry (batch_finish timestamps) in
  let^ _ := mset (set_next_timestamp next_timestamp) in
  let^ _ := mset (set_next_process_id next_process_id) in
  let^ _ := mset (set_next_process_tree_id next_process_tree_id) in
  let^ _ := mset (set_lifecycle next_lifecycle) in
  let^ _ := mset (fun s => set_processes (<[process_id := mkMockProcess snapshot stdout stderr [] tool_id]> (processes s)) s) in
  let^ _ := mset (fun s => set_events (events s ++ [launch_event; process_tree_event] ++ transition_event) s) in
  mok (BrokerResponse.Process snapshot).

Definition process_read (process_id stdout_offset stderr_offset max_bytes : N) : method BrokerResponse :=
  let^ self := mself in
  match processes self !! process_id with
  | None => mtry (operation_error OpCode.ProcessNotFound (OpSubject.Process process_id))
  | Some process =>
      let^ (stdout, stdout_offset) := mtry (read_chunk (p_stdout process) stdout_offset max_bytes) in
      let^ (stderr, stderr_offset) := mtry (read_chunk (p_stderr process) stderr_offset max_bytes) in
      let^ stdout := mtry (new_wire_bytes stdout) in
      let^ stderr := mtry (new_wire_bytes stderr) in
      let snapshot := mkProcessReadSnapshot (p_snapshot process) stdout stderr stdout_offset stderr_offset in
      let^ _ := mtry (validate_process_read snapshot) in
      mok (BrokerResponse.ProcessRead snapshot)
  end.

Definition execution_of_process (snapshot : ProcessSnapshot) : ExecutionAuditIdentity :=
  mkExecution (ps_process_tree_id snapshot) (ExecutionInstanceId.Process (ps_id snapshot)).
Definition execution_of_pty (snapshot : PtySnapshot) : ExecutionAuditIdentity :=
  mkExecution (pty_process_tree_id snapshot) (ExecutionInstanceId.Pty (pty_id snapshot)).

(** The snapshot of a process that ran to its end. *)
Definition exited_snapshot (exit_code : Z) (p : ProcessSnapshot) : ProcessSnapshot :=
  mkProcessSnapshot (ps_id p) (ps_process_tree_id p) (ps_command_display p) (ps_arguments p) (ps_argument_count p) (ps_cwd p)
    (ps_started_at p) ProcessStatus.Exited false (exit_code =? 0)%Z (Some exit_code) (ps_error p) (stdout_len p) (stderr_len p)
    (stdout_truncated p) (stderr_truncated p) false (ps_timed_out p) (ps_cancelled p).

Definition process_write (process_id : N) (bytes : list byte) (close_stdin : bool) : method BrokerResponse :=
  let^ _ := injected FailurePoint.Write in
  let^ self := mself in
  match processes self !! process_id with
  | None => mtry (operation_error OpCode.ProcessNotFound (OpSubject.Process process_id))
  | Some process =>
      if negb (ps_running (p_snapshot process))
      then mtry (operation_error OpCode.ProcessNotRunning (OpSubject.Process process_id))
      else if negb (ps_stdin_open (p_snapshot process))
      then mtry (operation_error OpCode.ProcessStdinClosed (OpSubject.Process process_id))
      else
        let exit_code := scripted_exit_code (config self) in
        let^ (next_timestamp, exit_event) :=
          if close_stdin then
            let^ timestamps := mtry (new_batch (next_timestamp self) 1) in
            let^ (event, timestamps) := mtry (planned_audit (audit_context self) timestamps
              (AuditEventKind.Exited (execution_of_process (p_snapshot process)) (Some exit_code) (exit_code =? 0)%Z)) in
            let^ next := mtry (batch_finish timestamps) in
            mok (Some next, [event])
          else mok (None, []) in
        let^ self := mself in
        match processes self !! process_id with
        | None => mtry (Err counter_exhausted)
        | Some process =>
            let snapshot := if close_stdin then exited_snapshot exit_code (p_snapshot process) else p_snapshot process in
            let^ _ := mset (set_processes (<[process_id :=
              mkMockProcess snapshot (p_stdout process) (p_stderr process) (p_stdin process ++ bytes) (p_tool_id process)]>
                (processes self))) in
            let^ _ := match next_timestamp with
              | Some next_timestamp => mset (set_next_timestamp next_timestamp)
              | None => mok tt
              end in
            let^ _ := mset (fun s => set_events (events s ++ exit_event) s) in
            mok (BrokerResponse.Process snapshot)
        end
  end.

(** ** Terminals *)

Definition handle_pty_start (request : PtyLaunchRequest) : method BrokerResponse :=
  let^ _ := injected FailurePoint.Launch in
  let^ self := mself in
  let tool_id := executable_tool (ptl_executable request) in
  let argument_count := N.of_nat (length (ptl_arguments request)) in
  let transition_for_launch := bool_decide (state (lifecycle self) = SessionState.Ready) in
  let^ timestamps := mtry (new_batch (next_timestamp self) (if transition_for_launch then 4 else 3)) in
  let^ (launch_event, timestamps) := mtry (planned_audit (audit_context self) timestamps
    (AuditEventKind.LaunchRequested ExecutionSurface.Pty tool_id argument_count)) in
  let^ (pty_id, next_pty_id) := mtry (reserve_numeric_id (next_pty_id self)) in
  let^ (process_tree_id, next_process_tree_id) := mtry (reserve_numeric_id (next_process_tree_id self)) in
  let^ native_process_id := mtry (let? value := counter_add pty_id 10000 in
    if (value <? 2 ^ 32)%N then Ok value else Err counter_exhausted) in
  let^ (started_at, timestamps) := mtry (batch_take timestamps) in
  let scripted_output := scripted_stdout (config self) ++ scripted_stderr (config self) in
  let output := truncate_to_cap scripted_output (output_max_bytes request) in
  let^ output_len := mtry (mock_wire_len output) in
  let snapshot := mkPtySnapshot pty_id process_tree_id (command_display (ptl_executable request))
    (ptl_arguments request) argument_count (ptl_cwd request) started_at PtyStatus.Running true false None None
    output_len (negb (length output =? length scripted_output)) (ptl_rows request) (ptl_cols request)
    (Some native_process_id) false in
  let^ _ := mtry (validate_pty snapshot) in
  let^ (process_tree_event, timestamps) := mtry (planned_audit (audit_context self) timestamps
    (AuditEventKind.ProcessTreeStarted process_tree_id)) in
  let^ (next_lifecycle, transition_event, timestamps) := mtry (launch_transition transition_for_launch self timestamps) in
  let^ next_timestamp := mtry (batch_finish timestamps) in
  let^ _ := mset (set_next_timestamp next_timestamp) in
  let^ _ := mset (set_next_pty_id next_pty_id) in
  let^ _ := mset (set_next_process_tree_id next_process_tree_id) in
  let^ _ := mset (set_lifecycle next_lifecycle) in
  let^ _ := mset (fun s => set_ptys (<[pty_id := mkMockPty snapshot output [] tool_id]> (ptys s)) s) in
  let^ _ := mset (fun s => set_events (events s ++ [launch_event; process_tree_event] ++ transition_event) s) in
  mok (BrokerResponse.Pty snapshot).

Definition pty_read (pty_id offset max_bytes : N) : method BrokerResponse :=
  let^ self := mself in
  match ptys self !! pty_id with
  | None => mtry (operation_error OpCode.PtyNotFound (OpSubject.Pty pty_id))
  | Some pty =>
      let^ (output, offset) := mtry (read_chunk (t_output pty) offset max_bytes) in
      let^ output := mtry (new_wire_bytes output) in
      let snapshot := mkPtyReadSnapshot (t_snapshot pty) output offset in
      let^ _ := mtry (validate_pty_read snapshot) in
      mok (BrokerResponse.PtyRead snapshot)
  end.

Definition pty_write (pty_id : N) (bytes : list byte) : method BrokerResponse :=
  let^ _ := injected FailurePoint.Write in
  let^ self := mself in
  match ptys self !! pty_id with
  | None => mtry (operation_error OpCode.PtyNotFound (OpSubject.Pty pty_id))
  | Some pty =>
      if negb (pty_running (t_snapshot pty)) then mtry (operation_error OpCode.PtyClosed (OpSubject.Pty pty_id))
      else
        let^ _ := mset (set_ptys (<[pty_id := mkMockPty (t_snapshot pty) (t_output pty) (t_input pty ++ bytes) (t_tool_id pty)]>
          (ptys self))) in
        mok (BrokerResponse.Pty (t_snapshot pty))
  end.

Definition resized_snapshot (rows cols : N) (p : PtySnapshot) : PtySnapshot :=
  mkPtySnapshot (pty_id p) (pty_process_tree_id p) (pty_command_display p) (pty_arguments p) (pty_argument_count p) (pty_cwd p)
    (pty_started_at p) (pty_status p) (pty_running p) (pty_success p) (pty_exit_code p) (pty_error p) (output_len p)
    (output_truncated p) rows cols (native_process_id p) (pty_stopped p).

Definition with_pty_snapshot (f : PtySnapshot -> PtySnapshot) (p : MockPty) : MockPty :=
  mkMockPty (f (t_snapshot p)) (t_output p) (t_input p) (t_tool_id p).

Definition pty_resize (pty_id rows cols : N) : method BrokerResponse :=
  let^ _ := injected FailurePoint.Resize in
  let^ self := mself in
  match ptys self !! pty_id with
  | None => mtry (operation_error OpCode.PtyNotFound (OpSubject.Pty pty_id))
  | Some pty =>
      if negb (pty_running (t_snapshot pty)) then mtry (operation_error OpCode.PtyClosed (OpSubject.Pty pty_id))
      else
        let pty := with_pty_snapshot (resized_snapshot rows cols) pty in
        let^ _ := mset (set_ptys (<[pty_id := pty]> (ptys self))) in
        mok (BrokerResponse.Pty (t_snapshot pty))
  end.

(** ** Termination *)

Definition termination_event (reason : TerminationReason) (tree_ids : list N) s : BrokerEvent :=
  BrokerEvent.Terminated (mkNotice reason tree_ids (Some (terminated reason (session_id s)))).

Definition stopped_snapshot (p : PtySnapshot) : PtySnapshot :=
  mkPtySnapshot (pty_id p) (pty_process_tree_id p) (pty_command_display p) (pty_arguments p) (pty_argument_count p) (pty_cwd p)
    (pty_started_at p) PtyStatus.Stopped false false (pty_exit_code p) (pty_error p) (output_len p)
    (output_truncated p) (pty_rows p) (pty_cols p) (native_process_id p) true.

Definition pty_stop (pty_id : N) : method BrokerResponse :=
  let^ _ := injected FailurePoint.Cancel in
  let^ self := mself in
  match ptys self !! pty_id with
  | None => mtry (operation_error OpCode.PtyNotFound (OpSubject.Pty pty_id))
  | Some pty =>
      if negb (pty_running (t_snapshot pty)) then mok (BrokerResponse.Pty (t_snapshot pty))
      else
        let tree_id := pty_process_tree_id (t_snapshot pty) in
        let^ timestamps := mtry (new_batch (next_timestamp self) 1) in
        let^ (audit_event, timestamps) := mtry (planned_audit (audit_context self) timestamps
          (AuditEventKind.Cancelled (execution_of_pty (t_snapshot pty)) TerminationReason.CancelledByHost)) in
        let^ next_timestamp := mtry (batch_finish timestamps) in
        let termination_event := termination_event TerminationReason.CancelledByHost [tree_id] self in
        let^ self := mself in
        match ptys self !! pty_id with
        | None => mtry (Err counter_exhausted)
        | Some pty =>
            let pty := with_pty_snapshot stopped_snapshot pty in
            let^ _ := mset (set_ptys (<[pty_id := pty]> (ptys self))) in
            let^ _ := mset (set_next_timestamp next_timestamp) in
            let^ _ := mset (fun s => set_events (events s ++ [audit_event; termination_event]) s) in
            mok (BrokerResponse.Pty (t_snapshot pty))
        end
  end.

Definition termination_audit_kind (execution : ExecutionAuditIdentity) (reason : TerminationReason) : AuditEventKind :=
  match reason with
  | TerminationReason.TimedOut => AuditEventKind.TimedOut execution
  | TerminationReason.ResourceLimit limit => AuditEventKind.ResourceLimit execution limit
  | _ => AuditEventKind.Cancelled execution reason
  end.

Definition execution_identity (execution : MockExecution) s : option (N * ExecutionAuditIdentity) :=
  match execution with
  | MockExecution.Process process_id =>
      (fun process => (ps_process_tree_id (p_snapshot process), execution_of_process (p_snapshot process))) <$> processes s !! process_id
  | MockExecution.Pty pty_id =>
      (fun pty => (pty_process_tree_id (t_snapshot pty), execution_of_pty (t_snapshot pty))) <$> ptys s !! pty_id
  end.

Definition active_executions s : list (N * MockExecution) :=
  let executions :=
    ((fun process => (ps_process_tree_id (p_snapshot process), MockExecution.Process (ps_id (p_snapshot process)))) <$>
       List.filter (fun process => ps_running (p_snapshot process)) (values (processes s))) ++
    ((fun pty => (pty_process_tree_id (t_snapshot pty), MockExecution.Pty (pty_id (t_snapshot pty)))) <$>
       List.filter (fun pty => pty_running (t_snapshot pty)) (values (ptys s))) in
  sort_by (fun a b => N.compare a.1 b.1) executions.

Definition timed_out_by (reason : TerminationReason) : bool :=
  match reason with TerminationReason.TimedOut => true | _ => false end.

Definition terminated_process (reason : TerminationReason) (p : ProcessSnapshot) : ProcessSnapshot :=
  mkProcessSnapshot (ps_id p) (ps_process_tree_id p) (ps_command_display p) (ps_arguments p) (ps_argument_count p) (ps_cwd p)
    (ps_started_at p) (if timed_out_by reason then ProcessStatus.TimedOut else ProcessStatus.Cancelled) false false None None
    (stdout_len p) (stderr_len p) (stdout_truncated p) (stderr_truncated p) false (timed_out_by reason) (negb (timed_out_by reason)).

Definition terminated_pty (p : PtySnapshot) : PtySnapshot :=
  mkPtySnapshot (pty_id p) (pty_process_tree_id p) (pty_command_display p) (pty_arguments p) (pty_argument_count p) (pty_cwd p)
    (pty_started_at p) PtyStatus.Stopped false false None None (output_len p)
    (output_truncated p) (pty_rows p) (pty_cols p) (native_process_id p) true.

Definition with_process_snapshot (f : ProcessSnapshot -> ProcessSnapshot) (p : MockProcess) : MockProcess :=
  mkMockProcess (f (p_snapshot p)) (p_stdout p) (p_stderr p) (p_stdin p) (p_tool_id p).

(** No caller looks at the tree that the source returns. *)
Definition apply_execution_termination (execution : MockExecution) (reason : TerminationReason) s : MockSandboxSession :=
  match execution with
  | MockExecution.Process process_id =>
      match processes s !! process_id with
      | Some process =>
          if negb (ps_running (p_snapshot process)) then s
          else set_processes (<[process_id := with_process_snapshot (terminated_process reason) process]> (processes s)) s
      | None => s
      end
  | MockExecution.Pty pty_id =>
      match ptys s !! pty_id with
      | Some pty =>
          if negb (pty_running (t_snapshot pty)) then s
          else set_ptys (<[pty_id := with_pty_snapshot terminated_pty pty]> (ptys s)) s
      | None => s
      end
  end.

(** The audit events of the executions that end, in order. *)
Fixpoint termination_events (reason : TerminationReason) s (active : list (N * MockExecution)) (timestamps : MockTimestampBatch)
    : result (list BrokerEvent * MockTimestampBatch) :=
  match active with
  | [] => Ok ([], timestamps)
  | (_, execution) :: active' =>
      match execution_identity execution s with
      | None => Err counter_exhausted
      | Some (_, identity) =>
          let? (event, timestamps) := planned_audit (audit_context s) timestamps (termination_audit_kind identity reason) in
          let? (events, timestamps) := termination_events reason s active' timestamps in
          Ok (event :: events, timestamps)
      end
  end.

Definition apply_terminations (reason : TerminationReason) (active : list (N * MockExecution)) s : MockSandboxSession :=
  foldl (fun s a => apply_execution_termination a.2 reason s) s active.

Definition terminate_session (reason : TerminationReason) : method unit :=
  let^ self := mself in
  if bool_decide (state (lifecycle self) = SessionState.Closed) then mok tt
  else
    let active := active_executions self in
    let^ timestamps := mtry (new_batch (next_timestamp self) (length active + 2)) in
    let from := state (lifecycle self) in
    let '(r, next_lifecycle) := transition SessionState.Stopping (lifecycle self) in
    let^ _ := mtry r in
    let '(r, next_lifecycle) := transition SessionState.Closed next_lifecycle in
    let^ _ := mtry r in
    let^ (stopping, timestamps) := mtry (planned_audit (audit_context self) timestamps
      (AuditEventKind.StateTransition from SessionState.Stopping)) in
    let^ (ended, timestamps) := mtry (termination_events reason self active timestamps) in
    let^ (closed, timestamps) := mtry (planned_audit (audit_context self) timestamps
      (AuditEventKind.StateTransition SessionState.Stopping SessionState.Closed)) in
    let new_events := [stopping; BrokerEvent.SessionState SessionState.Stopping] ++ ended ++
      [termination_event reason active.*1 self; closed; BrokerEvent.SessionState SessionState.Closed] in
    let^ next_timestamp := mtry (batch_finish timestamps) in
    let^ _ := mset (apply_terminations reason active) in
    let^ _ := mset (set_lifecycle next_lifecycle) in
    let^ _ := mset (set_next_timestamp next_timestamp) in
    mset (fun s => set_events (events s ++ new_events) s).

Definition process_cancel (process_id : N) : method BrokerResponse :=
  let^ _ := injected FailurePoint.Cancel in
  let^ self := mself in
  match processes self !! process_id with
  | None => mtry (operation_error OpCode.ProcessNotFound (OpSubject.Process process_id))
  | Some process =>
      if negb (ps_running (p_snapshot process)) then mok (BrokerResponse.Process (p_snapshot process))
      else
        let tree_id := ps_process_tree_id (p_snapshot process) in
        let^ timestamps := mtry (new_batch (next_timestamp self) 1) in
        let^ (audit_event, timestamps) := mtry (planned_audit (audit_context self) timestamps
          (termination_audit_kind (execution_of_process (p_snapshot process)) TerminationReason.CancelledByHost)) in
        let^ next_timestamp := mtry (batch_finish timestamps) in
        let termination_event := termination_event TerminationReason.CancelledByHost [tree_id] self in
        let^ _ := mset (apply_execution_termination (MockExecution.Process process_id) TerminationReason.CancelledByHost) in
        let^ _ := mset (set_next_timestamp next_timestamp) in
        let^ _ := mset (fun s => set_events (events s ++ [audit_event; termination_event]) s) in
        let^ self := mself in
        match processes self !! process_id with
        | None => mtry Panic
        | Some process => mok (BrokerResponse.Process (p_snapshot process))
        end
  end.

(** ** Revocation *)

(** The top of the stack is the head of the list. *)
Fixpoint closure_search (fuel : nat) (tools : btree PreparedTool) (expected : ToolId) (visited : bset) (pending : list ToolId)
    : result bool :=
  match fuel with
  | O => OutOfFuel
  | S fuel' =>
      match pending with
      | [] => Ok false
      | tool_id :: pending' =>
          if bool_decide (tool_id = expected) then Ok true
          else if bs_contains (tool_str tool_id) visited then closure_search fuel' tools expected visited pending'
          else
            let visited := bs_add (tool_str tool_id) visited in
            match bt_get (tool_str tool_id) tools with
            | Some tool => closure_search fuel' tools expected visited (rev (helper_ids tool) ++ pending')
            | None => closure_search fuel' tools expected visited pending'
            end
      end
  end.

(** A tool is pending once as the root and once for each tool it helps. *)
Definition closure_fuel (tools : btree PreparedTool) : nat :=
  S (S (list_sum ((fun tool => length (helper_ids tool)) <$> bt_values tools))).

Definition tool_closure_contains s (root expected : ToolId) : result bool :=
  let tools := tools (prepared_catalog (session_policy s)) in
  closure_search (closure_fuel tools) tools expected [] [root].

(** [revoked.iter().find(..)]. *)
Fixpoint find_revoked s (root : ToolId) (l : list string) : result (option ToolId) :=
  match l with
  | [] => Ok None
  | revoked :: l' =>
      let? found := tool_closure_contains s root (mkToolId revoked) in
      if found then Ok (Some (mkToolId revoked)) else find_revoked s root l'
  end.

Definition reject_revoked_executable (executable : ExecutableRef) : method unit := fun s =>
  (match executable with
   | ExecutableRef.HostCommand _ => Ok tt
   | ExecutableRef.ManagedTool root =>
       let? found := find_revoked s root (bs_elements (session_revoked_tools s)) in
       match found with Some revoked => Err (tool_not_approved revoked) | None => Ok tt end
   end, s).

(** The tool of an active execution; indexing a map panics without the key. *)
Definition execution_tool s (execution : MockExecution) : result (option ToolId) :=
  match execution with
  | MockExecution.Process id => match processes s !! id with Some p => Ok (p_tool_id p) | None => Panic end
  | MockExecution.Pty id => match ptys s !! id with Some p => Ok (t_tool_id p) | None => Panic end
  end.

Fixpoint affected_executions s (tool_id : ToolId) (l : list (N * MockExecution)) : result (list (N * MockExecution)) :=
  match l with
  | [] => Ok []
  | (tree_id, execution) :: l' =>
      let? root := execution_tool s execution in
      let? affected := match root with Some root => tool_closure_contains s root tool_id | None => Ok false end in
      let? rest := affected_executions s tool_id l' in
      Ok (if affected then (tree_id, execution) :: rest else rest)
  end.

Definition revoke_tool (tool_id : ToolId) : method unit :=
  let^ _ := injected FailurePoint.Revocation in
  let^ self := mself in
  let^ affected := mtry (affected_executions self tool_id (active_executions self)) in
  let affected := sort_by (fun a b => N.compare a.1 b.1) affected in
  let affected_tree_ids := affected.*1 in
  let^ timestamps := mtry (new_batch (next_timestamp self) (length affected + 1)) in
  let^ (revoked, timestamps) := mtry (planned_audit (audit_context self) timestamps
    (AuditEventKind.Revoked tool_id affected_tree_ids)) in
  let^ (ended, timestamps) := mtry (termination_events TerminationReason.ToolRevoked self affected timestamps) in
  let notice := match affected_tree_ids with
    | [] => []
    | _ => [termination_event TerminationReason.ToolRevoked affected_tree_ids self]
    end in
  let^ next_timestamp := mtry (batch_finish timestamps) in
  let^ _ := mset (fun s => set_session_revoked_tools (bs_add (tool_str tool_id) (session_revoked_tools s)) s) in
  let^ _ := mset (apply_terminations TerminationReason.ToolRevoked affected) in
  let^ _ := mset (set_next_timestamp next_timestamp) in
  mset (fun s => set_events (events s ++ [revoked] ++ ended ++ notice) s).

(** ** The session *)

Definition process_detail (process_id : N) : method BrokerResponse := fun s =>
  (match processes s !! process_id with
   | Some process => Ok (BrokerResponse.Process (p_snapshot process))
   | None => operation_error OpCode.ProcessNotFound (OpSubject.Process process_id)
   end, s).

Definition process_release (process_id : N) : method BrokerResponse :=
  let^ self := mself in
  match processes self !! process_id with
  | None => mtry (operation_error OpCode.ProcessNotFound (OpSubject.Process process_id))
  | Some process =>
      if ps_running (p_snapshot process) then mtry (operation_error OpCode.ProcessRunning (OpSubject.Process process_id))
      else let^ _ := mset (set_processes (delete process_id (processes self))) in mok BrokerResponse.Acknowledged
  end.

Definition pty_detail (pty_id : N) : method BrokerResponse := fun s =>
  (match ptys s !! pty_id with
   | Some pty => Ok (BrokerResponse.Pty (t_snapshot pty))
   | None => operation_error OpCode.PtyNotFound (OpSubject.Pty pty_id)
   end, s).

Definition pty_release (pty_id : N) : method BrokerResponse :=
  let^ self := mself in
  match ptys self !! pty_id with
  | None => mtry (operation_error OpCode.PtyNotFound (OpSubject.Pty pty_id))
  | Some pty =>
      if pty_running (t_snapshot pty) then mtry (operation_error OpCode.PtyRunning (OpSubject.Pty pty_id))
      else let^ _ := mset (set_ptys (delete pty_id (ptys self))) in mok BrokerResponse.Acknowledged
  end.

(** A command to a session that is closed. *)
Definition handle_closed (command : SessionCommand) s : result BrokerResponse :=
  if negb (bool_decide (command_session_id command = session_id s)) then Err protocol_error
  else match command with
       | SessionCommand.Close _ | SessionCommand.Cancel _ => Ok BrokerResponse.Acknowledged
       | _ => Err (terminated TerminationReason.SessionClosed (session_id s))
       end.

Definition handle_open (command : SessionCommand) : method BrokerResponse :=
  match command with
  | SessionCommand.Close request =>
      let^ _ := validate_request (BrokerRequest.CloseSession request) in
      let^ _ := injected FailurePoint.Close in
      let^ _ := terminate_session TerminationReason.SessionClosed in
      mok BrokerResponse.Acknowledged
  | SessionCommand.Cancel request =>
      let^ _ := validate_request (BrokerRequest.CancelSession request) in
      let^ _ := injected FailurePoint.Cancel in
      let^ _ := terminate_session TerminationReason.CancelledByHost in
      mok BrokerResponse.Acknowledged
  | SessionCommand.ProcessStart request =>
      let^ _ := validate_request (BrokerRequest.ProcessStart request) in
      let^ _ := reject_revoked_executable (pl_executable request) in
      handle_process_start request
  | SessionCommand.ProcessList request =>
      let^ _ := validate_request (BrokerRequest.ProcessList request) in
      let^ self := mself in
      mok (BrokerResponse.Processes (p_snapshot <$> values (processes self)))
  | SessionCommand.ProcessDetail request =>
      let^ _ := validate_request (BrokerRequest.ProcessDetail request) in process_detail (pr_process_id request)
  | SessionCommand.ProcessRead request =>
      let^ _ := validate_request (BrokerRequest.ProcessRead request) in
      process_read (rd_process_id request) (rd_stdout_offset request) (rd_stderr_offset request) (max_bytes_per_stream request)
  | SessionCommand.ProcessWrite request =>
      let^ _ := validate_request (BrokerRequest.ProcessWrite request) in
      process_write (wr_process_id request) (wire_bytes (wr_bytes request)) (close_stdin request)
  | SessionCommand.ProcessCancel request =>
      let^ _ := validate_request (BrokerRequest.ProcessCancel request) in process_cancel (pr_process_id request)
  | SessionCommand.ProcessRelease request =>
      let^ _ := validate_request (BrokerRequest.ProcessRelease request) in process_release (pr_process_id request)
  | SessionCommand.PtyStart request =>
      let^ _ := validate_request (BrokerRequest.PtyStart request) in
      let^ _ := reject_revoked_executable (ptl_executable request) in
      handle_pty_start request
  | SessionCommand.PtyList request =>
      let^ _ := validate_request (BrokerRequest.PtyList request) in
      let^ self := mself in
      mok (BrokerResponse.Ptys (t_snapshot <$> values (ptys self)))
  | SessionCommand.PtyDetail request =>
      let^ _ := validate_request (BrokerRequest.PtyDetail request) in pty_detail (pt_pty_id request)
  | SessionCommand.PtyRead request =>
      let^ _ := validate_request (BrokerRequest.PtyRead request) in
      pty_read (ptr_pty_id request) (ptr_offset request) (ptr_max_bytes request)
  | SessionCommand.PtyWrite request =>
      let^ _ := validate_request (BrokerRequest.PtyWrite request) in
      pty_write (ptw_pty_id request) (wire_bytes (ptw_bytes request))
  | SessionCommand.PtyResize request =>
      let^ _ := validate_request (BrokerRequest.PtyResize request) in
      pty_resize (rs_pty_id request) (rs_rows request) (rs_cols request)
  | SessionCommand.PtyStop request =>
      let^ _ := validate_request (BrokerRequest.PtyStop request) in pty_stop (pt_pty_id request)
  | SessionCommand.PtyRelease request =>
      let^ _ := validate_request (BrokerRequest.PtyRelease request) in pty_release (pt_pty_id request)
  end.

Definition handle (command : SessionCommand) : method BrokerResponse :=
  let^ self := mself in
  if bool_decide (state (lifecycle self) = SessionState.Closed) then mtry (handle_closed command self)
  else handle_open command.

Definition terminate (reason : TerminationReason) : method unit :=
  match reason with
  | TerminationReason.CancelledByHost | TerminationReason.ToolRevoked => mtry (Err protocol_error)
  | _ => let^ _ := injected FailurePoint.Cancel in terminate_session reason
  end.

Definition revoke (tool_id : ToolId) : method unit := revoke_tool tool_id.

Definition drain_events s : list BrokerEvent * MockSandboxSession := (events s, set_events [] s).

End session.

(** ** The backend *)

(** [r.expect(..)]. *)
Definition expect {A : Type} (r : result A) : result A := match r with Err _ => Panic | r => r end.

Definition parse_backend_feature_id (value : string) : result BackendFeatureId :=
  if valid_identifier value then Ok (mkBackendFeatureId value) else Err policy_error.

Definition mock_identity : result BackendIdentity := expect (new_backend_identity "mock" "1").

Definition mock_capabilities : BackendCapabilities := mkBackendCapabilities true true true true true true true true true.

Definition self_test (c : MockBackendConfig) : result BackendSelfTest :=
  let? failures := match failures c FailurePoint.SelfTest with
    | None => Ok []
    | Some error =>
        let? feature := expect (parse_backend_feature_id "mock-self-test") in
        Ok [mkSelfTestFailure feature FailedGuarantee.BrokerAvailability (remediation error)]
    end in
  let? identity := mock_identity in
  Ok (mkSelfTest identity mock_capabilities false failures).

Definition prepare_session (c : MockBackendConfig) (session : SessionId) (scratch : ScratchId) (p : ValidatedExecutionPolicy)
    : result MockSandboxSession :=
  match failures c FailurePoint.Prepare with
  | Some error => Err error
  | None =>
      let? identity := mock_identity in
      let? capabilities := new_capabilities session scratch identity PROTOCOL_V1 EnforcementState.MockOnly p in
      let? context := new_context session scratch identity PROTOCOL_V1 EnforcementState.MockOnly p in
      let '(r, lifecycle) := transition SessionState.Ready new_lifecycle in
      let? _ := r in
      let events := [BrokerEvent.Audit (mkAuditRecord 0 context
                       (AuditEventKind.StateTransition SessionState.Preparing SessionState.Ready));
                     BrokerEvent.SessionState SessionState.Ready] in
      Ok (mkSession c session p capabilities context lifecycle events 1 0 0 0 ∅ ∅ [])
  end.
