(* ===== verification/SandboxSessionProofs.v ===== *)
(** * The session of the mock backend is right (mock.rs) *)

From stdpp Require Import base tactics list strings option numbers gmap.
From Stdlib Require Import ZArith NArith Lia Ascii String Sorted.
From S2P Require Import Prelude RustStr RustText BTree SandboxError SandboxIdentity SandboxCatalog SandboxDestination SandboxPolicy SandboxAudit.
From S2P Require Import SandboxMessage SandboxProtocol SandboxCatalogProofs SandboxCatalogWf SandboxAuditProofs SandboxPolicyProofs.
From S2P Require Import SandboxProtocolProofs SandboxSession.

Open Scope string_scope.
Open Scope list_scope.
Open Scope nat_scope.

Implicit Types (s : MockSandboxSession).

(** ** Methods *)

Lemma runs_injected point s (Q : unit -> MockSandboxSession -> Prop) : Q tt s -> runs s (injected point) s Q.
Proof. unfold runs, injected. by destruct (failures (config s) point). Qed.

Lemma runs_validate request s (Q : unit -> MockSandboxSession -> Prop) :
  settles (validate_against (session_id s) (session_policy s) request) (fun _ => True) ->
  (validate_against (session_id s) (session_policy s) request = Ok tt -> Q tt s) -> runs s (validate_request request) s Q.
Proof. unfold runs, validate_request. by destruct (validate_against _ _ request) as [[]| | |]; auto. Qed.

(** ** Executions *)

Record view : Type := mkView { v_tree : N; v_running : bool; v_tool : option ToolId }.

Definition process_view (p : MockProcess) : view :=
  mkView (ps_process_tree_id (p_snapshot p)) (ps_running (p_snapshot p)) (p_tool_id p).
Definition pty_view (p : MockPty) : view :=
  mkView (pty_process_tree_id (t_snapshot p)) (pty_running (t_snapshot p)) (t_tool_id p).

Definition view_of s (e : MockExecution) : option view :=
  match e with
  | MockExecution.Process id => process_view <$> processes s !! id
  | MockExecution.Pty id => pty_view <$> ptys s !! id
  end.

#[export] Instance MockExecution_eq : EqDecision MockExecution.
Proof. solve_decision. Defined.

#[export] Instance Process_inj : Inj eq eq MockExecution.Process.
Proof. by intros a b [=]. Qed.
#[export] Instance Pty_inj : Inj eq eq MockExecution.Pty.
Proof. by intros a b [=]. Qed.

(** What the session says of its executions. *)
Definition is_running s (e : MockExecution) (tree : N) : Prop :=
  exists v, view_of s e = Some v /\ v_running v = true /\ v_tree v = tree.

(** The entries are filed under their own numbers. *)
Definition filed s : Prop :=
  (forall id p, processes s !! id = Some p -> ps_id (p_snapshot p) = id) /\
  (forall id p, ptys s !! id = Some p -> pty_id (t_snapshot p) = id).

Lemma values_perm {A : Type} (m : gmap N A) : values m ≡ₚ (map_to_list m).*2.
Proof. unfold values. by rewrite sort_by_perm. Qed.

Lemma elem_values {A : Type} (m : gmap N A) a : a ∈ values m <-> exists k, m !! k = Some a.
Proof.
  rewrite values_perm, list_elem_of_fmap. split.
  - intros ([k b] & -> & Hin%elem_of_map_to_list). by exists k.
  - intros [k Hk%elem_of_map_to_list]. by exists (k, a).
Qed.

Lemma values_nodup {A : Type} (key : A -> N) (f : A -> bool) (m : gmap N A) :
  (forall k a, m !! k = Some a -> key a = k) -> NoDup (key <$> List.filter f (values m)).
Proof.
  intros Hkey. assert (Hs : sublist (key <$> List.filter f (values m)) (key <$> values m)).
  { apply fmap_sublist. induction (values m) as [|a l IH]; simpl; [constructor|]. destruct (f a); by constructor. }
  eapply sublist_NoDup; [|exact Hs]. rewrite values_perm, <- list_fmap_compose.
  assert (He : (key ∘ snd) <$> map_to_list m = (map_to_list m).*1).
  { apply list_fmap_ext. intros i [k a] Hi. simpl. apply Hkey, elem_of_map_to_list. by eapply list_elem_of_lookup_2. }
  rewrite He. apply NoDup_fst_map_to_list.
Qed.

Definition executions s : list (N * MockExecution) :=
  ((fun process => (ps_process_tree_id (p_snapshot process), MockExecution.Process (ps_id (p_snapshot process)))) <$>
     List.filter (fun process => ps_running (p_snapshot process)) (values (processes s))) ++
  ((fun pty => (pty_process_tree_id (t_snapshot pty), MockExecution.Pty (pty_id (t_snapshot pty)))) <$>
     List.filter (fun pty => pty_running (t_snapshot pty)) (values (ptys s))).

Lemma active_perm s : active_executions s ≡ₚ executions s.
Proof. apply sort_by_perm. Qed.

Lemma elem_filter {A : Type} (f : A -> bool) l a : a ∈ List.filter f l <-> a ∈ l /\ f a = true.
Proof. rewrite !list_elem_of_In. apply filter_In. Qed.

Lemma elem_active s tree e : filed s -> (tree, e) ∈ active_executions s <-> is_running s e tree.
Proof.
  intros [Hp Ht]. rewrite active_perm. unfold executions, is_running. rewrite elem_of_app, !list_elem_of_fmap. split.
  - intros [(p & [= -> ->] & Hin)|(p & [= -> ->] & Hin)]; apply elem_filter in Hin as [[k Hk]%elem_values Hr].
    + exists (process_view p). simpl. rewrite (Hp _ _ Hk), Hk. done.
    + exists (pty_view p). simpl. rewrite (Ht _ _ Hk), Hk. done.
  - intros (v & Hv & Hr & <-). destruct e as [id|id]; simpl in Hv; apply fmap_Some in Hv as (p & Hk & ->); [left|right];
      exists p; (split; [f_equal; f_equal; symmetry; auto|]); apply elem_filter; (split; [apply elem_values; by exists id|done]).
Qed.

Lemma active_nodup s : filed s -> NoDup (active_executions s).*2.
Proof.
  intros [Hp Ht]. rewrite active_perm. unfold executions. rewrite fmap_app, <- !list_fmap_compose. apply list.NoDup_app. split; [|split].
  - pose proof (values_nodup (fun p => ps_id (p_snapshot p)) (fun p => ps_running (p_snapshot p)) (processes s) Hp) as H.
    apply (NoDup_fmap_2 MockExecution.Process) in H. by rewrite <- list_fmap_compose in H.
  - intros e (p & -> & _)%list_elem_of_fmap (q & Hq & _)%list_elem_of_fmap. done.
  - pose proof (values_nodup (fun p => pty_id (t_snapshot p)) (fun p => pty_running (t_snapshot p)) (ptys s) Ht) as H.
    apply (NoDup_fmap_2 MockExecution.Pty) in H. by rewrite <- list_fmap_compose in H.
Qed.

(** ** Time stamps *)

(** A batch that has handed out the numbers below [lo] and has [k] left. *)
Definition planned (b : MockTimestampBatch) (lo k : N) : Prop :=
  cursor b = lo /\ remaining b = k /\ batch_next b = (lo + k)%N /\ (lo + k < 2 ^ 64)%N.

Lemma runs_batch start n s (Q : MockTimestampBatch -> MockSandboxSession -> Prop) :
  (forall b, planned b start (N.of_nat n) -> Q b s) -> runs s (mtry (new_batch start n)) s Q.
Proof.
  intros H. apply runs_try. unfold new_batch, u64_of_len, counter_add. destruct (_ <? _)%N; [|done]. simpl.
  destruct (N.ltb_spec (start + N.of_nat n) (2 ^ 64)); [|done]. by apply H.
Qed.

Lemma batch_take_ok b lo k : planned b lo k -> k <> 0%N ->
  exists b', batch_take b = Ok (lo, b') /\ planned b' (lo + 1) (k - 1).
Proof.
  intros (<- & <- & Hn & Hb) Hk. unfold batch_take, counter_add. destruct (N.eqb_spec (remaining b) 0); [done|].
  destruct (N.ltb_spec (cursor b + 1) (2 ^ 64)); [|lia]. eexists. split; [done|]. unfold planned. simpl. lia.
Qed.

Lemma planned_audit_ok context ev b lo k : planned b lo k -> k <> 0%N ->
  exists b', planned_audit context b ev = Ok (BrokerEvent.Audit (mkAuditRecord lo context ev), b') /\ planned b' (lo + 1) (k - 1).
Proof.
  intros Hb Hk. destruct (batch_take_ok _ _ _ Hb Hk) as (b' & E & Hb'). exists b'. unfold planned_audit. by rewrite E.
Qed.

Lemma runs_take s0 b lo k s (Q : N * MockTimestampBatch -> MockSandboxSession -> Prop) : planned b lo k -> k <> 0%N ->
  (forall b', planned b' (lo + 1) (k - 1) -> Q (lo, b') s) -> runs s0 (mtry (batch_take b)) s Q.
Proof. intros Hb Hk H. destruct (batch_take_ok _ _ _ Hb Hk) as (b' & E & Hb'). eapply runs_pure; [exact E|auto]. Qed.

Lemma runs_audit s0 context ev b lo k s (Q : BrokerEvent * MockTimestampBatch -> MockSandboxSession -> Prop) :
  planned b lo k -> k <> 0%N ->
  (forall b', planned b' (lo + 1) (k - 1) -> Q (BrokerEvent.Audit (mkAuditRecord lo context ev), b') s) ->
  runs s0 (mtry (planned_audit context b ev)) s Q.
Proof. intros Hb Hk H. destruct (planned_audit_ok context ev _ _ _ Hb Hk) as (b' & E & Hb'). eapply runs_pure; [exact E|auto]. Qed.

Lemma runs_finish s0 b lo k s (Q : N -> MockSandboxSession -> Prop) : planned b lo k -> k = 0%N -> Q lo s ->
  runs s0 (mtry (batch_finish b)) s Q.
Proof.
  intros (Hc & Hr & Hn & _) -> H. apply (runs_pure _ _ _ _ lo); [|done]. unfold batch_finish. rewrite Hr, Hn, Hc, N.add_0_r.
  by rewrite !N.eqb_refl.
Qed.

Lemma runs_reserve n s (Q : N * N -> MockSandboxSession -> Prop) :
  Q (n, (n + 1)%N) s -> runs s (mtry (reserve_numeric_id n)) s Q.
Proof. intros H. apply runs_try. unfold reserve_numeric_id, counter_add. by destruct (_ <? _)%N. Qed.

Lemma runs_len bytes s (Q : N -> MockSandboxSession -> Prop) :
  ((N.of_nat (length bytes) < 2 ^ 64)%N -> Q (N.of_nat (length bytes)) s) -> runs s (mtry (mock_wire_len bytes)) s Q.
Proof.
  intros H. apply runs_try. unfold mock_wire_len, u64_of_len.
  destruct (N.ltb_spec (N.of_nat (length bytes)) (2 ^ 64)); simpl; auto.
Qed.

(** The audit events of [l] carry increasing times from [lo] on and below [hi]. *)
Fixpoint stamped (lo : N) (l : list BrokerEvent) (hi : N) : Prop :=
  match l with
  | [] => (lo <= hi)%N
  | BrokerEvent.Audit r :: l' => (lo <= at_ r)%N /\ stamped (at_ r + 1) l' hi
  | _ :: l' => stamped lo l' hi
  end.

Lemma stamped_le lo lo' l hi : (lo' <= lo)%N -> stamped lo l hi -> stamped lo' l hi.
Proof. revert lo lo'. induction l as [|[] l IH]; simpl; intros lo lo' Hle; [lia|intros []; split; [lia|done]|eauto..]. Qed.

Lemma stamped_app lo mid hi l l' : stamped lo l mid -> stamped mid l' hi -> stamped lo (l ++ l') hi.
Proof.
  revert lo. induction l as [|[] l IH]; simpl; intros lo H1 H2; [by eapply stamped_le|destruct H1; split; auto|auto..].
Qed.

(** ** Reading the audit trail *)

(** What an event says of the life cycle and of the trees that run. *)
Definition replay_event (st : SessionState * gset N) (e : BrokerEvent) : SessionState * gset N :=
  match e with
  | BrokerEvent.Audit r =>
      match event r with
      | AuditEventKind.StateTransition _ to => (to, st.2)
      | AuditEventKind.ProcessTreeStarted tree => (st.1, {[tree]} ∪ st.2)
      | AuditEventKind.Exited execution _ _ | AuditEventKind.Cancelled execution _ | AuditEventKind.TimedOut execution
      | AuditEventKind.ResourceLimit execution _ => (st.1, st.2 ∖ {[process_tree_id execution]})
      | _ => st
      end
  | _ => st
  end.

Definition replay (st : SessionState * gset N) (log : list BrokerEvent) : SessionState * gset N := foldl replay_event st log.

Definition event_ok s (e : BrokerEvent) : Prop := validate_event_against_policy (session_id s) (session_policy s) e = Ok tt.

Definition context_ok s : Prop :=
  validate_against_policy (session_policy s) (audit_context s) = Ok tt /\
  ctx_session_id (audit_context s) = session_id s /\ ctx_broker_protocol (audit_context s) = PROTOCOL_V1.

Lemma audit_ok s t ev : context_ok s -> validate_event ev = Ok tt -> event_ok s (BrokerEvent.Audit (mkAuditRecord t (audit_context s) ev)).
Proof.
  intros (Hp & Hs & Hv) He. unfold event_ok, validate_event_against_policy, validate_event_for_session, validate_audit_record.
  cbn [context event rbind]. assert (Hc : validate_context (audit_context s) = Ok tt).
  { unfold validate_against_policy in Hp. by destruct (validate_context (audit_context s)) as [[]| | |]. }
  rewrite Hc. cbn [rbind]. rewrite He. cbn [rbind]. unfold ensure_session. rewrite Hs, bool_decide_eq_true_2 by done. cbn [ensure rbind].
  rewrite Hv. cbn [ensure rbind]. exact Hp.
Qed.

Lemma state_event_ok s st : event_ok s (BrokerEvent.SessionState st).
Proof. done. Qed.

Lemma notice_ok s reason trees : NoDup trees -> event_ok s (termination_event reason trees s).
Proof.
  intros Hd. unfold event_ok, termination_event, validate_event_against_policy, validate_event_for_session, validate_notice.
  cbn [notice_reason SandboxProtocol.process_tree_ids notice_error]. rewrite size_list_to_set by done. rewrite Nat.eqb_refl.
  assert (Hm : matches_termination reason (session_id s) (terminated reason (session_id s)) = true).
  { unfold matches_termination. rewrite (validate_constructed_1 _ (c_terminated reason (session_id s))).
    unfold metadata_matches_termination. destruct reason; simpl; rewrite !bool_decide_eq_true_2 by done; done. }
  by rewrite Hm.
Qed.

(** ** The helpers of a tool *)

Section closure.
Context (tools : btree PreparedTool) (expected : ToolId).

Definition helps (a b : ToolId) : Prop := exists tool, bt_get (tool_str a) tools = Some tool /\ b ∈ helper_ids tool.

Definition searched (visited : bset) (pending : list ToolId) : Prop :=
  (forall a b, bs_contains (tool_str a) visited = true -> helps a b -> bs_contains (tool_str b) visited = true \/ b ∈ pending) /\
  (forall a, bs_contains (tool_str a) visited = true -> a <> expected).

Definition found (visited : bset) (pending : list ToolId) : Prop :=
  exists a, (bs_contains (tool_str a) visited = true \/ a ∈ pending) /\ rtc helps a expected.

Definition search_work (visited : bset) (pending : list ToolId) : nat :=
  length pending + weight (fun tool => length (helper_ids tool)) (fun k => bs_contains k visited) tools.

Lemma tool_str_eq (a b : ToolId) : tool_str a = tool_str b -> a = b.
Proof. destruct a, b. simpl. by intros ->. Qed.

Lemma not_found_nil visited : searched visited [] -> ~ found visited [].
Proof.
  intros [Hcl Hne] (a & Ha & Hr). destruct Ha as [Ha|Ha%elem_of_nil]; [|done].
  induction Hr as [a|a b c Hab _ IH]; [by eapply Hne|].
  destruct (Hcl _ _ Ha Hab) as [Hb|Hb%elem_of_nil]; [|done]. by apply IH.
Qed.

Lemma add_visited visited pending x (more : list ToolId) : searched visited (x :: pending) -> x <> expected ->
  (forall b, helps x b -> b ∈ more) ->
  searched (bs_add (tool_str x) visited) (more ++ pending).
Proof.
  intros [Hcl Hne] Hx Hmore. split.
  - intros a b Ha Hab. rewrite bs_contains_add in *. apply orb_true_iff in Ha as [->%String.eqb_eq%tool_str_eq|Ha].
    + right. apply elem_of_app. auto.
    + destruct (Hcl _ _ Ha Hab) as [Hb|[->|Hb]%elem_of_cons].
      * left. apply orb_true_iff. auto.
      * left. by rewrite String.eqb_refl.
      * right. apply elem_of_app. auto.
  - intros a. rewrite bs_contains_add. intros [->%String.eqb_eq%tool_str_eq|Ha]%orb_true_iff; auto.
Qed.

Lemma add_found visited pending x (more : list ToolId) : (forall b, b ∈ more -> helps x b) ->
  found (bs_add (tool_str x) visited) (more ++ pending) <-> found visited (x :: pending).
Proof.
  intros Hmore. unfold found. split.
  - intros (a & Ha & Hr). rewrite bs_contains_add, orb_true_iff, elem_of_app in Ha.
    destruct Ha as [[->%String.eqb_eq%tool_str_eq|Ha]|[Ha|Ha]].
    + exists x. split; [right; left|done].
    + exists a. auto.
    + exists x. split; [right; left|]. eapply rtc_l; eauto.
    + exists a. split; [right; by right|done].
  - intros (a & [Ha|[->|Ha]%elem_of_cons] & Hr).
    + exists a. rewrite bs_contains_add, Ha, orb_true_r. auto.
    + exists x. rewrite bs_contains_add, String.eqb_refl. auto.
    + exists a. rewrite elem_of_app. auto.
Qed.

Lemma closure_search_spec fuel visited pending : search_work visited pending < fuel -> searched visited pending ->
  exists b, closure_search fuel tools expected visited pending = Ok b /\ (b = true <-> found visited pending).
Proof.
  revert visited pending. induction fuel as [|fuel IH]; intros visited pending Hf Hs; [lia|].
  destruct pending as [|x pending]; simpl.
  { exists false. split; [done|]. split; [done|]. by intros ?%not_found_nil. }
  unfold search_work in Hf, IH. simpl in Hf. case_bool_decide as Hx.
  { exists true. split; [done|]. split; [|done]. intros _. exists x. subst. split; [right; left|constructor]. }
  destruct (bs_contains (tool_str x) visited) eqn:Ev.
  - destruct (IH visited pending) as (b & -> & Hb); [lia| |].
    { destruct Hs as [Hcl Hne]. split; [|done]. intros a c Ha Hac.
      destruct (Hcl _ _ Ha Hac) as [|[->|]%elem_of_cons]; auto. }
    exists b. split; [done|]. rewrite Hb. unfold found. split; intros (a & Ha & Hr); exists a; (split; [|done]).
    + rewrite elem_of_cons. tauto.
    + rewrite elem_of_cons in Ha. destruct Ha as [|[->|]]; auto.
  - destruct (bt_get (tool_str x) tools) as [tool|] eqn:Eg.
    + assert (Hmore : forall b, b ∈ rev (helper_ids tool) <-> helps x b).
      { intros b. rewrite list_elem_of_In, <- in_rev, <- list_elem_of_In. unfold helps. rewrite Eg. split; [eauto|by intros (? & [= ->] & ?)]. }
      destruct (IH (bs_add (tool_str x) visited) (rev (helper_ids tool) ++ pending)) as (b & -> & Hb).
      * rewrite length_app, length_rev.
        unshelve epose proof (weight_add (fun tool => length (helper_ids tool)) (fun k => bs_contains k visited)
          (fun k => bs_contains k (bs_add (tool_str x) visited)) tools (tool_str x) tool Eg Ev _ _) as Hw; [..|simpl in Hw; lia].
        { cbv beta. by rewrite bs_contains_add, String.eqb_refl. }
        intros k Hk. cbv beta in *. by rewrite bs_contains_add, Hk, orb_true_r.
      * apply add_visited; [done..|]. intros b. apply Hmore.
      * exists b. split; [done|]. rewrite Hb. apply add_found. intros c. apply Hmore.
    + destruct (IH (bs_add (tool_str x) visited) pending) as (b & -> & Hb).
      * unshelve epose proof (weight_mono (fun tool : PreparedTool => length (helper_ids tool)) 
          (fun k => bs_contains k (bs_add (tool_str x) visited)) (fun k => bs_contains k visited) tools _) as Hw; [|lia].
        intros k Hk. cbv beta in *. by rewrite bs_contains_add, Hk, orb_true_r.
      * apply (add_visited _ _ _ []); [done..|]. intros b (? & Hc & _). by rewrite Eg in Hc.
      * exists b. split; [done|]. rewrite Hb. apply (add_found _ _ _ []). by intros c ?%elem_of_nil.
Qed.
End closure.

(** The tool [t] is [root] or one of the helpers that [root] may come to start. *)
Definition depends s (root t : ToolId) : Prop := rtc (helps (tools (prepared_catalog (session_policy s)))) root t.

Lemma tool_closure_spec s root t : exists b, tool_closure_contains s root t = Ok b /\ (b = true <-> depends s root t).
Proof.
  unfold tool_closure_contains. destruct (closure_search_spec (tools (prepared_catalog (session_policy s))) t
    (closure_fuel (tools (prepared_catalog (session_policy s)))) [] [root]) as (b & -> & Hb).
  - unfold search_work, closure_fuel. simpl.
    pose proof (weight_all (fun tool => length (helper_ids tool)) (fun k => bs_contains k []) (tools (prepared_catalog (session_policy s)))).
    lia.
  - split; intros a; done.
  - exists b. split; [done|]. rewrite Hb. unfold found, depends. split.
    + intros (a & [Ha|Ha%list_elem_of_singleton] & Hr); [done|by subst].
    + intros. exists root. split; [right; left|done].
Qed.

Lemma find_revoked_spec s root l : exists o, find_revoked s root l = Ok o /\
  (o = None <-> forall t, t ∈ l -> ~ depends s root (mkToolId t)).
Proof.
  induction l as [|t l (o & IH & Ho)]; simpl.
  - exists None. split; [done|]. split; [|done]. by intros _ t ?%elem_of_nil.
  - destruct (tool_closure_spec s root (mkToolId t)) as (b & -> & Hb). simpl. destruct b.
    + eexists. split; [done|]. split; [done|]. intros H. exfalso. apply (H t); [left|by apply Hb].
    + exists o. split; [done|]. rewrite Ho. split; intros H x.
      * intros [->|Hx]%elem_of_cons; [|auto]. intros Hd. by apply Hb in Hd.
      * intros Hx. apply H. by right.
Qed.

(** ** The invariant *)

Definition fits (bytes : list byte) (len : N) : Prop := len = N.of_nat (length bytes) /\ (len < 2 ^ 64)%N.

Definition process_ok (p : MockProcess) : Prop :=
  validate_process (p_snapshot p) = Ok tt /\
  fits (p_stdout p) (stdout_len (p_snapshot p)) /\ fits (p_stderr p) (stderr_len (p_snapshot p)).

Definition pty_ok (p : MockPty) : Prop := validate_pty (t_snapshot p) = Ok tt /\ fits (t_output p) (output_len (t_snapshot p)).

(** What is filed is well formed. *)
Record stored s : Prop := mkStored {
  st_context : context_ok s;
  st_process id p : processes s !! id = Some p -> ps_id (p_snapshot p) = id /\ (id < next_process_id s)%N /\ process_ok p;
  st_pty id p : ptys s !! id = Some p -> pty_id (t_snapshot p) = id /\ (id < next_pty_id s)%N /\ pty_ok p }.

Definition live (st : SessionState) : Prop := st = SessionState.Ready \/ st = SessionState.Running.

(** The executions, the life cycle and the revoked tools fit together. *)
Record coherent s : Prop := mkCoherent {
  co_tree e v : view_of s e = Some v -> (v_tree v < next_process_tree_id s)%N;
  co_distinct e e' v v' : view_of s e = Some v -> view_of s e' = Some v' -> v_tree v = v_tree v' -> e = e';
  co_state : live (state (lifecycle s)) \/ state (lifecycle s) = SessionState.Closed;
  co_ready e : state (lifecycle s) = SessionState.Ready -> view_of s e = None;
  co_closed e v : state (lifecycle s) = SessionState.Closed -> view_of s e = Some v -> v_running v = false;
  co_revoked e v root t : view_of s e = Some v -> v_running v = true -> v_tool v = Some root ->
    bs_contains t (session_revoked_tools s) = true -> ~ depends s root (mkToolId t) }.

Lemma stored_filed s : stored s -> filed s.
Proof. intros H. split; intros id p Hp; by apply H in Hp as [? _]. Qed.

(** [R] are the trees that run. *)
Definition trees s (R : gset N) : Prop := forall t, t ∈ R <-> exists e, is_running s e t.

(** What an operation may do to a session. *)
Record effect s s' (new : list BrokerEvent) : Prop := mkEffect {
  ef_same : session_id s' = session_id s /\ session_policy s' = session_policy s;
  ef_stored : stored s'; ef_coherent : coherent s';
  ef_events : events s' = events s ++ new;
  ef_stamped : stamped (next_timestamp s) new (next_timestamp s');
  ef_valid : Forall (event_ok s) new;
  ef_replay R : trees s R -> exists R', replay (state (lifecycle s), R) new = (state (lifecycle s'), R') /\ trees s' R';
  ef_revoked t : bs_contains t (session_revoked_tools s) = true -> bs_contains t (session_revoked_tools s') = true }.

(** Operations that the executions do not notice. *)
Lemma coherent_same s s' : coherent s -> (forall e, view_of s' e = view_of s e) ->
  next_process_tree_id s' = next_process_tree_id s -> lifecycle s' = lifecycle s ->
  session_revoked_tools s' = session_revoked_tools s -> session_policy s' = session_policy s -> coherent s'.
Proof.
  intros [C1 C2 C3 C4 C5 C6] Hv Hn Hl Hr Hp. split.
  - intros e v. rewrite Hv, Hn. apply C1.
  - intros e e' v v'. rewrite !Hv. apply C2.
  - by rewrite Hl.
  - intros e. rewrite Hl, Hv. apply C4.
  - intros e v. rewrite Hl, Hv. apply C5.
  - intros e v root t. rewrite Hv, Hr. unfold depends. rewrite Hp. apply C6.
Qed.

Lemma trees_same s s' R : (forall e, view_of s' e = view_of s e) -> trees s R -> trees s' R.
Proof. intros Hv H t. rewrite (H t). unfold is_running. split; intros [e He]; exists e; by rewrite ?Hv in *. Qed.

(** A new execution. *)
Lemma coherent_start s s' e tool : coherent s -> view_of s e = None -> live (state (lifecycle s)) ->
  (forall e', view_of s' e' = if bool_decide (e' = e) then Some (mkView (next_process_tree_id s) true tool) else view_of s e') ->
  next_process_tree_id s' = (next_process_tree_id s + 1)%N -> state (lifecycle s') = SessionState.Running ->
  session_revoked_tools s' = session_revoked_tools s -> session_policy s' = session_policy s ->
  (forall root t, tool = Some root -> bs_contains t (session_revoked_tools s) = true -> ~ depends s root (mkToolId t)) ->
  coherent s'.
Proof.
  intros [C1 C2 C3 C4 C5 C6] He Hs Hv Hn Hl Hr Hp Ht. split.
  - intros e' v. rewrite Hv, Hn. case_bool_decide; [intros [= <-]; simpl; lia|]. intros Hx%C1. lia.
  - intros e1 e2 v1 v2. rewrite !Hv.
    case_bool_decide as E1; case_bool_decide as E2; subst; intros H1 H2 Heq; simplify_eq/=.
    + done.
    + apply C1 in H2. lia.
    + apply C1 in H1. lia.
    + by eapply C2.
  - rewrite Hl. left. by right.
  - by rewrite Hl.
  - by rewrite Hl.
  - intros e' v root t. rewrite Hv, Hr. unfold depends. rewrite Hp.
    case_bool_decide; [intros [= <-] _; apply Ht|apply C6].
Qed.

Lemma trees_start s s' e tool R : view_of s e = None ->
  (forall e', view_of s' e' = if bool_decide (e' = e) then Some (mkView (next_process_tree_id s) true tool) else view_of s e') ->
  trees s R -> trees s' ({[next_process_tree_id s]} ∪ R).
Proof.
  intros He Hv H t. rewrite elem_of_union, elem_of_singleton, (H t). unfold is_running. split.
  - intros [->|(e' & v & Hv' & Hr & <-)].
    + exists e. rewrite Hv, bool_decide_eq_true_2 by done. by eexists.
    + exists e', v. rewrite Hv, bool_decide_eq_false_2; [done|]. intros ->. by rewrite He in Hv'.
  - intros (e' & v & Hv' & Hr & <-). rewrite Hv in Hv'. case_bool_decide; simplify_eq/=; [by left|].
    right. by exists e', v.
Qed.

(** Executions that end. *)
Definition stop (v : view) : view := mkView (v_tree v) false (v_tool v).

Definition ended s s' (l : list (N * MockExecution)) : Prop :=
  forall e, view_of s' e = if bool_decide (e ∈ l.*2) then stop <$> view_of s e else view_of s e.

Lemma ended_view s s' l e v : ended s s' l -> view_of s' e = Some v ->
  exists v0, view_of s e = Some v0 /\ v_tree v0 = v_tree v /\ v_tool v0 = v_tool v /\
    (v_running v = true -> v_running v0 = true /\ e ∉ l.*2).
Proof.
  intros H Hv. rewrite H in Hv. case_bool_decide.
  - apply fmap_Some in Hv as (v0 & Hv0 & ->). exists v0. by split_and!.
  - exists v. by split_and!.
Qed.

Lemma coherent_end s s' l : coherent s -> ended s s' l ->
  next_process_tree_id s' = next_process_tree_id s -> session_policy s' = session_policy s ->
  (state (lifecycle s') = state (lifecycle s) \/
   state (lifecycle s') = SessionState.Closed /\ forall e t, is_running s e t -> e ∈ l.*2) ->
  (forall t, bs_contains t (session_revoked_tools s') = true ->
     bs_contains t (session_revoked_tools s) = true \/
     forall e v root, view_of s e = Some v -> v_running v = true -> v_tool v = Some root -> depends s root (mkToolId t) -> e ∈ l.*2) ->
  coherent s'.
Proof.
  intros [C1 C2 C3 C4 C5 C6] He Hn Hp Hs Hr. split.
  - intros e v (v0 & Hv & <- & _)%(ended_view _ _ _ _ _ He). rewrite Hn. by eapply C1.
  - intros e e' v v' (v0 & Hv & <- & _)%(ended_view _ _ _ _ _ He) (v1 & Hv' & <- & _)%(ended_view _ _ _ _ _ He). by apply (C2 _ _ _ _ Hv Hv').
  - destruct Hs as [-> | [-> _]]; auto.
  - intros e Hst. rewrite He. destruct Hs as [Hs|[Hs _]]; [|congruence].
    rewrite (C4 e) by congruence. by case_bool_decide.
  - intros e v Hst (v0 & Hv & _ & _ & Hrun)%(ended_view _ _ _ _ _ He). destruct (v_running v); [|done].
    destruct (Hrun eq_refl) as [Hr0 Hin]. destruct Hs as [Hs|[_ Hall]].
    + rewrite (C5 e v0) in Hr0; [done|congruence|done].
    + exfalso. apply Hin, (Hall e (v_tree v0)). by exists v0.
  - intros e v root t (v0 & Hv & _ & Ht & Hrun)%(ended_view _ _ _ _ _ He) Hr1 Htool Hin.
    destruct (Hrun Hr1) as [Hr0 Hout]. rewrite Htool in Ht. unfold depends. rewrite Hp.
    destruct (Hr _ Hin) as [Hold|Hnew]; [by eapply C6|]. intros Hd. apply Hout. by eapply Hnew.
Qed.

Lemma trees_end s s' l R : coherent s -> ended s s' l -> (forall t e, (t, e) ∈ l -> is_running s e t) ->
  trees s R -> trees s' (R ∖ list_to_set l.*1).
Proof.
  intros Hc He Hl H t. rewrite elem_of_difference, elem_of_list_to_set, (H t). split.
  - intros [(e & v & Hv & Hr & <-) Hout]. exists e, v. rewrite He, bool_decide_eq_false_2; [done|].
    intros ((t & e') & -> & Hin)%list_elem_of_fmap. apply Hout. apply list_elem_of_fmap. exists (t, e'). split; [|done].
    destruct (Hl _ _ Hin) as (v' & Hv' & _ & <-). simpl in *. congruence.
  - intros (e & v & Hv & Hr & <-). apply (ended_view _ _ _ _ _ He) in Hv as (v0 & Hv & <- & _ & Hrun).
    destruct (Hrun Hr) as [Hr0 Hout]. split; [by exists e, v0|].
    intros ((t & e') & Ht & Hin)%list_elem_of_fmap. simpl in Ht. destruct (Hl _ _ Hin) as (v' & Hv' & _ & Ht').
    assert (e = e') as -> by (eapply (co_distinct s Hc); [exact Hv|exact Hv'|congruence]).
    apply Hout, list_elem_of_fmap. by exists (t, e').
Qed.

(** ** Ending executions *)

Lemma validate_process_ok p : validate_process p = Ok tt <->
  snapshot_text_valid (ps_argument_count p) (ps_arguments p) (ps_command_display p) (ps_cwd p) (ps_error p) = true /\
  process_status_valid p = true.
Proof. unfold validate_process. destruct (snapshot_text_valid _ _ _ _ _); simpl; rewrite ?ensure_ok; naive_solver. Qed.

Lemma validate_pty_ok p : validate_pty p = Ok tt <->
  snapshot_text_valid (pty_argument_count p) (pty_arguments p) (pty_command_display p) (pty_cwd p) (pty_error p) = true /\
  (pty_rows p <> 0)%N /\ (pty_cols p <> 0)%N /\ pty_status_valid p = true.
Proof.
  unfold validate_pty. destruct (snapshot_text_valid _ _ _ _ _); simpl; [|naive_solver].
  destruct (N.eqb_spec (pty_rows p) 0), (N.eqb_spec (pty_cols p) 0); simpl; rewrite ?ensure_ok; naive_solver.
Qed.

Lemma text_without_error n args display cwd e : snapshot_text_valid n args display cwd e = true ->
  snapshot_text_valid n args display cwd None = true.
Proof. unfold snapshot_text_valid. intros [[[[-> ->]%andb_prop ->]%andb_prop ->]%andb_prop _]%andb_prop. done. Qed.

Lemma terminated_process_ok reason p : process_ok p -> process_ok (with_process_snapshot (terminated_process reason) p).
Proof.
  intros (Hv & Ho & He). split; [|done]. apply validate_process_ok in Hv as [Ht _]. apply validate_process_ok.
  simpl. split; [by apply text_without_error in Ht|]. by destruct reason.
Qed.

Lemma stopped_pty_ok (f : PtySnapshot -> PtySnapshot) p : f = terminated_pty \/ f = stopped_snapshot ->
  pty_ok p -> pty_running (t_snapshot p) = true -> pty_ok (with_pty_snapshot f p).
Proof.
  intros Hf (Hv & Ho) Hr. apply validate_pty_ok in Hv as (Ht & H1 & H2 & Hs).
  split; [|by destruct Hf as [-> | ->]]. apply validate_pty_ok.
  destruct Hf as [-> | ->]; simpl; split_and!; try done. by apply text_without_error in Ht.
Qed.

(** Only the executions differ. *)
Definition only_executions s s' : Prop := s' = set_processes (processes s') (set_ptys (ptys s') s).

Lemma only_executions_trans s s1 s2 : only_executions s s1 -> only_executions s1 s2 -> only_executions s s2.
Proof. unfold only_executions. intros H1 H2. rewrite H2, H1. done. Qed.

Lemma stop_stopped v : v_running v = false -> stop v = v.
Proof. destruct v. simpl. by intros ->. Qed.

Lemma apply_termination_spec e reason s : stored s ->
  stored (apply_execution_termination e reason s) /\ only_executions s (apply_execution_termination e reason s) /\
  forall e', view_of (apply_execution_termination e reason s) e' = if bool_decide (e' = e) then stop <$> view_of s e' else view_of s e'.
Proof.
  intros [Sc Sp St]. destruct e as [id|id]; simpl.
  - destruct (processes s !! id) as [p|] eqn:Ep; [destruct (ps_running (p_snapshot p)) eqn:Er|]; simpl.
    + split; [split; [done| |done]|split; [done|]].
      * intros id' q. simpl. destruct (decide (id' = id)) as [->|]; [rewrite lookup_insert_eq; intros [= <-]|rewrite lookup_insert_ne by done; apply Sp].
        destruct (Sp _ _ Ep) as (H1 & H2 & H3). split_and!; [done..|by apply terminated_process_ok].
      * intros [id'|id']; [|by rewrite bool_decide_eq_false_2 by done]. case_bool_decide as E; simpl.
        -- injection E as ->. by rewrite lookup_insert_eq, Ep.
        -- rewrite lookup_insert_ne; [done|congruence].
    + split; [done|split; [by destruct s|]]. intros e'. case_bool_decide as E; [|done]. subst. simpl. rewrite Ep. simpl. by rewrite stop_stopped.
    + split; [done|split; [by destruct s|]]. intros e'. case_bool_decide as E; [|done]. subst. simpl. by rewrite Ep.
  - destruct (ptys s !! id) as [p|] eqn:Ep; [destruct (pty_running (t_snapshot p)) eqn:Er|]; simpl.
    + split; [split; [done|done|]|split; [done|]].
      * intros id' q. simpl. destruct (decide (id' = id)) as [->|]; [rewrite lookup_insert_eq; intros [= <-]|rewrite lookup_insert_ne by done; apply St].
        destruct (St _ _ Ep) as (H1 & H2 & H3). split_and!; [done..|apply stopped_pty_ok; auto].
      * intros [id'|id']; [by rewrite bool_decide_eq_false_2 by done|]. case_bool_decide as E; simpl.
        -- injection E as ->. by rewrite lookup_insert_eq, Ep.
        -- rewrite lookup_insert_ne; [done|congruence].
    + split; [done|split; [by destruct s|]]. intros e'. case_bool_decide as E; [|done]. subst. simpl. rewrite Ep. simpl. by rewrite stop_stopped.
    + split; [done|split; [by destruct s|]]. intros e'. case_bool_decide as E; [|done]. subst. simpl. by rewrite Ep.
Qed.

Lemma apply_terminations_spec reason l s : stored s ->
  stored (apply_terminations reason l s) /\ only_executions s (apply_terminations reason l s) /\
  ended s (apply_terminations reason l s) l.
Proof.
  unfold apply_terminations, ended. revert s. induction l as [|[t e] l IH]; intros s Hs; simpl.
  - split; [done|split; [by destruct s|done]].
  - destruct (apply_termination_spec e reason s Hs) as (Hs1 & Ho1 & Hv1). destruct (IH _ Hs1) as (Hs2 & Ho2 & Hv2).
    split; [done|split; [by eapply only_executions_trans|]]. intros e'. rewrite Hv2, Hv1.
    repeat case_bool_decide; try set_solver; by destruct (view_of s e') as [[]|].
Qed.

Definition all_running s (l : list (N * MockExecution)) : Prop := NoDup l.*2 /\ forall t e, (t, e) ∈ l -> is_running s e t.

Lemma active_running s : stored s -> all_running s (active_executions s).
Proof. intros Hs%stored_filed. split; [by apply active_nodup|]. intros t e. by apply elem_active. Qed.

Lemma running_trees_nodup s l : coherent s -> all_running s l -> NoDup l.*1.
Proof.
  intros Hc [Hd Hl]. apply NoDup_fmap_fst; [|by apply NoDup_fmap_1 in Hd].
  intros t e e' (v & Hv & _ & Ht)%Hl (v' & Hv' & _ & Ht')%Hl. eapply (co_distinct s Hc); [exact Hv|exact Hv'|congruence].
Qed.

Lemma replay_app st l l' : replay st (l ++ l') = replay (replay st l) l'.
Proof. apply foldl_app. Qed.

Lemma running_identity s e t : is_running s e t -> exists identity, execution_identity e s = Some (t, identity) /\ process_tree_id identity = t.
Proof.
  intros (v & Hv & _ & <-). destruct e as [id|id]; simpl in *; apply fmap_Some in Hv as (p & -> & ->); by eexists.
Qed.

Lemma replay_end st t context identity reason :
  replay_event st (BrokerEvent.Audit (mkAuditRecord t context (termination_audit_kind identity reason))) =
  (st.1, st.2 ∖ {[process_tree_id identity]}).
Proof. by destruct reason. Qed.

Lemma termination_events_spec reason s l b lo k : context_ok s -> (forall t e, (t, e) ∈ l -> is_running s e t) ->
  planned b lo k -> (N.of_nat (length l) <= k)%N ->
  exists evs b', termination_events reason s l b = Ok (evs, b') /\
    planned b' (lo + N.of_nat (length l)) (k - N.of_nat (length l)) /\ stamped lo evs (lo + N.of_nat (length l)) /\
    Forall (event_ok s) evs /\ forall st R, replay (st, R) evs = (st, R ∖ list_to_set l.*1).
Proof.
  intros Hc. revert b lo k. induction l as [|[t e] l IH]; intros b lo k Hl Hb Hk; simpl.
  - exists [], b. rewrite N.add_0_r, N.sub_0_r. split; [done|]. split; [exact Hb|]. split; [simpl; lia|].
    split; [constructor|]. intros st R. simpl. f_equal. set_solver.
  - destruct (running_identity s e t) as (identity & -> & Ht); [apply Hl; left|].
    destruct (planned_audit_ok (audit_context s) (termination_audit_kind identity reason) b lo k Hb) as (b1 & -> & Hb1); [simpl in Hk; lia|].
    simpl. destruct (IH b1 (lo + 1)%N (k - 1)%N) as (evs & b' & -> & Hb' & Hst & Hok & Hre).
    { intros. apply Hl. by right. } { done. } { simpl in Hk. lia. }
    simpl. eexists _, b'. split; [done|].
    replace (lo + N.of_nat (S (length l)))%N with (lo + 1 + N.of_nat (length l))%N by lia.
    replace (k - N.of_nat (S (length l)))%N with (k - 1 - N.of_nat (length l))%N by lia.
    split; [exact Hb'|]. split; [split; [simpl; lia|done]|]. split.
    + constructor; [|done]. apply audit_ok; [done|]. by destruct reason.
    + intros st R. change (replay (replay_event (st, R) (BrokerEvent.Audit (mkAuditRecord lo (audit_context s)
        (termination_audit_kind identity reason)))) evs = (st, R ∖ ({[t]} ∪ list_to_set l.*1))).
      rewrite replay_end, Hre, Ht. simpl. f_equal. set_solver.
Qed.

(** ** The operations *)

Definition invariant s : Prop := stored s /\ coherent s.

(** The reply and the events of a request of the kind. *)
Definition answers (kind : BrokerRequestKind) s (r : BrokerResponse) s' : Prop :=
  exists new, effect s s' new /\ validate_response r = Ok tt /\ response_allowed kind r = true /\
    Forall (fun e => event_permitted_for kind e = true) new.

Lemma effect_same s s' : invariant s -> stored s' -> session_id s' = session_id s -> session_policy s' = session_policy s ->
  (forall e, view_of s' e = view_of s e) -> events s' = events s -> next_timestamp s' = next_timestamp s ->
  next_process_tree_id s' = next_process_tree_id s -> lifecycle s' = lifecycle s ->
  session_revoked_tools s' = session_revoked_tools s -> effect s s' [].
Proof.
  intros [Hs Hc] Hs' Hi Hp Hv He Ht Hn Hl Hr. split; [done|done|by eapply coherent_same|..].
  - by rewrite He, app_nil_r.
  - simpl. lia.
  - constructor.
  - intros R HR. exists R. rewrite Hl. split; [done|]. by eapply trees_same.
  - by rewrite Hr.
Qed.

Lemma effect_refl s : invariant s -> effect s s [].
Proof. intros H. apply effect_same; try done. apply H. Qed.

Lemma answers_same kind s r : invariant s -> validate_response r = Ok tt -> response_allowed kind r = true -> answers kind s r s.
Proof. intros Hi Hv Hr. exists []. split; [by apply effect_refl|]. split_and!; [done..|constructor]. Qed.

Lemma runs_error kind s c subject (H : invariant s) :
  validate_operation_error (mkOperationError c subject (operation_message c)) = Ok tt ->
  operation_error_allowed kind (mkOperationError c subject (operation_message c)) = true ->
  runs s (mtry (operation_error c subject)) s (answers kind s).
Proof.
  intros Hv Ha. apply runs_try. unfold operation_error, new_operation_error. rewrite Hv. simpl. by apply answers_same.
Qed.

Lemma settles_ensured b (P : unit -> Prop) : (b = true -> P tt) -> settles (ensure b) P.
Proof. destruct b; simpl; auto. Qed.

Lemma read_chunk_settles bytes off max (P : list byte * N -> Prop) : (forall x, P x) -> settles (read_chunk bytes off max) P.
Proof.
  intros H. unfold read_chunk, u64_of_len, counter_add. destruct (N.of_nat (length bytes) <? 2 ^ 64)%N; simpl; [|done].
  by destruct (_ <? 2 ^ 64)%N; simpl.
Qed.

Lemma wire_bytes_settles bytes (P : WireBytes -> Prop) : (forall x, P x) -> settles (new_wire_bytes bytes) P.
Proof. intros H. unfold new_wire_bytes. by destruct (_ <? _)%N; simpl. Qed.

Lemma validate_process_settles p (P : unit -> Prop) : (validate_process p = Ok tt -> P tt) -> settles (validate_process p) P.
Proof. unfold validate_process. destruct (negb _); simpl; [done|]. unfold ensure. by destruct (process_status_valid p); simpl; auto. Qed.

Lemma validate_pty_settles p (P : unit -> Prop) : (validate_pty p = Ok tt -> P tt) -> settles (validate_pty p) P.
Proof. unfold validate_pty. destruct (_ || _); simpl; [done|]. unfold ensure. by destruct (pty_status_valid p); simpl; auto. Qed.

Lemma checked_add_settles a b (P : N -> Prop) : P (a + b)%N -> settles (checked_add_u64 a b) P.
Proof. unfold checked_add_u64. by destruct (_ <? _)%N. Qed.

Lemma settles_check {A : Type} (r : result A) (P : A -> Prop) : settles r (fun _ => True) -> (forall a, r = Ok a -> P a) -> settles r P.
Proof. destruct r; simpl; auto. Qed.

Lemma process_read_settles r : settles (validate_process_read r) (fun _ => True).
Proof.
  unfold validate_process_read. apply settles_bind, validate_process_settles. intros _.
  apply settles_bind, checked_add_settles, settles_bind, checked_add_settles. by apply settles_ensured.
Qed.

Lemma pty_read_settles r : settles (validate_pty_read r) (fun _ => True).
Proof.
  unfold validate_pty_read. apply settles_bind, validate_pty_settles. intros _.
  apply settles_bind, checked_add_settles. by apply settles_ensured.
Qed.

Lemma process_read_runs s id o1 o2 max : invariant s -> runs s (process_read id o1 o2 max) s (answers RequestKind.ProcessRead s).
Proof.
  intros H. unfold process_read. apply runs_then. simpl. unfold runs at 1. simpl.
  destruct (processes s !! id) as [p|]; [|by apply runs_error].
  apply runs_then, runs_try, read_chunk_settles. intros [c1 p1]. apply runs_then, runs_try, read_chunk_settles. intros [c2 p2].
  apply runs_then, runs_try, wire_bytes_settles. intros w1. apply runs_then, runs_try, wire_bytes_settles. intros w2.
  apply runs_then, runs_try, settles_check; [apply process_read_settles|]. intros [] Hv. by apply answers_same.
Qed.

Lemma pty_read_runs s id o max : invariant s -> runs s (pty_read id o max) s (answers RequestKind.PtyRead s).
Proof.
  intros H. unfold pty_read. apply runs_then. unfold runs at 1. simpl.
  destruct (ptys s !! id) as [p|]; [|by apply runs_error].
  apply runs_then, runs_try, read_chunk_settles. intros [c1 p1].
  apply runs_then, runs_try, wire_bytes_settles. intros w1.
  apply runs_then, runs_try, settles_check; [apply pty_read_settles|]. intros [] Hv. by apply answers_same.
Qed.

Lemma process_response s id p : stored s -> processes s !! id = Some p -> validate_process (p_snapshot p) = Ok tt.
Proof. intros Hs Hp. by apply (st_process _ Hs) in Hp as (_ & _ & ? & _). Qed.

Lemma pty_response s id p : stored s -> ptys s !! id = Some p -> validate_pty (t_snapshot p) = Ok tt.
Proof. intros Hs Hp. by apply (st_pty _ Hs) in Hp as (_ & _ & ? & _). Qed.

(** An entry that is replaced by one of the same number. *)
Lemma stored_process s id p f : stored s -> processes s !! id = Some p ->
  ps_id (p_snapshot (f p)) = ps_id (p_snapshot p) -> process_ok (f p) ->
  stored (set_processes (<[id := f p]> (processes s)) s).
Proof.
  intros [Sc Sp St] Hp Hid Hok. split; [done| |done]. intros id' q. simpl.
  destruct (decide (id' = id)) as [->|]; [rewrite lookup_insert_eq; intros [= <-]|rewrite lookup_insert_ne by done; apply Sp].
  destruct (Sp _ _ Hp) as (? & ? & _). split_and!; congruence || done.
Qed.

Lemma stored_pty s id p f : stored s -> ptys s !! id = Some p ->
  pty_id (t_snapshot (f p)) = pty_id (t_snapshot p) -> pty_ok (f p) -> stored (set_ptys (<[id := f p]> (ptys s)) s).
Proof.
  intros [Sc Sp St] Hp Hid Hok. split; [done|done|]. intros id' q. simpl.
  destruct (decide (id' = id)) as [->|]; [rewrite lookup_insert_eq; intros [= <-]|rewrite lookup_insert_ne by done; apply St].
  destruct (St _ _ Hp) as (? & ? & _). split_and!; congruence || done.
Qed.

Lemma view_process s id p (f : MockProcess -> MockProcess) (g : view -> view) e : processes s !! id = Some p ->
  process_view (f p) = g (process_view p) ->
  view_of (set_processes (<[id := f p]> (processes s)) s) e = if bool_decide (e = MockExecution.Process id) then g <$> view_of s e else view_of s e.
Proof.
  intros Hp Hf. destruct e as [id'|id']; [|by rewrite bool_decide_eq_false_2 by done]. case_bool_decide as E; simpl.
  - injection E as ->. rewrite lookup_insert_eq, Hp. simpl. by rewrite Hf.
  - rewrite lookup_insert_ne; [done|congruence].
Qed.

Lemma view_pty s id p (f : MockPty -> MockPty) (g : view -> view) e : ptys s !! id = Some p ->
  pty_view (f p) = g (pty_view p) ->
  view_of (set_ptys (<[id := f p]> (ptys s)) s) e = if bool_decide (e = MockExecution.Pty id) then g <$> view_of s e else view_of s e.
Proof.
  intros Hp Hf. destruct e as [id'|id']; [by rewrite bool_decide_eq_false_2 by done|]. case_bool_decide as E; simpl.
  - injection E as ->. rewrite lookup_insert_eq, Hp. simpl. by rewrite Hf.
  - rewrite lookup_insert_ne; [done|congruence].
Qed.

Lemma view_same s s' x : (forall e, view_of s' e = if bool_decide (e = x) then id <$> view_of s e else view_of s e) ->
  forall e, view_of s' e = view_of s e.
Proof. intros H e. rewrite H. case_bool_decide; [|done]. by destruct (view_of s e). Qed.

Lemma pty_write_runs s id bytes : invariant s -> runs s (pty_write id bytes) s (answers RequestKind.PtyWrite s).
Proof.
  intros H. unfold pty_write. apply runs_then, runs_injected, runs_then. unfold runs at 1. simpl.
  destruct (ptys s !! id) as [p|] eqn:Ep; [|by apply runs_error].
  destruct (pty_running (t_snapshot p)) eqn:Er; simpl; [|by apply runs_error].
  pose proof (pty_response _ _ _ (proj1 H) Ep) as Hv. exists []. split; [|split_and!; [done..|constructor]].
  pose (f := fun p => mkMockPty (t_snapshot p) (t_output p) (t_input p ++ bytes) (t_tool_id p)).
  apply effect_same; try done.
  - apply (stored_pty s id p f); [apply H|done..|]. by apply (st_pty _ (proj1 H)) in Ep as (_ & _ & ?).
  - apply (view_same s _ (MockExecution.Pty id)). intros e. by apply (view_pty s id p f Datatypes.id).
Qed.

Lemma pty_resize_runs s id rows cols : (rows <> 0)%N -> (cols <> 0)%N -> invariant s ->
  runs s (pty_resize id rows cols) s (answers RequestKind.PtyResize s).
Proof.
  intros Hr Hc H. unfold pty_resize. apply runs_then, runs_injected, runs_then. unfold runs at 1. simpl.
  destruct (ptys s !! id) as [p|] eqn:Ep; [|by apply runs_error].
  destruct (pty_running (t_snapshot p)) eqn:Er; simpl; [|by apply runs_error].
  assert (Hv : pty_ok (with_pty_snapshot (resized_snapshot rows cols) p)).
  { apply (st_pty _ (proj1 H)) in Ep as (_ & _ & Hv & Ho). split; [|done]. apply validate_pty_ok in Hv as (? & _ & _ & ?).
    by apply validate_pty_ok. }
  exists []. split; [|split_and!; [apply Hv|done|constructor]].
  pose (f := with_pty_snapshot (resized_snapshot rows cols)). apply effect_same; try done.
  - by apply (stored_pty s id p f); [apply H|..].
  - apply (view_same s _ (MockExecution.Pty id)). intros e. by apply (view_pty s id p f Datatypes.id).
Qed.

(** ** Operations that end executions *)

Lemma ended_one s s' x t : (forall e, view_of s' e = if bool_decide (e = x) then stop <$> view_of s e else view_of s e) ->
  ended s s' [(t, x)].
Proof.
  intros H e. rewrite H. destruct (decide (e = x)) as [->|Hne].
  - by rewrite !bool_decide_eq_true_2 by set_solver.
  - by rewrite !bool_decide_eq_false_2 by set_solver.
Qed.

Lemma stored_frame s s' : stored s -> audit_context s' = audit_context s -> session_id s' = session_id s ->
  session_policy s' = session_policy s -> processes s' = processes s -> ptys s' = ptys s ->
  next_process_id s' = next_process_id s -> next_pty_id s' = next_pty_id s -> stored s'.
Proof.
  intros [Sc Sp St] H1 H2 H3 H4 H5 H6 H7. split.
  - unfold context_ok. by rewrite H1, H2, H3.
  - intros id p. rewrite H4, H6. apply Sp.
  - intros id p. rewrite H5, H7. apply St.
Qed.

(** One execution ends, with one record of it. *)
Lemma effect_end_one s s' x tree identity k more : invariant s -> stored s' -> session_id s' = session_id s -> session_policy s' = session_policy s ->
  (forall e, view_of s' e = if bool_decide (e = x) then stop <$> view_of s e else view_of s e) -> is_running s x tree ->
  process_tree_id identity = tree -> validate_event k = Ok tt ->
  (forall st t, replay_event st (BrokerEvent.Audit (mkAuditRecord t (audit_context s) k)) = (st.1, st.2 ∖ {[process_tree_id identity]})) ->
  next_process_tree_id s' = next_process_tree_id s -> lifecycle s' = lifecycle s ->
  session_revoked_tools s' = session_revoked_tools s -> next_timestamp s' = (next_timestamp s + 1)%N ->
  more = [] \/ (exists reason, more = [termination_event reason [tree] s]) ->
  events s' = events s ++ BrokerEvent.Audit (mkAuditRecord (next_timestamp s) (audit_context s) k) :: more ->
  effect s s' (BrokerEvent.Audit (mkAuditRecord (next_timestamp s) (audit_context s) k) :: more).
Proof.
  intros [Hs Hc] Hs' Hi Hp Hv Hx Htree Hk Hre Hn Hl Hr Ht Hm He.
  assert (Hend : ended s s' [(tree, x)]) by by apply ended_one.
  assert (Hrun : forall t e, (t, e) ∈ [(tree, x)] -> is_running s e t) by (intros t e [= -> ->]%list_elem_of_singleton; done).
  split; [done|done| |done|..].
  - eapply coherent_end; try done; [left; by rewrite Hl|]. intros t. rewrite Hr. by left.
  - split; [simpl; lia|]. rewrite Ht. destruct Hm as [->|[reason ->]]; simpl; lia.
  - constructor; [apply audit_ok; [apply Hs|done]|]. destruct Hm as [->|[reason ->]]; [constructor|].
    constructor; [|constructor]. apply notice_ok, NoDup_singleton.
  - intros R HR. exists (R ∖ list_to_set [(tree, x)].*1). split; [|by eapply trees_end].
    transitivity (replay_event (state (lifecycle s), R) (BrokerEvent.Audit (mkAuditRecord (next_timestamp s) (audit_context s) k))).
    { by destruct Hm as [->|[reason ->]]. }
    rewrite Hre, Hl, Htree. simpl. f_equal. set_solver.
  - by rewrite Hr.
Qed.

Lemma running_process s id p : processes s !! id = Some p -> ps_running (p_snapshot p) = true ->
  is_running s (MockExecution.Process id) (ps_process_tree_id (p_snapshot p)).
Proof. intros Hp Hr. exists (process_view p). simpl. by rewrite Hp. Qed.

Lemma running_pty s id p : ptys s !! id = Some p -> pty_running (t_snapshot p) = true ->
  is_running s (MockExecution.Pty id) (pty_process_tree_id (t_snapshot p)).
Proof. intros Hp Hr. exists (pty_view p). simpl. by rewrite Hp. Qed.

Lemma pty_stop_runs s id : invariant s -> runs s (pty_stop id) s (answers RequestKind.PtyStop s).
Proof.
  intros H. unfold pty_stop. apply runs_then, runs_injected, runs_then. unfold runs at 1. simpl.
  destruct (ptys s !! id) as [p|] eqn:Ep; [|by apply runs_error].
  pose proof (pty_response _ _ _ (proj1 H) Ep) as Hv.
  destruct (pty_running (t_snapshot p)) eqn:Er; simpl; [|by apply answers_same].
  apply runs_then, runs_batch. intros b Hb. eapply runs_then, runs_audit; [exact Hb|done|]. intros b1 Hb1.
  eapply runs_then, runs_finish; [exact Hb1|done|]. apply runs_then. unfold runs at 1. simpl. rewrite Ep.
  assert (Hok : pty_ok (with_pty_snapshot stopped_snapshot p)).
  { apply stopped_pty_ok; [auto| |done]. by apply (st_pty _ (proj1 H)) in Ep as (_ & _ & ?). }
  eexists. split; [eapply (effect_end_one s _ (MockExecution.Pty id) _ (execution_of_pty (t_snapshot p))); try done; try (simpl; lia)|].
  - eapply stored_frame; [by apply (stored_pty s id p (with_pty_snapshot stopped_snapshot)); [apply H|..]|done..].
  - intros e. apply (view_pty s id p (with_pty_snapshot stopped_snapshot) stop e Ep). done.
  - by apply running_pty.
  - done.
  - done.
  - by right; eexists.
  - split_and!; [apply Hok|done|by repeat constructor].
Qed.

Lemma process_cancel_runs s id : invariant s -> runs s (process_cancel id) s (answers RequestKind.ProcessCancel s).
Proof.
  intros H. unfold process_cancel. apply runs_then, runs_injected, runs_then. unfold runs at 1. simpl.
  destruct (processes s !! id) as [p|] eqn:Ep; [|by apply runs_error].
  pose proof (process_response _ _ _ (proj1 H) Ep) as Hv.
  destruct (ps_running (p_snapshot p)) eqn:Er; simpl; [|by apply answers_same].
  apply runs_then, runs_batch. intros b Hb. eapply runs_then, runs_audit; [exact Hb|done|]. intros b1 Hb1.
  eapply runs_then, runs_finish; [exact Hb1|done|]. unfold runs at 1. cbn -[apply_execution_termination].
  destruct (apply_termination_spec (MockExecution.Process id) TerminationReason.CancelledByHost s (proj1 H)) as (Hs' & _ & Hview).
  simpl in Hs', Hview |- *. rewrite Ep, Er in *. simpl in *. rewrite lookup_insert_eq. simpl.
  assert (Hok : process_ok (with_process_snapshot (terminated_process TerminationReason.CancelledByHost) p)).
  { apply terminated_process_ok. by apply (st_process _ (proj1 H)) in Ep as (_ & _ & ?). }
  eexists. split; [eapply (effect_end_one s _ (MockExecution.Process id) _ (execution_of_process (p_snapshot p))); try done; try (simpl; lia)|].
  - by eapply stored_frame; [exact Hs'|..].
  - by apply running_process.
  - done.
  - done.
  - by right; eexists.
  - split_and!; [apply Hok|done|by repeat constructor].
Qed.

Lemma exited_process_ok code p stdin : process_ok p -> ps_running (p_snapshot p) = true ->
  process_ok (mkMockProcess (exited_snapshot code (p_snapshot p)) (p_stdout p) (p_stderr p) stdin (p_tool_id p)).
Proof.
  intros (Hv & Ho & He) Hr. split; [|done]. apply validate_process_ok in Hv as [Ht Hst]. apply validate_process_ok. simpl.
  split; [done|]. unfold process_status_valid in *. simpl. rewrite Hr in Hst. destruct (ps_status (p_snapshot p)); try discriminate Hst.
  simpl in Hst. destruct (ps_error (p_snapshot p)), (ps_timed_out (p_snapshot p)), (ps_cancelled (p_snapshot p)); simpl in *;
    rewrite ?andb_false_r in Hst; try discriminate Hst.
  unfold success_is_zero. apply Bool.eqb_true_iff. destruct (Z.eqb_spec code 0) as [->|Hne]; [done|].
  symmetry. apply bool_decide_eq_false. congruence.
Qed.

Lemma process_write_runs s id bytes close : invariant s -> runs s (process_write id bytes close) s (answers RequestKind.ProcessWrite s).
Proof.
  intros H. unfold process_write. apply runs_then, runs_injected, runs_then. unfold runs at 1. simpl.
  destruct (processes s !! id) as [p|] eqn:Ep; [|by apply runs_error].
  pose proof (process_response _ _ _ (proj1 H) Ep) as Hv.
  destruct (ps_running (p_snapshot p)) eqn:Er; simpl; [|by apply runs_error].
  destruct (ps_stdin_open (p_snapshot p)) eqn:Eo; simpl; [|by apply runs_error].
  assert (Hok : process_ok p) by by apply (st_process _ (proj1 H)) in Ep as (_ & _ & ?).
  destruct close.
  - apply runs_then, runs_then, runs_batch. intros b Hb. eapply runs_then, runs_audit; [exact Hb|done|]. intros b1 Hb1.
    eapply runs_then, runs_finish; [exact Hb1|done|]. unfold runs, mthen, mself, mok, mset. simpl. rewrite Ep. simpl.
    pose proof (exited_process_ok (scripted_exit_code (config s)) p (p_stdin p ++ bytes) Hok Er) as Hok'.
    pose (f := fun p => mkMockProcess (exited_snapshot (scripted_exit_code (config s)) (p_snapshot p)) (p_stdout p) (p_stderr p)
      (p_stdin p ++ bytes) (p_tool_id p)).
    eexists. split; [eapply (effect_end_one s _ (MockExecution.Process id) _ (execution_of_process (p_snapshot p))); try done; try (simpl; lia)|].
    + by eapply stored_frame; [apply (stored_process s id p f); [apply H|..]|..].
    + intros e. by apply (view_process s id p f stop e Ep).
    + by apply running_process.
    + done.
    + done.
    + by left.
    + split_and!; [apply Hok'|done|by repeat constructor].
  - unfold runs, mthen, mself, mok, mset. simpl. rewrite Ep. simpl.
    exists []. split; [|split_and!; [done..|constructor]].
    pose (f := fun p => mkMockProcess (p_snapshot p) (p_stdout p) (p_stderr p) (p_stdin p ++ bytes) (p_tool_id p)).
    apply effect_same; try done.
    + by eapply stored_frame; [apply (stored_process s id p f); [apply H|..]|..].
    + apply (view_same s _ (MockExecution.Process id)). intros e. by apply (view_process s id p f Datatypes.id).
    + simpl. by rewrite app_nil_r.
Qed.

(** ** Launches *)

Definition not_revoked s (tool : option ToolId) : Prop :=
  forall root t, tool = Some root -> bs_contains t (session_revoked_tools s) = true -> ~ depends s root (mkToolId t).

Definition starting s : bool := bool_decide (state (lifecycle s) = SessionState.Ready).

Definition launch_events s surface tool count : list BrokerEvent :=
  let audit t k := BrokerEvent.Audit (mkAuditRecord t (audit_context s) k) in
  let now := next_timestamp s in
  [audit now (AuditEventKind.LaunchRequested surface tool count);
   audit (now + 1 + 1)%N (AuditEventKind.ProcessTreeStarted (next_process_tree_id s))] ++
  if starting s then [audit (now + 1 + 1 + 1)%N (AuditEventKind.StateTransition (state (lifecycle s)) SessionState.Running)] else [].

Lemma effect_start s s' x surface tool count : invariant s -> live (state (lifecycle s)) -> view_of s x = None -> stored s' ->
  session_id s' = session_id s -> session_policy s' = session_policy s ->
  (forall e, view_of s' e = if bool_decide (e = x) then Some (mkView (next_process_tree_id s) true tool) else view_of s e) ->
  next_process_tree_id s' = (next_process_tree_id s + 1)%N -> state (lifecycle s') = SessionState.Running ->
  session_revoked_tools s' = session_revoked_tools s -> not_revoked s tool ->
  next_timestamp s' = (if starting s then next_timestamp s + 1 + 1 + 1 + 1 else next_timestamp s + 1 + 1 + 1)%N ->
  events s' = events s ++ launch_events s surface tool count ->
  effect s s' (launch_events s surface tool count).
Proof.
  intros [Hs Hc] Hl Hx Hs' Hi Hp Hv Hn Hst Hr Ht Hts He. split; [done|done| |done|..].
  - by eapply coherent_start.
  - rewrite Hts. unfold launch_events. destruct (starting s); simpl; lia.
  - unfold launch_events. repeat constructor; [by apply audit_ok; [apply Hs|]..|]. destruct (starting s) eqn:E; [|constructor].
    constructor; [|constructor]. apply audit_ok; [apply Hs|]. apply bool_decide_eq_true_1 in E. by rewrite E.
  - intros R HR. exists ({[next_process_tree_id s]} ∪ R). split; [|by eapply trees_start]. unfold launch_events. rewrite Hst.
    destruct (starting s) eqn:E; simpl; [done|]. apply bool_decide_eq_false_1 in E. by destruct Hl as [Hl| ->].
  - by rewrite Hr.
Qed.

Lemma launch_transition_ok s b lo : live (state (lifecycle s)) -> planned b lo (if starting s then 1 else 0) ->
  exists l events b', launch_transition (starting s) s b = Ok (l, events, b') /\ state l = SessionState.Running /\
    planned b' (if starting s then lo + 1 else lo) 0 /\
    events = if starting s then [BrokerEvent.Audit (mkAuditRecord lo (audit_context s)
      (AuditEventKind.StateTransition (state (lifecycle s)) SessionState.Running))] else [].
Proof.
  intros Hl Hb. unfold launch_transition. destruct (starting s) eqn:E.
  - apply bool_decide_eq_true_1 in E. unfold transition. rewrite E. cbn [transition_allowed negb rbind].
    destruct (planned_audit_ok (audit_context s) (AuditEventKind.StateTransition SessionState.Ready SessionState.Running) b lo 1 Hb)
      as (b' & -> & Hb'); [done|]. simpl. by eexists _, _, b'.
  - apply bool_decide_eq_false_1 in E. eexists _, _, b. destruct Hl as [?|Hl]; [done|]. by split_and!.
Qed.

Lemma counter_add_settles a b (P : N -> Prop) : P (a + b)%N -> settles (counter_add a b) P.
Proof. unfold counter_add. by destruct (_ <? _)%N. Qed.

Lemma truncate_fits bytes : (N.of_nat (length bytes) < 2 ^ 64)%N -> fits bytes (N.of_nat (length bytes)).
Proof. by split. Qed.

Lemma fresh_process s : stored s -> view_of s (MockExecution.Process (next_process_id s)) = None.
Proof.
  intros Hs. simpl. destruct (processes s !! next_process_id s) eqn:E; [|done]. apply (st_process _ Hs) in E. lia.
Qed.

Lemma fresh_pty s : stored s -> view_of s (MockExecution.Pty (next_pty_id s)) = None.
Proof. intros Hs. simpl. destruct (ptys s !! next_pty_id s) eqn:E; [|done]. apply (st_pty _ Hs) in E. lia. Qed.

Lemma launch_permitted s surface tool count kind : kind = RequestKind.ProcessStart \/ kind = RequestKind.PtyStart ->
  Forall (fun e => event_permitted_for kind e = true) (launch_events s surface tool count).
Proof. unfold launch_events. intros [-> | ->]; destruct (starting s); repeat constructor. Qed.

Lemma process_start_runs s request : invariant s -> live (state (lifecycle s)) -> not_revoked s (executable_tool (pl_executable request)) ->
  runs s (handle_process_start request) s (answers RequestKind.ProcessStart s).
Proof.
  intros H Hl Ht. unfold handle_process_start. apply runs_then, runs_injected, runs_then. unfold runs at 1, mself. fold (starting s).
  apply runs_then, runs_batch. intros b Hb.
  eapply runs_then, runs_audit; [exact Hb|by destruct (starting s)|]. intros b1 Hb1.
  apply runs_then, runs_reserve, runs_then, runs_reserve.
  eapply runs_then, runs_take; [exact Hb1|by destruct (starting s)|]. intros b2 Hb2.
  apply runs_then, runs_len. intros Hso. apply runs_then, runs_len. intros Hse.
  apply runs_then, runs_try, validate_process_settles. intros Hv.
  eapply runs_then, runs_audit; [exact Hb2|by destruct (starting s)|]. intros b3 Hb3.
  destruct (launch_transition_ok s b3 (next_timestamp s + 1 + 1 + 1) Hl) as (l & ev & b4 & Etr & Hstate & Hb4 & Hev);
    [revert Hb3; by destruct (starting s)|].
  apply runs_then. eapply runs_pure; [exact Etr|]. apply runs_then. eapply runs_finish; [exact Hb4|done|].
  unfold runs, mthen, mset, mok. cbn -[launch_events]. exists (launch_events s ExecutionSurface.Process (executable_tool (pl_executable request))
    (N.of_nat (length (pl_arguments request)))). subst ev.
  split; [eapply (effect_start s _ (MockExecution.Process (next_process_id s))); try done|split_and!; [exact Hv|done|apply launch_permitted; auto]].
  - by apply fresh_process, H.
  - destruct H as [[Sc Sp St] _]. split; [done| |done]. intros id p. simpl. destruct (decide (id = next_process_id s)) as [->|].
    + rewrite lookup_insert_eq. intros [= <-]. split_and!; [done|simpl; lia|]. split_and!; [exact Hv|by apply truncate_fits..].
    + rewrite lookup_insert_ne by done. intros (? & ? & ?)%Sp. split_and!; [done|lia|done].
  - intros [id|id]; [|by rewrite bool_decide_eq_false_2 by done]. case_bool_decide as E; simpl.
    + injection E as ->. by rewrite lookup_insert_eq.
    + rewrite lookup_insert_ne; [done|congruence].
Qed.

Lemma pty_start_runs s request : invariant s -> live (state (lifecycle s)) -> not_revoked s (executable_tool (ptl_executable request)) ->
  runs s (handle_pty_start request) s (answers RequestKind.PtyStart s).
Proof.
  intros H Hl Ht. unfold handle_pty_start. apply runs_then, runs_injected, runs_then. unfold runs at 1, mself. fold (starting s).
  apply runs_then, runs_batch. intros b Hb.
  eapply runs_then, runs_audit; [exact Hb|by destruct (starting s)|]. intros b1 Hb1.
  apply runs_then, runs_reserve, runs_then, runs_reserve.
  apply runs_then, runs_try, settles_bind, counter_add_settles. destruct (_ <? 2 ^ 32)%N; [|done]. simpl.
  eapply runs_then, runs_take; [exact Hb1|by destruct (starting s)|]. intros b2 Hb2.
  apply runs_then, runs_len. intros Hso.
  apply runs_then, runs_try, validate_pty_settles. intros Hv.
  eapply runs_then, runs_audit; [exact Hb2|by destruct (starting s)|]. intros b3 Hb3.
  destruct (launch_transition_ok s b3 (next_timestamp s + 1 + 1 + 1) Hl) as (l & ev & b4 & Etr & Hstate & Hb4 & Hev);
    [revert Hb3; by destruct (starting s)|].
  apply runs_then. eapply runs_pure; [exact Etr|]. apply runs_then. eapply runs_finish; [exact Hb4|done|].
  unfold runs, mthen, mset, mok. cbn -[launch_events]. exists (launch_events s ExecutionSurface.Pty (executable_tool (ptl_executable request))
    (N.of_nat (length (ptl_arguments request)))). subst ev.
  split; [eapply (effect_start s _ (MockExecution.Pty (next_pty_id s))); try done|split_and!; [exact Hv|done|apply launch_permitted; auto]].
  - by apply fresh_pty, H.
  - destruct H as [[Sc Sp St] _]. split; [done|done|]. intros id p. simpl. destruct (decide (id = next_pty_id s)) as [->|].
    + rewrite lookup_insert_eq. intros [= <-]. split_and!; [done|simpl; lia|]. split; [exact Hv|by apply truncate_fits].
    + rewrite lookup_insert_ne by done. intros (? & ? & ?)%St. split_and!; [done|lia|done].
  - intros [id|id]; [by rewrite bool_decide_eq_false_2 by done|]. case_bool_decide as E; simpl.
    + injection E as ->. by rewrite lookup_insert_eq.
    + rewrite lookup_insert_ne; [done|congruence].
Qed.

(** ** Closing, revoking, releasing *)

Lemma terminate_runs reason s : invariant s ->
  runs s (terminate_session reason) s (fun _ s' => exists new, effect s s' new).
Proof.
  intros H. unfold terminate_session. apply runs_then. unfold runs at 1, mself. case_bool_decide as Ec.
  { exists []. by apply effect_refl. }
  assert (Hl : live (state (lifecycle s))) by by destruct (co_state _ (proj2 H)).
  apply runs_then, runs_batch. rewrite Nat2N.inj_add. intros b Hb.
  assert (Htr : transition SessionState.Stopping (lifecycle s) = (Ok tt, mkLifecycle SessionState.Stopping)).
  { unfold transition. by destruct Hl as [-> | ->]. }
  rewrite Htr. apply runs_then. eapply runs_pure; [done|]. cbn [transition state transition_allowed negb].
  apply runs_then. eapply runs_pure; [done|].
  eapply runs_then, runs_audit; [exact Hb|lia|]. intros b1 Hb1.
  pose proof (active_running s (proj1 H)) as Hact.
  destruct (termination_events_spec reason s (active_executions s) b1 _ _ (st_context _ (proj1 H)) (proj2 Hact) Hb1)
    as (evs & b2 & Eev & Hb2 & Hst & Hok & Hre); [lia|].
  apply runs_then. eapply runs_pure; [exact Eev|].
  eapply runs_then, runs_audit; [exact Hb2|lia|]. intros b3 Hb3. apply runs_then. eapply runs_finish; [exact Hb3|lia|].
  destruct (apply_terminations_spec reason (active_executions s) s (proj1 H)) as (Hs' & Honly & Hend).
  unfold runs, mthen, mset. cbn -[apply_terminations]. eexists. destruct H as [Hs Hc].
  set (s1 := apply_terminations reason (active_executions s) s) in *. rewrite Honly in Hs', Hend |- *.
  split.
  - done.
  - by eapply stored_frame; [exact Hs'|..].
  - eapply coherent_end; [done|exact Hend|done|done|right; split; [done|]|by left].
    intros e t Hr. apply list_elem_of_fmap. exists (t, e). split; [done|]. apply elem_active; [by apply stored_filed|done].
  - done.
  - cbn -[N.add]. split; [lia|]. cbn [at_]. eapply stamped_app; [exact Hst|]. cbn. lia.
  - destruct Hs as [Hctx _ _]. constructor; [apply audit_ok; [done|by destruct Hl as [-> | ->]]|]. constructor; [done|].
    apply Forall_app. split; [done|]. constructor; [apply notice_ok; apply (running_trees_nodup s); [exact Hc|exact Hact]|].
    constructor; [by apply audit_ok|]. by repeat constructor.
  - intros R HR. exists (R ∖ list_to_set (active_executions s).*1). split; [|eapply trees_end; [done|exact Hend|apply Hact|done]].
    cbn -[replay]. change (replay (SessionState.Stopping, R) (evs ++
      [termination_event reason (active_executions s).*1 s; BrokerEvent.Audit (mkAuditRecord (next_timestamp s + 1 + N.of_nat (length (active_executions s)))
         (audit_context s) (AuditEventKind.StateTransition SessionState.Stopping SessionState.Closed));
       BrokerEvent.SessionState SessionState.Closed]) = (SessionState.Closed, R ∖ list_to_set (active_executions s).*1)).
    by rewrite replay_app, Hre.
  - done.
Qed.

Lemma affected_spec s t l : (forall tree e, (tree, e) ∈ l -> is_running s e tree) ->
  exists affected, affected_executions s t l = Ok affected /\ sublist affected l /\
    forall tree e v root, (tree, e) ∈ l -> view_of s e = Some v -> v_tool v = Some root -> depends s root t -> (tree, e) ∈ affected.
Proof.
  induction l as [|[tree e] l IH]; intros Hl; simpl.
  { exists []. split; [done|]. split; [constructor|]. by intros ? ? ? ? ?%elem_of_nil. }
  destruct (Hl tree e) as (v & Hv & _); [left|].
  assert (Htool : execution_tool s e = Ok (v_tool v)).
  { destruct e as [id|id]; simpl in *; apply fmap_Some in Hv as (p & -> & ->); done. }
  rewrite Htool. simpl. destruct IH as (affected & IH & Hsub & Hdep); [intros; apply Hl; by right|].
  assert (Hb : exists b, (match v_tool v with Some root => tool_closure_contains s root t | None => Ok false end) = Ok b /\
    forall root, v_tool v = Some root -> depends s root t -> b = true).
  { destruct (v_tool v) as [root|]; [|by exists false]. destruct (tool_closure_spec s root t) as (b & -> & Hb).
    exists b. split; [done|]. intros ? [= <-]. apply Hb. }
  destruct Hb as (b & -> & Hb). simpl. rewrite IH. simpl. eexists. split; [done|]. split.
  - destruct b; by constructor.
  - intros tree' e' v' root [[= -> ->]|Hin]%elem_of_cons Hv' Hroot Hd.
    + rewrite Hv in Hv'. injection Hv' as <-. rewrite (Hb root) by done. left.
    + destruct b; [right|]; by eapply Hdep.
Qed.

Lemma revoke_runs s tool : invariant s ->
  runs s (revoke tool) s (fun _ s' => (exists new, effect s s' new) /\ bs_contains (tool_str tool) (session_revoked_tools s') = true).
Proof.
  intros H. unfold revoke, revoke_tool. apply runs_then, runs_injected, runs_then. unfold runs at 1, mself.
  pose proof (active_running s (proj1 H)) as [Hnd Hact].
  destruct (affected_spec s tool (active_executions s) Hact) as (affected & Eaff & Hsub & Hdep).
  apply runs_then. eapply runs_pure; [exact Eaff|].
  set (sorted := sort_by (fun a b : N * MockExecution => N.compare a.1 b.1) affected).
  assert (Hperm : sorted ≡ₚ affected) by apply sort_by_perm.
  assert (Hin : forall t e, (t, e) ∈ sorted -> is_running s e t).
  { intros t e. rewrite Hperm. intros Hin. apply Hact. eapply elem_of_submseteq; [exact Hin|]. by apply sublist_submseteq. }
  assert (Hall : all_running s sorted).
  { split; [|done]. rewrite Hperm. eapply sublist_NoDup; [exact Hnd|]. by apply fmap_sublist. }
  apply runs_then, runs_batch. rewrite Nat2N.inj_add. intros b Hb.
  eapply runs_then, runs_audit; [exact Hb|lia|]. intros b1 Hb1.
  destruct (termination_events_spec TerminationReason.ToolRevoked s sorted b1 _ _ (st_context _ (proj1 H)) Hin Hb1)
    as (evs & b2 & Eev & Hb2 & Hst & Hok & Hre); [lia|].
  apply runs_then. eapply runs_pure; [exact Eev|]. apply runs_then. eapply runs_finish; [exact Hb2|lia|].
  set (s0 := set_session_revoked_tools (bs_add (tool_str tool) (session_revoked_tools s)) s).
  assert (Hs0 : stored s0) by (by eapply stored_frame; [apply H|..]).
  destruct (apply_terminations_spec TerminationReason.ToolRevoked sorted s0 Hs0) as (Hs' & Honly & Hend).
  unfold runs, mthen, mset. cbn -[apply_terminations]. fold s0. split.
  2: { rewrite Honly. simpl. by rewrite bs_contains_add, String.eqb_refl. }
  eexists. destruct H as [Hs Hc]. set (s1 := apply_terminations TerminationReason.ToolRevoked sorted s0) in *. rewrite Honly in Hs', Hend |- *.
  assert (Hstop : ended s (set_processes (processes s1) (set_ptys (ptys s1) s0)) sorted) by (intros e; rewrite Hend; done).
  set (notice := match sorted.*1 with [] => [] | _ => [termination_event TerminationReason.ToolRevoked sorted.*1 s] end).
  assert (Hn : Forall (event_ok s) notice /\ (forall lo, stamped lo notice lo) /\ forall st, replay st notice = st).
  { unfold notice. pose proof (notice_ok s TerminationReason.ToolRevoked sorted.*1 (running_trees_nodup s sorted Hc Hall)) as Hno.
    destruct sorted.*1; (split; [repeat constructor; exact Hno|split; [simpl; lia|done]]). }
  destruct Hn as (Hn1 & Hn2 & Hn3). split.
  - done.
  - by eapply stored_frame; [exact Hs'|..].
  - eapply coherent_end; [done|exact Hstop|done|done|by left|].
    intros t. simpl. rewrite bs_contains_add. intros [->%String.eqb_eq|Ht]%orb_true_iff; [right|by left].
    intros e v root Hv Hr Hroot Hd. apply list_elem_of_fmap. exists (v_tree v, e). split; [done|]. rewrite Hperm.
    eapply Hdep; [|exact Hv|exact Hroot|by destruct tool]. apply elem_active; [by apply stored_filed|]. by exists v.
  - done.
  - cbn -[N.add]. split; [lia|]. eapply stamped_app; [exact Hst|apply Hn2].
  - destruct Hs as [Hctx _ _]. constructor; [by apply audit_ok|]. by apply Forall_app.
  - intros R HR. exists (R ∖ list_to_set sorted.*1). split; [|eapply trees_end; [done|exact Hstop|done|done]].
    cbn -[replay]. change (replay (state (lifecycle s), R) (evs ++ notice) = (state (lifecycle s), R ∖ list_to_set sorted.*1)).
    by rewrite replay_app, Hre, Hn3.
  - intros t Ht. simpl. by rewrite bs_contains_add, Ht, orb_true_r.
Qed.

Lemma effect_delete s s' x tree tool : invariant s -> stored s' -> session_id s' = session_id s -> session_policy s' = session_policy s ->
  view_of s x = Some (mkView tree false tool) -> (forall e, view_of s' e = if bool_decide (e = x) then None else view_of s e) ->
  events s' = events s -> next_timestamp s' = next_timestamp s -> next_process_tree_id s' = next_process_tree_id s ->
  lifecycle s' = lifecycle s -> session_revoked_tools s' = session_revoked_tools s -> effect s s' [].
Proof.
  intros [Hs [C1 C2 C3 C4 C5 C6]] Hs' Hi Hp Hx Hv He Ht Hn Hl Hr.
  assert (Hold : forall e v, view_of s' e = Some v -> view_of s e = Some v) by (intros e v; rewrite Hv; by case_bool_decide).
  split; [done|done| |by rewrite He, app_nil_r|simpl; lia|constructor| |by rewrite Hr].
  - split.
    + intros e v Hev%Hold. rewrite Hn. by eapply C1.
    + intros e e' v v' He1%Hold He2%Hold. by apply (C2 _ _ _ _ He1 He2).
    + by rewrite Hl.
    + intros e. rewrite Hl, Hv. intros H. case_bool_decide; [done|exact (C4 e H)].
    + intros e v. rewrite Hl. intros H Hev%Hold. exact (C5 e v H Hev).
    + intros e v root t Hev%Hold. rewrite Hr. unfold depends. rewrite Hp. exact (C6 e v root t Hev).
  - intros R HR. exists R. rewrite Hl. split; [done|]. intros t. rewrite (HR t). split; intros (e & v & Hev & Hrun & Htree).
    + exists e, v. rewrite Hv. case_bool_decide as E; [|done]. subst. rewrite Hx in Hev. by injection Hev as <-.
    + exists e, v. split; [by apply Hold|done].
Qed.

Lemma process_release_runs s id : invariant s -> runs s (process_release id) s (answers RequestKind.ProcessRelease s).
Proof.
  intros H. unfold process_release. apply runs_then. unfold runs at 1. simpl.
  destruct (processes s !! id) as [p|] eqn:Ep; [|by apply runs_error].
  destruct (ps_running (p_snapshot p)) eqn:Er; simpl; [by apply runs_error|].
  exists []. split; [|split_and!; [done..|constructor]].
  apply (effect_delete s _ (MockExecution.Process id) (ps_process_tree_id (p_snapshot p)) (p_tool_id p)); try done.
  - destruct H as [[Sc Sp St] _]. split; [done| |done]. intros id' q. simpl. intros [_ Hq]%lookup_delete_Some. by apply Sp.
  - simpl. rewrite Ep. unfold process_view. simpl. by rewrite Er.
  - intros [id'|id']; [|by rewrite bool_decide_eq_false_2 by done]. case_bool_decide as E; simpl.
    + injection E as ->. by rewrite lookup_delete_eq.
    + rewrite lookup_delete_ne; [done|congruence].
Qed.

Lemma pty_release_runs s id : invariant s -> runs s (pty_release id) s (answers RequestKind.PtyRelease s).
Proof.
  intros H. unfold pty_release. apply runs_then. unfold runs at 1. simpl.
  destruct (ptys s !! id) as [p|] eqn:Ep; [|by apply runs_error].
  destruct (pty_running (t_snapshot p)) eqn:Er; simpl; [by apply runs_error|].
  exists []. split; [|split_and!; [done..|constructor]].
  apply (effect_delete s _ (MockExecution.Pty id) (pty_process_tree_id (t_snapshot p)) (t_tool_id p)); try done.
  - destruct H as [[Sc Sp St] _]. split; [done|done|]. intros id' q. simpl. intros [_ Hq]%lookup_delete_Some. by apply St.
  - simpl. rewrite Ep. unfold pty_view. simpl. by rewrite Er.
  - intros [id'|id']; [by rewrite bool_decide_eq_false_2 by done|]. case_bool_decide as E; simpl.
    + injection E as ->. by rewrite lookup_delete_eq.
    + rewrite lookup_delete_ne; [done|congruence].
Qed.

Lemma reject_runs s executable : runs s (reject_revoked_executable executable) s
  (fun _ s' => s' = s /\ not_revoked s (executable_tool executable)).
Proof.
  unfold runs, reject_revoked_executable. destruct executable as [root|command]; simpl; [|by split].
  destruct (find_revoked_spec s root (bs_elements (session_revoked_tools s))) as (o & -> & Ho). simpl.
  destruct o as [t|]; [done|]. split; [done|]. intros ? t [= <-] Ht. apply Ho; [done|by apply bs_contains_spec].
Qed.

(** ** The checks of a request settle *)

Lemma entries_settle constrained m l : settles (validate_entries_into constrained m l) (fun _ => True).
Proof.
  revert m. induction l as [|e l IH]; intros m; simpl; [done|]. destruct (_ || _); [done|].
  destruct (bt_contains_key _ m); [done|apply IH].
Qed.

Lemma launch_environment_settles p launch (P : EffectiveEnvironment -> Prop) : (forall x, P x) -> settles (resolve_launch_environment p launch) P.
Proof.
  intros H. unfold resolve_launch_environment. apply settles_bind. eapply settles_mono; [|apply entries_settle]. intros; apply H.
Qed.

Lemma surface_settles actual expected surface p : settles (ensure_surface_session actual expected surface p) (fun _ => True).
Proof. unfold ensure_surface_session, ensure_session. apply settles_bind, settles_ensured. intros _. by apply settles_ensured. Qed.

Lemma local_settles r : settles (validate_local r) (fun _ => True).
Proof.
  destruct r; try done; simpl; unfold validate_versions, validate_chunk_bound, validate_process_launch_local,
    validate_pty_launch_local, validate_launch_text, validate_dimensions; try (by apply settles_ensured).
  - apply settles_bind, settles_ensured. intros _. by destruct (_ =? _)%N.
  - apply settles_bind, settles_ensured. intros _. by apply settles_ensured.
  - by destruct (_ =? _)%N.
Qed.

Lemma request_settles session p r : settles (validate_against session p r) (fun _ => True).
Proof.
  unfold validate_against. apply settles_bind. eapply settles_mono; [|apply local_settles]. intros _ _.
  destruct r; try done; try apply surface_settles; try (by apply settles_ensured).
  - apply settles_bind. eapply settles_mono; [|apply surface_settles]. intros _ _. apply settles_bind, settles_ensured. intros _.
    apply settles_bind, launch_environment_settles. intros _. apply settles_bind, checked_add_settles.
    destruct (policy_resource_limits p); [|done]. by destruct (_ || _).
  - apply settles_bind. eapply settles_mono; [|apply surface_settles]. intros _ _. apply settles_bind, settles_ensured. intros _.
    apply settles_bind, launch_environment_settles. intros _. destruct (policy_resource_limits p); [|done]. by destruct (_ <? _)%N.
Qed.

Lemma runs_request request s (Q : unit -> MockSandboxSession -> Prop) :
  (validate_local request = Ok tt -> Q tt s) -> runs s (validate_request request) s Q.
Proof.
  intros H. apply runs_validate; [apply request_settles|]. unfold validate_against.
  destruct (validate_local request) as [[]| | |]; try done. auto.
Qed.

(** ** Commands *)

Lemma values_valid {A B : Type} (m : gmap N A) (f : A -> B) (check : B -> result unit) :
  (forall k a, m !! k = Some a -> check (f a) = Ok tt) -> try_for_each check (f <$> values m) = Ok tt.
Proof.
  intros H. assert (Hv : forall a, a ∈ values m -> check (f a) = Ok tt) by (intros a [k Hk]%elem_values; by eapply H).
  induction (values m) as [|a l IH]; simpl; [done|]. rewrite Hv by left. simpl. apply IH. intros. apply Hv. by right.
Qed.

Lemma handle_open_runs request command s : try_from_request request = Ok command -> invariant s -> live (state (lifecycle s)) ->
  runs s (handle_open command) s (answers (request_kind request) s).
Proof.
  intros Hc H Hl.
  assert (Hend : forall kind reason point, (kind = RequestKind.CloseSession \/ kind = RequestKind.CancelSession) ->
    runs s (let^ _ := injected point in let^ _ := terminate_session reason in mok BrokerResponse.Acknowledged) s (answers kind s)).
  { intros kind reason point Hk. apply runs_then, runs_injected, runs_then. eapply runs_mono; [|by apply terminate_runs].
    intros _ s' [new Hnew]. exists new. split; [done|]. split; [done|]. split; [by destruct Hk as [-> | ->]|].
    apply list.Forall_forall. intros e _. by destruct Hk as [-> | ->]. }
  destruct request; try discriminate Hc; injection Hc as <-; cbn [handle_open request_kind];
    apply runs_then, runs_request; intros Hlocal.
  - apply Hend; auto.
  - apply Hend; auto.
  - apply runs_then. eapply runs_mono; [|apply reject_runs]. intros _ s' [-> Ht]. by apply process_start_runs.
  - apply answers_same; [done| |done]. simpl. apply values_valid. intros k a Hk. by eapply process_response; [apply H|].
  - unfold runs, process_detail. destruct (processes s !! pr_process_id r) as [p|] eqn:Ep; [|by apply runs_error].
    apply answers_same; [done| |done]. by eapply process_response; [apply H|].
  - by apply process_read_runs.
  - by apply process_write_runs.
  - by apply process_cancel_runs.
  - by apply process_release_runs.
  - apply runs_then. eapply runs_mono; [|apply reject_runs]. intros _ s' [-> Ht]. by apply pty_start_runs.
  - apply answers_same; [done| |done]. simpl. apply values_valid. intros k a Hk. by eapply pty_response; [apply H|].
  - unfold runs, pty_detail. destruct (ptys s !! pt_pty_id r) as [p|] eqn:Ep; [|by apply runs_error].
    apply answers_same; [done| |done]. by eapply pty_response; [apply H|].
  - by apply pty_read_runs.
  - by apply pty_write_runs.
  - simpl in Hlocal. apply ensure_ok, andb_prop in Hlocal as [H1%N.ltb_lt H2%N.ltb_lt]. apply pty_resize_runs; [lia|lia|done].
  - by apply pty_stop_runs.
  - by apply pty_release_runs.
Qed.

Lemma handle_runs request command s : try_from_request request = Ok command -> invariant s ->
  runs s (handle command) s (answers (request_kind request) s).
Proof.
  intros Hc H. unfold handle. apply runs_then. unfold runs at 1, mself. case_bool_decide as E.
  - apply runs_try. unfold handle_closed. case_bool_decide; simpl; [|done].
    destruct request; try discriminate Hc; injection Hc as <-; try done; by apply answers_same.
  - apply handle_open_runs; [done|done|]. by destruct (co_state _ (proj2 H)).
Qed.

(** Every command is that of a request. *)
Lemma command_request command : exists request, try_from_request request = Ok command.
Proof.
  destruct command as [r|r|r|r|r|r|r|r|r|r|r|r|r|r|r|r|r];
    [exists (BrokerRequest.CloseSession r)|exists (BrokerRequest.CancelSession r)|exists (BrokerRequest.ProcessStart r)
    |exists (BrokerRequest.ProcessList r)|exists (BrokerRequest.ProcessDetail r)|exists (BrokerRequest.ProcessRead r)
    |exists (BrokerRequest.ProcessWrite r)|exists (BrokerRequest.ProcessCancel r)|exists (BrokerRequest.ProcessRelease r)
    |exists (BrokerRequest.PtyStart r)|exists (BrokerRequest.PtyList r)|exists (BrokerRequest.PtyDetail r)
    |exists (BrokerRequest.PtyRead r)|exists (BrokerRequest.PtyWrite r)|exists (BrokerRequest.PtyResize r)
    |exists (BrokerRequest.PtyStop r)|exists (BrokerRequest.PtyRelease r)]; done.
Qed.

Lemma terminate_op_runs reason s : invariant s -> runs s (terminate reason) s (fun _ s' => exists new, effect s s' new).
Proof.
  intros H. unfold terminate. destruct reason; try done; apply runs_then, runs_injected; by apply terminate_runs.
Qed.

(** ** Whole sessions *)

Inductive operation : Type :=
  | Handle (command : SessionCommand) | Terminate (reason : TerminationReason) | Revoke (tool : ToolId) | Drain.

(** The events that were drained so far, and the session. *)
Definition perform (st : list BrokerEvent * MockSandboxSession) (o : operation) : list BrokerEvent * MockSandboxSession :=
  match o with
  | Handle command => (st.1, (handle command st.2).2)
  | Terminate reason => (st.1, (terminate reason st.2).2)
  | Revoke tool => (st.1, (revoke tool st.2).2)
  | Drain => (st.1 ++ (drain_events st.2).1, (drain_events st.2).2)
  end.

Definition perform_all (s : MockSandboxSession) (l : list operation) : list BrokerEvent * MockSandboxSession := foldl perform ([], s) l.

(** Everything the session has said. *)
Definition log_of (st : list BrokerEvent * MockSandboxSession) : list BrokerEvent := st.1 ++ events st.2.

Definition start : SessionState * gset N := (SessionState.Preparing, ∅).

Record audited s0 (st : list BrokerEvent * MockSandboxSession) : Prop := mkAudited {
  au_invariant : invariant st.2;
  au_same : session_id st.2 = session_id s0 /\ session_policy st.2 = session_policy s0;
  au_stamped : stamped 0 (log_of st) (next_timestamp st.2);
  au_valid : Forall (event_ok s0) (log_of st);
  au_replay : exists R, replay start (log_of st) = (state (lifecycle st.2), R) /\ trees st.2 R;
  au_revoked t : bs_contains t (session_revoked_tools s0) = true -> bs_contains t (session_revoked_tools st.2) = true }.

Lemma audited_effect s0 drained s s' new : audited s0 (drained, s) -> effect s s' new -> audited s0 (drained, s').
Proof.
  intros [Ai [Aid Apo] Ast Av (R & Hre & HR) Arev] [[Eid Epo] Es Ec Eev Est Eva Ere Erev]. simpl in *.
  assert (Hlog : log_of (drained, s') = log_of (drained, s) ++ new) by (unfold log_of; simpl; by rewrite Eev, app_assoc).
  split; rewrite ?Hlog; simpl.
  - by split.
  - split; congruence.
  - by eapply stamped_app.
  - apply Forall_app. split; [done|]. eapply list.Forall_impl; [exact Eva|]. intros e. unfold event_ok. by rewrite Aid, Apo.
  - destruct (Ere R HR) as (R' & Hre' & HR'). exists R'. split; [|done]. by rewrite replay_app, Hre.
  - auto.
Qed.

Lemma audited_runs {A : Type} s0 drained s (m : method A) (Q : A -> MockSandboxSession -> Prop) : audited s0 (drained, s) ->
  (forall a s', Q a s' -> exists new, effect s s' new) -> runs s m s Q -> audited s0 (drained, (m s).2).
Proof.
  unfold runs. intros Ha HQ H. destruct (m s) as [[a|e| |] s']; simpl; try done; [|by subst].
  destruct (HQ _ _ H) as [new Hnew]. by eapply audited_effect.
Qed.

Lemma audited_perform s0 st o : audited s0 st -> audited s0 (perform st o).
Proof.
  destruct st as [drained s]. intros H. pose proof (au_invariant _ _ H) as Hi. simpl in Hi. destruct o as [command|reason|tool|]; simpl.
  - destruct (command_request command) as [request Hreq]. eapply (audited_runs _ _ _ _ _ H); [|by eapply handle_runs].
    intros r s' (new & Hnew & _). by exists new.
  - by eapply (audited_runs _ _ _ _ _ H); [|apply terminate_op_runs].
  - eapply (audited_runs _ _ _ _ _ H); [|by apply revoke_runs]. by intros _ s' [Hnew _].
  - destruct H as [Ai Asame Ast Av (R & Hre & HR) Arev]. simpl in *.
    assert (Hlog : log_of (drained ++ events s, set_events [] s) = log_of (drained, s)) by (unfold log_of; simpl; by rewrite app_nil_r).
    split; rewrite ?Hlog; try done. destruct Ai as [As Ac]. split; [by eapply stored_frame|by eapply coherent_same]. by exists R.
Qed.

Lemma prepared_audited c session scratch p s : prepare_session c session scratch p = Ok s ->
  audited s ([], s) /\ session_id s = session /\ session_policy s = p.
Proof.
  unfold prepare_session. destruct (failures c FailurePoint.Prepare); [done|].
  change mock_identity with (Ok (E := SandboxError) (mkBackendIdentity "mock" "1")). cbn [rbind].
  destruct (new_capabilities _ _ _ _ _ _) as [caps| | |]; try done. cbn [rbind].
  destruct (new_context _ _ _ _ _ _) as [context| | |] eqn:Ec; try done. cbn -[validate_against_policy]. intros [= <-]. split; [|done].
  assert (Hctx : validate_against_policy p context = Ok tt /\ ctx_session_id context = session /\ ctx_broker_protocol context = PROTOCOL_V1).
  { unfold new_context in Ec. destruct (negb _); [done|]. cbv zeta in Ec.
    destruct (validate_against_policy p _) as [[]| | |] eqn:Ev; try done. cbn [rbind] in Ec. injection Ec as <-. by split_and!. }
  split; simpl.
  - split; [split; [done| |]; by intros id q; simpl; rewrite lookup_empty|].
    split; simpl; try done; try (by intros [id|id]); try (by intros [id|id] v; simpl; rewrite lookup_empty).
    left. by left.
  - done.
  - simpl. lia.
  - repeat constructor. by apply (audit_ok (mkSession c session p caps context _ _ _ _ _ _ _ _ _)).
  - exists ∅. split; [done|]. intros t. split; [by intros ?%elem_of_empty|].
    intros ([id|id] & v & Hv & _); simpl in Hv; by rewrite lookup_empty in Hv.
  - done.
Qed.

Lemma performed_audited c session scratch p s0 l : prepare_session c session scratch p = Ok s0 ->
  audited s0 (perform_all s0 l) /\ session_id s0 = session /\ session_policy s0 = p.
Proof.
  intros H%prepared_audited. destruct H as [H ?]. split; [|done]. unfold perform_all. revert H. generalize (@nil BrokerEvent, s0) as st.
  induction l as [|o l IH]; intros st H; simpl; [done|]. by apply IH, audited_perform.
Qed.

(** The times of the audit records. *)
Definition times (log : list BrokerEvent) : list N := omap (fun e => match e with BrokerEvent.Audit r => Some (at_ r) | _ => None end) log.

Lemma stamped_sorted lo log hi : stamped lo log hi -> StronglySorted N.lt (times log) /\ Forall (fun t => (lo <= t)%N) (times log).
Proof.
  revert lo. induction log as [|[r|st|n] log IH]; intros lo; simpl; [repeat constructor| |apply IH..].
  intros [Hr [H1 H2]%IH]. split.
  - constructor; [done|]. eapply list.Forall_impl; [exact H2|]. intros t Ht. simpl in Ht. lia.
  - constructor; [done|]. eapply list.Forall_impl; [exact H2|]. intros t Ht. simpl in Ht. lia.
Qed.

(** C5: the audit trail tells all.  After any commands, terminations,
    revocations and drains of a prepared session, replaying the events it has
    given out gives the state of its life cycle and exactly the process trees
    that run; the records carry strictly increasing times, and every event
    passes the check that a receiver makes of it against the session's
    policy. *)
Theorem audit_trail_complete (c : MockBackendConfig) (session : SessionId) (scratch : ScratchId) (p : ValidatedExecutionPolicy)
    (s0 : MockSandboxSession) (l : list operation) :
  prepare_session c session scratch p = Ok s0 ->
  let st := perform_all s0 l in
  replay (SessionState.Preparing, ∅) (log_of st) = (state (lifecycle st.2), list_to_set (active_executions st.2).*1) /\
  StronglySorted N.lt (times (log_of st)) /\
  Forall (fun e => validate_event_against_policy session p e = Ok tt) (log_of st).
Proof.
  intros H. destruct (performed_audited _ _ _ _ _ l H) as ([Ai _ Ast Av (R & Hre & HR) _] & Hid & Hp). simpl. split; [|split].
  - change (replay start (log_of (perform_all s0 l)) = (state (lifecycle (perform_all s0 l).2), list_to_set (active_executions (perform_all s0 l).2).*1)).
    rewrite Hre. f_equal. apply set_eq. intros t. rewrite (HR t), elem_of_list_to_set, list_elem_of_fmap. split.
    + intros [e He]. exists (t, e). split; [done|]. apply elem_active; [apply stored_filed, Ai|done].
    + intros ([t' e] & -> & Hin). exists e. simpl. apply elem_active; [apply stored_filed, Ai|done].
  - by apply stamped_sorted in Ast as [? _].
  - eapply list.Forall_impl; [exact Av|]. intros e. unfold event_ok. by rewrite Hid, Hp.
Qed.

(** C6: a revoked tool stays out.  Once a revocation has succeeded, whatever
    happens next to the session: no running execution was started with a tool
    that is the revoked one or may come to start it through helpers, and no
    process and no terminal is started with one. *)
Theorem revoked_tools_stay_out (c : MockBackendConfig) (session : SessionId) (scratch : ScratchId) (p : ValidatedExecutionPolicy)
    (s0 s : MockSandboxSession) (before after : list operation) (tool root : ToolId) :
  prepare_session c session scratch p = Ok s0 ->
  revoke tool (perform_all s0 before).2 = (Ok tt, s) ->
  rtc (helps (tools (prepared_catalog p))) root tool ->
  let s' := (foldl perform ((perform_all s0 before).1, s) after).2 in
  (forall id q, processes s' !! id = Some q -> p_tool_id q = Some root -> ps_running (p_snapshot q) = false) /\
  (forall id q, ptys s' !! id = Some q -> t_tool_id q = Some root -> pty_running (t_snapshot q) = false) /\
  (forall request r s'', pl_executable request = ExecutableRef.ManagedTool root ->
     handle (SessionCommand.ProcessStart request) s' <> (Ok r, s'')) /\
  (forall request r s'', ptl_executable request = ExecutableRef.ManagedTool root ->
     handle (SessionCommand.PtyStart request) s' <> (Ok r, s'')).
Proof.
  intros H Hrev Hdep. destruct (performed_audited _ _ _ _ _ before H) as (Ha & _ & Hp).
  pose proof (audited_perform _ _ (Revoke tool) Ha) as Ha1. unfold perform in Ha1. rewrite Hrev in Ha1. cbn [snd] in Ha1.
  assert (Hin : bs_contains (tool_str tool) (session_revoked_tools s) = true).
  { pose proof (revoke_runs _ tool (au_invariant _ _ Ha)) as Hr. unfold runs in Hr. rewrite Hrev in Hr. apply Hr. }
  assert (Hpol : session_policy s = p) by (rewrite <- Hp; apply Ha1).
  assert (Hall : audited s (foldl perform ((perform_all s0 before).1, s) after)).
  { assert (Hself : audited s ((perform_all s0 before).1, s)).
    { destruct Ha1 as [Ai [Aid Apo] Ast Av Are _]. split; try done. eapply list.Forall_impl; [exact Av|].
      intros e. unfold event_ok. simpl in *. by rewrite Aid, Apo. }
    revert Hself. generalize ((perform_all s0 before).1, s) as st. induction after as [|o l IH]; intros st Hst; simpl; [done|].
    by apply IH, audited_perform. }
  generalize dependent (foldl perform ((perform_all s0 before).1, s) after). intros st [[Hs Hc] [_ Hpol'] _ _ _ Hrevoked]. simpl.
  apply Hrevoked in Hin. assert (Hd : depends st.2 root tool) by (unfold depends; by rewrite Hpol', Hpol).
  assert (Hout : forall e v, view_of st.2 e = Some v -> v_tool v = Some root -> v_running v = false).
  { intros e v Hv Ht. destruct (v_running v) eqn:Er; [|done]. exfalso. eapply (co_revoked _ Hc e v root); [done..|by destruct tool]. }
  assert (Hno : (reject_revoked_executable (ExecutableRef.ManagedTool root) st.2).1 <> Ok tt).
  { pose proof (reject_runs st.2 (ExecutableRef.ManagedTool root)) as Hr. unfold runs in Hr.
    destruct (reject_revoked_executable _ st.2) as [[[]| | |] s1]; try done. intros _. destruct Hr as [-> Hr].
    by apply (Hr root (tool_str tool)); [..|destruct tool]. }
  split_and!.
  - intros id q Hq Ht. apply (Hout (MockExecution.Process id) (process_view q)); [by simpl; rewrite Hq|done].
  - intros id q Hq Ht. apply (Hout (MockExecution.Pty id) (pty_view q)); [by simpl; rewrite Hq|done].
  - intros request r s'' Hreq. unfold handle, mthen at 1, mself. case_bool_decide.
    + unfold mtry, handle_closed. case_bool_decide; simpl; congruence.
    + simpl. unfold mthen at 1, validate_request. destruct (validate_against _ _ _) as [[]| | |]; try done. unfold mthen at 1. rewrite Hreq.
      by destruct (reject_revoked_executable _ st.2) as [[[]| | |] s1].
  - intros request r s'' Hreq. unfold handle, mthen at 1, mself. case_bool_decide.
    + unfold mtry, handle_closed. case_bool_decide; simpl; congruence.
    + simpl. unfold mthen at 1, validate_request. destruct (validate_against _ _ _) as [[]| | |]; try done. unfold mthen at 1. rewrite Hreq.
      by destruct (reject_revoked_executable _ st.2) as [[[]| | |] s1].
Qed.

(** C27: a session speaks the protocol.  In any state a prepared session can
    come to, when it answers the command of a request that its client sent,
    the client accepts the answer: the answer passes every check and fits the
    request; and the events of the command pass the check against the
    session's policy and are events that such a request may cause. *)
Theorem answers_accepted (c : MockBackendConfig) (session : SessionId) (scratch : ScratchId) (p : ValidatedExecutionPolicy)
    (s0 s' : MockSandboxSession) (l : list operation) (request : BrokerRequest) (command : SessionCommand) (r : BrokerResponse)
    (id : N) (sent received : ResponseCorrelation) :
  prepare_session c session scratch p = Ok s0 ->
  record_request id request sent = (Ok tt, received) ->
  try_from_request request = Ok command ->
  handle command (perform_all s0 l).2 = (Ok r, s') ->
  (validate_and_complete id r received).1 = Ok tt /\
  exists new, events s' = events (perform_all s0 l).2 ++ new /\
    Forall (fun e => validate_event_against_policy session p e = Ok tt /\ event_permitted_for (request_kind request) e = true) new.
Proof.
  intros H Hrec Hc Hh. destruct (performed_audited _ _ _ _ _ l H) as ([Ai [Aid Apo] _ _ _ _] & Hid & Hp).
  pose proof (handle_runs _ _ _ Hc Ai) as Hr. unfold runs in Hr. rewrite Hh in Hr. destruct Hr as (new & Hnew & Hv & Hallowed & Hperm).
  split.
  - assert (Ho : outstanding received !! id = Some (Outstanding.Ordinary (request_kind request))).
    { unfold record_request, insert_outstanding in Hrec. destruct request; try discriminate Hc;
        (destruct (validate_local _) as [[]| | |]; [|done..]; destruct (outstanding sent !! id); [done|]; injection Hrec as <-;
         apply lookup_insert_eq). }
    unfold validate_and_complete. rewrite Hv, Ho. simpl. by rewrite Hallowed.
  - exists new. split; [apply Hnew|]. pose proof (ef_valid _ _ _ Hnew) as Hval. unfold event_ok in Hval. rewrite Aid, Apo, Hid, Hp in Hval.
    apply list.Forall_forall. intros e He. split; [by eapply list.Forall_forall in Hval|by eapply list.Forall_forall in Hperm].
Qed.

(** What an operation gives when it does not go wrong: a result, or an error
    and the session as it was. *)
Definition atomic {A : Type} (m : method A) s : Prop :=
  (exists a s', m s = (Ok a, s')) \/ (exists e, m s = (Err e, s)).

Lemma runs_atomic {A : Type} (m : method A) s Q : runs s m s Q -> atomic m s.
Proof.
  unfold runs, atomic. destruct (m s) as [[a|e| |] s']; try done; [left; by eexists _, _|]. intros ->. right. by eexists.
Qed.

(** C30: in any state a prepared session can come to, every command, every
    termination and every revocation gives a result, or fails and leaves the
    session exactly as it was, its log and its counters included; none panics,
    and the searches through the helpers of tools end. *)
Theorem session_operations_atomic (c : MockBackendConfig) (session : SessionId) (scratch : ScratchId) (p : ValidatedExecutionPolicy)
    (s0 : MockSandboxSession) (l : list operation) :
  prepare_session c session scratch p = Ok s0 ->
  let s := (perform_all s0 l).2 in
  (forall command, atomic (handle command) s) /\ (forall reason, atomic (terminate reason) s) /\ (forall tool, atomic (revoke tool) s).
Proof.
  intros H. destruct (performed_audited _ _ _ _ _ l H) as ([Ai _ _ _ _ _] & _). split; [|split].
  - intros command. destruct (command_request command) as [request Hc]. by eapply runs_atomic, handle_runs.
  - intros reason. by eapply runs_atomic, terminate_op_runs.
  - intros tool. by eapply runs_atomic, revoke_runs.
Qed.

(** ** An example *)

Definition sample_config : MockBackendConfig := mkConfig (fun _ => None) 3 ["o"; "u"; "t"]%char ["e"]%char.

Definition the {E A : Type} (r : res E A) : match r with Ok _ => A | _ => unit end := match r with Ok a => a | _ => tt end.

Definition sample_policy : ValidatedExecutionPolicy := Eval vm_compute in
  the (let? v := validate (H := same_path) sample_snapshot in validate_policy (H := sample_resolver) (H0 := sample_digest) v sample_request).

Definition sample_session : MockSandboxSession := Eval vm_compute in
  the (prepare_session sample_config (mkSessionId "s") (mkScratchId "x") sample_policy).

Lemma sample_prepared : prepare_session sample_config (mkSessionId "s") (mkScratchId "x") sample_policy = Ok sample_session.
Proof. vm_compute. reflexivity. Qed.

(** Two starts, of which the first is cancelled. *)
Definition sample_run : list operation :=
  [Handle (SessionCommand.ProcessStart sample_launch); Drain; Handle (SessionCommand.ProcessStart sample_launch);
   Handle (SessionCommand.ProcessCancel (mkProcessRequest (mkSessionId "s") 0))].

Lemma audit_trail_complete_witness :
  let st := perform_all sample_session sample_run in
  (active_executions st.2).*1 = [1%N] /\
  replay (SessionState.Preparing, ∅) (log_of st) = (state (lifecycle st.2), list_to_set (active_executions st.2).*1).
Proof.
  split; [vm_compute; reflexivity|].
  exact (proj1 (audit_trail_complete sample_config (mkSessionId "s") (mkScratchId "x") sample_policy sample_session sample_run sample_prepared)).
Defined.

Definition after_revocation : MockSandboxSession := Eval vm_compute in
  (revoke (mkToolId "ssh") (perform_all sample_session sample_run).2).2.

Lemma revoked_tools_stay_out_witness :
  revoke (mkToolId "ssh") (perform_all sample_session sample_run).2 = (Ok tt, after_revocation) /\
  active_executions after_revocation = [] /\
  forall request r s'', pl_executable request = ExecutableRef.ManagedTool (mkToolId "git") ->
    handle (SessionCommand.ProcessStart request) after_revocation <> (Ok r, s'').
Proof.
  assert (Hr : revoke (mkToolId "ssh") (perform_all sample_session sample_run).2 = (Ok tt, after_revocation)) by (vm_compute; reflexivity).
  split; [exact Hr|]. split; [vm_compute; reflexivity|].
  assert (Hd : rtc (helps (tools (prepared_catalog sample_policy))) (mkToolId "git") (mkToolId "ssh")).
  { eapply rtc_l; [|constructor]. eexists. split; [vm_compute; reflexivity|]. vm_compute. left. }
  exact (proj1 (proj2 (proj2 (revoked_tools_stay_out sample_config (mkSessionId "s") (mkScratchId "x") sample_policy sample_session
    after_revocation sample_run [] (mkToolId "ssh") (mkToolId "git") sample_prepared Hr Hd)))).
Defined.

Definition sample_sent : ResponseCorrelation := Eval vm_compute in
  (record_request 9 (BrokerRequest.ProcessStart sample_launch) new_correlation).2.

Definition sample_answer : result BrokerResponse * MockSandboxSession := Eval vm_compute in
  handle (SessionCommand.ProcessStart sample_launch) (perform_all sample_session sample_run).2.

Lemma answers_accepted_witness :
  record_request 9 (BrokerRequest.ProcessStart sample_launch) new_correlation = (Ok tt, sample_sent) /\
  handle (SessionCommand.ProcessStart sample_launch) (perform_all sample_session sample_run).2 = (Ok (the sample_answer.1), sample_answer.2) /\
  (validate_and_complete 9 (the sample_answer.1) sample_sent).1 = Ok tt.
Proof.
  assert (Hs : record_request 9 (BrokerRequest.ProcessStart sample_launch) new_correlation = (Ok tt, sample_sent)) by (vm_compute; reflexivity).
  assert (Hh : handle (SessionCommand.ProcessStart sample_launch) (perform_all sample_session sample_run).2 =
    (Ok (the sample_answer.1), sample_answer.2)) by (vm_compute; reflexivity).
  split; [exact Hs|]. split; [exact Hh|].
  exact (proj1 (answers_accepted sample_config (mkSessionId "s") (mkScratchId "x") sample_policy sample_session sample_answer.2 sample_run
    (BrokerRequest.ProcessStart sample_launch) (SessionCommand.ProcessStart sample_launch) (the sample_answer.1) 9 new_correlation sample_sent
    sample_prepared Hs eq_refl Hh)).
Defined.

Lemma session_operations_atomic_witness :
  prepare_session sample_config (mkSessionId "s") (mkScratchId "x") sample_policy = Ok sample_session /\
  atomic (revoke (mkToolId "git")) (perform_all sample_session sample_run).2.
Proof.
  split; [exact sample_prepared|].
  exact (proj2 (proj2 (session_operations_atomic sample_config (mkSessionId "s") (mkScratchId "x") sample_policy sample_session sample_run
    sample_prepared)) (mkToolId "git")).
Defined.
