(* ===== verification/SandboxFrame.v ===== *)
(** * Authenticated frames (protocol/frame.rs)

    A frame is a length, a JSON payload and a MAC; a codec numbers the
    messages of each direction.  HMAC-SHA256 and the JSON text of an envelope
    are third-party code, and interfaces here: the codec relies on a MAC being
    32 bytes, and its users on the text of a message giving the message back,
    but for the native causes of errors, which are not sent. *)

From stdpp Require Import base tactics list strings option numbers.
From Stdlib Require Import ZArith NArith Lia Ascii String.
From S2P Require Import Prelude RustStr SandboxError SandboxIdentity SandboxCatalog SandboxPolicy SandboxAudit SandboxMessage SandboxProtocol.

Open Scope string_scope.
Open Scope list_scope.
Open Scope nat_scope.

Definition MAX_FRAME_BYTES : N := 1048576.
Definition FRAME_MAC_BYTES : N := 32.

(** 32 bytes. *)
Record ProtocolKey : Type := mkKey { key_bytes : list byte }.

Record ProtocolEnvelope : Type := mkEnvelope { protocol_version : N; sequence : N; envelope_message : ProtocolMessage }.

(** HMAC-SHA256 of a key and a text. *)
Class Hmac : Type := hmac : ProtocolKey -> list byte -> list byte.

(** The JSON text of the fields of an envelope, and the envelope that a text
    spells. *)
Class EnvelopeJson : Type := {
  write_envelope : ProtocolEnvelope -> option (list byte);
  read_envelope : list byte -> option ProtocolEnvelope }.

(** ** What is not sent

    The native cause of an error stays where it was found. *)
Definition wire_error (e : SandboxError) : SandboxError :=
  mkSandboxError (SandboxError.code e) (SandboxError.phase e) (SandboxError.backend e) (SandboxError.failed_guarantee e) (SandboxError.message e)
    (SandboxError.remediation e) (SandboxError.metadata e) None.

Definition wire_process (s : ProcessSnapshot) : ProcessSnapshot :=
  mkProcessSnapshot (ps_id s) (ps_process_tree_id s) (ps_command_display s) (ps_arguments s) (ps_argument_count s)
    (ps_cwd s) (ps_started_at s) (ps_status s) (ps_running s) (ps_success s)
    (ps_exit_code s) (wire_error <$> ps_error s) (stdout_len s) (stderr_len s)
    (stdout_truncated s) (stderr_truncated s) (ps_stdin_open s) (ps_timed_out s) (ps_cancelled s).

Definition wire_pty (s : PtySnapshot) : PtySnapshot :=
  mkPtySnapshot (pty_id s) (pty_process_tree_id s) (pty_command_display s) (pty_arguments s) (pty_argument_count s)
    (pty_cwd s) (pty_started_at s) (pty_status s) (pty_running s) (pty_success s)
    (pty_exit_code s) (wire_error <$> pty_error s) (output_len s) (output_truncated s)
    (pty_rows s) (pty_cols s) (native_process_id s) (pty_stopped s).

Definition wire_response (r : BrokerResponse) : BrokerResponse :=
  match r with
  | BrokerResponse.Process s => BrokerResponse.Process (wire_process s)
  | BrokerResponse.Processes l => BrokerResponse.Processes (wire_process <$> l)
  | BrokerResponse.ProcessRead r =>
      BrokerResponse.ProcessRead (mkProcessReadSnapshot (wire_process (process_snapshot r)) (stdout r) (stderr r) (stdout_offset r) (stderr_offset r))
  | BrokerResponse.Pty s => BrokerResponse.Pty (wire_pty s)
  | BrokerResponse.Ptys l => BrokerResponse.Ptys (wire_pty <$> l)
  | BrokerResponse.PtyRead r => BrokerResponse.PtyRead (mkPtyReadSnapshot (wire_pty (pty_snapshot r)) (output r) (output_offset r))
  | BrokerResponse.Error e => BrokerResponse.Error (wire_error e)
  | r => r
  end.

Definition wire_event (e : BrokerEvent) : BrokerEvent :=
  match e with
  | BrokerEvent.Terminated n => BrokerEvent.Terminated (mkNotice (notice_reason n) (process_tree_ids n) (wire_error <$> notice_error n))
  | e => e
  end.

Definition on_wire (m : ProtocolMessage) : ProtocolMessage :=
  match m with
  | ProtocolMessage.Request id request => ProtocolMessage.Request id request
  | ProtocolMessage.Response id response => ProtocolMessage.Response id (wire_response response)
  | ProtocolMessage.Event session event => ProtocolMessage.Event session (wire_event event)
  end.

(** No check looks at what is not sent. *)
Lemma wire_process_valid s : validate_process (wire_process s) = validate_process s.
Proof. destruct s as [? ? ? ? ? ? ? ? ? ? ? [e|] ? ? ? ? ? ? ?]; reflexivity. Qed.

Lemma wire_pty_valid s : validate_pty (wire_pty s) = validate_pty s.
Proof. destruct s as [? ? ? ? ? ? ? ? ? ? ? [e|] ? ? ? ? ? ?]; reflexivity. Qed.

Lemma try_for_each_wire {A : Type} (check : A -> result unit) (wire : A -> A) l :
  (forall x, check (wire x) = check x) -> try_for_each check (wire <$> l) = try_for_each check l.
Proof. intros Hw. induction l as [|x l IH]; [done|]. rewrite fmap_cons. simpl. by rewrite Hw, IH. Qed.

Lemma wire_valid role m : validate_for role (on_wire m) = validate_for role m.
Proof.
  destruct role, m as [id q|id r|session e]; try done; cbn [on_wire validate_for].
  - destruct r as [| | |s|l|[s ? ? ? ?]|s|l|[s ? ?]| | | |]; cbn [wire_response validate_response]; try done;
      unfold validate_process_read, validate_pty_read; cbn [process_snapshot pty_snapshot];
      rewrite ?wire_process_valid, ?wire_pty_valid; try done; apply try_for_each_wire; [apply wire_process_valid|apply wire_pty_valid].
  - destruct e as [| |[reason ids [e|]]]; done.
Qed.

Section codec.
Context `{Hmac} `{EnvelopeJson}.

(** The envelope's own [Serialize] and [Deserialize]. *)
Definition serialize_envelope (e : ProtocolEnvelope) : option (list byte) :=
  if negb (protocol_version e =? PROTOCOL_V1)%N then None else write_envelope e.

Definition deserialize_envelope (bytes : list byte) : option ProtocolEnvelope :=
  match read_envelope bytes with
  | None => None
  | Some wire => if negb (protocol_version wire =? PROTOCOL_V1)%N then None else Some wire
  end.

(** [u32::to_be_bytes] and [u32::from_be_bytes]. *)
Definition to_be_bytes (n : N) : list byte :=
  ascii_of_N <$> [N.land (N.shiftr n 24) 255; N.land (N.shiftr n 16) 255; N.land (N.shiftr n 8) 255; N.land n 255].

Definition from_be_bytes (l : list byte) : N := foldl (fun n b => N.lor (N.shiftl n 8) (byte_val b)) 0%N l.

Record AuthenticatedCodec : Type := mkCodec {
  local_role : EndpointRole; send_key : ProtocolKey; receive_key : ProtocolKey;
  next_send_sequence : N; next_receive_sequence : N }.

Definition new_codec (role : EndpointRole) (send receive : ProtocolKey) : AuthenticatedCodec := mkCodec role send receive 0 0.

Definition blen (l : list byte) : N := N.of_nat (length l).

(** The frame, and the number of the next message. *)
Definition encode_frame (m : ProtocolMessage) (c : AuthenticatedCodec) : result (list byte * N) :=
  let? _ := validate_for (local_role c) m in
  let? following_sequence := checked_add_u64 (next_send_sequence c) 1 in
  match serialize_envelope (mkEnvelope PROTOCOL_V1 (next_send_sequence c) m) with
  | None => Err protocol_error
  | Some payload =>
      if (blen payload =? 0)%N || (MAX_FRAME_BYTES <? blen payload)%N then Err protocol_error
      else if negb (blen payload <? 2 ^ 32)%N then Err protocol_error
      else
        let frame := to_be_bytes (blen payload) ++ payload in
        Ok (frame ++ hmac (send_key c) frame, following_sequence)
  end.

Definition encode (m : ProtocolMessage) (c : AuthenticatedCodec) : result (list byte) * AuthenticatedCodec :=
  match encode_frame m c with
  | Ok (frame, following) =>
      (Ok frame, mkCodec (local_role c) (send_key c) (receive_key c) following (next_receive_sequence c))
  | Err e => (Err e, c)
  | Panic => (Panic, c)
  | OutOfFuel => (OutOfFuel, c)
  end.

Definition decode_frame (frame : list byte) (c : AuthenticatedCodec) : result (ProtocolMessage * N) :=
  if (blen frame <? 4)%N then Err protocol_error
  else
    let payload_len := from_be_bytes (take 4 frame) in
    if (payload_len =? 0)%N || (MAX_FRAME_BYTES <? payload_len)%N then Err protocol_error
    else
      let? payload_end := checked_add_u64 4 payload_len in
      let? expected_frame_len := checked_add_u64 payload_end FRAME_MAC_BYTES in
      if negb (blen frame =? expected_frame_len)%N then Err protocol_error
      else
        let end_ := N.to_nat payload_end in
        if negb (bool_decide (drop end_ frame = hmac (receive_key c) (take end_ frame))) then Err protocol_error
        else match deserialize_envelope (drop 4 (take end_ frame)) with
          | None => Err protocol_error
          | Some envelope =>
              if negb (sequence envelope =? next_receive_sequence c)%N then Err protocol_error
              else
                let? _ := validate_for (peer (local_role c)) (envelope_message envelope) in
                let? following_sequence := checked_add_u64 (next_receive_sequence c) 1 in
                Ok (envelope_message envelope, following_sequence)
          end.

Definition decode (frame : list byte) (c : AuthenticatedCodec) : result ProtocolMessage * AuthenticatedCodec :=
  match decode_frame frame c with
  | Ok (m, following) =>
      (Ok m, mkCodec (local_role c) (send_key c) (receive_key c) (next_send_sequence c) following)
  | Err e => (Err e, c)
  | Panic => (Panic, c)
  | OutOfFuel => (OutOfFuel, c)
  end.

(** A peer that sends messages until one is refused, and one that reads
    frames and skips those it refuses. *)
Fixpoint encode_all (ms : list ProtocolMessage) (c : AuthenticatedCodec) : result (list (list byte)) * AuthenticatedCodec :=
  match ms with
  | [] => (Ok [], c)
  | m :: ms' =>
      match encode m c with
      | (Ok frame, c) =>
          let '(frames, c) := encode_all ms' c in ((let? frames := frames in Ok (frame :: frames)), c)
      | (Err e, c) => (Err e, c)
      | (Panic, c) => (Panic, c)
      | (OutOfFuel, c) => (OutOfFuel, c)
      end
  end.

Fixpoint decode_all (frames : list (list byte)) (c : AuthenticatedCodec) : list ProtocolMessage * AuthenticatedCodec :=
  match frames with
  | [] => ([], c)
  | frame :: frames' =>
      match decode frame c with
      | (Ok m, c) => let '(ms, c) := decode_all frames' c in (m :: ms, c)
      | (_, c) => decode_all frames' c
      end
  end.

(** ** One frame *)

Definition mac_length : Prop := forall k text, length (hmac k text) = 32.

(** The text of a message that is written is read as the message, whatever its
    number, but for what is not written ([#[serde(skip)]]). *)
Definition survives (m : ProtocolMessage) : Prop :=
  forall n payload, write_envelope (mkEnvelope PROTOCOL_V1 n m) = Some payload ->
    read_envelope payload = Some (mkEnvelope PROTOCOL_V1 n (on_wire m)).

(** It is read as that, or not at all. *)
Definition json_faithful : Prop := forall n m payload e,
  write_envelope (mkEnvelope PROTOCOL_V1 n m) = Some payload -> read_envelope payload = Some e ->
  e = mkEnvelope PROTOCOL_V1 n (on_wire m).

Definition frame_of (key : ProtocolKey) (payload : list byte) : list byte :=
  let body := to_be_bytes (blen payload) ++ payload in body ++ hmac key body.

Lemma be_length n : length (to_be_bytes n) = 4.
Proof. done. Qed.

Lemma lor_byte a b : (b < 256)%N -> N.lor (N.shiftl a 8) b = (a * 256 + b)%N.
Proof.
  intros Hb. assert (Hand : N.land (N.shiftl a 8) b = 0%N).
  { apply N.bits_inj. intros i. rewrite N.land_spec, N.bits_0. destruct (N.lt_ge_cases i 8).
    - by rewrite N.shiftl_spec_low.
    - rewrite <- (N.mod_small b (2 ^ 8)) by done. by rewrite N.mod_pow2_bits_high, andb_false_r. }
  rewrite <- N.lxor_lor, <- N.add_nocarry_lxor, N.shiftl_mul_pow2 by done. done.
Qed.

Lemma part_byte n k : N.land (N.shiftr n k) 255 = ((n / 2 ^ k) mod 256)%N.
Proof. change 255%N with (N.ones 8). by rewrite N.land_ones, N.shiftr_div_pow2. Qed.

Lemma byte_val_of_N n : (n < 256)%N -> byte_val (ascii_of_N n) = n.
Proof. apply N_ascii_embedding. Qed.

Lemma from_be_value a b c d :
  from_be_bytes [a; b; c; d] = (((byte_val a * 256 + byte_val b) * 256 + byte_val c) * 256 + byte_val d)%N.
Proof.
  assert (Hb : forall e, (byte_val e < 256)%N) by (intros e; apply N_ascii_bounded).
  unfold from_be_bytes. cbn [foldl]. rewrite !lor_byte by apply Hb. lia.
Qed.

Lemma to_be_value n :
  to_be_bytes n = ascii_of_N <$> [((n / 2 ^ 24) mod 256)%N; ((n / 2 ^ 16) mod 256)%N; ((n / 2 ^ 8) mod 256)%N; (n mod 256)%N].
Proof. unfold to_be_bytes. rewrite !part_byte. change 255%N with (N.ones 8). by rewrite N.land_ones. Qed.

Lemma be_round n : (n < 2 ^ 32)%N -> from_be_bytes (to_be_bytes n) = n.
Proof.
  intros Hn. rewrite to_be_value. cbn [fmap list_fmap]. rewrite from_be_value, !byte_val_of_N by (apply N.mod_lt; done).
  change (2 ^ 24)%N with 16777216%N. change (2 ^ 16)%N with 65536%N. change (2 ^ 8)%N with 256%N. change (2 ^ 32)%N with 4294967296%N in Hn.
  zify. Z.to_euclidean_division_equations. lia.
Qed.

Lemma be_round_back l : length l = 4 -> to_be_bytes (from_be_bytes l) = l.
Proof.
  destruct l as [|a [|b [|c [|d []]]]]; try done. intros _.
  assert (Hb : forall e, (byte_val e < 256)%N) by (intros e; apply N_ascii_bounded).
  pose proof (Hb a). pose proof (Hb b). pose proof (Hb c). pose proof (Hb d).
  rewrite to_be_value, from_be_value. cbn [fmap list_fmap].
  change (2 ^ 24)%N with 16777216%N. change (2 ^ 16)%N with 65536%N. change (2 ^ 8)%N with 256%N.
  repeat f_equal; match goal with |- ascii_of_N ?n = ?e => replace n with (byte_val e); [apply ascii_N_embedding|] end;
    zify; Z.to_euclidean_division_equations; lia.
Qed.

(** ** Decoding one frame *)

Definition fits (payload : list byte) : Prop := (0 < blen payload <= MAX_FRAME_BYTES)%N.

(** A frame with the MAC of the key over its length and payload. *)
Definition authentic (key : ProtocolKey) (frame : list byte) : Prop := exists payload, fits payload /\ frame = frame_of key payload.

Lemma blen_app a b : blen (a ++ b) = (blen a + blen b)%N.
Proof. unfold blen. rewrite length_app. lia. Qed.

Lemma frame_parts key payload : fits payload ->
  take 4 (frame_of key payload) = to_be_bytes (blen payload) /\
  take (4 + length payload) (frame_of key payload) = to_be_bytes (blen payload) ++ payload /\
  drop (4 + length payload) (frame_of key payload) = hmac key (to_be_bytes (blen payload) ++ payload).
Proof.
  intros Hf. unfold frame_of. rewrite <- app_assoc.
  pose proof (be_length (blen payload)) as Hl. split_and!.
  - rewrite <- Hl. apply take_app_length.
  - rewrite app_assoc. apply take_app_length'. by rewrite length_app, Hl.
  - rewrite app_assoc. apply drop_app_length'. by rewrite length_app, Hl.
Qed.

Definition accepts (c : AuthenticatedCodec) (payload : list byte) (m : ProtocolMessage) : Prop :=
  deserialize_envelope payload = Some (mkEnvelope PROTOCOL_V1 (next_receive_sequence c) m) /\
  validate_for (peer (local_role c)) m = Ok tt /\ (next_receive_sequence c + 1 < 2 ^ 64)%N.

Lemma deserialize_version payload e : deserialize_envelope payload = Some e -> protocol_version e = PROTOCOL_V1.
Proof.
  unfold deserialize_envelope. destruct (read_envelope payload) as [w|]; [|done].
  destruct (N.eqb_spec (protocol_version w) PROTOCOL_V1); [|done]. by intros [= <-].
Qed.

Lemma decode_frame_authentic frame c m n : decode_frame frame c = Ok (m, n) ->
  exists payload, fits payload /\ frame = frame_of (receive_key c) payload /\ accepts c payload m /\ n = (next_receive_sequence c + 1)%N.
Proof.
  unfold decode_frame. destruct (N.ltb_spec (blen frame) 4) as [|H4]; [done|].
  set (len := from_be_bytes (take 4 frame)).
  destruct ((len =? 0)%N || (MAX_FRAME_BYTES <? len)%N) eqn:El; [done|]. apply orb_false_iff in El as [E0%N.eqb_neq Em%N.ltb_ge].
  unfold checked_add_u64 at 1 2. unfold FRAME_MAC_BYTES. unfold MAX_FRAME_BYTES in Em.
  destruct (N.ltb_spec (4 + len) (2 ^ 64)) as [_|]; [|done]. cbn [rbind].
  destruct (N.ltb_spec (4 + len + 32) (2 ^ 64)) as [_|]; [|done]. cbn [rbind].
  destruct (N.eqb_spec (blen frame) (4 + len + 32)) as [Hlen|]; [|done]. cbn [negb].
  case_bool_decide as Hmac; [|done]. cbn [negb]. set (payload := drop 4 (take (N.to_nat (4 + len)) frame)) in *.
  destruct (deserialize_envelope payload) as [e|] eqn:Ed; [|done].
  destruct (N.eqb_spec (sequence e) (next_receive_sequence c)) as [Hs|]; [|done]. cbn [negb].
  destruct (validate_for (peer (local_role c)) (envelope_message e)) as [[]| | |] eqn:Ev; try done. cbn [rbind].
  unfold checked_add_u64. destruct (N.ltb_spec (next_receive_sequence c + 1) (2 ^ 64)); [|done]. cbn [rbind]. intros [= <- <-].
  pose proof (deserialize_version _ _ Ed) as Hver. exists payload.
  assert (Hpl : blen payload = len) by (unfold payload, blen in *; rewrite length_drop, length_take; lia).
  assert (Hbody : take (N.to_nat (4 + len)) frame = to_be_bytes (blen payload) ++ payload).
  { rewrite Hpl. unfold len. rewrite be_round_back by (rewrite length_take; unfold blen in *; lia). fold len.
    rewrite <- (take_drop 4 (take (N.to_nat (4 + len)) frame)) at 1. fold payload. f_equal. rewrite take_take. f_equal. lia. }
  split; [unfold fits, MAX_FRAME_BYTES; lia|]. split; [|split; [|reflexivity]].
  - unfold frame_of. rewrite <- Hbody, <- Hmac. symmetry. apply take_drop.
  - destruct e as [ver seq msg]. cbn [protocol_version sequence envelope_message] in *. subst ver seq.
    exact (conj Ed (conj Ev H1)).
Qed.

Lemma decode_frame_accepts payload c m : mac_length -> fits payload -> accepts c payload m ->
  decode_frame (frame_of (receive_key c) payload) c = Ok (m, (next_receive_sequence c + 1)%N).
Proof.
  intros Hmac Hf (Hd & Hv & Hs). destruct (frame_parts (receive_key c) payload Hf) as (Ht & Hb & Hm).
  assert (Hlen : blen (frame_of (receive_key c) payload) = (4 + blen payload + 32)%N).
  { unfold frame_of. rewrite !blen_app. unfold blen. rewrite be_length, Hmac. lia. }
  unfold fits, MAX_FRAME_BYTES in Hf. unfold decode_frame. rewrite Hlen, Ht, be_round by (change (2 ^ 32)%N with 4294967296%N; lia).
  destruct (N.ltb_spec (4 + blen payload + 32) 4); [lia|].
  destruct (N.eqb_spec (blen payload) 0); [lia|]. unfold MAX_FRAME_BYTES. destruct (N.ltb_spec 1048576 (blen payload)); [lia|]. cbn [orb].
  unfold checked_add_u64 at 1 2, FRAME_MAC_BYTES. change (2 ^ 64)%N with 18446744073709551616%N in *.
  destruct (N.ltb_spec (4 + blen payload) 18446744073709551616) as [_|]; [|lia]. cbn [rbind].
  destruct (N.ltb_spec (4 + blen payload + 32) 18446744073709551616) as [_|]; [|lia]. cbn [rbind]. rewrite N.eqb_refl. cbn [negb].
  replace (N.to_nat (4 + blen payload)) with (4 + length payload) by (unfold blen; lia). rewrite Hb, Hm.
  rewrite bool_decide_eq_true_2 by done. cbn [negb].
  rewrite (drop_app_length' (to_be_bytes (blen payload)) payload 4) by (by rewrite be_length). rewrite Hd. cbn [sequence envelope_message]. rewrite N.eqb_refl. cbn [negb].
  rewrite Hv. cbn [rbind]. unfold checked_add_u64. change (2 ^ 64)%N with 18446744073709551616%N.
  destruct (N.ltb_spec (next_receive_sequence c + 1) 18446744073709551616); [done|lia].
Qed.

Lemma frame_of_inj key p q : fits p -> fits q -> frame_of key p = frame_of key q -> p = q.
Proof.
  intros Hp Hq He. destruct (frame_parts key p Hp) as (Hp4 & Hpb & _), (frame_parts key q Hq) as (Hq4 & Hqb & _).
  assert (Hl : blen p = blen q).
  { rewrite He, Hq4 in Hp4. unfold fits, MAX_FRAME_BYTES in *. apply (f_equal from_be_bytes) in Hp4.
    rewrite !be_round in Hp4 by (change (2 ^ 32)%N with 4294967296%N; lia). done. }
  assert (length p = length q) as Hn by (unfold blen in Hl; lia).
  rewrite He, Hn, Hqb in Hpb. rewrite Hl in Hpb. by apply app_inv_head in Hpb.
Qed.

(** ** Sequences of frames *)

(** The payloads of messages numbered from [n]. *)
Inductive sends (role : EndpointRole) : N -> list ProtocolMessage -> list (list byte) -> Prop :=
  | sends_nil n : sends role n [] []
  | sends_cons n m ms p ps :
      validate_for role m = Ok tt -> (n + 1 < 2 ^ 64)%N -> write_envelope (mkEnvelope PROTOCOL_V1 n m) = Some p -> fits p ->
      sends role (n + 1) ms ps -> sends role n (m :: ms) (p :: ps).

Lemma ok_pair_inj {A B : Type} (a a' : A) (b b' : B) : (@Ok SandboxError A a, b) = (Ok a', b') -> a = a' /\ b = b'.
Proof. by intros [= -> ->]. Qed.

Lemma encode_ok m c frame c' : encode m c = (Ok frame, c') ->
  exists p, frame = frame_of (send_key c) p /\ fits p /\ write_envelope (mkEnvelope PROTOCOL_V1 (next_send_sequence c) m) = Some p /\
    validate_for (local_role c) m = Ok tt /\ (next_send_sequence c + 1 < 2 ^ 64)%N /\
    c' = mkCodec (local_role c) (send_key c) (receive_key c) (next_send_sequence c + 1) (next_receive_sequence c).
Proof.
  unfold encode, encode_frame. destruct (validate_for (local_role c) m) as [[]| | |]; try done. cbn [rbind].
  unfold checked_add_u64. destruct (N.ltb_spec (next_send_sequence c + 1) (2 ^ 64)) as [Hs|]; [|done]. cbn [rbind].
  unfold serialize_envelope. cbn [protocol_version]. rewrite N.eqb_refl. cbn [negb].
  destruct (write_envelope _) as [p|]; [|done]. destruct (N.eqb_spec (blen p) 0); [done|].
  destruct (N.ltb_spec MAX_FRAME_BYTES (blen p)); [done|]. cbn [orb]. destruct (blen p <? 2 ^ 32)%N; [|done]. cbn [negb].
  intros [<- <-]%ok_pair_inj. exists p. split; [reflexivity|]. split; [unfold fits; lia|]. exact (conj eq_refl (conj eq_refl (conj Hs eq_refl))).
Qed.

Lemma encode_all_ok ms c sent c' : encode_all ms c = (Ok sent, c') ->
  exists ps, sent = frame_of (send_key c) <$> ps /\ sends (local_role c) (next_send_sequence c) ms ps.
Proof.
  revert c sent. induction ms as [|m ms IH]; intros c sent; simpl; [intros [= <- <-]; exists []; split; [done|constructor]|].
  destruct (encode m c) as [[frame| | |] c1] eqn:Em; try done. apply encode_ok in Em as (p & -> & Hf & Hw & Hv & Hs & ->).
  destruct (encode_all ms _) as [[sent'| | |] c2] eqn:E; try done. simpl. intros [= <- <-].
  apply IH in E as (ps & -> & Hps). exists (p :: ps). split; [done|]. by constructor.
Qed.

Lemma sends_lookup role n ms ps i p : sends role n ms ps -> ps !! i = Some p ->
  exists m, ms !! i = Some m /\ fits p /\ validate_for role m = Ok tt /\ (n + N.of_nat i + 1 < 2 ^ 64)%N /\
    write_envelope (mkEnvelope PROTOCOL_V1 (n + N.of_nat i) m) = Some p.
Proof.
  intros Hs. revert i. induction Hs as [n|n m ms p0 ps Hv Hn Hw Hf _ IH]; intros i Hi; [done|].
  destruct i as [|i]; simpl in Hi.
  - injection Hi as ->. exists m. rewrite N.add_0_r. by repeat (split; [assumption || reflexivity|]).
  - destruct (IH i Hi) as (m' & ? & ? & ? & ? & ?). exists m'.
    replace (n + N.of_nat (S i))%N with (n + 1 + N.of_nat i)%N by lia. by repeat (split; [assumption|]).
Qed.

(** The text of a message, as an envelope. *)
Lemma survives_text m n p : survives m -> write_envelope (mkEnvelope PROTOCOL_V1 n m) = Some p ->
  deserialize_envelope p = Some (mkEnvelope PROTOCOL_V1 n (on_wire m)).
Proof. intros Hm Hw. unfold deserialize_envelope. by rewrite (Hm n p Hw). Qed.

Lemma faithful_text m n p e : json_faithful -> write_envelope (mkEnvelope PROTOCOL_V1 n m) = Some p ->
  deserialize_envelope p = Some e -> e = mkEnvelope PROTOCOL_V1 n (on_wire m).
Proof.
  unfold deserialize_envelope. intros Hj Hw. destruct (read_envelope p) as [wire|] eqn:Hr; [|done].
  pose proof (Hj _ _ _ _ Hw Hr) as ->. cbn. by intros [= <-].
Qed.

Lemma sends_length role n ms ps : sends role n ms ps -> length ps = length ms.
Proof. induction 1; simpl; congruence. Qed.

Lemma decode_ok frame c m c' : decode frame c = (Ok m, c') ->
  exists p, fits p /\ frame = frame_of (receive_key c) p /\ accepts c p m /\
    c' = mkCodec (local_role c) (send_key c) (receive_key c) (next_send_sequence c) (next_receive_sequence c + 1).
Proof.
  unfold decode. destruct (decode_frame frame c) as [[m' n]| | |] eqn:E; try done. intros [= -> <-].
  apply decode_frame_authentic in E as (p & Hf & -> & Ha & ->). by exists p.
Qed.

Lemma decode_refused frame c r c' : decode frame c = (r, c') -> (forall m, r <> Ok m) -> c' = c.
Proof. unfold decode. destruct (decode_frame frame c) as [[m n]| | |]; intros [= <- <-] Hr; try done. by destruct (Hr m). Qed.

Section channel.
Context (role : EndpointRole) (key : ProtocolKey) (n0 : N) (ms : list ProtocolMessage) (ps : list (list byte)).
Hypothesis Hmac_len : mac_length.
Hypothesis Hsends : sends role n0 ms ps.

(** The receiver has taken the first [j] messages. *)
Definition taken (j : nat) (c : AuthenticatedCodec) : Prop :=
  receive_key c = key /\ peer (local_role c) = role /\ next_receive_sequence c = (n0 + N.of_nat j)%N.

Lemma decode_next j c p : Forall survives ms -> taken j c -> ps !! j = Some p ->
  exists m c', ms !! j = Some m /\ decode (frame_of key p) c = (Ok (on_wire m), c') /\ taken (S j) c'.
Proof using Hmac_len Hsends.
  intros Hsurvive (Hk & Hr & Hn) Hp. destruct (sends_lookup _ _ _ _ _ _ Hsends Hp) as (m & Hm & Hf & Hv & Hs & Hw).
  assert (survives m) as Hsm by (by apply (Forall_lookup_1 _ _ _ _ Hsurvive Hm)).
  pose proof (survives_text _ _ _ Hsm Hw) as Hd.
  exists m. eexists. split; [done|]. unfold decode. rewrite <- Hk, (decode_frame_accepts p c (on_wire m)); try done.
  - split; [done|]. split; [done|]. split; [done|]. simpl. rewrite Hn. lia.
  - unfold accepts. rewrite Hn, Hr, wire_valid. by split_and!.
Qed.

Lemma decode_sent j c i p m c' : json_faithful -> taken j c -> ps !! i = Some p -> decode (frame_of key p) c = (Ok m, c') ->
  i = j /\ (exists m', ms !! j = Some m' /\ m = on_wire m') /\ taken (S j) c'.
Proof using Hsends.
  intros Hj (Hk & Hr & Hn) Hp Hd. apply decode_ok in Hd as (q & Hq & He & (Hd & _ & _) & ->).
  destruct (sends_lookup _ _ _ _ _ _ Hsends Hp) as (m' & Hm & Hf & _ & _ & Hw).
  rewrite Hk in He. apply frame_of_inj in He as ->; [|done|done]. apply (faithful_text _ _ _ _ Hj Hw) in Hd.
  injection Hd as Hi ->. assert (i = j) as -> by lia.
  split; [done|]. split; [by exists m'|]. split; [done|]. split; [done|]. simpl. lia.
Qed.

Lemma decode_all_prefix arrived : json_faithful -> (forall f, f ∈ arrived -> authentic key f -> f ∈ frame_of key <$> ps) ->
  forall j c accepted c', taken j c -> j <= length ms -> decode_all arrived c = (accepted, c') ->
  exists k, accepted = on_wire <$> take k (drop j ms) /\ j + k <= length ms /\ taken (j + k) c'.
Proof using Hsends.
  intros Hj0. induction arrived as [|f arrived IH]; intros Hauth j c accepted c' Ht Hj; simpl.
  { intros [= <- <-]. exists 0. rewrite Nat.add_0_r. by split_and!. }
  assert (Hauth' : forall f, f ∈ arrived -> authentic key f -> f ∈ frame_of key <$> ps) by (intros; apply Hauth; [by right|done]).
  destruct (decode f c) as [r c1] eqn:Ed. destruct r as [m| | |]; [|apply decode_refused in Ed as ->; [by apply IH|done]..].
  assert (Hin : f ∈ frame_of key <$> ps).
  { apply Hauth; [by left|]. apply decode_ok in Ed as (q & Hq & -> & _). exists q. by destruct Ht as [<- _]. }
  apply list_elem_of_fmap in Hin as (p & -> & [i Hi]%list_elem_of_lookup).
  destruct (decode_sent j c i p m c1 Hj0 Ht Hi Ed) as (_ & (m' & Hm & ->) & Ht1).
  destruct (decode_all arrived c1) as [ms' c2] eqn:Ea. intros [= <- <-].
  apply lookup_lt_Some in Hm as Hlt.
  destruct (IH Hauth' _ _ _ _ Ht1 Hlt Ea) as (k & -> & Hle & Hk). exists (S k).
  rewrite (drop_S _ _ _ Hm). simpl. split; [done|]. split; [lia|]. by rewrite Nat.add_succ_r.
Qed.

Lemma decode_all_sent j c : Forall survives ms -> taken j c ->
  exists c', decode_all (frame_of key <$> drop j ps) c = (on_wire <$> drop j ms, c').
Proof using Hmac_len Hsends.
  intros Hsurvive. remember (length ps - j) as d eqn:Hd. revert j Hd c. induction d as [|d IH]; intros j Hd c Ht.
  - rewrite (drop_ge ps), (drop_ge ms); [by exists c|rewrite <- (sends_length _ _ _ _ Hsends); lia|lia].
  - destruct (lookup_lt_is_Some_2 ps j) as [p Hp]; [lia|].
    destruct (decode_next j c p Hsurvive Ht Hp) as (m & c1 & Hm & Hdec & Ht1).
    rewrite (drop_S _ _ _ Hp), (drop_S _ _ _ Hm), !fmap_cons. cbn [decode_all]. rewrite Hdec.
    destruct (IH (S j) ltac:(lia) c1 Ht1) as (c2 & Hc2). exists c2. by rewrite Hc2.
Qed.
End channel.

(** Frames sent over a channel that keeps them arrive: a receiver with
    the sender's key, the opposite role and the same count decodes, in order,
    exactly the messages that were encoded, as they are sent. *)
Theorem frames_delivered (ms : list ProtocolMessage) (sender sender' receiver : AuthenticatedCodec) (sent : list (list byte)) :
  mac_length -> Forall survives ms ->
  receive_key receiver = send_key sender -> peer (local_role receiver) = local_role sender ->
  next_receive_sequence receiver = next_send_sequence sender ->
  encode_all ms sender = (Ok sent, sender') ->
  exists receiver', decode_all sent receiver = (on_wire <$> ms, receiver').
Proof.
  intros Hl Hsv Hk Hr Hn He. apply encode_all_ok in He as (ps & -> & Hs).
  apply (decode_all_sent _ _ _ _ _ Hl Hs 0 receiver Hsv). split; [done|]. split; [done|]. rewrite Hn. lia.
Qed.

(** C26: whatever arrives, the messages accepted are a prefix of the messages
    sent, as they are sent (the native causes of errors are not): frames may be
    lost, repeated, reordered, altered or made up, as long as nobody without the
    key makes a frame with a right MAC that the sender never sent.  The JSON
    text of an envelope is relied on to be read, if it is read at all, as the
    envelope that was written. *)
Theorem accepted_prefix (ms : list ProtocolMessage) (sender sender' receiver receiver' : AuthenticatedCodec)
    (sent arrived : list (list byte)) (accepted : list ProtocolMessage) :
  json_faithful ->
  receive_key receiver = send_key sender -> peer (local_role receiver) = local_role sender ->
  next_receive_sequence receiver = next_send_sequence sender ->
  encode_all ms sender = (Ok sent, sender') ->
  (forall frame, frame ∈ arrived -> authentic (receive_key receiver) frame -> frame ∈ sent) ->
  decode_all arrived receiver = (accepted, receiver') ->
  accepted = on_wire <$> take (length accepted) ms /\
  next_receive_sequence receiver' = (next_receive_sequence receiver + N.of_nat (length accepted))%N.
Proof.
  intros Hj Hk Hr Hn He Ha Hd. apply encode_all_ok in He as (ps & -> & Hs). rewrite Hk in Ha.
  assert (Ht : taken (local_role sender) (send_key sender) (next_send_sequence sender) 0 receiver).
  { split; [done|]. split; [done|]. rewrite Hn. lia. }
  destruct (decode_all_prefix _ _ _ _ _ Hs arrived Hj Ha 0 receiver accepted receiver' Ht ltac:(lia) Hd) as (k & Hacc & Hle & Hc).
  destruct Hc as (_ & _ & Hc). rewrite drop_0 in Hacc. simpl in Hle.
  assert (Hk' : length accepted = k) by (rewrite Hacc, length_fmap, length_take; lia). rewrite Hk'. split; [done|]. rewrite Hn. exact Hc.
Qed.
End codec.

Lemma authentic_mac `{Hmac} key frame : authentic key frame ->
  let end_ := N.to_nat (4 + from_be_bytes (take 4 frame)) in drop end_ frame = hmac key (take end_ frame).
Proof.
  intros (p & Hp & ->). destruct (frame_parts key p Hp) as (H4 & Hb & Hm). intros end_. unfold end_. rewrite H4, be_round.
  - replace (N.to_nat (4 + blen p)) with (4 + length p) by (unfold blen; lia). by rewrite Hb, Hm.
  - unfold fits, MAX_FRAME_BYTES in Hp. change (2 ^ 32)%N with 4294967296%N. lia.
Qed.

(** ** An example *)

(** A checksum in place of a MAC, and a text for answers that are a pong or one
    error; of the error, the text does not say the native cause. *)
Definition sample_hmac : Hmac := fun key text =>
  repeat (ascii_of_N (foldr (fun b n => (3 * n + byte_val b) mod 256) 7 (text ++ key_bytes key))%N) 32.

Definition sample_error : SandboxError := SandboxError.protocol empty_metadata.

#[local] Instance backend_eq_dec : EqDecision BackendIdentity.
Proof. solve_decision. Defined.
#[local] Instance feature_eq_dec : EqDecision BackendFeatureId.
Proof. solve_decision. Defined.
#[local] Instance metadata_eq_dec : EqDecision DiagnosticMetadata.
Proof. solve_decision. Defined.
#[local] Instance sandbox_error_eq_dec : EqDecision SandboxError.
Proof. solve_decision. Defined.

Definition sample_response (b : byte) : BrokerResponse :=
  if Ascii.eqb b "p" then BrokerResponse.Pong else BrokerResponse.Error sample_error.

Definition sample_json : EnvelopeJson := {|
  write_envelope e :=
    match envelope_message e with
    | ProtocolMessage.Response id response =>
        if (sequence e <? 256)%N && (id <? 256)%N && (protocol_version e =? 1)%N
        then match response with
             | BrokerResponse.Pong => Some [ascii_of_N (sequence e); ascii_of_N id; "p"%char]
             | BrokerResponse.Error error =>
                 if decide (wire_error error = sample_error) then Some [ascii_of_N (sequence e); ascii_of_N id; "e"%char] else None
             | _ => None
             end
        else None
    | _ => None
    end;
  read_envelope l :=
    match l with
    | [a; b; c] => Some (mkEnvelope 1 (byte_val a) (ProtocolMessage.Response (byte_val b) (sample_response c)))
    | _ => None
    end |}.

Definition pong (id : N) : ProtocolMessage := ProtocolMessage.Response id BrokerResponse.Pong.
Definition failure (cause : string) (id : N) : ProtocolMessage :=
  ProtocolMessage.Response id (BrokerResponse.Error (SandboxError.with_native_cause cause sample_error)).

Definition sample_key : ProtocolKey := mkKey (repeat "k"%char 32).
Definition sample_sender : AuthenticatedCodec := new_codec EndpointRole.Broker sample_key (mkKey []).
Definition sample_receiver : AuthenticatedCodec := new_codec EndpointRole.Host (mkKey []) sample_key.

Lemma sample_survives m : survives (H0 := sample_json) m.
Proof.
  intros n payload. unfold write_envelope, read_envelope. cbn [sample_json envelope_message sequence protocol_version].
  destruct m as [|id r|]; try done. destruct (N.ltb_spec n 256), (N.ltb_spec id 256); simpl; try done.
  destruct r as [| | | | | | | | | | | |error]; try done; [|destruct (decide _) as [Hw|]; [|done]]; intros [= <-];
    rewrite !byte_val_of_N by done; unfold on_wire, wire_response; [done|]. by rewrite Hw.
Qed.

Lemma sample_faithful : json_faithful (H0 := sample_json).
Proof. intros n m payload e Hw Hr. pose proof (sample_survives m n payload Hw) as Hs. congruence. Qed.

Definition sample_messages : list ProtocolMessage := [pong 5; failure "pid 77" 6].

Definition sample_sent : list (list byte) :=
  match encode_all (H := sample_hmac) (H0 := sample_json) sample_messages sample_sender with (Ok sent, _) => sent | _ => [] end.

Definition first_frame : list byte := nth 0 sample_sent [].
Definition second_frame : list byte := nth 1 sample_sent [].

(** Out of order, repeated, cut, and with a byte changed. *)
Definition sample_arrived : list (list byte) :=
  [second_frame; first_frame; first_frame; take 20 second_frame; <[5 := "000"%char]> second_frame; second_frame].

Definition mac_check (frame : list byte) : bool :=
  let end_ := N.to_nat (4 + from_be_bytes (take 4 frame)) in bool_decide (drop end_ frame = sample_hmac sample_key (take end_ frame)).

Lemma sample_checked : forallb (fun frame => negb (mac_check frame) || bool_decide (frame ∈ sample_sent)) sample_arrived = true.
Proof. vm_compute. reflexivity. Qed.

Lemma frames_delivered_witness :
  mac_length (H := sample_hmac) /\ Forall (survives (H0 := sample_json)) sample_messages /\
  exists receiver', decode_all (H := sample_hmac) (H0 := sample_json) sample_sent sample_receiver = (on_wire <$> sample_messages, receiver').
Proof.
  assert (Hl : mac_length (H := sample_hmac)) by (intros k text; apply repeat_length).
  assert (Hs : Forall (survives (H0 := sample_json)) sample_messages) by (repeat constructor; apply sample_survives).
  split; [exact Hl|]. split; [exact Hs|].
  eapply (frames_delivered (H := sample_hmac) (H0 := sample_json) sample_messages sample_sender);
    [exact Hl|exact Hs|reflexivity|reflexivity|reflexivity|vm_compute; reflexivity].
Defined.

Lemma accepted_prefix_witness :
  let '(accepted, receiver') := decode_all (H := sample_hmac) (H0 := sample_json) sample_arrived sample_receiver in
  accepted = [pong 5; ProtocolMessage.Response 6 (BrokerResponse.Error sample_error)] /\
  accepted = on_wire <$> take (length accepted) sample_messages /\
  next_receive_sequence receiver' = (0 + N.of_nat (length accepted))%N.
Proof.
  destruct (decode_all sample_arrived sample_receiver) as [accepted receiver'] eqn:E.
  split; [vm_compute in E; by injection E as <- _|].
  eapply (accepted_prefix (H := sample_hmac) (H0 := sample_json) sample_messages sample_sender _ sample_receiver receiver' sample_sent sample_arrived accepted);
    [exact sample_faithful|reflexivity|reflexivity|reflexivity|vm_compute; reflexivity| |exact E].
  intros frame Hin Ha. apply (authentic_mac (H := sample_hmac)) in Ha.
  pose proof sample_checked as Hall. rewrite forallb_forall in Hall. apply list_elem_of_In, Hall in Hin.
  unfold mac_check in Hin. rewrite (bool_decide_eq_true_2 _ Ha) in Hin. exact (proj1 (bool_decide_eq_true _) Hin).
Defined.
