(* ===== verification/Secrets.v ===== *)
(** * Secrets: names, sessions, references and their sources

    [crates/ricochet_application/src/secret_name.rs] and
    [host_display_label.rs], and of [crates/ricochet_secrets/src] the files
    opaque.rs, session.rs and deferred_http.rs.

    A session is shared: its owner may close it while other threads use it.
    An operation looks at the [closed] flag, takes the lock of the slots, looks
    at the flag again and works on the slots.  The part under the lock is the
    [_locked] definition of each operation; here the operations run alone, and
    [Secrets] interleaves their parts. *)

From stdpp Require Import base tactics list strings option numbers relations.
From Stdlib Require Import ZArith NArith Lia Ascii String.
From S2P Require Import Prelude RustStr BTree.

Open Scope string_scope.
Open Scope list_scope.
Open Scope nat_scope.

(** ** Names and labels *)

Record SecretName : Type := mkSecretName { secret_name : string }.

#[export] Instance secret_name_eq_dec : EqDecision SecretName.
Proof. solve_decision. Defined.

Module SecretNameError.
Inductive SecretNameError : Type := Invalid.
End SecretNameError.

Definition lower_or_digit (b : byte) : bool := is_ascii_lowercase b || is_ascii_digit b.

Definition parse_secret_name (value : string) : res SecretNameError.SecretNameError SecretName :=
  match as_bytes value with
  | b :: rest =>
      if (str_len value <=? 128) && lower_or_digit b
         && forallb (fun b => lower_or_digit b || existsb (Ascii.eqb b) ["."; "_"; "-"]%char) rest
      then Ok (mkSecretName value)
      else Err SecretNameError.Invalid
  | [] => Err SecretNameError.Invalid
  end.

Record HostDisplayLabel : Type := mkLabel { label_text : string }.

Module HostDisplayLabelError.
Inductive HostDisplayLabelError : Type := Invalid.
End HostDisplayLabelError.

(** Controls, and the characters that reorder the text around them. *)
Definition is_forbidden_control (c : char) : bool :=
  ((c <=? 31) || (127 <=? c) && (c <=? 159) || (c =? 1564) || (8206 <=? c) && (c <=? 8207)
   || (8234 <=? c) && (c <=? 8238) || (8294 <=? c) && (c <=? 8297))%N.

Definition parse_label (value : string) : res HostDisplayLabelError.HostDisplayLabelError HostDisplayLabel :=
  if negb ((1 <=? str_len value) && (str_len value <=? 160)) then Err HostDisplayLabelError.Invalid
  else
    let? cs := chars value in
    if existsb is_forbidden_control cs then Err HostDisplayLabelError.Invalid else Ok (mkLabel value).

(** ** Tokens (opaque.rs) *)

Definition HOST_TOKEN_BYTES : nat := 32.

Abbreviation token := (list byte).

Module HostTokenError.
Inductive HostTokenError : Type := Failed.
End HostTokenError.

(** A token generator: the operating system's, or the one of the tests. *)
Definition TokenGenerator : Type := stm N HostTokenError.HostTokenError token.

Definition byte_xor (a b : byte) : byte := ascii_of_N (N.lxor (byte_val a) (byte_val b)).

(** The test generator: the seed, its last bytes combined with a counter. *)
Definition deterministic (seed : token) : TokenGenerator := fun counter =>
  let next := ((counter + 1) mod 18446744073709551616)%N in
  let bytes := le_bytes 8 next in
  let at_ := HOST_TOKEN_BYTES - length bytes in
  Ok (take at_ seed ++ zip_with byte_xor (drop at_ seed) bytes, next).

Record SecurityDomainId : Type := mkDomain { domain_token : token }.
Record SecretSessionId : Type := mkSessionId { session_token : token }.

#[export] Instance domain_eq_dec : EqDecision SecurityDomainId.
Proof. solve_decision. Defined.
#[export] Instance session_id_eq_dec : EqDecision SecretSessionId.
Proof. solve_decision. Defined.

Definition generate_domain (tokens : TokenGenerator) : stm N HostTokenError.HostTokenError SecurityDomainId :=
  let* t := tokens in sret (mkDomain t).
Definition generate_session_id (tokens : TokenGenerator) : stm N HostTokenError.HostTokenError SecretSessionId :=
  let* t := tokens in sret (mkSessionId t).

(** A reference: the weak pointer is the address of the session, which is not
    used again while a weak pointer to it is left. *)
Record SecretRef : Type := mkRef {
  ref_session : nat; ref_session_id : SecretSessionId; ref_security_domain_id : SecurityDomainId;
  ref_name : SecretName; ref_generation : N }.

(** [PartialEq] of references; [Weak::ptr_eq] compares the addresses. *)
#[export] Instance secret_ref_eq_dec : EqDecision SecretRef.
Proof. solve_decision. Defined.

(** ** Sessions (session.rs) *)

Definition MAX_SESSION_SLOTS : nat := 32.
Definition MAX_SECRET_BYTES : nat := 2048.
Definition u64_max : N := 18446744073709551615.

Record SecretSlot : Type := mkSlot { slot_generation : N; slot_value : string }.

(** [SecretSessionState], by the text of the names. *)
Abbreviation slots_ := (btree SecretSlot).

(** What does not change in a session, with its address. *)
Record SessionIdentity : Type := mkIdentity {
  session_address : nat; session_id : SecretSessionId; session_domain : SecurityDomainId }.

Record SecretSessionInner : Type := mkSession { identity : SessionIdentity; closed : bool; slots : slots_ }.

Module SecretSessionErrorKind.
Inductive SecretSessionErrorKind : Type :=
  | Closed
  | Missing
  | Stale
  | WrongSession
  | WrongSecurityDomain
  | InvalidValue
  | Capacity
  | GenerationExhausted.
End SecretSessionErrorKind.
Abbreviation SecretSessionErrorKind := SecretSessionErrorKind.SecretSessionErrorKind.

#[export] Instance secret_session_error_eq_dec : EqDecision SecretSessionErrorKind.
Proof. solve_decision. Defined.

Abbreviation result := (res SecretSessionErrorKind).

Definition create (tokens : TokenGenerator) (address : nat) (domain : SecurityDomainId)
    : stm N HostTokenError.HostTokenError SecretSessionInner :=
  let* id := generate_session_id tokens in
  sret (mkSession (mkIdentity address id domain) false []).

Definition ensure_open (closed : bool) : result unit := if closed then Err SecretSessionErrorKind.Closed else Ok tt.

(** A dead or another session is the wrong one. *)
Definition ensure_reference_authority (i : SessionIdentity) (closed : bool) (reference : SecretRef)
    (current_domain : SecurityDomainId) : result unit :=
  let? _ := ensure_open closed in
  if negb (bool_decide (ref_session_id reference = session_id i)) || negb (ref_session reference =? session_address i)
  then Err SecretSessionErrorKind.WrongSession
  else if negb (bool_decide (session_domain i = current_domain))
          || negb (bool_decide (ref_security_domain_id reference = current_domain))
  then Err SecretSessionErrorKind.WrongSecurityDomain
  else Ok tt.

Definition new_ref (i : SessionIdentity) (name : SecretName) (generation : N) : SecretRef :=
  mkRef (session_address i) (session_id i) (session_domain i) name generation.

Definition present_locked (name : SecretName) (s : slots_) : result bool := Ok (bt_contains_key (secret_name name) s).

Definition reference_locked (i : SessionIdentity) (name : SecretName) (s : slots_) : result SecretRef :=
  match bt_get (secret_name name) s with
  | None => Err SecretSessionErrorKind.Missing
  | Some slot => Ok (new_ref i name (slot_generation slot))
  end.

Definition validate_reference_locked (reference : SecretRef) (s : slots_) : result unit :=
  match bt_get (secret_name (ref_name reference)) s with
  | None => Err SecretSessionErrorKind.Missing
  | Some slot => if negb (slot_generation slot =? ref_generation reference)%N then Err SecretSessionErrorKind.Stale else Ok tt
  end.

Definition resolve_reference_locked (reference : SecretRef) (s : slots_) : result string :=
  match bt_get (secret_name (ref_name reference)) s with
  | None => Err SecretSessionErrorKind.Missing
  | Some slot =>
      if negb (slot_generation slot =? ref_generation reference)%N then Err SecretSessionErrorKind.Stale
      else Ok (slot_value slot)
  end.

Definition bind_check (value : string) : result unit :=
  if String.eqb value "" || (MAX_SECRET_BYTES <? str_len value) then Err SecretSessionErrorKind.InvalidValue else Ok tt.

(** The generation the slot of a name gets. *)
Definition next_generation (name : SecretName) (s : slots_) : result N :=
  match bt_get (secret_name name) s with
  | Some existing =>
      if (slot_generation existing <? u64_max)%N then Ok (slot_generation existing + 1)%N
      else Err SecretSessionErrorKind.GenerationExhausted
  | None => if MAX_SESSION_SLOTS <=? length s then Err SecretSessionErrorKind.Capacity else Ok 1%N
  end.

Definition bind_locked (i : SessionIdentity) (name : SecretName) (value : string) (s : slots_) : result (SecretRef * slots_) :=
  let? generation := next_generation name s in
  Ok (new_ref i name generation, bt_insert (secret_name name) (mkSlot generation value) s).

(** [SecretSessionContext::prompt], whose [SessionSecretPrompt] is the name. *)
Definition prompt (inner : SecretSessionInner) (name : SecretName) : result SecretName :=
  let? _ := ensure_open (closed inner) in Ok name.

Definition present (inner : SecretSessionInner) (name : SecretName) : result bool :=
  let? _ := ensure_open (closed inner) in
  let? _ := ensure_open (closed inner) in
  present_locked name (slots inner).

Definition reference (inner : SecretSessionInner) (name : SecretName) : result SecretRef :=
  let? _ := ensure_open (closed inner) in
  let? _ := ensure_open (closed inner) in
  reference_locked (identity inner) name (slots inner).

Definition validate_reference (inner : SecretSessionInner) (r : SecretRef) (current_domain : SecurityDomainId) : result unit :=
  let? _ := ensure_reference_authority (identity inner) (closed inner) r current_domain in
  let? _ := ensure_open (closed inner) in
  validate_reference_locked r (slots inner).

Definition resolve_reference (inner : SecretSessionInner) (r : SecretRef) (current_domain : SecurityDomainId) : result string :=
  let? _ := ensure_reference_authority (identity inner) (closed inner) r current_domain in
  let? _ := ensure_open (closed inner) in
  resolve_reference_locked r (slots inner).

Definition bind (name : SecretName) (value : string) (inner : SecretSessionInner) : result (SecretRef * SecretSessionInner) :=
  let? _ := bind_check value in
  let? _ := ensure_open (closed inner) in
  let? _ := ensure_open (closed inner) in
  let? (r, s) := bind_locked (identity inner) name value (slots inner) in
  Ok (r, mkSession (identity inner) (closed inner) s).

(** [SecretSessionGuard::close], which dropping the guard calls. *)
Definition close (inner : SecretSessionInner) : SecretSessionInner :=
  if closed inner then inner else mkSession (identity inner) true [].

Definition session_error_text (kind : SecretSessionErrorKind) : string :=
  match kind with
  | SecretSessionErrorKind.Closed => "secret session is closed"
  | SecretSessionErrorKind.Missing => "secret_missing"
  | SecretSessionErrorKind.Stale => "secret reference is stale"
  | SecretSessionErrorKind.WrongSession => "secret reference session mismatch"
  | SecretSessionErrorKind.WrongSecurityDomain => "secret reference security domain mismatch"
  | SecretSessionErrorKind.InvalidValue => "session secret must contain 1 to 2048 UTF-8 bytes"
  | SecretSessionErrorKind.Capacity => "secret session capacity exceeded"
  | SecretSessionErrorKind.GenerationExhausted => "secret slot generation exhausted"
  end.

(** ** Sources of credentials (deferred_http.rs) *)

(** The environment key of a [SecretName] is its serialised text, the name. *)
Module DeferredSecretSource.
Inductive DeferredSecretSource : Type :=
  | Environment (name : SecretName) (environment_key : string)
  | LegacyEnvironment (name : string)
  | Literal (value : string)
  | Opaque (reference : SecretRef).
End DeferredSecretSource.
Abbreviation DeferredSecretSource := DeferredSecretSource.DeferredSecretSource.

Module DeferredSecretSourceRef.
Inductive DeferredSecretSourceRef : Type :=
  | Environment (environment_key : string)
  | Literal (value : string)
  | Opaque (reference : SecretRef).
End DeferredSecretSourceRef.
Abbreviation DeferredSecretSourceRef := DeferredSecretSourceRef.DeferredSecretSourceRef.

Module DeferredSecretSourceError.
Inductive DeferredSecretSourceError : Type := Empty.
End DeferredSecretSourceError.

Definition environment (name : SecretName) : DeferredSecretSource := DeferredSecretSource.Environment name (secret_name name).

Definition is_ascii_alphabetic (b : byte) : bool := is_ascii_lowercase b || is_ascii_uppercase b.

(** [LegacyEnvironmentVariableName::parse]. *)
Definition parse_legacy_name (value : string) : option string :=
  match as_bytes value with
  | b :: rest =>
      if (str_len value <=? 128) && (is_ascii_alphabetic b || Ascii.eqb b "_")
         && forallb (fun b => is_ascii_alphanumeric b || Ascii.eqb b "_") rest
      then Some value else None
  | [] => None
  end.

Definition legacy_environment (name : string) : option DeferredSecretSource :=
  DeferredSecretSource.LegacyEnvironment <$> parse_legacy_name name.

Definition literal (value : string) : res DeferredSecretSourceError.DeferredSecretSourceError DeferredSecretSource :=
  if String.eqb value "" then Err DeferredSecretSourceError.Empty else Ok (DeferredSecretSource.Literal value).

Definition opaque (r : SecretRef) : DeferredSecretSource := DeferredSecretSource.Opaque r.

Definition source_ref (source : DeferredSecretSource) : DeferredSecretSourceRef :=
  match source with
  | DeferredSecretSource.Environment _ key => DeferredSecretSourceRef.Environment key
  | DeferredSecretSource.LegacyEnvironment name => DeferredSecretSourceRef.Environment name
  | DeferredSecretSource.Literal value => DeferredSecretSourceRef.Literal value
  | DeferredSecretSource.Opaque r => DeferredSecretSourceRef.Opaque r
  end.

(** Credentials are compared by the address of their storage. *)
Record DeferredHttpCredentials : Type := mkCredentials { storage_address : nat; bearer_source : DeferredSecretSource }.

Definition bearer (address : nat) (source : DeferredSecretSource) : DeferredHttpCredentials := mkCredentials address source.

Definition credentials_eqb (a b : DeferredHttpCredentials) : bool := storage_address a =? storage_address b.

(** * Secret sessions under concurrency

    [step] interleaves the parts of the operations of a session as threads
    run them: the first look at the flag, the lock, the second look, the work
    on the slots.  Two things hold in every interleaving: a reference gives the
    value it was made for or nothing, and once the session is closed and the
    thread that closed it is done, no secret is left and none comes back. *)

(** ** Requests and their parts *)

Module Request.
Inductive Request : Type :=
  | Present (name : SecretName)
  | Reference (name : SecretName)
  | Validate (r : SecretRef) (domain : SecurityDomainId)
  | Resolve (r : SecretRef) (domain : SecurityDomainId)
  | Bind (name : SecretName) (value : string)
  | Close.
End Request.
Abbreviation Request := Request.Request.

Module Answer.
Inductive Answer : Type :=
  | Is (b : bool)
  | Ref (r : SecretRef)
  | Valid
  | Text (value : string)
  | Done.
End Answer.
Abbreviation Answer := Answer.Answer.

Module Phase.
Inductive Phase : Type :=
  | Start
  | Waiting
  | Holding
  | Working
  | Finished (r : result Answer).
End Phase.
Abbreviation Phase := Phase.Phase.

Section session.
Variable i : SessionIdentity.

(** What a request does before it takes the lock. *)
Definition before (q : Request) (closed : bool) : result unit :=
  match q with
  | Request.Present _ | Request.Reference _ | Request.Close => ensure_open closed
  | Request.Validate r d | Request.Resolve r d => ensure_reference_authority i closed r d
  | Request.Bind _ value => let? _ := bind_check value in ensure_open closed
  end.

(** What it does under the lock, after the second look at the flag. *)
Definition locked (q : Request) (s : slots_) : result (Answer * slots_) :=
  match q with
  | Request.Present name => let? b := present_locked name s in Ok (Answer.Is b, s)
  | Request.Reference name => let? r := reference_locked i name s in Ok (Answer.Ref r, s)
  | Request.Validate r _ => let? _ := validate_reference_locked r s in Ok (Answer.Valid, s)
  | Request.Resolve r _ => let? v := resolve_reference_locked r s in Ok (Answer.Text v, s)
  | Request.Bind name value => let? (r, s) := bind_locked i name value s in Ok (Answer.Ref r, s)
  | Request.Close => Ok (Answer.Done, [])
  end.

(** A request that runs alone is the operation of the session. *)
Definition alone (q : Request) (closed : bool) (s : slots_) : result (Answer * slots_) :=
  let? _ := before q closed in let? _ := ensure_open closed in locked q s.

Lemma alone_bind name value closed s :
  alone (Request.Bind name value) closed s
  = let? (r, inner) := bind name value (mkSession i closed s) in Ok (Answer.Ref r, slots inner).
Proof.
  unfold alone, bind, before, locked. destruct (bind_check value); try done. simpl.
  destruct closed; [done|]. simpl. by destruct (bind_locked i name value s) as [[r s']| | |].
Qed.

Lemma alone_resolve r d closed s :
  alone (Request.Resolve r d) closed s = let? v := resolve_reference (mkSession i closed s) r d in Ok (Answer.Text v, s).
Proof.
  unfold alone, resolve_reference, before, locked. simpl. destruct (ensure_reference_authority i closed r d); try done. simpl.
  by destruct closed.
Qed.

Lemma alone_reference name closed s :
  alone (Request.Reference name) closed s = let? r := reference (mkSession i closed s) name in Ok (Answer.Ref r, s).
Proof. by destruct closed. Qed.

(** ** Threads *)

Record System : Type := mkSystem {
  flag : bool; table : slots_; holder : option nat; threads : list (Request * Phase);
  (** every value that was bound, with the generation it got *)
  issued : list (string * N * string) }.

Definition idle : System := mkSystem false [] None [] [].

Definition with_phase (t : nat) (q : Request) (p : Phase) (s : System) : System :=
  mkSystem (flag s) (table s) (holder s) (<[t := (q, p)]> (threads s)) (issued s).

Definition with_holder (h : option nat) (s : System) : System :=
  mkSystem (flag s) (table s) h (threads s) (issued s).

(** What a finished request adds to the history. *)
Definition record_issue (q : Request) (a : Answer) (l : list (string * N * string)) : list (string * N * string) :=
  match q, a with
  | Request.Bind name value, Answer.Ref r => (secret_name name, ref_generation r, value) :: l
  | _, _ => l
  end.

Definition is_close (q : Request) : bool := match q with Request.Close => true | _ => false end.

Inductive step (s : System) : System -> Prop :=
  | step_spawn q : step s (mkSystem (flag s) (table s) (holder s) (threads s ++ [(q, Phase.Start)]) (issued s))
  | step_check t q : threads s !! t = Some (q, Phase.Start) -> is_close q = false ->
      step s (with_phase t q (match before q (flag s) with
                              | Ok _ => Phase.Waiting
                              | Err e => Phase.Finished (Err e)
                              | Panic => Phase.Finished Panic
                              | OutOfFuel => Phase.Finished OutOfFuel
                              end) s)
  | step_swap t : threads s !! t = Some (Request.Close, Phase.Start) ->
      step s (if flag s then with_phase t Request.Close (Phase.Finished (Ok Answer.Done)) s
              else with_phase t Request.Close Phase.Waiting (mkSystem true (table s) (holder s) (threads s) (issued s)))
  | step_lock t q : threads s !! t = Some (q, Phase.Waiting) -> holder s = None ->
      step s (with_phase t q Phase.Holding (with_holder (Some t) s))
  | step_look t q : threads s !! t = Some (q, Phase.Holding) -> is_close q = false ->
      step s (if flag s
              then with_phase t q (Phase.Finished (Err SecretSessionErrorKind.Closed)) (with_holder None s)
              else with_phase t q Phase.Working s)
  | step_work t q a table' : threads s !! t = Some (q, Phase.Working) -> locked q (table s) = Ok (a, table') ->
      step s (with_phase t q (Phase.Finished (Ok a))
                (mkSystem (flag s) table' None (threads s) (record_issue q a (issued s))))
  | step_refuse t q e : threads s !! t = Some (q, Phase.Working) -> locked q (table s) = Err e ->
      step s (with_phase t q (Phase.Finished (Err e)) (with_holder None s))
  | step_clear t : threads s !! t = Some (Request.Close, Phase.Holding) ->
      step s (with_phase t Request.Close (Phase.Finished (Ok Answer.Done))
                (mkSystem (flag s) [] None (threads s) (issued s))).

Definition reachable (s : System) : Prop := rtc step idle s.

(** ** The invariant *)

(** A closer that has set the flag and not yet cleared the slots. *)
Definition closing (s : System) : Prop :=
  exists t p, threads s !! t = Some (Request.Close, p) /\ (p = Phase.Waiting \/ p = Phase.Holding).

Definition working (s : System) : Prop := exists t q, threads s !! t = Some (q, Phase.Working).

Definition authorised (q : Request) : Prop :=
  match q with
  | Request.Resolve r d =>
      ref_session_id r = session_id i /\ ref_session r = session_address i /\ session_domain i = d /\
      ref_security_domain_id r = d
  | _ => True
  end.

Record Inv (s : System) : Prop := mkInv {
  inv_holder : forall t q p, threads s !! t = Some (q, p) -> p = Phase.Holding \/ p = Phase.Working -> holder s = Some t;
  inv_close : forall t, threads s !! t <> Some (Request.Close, Phase.Working);
  inv_flag : forall t p, threads s !! t = Some (Request.Close, p) -> p = Phase.Waiting \/ p = Phase.Holding -> flag s = true;
  inv_closed : flag s = true -> closing s \/ table s = [] /\ ~ working s;
  inv_slots : forall n slot, bt_get n (table s) = Some slot -> (n, slot_generation slot, slot_value slot) ∈ issued s;
  inv_unique : forall n g v v', (n, g, v) ∈ issued s -> (n, g, v') ∈ issued s -> v = v';
  inv_past : (forall n g v, (n, g, v) ∈ issued s -> exists slot, bt_get n (table s) = Some slot /\ (g <= slot_generation slot)%N)
             \/ flag s = true /\ ~ working s;
  inv_authorised : forall t q p, threads s !! t = Some (q, p) ->
    match p with Phase.Waiting | Phase.Holding | Phase.Working => authorised q | _ => True end;
  inv_resolved : forall t r d v, threads s !! t = Some (Request.Resolve r d, Phase.Finished (Ok (Answer.Text v))) ->
    authorised (Request.Resolve r d) /\ (secret_name (ref_name r), ref_generation r, v) ∈ issued s }.

Lemma inv_idle : Inv idle.
Proof.
  split; try done.
  - intros n g v v' H. by apply elem_of_nil in H.
  - left. intros n g v H. by apply elem_of_nil in H.
Qed.

(** The threads after one of them moved. *)
Lemma moved (l : list (Request * Phase)) t x t' y :
  <[t := x]> l !! t' = Some y -> t' = t /\ y = x \/ t' <> t /\ l !! t' = Some y.
Proof. intros H. apply list_lookup_insert_Some in H as [(-> & <- & _)|[? ?]]; auto. Qed.

Lemma moved_other (l : list (Request * Phase)) t x t' y : l !! t' = Some y -> t' <> t -> <[t := x]> l !! t' = Some y.
Proof. intros H Hne. by rewrite list_lookup_insert_ne. Qed.

Lemma moved_self (l : list (Request * Phase)) t x y : l !! t = Some y -> <[t := x]> l !! t = Some x.
Proof. intros H. apply list_lookup_insert_eq. by eapply lookup_lt_Some. Qed.

(** A step that moves one thread, and neither touches the slots nor brings a
    thread to work, keeps the invariant when what it does to the flag, to the
    lock and to the closers fits. *)
Lemma inv_move s s' t q p p' :
  Inv s -> threads s !! t = Some (q, p) -> threads s' = <[t := (q, p')]> (threads s) ->
  table s' = table s -> issued s' = issued s -> p' <> Phase.Working ->
  (flag s = true -> flag s' = true) ->
  (flag s' = true -> flag s = true \/ closing s') ->
  (p' = Phase.Holding -> holder s' = Some t) ->
  (forall t' q' p1, t' <> t -> threads s !! t' = Some (q', p1) -> p1 = Phase.Holding \/ p1 = Phase.Working -> holder s = holder s') ->
  (q = Request.Close -> p = Phase.Waiting \/ p = Phase.Holding -> p' = Phase.Waiting \/ p' = Phase.Holding) ->
  (q = Request.Close -> p' = Phase.Waiting \/ p' = Phase.Holding -> flag s' = true) ->
  (match p' with Phase.Waiting | Phase.Holding => authorised q | _ => True end) ->
  (forall r d v, q = Request.Resolve r d -> p' = Phase.Finished (Ok (Answer.Text v)) ->
     authorised q /\ (secret_name (ref_name r), ref_generation r, v) ∈ issued s) ->
  Inv s'.
Proof.
  intros [H1 H2 H3 H4 H5 H6 H7 H8 H9] Ht Hts Htab Hiss Hw Hf Hf' Hh Hho Hc Hcf Ha Hres.
  assert (Hwork : working s' -> working s).
  { intros (t' & q' & Hw'). rewrite Hts in Hw'. apply moved in Hw' as [[-> [= -> <-]]|[_ Hw']]; [done|by exists t', q']. }
  assert (Hclosing : closing s -> closing s').
  { intros (t' & p1 & Ht' & Hp1). destruct (decide (t' = t)) as [->|Hne].
    - simplify_eq. exists t, p'. rewrite Hts. split; [by eapply moved_self|by apply Hc].
    - exists t', p1. rewrite Hts. by split; [apply moved_other|]. }
  split.
  - intros t' q' p1 Ht' Hp1. rewrite Hts in Ht'. apply moved in Ht' as [[-> [= -> ->]]|[Hne Ht']].
    + destruct Hp1 as [->| ->]; [by apply Hh|done].
    + rewrite <- (Hho t' q' p1); [by eapply H1|done..].
  - intros t' Ht'. rewrite Hts in Ht'. apply moved in Ht' as [[-> [= _ <-]]|[_ Ht']]; [done|by eapply H2].
  - intros t' p1 Ht' Hp1. rewrite Hts in Ht'. apply moved in Ht' as [[-> [= <- ->]]|[_ Ht']]; [by apply Hcf|]. by eapply Hf, H3.
  - intros Hflag. destruct (Hf' Hflag) as [Hfs|Hcl]; [|by left]. destruct (H4 Hfs) as [Hcl|[Htb Hnw]]; [by left; apply Hclosing|].
    right. rewrite Htab. split; [done|]. intros Hws. by apply Hnw, Hwork.
  - rewrite Htab, Hiss. exact H5.
  - rewrite Hiss. exact H6.
  - rewrite Htab, Hiss. destruct H7 as [H7|[Hfs Hnw]]; [by left|right]. split; [by apply Hf|]. intros Hws. by apply Hnw, Hwork.
  - intros t' q' p1 Ht'. rewrite Hts in Ht'. apply moved in Ht' as [[-> [= -> ->]]|[_ Ht']]; [|by eapply H8]. by destruct p'.
  - intros t' r d v Ht'. rewrite Hts in Ht'. rewrite Hiss. apply moved in Ht' as [[-> [= <- <-]]|[_ Ht']]; [by eapply Hres|by eapply H9].
Qed.

Lemma alone_holds s t q p t' q' p' : Inv s -> threads s !! t = Some (q, p) -> p = Phase.Holding \/ p = Phase.Working ->
  t' <> t -> threads s !! t' = Some (q', p') -> p' = Phase.Holding \/ p' = Phase.Working -> False.
Proof. intros Hi Ht Hp Hne Ht' Hp'. apply Hne. pose proof (inv_holder _ Hi _ _ _ Ht Hp). pose proof (inv_holder _ Hi _ _ _ Ht' Hp'). congruence. Qed.

Lemma before_authorised q closed u : before q closed = Ok u -> authorised q.
Proof.
  destruct q as [| | |r d| |]; try done. cbn [before authorised]. unfold ensure_reference_authority. destruct closed; [done|]. simpl.
  intros H. destruct (bool_decide_reflect (ref_session_id r = session_id i)); [|done].
  destruct (Nat.eqb_spec (ref_session r) (session_address i)); [|done]. simpl in H.
  destruct (bool_decide_reflect (session_domain i = d)); [|done].
  by destruct (bool_decide_reflect (ref_security_domain_id r = d)).
Qed.

Lemma inv_spawn s q : Inv s -> Inv (mkSystem (flag s) (table s) (holder s) (threads s ++ [(q, Phase.Start)]) (issued s)).
Proof.
  intros [H1 H2 H3 H4 H5 H6 H7 H8 H9].
  assert (Hl : forall t q' p', (threads s ++ [(q, Phase.Start)]) !! t = Some (q', p') -> threads s !! t = Some (q', p') \/ p' = Phase.Start).
  { intros t q' p' Ht. apply lookup_app_Some in Ht as [Ht|[_ Ht]]; [by left|]. apply list_lookup_singleton_Some in Ht as [_ [= _ <-]]. by right. }
  assert (Hw : working (mkSystem (flag s) (table s) (holder s) (threads s ++ [(q, Phase.Start)]) (issued s)) -> working s).
  { intros (t & q' & Ht). destruct (Hl _ _ _ Ht) as [|]; [by exists t, q'|done]. }
  split; cbn [flag table holder threads issued].
  - intros t q' p' Ht Hp. destruct (Hl _ _ _ Ht) as [Ht'| ->]; [by eapply H1|by destruct Hp].
  - intros t Ht. destruct (Hl _ _ _ Ht) as [Ht'|]; [by eapply H2|done].
  - intros t p' Ht Hp. destruct (Hl _ _ _ Ht) as [Ht'| ->]; [by eapply H3|by destruct Hp].
  - intros Hf. destruct (H4 Hf) as [(t & p' & Ht & Hp)|[Htb Hn]]; [left|right].
    + exists t, p'. split; [by apply lookup_app_l_Some|done].
    + split; [done|]. intros Hws. by apply Hn, Hw.
  - done.
  - done.
  - destruct H7 as [H7|[Hf Hn]]; [by left|right]. split; [done|]. intros Hws. by apply Hn, Hw.
  - intros t q' p' Ht. destruct (Hl _ _ _ Ht) as [Ht'| ->]; [by eapply H8|done].
  - intros t r d v Ht. destruct (Hl _ _ _ Ht) as [Ht'|]; [by eapply H9|done].
Qed.

(** A thread goes to work when the flag is still down. *)
Lemma inv_look s t q : Inv s -> threads s !! t = Some (q, Phase.Holding) -> is_close q = false -> flag s = false ->
  Inv (with_phase t q Phase.Working s).
Proof.
  intros Hi Ht Hq Hfl. pose proof Hi as [H1 H2 H3 H4 H5 H6 H7 H8 H9]. unfold with_phase.
  split; cbn [flag table holder threads issued]; try done.
  - intros t' q' p' Ht' Hp'. apply moved in Ht' as [[-> [= -> ->]]|[_ Ht']]; [by eapply H1; [exact Ht|left]|by eapply H1].
  - intros t' Ht'. apply moved in Ht' as [[-> [= <-]]|[_ Ht']]; [done|by eapply H2].
  - intros t' p' Ht' Hp'. apply moved in Ht' as [[-> [= _ ->]]|[_ Ht']]; [by destruct Hp'|by eapply H3].
  - by rewrite Hfl.
  - destruct H7 as [H7|[Hf _]]; [by left|congruence].
  - intros t' q' p' Ht'. apply moved in Ht' as [[-> [= -> ->]]|[_ Ht']]; [by apply (H8 t q Phase.Holding)|by eapply H8].
  - intros t' r d v Ht'. apply moved in Ht' as [[_ [=]]|[_ Ht']]; by eapply H9.
Qed.

(** The slots are cleared by the only thread at the lock. *)
Lemma inv_clear s t : Inv s -> threads s !! t = Some (Request.Close, Phase.Holding) ->
  Inv (with_phase t Request.Close (Phase.Finished (Ok Answer.Done)) (mkSystem (flag s) [] None (threads s) (issued s))).
Proof.
  intros Hi Ht. pose proof Hi as [H1 H2 H3 H4 H5 H6 H7 H8 H9]. unfold with_phase.
  assert (Hn : forall t' q' p', t' <> t -> threads s !! t' = Some (q', p') -> p' = Phase.Holding \/ p' = Phase.Working -> False).
  { intros t' q' p' Hne Ht' Hp'. eapply (alone_holds s t); [done|exact Ht|by left|exact Hne|exact Ht'|done]. }
  assert (Hw : ~ exists t' q', <[t := (Request.Close, Phase.Finished (Ok Answer.Done))]> (threads s) !! t' = Some (q', Phase.Working)).
  { intros (t' & q' & Ht'). apply moved in Ht' as [[_ [=]]|[Hne Ht']]. eapply Hn; [exact Hne|exact Ht'|by right]. }
  assert (Hfl : flag s = true) by (by apply (H3 t Phase.Holding); [|right]).
  split; cbn [flag table holder threads issued]; try done.
  - intros t' q' p' Ht' Hp'. apply moved in Ht' as [[_ [= _ ->]]|[Hne Ht']]; [by destruct Hp'|]. exfalso. by eapply Hn.
  - intros t' Ht'. apply Hw. by exists t', Request.Close.
  - by right.
  - by right.
  - intros t' q' p' Ht'. apply moved in Ht' as [[_ [= _ ->]]|[_ Ht']]; [done|by eapply H8].
  - intros t' r d v Ht'. apply moved in Ht' as [[_ [=]]|[_ Ht']]; by eapply H9.
Qed.

(** A new value gets a generation above all those of its name. *)
Lemma inv_bind s t name value r table' : Inv s -> threads s !! t = Some (Request.Bind name value, Phase.Working) ->
  bind_locked i name value (table s) = Ok (r, table') ->
  Inv (with_phase t (Request.Bind name value) (Phase.Finished (Ok (Answer.Ref r)))
        (mkSystem (flag s) table' None (threads s) ((secret_name name, ref_generation r, value) :: issued s))).
Proof.
  intros Hi Ht Hb. pose proof Hi as [H1 H2 H3 H4 H5 H6 H7 H8 H9]. unfold with_phase.
  apply rbind_Ok in Hb as (g & Hg & [= <- <-]). cbn [new_ref ref_generation].
  destruct H7 as [H7|[_ Hnw]]; [|by destruct Hnw; exists t, (Request.Bind name value)].
  assert (Hold : forall g' v, (secret_name name, g', v) ∈ issued s -> (g' < g)%N).
  { intros g' v Hin. destruct (H7 _ _ _ Hin) as (slot & Hs & Hle). unfold next_generation in Hg. rewrite Hs in Hg.
    destruct (_ <? _)%N; [injection Hg as <-; lia|done]. }
  assert (Hn : forall t' q' p', t' <> t -> threads s !! t' = Some (q', p') -> p' = Phase.Holding \/ p' = Phase.Working -> False).
  { intros t' q' p' Hne Ht' Hp'. eapply (alone_holds s t); [done|exact Ht|by right|exact Hne|exact Ht'|done]. }
  assert (Hw : ~ exists t' q', <[t := (Request.Bind name value, Phase.Finished (Ok (Answer.Ref (new_ref i name g))))]> (threads s) !! t' = Some (q', Phase.Working)).
  { intros (t' & q' & Ht'). apply moved in Ht' as [[_ [=]]|[Hne Ht']]. eapply Hn; [exact Hne|exact Ht'|by right]. }
  split; cbn [flag table holder threads issued].
  - intros t' q' p' Ht' Hp'. apply moved in Ht' as [[_ [= _ ->]]|[Hne Ht']]; [by destruct Hp'|]. exfalso. by eapply Hn.
  - intros t' Ht'. apply Hw. by exists t', Request.Close.
  - intros t' p' Ht' Hp'. apply moved in Ht' as [[_ [=]]|[_ Ht']]. by eapply H3.
  - intros Hf. left. destruct (H4 Hf) as [(t' & p' & Ht' & Hp')|[_ Hnw]]; [|by destruct Hnw; exists t, (Request.Bind name value)].
    exists t', p'. split; [|done]. apply moved_other; [done|]. intros ->. congruence.
  - intros n slot Hs. rewrite bt_get_insert in Hs. destruct (String.eqb_spec n (secret_name name)) as [->|Hne].
    + injection Hs as <-. by apply list_elem_of_here.
    + apply list_elem_of_further. by apply H5.
  - intros n g' v v' Hv Hv'. apply elem_of_cons in Hv as [[= -> -> ->]|Hv], Hv' as [Hv'|Hv'].
    + by injection Hv' as ->.
    + apply Hold in Hv'. lia.
    + injection Hv' as -> -> ->. apply Hold in Hv. lia.
    + by eapply H6.
  - left. intros n g' v Hv. rewrite bt_get_insert. destruct (String.eqb_spec n (secret_name name)) as [->|Hne].
    + eexists. split; [done|]. simpl. apply elem_of_cons in Hv as [[= -> ->]|Hv]; [lia|]. apply Hold in Hv. lia.
    + apply elem_of_cons in Hv as [[= ? _ _]|Hv]; [done|]. by apply (H7 n g' v).
  - intros t' q' p' Ht'. apply moved in Ht' as [[_ [= _ ->]]|[_ Ht']]; [done|by eapply H8].
  - intros t' r' d v Ht'. apply moved in Ht' as [[_ [=]]|[_ Ht']]. destruct (H9 _ _ _ _ Ht') as [Ha Hin].
    split; [done|]. by apply list_elem_of_further.
Qed.

(** Work that reads leaves the slots alone. *)
Lemma locked_reads q l a l' : is_close q = false -> locked q l = Ok (a, l') ->
  (exists name value, q = Request.Bind name value) \/
  l' = l /\ (forall iss, record_issue q a iss = iss) /\
  forall r d v, q = Request.Resolve r d -> a = Answer.Text v -> exists slot,
    bt_get (secret_name (ref_name r)) l = Some slot /\ slot_generation slot = ref_generation r /\ slot_value slot = v.
Proof.
  intros Hq H. destruct q as [n|n|r d|r d|n v|]; cbn [locked] in H; try done; [| | | |left; by eexists _, _];
    right; apply rbind_Ok in H as (x & Hx & [= <- <-]); (split; [done|]); (split; [done|]); try done.
  intros r' d' v [= <- <-] [= ->]. unfold resolve_reference_locked in Hx. destruct (bt_get _ l) as [slot|]; [|done].
  destruct (N.eqb_spec (slot_generation slot) (ref_generation r)); [|done]. injection Hx as <-. by exists slot.
Qed.

(** The side conditions of [inv_move] that hold by computation. *)
Ltac easy_move :=
  first [ done | by left | by right | discriminate | (by intros; left) | (by intros -> [?|?]) | (by intros ? [?|?])
        | (by intros ? ? ? -> ?) | (by intros ? ? ? ? [=]) ].

Lemma inv_step s s' : Inv s -> step s s' -> Inv s'.
Proof.
  intros Hi Hs. pose proof (alone_holds s) as Halone.
  destruct Hs as [q|t q Ht Hq|t Ht|t q Ht Hh|t q Ht Hq|t q a table' Ht Hl|t q e Ht Hl|t Ht].
  - by apply inv_spawn.
  - assert (q <> Request.Close) by (by intros ->).
    destruct (before q (flag s)) as [[]|e| |] eqn:E;
      (eapply (inv_move s _ t q Phase.Start); [exact Hi|exact Ht|reflexivity|reflexivity|reflexivity|..]; easy_move || idtac).
    by eapply before_authorised.
  - destruct (flag s) eqn:Ef.
    + eapply (inv_move s _ t Request.Close Phase.Start); [exact Hi|exact Ht|reflexivity|reflexivity|reflexivity|..]; easy_move.
    + eapply (inv_move s _ t Request.Close Phase.Start); [exact Hi|exact Ht|reflexivity|reflexivity|reflexivity|..]; easy_move || idtac.
      intros _. right. exists t, Phase.Waiting. split; [by eapply moved_self|by left].
  - eapply (inv_move s _ t q Phase.Waiting); [exact Hi|exact Ht|reflexivity|reflexivity|reflexivity|..]; easy_move || idtac.
    + intros t' q' p1 _ Ht' Hp. pose proof (inv_holder _ Hi _ _ _ Ht' Hp). congruence.
    + intros -> _. simpl. by apply (inv_flag _ Hi t Phase.Waiting); [|left].
    + exact (inv_authorised _ Hi _ _ _ Ht).
  - destruct (flag s) eqn:Ef; [|by apply inv_look].
    assert (q <> Request.Close) by (by intros ->).
    eapply (inv_move s _ t q Phase.Holding); [exact Hi|exact Ht|reflexivity|reflexivity|reflexivity|..]; easy_move || idtac.
    intros t' q' p1 Hne Ht' Hp. exfalso. eapply (Halone t); [done|exact Ht|by left|exact Hne|exact Ht'|done].
  - assert (q <> Request.Close) by (intros ->; by eapply inv_close).
    destruct (locked_reads q (table s) a table') as [(name & value & ->)|(-> & Hrec & Hres)]; [by destruct q|done| |].
    + apply rbind_Ok in Hl as ([r l] & Hb & [= <- <-]). by apply inv_bind.
    + rewrite Hrec. eapply (inv_move s _ t q Phase.Working); [exact Hi|exact Ht|reflexivity|reflexivity|reflexivity|..]; easy_move || idtac.
      * intros t' q' p1 Hne Ht' Hp. exfalso. eapply (Halone t); [done|exact Ht|by right|exact Hne|exact Ht'|done].
      * intros r d v -> [= ->]. split; [exact (inv_authorised _ Hi _ _ _ Ht)|].
        destruct (Hres r d v eq_refl eq_refl) as (slot & Hs & <- & <-). by apply (inv_slots _ Hi).
  - assert (q <> Request.Close) by (intros ->; by eapply inv_close).
    eapply (inv_move s _ t q Phase.Working); [exact Hi|exact Ht|reflexivity|reflexivity|reflexivity|..]; easy_move || idtac.
    intros t' q' p1 Hne Ht' Hp. exfalso. eapply (Halone t); [done|exact Ht|by right|exact Hne|exact Ht'|done].
  - by apply inv_clear.
Qed.

Lemma inv_steps s s' : Inv s -> rtc step s s' -> Inv s'.
Proof. intros Hi H. induction H as [|s1 s2 s3 Hs _ IH]; [done|]. by eapply IH, inv_step. Qed.

(** ** The history is that of the threads *)

Definition bound (s : System) (n : string) (g : N) (v : string) : Prop :=
  exists t name, threads s !! t = Some (Request.Bind name v, Phase.Finished (Ok (Answer.Ref (new_ref i name g)))) /\ n = secret_name name.

Definition historical (s : System) : Prop := forall n g v, (n, g, v) ∈ issued s <-> bound s n g v.

Definition finished (p : Phase) : bool := match p with Phase.Finished _ => true | _ => false end.

(** A thread that moves was not finished. *)
Lemma bound_moves s s' t q p p' n g v : threads s !! t = Some (q, p) -> finished p = false ->
  threads s' = <[t := (q, p')]> (threads s) ->
  bound s' n g v <-> bound s n g v \/ exists name, q = Request.Bind name v /\ p' = Phase.Finished (Ok (Answer.Ref (new_ref i name g))) /\ n = secret_name name.
Proof.
  intros Ht Hp Hts. unfold bound. rewrite Hts. split.
  - intros (t' & name & Ht' & Hn). apply moved in Ht' as [[-> [= <- <-]]|[_ Ht']]; [right|left]; eauto.
  - intros [(t' & name & Ht' & Hn)|(name & -> & -> & Hn)].
    + exists t', name. split; [|done]. apply moved_other; [done|]. intros ->. by simplify_eq.
    + exists t, name. split; [by eapply moved_self|done].
Qed.

Lemma historical_step s s' : historical s -> step s s' -> historical s'.
Proof.
  intros Hh Hs n g v.
  assert (Hmove : forall t q p p', threads s !! t = Some (q, p) -> finished p = false -> threads s' = <[t := (q, p')]> (threads s) ->
    (forall name a, q = Request.Bind name v -> p' = Phase.Finished (Ok a) -> False) -> issued s' = issued s ->
    (n, g, v) ∈ issued s' <-> bound s' n g v).
  { intros t q p p' Ht Hp Hts Hno ->. rewrite (bound_moves s s' t q p p' n g v Ht Hp Hts), (Hh n g v).
    split; [by left|]. intros [?|(name & Hq & Hp' & _)]; [done|]. by destruct (Hno _ _ Hq Hp'). }
  destruct Hs as [q|t q Ht Hq|t Ht|t q Ht Hf|t q Ht Hq|t q a table' Ht Hl|t q e Ht Hl|t Ht].
  - cbn [issued]. rewrite (Hh n g v). unfold bound. cbn [threads]. split; intros (t & name & Ht & Hn); exists t, name; (split; [|done]).
    + by apply lookup_app_l_Some.
    + apply lookup_app_Some in Ht as [Ht|[_ Ht]]; [done|]. by apply list_lookup_singleton_Some in Ht as [_ [=]].
  - eapply Hmove; [exact Ht|done|reflexivity| |done]. intros name a -> Hp. by destruct (before _ _).
  - destruct (flag s); (eapply Hmove; [exact Ht|done|reflexivity|done|done]).
  - eapply Hmove; [exact Ht|done|reflexivity|done|done].
  - destruct (flag s); (eapply Hmove; [exact Ht|done|reflexivity|by intros|done]).
  - destruct (is_close q) eqn:Eq; [destruct q; try done; eapply Hmove; [exact Ht|done|reflexivity|done|done]|].
    destruct (locked_reads q (table s) a table' Eq Hl) as [(name & value & ->)|(-> & Hrec & _)].
    + apply rbind_Ok in Hl as ([r l] & Hb & [= <- <-]). apply rbind_Ok in Hb as (g' & _ & [= <- <-]).
      match goal with |- _ <-> bound ?s1 _ _ _ =>
        rewrite (bound_moves s s1 t _ Phase.Working (Phase.Finished (Ok (Answer.Ref (new_ref i name g')))) n g v Ht eq_refl eq_refl) end.
      cbn [with_phase issued record_issue new_ref ref_generation]. rewrite elem_of_cons, (Hh n g v). split.
      * intros [[= -> -> ->]|?]; [right; by exists name|by left].
      * intros [?|(name' & Hq & Hp & ->)]; [by right|left]. injection Hq as <- <-. unfold new_ref in Hp. by injection Hp as <-.
    + eapply Hmove; [exact Ht|done|reflexivity| |apply Hrec]. intros name a' -> _. cbn [locked] in Hl.
      apply rbind_Ok in Hl as ([r l] & Hb & [= <- ->]). specialize (Hrec []). done.
  - eapply Hmove; [exact Ht|done|reflexivity|done|done].
  - eapply Hmove; [exact Ht|done|reflexivity|done|done].
Qed.

Lemma historical_idle : historical idle.
Proof. intros n g v. split; [by intros H%elem_of_nil|]. by intros (t & name & Ht & _). Qed.

Lemma historical_steps s s' : historical s -> rtc step s s' -> historical s'.
Proof. intros Hi H. induction H as [|s1 s2 s3 Hs _ IH]; [done|]. by eapply IH, historical_step. Qed.

(** The references that threads get for values are those of the session. *)
Definition refs_made (s : System) : Prop := forall t name v r,
  threads s !! t = Some (Request.Bind name v, Phase.Finished (Ok (Answer.Ref r))) -> exists g, r = new_ref i name g.

Lemma refs_step s s' : refs_made s -> step s s' -> refs_made s'.
Proof.
  intros Hr Hs t name v r Ht.
  destruct Hs as [q|t1 q Ht1 Hq|t1 Ht1|t1 q Ht1 Hf|t1 q Ht1 Hq|t1 q a table' Ht1 Hl|t1 q e Ht1 Hl|t1 Ht1]; cbn [threads] in Ht.
  1: { apply lookup_app_Some in Ht as [Ht|[_ Ht]]; [by eapply Hr|]. by apply list_lookup_singleton_Some in Ht as [_ [=]]. }
  2, 4: destruct (flag s).
  all: apply moved in Ht as [[_ He]|[_ Ht]]; [|by eapply Hr]; try discriminate He.
  - injection He as <- Hp. by destruct (before _ _).
  - injection He as <- <-. cbn [locked] in Hl. apply rbind_Ok in Hl as ([r' l] & Hb & [= <- <-]).
    apply rbind_Ok in Hb as (g & _ & [= <- <-]). by exists g.
Qed.

Lemma bound_ref s : reachable s -> refs_made s.
Proof.
  unfold reachable. intros H. assert (H0 : refs_made idle) by (by intros t name v r Ht).
  induction H as [|s1 s2 s3 Hs _ IH]; [done|]. by eapply IH, refs_step.
Qed.

(** ** After the session is closed *)

Lemma closed_step s s' : Inv s -> flag s = true -> ~ closing s -> step s s' ->
  flag s' = true /\ ~ closing s' /\
  forall t q a, threads s' !! t = Some (q, Phase.Finished (Ok a)) -> is_close q = true \/ threads s !! t = Some (q, Phase.Finished (Ok a)).
Proof.
  intros Hi Hf Hc Hs. destruct (inv_closed _ Hi Hf) as [|[_ Hw]]; [done|].
  assert (Hmove : forall t q p p', threads s !! t = Some (q, p) -> threads s' = <[t := (q, p')]> (threads s) ->
    (q = Request.Close -> p' <> Phase.Waiting /\ p' <> Phase.Holding) ->
    (forall a, p' = Phase.Finished (Ok a) -> is_close q = true) -> flag s' = true ->
    flag s' = true /\ ~ closing s' /\
    forall t q a, threads s' !! t = Some (q, Phase.Finished (Ok a)) -> is_close q = true \/ threads s !! t = Some (q, Phase.Finished (Ok a))).
  { intros t q p p' Ht Hts Hcl Hok Hf'. split; [done|]. split.
    - intros (t' & p1 & Ht' & Hp1). rewrite Hts in Ht'. apply moved in Ht' as [[-> [= <- ->]]|[_ Ht']].
      + destruct (Hcl eq_refl). by destruct Hp1.
      + apply Hc. by exists t', p1.
    - intros t' q' a Ht'. rewrite Hts in Ht'. apply moved in Ht' as [[-> [= -> <-]]|[_ Ht']]; [left; by eapply Hok|by right]. }
  destruct Hs as [q|t q Ht Hq|t Ht|t q Ht Hl|t q Ht Hq|t q a table' Ht Hl|t q e Ht Hl|t Ht].
  - split; [done|]. split.
    + intros (t & p & Ht & Hp). cbn [threads] in Ht. apply lookup_app_Some in Ht as [Ht|[_ Ht]]; [apply Hc; by exists t, p|].
      apply list_lookup_singleton_Some in Ht as [_ [= _ <-]]. by destruct Hp.
    + intros t q' a Ht. cbn [threads] in Ht. apply lookup_app_Some in Ht as [Ht|[_ Ht]]; [by right|].
      by apply list_lookup_singleton_Some in Ht as [_ [=]].
  - eapply Hmove; [exact Ht|reflexivity|by intros ->|intros a; by destruct (before _ _)|done].
  - destruct (flag s) eqn:Ef; [|done]. eapply Hmove; [exact Ht|reflexivity|done|done|done].
  - eapply Hmove; [exact Ht|reflexivity| |done|done]. intros ->. exfalso. apply Hc. exists t, Phase.Waiting. split; [done|by left].
  - destruct (flag s) eqn:Ef; [|done]. eapply Hmove; [exact Ht|reflexivity|by intros ->|done|done].
  - destruct Hw. by exists t, q.
  - destruct Hw. by exists t, q.
  - destruct Hc. exists t, Phase.Holding. split; [done|by right].
Qed.

(** C22: in every interleaving of operations on a session, a resolution that
    succeeds has answered with the value of the one binding that made the
    reference: some thread bound this value and got this very reference, the
    session and the security domain are those of the reference, and no thread
    got the reference for another value. *)
Theorem resolved_as_bound s t r d v :
  reachable s -> threads s !! t = Some (Request.Resolve r d, Phase.Finished (Ok (Answer.Text v))) ->
  session_domain i = d /\
  (exists t', threads s !! t' = Some (Request.Bind (ref_name r) v, Phase.Finished (Ok (Answer.Ref r)))) /\
  forall t' name v', threads s !! t' = Some (Request.Bind name v', Phase.Finished (Ok (Answer.Ref r))) -> v' = v.
Proof.
  intros Hr Ht. pose proof (inv_steps _ _ inv_idle Hr) as Hi. pose proof (historical_steps _ _ historical_idle Hr) as Hh.
  destruct (inv_resolved _ Hi _ _ _ _ Ht) as [(H1 & H2 & H3 & H4) Hin]. split; [done|]. split.
  - apply Hh in Hin as (t' & name & Ht' & Hn). exists t'. destruct (ref_name r) as [n] eqn:En, name as [n']. simpl in Hn. subst n'.
    assert (new_ref i (mkSecretName n) (ref_generation r) = r) as Heq; [|by rewrite Heq in Ht'].
    destruct r. unfold new_ref. simpl in *. congruence.
  - intros t' name v' Ht'. destruct (bound_ref _ Hr _ _ _ _ Ht') as [g ->].
    eapply (inv_unique _ Hi); [|exact Hin]. apply Hh. by exists t', name.
Qed.

(** C23: when a session has been closed and the thread that closed it is done,
    its slots are empty and stay so, whatever requests were under way or come
    later, and no request but a further close succeeds any more. *)
Theorem closed_for_good s s' :
  reachable s -> flag s = true -> ~ closing s -> rtc step s s' ->
  table s' = [] /\
  forall t q a, threads s' !! t = Some (q, Phase.Finished (Ok a)) -> is_close q = true \/ threads s !! t = Some (q, Phase.Finished (Ok a)).
Proof.
  intros Hr Hf Hc Hs. pose proof (inv_steps _ _ inv_idle Hr) as Hi. clear Hr.
  induction Hs as [s|s1 s2 s3 Hs _ IH].
  - split; [|by right]. destruct (inv_closed _ Hi Hf) as [|[? _]]; done.
  - destruct (closed_step _ _ Hi Hf Hc Hs) as (Hf' & Hc' & Hok). destruct IH as [Ht Hok']; [done|done|by eapply inv_step|].
    split; [done|]. intros t q a Ha. destruct (Hok' _ _ _ Ha) as [|Ha']; [by left|by apply Hok].
Qed.
End session.

(** ** Concrete runs *)

(** The next step of a schedule, computed. *)
Inductive Move : Type := Spawn (q : Request) | Advance (t : nat).

Definition advance (i : SessionIdentity) (m : Move) (s : System) : option System :=
  match m with
  | Spawn q => Some (mkSystem (flag s) (table s) (holder s) (threads s ++ [(q, Phase.Start)]) (issued s))
  | Advance t =>
      match threads s !! t with
      | Some (Request.Close, Phase.Start) =>
          Some (if flag s then with_phase t Request.Close (Phase.Finished (Ok Answer.Done)) s
                else with_phase t Request.Close Phase.Waiting (mkSystem true (table s) (holder s) (threads s) (issued s)))
      | Some (q, Phase.Start) =>
          Some (with_phase t q (match before i q (flag s) with
                                | Ok _ => Phase.Waiting
                                | Err e => Phase.Finished (Err e)
                                | Panic => Phase.Finished Panic
                                | OutOfFuel => Phase.Finished OutOfFuel
                                end) s)
      | Some (q, Phase.Waiting) =>
          match holder s with None => Some (with_phase t q Phase.Holding (with_holder (Some t) s)) | Some _ => None end
      | Some (Request.Close, Phase.Holding) =>
          Some (with_phase t Request.Close (Phase.Finished (Ok Answer.Done)) (mkSystem (flag s) [] None (threads s) (issued s)))
      | Some (q, Phase.Holding) =>
          Some (if flag s then with_phase t q (Phase.Finished (Err SecretSessionErrorKind.Closed)) (with_holder None s)
                else with_phase t q Phase.Working s)
      | Some (q, Phase.Working) =>
          match locked i q (table s) with
          | Ok (a, table') => Some (with_phase t q (Phase.Finished (Ok a))
                                      (mkSystem (flag s) table' None (threads s) (record_issue q a (issued s))))
          | Err e => Some (with_phase t q (Phase.Finished (Err e)) (with_holder None s))
          | _ => None
          end
      | _ => None
      end
  end.

Lemma advance_step i m s s' : advance i m s = Some s' -> step i s s'.
Proof.
  destruct m as [q|t]; cbn [advance]; [intros [= <-]; constructor|].
  destruct (threads s !! t) as [[q p]|] eqn:Et; [|done].
  destruct p; [destruct (is_close q) eqn:Eq; [destruct q; try done|]| |destruct (is_close q) eqn:Eq; [destruct q; try done|]| |by destruct q].
  - intros [= <-]. by apply step_swap.
  - intros H. assert (Hc : step i s (with_phase t q (match before i q (flag s) with
      | Ok _ => Phase.Waiting | Err e => Phase.Finished (Err e) | Panic => Phase.Finished Panic
      | OutOfFuel => Phase.Finished OutOfFuel end) s)) by (by apply step_check). by destruct q; simplify_eq.
  - destruct (holder s) eqn:Eh; [by destruct q|]. intros H.
    assert (Hc : step i s (with_phase t q Phase.Holding (with_holder (Some t) s))) by (by apply step_lock). by destruct q; simplify_eq.
  - intros [= <-]. by apply step_clear.
  - intros H. assert (Hc := step_look i s t q Et Eq). by destruct q; simplify_eq.
  - destruct (locked i q (table s)) as [[a table']|e| |] eqn:El; intros H.
    + assert (Hc := step_work i s t q a table' Et El). by destruct q; simplify_eq.
    + assert (Hc := step_refuse i s t q e Et El). by destruct q; simplify_eq.
    + by destruct q.
    + by destruct q.
Qed.

Fixpoint schedule (i : SessionIdentity) (ms : list Move) (s : System) : option System :=
  match ms with
  | [] => Some s
  | m :: ms' => match advance i m s with Some s' => schedule i ms' s' | None => None end
  end.

Lemma schedule_steps i ms s s' : schedule i ms s = Some s' -> rtc (step i) s s'.
Proof.
  revert s. induction ms as [|m ms IH]; intros s H; cbn [schedule] in H; [by injection H as <-|].
  destruct (advance i m s) as [s1|] eqn:E; [|done]. eapply rtc_l; [by eapply advance_step|by apply IH].
Qed.

Definition sample_id : SessionIdentity := mkIdentity 7 (mkSessionId []) (mkDomain []).
Definition sample_name : SecretName := mkSecretName "api.key".
Definition sample_ref : SecretRef := new_ref sample_id sample_name 1.

(** One thread binds a value, another resolves the reference. *)
Definition resolved_run : list Move :=
  [Spawn (Request.Bind sample_name "value"); Advance 0; Advance 0; Advance 0; Advance 0;
   Spawn (Request.Resolve sample_ref (mkDomain [])); Advance 1; Advance 1; Advance 1; Advance 1].

Definition resolved_state : System :=
  mkSystem false [("api.key", mkSlot 1 "value")] None
    [(Request.Bind sample_name "value", Phase.Finished (Ok (Answer.Ref sample_ref)));
     (Request.Resolve sample_ref (mkDomain []), Phase.Finished (Ok (Answer.Text "value")))]
    [("api.key", 1%N, "value")].

Lemma resolved_as_bound_witness :
  schedule sample_id resolved_run idle = Some resolved_state /\
  session_domain sample_id = mkDomain [] /\
  (exists t', threads resolved_state !! t' = Some (Request.Bind (ref_name sample_ref) "value", Phase.Finished (Ok (Answer.Ref sample_ref)))) /\
  forall t' name v', threads resolved_state !! t' = Some (Request.Bind name v', Phase.Finished (Ok (Answer.Ref sample_ref))) -> v' = "value".
Proof.
  assert (H : schedule sample_id resolved_run idle = Some resolved_state) by (vm_compute; reflexivity).
  split; [exact H|]. apply (resolved_as_bound sample_id resolved_state 1); [exact (schedule_steps _ _ _ _ H)|reflexivity].
Defined.

(** A thread binds while another closes: it has looked at the flag when the
    closer sets it, and works under the lock before the closer gets it. *)
Definition closed_run : list Move :=
  [Spawn (Request.Bind sample_name "value"); Spawn Request.Close; Advance 0; Advance 0; Advance 0; Advance 1; Advance 0;
   Advance 1; Advance 1].

Definition closed_state : System :=
  mkSystem true [] None
    [(Request.Bind sample_name "value", Phase.Finished (Ok (Answer.Ref sample_ref)));
     (Request.Close, Phase.Finished (Ok Answer.Done))]
    [("api.key", 1%N, "value")].

(** A later resolution of the reference. *)
Definition late_run : list Move := [Spawn (Request.Resolve sample_ref (mkDomain [])); Advance 2].

Definition late_state : System :=
  mkSystem true [] None
    (threads closed_state ++ [(Request.Resolve sample_ref (mkDomain []), Phase.Finished (Err SecretSessionErrorKind.Closed))])
    [("api.key", 1%N, "value")].

Lemma closed_for_good_witness :
  schedule sample_id closed_run idle = Some closed_state /\ schedule sample_id late_run closed_state = Some late_state /\
  table late_state = [] /\
  forall t q a, threads late_state !! t = Some (q, Phase.Finished (Ok a)) ->
    is_close q = true \/ threads closed_state !! t = Some (q, Phase.Finished (Ok a)).
Proof.
  assert (H : schedule sample_id closed_run idle = Some closed_state) by (vm_compute; reflexivity).
  assert (H' : schedule sample_id late_run closed_state = Some late_state) by (vm_compute; reflexivity).
  split; [exact H|]. split; [exact H'|].
  apply (closed_for_good sample_id closed_state late_state (schedule_steps _ _ _ _ H)); [reflexivity| |exact (schedule_steps _ _ _ _ H')].
  intros (t & p & Ht & Hp). destruct t as [|[|t]]; [discriminate Ht| |discriminate Ht]. injection Ht as <-. by destruct Hp.
Defined.
