(* ===== verification/WebRouter.v ===== *)
(** * Routes

    [crates/ricochet_web/src/router.rs], the route file, and the matching of a
    request against the routes of [crates/ricochet_web/src/server.rs]. *)

From stdpp Require Import base tactics list strings option numbers.
From Stdlib Require Import ZArith NArith Lia Ascii String.
From S2P Require Import Prelude RustStr RustText RustPath Syntax Lexer Diagnostic BTree Expander Imports ImportsProofs.

Open Scope string_scope.
Open Scope list_scope.
Open Scope nat_scope.

(** [anyhow::Error]: the outermost context first. *)
Definition web_error : Type := list msg.

Definition web_context {A : Type} (m : msg) (r : res web_error A) : res web_error A :=
  match r with Err e => Err (m :: e) | r => r end.

(** ** The route file *)

Record Route : Type := mkRoute { route_method : string; route_path : string; route_controller : string; route_action : string }.

(** The characters up to the first that is not in [p], and the rest. *)
Fixpoint span_while (p : char -> bool) (l : list char) : list char * list char :=
  match l with
  | c :: l' => if p c then let '(a, b) := span_while p l' in (c :: a, b) else ([], l)
  | [] => ([], [])
  end.

Definition quote_char : char := 34%N.

(** Each round of the loop takes a token; there are at most as many as
    characters. *)
Fixpoint tokenize_from (fuel : nat) (chars : list char) : res web_error (list string) :=
  match fuel with
  | O => OutOfFuel
  | S fuel' =>
      match drop_while is_whitespace chars with
      | [] => Ok []
      | c :: rest =>
          if (c =? quote_char)%N then
            let '(token, rest) := span_while (fun c => negb (c =? quote_char)%N) rest in
            match rest with
            | [] => Err [[Lit "unterminated quoted route token"]]
            | _ :: rest => let? tokens := tokenize_from fuel' rest in Ok (from_bytes (encode token) :: tokens)
            end
          else
            let '(token, rest) := span_while (fun c => negb (is_whitespace c)) (c :: rest) in
            let? tokens := tokenize_from fuel' rest in Ok (from_bytes (encode token) :: tokens)
      end
  end.

Definition tokenize_route_line (line : list char) : res web_error (list string) := tokenize_from (S (length line)) line.

Fixpoint routes_of_lines (line_number : nat) (lines : list (list byte)) : res web_error (list Route) :=
  match lines with
  | [] => Ok []
  | line :: lines' =>
      let? cs := chars (from_bytes line) in
      let line := trim_end_chars (trim_start_chars cs) in
      if match line with [] => true | c :: _ => (c =? 35)%N end then routes_of_lines (S line_number) lines'
      else
        let? tokens := web_context [Lit "invalid route on line "; DispN (N.of_nat line_number)] (tokenize_route_line line) in
        match tokens with
        | [m; p; c; a; last] =>
            if String.eqb last "route" then
              let? routes := routes_of_lines (S line_number) lines' in Ok (mkRoute m p c a :: routes)
            else Err [[Lit "unsupported route expression on line "; DispN (N.of_nat line_number); Lit ": "; Disp (from_bytes (encode line))]]
        | _ => Err [[Lit "unsupported route expression on line "; DispN (N.of_nat line_number); Lit ": "; Disp (from_bytes (encode line))]]
        end
  end.

Definition parse_routes (source : string) : res web_error (list Route) := routes_of_lines 1 (lines source).

(** ** Matching *)

(** [path.trim_matches('/')] *)
Fixpoint trim_slashes_start (l : list byte) : list byte :=
  match l with
  | b :: l' => if Ascii.eqb b slash then trim_slashes_start l' else l
  | [] => []
  end.
Definition trim_slashes (l : list byte) : list byte := reverse (trim_slashes_start (reverse (trim_slashes_start l))).

Definition path_segments (path : string) : list string :=
  match trim_slashes (as_bytes path) with
  | [] => []
  | l => segments (from_bytes l)
  end.

(** The loop over the segments of the route and of the request, of one length. *)
Fixpoint match_segments (route_segments request_segments : list string) (params : btree string) : option (btree string) :=
  match route_segments, request_segments with
  | route_segment :: route_segments', request_segment :: request_segments' =>
      match strip_prefix ":" route_segment with
      | Some name => match_segments route_segments' request_segments' (bt_insert name request_segment params)
      | None => if String.eqb route_segment request_segment then match_segments route_segments' request_segments' params else None
      end
  | _, _ => Some params
  end.

Definition route_path_params (route_path request_path : string) : option (btree string) :=
  let route_segments := path_segments route_path in
  let request_segments := path_segments request_path in
  if negb (length route_segments =? length request_segments) then None
  else match_segments route_segments request_segments [].

Definition eq_ignore_ascii_case (a b : string) : bool := String.eqb (to_ascii_lowercase a) (to_ascii_lowercase b).

Fixpoint matching_route (routes : list Route) (method path : string) : option (Route * btree string) :=
  match routes with
  | [] => None
  | route :: routes' =>
      match (if negb (eq_ignore_ascii_case (route_method route) method) then None else route_path_params (route_path route) path) with
      | Some params => Some (route, params)
      | None => matching_route routes' method path
      end
  end.

Definition sample_routes : string :=
  (quoted "# pages" ++ from_bytes [newline] ++ quoted "  ~GET~ ~/posts/:id~ ~PostsController~ ~show~ route" ++ from_bytes [newline; newline]
   ++ quoted "POST ~/posts~ PostsController create route")%string.

Example parses_routes : parse_routes sample_routes =
  Ok [mkRoute "GET" "/posts/:id" "PostsController" "show"; mkRoute "POST" "/posts" "PostsController" "create"].
Proof. vm_compute. reflexivity. Qed.

Example matches_route : matching_route [mkRoute "GET" "/posts/:id/:id" "P" "show"] "get" "/posts/7/8/" =
  Some (mkRoute "GET" "/posts/:id/:id" "P" "show", [("id", "8")]).
Proof. vm_compute. reflexivity. Qed.

(** * Routes, proved

    Reading a route file always ends, and gives back the routes that a file was
    written from; a request is given to the first route that matches it. *)

(** ** Reading ends *)

Lemma span_while_app p l : (span_while p l).1 ++ (span_while p l).2 = l.
Proof. induction l as [|c l IH]; simpl; [done|]. destruct (p c); [|done]. destruct (span_while p l). simpl in *. by rewrite IH. Qed.

Lemma span_while_length p l : length (span_while p l).2 <= length l.
Proof. rewrite <- (span_while_app p l) at 2. rewrite length_app. lia. Qed.

Lemma drop_while_length p l : length (drop_while p l) <= length l.
Proof. induction l as [|c l IH]; simpl; [done|]. destruct (p c); simpl; lia. Qed.

Lemma tokenize_settles fuel l : length l < fuel -> settles (tokenize_from fuel l) (fun _ => True).
Proof.
  revert l. induction fuel as [|fuel IH]; intros l Hf; [lia|]. cbn [tokenize_from]. pose proof (drop_while_length is_whitespace l) as Hd.
  destruct (drop_while is_whitespace l) as [|c rest] eqn:Hl; [done|]. simpl in Hd. destruct (c =? quote_char)%N.
  - set (p := fun c : char => negb (c =? quote_char)%N). pose proof (span_while_length p rest) as Hs. destruct (span_while p rest) as [token rest']. simpl in Hs.
    destruct rest' as [|d rest']; [done|]. simpl in Hs. apply settles_bind. eapply settles_mono; [|apply IH; lia]. done.
  - set (p := fun c => negb (is_whitespace c)). cbn [span_while]. assert (p c = true) as -> by (unfold p; by rewrite (drop_while_head _ _ _ _ Hl)).
    pose proof (span_while_length p rest) as Hs. destruct (span_while p rest) as [token rest']. simpl in Hs.
    apply settles_bind. eapply settles_mono; [|apply IH; lia]. done.
Qed.

Lemma routes_settle ls : Forall utf8 ls -> forall n, settles (routes_of_lines n ls) (fun _ => True).
Proof.
  induction 1 as [|l ls [cs Hcs] _ IH]; intros n; [done|]. cbn [routes_of_lines]. rewrite (chars_of _ cs Hcs). cbn [rbind].
  set (line := trim_end_chars _). destruct (match line with [] => true | c :: _ => (c =? 35)%N end); [apply IH|].
  apply settles_bind. pose proof (tokenize_settles (S (length line)) line ltac:(lia)) as Ht. unfold tokenize_route_line.
  destruct (tokenize_from (S (length line)) line) as [tokens| | |]; try done. cbn [web_context settles].
  destruct tokens as [|m [|p [|c [|a [|last [|]]]]]]; try done. destruct (String.eqb last "route"); [|done].
  apply settles_bind. eapply settles_mono; [|apply IH]. done.
Qed.

(** ** Writing routes *)

Definition quote_token (t : string) : string := (String (ascii_of_N 34) t ++ String (ascii_of_N 34) "")%string.

Definition print_line (r : Route) : string :=
  (quote_token (route_method r) ++ " " ++ quote_token (route_path r) ++ " " ++ quote_token (route_controller r) ++ " "
   ++ quote_token (route_action r) ++ " route")%string.

Definition print_route (r : Route) : string := (print_line r ++ from_bytes [newline])%string.

Definition print_routes (routes : list Route) : string := foldr (fun r s => (print_route r ++ s)%string) "" routes.

(** A text that fits between quotation marks on one line. *)
Definition plain_token (t : string) : Prop := utf8 (as_bytes t) /\ Forall (fun b => b <> ascii_of_N 34 /\ b <> newline) (as_bytes t).

Definition plain_route (r : Route) : Prop :=
  plain_token (route_method r) /\ plain_token (route_path r) /\ plain_token (route_controller r) /\ plain_token (route_action r).

(** The same, as a check. *)
Definition plain_token_check (t : string) : bool :=
  match utf8_chars (as_bytes t) with Some _ => true | None => false end
  && forallb (fun b => negb (Ascii.eqb b (ascii_of_N 34)) && negb (Ascii.eqb b newline)) (as_bytes t).

Lemma plain_token_checked t : plain_token_check t = true -> plain_token t.
Proof.
  unfold plain_token_check. intros [Hu Hb]%andb_true_iff. split; [destruct (utf8_chars (as_bytes t)) eqn:E; [by eexists|done]|].
  rewrite forallb_forall in Hb. rewrite list.Forall_forall. intros b [H1 H2]%list_elem_of_In%Hb%andb_true_iff.
  apply negb_true_iff in H1, H2. split; intros ->; by rewrite Ascii.eqb_refl in *.
Qed.

Lemma plain_route_checked r :
  forallb plain_token_check [route_method r; route_path r; route_controller r; route_action r] = true -> plain_route r.
Proof. simpl. rewrite !andb_true_iff. intros (H1 & H2 & H3 & H4 & _). repeat split; by apply plain_token_checked. Qed.

Lemma span_until_quote l rest : Forall (fun c => c <> quote_char) l ->
  span_while (fun c => negb (c =? quote_char)%N) (l ++ quote_char :: rest) = (l, quote_char :: rest).
Proof.
  induction 1 as [|c l Hc _ IH]; [done|]. simpl. rewrite (proj2 (N.eqb_neq _ _) Hc). simpl. by rewrite IH.
Qed.

(** A quoted token is read in one round. *)
Lemma tokenize_quoted fuel t rest cs : utf8_chars (as_bytes t) = Some cs -> Forall (fun c => c <> quote_char) cs ->
  tokenize_from (S fuel) (32%N :: quote_char :: cs ++ quote_char :: rest) = (let? tokens := tokenize_from fuel rest in Ok (t :: tokens)) /\
  tokenize_from (S fuel) (quote_char :: cs ++ quote_char :: rest) = (let? tokens := tokenize_from fuel rest in Ok (t :: tokens)).
Proof.
  intros Hcs Hq. assert (from_bytes (encode cs) = t) as Ht.
  { rewrite (utf8_chars_encode _ _ Hcs). apply string_of_list_ascii_of_string. }
  split; cbn [tokenize_from drop_while]; change (is_whitespace 32) with true; change (is_whitespace quote_char) with false; cbn iota;
    rewrite N.eqb_refl, span_until_quote by done; by rewrite Ht.
Qed.

Lemma tokenize_last fuel : tokenize_from (S (S fuel)) (32 :: 114 :: 111 :: 117 :: 116 :: 101 :: [])%N = Ok ["route"].
Proof. reflexivity. Qed.

Definition quoted_chars (cs : list char) : list char := quote_char :: cs ++ [quote_char].

Definition route_line (c1 c2 c3 c4 : list char) : list char :=
  quote_char :: c1 ++ quote_char :: 32%N :: quote_char :: c2 ++ quote_char :: 32%N :: quote_char :: c3 ++ quote_char :: 32%N :: quote_char :: c4
  ++ quote_char :: [32; 114; 111; 117; 116; 101]%N.

Lemma tokenize_route r c1 c2 c3 c4 :
  utf8_chars (as_bytes (route_method r)) = Some c1 -> utf8_chars (as_bytes (route_path r)) = Some c2 ->
  utf8_chars (as_bytes (route_controller r)) = Some c3 -> utf8_chars (as_bytes (route_action r)) = Some c4 ->
  Forall (fun c => c <> quote_char) c1 -> Forall (fun c => c <> quote_char) c2 ->
  Forall (fun c => c <> quote_char) c3 -> Forall (fun c => c <> quote_char) c4 ->
  tokenize_route_line (route_line c1 c2 c3 c4) = Ok [route_method r; route_path r; route_controller r; route_action r; "route"].
Proof.
  intros H1 H2 H3 H4 Q1 Q2 Q3 Q4. unfold tokenize_route_line. set (line := route_line c1 c2 c3 c4).
  assert (exists k, S (length line) = S (S (S (S (S (S k)))))) as [k ->].
  { exists (length line - 5). assert (6 <= length line) by (unfold line, route_line; simpl; rewrite !length_app; simpl; rewrite !length_app; simpl; lia). lia. }
  unfold line, route_line. rewrite (proj2 (tokenize_quoted _ _ _ _ H1 Q1)), (proj1 (tokenize_quoted _ _ _ _ H2 Q2)), (proj1 (tokenize_quoted _ _ _ _ H3 Q3)),
    (proj1 (tokenize_quoted _ _ _ _ H4 Q4)), tokenize_last. reflexivity.
Qed.

Lemma plain_chars t : plain_token t -> exists cs, utf8_chars (as_bytes t) = Some cs /\ Forall (fun c => c <> quote_char) cs.
Proof.
  intros [[cs Hcs] Hb]. exists cs. split; [done|]. rewrite list.Forall_forall. intros c Hc ->. pose proof (utf8_chars_encode _ _ Hcs) as He.
  assert (ascii_of_N 34 ∈ encode cs) as Hin.
  { unfold encode. apply list_elem_of_In, in_concat. exists (encode_char quote_char). split; [|by left].
    apply list_elem_of_In, (list_elem_of_fmap_2 encode_char). done. }
  rewrite He in Hin. rewrite list.Forall_forall in Hb. by apply Hb in Hin as [? _].
Qed.

(** The text of a route, as characters. *)
Lemma print_line_chars r c1 c2 c3 c4 :
  utf8_chars (as_bytes (route_method r)) = Some c1 -> utf8_chars (as_bytes (route_path r)) = Some c2 ->
  utf8_chars (as_bytes (route_controller r)) = Some c3 -> utf8_chars (as_bytes (route_action r)) = Some c4 ->
  as_bytes (print_line r) = encode (route_line c1 c2 c3 c4).
Proof.
  assert (forall t, as_bytes (quote_token t) = ascii_of_N 34 :: as_bytes t ++ [ascii_of_N 34]) as Hq.
  { intros t. unfold quote_token. by rewrite as_bytes_app. }
  intros H1 H2 H3 H4. unfold print_line. rewrite !as_bytes_app, !Hq.
  rewrite <- (utf8_chars_encode _ _ H1), <- (utf8_chars_encode _ _ H2), <- (utf8_chars_encode _ _ H3), <- (utf8_chars_encode _ _ H4).
  unfold route_line. assert (forall c l, encode (c :: l) = encode_char c ++ encode l) as Hcons by done.
  assert (forall l l', encode (l ++ l') = encode l ++ encode l') as Happ by (intros; unfold encode; by rewrite fmap_app, concat_app).
  repeat (rewrite Hcons || rewrite Happ). change (as_bytes " ") with (encode_char 32). change (as_bytes " route") with (encode [32; 114; 111; 117; 116; 101]%N).
  change (ascii_of_N 34 :: ?l) with (encode_char quote_char ++ l). simpl. repeat (rewrite <- app_assoc; simpl). reflexivity.
Qed.

Lemma route_line_trimmed c1 c2 c3 c4 : trim_end_chars (trim_start_chars (route_line c1 c2 c3 c4)) = route_line c1 c2 c3 c4.
Proof.
  unfold trim_start_chars, route_line. cbn [drop_while]. change (is_whitespace quote_char) with false. cbn iota. unfold trim_end_chars.
  set (l := quote_char :: c1 ++ quote_char :: 32%N :: quote_char :: c2 ++ quote_char :: 32%N :: quote_char :: c3 ++ quote_char :: 32%N :: quote_char :: c4
    ++ quote_char :: [32; 114; 111; 117; 116; 101]%N).
  assert (exists l', l = l' ++ [101%N]) as (l' & ->).
  { exists (quote_char :: c1 ++ quote_char :: 32%N :: quote_char :: c2 ++ quote_char :: 32%N :: quote_char :: c3 ++ quote_char :: 32%N :: quote_char :: c4
      ++ quote_char :: [32; 114; 111; 117; 116]%N). unfold l. simpl. repeat (rewrite <- app_assoc; simpl). reflexivity. }
  rewrite reverse_app. simpl. rewrite <- (reverse_involutive l') at 2. by rewrite reverse_cons.
Qed.

Lemma lines_cons l m : Forall (fun b => b <> newline) l -> list.last l <> Some carriage_return ->
  split_lines [] (l ++ newline :: m) = l :: split_lines [] m.
Proof.
  intros Hl Hr. assert (forall cur, split_lines cur (l ++ newline :: m) = split_lines (reverse l ++ cur) (newline :: m)) as ->.
  { induction Hl as [|b l Hb Hl IH]; intros cur; [done|]. simpl. destruct (byte_eqb b newline) eqn:E; [by apply Ascii.eqb_eq in E|].
    rewrite IH, reverse_cons, <- app_assoc; [done|]. intros Hlast. apply Hr. destruct l; [done|]. by rewrite last_cons_cons. }
  rewrite app_nil_r. cbn [split_lines]. change (byte_eqb newline newline) with true. cbn iota. f_equal.
  destruct (decide (l = [])) as [->|Hne]; [done|]. destruct (exists_last Hne) as (l' & c & ->). rewrite reverse_app. simpl.
  rewrite last_snoc in Hr. destruct (byte_eqb c carriage_return) eqn:E; [apply Ascii.eqb_eq in E; congruence|]. by rewrite reverse_cons, reverse_involutive.
Qed.

Lemma print_line_bytes r : plain_route r ->
  Forall (fun b => b <> newline) (as_bytes (print_line r)) /\ list.last (as_bytes (print_line r)) <> Some carriage_return.
Proof.
  assert (forall t, plain_token t -> Forall (fun b => b <> newline) (as_bytes (quote_token t))) as Hq.
  { intros t [_ Ht]. unfold quote_token. rewrite as_bytes_app. apply Forall_app. split; [|by repeat constructor].
    constructor; [done|]. eapply list.Forall_impl; [exact Ht|]. by intros b [_ ?]. }
  intros (P1 & P2 & P3 & P4). unfold print_line. rewrite !as_bytes_app. split.
  - rewrite !Forall_app. split_and!; try by apply Hq. all: by repeat constructor.
  - rewrite !app_assoc, list.last_app. done.
Qed.

Lemma routes_of_print routes : Forall plain_route routes -> forall n, routes_of_lines n (lines (print_routes routes)) = Ok routes.
Proof.
  unfold lines. induction 1 as [|r routes Hr _ IH]; intros n; [done|]. cbn [print_routes foldr]. fold (print_routes routes).
  unfold print_route. rewrite !as_bytes_app, <- app_assoc. change (as_bytes (from_bytes [newline]) ++ ?l) with (newline :: l).
  destruct (print_line_bytes r Hr) as [Hn Hl]. rewrite lines_cons by done. destruct Hr as (P1 & P2 & P3 & P4).
  destruct (plain_chars _ P1) as (c1 & H1 & Q1), (plain_chars _ P2) as (c2 & H2 & Q2), (plain_chars _ P3) as (c3 & H3 & Q3), (plain_chars _ P4) as (c4 & H4 & Q4).
  rewrite (print_line_chars r _ _ _ _ H1 H2 H3 H4). cbn [routes_of_lines].
  assert (utf8_chars (encode (route_line c1 c2 c3 c4)) = Some (route_line c1 c2 c3 c4)) as Hu.
  { apply utf8_encode. unfold route_line. repeat first [apply Forall_app; split | apply list.Forall_cons; split | apply list.Forall_nil];
      try (eapply utf8_chars_scalar; eassumption); unfold scalar, quote_char; lia. }
  unfold chars, as_bytes, from_bytes. rewrite list_ascii_of_string_of_list_ascii, Hu. cbn [rbind]. rewrite route_line_trimmed.
  change (match route_line c1 c2 c3 c4 with [] => true | c :: _ => (c =? 35)%N end) with false. cbn iota.
  rewrite (tokenize_route r _ _ _ _ H1 H2 H3 H4 Q1 Q2 Q3 Q4). cbn [web_context rbind].
  change (String.eqb "route" "route") with true. cbn iota. unfold as_bytes in IH. rewrite IH. by destruct r.
Qed.

(** ** Matching *)

(** A segment of a route stands for a segment of a request: a parameter stands
    for any. *)
Definition segment_matches (route_segment request_segment : string) : Prop :=
  strip_prefix ":" route_segment <> None \/ route_segment = request_segment.

(** What the parameters of the route stand for; the last of a name counts. *)
Fixpoint captures (route_segments request_segments : list string) (params : btree string) : btree string :=
  match route_segments, request_segments with
  | r :: route_segments', q :: request_segments' =>
      captures route_segments' request_segments' (match strip_prefix ":" r with Some name => bt_insert name q params | None => params end)
  | _, _ => params
  end.

Definition answers (r : Route) (method path : string) : Prop :=
  to_ascii_lowercase (route_method r) = to_ascii_lowercase method /\ Forall2 segment_matches (path_segments (route_path r)) (path_segments path).

Lemma match_segments_captures rs qs params : length rs = length qs ->
  (Forall2 segment_matches rs qs /\ match_segments rs qs params = Some (captures rs qs params)) \/
  (~ Forall2 segment_matches rs qs /\ match_segments rs qs params = None).
Proof.
  revert qs params. induction rs as [|r rs IH]; intros [|q qs] params Hl; simpl in *; try discriminate; [left; split; [constructor|done]|].
  injection Hl as Hl. destruct (strip_prefix ":" r) as [name|] eqn:Hr.
  - destruct (IH qs (bt_insert name q params) Hl) as [[H ->]|[H ->]]; [left|right]; (split; [|done]).
    + constructor; [left; by rewrite Hr|done].
    + intros Hf. apply H. by inversion Hf.
  - destruct (String.eqb_spec r q) as [->|Hne].
    + destruct (IH qs params Hl) as [[H ->]|[H ->]]; [left|right]; (split; [|done]).
      * constructor; [by right|done].
      * intros Hf. apply H. by inversion Hf.
    + right. split; [|done]. intros Hf. inversion Hf as [|? ? ? ? [Hs|Hs] _]; subst; [by rewrite Hr in Hs|done].
Qed.

Lemma route_answers r method path :
  let found := if negb (eq_ignore_ascii_case (route_method r) method) then None else route_path_params (route_path r) path in
  (answers r method path /\ found = Some (captures (path_segments (route_path r)) (path_segments path) [])) \/ (~ answers r method path /\ found = None).
Proof.
  cbn zeta. unfold eq_ignore_ascii_case, route_path_params, answers.
  destruct (String.eqb_spec (to_ascii_lowercase (route_method r)) (to_ascii_lowercase method)) as [Hm|Hm]; simpl; [|right; by split; [intros [? _]|]].
  destruct (Nat.eqb_spec (length (path_segments (route_path r))) (length (path_segments path))) as [Hl|Hl]; simpl.
  - destruct (match_segments_captures _ _ [] Hl) as [[H E]|[H E]]; [left|right]; (split; [|done]); [done|by intros [_ ?]].
  - right. split; [|done]. intros [_ H]. by apply Forall2_length in H.
Qed.

(** ** Properties *)

(** Reading a route file ends, with the routes or with an error that names
    the line, whatever the text is. *)
Theorem parse_routes_ends (source : string) : utf8 (as_bytes source) ->
  (exists routes, parse_routes source = Ok routes) \/ (exists e, parse_routes source = Err e).
Proof.
  intros Hs. assert (Forall utf8 (lines source)) as Hl.
  { rewrite lines_of, Forall_fmap. eapply list.Forall_impl; [apply rows_utf8; [by apply split_inclusive_rows|by rewrite concat_split_inclusive]|].
    intros l. apply line_of_utf8. }
  pose proof (routes_settle (lines source) Hl 1) as H. unfold parse_routes. destruct (routes_of_lines 1 (lines source)); try done; eauto.
Qed.

Lemma parse_routes_ends_witness : exists e, parse_routes (quoted "get ~/") = Err e.
Proof.
  destruct (parse_routes_ends (quoted "get ~/") ltac:(by eexists; vm_compute)) as [[routes H]|H]; [|exact H]. vm_compute in H. discriminate H.
Defined.

(** The routes that are written out as lines of quoted tokens, each closed
    by the word [route], are read back as they were, in their order. *)
Theorem parse_routes_roundtrip (routes : list Route) : Forall plain_route routes -> parse_routes (print_routes routes) = Ok routes.
Proof. intros H. by apply routes_of_print. Qed.

Lemma parse_routes_roundtrip_witness :
  parse_routes (print_routes [mkRoute "GET" "/posts/:id" "PostsController" "show page"; mkRoute "post" "" "C" "c#"]) =
  Ok [mkRoute "GET" "/posts/:id" "PostsController" "show page"; mkRoute "post" "" "C" "c#"].
Proof.
  apply parse_routes_roundtrip. constructor; [|constructor; [|by constructor]]; apply plain_route_checked; vm_compute; reflexivity.
Defined.

(** A request is given to the first route of the file whose method is the
    request's, whatever its case, and whose path matches, segment by segment,
    with the parameters the path binds; and to none only when no route
    answers. *)
Theorem matching_route_correct (routes : list Route) (method path : string) :
  match matching_route routes method path with
  | Some (r, params) => exists before after, routes = before ++ r :: after /\ answers r method path /\
      Forall (fun r' => ~ answers r' method path) before /\ params = captures (path_segments (route_path r)) (path_segments path) []
  | None => Forall (fun r' => ~ answers r' method path) routes
  end.
Proof.
  induction routes as [|r routes IH]; [constructor|]. cbn [matching_route]. destruct (route_answers r method path) as [[Ha Hf]|[Ha Hf]]; rewrite Hf.
  - exists [], routes. split_and!; [done|done|constructor|done].
  - destruct (matching_route routes method path) as [[r' params]|]; [|by constructor].
    destruct IH as (before & after & -> & H1 & H2 & H3). exists (r :: before), after. split_and!; [done|done|by constructor|done].
Qed.
