(* ===== verification/WebCoding.v ===== *)
(** * Texts of requests

    The codings of [crates/ricochet_web/src/server.rs]: form components,
    percent-encoded path segments, hexadecimal bytes and the [Cookie] header,
    over [String::from_utf8_lossy]. *)

From stdpp Require Import base tactics list strings option numbers.
From Stdlib Require Import ZArith NArith Lia Ascii String.
From S2P Require Import Prelude RustStr RustText RustPath BTree Imports ImportsProofs.

Open Scope string_scope.
Open Scope list_scope.
Open Scope nat_scope.

(** ** UTF-8, with replacement *)

(** U+FFFD *)
Definition replacement : list byte := encode_char 65533.

(** Two bytes that begin a character of three or four bytes. *)
Definition leads (b0 b1 : byte) : bool :=
  let v := byte_val b0 in
  if (v =? 224)%N then byte_between 160 191 b1
  else if (v =? 237)%N then byte_between 128 159 b1
  else if byte_between 225 239 b0 then is_cont b1
  else if (v =? 240)%N then byte_between 144 191 b1
  else if (v =? 244)%N then byte_between 128 143 b1
  else byte_between 241 243 b0 && is_cont b1.

(** Each longest part that begins a character and does not end it is replaced. *)
Fixpoint lossy (l : list byte) : list byte :=
  match l with
  | [] => []
  | b0 :: l1 =>
      if (byte_val b0 <? 128)%N then b0 :: lossy l1
      else match l1 with
      | [] => replacement
      | b1 :: l2 =>
          if ok2 b0 b1 then b0 :: b1 :: lossy l2
          else if negb (leads b0 b1) then replacement ++ lossy l1
          else match l2 with
          | [] => replacement
          | b2 :: l3 =>
              if ok3 b0 b1 b2 then b0 :: b1 :: b2 :: lossy l3
              else if negb (byte_between 240 244 b0 && is_cont b2) then replacement ++ lossy l2
              else match l3 with
              | [] => replacement
              | b3 :: l4 =>
                  if ok4 b0 b1 b2 b3 then b0 :: b1 :: b2 :: b3 :: lossy l4
                  else replacement ++ lossy l3
              end
          end
      end
  end.

Definition from_utf8_lossy (l : list byte) : string := from_bytes (lossy l).

(** [String::from_utf8] *)
Definition from_utf8 (l : list byte) : option string := match utf8_chars l with Some _ => Some (from_bytes l) | None => None end.

(** ** Splitting *)

(** ** Hexadecimal *)

Definition hex_value (byte : byte) : option N :=
  if byte_between 48 57 byte then Some (byte_val byte - 48)%N
  else if byte_between 97 102 byte then Some (byte_val byte - 97 + 10)%N
  else if byte_between 65 70 byte then Some (byte_val byte - 65 + 10)%N
  else None.

Definition hex_join (high low : N) : byte := ascii_of_N (N.lor (N.shiftl high 4) low).

(** [{:02x}] and [{:02X}] *)
Definition hex_digit (digits : string) (n : N) : byte := nth (N.to_nat n) (as_bytes digits) "0"%char.
Definition hex_byte (digits : string) (b : byte) : list byte :=
  [hex_digit digits (N.shiftr (byte_val b) 4); hex_digit digits (N.land (byte_val b) 15)].
Definition lower_digits : string := "0123456789abcdef".
Definition upper_digits : string := "0123456789ABCDEF".

Definition hex_encode (bytes : list byte) : string := from_bytes (flat_map (hex_byte lower_digits) bytes).

Fixpoint hex_decode_bytes (l : list byte) : option (list byte) :=
  match l with
  | [] => Some []
  | h :: l :: rest =>
      high ← hex_value h; low ← hex_value l;
      decoded ← hex_decode_bytes rest;
      Some (hex_join high low :: decoded)
  | [_] => None
  end.

Definition hex_decode (source : string) : option (list byte) :=
  if negb (Nat.even (String.length source)) then None else hex_decode_bytes (as_bytes source).

(** ** Form components *)

Definition percent : byte := "%"%char.

Fixpoint decode_component (l : list byte) : list byte :=
  match l with
  | [] => []
  | b :: l' =>
      if Ascii.eqb b "+"%char then " "%char :: decode_component l'
      else if Ascii.eqb b percent then
        match l' with
        | h :: lo :: l'' =>
            match hex_value h, hex_value lo with
            | Some high, Some low => hex_join high low :: decode_component l''
            | _, _ => b :: decode_component l'
            end
        | _ => b :: decode_component l'
        end
      else b :: decode_component l'
  end.

Definition decode_urlencoded_component (source : string) : string := from_utf8_lossy (decode_component (as_bytes source)).

Definition unreserved (b : byte) : bool :=
  is_ascii_alphanumeric b || Ascii.eqb b "-"%char || Ascii.eqb b "_"%char || Ascii.eqb b "."%char || Ascii.eqb b "~"%char.

Definition encode_component_byte (b : byte) : list byte := if unreserved b then [b] else percent :: hex_byte upper_digits b.

Definition encode_urlencoded_component (source : string) : string := from_bytes (flat_map encode_component_byte (as_bytes source)).

(** Of pairs with one key the last counts. *)
Definition collect_pairs (pairs : list (string * string)) : btree string := foldl (fun m kv => bt_insert kv.1 kv.2 m) [] pairs.

Definition parse_urlencoded_pair (pair : string) : string * string :=
  let '(key, value) := default (pair, "") (split_once "="%char pair) in
  (decode_urlencoded_component key, decode_urlencoded_component value).

Definition parse_urlencoded_params (source : string) : btree string :=
  collect_pairs (parse_urlencoded_pair <$> filter (fun pair => pair <> "") (split_char "&"%char source)).

(** ** Path segments *)

Definition invalid_encoding : msg := [Lit "invalid percent-encoded path"].

Fixpoint percent_decode (l : list byte) : list byte + msg :=
  match l with
  | [] => inl []
  | b :: l' =>
      if Ascii.eqb b percent then
        match l' with
        | h :: lo :: l'' =>
            match hex_value h, hex_value lo with
            | Some high, Some low =>
                match percent_decode l'' with inl output => inl (hex_join high low :: output) | inr e => inr e end
            | _, _ => inr invalid_encoding
            end
        | _ => inr [Lit "invalid percent-encoded path segment"]
        end
      else match percent_decode l' with inl output => inl (b :: output) | inr e => inr e end
  end.

Definition percent_decode_path_segment (segment : string) : string + msg :=
  match percent_decode (as_bytes segment) with
  | inr e => inr e
  | inl output => match from_utf8 output with Some s => inl s | None => inr [Lit "static asset path is not UTF-8"] end
  end.

(** ** Cookies *)

Definition parse_cookie {E : Type} (cookie : string) : res E (option (string * string)) :=
  let? cookie := trim cookie in
  if String.eqb cookie "" then Ok None
  else match split_once "="%char cookie with
       | None => Ok None
       | Some (name, value) =>
           let? name := trim name in
           let? value := trim value in
           Ok (Some (name, decode_urlencoded_component value))
       end.

Fixpoint parse_cookies {E : Type} (cookies : list string) : res E (list (string * string)) :=
  match cookies with
  | [] => Ok []
  | cookie :: cookies' =>
      let? found := parse_cookie cookie in
      let? pairs := parse_cookies cookies' in
      Ok (match found with Some found => found :: pairs | None => pairs end)
  end.

Definition parse_cookie_header {E : Type} (header : string) : res E (btree string) :=
  let? pairs := parse_cookies (split_char ";"%char header) in Ok (collect_pairs pairs).

Definition cookies_from_headers {E : Type} (headers : btree string) : res E (btree string) :=
  match bt_get "cookie" headers with Some cookie => parse_cookie_header cookie | None => Ok [] end.

Example replaces : lossy (ascii_of_N <$> [97; 240; 159; 146; 98; 237; 160; 128; 255; 226; 130]%N)
  = (ascii_of_N 97 :: replacement ++ ascii_of_N 98 :: replacement ++ replacement ++ replacement ++ replacement ++ replacement).
Proof. vm_compute. reflexivity. Qed.

(** * Texts of requests, proved

    What is encoded is decoded: form components, hexadecimal bytes and the
    cookies of a header; the text of a request is always UTF-8. *)

(** ** UTF-8, with replacement *)

Lemma leads_ok3 b0 b1 b2 : ok3 b0 b1 b2 = true -> leads b0 b1 = true.
Proof.
  unfold ok3, leads, cp3, is_cont, cont_val. rewrite !andb_true_iff, !byte_between_spec, negb_true_iff, andb_false_iff, !N.leb_le, !N.leb_gt.
  intros [[[H0 H1] H2] [H3 H4]]. unfold cont_val in *. repeat case_match; rewrite ?N.eqb_eq, ?N.eqb_neq, ?byte_between_spec in *; try lia.
  rewrite byte_between_false in *. rewrite andb_true_iff, !byte_between_spec. lia.
Qed.

Lemma leads_ok4 b0 b1 b2 b3 : ok4 b0 b1 b2 b3 = true -> leads b0 b1 = true /\ byte_between 240 244 b0 && is_cont b2 = true.
Proof.
  unfold ok4, leads, cp4, is_cont, cont_val. rewrite !andb_true_iff, !byte_between_spec, !N.leb_le.
  intros [[[[H0 H1] H2] H3] [H4 H5]]. unfold cont_val in *. split; [|lia].
  repeat case_match; rewrite ?N.eqb_eq, ?N.eqb_neq, ?byte_between_spec in *; try lia.
  rewrite byte_between_false in *. rewrite andb_true_iff, !byte_between_spec. lia.
Qed.

Lemma lossy_encode_char c l : scalar c -> lossy (encode_char c ++ l) = encode_char c ++ lossy l.
Proof.
  intros Hc. destruct (encode_char_cases c Hc) as [[H ->]|[(b0&b1&H&<-&->)|[(b0&b1&b2&H&<-&->)|(b0&b1&b2&b3&H&<-&->)]]]; cbn [app lossy].
  - rewrite byte_val_of by lia. by rewrite (proj2 (N.ltb_lt _ _)) by lia.
  - by rewrite (ok2_not_ascii _ _ H), H.
  - destruct (ok3_not_ok2 _ _ _ H) as [-> ->]. by rewrite (leads_ok3 _ _ _ H), H.
  - destruct (ok4_not_ok23 _ _ _ _ H) as (-> & -> & ->). destruct (leads_ok4 _ _ _ _ H) as [-> ->]. by rewrite H.
Qed.

(** Text is kept as it is. *)
Lemma lossy_utf8 l : utf8 l -> lossy l = l.
Proof.
  intros [cs Hcs]. pose proof (utf8_chars_scalar _ _ Hcs) as Hs. rewrite <- (utf8_chars_encode _ _ Hcs). clear Hcs.
  induction Hs as [|c cs Hc _ IH]; [done|]. change (encode (c :: cs)) with (encode_char c ++ encode cs). by rewrite lossy_encode_char, IH.
Qed.

Lemma replacement_utf8 : utf8 replacement.
Proof. by eexists. Qed.

(** One character of the bytes that hold it. *)
Lemma utf8_one l r : is_Some (utf8_chars l) -> utf8 r -> utf8 (l ++ r).
Proof. apply utf8_join. Qed.

(** Anything becomes text. *)
Lemma lossy_is_utf8 l : utf8 (lossy l).
Proof.
  remember (length l) as n eqn:Hn. assert (length l <= n) as Hl by lia. clear Hn. revert l Hl. induction n as [|n IH]; intros [|b0 l1] Hl; try (by eexists); simpl in Hl; [lia|].
  cbn [lossy]. destruct (byte_val b0 <? 128)%N eqn:H0.
  { apply (utf8_one [b0]); [|apply IH; lia]. simpl. rewrite H0. by eexists. }
  destruct l1 as [|b1 l2]; [apply replacement_utf8|]. simpl in Hl. destruct (ok2 b0 b1) eqn:H2.
  { apply (utf8_one [b0; b1]); [|apply IH; lia]. simpl. rewrite H0, H2. by eexists. }
  destruct (negb (leads b0 b1)); [apply utf8_one; [apply replacement_utf8|apply IH; simpl; lia]|].
  destruct l2 as [|b2 l3]; [apply replacement_utf8|]. simpl in Hl. destruct (ok3 b0 b1 b2) eqn:H3.
  { apply (utf8_one [b0; b1; b2]); [|apply IH; lia]. simpl. rewrite H0, H2, H3. by eexists. }
  destruct (negb (byte_between 240 244 b0 && is_cont b2)); [apply utf8_one; [apply replacement_utf8|apply IH; simpl; lia]|].
  destruct l3 as [|b3 l4]; [apply replacement_utf8|]. simpl in Hl. destruct (ok4 b0 b1 b2 b3) eqn:H4.
  { apply (utf8_one [b0; b1; b2; b3]); [|apply IH; lia]. simpl. rewrite H0, H2, H3, H4. by eexists. }
  apply utf8_one; [apply replacement_utf8|apply IH; simpl; lia].
Qed.

Lemma from_utf8_of s : utf8 (as_bytes s) -> from_utf8 (as_bytes s) = Some s.
Proof. intros [cs Hcs]. unfold from_utf8. by rewrite Hcs, from_as_bytes. Qed.

(** ** Hexadecimal *)

Lemma hex_value_digit b (digits := lower_digits) :
  hex_value (hex_digit digits (N.shiftr (byte_val b) 4)) = Some (N.shiftr (byte_val b) 4) /\
  hex_value (hex_digit digits (N.land (byte_val b) 15)) = Some (N.land (byte_val b) 15) /\
  hex_join (N.shiftr (byte_val b) 4) (N.land (byte_val b) 15) = b.
Proof. by destruct b as [[] [] [] [] [] [] [] []]. Qed.

Lemma hex_decode_flat l : hex_decode_bytes (flat_map (hex_byte lower_digits) l) = Some l.
Proof.
  induction l as [|b l IH]; [done|]. cbn [flat_map hex_byte app hex_decode_bytes]. destruct (hex_value_digit b) as (-> & -> & Hb).
  cbn [mbind option_bind]. rewrite IH. cbn [mbind option_bind]. by rewrite Hb.
Qed.

Lemma hex_decode_encode l : hex_decode (hex_encode l) = Some l.
Proof.
  unfold hex_decode, hex_encode. rewrite as_from_bytes, hex_decode_flat. destruct (Nat.even _) eqn:He; [done|]. exfalso.
  assert (String.length (from_bytes (flat_map (hex_byte lower_digits) l)) = 2 * length l) as Hl.
  { rewrite <- length_as_bytes, as_from_bytes. clear. induction l as [|b l IH]; [done|]. cbn [flat_map hex_byte app length]. rewrite IH. lia. }
  rewrite Hl, Nat.even_mul in He. done.
Qed.

(** ** Form components *)

Lemma decode_encode_byte b rest : decode_component (encode_component_byte b ++ rest) = b :: decode_component rest.
Proof. by destruct b as [[] [] [] [] [] [] [] []]. Qed.

Lemma decode_encode_component s : utf8 (as_bytes s) -> decode_urlencoded_component (encode_urlencoded_component s) = s.
Proof.
  intros Hs. unfold decode_urlencoded_component, encode_urlencoded_component, from_utf8_lossy. rewrite as_from_bytes.
  assert (decode_component (flat_map encode_component_byte (as_bytes s)) = as_bytes s) as ->.
  { clear. induction (as_bytes s) as [|b l IH]; [done|]. cbn [flat_map]. by rewrite decode_encode_byte, IH. }
  by rewrite lossy_utf8, from_as_bytes.
Qed.

(** What an encoded component is made of. *)
Definition component_byte (b : byte) : bool := unreserved b || Ascii.eqb b percent.

Lemma encoded_bytes s : Forall (fun b => component_byte b = true) (as_bytes (encode_urlencoded_component s)).
Proof.
  unfold encode_urlencoded_component. rewrite as_from_bytes. induction (as_bytes s) as [|b l IH]; [done|]. cbn [flat_map].
  apply Forall_app. split; [|done]. clear. destruct b as [[] [] [] [] [] [] [] []]; repeat constructor.
Qed.

(** ** Cookies *)

Lemma component_byte_ascii b : component_byte b = true -> (byte_val b < 128)%N /\ is_whitespace (byte_val b) = false /\
  b <> ";"%char /\ b <> "="%char.
Proof. by destruct b as [[] [] [] [] [] [] [] []]. Qed.

(** Bytes that are characters of their own and that trimming keeps. *)
Definition solid (b : byte) : Prop := (byte_val b < 128)%N /\ is_whitespace (byte_val b) = false.

Lemma component_solid l : Forall (fun b => component_byte b = true) l -> Forall solid l.
Proof. intros H. eapply list.Forall_impl; [exact H|]. intros b Hb. destruct (component_byte_ascii b Hb) as (? & ? & _). by split. Qed.

Lemma solid_chars l : Forall solid l -> utf8_chars l = Some (byte_val <$> l) /\ Forall (fun c => is_whitespace c = false) (byte_val <$> l).
Proof.
  induction 1 as [|b l [Ha Hs] _ [IH1 IH2]]; [by repeat constructor|]. split; [|by constructor].
  cbn [utf8_chars]. by rewrite (proj2 (N.ltb_lt _ _) Ha), IH1.
Qed.

Lemma drop_none (cs : list char) : Forall (fun c => is_whitespace c = false) cs -> drop_while is_whitespace cs = cs.
Proof. intros [|c l Hc _]; simpl; [done|by rewrite Hc]. Qed.

Lemma trim_solid {E : Type} (space : bool) s : Forall solid (as_bytes s) -> trim (E:=E) ((if space then " " else "") ++ s)%string = Ok s.
Proof.
  intros [Hu Hw]%solid_chars. unfold trim, chars.
  assert (utf8_chars (as_bytes ((if space then " " else "") ++ s)%string) = Some ((if space then [32%N] else []) ++ (byte_val <$> as_bytes s))) as ->.
  { rewrite as_bytes_app. destruct space; simpl; by rewrite Hu. }
  cbn [rbind]. assert (trim_start_chars ((if space then [32%N] else []) ++ (byte_val <$> as_bytes s)) = byte_val <$> as_bytes s) as ->.
  { unfold trim_start_chars. destruct space; cbn [app drop_while]; [change (is_whitespace 32) with true; cbn iota|]; by apply drop_none. }
  unfold trim_end_chars. rewrite drop_none by (by rewrite Forall_reverse). by rewrite reverse_involutive, (utf8_chars_encode _ _ Hu), from_as_bytes.
Qed.

Lemma split_once_component name value : Forall (fun b => component_byte b = true) (as_bytes name) ->
  split_once "="%char (name ++ String "="%char value)%string = Some (name, value).
Proof.
  intros H. unfold split_once. rewrite as_bytes_app. change (as_bytes (String "="%char value)) with ("="%char :: as_bytes value).
  assert (split_once_bytes "="%char (as_bytes name ++ "="%char :: as_bytes value) = Some (as_bytes name, as_bytes value)) as ->.
  { induction H as [|b l Hb _ IH]; [done|]. cbn [app split_once_bytes]. destruct (component_byte_ascii b Hb) as (_ & _ & _ & Hne).
    destruct (Ascii.eqb_spec b "="%char) as [->|_]; [done|]. by rewrite IH. }
  cbn [mbind option_bind]. by rewrite !from_as_bytes.
Qed.

Definition cookie_text (cookie : string * string) : string := (cookie.1 ++ String "="%char (encode_urlencoded_component cookie.2))%string.

(** A name that needs no quoting, and any text. *)
Definition plain_cookie (cookie : string * string) : Prop :=
  Forall (fun b => component_byte b = true) (as_bytes cookie.1) /\ utf8 (as_bytes cookie.2).

Lemma parse_cookie_of {E : Type} space cookie : plain_cookie cookie ->
  parse_cookie (E:=E) ((if space : bool then " " else "") ++ cookie_text cookie)%string = Ok (Some cookie).
Proof.
  destruct cookie as [name value]. intros [Hn Hv]. simpl in Hn, Hv. unfold parse_cookie, cookie_text. cbn [fst snd].
  set (text := (name ++ String "="%char (encode_urlencoded_component value))%string).
  rewrite trim_solid.
  2: { unfold text. rewrite as_bytes_app. apply Forall_app. split; [by apply component_solid|]. constructor; [done|].
    apply component_solid, encoded_bytes. }
  cbn [rbind]. assert (String.eqb text "" = false) as -> by (unfold text; by destruct name).
  unfold text. rewrite split_once_component by done. rewrite (trim_solid false name (component_solid _ Hn) : trim (E:=E) name = _). cbn [rbind].
  rewrite (trim_solid false _ (component_solid _ (encoded_bytes value)) : trim (E:=E) (encode_urlencoded_component value) = _). cbn [rbind].
  by rewrite decode_encode_component.
Qed.

(** The cookies as browsers join them. *)
Fixpoint cookie_header (cookies : list (string * string)) : string :=
  match cookies with
  | [] => ""
  | [cookie] => cookie_text cookie
  | cookie :: cookies' => (cookie_text cookie ++ "; " ++ cookie_header cookies')%string
  end.

Lemma cookie_text_bytes space cookie : plain_cookie cookie ->
  Forall (fun b => b <> ";"%char) (as_bytes ((if space : bool then " " else "") ++ cookie_text cookie)%string).
Proof.
  intros [Hn _]. assert (forall l, Forall (fun b => component_byte b = true) l -> Forall (fun b => b <> ";"%char) l) as Hc.
  { intros l H. eapply list.Forall_impl; [exact H|]. intros b Hb. by destruct (component_byte_ascii b Hb) as (_ & _ & ? & _). }
  unfold cookie_text. rewrite !as_bytes_app. repeat (apply Forall_app; split).
  - destruct space; repeat constructor; done.
  - by apply Hc.
  - constructor; [done|]. apply Hc, encoded_bytes.
Qed.

Lemma parse_cookies_of {E : Type} cookies : Forall plain_cookie cookies -> cookies <> [] -> forall space : bool,
  parse_cookies (E:=E) (from_bytes <$> split_byte ";"%char (as_bytes ((if space then " " else "") ++ cookie_header cookies)%string)) = Ok cookies.
Proof.
  induction 1 as [|cookie cookies Hc Hcs IH]; intros Hne space; [done|]. destruct cookies as [|cookie' cookies].
  - cbn [cookie_header]. rewrite split_byte_none by (by apply cookie_text_bytes). rewrite list_fmap_singleton, from_as_bytes. cbn [parse_cookies].
    by rewrite parse_cookie_of.
  - set (cookies' := cookie' :: cookies) in *. change (cookie_header (cookie :: cookies')) with (cookie_text cookie ++ "; " ++ cookie_header cookies')%string.
    rewrite <- append_assoc, as_bytes_app. change (as_bytes ("; " ++ cookie_header cookies')%string) with (";"%char :: as_bytes (" " ++ cookie_header cookies')%string).
    rewrite split_byte_app by (by apply cookie_text_bytes). rewrite fmap_cons, from_as_bytes. cbn [parse_cookies]. rewrite parse_cookie_of by done.
    cbn [rbind]. by rewrite (IH ltac:(done) true).
Qed.

Lemma parse_cookie_header_of {E : Type} cookies : Forall plain_cookie cookies -> cookies <> [] ->
  parse_cookie_header (E:=E) (cookie_header cookies) = Ok (collect_pairs cookies).
Proof.
  intros H Hne. unfold parse_cookie_header, split_char. by rewrite (parse_cookies_of cookies H Hne false : parse_cookies _ = _).
Qed.

(** The last of a name counts. *)
Lemma collect_pairs_last before cookie after : Forall (fun c => c.1 <> cookie.1) after ->
  bt_get cookie.1 (collect_pairs (before ++ cookie :: after)) = Some cookie.2.
Proof.
  intros H. unfold collect_pairs. rewrite foldl_app. simpl. generalize (foldl (fun m kv => bt_insert kv.1 kv.2 m) ([] : btree string) before). intros m.
  assert (bt_get cookie.1 (bt_insert cookie.1 cookie.2 m) = Some cookie.2) as Hm by (rewrite bt_get_insert; by rewrite String.eqb_refl).
  revert Hm. generalize (bt_insert cookie.1 cookie.2 m). clear m before. induction H as [|c after Hc _ IH]; intros m Hm; [done|]. simpl. apply IH.
  rewrite bt_get_insert. by destruct (String.eqb_spec cookie.1 c.1); [congruence|].
Qed.
