(* ===== verification/WebSession.v ===== *)
(** * Sessions

    The session cookie of [crates/ricochet_web/src/server.rs]: signing and
    encryption keys, the header that stores a session and the session that is
    read back from a request.  The primitives of the hmac, sha2 and
    chacha20poly1305 crates and the texts of serde_json are parameters. *)

From stdpp Require Import base tactics list strings option numbers.
From Stdlib Require Import ZArith NArith Lia Ascii String.
From S2P Require Import Prelude RustStr RustText RustPath RustFloat Bytecode BTree Imports ImportsProofs Value ValueEq Opaque Json WebRouter.
From S2P Require Import WebCoding.

Open Scope string_scope.
Open Scope list_scope.
Open Scope nat_scope.

(** ** Parameters *)

(** Keys and payloads are bytes; a tag is checked as a whole. *)
Class SessionCrypto : Type := {
  hmac_sha256 : list byte -> list byte -> list byte;
  sha256_digest : list byte -> list byte;
  chacha_encrypt : list byte -> list byte -> list byte -> option (list byte);
  chacha_decrypt : list byte -> list byte -> list byte -> option (list byte) }.

(** What is encrypted is decrypted with the same key and nonce. *)
Class SessionCryptoLaws (crypto : SessionCrypto) : Prop := {
  chacha_decrypts key nonce plaintext ciphertext : length nonce = 12 ->
    chacha_encrypt key nonce plaintext = Some ciphertext -> chacha_decrypt key nonce ciphertext = Some plaintext }.

(** [serde_json::to_string] and [serde_json::from_str] *)
Class SerdeJson : Type := {
  json_to_string : JsonValue -> string + msg;
  json_from_str : string -> option JsonValue }.

(** The text [derive(Debug)] generates for a value. *)
Class ValueDebug : Type := value_debug : heap -> Value -> string.

(** ** Keys *)

Definition SESSION_COOKIE_NAME : string := "ricochet_session".
Definition SIGNED_SESSION_PREFIX : string := "v1".
Definition ENCRYPTED_SESSION_PREFIX : string := "v2".

Record SessionSigningKey : Type := mkSigningKey { signing_secret : list byte }.
Record SessionEncryptionKey : Type := mkEncryptionKey { encryption_key : list byte }.

Module SessionSecure.
Inductive SessionSecure : Type := Auto | Always | Never.
End SessionSecure.
Abbreviation SessionSecure := SessionSecure.SessionSecure.

Definition signing_key_new (secret : string) : SessionSigningKey := mkSigningKey (as_bytes secret).

(** [getrandom::fill] gives the bytes asked for, or fails. *)
Definition signing_key_random (random : list byte + msg) : res web_error SessionSigningKey :=
  match random with
  | inl secret => Ok (mkSigningKey secret)
  | inr error => Err [Lit "failed to generate session signing key: " :: error]
  end.

Section session.
Context `{SessionCrypto} `{SerdeJson} `{ValueDebug}.

Definition sign (key : SessionSigningKey) (payload : list byte) : string := hex_encode (hmac_sha256 (signing_secret key) payload).

Definition verify (key : SessionSigningKey) (payload : list byte) (signature_hex : string) : bool :=
  match hex_decode signature_hex with
  | None => false
  | Some signature => bool_decide (signature = hmac_sha256 (signing_secret key) payload)
  end.

Definition encryption_key_new (secret : string) : SessionEncryptionKey := mkEncryptionKey (sha256_digest (as_bytes secret)).

Definition encrypt (key : SessionEncryptionKey) (nonce : list byte + msg) (plaintext : list byte) : res web_error string :=
  match nonce with
  | inr error => Err [Lit "failed to generate session encryption nonce: " :: error]
  | inl nonce =>
      match chacha_encrypt (encryption_key key) nonce plaintext with
      | None => Err [[Lit "failed to encrypt session cookie"]]
      | Some ciphertext => Ok (ENCRYPTED_SESSION_PREFIX ++ ":" ++ hex_encode nonce ++ ":" ++ hex_encode ciphertext)%string
      end
  end.

Definition decrypt (key : SessionEncryptionKey) (nonce_hex ciphertext_hex : string) : option (list byte) :=
  nonce ← hex_decode nonce_hex;
  if negb (length nonce =? 12) then None
  else
    ciphertext ← hex_decode ciphertext_hex;
    chacha_decrypt (encryption_key key) nonce ciphertext.

(** The keys of a runtime: a random key signs when none is configured. *)
Definition session_keys (signing encryption : option string) (random : list byte + msg)
    : res web_error (option SessionSigningKey * option SessionEncryptionKey) :=
  let session_encryption_key := encryption_key_new <$> encryption in
  match signing_key_new <$> signing, session_encryption_key with
  | Some signing_key, _ => Ok (Some signing_key, session_encryption_key)
  | None, Some _ => Ok (None, session_encryption_key)
  | None, None => let? key := signing_key_random random in Ok (Some key, None)
  end.

(** ** Reading a session *)

Definition decrypted_session_json (cookie_value : string) (key : SessionEncryptionKey) : option string :=
  match split_char ":"%char cookie_value with
  | [prefix; nonce_hex; ciphertext_hex] =>
      if negb (String.eqb prefix ENCRYPTED_SESSION_PREFIX) then None
      else plaintext ← decrypt key nonce_hex ciphertext_hex; from_utf8 plaintext
  | _ => None
  end.

Definition verified_signed_session_json (cookie_value : string) (key : SessionSigningKey) : option string :=
  match split_char ":"%char cookie_value with
  | [prefix; payload_hex; signature_hex] =>
      if negb (String.eqb prefix SIGNED_SESSION_PREFIX) then None
      else
        payload ← hex_decode payload_hex;
        if negb (verify key payload signature_hex) then None
        else from_utf8 payload
  | _ => None
  end.

Definition session_json_from_cookie (cookie_value : string) (signing_key : option SessionSigningKey)
    (encryption_key : option SessionEncryptionKey) : option string :=
  match encryption_key with
  | Some key =>
      match decrypted_session_json cookie_value key with
      | Some session_json => Some session_json
      | None => signing_key ← signing_key; verified_signed_session_json cookie_value signing_key
      end
  | None => signing_key ← signing_key; verified_signed_session_json cookie_value signing_key
  end.

Definition json_number_to_value (n : JsonNumber) : option Value :=
  match as_i64 n with
  | Some z => Some (Value.Number z)
  | None =>
      match as_u64 n with
      | Some u => match i64_of_u64 u with Some z => Some (Value.Number z) | None => Some (Value.String (show_N u)) end
      | None => Value.Float <$> as_f64 n
      end
  end.

(** The elements in order, then the collection that holds them. *)
Fixpoint json_to_session_value (j : JsonValue) (h : heap) : option (Value * heap) :=
  match j with
  | JsonValue.Null => Some (Value.Nil, h)
  | JsonValue.Bool b => Some (Value.Bool b, h)
  | JsonValue.Number n => v ← json_number_to_value n; Some (v, h)
  | JsonValue.String s => Some (Value.String s, h)
  | JsonValue.Array values =>
      let fix all (values : list JsonValue) (h : heap) : option (list Value * heap) :=
        match values with
        | [] => Some ([], h)
        | j :: values' => '(v, h) ← json_to_session_value j h; '(vs, h) ← all values' h; Some (v :: vs, h)
        end in
      '(vs, h) ← all values h;
      let '(l, h) := alloc (CArray vs) h in Some (Value.Array l, h)
  | JsonValue.Object values =>
      let fix all (values : btree JsonValue) (m : btree Value) (h : heap) : option (btree Value * heap) :=
        match values with
        | [] => Some (m, h)
        | (key, j) :: values' => '(v, h) ← json_to_session_value j h; all values' (bt_insert key v m) h
        end in
      '(m, h) ← all values [] h;
      let '(l, h) := alloc (CMap m) h in Some (Value.Map l, h)
  end.

(** The entries that convert. *)
Fixpoint session_values (values : btree JsonValue) (m : btree Value) (h : heap) : btree Value * heap :=
  match values with
  | [] => (m, h)
  | (key, j) :: values' =>
      match json_to_session_value j h with
      | Some (v, h) => session_values values' (bt_insert key v m) h
      | None => session_values values' m h
      end
  end.

Definition session_from_cookies (cookies : btree string) (signing_key : option SessionSigningKey)
    (encryption_key : option SessionEncryptionKey) (h : heap) : btree Value * heap :=
  match bt_get SESSION_COOKIE_NAME cookies with
  | None => ([], h)
  | Some raw_session =>
      match session_json_from_cookie raw_session signing_key encryption_key with
      | None => ([], h)
      | Some session_json =>
          match json_from_str session_json with
          | Some (JsonValue.Object values) => session_values values [] h
          | _ => ([], h)
          end
      end
  end.

(** ** Storing a session *)

Definition web_json_message (h : heap) (e : WebJsonError) : msg :=
  match e with
  | WebJsonError.NotSerializable root => [Lit "cannot encode non-serializable value as JSON at "; Disp root]
  | WebJsonError.NonFinite path => [Lit "cannot encode non-finite float as JSON at "; Disp path]
  | WebJsonError.Cyclic path => [Lit "cannot encode cyclic collection as JSON at "; Disp path]
  | WebJsonError.CannotEncode v path => [Lit "cannot encode "; Disp (value_debug h v); Lit " as JSON at "; Disp path]
  end.

(** [value_to_json] with its errors as [anyhow] has them. *)
Definition web_json (h : heap) (v : Value) (root : string) (set_mode : SetMode) : res web_error JsonValue :=
  match web_value_to_json h v root set_mode with
  | Ok j => Ok j | Err e => Err [web_json_message h e] | Panic => Panic | OutOfFuel => OutOfFuel
  end.

Definition session_json_value (session : btree Value) (h : heap) : res web_error JsonValue * heap :=
  let '(l, h) := alloc (CMap session) h in
  (web_context [Lit "failed to serialize session"] (web_json h (Value.Map l) "$" SetMode.Reject), h).

Definition signed_session_cookie_value (session_json : string) (key : SessionSigningKey) : string :=
  let payload_hex := hex_encode (as_bytes session_json) in
  let signature := sign key (as_bytes session_json) in
  (SIGNED_SESSION_PREFIX ++ ":" ++ payload_hex ++ ":" ++ signature)%string.

Definition encrypted_session_cookie_value (session_json : string) (key : SessionEncryptionKey) (nonce : list byte + msg)
    : res web_error string := encrypt key nonce (as_bytes session_json).

Definition session_request_requires_secure_cookie (auto_allows_insecure_loopback : bool) (request_headers : btree string) : bool :=
  if match bt_get "x-forwarded-proto" request_headers with Some value => eq_ignore_ascii_case value "https" | None => false end then true
  else negb auto_allows_insecure_loopback.

Definition session_cookie_attributes (secure_policy : SessionSecure) (auto_allows_insecure_loopback : bool) (request_headers : btree string) : string :=
  let secure :=
    match secure_policy with
    | SessionSecure.Always => true
    | SessionSecure.Never => false
    | SessionSecure.Auto => session_request_requires_secure_cookie auto_allows_insecure_loopback request_headers
    end in
  if secure then "Path=/; HttpOnly; SameSite=Lax; Secure" else "Path=/; HttpOnly; SameSite=Lax".

(** The nonce is used only when there is an encryption key. *)
Definition session_cookie_header (session : JsonValue) (session_is_empty : bool) (signing_key : option SessionSigningKey)
    (encryption_key : option SessionEncryptionKey) (secure_policy : SessionSecure) (auto_allows_insecure_loopback : bool)
    (request_headers : btree string) (nonce : list byte + msg) : res web_error string :=
  let attributes := session_cookie_attributes secure_policy auto_allows_insecure_loopback request_headers in
  if session_is_empty then Ok (SESSION_COOKIE_NAME ++ "=; Max-Age=0; " ++ attributes)%string
  else
    match json_to_string session with
    | inr error => Err [error]
    | inl session_json =>
        let? cookie_value :=
          match encryption_key with
          | Some encryption_key => encrypted_session_cookie_value session_json encryption_key nonce
          | None =>
              match signing_key with
              | Some signing_key => Ok (signed_session_cookie_value session_json signing_key)
              | None => Ok session_json
              end
          end in
        let encoded := encode_urlencoded_component cookie_value in
        Ok (SESSION_COOKIE_NAME ++ "=" ++ encoded ++ "; " ++ attributes)%string
    end.
End session.

(** * Sessions, proved

    The session that a response stores in its cookie is the session of the next
    request, and no other cookie makes a session than one made with the keys. *)

(** ** Values *)

Definition session_all : list JsonValue -> heap -> option (list Value * heap) :=
  fix all (values : list JsonValue) (h : heap) : option (list Value * heap) :=
    match values with
    | [] => Some ([], h)
    | j :: values' => '(v, h) ← json_to_session_value j h; '(vs, h) ← all values' h; Some (v :: vs, h)
    end.

Definition session_entries : btree JsonValue -> btree Value -> heap -> option (btree Value * heap) :=
  fix all (values : btree JsonValue) (m : btree Value) (h : heap) : option (btree Value * heap) :=
    match values with
    | [] => Some (m, h)
    | (key, j) :: values' => '(v, h) ← json_to_session_value j h; all values' (bt_insert key v m) h
    end.

Lemma session_number n : canonical_number n -> json_number_to_value n = Some (number_to_value n).
Proof.
  intros Hn. destruct n as [n|z|x]; unfold json_number_to_value, number_to_value; cbn [as_i64]; [|done|done].
  by rewrite (proj2 (Z.leb_le _ _) Hn).
Qed.

(** On JSON that came from values, sessions are read as any JSON is. *)
Lemma json_to_session_value_eq j : canonical j -> forall h, json_to_session_value j h = Some (json_to_value j h).
Proof.
  remember (S (height j)) as n eqn:Hn. assert (height j < n) as Hh by lia. clear Hn. revert j Hh.
  induction n as [|n IH]; intros j Hh Hc h; [lia|]. destruct j as [|b|x|s|js|m]; try done.
  - cbn [json_to_session_value json_to_value]. by rewrite session_number.
  - change (json_to_session_value (JsonValue.Array js) h) with
      ('(vs, h) ← session_all js h; let '(l, h) := alloc (CArray vs) h in Some (Value.Array l, h)).
    change (json_to_value (JsonValue.Array js) h) with
      (let '(vs, h) := decode_all js h in let '(l, h) := alloc (CArray vs) h in (Value.Array l, h)).
    assert (forall h, session_all js h = Some (decode_all js h)) as ->; [|by destruct (decode_all js h)].
    assert (forall j h, j ∈ js -> json_to_session_value j h = Some (json_to_value j h)) as Hj.
    { intros j h0 Hin. apply IH; [apply height_element in Hin; lia|]. by eapply (fold_right_In canonical). }
    clear - Hj. induction js as [|j js IH]; intros h; [done|]. cbn [session_all decode_all]. rewrite Hj by left.
    destruct (json_to_value j h) as [v h1]. cbn [mbind option_bind]. fold session_all decode_all. rewrite IH by (intros; apply Hj; by right).
    by destruct (decode_all js h1).
  - change (json_to_session_value (JsonValue.Object m) h) with
      ('(m, h) ← session_entries m [] h; let '(l, h) := alloc (CMap m) h in Some (Value.Map l, h)).
    change (json_to_value (JsonValue.Object m) h) with
      (let '(m, h) := decode_entries m [] h in let '(l, h) := alloc (CMap m) h in (Value.Map l, h)).
    assert (forall o h, session_entries m o h = Some (decode_entries m o h)) as ->; [|by destruct (decode_entries m [] h)].
    assert (forall k j h, (k, j) ∈ m -> json_to_session_value j h = Some (json_to_value j h)) as Hj.
    { intros k j h0 Hin. apply IH; [apply height_entry in Hin; simpl in *; lia|]. by apply (fold_right_In (fun kv => canonical kv.2) _ _ (proj2 Hc)) in Hin. }
    clear - Hj. induction m as [|[k j] m IH]; intros o h; [done|]. cbn [session_entries decode_entries]. rewrite (Hj k) by left.
    destruct (json_to_value j h) as [v h1]. cbn [mbind option_bind]. fold session_entries decode_entries. apply IH. intros k' j' h' Hin. apply (Hj k'). by right.
Qed.

(** The entries of a session are those of the map it is read from. *)
Lemma session_values_eq m : canonical (JsonValue.Object m) -> forall o h, session_values m o h = decode_entries m o h.
Proof.
  intros [_ Hc]. induction m as [|[k j] m IH]; intros o h; [done|]. destruct Hc as [Hj Hc]. cbn [session_values decode_entries].
  rewrite json_to_session_value_eq by done. destruct (json_to_value j h) as [v h1]. fold decode_entries. by apply IH.
Qed.

(** ** What is decoded holds no sets *)

(** Data, in the collections from [n] on. *)
Definition fresh (n : nat) (v : Value) : Prop :=
  match v with
  | Value.Nil | Value.Bool _ | Value.Number _ | Value.Float _ | Value.String _ => True
  | Value.Array l | Value.Map l => n <= l
  | _ => False
  end.

Definition fresh_cell (n : nat) (c : Cell) : Prop :=
  match c with
  | CArray vs => Forall (fresh n) vs
  | CMap m => Forall (fresh n) (bt_values m)
  | _ => False
  end.

Definition adds (h h' : heap) : Prop := exists e, h' = h ++ e /\ Forall (fresh_cell (length h)) e.

Lemma fresh_mono n n' v : n' <= n -> fresh n v -> fresh n' v.
Proof. destruct v; simpl; try done; lia. Qed.

Lemma adds_refl h : adds h h.
Proof. exists []. by rewrite app_nil_r. Qed.

Lemma adds_trans h1 h2 h3 : adds h1 h2 -> adds h2 h3 -> adds h1 h3.
Proof.
  intros (e1 & -> & H1) (e2 & -> & H2). exists (e1 ++ e2). split; [by rewrite app_assoc|]. apply Forall_app. split; [done|].
  eapply list.Forall_impl; [exact H2|]. intros c Hc. rewrite length_app in Hc.
  destruct c; try done; simpl in *; (eapply list.Forall_impl; [exact Hc|]; intros v; apply fresh_mono; lia).
Qed.

Lemma adds_length h h' : adds h h' -> length h <= length h'.
Proof. intros (e & -> & _). rewrite length_app. lia. Qed.

Lemma adds_alloc h h' c : adds h h' -> fresh_cell (length h) c -> adds h (h' ++ [c]).
Proof. intros (e & -> & He) Hc. exists (e ++ [c]). split; [by rewrite app_assoc|]. apply Forall_app. by repeat constructor. Qed.

Lemma fresh_insert n k v (m : btree Value) : fresh n v -> Forall (fresh n) (bt_values m) -> Forall (fresh n) (bt_values (bt_insert k v m)).
Proof.
  intros Hv. induction m as [|[k' v'] m IH]; cbn [bt_insert]; [by repeat constructor|]. intros [Hv' Hm]%Forall_cons_1.
  destruct (String.compare k k'); repeat constructor; auto.
Qed.

Lemma decode_entries_adds m : (forall k j h, (k, j) ∈ m -> forall v h', json_to_value j h = (v, h') -> adds h h' /\ fresh (length h) v) ->
  forall n o h m' h', n <= length h -> Forall (fresh n) (bt_values o) -> decode_entries m o h = (m', h') -> adds h h' /\ Forall (fresh n) (bt_values m').
Proof.
  induction m as [|[k j] m IH]; intros Hj n o h m' h' Hn Ho Hd; [injection Hd as <- <-; by split; [apply adds_refl|]|].
  cbn [decode_entries] in Hd. destruct (json_to_value j h) as [v h1] eqn:Hv. fold decode_entries in Hd.
  destruct (Hj k j h ltac:(left) v h1 Hv) as [Ha Hf]. pose proof (adds_length _ _ Ha) as Hl.
  destruct (IH (fun k j h H => Hj k j h ltac:(by right)) n (bt_insert k v o) h1 m' h') as [Ha' Hm]; [lia| |done|].
  - apply fresh_insert; [|done]. by eapply fresh_mono; [|exact Hf].
  - split; [by eapply adds_trans|done].
Qed.

Lemma json_to_value_adds j : forall h v h', json_to_value j h = (v, h') -> adds h h' /\ fresh (length h) v.
Proof.
  remember (S (height j)) as n eqn:Hn. assert (height j < n) as Hh by lia. clear Hn. revert j Hh.
  induction n as [|n IH]; intros j Hh h v h' Hd; [lia|].
  destruct j as [|b|x|s|js|m]; try (injection Hd as <- <-; by split; [apply adds_refl|]).
  - injection Hd as <- <-. split; [apply adds_refl|]. unfold number_to_value. by repeat case_match.
  - change (json_to_value (JsonValue.Array js) h) with
      (let '(vs, h) := decode_all js h in let '(l, h) := alloc (CArray vs) h in (Value.Array l, h)) in Hd.
    destruct (decode_all js h) as [vs h1] eqn:Hvs. injection Hd as <- <-.
    assert (forall n0 h vs h1, n0 <= length h -> decode_all js h = (vs, h1) -> adds h h1 /\ Forall (fresh n0) vs) as Hall.
    { assert (forall j, j ∈ js -> height j < n) as Hjs by (intros j Hin; apply height_element in Hin; simpl in *; lia).
      clear - IH Hjs. induction js as [|j js IHjs]; intros n0 h vs h1 Hn Hd; [injection Hd as <- <-; by split; [apply adds_refl|]|].
      cbn [decode_all] in Hd. destruct (json_to_value j h) as [v h2] eqn:Hv. fold decode_all in Hd. destruct (decode_all js h2) as [vs2 h3] eqn:Hvs. injection Hd as <- <-.
      destruct (IH j (Hjs j ltac:(left)) _ _ _ Hv) as [Ha Hf]. pose proof (adds_length _ _ Ha).
      destruct (IHjs (fun j H => Hjs j ltac:(by right)) n0 h2 vs2 h3 ltac:(lia) Hvs) as [Ha' Hf']. split; [by eapply adds_trans|].
      constructor; [by eapply fresh_mono; [|exact Hf]|done]. }
    destruct (Hall (length h) h vs h1 ltac:(lia) Hvs) as [Ha Hf]. pose proof (adds_length _ _ Ha). split; [|simpl; lia].
    by apply adds_alloc.
  - change (json_to_value (JsonValue.Object m) h) with
      (let '(m, h) := decode_entries m [] h in let '(l, h) := alloc (CMap m) h in (Value.Map l, h)) in Hd.
    destruct (decode_entries m [] h) as [m' h1] eqn:Hm. injection Hd as <- <-.
    apply (decode_entries_adds m) with (n := length h) in Hm as [Ha Hf]; [| |done|constructor].
    + pose proof (adds_length _ _ Ha). split; [by apply adds_alloc|simpl; lia].
    + intros k j h0 Hin. apply IH. apply height_entry in Hin. simpl in *. lia.
Qed.

Lemma fresh_reach h e v w : Forall (fresh_cell (length h)) e -> fresh (length h) v -> reach (h ++ e) v w -> fresh (length h) w.
Proof.
  intros He Hv Hr. induction Hr as [|x y _ IH Hxy]; [done|]. unfold child in Hxy.
  assert (forall l, length h <= l -> forall k, y ∈ contents (h ++ e) k l -> fresh (length h) y) as Hc.
  { intros l Hl k Hy. unfold contents, snapshot, map_snapshot in Hy. rewrite lookup_app_r in Hy by done.
    destruct (e !! (l - length h)) as [c|] eqn:Hc; [|by destruct k; apply elem_of_nil in Hy].
    apply (list.Forall_lookup_1 _ _ _ _ He) in Hc. destruct k, c; try done; try (by apply elem_of_nil in Hy); simpl in Hc;
      by apply (proj1 (list.Forall_forall _ _) Hc). }
  destruct x; try done; destruct Hxy as (k & l' & [= <- <-] & Hy); simpl in IH; by eapply Hc.
Qed.

Lemma decoded_no_sets j h v h' : json_to_value j h = (v, h') -> forall w, reach h' v w -> is_set w = false.
Proof.
  intros Hd w Hw. apply json_to_value_adds in Hd as ((e & -> & He) & Hf). apply fresh_reach in Hw; [by destruct w|done..].
Qed.


(** ** Keys *)

Section session.
Context {crypto : SessionCrypto} {serde : SerdeJson} {debug : ValueDebug}.

(** The session of the values that a session's JSON is read as has that JSON. *)
Lemma session_restored m h : canonical (JsonValue.Object m) -> wf_maps h ->
  let '(session, h1) := session_values m [] h in
  exists h2, session_json_value session h1 = (Ok (JsonValue.Object m), h2).
Proof.
  intros Hc Hw. rewrite session_values_eq by done. destruct (decode_entries m [] h) as [session h1] eqn:Hd.
  assert (json_to_value (JsonValue.Object m) h = (Value.Map (length h1), h1 ++ [CMap session])) as Hv.
  { change (json_to_value (JsonValue.Object m) h) with
      (let '(m, h) := decode_entries m [] h in let '(l, h) := alloc (CMap m) h in (Value.Map l, h)). by rewrite Hd. }
  exists (h1 ++ [CMap session]). unfold session_json_value. cbn [alloc]. f_equal.
  pose proof (json_to_value_decodes _ Hc _ _ _ Hv) as (_ & Hw' & He). specialize (He []). rewrite app_nil_r in He.
  assert (web_value_to_json (h1 ++ [CMap session]) (Value.Map (length h1)) "$" SetMode.Reject = Ok (JsonValue.Object m)) as Hj; [|by unfold web_json; rewrite Hj].
  unfold web_value_to_json. rewrite (encodes_not_opaque _ WebJsonError _ _ He). cbn [rbind].
  destruct (inner_exact _ (Hw' Hw) [] (Value.Map (length h1))) as (r & Hr & _ & _ & Hj). apply Hj in He. rewrite He in Hr.
  assert (sets_allowed (h1 ++ [CMap session]) SetMode.Reject (Value.Map (length h1))) as Hs by (intros _; by eapply decoded_no_sets).
  apply (agree_Ok _ _ _ _ Hs (web_agrees _ _ [] [] "$" SetMode.Reject _)). exact Hr.
Qed.

Lemma hex_bytes l : Forall (fun b => component_byte b = true) (as_bytes (hex_encode l)).
Proof.
  unfold hex_encode. rewrite as_from_bytes. induction l as [|b l IH]; [done|]. cbn [flat_map]. apply Forall_app. split; [|done].
  clear. destruct b as [[] [] [] [] [] [] [] []]; repeat constructor.
Qed.

Lemma no_colon l : Forall (fun c => c <> ":"%char) (as_bytes (hex_encode l)).
Proof. eapply list.Forall_impl; [apply hex_bytes|]. intros b Hb ->. discriminate. Qed.

(** The parts of a cookie's value. *)
Lemma split_parts prefix a b : Forall (fun c => c <> ":"%char) (as_bytes prefix) ->
  split_char ":"%char (prefix ++ ":" ++ hex_encode a ++ ":" ++ hex_encode b)%string = [prefix; hex_encode a; hex_encode b].
Proof.
  intros Hp. unfold split_char. rewrite !as_bytes_app. change (as_bytes ":") with [":"%char]. cbn [app].
  rewrite split_byte_app by done. rewrite split_byte_app by apply no_colon. rewrite split_byte_none by apply no_colon.
  cbn [fmap list_fmap]. by rewrite !from_as_bytes.
Qed.

Lemma value_utf8 prefix a b : utf8 (as_bytes prefix) -> utf8 (as_bytes (prefix ++ ":" ++ hex_encode a ++ ":" ++ hex_encode b)%string).
Proof.
  intros Hp. assert (forall l, utf8 (as_bytes (hex_encode l))) as Hu.
  { intros l. destruct (solid_chars _ (component_solid _ (hex_bytes l))) as [Hu _]. by eexists. }
  rewrite !as_bytes_app. repeat (apply utf8_join; [done || (by eexists) || apply Hu|]). apply Hu.
Qed.

Lemma verify_sign key payload : verify key payload (sign key payload) = true.
Proof. unfold verify, sign. rewrite hex_decode_encode. by apply bool_decide_eq_true_2. Qed.

Lemma signed_restored text key : utf8 (as_bytes text) -> verified_signed_session_json (signed_session_cookie_value text key) key = Some text.
Proof.
  intros Hu. unfold verified_signed_session_json, signed_session_cookie_value, sign. rewrite split_parts by by repeat constructor.
  change (negb (String.eqb SIGNED_SESSION_PREFIX SIGNED_SESSION_PREFIX)) with false. cbn iota. rewrite hex_decode_encode. cbn [mbind option_bind].
  change (hex_encode (hmac_sha256 (signing_secret key) (as_bytes text))) with (sign key (as_bytes text)). rewrite verify_sign. cbn [negb]. by apply from_utf8_of.
Qed.

Lemma encrypted_restored `{!SessionCryptoLaws crypto} text key nonce value : utf8 (as_bytes text) -> (forall n, nonce = inl n -> length n = 12) ->
  encrypted_session_cookie_value text key nonce = Ok value ->
  utf8 (as_bytes value) /\ decrypted_session_json value key = Some text.
Proof.
  intros Hu Hn. unfold encrypted_session_cookie_value, encrypt. destruct nonce as [nonce|]; [|done]. specialize (Hn nonce eq_refl).
  destruct (chacha_encrypt (encryption_key key) nonce (as_bytes text)) as [ciphertext|] eqn:Hc; [|done]. intros [= <-]. split; [apply value_utf8; by eexists|].
  unfold decrypted_session_json. rewrite split_parts by by repeat constructor.
  change (negb (String.eqb ENCRYPTED_SESSION_PREFIX ENCRYPTED_SESSION_PREFIX)) with false. cbn iota. unfold decrypt.
  rewrite !hex_decode_encode. cbn [mbind option_bind]. rewrite Hn. cbn [Nat.eqb negb mbind option_bind].
  rewrite (chacha_decrypts _ _ _ _ Hn Hc). cbn [mbind option_bind]. by apply from_utf8_of.
Qed.

(** A header stores a value that is read back as the JSON text. *)
Lemma header_restored `{!SessionCryptoLaws crypto} j text sk ek policy auto headers nonce header :
  is_Some sk \/ is_Some ek -> (forall n, nonce = inl n -> length n = 12) -> json_to_string j = inl text -> utf8 (as_bytes text) ->
  session_cookie_header j false sk ek policy auto headers nonce = Ok header ->
  exists value, header = (cookie_text (SESSION_COOKIE_NAME, value) ++ "; " ++ session_cookie_attributes policy auto headers)%string /\
    utf8 (as_bytes value) /\ session_json_from_cookie value sk ek = Some text.
Proof.
  intros Hk Hn Ht Hu. unfold session_cookie_header. rewrite Ht. cbn iota.
  assert (forall value, (SESSION_COOKIE_NAME ++ "=" ++ encode_urlencoded_component value ++ "; " ++ session_cookie_attributes policy auto headers)%string
    = (cookie_text (SESSION_COOKIE_NAME, value) ++ "; " ++ session_cookie_attributes policy auto headers)%string) as Htext.
  { intros value. unfold cookie_text. cbn [fst snd]. by rewrite append_assoc. }
  unfold session_json_from_cookie. destruct ek as [ek|].
  - destruct (encrypted_session_cookie_value text ek nonce) as [value| | |] eqn:He; try done. cbn [rbind]. intros [= <-].
    apply encrypted_restored in He as [Hv Hd]; [|done..]. exists value. by rewrite Htext, Hd.
  - destruct Hk as [[key ->]|[? ?]]; [|done]. cbn [rbind mbind option_bind]. intros [= <-]. exists (signed_session_cookie_value text key).
    split; [apply Htext|]. split; [apply value_utf8; by eexists|by apply signed_restored].
Qed.
End session.

(** ** Theorems *)

(** The session that a response stores in its cookie, signed or encrypted,
    is the session of the request that sends the cookie back, among other
    cookies: its values have the same JSON. *)
Theorem session_cookie_roundtrip (crypto : SessionCrypto) (serde : SerdeJson) (debug : ValueDebug) (laws : SessionCryptoLaws crypto)
    (session : btree JsonValue) (text : string) (sk : option SessionSigningKey) (ek : option SessionEncryptionKey) (policy : SessionSecure)
    (auto : bool) (headers : btree string) (nonce : list byte + msg) (header : string) (before after : list (string * string)) (h : heap)
    (Hkeys : is_Some sk \/ is_Some ek) (Hnonce : forall n, nonce = inl n -> length n = 12)
    (Hjson : canonical (JsonValue.Object session)) (Hmaps : wf_maps h)
    (Hwrite : json_to_string (JsonValue.Object session) = inl text) (Hutf8 : utf8 (as_bytes text))
    (Hread : json_from_str text = Some (JsonValue.Object session))
    (Hheader : session_cookie_header (JsonValue.Object session) false sk ek policy auto headers nonce = Ok header)
    (Hbefore : Forall plain_cookie before) (Hafter : Forall (fun c => plain_cookie c /\ c.1 <> SESSION_COOKIE_NAME) after) :
  exists value cookies,
    header = (cookie_text (SESSION_COOKIE_NAME, value) ++ "; " ++ session_cookie_attributes policy auto headers)%string /\
    cookies_from_headers (E:=web_error) [("cookie", cookie_header (before ++ (SESSION_COOKIE_NAME, value) :: after))] = Ok cookies /\
    let '(values, h1) := session_from_cookies cookies sk ek h in
    exists h2, session_json_value values h1 = (Ok (JsonValue.Object session), h2).
Proof.
  apply header_restored with (text := text) in Hheader as (value & Hh & Hv & Hs); [|done..]. exists value.
  exists (collect_pairs (before ++ (SESSION_COOKIE_NAME, value) :: after)). split; [done|]. split.
  - unfold cookies_from_headers. cbn [bt_get String.eqb Ascii.eqb Bool.eqb]. apply parse_cookie_header_of; [|by destruct before].
    apply Forall_app. split; [done|]. constructor; [split; [repeat constructor|done]|]. eapply list.Forall_impl; [exact Hafter|]. by intros c [? _].
  - assert (bt_get SESSION_COOKIE_NAME (collect_pairs (before ++ (SESSION_COOKIE_NAME, value) :: after)) = Some value) as Hl.
    { apply (collect_pairs_last before (SESSION_COOKIE_NAME, value) after). eapply list.Forall_impl; [exact Hafter|]. by intros c [_ ?]. }
    unfold session_from_cookies. rewrite Hl, Hs, Hread. by apply session_restored.
Qed.

(** C17: a request has a session only when its cookie carries a text that the
    encryption key decrypts or the signing key has signed: whoever does not
    hold a key cannot make a session, and without keys there is none. *)
Theorem session_authentic (crypto : SessionCrypto) (serde : SerdeJson) (cookies : btree string)
    (sk : option SessionSigningKey) (ek : option SessionEncryptionKey) (h h' : heap) (values : btree Value)
    (Hsession : session_from_cookies cookies sk ek h = (values, h')) (Hvalues : values <> []) :
  exists cookie payload text json,
    bt_get SESSION_COOKIE_NAME cookies = Some cookie /\ from_utf8 payload = Some text /\
    json_from_str text = Some (JsonValue.Object json) /\ session_values json [] h = (values, h') /\
    ((exists key nonce_hex nonce ciphertext_hex ciphertext, ek = Some key /\ split_char ":"%char cookie = ["v2"; nonce_hex; ciphertext_hex] /\
        hex_decode nonce_hex = Some nonce /\ length nonce = 12 /\ hex_decode ciphertext_hex = Some ciphertext /\
        chacha_decrypt (encryption_key key) nonce ciphertext = Some payload) \/
     (exists key payload_hex signature_hex, sk = Some key /\ split_char ":"%char cookie = ["v1"; payload_hex; signature_hex] /\
        hex_decode payload_hex = Some payload /\ hex_decode signature_hex = Some (hmac_sha256 (signing_secret key) payload))).
Proof.
  unfold session_from_cookies in Hsession. destruct (bt_get SESSION_COOKIE_NAME cookies) as [cookie|] eqn:Hc; [|by injection Hsession as <- <-].
  destruct (session_json_from_cookie cookie sk ek) as [text|] eqn:Hs; [|by injection Hsession as <- <-].
  destruct (json_from_str text) as [[| | | | |json]|] eqn:Hj; try by injection Hsession as <- <-.
  assert (forall key, verified_signed_session_json cookie key = Some text -> exists payload payload_hex signature_hex,
    from_utf8 payload = Some text /\ split_char ":"%char cookie = ["v1"; payload_hex; signature_hex] /\
    hex_decode payload_hex = Some payload /\ hex_decode signature_hex = Some (hmac_sha256 (signing_secret key) payload)) as Hsigned.
  { intros key. unfold verified_signed_session_json. destruct (split_char ":"%char cookie) as [|p [|ph [|sh [|]]]]; try done.
    destruct (String.eqb_spec p SIGNED_SESSION_PREFIX) as [->|]; [|done]. cbn [negb]. destruct (hex_decode ph) as [payload|] eqn:Hp; [|done]. cbn [mbind option_bind].
    unfold verify. destruct (hex_decode sh) as [signature|] eqn:Hh; [|done]. case_bool_decide as Hv; [|done]. cbn [negb]. intros Hu.
    exists payload, ph, sh. by rewrite Hh, Hv. }
  assert (forall key, decrypted_session_json cookie key = Some text -> exists payload nonce_hex nonce ciphertext_hex ciphertext,
    from_utf8 payload = Some text /\ split_char ":"%char cookie = ["v2"; nonce_hex; ciphertext_hex] /\ hex_decode nonce_hex = Some nonce /\
    length nonce = 12 /\ hex_decode ciphertext_hex = Some ciphertext /\ chacha_decrypt (encryption_key key) nonce ciphertext = Some payload) as Hencrypted.
  { intros key. unfold decrypted_session_json, decrypt. destruct (split_char ":"%char cookie) as [|p [|nh [|ch [|]]]]; try done.
    destruct (String.eqb_spec p ENCRYPTED_SESSION_PREFIX) as [->|]; [|done]. cbn [negb]. destruct (hex_decode nh) as [nonce|] eqn:Hnh; [|done]. cbn [mbind option_bind].
    destruct (Nat.eqb_spec (length nonce) 12) as [Hn|]; [|done]. cbn [negb]. destruct (hex_decode ch) as [ciphertext|] eqn:Hch; [|done]. cbn [mbind option_bind].
    destruct (chacha_decrypt (encryption_key key) nonce ciphertext) as [payload|] eqn:Hd; [|done]. intros Hu. by exists payload, nh, nonce, ch, ciphertext. }
  assert ((exists key, ek = Some key /\ decrypted_session_json cookie key = Some text) \/
    (exists key, sk = Some key /\ verified_signed_session_json cookie key = Some text)) as [(key & -> & Hd)|(key & -> & Hd)].
  { unfold session_json_from_cookie in Hs. destruct ek as [ek|]; [destruct (decrypted_session_json cookie ek) eqn:He; [left; exists ek; by simplify_eq|]|];
      (destruct sk as [sk|]; [right; exists sk; by split|done]). }
  - destruct (Hencrypted key Hd) as (payload & nh & nonce & ch & ct & ? & ? & ? & ? & ? & ?). exists cookie, payload, text, json.
    split_and!; try done. left. by exists key, nh, nonce, ch, ct.
  - destruct (Hsigned key Hd) as (payload & ph & sh & ? & ? & ? & ?). exists cookie, payload, text, json.
    split_and!; try done. right. by exists key, ph, sh.
Qed.

(** ** Witnesses *)

#[local] Instance echo_crypto : SessionCrypto := {
  hmac_sha256 key payload := key ++ payload; sha256_digest l := l;
  chacha_encrypt key nonce plaintext := Some plaintext; chacha_decrypt key nonce ciphertext := Some ciphertext }.

#[local] Instance echo_laws : SessionCryptoLaws echo_crypto.
Proof. by constructor. Qed.

Definition counter : btree JsonValue := [("count", JsonValue.Number (PosInt 2))].
Definition counter_text : string := "count=2".

#[local] Instance counter_serde : SerdeJson := {
  json_to_string j := inl counter_text;
  json_from_str text := if String.eqb text counter_text then Some (JsonValue.Object counter) else None }.

#[local] Instance no_debug : ValueDebug := fun _ _ => "".

Definition test_key : SessionSigningKey := signing_key_new "k".

Example session_cookie_roundtrip_witness : exists header value cookies,
  session_cookie_header (JsonValue.Object counter) false (Some test_key) None SessionSecure.Auto false [] (inr []) = Ok header /\
  cookies_from_headers (E:=web_error) [("cookie", cookie_header [("theme", "dark"); (SESSION_COOKIE_NAME, value)])] = Ok cookies /\
  let '(values, h1) := session_from_cookies cookies (Some test_key) None [] in
  exists h2, session_json_value values h1 = (Ok (JsonValue.Object counter), h2).
Proof.
  assert (exists header, session_cookie_header (JsonValue.Object counter) false (Some test_key) None SessionSecure.Auto false [] (inr []) = Ok header) as [header Hh]
    by (eexists; vm_compute; reflexivity).
  destruct (session_cookie_roundtrip echo_crypto counter_serde no_debug echo_laws counter counter_text (Some test_key) None SessionSecure.Auto false []
    (inr []) header [("theme", "dark")] [] []) as (value & cookies & _ & Hc & Hv); try done.
  - left. by eexists.
  - by repeat constructor.
  - by eexists; vm_compute.
  - repeat constructor. by eexists; vm_compute.
  - exists header, value, cookies. by split_and!.
Defined.

Example session_authentic_witness :
  let cookie := (SIGNED_SESSION_PREFIX ++ ":" ++ hex_encode (as_bytes counter_text) ++ ":" ++ hex_encode (as_bytes "kcount=2"))%string in
  exists values h', session_from_cookies [(SESSION_COOKIE_NAME, cookie)] (Some test_key) None [] = (values, h') /\ values <> [] /\
  exists text, json_from_str text = Some (JsonValue.Object counter).
Proof.
  intros cookie. do 2 eexists. split; [vm_compute; reflexivity|]. split; [discriminate|].
  destruct (session_authentic echo_crypto counter_serde [(SESSION_COOKIE_NAME, cookie)] (Some test_key) None [] [] [("count", Value.Number 2)])
    as (c & payload & text & json & _ & _ & Hj & Hv & _); [vm_compute; reflexivity|discriminate|]. exists text. rewrite Hj. unfold json_from_str, counter_serde in Hj.
  destruct (String.eqb text counter_text); [by simplify_eq|done].
Defined.
