(* ===== verification/WebStatic.v ===== *)
(** * Static files and views

    Where [crates/ricochet_web/src/server.rs] looks for the file of a request
    under the static mount, and for the template of a view. *)

From stdpp Require Import base tactics list strings option numbers.
From Stdlib Require Import ZArith NArith Lia Ascii String.
From S2P Require Import Prelude RustStr RustText RustPath Syntax Lexer BTree Expander Imports ImportsProofs WebRouter WebCoding.

Open Scope string_scope.
Open Scope list_scope.
Open Scope nat_scope.

Record StaticFileConfig : Type := mkStaticFiles { static_mount : string; static_dir : string }.

(** ** Validation *)

Definition backslash : byte := ascii_of_N 92.

(** [!mount.contains("//")] is a search of the text. *)
Definition validate_static_mount (mount : string) : res web_error unit :=
  if negb (String.eqb mount "/") && starts_with "/" mount
     && negb (match list.last (as_bytes mount) with Some b => Ascii.eqb b slash | None => false end)
     && negb (contains_byte backslash mount)
     && match string_find "//" mount with Some _ => false | None => true end
     && forallb (fun segment => negb (String.eqb segment "") && negb (String.eqb segment ".") && negb (String.eqb segment "..")) (drop 1 (split_char slash mount))
  then Ok tt
  else Err [[Lit "web.static.mount must be a dedicated absolute path like /assets"]].

Fixpoint static_components (components : list Component) : res web_error unit :=
  match components with
  | [] => Ok tt
  | Component.Normal segment :: components' =>
      if String.eqb segment "" then Err [[Lit "web.static.dir must contain valid UTF-8 path segments"]]
      else static_components components'
  | _ => Err [[Lit "web.static.dir must not contain traversal components"]]
  end.

Definition validate_project_relative_static_dir (dir : string) : res web_error string :=
  let? trimmed := trim dir in
  if String.eqb trimmed "" || contains_byte backslash dir then Err [[Lit "web.static.dir must be a project-relative directory path"]]
  else if is_absolute dir then Err [[Lit "web.static.dir must be project-relative"]]
  else let? _ := static_components (components dir) in Ok dir.

Definition static_file_config (project_root mount dir : string) : res web_error StaticFileConfig :=
  let? _ := validate_static_mount mount in
  let? dir := validate_project_relative_static_dir dir in
  Ok (mkStaticFiles mount (join project_root dir)).

(** ** Requests under the mount *)

Definition bad_segment (segment : string) : bool :=
  String.eqb segment "" || String.eqb segment "." || String.eqb segment ".." || contains_byte backslash segment
  || contains_byte slash segment || contains_byte "000"%char segment.

Fixpoint static_path (segments : list string) (path : string) : option string :=
  match segments with
  | [] => Some path
  | segment :: segments' =>
      match percent_decode_path_segment segment with
      | inr _ => None
      | inl segment => if bad_segment segment then None else static_path segments' (join path segment)
      end
  end.

(** [None]: not under the mount; [Some None]: no file can be meant. *)
Definition static_request_relative_path (mount request_path : string) : option (option string) :=
  rest ← (if String.eqb request_path mount then Some ""
          else rest ← strip_prefix mount request_path; strip_prefix "/" rest);
  if String.eqb rest "" then Some None else Some (static_path (split_char slash rest) "").

Definition static_content_type (path : string) : string :=
  let ext_is := String.eqb (to_ascii_lowercase (default "" (extension path))) in
  if ext_is "css" then "text/css; charset=utf-8"
  else if ext_is "js" || ext_is "mjs" then "text/javascript; charset=utf-8"
  else if ext_is "json" then "application/json"
  else if ext_is "svg" then "image/svg+xml"
  else if ext_is "png" then "image/png"
  else if ext_is "jpg" || ext_is "jpeg" then "image/jpeg"
  else if ext_is "gif" then "image/gif"
  else if ext_is "webp" then "image/webp"
  else if ext_is "ico" then "image/x-icon"
  else if ext_is "html" || ext_is "htm" then "text/html; charset=utf-8"
  else if ext_is "txt" then "text/plain; charset=utf-8"
  else if ext_is "woff" then "font/woff"
  else if ext_is "woff2" then "font/woff2"
  else if ext_is "wasm" then "application/wasm"
  else "application/octet-stream".

Module StaticResponse.
Inductive StaticResponse : Type :=
  | MethodNotAllowed
  | NotFound
  | Asset (content_type : string) (body : list byte).
End StaticResponse.
Abbreviation StaticResponse := StaticResponse.StaticResponse.

Section files.
Context `{FileSystem} `{IoErrors}.

Definition cannot_resolve (path : string) (error : msg) : web_error := [[Lit "failed to resolve "; Disp path]; error].

Definition static_asset_response (static_files : StaticFileConfig) (method request_path : string) : res web_error (option StaticResponse) :=
  match static_request_relative_path (static_mount static_files) request_path with
  | None => Ok None
  | Some relative_path =>
      if negb (String.eqb method "GET") && negb (String.eqb method "HEAD") then Ok (Some StaticResponse.MethodNotAllowed)
      else match relative_path with
      | None => Ok (Some StaticResponse.NotFound)
      | Some relative_path =>
          match canonicalize (static_dir static_files) with
          | inr error => if is_not_found error then Ok (Some StaticResponse.NotFound) else Err (cannot_resolve (static_dir static_files) error)
          | inl static_root =>
              let requested_asset_path := join (static_dir static_files) relative_path in
              match canonicalize requested_asset_path with
              | inr error => if is_not_found error then Ok (Some StaticResponse.NotFound) else Err (cannot_resolve requested_asset_path error)
              | inl asset_path =>
                  if negb (path_starts_with asset_path static_root) || negb (is_file asset_path) then Ok (Some StaticResponse.NotFound)
                  else
                    let content_type := static_content_type asset_path in
                    if String.eqb method "HEAD" then Ok (Some (StaticResponse.Asset content_type []))
                    else match read asset_path with
                         | inl body => Ok (Some (StaticResponse.Asset content_type body))
                         | inr error => Err [[Lit "failed to read static asset "; Disp asset_path]; error]
                         end
              end
          end
      end
  end.

(** ** Views *)

Definition invalid_view (view : string) : web_error := [[Lit "invalid view name "; Dbg view]].

(** Other characters than ASCII letters and digits are refused, byte by byte. *)
Definition view_byte (b : byte) : bool := is_ascii_alphanumeric b || Ascii.eqb b "_"%char || Ascii.eqb b "-"%char.

Fixpoint view_components (view : string) (components : list Component) : res web_error unit :=
  match components with
  | [] => Ok tt
  | Component.Normal segment :: components' =>
      if String.eqb segment "" || negb (forallb view_byte (as_bytes segment)) then Err (invalid_view view)
      else view_components view components'
  | _ => Err (invalid_view view)
  end.

Definition validate_view_name (view : string) : res web_error unit :=
  if String.eqb view "" || contains_byte backslash view then Err (invalid_view view)
  else if is_absolute view then Err (invalid_view view)
  else view_components view (components view).

Definition views_dir (root : string) : string := join (join root "app") "Views".

Definition resolve_view_template_path (root view : string) : res web_error string :=
  let? _ := validate_view_name view in
  match canonicalize (views_dir root) with
  | inr error => Err [[Lit "failed to resolve views root for "; Disp root]; error]
  | inl views_root =>
      let template_path := join (views_dir root) (view ++ ".html")%string in
      match canonicalize template_path with
      | inr error => Err [[Lit "failed to resolve "; Disp template_path]; error]
      | inl template_path =>
          if negb (path_starts_with template_path views_root) then Err [[Lit "view "; Dbg view; Lit " resolves outside app/Views"]]
          else Ok template_path
      end
  end.
End files.

Example static_paths : static_request_relative_path "/assets" <$> ["/assets/css/a%20b.css"; "/assets"; "/assetsx/a"; "/assets/%2e%2e/a"; "/assets/a%2fb"; "/other"] =
  [Some (Some "css/a b.css"); Some None; None; Some None; Some None; None].
Proof. vm_compute. reflexivity. Qed.

(** * Static files and views, proved

    A request reads no file outside the static directory, and a view no template
    outside [app/Views]. *)

(** ** Requested paths *)

Lemma contains_byte_false b s : contains_byte b s = false -> Forall (fun c => c <> b) (as_bytes s).
Proof.
  unfold contains_byte. intros H. rewrite list.Forall_forall. intros c Hc ->. apply not_true_iff_false in H. apply H.
  apply existsb_exists. exists b. split; [by apply list_elem_of_In|apply Ascii.eqb_refl].
Qed.

Lemma bad_segment_good segment : bad_segment segment = false -> good_name segment.
Proof.
  unfold bad_segment, good_name. rewrite !orb_false_iff. intros (((((H1 & H2) & H3) & _) & H4) & _).
  apply String.eqb_neq in H1, H2, H3. split_and!; try done. by apply contains_byte_false in H4.
Qed.

Lemma good_relative n : good_name n -> is_absolute n = false.
Proof. intros (_ & _ & _ & Hs). destruct n as [|b n]; [done|]. apply Forall_cons_1 in Hs as [Hb _]. unfold is_absolute. cbn [starts_with]. by destruct (Ascii.eqb_spec "/" b) as [<-|]. Qed.

Lemma join_root r n : r <> "" -> is_absolute n = false -> join (String slash r) n = String slash (join r n).
Proof.
  intros Hr Hn. unfold join. rewrite Hn. change (as_bytes (String slash r)) with (slash :: as_bytes r).
  destruct r as [|b r]; [done|]. change (as_bytes (String b r)) with (b :: as_bytes r). rewrite last_cons_cons.
  destruct (list.last (b :: as_bytes r)) as [c|] eqn:E; [by destruct (Ascii.eqb c "/")|by apply last_None in E].
Qed.

Lemma join_relative names n : good_name n -> normal_names names -> join (render false names) n = render false (names ++ [n]).
Proof.
  intros Hn Hns. pose proof (join_absolute names n Hns Hn) as Hj. destruct names as [|m names].
  { unfold join. by rewrite (good_relative n Hn). }
  change (absolute (m :: names)) with (String slash (render false (m :: names))) in Hj.
  change (absolute ((m :: names) ++ [n])) with (String slash (render false ((m :: names) ++ [n]))) in Hj.
  rewrite join_root in Hj; [by injection Hj| |by apply good_relative].
  apply Forall_cons_1 in Hns as [(Hm & _) _]. unfold render. destruct names; cbn; by destruct m.
Qed.

(** A requested path is made of names: it goes down from where it starts. *)
Lemma static_path_names segments : forall names path, normal_names names -> static_path segments (render false names) = Some path ->
  exists names', normal_names (names ++ names') /\ path = render false (names ++ names').
Proof.
  induction segments as [|segment segments IH]; intros names path Hn; cbn [static_path].
  - intros [= <-]. exists []. by rewrite app_nil_r.
  - destruct (percent_decode_path_segment segment) as [name|]; [|done]. destruct (bad_segment name) eqn:Hb; [done|].
    apply bad_segment_good in Hb. rewrite join_relative by done. intros Hp. apply IH in Hp as (names' & Hn' & ->); [|apply Forall_app; split; [done|constructor; [done|constructor]]].
    exists (name :: names'). by rewrite <- app_assoc in *.
Qed.

Lemma relative_path_names mount request_path path : static_request_relative_path mount request_path = Some (Some path) ->
  exists names, normal_names names /\ path = render false names.
Proof.
  unfold static_request_relative_path. destruct (if String.eqb request_path mount then _ else _) as [rest|]; [|done]. cbn [mbind option_bind].
  destruct (String.eqb rest ""); [done|]. intros [= Hp]. apply (static_path_names _ [] path) in Hp as (names & Hn & ->); [|constructor]. by exists names.
Qed.

(** ** Containment *)

Section files.
Context {fs : FileSystem} {laws : FileSystemLaws fs} {errors : IoErrors}.

(** What is below a canonical directory is a path of names from it. *)
Lemma canonical_below p d q base : canonicalize p = inl q -> canonicalize d = inl base -> path_starts_with q base = true ->
  exists names rest, base = absolute names /\ normal_names (names ++ rest) /\ q = absolute (names ++ rest).
Proof.
  intros Hq Hb Hs. destruct (canonicalize_normal _ _ Hq) as (qn & Hqn & ->), (canonicalize_normal _ _ Hb) as (names & Hn & ->).
  apply starts_with_absolute in Hs as [rest ->]; [|done..]. by exists names, rest.
Qed.

(** C18: a file that a request under the static mount is answered with is a
    regular file below the canonical static directory, whatever the request
    and the links in that directory are: the path that the request asks for is
    made of names only, with no [..] hidden by its encoding, and the body is
    the file's, or empty for [HEAD]. *)
Theorem static_files_contained (static_files : StaticFileConfig) (method request_path content_type : string) (body : list byte)
    (Hresponse : static_asset_response static_files method request_path = Ok (Some (StaticResponse.Asset content_type body))) :
  exists names root rest, normal_names names /\ normal_names (root ++ rest) /\
    canonicalize (static_dir static_files) = inl (absolute root) /\
    canonicalize (join (static_dir static_files) (render false names)) = inl (absolute (root ++ rest)) /\
    is_file (absolute (root ++ rest)) = true /\ content_type = static_content_type (absolute (root ++ rest)) /\
    (method = "HEAD" /\ body = [] \/ method = "GET" /\ read (absolute (root ++ rest)) = inl body).
Proof.
  unfold static_asset_response in Hresponse. destruct (static_request_relative_path _ request_path) as [[path|]|] eqn:Hp; try done.
  2: { destruct (negb (String.eqb method "GET") && negb (String.eqb method "HEAD")); discriminate. }
  apply relative_path_names in Hp as (names & Hn & ->). exists names.
  destruct (String.eqb_spec method "GET") as [Hget|Hget]; destruct (String.eqb_spec method "HEAD") as [Hhead|Hhead]; try (subst; discriminate); cbn [negb andb] in Hresponse; try discriminate;
    (destruct (canonicalize (static_dir static_files)) as [root|e] eqn:Hroot; [|by destruct (is_not_found e)]);
    (destruct (canonicalize (join (static_dir static_files) (render false names))) as [q|e] eqn:Hq; [|by destruct (is_not_found e)]);
    (destruct (path_starts_with q root) eqn:Hs; [|done]); (destruct (is_file q) eqn:Hf; [|done]); cbn [negb orb] in Hresponse;
    destruct (canonical_below _ _ _ _ Hq Hroot Hs) as (rn & rest & -> & Hr & ->); exists rn, rest.
  - destruct (read (absolute (rn ++ rest))) as [b|e] eqn:Hb; [|done]. injection Hresponse as <- <-. split_and!; try done. by right.
  - injection Hresponse as <- <-. split_and!; try done. by left.
Qed.

Lemma view_components_names view cs : view_components view cs = Ok tt ->
  exists names, cs = Component.Normal <$> names /\ Forall (fun n => n <> "" /\ forallb view_byte (as_bytes n) = true) names.
Proof.
  induction cs as [|c cs IH]; [by exists []|]. destruct c; try done. cbn [view_components].
  destruct (String.eqb_spec name "") as [|Hn]; [done|]. destruct (forallb view_byte (as_bytes name)) eqn:Hb; [|done]. cbn [orb negb].
  intros H. apply IH in H as (names & -> & Hns). exists (name :: names). split; [done|by constructor].
Qed.

(** The template of a view is below the canonical [app/Views], and the name
    of the view is made of letters, digits, [_] and [-]. *)
Theorem view_template_contained (root view path : string) (Hview : resolve_view_template_path root view = Ok path) :
  exists names base rest, components view = Component.Normal <$> names /\
    Forall (fun n => n <> "" /\ forallb view_byte (as_bytes n) = true) names /\ normal_names (base ++ rest) /\
    canonicalize (views_dir root) = inl (absolute base) /\
    canonicalize (join (views_dir root) (view ++ ".html")) = inl path /\ path = absolute (base ++ rest).
Proof.
  unfold resolve_view_template_path in Hview. apply rbind_Ok in Hview as ([] & Hv & Hview). unfold validate_view_name in Hv.
  destruct (String.eqb view "" || contains_byte backslash view); [done|]. destruct (is_absolute view); [done|].
  apply view_components_names in Hv as (names & -> & Hn). exists names.
  destruct (canonicalize (views_dir root)) as [base|] eqn:Hb; [|done].
  destruct (canonicalize (join (views_dir root) (view ++ ".html"))) as [q|] eqn:Hq; [|done].
  destruct (path_starts_with q base) eqn:Hs; [|done]. injection Hview as <-.
  destruct (canonical_below _ _ _ _ Hq Hb Hs) as (rn & rest & -> & Hr & ->). by exists rn, rest.
Qed.
End files.

#[local] Instance all_found : IoErrors := { is_not_found _ := false; io_error_text _ := "" }.

Example static_files_contained_witness : 
  let body := as_bytes (quoted "~b~ import" ++ from_bytes [newline] ++ "2 print") in
  static_asset_response (H := Example_.files false) (mkStaticFiles "/assets" "/p") "GET" "/assets/%61.rco" =
    Ok (Some (StaticResponse.Asset "application/octet-stream" body)) /\
  exists path, is_file (FileSystem := Example_.files false) path = true /\ read (FileSystem := Example_.files false) path = inl body.
Proof.
  intros body. assert (static_asset_response (H := Example_.files false) (mkStaticFiles "/assets" "/p") "GET" "/assets/%61.rco" =
    Ok (Some (StaticResponse.Asset "application/octet-stream" body))) as Hr by (vm_compute; reflexivity).
  split; [exact Hr|]. destruct (static_files_contained (fs := Example_.files false) (laws := example_laws false) _ _ _ _ _ Hr)
    as (names & root & rest & _ & _ & _ & _ & Hf & _ & [[Hm _]|[_ Hb]]); [discriminate Hm|].
  exists (absolute (root ++ rest)). split; [exact Hf|exact Hb].
Defined.
