(* ===== verification/WebCapabilities.v ===== *)
(** * Served applications and what they may do

    The manifest of [crates/ricochet_web/src/manifest.rs] and the options of the
    operator: how [apply_manifest_capabilities] of
    [crates/ricochet_web/src/server.rs] combines them, and the host policy that
    [compose_serve_capability_vm_setup] gives each machine. *)

From stdpp Require Import base tactics list strings option numbers.
From Stdlib Require Import ZArith NArith Lia Ascii String.
From S2P Require Import Prelude RustStr RustText RustPath Lexer BTree Expander Imports ImportsProofs Value VmState VmHost SandboxError.
From S2P Require Import SandboxDestination WebRouter WebCoding WebStatic.

Open Scope string_scope.
Open Scope list_scope.
Open Scope nat_scope.

(** ** Data *)

(** [web.capabilities] of the manifest. *)
Record WebCapabilities : Type := mkCapabilities {
  cap_fs_root : option string; cap_fs_readonly : bool; cap_allow_env : bool; cap_env_allow : list string;
  cap_allow_process : bool; cap_process_root : option string; cap_allow_pty : bool; cap_http_allow_hosts : list string }.

Definition default_capabilities : WebCapabilities := mkCapabilities None false false [] false None false [].

Record Uploads : Type := mkUploads {
  max_request_bytes : N; max_file_bytes : N; memory_threshold_bytes : N; max_retained_streams : N }.

Definition default_uploads : Uploads := mkUploads (16 * 1024 * 1024) (16 * 1024 * 1024) (1024 * 1024) 64.

Record ServeOptions : Type := mkServe {
  host_address : string; port_number : N; debug_mode : bool; watch : bool; allow_env : bool; env_allow : list string;
  allow_process : bool; serve_process_root : option string; allow_pty : bool; fs_root : option string; fs_readonly : bool;
  sqlite_data_root : option string; http_allow_hosts : list string; http_destinations : list DestinationGrant;
  ai_allow_hosts : list string; database_allow_hosts : list string; max_controller_instructions : N }.

Definition DEFAULT_MAX_CONTROLLER_INSTRUCTIONS : N := 1000000.

Definition default_serve : ServeOptions :=
  mkServe "127.0.0.1" 3000 false false false [] false None false None false None [] [] [] [] DEFAULT_MAX_CONTROLLER_INSTRUCTIONS.

Definition bind_addr (o : ServeOptions) : string := (host_address o ++ ":" ++ show_N (port_number o))%string.

Definition web_bail {A : Type} (m : msg) : res web_error A := Err [m].

Definition validate_serve (o : ServeOptions) : res web_error unit :=
  if (max_controller_instructions o =? 0)%N then web_bail [Lit "--max-controller-instructions must be greater than 0"]
  else if fs_readonly o && negb (match fs_root o with Some _ => true | None => false end) then web_bail [Lit "--fs-readonly requires --fs-root"]
  else if match sqlite_data_root o with Some root => negb (is_absolute root) | None => false end
       then web_bail [Lit "SQLite data root must be an absolute path"]
  else Ok tt.

(** ** Limits of the manifest *)

Definition validate_upload_config (config : Uploads) : res web_error unit :=
  if (max_request_bytes config =? 0)%N then web_bail [Lit "web.uploads.max_request_bytes must be greater than 0"]
  else if (max_file_bytes config =? 0)%N then web_bail [Lit "web.uploads.max_file_bytes must be greater than 0"]
  else if (9223372036854775807 <? max_file_bytes config)%N then web_bail [Lit "web.uploads.max_file_bytes must fit in a Ricochet integer"]
  else if (max_file_bytes config <? memory_threshold_bytes config)%N
       then web_bail [Lit "web.uploads.memory_threshold_bytes must be less than or equal to max_file_bytes"]
  else if (max_retained_streams config =? 0)%N then web_bail [Lit "web.uploads.max_retained_streams must be greater than 0"]
  else Ok tt.

Definition validate_controller_instruction_limit (limit deployment_maximum : N) : res web_error N :=
  if (deployment_maximum =? 0)%N then web_bail [Lit "--max-controller-instructions must be greater than 0"]
  else if (limit =? 0)%N then web_bail [Lit "web.controller_instruction_limit must be greater than 0"]
  else if (deployment_maximum <? limit)%N
       then web_bail [Lit "web.controller_instruction_limit "; DispN limit; Lit " exceeds deployment maximum "; DispN deployment_maximum;
                      Lit " from --max-controller-instructions"]
  else Ok limit.

(** ** Texts with environment variables *)

Definition allowed_env_set (o : ServeOptions) : option (list string) := if allow_env o then None else Some (env_allow o).

Section env.
Context `{Environment}.

(** Each round goes past a variable. *)
Fixpoint expand_from (fuel : nat) (value context : string) (allowed_env : option (list string)) : res web_error string :=
  match fuel with
  | O => OutOfFuel
  | S fuel' =>
      match string_find "${" value with
      | None => Ok value
      | Some start =>
          let before := substring 0 start value in
          let variable_start := start + 2 in
          let tail := substring variable_start (String.length value - variable_start) value in
          match string_find "}" tail with
          | None => web_bail [Lit "unterminated environment variable in "; Disp context]
          | Some relative_end =>
              let variable := substring 0 relative_end tail in
              if String.eqb variable "" then web_bail [Lit "empty environment variable in "; Disp context]
              else if match allowed_env with Some names => negb (member variable names) | None => false end
                   then web_bail [Disp context; Lit " environment variable "; Disp variable; Lit " is not allowed by serve policy"]
              else match env_var variable with
                   | inr error => Err [[Disp context; Lit " environment variable "; Disp variable; Lit " is not set"]; [Lit error]]
                   | inl replacement =>
                       let remaining := substring (S relative_end) (String.length tail - S relative_end) tail in
                       let? output := expand_from fuel' remaining context allowed_env in
                       Ok (before ++ replacement ++ output)%string
                   end
          end
      end
  end.

Definition expand_environment_variables_with_policy (value context : string) (allowed_env : option (list string)) : res web_error string :=
  expand_from (S (String.length value)) value context allowed_env.

(** [Session::resolve_secret]. *)
Definition resolve_secret (variable : option string) (field description : string) : res web_error (option string) :=
  match variable with
  | None => Ok None
  | Some variable =>
      if String.eqb variable "" then web_bail [Lit "session "; Disp field; Lit " must not be empty"]
      else match env_var variable with
           | inr error => Err [[Lit "session "; Disp description; Lit " environment variable "; Disp variable; Lit " is not set"]; [Lit error]]
           | inl secret =>
               if String.eqb secret "" then web_bail [Lit "session "; Disp description; Lit " environment variable "; Disp variable; Lit " is empty"]
               else Ok (Some secret)
           end
  end.
End env.

(** ** Hosts *)

Fixpoint any_allowed (host : string) (allowed : list string) : res web_error bool :=
  match allowed with
  | [] => Ok false
  | a :: allowed' =>
      let? a := trim a in
      if eq_ignore_ascii_case a host then Ok true else any_allowed host allowed'
  end.

Definition host_allowed_by_policy (host : string) (allowed : list string) : res web_error bool :=
  let? host := trim host in
  let host := to_ascii_lowercase host in
  if String.eqb host "" then Ok false else any_allowed host allowed.

Fixpoint ensure_manifest_hosts_allowed (requested allowed : list string) (label flag : string) : res web_error unit :=
  match requested with
  | [] => Ok tt
  | host :: requested' =>
      let? ok := host_allowed_by_policy host allowed in
      if negb ok then web_bail [Lit "manifest requests "; Disp label; Lit " host "; Disp host; Lit "; rerun with "; Disp flag; Lit " "; Disp host; Lit " to grant it"]
      else ensure_manifest_hosts_allowed requested' allowed label flag
  end.

(** ** Names *)

Fixpoint names_allowed (names allowed : list string) : res web_error unit :=
  match names with
  | [] => Ok tt
  | name :: names' =>
      if negb (member name allowed)
      then web_bail [Lit "manifest requests environment variable "; Disp name; Lit "; rerun with --env-allow "; Disp name; Lit " to grant it"]
      else names_allowed names' allowed
  end.

Definition ensure_manifest_env_allowed (names : list string) (o : ServeOptions) : res web_error unit :=
  if allow_env o then Ok tt else names_allowed names (env_allow o).

(** ** Paths of the manifest *)

Fixpoint relative_components (label : string) (cs : list Component) : res web_error unit :=
  match cs with
  | [] => Ok tt
  | Component.Normal _ :: cs' | Component.CurDir :: cs' => relative_components label cs'
  | Component.ParentDir :: _ => web_bail [Disp label; Lit " must not contain .. components"]
  | Component.RootDir :: _ => web_bail [Disp label; Lit " must be relative to the project root"]
  end.

Definition resolve_manifest_relative_path (project_root value label : string) : res web_error string :=
  if contains_byte backslash value then web_bail [Disp label; Lit " must use forward slashes"]
  else if is_absolute value then web_bail [Disp label; Lit " must be relative to the project root"]
  else let? _ := relative_components label (components value) in Ok (join project_root value).

Section paths.
Context `{FileSystem} `{PathExists}.

Definition nearest_existing_ancestor (path : string) : string := default "." (List.find path_exists (ancestors path)).

Definition fs_context {A : Type} (m : msg) (r : A + msg) : res web_error A :=
  match r with inl a => Ok a | inr e => Err [m; e] end.

Definition ensure_manifest_path_within_operator_root (operator_root candidate label grant : string) : res web_error unit :=
  let? canonical_root := fs_context [Lit "failed to resolve "; Disp grant; Lit " "; Disp operator_root] (canonicalize operator_root) in
  let? existing := fs_context [Lit "failed to resolve "; Disp label; Lit " "; Disp candidate] (canonicalize (nearest_existing_ancestor candidate)) in
  if negb (path_starts_with existing canonical_root)
  then web_bail [Disp label; Lit " must stay within "; Disp grant; Lit ": "; Disp candidate]
  else Ok tt.

(** One path of the manifest: the root that takes the operator's place. *)
Definition apply_manifest_path (project_root : string) (requested operator : option string) (label grant refused : string)
    : res web_error (option string) :=
  match requested with
  | None => Ok operator
  | Some root =>
      match operator with
      | None => web_bail [Lit refused]
      | Some operator_root =>
          let? manifest_root := resolve_manifest_relative_path project_root root label in
          let? _ := ensure_manifest_path_within_operator_root operator_root manifest_root label grant in
          Ok (Some manifest_root)
      end
  end.

Definition apply_manifest_paths (project_root : string) (capabilities : WebCapabilities) (operator : ServeOptions)
    : res web_error (option string * option string) :=
  let? fs := apply_manifest_path project_root (cap_fs_root capabilities) (fs_root operator) "manifest fs_root" "--fs-root"
    "manifest requests web.capabilities.fs_root; rerun with --fs-root to grant filesystem access" in
  let? process := apply_manifest_path project_root (cap_process_root capabilities) (serve_process_root operator) "manifest process_root" "--process-root"
    "manifest requests web.capabilities.process_root; rerun with --process-root to grant process access" in
  Ok (fs, process).

(** A switch that the manifest may only ask for when the operator gave it. *)
Definition apply_switch (requested granted : bool) (refused : string) : res web_error bool :=
  if requested then (if negb granted then web_bail [Lit refused] else Ok true) else Ok granted.

Definition apply_manifest_capabilities (project_root : string) (capabilities : WebCapabilities) (o : ServeOptions) : res web_error ServeOptions :=
  let? (effective_fs_root, effective_process_root) := apply_manifest_paths project_root capabilities o in
  let effective_readonly := if cap_fs_readonly capabilities then true else fs_readonly o in
  let? effective_allow_env := apply_switch (cap_allow_env capabilities) (allow_env o)
    "manifest requests web.capabilities.allow_env; rerun with --allow-env to grant it" in
  let? effective_env_allow :=
    match cap_env_allow capabilities with
    | [] => Ok (env_allow o)
    | names =>
        let? _ := ensure_manifest_env_allowed names o in
        Ok (if negb (allow_env o) then names else env_allow o)
    end in
  let? effective_process := apply_switch (cap_allow_process capabilities) (allow_process o)
    "manifest requests web.capabilities.allow_process; rerun with --allow-process to grant it" in
  let? effective_pty := apply_switch (cap_allow_pty capabilities) (allow_pty o)
    "manifest requests web.capabilities.allow_pty; rerun with --allow-pty to grant it" in
  let? effective_hosts :=
    match cap_http_allow_hosts capabilities with
    | [] => Ok (http_allow_hosts o)
    | hosts => let? _ := ensure_manifest_hosts_allowed hosts (http_allow_hosts o) "HTTP" "--http-allow-host" in Ok hosts
    end in
  Ok (mkServe (host_address o) (port_number o) (debug_mode o) (watch o) effective_allow_env effective_env_allow effective_process
        effective_process_root effective_pty effective_fs_root effective_readonly (sqlite_data_root o) effective_hosts (http_destinations o)
        (ai_allow_hosts o) (database_allow_hosts o) (max_controller_instructions o)).

(** ** The policy of a machine *)

Definition capability_root (grant : string) (root : option string) : res web_error (option string) :=
  match root with
  | None => Ok None
  | Some root =>
      let? canonical := fs_context [Lit "failed to resolve "; Disp grant; Lit " "; Disp root] (canonicalize root) in
      if negb (is_dir canonical) then web_bail [Disp grant; Lit " must be a directory: "; Disp canonical]
      else Ok (Some canonical)
  end.

(** What the setup does to the policy of a machine, and the names of the
    capabilities it adds to the context; registries are left out. *)
Definition compose_serve_capability_vm_setup (project_root : string) (o : ServeOptions)
    : res web_error ((HostRuntimeState -> HostRuntimeState) * list (string * Capability)) :=
  let? root := capability_root "--fs-root" ((fun root => if is_absolute root then root else join project_root root) <$> fs_root o) in
  let? process_root := capability_root "--process-root" (serve_process_root o) in
  let allow_env_any := allow_env o || negb (match env_allow o with [] => true | _ => false end) in
  let hosts_given := negb (match http_allow_hosts o with [] => true | _ => false end) in
  Ok (fun p =>
        let p := set_environment_enabled allow_env_any p in
        let p := if allow_env o || match env_allow o with [] => true | _ => false end
                 then clear_environment_allowed_names p else set_environment_allowed_names (env_allow o) p in
        let p := set_host_capabilities (match root with Some _ => true | None => false end) hosts_given p in
        let p := set_process_enabled (allow_process o) p in
        let p := set_pty_enabled (allow_pty o) p in
        let p := match process_root with Some r => set_process_root r p | None => p end in
        let p := match root with
                 | Some r =>
                     let p := set_filesystem_root r p in
                     if fs_readonly o then set_filesystem_writes_enabled false p else p
                 | None => p
                 end in
        if hosts_given then set_http_allowed_hosts (http_allow_hosts o) p else p,
      (if allow_process o then [("process", Capability.Process)] else [])
      ++ (match root with Some _ => [("fs", Capability.FileSystem)] | None => [] end)
      ++ (if hosts_given then [("http", Capability.Http)] else [])).

(** The policy of a machine of an application whose manifest is [capabilities],
    as [build_served_app_from_dir] and [ServeBuilder] make it. *)
Definition served_policy (project_root : string) (capabilities : WebCapabilities) (o : ServeOptions)
    : res web_error ((HostRuntimeState -> HostRuntimeState) * list (string * Capability)) :=
  let? effective := apply_manifest_capabilities project_root capabilities o in
  let? _ := validate_serve effective in
  compose_serve_capability_vm_setup project_root effective.
End paths.

(** * Served applications, proved

    Whatever the manifest of an application asks for, its machines may do no
    more than the operator grants. *)

Lemma member_In name names : member name names = true <-> name ∈ names.
Proof.
  unfold member. rewrite existsb_exists. split.
  - intros (x & Hx & ->%String.eqb_eq). by apply list_elem_of_In.
  - intros H. exists name. split; [by apply list_elem_of_In|apply String.eqb_refl].
Qed.

(** ** What the manifest may ask for *)

Lemma names_allowed_spec names allowed : names_allowed names allowed = Ok tt -> Forall (fun n => n ∈ allowed) names.
Proof.
  induction names as [|n names IH]; [constructor|]. cbn [names_allowed]. destruct (member n allowed) eqn:Hm; [|done]. cbn [negb].
  intros H. constructor; [by apply member_In|auto].
Qed.

(** The same host, but for its case and the white space around it. *)
Definition same_host (a b : string) : Prop := exists x y, trim (E:=web_error) a = Ok x /\ trim (E:=web_error) b = Ok y /\
  to_ascii_lowercase x = to_ascii_lowercase (to_ascii_lowercase y).

Lemma any_allowed_spec host allowed : any_allowed host allowed = Ok true ->
  exists a x, a ∈ allowed /\ trim (E:=web_error) a = Ok x /\ to_ascii_lowercase x = to_ascii_lowercase host.
Proof.
  induction allowed as [|a allowed IH]; [done|]. cbn [any_allowed]. destruct (trim a) as [x| | |] eqn:Hx; try done. cbn [rbind].
  unfold eq_ignore_ascii_case. destruct (String.eqb_spec (to_ascii_lowercase x) (to_ascii_lowercase host)) as [He|_].
  - intros _. exists a, x. split; [left|done].
  - intros H. apply IH in H as (a' & x' & Hin & ? & ?). exists a', x'. split; [by right|done].
Qed.

Lemma hosts_allowed_spec requested allowed label flag : ensure_manifest_hosts_allowed requested allowed label flag = Ok tt ->
  Forall (fun h => exists a, a ∈ allowed /\ same_host a h) requested.
Proof.
  induction requested as [|h requested IH]; [constructor|]. cbn [ensure_manifest_hosts_allowed]. intros H. apply rbind_Ok in H as (ok & Ho & H).
  destruct ok; [|done]. constructor; [|auto]. unfold host_allowed_by_policy in Ho. apply rbind_Ok in Ho as (y & Hy & Ho).
  destruct (String.eqb (to_ascii_lowercase y) ""); [done|]. apply any_allowed_spec in Ho as (a & x & Hin & Hx & He). exists a. split; [done|]. by exists x, y.
Qed.

Lemma apply_switch_spec requested granted refused b : apply_switch requested granted refused = Ok b -> b = granted.
Proof. unfold apply_switch. by destruct requested, granted; inversion 1. Qed.

Section paths.
Context {fs : FileSystem} {laws : FileSystemLaws fs} {ex : PathExists} {ex_laws : PathExistsLaws fs ex}.

(** A root that exists is where the operator's is, or below it. *)
Lemma manifest_path_spec project_root requested operator label grant refused root :
  apply_manifest_path project_root requested operator label grant refused = Ok root ->
  root = operator \/ exists operator_root manifest_root canonical_root, operator = Some operator_root /\ root = Some manifest_root /\
    (is_absolute project_root = true -> is_absolute manifest_root = true) /\ canonicalize operator_root = inl canonical_root /\
    forall q, canonicalize manifest_root = inl q -> path_starts_with q canonical_root = true.
Proof.
  unfold apply_manifest_path. destruct requested as [value|]; [|intros [= <-]; by left]. destruct operator as [operator_root|]; [|done].
  intros H. right. apply rbind_Ok in H as (manifest_root & Hm & H). apply rbind_Ok in H as ([] & He & [= <-]).
  unfold ensure_manifest_path_within_operator_root, fs_context in He. destruct (canonicalize operator_root) as [cr|] eqn:Hcr; [|done]. cbn [rbind] in He.
  exists operator_root, manifest_root, cr. split_and!; try done.
  - unfold resolve_manifest_relative_path in Hm. destruct (contains_byte backslash value); [done|]. destruct (is_absolute value) eqn:Hv; [done|].
    apply rbind_Ok in Hm as ([] & _ & [= <-]). intros Hp. pose proof (join_absolute_is value project_root Hp) as Hj. by rewrite Hv in Hj.
  - intros q Hq. assert (nearest_existing_ancestor manifest_root = manifest_root) as Hn.
    { unfold nearest_existing_ancestor, ancestors. assert (path_exists manifest_root = true) as Hpe by (apply exists_canonical; by exists q).
      destruct (String.length manifest_root); cbn [ancestors_from List.find]; by rewrite Hpe. }
    rewrite Hn, Hq in He. cbn [rbind] in He. by destruct (path_starts_with q cr).
Qed.
End paths.

(** ** Theorems *)

Definition readable (p : HostRuntimeState) (name : string) : Prop := environment_enabled p = true /\ environment_denied p name = false.

(** Grants of [p] are grants of [p']; a root of [p] is a root of [p'] or below it. *)
Record narrows (p p' : HostRuntimeState) : Prop := mkNarrows {
  narrows_env name : readable p name -> readable p' name;
  narrows_process : host_process_enabled p = true -> host_process_enabled p' = true;
  narrows_pty : pty_enabled p = true -> pty_enabled p' = true;
  narrows_http : net_http_enabled p = true -> net_http_enabled p' = true;
  narrows_files : fs_enabled p = true -> fs_enabled p' = true;
  narrows_writes : filesystem_writes_enabled p = true -> filesystem_writes_enabled p' = true;
  narrows_root root' : filesystem_root p' = Some root' -> exists root, filesystem_root p = Some root /\ path_starts_with root root' = true;
  narrows_process_root root' : process_root p' = Some root' -> exists root, process_root p = Some root /\ path_starts_with root root' = true }.

Section compose.
Context {fs : FileSystem} {laws : FileSystemLaws fs} {ex : PathExists} {ex_laws : PathExistsLaws fs ex}.

Lemma capability_root_spec grant root r : capability_root grant root = Ok r ->
  match root, r with
  | Some path, Some c => canonicalize path = inl c
  | None, None => True
  | _, _ => False
  end.
Proof.
  unfold capability_root, fs_context. destruct root as [path|]; [|by intros [= <-]]. destruct (canonicalize path) as [c|] eqn:Hc; [|done]. cbn [rbind].
  destruct (is_dir c); [|done]. by intros [= <-].
Qed.

Lemma starts_with_refl q : (exists p, canonicalize p = inl q) -> path_starts_with (normalize_path q) (normalize_path q) = true.
Proof.
  intros [p Hp]. destruct (canonicalize_normal _ _ Hp) as (names & Hn & ->). rewrite normalize_normal by done. by apply starts_with_absolute.
Qed.

Lemma starts_with_normal q c : (exists p, canonicalize p = inl q) -> (exists p, canonicalize p = inl c) -> path_starts_with q c = true ->
  path_starts_with (normalize_path q) (normalize_path c) = true.
Proof.
  intros [p Hp] [d Hd]. destruct (canonicalize_normal _ _ Hp) as (names & Hn & ->), (canonicalize_normal _ _ Hd) as (base & Hb & ->).
  by rewrite !normalize_normal.
Qed.

(** The fields of the policy that [compose] makes. *)
Lemma composed_fields project_root o policy names : compose_serve_capability_vm_setup project_root o = Ok (policy, names) ->
  exists root proot,
    capability_root "--fs-root" ((fun root => if is_absolute root then root else join project_root root) <$> fs_root o) = Ok root /\
    capability_root "--process-root" (serve_process_root o) = Ok proot /\
    let p := policy default_host in
    environment_enabled p = allow_env o || negb (match env_allow o with [] => true | _ => false end) /\
    environment_allowed_names p = (if allow_env o || match env_allow o with [] => true | _ => false end then None else Some (env_allow o)) /\
    host_process_enabled p = allow_process o /\ pty_enabled p = allow_pty o /\ net_http_enabled p = negb (match http_allow_hosts o with [] => true | _ => false end) /\
    http_allowed_hosts p = (if negb (match http_allow_hosts o with [] => true | _ => false end) then Some (to_ascii_lowercase <$> http_allow_hosts o) else None) /\
    fs_enabled p = match root with Some _ => true | None => false end /\
    fs_writes_enabled p = match root with Some _ => negb (fs_readonly o) | None => false end /\
    filesystem_root p = normalize_path <$> root /\ process_root p = normalize_path <$> proot.
Proof.
  intros H. apply rbind_Ok in H as (root & Hr & H). apply rbind_Ok in H as (proot & Hp & [= <- <-]). exists root, proot. split; [done|]. split; [done|].
  cbn zeta. destruct root as [r|], proot as [pr|], (allow_env o), (env_allow o), (http_allow_hosts o), (fs_readonly o); cbn; split_and!; reflexivity.
Qed.
End compose.

Section narrow.
Context {fs : FileSystem} {laws : FileSystemLaws fs} {ex : PathExists} {ex_laws : PathExistsLaws fs ex}.

(** What the effective options are, of the operator's. *)
Lemma effective_spec project_root capabilities o effective : apply_manifest_capabilities project_root capabilities o = Ok effective ->
  exists froot proot env,
    apply_manifest_path project_root (cap_fs_root capabilities) (fs_root o) "manifest fs_root" "--fs-root"
      "manifest requests web.capabilities.fs_root; rerun with --fs-root to grant filesystem access" = Ok froot /\
    apply_manifest_path project_root (cap_process_root capabilities) (serve_process_root o) "manifest process_root" "--process-root"
      "manifest requests web.capabilities.process_root; rerun with --process-root to grant process access" = Ok proot /\
    fs_root effective = froot /\ serve_process_root effective = proot /\ (fs_readonly o = true -> fs_readonly effective = true) /\
    allow_env effective = allow_env o /\ env_allow effective = env /\ (allow_env o = false -> Forall (fun n => n ∈ env_allow o) env) /\
    allow_process effective = allow_process o /\ allow_pty effective = allow_pty o /\
    Forall (fun h => h ∈ http_allow_hosts o \/ exists a, a ∈ http_allow_hosts o /\ same_host a h) (http_allow_hosts effective) /\
    http_destinations effective = http_destinations o /\ max_controller_instructions effective = max_controller_instructions o.
Proof.
  intros H. unfold apply_manifest_capabilities in H. apply rbind_Ok in H as ([froot proot] & Hpaths & H).
  apply rbind_Ok in Hpaths as (f & Hf & Hpaths). apply rbind_Ok in Hpaths as (q & Hq & [= -> ->]).
  apply rbind_Ok in H as (ae & Hae & H). apply rbind_Ok in H as (en & Hen & H). apply rbind_Ok in H as (pr & Hpr & H).
  apply rbind_Ok in H as (pt & Hpt & H). apply rbind_Ok in H as (hosts & Hhosts & [= <-]).
  apply apply_switch_spec in Hae as ->, Hpr as ->, Hpt as ->. exists froot, proot, en. cbn. split_and!; try done.
  - by destruct (cap_fs_readonly capabilities).
  - intros Hno. destruct (cap_env_allow capabilities) as [|n names] eqn:Hn.
    + injection Hen as <-. by apply list.Forall_forall.
    + apply rbind_Ok in Hen as ([] & He & [= <-]). unfold ensure_manifest_env_allowed in He. rewrite Hno in *. by apply names_allowed_spec.
  - destruct (cap_http_allow_hosts capabilities) as [|h hs] eqn:Hh.
    + injection Hhosts as <-. apply list.Forall_forall. auto.
    + apply rbind_Ok in Hhosts as ([] & He & [= <-]). apply hosts_allowed_spec in He. eapply list.Forall_impl; [exact He|]. auto.
Qed.

(** A root and the operator's, as the machine has them. *)
Lemma root_narrows project_root requested operator label grant refused root (place : string -> string) c c' :
  apply_manifest_path project_root requested operator label grant refused = Ok root ->
  (root <> operator -> (forall m, root = Some m -> canonicalize (place m) = canonicalize m) /\
     forall r, operator = Some r -> canonicalize (place r) = canonicalize r) ->
  match place <$> root, c with Some path, Some q => canonicalize path = inl q | None, None => True | _, _ => False end ->
  match place <$> operator, c' with Some path, Some q => canonicalize path = inl q | None, None => True | _, _ => False end ->
  forall r', normalize_path <$> c' = Some r' -> exists r, normalize_path <$> c = Some r /\ path_starts_with r r' = true.
Proof.
  intros Ha Hplace Hc Hc' r' Hr'. destruct c' as [c'|]; [|done]. injection Hr' as <-. destruct operator as [op|]; [|done]. simpl in Hc'.
  apply manifest_path_spec in Ha as [->|(op' & m & cr & [= <-] & -> & _ & Hcr & Hq)].
  - destruct c as [c|]; [|done]. simpl in Hc. rewrite Hc in Hc'. injection Hc' as <-. exists (normalize_path c). split; [done|]. apply starts_with_refl. by eexists.
  - destruct c as [c|]; [|done]. simpl in Hc. exists (normalize_path c). split; [done|].
    destruct (decide (Some m = Some op)) as [[= ->]|Hne]; [rewrite Hc in Hc'; injection Hc' as <-; apply starts_with_refl; by eexists|].
    destruct Hplace as [Hm Ho]; [done|]. rewrite (Hm m) in Hc by done. rewrite (Ho op) in Hc' by done. rewrite Hcr in Hc'. injection Hc' as <-.
    apply starts_with_normal; [by eexists|by eexists|by apply Hq].
Qed.
End narrow.

(** The root of files that the manifest asks for is checked as the directory
    that the machine is given later: there is no such root, the roots are
    absolute, or the project is in the current directory and [./p] is [p]. *)
Definition settled_root `{FileSystem} (project_root : string) (capabilities : WebCapabilities) (o : ServeOptions) : Prop :=
  cap_fs_root capabilities = None \/
  is_absolute project_root = true /\ (forall root, fs_root o = Some root -> is_absolute root = true) \/
  project_root = "." /\ forall p, is_absolute p = false -> canonicalize (join "." p) = canonicalize p.

Lemma settled_places {fs : FileSystem} {ex : PathExists} project_root capabilities o label grant refused root :
  settled_root project_root capabilities o ->
  apply_manifest_path project_root (cap_fs_root capabilities) (fs_root o) label grant refused = Ok root -> root <> fs_root o ->
  let place path := if is_absolute path then path else join project_root path in
  (forall m, root = Some m -> canonicalize (place m) = canonicalize m) /\
  forall r, fs_root o = Some r -> canonicalize (place r) = canonicalize r.
Proof.
  intros Hs Hf Hne place. destruct Hs as [Hno|[[Hp Ho]|[-> Hdot]]].
  - rewrite Hno in Hf. injection Hf as <-. done.
  - split; [|intros r Hr; unfold place; by rewrite (Ho r Hr)]. intros m ->. unfold place. replace (is_absolute m) with true; [done|].
    unfold apply_manifest_path in Hf. destruct (cap_fs_root capabilities) as [value|]; [|by injection Hf as Hf]. destruct (fs_root o); [|done].
    apply rbind_Ok in Hf as (m' & Hm & Hf). apply rbind_Ok in Hf as ([] & _ & [= <-]).
    unfold resolve_manifest_relative_path in Hm. destruct (contains_byte backslash value); [done|]. destruct (is_absolute value) eqn:Hv; [done|].
    apply rbind_Ok in Hm as ([] & _ & [= <-]). pose proof (join_absolute_is value project_root Hp) as Hj. by rewrite Hv in Hj.
  - split; intros r _; unfold place; (destruct (is_absolute r) eqn:Hr; [done|by apply Hdot]).
Qed.

(** C19: whatever the manifest asks for, a machine of the application may do no
    more than the options of the operator grant: no other variable of the
    environment, no process, pseudo-terminal, file or network access that was
    not given, and roots at or below the operator's; hosts that it names are
    the operator's.  The root of files is only checked as the directory that is
    given if the manifest asks for none, or the project root and the operator's
    root are absolute, or the project root is the current directory, [.]. *)
Theorem manifest_narrows (fs : FileSystem) (laws : FileSystemLaws fs) (ex : PathExists) (ex_laws : PathExistsLaws fs ex)
    (project_root : string) (capabilities : WebCapabilities) (o effective : ServeOptions) (policy operator_policy : HostRuntimeState -> HostRuntimeState)
    (names operator_names : list (string * Capability))
    (Hsettled : settled_root project_root capabilities o)
    (Heffective : apply_manifest_capabilities project_root capabilities o = Ok effective)
    (Hpolicy : compose_serve_capability_vm_setup project_root effective = Ok (policy, names))
    (Hoperator : compose_serve_capability_vm_setup project_root o = Ok (operator_policy, operator_names)) :
  narrows (policy default_host) (operator_policy default_host) /\ names ⊆ operator_names /\
  Forall (fun h => h ∈ http_allow_hosts o \/ exists a, a ∈ http_allow_hosts o /\ same_host a h) (http_allow_hosts effective) /\
  http_destinations effective = http_destinations o /\ max_controller_instructions effective = max_controller_instructions o.
Proof.
  destruct (effective_spec _ _ _ _ Heffective) as (froot & proot & env & Hf & Hp & Ef & Ep & Hro & Eae & Een & Hen & Epr & Ept & Hhosts & Edst & Emax).
  destruct (composed_fields _ _ _ _ Hpolicy) as (r & q & Hr & Hq & Fe & Fn & Fp & Ft & Fh & _ & Ff & Fw & Froot & Fproot).
  destruct (composed_fields _ _ _ _ Hoperator) as (r' & q' & Hr' & Hq' & Fe' & Fn' & Fp' & Ft' & Fh' & _ & Ff' & Fw' & Froot' & Fproot').
  set (p := policy default_host) in *. set (p' := operator_policy default_host) in *.
  pose proof (capability_root_spec _ _ _ Hr) as Sr. pose proof (capability_root_spec _ _ _ Hr') as Sr'.
  pose proof (capability_root_spec _ _ _ Hq) as Sq. pose proof (capability_root_spec _ _ _ Hq') as Sq'. rewrite Ef in Sr. rewrite Ep in Sq.
  assert (froot <> None -> fs_root o <> None) as Hfr.
  { intros Hne Hno. apply manifest_path_spec in Hf as [->|(? & ? & ? & Hs & _)]; [done|congruence]. }
  assert (Hroots : match r with Some _ => true | None => false end = true -> match r' with Some _ => true | None => false end = true).
  { destruct r as [r|]; [|done]. destruct r'; [done|]. destruct froot as [froot|]; [|done]. destruct (fs_root o); [done|]. by destruct Hfr. }
  assert (http_allow_hosts effective <> [] -> http_allow_hosts o <> []) as Hh.
  { intros Hne Hno. rewrite Hno in Hhosts. destruct (http_allow_hosts effective) as [|h hs]; [done|].
    apply Forall_cons_1 in Hhosts as [[Hin|(a & Hin & _)] _]; by apply elem_of_nil in Hin. }
  assert (negb match http_allow_hosts effective with [] => true | _ => false end = true -> negb match http_allow_hosts o with [] => true | _ => false end = true) as Hhb.
  { destruct (http_allow_hosts effective); [done|]. destruct (http_allow_hosts o); [by destruct Hh|done]. }
  split_and!; [split| |done|done|done].
  - intros name [He Hd]. unfold readable, environment_denied in *. rewrite Fe, Fn, Een, Eae in *. rewrite Fe', Fn'. destruct (allow_env o); [done|]. specialize (Hen eq_refl).
    cbn [orb] in *. destruct env as [|n env]; [done|]. destruct (env_allow o) as [|n' names']; [apply Forall_cons_1 in Hen as [Hin _]; by apply elem_of_nil in Hin|].
    split; [done|]. apply negb_false_iff in Hd. apply negb_false_iff, member_In. apply member_In in Hd. by apply (proj1 (list.Forall_forall _ _) Hen).
  - by rewrite Fp, Fp', Epr.
  - by rewrite Ft, Ft', Ept.
  - by rewrite Fh, Fh'.
  - by rewrite Ff, Ff'.
  - unfold filesystem_writes_enabled. rewrite Ff, Fw, Ff', Fw'. intros [H1 H2]%andb_true_iff. apply andb_true_iff. split; [auto|].
    destruct r as [r|]; [|done]. specialize (Hroots eq_refl). destruct r'; [|done]. destruct (fs_readonly o); [by rewrite Hro in H2|done].
  - intros root' H. rewrite Froot' in H. rewrite Froot. revert H.
    apply (root_narrows _ _ _ _ _ _ _ (fun root => if is_absolute root then root else join project_root root) r r' Hf); [|done|done]. by apply (settled_places _ _ _ _ _ _ _ Hsettled Hf).
  - intros root' H. rewrite Fproot' in H. rewrite Fproot. revert H.
    apply (root_narrows _ _ _ _ _ _ _ (fun root => root) q q' Hp); [done| |].
    + by destruct proot, q.
    + by destruct (serve_process_root o), q'.
  - apply rbind_Ok in Hpolicy as (r0 & Hr0 & Hpolicy). apply rbind_Ok in Hpolicy as (q0 & _ & [= _ <-]).
    apply rbind_Ok in Hoperator as (r0' & Hr0' & Hoperator). apply rbind_Ok in Hoperator as (q0' & _ & [= _ <-]).
    rewrite Hr in Hr0. injection Hr0 as <-. rewrite Hr' in Hr0'. injection Hr0' as <-. rewrite Epr.
    intros x. rewrite !elem_of_app. intros [?|[Hx|Hx]]; [by left|right; left|right; right].
    + destruct r; [|by apply elem_of_nil in Hx]. destruct r'; [done|by specialize (Hroots eq_refl)].
    + destruct (negb match http_allow_hosts effective with [] => true | _ => false end) eqn:E; [|by apply elem_of_nil in Hx]. by rewrite Hhb.
Qed.

(** ** Environment variables in texts *)

Lemma string_length_substring n m s : String.length (substring n m s) <= m.
Proof.
  revert n m. induction s as [|c s IH]; intros n m; [destruct n, m; simpl; lia|]. destruct n, m; simpl; try lia; [apply le_n_S, IH|apply IH|apply IH].
Qed.

Lemma find_inside needle s i : string_find needle s = Some i -> i + String.length needle <= String.length s.
Proof.
  revert i. induction s as [|c s IH]; intros i; cbn [string_find].
  - destruct needle; [intros [= <-]; simpl; lia|done].
  - destruct (starts_with needle (String c s)) eqn:E.
    + intros [= <-]. apply starts_with_occurs in E. rewrite <- !length_as_bytes. destruct (decide (length (as_bytes needle) = 0)) as [->|Hne]; [lia|].
      destruct (lookup_lt_is_Some_2 (as_bytes needle) (length (as_bytes needle) - 1)) as [x Hx]; [lia|]. pose proof (occurs_inside _ _ _ _ _ E Hx). lia.
    + destruct (string_find needle s) as [j|]; [|done]. intros [= <-]. specialize (IH j eq_refl). simpl. lia.
Qed.

(** Expanding the variables of a text ends, and under a policy its outcome
    does not depend on a variable that the policy does not name. *)
Theorem expansion_policy (env1 env2 : Environment) (value context : string) (allowed : list string)
    (Hagree : forall name, name ∈ allowed -> env_var (Environment := env1) name = env_var (Environment := env2) name) :
  expand_environment_variables_with_policy (H := env1) value context (Some allowed) =
    expand_environment_variables_with_policy (H := env2) value context (Some allowed) /\
  settles (expand_environment_variables_with_policy (H := env1) value context (Some allowed)) (fun _ => True).
Proof.
  unfold expand_environment_variables_with_policy. split.
  - generalize (S (String.length value)) as fuel. intros fuel. revert value. induction fuel as [|fuel IH]; intros value; [done|]. cbn [expand_from].
    destruct (string_find "${" value) as [start|]; [|done]. set (tail := substring _ _ value). destruct (string_find "}" tail) as [e|]; [|done].
    destruct (String.eqb (substring 0 e tail) ""); [done|]. destruct (member (substring 0 e tail) allowed) eqn:Hm; [|done]. cbn [negb].
    apply member_In in Hm. rewrite (Hagree _ Hm). destruct (env_var (substring 0 e tail)); [|done]. by rewrite IH.
  - assert (forall fuel value, String.length value < fuel -> settles (expand_from (H := env1) fuel value context (Some allowed)) (fun _ => True)) as H; [|apply H; lia].
    clear. induction fuel as [|fuel IH]; intros value Hf; [lia|]. cbn [expand_from]. destruct (string_find "${" value) as [start|] eqn:Hs; [|done].
    apply find_inside in Hs. simpl in Hs. set (tail := substring _ _ value). destruct (string_find "}" tail) as [e|] eqn:He; [|done].
    destruct (String.eqb (substring 0 e tail) ""); [done|]. destruct (negb (member (substring 0 e tail) allowed)); [done|].
    destruct (env_var (substring 0 e tail)); [|done]. apply settles_bind. eapply settles_mono; [|apply IH]; [done|].
    apply find_inside in He. simpl in He. assert (String.length tail <= String.length value - (start + 2)) by apply string_length_substring.
    pose proof (string_length_substring (S e) (String.length tail - S e) tail). lia.
Qed.

(** ** Relative project roots *)

(** A root of the manifest is joined to the project root when it is checked and,
    if that is relative, again when the machine is set up: in the directory
    [/w], the check passes for [app/data] and the machine has [app/app/data]. *)
Definition relative_fs : FileSystem := {|
  canonicalize path := if String.eqb path "/w/app/data" || String.eqb path "app/data" then inl "/w/app/data"
                       else if String.eqb path "app/app/data" then inl "/w/app/app/data" else inr [Lit "not found"];
  is_file _ := false; is_dir path := String.eqb path "/w/app/data" || String.eqb path "/w/app/app/data";
  read_to_string _ := inr [Lit "a directory"]; read _ := inr [Lit "a directory"]; read_dir _ := inl [];
  symlink_metadata _ := inl FileType.Dir |}.

Definition operator_grant (root : string) : ServeOptions :=
  mkServe "127.0.0.1" 3000 false false false [] false None false (Some root) false None [] [] [] [] DEFAULT_MAX_CONTROLLER_INSTRUCTIONS.

Lemma relative_root_rejoined :
  let ex : PathExists := fun path => match canonicalize (FileSystem := relative_fs) path with inl _ => true | inr _ => false end in
  exists policy names, served_policy (H := relative_fs) (H0 := ex) "app" (mkCapabilities (Some "data") false false [] false None false []) (operator_grant "/w/app/data") = Ok (policy, names) /\
  filesystem_root (policy default_host) = Some "/w/app/app/data".
Proof. do 2 eexists. split; vm_compute; reflexivity. Qed.

(** ** Witness *)

Definition example_request : WebCapabilities := mkCapabilities (Some "p") true false ["HOME"] false None false ["Example.com"].
Definition example_options : ServeOptions :=
  mkServe "127.0.0.1" 3000 false false false ["HOME"; "PATH"] true None false (Some "/p") false None ["example.com"; "b"] [] [] [] 10.
Definition example_effective : ServeOptions :=
  mkServe "127.0.0.1" 3000 false false false ["HOME"] true None false (Some "/p") true None ["Example.com"] [] [] [] 10.
Definition example_setup (o : ServeOptions) : (HostRuntimeState -> HostRuntimeState) * list (string * Capability) :=
  match compose_serve_capability_vm_setup (H := Example_.files false) "/" o with Ok r => r | _ => (fun p => p, []) end.

Example manifest_narrows_witness :
  apply_manifest_capabilities (H := Example_.files false) (H0 := example_exists) "/" example_request example_options = Ok example_effective /\
  narrows ((example_setup example_effective).1 default_host) ((example_setup example_options).1 default_host) /\
  environment_denied ((example_setup example_effective).1 default_host) "PATH" = true.
Proof.
  assert (apply_manifest_capabilities (H := Example_.files false) (H0 := example_exists) "/" example_request example_options = Ok example_effective) as He by (vm_compute; reflexivity).
  assert (forall o, o = example_effective \/ o = example_options -> compose_serve_capability_vm_setup (H := Example_.files false) "/" o = Ok ((example_setup o).1, (example_setup o).2)) as Hs
    by (intros o [->| ->]; vm_compute; reflexivity).
  assert (forall root, fs_root example_options = Some root -> is_absolute root = true) as Hroot by (intros root [= <-]; reflexivity).
  split; [exact He|]. split; [|vm_compute; reflexivity].
  exact (proj1 (manifest_narrows (Example_.files false) (example_laws false) example_exists example_exists_laws "/" example_request example_options example_effective
    _ _ _ _ (or_intror (or_introl (conj eq_refl Hroot))) He (Hs _ (or_introl eq_refl)) (Hs _ (or_intror eq_refl)))).
Defined.

Example expansion_policy_witness : exists r,
  expand_environment_variables_with_policy (H := fun name => if String.eqb name "KEY" then inl "k" else inl "one") "a${KEY}b" "text" (Some ["KEY"]) = r /\
  expand_environment_variables_with_policy (H := fun name => if String.eqb name "KEY" then inl "k" else inr "no") "a${KEY}b" "text" (Some ["KEY"]) = r /\ r = Ok "akb".
Proof.
  eexists. split; [reflexivity|]. split; [|vm_compute; reflexivity]. symmetry.
  refine (proj1 (expansion_policy _ _ "a${KEY}b" "text" ["KEY"] _)). intros name Hn. apply elem_of_cons in Hn as [->|Hn]; [reflexivity|by apply elem_of_nil in Hn].
Defined.
