(* ===== verification/ActiveRecord.v ===== *)
(** * Active records

    [crates/ricochet_web/src/active_record.rs]: the mapping of a model to a
    table, the statements of each query with their parameters, and the SQLite
    database, whose one connection is either in its slot or in a transaction.

    The drivers are interfaces: [Connection] is what the code uses of
    [rusqlite::Connection].  A row is the entries of the [Value::Map] that
    holds it; the map is allocated when the row is given to the machine.  No
    code panics while it holds one of the locks, so they are never poisoned. *)

From stdpp Require Import base tactics list strings option numbers.
From Stdlib Require Import ZArith NArith Lia Ascii String.
From S2P Require Import Prelude RustStr RustText RustFloat BTree Value VmState WebCoding.

Open Scope list_scope.
Open Scope nat_scope.
Open Scope string_scope.

(** ** Mappings, pages and errors *)

Record ModelMapping : Type := mkMapping { class_name : string; mapping_table : string; fields : list string }.

Record OrderPage : Type := mkOrderPage { order_field : string; direction : string; order_limit : Z; order_offset : Z }.

Inductive SqlDialect : Type := Postgres | Sqlite | Mysql.

Definition placeholder (d : SqlDialect) (index : nat) : string :=
  match d with
  | Postgres => "$" ++ show_N (N.of_nat index)
  | Sqlite | Mysql => "?"
  end.

Module ActiveRecordError.
Inductive ActiveRecordError : Type :=
  | InvalidIdentifier (kind name : string)
  | UnknownField (class_name field : string)
  | InvalidOrderDirection (direction : string)
  | UnknownModel (class_name : string)
  | MissingTable (class_name : string)
  | MissingField (class_name field : string)
  | UnsupportedValue (operation actual : string)
  | UnsupportedColumnType (field database_type : string)
  | Database (operation : string) (message : msg).
End ActiveRecordError.
Abbreviation ActiveRecordError := ActiveRecordError.ActiveRecordError.

(** [Display]; [{:?}] of a name is left unrendered. *)
Definition display_error (e : ActiveRecordError) : msg :=
  match e with
  | ActiveRecordError.InvalidIdentifier kind name => [Lit "invalid SQL "; Disp kind; Lit " identifier "; Dbg name]
  | ActiveRecordError.UnknownField c f => [Lit "unknown field "; Dbg f; Lit " on model "; Disp c]
  | ActiveRecordError.InvalidOrderDirection dir =>
      [Lit "invalid Active Record order direction "; Dbg dir; Lit "; expected ";
       Lit (String (ascii_of_N 34) ("asc" ++ String (ascii_of_N 34) (" or " ++ String (ascii_of_N 34) ("desc" ++ String (ascii_of_N 34) ""))))]
  | ActiveRecordError.UnknownModel c => [Lit "unknown Ricochet model class "; Disp c]
  | ActiveRecordError.MissingTable c => [Lit "Ricochet model class "; Disp c; Lit " has no table declaration"]
  | ActiveRecordError.MissingField c f => [Lit "missing field "; Dbg f; Lit " for model "; Disp c]
  | ActiveRecordError.UnsupportedValue op actual => [Disp op; Lit " does not support Ricochet "; Disp actual; Lit " values"]
  | ActiveRecordError.UnsupportedColumnType f t => [Lit "database field "; Dbg f; Lit " has unsupported type "; Disp t]
  | ActiveRecordError.Database op m => [Lit "database "; Disp op; Lit " failed: "] ++ m
  end%list.

Definition result (A : Type) : Type := res ActiveRecordError A.

Definition transaction_error (operation message : string) : ActiveRecordError :=
  ActiveRecordError.Database operation [Lit message].

(** [into_iter().map(f).collect::<Result<Vec<_>, _>>()]: the first error ends it. *)
Fixpoint try_map {A B E : Type} (f : A -> res E B) (l : list A) : res E (list B) :=
  match l with
  | [] => Ok []
  | a :: l' => let? b := f a in let? bs := try_map f l' in Ok (b :: bs)
  end.

(** ** Identifiers *)

Definition identifier_start (b : byte) : bool := Ascii.eqb b "_" || is_ascii_lowercase b || is_ascii_uppercase b.
Definition identifier_byte (b : byte) : bool := identifier_start b || is_ascii_digit b.

(** The characters it accepts are ASCII: its bytes are its characters. *)
Definition is_postgres_identifier_bytes (l : list byte) : bool :=
  match l with b :: l' => identifier_start b && forallb identifier_byte l' | [] => false end.

Definition is_postgres_identifier (name : string) : bool := is_postgres_identifier_bytes (as_bytes name).

Definition validate_table_identifier (name : string) : result unit :=
  if forallb is_postgres_identifier (split_char "." name) then Ok tt
  else Err (ActiveRecordError.InvalidIdentifier "table" name).

Definition validate_field_identifier (name : string) : result unit :=
  if is_postgres_identifier name then Ok tt else Err (ActiveRecordError.InvalidIdentifier "field" name).

Definition savepoint_name (name : string) : result string :=
  if is_postgres_identifier name then Ok name else Err (ActiveRecordError.InvalidIdentifier "savepoint" name).

Definition validate_order_direction (dir : string) : result string :=
  let lower := to_ascii_lowercase dir in
  if String.eqb lower "asc" then Ok "asc"
  else if String.eqb lower "desc" then Ok "desc"
  else Err (ActiveRecordError.InvalidOrderDirection dir).

(** ** The mapping of a model *)

Definition try_new (c table : string) (fs : list string) : result ModelMapping :=
  let? _ := validate_table_identifier table in
  let? fs := try_map (fun f => let? _ := validate_field_identifier f in Ok f) fs in
  Ok (mkMapping c table fs).

(** [vm.class_fields] and [vm.class_table] are the fields of the class. *)
Definition from_vm (classes : btree VmState.Class) (c : string) : result ModelMapping :=
  match bt_get c classes with
  | None => Err (ActiveRecordError.UnknownModel c)
  | Some cls =>
      match table_name cls with
      | None => Err (ActiveRecordError.MissingTable c)
      | Some table => try_new c table (cls_fields cls)
      end
  end.

Definition join (delimiter : string) (l : list string) : string := String.concat delimiter l.

Definition require_field (m : ModelMapping) (field : string) : result unit :=
  let? _ := validate_field_identifier field in
  if existsb (String.eqb field) (fields m) then Ok tt
  else Err (ActiveRecordError.UnknownField (class_name m) field).

Definition non_id_fields (m : ModelMapping) : list string := filter (fun f => f <> "id") (fields m).

Definition values_for_fields (m : ModelMapping) (fs : list string) (attributes : btree Value) : result (list Value) :=
  try_map (fun f => match bt_get f attributes with
                    | Some v => Ok v
                    | None => Err (ActiveRecordError.MissingField (class_name m) f)
                    end) fs.

Definition insert_values (m : ModelMapping) (attributes : btree Value) : result (list Value) :=
  values_for_fields m (non_id_fields m) attributes.

Definition update_values (m : ModelMapping) (id : Value) (attributes : btree Value) : result (list Value) :=
  let? values := values_for_fields m (non_id_fields m) attributes in Ok (values ++ [id])%list.

(** ** Statements *)

Section Statements.
Context (m : ModelMapping) (d : SqlDialect).

Definition select_by_id_sql_for : string :=
  "select " ++ join ", " (fields m) ++ " from " ++ mapping_table m ++ " where id = " ++ placeholder d 1 ++ " limit 1".

Definition select_all_sql : string := "select " ++ join ", " (fields m) ++ " from " ++ mapping_table m.

Definition select_count_sql : string := "select count(*) from " ++ mapping_table m.

Definition select_first_sql : string := "select " ++ join ", " (fields m) ++ " from " ++ mapping_table m ++ " limit 1".

Definition select_limit_sql_for : string :=
  "select " ++ join ", " (fields m) ++ " from " ++ mapping_table m ++ " limit " ++ placeholder d 1.

Definition select_page_sql_for : string :=
  "select " ++ join ", " (fields m) ++ " from " ++ mapping_table m ++ " limit " ++ placeholder d 1 ++ " offset " ++ placeholder d 2.

Definition select_order_page_sql_for (field dir : string) : result string :=
  let? _ := require_field m field in
  let? dir := validate_order_direction dir in
  Ok ("select " ++ join ", " (fields m) ++ " from " ++ mapping_table m ++ " order by " ++ field ++ " " ++ dir
      ++ " limit " ++ placeholder d 1 ++ " offset " ++ placeholder d 2).

Definition exists_by_id_sql_for : string :=
  "select exists(select 1 from " ++ mapping_table m ++ " where id = " ++ placeholder d 1 ++ ")".

Definition select_where_eq_sql_for (field : string) : result string :=
  let? _ := require_field m field in
  Ok ("select " ++ join ", " (fields m) ++ " from " ++ mapping_table m ++ " where " ++ field ++ " = " ++ placeholder d 1).

Definition select_where_eq_limit_sql_for (field : string) : result string :=
  let? _ := require_field m field in
  Ok ("select " ++ join ", " (fields m) ++ " from " ++ mapping_table m ++ " where " ++ field ++ " = " ++ placeholder d 1
      ++ " limit " ++ placeholder d 2).

Definition select_where_eq_page_sql_for (field : string) : result string :=
  let? _ := require_field m field in
  Ok ("select " ++ join ", " (fields m) ++ " from " ++ mapping_table m ++ " where " ++ field ++ " = " ++ placeholder d 1
      ++ " limit " ++ placeholder d 2 ++ " offset " ++ placeholder d 3).

Definition select_where_eq_order_page_sql_for (where_field field dir : string) : result string :=
  let? _ := require_field m where_field in
  let? _ := require_field m field in
  let? dir := validate_order_direction dir in
  Ok ("select " ++ join ", " (fields m) ++ " from " ++ mapping_table m ++ " where " ++ where_field ++ " = " ++ placeholder d 1
      ++ " order by " ++ field ++ " " ++ dir ++ " limit " ++ placeholder d 2 ++ " offset " ++ placeholder d 3).

Definition placeholders (n : nat) : list string := placeholder d <$> seq 1 n.

Definition insert_sql_for : string :=
  "insert into " ++ mapping_table m ++ " (" ++ join ", " (non_id_fields m) ++ ") values ("
  ++ join ", " (placeholders (length (non_id_fields m))) ++ ") returning " ++ join ", " (fields m).

Definition insert_sql_without_returning_for : string :=
  "insert into " ++ mapping_table m ++ " (" ++ join ", " (non_id_fields m) ++ ") values ("
  ++ join ", " (placeholders (length (non_id_fields m))) ++ ")".

Definition assignments : list string :=
  imap (fun index field => field ++ " = " ++ placeholder d (index + 1)) (non_id_fields m).

Definition update_by_id_sql_for : string :=
  "update " ++ mapping_table m ++ " set " ++ join ", " assignments ++ " where id = "
  ++ placeholder d (length (non_id_fields m) + 1) ++ " returning " ++ join ", " (fields m).

Definition update_by_id_sql_without_returning_for : string :=
  "update " ++ mapping_table m ++ " set " ++ join ", " assignments ++ " where id = "
  ++ placeholder d (length (non_id_fields m) + 1).
End Statements.

(** ** Parameters and columns *)

(** The three parameter types of the source have the same constructors. *)
Module SqlParameter.
Inductive SqlParameter : Type := Null | Bool (b : bool) | Number (n : Z) | Float (x : f64) | String (s : string).
End SqlParameter.
Abbreviation SqlParameter := SqlParameter.SqlParameter.

Definition sql_value_kind (v : Value) : string :=
  match v with Value.Member _ => "member" | v => value_kind v end.

Definition sql_parameter (operation : string) (v : Value) : result SqlParameter :=
  match v with
  | Value.Nil => Ok SqlParameter.Null
  | Value.Bool b => Ok (SqlParameter.Bool b)
  | Value.Number n => Ok (SqlParameter.Number n)
  | Value.Float x => Ok (SqlParameter.Float x)
  | Value.String s => Ok (SqlParameter.String s)
  | v => Err (ActiveRecordError.UnsupportedValue operation (sql_value_kind v))
  end.

Definition postgres_parameter : Value -> result SqlParameter := sql_parameter "PostgreSQL parameter".
Definition sqlite_parameter : Value -> result SqlParameter := sql_parameter "SQLite parameter".
Definition mysql_parameter : Value -> result SqlParameter := sql_parameter "MySQL parameter".

(** [rusqlite::types::Value] of a parameter, and [ValueRef] of a column. *)
Module SqliteSqlValue.
Inductive SqliteSqlValue : Type := Null | Integer (n : Z) | Real (x : f64) | Text (bytes : list byte) | Blob (bytes : list byte).
End SqliteSqlValue.
Abbreviation SqliteSqlValue := SqliteSqlValue.SqliteSqlValue.

Definition sqlite_sql (p : SqlParameter) : SqliteSqlValue :=
  match p with
  | SqlParameter.Null => SqliteSqlValue.Null
  | SqlParameter.Bool b => SqliteSqlValue.Integer (if b then 1 else 0)%Z
  | SqlParameter.Number n => SqliteSqlValue.Integer n
  | SqlParameter.Float x => SqliteSqlValue.Real x
  | SqlParameter.String s => SqliteSqlValue.Text (as_bytes s)
  end.

(** [mysql_async::Value]; a [Float] is kept as the [f64] it is exactly. *)
Module MysqlSqlValue.
Inductive MysqlSqlValue : Type :=
  | NULL | Int (n : Z) | UInt (n : N) | Bytes (bytes : list byte) | Float (x : f64) | Double (x : f64) | Date | Time.
End MysqlSqlValue.
Abbreviation MysqlSqlValue := MysqlSqlValue.MysqlSqlValue.

Definition mysql_sql (p : SqlParameter) : MysqlSqlValue :=
  match p with
  | SqlParameter.Null => MysqlSqlValue.NULL
  | SqlParameter.Bool b => MysqlSqlValue.Int (if b then 1 else 0)%Z
  | SqlParameter.Number n => MysqlSqlValue.Int n
  | SqlParameter.Float x => MysqlSqlValue.Double x
  | SqlParameter.String s => MysqlSqlValue.Bytes (as_bytes s)
  end.

Definition mysql_parameters (values : list Value) : result (list MysqlSqlValue) :=
  try_map (fun v => let? p := mysql_parameter v in Ok (mysql_sql p)) values.

Definition mysql_column_value (v : MysqlSqlValue) (field : string) : result Value :=
  match v with
  | MysqlSqlValue.NULL => Ok Value.Nil
  | MysqlSqlValue.Int n => Ok (Value.Number n)
  | MysqlSqlValue.UInt n =>
      if (Z.of_N n <=? i64_max)%Z then Ok (Value.Number (Z.of_N n))
      else Err (ActiveRecordError.UnsupportedColumnType field "UNSIGNED BIGINT")
  | MysqlSqlValue.Bytes bytes => Ok (Value.String (from_utf8_lossy bytes))
  | MysqlSqlValue.Float x | MysqlSqlValue.Double x => Ok (Value.Float x)
  | MysqlSqlValue.Date => Err (ActiveRecordError.UnsupportedColumnType field "DATE/DATETIME")
  | MysqlSqlValue.Time => Err (ActiveRecordError.UnsupportedColumnType field "TIME")
  end.

Definition row : Type := btree Value.

Fixpoint mysql_row_from (index : nat) (fs : list string) (columns : list MysqlSqlValue) (values : row) : result row :=
  match fs with
  | [] => Ok values
  | field :: fs' =>
      match columns !! index with
      | None => Err (ActiveRecordError.Database "decode row" [Lit "query did not return mapped field "; Dbg field])
      | Some v => let? v := mysql_column_value v field in mysql_row_from (S index) fs' columns (bt_insert field v values)
      end
  end.

Definition mysql_row_to_value (columns : list MysqlSqlValue) (m : ModelMapping) : result row := mysql_row_from 0 (fields m) columns [].

(** ** The batches of a MySQL migration *)

Inductive MysqlBatchState : Type := Normal | SingleQuote | DoubleQuote | Backtick | LineComment | BlockComment.

Definition ch (a : ascii) : char := N_of_ascii a.
Definition newline_char : char := 10%N.
Definition return_char : char := 13%N.
Definition single_quote : char := 39%N.
Definition double_quote : char := 34%N.
Definition backtick : char := 96%N.
Definition backslash : char := 92%N.

(** [current.trim()], kept when it is not empty. *)
Definition push_trimmed (current : list char) (statements : list (list char)) : list (list char) :=
  let statement := trim_end_chars (trim_start_chars current) in
  match statement with [] => statements | _ => statements ++ [statement] end.

Fixpoint split_batch_from (state : MysqlBatchState) (current : list char) (statements : list (list char)) (cs : list char)
    : list (list char) :=
  match cs with
  | [] => push_trimmed current statements
  | c :: rest =>
      let current1 := current ++ [c] in
      (* the character and the next one, when there is one *)
      let two (cond : char -> bool) (then_state else_state : MysqlBatchState) :=
        match rest with
        | next :: rest' =>
            if cond next then split_batch_from then_state (current1 ++ [next]) statements rest'
            else split_batch_from else_state current1 statements rest
        | [] => split_batch_from else_state current1 statements rest
        end in
      match state with
      | Normal =>
          if (c =? ch ";")%N then split_batch_from Normal [] (push_trimmed current statements) rest
          else if (c =? single_quote)%N then split_batch_from SingleQuote current1 statements rest
          else if (c =? double_quote)%N then split_batch_from DoubleQuote current1 statements rest
          else if (c =? backtick)%N then split_batch_from Backtick current1 statements rest
          else if (c =? ch "-")%N then two (fun next => (next =? ch "-")%N) LineComment Normal
          else if (c =? ch "#")%N then split_batch_from LineComment current1 statements rest
          else if (c =? ch "/")%N then two (fun next => (next =? ch "*")%N) BlockComment Normal
          else split_batch_from Normal current1 statements rest
      | SingleQuote =>
          if (c =? backslash)%N then two (fun _ => true) SingleQuote SingleQuote
          else if (c =? single_quote)%N then two (fun next => (next =? single_quote)%N) SingleQuote Normal
          else split_batch_from SingleQuote current1 statements rest
      | DoubleQuote =>
          if (c =? backslash)%N then two (fun _ => true) DoubleQuote DoubleQuote
          else if (c =? double_quote)%N then two (fun next => (next =? double_quote)%N) DoubleQuote Normal
          else split_batch_from DoubleQuote current1 statements rest
      | Backtick =>
          if (c =? backtick)%N then two (fun next => (next =? backtick)%N) Backtick Normal
          else split_batch_from Backtick current1 statements rest
      | LineComment =>
          split_batch_from (if (c =? newline_char)%N || (c =? return_char)%N then Normal else LineComment) current1 statements rest
      | BlockComment =>
          if (c =? ch "*")%N then two (fun next => (next =? ch "/")%N) Normal BlockComment
          else split_batch_from BlockComment current1 statements rest
      end
  end%list.

Definition split_mysql_batch {E : Type} (sql : string) : res E (list string) :=
  let? cs := chars sql in Ok ((fun s => from_bytes (encode s)) <$> split_batch_from Normal [] [] cs).

(** [identifier.replace(quote, quote quote)], between quotes. *)
Definition double_byte (q : byte) (l : list byte) : list byte := flat_map (fun b => if Ascii.eqb b q then [q; q] else [b]) l.

Definition quote_identifier (q : byte) (identifier : string) : string :=
  from_bytes ([q] ++ double_byte q (as_bytes identifier) ++ [q])%list.

Definition quote_postgres_identifier : string -> string := quote_identifier (ascii_of_N 34).
Definition quote_mysql_identifier : string -> string := quote_identifier "`".

Definition sqlite_path_from_url (url : string) : result string :=
  let? trimmed := trim url in
  let path := match strip_prefix "sqlite://" trimmed with
              | Some p => p
              | None => match strip_prefix "sqlite:" trimmed with Some p => p | None => trimmed end
              end in
  if String.eqb path "" then Err (ActiveRecordError.Database "connect" [Lit "SQLite database path is empty"]) else Ok path.

(** ** Calls that may wait

    A call of a database ends with a result, or waits for a connection that
    another user of the database has to give back. *)
Inductive outcome (A : Type) : Type :=
  | Done (r : result A)
  | Waits.
Arguments Done {A} r.
Arguments Waits {A}.

Definition action (W A : Type) : Type := W -> outcome A * W.

Definition areturn {W A : Type} (r : result A) : action W A := fun w => (Done r, w).

(** [m?], then the rest. *)
Definition abind {W A B : Type} (m : action W A) (k : A -> action W B) : action W B := fun w =>
  match m w with
  | (Done (Ok a), w) => k a w
  | (Done (Err e), w) => (Done (Err e), w)
  | (Done Panic, w) => (Done Panic, w)
  | (Done OutOfFuel, w) => (Done OutOfFuel, w)
  | (Waits, w) => (Waits, w)
  end.

Notation "'let&' x := m 'in' k" := (abind m (fun x => k)) (at level 10, x pattern, m at level 100, k at level 200).

(** ** The SQLite database *)

(** A connection, over the state of the engine: a batch of statements gives an
    error's text or none; a query gives the rows that were read and, when
    reading stopped early, the error. *)
Class Connection (C W : Type) : Type := {
  execute_batch : C -> string -> W -> option string * W;
  query : C -> string -> list SqliteSqlValue -> W -> res string (list (list SqliteSqlValue) * option string) * W;
  query_row_i64 : C -> string -> list SqliteSqlValue -> W -> res string Z * W;
  invalid_column_index : nat -> string }.

Definition sqlite_error (operation error : string) : ActiveRecordError := ActiveRecordError.Database operation [Lit error].

Section Sqlite.
Context {C E : Type} `{Connection C E}.

(** The slot of the connection, the connection of each transaction that was
    begun (an [Arc<SqliteTransactionState>] is its index), and the engine. *)
Record SqliteState : Type := mkSqlite { slot : option C; transactions : list (option C); engine : E }.

Record SqliteDatabase : Type := mkSqliteDatabase { sqlite_transaction : option nat }.

(** [SqliteConnectionSlot::with_connection], [take] and [put]. *)
Definition slot_with_connection {A : Type} (callback : C -> action E A) : action SqliteState A := fun s =>
  match slot s with
  | None => (Waits, s)
  | Some c => let '(r, e) := callback c (engine s) in (r, mkSqlite (slot s) (transactions s) e)
  end.

Definition slot_take : action SqliteState C := fun s =>
  match slot s with
  | None => (Waits, s)
  | Some c => (Done (Ok c), mkSqlite None (transactions s) (engine s))
  end.

Definition slot_put (c : C) (s : SqliteState) : SqliteState := mkSqlite (Some c) (transactions s) (engine s).

(** The batch of a connection, as a callback. *)
Definition run_batch (operation sql : string) (c : C) : action E unit := fun e =>
  match execute_batch c sql e with
  | (None, e) => (Done (Ok tt), e)
  | (Some error, e) => (Done (Err (sqlite_error operation error)), e)
  end.

Definition on_engine {A : Type} (m : action E A) : action SqliteState A := fun s =>
  let '(r, e) := m (engine s) in (r, mkSqlite (slot s) (transactions s) e).

(** [SqliteTransactionState::with_connection]. *)
Definition transaction_with_connection {A : Type} (id : nat) (operation : string) (callback : C -> action E A)
    : action SqliteState A := fun s =>
  match mjoin (transactions s !! id) with
  | None => (Done (Err (transaction_error operation "transaction is already complete")), s)
  | Some c => on_engine (callback c) s
  end.

(** [SqliteTransactionState::finish_transaction]. *)
Definition finish_transaction (id : nat) (sql operation : string) : action SqliteState unit := fun s =>
  match mjoin (transactions s !! id) with
  | None => (Done (Err (transaction_error operation "transaction is already complete")), s)
  | Some c =>
      match on_engine (run_batch operation sql c) s with
      | (Done (Ok _), s) => (Done (Ok tt), slot_put c (mkSqlite (slot s) (<[id := None]> (transactions s)) (engine s)))
      | r => r
      end
  end.

(** [Drop for SqliteTransactionState]. *)
Definition drop_transaction (id : nat) (s : SqliteState) : SqliteState :=
  match mjoin (transactions s !! id) with
  | None => s
  | Some c =>
      let e := (execute_batch c "rollback" (engine s)).2 in
      slot_put c (mkSqlite (slot s) (<[id := None]> (transactions s)) e)
  end.

Definition begin_transaction (db : SqliteDatabase) : action SqliteState SqliteDatabase :=
  match sqlite_transaction db with
  | Some _ => areturn (Err (transaction_error "begin transaction" "a transaction is already active"))
  | None =>
      let& c := slot_take in
      fun s =>
        match on_engine (run_batch "begin transaction" "begin" c) s with
        | (Done (Ok _), s) =>
            (Done (Ok (mkSqliteDatabase (Some (length (transactions s))))),
             mkSqlite (slot s) (transactions s ++ [Some c])%list (engine s))
        | (Done (Err error), s) => (Done (Err error), slot_put c s)
        | (_, s) => (Done Panic, s)
        end
  end.

Definition transaction_state (db : SqliteDatabase) (operation : string) : result nat :=
  match sqlite_transaction db with
  | Some id => Ok id
  | None => Err (transaction_error operation "no transaction is active")
  end.

Definition commit_transaction (db : SqliteDatabase) : action SqliteState unit :=
  let& id := areturn (transaction_state db "commit transaction") in finish_transaction id "commit" "commit transaction".

Definition rollback_transaction (db : SqliteDatabase) : action SqliteState unit :=
  let& id := areturn (transaction_state db "rollback transaction") in finish_transaction id "rollback" "rollback transaction".

Definition transaction_control (db : SqliteDatabase) (operation sql : string) : action SqliteState unit :=
  let& id := areturn (transaction_state db operation) in
  transaction_with_connection id operation (run_batch operation sql).

Definition create_savepoint (db : SqliteDatabase) (name : string) : action SqliteState unit :=
  let& name := areturn (savepoint_name name) in
  transaction_control db "create savepoint" ("savepoint " ++ name).

Definition release_savepoint (db : SqliteDatabase) (name : string) : action SqliteState unit :=
  let& name := areturn (savepoint_name name) in
  transaction_control db "release savepoint" ("release savepoint " ++ name).

Definition rollback_to_savepoint (db : SqliteDatabase) (name : string) : action SqliteState unit :=
  let& name := areturn (savepoint_name name) in
  transaction_control db "rollback to savepoint" ("rollback to savepoint " ++ name ++ "; release savepoint " ++ name).

(** *** Queries *)

Definition with_connection {A : Type} (db : SqliteDatabase) (operation : string) (callback : C -> action E A)
    : action SqliteState A :=
  match sqlite_transaction db with
  | Some id => transaction_with_connection id operation callback
  | None => slot_with_connection callback
  end.

Definition sqlite_column_value (columns : list SqliteSqlValue) (index : nat) (field : string) : result Value :=
  match columns !! index with
  | None => Err (sqlite_error "decode row" (invalid_column_index index))
  | Some SqliteSqlValue.Null => Ok Value.Nil
  | Some (SqliteSqlValue.Integer n) => Ok (Value.Number n)
  | Some (SqliteSqlValue.Text bytes) => Ok (Value.String (from_utf8_lossy bytes))
  | Some (SqliteSqlValue.Real x) => Ok (Value.Float x)
  | Some (SqliteSqlValue.Blob _) => Err (ActiveRecordError.UnsupportedColumnType field "BLOB")
  end.

Fixpoint sqlite_row_from (index : nat) (fs : list string) (columns : list SqliteSqlValue) (values : row) : result row :=
  match fs with
  | [] => Ok values
  | field :: fs' =>
      let? v := sqlite_column_value columns index field in
      sqlite_row_from (S index) fs' columns (bt_insert field v values)
  end.

Definition sqlite_row_to_value (m : ModelMapping) (columns : list SqliteSqlValue) : result row := sqlite_row_from 0 (fields m) columns [].

(** The loop over [rows.next()]. *)
Definition decode_rows (operation : string) (m : ModelMapping) (rows : list (list SqliteSqlValue) * option string) : result (list row) :=
  let? values := try_map (sqlite_row_to_value m) rows.1 in
  match rows.2 with None => Ok values | Some error => Err (sqlite_error operation error) end.

Definition query_many (db : SqliteDatabase) (m : ModelMapping) (operation sql : string) (values : list Value)
    : action SqliteState (list row) :=
  let& parameters := areturn (try_map sqlite_parameter values) in
  with_connection db operation (fun c e =>
    let '(r, e) := query c sql (sqlite_sql <$> parameters) e in
    (Done (let? rows := rmap_err (sqlite_error operation) r in decode_rows operation m rows), e)).

Definition query_optional (db : SqliteDatabase) (m : ModelMapping) (operation sql : string) (values : list Value)
    : action SqliteState (option row) :=
  let& rows := query_many db m operation sql values in areturn (Ok (head rows)).

Definition query_one (db : SqliteDatabase) (m : ModelMapping) (operation sql : string) (values : list Value)
    : action SqliteState row :=
  let& r := query_optional db m operation sql values in
  areturn (match r with
           | Some r => Ok r
           | None => Err (ActiveRecordError.Database operation [Lit "query returned no rows"])
           end).

Definition sqlite_find db m id := query_optional db m "find" (select_by_id_sql_for m Sqlite) [id].
Definition sqlite_all db m := query_many db m "all" (select_all_sql m) [].
Definition sqlite_first db m := query_optional db m "first" (select_first_sql m) [].

Definition sqlite_count (db : SqliteDatabase) (m : ModelMapping) : action SqliteState Z :=
  with_connection db "count" (fun c e =>
    let '(r, e) := query_row_i64 c (select_count_sql m) [] e in (Done (rmap_err (sqlite_error "count") r), e)).

Definition sqlite_limit db m limit := query_many db m "limit" (select_limit_sql_for m Sqlite) [Value.Number limit].

Definition sqlite_page db m limit offset :=
  query_many db m "page" (select_page_sql_for m Sqlite) [Value.Number limit; Value.Number offset].

Definition sqlite_order_page (db : SqliteDatabase) (m : ModelMapping) (o : OrderPage) : action SqliteState (list row) :=
  let& sql := areturn (select_order_page_sql_for m Sqlite (order_field o) (direction o)) in
  query_many db m "order_page" sql [Value.Number (order_limit o); Value.Number (order_offset o)].

Definition sqlite_exists_by_id (db : SqliteDatabase) (m : ModelMapping) (id : Value) : action SqliteState bool :=
  let& parameter := areturn (sqlite_parameter id) in
  with_connection db "exists" (fun c e =>
    let '(r, e) := query_row_i64 c (exists_by_id_sql_for m Sqlite) [sqlite_sql parameter] e in
    (Done (let? exists_ := rmap_err (sqlite_error "exists") r in Ok (negb (exists_ =? 0)%Z)), e)).

Definition sqlite_where_eq (db : SqliteDatabase) (m : ModelMapping) (field : string) (v : Value) : action SqliteState (list row) :=
  let& sql := areturn (select_where_eq_sql_for m Sqlite field) in query_many db m "where" sql [v].

Definition sqlite_where_eq_limit (db : SqliteDatabase) (m : ModelMapping) (field : string) (v : Value) (limit : Z)
    : action SqliteState (list row) :=
  let& sql := areturn (select_where_eq_limit_sql_for m Sqlite field) in
  query_many db m "where_limit" sql [v; Value.Number limit].

Definition sqlite_where_eq_page (db : SqliteDatabase) (m : ModelMapping) (field : string) (v : Value) (limit offset : Z)
    : action SqliteState (list row) :=
  let& sql := areturn (select_where_eq_page_sql_for m Sqlite field) in
  query_many db m "where_page" sql [v; Value.Number limit; Value.Number offset].

Definition sqlite_where_eq_order_page (db : SqliteDatabase) (m : ModelMapping) (where_field : string) (v : Value) (o : OrderPage)
    : action SqliteState (list row) :=
  let& sql := areturn (select_where_eq_order_page_sql_for m Sqlite where_field (order_field o) (direction o)) in
  query_many db m "where_order_page" sql [v; Value.Number (order_limit o); Value.Number (order_offset o)].

Definition sqlite_insert (db : SqliteDatabase) (m : ModelMapping) (attributes : btree Value) : action SqliteState row :=
  let& values := areturn (insert_values m attributes) in
  query_one db m "insert" (insert_sql_for m Sqlite) values.

Definition sqlite_update_by_id (db : SqliteDatabase) (m : ModelMapping) (id : Value) (attributes : btree Value)
    : action SqliteState row :=
  let& values := areturn (update_values m id attributes) in
  query_one db m "update" (update_by_id_sql_for m Sqlite) values.
End Sqlite.
Arguments SqliteState : clear implicits.
