(* ===== verification/Database.v ===== *)
(** * The database capability

    [crates/ricochet_web/src/database_capability.rs]: the trait of a database,
    the session that a machine has with one, and the methods that scripts call
    on the capability, on its savepoints and on the classes of models. *)

From stdpp Require Import base tactics list strings option numbers.
From Stdlib Require Import ZArith NArith Lia Ascii String.
From S2P Require Import Prelude RustStr RustText RustFloat BTree Value VmState ActiveRecord.

Open Scope list_scope.
Open Scope nat_scope.
Open Scope string_scope.

Definition DEFAULT_PAGE_LIMIT : Z := 50.
Definition DEFAULT_PAGE_OFFSET : Z := 0.
Definition DEFAULT_PAGE_ORDER_FIELD : string := "id".
Definition DEFAULT_PAGE_ORDER_DIRECTION : string := "asc".
Definition MAX_ACTIVE_RECORD_LIMIT : Z := 500.
Definition MAX_ACTIVE_RECORD_OFFSET : Z := 100000.

(** ** Databases *)

(** [trait DatabaseBackend], for handles [B] over a world [W]; [drop_backend]
    is what dropping the last reference to a handle does. *)
Class DatabaseBackend (B W : Type) : Type := {
  db_find : B -> ModelMapping -> Value -> action W (option row);
  db_all : B -> ModelMapping -> action W (list row);
  db_count : B -> ModelMapping -> action W Z;
  db_first : B -> ModelMapping -> action W (option row);
  db_limit : B -> ModelMapping -> Z -> action W (list row);
  db_page : B -> ModelMapping -> Z -> Z -> action W (list row);
  db_order_page : B -> ModelMapping -> OrderPage -> action W (list row);
  db_exists_by_id : B -> ModelMapping -> Value -> action W bool;
  db_where_eq : B -> ModelMapping -> string -> Value -> action W (list row);
  db_where_eq_limit : B -> ModelMapping -> string -> Value -> Z -> action W (list row);
  db_where_eq_page : B -> ModelMapping -> string -> Value -> Z -> Z -> action W (list row);
  db_where_eq_order_page : B -> ModelMapping -> string -> Value -> OrderPage -> action W (list row);
  db_insert : B -> ModelMapping -> btree Value -> action W row;
  db_update_by_id : B -> ModelMapping -> Value -> btree Value -> action W row;
  db_start_transaction : B -> action W B;
  db_commit_transaction : B -> action W unit;
  db_rollback_transaction : B -> action W unit;
  db_create_savepoint : B -> string -> action W unit;
  db_release_savepoint : B -> string -> action W unit;
  db_rollback_to_savepoint : B -> string -> action W unit;
  drop_backend : B -> W -> W }.

#[export] Instance sqlite_backend {C E : Type} `{Connection C E} : DatabaseBackend SqliteDatabase (SqliteState C E) := {|
  db_find := sqlite_find;
  db_all := sqlite_all;
  db_count := sqlite_count;
  db_first := sqlite_first;
  db_limit := sqlite_limit;
  db_page := sqlite_page;
  db_order_page := sqlite_order_page;
  db_exists_by_id := sqlite_exists_by_id;
  db_where_eq := sqlite_where_eq;
  db_where_eq_limit := sqlite_where_eq_limit;
  db_where_eq_page := sqlite_where_eq_page;
  db_where_eq_order_page := sqlite_where_eq_order_page;
  db_insert := sqlite_insert;
  db_update_by_id := sqlite_update_by_id;
  db_start_transaction := begin_transaction;
  db_commit_transaction := commit_transaction;
  db_rollback_transaction := rollback_transaction;
  db_create_savepoint := create_savepoint;
  db_release_savepoint := release_savepoint;
  db_rollback_to_savepoint := rollback_to_savepoint;
  drop_backend := fun db => match sqlite_transaction db with Some id => drop_transaction id | None => id end |}.

(** ** Sessions *)

Section Session.
Context {B W : Type} `{DatabaseBackend B W}.

(** [TransactionState], behind the lock of the session. *)
Record TransactionState : Type := mkTransactionState {
  ts_backend : option B; savepoints : list string; next_savepoint : N }.

(** [DatabaseSession], with the world its backend acts on. *)
Record Session : Type := mkSession { session_backend : B; transaction : TransactionState; world : W }.

Definition new_session (backend : B) (w : W) : Session := mkSession backend (mkTransactionState None [] 0) w.

(** An action of the session: it holds the lock of the transaction state. *)
Definition call {A : Type} (m : action W A) : action Session A := fun s =>
  let '(r, w) := m (world s) in (r, mkSession (session_backend s) (transaction s) w).

Definition set_transaction (t : TransactionState) : action Session unit := fun s =>
  (Done (Ok tt), mkSession (session_backend s) t (world s)).

Definition get_session : action Session Session := fun s => (Done (Ok s), s).

(** [state.backend = None]: the handle of the transaction is dropped. *)
Definition clear_backend (b : B) : action Session unit := fun s =>
  (Done (Ok tt),
   mkSession (session_backend s) (mkTransactionState None [] (next_savepoint (transaction s))) (drop_backend b (world s))).

Definition with_backend {A : Type} (callback : B -> action W A) : action Session A :=
  let& s := get_session in
  call (callback (match ts_backend (transaction s) with Some b => b | None => session_backend s end)).

Definition session_begin : action Session unit :=
  let& s := get_session in
  match ts_backend (transaction s) with
  | Some _ => areturn (Err (transaction_error "begin transaction" "a transaction is already active; use a savepoint for nested work"))
  | None =>
      let& b := call (db_start_transaction (session_backend s)) in
      set_transaction (mkTransactionState (Some b) [] (next_savepoint (transaction s)))
  end.

Definition active_backend (operation : string) : action Session B :=
  let& s := get_session in
  areturn (match ts_backend (transaction s) with
           | Some b => Ok b
           | None => Err (transaction_error operation "no transaction is active")
           end).

Definition session_commit : action Session unit :=
  let& b := active_backend "commit transaction" in
  let& _ := call (db_commit_transaction b) in
  clear_backend b.

Definition session_rollback : action Session unit :=
  let& b := active_backend "rollback transaction" in
  let& _ := call (db_rollback_transaction b) in
  clear_backend b.

Definition u64_max : N := 18446744073709551615%N.

Definition session_savepoint : action Session string :=
  let& b := active_backend "create savepoint" in
  let& s := get_session in
  let t := transaction s in
  if (next_savepoint t <? u64_max)%N then
    let next := (next_savepoint t + 1)%N in
    let& _ := set_transaction (mkTransactionState (ts_backend t) (savepoints t) next) in
    let name := "ricochet_savepoint_" ++ show_N next in
    let& _ := call (db_create_savepoint b name) in
    let& _ := set_transaction (mkTransactionState (ts_backend t) (savepoints t ++ [name])%list next) in
    areturn (Ok name)
  else areturn (Err (transaction_error "create savepoint" "savepoint counter overflowed")).

Definition finish_savepoint (name : string) (rollback : bool) : action Session unit :=
  let operation := if rollback then "rollback to savepoint" else "release savepoint" in
  let& b := active_backend operation in
  let& s := get_session in
  let t := transaction s in
  if negb (bool_decide (list.last (savepoints t) = Some name))
  then areturn (Err (transaction_error operation "savepoints must be completed in last-created, first-completed order"))
  else
    let& _ := call (if rollback then db_rollback_to_savepoint b name else db_release_savepoint b name) in
    set_transaction (mkTransactionState (ts_backend t) (take (length (savepoints t) - 1) (savepoints t)) (next_savepoint t)).

Definition session_release_savepoint (name : string) : action Session unit := finish_savepoint name false.
Definition session_rollback_to_savepoint (name : string) : action Session unit := finish_savepoint name true.

(** [Drop for DatabaseSession]: the transaction that is left is rolled back,
    whatever the rollback gives, and its handle is dropped. *)
Definition drop_session (s : Session) : W :=
  match ts_backend (transaction s) with
  | Some b => drop_backend b (db_rollback_transaction b (world s)).2
  | None => world s
  end.

(** [default_page]. *)
Definition default_page (b : B) (m : ModelMapping) : action W (list row) :=
  if existsb (String.eqb DEFAULT_PAGE_ORDER_FIELD) (fields m)
  then db_order_page b m (mkOrderPage DEFAULT_PAGE_ORDER_FIELD DEFAULT_PAGE_ORDER_DIRECTION DEFAULT_PAGE_LIMIT DEFAULT_PAGE_OFFSET)
  else db_page b m DEFAULT_PAGE_LIMIT DEFAULT_PAGE_OFFSET.
End Session.
Arguments TransactionState : clear implicits.
Arguments Session : clear implicits.

(** [DatabaseBackend for SessionDatabase]; the transactions of a session are
    begun through the session, so the trait's own are refused. *)
Definition refuse {W A : Type} (operation message : string) : action W A := areturn (Err (transaction_error operation message)).

#[export] Instance session_database {B W : Type} `{DatabaseBackend B W} : DatabaseBackend unit (Session B W) := {|
  db_find := fun _ m id => with_backend (fun b => db_find b m id);
  db_all := fun _ m => with_backend (fun b => db_all b m);
  db_count := fun _ m => with_backend (fun b => db_count b m);
  db_first := fun _ m => with_backend (fun b => db_first b m);
  db_limit := fun _ m limit => with_backend (fun b => db_limit b m limit);
  db_page := fun _ m limit offset => with_backend (fun b => db_page b m limit offset);
  db_order_page := fun _ m o => with_backend (fun b => db_order_page b m o);
  db_exists_by_id := fun _ m id => with_backend (fun b => db_exists_by_id b m id);
  db_where_eq := fun _ m field v => with_backend (fun b => db_where_eq b m field v);
  db_where_eq_limit := fun _ m field v limit => with_backend (fun b => db_where_eq_limit b m field v limit);
  db_where_eq_page := fun _ m field v limit offset => with_backend (fun b => db_where_eq_page b m field v limit offset);
  db_where_eq_order_page := fun _ m field v o => with_backend (fun b => db_where_eq_order_page b m field v o);
  db_insert := fun _ m attributes => with_backend (fun b => db_insert b m attributes);
  db_update_by_id := fun _ m id attributes => with_backend (fun b => db_update_by_id b m id attributes);
  db_start_transaction := fun _ => refuse "begin transaction" "this database backend does not support application transactions";
  db_commit_transaction := fun _ => refuse "commit transaction" "this database handle is not an active transaction";
  db_rollback_transaction := fun _ => refuse "rollback transaction" "this database handle is not an active transaction";
  db_create_savepoint := fun _ _ => refuse "create savepoint" "this database handle is not an active transaction";
  db_release_savepoint := fun _ _ => refuse "release savepoint" "this database handle is not an active transaction";
  db_rollback_to_savepoint := fun _ _ => refuse "rollback to savepoint" "this database handle is not an active transaction";
  drop_backend := fun _ => id |}.

(** ** Arguments of native methods *)

Definition missing_native_argument (method : string) (needed available : nat) : VmError :=
  VmError.StackUnderflow method needed available.

Definition argument_type_error (method expected : string) (v : Value) : VmError :=
  VmError.TypeError method expected (sql_value_kind v).

Definition string_argument (arguments : list Value) (index : nat) (method expected : string) : res VmError string :=
  match arguments !! index with
  | Some (Value.String s) => Ok s
  | Some v => Err (argument_type_error method expected v)
  | None => Err (missing_native_argument method (index + 1) (length arguments))
  end.

Definition map_argument (h : heap) (arguments : list Value) (index : nat) (method expected : string) : res VmError (btree Value) :=
  match arguments !! index with
  | Some (Value.Map l) => Ok (map_snapshot h l)
  | Some v => Err (argument_type_error method expected v)
  | None => Err (missing_native_argument method (index + 1) (length arguments))
  end.

Definition limit_argument (arguments : list Value) (index : nat) (method : string) : res VmError Z :=
  match arguments !! index with
  | Some (Value.Number n) =>
      if (0 <=? n)%Z then Ok (Z.min n MAX_ACTIVE_RECORD_LIMIT)
      else Err (VmError.InvalidArgument method ("limit must be non-negative, got " ++ show_Z n))
  | Some v => Err (argument_type_error method "non-negative number" v)
  | None => Err (missing_native_argument method (index + 1) (length arguments))
  end.

Definition offset_argument (arguments : list Value) (index : nat) (method : string) : res VmError Z :=
  match arguments !! index with
  | Some (Value.Number n) =>
      if (0 <=? n)%Z then Ok (Z.min n MAX_ACTIVE_RECORD_OFFSET)
      else Err (VmError.InvalidArgument method ("offset must be non-negative, got " ++ show_Z n))
  | Some v => Err (argument_type_error method "non-negative number" v)
  | None => Err (missing_native_argument method (index + 1) (length arguments))
  end.

(** [arguments.get(index)], of a method that needs [needed] arguments. *)
Definition any_argument (arguments : list Value) (index : nat) (method : string) (needed : nat) : res VmError Value :=
  match arguments !! index with
  | Some v => Ok v
  | None => Err (missing_native_argument method needed (length arguments))
  end.

Definition savepoint_argument (arguments : list Value) (method : string) : res VmError string :=
  match list.last arguments with
  | Some (Value.Instance c fields) =>
      if String.eqb c "DatabaseSavepoint" then
        match bt_get "name" fields with
        | Some (Value.String name) => Ok name
        | Some v => Err (argument_type_error method "savepoint name string" v)
        | None => Err (VmError.InvalidArgument method "savepoint has no name")
        end
      else Err (argument_type_error method "DatabaseSavepoint" (Value.Instance c fields))
  | Some v => Err (argument_type_error method "DatabaseSavepoint" v)
  | None => Err (missing_native_argument method 1 0)
  end.

Definition model_mapping (mappings : btree ModelMapping) (model_name : string) : result ModelMapping :=
  match bt_get model_name mappings with
  | Some m => Ok m
  | None => Err (ActiveRecordError.UnknownModel model_name)
  end.

(** ** Native methods

    A closure fails with an error of the machine while it reads its arguments;
    what the database then gives, an error too, becomes a [Result] value. *)

Inductive Reply : Type :=
  | Unit_
  | Rows (rows : list row)
  | Row (r : row)
  | OptionalRow (r : option row)
  | Count (n : Z)
  | Exists_ (b : bool)
  | Savepoint (name : string).

Fixpoint alloc_rows (rows : list row) (h : heap) : list Value * heap :=
  match rows with
  | [] => ([], h)
  | r :: rows' =>
      let '(l, h) := alloc (CMap r) h in
      let '(vs, h) := alloc_rows rows' h in (Value.Map l :: vs, h)
  end.

Definition row_value (r : row) (h : heap) : Value * heap := let '(l, h) := alloc (CMap r) h in (Value.Map l, h).

Definition reply_value (r : Reply) (h : heap) : Value * heap :=
  match r with
  | Unit_ => (Value.Bool true, h)
  | Rows rows => let '(vs, h) := alloc_rows rows h in let '(l, h) := alloc (CArray vs) h in (Value.Array l, h)
  | Row r | OptionalRow (Some r) => row_value r h
  | OptionalRow None => (Value.Nil, h)
  | Count n => (Value.Number n, h)
  | Exists_ b => (Value.Bool b, h)
  | Savepoint name => (Value.Instance "DatabaseSavepoint" [("name", Value.String name)], h)
  end.

(** [Value::result_ok(...)] of a reply, [database_result_error] of an error;
    [debug] is the text of [{:?}] for a string. *)
Definition render (debug : string -> string) (m : msg) : string :=
  String.concat "" ((fun p => match p with
                              | Lit s | Disp s => s
                              | Dbg s => debug s
                              | DispN n => show_N n
                              | DispChar c => from_bytes (encode_char c)
                              end) <$> m).

Definition database_result_error (debug : string -> string) (e : ActiveRecordError) : Value :=
  result_err "DatabaseError" (render debug (display_error e)).

Definition reply_result (debug : string -> string) (r : result Reply) (h : heap) : res VmError (Value * heap) :=
  match r with
  | Ok r => let '(v, h) := reply_value r h in Ok (result_ok v, h)
  | Err e => Ok (database_result_error debug e, h)
  | Panic => Panic
  | OutOfFuel => OutOfFuel
  end.

Section Methods.
Context {B W : Type} `{DatabaseBackend B W} (b : B).

(** A method of the class [owner], on the model of [mapping]; the arguments
    that follow the name of the model, if it is one, start at [base]. *)
Section Method.
Context (owner : string) (mapping : result ModelMapping) (base : nat) (h : heap) (arguments : list Value).

Definition on_model {A : Type} (query : ModelMapping -> action W A) (reply : A -> Reply) : action W Reply :=
  let& m := areturn mapping in
  let& a := query m in
  areturn (Ok (reply a)).

Definition native_all : res VmError (action W Reply) := Ok (on_model (db_all b) Rows).
Definition native_default_page : res VmError (action W Reply) := Ok (on_model (default_page b) Rows).
Definition native_count_records : res VmError (action W Reply) := Ok (on_model (db_count b) Count).
Definition native_first_record : res VmError (action W Reply) := Ok (on_model (db_first b) OptionalRow).

Definition native_limit : res VmError (action W Reply) :=
  let? limit := limit_argument arguments base (owner ++ ".limit") in
  Ok (on_model (fun m => db_limit b m limit) Rows).

Definition native_page : res VmError (action W Reply) :=
  let? limit := limit_argument arguments base (owner ++ ".page") in
  let? offset := offset_argument arguments (base + 1) (owner ++ ".page") in
  Ok (on_model (fun m => db_page b m limit offset) Rows).

Definition native_order_page : res VmError (action W Reply) :=
  let method := owner ++ ".order_page" in
  let? field := string_argument arguments base method "field name" in
  let? dir := string_argument arguments (base + 1) method "order direction" in
  let? limit := limit_argument arguments (base + 2) method in
  let? offset := offset_argument arguments (base + 3) method in
  Ok (on_model (fun m => db_order_page b m (mkOrderPage field dir limit offset)) Rows).

Definition native_exists : res VmError (action W Reply) :=
  let? id := any_argument arguments base (owner ++ ".exists?") (base + 1) in
  Ok (on_model (fun m => db_exists_by_id b m id) Exists_).

Definition native_find_record : res VmError (action W Reply) :=
  let? id := any_argument arguments base (owner ++ ".find_record") (base + 1) in
  Ok (on_model (fun m => db_find b m id) OptionalRow).

Definition native_where : res VmError (action W Reply) :=
  let method := owner ++ ".where" in
  let? field := string_argument arguments base method "field name" in
  let? v := any_argument arguments (base + 1) method (base + 2) in
  Ok (on_model (fun m => db_where_eq b m field v) Rows).

Definition native_where_limit : res VmError (action W Reply) :=
  let method := owner ++ ".where_limit" in
  let? field := string_argument arguments base method "field name" in
  let? v := any_argument arguments (base + 1) method (base + 3) in
  let? limit := limit_argument arguments (base + 2) method in
  Ok (on_model (fun m => db_where_eq_limit b m field v limit) Rows).

Definition native_where_page : res VmError (action W Reply) :=
  let method := owner ++ ".where_page" in
  let? field := string_argument arguments base method "field name" in
  let? v := any_argument arguments (base + 1) method (base + 4) in
  let? limit := limit_argument arguments (base + 2) method in
  let? offset := offset_argument arguments (base + 3) method in
  Ok (on_model (fun m => db_where_eq_page b m field v limit offset) Rows).

Definition native_where_order_page : res VmError (action W Reply) :=
  let method := owner ++ ".where_order_page" in
  let? where_field := string_argument arguments base method "field name" in
  let? v := any_argument arguments (base + 1) method (base + 6) in
  let? field := string_argument arguments (base + 2) method "order field name" in
  let? dir := string_argument arguments (base + 3) method "order direction" in
  let? limit := limit_argument arguments (base + 4) method in
  let? offset := offset_argument arguments (base + 5) method in
  Ok (on_model (fun m => db_where_eq_order_page b m where_field v (mkOrderPage field dir limit offset)) Rows).

Definition native_insert : res VmError (action W Reply) :=
  let? attributes := map_argument h arguments base (owner ++ ".insert") "attributes map" in
  Ok (on_model (fun m => db_insert b m attributes) Row).

Definition native_update : res VmError (action W Reply) :=
  let method := owner ++ ".update" in
  let? id := any_argument arguments base method (base + 2) in
  let? attributes := map_argument h arguments (base + 1) method "attributes map" in
  Ok (on_model (fun m => db_update_by_id b m id attributes) Row).

(** The methods by name, with the number of arguments after the name. *)
Definition query_methods : list (string * nat * res VmError (action W Reply)) :=
  [("all", 0, native_all); ("default_page", 0, native_default_page); ("count_records", 0, native_count_records);
   ("first_record", 0, native_first_record); ("limit", 1, native_limit); ("page", 2, native_page);
   ("order_page", 4, native_order_page); ("exists?", 1, native_exists); ("find_record", 1, native_find_record);
   ("where", 2, native_where); ("where_limit", 3, native_where_limit); ("where_page", 4, native_where_page);
   ("where_order_page", 6, native_where_order_page); ("insert", 1, native_insert); ("update", 2, native_update)].
End Method.
End Methods.

(** The methods of the capability, of a savepoint and of the class of a model,
    by name: how many arguments they take, and what they do with the arguments
    that a call gives, the receiver last. *)
Section Installed.
Context {B W : Type} `{DatabaseBackend B W} (mappings : btree ModelMapping).
Implicit Types (h : heap) (arguments : list Value).

Definition unit_reply (m : action (Session B W) unit) : action (Session B W) Reply :=
  let& _ := m in areturn (Ok Unit_).

Definition find_method {A : Type} (name : string) (methods : list (string * nat * A)) : option (nat * A) :=
  match list_find (fun m => String.eqb m.1.1 name) methods with
  | Some (_, (_, arity, m)) => Some (arity, m)
  | None => None
  end.

Definition capability_method (name : string) h arguments : option (nat * res VmError (action (Session B W) Reply)) :=
  if String.eqb name "begin" then Some (0, Ok (unit_reply session_begin))
  else if String.eqb name "commit" then Some (0, Ok (unit_reply session_commit))
  else if String.eqb name "rollback" then Some (0, Ok (unit_reply session_rollback))
  else if String.eqb name "savepoint" then
    Some (0, Ok (let& name := session_savepoint in areturn (Ok (Savepoint name))))
  else
    let model := string_argument arguments 0 ("DatabaseCapability." ++ name) "model name" in
    match find_method name (query_methods tt "DatabaseCapability"
                              (match model with Ok model_name => model_mapping mappings model_name | _ => Panic end)
                              1 h arguments) with
    | Some (arity, m) => Some (arity + 1, let? _ := model in m)
    | None => None
    end.

Definition savepoint_method (name : string) arguments : option (nat * res VmError (action (Session B W) Reply)) :=
  if String.eqb name "commit" then
    Some (0, let? name := savepoint_argument arguments "DatabaseSavepoint.commit" in
             Ok (unit_reply (session_release_savepoint name)))
  else if String.eqb name "rollback" then
    Some (0, let? name := savepoint_argument arguments "DatabaseSavepoint.rollback" in
             Ok (unit_reply (session_rollback_to_savepoint name)))
  else None.

Definition model_method (m : ModelMapping) (name : string) h arguments
    : option (nat * res VmError (action (Session B W) Reply)) :=
  find_method name (query_methods tt (class_name m) (Ok m) 0 h arguments).
End Installed.

(** ** The method [transaction]

    It is a program of the language, which the capability compiles when it is
    installed. *)
Definition quote : string := String (ascii_of_N 34) "".
Definition newline : string := String (ascii_of_N 10) "".

Definition transaction_source : string :=
  newline ++ "DatabaseCapability Capability Subclass" ++ newline
  ++ "  ( body -> result ) [" ++ newline
  ++ "    body var" ++ newline
  ++ "    self begin" ++ newline
  ++ "    dup ok? if" ++ newline
  ++ "      value drop" ++ newline
  ++ "      $body call" ++ newline
  ++ "      dup ok? if" ++ newline
  ++ "        self commit" ++ newline
  ++ "        dup ok? if" ++ newline
  ++ "          value drop" ++ newline
  ++ "        else" ++ newline
  ++ "          swap drop" ++ newline
  ++ "        end" ++ newline
  ++ "      else" ++ newline
  ++ "        self rollback" ++ newline
  ++ "        dup ok? if" ++ newline
  ++ "          value drop" ++ newline
  ++ "        else" ++ newline
  ++ "          swap drop" ++ newline
  ++ "        end" ++ newline
  ++ "      end" ++ newline
  ++ "    end" ++ newline
  ++ "  ] " ++ quote ++ "transaction" ++ quote ++ " Method" ++ newline
  ++ "end" ++ newline.

(** What the program does, as a function of the methods it calls and of the
    block: a program of the machine ends with a value or an error, or waits. *)
Definition program (S : Type) : Type := S -> option (res VmError Value) * S.

Definition pret {S : Type} (v : Value) : program S := fun s => (Some (Ok v), s).

Definition pbind {S : Type} (m : program S) (k : Value -> program S) : program S := fun s =>
  match m s with
  | (Some (Ok v), s) => k v s
  | r => r
  end.

(** The word [ok?], as a condition. *)
Definition if_ok {S : Type} (v : Value) (yes no : program S) : program S := fun s =>
  match v with
  | Value.Result (ROk _) => yes s
  | Value.Result (RErr _) => no s
  | v => (Some (Err (VmError.TypeError "ok?" "result" (value_kind v))), s)
  end.

Definition transaction_program {S : Type} (begin commit rollback body : program S) : program S :=
  pbind begin (fun begun =>
    if_ok begun
      (pbind body (fun v =>
         if_ok v
           (pbind commit (fun committed => if_ok committed (pret v) (pret committed)))
           (pbind rollback (fun rolled_back => if_ok rolled_back (pret v) (pret rolled_back)))))
      (pret begun)).

Definition database_unit_result (debug : string -> string) (r : result unit) : res VmError Value :=
  match r with
  | Ok _ => Ok (result_ok (Value.Bool true))
  | Err e => Ok (database_result_error debug e)
  | Panic => Panic
  | OutOfFuel => OutOfFuel
  end.

Definition unit_method {S : Type} (debug : string -> string) (m : action S unit) : program S := fun s =>
  match m s with
  | (Done r, s) => (Some (database_unit_result debug r), s)
  | (Waits, s) => (None, s)
  end.

(** [db transaction], on a session. *)
Definition session_transaction {B W : Type} `{DatabaseBackend B W} (debug : string -> string) (body : program (Session B W))
    : program (Session B W) :=
  transaction_program (unit_method debug session_begin) (unit_method debug session_commit) (unit_method debug session_rollback) body.

(** ** Queries

    The calls of a database on a model, as data. *)
Inductive DbQuery : Type :=
  | QFind (id : Value)
  | QAll
  | QDefaultPage
  | QCount
  | QFirst
  | QLimit (limit : Z)
  | QPage (limit offset : Z)
  | QOrderPage (o : OrderPage)
  | QExists (id : Value)
  | QWhere (field : string) (v : Value)
  | QWhereLimit (field : string) (v : Value) (limit : Z)
  | QWherePage (field : string) (v : Value) (limit offset : Z)
  | QWhereOrderPage (field : string) (v : Value) (o : OrderPage)
  | QInsert (attributes : btree Value)
  | QUpdate (id : Value) (attributes : btree Value).

Definition db_query {B W : Type} `{DatabaseBackend B W} (b : B) (mapping : result ModelMapping) (q : DbQuery) : action W Reply :=
  match q with
  | QFind id => on_model mapping (fun m => db_find b m id) OptionalRow
  | QAll => on_model mapping (db_all b) Rows
  | QDefaultPage => on_model mapping (default_page b) Rows
  | QCount => on_model mapping (db_count b) Count
  | QFirst => on_model mapping (db_first b) OptionalRow
  | QLimit limit => on_model mapping (fun m => db_limit b m limit) Rows
  | QPage limit offset => on_model mapping (fun m => db_page b m limit offset) Rows
  | QOrderPage o => on_model mapping (fun m => db_order_page b m o) Rows
  | QExists id => on_model mapping (fun m => db_exists_by_id b m id) Exists_
  | QWhere field v => on_model mapping (fun m => db_where_eq b m field v) Rows
  | QWhereLimit field v limit => on_model mapping (fun m => db_where_eq_limit b m field v limit) Rows
  | QWherePage field v limit offset => on_model mapping (fun m => db_where_eq_page b m field v limit offset) Rows
  | QWhereOrderPage field v o => on_model mapping (fun m => db_where_eq_order_page b m field v o) Rows
  | QInsert attributes => on_model mapping (fun m => db_insert b m attributes) Row
  | QUpdate id attributes => on_model mapping (fun m => db_update_by_id b m id attributes) Row
  end.
