(* ===== verification/ActiveRecordProofs.v ===== *)
(** * Active records, proved

    What a query can be: its text reads, token by token, as the statement of
    its kind over the identifiers of the mapping, whatever a script passes, and
    the values go with the placeholders.  A batch is split at the semicolons
    that are outside of quotes and comments; a quoted identifier is read back. *)

From stdpp Require Import base tactics list strings option numbers.
From Stdlib Require Import ZArith NArith Lia Ascii String.
From S2P Require Import Prelude RustStr RustText RustFloat BTree Value VmState WebCoding ActiveRecord Database.

Open Scope string_scope.
Open Scope list_scope.
Open Scope nat_scope.

(** ** The tokens of a statement

    The words, parameters and punctuation of SQL.  There is no token for what
    a statement must not hold: quotes, comments, semicolons, other operators. *)
Inductive sql_token : Type :=
  | TWord (w : string)
  | TParam (digits : string)
  | TPunct (b : byte).

Inductive partial : Type := PWord (w : list byte) | PParam (digits : list byte).

Definition flush (cur : option partial) : list sql_token :=
  match cur with
  | None => []
  | Some (PWord w) => [TWord (from_bytes w)]
  | Some (PParam ds) => [TParam (from_bytes ds)]
  end.

Definition blank (b : byte) : bool := Ascii.eqb b " ".
Definition punctuation (b : byte) : bool := existsb (Ascii.eqb b) ["("; ")"; ","; "."; "="; "*"]%char.

(** The bytes after which a token starts anew. *)
Definition separates (b : byte) : bool := blank b || punctuation b || Ascii.eqb b "?".

Fixpoint sql_tokens (cur : option partial) (l : list byte) : option (list sql_token) :=
  match l with
  | [] => Some (flush cur)
  | b :: l' =>
      match cur with
      | Some (PWord w) =>
          if identifier_byte b then sql_tokens (Some (PWord (w ++ [b]))) l'
          else if blank b then app (flush cur) <$> sql_tokens None l'
          else if Ascii.eqb b "?" then app (flush cur ++ [TParam ""]) <$> sql_tokens None l'
          else if punctuation b then app (flush cur ++ [TPunct b]) <$> sql_tokens None l'
          else None
      | Some (PParam ds) =>
          if is_ascii_digit b then sql_tokens (Some (PParam (ds ++ [b]))) l'
          else if blank b then app (flush cur) <$> sql_tokens None l'
          else if punctuation b then app (flush cur ++ [TPunct b]) <$> sql_tokens None l'
          else None
      | None =>
          if identifier_byte b then sql_tokens (Some (PWord [b])) l'
          else if Ascii.eqb b "$" then sql_tokens (Some (PParam [])) l'
          else if blank b then sql_tokens None l'
          else if Ascii.eqb b "?" then cons (TParam "") <$> sql_tokens None l'
          else if punctuation b then cons (TPunct b) <$> sql_tokens None l'
          else None
      end
  end.

Definition reads (s : string) (ts : list sql_token) : Prop := sql_tokens None (as_bytes s) = Some ts.

(** Nothing that is being read goes on with this text. *)
Definition starts_anew (l : list byte) : Prop := match l with [] => True | b :: _ => blank b || punctuation b = true end.

Definition ends_apart (l : list byte) (cur : option partial) : Prop :=
  match list.last l with Some b => separates b = true | None => cur = None end.

Lemma separates_cases b : separates b = true -> identifier_byte b = false /\ is_ascii_digit b = false /\ Ascii.eqb b "$" = false.
Proof. by destruct b as [[] [] [] [] [] [] [] []]. Qed.

Lemma anew_cases b : blank b || punctuation b = true ->
  identifier_byte b = false /\ is_ascii_digit b = false /\ Ascii.eqb b "$" = false /\ Ascii.eqb b "?" = false.
Proof. by destruct b as [[] [] [] [] [] [] [] []]. Qed.

Lemma tokens_flush cur l ts : starts_anew l -> sql_tokens None l = Some ts -> sql_tokens cur l = Some (flush cur ++ ts).
Proof.
  destruct l as [|b l]; intros Hl H; [simpl in *; injection H as <-; by rewrite app_nil_r|].
  destruct (anew_cases b Hl) as (E1 & E2 & E3 & E4). cbn [sql_tokens] in *. rewrite E1, E3, E4 in H.
  destruct cur as [[w|ds]|]; [rewrite E1, E4|rewrite E2|by rewrite E1, E3, E4, H];
    (destruct (blank b); [by rewrite H|]; destruct (punctuation b); [|done];
     destruct (sql_tokens None l) as [ts'|]; [|done]; simpl in *; by injection H as <-).
Qed.

Lemma ends_apart_cons b l cur cur' : ends_apart (b :: l) cur -> (l = [] -> separates b = true -> cur' = None) -> ends_apart l cur'.
Proof.
  unfold ends_apart. destruct l as [|c l] using rev_ind; [simpl; auto|].
  by rewrite app_comm_cons, !list.last_snoc.
Qed.

Lemma tokens_app a : forall cur l ta tl, sql_tokens cur a = Some ta -> sql_tokens None l = Some tl ->
  starts_anew l \/ ends_apart a cur -> sql_tokens cur (a ++ l) = Some (ta ++ tl).
Proof.
  induction a as [|b a IH]; intros cur l ta tl Ha Hl Hs.
  - simpl in *. injection Ha as <-. destruct Hs as [Hs| ->]; [by apply tokens_flush|done].
  - assert (forall cur', (a = [] -> separates b = true -> cur' = None) -> forall ts, sql_tokens cur' a = Some ts ->
              sql_tokens cur' (a ++ l) = Some (ts ++ tl)) as Hnext.
    { intros cur' Hc ts Hts. apply IH; [done..|]. destruct Hs as [Hs|Hs]; [by left|right]. by eapply ends_apart_cons. }
    clear IH. cbn [sql_tokens app] in *.
    assert (forall (p : list sql_token) o, app p <$> sql_tokens None a = Some o -> app p <$> sql_tokens None (a ++ l) = Some (o ++ tl)) as Happ.
    { intros p o Ho. destruct (sql_tokens None a) as [ts|] eqn:Ets; [|done]. simpl in Ho. injection Ho as <-.
      rewrite (Hnext None) with (ts := ts) by done. simpl. by rewrite app_assoc. }
    assert (forall t o, cons t <$> sql_tokens None a = Some o -> cons t <$> sql_tokens None (a ++ l) = Some (o ++ tl)) as Hcons.
    { intros t o Ho. exact (Happ [t] o Ho). }
    destruct cur as [[w|ds]|]; repeat case_match; try done; auto;
      (apply Hnext; [|done]; intros _ Hb; apply separates_cases in Hb as (? & ? & ?); congruence).
Qed.

Lemma reads_app a b ta tb : reads a ta -> reads b tb -> starts_anew (as_bytes b) \/ ends_apart (as_bytes a) None ->
  reads (a ++ b)%string (ta ++ tb).
Proof. intros Ha Hb Hs. unfold reads. rewrite as_bytes_app. by apply tokens_app. Qed.

(** *** The parts of a statement *)

Definition identifier (s : string) : Prop := is_postgres_identifier s = true.

Lemma word_tokens w l : Forall (fun b => identifier_byte b = true) l -> sql_tokens (Some (PWord w)) l = Some [TWord (from_bytes (w ++ l))].
Proof.
  intros Hl. revert w. induction Hl as [|b l Hb _ IH]; intros w; simpl; [by rewrite app_nil_r|].
  rewrite Hb, IH. by rewrite <- app_assoc.
Qed.

Lemma identifier_reads s : identifier s -> reads s [TWord s].
Proof.
  unfold identifier, is_postgres_identifier, reads. intros Hs. destruct (as_bytes s) as [|b l] eqn:E; [done|].
  simpl in *. apply andb_prop in Hs as [Hb Hl]. unfold identifier_byte at 1. rewrite Hb. simpl.
  rewrite word_tokens; [|by apply list.Forall_forall; intros x Hx; rewrite forallb_forall in Hl; apply Hl, list_elem_of_In].
  by rewrite <- (from_as_bytes s), E.
Qed.

Lemma digits_tokens d l : Forall (fun b => is_ascii_digit b = true) l -> sql_tokens (Some (PParam d)) l = Some [TParam (from_bytes (d ++ l))].
Proof.
  intros Hl. revert d. induction Hl as [|b l Hb _ IH]; intros d; simpl; [by rewrite app_nil_r|].
  rewrite Hb, IH. by rewrite <- app_assoc.
Qed.

(** The [i]-th parameter, counted from one. *)
Definition param (d : SqlDialect) (i : nat) : sql_token :=
  TParam (match d with Postgres => show_N (N.of_nat i) | Sqlite | Mysql => "" end).

Lemma placeholder_reads d i : reads (placeholder d i) [param d i].
Proof.
  destruct d; try done. unfold reads, placeholder. change (as_bytes ("$" ++ show_N (N.of_nat i))%string) with ("$"%char :: as_bytes (show_N (N.of_nat i))).
  unfold show_N. rewrite as_from_bytes. simpl. rewrite digits_tokens; [done|].
  apply list.Forall_forall. intros x Hx. destruct (show_N_val (N.of_nat i)) as (_ & Hd & _).
  rewrite forallb_forall in Hd. by apply Hd, list_elem_of_In.
Qed.

(** Parts with a token between them. *)
Fixpoint separated (t : sql_token) (l : list (list sql_token)) : list sql_token :=
  match l with
  | [] => []
  | [ts] => ts
  | ts :: l' => ts ++ t :: separated t l'
  end.

Definition commas : list (list sql_token) -> list sql_token := separated (TPunct ",").

Lemma concat_reads sep t l ts : reads sep [t] -> starts_anew (as_bytes sep) -> ends_apart (as_bytes sep) None -> as_bytes sep <> [] ->
  Forall2 reads l ts -> reads (String.concat sep l) (separated t ts).
Proof.
  intros Hsep Hs He Hne HF. induction HF as [|s x l ts Hx HF IH]; [done|]. destruct HF as [|s' x' l ts Hx' HF]; [done|].
  change (String.concat sep (s :: s' :: l)) with (s ++ (sep ++ String.concat sep (s' :: l)))%string.
  change (separated t (x :: x' :: ts)) with (x ++ ([t] ++ separated t (x' :: ts))).
  apply reads_app; [done| |].
  - apply reads_app; [done..|]. by right.
  - left. rewrite as_bytes_app. by destruct (as_bytes sep).
Qed.

Definition words (l : list string) : list (list sql_token) := (fun f => [TWord f]) <$> l.

Lemma join_reads l ts : Forall2 reads l ts -> reads (join ", " l) (commas ts).
Proof. intros H. by apply concat_reads. Qed.

Lemma identifiers_read l : Forall identifier l -> Forall2 reads l (words l).
Proof. intros HF. unfold words. rewrite Forall2_fmap_r. induction HF; constructor; [by apply identifier_reads|done]. Qed.

Lemma fields_read l : Forall identifier l -> reads (join ", " l) (commas (words l)).
Proof. intros H. by apply join_reads, identifiers_read. Qed.

Lemma concat_split b l : String.concat (String b "") (from_bytes <$> split_byte b l) = from_bytes l.
Proof.
  induction l as [|c l IH]; [done|]. cbn [split_byte]. destruct (split_nonnil b l) as (p & ps & E).
  destruct (Ascii.eqb_spec c b) as [->|Hc]; rewrite E in *; rewrite fmap_cons in IH; rewrite !fmap_cons;
    change (from_bytes (?c :: l)) with (String c (from_bytes l)); rewrite <- IH; [done|by destruct ps].
Qed.

(** The words of a table's name, with the dots between them. *)
Definition table_tokens (table : string) : list sql_token := separated (TPunct ".") (words (split_char "." table)).

Lemma table_reads table : Forall identifier (split_char "." table) -> reads table (table_tokens table).
Proof.
  intros H. pose proof (concat_reads "." (TPunct ".") _ _ eq_refl eq_refl eq_refl ltac:(done) (identifiers_read _ H)) as Hr.
  unfold split_char in Hr. change "."%string with (String "." "") in Hr at 1. rewrite concat_split in Hr. by rewrite from_as_bytes in Hr.
Qed.

(** ** Valid mappings *)

Record valid_mapping (m : ModelMapping) : Prop := {
  valid_table : Forall identifier (split_char "." (mapping_table m));
  valid_fields : Forall identifier (fields m) }.

Lemma try_map_ok {A B E : Type} (f : A -> res E B) l l' : try_map f l = Ok l' -> Forall2 (fun a b => f a = Ok b) l l'.
Proof.
  revert l'. induction l as [|a l IH]; intros l' H; simpl in H; [by simplify_eq|].
  destruct (f a) eqn:E1; try done. simpl in H. destruct (try_map f l) eqn:E2; try done. simpl in H. simplify_eq. constructor; auto.
Qed.

Lemma forallb_Forall {A : Type} (p : A -> bool) l : forallb p l = true <-> Forall (fun x => p x = true) l.
Proof. rewrite forallb_forall, list.Forall_forall. split; intros H x Hx; apply H, list_elem_of_In, Hx. Qed.

Lemma try_new_valid c table fs m : try_new c table fs = Ok m -> valid_mapping m /\ mapping_table m = table /\ fields m = fs.
Proof.
  unfold try_new, validate_table_identifier. destruct (forallb _ _) eqn:Ht; [|done]. simpl.
  destruct (try_map _ fs) as [fs'| | |] eqn:Hf; try done. simpl. intros [= <-]. apply try_map_ok in Hf.
  assert (fs' = fs /\ Forall identifier fs) as [-> Hfs].
  { clear Ht. induction Hf as [|f f' fs fs' Hx _ [-> IH]]; [done|]. unfold validate_field_identifier in Hx.
    destruct (is_postgres_identifier f) eqn:E; [|done]. simpl in Hx. simplify_eq. split; [done|by constructor]. }
  split; [split; simpl; [by apply forallb_Forall|done]|done].
Qed.

Lemma require_field_ok m f : require_field m f = Ok tt <-> identifier f /\ f ∈ fields m.
Proof.
  unfold require_field, validate_field_identifier, identifier. destruct (is_postgres_identifier f); simpl; [|naive_solver].
  destruct (existsb _ _) eqn:E.
  - apply existsb_exists in E as (g & Hg & ->%String.eqb_eq). apply list_elem_of_In in Hg. naive_solver.
  - split; [done|]. intros [_ Hf]. assert (existsb (String.eqb f) (fields m) = true); [|congruence].
    apply existsb_exists. exists f. by rewrite String.eqb_refl, <- list_elem_of_In.
Qed.

(** ** The statement of each query *)

Definition kw (s : string) : sql_token := TWord s.

Definition select_tokens (m : ModelMapping) : list sql_token :=
  kw "select" :: commas (words (fields m)) ++ kw "from" :: table_tokens (mapping_table m).

Definition where_tokens (field : string) (p : sql_token) : list sql_token := [kw "where"; kw field; TPunct "="; p].
Definition limit_tokens (p : sql_token) : list sql_token := [kw "limit"; p].
Definition offset_tokens (p : sql_token) : list sql_token := [kw "offset"; p].
Definition order_tokens (field dir : string) : list sql_token :=
  [kw "order"; kw "by"; kw field; kw (to_ascii_lowercase dir)].

Definition columns (m : ModelMapping) : list string := filter (fun f => f <> "id") (fields m).

Definition insert_tokens (m : ModelMapping) (d : SqlDialect) : list sql_token :=
  [kw "insert"; kw "into"] ++ table_tokens (mapping_table m) ++ TPunct "(" :: commas (words (columns m)) ++
  [TPunct ")"; kw "values"; TPunct "("] ++ commas ((fun i => [param d i]) <$> seq 1 (length (columns m))) ++ [TPunct ")"].

Definition update_tokens (m : ModelMapping) (d : SqlDialect) : list sql_token :=
  kw "update" :: table_tokens (mapping_table m) ++
  kw "set" :: commas (imap (fun i f => [kw f; TPunct "="; param d (i + 1)]) (columns m)) ++
  where_tokens "id" (param d (length (columns m) + 1)).

Definition returning_tokens (m : ModelMapping) : list sql_token := kw "returning" :: commas (words (fields m)).

(** What the statement of a query has to be. *)
Definition query_tokens (m : ModelMapping) (d : SqlDialect) (q : DbQuery) : list sql_token :=
  match q with
  | QFind _ => select_tokens m ++ where_tokens "id" (param d 1) ++ limit_tokens (kw "1")
  | QAll => select_tokens m
  | QDefaultPage =>
      select_tokens m ++ (if existsb (String.eqb "id") (fields m) then order_tokens "id" "asc" else []) ++
      limit_tokens (param d 1) ++ offset_tokens (param d 2)
  | QCount => [kw "select"; kw "count"; TPunct "("; TPunct "*"; TPunct ")"; kw "from"] ++ table_tokens (mapping_table m)
  | QFirst => select_tokens m ++ limit_tokens (kw "1")
  | QLimit _ => select_tokens m ++ limit_tokens (param d 1)
  | QPage _ _ => select_tokens m ++ limit_tokens (param d 1) ++ offset_tokens (param d 2)
  | QOrderPage o =>
      select_tokens m ++ order_tokens (order_field o) (direction o) ++ limit_tokens (param d 1) ++ offset_tokens (param d 2)
  | QExists _ =>
      [kw "select"; kw "exists"; TPunct "("; kw "select"; kw "1"; kw "from"] ++ table_tokens (mapping_table m) ++
      where_tokens "id" (param d 1) ++ [TPunct ")"]
  | QWhere f _ => select_tokens m ++ where_tokens f (param d 1)
  | QWhereLimit f _ _ => select_tokens m ++ where_tokens f (param d 1) ++ limit_tokens (param d 2)
  | QWherePage f _ _ _ => select_tokens m ++ where_tokens f (param d 1) ++ limit_tokens (param d 2) ++ offset_tokens (param d 3)
  | QWhereOrderPage f _ o =>
      select_tokens m ++ where_tokens f (param d 1) ++ order_tokens (order_field o) (direction o) ++
      limit_tokens (param d 2) ++ offset_tokens (param d 3)
  | QInsert _ => insert_tokens m d ++ returning_tokens m
  | QUpdate _ _ => update_tokens m d ++ returning_tokens m
  end.

(** The values that go with its placeholders. *)
Definition bound (m : ModelMapping) (q : DbQuery) (values : list Value) : Prop :=
  match q with
  | QFind id | QExists id => values = [id]
  | QAll | QCount | QFirst => values = []
  | QDefaultPage => values = [Value.Number 50; Value.Number 0]
  | QLimit limit => values = [Value.Number limit]
  | QPage limit offset => values = [Value.Number limit; Value.Number offset]
  | QOrderPage o => values = [Value.Number (order_limit o); Value.Number (order_offset o)]
  | QWhere _ v => values = [v]
  | QWhereLimit _ v limit => values = [v; Value.Number limit]
  | QWherePage _ v limit offset => values = [v; Value.Number limit; Value.Number offset]
  | QWhereOrderPage _ v o => values = [v; Value.Number (order_limit o); Value.Number (order_offset o)]
  | QInsert attributes => Forall2 (fun f v => bt_get f attributes = Some v) (columns m) values
  | QUpdate id attributes => exists vs, values = vs ++ [id] /\ Forall2 (fun f v => bt_get f attributes = Some v) (columns m) vs
  end.

Lemma order_direction_ok dir d : validate_order_direction dir = Ok d -> d = to_ascii_lowercase dir /\ (d = "asc" \/ d = "desc")%string.
Proof.
  unfold validate_order_direction. destruct (String.eqb_spec (to_ascii_lowercase dir) "asc") as [E|]; [intros [= <-]; auto|].
  destruct (String.eqb_spec (to_ascii_lowercase dir) "desc") as [E|]; [intros [= <-]; auto|done].
Qed.

Lemma reads_eq s ts ts' : reads s ts -> ts = ts' -> reads s ts'.
Proof. by intros H <-. Qed.

Section Texts.
Context (m : ModelMapping) (d : SqlDialect) (Hm : valid_mapping m).

Lemma columns_identifiers : Forall identifier (columns m).
Proof. unfold columns. apply list.Forall_forall. intros f Hf%list_elem_of_filter. destruct Hm as [_ H]. rewrite list.Forall_forall in H. by apply H, Hf. Qed.

Lemma placeholders_read n : reads (join ", " (placeholders d n)) (commas ((fun i => [param d i]) <$> seq 1 n)).
Proof.
  apply join_reads. unfold placeholders. rewrite Forall2_fmap. apply Forall_Forall2_diag, list.Forall_forall.
  intros i _. apply placeholder_reads.
Qed.

Lemma assignments_of (ph : nat -> string) (pa : nat -> sql_token) l : Forall identifier l -> (forall i, reads (ph i) [pa i]) ->
  Forall2 reads (imap (fun i f => (f ++ " = " ++ ph i)%string) l) (imap (fun i f => [kw f; TPunct "="; pa i]) l).
Proof.
  intros Hl. revert ph pa. induction Hl as [|f l Hf _ IH]; intros ph pa Hp; [constructor|].
  rewrite !imap_cons. constructor; [|by apply (IH (ph ∘ S) (pa ∘ S)); intros i; apply Hp].
  change [kw f; TPunct "="; pa 0] with ([kw f] ++ [TPunct "="] ++ [pa 0]).
  apply reads_app; [by apply identifier_reads| |by left]. apply reads_app; [done|by apply Hp|by right].
Qed.

Lemma assignments_read :
  reads (join ", " (assignments m d)) (commas (imap (fun i f => [kw f; TPunct "="; param d (i + 1)]) (columns m))).
Proof.
  apply join_reads. apply (assignments_of (fun i => placeholder d (i + 1)) (fun i => param d (i + 1))); [apply columns_identifiers|].
  intros i. apply placeholder_reads.
Qed.
End Texts.

(** A literal, or a part that a hypothesis is about. *)
Ltac read_part :=
  first [ eapply fields_read; by (eauto using valid_fields, columns_identifiers)
        | eapply table_reads; by (eauto using valid_table)
        | eapply placeholder_reads | eapply placeholders_read | eapply assignments_read; by eauto
        | eapply identifier_reads; by eauto | reflexivity ].

Ltac read_text :=
  lazymatch goal with
  | |- reads (_ ++ _)%string _ => eapply reads_app; [read_part | read_text | first [by left | by right]]
  | _ => read_part
  end.

(** The statement and the values that the code pairs for a query. *)
Definition statement (m : ModelMapping) (d : SqlDialect) (q : DbQuery) : result (string * list Value) :=
  match q with
  | QFind id => Ok (select_by_id_sql_for m d, [id])
  | QAll => Ok (select_all_sql m, [])
  | QDefaultPage =>
      if existsb (String.eqb "id") (fields m)
      then let? sql := select_order_page_sql_for m d "id" "asc" in Ok (sql, [Value.Number 50; Value.Number 0])
      else Ok (select_page_sql_for m d, [Value.Number 50; Value.Number 0])
  | QCount => Ok (select_count_sql m, [])
  | QFirst => Ok (select_first_sql m, [])
  | QLimit limit => Ok (select_limit_sql_for m d, [Value.Number limit])
  | QPage limit offset => Ok (select_page_sql_for m d, [Value.Number limit; Value.Number offset])
  | QOrderPage o =>
      let? sql := select_order_page_sql_for m d (order_field o) (direction o) in
      Ok (sql, [Value.Number (order_limit o); Value.Number (order_offset o)])
  | QExists id => Ok (exists_by_id_sql_for m d, [id])
  | QWhere f v => let? sql := select_where_eq_sql_for m d f in Ok (sql, [v])
  | QWhereLimit f v limit => let? sql := select_where_eq_limit_sql_for m d f in Ok (sql, [v; Value.Number limit])
  | QWherePage f v limit offset =>
      let? sql := select_where_eq_page_sql_for m d f in Ok (sql, [v; Value.Number limit; Value.Number offset])
  | QWhereOrderPage f v o =>
      let? sql := select_where_eq_order_page_sql_for m d f (order_field o) (direction o) in
      Ok (sql, [v; Value.Number (order_limit o); Value.Number (order_offset o)])
  | QInsert attributes => let? values := insert_values m attributes in Ok (insert_sql_for m d, values)
  | QUpdate id attributes => let? values := update_values m id attributes in Ok (update_by_id_sql_for m d, values)
  end.

Lemma attributes_bound m fs attributes values : values_for_fields m fs attributes = Ok values ->
  Forall2 (fun f v => bt_get f attributes = Some v) fs values.
Proof.
  intros H%try_map_ok. eapply Forall2_impl; [|exact H]. intros f v Hv. simpl in Hv.
  destruct (bt_get f attributes); [by simplify_eq|done].
Qed.

Lemma rbind_unit {E B : Type} (r : res E unit) (k : unit -> res E B) b : rbind r k = Ok b -> r = Ok tt /\ k tt = Ok b.
Proof. destruct r as [[]| | |]; try done. Qed.

(** The cases of [?] in an [Ok]. *)
Ltac ok_inv :=
  repeat match goal with
    | H : rbind _ _ = Ok _ |- _ => first [apply rbind_unit in H as [? H] | apply rbind_Ok in H as (? & ? & H)]
    | H : Ok _ = Ok _ |- _ => injection H as H; subst
    end; simplify_eq.

(** Whatever the script passes, the text of an accepted query reads as its
    statement, and its values go with the placeholders. *)
Lemma statement_reads m d q sql values : valid_mapping m -> statement m d q = Ok (sql, values) ->
  reads sql (query_tokens m d q) /\ bound m q values.
Proof.
  intros Hm H.
  assert (forall f, require_field m f = Ok tt -> identifier f) as Hid by (intros f Hf; by apply require_field_ok in Hf as [? _]).
  destruct q; cbn [statement query_tokens bound] in *; unfold select_order_page_sql_for, select_where_eq_sql_for,
    select_where_eq_limit_sql_for, select_where_eq_page_sql_for, select_where_eq_order_page_sql_for, insert_values, update_values in *;
    repeat case_match; ok_inv;
    repeat match goal with Hd : validate_order_direction _ = Ok _ |- _ => apply order_direction_ok in Hd as [-> [Hd|Hd]]; rewrite Hd end;
    (split; [eapply reads_eq; [unfold select_by_id_sql_for, select_all_sql, select_count_sql, select_first_sql, select_limit_sql_for,
       select_page_sql_for, exists_by_id_sql_for, insert_sql_for, update_by_id_sql_for; read_text|]|]).
  all: eauto using attributes_bound.
  all: unfold select_tokens, where_tokens, limit_tokens, offset_tokens, order_tokens, insert_tokens, update_tokens, returning_tokens.
  all: change (non_id_fields m) with (columns m); simpl; try match goal with E : to_ascii_lowercase _ = _ |- _ => rewrite E end.
  all: unfold kw; repeat (simpl; rewrite <- app_assoc); done.
Qed.

(** ** What a query does to the engine *)

Section Effects.
Context {C E : Type} `{Connection C E}.

(** The connection that a handle uses, when it is there. *)
Definition usable (db : SqliteDatabase) (s : SqliteState C E) : option C :=
  match sqlite_transaction db with
  | Some id => mjoin (transactions s !! id)
  | None => slot s
  end.

Inductive engine_call (c : C) (sql : string) (ps : list SqliteSqlValue) (e : E) : E -> Prop :=
  | by_query : engine_call c sql ps e (query c sql ps e).2
  | by_row : engine_call c sql ps e (query_row_i64 c sql ps e).2.

(** The call, with whether its answer is an error: the rows of a query may
    break off with one. *)
Definition query_failed (r : res string (list (list SqliteSqlValue) * option string)) : bool :=
  match r with Ok (_, None) => false | _ => true end.

Definition row_failed (r : res string Z) : bool := match r with Ok _ => false | _ => true end.

Inductive engine_answer (c : C) (sql : string) (ps : list SqliteSqlValue) (e : E) : bool -> E -> Prop :=
  | answer_query r e' : query c sql ps e = (r, e') -> engine_answer c sql ps e (query_failed r) e'
  | answer_row r e' : query_row_i64 c sql ps e = (r, e') -> engine_answer c sql ps e (row_failed r) e'.

Lemma answer_call c sql ps e failed e' : engine_answer c sql ps e failed e' -> engine_call c sql ps e e'.
Proof.
  intros [r e1 Hq|r e1 Hq]; [pose proof (by_query c sql ps e) as Hc|pose proof (by_row c sql ps e) as Hc]; by rewrite Hq in Hc.
Qed.

(** An error of the engine is never answered with a value. *)
Definition not_ok {A : Type} (o : outcome A) : Prop := forall a, o <> Done (Ok a).

Definition encoded (values : list Value) (ps : list SqliteSqlValue) : Prop :=
  Forall2 (fun v p => exists x, sqlite_parameter v = Ok x /\ p = sqlite_sql x) values ps.

(** One call of the engine on the connection of the handle, or none. *)
Record performed (db : SqliteDatabase) (st : result (string * list Value)) {A : Type} (s : SqliteState C E)
    (o : outcome A) (s' : SqliteState C E) : Prop := {
  same_slot : slot s' = slot s;
  same_transactions : transactions s' = transactions s;
  performed_call : engine s' = engine s \/
    exists c sql values ps failed, usable db s = Some c /\ st = Ok (sql, values) /\ encoded values ps /\
      engine_answer c sql ps (engine s) failed (engine s') /\ (failed = true -> not_ok o);
  performed_waits : o = Waits -> sqlite_transaction db = None /\ slot s = None }.

Definition performs (db : SqliteDatabase) (st : result (string * list Value)) {A : Type} (f : action (SqliteState C E) A) : Prop :=
  forall s o s', f s = (o, s') -> performed db st s o s'.

Lemma performs_nothing db st {A : Type} (r : result A) : performs db st (areturn r).
Proof. intros s o s' [= <- <-]. by split; auto. Qed.

Lemma performs_prefix db st {A B : Type} (r : result A) (k : A -> action (SqliteState C E) B) :
  (forall a, r = Ok a -> performs db st (k a)) -> performs db st (abind (areturn r) k).
Proof.
  intros Hk s o s'. unfold abind, areturn. destruct r as [a| | |] eqn:Er; [by apply Hk|..]; intros [= <- <-]; by split; auto.
Qed.

Lemma performs_then db st {A B : Type} (f : action (SqliteState C E) A) (k : A -> result B) :
  performs db st f -> performs db st (abind f (fun a => areturn (k a))).
Proof.
  intros Hf s o s'. unfold abind, areturn. destruct (f s) as [o1 s1] eqn:E1. specialize (Hf _ _ _ E1) as [H1 H2 H3 H4].
  intros Ho. assert (s1 = s') as -> by (by destruct o1 as [[]|]; injection Ho as _ ->).
  split; [done|done| |destruct o1 as [[]|]; injection Ho as <-; auto; done].
  destruct H3 as [H3|(c & sql & values & ps & failed & ? & ? & ? & ? & Hf)]; [by left|right].
  exists c, sql, values, ps, failed. split_and!; try done. intros Hno%Hf b.
  destruct o1 as [[a| | |]|]; injection Ho as <-; try done. by destruct (Hno a).
Qed.

Lemma performs_connection db sql values ps op {A : Type} (callback : C -> action E A) :
  encoded values ps ->
  (forall c e, exists failed, engine_answer c sql ps e failed (callback c e).2 /\ (failed = true -> not_ok (callback c e).1) /\
     (callback c e).1 <> Waits) ->
  performs db (Ok (sql, values)) (with_connection db op callback).
Proof.
  intros Hps Hc s o s'. unfold with_connection, transaction_with_connection, slot_with_connection, on_engine.
  destruct (sqlite_transaction db) as [id|] eqn:Et.
  - destruct (mjoin (transactions s !! id)) as [c|] eqn:Ec; [|intros [= <- <-]; by split; auto].
    destruct (callback c (engine s)) as [o1 e1] eqn:E1. intros [= <- <-].
    destruct (Hc c (engine s)) as (failed & Hcall & Hf & Hw). rewrite E1 in Hcall, Hf, Hw.
    split; [done|done| |done]. right. exists c, sql, values, ps, failed. unfold usable. by rewrite Et, Ec.
  - destruct (slot s) as [c|] eqn:Ec; [|intros [= <- <-]; by split; auto].
    destruct (callback c (engine s)) as [o1 e1] eqn:E1. intros [= <- <-].
    destruct (Hc c (engine s)) as (failed & Hcall & Hf & Hw). rewrite E1 in Hcall, Hf, Hw.
    split; [done|done| |done]. right. exists c, sql, values, ps, failed. unfold usable. by rewrite Et, Ec.
Qed.

Lemma try_map_encoded values l : try_map sqlite_parameter values = Ok l -> encoded values (sqlite_sql <$> l).
Proof. intros HF%try_map_ok. unfold encoded. rewrite Forall2_fmap_r. eapply Forall2_impl; [|exact HF]. intros v x Hx. by exists x. Qed.

Lemma query_many_performs db m op sql values : performs db (Ok (sql, values)) (query_many db m op sql values).
Proof.
  apply performs_prefix. intros ps Hps. apply performs_connection with (ps := sqlite_sql <$> ps); [by apply try_map_encoded|].
  intros c e. destruct (query c sql (sqlite_sql <$> ps) e) as [r e'] eqn:Eq. exists (query_failed r).
  split; [by apply answer_query|]. split; [|done]. intros Hf a. destruct r as [[rows [error|]]| | |]; try done.
  unfold decode_rows. cbn. by destruct (try_map (sqlite_row_to_value m) rows).
Qed.

Lemma row_performs {A : Type} db op sql values ps (k : res string Z -> result A) : encoded values ps ->
  (forall r a, row_failed r = true -> k r <> Ok a) ->
  performs db (Ok (sql, values)) (with_connection db op (fun c e => let '(r, e) := query_row_i64 c sql ps e in (Done (k r), e))).
Proof.
  intros Hps Hk. apply performs_connection with (ps := ps); [done|].
  intros c e. destruct (query_row_i64 c sql ps e) as [r e'] eqn:Eq. exists (row_failed r).
  split; [by apply answer_row|]. split; [|done]. intros Hf a [= Ha]. by eapply Hk.
Qed.

Lemma query_optional_performs db m op sql values : performs db (Ok (sql, values)) (query_optional db m op sql values).
Proof. apply performs_then, query_many_performs. Qed.

Lemma query_one_performs db m op sql values : performs db (Ok (sql, values)) (query_one db m op sql values).
Proof. apply performs_then, query_optional_performs. Qed.

Lemma sqlite_performs db m q : performs db (statement m Sqlite q) (db_query db (Ok m) q).
Proof.
  destruct q; cbn [db_query statement]; unfold on_model; apply performs_prefix; intros m' [= <-]; apply performs_then;
    cbn [db_find db_all db_count db_first db_limit db_page db_order_page db_exists_by_id db_where_eq db_where_eq_limit
         db_where_eq_page db_where_eq_order_page db_insert db_update_by_id sqlite_backend];
    unfold default_page, sqlite_find, sqlite_first; cbn [db_order_page db_page sqlite_backend];
    try apply query_many_performs; try apply query_optional_performs.
  - (* the default page *) change DEFAULT_PAGE_ORDER_FIELD with "id"%string. destruct (existsb _ _); [|apply query_many_performs].
    apply performs_prefix. intros sql Hsql. change (select_order_page_sql_for m Sqlite "id" "asc" = Ok sql) in Hsql. rewrite Hsql. apply query_many_performs.
  - apply (row_performs db "count" _ [] []); [by apply Forall2_nil_2|by intros [] ?].
  - apply performs_prefix. intros sql Hsql. rewrite Hsql. apply query_many_performs.
  - apply performs_prefix. intros x Hx. apply row_performs; [constructor; [by exists x|constructor]|by intros [] ?].
  - apply performs_prefix. intros sql Hsql. rewrite Hsql. apply query_many_performs.
  - apply performs_prefix. intros sql Hsql. rewrite Hsql. apply query_many_performs.
  - apply performs_prefix. intros sql Hsql. rewrite Hsql. apply query_many_performs.
  - apply performs_prefix. intros sql Hsql. rewrite Hsql. apply query_many_performs.
  - apply performs_prefix. intros values Hv. rewrite Hv. apply query_one_performs.
  - apply performs_prefix. intros values Hv. rewrite Hv. apply query_one_performs.
Qed.
End Effects.

(** ** Batches

    The elements that the text of a statement is made of: characters, quoted
    texts and comments.  [rest] is the text that follows in the statement; what
    follows the statement is a semicolon or the end. *)
Definition opens (q : char) (s : MysqlBatchState) : Prop :=
  (q = single_quote /\ s = SingleQuote) \/ (q = double_quote /\ s = DoubleQuote) \/ (q = backtick /\ s = Backtick).

(** What may stand between quotes: a character, an escaped character (not
    between backticks), the quote written twice. *)
Inductive quoted_item (q : char) : list char -> Prop :=
  | item_char c : c <> q -> (c <> backslash \/ q = backtick) -> quoted_item q [c]
  | item_escape c : q <> backtick -> quoted_item q [backslash; c]
  | item_twice : quoted_item q [q; q].

Definition plain_char (c : char) : Prop := c ∉ [ch ";"; single_quote; double_quote; backtick; ch "#"].

Inductive element : list char -> list char -> Prop :=
  | element_char c rest : plain_char c -> (c = ch "-" -> head rest <> Some (ch "-")) -> (c = ch "/" -> head rest <> Some (ch "*")) ->
      element [c] rest
  | element_quoted q s items rest : opens q s -> Forall (quoted_item q) items -> head rest <> Some q ->
      element (q :: concat items ++ [q]) rest
  | element_line start body c rest : start = [ch "#"] \/ start = [ch "-"; ch "-"] ->
      Forall (fun c => c <> newline_char /\ c <> return_char) body -> c = newline_char \/ c = return_char ->
      element (start ++ body ++ [c]) rest
  | element_block body rest : (forall i, body !! i = Some (ch "*") -> body !! S i <> Some (ch "/")) -> list.last body <> Some (ch "*") ->
      element ([ch "/"; ch "*"] ++ body ++ [ch "*"; ch "/"]) rest.

(** A statement: elements one after another. *)
Inductive whole : list char -> Prop :=
  | whole_nil : whole []
  | whole_app e l : element e l -> whole l -> whole (e ++ l).

Definition follows (f : list char) : Prop := f = [] \/ exists f', f = ch ";" :: f'.

(** Comparisons of known characters. *)
Ltac known_chars :=
  repeat match goal with
    | |- context [(?a =? ?b)%N] =>
        let v := eval vm_compute in (a =? b)%N in
        match v with true => idtac | false => idtac end; change (a =? b)%N with v; cbv iota
    end.

Lemma quoted_run q s items : opens q s -> Forall (quoted_item q) items -> forall cur st rest, head rest <> Some q ->
  split_batch_from s cur st (concat items ++ q :: rest) = split_batch_from Normal (cur ++ concat items ++ [q]) st rest.
Proof.
  intros Hq Hi. induction Hi as [|e items He _ IH]; intros cur st rest Hr.
  - destruct Hq as [[-> ->]|[[-> ->]|[-> ->]]]; destruct rest as [|c rest]; cbn [concat app split_batch_from]; known_chars; try done;
      (match goal with |- context [(c =? ?x)%N] => destruct (N.eqb_spec c x) as [E|] end; [by subst|done]).
  - cbn [concat]. rewrite <- !app_assoc, (app_assoc cur). destruct He as [c Hc Hb|c Hc|].
    + destruct Hq as [[-> ->]|[[-> ->]|[-> ->]]]; cbn [app split_batch_from]; rewrite ?(proj2 (N.eqb_neq _ _) Hc);
        (destruct (N.eqb_spec c backslash) as [E|_]; [by destruct Hb|] || idtac); by apply IH.
    + destruct Hq as [[-> ->]|[[-> ->]|[-> ->]]]; [| |done];
        cbn [app split_batch_from]; known_chars; rewrite <- (app_assoc cur [_] [_]); by apply IH.
    + destruct Hq as [[-> ->]|[[-> ->]|[-> ->]]]; cbn [app split_batch_from]; known_chars;
        rewrite <- (app_assoc cur [_] [_]); by apply IH.
Qed.

Lemma line_run body c : Forall (fun c => c <> newline_char /\ c <> return_char) body -> c = newline_char \/ c = return_char ->
  forall cur st rest, split_batch_from LineComment cur st (body ++ c :: rest) = split_batch_from Normal (cur ++ body ++ [c]) st rest.
Proof.
  intros Hb Hc. induction Hb as [|x body [H1 H2] _ IH]; intros cur st rest.
  - by destruct Hc as [-> | ->].
  - cbn [app split_batch_from]. rewrite (proj2 (N.eqb_neq _ _) H1), (proj2 (N.eqb_neq _ _) H2). simpl. rewrite IH. by rewrite <- app_assoc.
Qed.

Lemma comment_run body : (forall i, body !! i = Some (ch "*") -> body !! S i <> Some (ch "/")) -> list.last body <> Some (ch "*") ->
  forall cur st rest, split_batch_from BlockComment cur st (body ++ ch "*" :: ch "/" :: rest)
    = split_batch_from Normal (cur ++ body ++ [ch "*"; ch "/"]) st rest.
Proof.
  intros Hb Hl. induction body as [|x body IH]; intros cur st rest; [cbn; by rewrite <- (app_assoc cur [_] [_])|].
  assert (split_batch_from BlockComment (cur ++ [x]) st (body ++ ch "*" :: ch "/" :: rest) =
          split_batch_from Normal (cur ++ (x :: body) ++ [ch "*"; ch "/"]) st rest) as Hnext.
  { rewrite IH; [by rewrite <- app_assoc|intros i; exact (Hb (S i))|]. destruct body; [done|exact Hl]. }
  cbn [app split_batch_from]. destruct (N.eqb_spec x (ch "*")) as [->|]; [|done].
  destruct body as [|y body]; [by destruct Hl|]. cbn [app] in *. destruct (N.eqb_spec y (ch "/")) as [->|]; [|done].
  by destruct (Hb 0).
Qed.

Lemma element_run e l f : element e l -> follows f -> forall cur st,
  split_batch_from Normal cur st (e ++ l ++ f) = split_batch_from Normal (cur ++ e) st (l ++ f).
Proof.
  intros He Hf cur st. destruct He as [c rest Hc Hd Hs|q s items rest Hq Hi Hr|start body c rest Hstart Hb Hc|body rest Hb Hl].
  - unfold plain_char in Hc. rewrite !not_elem_of_cons in Hc. destruct Hc as (H1 & H2 & H3 & H4 & H5 & _).
    cbn [app split_batch_from]. apply N.eqb_neq in H1, H2, H3, H4, H5. rewrite H1, H2, H3, H4, H5. clear H1 H2 H3 H4 H5.
    assert (forall x, x <> ch ";" -> head rest <> Some x -> match rest ++ f with n :: _ => (n =? x)%N = false | [] => True end) as Hh.
    { intros x Hx Hh. destruct rest as [|n rest]; [|cbn [app]; apply N.eqb_neq; simpl in Hh; congruence].
      destruct Hf as [->|[f' ->]]; [done|]. cbn [app]. apply N.eqb_neq. congruence. }
    destruct (N.eqb_spec c (ch "-")) as [->|_].
    { specialize (Hh (ch "-") ltac:(done) (Hd eq_refl)). destruct (rest ++ f) as [|n r]; [done|]. by rewrite Hh. }
    destruct (N.eqb_spec c (ch "/")) as [->|_]; [|done].
    specialize (Hh (ch "*") ltac:(done) (Hs eq_refl)). destruct (rest ++ f) as [|n r]; [done|]. by rewrite Hh.
  - assert (head (rest ++ f) <> Some q) as Hh.
    { destruct rest as [|n rest]; [|done]. destruct Hf as [->|[f' ->]]; [done|].
      by destruct Hq as [[-> _]|[[-> _]|[-> _]]]. }
    replace ((q :: concat items ++ [q]) ++ rest ++ f) with (q :: concat items ++ q :: rest ++ f) by (cbn [app]; by rewrite <- app_assoc).
    replace (cur ++ q :: concat items ++ [q]) with ((cur ++ [q]) ++ concat items ++ [q]) by (by rewrite <- app_assoc).
    rewrite <- (quoted_run q s) by done. by destruct Hq as [[-> ->]|[[-> ->]|[-> ->]]].
  - rewrite <- !app_assoc. change ([c] ++ rest ++ f) with (c :: rest ++ f).
    replace (cur ++ start ++ body ++ [c]) with ((cur ++ start) ++ body ++ [c]) by (by rewrite <- app_assoc).
    rewrite <- line_run by done. destruct Hstart as [-> | ->]; [done|]. cbn. by rewrite <- (app_assoc cur [_] [_]).
  - rewrite <- !app_assoc. change ([ch "*"; ch "/"] ++ rest ++ f) with (ch "*" :: ch "/" :: rest ++ f).
    replace (cur ++ [ch "/"; ch "*"] ++ body ++ [ch "*"; ch "/"]) with ((cur ++ [ch "/"; ch "*"]) ++ body ++ [ch "*"; ch "/"]) by (by rewrite <- app_assoc).
    rewrite <- comment_run by done. cbn. by rewrite <- (app_assoc cur [_] [_]).
Qed.

Lemma whole_run l f : whole l -> follows f -> forall cur st, split_batch_from Normal cur st (l ++ f) = split_batch_from Normal (cur ++ l) st f.
Proof.
  intros Hl Hf. induction Hl as [|e l He _ IH]; intros cur st; [by rewrite app_nil_r|].
  rewrite <- app_assoc, element_run by done. rewrite IH. by rewrite <- app_assoc.
Qed.

(** The texts between the semicolons. *)
Fixpoint batch (ss : list (list char)) : list char :=
  match ss with
  | [] => []
  | [s] => s
  | s :: ss' => s ++ ch ";" :: batch ss'
  end.

Definition trimmed (s : list char) : list char := trim_end_chars (trim_start_chars s).

Lemma push_statement_app cur st : push_trimmed cur st = st ++ filter (fun s => s <> []) [trimmed cur].
Proof.
  unfold push_trimmed, trimmed. rewrite filter_cons, filter_nil. destruct (trim_end_chars _); [|done].
  by rewrite decide_False by auto; rewrite app_nil_r.
Qed.

Lemma split_batch ss st : Forall whole ss -> ss <> [] ->
  split_batch_from Normal [] st (batch ss) = st ++ filter (fun s => s <> []) (trimmed <$> ss).
Proof.
  intros HF. revert st. induction HF as [|s ss Hs HF IH]; intros st Hne; [done|]. destruct ss as [|s' ss].
  - cbn [batch]. rewrite <- (app_nil_r s) at 1. rewrite whole_run by (try done; by left). apply push_statement_app.
  - change (batch (s :: s' :: ss)) with (s ++ ch ";" :: batch (s' :: ss)). rewrite whole_run by (try done; right; by eexists).
    cbn [app split_batch_from]. known_chars. rewrite push_statement_app, IH by done.
    change (trimmed <$> s :: s' :: ss) with ([trimmed s] ++ (trimmed <$> s' :: ss)). by rewrite list.filter_app, app_assoc.
Qed.

(** A quoted identifier, read back: what stands before the quote that is not
    followed by another one. *)
Fixpoint unquote (q : byte) (l : list byte) : option (list byte * list byte) :=
  match l with
  | [] => None
  | b :: l' =>
      if Ascii.eqb b q then
        match l' with
        | b' :: l'' => if Ascii.eqb b' q then (fun r => (q :: r.1, r.2)) <$> unquote q l'' else Some ([], l')
        | [] => Some ([], [])
        end
      else (fun r => (b :: r.1, r.2)) <$> unquote q l'
  end.

Lemma unquote_double q l rest : head rest <> Some q -> unquote q (double_byte q l ++ q :: rest) = Some (l, rest).
Proof.
  intros Hr. induction l as [|b l IH].
  - simpl. rewrite Ascii.eqb_refl. destruct rest as [|c rest]; [done|]. destruct (Ascii.eqb_spec c q); [by subst|done].
  - unfold double_byte in *. cbn [flat_map]. destruct (Ascii.eqb_spec b q) as [->|Hb].
    + simpl. rewrite Ascii.eqb_refl. by rewrite IH.
    + simpl. rewrite (proj2 (Ascii.eqb_neq _ _) Hb). by rewrite IH.
Qed.

(** ** The theorems *)

(** C20: Over SQLite, whatever a script passes, a query of a valid mapping
    sends the engine nothing or one statement.  The text of the statement has the tokens of its
    kind over the identifiers of the mapping, so it holds no quote, comment or
    second statement; its values are those of the query, in the order of the
    placeholders, and an inserted or updated value is that of its column. *)
Theorem queries_are_statements {C E : Type} `{Connection C E} class_ table fs m db q (s s' : SqliteState C E) o :
  try_new class_ table fs = Ok m -> db_query db (Ok m) q s = (o, s') ->
  engine s' = engine s \/
  exists c sql values ps, usable db s = Some c /\ engine_call c sql ps (engine s) (engine s') /\
    sql_tokens None (as_bytes sql) = Some (query_tokens m Sqlite q) /\ bound m q values /\ encoded values ps.
Proof.
  intros Hm Hq. apply try_new_valid in Hm as (Hm & _). apply sqlite_performs in Hq as [_ _ Hq _].
  destruct Hq as [Hq|(c & sql & values & ps & failed & Hu & Hst & Hps & Hc%answer_call & _)]; [by left|right].
  destruct (statement_reads _ _ _ _ _ Hm Hst) as [Hr Hb]. by exists c, sql, values, ps.
Qed.

(** A batch for MySQL is split into the texts between the semicolons that
    are in no quote and no comment, without the blanks around them and without
    the empty ones. *)
Theorem split_mysql_batch_correct (E : Type) (ss : list (list char)) :
  ss <> [] -> Forall whole ss -> Forall scalar (batch ss) ->
  split_mysql_batch (E:=E) (from_bytes (encode (batch ss)))
  = Ok ((fun s => from_bytes (encode s)) <$> filter (fun s => s <> []) (trimmed <$> ss)).
Proof.
  intros Hne Hw Hs. unfold split_mysql_batch, chars. rewrite as_from_bytes, utf8_encode by done. simpl.
  by rewrite split_batch.
Qed.

(** A quoted identifier reads back as the identifier, whatever it holds. *)
Theorem quote_identifier_reads (q : byte) (name : string) (rest : list byte) : head rest <> Some q ->
  exists quoted, as_bytes (quote_identifier q name) = q :: quoted /\ unquote q (quoted ++ rest) = Some (as_bytes name, rest).
Proof.
  intros Hr. exists (double_byte q (as_bytes name) ++ [q]). unfold quote_identifier. rewrite as_from_bytes. split; [done|].
  rewrite <- app_assoc. by apply unquote_double.
Qed.

(** ** Witnesses *)

(** An engine that keeps what it is sent and answers with one row. *)
#[local] Instance recorder : Connection unit (list (string * list SqliteSqlValue)) := {|
  execute_batch := fun _ sql e => (None, e ++ [(sql, [])]);
  query := fun _ sql ps e => (Ok ([[SqliteSqlValue.Integer 7; SqliteSqlValue.Text (as_bytes "a@b")]], None), e ++ [(sql, ps)]);
  query_row_i64 := fun _ sql ps e => (Ok 1%Z, e ++ [(sql, ps)]);
  invalid_column_index := fun i => "Invalid column index" |}.

Definition user_mapping : ModelMapping := mkMapping "User" "app.users" ["id"; "email"].

Lemma queries_are_statements_witness :
  let s := mkSqlite (Some tt) [] [] in
  let q := QWhere "email" (Value.String "' or 1 = 1; --") in
  let s' := (db_query (mkSqliteDatabase None) (Ok user_mapping) q s).2 in
  engine s' = [("select id, email from app.users where email = ?", [SqliteSqlValue.Text (as_bytes "' or 1 = 1; --")])] /\
  (engine s' = engine s \/
   exists c sql values ps, usable (mkSqliteDatabase None) s = Some c /\ engine_call c sql ps (engine s) (engine s') /\
     sql_tokens None (as_bytes sql) = Some (query_tokens user_mapping Sqlite q) /\ bound user_mapping q values /\ encoded values ps).
Proof.
  intros s q s'. split; [vm_compute; reflexivity|].
  exact (queries_are_statements "User" "app.users" ["id"; "email"] user_mapping (mkSqliteDatabase None) q s s'
           (db_query (mkSqliteDatabase None) (Ok user_mapping) q s).1 eq_refl (surjective_pairing _)).
Defined.

Definition sample_statements : list (list char) :=
  [(N_of_ascii <$> as_bytes "insert into t values ('a;b')"); N_of_ascii <$> as_bytes " "; N_of_ascii <$> as_bytes " select 1 "].

Lemma sample_whole : Forall whole sample_statements.
Proof.
  assert (forall l, Forall (fun c => plain_char c /\ c <> ch "-" /\ c <> ch "/") l -> forall r, whole r -> whole (l ++ r)) as Hplain.
  { intros l Hl r Hr. induction Hl as [|c l (Hc & H1 & H2) _ IH]; [done|]. apply (whole_app [c]); [|done]. by constructor. }
  assert (forall l, forallb (fun c => bool_decide (plain_char c) && negb (c =? ch "-")%N && negb (c =? ch "/")%N) l = true ->
            Forall (fun c => plain_char c /\ c <> ch "-" /\ c <> ch "/") l) as Hcheck.
  { intros l Hl. apply forallb_Forall in Hl. eapply list.Forall_impl; [exact Hl|]. intros c Hc. simpl in Hc.
    apply andb_prop in Hc as [[Hc H1]%andb_prop H2]. apply bool_decide_eq_true in Hc.
    apply negb_true_iff, N.eqb_neq in H1, H2. done. }
  repeat constructor; [|rewrite <- (app_nil_r (_ <$> _)); apply Hplain; [apply Hcheck; by vm_compute|constructor]..].
  change (whole ((N_of_ascii <$> as_bytes "insert into t values (") ++
    ((single_quote :: concat ((fun c => [c]) <$> (N_of_ascii <$> as_bytes "a;b")) ++ [single_quote]) ++ ([ch ")"] ++ [])))).
  apply Hplain; [apply Hcheck; by vm_compute|]. apply whole_app; [|apply Hplain; [apply Hcheck; by vm_compute|constructor]].
  apply (element_quoted _ SingleQuote); [by left|repeat constructor; by (left || vm_compute)|done].
Qed.

Lemma split_mysql_batch_correct_witness :
  split_mysql_batch (E:=unit) (from_bytes (encode (batch sample_statements))) = Ok ["insert into t values ('a;b')"%string; "select 1"%string] /\
  split_mysql_batch (E:=unit) (from_bytes (encode (batch sample_statements)))
  = Ok ((fun s => from_bytes (encode s)) <$> filter (fun s => s <> []) (trimmed <$> sample_statements)).
Proof.
  assert (Forall scalar (batch sample_statements)) as Hs.
  { apply (list.Forall_impl (fun c => (c <? 55296)%N = true)); [|intros c Hc; apply N.ltb_lt in Hc; left; exact Hc].
    apply forallb_Forall. vm_compute. reflexivity. }
  split; [vm_compute; reflexivity|exact (split_mysql_batch_correct unit sample_statements (fun H => ltac:(discriminate H)) sample_whole Hs)].
Defined.

Lemma quote_identifier_reads_witness :
  quote_mysql_identifier "a`b" = "`a``b`"%string /\
  exists quoted, as_bytes (quote_identifier "`" "a`b") = "`"%char :: quoted /\ unquote "`" (quoted ++ [" "%char]) = Some (as_bytes "a`b", [" "%char]).
Proof. split; [vm_compute; reflexivity|exact (quote_identifier_reads "`" "a`b" [" "%char] (fun H => ltac:(discriminate H)))]. Defined.
