(* ===== verification/DatabaseProofs.v ===== *)
(** * The database capability, proved

    Over any engine that keeps the documented behaviour of transactions, the
    session of a machine implements nested transactions: a working copy that a
    commit makes durable, and a stack of savepoints.  Its calls never wait for
    themselves, the connection is always in one place, and it is given back
    when the machine ends.  The method [transaction] is all or nothing. *)

From stdpp Require Import base tactics list strings option numbers.
From Stdlib Require Import ZArith NArith Lia Ascii String.
From S2P Require Import Prelude RustStr RustText RustFloat BTree Syntax Lexer Parser Bytecode Compiler Macro Expander.
From S2P Require Import Value VmState Vm ActiveRecord Database ActiveRecordProofs.

Open Scope string_scope.
Open Scope list_scope.
Open Scope nat_scope.

(** ** Nested transactions

    What the transactions of SQL promise: the durable data, and in a
    transaction the working data and the savepoints, the newest first.  SQLite
    lets a savepoint open a transaction where there is none; the savepoints of
    such a transaction are not followed ([None]). *)
Record View (D : Type) : Type := mkView { durable : D; pending : option (D * option (list (string * D))) }.
Arguments mkView {D}.
Arguments durable {D}.
Arguments pending {D}.

Inductive Control : Type :=
  | Begin | Commit | Rollback
  | MakeSavepoint (name : string) | Release (name : string) | RollbackTo (name : string).

(** The texts that the databases send; rolling back to a savepoint releases it. *)
Definition control_sql (k : Control) : string :=
  match k with
  | Begin => "begin"
  | Commit => "commit"
  | Rollback => "rollback"
  | MakeSavepoint n => "savepoint " ++ n
  | Release n => "release savepoint " ++ n
  | RollbackTo n => "rollback to savepoint " ++ n ++ "; release savepoint " ++ n
  end.

Section View.
Context {D : Type}.
Implicit Types (v : View D) (sp : list (string * D)).

(** The newest savepoint of a name: its data and the older savepoints. *)
Fixpoint drop_to (name : string) sp : option (D * list (string * D)) :=
  match sp with
  | [] => None
  | (n, d) :: sp' => if String.eqb n name then Some (d, sp') else drop_to name sp'
  end.

Definition control_step (k : Control) v : option (View D) :=
  match k, pending v with
  | Begin, None => Some (mkView (durable v) (Some (durable v, Some [])))
  | Commit, Some (w, _) => Some (mkView w None)
  | Rollback, Some _ => Some (mkView (durable v) None)
  | MakeSavepoint n, Some (w, Some sp) => Some (mkView (durable v) (Some (w, Some ((n, w) :: sp))))
  | Release n, Some (w, Some sp) => (fun x => mkView (durable v) (Some (w, Some x.2))) <$> drop_to n sp
  | RollbackTo n, Some (w, Some sp) => (fun x => mkView (durable v) (Some (x.1, Some x.2))) <$> drop_to n sp
  | _, _ => None
  end.

(** The statements of savepoints are followed in a transaction that begin
    opened. *)
Definition followed (k : Control) v : Prop :=
  match k with
  | Begin | Commit | Rollback => True
  | _ => exists w sp, pending v = Some (w, Some sp)
  end.

(** The first half of rolling back to a savepoint: it is not released yet. *)
Definition rewind (name : string) v : option (View D) :=
  match pending v with
  | Some (w, Some sp) => (fun x => mkView (durable v) (Some (x.1, Some ((name, x.1) :: x.2)))) <$> drop_to name sp
  | _ => None
  end.

(** Other data, in the transaction if there is one. *)
Definition with_data (d : D) v : View D :=
  match pending v with
  | Some (_, sp) => mkView (durable v) (Some (d, sp))
  | None => mkView d None
  end.

(** The engine ended the transaction, of its own accord. *)
Definition rolled_back v (v' : View D) : Prop := is_Some (pending v) /\ v' = mkView (durable v) None.

(** What a control statement that fails may leave. *)
Definition stayed (k : Control) v (v' : View D) : Prop :=
  v' = v \/ (exists n, k = RollbackTo n /\ rewind n v = Some v') \/ rolled_back v v'.
End View.

(** The statements of queries. *)
Definition data_statement (sql : string) : bool :=
  starts_with "select " sql || starts_with "insert into " sql || starts_with "update " sql.

(** The documented behaviour of an engine.  A control statement that succeeds
    does its step; one that fails leaves the transaction as it was, but a batch
    may have failed after its first statement.  A query changes data only.  And
    whatever fails, a control statement or a query, the engine may have rolled
    the whole transaction back, as SQLite does when the disk is full or out of
    order, or when the memory ends. *)
Class SqlEngine (C E D : Type) `{Connection C E} : Type := {
  view : E -> View D;
  engine_control : forall c k e r e', execute_batch c (control_sql k) e = (r, e') -> followed k (view e) ->
    match r with
    | None => control_step k (view e) = Some (view e')
    | Some _ => stayed k (view e) (view e')
    end;
  engine_data : forall c sql ps e failed e', data_statement sql = true -> engine_answer c sql ps e failed e' ->
    (exists d, view e' = with_data d (view e)) \/ failed = true /\ rolled_back (view e) (view e') }.

(** ** The operations of a session *)

Inductive SessionOp : Type :=
  | OBegin | OCommit | ORollback | OSavepoint
  | ORelease (name : string)
  | ORollbackTo (name : string)
  | OQuery (mapping : result ModelMapping) (q : DbQuery).

Definition session_call {B W : Type} `{DatabaseBackend B W} (op : SessionOp) : action (Session B W) Reply :=
  match op with
  | OBegin => unit_reply session_begin
  | OCommit => unit_reply session_commit
  | ORollback => unit_reply session_rollback
  | OSavepoint => let& name := session_savepoint in areturn (Ok (Savepoint name))
  | ORelease name => unit_reply (session_release_savepoint name)
  | ORollbackTo name => unit_reply (session_rollback_to_savepoint name)
  | OQuery mapping q => db_query tt mapping q
  end.

Definition of_savepoints (op : SessionOp) : Prop :=
  match op with OSavepoint | ORelease _ | ORollbackTo _ => True | _ => False end.

(** An answer that is no success. *)
Definition unsuccessful (op : SessionOp) (r : result Reply) : Prop :=
  match op with OQuery _ _ => forall a, r <> Ok a | _ => exists e, r = Err e end.

(** Where a session stands: its transaction is the engine's ([Kept]), or it is
    in a transaction that the engine has rolled back ([Lost]). *)
Inductive Standing (D : Type) : Type := Kept (v : View D) | Lost (v : View D).
Arguments Kept {D}.
Arguments Lost {D}.

(** What an operation promises, with the answer it gives.  While the
    transaction is kept: nested transactions.  It is only lost with an answer
    that is no success, and to the durable data.  Afterwards queries act on the
    durable data itself, and the session stays in its transaction until a
    commit or a rollback succeeds; nothing is promised of its savepoints. *)
Inductive promised {D : Type} : SessionOp -> result Reply -> Standing D -> Standing D -> Prop :=
  | promised_error op e v : promised op (Err e) (Kept v) (Kept v)
  | promised_begin d : promised OBegin (Ok Unit_) (Kept (mkView d None)) (Kept (mkView d (Some (d, Some []))))
  | promised_commit d w sp : promised OCommit (Ok Unit_) (Kept (mkView d (Some (w, Some sp)))) (Kept (mkView w None))
  | promised_rollback d w sp : promised ORollback (Ok Unit_) (Kept (mkView d (Some (w, Some sp)))) (Kept (mkView d None))
  | promised_savepoint n d w sp :
      promised OSavepoint (Ok (Savepoint n)) (Kept (mkView d (Some (w, Some sp)))) (Kept (mkView d (Some (w, Some ((n, w) :: sp)))))
  | promised_release n x d w sp :
      promised (ORelease n) (Ok Unit_) (Kept (mkView d (Some (w, Some ((n, x) :: sp))))) (Kept (mkView d (Some (w, Some sp))))
  | promised_rollback_to n x d w sp :
      promised (ORollbackTo n) (Ok Unit_) (Kept (mkView d (Some (w, Some ((n, x) :: sp))))) (Kept (mkView d (Some (x, Some sp))))
  | promised_rewound n x d w sp e :
      promised (ORollbackTo n) (Err e) (Kept (mkView d (Some (w, Some ((n, x) :: sp))))) (Kept (mkView d (Some (x, Some ((n, x) :: sp)))))
  | promised_query mapping q r v d : promised (OQuery mapping q) r (Kept v) (Kept (with_data d v))
  | promised_lost op r v : op <> OBegin -> unsuccessful op r -> is_Some (pending v) ->
      promised op r (Kept v) (Lost (mkView (durable v) None))
  | adrift_error op e v : promised op (Err e) (Lost v) (Lost v)
  | adrift_commit d w sp : promised OCommit (Ok Unit_) (Lost (mkView d (Some (w, sp)))) (Kept (mkView w None))
  | adrift_rollback d w sp : promised ORollback (Ok Unit_) (Lost (mkView d (Some (w, sp)))) (Kept (mkView d None))
  | adrift_query mapping q r v d : promised (OQuery mapping q) r (Lost v) (Lost (with_data d v))
  | adrift_lost op r v : op <> OBegin -> unsuccessful op r -> is_Some (pending v) ->
      promised op r (Lost v) (Lost (mkView (durable v) None))
  | adrift_savepoint op r v v' : of_savepoints op -> promised op r (Lost v) (Lost v').

(** ** The session over SQLite *)

Section Refinement.
Context {C E D : Type} `{Connection C E, !SqlEngine C E D}.
Abbreviation session := (Session SqliteDatabase (SqliteState C E)).
Implicit Types (s : session) (lost : bool).

Definition sview s : View D := view (engine (world s)).

Definition standing lost s : Standing D := if lost then Lost (sview s) else Kept (sview s).

(** The connection is in the slot when the session has no transaction, and is
    the transaction's when it has one; the savepoints are those of the engine,
    unless the engine has rolled the transaction back. *)
Definition session_inv lost s : Prop :=
  sqlite_transaction (session_backend s) = None /\
  match ts_backend (transaction s) with
  | None =>
      lost = false /\ savepoints (transaction s) = [] /\ is_Some (slot (world s)) /\
      (forall id, mjoin (transactions (world s) !! id) = None) /\ pending (sview s) = None
  | Some db =>
      slot (world s) = None /\
      (exists id c, sqlite_transaction db = Some id /\ transactions (world s) !! id = Some (Some c) /\
        forall j, j <> id -> mjoin (transactions (world s) !! j) = None) /\
      (lost = false -> exists w sp, pending (sview s) = Some (w, Some sp) /\ reverse (savepoints (transaction s)) = sp.*1)
  end.

(** A call ends, keeps the invariant and does what was promised. *)
Definition fulfils (op : SessionOp) lost s (o : outcome Reply) (s' : session) : Prop :=
  exists r lost', o = Done r /\ session_inv lost' s' /\ promised op r (standing lost s) (standing lost' s').

(** The result of a control statement. *)
Definition controlled (k : Control) (r : result unit) (v v' : View D) : Prop :=
  r = Ok tt /\ (followed k v -> control_step k v = Some v') \/
  (exists error, r = Err error) /\ (followed k v -> stayed k v v').

Lemma run_batch_control c k operation e :
  exists r e', run_batch operation (control_sql k) c e = (Done r, e') /\ controlled k r (view e) (view e').
Proof.
  unfold run_batch. destruct (execute_batch c (control_sql k) e) as [[error|] e'] eqn:Ex.
  - eexists _, e'. split; [done|]. right. split; [by eexists|exact (engine_control _ _ _ _ _ Ex)].
  - eexists _, e'. split; [done|]. left. split; [done|exact (engine_control _ _ _ _ _ Ex)].
Qed.

(** *** Queries *)

Lemma session_query mapping q s :
  db_query tt mapping q s
  = let '(o, w) := db_query (match ts_backend (transaction s) with Some b => b | None => session_backend s end) mapping q (world s) in
    (o, mkSession (session_backend s) (transaction s) w).
Proof.
  destruct s as [sb t w]. destruct mapping as [m| | |]; [|by destruct q..].
  destruct q; cbn; unfold with_backend, default_page, get_session, call, abind, areturn; cbn; try (by repeat case_match; simplify_eq);
    destruct (existsb _ _); cbn; unfold with_backend, get_session, call, abind; cbn; by repeat case_match; simplify_eq.
Qed.

Lemma statement_data m d q sql values : statement m d q = Ok (sql, values) -> data_statement sql = true.
Proof.
  intros Hs. destruct q; cbn [statement] in Hs; unfold select_order_page_sql_for, select_where_eq_sql_for,
    select_where_eq_limit_sql_for, select_where_eq_page_sql_for, select_where_eq_order_page_sql_for, insert_values, update_values in *;
    repeat case_match; ok_inv; reflexivity.
Qed.

Lemma with_data_same (v : View D) : v = with_data (match pending v with Some (w, _) => w | None => durable v end) v.
Proof. by destruct v as [d [[w sp]|]]. Qed.

Lemma with_data_pending (d : D) v : pending (with_data d v) = (fun x => (d, x.2)) <$> pending v.
Proof. by destruct v as [? [[w sp]|]]. Qed.

(** The engine is asked at most once; it answers, or rolls back and fails. *)
Lemma query_view db mapping q (w w' : SqliteState C E) o : is_Some (usable db w) -> db_query db mapping q w = (o, w') ->
  o <> Waits /\ slot w' = slot w /\ transactions w' = transactions w /\
  ((exists d : D, view (engine w') = with_data d (view (engine w))) \/ not_ok o /\ rolled_back (view (engine w)) (view (engine w'))).
Proof.
  intros Hu Hq. destruct mapping as [m| | |];
    [|destruct q; injection Hq as <- <-; (split; [done|split; [done|split; [done|left; eexists; apply with_data_same]]])..].
  apply sqlite_performs in Hq as [H1 H2 H3 H4]. split_and!; [|done..|].
  - intros [E1 E2]%H4. unfold usable in Hu. rewrite E1, E2 in Hu. by destruct Hu.
  - destruct H3 as [->|(c & sql & values & ps & failed & _ & Hst & _ & Hc & Hf)]; [left; eexists; apply with_data_same|].
    apply statement_data in Hst. destruct (engine_data _ _ _ _ _ _ Hst Hc) as [Hd|[-> Hb]]; [by left|right]. by split; [apply Hf|].
Qed.

(** The handle in use has the connection. *)
Definition current s : SqliteDatabase := match ts_backend (transaction s) with Some b => b | None => session_backend s end.

Lemma inv_usable lost s : session_inv lost s -> is_Some (usable (current s) (world s)).
Proof.
  unfold session_inv, current, usable. intros [Hb Hi]. destruct (ts_backend _) as [db|].
  - destruct Hi as (_ & (id & c & -> & Ht & _) & _). rewrite Ht. by eexists.
  - destruct Hi as (_ & _ & Hs & _). by rewrite Hb.
Qed.

(** The invariant, when only the engine's data changed. *)
Lemma inv_data lost s w' : session_inv lost s -> slot w' = slot (world s) -> transactions w' = transactions (world s) ->
  (exists d, view (engine w') = with_data d (sview s)) -> session_inv lost (mkSession (session_backend s) (transaction s) w').
Proof.
  unfold session_inv, sview. simpl. intros [Hb Hi] H1 H2 [d H3]. split; [done|]. rewrite H1, H2, H3, with_data_pending.
  destruct (ts_backend _) as [db|].
  - destruct Hi as (? & ? & Hl). split; [done|]. split; [done|]. intros (w & sp & -> & ?)%Hl. by exists d, sp.
  - destruct Hi as (? & ? & ? & ? & ->). done.
Qed.

(** The invariant, when the engine rolled the transaction back. *)
Lemma inv_lost lost s w' : session_inv lost s -> is_Some (pending (sview s)) -> slot w' = slot (world s) ->
  transactions w' = transactions (world s) -> session_inv true (mkSession (session_backend s) (transaction s) w').
Proof.
  unfold session_inv, sview. simpl. intros [Hb Hi] Hp H1 H2. split; [done|]. rewrite H1, H2.
  destruct (ts_backend _) as [db|]; [by destruct Hi as (? & ? & _)|]. destruct Hi as (_ & _ & _ & _ & E1). rewrite E1 in Hp. by destruct Hp.
Qed.

Lemma promised_rolled_back op r lost s (v' : View D) : op <> OBegin -> unsuccessful op r -> rolled_back (sview s) v' ->
  promised op r (standing lost s) (Lost v').
Proof. intros Hop Hr [Hp ->]. destruct lost; by constructor. Qed.

Lemma fulfils_query mapping q lost s o s' : session_inv lost s -> session_call (OQuery mapping q) s = (o, s') ->
  fulfils (OQuery mapping q) lost s o s'.
Proof.
  intros Hi. cbn [session_call]. rewrite session_query. fold (current s).
  destruct (db_query (current s) mapping q (world s)) as [o' w'] eqn:Eq. intros [= <- <-].
  apply query_view in Eq as (Hw & H1 & H2 & H3); [|by eapply inv_usable].
  destruct o' as [r|]; [|done]. destruct H3 as [[d Hd]|[Hno Hb]].
  - exists r, lost. split; [done|]. split; [by apply inv_data; eauto|]. unfold standing, sview at 3 4. simpl.
    fold (sview s) in Hd. rewrite Hd. destruct lost; constructor.
  - exists r, true. split; [done|]. split; [by eapply inv_lost; [| |done..]; [done|by destruct Hb]|].
    apply promised_rolled_back; [done| |done]. intros a Ha. apply (Hno a). by rewrite Ha.
Qed.

(** *** Control *)

Lemma fulfils_begin lost s o s' : session_inv lost s -> session_call OBegin s = (o, s') -> fulfils OBegin lost s o s'.
Proof.
  intros Hi Hc. destruct s as [sb [tb sps nx] [sl tr e]]. pose proof Hi as [Hb Hs]. unfold sview in Hs. cbn in Hb, Hs.
  cbn [session_call] in Hc. unfold unit_reply, session_begin, abind, get_session, areturn, call, set_transaction in Hc. cbn in Hc.
  destruct tb as [db|].
  - injection Hc as <- <-. eexists _, lost. split; [done|]. split; [done|]. destruct lost; constructor.
  - destruct Hs as (-> & -> & [c ->] & Htr & Hp). unfold begin_transaction, abind, slot_take, on_engine in Hc. rewrite Hb in Hc. cbn in Hc.
    destruct (run_batch_control c Begin "begin transaction" e) as (r & e' & Hr & Hcase). cbn [control_sql] in Hr. rewrite Hr in Hc.
    destruct Hcase as [[-> Hv]|[[error ->] Hv]]; specialize (Hv I); injection Hc as <- <-; eexists _, false; (split; [done|]).
    + cbn in Hv. destruct (view e) as [d p] eqn:Ev. cbn in Hp, Hv. subst p. injection Hv as Hv.
      unfold session_inv, standing, sview; cbn. split.
      * split; [done|]. split; [done|]. split; [|intros _; exists d, []; by rewrite <- Hv].
        exists (length tr), c. rewrite lookup_app_r, Nat.sub_diag by lia. split_and!; [done..|].
        intros j Hj. destruct (decide (j < length tr)); [by rewrite lookup_app_l by lia|].
        rewrite lookup_app_r by lia. destruct (j - length tr) as [|k] eqn:Ek; [lia|done].
      * rewrite Ev, <- Hv. constructor.
    + assert (view e' = view e) as E1.
      { destruct Hv as [Hv|[(n & [=] & _)|[Hp' _]]]; [done|]. rewrite Hp in Hp'. by destruct Hp'. }
      unfold session_inv, standing, sview; cbn. rewrite E1. split; [|constructor].
      split; [done|]. split_and!; [done..|by eexists|done|done].
Qed.

Lemma finish_control id c k operation (w : SqliteState C E) : transactions w !! id = Some (Some c) ->
  exists r w', finish_transaction id (control_sql k) operation w = (Done r, w') /\
    (if r is Ok _ then slot w' = Some c /\ transactions w' = <[id := None]> (transactions w)
     else slot w' = slot w /\ transactions w' = transactions w) /\
    controlled k r (view (engine w)) (view (engine w')).
Proof.
  intros Ht. unfold finish_transaction, on_engine. rewrite Ht. cbn.
  destruct (run_batch_control c k operation (engine w)) as (r & e' & -> & Hcase).
  destruct Hcase as [[-> Hv]|[[error ->] Hv]]; eexists _, _; (split; [done|]); (split; [done|]); [by left|right; split; [by eexists|done]].
Qed.

(** A transaction that ended: the connection is back in the slot. *)
Lemma inv_ended sb nx (w w' : SqliteState C E) id c : sqlite_transaction sb = None ->
  (forall j, j <> id -> mjoin (transactions w !! j) = None) -> slot w' = Some c ->
  transactions w' = <[id := None]> (transactions w) -> pending (view (engine w')) = None (A := _ * option (list (string * D))) ->
  session_inv false (mkSession sb (mkTransactionState None [] nx) w').
Proof.
  intros Hb Ho Hs Ht Hp. unfold session_inv, sview; cbn. split; [done|]. split; [done|]. split; [done|]. split; [by rewrite Hs|]. split; [|done].
  intros j. rewrite Ht. destruct (decide (j = id)) as [->|Hj]; [|by rewrite list_lookup_insert_ne by done; apply Ho].
  destruct (decide (id < length (transactions w))); [by rewrite list_lookup_insert_eq|].
  rewrite list_insert_ge by lia. by rewrite lookup_ge_None_2 by lia.
Qed.

(** A control statement that failed: nothing, or the transaction is lost. *)
Lemma inv_refused k op lost s w' e : op = OCommit \/ op = ORollback -> session_inv lost s -> slot w' = slot (world s) ->
  transactions w' = transactions (world s) -> stayed k (sview s) (view (engine w')) -> (forall n, k <> RollbackTo n) ->
  fulfils op lost s (Done (Err e)) (mkSession (session_backend s) (transaction s) w').
Proof.
  intros Hop Hi H1 H2 [Hv|[(n & -> & _)|Hb]] Hk; [|by destruct (Hk n)|].
  - exists (Err e), lost. split; [done|]. split; [apply inv_data; try done; rewrite Hv; eexists; apply with_data_same|].
    unfold standing, sview at 3 4. simpl. rewrite Hv. destruct lost; constructor.
  - exists (Err e), true. split; [done|]. split; [by eapply inv_lost; [| |done..]; [done|by destruct Hb]|].
    apply promised_rolled_back; [by destruct Hop as [-> | ->]|destruct Hop as [-> | ->]; by eexists|done].
Qed.

Lemma dropped id (w : SqliteState C E) : mjoin (transactions w !! id) = None -> drop_transaction id w = w.
Proof. intros H1. unfold drop_transaction. by rewrite H1. Qed.

Lemma insert_none (l : list (option C)) id : mjoin ((<[id := None]> l) !! id) = None.
Proof.
  destruct (decide (id < length l)); [by rewrite list_lookup_insert_eq|].
  rewrite list_insert_ge by lia. by rewrite lookup_ge_None_2 by lia.
Qed.

Definition ending (k : Control) : SessionOp := match k with Commit => OCommit | _ => ORollback end.

(** The end of a transaction: a commit or a rollback. *)
Lemma session_end k lost s o s' : k = Commit \/ k = Rollback -> session_inv lost s ->
  session_call (ending k) s = (o, s') -> fulfils (ending k) lost s o s'.
Proof.
  intros Hk Hi Hc. destruct s as [sb [tb sps nx] w]. pose proof Hi as [Hb Hs]. unfold sview in Hs. cbn in Hb, Hs.
  destruct tb as [db|].
  - destruct Hs as (Hsl & (id & c & Hdb & Ht & Ho) & Hl).
    destruct (finish_control id c k (match k with Commit => "commit transaction" | _ => "rollback transaction" end) w Ht) as (r & w' & Hf & Hw & Hcase).
    assert (forall e, r = Err e -> o = Done (Err e) /\ s' = mkSession sb (mkTransactionState (Some db) sps nx) w') as Herr.
    { intros e ->. destruct Hk as [-> | ->]; cbn [session_call ending] in Hc; unfold unit_reply, session_commit, session_rollback, active_backend, abind, get_session, areturn, call, clear_backend in Hc;
        cbn in Hc; unfold commit_transaction, rollback_transaction, transaction_state, abind, areturn in Hc; cbn in Hf; rewrite Hdb, Hf in Hc; by injection Hc as <- <-. }
    assert (r = Ok tt -> o = Done (Ok Unit_) /\ s' = mkSession sb (mkTransactionState None [] nx) (drop_transaction id w')) as Hok.
    { intros ->. destruct Hk as [-> | ->]; cbn [session_call ending] in Hc; unfold unit_reply, session_commit, session_rollback, active_backend, abind, get_session, areturn, call, clear_backend in Hc;
        cbn in Hc; unfold commit_transaction, rollback_transaction, transaction_state, abind, areturn in Hc; cbn in Hf; rewrite Hdb, Hf in Hc; by injection Hc as <- <-. }
    destruct Hcase as [[-> Hv]|[[error ->] Hv]]; (specialize (Hv ltac:(by destruct Hk as [-> | ->]))).
    + destruct (Hok eq_refl) as [-> ->]. destruct Hw as [Hs' Ht']. rewrite dropped by (rewrite Ht'; apply insert_none).
      assert (pending (view (engine w')) = None /\
        promised (D:=D) (ending k) (Ok Unit_) (if lost then Lost (view (engine w)) else Kept (view (engine w))) (Kept (view (engine w')))) as [Hp' Hpr].
      { destruct (view (engine w)) as [d [[wd sp]|]]; [|by destruct Hk as [-> | ->]].
        destruct lost; [|destruct (Hl eq_refl) as (? & ? & [= <- ->] & _)]; destruct Hk as [-> | ->]; cbn in Hv; injection Hv as Hv; rewrite <- Hv; (split; [done|constructor]). }
      exists (Ok Unit_), false. split; [done|]. split; [by eapply inv_ended|]. exact Hpr.
    + destruct (Herr error eq_refl) as [-> ->]. destruct Hw as [Hs' Ht'].
      apply (inv_refused k (ending k) lost (mkSession sb (mkTransactionState (Some db) sps nx) w) w'); try done; [destruct Hk as [-> | ->]; auto|by destruct Hk as [-> | ->]].
  - destruct Hs as (-> & _). destruct Hk as [-> | ->]; cbn in Hc; unfold unit_reply, session_commit, session_rollback, active_backend, abind, get_session, areturn in Hc; cbn in Hc;
      injection Hc as <- <-; (eexists _, false; split; [done|]; split; [done|constructor]).
Qed.

(** *** Savepoints *)

Lemma control_call db id c k operation (w : SqliteState C E) : sqlite_transaction db = Some id -> transactions w !! id = Some (Some c) ->
  exists r w', transaction_control db operation (control_sql k) w = (Done r, w') /\
    slot w' = slot w /\ transactions w' = transactions w /\ controlled k r (view (engine w)) (view (engine w')).
Proof.
  intros Hdb Ht. unfold transaction_control, transaction_state, abind, areturn, transaction_with_connection, on_engine.
  rewrite Hdb, Ht. cbn. destruct (run_batch_control c k operation (engine w)) as (r & e' & -> & Hcase).
  by eexists _, _.
Qed.

(** In a transaction that the engine rolled back, any change of the view and of
    the names keeps the invariant. *)
Lemma inv_adrift db sps' nx' s (w' : SqliteState C E) : session_inv true s -> ts_backend (transaction s) = Some db ->
  slot w' = slot (world s) -> transactions w' = transactions (world s) ->
  session_inv true (mkSession (session_backend s) (mkTransactionState (Some db) sps' nx') w').
Proof.
  unfold session_inv. intros [Hb Hi] Hdb H1 H2. rewrite Hdb in Hi. destruct Hi as (? & ? & _).
  cbn [session_backend transaction ts_backend world]. rewrite H1, H2. done.
Qed.

Lemma fulfils_adrift op r db sps' nx' s (w' : SqliteState C E) : of_savepoints op -> session_inv true s -> ts_backend (transaction s) = Some db ->
  slot w' = slot (world s) -> transactions w' = transactions (world s) ->
  fulfils op true s (Done r) (mkSession (session_backend s) (mkTransactionState (Some db) sps' nx') w').
Proof.
  intros Hop Hi Hdb H1 H2. exists r, true. split; [done|]. split; [by eapply inv_adrift|]. by constructor.
Qed.

(** A call that the session refuses. *)
Lemma fulfils_refused op lost s e : session_inv lost s -> fulfils op lost s (Done (Err e)) s.
Proof. intros Hi. exists (Err e), lost. split; [done|]. split; [done|]. destruct lost; constructor. Qed.

Lemma savepoint_identifier n : identifier ("ricochet_savepoint_" ++ show_N n).
Proof.
  unfold identifier, is_postgres_identifier. rewrite as_bytes_app.
  assert (forall l, forallb identifier_byte l = true -> is_postgres_identifier_bytes (as_bytes "ricochet_savepoint_" ++ l) = true) as Hpre.
  { intros l Hl. cbn [as_bytes]. simpl. exact Hl. }
  apply Hpre. unfold show_N. rewrite as_from_bytes. destruct (show_N_val n) as (_ & Hd & _).
  rewrite forallb_forall in *. intros b Hb. unfold identifier_byte. by rewrite (Hd b Hb), orb_true_r.
Qed.

Lemma savepoint_name_ok name : identifier name -> savepoint_name name = Ok name.
Proof. unfold identifier, savepoint_name. by intros ->. Qed.

(** The names of the savepoints of a session, which it makes itself. *)
Definition names_ok s : Prop := Forall identifier (savepoints (transaction s)).

(** The transaction of a session that has one, while it is kept. *)
Lemma inv_kept db lost s : session_inv lost s -> ts_backend (transaction s) = Some db -> lost = false ->
  exists d w sp, sview s = mkView d (Some (w, Some sp)) /\ reverse (savepoints (transaction s)) = sp.*1.
Proof.
  intros [_ Hi] Hdb Hl. rewrite Hdb in Hi. destruct Hi as (_ & _ & Hk). destruct (Hk Hl) as (w & sp & Hp & Hsp).
  destruct (sview s) as [d p]. cbn in Hp. subst p. by exists d, w, sp.
Qed.

Lemma inv_open db sps' nx' lost s (w' : SqliteState C E) d wd sp : session_inv lost s -> ts_backend (transaction s) = Some db ->
  slot w' = slot (world s) -> transactions w' = transactions (world s) ->
  view (engine w') = mkView d (Some (wd, Some sp)) -> reverse sps' = sp.*1 ->
  session_inv false (mkSession (session_backend s) (mkTransactionState (Some db) sps' nx') w').
Proof.
  unfold session_inv. intros [Hb Hi] Hdb H1 H2 Hv Hsp. rewrite Hdb in Hi. destruct Hi as (? & ? & _).
  unfold sview. cbn [session_backend transaction ts_backend savepoints world]. rewrite H1, H2, Hv. split_and!; [done..|].
  intros _. by exists wd, sp.
Qed.

Lemma fulfils_savepoint lost s o s' : session_inv lost s -> names_ok s -> session_call OSavepoint s = (o, s') ->
  fulfils OSavepoint lost s o s' /\ names_ok s'.
Proof.
  intros Hi Hn Hc. destruct s as [sb [tb sps nx] w]. pose proof (proj2 Hi) as Hs. cbn [transaction ts_backend world] in Hs.
  cbn [session_call] in Hc. unfold session_savepoint, active_backend, abind, get_session, areturn, call, set_transaction in Hc.
  cbn [session_backend transaction ts_backend savepoints next_savepoint world] in Hc.
  destruct tb as [db|]; [|injection Hc as <- <-; split; [by apply fulfils_refused|done]].
  destruct Hs as (_ & (id & c & Hdb & Ht & _) & _).
  destruct (nx <? u64_max)%N; [|injection Hc as <- <-; split; [by apply fulfils_refused|done]].
  cbn [session_backend transaction ts_backend savepoints next_savepoint world db_create_savepoint sqlite_backend] in Hc.
  pose proof (savepoint_identifier (nx + 1)) as Hid. set (name := ("ricochet_savepoint_" ++ show_N (nx + 1))%string) in *.
  unfold create_savepoint, abind, areturn in Hc. rewrite savepoint_name_ok in Hc by done.
  destruct (control_call db id c (MakeSavepoint name) "create savepoint" w Hdb Ht) as (r & w' & Hr & Hsl' & Ht' & Hcase).
  cbn [control_sql] in Hr. rewrite Hr in Hc.
  set (s := mkSession sb (mkTransactionState (Some db) sps nx) w) in *. destruct lost.
  { destruct Hcase as [[-> _]|[[error ->] _]]; injection Hc as <- <-; (split; [by apply (fulfils_adrift _ _ db _ _ s)|]);
      [apply Forall_app; by split; [|constructor]|done]. }
  destruct (inv_kept db false s Hi eq_refl eq_refl) as (d & wd & sp & Hp & Hsp). unfold sview in Hp. cbn [s world transaction savepoints] in Hp, Hsp.
  assert (followed (MakeSavepoint name) (view (engine w))) as Hfo by (rewrite Hp; by exists wd, sp).
  destruct Hcase as [[-> Hv]|[[error ->] Hv]]; specialize (Hv Hfo); injection Hc as <- <-.
  - split; [|apply Forall_app; by split; [|constructor]]. eexists _, false. split; [done|].
    rewrite Hp in Hv. injection Hv as Hv. symmetry in Hv.
    split; [eapply (inv_open db _ _ false s); [done..|exact Hv|by rewrite reverse_snoc, Hsp]|].
    unfold standing, sview. cbn [s world]. rewrite Hp, Hv. constructor.
  - split; [|done]. destruct Hv as [Hv|[(n & [=] & _)|Hb]].
    + eexists _, false. split; [done|]. split; [eapply (inv_open db _ _ false s); [done..|by rewrite Hv, Hp|done]|].
      unfold standing, sview. cbn [s world]. rewrite Hv. constructor.
    + eexists _, true. split; [done|]. split; [|by apply (promised_rolled_back _ _ false s); [done|eexists|]].
      eapply (inv_lost false (mkSession sb (mkTransactionState (Some db) sps (nx + 1)) w)); [exact Hi|by destruct Hb|done..].
Qed.

Lemma take_snoc {A : Type} (l : list A) x : take (length (l ++ [x]) - 1) (l ++ [x]) = l.
Proof. rewrite length_app, Nat.add_sub. apply take_app_length. Qed.

Lemma fulfils_finish name (rollback : bool) lost s o s' : session_inv lost s -> names_ok s ->
  session_call (if rollback then ORollbackTo name else ORelease name) s = (o, s') ->
  fulfils (if rollback then ORollbackTo name else ORelease name) lost s o s' /\ names_ok s'.
Proof.
  intros Hi Hn Hc. destruct s as [sb [tb sps nx] w]. pose proof (proj2 Hi) as Hs. cbn [transaction ts_backend world] in Hs.
  assert (unit_reply (finish_savepoint name rollback) (mkSession sb (mkTransactionState tb sps nx) w) = (o, s')) as Hc' by (by destruct rollback).
  clear Hc. unfold unit_reply, finish_savepoint, active_backend, abind, get_session, areturn, call, set_transaction in Hc'.
  cbn [session_backend transaction ts_backend savepoints next_savepoint world] in Hc'.
  destruct tb as [db|]; [|injection Hc' as <- <-; split; [by apply fulfils_refused|done]].
  destruct Hs as (_ & (id & c & Hdb & Ht & _) & _).
  destruct (bool_decide (list.last sps = Some name)) eqn:El; cbn [negb] in Hc';
    [|injection Hc' as <- <-; split; [by apply fulfils_refused|done]].
  apply bool_decide_eq_true, list.last_Some in El as [init ->]. pose proof Hn as Hn'.
  apply Forall_app in Hn' as [Hn' Hname]. apply (Forall_cons_1 identifier) in Hname as [Hname _].
  set (k := if rollback then RollbackTo name else Release name).
  assert ((if rollback then db_rollback_to_savepoint db name else db_release_savepoint db name) w =
    transaction_control db (if rollback then "rollback to savepoint" else "release savepoint") (control_sql k) w) as Hsql.
  { unfold k. destruct rollback; cbn; unfold release_savepoint, rollback_to_savepoint, abind, areturn; by rewrite savepoint_name_ok by done. }
  cbn [session_backend transaction ts_backend savepoints next_savepoint world] in Hc'; rewrite Hsql in Hc'. clear Hsql.
  destruct (control_call db id c k
    (if rollback then "rollback to savepoint" else "release savepoint") w Hdb Ht) as (r & w' & Hr & Hsl' & Ht' & Hcase).
  rewrite Hr in Hc'. set (s := mkSession sb (mkTransactionState (Some db) (init ++ [name]) nx) w) in *.
  assert (names_ok s') as Hns.
  { destruct Hcase as [[-> _]|[[error ->] _]]; injection Hc' as <- <-; unfold names_ok; cbn [transaction savepoints]; [by rewrite take_snoc|done]. }
  split; [|done]. destruct lost.
  { destruct Hcase as [[-> _]|[[error ->] _]]; injection Hc' as <- <-; (apply (fulfils_adrift _ _ db _ _ s); [by destruct rollback|done..]). }
  destruct (inv_kept db false s Hi eq_refl eq_refl) as (d & wd & sp & Hp & Hsp). unfold sview in Hp. cbn [s world transaction savepoints] in Hp, Hsp.
  rewrite reverse_snoc in Hsp. destruct sp as [|[n x] sp]; [done|]. injection Hsp as <- Hsp.
  assert (followed k (view (engine w))) as Hfo by (rewrite Hp; unfold k; destruct rollback; by eexists _, _).
  destruct Hcase as [[-> Hv]|[[error ->] Hv]]; specialize (Hv Hfo); injection Hc' as <- <-.
  - eexists _, false. split; [done|]. rewrite take_snoc. rewrite Hp in Hv. unfold k in Hv. unfold standing, sview. cbn [s world].
    destruct rollback; cbn in Hv; rewrite String.eqb_refl in Hv; cbn in Hv; injection Hv as Hv; rewrite <- Hv, Hp;
      (split; [by eapply (inv_open db _ _ false s); [done..| |]; [by rewrite <- Hv|]|constructor]).
  - destruct Hv as [Hv|[(n & Hk & Hv)|Hb]].
    + eexists _, false. split; [done|]. split; [eapply (inv_open db _ _ false s); [done..|by rewrite Hv, Hp|by rewrite reverse_snoc, Hsp]|].
      unfold standing, sview. cbn [s world]. rewrite Hv. destruct rollback; constructor.
    + unfold k in Hk. destruct rollback; [|done]. injection Hk as <-. rewrite Hp in Hv. cbn in Hv. rewrite String.eqb_refl in Hv. cbn in Hv.
      injection Hv as Hv. eexists _, false. split; [done|].
      split; [eapply (inv_open db _ _ false s); [done..|by rewrite <- Hv|by rewrite reverse_snoc, Hsp]|].
      unfold standing, sview. cbn [s world]. rewrite <- Hv, Hp. constructor.
    + eexists _, true. split; [done|]. split; [|apply (promised_rolled_back _ _ false s); [by destruct rollback|destruct rollback; by eexists|done]].
      eapply (inv_lost false s); [exact Hi|by destruct Hb|done..].
Qed.

(** *** Every operation *)

Definition good lost s : Prop := session_inv lost s /\ names_ok s.

Lemma session_query_transaction mapping q s o s' : session_call (OQuery mapping q) s = (o, s') -> transaction s' = transaction s.
Proof. cbn [session_call]. rewrite session_query. destruct (db_query _ _ _ _). by intros [= _ <-]. Qed.

Lemma session_end_names k s o s' : k = Commit \/ k = Rollback -> names_ok s -> session_call (ending k) s = (o, s') -> names_ok s'.
Proof.
  intros Hk Hn Hc. destruct s as [sb [[db|] sps nx] w]; destruct Hk as [-> | ->]; cbn in Hc;
    unfold unit_reply, session_commit, session_rollback, active_backend, abind, get_session, areturn, call, clear_backend in Hc; cbn in Hc;
    repeat case_match; simplify_eq; try done; constructor.
Qed.

Lemma session_begin_names s o s' : names_ok s -> session_call OBegin s = (o, s') -> names_ok s'.
Proof.
  intros Hn Hc. destruct s as [sb [[db|] sps nx] w]; cbn in Hc;
    unfold unit_reply, session_begin, abind, get_session, areturn, call, set_transaction in Hc; cbn in Hc;
    repeat case_match; simplify_eq; try done; constructor.
Qed.

Lemma session_step op lost s o s' : good lost s -> session_call op s = (o, s') ->
  exists r lost', o = Done r /\ good lost' s' /\ promised op r (standing lost s) (standing lost' s').
Proof.
  intros [Hi Hn] Hc.
  assert (fulfils op lost s o s' /\ names_ok s') as [(r & lost' & -> & Hi' & Hp) Hn'].
  { destruct op.
    - split; [by apply fulfils_begin|by eapply session_begin_names].
    - split; [by apply (session_end Commit); auto|by eapply (session_end_names Commit); eauto].
    - split; [by apply (session_end Rollback); auto|by eapply (session_end_names Rollback); eauto].
    - by apply fulfils_savepoint.
    - by apply (fulfils_finish _ false).
    - by apply (fulfils_finish _ true).
    - split; [by apply fulfils_query|]. unfold names_ok. by rewrite (session_query_transaction _ _ _ _ _ Hc). }
  by exists r, lost'.
Qed.

(** A sequence of calls. *)
Fixpoint session_run (ops : list SessionOp) s : list (outcome Reply) * session :=
  match ops with
  | [] => ([], s)
  | op :: ops' =>
      let '(o, s1) := session_call op s in
      let '(os, s2) := session_run ops' s1 in (o :: os, s2)
  end.



(** The world that a session is made in: its connection is in the slot, and no
    transaction is open. *)
Record idle (w : SqliteState C E) : Prop := {
  idle_slot : is_Some (slot w);
  idle_transactions : forall id, mjoin (transactions w !! id) = None;
  idle_view : pending (view (engine w)) = None (A := _ * option (list (string * D))) }.

Lemma new_good w : idle w -> good false (new_session (mkSqliteDatabase None) w).
Proof. intros [H1 H2 H3]. split; [|constructor]. unfold session_inv, sview; cbn. done. Qed.



End Refinement.

(** ** What scripts can call *)






Section Calls.
Context {B W : Type} `{DatabaseBackend B W}.



End Calls.

Section Scripts.
Context {B W : Type} `{DatabaseBackend B W}.


End Scripts.

(** ** The theorems *)

Section Theorems.
Context {C E D : Type} `{Connection C E, !SqlEngine C E D}.
Abbreviation session := (Session SqliteDatabase (SqliteState C E)).
Implicit Types s : session.




(** *** The method [transaction] *)

(** A block that leaves the end of its transaction to the method: it ends, it
    does not commit or roll back itself, and if the engine rolls the
    transaction back, it changes nothing afterwards. *)
Definition stays_open (body : program session) : Prop :=
  forall s, good false s -> is_Some (pending (sview s)) ->
  exists r lost s', body s = (Some r, s') /\ good lost s' /\ durable (sview s') = durable (sview s) /\
    (if lost then pending (sview s') = None else is_Some (pending (sview s'))).

(** Only the ends of a transaction change what is durable while it is open. *)
Lemma promised_open op r (v : View D) st : op <> OCommit -> op <> ORollback -> promised op r (Kept v) st -> is_Some (pending v) ->
  (exists v', st = Kept v' /\ durable v' = durable v /\ is_Some (pending v')) \/ st = Lost (mkView (durable v) None) /\ unsuccessful op r.
Proof.
  intros H1 H2 Hp Ho. inversion Hp as [| | | | | | | |? ? ? ? d| | | | | | |]; subst; cbn in Ho; try done;
    try (left; eexists; split; [reflexivity|]; cbn; split; [reflexivity|by eexists]).
  - left. by exists v.
  - left. exists (with_data d v). split; [done|]. destruct v as [d0 [[w sp]|]]; [|by destruct Ho]. split; [done|by eexists].
  - by right.
Qed.

(** The blocks that make calls, none of them an end of the transaction, until
    one has no success. *)
Fixpoint calls (debug : string -> string) (ops : list SessionOp) (v : Value) : program session := fun s =>
  match ops with
  | [] => (Some (Ok v), s)
  | op :: ops' =>
      match session_call op s with
      | (Done (Ok _), s') => calls debug ops' v s'
      | (Done (Err e), s') => (Some (Ok (database_result_error debug e)), s')
      | (Done Panic, s') => (Some Panic, s')
      | (Done OutOfFuel, s') => (Some OutOfFuel, s')
      | (Waits, s') => (None, s')
      end
  end.

Lemma calls_stay_open debug ops v : Forall (fun op => op <> OCommit /\ op <> ORollback) ops -> stays_open (calls debug ops v).
Proof.
  induction 1 as [|op ops [H1 H2] _ IH]; intros s Hg Ho; [by exists (Ok v), false, s|]. cbn [calls].
  destruct (session_call op s) as [o s1] eqn:Ec. destruct (session_step _ _ _ _ _ Hg Ec) as (r & lost & -> & Hg1 & Hp).
  destruct (promised_open _ _ _ _ H1 H2 Hp Ho) as [(v' & Hst & Hd & Ho')|[Hst Hno]].
  - destruct lost; [done|]. injection Hst as Hst. subst v'.
    destruct r as [a|e| |]; [|by eexists _, false, s1..]. destruct (IH s1 Hg1 Ho') as (r & lost & s2 & Hb & Hg2 & Hd2 & Ho2).
    exists r, lost, s2. split_and!; [done..|congruence|done].
  - destruct lost; [|done]. injection Hst as Hst.
    assert (durable (sview s1) = durable (sview s) /\ pending (sview s1) = None) as [Hd Hn] by (by rewrite Hst).
    destruct r as [a|e| |]; [|by eexists _, true, s1..]. by destruct op; try (by destruct (Hno a)); destruct Hno.
Qed.

Lemma unit_step debug op m lost s : session_call op = unit_reply m -> op = OBegin \/ op = OCommit \/ op = ORollback -> good lost s ->
  exists v lost' s', unit_method debug m s = (Some (Ok v), s') /\ good lost' s' /\
    ((v = result_ok (Value.Bool true) /\ m s = (Done (Ok tt), s') /\ promised op (Ok Unit_) (standing lost s) (standing lost' s')) \/
     ((exists e, v = Value.Result (RErr e)) /\ durable (sview s') = durable (sview s))).
Proof.
  intros Hm Hop Hg. destruct (session_call op s) as [o s'] eqn:Ec. destruct (session_step _ _ _ _ _ Hg Ec) as (r & lost' & -> & Hg' & Hp).
  assert ((exists e, r = Err e) -> durable (sview s') = durable (sview s)) as Hsame.
  { intros [e ->]. unfold standing in Hp. destruct lost, lost'; inversion Hp; subst; try done; try congruence;
      first [by destruct Hop as [?|[?|?]]; simplify_eq|match goal with Hx : _ = sview s' |- _ => by rewrite <- Hx end]. }
  assert (r <> Panic /\ r <> OutOfFuel) as [Hr1 Hr2].
  { split; intros ->; unfold standing in Hp; destruct lost, lost'; inversion Hp; subst; try (by destruct Hop as [?|[?|?]]; simplify_eq);
      match goal with Hu : unsuccessful _ _ |- _ => destruct Hop as [-> |[-> | ->]]; by destruct Hu end. }
  rewrite Hm in Ec. unfold unit_reply, abind, areturn in Ec. unfold unit_method.
  destruct (m s) as [[[[]|e| |]|] s1] eqn:Em; injection Ec as Hr ->; try subst r; try done.
  - exists (result_ok (Value.Bool true)), lost', s'. split; [done|]. split; [done|]. by left.
  - eexists _, lost', s'. split; [done|]. split; [done|]. right. split; [by eexists|]. apply Hsame. by eexists.
Qed.

(** A transaction begins where none is open, and is kept. *)
Lemma promised_begun lost s lost' s' : promised OBegin (Ok Unit_) (standing lost s) (standing lost' s') ->
  lost' = false /\ pending (sview s) = None /\ sview s' = mkView (durable (sview s)) (Some (durable (sview s), Some [])).
Proof.
  unfold standing. destruct lost, lost'; intros Hp; inversion Hp; subst; done.
Qed.

Lemma promised_committed lost s lost' s' : promised OCommit (Ok Unit_) (standing lost s) (standing lost' s') ->
  lost' = false /\ pending (sview s') = None /\ exists sp, pending (sview s) = Some (durable (sview s'), sp).
Proof.
  unfold standing. intros Hp. destruct lost, lost'; inversion Hp; subst; try done;
    first [match goal with Hu : unsuccessful _ _ |- _ => by destruct Hu end|cbn; eauto].
Qed.

Lemma promised_rolled lost s lost' s' : promised ORollback (Ok Unit_) (standing lost s) (standing lost' s') ->
  durable (sview s') = durable (sview s).
Proof.
  unfold standing. intros Hp. destruct lost, lost'; inversion Hp; subst; try done;
    match goal with Hu : unsuccessful _ _ |- _ => by destruct Hu end.
Qed.

(** C24: The method [transaction] is all or nothing, over any block that
    leaves the end of the transaction to it: one that ends, that does not
    commit or roll back itself, and that changes nothing more if the engine
    rolls the transaction back under it.  When the result of the method is ok,
    the data that the block left is durable and no transaction is open;
    otherwise, whatever failed (the beginning, the block, the commit, the
    rollback, the engine), the durable data is what it was.  It never waits. *)
Theorem transaction_all_or_nothing debug body s : good false s -> pending (sview s) = None -> stays_open body ->
  exists r lost s', session_transaction debug body s = (Some r, s') /\ good lost s' /\
    match r with
    | Ok (Value.Result (ROk v)) =>
        lost = false /\ pending (sview s') = None /\
        exists s1 s2 savepoints, session_begin s = (Done (Ok tt), s1) /\ body s1 = (Some (Ok (result_ok v)), s2) /\
          pending (sview s2) = Some (durable (sview s'), savepoints)
    | _ => durable (sview s') = durable (sview s)
    end.
Proof.
  intros Hg Hp Hbody. unfold session_transaction, transaction_program, pbind.
  destruct (unit_step debug OBegin session_begin false s eq_refl ltac:(auto) Hg) as (v1 & l1 & s1 & -> & Hg1 & [(-> & Hb & Hp1)|([e ->] & Hv)]);
    [|exists (Ok (Value.Result (RErr e))), l1, s1; done].
  apply promised_begun in Hp1 as (-> & _ & Hs1).
  assert (durable (sview s1) = durable (sview s) /\ is_Some (pending (sview s1))) as [Hd1 Ho1] by (by rewrite Hs1).
  destruct (Hbody s1 Hg1 Ho1) as (r2 & l2 & s2 & Hb2 & Hg2 & Hd2 & Ho2). cbn [if_ok result_ok]. rewrite Hb2.
  assert (durable (sview s2) = durable (sview s)) as Hd by congruence.
  destruct r2 as [v2|e2| |]; [|by eexists _, l2, s2..].
  destruct v2 as [| | | | | | | | | | | | | |[v|e]| | | | |]; cbn [if_ok]; try by (eexists _, l2, s2).
  - destruct (unit_step debug OCommit session_commit l2 s2 eq_refl ltac:(auto) Hg2) as (v3 & l3 & s3 & -> & Hg3 & [(-> & Hc & Hp3)|([e ->] & Hv)]); cbn.
    + exists (Ok (result_ok v)), l3, s3. split; [done|]. split; [done|]. cbn.
      apply promised_committed in Hp3 as (-> & E1 & sp & E2). split; [done|]. split; [done|]. by exists s1, s2, sp.
    + exists (Ok (Value.Result (RErr e))), l3, s3. cbn. by rewrite Hv.
  - destruct (unit_step debug ORollback session_rollback l2 s2 eq_refl ltac:(auto) Hg2) as (v3 & l3 & s3 & -> & Hg3 & [(-> & Hc & Hp3)|([e' ->] & Hv)]); cbn.
    + exists (Ok (Value.Result (RErr e))), l3, s3. split; [done|]. split; [done|]. cbn.
      apply promised_rolled in Hp3. congruence.
    + exists (Ok (Value.Result (RErr e'))), l3, s3. cbn. by rewrite Hv.
Qed.

End Theorems.

(** ** An engine

    The data is the number of rows; a statement that inserts or updates adds
    one.  The engine recognises the control statements by their texts.  It has
    room for eight rows: a statement for one more fails, and rolls the
    transaction back, as SQLite may when the disk is full. *)

Lemma control_sql_inj k k' : control_sql k = control_sql k' -> k = k'.
Proof.
  destruct k, k'; cbn; try done; intros [= Hn]; [by f_equal..|].
  assert (as_bytes (name ++ "; release savepoint " ++ name) = as_bytes (name0 ++ "; release savepoint " ++ name0)) as Hb by (exact (f_equal as_bytes Hn)).
  rewrite !as_bytes_app in Hb. assert (length (as_bytes name) = length (as_bytes name0)) as Hl.
  { apply (f_equal length) in Hb. rewrite !length_app in Hb. lia. }
  apply app_inj_1 in Hb as [Hb _]; [|done]. f_equal. rewrite <- (from_as_bytes name), <- (from_as_bytes name0). by rewrite Hb.
Qed.

Definition toy_controls (sql : string) (v : View nat) : list Control :=
  [Begin; Commit; Rollback; MakeSavepoint (substring 10 (String.length sql) sql)] ++
  match pending v with
  | Some (_, Some sp) => flat_map (fun n => [Release n; RollbackTo n]) sp.*1
  | _ => []
  end.

Definition toy_batch (sql : string) (v : View nat) : option string * View nat :=
  match list_find (fun k => control_sql k = sql) (toy_controls sql v) with
  | Some (_, k) => match control_step k v with Some v' => (None, v') | None => (Some "not now", v) end
  | None => (Some "syntax error", v)
  end.

(** The view after a query, and whether the query failed. *)
Definition toy_query (sql : string) (v : View nat) : bool * View nat :=
  if starts_with "select " sql then (false, v)
  else match pending v with
       | Some (d, _) => if d <? 8 then (false, with_data (S d) v) else (true, mkView (durable v) None)
       | None => if durable v <? 8 then (false, with_data (S (durable v)) v) else (true, v)
       end.

#[local] Instance toy_connection : Connection unit (View nat) := {|
  execute_batch := fun _ => toy_batch;
  query := fun _ sql ps v =>
    let '(full, v') := toy_query sql v in
    (if full then Err "disk full" else Ok ([[SqliteSqlValue.Integer 1; SqliteSqlValue.Text (as_bytes "a@b")]], None), v');
  query_row_i64 := fun _ sql ps v =>
    let '(full, v') := toy_query sql v in (if full then Err "disk full" else Ok 1%Z, v');
  invalid_column_index := fun i => "Invalid column index" |}.

Lemma toy_data sql v failed v' : toy_query sql v = (failed, v') ->
  (exists d, v' = with_data d v) \/ failed = true /\ rolled_back v v'.
Proof.
  unfold toy_query. destruct (starts_with _ _); [intros [= <- <-]; left; eexists; apply with_data_same|].
  destruct (pending v) as [[d sp]|] eqn:Ep; (destruct (_ <? _); intros [= <- <-]); [left; by eexists|right|left; by eexists|left; eexists; apply with_data_same].
  split; [done|]. split; [by rewrite Ep|done].
Qed.

#[local] Program Instance toy_engine : SqlEngine unit (View nat) nat := {| view := id |}.
Next Obligation.
  intros c k e r e' Hx _. cbn in Hx. unfold toy_batch in Hx.
  destruct (list_find _ _) as [[i k']|] eqn:Ef; [|injection Hx as <- <-; by left].
  apply list_find_Some in Ef as (_ & Hk & _). apply control_sql_inj in Hk as ->.
  destruct (control_step k e) as [v'|] eqn:Es; injection Hx as <- <-; [done|by left].
Qed.
Next Obligation.
  intros c sql ps e failed e' _ [r e1 Hq|r e1 Hq]; cbn in Hq; destruct (toy_query sql e) as [full v'] eqn:Et;
    apply toy_data in Et as [Hd|[-> Hb]]; injection Hq as <- <-; first [by left|by right].
Qed.

Definition toy_world : SqliteState unit (View nat) := mkSqlite (Some tt) [] (mkView 3 None).

Lemma toy_idle : idle (D:=nat) toy_world.
Proof. split; [by eexists|done|done]. Qed.

Definition toy_mappings : btree ModelMapping := [("User", mkMapping "User" "users" ["id"; "email"])].

Definition toy_insert : SessionOp := OQuery (model_mapping toy_mappings "User") (QInsert [("email", Value.String "a@b")]).





(** A block that inserts a number of rows and stops at the first error. *)
Definition toy_block (n : nat) (v : Value) : program (Session SqliteDatabase (SqliteState unit (View nat))) :=
  calls (fun x => x) (replicate n toy_insert) v.

Lemma toy_block_open n v : stays_open (toy_block n v).
Proof. apply calls_stay_open. by apply Forall_replicate. Qed.

Lemma transaction_all_or_nothing_witness :
  let s := new_session (mkSqliteDatabase None) toy_world in
  let debug := fun x : string => x in
  (durable (sview (session_transaction debug (toy_block 1 (result_ok Value.Nil)) s).2) = 4 /\
   durable (sview (session_transaction debug (toy_block 1 (result_err "E" "no")) s).2) = 3 /\
   durable (sview (session_transaction debug (toy_block 6 (result_ok Value.Nil)) s).2) = 3) /\
  exists r lost s', session_transaction debug (toy_block 6 (result_ok Value.Nil)) s = (Some r, s') /\ good lost s' /\
    match r with
    | Ok (Value.Result (ROk v)) =>
        lost = false /\ pending (sview s') = None /\
        exists s1 s2 savepoints, session_begin s = (Done (Ok tt), s1) /\ toy_block 6 (result_ok Value.Nil) s1 = (Some (Ok (result_ok v)), s2) /\
          pending (sview s2) = Some (durable (sview s'), savepoints)
    | _ => durable (sview s') = durable (sview s)
    end.
Proof.
  intros s debug. split; [vm_compute; split; [reflexivity|split; reflexivity]|].
  exact (transaction_all_or_nothing debug (toy_block 6 (result_ok Value.Nil)) s (new_good toy_world toy_idle) eq_refl
           (toy_block_open 6 (result_ok Value.Nil))).
Defined.

(** A block that goes on after the error with which its transaction was
    lost: what it inserts then is durable at once, though the method [transaction]
    answers with an error, and the session stays in a transaction that can be
    neither committed nor rolled back. *)
Definition careless_block : program (Session SqliteDatabase (SqliteState unit (View nat))) := fun s =>
  (Some (Ok (result_ok Value.Nil)), (session_run (replicate 7 toy_insert) s).2).

Lemma careless_block_writes :
  let '(r, s') := session_transaction (fun x => x) careless_block (new_session (mkSqliteDatabase None) toy_world) in
  r = Some (Ok (result_err "DatabaseError" "database commit transaction failed: not now")) /\ sview s' = mkView 4 None /\
  is_Some (ts_backend (transaction s')) /\
  (session_rollback s').1 = Done (Err (sqlite_error "rollback transaction" "not now")).
Proof. vm_compute. split; [reflexivity|]. split; [reflexivity|]. split; [by eexists|reflexivity]. Qed.

(** ** The program [transaction], compiled and run

    The methods that it calls are played by methods of the language that say
    their name and give a result, for every combination of results. *)
Inductive Ending : Type := Fine | Fails | NotAResult.

Definition quoted (s : string) : string := Database.quote ++ s ++ Database.quote.

Definition ending_source (name : string) (e : Ending) : string :=
  match e with
  | Fine => quoted name ++ " ok"
  | Fails => quoted "E" ++ " " ++ quoted name ++ " fail"
  | NotAResult => quoted name
  end.

Definition ending_value (name : string) (e : Ending) : Value :=
  match e with
  | Fine => result_ok (Value.String name)
  | Fails => result_err "E" name
  | NotAResult => Value.String name
  end.

Definition stub_source (name : string) (e : Ending) : string :=
  "( -> result ) [ " ++ quoted name ++ " print " ++ ending_source name e ++ " ] " ++ quoted name ++ " Method" ++ Database.newline.

Definition as_ending (ok : bool) : Ending := if ok then Fine else Fails.

Definition test_source (begin commit rollback : bool) (body : Ending) : string :=
  "DatabaseCapability Capability Subclass" ++ Database.newline ++ stub_source "begin" (as_ending begin)
  ++ stub_source "commit" (as_ending commit) ++ stub_source "rollback" (as_ending rollback) ++ "end" ++ Database.newline
  ++ transaction_source
  ++ "[ " ++ quoted "body" ++ " print " ++ ending_source "body" body ++ " ] DatabaseCapability new transaction".

(** The result, or the error, and what was said. *)
Definition machine_run `{Sha256} (source : string) : option (res VmError Value * list Text) :=
  match compile_source "test" "test" source [] with
  | Ok chunk =>
      match run_chunk (fun w => vfail (VmError.UnknownWord w)) (fun v m => vfail (VmError.UnknownMethod (value_kind v) m)) 500 chunk default_vm with
      | Val _ s => (fun v => (Ok v, stdout s)) <$> head (stack s)
      | Exn e s => Some (Err e, stdout s)
      | _ => None
      end
  | _ => None
  end.

Definition stub_method (name : string) (e : Ending) : program (list Text) := fun said =>
  (Some (Ok (ending_value name e)), said ++ [Plain name]).

#[local] Instance no_digest : Sha256 := fun _ => [].

(** The source of the method [transaction], compiled and run by the
    machine, does what [transaction_program] says: it calls the same methods,
    in the same order, and gives the same result or error. *)
Theorem transaction_source_means (begin commit rollback : bool) (body : Ending) :
  machine_run (test_source begin commit rollback body)
  = let '(r, said) := transaction_program (stub_method "begin" (as_ending begin)) (stub_method "commit" (as_ending commit))
                        (stub_method "rollback" (as_ending rollback)) (stub_method "body" body) [] in
    (fun r => (r, said)) <$> r.
Proof. destruct begin, commit, rollback, body; vm_compute; reflexivity. Qed.
