(* ===== verification/Migration.v ===== *)
(** * The migration language

    [crates/ricochet_cli/src/migration_dsl.rs]: a migration is a source of
    string literals and words, read by a stack machine into statements, which
    are rendered as SQL for SQLite, PostgreSQL or MySQL.  The lexer is that of
    the language. *)

From stdpp Require Import base tactics list strings option numbers.
From Stdlib Require Import ZArith NArith Lia Ascii String.
From S2P Require Import Prelude RustStr RustText Syntax Lexer.

Open Scope string_scope.
Open Scope list_scope.
Open Scope nat_scope.

(** ** Errors *)

(** The lexer's error, the token in the message of an unsupported token, or a
    message of its own. *)
Inductive MigrationError : Type :=
  | LexFailure (error : LexError)
  | UnsupportedToken (kind : TokenKind) (position : nat)
  | Refused (m : msg).

Definition refuse_dsl {A : Type} (m : msg) : res MigrationError A := Err (Refused m).

Definition at_byte (position : nat) : msg := [Lit " at byte "; DispN (N.of_nat position)].

(** ** Adapters *)

Module SqlAdapter.
Inductive SqlAdapter : Type := Sqlite | Postgres | Mysql.
End SqlAdapter.
Abbreviation SqlAdapter := SqlAdapter.SqlAdapter.

#[export] Instance SqlAdapter_eq_dec : EqDecision SqlAdapter.
Proof. solve_decision. Defined.

Definition adapter_from_name (name : string) : res MigrationError SqlAdapter :=
  if String.eqb name "sqlite" then Ok SqlAdapter.Sqlite
  else if String.eqb name "postgres" || String.eqb name "postgresql" then Ok SqlAdapter.Postgres
  else if String.eqb name "mysql" || String.eqb name "mariadb" then Ok SqlAdapter.Mysql
  else refuse_dsl [Lit "migration DSL does not support adapter "; Dbg name].

(** [str::replace] of an ASCII character. *)
Definition replace_char (c : byte) (by_ : list byte) (l : list byte) : list byte :=
  flat_map (fun b => if Ascii.eqb b c then by_ else [b]) l.

Definition dquote : byte := "034".
Definition squote : byte := "039".
Definition bquote : byte := "096".
Definition bslash : byte := "092".
Definition line_feed : string := String "010" "".

Definition name_quote (a : SqlAdapter) : byte :=
  match a with SqlAdapter.Sqlite | SqlAdapter.Postgres => dquote | SqlAdapter.Mysql => bquote end.

Definition quote_name (a : SqlAdapter) (identifier : string) : string :=
  let q := name_quote a in
  from_bytes ([q] ++ replace_char q [q; q] (as_bytes identifier) ++ [q]).

Definition sql_string_literal (a : SqlAdapter) (value : string) : string :=
  let escaped :=
    match a with
    | SqlAdapter.Sqlite | SqlAdapter.Postgres => replace_char squote [squote; squote] (as_bytes value)
    | SqlAdapter.Mysql => replace_char squote [bslash; squote] (replace_char bslash [bslash; bslash] (as_bytes value))
    end in
  from_bytes ([squote] ++ escaped ++ [squote]).

(** ** Names and types *)

Definition contains_text (needle s : string) : bool := match string_find needle s with Some _ => true | None => false end.

Definition validate_name (kind value : string) : res MigrationError unit :=
  let? trimmed := trim value in
  if String.eqb value "" || negb (String.eqb trimmed value) then
    refuse_dsl [Disp kind; Lit " identifier must be non-empty and cannot have leading or trailing whitespace"]
  else if contains_byte "." value then refuse_dsl [Disp kind; Lit " identifier must not be schema-qualified"]
  else
    let? cs := chars value in
    if existsb is_control cs then refuse_dsl [Disp kind; Lit " identifier contains a control character"] else Ok tt.

Definition unsupported_type_char (c : char) : bool :=
  is_control c || existsb (fun b => N.eqb c (byte_val b)) [squote; dquote; bquote; ";"%char; bslash].

Definition validate_type_name (value : string) : res MigrationError unit :=
  let? trimmed := trim value in
  if String.eqb value "" || negb (String.eqb trimmed value) then
    refuse_dsl [Lit "column type must be non-empty and cannot have leading or trailing whitespace"]
  else if contains_text "--" value || contains_text "/*" value || contains_text "*/" value then
    refuse_dsl [Lit "column type must not contain SQL comment syntax"]
  else
    let? cs := chars value in
    if existsb unsupported_type_char cs then refuse_dsl [Lit "column type contains an unsupported character"] else Ok tt.

(** ** Statements *)

Record StackString : Type := mkStackString { stack_value : string; stack_position : nat }.

Record Column : Type := mkColumn {
  name_of_column : string; type_of_column : string;
  primary_key : bool; not_null : bool; unique_column : bool; column_default : option string }.

Record CreateTable : Type := mkCreateTable { create_name : string; create_columns : list Column }.

Module Statement.
Inductive Statement : Type :=
  | CreateTable (create : CreateTable)
  | AddColumn (table : string) (column : Column)
  | DropColumn (table column : string)
  | RenameColumn (table old new : string)
  | CreateIndex (name table column : string) (unique : bool)
  | DropIndex (name table : string)
  | DropTable (name : string).
End Statement.
Abbreviation Statement := Statement.Statement.

Module ColumnTarget.
Inductive ColumnTarget : Type := CurrentCreate | Statement (index : nat).
End ColumnTarget.
Abbreviation ColumnTarget := ColumnTarget.ColumnTarget.

(** ** The compiler *)

Record MigrationCompiler : Type := mkCompiler {
  dsl_stack : list StackString;
  statements : list Statement;
  current_create : option CreateTable;
  last_column_target : option ColumnTarget;
  saw_create : bool;
  saw_drop : bool }.

Definition new_dsl_compiler : MigrationCompiler := mkCompiler [] [] None None false false.

Definition set_stack l s := mkCompiler l (statements s) (current_create s) (last_column_target s) (saw_create s) (saw_drop s).
Definition set_statements l s := mkCompiler (dsl_stack s) l (current_create s) (last_column_target s) (saw_create s) (saw_drop s).
Definition set_current c s := mkCompiler (dsl_stack s) (statements s) c (last_column_target s) (saw_create s) (saw_drop s).
Definition set_target t s := mkCompiler (dsl_stack s) (statements s) (current_create s) t (saw_create s) (saw_drop s).
Definition set_saw_create s := mkCompiler (dsl_stack s) (statements s) (current_create s) (last_column_target s) true (saw_drop s).
Definition set_saw_drop s := mkCompiler (dsl_stack s) (statements s) (current_create s) (last_column_target s) (saw_create s) true.

(** The caller gives the compilation up at the first error. *)
Abbreviation dsl := (stm MigrationCompiler MigrationError).

Definition refused {A : Type} (m : msg) : dsl A := sfail (Refused m).

(** The top of the stack is the last element. *)
Definition pop_literal (context : string) (position : nat) : dsl StackString :=
  let* s := sget in
  match list.last (dsl_stack s) with
  | Some top => smodify (set_stack (removelast (dsl_stack s))) ;; sret top
  | None => refused ([Disp context; Lit " expected a string literal on the stack"] ++ at_byte position)
  end.

Definition append_statement (st : Statement) : dsl unit := smodify (fun s => set_statements (statements s ++ [st]) s).

Definition finish_current_create : dsl unit :=
  let* s := sget in
  match current_create s with
  | Some create =>
      smodify (set_current None) ;;
      match create_columns create with
      | [] => refused [Lit "table_create for "; Dbg (create_name create); Lit " has no columns"]
      | _ => append_statement (Statement.CreateTable create)
      end
  | None => sret tt
  end.

Definition mixed_tables (position : nat) : msg :=
  [Lit "migration DSL cannot mix table_create and table_drop in the same file"] ++ at_byte position.

Definition table_create (position : nat) : dsl unit :=
  let* s := sget in
  if saw_drop s then refused (mixed_tables position)
  else
    smodify (set_target None) ;;
    finish_current_create ;;
    let* table := pop_literal "table_create" position in
    slift (validate_name "table" (stack_value table)) ;;
    smodify (set_current (Some (mkCreateTable (stack_value table) []))) ;;
    smodify (set_target None) ;;
    smodify set_saw_create.

Definition new_column (name type_name : string) : Column := mkColumn name type_name false false false None.

Definition add_column (c : Column) (t : CreateTable) : CreateTable := mkCreateTable (create_name t) (create_columns t ++ [c]).

Definition column_word (position : nat) : dsl unit :=
  let* s := sget in
  match current_create s with
  | None => refused ([Lit "column before table_create"] ++ at_byte position)
  | Some _ =>
      let* type_name := pop_literal "column type" position in
      let* column_name := pop_literal "column name" position in
      slift (validate_name "column" (stack_value column_name)) ;;
      slift (validate_type_name (stack_value type_name)) ;;
      let* s := sget in
      match current_create s with
      | Some create =>
          smodify (set_current (Some (add_column (new_column (stack_value column_name) (stack_value type_name)) create))) ;;
          smodify (set_target (Some ColumnTarget.CurrentCreate))
      | None => slift Panic
      end
  end.

Definition column_add (position : nat) : dsl unit :=
  finish_current_create ;;
  let* type_name := pop_literal "column_add type" position in
  let* column_name := pop_literal "column_add column name" position in
  let* table := pop_literal "column_add table" position in
  slift (validate_name "table" (stack_value table)) ;;
  slift (validate_name "column" (stack_value column_name)) ;;
  slift (validate_type_name (stack_value type_name)) ;;
  let* s := sget in
  let statement_index := length (statements s) in
  append_statement (Statement.AddColumn (stack_value table) (new_column (stack_value column_name) (stack_value type_name))) ;;
  smodify (set_target (Some (ColumnTarget.Statement statement_index))).

Definition column_drop (position : nat) : dsl unit :=
  finish_current_create ;;
  smodify (set_target None) ;;
  let* column_name := pop_literal "column_drop column name" position in
  let* table := pop_literal "column_drop table" position in
  slift (validate_name "table" (stack_value table)) ;;
  slift (validate_name "column" (stack_value column_name)) ;;
  append_statement (Statement.DropColumn (stack_value table) (stack_value column_name)).

Definition column_rename (position : nat) : dsl unit :=
  finish_current_create ;;
  smodify (set_target None) ;;
  let* new_name := pop_literal "column_rename new column name" position in
  let* old_name := pop_literal "column_rename old column name" position in
  let* table := pop_literal "column_rename table" position in
  slift (validate_name "table" (stack_value table)) ;;
  slift (validate_name "column" (stack_value old_name)) ;;
  slift (validate_name "column" (stack_value new_name)) ;;
  append_statement (Statement.RenameColumn (stack_value table) (stack_value old_name) (stack_value new_name)).

Definition index_create (position : nat) (unique : bool) : dsl unit :=
  finish_current_create ;;
  smodify (set_target None) ;;
  let* column_name := pop_literal "index_create column name" position in
  let* table := pop_literal "index_create table" position in
  let* index_name := pop_literal "index_create index name" position in
  slift (validate_name "index" (stack_value index_name)) ;;
  slift (validate_name "table" (stack_value table)) ;;
  slift (validate_name "column" (stack_value column_name)) ;;
  append_statement (Statement.CreateIndex (stack_value index_name) (stack_value table) (stack_value column_name) unique).

Definition index_drop (position : nat) : dsl unit :=
  finish_current_create ;;
  smodify (set_target None) ;;
  let* table := pop_literal "index_drop table" position in
  let* index_name := pop_literal "index_drop index name" position in
  slift (validate_name "index" (stack_value index_name)) ;;
  slift (validate_name "table" (stack_value table)) ;;
  append_statement (Statement.DropIndex (stack_value index_name) (stack_value table)).

Definition no_longer (word : string) (position : nat) : msg :=
  [Disp word; Lit " modifier target is no longer a column or column_add"] ++ at_byte position.
Definition before_any (word : string) (position : nat) : msg :=
  [Disp word; Lit " modifier before any column or column_add"] ++ at_byte position.

Definition modify_last_column (word : string) (position : nat) (update : Column -> Column) : dsl unit :=
  let* s := sget in
  match last_column_target s with
  | Some ColumnTarget.CurrentCreate =>
      match current_create s with
      | None => refused (no_longer word position)
      | Some create =>
          match list.last (create_columns create) with
          | None => refused (before_any word position)
          | Some column =>
              smodify (set_current (Some (mkCreateTable (create_name create) (removelast (create_columns create) ++ [update column]))))
          end
      end
  | Some (ColumnTarget.Statement index) =>
      match statements s !! index with
      | Some (Statement.AddColumn table column) =>
          smodify (set_statements (<[index := Statement.AddColumn table (update column)]> (statements s)))
      | _ => refused (no_longer word position)
      end
  | None => refused (before_any word position)
  end.

Definition set_primary_key (c : Column) : Column :=
  mkColumn (name_of_column c) (type_of_column c) true (not_null c) (unique_column c) (column_default c).
Definition set_not_null (c : Column) : Column :=
  mkColumn (name_of_column c) (type_of_column c) (primary_key c) true (unique_column c) (column_default c).
Definition set_unique (c : Column) : Column :=
  mkColumn (name_of_column c) (type_of_column c) (primary_key c) (not_null c) true (column_default c).
Definition set_default (literal : string) (c : Column) : Column :=
  mkColumn (name_of_column c) (type_of_column c) (primary_key c) (not_null c) (unique_column c) (Some literal).

Definition default_word (position : nat) : dsl unit :=
  let* s := sget in
  match last_column_target s with
  | None => refused (before_any "default" position)
  | Some _ =>
      let* literal := pop_literal "default literal" position in
      modify_last_column "default" position (set_default (stack_value literal))
  end.

Definition table_drop (position : nat) : dsl unit :=
  let* s := sget in
  if saw_create s || (match current_create s with Some _ => true | None => false end) then refused (mixed_tables position)
  else
    smodify (set_target None) ;;
    let* table := pop_literal "table_drop" position in
    slift (validate_name "table" (stack_value table)) ;;
    append_statement (Statement.DropTable (stack_value table)) ;;
    smodify set_saw_drop.

Definition execute_word (word : string) (position : nat) : dsl unit :=
  if String.eqb word "table_create" then table_create position
  else if String.eqb word "column" then column_word position
  else if String.eqb word "column_add" then column_add position
  else if String.eqb word "column_drop" then column_drop position
  else if String.eqb word "column_rename" then column_rename position
  else if String.eqb word "index_create" then index_create position false
  else if String.eqb word "unique_index_create" then index_create position true
  else if String.eqb word "index_drop" then index_drop position
  else if String.eqb word "primary_key" then modify_last_column "primary_key" position set_primary_key
  else if String.eqb word "not_null" then modify_last_column "not_null" position set_not_null
  else if String.eqb word "unique" then modify_last_column "unique" position set_unique
  else if String.eqb word "default" then default_word position
  else if String.eqb word "table_drop" then table_drop position
  else refused ([Lit "unsupported migration DSL word "; Dbg word] ++ at_byte position).

Definition compile_token (t : Token) : dsl unit :=
  match kind t with
  | TokenKind.String value => smodify (fun s => set_stack (dsl_stack s ++ [mkStackString value (start (tspan t))]) s)
  | TokenKind.Symbol word => execute_word word (start (tspan t))
  | TokenKind.Newline | TokenKind.DocComment _ | TokenKind.Eof => sret tt
  | other => sfail (UnsupportedToken other (start (tspan t)))
  end.

Fixpoint compile_dsl_tokens (tokens : list Token) : dsl unit :=
  match tokens with
  | [] => sret tt
  | t :: rest => compile_token t ;; compile_dsl_tokens rest
  end.

(** ** Rendering *)

Section Rendering.
Context (adapter : SqlAdapter).
Implicit Types (column : Column) (st : Statement).

Definition render_column_definition column : string :=
  quote_name adapter (name_of_column column) ++ " " ++ type_of_column column
  ++ (if primary_key column then " primary key" else "")
  ++ (if not_null column then " not null" else "")
  ++ (if unique_column column then " unique" else "")
  ++ (match column_default column with Some value => " default " ++ sql_string_literal adapter value | None => "" end).

(** The columns of a table: [total] is their number. *)
Fixpoint render_columns (total index : nat) (columns : list Column) : string :=
  match columns with
  | [] => ""
  | column :: rest =>
      "  " ++ render_column_definition column ++ (if index + 1 =? total then "" else ",") ++ line_feed
      ++ render_columns total (S index) rest
  end.

Definition render_create_table (create : CreateTable) : string :=
  "create table " ++ quote_name adapter (create_name create) ++ " (" ++ line_feed
  ++ render_columns (length (create_columns create)) 0 (create_columns create) ++ ");" ++ line_feed.

Definition validate_add_column column : res MigrationError unit :=
  match adapter with
  | SqlAdapter.Sqlite =>
      if primary_key column then refuse_dsl [Lit "SQLite ADD COLUMN does not support primary_key"]
      else if unique_column column then refuse_dsl [Lit "SQLite ADD COLUMN does not support unique"]
      else if not_null column && (match column_default column with None => true | Some _ => false end) then
        refuse_dsl [Lit "SQLite ADD COLUMN not_null requires a default"]
      else Ok tt
  | _ => Ok tt
  end.

Definition render_statement st : res MigrationError string :=
  match st with
  | Statement.CreateTable create => Ok (render_create_table create)
  | Statement.AddColumn table column =>
      let? _ := validate_add_column column in
      Ok ("alter table " ++ quote_name adapter table ++ " add column " ++ render_column_definition column ++ ";" ++ line_feed)%string
  | Statement.DropColumn table column =>
      Ok ("alter table " ++ quote_name adapter table ++ " drop column " ++ quote_name adapter column ++ ";" ++ line_feed)%string
  | Statement.RenameColumn table old new =>
      Ok ("alter table " ++ quote_name adapter table ++ " rename column " ++ quote_name adapter old ++ " to "
          ++ quote_name adapter new ++ ";" ++ line_feed)%string
  | Statement.CreateIndex name table column unique =>
      Ok ((if unique then "create unique index " else "create index ") ++ quote_name adapter name ++ " on "
          ++ quote_name adapter table ++ " (" ++ quote_name adapter column ++ ");" ++ line_feed)%string
  | Statement.DropIndex name table =>
      match adapter with
      | SqlAdapter.Sqlite | SqlAdapter.Postgres => Ok ("drop index " ++ quote_name adapter name ++ ";" ++ line_feed)%string
      | SqlAdapter.Mysql => Ok ("drop index " ++ quote_name adapter name ++ " on " ++ quote_name adapter table ++ ";" ++ line_feed)%string
      end
  | Statement.DropTable name => Ok ("drop table " ++ quote_name adapter name ++ ";" ++ line_feed)%string
  end.

Fixpoint render_from (index : nat) (l : list Statement) (sql : string) : res MigrationError string :=
  match l with
  | [] => Ok sql
  | st :: rest =>
      let sql := if 0 <? index then (sql ++ line_feed)%string else sql in
      let? text := render_statement st in
      render_from (S index) rest (sql ++ text)%string
  end.

Definition render_sql (l : list Statement) : res MigrationError string := render_from 0 l "".

(** [finish], up to the rendering. *)
Definition finish_statements : dsl (list Statement) :=
  finish_current_create ;;
  let* s := sget in
  match statements s with
  | [] => refused [Lit "migration DSL file contains no migration statements"]
  | l =>
      match list.last (dsl_stack s) with
      | Some value =>
          refused ([Lit "unused string literal "; Dbg (stack_value value)] ++ at_byte (stack_position value))
      | None => sret l
      end
  end.

Definition finish_migration : dsl string :=
  let* l := finish_statements in slift (render_sql l).
End Rendering.

(** The tokens of a source. *)
Definition lex_source (source : string) : res MigrationError (list Token) :=
  rmap_err LexFailure (lex source).

Definition compile_migration (adapter source : string) : res MigrationError string :=
  let? a := adapter_from_name adapter in
  let? tokens := lex_source source in
  let? r := (compile_dsl_tokens tokens ;; finish_migration a) new_dsl_compiler in
  Ok r.1.

(** ** The examples of the documentation *)

Definition dsl_string (s : string) : string := String dquote (s ++ String dquote "").

Definition dsl_example : string :=
  dsl_string "users" ++ " table_create" ++ line_feed ++
  dsl_string "id" ++ " " ++ dsl_string "integer" ++ " column primary_key" ++ line_feed ++
  dsl_string "email" ++ " " ++ dsl_string "text" ++ " column not_null unique" ++ line_feed ++
  dsl_string "note" ++ " " ++ dsl_string "text" ++ " column " ++ dsl_string "it's" ++ " default" ++ line_feed ++
  dsl_string "users_email" ++ " " ++ dsl_string "users" ++ " " ++ dsl_string "email" ++ " index_create" ++ line_feed.

Example sqlite_example : compile_migration "sqlite" dsl_example = Ok (
  "create table " ++ dsl_string "users" ++ " (" ++ line_feed ++
  "  " ++ dsl_string "id" ++ " integer primary key," ++ line_feed ++
  "  " ++ dsl_string "email" ++ " text not null unique," ++ line_feed ++
  "  " ++ dsl_string "note" ++ " text default 'it''s'" ++ line_feed ++
  ");" ++ line_feed ++ line_feed ++
  "create index " ++ dsl_string "users_email" ++ " on " ++ dsl_string "users" ++ " (" ++ dsl_string "email" ++ ");" ++ line_feed)%string.
Proof. vm_compute. reflexivity. Qed.

Example unused_literal : compile_migration "mysql" (dsl_string "t" ++ " table_drop " ++ dsl_string "u") =
  refuse_dsl [Lit "unused string literal "; Dbg "u"; Lit " at byte "; DispN 15].
Proof. vm_compute. reflexivity. Qed.

Example mixed_refused : compile_migration "mysql" (dsl_string "t" ++ " table_drop " ++ dsl_string "u" ++ " table_create") =
  refuse_dsl (mixed_tables 19).
Proof. vm_compute. reflexivity. Qed.
