(* ===== verification/MigrationProofs.v ===== *)
(** * The migration language, proved

    What a migration compiles to: the statements it declares, each valid; a
    text that the database reads back, token by token, as these statements,
    whatever the names and defaults hold; for MySQL a batch that is split into
    one text per statement; and every list of valid statements has a source. *)

From stdpp Require Import base tactics list strings option numbers.
From Stdlib Require Import ZArith NArith Lia Ascii String.
From S2P Require Import Prelude RustStr RustText Syntax Lexer LexerProofs ActiveRecord ActiveRecordProofs TemplateProofs Migration.

Open Scope string_scope.
Open Scope list_scope.
Open Scope nat_scope.

(** ** Texts as characters *)

Definition utf8_string (s : string) : Prop := utf8 (as_bytes s).

Definition text_of (s : string) : list char := default [] (utf8_chars (as_bytes s)).

Lemma text_chars s : utf8_string s -> utf8_chars (as_bytes s) = Some (text_of s).
Proof. unfold text_of. by intros [cs ->]. Qed.

Lemma text_bytes s : utf8_string s -> as_bytes s = encode (text_of s).
Proof. intros H. symmetry. by apply utf8_chars_encode, text_chars. Qed.

Lemma text_scalar s : Forall scalar (text_of s).
Proof. unfold text_of. destruct (utf8_chars (as_bytes s)) eqn:E; [by eapply utf8_chars_scalar|constructor]. Qed.

Lemma text_from cs : Forall scalar cs -> text_of (from_bytes (encode cs)) = cs /\ utf8_string (from_bytes (encode cs)).
Proof. intros H. unfold text_of, utf8_string, utf8. rewrite as_from_bytes, utf8_encode by done. by split. Qed.

Lemma text_app a b : utf8_string a -> utf8_string b ->
  text_of (a ++ b)%string = text_of a ++ text_of b /\ utf8_string (a ++ b)%string.
Proof.
  intros Ha Hb. unfold text_of at 1, utf8_string, utf8. rewrite as_bytes_app, (utf8_app _ _ _ (text_chars a Ha)), text_chars by done.
  by split.
Qed.

Lemma encode_app cs ds : encode (cs ++ ds) = encode cs ++ encode ds.
Proof. unfold encode. by rewrite fmap_app, concat_app. Qed.

(** [str::replace] of an ASCII character, on characters. *)
Definition replace_in (c : byte) (r : list byte) (cs : list char) : list char :=
  flat_map (fun x => if (x =? byte_val c)%N then byte_val <$> r else [x]) cs.

Definition ascii_bytes (l : list byte) : Prop := Forall (fun b => (byte_val b < 128)%N) l.

Lemma encode_ascii_bytes r : ascii_bytes r -> encode (byte_val <$> r) = r.
Proof.
  induction 1 as [|b r Hb _ IH]; [done|]. change (encode (byte_val <$> b :: r)) with (encode_char (byte_val b) ++ encode (byte_val <$> r)).
  by rewrite encode_ascii, IH.
Qed.

Lemma replace_encode c r cs : (byte_val c < 128)%N -> ascii_bytes r -> Forall scalar cs ->
  replace_char c r (encode cs) = encode (replace_in c r cs).
Proof.
  intros Hc Hr. induction 1 as [|x cs Hx _ IH]; [done|]. change (encode (x :: cs)) with (encode_char x ++ encode cs).
  unfold replace_char, replace_in in *. rewrite flat_map_app, IH. cbn [flat_map]. rewrite encode_app. f_equal. clear IH.
  destruct (encode_bytes x Hx) as [[Hlt E]|Hb].
  - rewrite E. cbn [flat_map]. rewrite app_nil_r. destruct (N.eqb_spec x (byte_val c)) as [->|Hne].
    + replace (Ascii.eqb _ c) with true by (symmetry; by apply Ascii.eqb_eq, byte_of_val). by rewrite encode_ascii_bytes.
    + destruct (Ascii.eqb_spec (ascii_of_N x) c) as [<-|_]; [by destruct Hne; rewrite byte_val_of by lia|].
      cbn. by rewrite app_nil_r.
  - rewrite (proj2 (N.eqb_neq _ _)); [|intros ->; unfold encode_char in Hb; rewrite (proj2 (N.ltb_lt _ _) Hc) in Hb;
      apply list.Forall_cons in Hb as [Hb _]; rewrite byte_val_of in Hb; lia].
    cbn. rewrite app_nil_r. induction Hb as [|b l Hb _ IH]; [done|]. cbn [flat_map]. rewrite IH.
    destruct (Ascii.eqb_spec b c) as [->|]; [lia|done].
Qed.

Lemma byte_scalar b : (byte_val b < 128)%N -> scalar (byte_val b).
Proof. unfold scalar. lia. Qed.

Lemma replace_scalar c r cs : ascii_bytes r -> Forall scalar cs -> Forall scalar (replace_in c r cs).
Proof.
  intros Hr. induction 1 as [|x cs Hx _ IH]; [constructor|]. cbn. apply Forall_app. split; [|done].
  destruct (x =? byte_val c)%N; [|by apply Forall_singleton]. apply Forall_fmap. eapply list.Forall_impl; [exact Hr|]. intros b. apply byte_scalar.
Qed.

(** ** What the database reads

    A name between quotes, a string between quotes, or a character.  The
    reading fails where the text would start a comment or a quoted text of
    another kind. *)
Inductive sql_item : Type :=
  | Name (cs : list char)
  | Text (cs : list char)
  | Char (c : char).

Definition name_char (a : SqlAdapter) : char := byte_val (name_quote a).

(** The character that starts a comment or another kind of quotes: [#] for
    MySQL, [$] for PostgreSQL, [[] for SQLite. *)
Definition opener (a : SqlAdapter) : char :=
  match a with SqlAdapter.Mysql => 35 | SqlAdapter.Postgres => 36 | SqlAdapter.Sqlite => 91 end%N.

Definition starts_comment (c : char) (next : option char) : bool :=
  match next with
  | Some n => ((c =? 45) && (n =? 45) || (c =? 47) && (n =? 42))%N
  | None => false
  end.

Definition special (a : SqlAdapter) (c : char) : bool :=
  existsb (N.eqb c) [single_quote; double_quote; backtick; opener a].

Definition opt_head (l : list char) : option char := match l with [] => None | c :: _ => Some c end.

Inductive read_mode : Type := Plain | InName (acc : list char) | InText (acc : list char).

Fixpoint read_sql (a : SqlAdapter) (m : read_mode) (l : list char) : option (list sql_item) :=
  match l with
  | [] => match m with Plain => Some [] | _ => None end
  | c :: l' =>
      match m with
      | Plain =>
          if (c =? name_char a)%N then read_sql a (InName []) l'
          else if (c =? single_quote)%N then read_sql a (InText []) l'
          else if special a c || starts_comment c (opt_head l') then None
          else cons (Char c) <$> read_sql a Plain l'
      | InName acc =>
          if (c =? name_char a)%N then
            match l' with
            | c' :: l'' =>
                if (c' =? name_char a)%N then read_sql a (InName (acc ++ [c])) l''
                else cons (Name acc) <$> read_sql a Plain l'
            | [] => Some [Name acc]
            end
          else read_sql a (InName (acc ++ [c])) l'
      | InText acc =>
          if (match a with SqlAdapter.Mysql => (c =? backslash)%N | _ => false end) then
            match l' with
            | c' :: l'' => read_sql a (InText (acc ++ [c'])) l''
            | [] => None
            end
          else if (c =? single_quote)%N then
            match l' with
            | c' :: l'' =>
                if (c' =? single_quote)%N then read_sql a (InText (acc ++ [c])) l''
                else cons (Text acc) <$> read_sql a Plain l'
            | [] => Some [Text acc]
            end
          else read_sql a (InText (acc ++ [c])) l'
      end
  end.

(** The parts of a statement's text. *)
Inductive part : Type := PName (s : string) | PText (s : string) | PRaw (s : string).

Definition part_text (a : SqlAdapter) (p : part) : string :=
  match p with PName s => quote_name a s | PText s => sql_string_literal a s | PRaw s => s end.

Definition part_items (p : part) : list sql_item :=
  match p with PName s => [Name (text_of s)] | PText s => [Text (text_of s)] | PRaw s => Char <$> text_of s end.

Definition part_string (p : part) : string := match p with PName s | PText s | PRaw s => s end.

Definition parts_text (a : SqlAdapter) (ps : list part) : string := String.concat "" (part_text a <$> ps).
Definition parts_items (ps : list part) : list sql_item := concat (part_items <$> ps).

(** Text without quotes, semicolons and comments, up to the next character. *)
Fixpoint raw_run (a : SqlAdapter) (cs : list char) (next : option char) : bool :=
  match cs with
  | [] => true
  | c :: cs' =>
      let after := match cs' with [] => next | c' :: _ => Some c' end in
      negb (special a c) && negb (c =? 59)%N && negb (starts_comment c after) && raw_run a cs' next
  end.

Definition part_first (a : SqlAdapter) (p : part) : option char :=
  match p with PName _ => Some (name_char a) | PText _ => Some single_quote | PRaw s => opt_head (text_of s) end.

(** The parts read one after another, before [end_]. *)
Fixpoint fluent (a : SqlAdapter) (ps : list part) (end_ : char) : Prop :=
  match ps with
  | [] => True
  | p :: ps' =>
      let next := match ps' with [] => Some end_ | p' :: _ => part_first a p' end in
      utf8_string (part_string p) /\
      match p with
      | PName _ => next <> Some (name_char a)
      | PText _ => next <> Some single_quote
      | PRaw s => text_of s <> [] /\ raw_run a (text_of s) next = true
      end /\ fluent a ps' end_
  end.

(** *** The texts of the parts *)

Definition name_chars (a : SqlAdapter) (cs : list char) : list char :=
  replace_in (name_quote a) [name_quote a; name_quote a] cs.

(** One character of a string literal. *)
Definition literal_char (a : SqlAdapter) (c : char) : list char :=
  match a with
  | SqlAdapter.Mysql => if (c =? backslash)%N || (c =? single_quote)%N then [backslash; c] else [c]
  | _ => if (c =? single_quote)%N then [c; c] else [c]
  end.

Definition literal_chars (a : SqlAdapter) (cs : list char) : list char := flat_map (literal_char a) cs.

Definition part_chars (a : SqlAdapter) (p : part) : list char :=
  match p with
  | PName s => name_char a :: name_chars a (text_of s) ++ [name_char a]
  | PText s => single_quote :: literal_chars a (text_of s) ++ [single_quote]
  | PRaw s => text_of s
  end.

Lemma quoted_text q l cs : (byte_val q < 128)%N -> l = encode cs -> Forall scalar cs ->
  text_of (from_bytes ([q] ++ l ++ [q])) = byte_val q :: cs ++ [byte_val q] /\ utf8_string (from_bytes ([q] ++ l ++ [q])).
Proof.
  intros Hq -> Hs. replace ([q] ++ encode cs ++ [q]) with (encode (byte_val q :: cs ++ [byte_val q])).
  - apply text_from. apply list.Forall_cons. split; [by apply byte_scalar|]. apply Forall_app. split; [done|].
    apply Forall_singleton. by apply byte_scalar.
  - change (byte_val q :: ?l) with ([byte_val q] ++ l). rewrite !encode_app. unfold encode. cbn [fmap list_fmap concat].
    by rewrite !app_nil_r, encode_ascii.
Qed.

Lemma name_quote_ascii a : (byte_val (name_quote a) < 128)%N.
Proof. by destruct a. Qed.

Lemma literal_mysql cs :
  replace_in squote [bslash; squote] (replace_in bslash [bslash; bslash] cs) = literal_chars SqlAdapter.Mysql cs.
Proof.
  induction cs as [|c cs IH]; [done|]. unfold replace_in, literal_chars in *. cbn [flat_map]. rewrite flat_map_app, IH. f_equal.
  unfold literal_char. change (byte_val bslash) with backslash. change (byte_val squote) with single_quote.
  destruct (N.eqb_spec c backslash) as [->|_]; [done|]. simpl. change (byte_val squote) with single_quote.
  by destruct (N.eqb_spec c single_quote) as [->|_].
Qed.

Lemma literal_standard cs a : a <> SqlAdapter.Mysql -> replace_in squote [squote; squote] cs = literal_chars a cs.
Proof.
  intros Ha. unfold replace_in, literal_chars. induction cs as [|c cs IH]; [done|]. cbn [flat_map]. rewrite IH. f_equal.
  change (byte_val squote) with single_quote. by destruct a; try done; cbn; destruct (N.eqb_spec c single_quote) as [->|_].
Qed.

Lemma part_text_chars a p : utf8_string (part_string p) ->
  text_of (part_text a p) = part_chars a p /\ utf8_string (part_text a p).
Proof.
  intros Hs. destruct p as [s|s|s]; [| |done]; simpl in *.
  - apply quoted_text; [by apply name_quote_ascii|rewrite text_bytes by done|apply replace_scalar, text_scalar; by repeat constructor; apply name_quote_ascii].
    apply replace_encode; [by apply name_quote_ascii|by repeat constructor; apply name_quote_ascii|apply text_scalar].
  - apply quoted_text; [done| |].
    + rewrite text_bytes by done. destruct a; [| |rewrite <- literal_mysql].
      1,2: rewrite <- literal_standard by done; by apply replace_encode; [..|apply text_scalar]; repeat constructor.
      rewrite replace_encode by (done || (by repeat constructor) || apply text_scalar).
      by apply replace_encode; [..|apply replace_scalar; [|apply text_scalar]]; repeat constructor.
    + destruct a; [rewrite <- literal_standard by done..|rewrite <- literal_mysql];
        repeat (apply replace_scalar; [by repeat constructor|]); apply text_scalar.
Qed.

Lemma parts_text_chars a ps : Forall (fun p => utf8_string (part_string p)) ps ->
  text_of (parts_text a ps) = concat (part_chars a <$> ps) /\ utf8_string (parts_text a ps).
Proof.
  induction 1 as [|p ps Hp _ [IH1 IH2]]; [split; [done|by eexists]|].
  destruct (part_text_chars a p Hp) as [E Hu].
  assert (parts_text a (p :: ps) = part_text a p ++ parts_text a ps)%string as ->.
  { unfold parts_text. destruct ps; [|done]. simpl. by rewrite <- (from_as_bytes (_ ++ "")), as_bytes_app, app_nil_r, from_as_bytes. }
  destruct (text_app _ _ Hu IH2) as [E' Hu']. split; [|done]. by rewrite E', E, IH1.
Qed.

(** *** Reading the parts *)

Lemma name_run a cs rest : opt_head rest <> Some (name_char a) -> forall acc,
  read_sql a (InName acc) (name_chars a cs ++ name_char a :: rest) = cons (Name (acc ++ cs)) <$> read_sql a Plain rest.
Proof.
  intros Hr. unfold name_chars, replace_in. induction cs as [|c cs IH]; intros acc; cbn [flat_map].
  - cbn [app read_sql]. rewrite N.eqb_refl, app_nil_r. destruct rest as [|c rest]; [done|].
    by rewrite (proj2 (N.eqb_neq c _)) by (intros ->; by apply Hr).
  - change (byte_val (name_quote a)) with (name_char a) in *. rewrite <- app_assoc. destruct (N.eqb_spec c (name_char a)) as [->|Hc].
    + cbn [fmap list_fmap app read_sql]. change (byte_val (name_quote a)) with (name_char a). rewrite N.eqb_refl, IH. by rewrite <- app_assoc.
    + cbn [app read_sql]. rewrite (proj2 (N.eqb_neq _ _) Hc), IH. by rewrite <- app_assoc.
Qed.

Lemma literal_run a cs rest : opt_head rest <> Some single_quote -> forall acc,
  read_sql a (InText acc) (literal_chars a cs ++ single_quote :: rest) = cons (Text (acc ++ cs)) <$> read_sql a Plain rest.
Proof.
  intros Hr. unfold literal_chars. induction cs as [|c cs IH]; intros acc; cbn [flat_map].
  - rewrite app_nil_r. destruct rest as [|c rest]; [by destruct a|].
    assert ((c =? single_quote)%N = false) as Hc by (apply N.eqb_neq; intros ->; by apply Hr).
    by destruct a; cbn [app read_sql]; known_chars; rewrite Hc.
  - rewrite <- app_assoc. replace (acc ++ c :: cs) with ((acc ++ [c]) ++ cs) by (by rewrite <- app_assoc). rewrite <- IH.
    destruct a; cbn [literal_char].
    1,2: destruct (N.eqb_spec c single_quote) as [->|Hc]; cbn [app read_sql]; known_chars; [done|]; by rewrite (proj2 (N.eqb_neq _ _) Hc).
    destruct (N.eqb_spec c backslash) as [->|Hb]; cbn [orb app read_sql]; known_chars; [done|].
    destruct (N.eqb_spec c single_quote) as [->|Hc]; cbn [orb app read_sql]; known_chars; [done|].
    by rewrite (proj2 (N.eqb_neq _ _) Hb), (proj2 (N.eqb_neq _ _) Hc).
Qed.

Lemma app_nil_fmap {A : Type} (o : option (list A)) : app [] <$> o = o.
Proof. by destruct o. Qed.

Lemma app_app_fmap {A : Type} (l m : list A) (o : option (list A)) : app l <$> (app m <$> o) = app (l ++ m) <$> o.
Proof. destruct o; [|done]. simpl. by rewrite app_assoc. Qed.

Lemma special_name a c : special a c = false -> c <> name_char a /\ c <> single_quote /\ c <> double_quote /\ c <> backtick /\ c <> opener a.
Proof.
  unfold special. cbn [existsb]. rewrite !orb_false_iff, !N.eqb_neq. intros (? & ? & ? & ? & _). by destruct a.
Qed.

Lemma raw_read a cs rest next : opt_head rest = next -> raw_run a cs next = true ->
  read_sql a Plain (cs ++ rest) = app (Char <$> cs) <$> read_sql a Plain rest.
Proof.
  intros Hn. induction cs as [|c cs IH]; intros H; [symmetry; apply app_nil_fmap|].
  cbn [raw_run] in H. apply andb_prop in H as [[[H1 _]%andb_prop H3]%andb_prop H].
  apply negb_true_iff in H1, H3. cbn [app read_sql]. destruct (special_name a c H1) as (E1 & E2 & _).
  rewrite (proj2 (N.eqb_neq _ _) E1), (proj2 (N.eqb_neq _ _) E2), H1, (IH H). cbn [orb].
  replace (opt_head (cs ++ rest)) with (match cs with [] => next | c' :: _ => Some c' end) by (by destruct cs; subst).
  rewrite H3. apply (app_app_fmap [_]).
Qed.

Lemma part_head a p rest : part_chars a p <> [] -> opt_head (part_chars a p ++ rest) = part_first a p.
Proof. destruct p as [s|s|s]; [done..|]. simpl. by destruct (text_of s). Qed.

Lemma fluent_head a ps e rest : fluent a ps e ->
  opt_head (concat (part_chars a <$> ps) ++ e :: rest) = match ps with [] => Some e | p :: _ => part_first a p end.
Proof.
  destruct ps as [|p ps]; [done|]. cbn. intros (_ & Hp & _). rewrite <- app_assoc. apply part_head.
  by destruct p as [s|s|s]; [..|apply Hp].
Qed.

Lemma fluent_utf8 a ps e : fluent a ps e -> Forall (fun p => utf8_string (part_string p)) ps.
Proof. induction ps as [|p ps IH]; [constructor|]. intros (Hu & _ & Hf). constructor; auto. Qed.

Lemma fluent_reads a ps e rest : fluent a ps e ->
  read_sql a Plain (concat (part_chars a <$> ps) ++ e :: rest) = app (parts_items ps) <$> read_sql a Plain (e :: rest).
Proof.
  induction ps as [|p ps IH]; intros Hf; [symmetry; apply app_nil_fmap|].
  destruct Hf as (_ & Hp & Hf). specialize (IH Hf). pose proof (fluent_head _ _ _ rest Hf) as Hh.
  unfold parts_items in *. rewrite !fmap_cons. cbn [concat]. rewrite <- app_assoc.
  destruct p as [s|s|s]; cbn [part_chars part_items] in *.
  - cbn [app read_sql]. rewrite N.eqb_refl, <- app_assoc. cbn [app]. rewrite name_run, IH by congruence. apply (app_app_fmap [_]).
  - cbn [app read_sql]. replace (single_quote =? name_char a)%N with false by (by destruct a). rewrite N.eqb_refl, <- app_assoc. cbn [app].
    rewrite literal_run, IH by congruence. apply (app_app_fmap [_]).
  - destruct Hp as [_ Hp]. rewrite (raw_read _ _ _ _ Hh Hp), IH. apply app_app_fmap.
Qed.

(** ** Valid names, types and statements *)

Record valid_name (s : string) : Prop := {
  name_utf8 : utf8_string s;
  name_nonempty : s <> "";
  name_trimmed : trimmed (text_of s) = text_of s;
  name_no_dot : contains_byte "." s = false;
  name_no_control : existsb is_control (text_of s) = false }.

Record valid_type (s : string) : Prop := {
  type_utf8 : utf8_string s;
  type_nonempty : s <> "";
  type_trimmed : trimmed (text_of s) = text_of s;
  type_no_comment : contains_text "--" s = false /\ contains_text "/*" s = false /\ contains_text "*/" s = false;
  type_supported : existsb unsupported_type_char (text_of s) = false }.

Record valid_column (c : Column) : Prop := {
  column_name_valid : valid_name (name_of_column c);
  column_type_valid : valid_type (type_of_column c);
  column_default_utf8 : forall v, column_default c = Some v -> utf8_string v }.

Record valid_create (t : CreateTable) : Prop := {
  create_name_valid : valid_name (create_name t);
  create_columns_valid : Forall valid_column (create_columns t) }.

Definition valid_statement (st : Statement) : Prop :=
  match st with
  | Statement.CreateTable t => valid_create t /\ create_columns t <> []
  | Statement.AddColumn table c => valid_name table /\ valid_column c
  | Statement.DropColumn table column => valid_name table /\ valid_name column
  | Statement.RenameColumn table old new => valid_name table /\ valid_name old /\ valid_name new
  | Statement.CreateIndex name table column _ => valid_name name /\ valid_name table /\ valid_name column
  | Statement.DropIndex name table => valid_name name /\ valid_name table
  | Statement.DropTable name => valid_name name
  end.

Lemma chars_text {E : Type} s : utf8_string s -> chars (E:=E) s = Ok (text_of s).
Proof. intros H. unfold chars. by rewrite text_chars. Qed.

Lemma trim_text {E : Type} s : utf8_string s -> trim (E:=E) s = Ok (from_bytes (encode (trimmed (text_of s)))).
Proof. intros H. unfold trim. by rewrite chars_text. Qed.

Lemma drop_while_scalar p cs : Forall scalar cs -> Forall scalar (drop_while p cs).
Proof. induction 1 as [|c cs Hc Hcs IH]; [constructor|]. simpl. destruct (p c); [done|by constructor]. Qed.

Lemma trimmed_scalar cs : Forall scalar cs -> Forall scalar (trimmed cs).
Proof. intros H. unfold trimmed, trim_end_chars, trim_start_chars. by apply Forall_reverse, drop_while_scalar, Forall_reverse, drop_while_scalar. Qed.

(** The check of the blanks around a name. *)
Lemma untrimmed s : utf8_string s ->
  String.eqb s "" || negb (String.eqb (from_bytes (encode (trimmed (text_of s)))) s) = false <->
  s <> "" /\ trimmed (text_of s) = text_of s.
Proof.
  intros Hu. rewrite orb_false_iff, negb_false_iff, String.eqb_neq, String.eqb_eq. apply and_iff_compat_l. split.
  - intros E. rewrite <- E at 2. symmetry. apply text_from, trimmed_scalar, text_scalar.
  - intros ->. by rewrite <- text_bytes, from_as_bytes.
Qed.

Lemma validate_name_settles kind s : utf8_string s -> settles (validate_name kind s) (fun _ => valid_name s).
Proof.
  intros Hu. unfold validate_name. rewrite trim_text by done. simpl. destruct (_ || _) eqn:E; [done|].
  apply untrimmed in E as [H1 H2]; [|done]. destruct (contains_byte "." s) eqn:E3; [done|]. rewrite chars_text by done. simpl.
  destruct (existsb is_control _) eqn:E4; done.
Qed.

Lemma validate_name_ok kind s : valid_name s -> validate_name kind s = Ok tt.
Proof.
  intros [Hu H1 H2 H3 H4]. unfold validate_name. rewrite trim_text by done. simpl. rewrite (proj2 (untrimmed s Hu)) by done.
  rewrite H3, chars_text by done. simpl. by rewrite H4.
Qed.

Lemma validate_type_settles s : utf8_string s -> settles (validate_type_name s) (fun _ => valid_type s).
Proof.
  intros Hu. unfold validate_type_name. rewrite trim_text by done. simpl. destruct (String.eqb s "" || _) eqn:E; [done|].
  apply untrimmed in E as [H1 H2]; [|done]. destruct (contains_text "--" s) eqn:E1; [done|].
  destruct (contains_text "/*" s) eqn:E2; [done|]. destruct (contains_text "*/" s) eqn:E3; [done|]. simpl.
  rewrite chars_text by done. simpl. destruct (existsb unsupported_type_char _) eqn:E4; done.
Qed.

Lemma validate_type_ok s : valid_type s -> validate_type_name s = Ok tt.
Proof.
  intros [Hu H1 H2 (H3 & H4 & H5) H6]. unfold validate_type_name. rewrite trim_text by done. simpl. rewrite (proj2 (untrimmed s Hu)) by done.
  rewrite H3, H4, H5, chars_text by done. simpl. by rewrite H6.
Qed.

(** ** The parts of each statement *)

Definition lf : string := line_feed.

Definition flag_parts (c : Column) : list part :=
  (if primary_key c then [PRaw " primary key"] else []) ++ (if not_null c then [PRaw " not null"] else []) ++
  (if unique_column c then [PRaw " unique"] else []) ++
  match column_default c with Some v => [PRaw " default "; PText v] | None => [] end.

Definition column_parts (c : Column) : list part :=
  [PName (name_of_column c); PRaw " "; PRaw (type_of_column c)] ++ flag_parts c.

Fixpoint columns_parts (l : list Column) : list part :=
  match l with
  | [] => []
  | c :: l' => [PRaw "  "] ++ column_parts c ++ [PRaw (match l' with [] => lf | _ => "," ++ lf end)] ++ columns_parts l'
  end.

(** A statement's text up to its semicolon. *)
Definition statement_parts (a : SqlAdapter) (st : Statement) : list part :=
  match st with
  | Statement.CreateTable t =>
      [PRaw "create table "; PName (create_name t); PRaw (" (" ++ lf)] ++ columns_parts (create_columns t) ++ [PRaw ")"]
  | Statement.AddColumn table c => [PRaw "alter table "; PName table; PRaw " add column "] ++ column_parts c
  | Statement.DropColumn table column => [PRaw "alter table "; PName table; PRaw " drop column "; PName column]
  | Statement.RenameColumn table old new =>
      [PRaw "alter table "; PName table; PRaw " rename column "; PName old; PRaw " to "; PName new]
  | Statement.CreateIndex name table column unique =>
      [PRaw (if unique then "create unique index " else "create index "); PName name; PRaw " on "; PName table; PRaw " (";
       PName column; PRaw ")"]
  | Statement.DropIndex name table =>
      [PRaw "drop index "; PName name] ++ (match a with SqlAdapter.Mysql => [PRaw " on "; PName table] | _ => [] end)
  | Statement.DropTable name => [PRaw "drop table "; PName name]
  end.

Lemma parts_text_cons a p ps : parts_text a (p :: ps) = (part_text a p ++ parts_text a ps)%string.
Proof. unfold parts_text. destruct ps; [|done]. simpl. by rewrite append_nil_r. Qed.

Lemma parts_text_app a ps qs : parts_text a (ps ++ qs) = (parts_text a ps ++ parts_text a qs)%string.
Proof. induction ps as [|p ps IH]; [done|]. cbn [app]. by rewrite !parts_text_cons, IH, append_assoc. Qed.

Lemma parts_text_nil a : parts_text a [] = "".
Proof. done. Qed.

Ltac texts :=
  cbn [app]; repeat first [rewrite parts_text_app | rewrite parts_text_cons | rewrite parts_text_nil | rewrite append_nil_r | rewrite append_assoc];
  cbn [part_text].

Lemma column_text a c : render_column_definition a c = parts_text a (column_parts c).
Proof.
  unfold render_column_definition, column_parts, flag_parts. rewrite !parts_text_app.
  replace (parts_text a [PName _; PRaw " "; PRaw _]) with (quote_name a (name_of_column c) ++ " " ++ type_of_column c)%string by (by texts).
  rewrite !append_assoc. repeat f_equal; [by destruct (primary_key c)|by destruct (not_null c)|by destruct (unique_column c)|].
  by destruct (column_default c) as [v|]; [texts|].
Qed.

Lemma columns_text a total l i : total = i + length l -> render_columns a total i l = parts_text a (columns_parts l).
Proof.
  revert i. induction l as [|c l IH]; intros i Ht; [done|]. cbn [render_columns columns_parts]. texts.
  rewrite column_text, (IH (S i)) by (simpl in Ht; lia). destruct l as [|c' l]; simpl in Ht.
  - rewrite (proj2 (Nat.eqb_eq _ _)) by lia. by texts.
  - rewrite (proj2 (Nat.eqb_neq _ _)) by lia. by texts.
Qed.

Lemma statement_text a st t : render_statement a st = Ok t -> t = (parts_text a (statement_parts a st) ++ ";" ++ lf)%string.
Proof.
  destruct st as [c|table c|table column|table old new|name table column u|name table|name]; cbn [render_statement statement_parts].
  - intros [= <-]. unfold render_create_table. texts. by rewrite (columns_text a _ _ 0).
  - destruct (validate_add_column a c); [|done..]. intros [= <-]. texts. by rewrite column_text.
  - intros [= <-]. by texts.
  - intros [= <-]. by texts.
  - intros [= <-]. texts. by destruct u.
  - destruct a; intros [= <-]; by texts.
  - intros [= <-]. by texts.
Qed.

(** *** The parts read one after another *)

(** What the reading asks of the types beyond their check. *)
Definition plain_column (a : SqlAdapter) (c : Column) : Prop := opener a ∉ text_of (type_of_column c).

Definition plain_types (a : SqlAdapter) (st : Statement) : Prop :=
  match st with
  | Statement.CreateTable t => Forall (plain_column a) (create_columns t)
  | Statement.AddColumn _ c => plain_column a c
  | _ => True
  end.

Lemma find_none needle s j : string_find needle s = None -> ~ occurs (as_bytes needle) (as_bytes s) j.
Proof.
  revert j. induction s as [|b s IH]; intros j; cbn [string_find]; destruct (starts_with needle _) eqn:E; try done; intros H Ho.
  - enough (starts_with needle "" = true) by congruence. apply starts_with_occurs. intros k c Hk.
    apply Ho in Hk. discriminate Hk.
  - destruct (string_find needle s) eqn:Es; [done|]. destruct j as [|j]; [by apply starts_with_occurs in Ho; congruence|].
    by apply (IH j eq_refl).
Qed.

Lemma encode_one b : (byte_val b < 128)%N -> encode [byte_val b] = [b].
Proof. intros H. unfold encode. cbn. by rewrite app_nil_r, encode_ascii. Qed.

Lemma no_pair b c s : (byte_val b < 128)%N -> (byte_val c < 128)%N -> utf8_string s ->
  contains_text (String b (String c "")) s = false -> forall p q, text_of s <> p ++ byte_val b :: byte_val c :: q.
Proof.
  intros Hb Hc Hu Hn p q E. unfold contains_text in Hn. destruct (string_find _ s) eqn:Ef; [done|].
  apply (find_none _ s (length (encode p)) Ef). rewrite (text_bytes s Hu), E, encode_app.
  change (byte_val b :: byte_val c :: q) with ([byte_val b] ++ [byte_val c] ++ q). rewrite !encode_app.
  rewrite !encode_one by done. intros k x Hk. rewrite lookup_app_r by lia.
  replace (length (encode p) + k - length (encode p)) with k by lia. by destruct k as [|[|k]].
Qed.

Lemma comment_pair c next : starts_comment c next = true ->
  (c = 45%N /\ next = Some 45%N) \/ (c = 47%N /\ next = Some 42%N).
Proof.
  destruct next as [n|]; [|done]. simpl. rewrite orb_true_iff, !andb_true_iff, !N.eqb_eq. intuition congruence.
Qed.

Lemma raw_run_intro a cs next : Forall (fun c => special a c = false /\ c <> 59%N) cs ->
  (forall p c q, cs = p ++ c :: q -> starts_comment c (match q with [] => next | d :: _ => Some d end) = false) ->
  raw_run a cs next = true.
Proof.
  intros HF. induction HF as [|c cs [H1 H2] _ IH]; intros Hp; [done|]. cbn [raw_run].
  rewrite H1, (proj2 (N.eqb_neq _ _) H2), (Hp [] c cs eq_refl), IH; [done|]. intros p d q ->. by apply (Hp (c :: p)).
Qed.

Lemma text_nonempty s : utf8_string s -> s <> "" -> text_of s <> [].
Proof. intros Hu Hs E. apply Hs. by rewrite <- (from_as_bytes s), (text_bytes s Hu), E. Qed.

Lemma type_raw a s next : valid_type s -> opener a ∉ text_of s -> next <> 45%N -> next <> 42%N ->
  text_of s <> [] /\ raw_run a (text_of s) (Some next) = true.
Proof.
  intros [Hu H1 _ (H2 & H3 & _) H4] Ho Hn1 Hn2. split; [by apply text_nonempty|]. apply raw_run_intro.
  - apply list.Forall_forall. intros c Hc.
    assert (unsupported_type_char c = false) as Hs.
    { destruct (unsupported_type_char c) eqn:E; [|done]. rewrite <- H4. symmetry. apply existsb_exists. exists c. by rewrite <- list_elem_of_In. }
    unfold unsupported_type_char in Hs. apply orb_false_iff in Hs as [_ Hs]. cbn [existsb] in Hs.
    rewrite !orb_false_iff, !N.eqb_neq in Hs. destruct Hs as (E1 & E2 & E3 & E4 & _). split; [|exact E4].
    unfold special. cbn [existsb]. rewrite !orb_false_iff, !N.eqb_neq. repeat split; try done. by intros ->.
  - intros p c q E. destruct (starts_comment c _) eqn:Ec; [|done]. exfalso.
    apply comment_pair in Ec as [[-> Ec]|[-> Ec]]; destruct q as [|d q]; simplify_eq.
    + by apply (no_pair "-" "-" s ltac:(done) ltac:(done) Hu H2 p q).
    + by apply (no_pair "/" "*" s ltac:(done) ltac:(done) Hu H3 p q).
Qed.

(** The first character of parts before [e]. *)
Definition parts_first (a : SqlAdapter) (ps : list part) (e : char) : option char :=
  match ps with [] => Some e | p :: _ => part_first a p end.

Lemma fluent_app a ps qs e1 e : fluent a ps e1 -> fluent a qs e -> parts_first a qs e = Some e1 -> fluent a (ps ++ qs) e.
Proof.
  intros Hp Hq He. induction ps as [|p ps IH]; [done|]. destruct Hp as (H1 & H2 & H3). cbn [app fluent].
  split; [done|]. split; [|by apply IH].
  replace (match ps ++ qs with [] => Some e | p' :: _ => part_first a p' end) with
    (match ps with [] => Some e1 | p' :: _ => part_first a p' end); [done|]. destruct ps; [|done]. by rewrite <- He.
Qed.

Ltac raw_literal := split; [by eexists|split; [split; [by vm_compute|]|]].

(** A character after which nothing goes on. *)
Definition closing (e : char) : Prop := e <> single_quote /\ e <> 45%N /\ e <> 42%N.

Definition flag_first (c : Column) (e : char) : char := match flag_parts c with [] => e | _ => 32%N end.

Lemma flags_first a c e : parts_first a (flag_parts c) e = Some (flag_first c e).
Proof. unfold flag_first, flag_parts. by destruct (primary_key c), (not_null c), (unique_column c), (column_default c). Qed.

Lemma flags_fluent a c e : valid_column c -> closing e -> fluent a (flag_parts c) e.
Proof.
  intros [_ _ Hd] (He & _ & _). unfold flag_parts.
  assert (fluent a match column_default c with Some v => [PRaw " default "; PText v] | None => [] end e) as Hf.
  { destruct (column_default c) as [v|]; [|done]. raw_literal; [by destruct a|]. split; [by apply Hd|]. split; [congruence|done]. }
  revert Hf. generalize (match column_default c with Some v => [PRaw " default "; PText v] | None => [] end). intros ps Hf.
  assert (forall b s qs, utf8_string s -> text_of s <> [] -> (forall n, raw_run a (text_of s) n = true) -> fluent a qs e ->
            fluent a ((if b : bool then [PRaw s] else []) ++ qs) e) as Hif.
  { intros [] s qs H1 H2 H3 H4; [|done]. cbn [app fluent]. by split_and!. }
  repeat (apply Hif; [by eexists|by vm_compute|by intros [n|]; destruct a|]). done.
Qed.

Lemma column_fluent a c e : valid_column c -> plain_column a c -> closing e -> fluent a (column_parts c) e.
Proof.
  intros Hc Hp He. unfold column_parts. pose proof (column_name_valid c Hc) as [Hn _ _ _ _].
  pose proof (column_type_valid c Hc) as Ht. pose proof (type_utf8 _ Ht) as Hu.
  assert (flag_first c e <> 45%N /\ flag_first c e <> 42%N) as [H1 H2].
  { unfold flag_first. destruct (flag_parts c); [apply He|done]. }
  apply (fluent_app a _ _ (flag_first c e)); [|by apply flags_fluent|apply flags_first].
  split; [done|]. split; [by destruct a|]. raw_literal; [by cbn [part_first]; destruct (opt_head _), a|].
  split; [done|]. split; [|done]. by apply type_raw.
Qed.

Lemma column_first a c ps e : parts_first a (column_parts c ++ ps) e = Some (name_char a).
Proof. done. Qed.

Lemma columns_fluent a l : Forall valid_column l -> Forall (plain_column a) l -> fluent a (columns_parts l ++ [PRaw ")"]) 59.
Proof.
  intros Hv. induction Hv as [|c l Hc Hv IH]; intros Hp; [raw_literal; by destruct a|].
  apply list.Forall_cons in Hp as [Hp Hps]. specialize (IH Hps). cbn [columns_parts]. rewrite <- !app_assoc.
  cbn [app]. raw_literal; [by destruct a|]. destruct l as [|d l].
  - apply (fluent_app a _ _ 10); [by apply column_fluent|raw_literal; [by destruct a|done]|done].
  - apply (fluent_app a _ _ 44); [by apply column_fluent|raw_literal; [by destruct a|done]|done].
Qed.

Lemma statement_fluent a st : valid_statement st -> plain_types a st -> fluent a (statement_parts a st) 59.
Proof.
  destruct st as [t|table c|table column|table old new|name table column u|name table|name]; cbn [valid_statement plain_types statement_parts].
  - intros [[Hn Hc] _] Hp. apply name_utf8 in Hn. cbn [app]. raw_literal; [by destruct a|]. split; [done|]. split; [by destruct a|].
    raw_literal; [by destruct (create_columns t), a|]. by apply columns_fluent.
  - intros [Hn%name_utf8 Hc] Hp. cbn [app]. raw_literal; [by destruct a|]. split; [done|]. split; [by destruct a|].
    raw_literal; [by destruct a|]. by apply column_fluent.
  - intros [H1%name_utf8 H2%name_utf8] _. raw_literal; [by destruct a|]. split; [done|]. split; [by destruct a|].
    raw_literal; [by destruct a|]. split; [done|]. split; [by destruct a|done].
  - intros (H1%name_utf8 & H2%name_utf8 & H3%name_utf8) _. raw_literal; [by destruct a|]. split; [done|]. split; [by destruct a|].
    raw_literal; [by destruct a|]. split; [done|]. split; [by destruct a|]. raw_literal; [by destruct a|]. split; [done|]. split; [by destruct a|done].
  - intros (H1%name_utf8 & H2%name_utf8 & H3%name_utf8) _. destruct u;
    (raw_literal; [by destruct a|]; split; [done|]; split; [by destruct a|];
     raw_literal; [by destruct a|]; split; [done|]; split; [by destruct a|]; raw_literal; [by destruct a|]; split; [done|]; split; [by destruct a|];
     raw_literal; [by destruct a|done]).
  - intros [H1%name_utf8 H2%name_utf8] _. destruct a; cbn [app]; (raw_literal; [done|]; split; [done|]; split; [done|]; try done).
    raw_literal; [done|]. split; [done|]. by split.
  - intros H1%name_utf8 _. raw_literal; [by destruct a|]. split; [done|]. split; [by destruct a|done].
Qed.

(** ** Scripts *)

Definition statement_chars (a : SqlAdapter) (st : Statement) : list char := concat (part_chars a <$> statement_parts a st).

(** A statement as it is read, with its semicolon and line feed. *)
Definition statement_items (a : SqlAdapter) (st : Statement) : list sql_item :=
  parts_items (statement_parts a st) ++ [Char 59%N; Char 10%N].

(** Statements with [sep] between them. *)
Fixpoint lines_of {A : Type} (sep : A) (ls : list (list A)) : list A :=
  match ls with
  | [] => []
  | [l] => l
  | l :: ls' => l ++ sep :: lines_of sep ls'
  end.

Definition script_chars (a : SqlAdapter) (ss : list Statement) : list char :=
  lines_of 10%N ((fun st => statement_chars a st ++ [59%N; 10%N]) <$> ss).
Definition script_items (a : SqlAdapter) (ss : list Statement) : list sql_item :=
  lines_of (Char 10%N) (statement_items a <$> ss).

Ltac all_utf8 := repeat (apply list.Forall_cons; split); try done; try (by eexists); try (apply list.Forall_nil).

Lemma lines_of_cons {A : Type} (sep : A) l l' ls : lines_of sep (l :: l' :: ls) = l ++ sep :: lines_of sep (l' :: ls).
Proof. done. Qed.

Lemma script_chars_cons a st st' l :
  script_chars a (st :: st' :: l) = (statement_chars a st ++ [59%N; 10%N]) ++ [10%N] ++ script_chars a (st' :: l).
Proof. unfold script_chars. by rewrite !fmap_cons, lines_of_cons. Qed.

Lemma script_items_cons a st st' l :
  script_items a (st :: st' :: l) = statement_items a st ++ Char 10%N :: script_items a (st' :: l).
Proof. unfold script_items. by rewrite !fmap_cons, lines_of_cons. Qed.

(** What [fluent] says of the texts does not need the types to be plain. *)
Lemma statement_utf8 a st : valid_statement st -> Forall (fun p => utf8_string (part_string p)) (statement_parts a st).
Proof.
  assert (forall c, valid_column c -> Forall (fun p => utf8_string (part_string p)) (column_parts c)) as Hcol.
  { intros c [[Hn _ _ _ _] [Ht _ _ _ _] Hd]. unfold column_parts, flag_parts. repeat (apply Forall_app; split);
      [|by destruct (primary_key c); repeat constructor; eexists|by destruct (not_null c); repeat constructor; eexists
       |by destruct (unique_column c); repeat constructor; eexists|].
    - repeat (apply list.Forall_cons; split); [done|by eexists|done|constructor].
    - destruct (column_default c) as [v|]; [|constructor].
      repeat (apply list.Forall_cons; split); [by eexists|by apply Hd|constructor]. }
  destruct st as [t|table c|table column|table old new|name table column u|name table|name]; cbn [valid_statement statement_parts].
  - intros [[[Hn _ _ _ _] Hc] _]. repeat (apply list.Forall_cons; split); [by eexists|done|by eexists|].
    apply Forall_app. split; [|by apply Forall_singleton; eexists]. induction Hc as [|c l Hc _ IH]; [constructor|].
    cbn [columns_parts]. apply Forall_app. split; [by apply Forall_singleton; eexists|]. apply Forall_app. split; [by apply Hcol|].
    apply Forall_app. split; [|done]. apply Forall_singleton. by destruct l; eexists.
  - intros [[Hn _ _ _ _] Hc]. apply Forall_app. split; [|by apply Hcol]. repeat (apply list.Forall_cons; split); [by eexists|done|by eexists|constructor].
  - intros [H1%name_utf8 H2%name_utf8]. all_utf8.
  - intros (H1%name_utf8 & H2%name_utf8 & H3%name_utf8). all_utf8.
  - intros (H1%name_utf8 & H2%name_utf8 & H3%name_utf8). all_utf8. by destruct u; eexists.
  - intros [H1%name_utf8 H2%name_utf8]. destruct a; all_utf8.
  - intros H1%name_utf8. all_utf8.
Qed.

Lemma statement_chars_text a st t : valid_statement st -> render_statement a st = Ok t ->
  text_of t = statement_chars a st ++ [59%N; 10%N] /\ utf8_string t.
Proof.
  intros Hv Ht. apply statement_text in Ht as ->. destruct (parts_text_chars a _ (statement_utf8 a st Hv)) as [E Hu].
  assert (utf8_string (";" ++ lf)) as Hl by by eexists. destruct (text_app _ _ Hu Hl) as [E' Hu']. split; [|done]. by rewrite E', E.
Qed.

Lemma script_text a l : forall i s0 sql, utf8_string s0 -> Forall valid_statement l -> render_from a i l s0 = Ok sql -> l <> [] ->
  text_of sql = text_of s0 ++ (if 0 <? i then [10%N] else []) ++ script_chars a l /\ utf8_string sql.
Proof.
  induction l as [|st l IH]; intros i s0 sql Hu Hv Hr Hne; [done|]. apply list.Forall_cons in Hv as [Hv Hvs].
  cbn [render_from] in Hr. destruct (render_statement a st) as [t|e| |] eqn:Et; try done. cbn [rbind] in Hr.
  apply (statement_chars_text a st t Hv) in Et as [Et Htu].
  set (s1 := if 0 <? i then (s0 ++ line_feed)%string else s0) in *.
  assert (text_of s1 = text_of s0 ++ (if 0 <? i then [10%N] else []) /\ utf8_string s1) as [E1 Hu1].
  { unfold s1. destruct (0 <? i); [apply text_app; [done|by eexists]|by rewrite app_nil_r]. }
  destruct (text_app _ _ Hu1 Htu) as [E2 Hu2]. rewrite E1, Et, <- app_assoc in E2. destruct l as [|st' l].
  - cbn in Hr. injection Hr as <-. by split.
  - destruct (IH (S i) _ sql Hu2 Hvs Hr ltac:(done)) as [E Hsql]. split; [|done]. rewrite E, E2. cbn [Nat.ltb Nat.leb].
    rewrite script_chars_cons. by rewrite <- !app_assoc.
Qed.

Lemma script_reads a l : Forall valid_statement l -> Forall (plain_types a) l ->
  read_sql a Plain (script_chars a l) = Some (script_items a l).
Proof.
  intros Hv Hp. assert (forall cs, read_sql a Plain (10%N :: cs) = cons (Char 10%N) <$> read_sql a Plain cs) as Hlf by (intros cs; by destruct a, cs).
  assert (forall cs, read_sql a Plain (59%N :: cs) = cons (Char 59%N) <$> read_sql a Plain cs) as Hsemi by (intros cs; by destruct a, cs).
  assert (forall st rest, valid_statement st -> plain_types a st ->
    read_sql a Plain ((statement_chars a st ++ [59%N; 10%N]) ++ rest) = app (statement_items a st) <$> read_sql a Plain rest) as Hone.
  { intros st rest H1 H2. rewrite <- app_assoc. cbn [app]. unfold statement_chars. rewrite fluent_reads by (by apply statement_fluent).
    change (59%N :: 10%N :: rest) with ([59%N; 10%N] ++ rest).
    cbn [app]. rewrite Hsemi, Hlf. unfold statement_items. rewrite <- app_app_fmap. by destruct (read_sql a Plain rest). }
  induction Hv as [|st l H1 Hv IH]; [done|]. apply list.Forall_cons in Hp as [H2 Hp]. specialize (IH Hp). destruct l as [|st' l].
  - change (script_chars a [st]) with (statement_chars a st ++ [59%N; 10%N]). change (script_items a [st]) with (statement_items a st).
    rewrite <- (app_nil_r (_ ++ _)), Hone by done. simpl. by rewrite app_nil_r.
  - rewrite script_chars_cons, script_items_cons, Hone by done. cbn [app]. by rewrite Hlf, IH.
Qed.

(** ** The compiler's state *)

Definition is_create (st : Statement) : bool := match st with Statement.CreateTable _ => true | _ => false end.
Definition is_drop (st : Statement) : bool := match st with Statement.DropTable _ => true | _ => false end.

(** Tables are created or dropped, not both. *)
Definition unmixed (ss : list Statement) : Prop := ~ (existsb is_create ss = true /\ existsb is_drop ss = true).

Record loose (s : MigrationCompiler) : Prop := {
  loose_stack : Forall (fun v => utf8_string (stack_value v)) (dsl_stack s);
  loose_statements : Forall valid_statement (statements s);
  loose_current : forall t, current_create s = Some t -> valid_create t /\ saw_create s = true;
  loose_create : existsb is_create (statements s) = true -> saw_create s = true;
  loose_drop : existsb is_drop (statements s) = true -> saw_drop s = true;
  loose_unmixed : saw_create s && saw_drop s = false }.

Definition target_ok (s : MigrationCompiler) : Prop :=
  match last_column_target s with
  | None => True
  | Some ColumnTarget.CurrentCreate => exists t c l, current_create s = Some t /\ create_columns t = l ++ [c]
  | Some (ColumnTarget.Statement i) => exists t c, statements s !! i = Some (Statement.AddColumn t c)
  end.

Record invariant (s : MigrationCompiler) : Prop := { invariant_loose : loose s; invariant_target : target_ok s }.

(** From [s] the computation returns with [Q], or with an error. *)
Abbreviation ok m s Q := (wp m s Q (fun _ : MigrationError => True)).

Lemma ok_lift {A : Type} (r : res MigrationError A) (s : MigrationCompiler) Q : settles r (fun a => Q a s) -> ok (slift r) s Q.
Proof. by destruct r. Qed.

Lemma ok_then {A B : Type} (m : dsl A) (k : A -> dsl B) s P Q : ok m s P -> (forall a s', P a s' -> ok (k a) s' Q) -> ok (sbind m k) s Q.
Proof. intros Hm Hk. apply wp_bind. eapply wp_mono; [exact Hm|exact Hk|done]. Qed.

Lemma ok_check {B : Type} r (P : Prop) (k : unit -> dsl B) s Q : settles r (fun _ => P) -> (P -> ok (k tt) s Q) -> ok (sbind (slift r) k) s Q.
Proof. intros Hr Hk. apply wp_bind, ok_lift. eapply settles_mono; [|exact Hr]. by intros []. Qed.

Lemma existsb_snoc {A : Type} (p : A -> bool) l x : existsb p (l ++ [x]) = existsb p l || p x.
Proof. rewrite existsb_app. simpl. by rewrite orb_false_r. Qed.

Lemma last_snoc_inv {A : Type} (l : list A) x : list.last l = Some x -> l = removelast l ++ [x].
Proof.
  destruct l as [|y l _] using rev_ind; [done|]. rewrite list.last_snoc, removelast_last. by intros [= ->].
Qed.

Definition popped (s : MigrationCompiler) : MigrationCompiler := set_stack (removelast (dsl_stack s)) s.

Lemma pop_ok context position s : loose s ->
  ok (pop_literal context position) s (fun v s' => utf8_string (stack_value v) /\ s' = popped s /\ loose s').
Proof.
  intros [H1 H2 H3 H4 H5 H6]. unfold pop_literal. apply wp_bind, wp_get. destruct (list.last (dsl_stack s)) as [v|] eqn:E; [|done].
  apply last_snoc_inv in E. rewrite E in H1. apply Forall_app in H1 as [H1 Hv]. apply wp_bind, wp_modify. cbn. split; [exact (proj1 (Forall_singleton _ _) Hv)|]. split; [done|by split].
Qed.

(** Pop, and go on from a state that differs in the stack only. *)
Lemma pop_then {B : Type} context position (k : StackString -> dsl B) s Q : loose s ->
  (forall v, utf8_string (stack_value v) -> loose (popped s) -> ok (k v) (popped s) Q) -> ok (sbind (pop_literal context position) k) s Q.
Proof. intros Hs Hk. eapply ok_then; [by apply pop_ok|]. intros v s' (Hv & -> & Hl). by apply Hk. Qed.

Lemma finish_ok s : loose s ->
  ok finish_current_create s (fun _ s' => loose s' /\ current_create s' = None /\ saw_create s' = saw_create s /\ saw_drop s' = saw_drop s).
Proof.
  intros Hl. pose proof Hl as [H1 H2 H3 H4 H5 H6]. unfold finish_current_create. apply wp_bind, wp_get.
  destruct (current_create s) as [t|] eqn:Et; [|by split].
  apply wp_bind, wp_modify. destruct (H3 t eq_refl) as [Ht Hs]. destruct (create_columns t) as [|c l] eqn:Ec; [done|].
  apply wp_modify. split; [|done]. split; cbn; try done.
  - apply Forall_app. split; [done|]. apply Forall_singleton. cbn. by rewrite Ec.
  - by rewrite existsb_snoc, orb_false_r.
Qed.

Lemma finish_then {B : Type} (k : unit -> dsl B) s Q : loose s ->
  (forall s', loose s' -> current_create s' = None -> saw_create s' = saw_create s -> saw_drop s' = saw_drop s -> ok (k tt) s' Q) ->
  ok (sbind finish_current_create k) s Q.
Proof. intros Hs Hk. eapply ok_then; [by apply finish_ok|]. intros [] s' (? & ? & ? & ?). by apply Hk. Qed.

Lemma loose_target s t : loose s -> loose (set_target t s).
Proof. by intros []. Qed.

(** A statement that neither creates nor drops a table. *)
Lemma append_ok s st : loose s -> current_create s = None -> valid_statement st -> is_create st = false -> is_drop st = false ->
  loose (set_statements (statements s ++ [st]) s).
Proof.
  intros [H1 H2 H3 H4 H5 H6] Hc Hv Hst Hsd. split; cbn; try done.
  - apply Forall_app. by rewrite Forall_singleton.
  - by rewrite existsb_snoc, Hst, orb_false_r.
  - by rewrite existsb_snoc, Hsd, orb_false_r.
Qed.

Lemma table_create_ok position s : invariant s -> ok (table_create position) s (fun _ => invariant).
Proof.
  intros [Hl _]. unfold table_create. apply wp_bind, wp_get. destruct (saw_drop s) eqn:Ed; [done|].
  apply wp_bind, wp_modify, finish_then; [by apply loose_target|]. intros s1 H1 Hc _ Hd. cbn in Hd.
  apply pop_then; [done|]. intros v Hv Hl1. eapply ok_check; [by apply validate_name_settles|]. intros Hn.
  do 3 (try apply wp_bind; apply wp_modify). destruct Hl1 as [L1 L2 L3 L4 L5 L6]. cbn in *. split; [|done].
  split; cbn; try done; [by intros t [= <-]|by rewrite Hd, Ed].
Qed.

Lemma new_column_valid n t : valid_name n -> valid_type t -> valid_column (new_column n t).
Proof. intros Hn Ht. by split. Qed.

Lemma column_ok position s : invariant s -> ok (column_word position) s (fun _ => invariant).
Proof.
  intros [Hl _]. unfold column_word. apply wp_bind, wp_get. destruct (current_create s) as [t|] eqn:Et; [|done].
  apply pop_then; [done|]. intros ty Hty Hl1. apply pop_then; [done|]. intros n Hn Hl2.
  eapply ok_check; [by apply validate_name_settles|]. intros Hvn. eapply ok_check; [by apply validate_type_settles|]. intros Hvt.
  apply wp_bind, wp_get. cbn. rewrite Et. apply wp_bind, wp_modify, wp_modify. destruct Hl2 as [L1 L2 L3 L4 L5 L6]. cbn in *.
  destruct (L3 t Et) as [[Ht1 Ht2] Ht3]. split; [|by do 3 eexists]. split; cbn; try done. intros t' [= <-]. split; [|done]. split; [done|].
  apply Forall_app. split; [done|]. apply Forall_singleton. by apply new_column_valid.
Qed.

Lemma column_add_ok position s : invariant s -> ok (column_add position) s (fun _ => invariant).
Proof.
  intros [Hl _]. unfold column_add. apply finish_then; [done|]. intros s1 H1 Hc _ _.
  apply pop_then; [done|]. intros ty Hty Hl1. apply pop_then; [done|]. intros n Hn Hl2. apply pop_then; [done|]. intros t Ht Hl3.
  eapply ok_check; [by apply validate_name_settles|]. intros Hvt. eapply ok_check; [by apply validate_name_settles|]. intros Hvn.
  eapply ok_check; [by apply validate_type_settles|]. intros Hvy. apply wp_bind, wp_get, wp_bind, wp_modify, wp_modify.
  split; [|cbn; do 2 eexists; by apply list_lookup_middle]. apply loose_target, append_ok; try done.
Qed.

Lemma simple_word s st : loose s -> current_create s = None -> valid_statement st -> is_create st = false -> is_drop st = false ->
  last_column_target s = None -> ok (append_statement st) s (fun _ => invariant).
Proof. intros ? ? ? ? ? Ht. apply wp_modify. split; [by apply append_ok|]. unfold target_ok. cbn. by rewrite Ht. Qed.

Ltac pops := repeat (apply pop_then; [done|]; intros ? ? ?).
Ltac names := repeat (eapply ok_check; [by apply validate_name_settles|]; intros ?).

Lemma column_drop_ok position s : invariant s -> ok (column_drop position) s (fun _ => invariant).
Proof.
  intros [Hl _]. unfold column_drop. apply finish_then; [done|]. intros s1 H1 Hc _ _. apply wp_bind, wp_modify.
  apply (loose_target _ None) in H1. pops. names. by apply simple_word.
Qed.

Lemma column_rename_ok position s : invariant s -> ok (column_rename position) s (fun _ => invariant).
Proof.
  intros [Hl _]. unfold column_rename. apply finish_then; [done|]. intros s1 H1 Hc _ _. apply wp_bind, wp_modify.
  apply (loose_target _ None) in H1. pops. names. by apply simple_word.
Qed.

Lemma index_create_ok position u s : invariant s -> ok (index_create position u) s (fun _ => invariant).
Proof.
  intros [Hl _]. unfold index_create. apply finish_then; [done|]. intros s1 H1 Hc _ _. apply wp_bind, wp_modify.
  apply (loose_target _ None) in H1. pops. names. by apply simple_word.
Qed.

Lemma index_drop_ok position s : invariant s -> ok (index_drop position) s (fun _ => invariant).
Proof.
  intros [Hl _]. unfold index_drop. apply finish_then; [done|]. intros s1 H1 Hc _ _. apply wp_bind, wp_modify.
  apply (loose_target _ None) in H1. pops. names. by apply simple_word.
Qed.

Lemma update_column_valid c : valid_column c ->
  valid_column (set_primary_key c) /\ valid_column (set_not_null c) /\ valid_column (set_unique c) /\
  forall v, utf8_string v -> valid_column (set_default v c).
Proof. intros [H1 H2 H3]. split_and!; [by split..|]. intros v Hv. split; [done..|]. by intros w [= <-]. Qed.

Lemma modify_ok word position update s : invariant s -> (forall c, valid_column c -> valid_column (update c)) ->
  ok (modify_last_column word position update) s (fun _ => invariant).
Proof.
  intros [[L1 L2 L3 L4 L5 L6] Ht] Hu. unfold modify_last_column. apply wp_bind, wp_get. unfold target_ok in Ht.
  destruct (last_column_target s) as [[|i]|] eqn:El; [| |done].
  - destruct Ht as (t & c & l & Et & Ec). rewrite Et, Ec, list.last_snoc, removelast_last. apply wp_modify.
    destruct (L3 t Et) as [[Hn Hc] Hs]. rewrite Ec in Hc. apply Forall_app in Hc as [Hc Hl]. apply list.Forall_cons in Hl as [Hl _]. split.
    + split; cbn; try done. intros t' [= <-]. split; [|done]. split; [done|]. apply Forall_app. split; [done|]. apply Forall_singleton. auto.
    + unfold target_ok. cbn. rewrite El. by do 3 eexists.
  - destruct Ht as (t & c & Et). rewrite Et. apply wp_modify.
    assert (existsb is_create (<[i:=Statement.AddColumn t (update c)]> (statements s)) = existsb is_create (statements s) /\
            existsb is_drop (<[i:=Statement.AddColumn t (update c)]> (statements s)) = existsb is_drop (statements s)) as [E1 E2].
    { revert Et. clear. generalize (statements s) as l. intros l. revert i. induction l as [|st l IH]; intros [|i] Et; try done.
      - simpl in Et. by injection Et as ->.
      - simpl in *. by destruct (IH i Et) as [-> ->]. }
    rewrite list.Forall_forall in L2. split; [split; cbn; try done|].
    + apply Forall_insert; [by apply list.Forall_forall|]. destruct (L2 _ (list_elem_of_lookup_2 _ _ _ Et)) as [Hn Hc]. split; auto.
    + by rewrite E1.
    + by rewrite E2.
    + unfold target_ok. cbn. rewrite El, list_lookup_insert_eq by (by eapply lookup_lt_Some). by do 2 eexists.
Qed.

Lemma default_ok position s : invariant s -> ok (default_word position) s (fun _ => invariant).
Proof.
  intros [Hl Ht]. unfold default_word. apply wp_bind, wp_get. destruct (last_column_target s) eqn:El; [|done].
  apply pop_then; [done|]. intros v Hv Hl1. apply modify_ok; [by split|]. intros c1 Hc1. by apply update_column_valid.
Qed.

Lemma table_drop_ok position s : invariant s -> ok (table_drop position) s (fun _ => invariant).
Proof.
  intros [Hl Ht]. unfold table_drop. apply wp_bind, wp_get. destruct (saw_create s) eqn:Es; [done|].
  destruct (current_create s) eqn:Ec; [done|]. cbn [orb]. apply wp_bind, wp_modify.
  apply (loose_target _ None) in Hl. pops. names. apply wp_bind, wp_modify, wp_modify.
  match goal with H : loose (popped _) |- _ => destruct H as [L1 L2 L3 L4 L5 L6] end. cbn in *. split; [|done]. split; cbn; try done.
  - apply Forall_app. by rewrite Forall_singleton.
  - by rewrite existsb_snoc, orb_false_r.
  - by rewrite Es.
Qed.

Lemma execute_ok word position s : invariant s -> ok (execute_word word position) s (fun _ => invariant).
Proof.
  intros Hs. unfold execute_word.
  repeat (case_match; [first [by apply table_create_ok|by apply column_ok|by apply column_add_ok|by apply column_drop_ok
    |by apply column_rename_ok|by apply index_create_ok|by apply index_drop_ok|by apply default_ok|by apply table_drop_ok
    |by apply modify_ok; [|intros c Hc; by apply update_column_valid]]|]). done.
Qed.

Definition string_utf8 (t : Token) : Prop := forall s, kind t = TokenKind.String s -> utf8_string s.

Lemma token_ok t s : string_utf8 t -> invariant s -> ok (compile_token t) s (fun _ => invariant).
Proof.
  intros Ht [Hl Htar]. unfold compile_token, string_utf8 in *. destruct (kind t) as [| | |v| | | | | | | | |] eqn:Ek; try done.
  - by apply execute_ok.
  - apply wp_modify. destruct Hl as [L1 L2 L3 L4 L5 L6]. split; [|done]. split; cbn; try done.
    apply Forall_app. split; [done|]. apply Forall_singleton. cbn. by apply Ht.
Qed.

Lemma tokens_ok ts s : Forall string_utf8 ts -> invariant s -> ok (compile_dsl_tokens ts) s (fun _ => invariant).
Proof.
  intros Ht. revert s. induction Ht as [|t ts Ht _ IH]; intros s Hs; [done|]. cbn [compile_dsl_tokens].
  eapply ok_then; [by apply token_ok|]. intros [] s1 Hs1. by apply IH.
Qed.

Lemma finish_statements_ok s : invariant s ->
  ok finish_statements s (fun ss _ => ss <> [] /\ Forall valid_statement ss /\ unmixed ss).
Proof.
  intros [Hl _]. unfold finish_statements. apply finish_then; [done|]. intros s1 [L1 L2 L3 L4 L5 L6] _ _ _. apply wp_bind, wp_get.
  destruct (statements s1) as [|st l] eqn:E; [done|]. destruct (list.last (dsl_stack s1)); [done|]. apply wp_ret. split; [done|]. split; [done|].
  intros [H1 H2]. by rewrite L4, L5 in L6.
Qed.

Lemma new_invariant : invariant new_dsl_compiler.
Proof. by repeat split. Qed.

(** ** A migration for MySQL is a batch of its statements *)

Lemma literal_items cs : exists items, literal_chars SqlAdapter.Mysql cs = concat items /\ Forall (quoted_item single_quote) items.
Proof.
  induction cs as [|c cs (items & E & Hi)]; [by exists []|]. exists (literal_char SqlAdapter.Mysql c :: items).
  split; [cbn; by f_equal|]. constructor; [|done]. cbn [literal_char].
  destruct (N.eqb_spec c backslash) as [->|Hb]; [by apply item_escape|]. destruct (N.eqb_spec c single_quote) as [->|Hc]; [by apply item_escape|].
  apply item_char; [done|by left].
Qed.

Lemma name_items cs : exists items, name_chars SqlAdapter.Mysql cs = concat items /\ Forall (quoted_item backtick) items.
Proof.
  induction cs as [|c cs (items & E & Hi)]; [by exists []|].
  exists ((if (c =? backtick)%N then [backtick; backtick] else [c]) :: items).
  split; [cbn; by f_equal|]. constructor; [|done]. destruct (N.eqb_spec c backtick) as [->|Hc]; [apply item_twice|].
  apply item_char; [done|by right].
Qed.

Lemma raw_whole cs rest next : opt_head rest = next \/ rest = [] -> raw_run SqlAdapter.Mysql cs next = true -> whole rest -> whole (cs ++ rest).
Proof.
  intros Hn. induction cs as [|c cs IH]; intros H Hw; [done|]. cbn [raw_run] in H. apply andb_prop in H as [[[H1 H2]%andb_prop H3]%andb_prop H].
  apply negb_true_iff in H1, H2, H3. apply special_name in H1 as (_ & E1 & E2 & E3 & E4). apply N.eqb_neq in H2.
  change (whole ([c] ++ (cs ++ rest))). apply whole_app; [|by apply IH].
  assert (forall x, head (cs ++ rest) = Some x -> match cs with [] => next | c' :: _ => Some c' end = Some x) as Hx.
  { intros x Hx. destruct cs; [|done]. destruct Hn as [<-| ->]; [|done]. by destruct rest. }
  apply element_char.
  - unfold plain_char. rewrite !not_elem_of_cons. repeat split; try done. apply not_elem_of_nil.
  - intros -> Hh%Hx. rewrite Hh in H3. done.
  - intros -> Hh%Hx. rewrite Hh in H3. done.
Qed.

Lemma fluent_whole ps : fluent SqlAdapter.Mysql ps 59 -> whole (concat (part_chars SqlAdapter.Mysql <$> ps)).
Proof.
  induction ps as [|p ps IH]; intros Hf; [constructor|]. destruct Hf as (_ & Hp & Hf). specialize (IH Hf).
  rewrite fmap_cons. cbn [concat].
  assert (forall x, head (concat (part_chars SqlAdapter.Mysql <$> ps)) = Some x ->
            match ps with [] => Some 59%N | p' :: _ => part_first SqlAdapter.Mysql p' end = Some x) as Hh.
  { intros x Hx. destruct ps as [|p' ps]; [done|]. pose proof (fluent_head _ _ _ [] Hf) as E. cbn [fmap list_fmap] in *. rewrite <- E.
    cbn [concat] in *. destruct (part_chars SqlAdapter.Mysql p' ++ concat _); [done|exact Hx]. }
  destruct p as [s|s|s]; cbn [part_chars].
  - destruct (name_items (text_of s)) as (items & -> & Hi). apply whole_app; [|done].
    apply (element_quoted _ Backtick); [by right; right|done|]. intros Hx%Hh. by apply Hp.
  - destruct (literal_items (text_of s)) as (items & -> & Hi). apply whole_app; [|done].
    apply (element_quoted _ SingleQuote); [by left|done|]. intros Hx%Hh. by apply Hp.
  - destruct Hp as [_ Hp]. eapply raw_whole; [|exact Hp|done]. destruct ps as [|p' ps]; [by right|left].
    pose proof (fluent_head _ _ _ [] Hf) as E. cbn in E |- *. rewrite <- E. cbn in *.
    destruct (part_chars SqlAdapter.Mysql p' ++ _) eqn:El; [|done].
    destruct Hf as (_ & Hp' & _). destruct p' as [s'|s'|s']; [done..|]. cbn in El. by destruct (text_of s'); [destruct Hp'|].
Qed.

(** *** No blanks around a statement *)

Definition solid_end (l : list char) : Prop := exists c, list.last l = Some c /\ is_whitespace c = false.

Lemma solid_app l m : solid_end m -> solid_end (l ++ m).
Proof. intros (c & Hc & Hw). exists c. split; [|done]. destruct m as [|x m _] using rev_ind; [done|]. by rewrite app_assoc, list.last_snoc in *. Qed.

Lemma trimmed_solid l : trimmed l = l -> l <> [] -> solid_end l.
Proof.
  intros E Hne. unfold trimmed, trim_end_chars in E. set (m := reverse (trim_start_chars l)) in *.
  destruct (drop_while is_whitespace m) as [|c m'] eqn:Ed; [by rewrite <- E in Hne|]. exists c.
  split; [|by eapply drop_while_head]. by rewrite <- E, reverse_cons, list.last_snoc.
Qed.

Lemma solid_trimmed c l : is_whitespace c = false -> solid_end (c :: l) -> trimmed (c :: l) = c :: l.
Proof.
  intros Hc (d & Hd & Hw). unfold trimmed, trim_start_chars, trim_end_chars. cbn [drop_while]. rewrite Hc.
  apply last_snoc_inv in Hd. rewrite Hd, reverse_snoc. cbn [drop_while]. by rewrite Hw, reverse_cons, reverse_involutive.
Qed.

Lemma part_solid a p : match p with PRaw s => solid_end (text_of s) | _ => True end -> solid_end (part_chars a p).
Proof.
  destruct p as [s|s|s]; intros H; cbn [part_chars]; [| |done]; rewrite app_comm_cons; apply solid_app; eexists; split; try done; by destruct a.
Qed.

Lemma parts_solid a ps p : match p with PRaw s => solid_end (text_of s) | _ => True end ->
  solid_end (concat (part_chars a <$> ps ++ [p])).
Proof. intros H. rewrite fmap_app, concat_app. apply solid_app. cbn. rewrite app_nil_r. by apply part_solid. Qed.

Lemma column_solid a ps c : valid_column c -> solid_end (concat (part_chars a <$> ps ++ column_parts c)).
Proof.
  intros [_ [Hu Hne Ht _ _] _]. unfold column_parts, flag_parts. destruct (column_default c) as [v|].
  - rewrite !app_assoc. change [PRaw " default "; PText v] with ([PRaw " default "] ++ [PText v]). rewrite app_assoc. by apply parts_solid.
  - rewrite app_nil_r. destruct (unique_column c); [rewrite !app_assoc; apply parts_solid; by eexists|]. rewrite app_nil_r.
    destruct (not_null c); [rewrite !app_assoc; apply parts_solid; by eexists|]. rewrite app_nil_r.
    destruct (primary_key c); [rewrite !app_assoc; apply parts_solid; by eexists|]. rewrite app_nil_r.
    change [PName (name_of_column c); PRaw " "; PRaw (type_of_column c)] with ([PName (name_of_column c); PRaw " "] ++ [PRaw (type_of_column c)]).
    rewrite app_assoc. apply parts_solid, trimmed_solid; [done|by apply text_nonempty].
Qed.

Lemma statement_trimmed a st : valid_statement st -> trimmed (statement_chars a st) = statement_chars a st /\ statement_chars a st <> [].
Proof.
  intros Hv. assert (exists c l, statement_chars a st = c :: l /\ is_whitespace c = false) as (c & l & E & Hc).
  { destruct st as [t|table c|table column|table old new|name table column u|name table|name]; try (by do 2 eexists). by destruct u; do 2 eexists. }
  rewrite E. split; [|done]. apply solid_trimmed; [done|]. rewrite <- E. clear E Hc l c. unfold statement_chars.
  destruct st as [t|table c|table column|table old new|name table column u|name table|name]; cbn [statement_parts valid_statement] in *.
  - rewrite app_assoc. apply parts_solid. by eexists.
  - apply column_solid, Hv.
  - by apply (parts_solid a [_; _; _]).
  - by apply (parts_solid a [_; _; _; _; _]).
  - apply (parts_solid a [_; _; _; _; _; _]). by eexists.
  - destruct a; [by apply (parts_solid _ [_])..|by apply (parts_solid _ [_; _; _])].
  - by apply (parts_solid a [_]).
Qed.

(** The texts between the semicolons of a script. *)
Definition segments (a : SqlAdapter) (st : Statement) (l : list Statement) : list (list char) :=
  statement_chars a st :: ((fun st => 10%N :: 10%N :: statement_chars a st) <$> l) ++ [[10%N]].

Lemma batch_prefix p s ss : batch ((p ++ s) :: ss) = p ++ batch (s :: ss).
Proof. destruct ss; [done|]. cbn [batch]. by rewrite <- app_assoc. Qed.

Lemma segments_batch a st l : script_chars a (st :: l) = batch (segments a st l).
Proof.
  revert st. induction l as [|st' l IH]; intros st; [done|]. rewrite script_chars_cons, IH. unfold segments. rewrite fmap_cons.
  change (batch (?s :: (10%N :: 10%N :: ?c :: ?r) ++ ?e)) with (s ++ 59%N :: batch (([10%N; 10%N] ++ c :: r) ++ e)) || idtac.
  cbn [app]. change (batch (?s :: ?t :: ?r)) with (s ++ 59%N :: batch (t :: r)).
  rewrite (batch_prefix [10%N; 10%N] (statement_chars a st')). by rewrite <- app_assoc.
Qed.

Lemma trimmed_line_feed l : trimmed (10%N :: l) = trimmed l.
Proof. done. Qed.

Lemma segments_trimmed a st l : Forall valid_statement (st :: l) ->
  filter (fun s => s <> []) (trimmed <$> segments a st l) = statement_chars a <$> st :: l.
Proof.
  intros Hv. unfold segments. apply list.Forall_cons in Hv as [Hv Hl]. destruct (statement_trimmed a st Hv) as [E Hne].
  rewrite fmap_cons, filter_cons, E, decide_True by done. rewrite fmap_cons. f_equal. clear E Hne Hv st.
  induction Hl as [|st l Hv _ IH]; [done|]. destruct (statement_trimmed a st Hv) as [E Hne].
  rewrite fmap_cons. cbn [app]. rewrite fmap_cons, !trimmed_line_feed, E, filter_cons, decide_True by done. by rewrite fmap_cons, IH.
Qed.

Lemma segments_whole st l : Forall valid_statement (st :: l) -> Forall (plain_types SqlAdapter.Mysql) (st :: l) ->
  Forall whole (segments SqlAdapter.Mysql st l).
Proof.
  assert (forall r, whole r -> whole (10%N :: r)) as Hlf.
  { intros r Hr. apply (whole_app [10%N] r); [|done]. apply element_char; [|done..]. apply (bool_decide_unpack _). by vm_compute. }
  intros Hv Hp. apply list.Forall_cons in Hv as [Hv Hvs]. apply list.Forall_cons in Hp as [Hp Hps].
  apply list.Forall_cons. split; [by apply fluent_whole, statement_fluent|]. apply Forall_app. split; [|].
  - apply Forall_fmap. induction Hvs as [|st' l Hv' _ IH]; [constructor|]. apply list.Forall_cons in Hps as [Hp' Hps].
    constructor; [|by apply IH]. by apply Hlf, Hlf, fluent_whole, statement_fluent.
  - apply list.Forall_cons. split; [|constructor]. apply Hlf. constructor.
Qed.

(** ** What a source declares *)

Definition migration_statements (source : string) : res MigrationError (list Statement) :=
  let? tokens := lex_source source in
  let? r := (compile_dsl_tokens tokens ;; finish_statements) new_dsl_compiler in
  Ok r.1.

Lemma source_tokens source ts : utf8_string source -> lex_source source = Ok ts -> Forall string_utf8 ts.
Proof.
  intros Hu Hts. unfold lex_source in Hts. destruct (lex source) as [ts'|e| |] eqn:E; try done. injection Hts as <-.
  apply list.Forall_forall. intros t Ht s Hk. eapply token_string; [by apply lex_tiles|done|done].
Qed.

(** The two halves of a compilation. *)
Lemma statements_of_source source ts : utf8_string source -> lex_source source = Ok ts ->
  settles ((compile_dsl_tokens ts ;; finish_statements) new_dsl_compiler) (fun r => r.1 <> [] /\ Forall valid_statement r.1 /\ unmixed r.1).
Proof.
  intros Hu Hts. pose proof (ok_then _ (fun _ => finish_statements) _ _ _ (tokens_ok ts new_dsl_compiler (source_tokens _ _ Hu Hts) new_invariant)
    (fun _ s1 => finish_statements_ok s1)) as H.
  unfold wp in H. destruct ((compile_dsl_tokens ts ;; finish_statements) new_dsl_compiler) as [[ss s]|e| |]; done.
Qed.

Lemma statements_valid source ss : utf8_string source -> migration_statements source = Ok ss ->
  ss <> [] /\ Forall valid_statement ss /\ unmixed ss.
Proof.
  intros Hu H. unfold migration_statements in H. destruct (lex_source source) as [ts|e| |] eqn:Et; try done. cbn [rbind] in H.
  pose proof (statements_of_source source ts Hu Et) as Hs. destruct (sbind _ _ _) as [r|e| |]; try done. by injection H as <-.
Qed.

Lemma compile_statements adapter a source : adapter_from_name adapter = Ok a ->
  compile_migration adapter source = (let? ss := migration_statements source in render_sql a ss).
Proof.
  intros Ha. unfold compile_migration, migration_statements. rewrite Ha. cbn [rbind]. destruct (lex_source source) as [ts|e| |]; try done. cbn [rbind].
  unfold finish_migration, sbind, slift. destruct (compile_dsl_tokens ts new_dsl_compiler) as [[[] s1]|e| |]; try done.
  destruct (finish_statements s1) as [[ss s2]|e| |]; try done. cbn [rbind fst]. by destruct (render_sql a ss).
Qed.

Lemma compile_split adapter source sql : utf8_string source -> compile_migration adapter source = Ok sql ->
  exists a ss, adapter_from_name adapter = Ok a /\ migration_statements source = Ok ss /\ render_sql a ss = Ok sql /\
    ss <> [] /\ Forall valid_statement ss /\ unmixed ss.
Proof.
  intros Hu H. destruct (adapter_from_name adapter) as [a|e| |] eqn:Ha; [|by unfold compile_migration in H; rewrite Ha in H..].
  rewrite (compile_statements adapter a source Ha) in H. apply rbind_Ok in H as (ss & Hss & H). exists a, ss. do 3 (split; [done|]).
  by apply (statements_valid source).
Qed.

Lemma render_settles a l : forall i sql, settles (render_from a i l sql) (fun _ => True).
Proof.
  induction l as [|st l IH]; intros i sql; [done|]. cbn [render_from]. apply settles_bind.
  assert (settles (render_statement a st) (fun _ => True)) as Hs; [|eapply settles_mono; [|exact Hs]; intros t _; apply IH].
  destruct st; try done; cbn [render_statement]; [|by destruct a].
  apply settles_bind. unfold validate_add_column. by destruct a; repeat case_match.
Qed.

(** A migration never stops: it compiles or it is refused. *)
Lemma migration_settles adapter source : utf8_string source -> settles (compile_migration adapter source) (fun _ => True).
Proof.
  intros Hu. assert (settles (adapter_from_name adapter) (fun _ => True)) as Ha by (unfold adapter_from_name; by repeat case_match).
  destruct (adapter_from_name adapter) as [a|e| |] eqn:E; try done; [|unfold compile_migration; by rewrite E].
  rewrite (compile_statements adapter a source E). apply settles_bind. unfold migration_statements. apply settles_bind.
  destruct (lex_source source) as [ts|e| |] eqn:Et; [|done|by unfold lex_source in Et; destruct (lex_terminates source Hu) as [[? El]|[? El]]; rewrite El in Et..].
  apply settles_bind. eapply settles_mono; [|by eapply statements_of_source]. intros r _. apply render_settles.
Qed.

(** ** A source for every list of statements *)

Definition str (s : string) : TokenKind := TokenKind.String s.
Definition word (s : string) : TokenKind := TokenKind.Symbol s.

Definition modifier_words (c : Column) : list TokenKind :=
  (if primary_key c then [word "primary_key"] else []) ++ (if not_null c then [word "not_null"] else []) ++
  (if unique_column c then [word "unique"] else []) ++
  match column_default c with Some v => [str v; word "default"] | None => [] end.

Definition column_words (c : Column) : list TokenKind :=
  [str (name_of_column c); str (type_of_column c); word "column"] ++ modifier_words c.

(** The tokens that declare a statement. *)
Definition statement_words (st : Statement) : list TokenKind :=
  match st with
  | Statement.CreateTable t => [str (create_name t); word "table_create"] ++ concat (column_words <$> create_columns t)
  | Statement.AddColumn table c =>
      [str table; str (name_of_column c); str (type_of_column c); word "column_add"] ++ modifier_words c
  | Statement.DropColumn table column => [str table; str column; word "column_drop"]
  | Statement.RenameColumn table old new => [str table; str old; str new; word "column_rename"]
  | Statement.CreateIndex name table column u =>
      [str name; str table; str column; word (if u then "unique_index_create" else "index_create")]
  | Statement.DropIndex name table => [str name; str table; word "index_drop"]
  | Statement.DropTable name => [str name; word "table_drop"]
  end.

(** Lines and documentation do not count. *)
Definition significant (k : TokenKind) : bool :=
  match k with TokenKind.Newline | TokenKind.DocComment _ | TokenKind.Eof => false | _ => true end.

Definition declared (ts : list Token) : list TokenKind := List.filter significant (kind <$> ts).

(** [ks] is read from [s] into a state of [Q], wherever its tokens stand. *)
Definition reads_words (ks : list TokenKind) (s : MigrationCompiler) (Q : MigrationCompiler -> Prop) : Prop :=
  forall ts, declared ts = ks -> exists s', compile_dsl_tokens ts s = Ok (tt, s') /\ Q s'.

Lemma declared_cons t ts k ks : declared (t :: ts) = k :: ks ->
  (significant (kind t) = false /\ declared ts = k :: ks) \/ (kind t = k /\ significant k = true /\ declared ts = ks).
Proof. unfold declared. rewrite fmap_cons. cbn [List.filter]. destruct (significant (kind t)) eqn:E; [intros [= <- <-]; by right|by left]. Qed.

Lemma insignificant_step t ts s : significant (kind t) = false -> compile_dsl_tokens (t :: ts) s = compile_dsl_tokens ts s.
Proof. cbn [compile_dsl_tokens]. unfold compile_token, sbind. by destruct (kind t). Qed.

Lemma reads_nil s (Q : MigrationCompiler -> Prop) : Q s -> reads_words [] s Q.
Proof.
  intros HQ ts. induction ts as [|t ts IH]; intros H; [by exists s|]. unfold declared in H. rewrite fmap_cons in H. cbn [List.filter] in H.
  destruct (significant (kind t)) eqn:E; [done|]. rewrite insignificant_step by done. by apply IH.
Qed.

(** One token, whatever its position, and the rest. *)
Lemma reads_cons k ks s s1 Q : (forall t, kind t = k -> compile_token t s = Ok (tt, s1)) -> reads_words ks s1 Q -> reads_words (k :: ks) s Q.
Proof.
  intros Hk Hks ts. induction ts as [|t ts IH]; intros H; [done|]. apply declared_cons in H as [[E H]|(E & _ & H)].
  - rewrite insignificant_step by done. by apply IH.
  - cbn [compile_dsl_tokens]. rewrite (sbind_run _ _ _ _ _ (Hk t E)). by apply Hks.
Qed.

Lemma reads_string v ks stack sts cur tgt sc sd Q :
  (forall p, reads_words ks (mkCompiler (stack ++ [mkStackString v p]) sts cur tgt sc sd) Q) ->
  reads_words (str v :: ks) (mkCompiler stack sts cur tgt sc sd) Q.
Proof.
  intros Hks ts. induction ts as [|t ts IH]; intros H; [done|]. apply declared_cons in H as [[E H]|(E & _ & H)].
  - rewrite insignificant_step by done. by apply IH.
  - cbn [compile_dsl_tokens]. unfold compile_token. rewrite E. by apply (Hks (start (tspan t))).
Qed.

Lemma reads_word w ks s s1 Q : (forall p, execute_word w p s = Ok (tt, s1)) -> reads_words ks s1 Q -> reads_words (word w :: ks) s Q.
Proof. intros Hw. apply reads_cons. intros t E. unfold compile_token. rewrite E. apply Hw. Qed.

(** *** The words, run *)

Definition pending (cur : option CreateTable) : list Statement := match cur with Some t => [Statement.CreateTable t] | None => [] end.

Definition closable (cur : option CreateTable) : Prop := match cur with Some t => create_columns t <> [] | None => True end.

Lemma flush_run stack sts cur tgt sc sd : closable cur ->
  finish_current_create (mkCompiler stack sts cur tgt sc sd) = Ok (tt, mkCompiler stack (sts ++ pending cur) None tgt sc sd).
Proof.
  intros Hc. destruct cur as [t|]; [|by rewrite app_nil_r]. simpl in Hc.
  unfold finish_current_create, sbind, sget, smodify. cbn. destruct (create_columns t) eqn:E; [done|]. done.
Qed.

(** Run a word on a known stack: its checks succeed. *)
Ltac run_checks := repeat first [rewrite validate_name_ok by done | rewrite validate_type_ok by done]; cbn -[validate_name validate_type_name].
Ltac run_flushed :=
  rewrite (sbind_run _ _ _ _ _ (flush_run _ _ _ _ _ _ ltac:(eassumption)));
  unfold sbind, sget, smodify, slift, sret; cbn -[validate_name validate_type_name]; repeat progress run_checks.

Section Words.
Context (sts : list Statement) (cur : option CreateTable) (tgt : option ColumnTarget) (sc sd : bool) (Hcur : closable cur).

Lemma run_drop_column table column p1 p2 position : valid_name table -> valid_name column ->
  execute_word "column_drop" position (mkCompiler [mkStackString table p1; mkStackString column p2] sts cur tgt sc sd)
  = Ok (tt, mkCompiler [] ((sts ++ pending cur) ++ [Statement.DropColumn table column]) None None sc sd).
Proof. intros H1 H2. change (execute_word "column_drop" position) with (column_drop position). unfold column_drop. run_flushed. done. Qed.

Lemma run_rename table old new p1 p2 p3 position : valid_name table -> valid_name old -> valid_name new ->
  execute_word "column_rename" position (mkCompiler [mkStackString table p1; mkStackString old p2; mkStackString new p3] sts cur tgt sc sd)
  = Ok (tt, mkCompiler [] ((sts ++ pending cur) ++ [Statement.RenameColumn table old new]) None None sc sd).
Proof. intros H1 H2 H3. change (execute_word "column_rename" position) with (column_rename position). unfold column_rename. run_flushed. done. Qed.

Lemma run_index name table column (u : bool) p1 p2 p3 position : valid_name name -> valid_name table -> valid_name column ->
  execute_word (if u then "unique_index_create" else "index_create") position
    (mkCompiler [mkStackString name p1; mkStackString table p2; mkStackString column p3] sts cur tgt sc sd)
  = Ok (tt, mkCompiler [] ((sts ++ pending cur) ++ [Statement.CreateIndex name table column u]) None None sc sd).
Proof.
  intros H1 H2 H3. replace (execute_word (if u then "unique_index_create" else "index_create") position) with (index_create position u) by (by destruct u).
  unfold index_create. run_flushed. done.
Qed.

Lemma run_drop_index name table p1 p2 position : valid_name name -> valid_name table ->
  execute_word "index_drop" position (mkCompiler [mkStackString name p1; mkStackString table p2] sts cur tgt sc sd)
  = Ok (tt, mkCompiler [] ((sts ++ pending cur) ++ [Statement.DropIndex name table]) None None sc sd).
Proof. intros H1 H2. change (execute_word "index_drop" position) with (index_drop position). unfold index_drop. run_flushed. done. Qed.

Lemma run_add_column table name type p1 p2 p3 position : valid_name table -> valid_name name -> valid_type type ->
  execute_word "column_add" position (mkCompiler [mkStackString table p1; mkStackString name p2; mkStackString type p3] sts cur tgt sc sd)
  = Ok (tt, mkCompiler [] ((sts ++ pending cur) ++ [Statement.AddColumn table (new_column name type)]) None
              (Some (ColumnTarget.Statement (length (sts ++ pending cur)))) sc sd).
Proof. intros H1 H2 H3. change (execute_word "column_add" position) with (column_add position). unfold column_add. run_flushed. done. Qed.

Lemma run_create_table name p position : valid_name name -> sd = false ->
  execute_word "table_create" position (mkCompiler [mkStackString name p] sts cur tgt sc sd)
  = Ok (tt, mkCompiler [] (sts ++ pending cur) (Some (mkCreateTable name [])) None true sd).
Proof.
  intros H1 ->. change (execute_word "table_create" position) with (table_create position). unfold table_create.
  rewrite sbind_get. cbn [saw_drop]. rewrite (sbind_run (smodify _) _ _ _ _ eq_refl). unfold set_target. cbn [dsl_stack statements current_create last_column_target saw_create saw_drop].
  run_flushed. done.
Qed.

Lemma run_drop_table name p position : valid_name name -> sc = false -> cur = None ->
  execute_word "table_drop" position (mkCompiler [mkStackString name p] sts cur tgt sc sd)
  = Ok (tt, mkCompiler [] (sts ++ [Statement.DropTable name]) None None sc true).
Proof.
  intros H1 -> ->. change (execute_word "table_drop" position) with (table_drop position). unfold table_drop, sbind, sget, smodify, slift.
  cbn -[validate_name]. rewrite validate_name_ok by done. done.
Qed.
End Words.

Lemma run_column sts name columns n ty p1 p2 tgt sc sd position : valid_name n -> valid_type ty ->
  execute_word "column" position (mkCompiler [mkStackString n p1; mkStackString ty p2] sts (Some (mkCreateTable name columns)) tgt sc sd)
  = Ok (tt, mkCompiler [] sts (Some (mkCreateTable name (columns ++ [new_column n ty]))) (Some ColumnTarget.CurrentCreate) sc sd).
Proof.
  intros H1 H2. change (execute_word "column" position) with (column_word position). unfold column_word, sbind, sget, smodify, slift.
  cbn -[validate_name validate_type_name]. rewrite validate_name_ok by done. cbn -[validate_type_name]. rewrite validate_type_ok by done. done.
Qed.

(** The modifiers of a column, in a state that holds the column. *)
Section Modifiers.
Context (F : Column -> MigrationCompiler).
Hypothesis HF : forall c w p u, modify_last_column w p u (F c) = Ok (tt, F (u c)).
Hypothesis HF_shape : forall c, exists sts cur tgt sc sd, F c = mkCompiler [] sts cur (Some tgt) sc sd.

Lemma flag_read (b : bool) w u c ks Q : (forall p, execute_word w p = modify_last_column w p u) ->
  reads_words ks (F (if b then u c else c)) Q -> reads_words ((if b then [word w] else []) ++ ks) (F c) Q.
Proof. intros Hw H. destruct b; [|done]. apply (reads_word w ks (F c) (F (u c))); [|done]. intros p. by rewrite Hw, HF. Qed.

Lemma default_read v c ks Q : reads_words ks (F (set_default v c)) Q -> reads_words ([str v; word "default"] ++ ks) (F c) Q.
Proof.
  intros H. cbn [app]. destruct (HF_shape c) as (sts & cur & tgt & sc & sd & E). rewrite E. apply reads_string. intros p.
  eapply reads_word; [|exact H]. intros q. change (execute_word "default" q) with (default_word q). unfold default_word.
  rewrite sbind_get. cbn [last_column_target]. rewrite (sbind_run (pop_literal _ _) _ _ (mkStackString v p) (F c)) by (by rewrite E).
  apply HF.
Qed.

Lemma modifiers_read c ks Q : reads_words ks (F c) Q ->
  reads_words (modifier_words c ++ ks) (F (new_column (name_of_column c) (type_of_column c))) Q.
Proof.
  intros H. unfold modifier_words. rewrite <- !app_assoc. destruct c as [n ty pk nn un d]. cbn [primary_key not_null unique_column column_default name_of_column type_of_column] in *.
  apply (flag_read pk _ set_primary_key); [done|]. apply (flag_read nn _ set_not_null); [done|]. apply (flag_read un _ set_unique); [done|].
  replace (if un then _ else _) with (mkColumn n ty pk nn un None) by (by destruct pk, nn, un).
  destruct d as [v|]; [by apply default_read|done].
Qed.
End Modifiers.

Lemma columns_read name sc sd sts cs : forall done_ tgt ks Q, Forall valid_column cs ->
  (forall tgt, reads_words ks (mkCompiler [] sts (Some (mkCreateTable name (done_ ++ cs))) tgt sc sd) Q) ->
  reads_words (concat (column_words <$> cs) ++ ks) (mkCompiler [] sts (Some (mkCreateTable name done_)) tgt sc sd) Q.
Proof.
  induction cs as [|c cs IH]; intros done_ tgt ks Q Hv H; [rewrite app_nil_r in H; by apply H|].
  apply list.Forall_cons in Hv as [[Hn Ht _] Hv]. rewrite fmap_cons. cbn [concat]. rewrite <- app_assoc. unfold column_words at 1. rewrite <- app_assoc. cbn [app].
  apply reads_string. intros p1. apply reads_string. intros p2. eapply reads_word; [intros p; by apply run_column|].
  apply (modifiers_read (fun c => mkCompiler [] sts (Some (mkCreateTable name (done_ ++ [c]))) (Some ColumnTarget.CurrentCreate) sc sd)).
  - intros c' w p u. unfold modify_last_column. rewrite sbind_get. cbn [last_column_target current_create create_columns create_name].
    rewrite list.last_snoc, removelast_last. done.
  - intros c'. by do 5 eexists.
  - apply IH; [done|]. intros tgt'. rewrite <- app_assoc. by apply H.
Qed.

(** A state between two statements that has read [ss]. *)
Record at_rest (s : MigrationCompiler) (ss : list Statement) : Prop := {
  rest_stack : dsl_stack s = [];
  rest_statements : statements s ++ pending (current_create s) = ss;
  rest_closable : closable (current_create s);
  rest_create : saw_create s = existsb is_create ss;
  rest_drop : saw_drop s = existsb is_drop ss }.

Lemma no_create_pending cur sts : existsb is_create (sts ++ pending cur) = false -> cur = None.
Proof. destruct cur as [t|]; [|done]. cbn. by rewrite existsb_snoc, orb_true_r. Qed.

Lemma statement_read st s ss ks Q : at_rest s ss -> valid_statement st -> unmixed (ss ++ [st]) ->
  (forall s1, at_rest s1 (ss ++ [st]) -> reads_words ks s1 Q) -> reads_words (statement_words st ++ ks) s Q.
Proof.
  intros [H1 H2 H3 H4 H5] Hv Hm Hk. destruct s as [stack sts cur tgt sc sd]. cbn in H1, H2, H3, H4, H5. subst stack.
  assert (forall s1, at_rest s1 ((sts ++ pending cur) ++ [st]) -> reads_words ks s1 Q) as Hk' by (rewrite H2; done). clear Hk.
  unfold unmixed in Hm. rewrite !existsb_snoc, <- H4, <- H5 in Hm.
  destruct st as [t|table c|table column|table old new|name table column u|name table|name]; cbn [statement_words valid_statement is_create is_drop] in *;
    rewrite <- ?app_assoc; cbn [app].
  - destruct t as [n cs], Hv as [[Hn Hc] Hne]. cbn [create_name create_columns] in *. apply reads_string. intros p.
    assert (sd = false) as -> by (destruct sd; [by destruct Hm; rewrite orb_true_r|done]).
    eapply reads_word; [intros q; by apply run_create_table|]. apply columns_read; [done|]. intros tgt'. apply Hk'.
    split; cbn; try done; [by rewrite existsb_snoc, orb_true_r|]. by rewrite existsb_snoc, H2, <- H5.
  - destruct Hv as [Hn [Hcn Hct _]]. apply reads_string. intros p1. apply reads_string. intros p2. apply reads_string. intros p3.
    eapply reads_word; [intros q; by apply run_add_column|].
    apply (modifiers_read (fun c => mkCompiler [] ((sts ++ pending cur) ++ [Statement.AddColumn table c]) None
             (Some (ColumnTarget.Statement (length (sts ++ pending cur)))) sc sd)).
    + intros c' w p u. unfold modify_last_column. rewrite sbind_get. cbn [last_column_target statements].
      rewrite list_lookup_middle by done. unfold smodify, set_statements. cbn. by rewrite insert_app_r_alt, Nat.sub_diag by lia.
    + intros c'. by do 5 eexists.
    + apply Hk'. split; cbn; [done|by rewrite app_nil_r|done|by rewrite existsb_snoc, H2, orb_false_r|by rewrite existsb_snoc, H2, orb_false_r].
  - destruct Hv as [V1 V2]. do 2 (apply reads_string; intros ?). eapply reads_word; [intros q; by apply run_drop_column|].
    apply Hk'. split; cbn; [done|by rewrite app_nil_r|done|by rewrite existsb_snoc, H2, orb_false_r|by rewrite existsb_snoc, H2, orb_false_r].
  - destruct Hv as (V1 & V2 & V3). do 3 (apply reads_string; intros ?). eapply reads_word; [intros q; by apply run_rename|].
    apply Hk'. split; cbn; [done|by rewrite app_nil_r|done|by rewrite existsb_snoc, H2, orb_false_r|by rewrite existsb_snoc, H2, orb_false_r].
  - destruct Hv as (V1 & V2 & V3). do 3 (apply reads_string; intros ?). eapply reads_word; [intros q; by apply run_index|].
    apply Hk'. split; cbn; [done|by rewrite app_nil_r|done|by rewrite existsb_snoc, H2, orb_false_r|by rewrite existsb_snoc, H2, orb_false_r].
  - destruct Hv as [V1 V2]. do 2 (apply reads_string; intros ?). eapply reads_word; [intros q; by apply run_drop_index|].
    apply Hk'. split; cbn; [done|by rewrite app_nil_r|done|by rewrite existsb_snoc, H2, orb_false_r|by rewrite existsb_snoc, H2, orb_false_r].
  - apply reads_string. intros p. assert (sc = false) as -> by (destruct sc; [by destruct Hm; rewrite orb_true_r|done]).
    assert (cur = None) as -> by (apply (no_create_pending cur sts); by rewrite H2).
    eapply reads_word; [intros q; by apply run_drop_table|]. apply Hk'.
    split; cbn; rewrite ?app_nil_r in *; [done|done|done|by rewrite existsb_snoc, H2, <- H4|by rewrite existsb_snoc, orb_true_r].
Qed.

Lemma unmixed_prefix a b : unmixed (a ++ b) -> unmixed a.
Proof. unfold unmixed. rewrite !existsb_app. intros H [H1 H2]. apply H. by rewrite H1, H2. Qed.

Lemma statements_read ss : forall done_ s, at_rest s done_ -> Forall valid_statement ss -> unmixed (done_ ++ ss) ->
  reads_words (concat (statement_words <$> ss)) s (fun s' => at_rest s' (done_ ++ ss)).
Proof.
  induction ss as [|st ss IH]; intros done_ s Hs Hv Hm; [rewrite app_nil_r; by apply reads_nil|].
  apply list.Forall_cons in Hv as [Hv Hvs]. rewrite fmap_cons. cbn [concat].
  replace (done_ ++ st :: ss) with ((done_ ++ [st]) ++ ss) in * by (by rewrite <- app_assoc).
  eapply statement_read; [done|done|by eapply unmixed_prefix|]. intros s1 Hs1. by apply IH.
Qed.

Lemma finish_rest s ss : at_rest s ss -> ss <> [] -> exists s', finish_statements s = Ok (ss, s').
Proof.
  intros [H1 H2 H3 _ _] Hne. destruct s as [stack sts cur tgt sc sd]. cbn in *. subst stack. unfold finish_statements.
  rewrite (sbind_run _ _ _ _ _ (flush_run _ _ _ _ _ _ H3)), sbind_get. cbn [statements dsl_stack list.last]. rewrite H2.
  destruct ss as [|st ss]; [done|]. by eexists.
Qed.

Lemma fluent_no_semicolon a ps e : fluent a ps e -> Char 59%N ∉ parts_items ps.
Proof.
  induction ps as [|p ps IH]; intros Hf; [apply not_elem_of_nil|]. destruct Hf as (_ & Hp & Hf). unfold parts_items in *. rewrite fmap_cons. cbn [concat].
  rewrite elem_of_app. intros [H|H]; [|by apply IH]. destruct p as [s|s|s]; cbn [part_items] in H.
  - by apply list_elem_of_singleton in H.
  - by apply list_elem_of_singleton in H.
  - apply list_elem_of_fmap in H as (c & [= <-] & Hc). destruct Hp as [_ Hp].
    revert Hp Hc. generalize (match ps with [] => Some e | p' :: _ => part_first a p' end). intros n. induction (text_of s) as [|d l IHl]; [by intros _ H%elem_of_nil|].
    cbn [raw_run]. intros [[[_ H2]%andb_prop _]%andb_prop Hl]%andb_prop [<-|H]%elem_of_cons; [done|by apply IHl].
Qed.

Lemma render_each a l : forall i s0 sql, render_from a i l s0 = Ok sql -> Forall (fun st => exists t, render_statement a st = Ok t) l.
Proof.
  induction l as [|st l IH]; intros i s0 sql H; [constructor|]. cbn [render_from] in H.
  destruct (render_statement a st) as [t|e| |] eqn:E; try done. constructor; [by exists t|]. by eapply IH.
Qed.

Lemma statement_text_bytes st : valid_statement st -> forall t, render_statement SqlAdapter.Mysql st = Ok t ->
  render_statement SqlAdapter.Mysql st = Ok (from_bytes (encode (statement_chars SqlAdapter.Mysql st)) ++ ";" ++ lf)%string.
Proof.
  intros Hv t Ht. rewrite Ht. apply statement_text in Ht as ->. destruct (parts_text_chars SqlAdapter.Mysql _ (statement_utf8 SqlAdapter.Mysql st Hv)) as [E Hu].
  unfold statement_chars. rewrite <- E, <- text_bytes by done. by rewrite from_as_bytes.
Qed.

(** ** The theorems *)

(** C21: A migration compiles or is refused; one that compiles declares valid
    statements, at least one, and does not both create and drop tables.  If the
    declared column types are plain for the database (none holds [#] in MySQL,
    with which a comment starts, [$] in PostgreSQL or the bracket [[] in
    SQLite, with which other quotes do), the text reads back as what
    is declared, whatever the names and defaults hold: it is, for the
    adapter's database, one statement after another with the declared names and
    default values between quotes and no semicolon but the one at the end of
    each.  A type that is not plain passes the checks of the compiler, and its
    statement does not read so: that is excepted here. *)
Theorem migration_reads adapter source : utf8_string source ->
  settles (compile_migration adapter source) (fun sql =>
    exists a ss, adapter_from_name adapter = Ok a /\ migration_statements source = Ok ss /\
      ss <> [] /\ Forall valid_statement ss /\ unmixed ss /\
      (Forall (plain_types a) ss ->
       read_sql a Plain (text_of sql) = Some (script_items a ss) /\
       Forall (fun st => Char 59%N ∉ parts_items (statement_parts a st)) ss)).
Proof.
  intros Hu. pose proof (migration_settles adapter source Hu) as Hset. destruct (compile_migration adapter source) as [sql|e| |] eqn:Hc; try done.
  cbn [settles]. apply compile_split in Hc as (a & ss & Ha & Hss & Hr & Hne & Hv & Hm); [|done]. exists a, ss. do 5 (split; [done|]). intros Hp.
  destruct (script_text a ss 0 "" sql ltac:(by eexists) Hv Hr Hne) as [E _]. rewrite E. change (text_of "") with (@nil char). split; [by apply script_reads|].
  apply list.Forall_forall. intros st Hst. rewrite list.Forall_forall in Hv, Hp. by apply (fluent_no_semicolon a _ 59), statement_fluent; auto.
Qed.

(** A migration for MySQL, sent as a batch, is split into its statements:
    one text per declared statement, in order, each the rendering of its
    statement without the semicolon. *)
Theorem migration_is_a_batch (E : Type) adapter source sql ss : utf8_string source -> adapter_from_name adapter = Ok SqlAdapter.Mysql ->
  migration_statements source = Ok ss -> compile_migration adapter source = Ok sql -> Forall (plain_types SqlAdapter.Mysql) ss ->
  exists texts, split_mysql_batch (E:=E) sql = Ok texts /\
    Forall2 (fun st t => render_statement SqlAdapter.Mysql st = Ok (t ++ ";" ++ lf)%string) ss texts.
Proof.
  intros Hu Ha Hss Hc Hp. apply compile_split in Hc as (a & ss' & Ha' & Hss' & Hr & Hne & Hv & _); [|done].
  rewrite Ha in Ha'. injection Ha' as <-. rewrite Hss in Hss'. injection Hss' as <-. destruct ss as [|st ss]; [done|].
  destruct (script_text _ _ 0 "" sql ltac:(by eexists) Hv Hr Hne) as [Et Hus].
  exists ((fun s => from_bytes (encode s)) <$> (statement_chars SqlAdapter.Mysql <$> st :: ss)). split.
  - unfold split_mysql_batch. rewrite chars_text by done. cbn [rbind]. rewrite Et. change (text_of "") with (@nil char). cbn [app Nat.ltb Nat.leb].
    rewrite (segments_batch _ st ss), split_batch by (done || by apply segments_whole). by rewrite segments_trimmed.
  - apply render_each in Hr. rewrite !Forall2_fmap_r. apply Forall_Forall2_diag, list.Forall_forall. intros st' Hst.
    rewrite list.Forall_forall in Hv, Hr. destruct (Hr _ Hst) as [t Ht]. by eapply statement_text_bytes; [apply Hv|].
Qed.

(** Every list of valid statements that does not both create and drop
    tables can be written: a source with the words of its statements, laid
    out in any way, compiles to exactly these statements, for each adapter. *)
Theorem statements_can_be_written source ts ss : lex source = Ok ts -> declared ts = concat (statement_words <$> ss) ->
  ss <> [] -> Forall valid_statement ss -> unmixed ss ->
  migration_statements source = Ok ss /\
  forall adapter a, adapter_from_name adapter = Ok a -> compile_migration adapter source = render_sql a ss.
Proof.
  intros Hl Hd Hne Hv Hm. assert (lex_source source = Ok ts) as Hts by (unfold lex_source; by rewrite Hl).
  assert (at_rest new_dsl_compiler []) as Hrest by done.
  destruct (statements_read ss [] new_dsl_compiler Hrest Hv Hm ts Hd) as (s1 & Hrun & Hs1). destruct (finish_rest s1 ss Hs1 Hne) as [s2 Hf].
  assert (migration_statements source = Ok ss) as Hss.
  { unfold migration_statements. rewrite Hts. cbn [rbind]. by rewrite (sbind_run _ _ _ _ _ Hrun), Hf. }
  split; [done|]. intros adapter a Ha. by rewrite (compile_statements adapter a source Ha), Hss.
Qed.

(** ** Witnesses *)

(** Names with quotes and a default with quotes, a backslash and a semicolon. *)
Definition tricky_source : string :=
  (dsl_string "us`ers" ++ " table_create" ++ lf ++
   dsl_string "id" ++ " " ++ dsl_string "integer" ++ " column primary_key" ++ lf ++
   dsl_string "note" ++ " " ++ dsl_string "text" ++ " column " ++ dsl_string "it's \\; # --" ++ " default" ++ lf ++
   dsl_string "by_note" ++ " " ++ dsl_string "us`ers" ++ " " ++ dsl_string "note" ++ " unique_index_create" ++ lf)%string.

Definition tricky_statements : list Statement :=
  [Statement.CreateTable (mkCreateTable "us`ers"
     [mkColumn "id" "integer" true false false None;
      mkColumn "note" "text" false false false (Some "it's \; # --")]);
   Statement.CreateIndex "by_note" "us`ers" "note" true].

Definition tricky_sql : string := Eval vm_compute in
  match compile_migration "mysql" tricky_source with Ok sql => sql | _ => "" end.

Lemma tricky_utf8 : utf8_string tricky_source.
Proof. eexists. vm_compute. reflexivity. Qed.

Lemma tricky_plain a : Forall (plain_types a) tricky_statements.
Proof.
  repeat (apply list.Forall_cons; split); try done; try (by constructor); apply (bool_decide_unpack _); destruct a; by vm_compute.
Qed.

Lemma migration_reads_witness :
  compile_migration "mysql" tricky_source = Ok tricky_sql /\
  read_sql SqlAdapter.Mysql Plain (text_of tricky_sql) = Some (script_items SqlAdapter.Mysql tricky_statements) /\
  settles (compile_migration "mysql" tricky_source) (fun sql =>
    exists a ss, adapter_from_name "mysql" = Ok a /\ migration_statements tricky_source = Ok ss /\
      ss <> [] /\ Forall valid_statement ss /\ unmixed ss /\
      (Forall (plain_types a) ss ->
       read_sql a Plain (text_of sql) = Some (script_items a ss) /\
       Forall (fun st => Char 59%N ∉ parts_items (statement_parts a st)) ss)).
Proof.
  split; [vm_compute; reflexivity|]. split; [vm_compute; reflexivity|]. exact (migration_reads "mysql" tricky_source tricky_utf8).
Defined.

Lemma migration_is_a_batch_witness :
  migration_statements tricky_source = Ok tricky_statements /\
  exists texts, split_mysql_batch (E:=unit) tricky_sql = Ok texts /\
    Forall2 (fun st t => render_statement SqlAdapter.Mysql st = Ok (t ++ ";" ++ lf)%string) tricky_statements texts.
Proof.
  split; [vm_compute; reflexivity|].
  exact (migration_is_a_batch unit "mysql" tricky_source tricky_sql tricky_statements tricky_utf8 eq_refl
           ltac:(vm_compute; reflexivity) ltac:(vm_compute; reflexivity) (tricky_plain _)).
Defined.

Definition tricky_tokens : list Token := Eval vm_compute in match lex tricky_source with Ok ts => ts | _ => [] end.

Lemma tricky_valid : Forall valid_statement tricky_statements /\ unmixed tricky_statements.
Proof.
  destruct (statements_valid tricky_source tricky_statements tricky_utf8 ltac:(vm_compute; reflexivity)) as (_ & H1 & H2). by split.
Qed.

Lemma statements_can_be_written_witness :
  compile_migration "mysql" tricky_source = Ok tricky_sql /\
  migration_statements tricky_source = Ok tricky_statements /\
  forall adapter a, adapter_from_name adapter = Ok a -> compile_migration adapter tricky_source = render_sql a tricky_statements.
Proof.
  split; [vm_compute; reflexivity|].
  exact (statements_can_be_written tricky_source tricky_tokens tricky_statements ltac:(vm_compute; reflexivity) ltac:(vm_compute; reflexivity)
           (fun H => ltac:(discriminate H)) (proj1 tricky_valid) (proj2 tricky_valid)).
Defined.

(** The number sign starts a comment in MySQL, and the check of types lets it
    through: the declared NOT NULL is in the comment, and nothing reads. *)
Example mysql_type_comment :
  let source := (dsl_string "t" ++ " table_create " ++ dsl_string "c" ++ " " ++ dsl_string "integer #" ++ " column not_null")%string in
  let sql := ("create table `t` (" ++ lf ++ "  `c` integer # not null" ++ lf ++ ");" ++ lf)%string in
  compile_migration "mysql" source = Ok sql /\ read_sql SqlAdapter.Mysql Plain (text_of sql) = None.
Proof. by vm_compute. Qed.
