(* ===== verification/MigrationRun.v ===== *)
(** * Running migrations

    The migrations of a project in [crates/ricochet_cli/src/lib.rs]: the files
    of db/migrations, their versions, and the commands new, status, apply and
    rollback for SQLite, each of whose steps is one transaction.

    The driver is the interface [MigrationSqlite].  The state has the database
    on the disk and the version of it that an open transaction sees; a script
    is run on both, so it may also end the transaction that it is run in, and
    may turn out differently from run to run.  Packaged programs, which may be
    started together, are processes of indivisible actions ([process]), that
    others may act between.

    The theorems are at the end of the file: what is found
    ([discovered_migrations_are_the_files]), what runs that stop and are
    started again leave ([stopped_runs_go_on]), and programs that start
    together ([concurrent_launches_apply_once]). *)

From stdpp Require Import base tactics list strings option numbers relations.
From Stdlib Require Import ZArith NArith Lia Ascii String Sorted.
From S2P Require Import Prelude RustStr RustText RustPath BTree Syntax Lexer Migration.

Open Scope string_scope.
Open Scope list_scope.
Open Scope nat_scope.

(** ** Errors *)

(** [anyhow::Error]: the outermost context first, down to a text or an error
    of the migration language. *)
Inductive run_cause : Type := RunText (m : msg) | DslFailure (e : MigrationError).
Definition run_error : Type := list run_cause.
Abbreviation run_result := (res run_error).

Definition run_refuse {A : Type} (m : msg) : run_result A := Err [RunText m].

(** [.with_context(..)] on an error of a library. *)
Definition called {A : Type} (m : msg) (r : A + msg) : run_result A :=
  match r with inl a => Ok a | inr e => Err [RunText m; RunText e] end.

Definition uncalled {A : Type} (r : A + msg) : run_result A := match r with inl a => Ok a | inr e => Err [RunText e] end.

Definition in_context {A : Type} (m : msg) (r : run_result A) : run_result A := rmap_err (cons (RunText m)) r.

Definition required {A : Type} (m : msg) (o : option A) : run_result A := match o with Some a => Ok a | None => run_refuse m end.

(** ** The files of a project *)

Module MigrationFileKind.
Inductive MigrationFileKind : Type := Sql | RicochetDsl.
End MigrationFileKind.
Abbreviation MigrationFileKind := MigrationFileKind.MigrationFileKind.

Module MigrationDirection.
Inductive MigrationDirection : Type := Up | Down.
End MigrationDirection.
Abbreviation MigrationDirection := MigrationDirection.MigrationDirection.

#[export] Instance MigrationDirection_eq_dec : EqDecision MigrationDirection.
Proof. solve_decision. Defined.

Record MigrationSource : Type := mkMigrationSource { source_path : string; source_kind : MigrationFileKind }.
Record MigrationFile : Type := mkMigrationFile { file_version : string; up_source : MigrationSource; down_source : option MigrationSource }.
Record MigrationDatabase : Type := mkMigrationDatabase { database_adapter : string; database_url : string }.

(** [path.file_stem()] *)
Definition file_stem (p : string) : option string :=
  name ← file_name p;
  match rsplit_file_at_dot name with (Some before, _) => Some before | (None, after) => after end.

Definition file_kind (path : string) : option MigrationFileKind :=
  match to_ascii_lowercase <$> extension path with
  | Some e =>
      if String.eqb e "sql" then Some MigrationFileKind.Sql else if String.eqb e "rco" then Some MigrationFileKind.RicochetDsl else None
  | None => None
  end.

Definition migration_source_for_path (path : string) : run_result (option (string * MigrationDirection * MigrationSource)) :=
  match file_kind path with
  | None => Ok None
  | Some kind =>
      let? stem := required [Lit "migration file name must be UTF-8"] (file_stem path) in
      let? r :=
        match strip_suffix ".down" stem with
        | Some version => Ok (version, MigrationDirection.Down)
        | None =>
            match strip_suffix ".up" stem, kind with
            | Some version, _ => Ok (version, MigrationDirection.Up)
            | None, MigrationFileKind.Sql => Ok (stem, MigrationDirection.Up)
            | None, MigrationFileKind.RicochetDsl =>
                run_refuse [Lit "Ricochet migration DSL files must use .up.rco or .down.rco: "; Disp path]
            end
        end in
      Ok (Some (r, mkMigrationSource path kind))
  end.

(** A character that is not ASCII is none of these. *)
Definition version_char (b : byte) : bool := is_ascii_alphanumeric b || Ascii.eqb b "_" || Ascii.eqb b "-".

Definition validate_migration_version (version path : string) : run_result unit :=
  if String.eqb version "" || negb (forallb version_char (as_bytes version)) then
    run_refuse [Lit "migration file name must contain only letters, digits, '_' or '-': "; Disp path]
  else Ok tt.

(** *** What is found *)

Record Discovered : Type := mkDiscovered { up_sources : btree MigrationSource; down_sources : btree MigrationSource }.

Definition add_source (version : string) (direction : MigrationDirection) (source : MigrationSource) (d : Discovered) : run_result Discovered :=
  match direction with
  | MigrationDirection.Up =>
      match bt_get version (up_sources d) with
      | Some existing => run_refuse [Lit "duplicate migration for version "; Disp version; Lit ": "; Disp (source_path existing)]
      | None => Ok (mkDiscovered (bt_insert version source (up_sources d)) (down_sources d))
      end
  | MigrationDirection.Down =>
      match bt_get version (down_sources d) with
      | Some existing => run_refuse [Lit "duplicate down migration for version "; Disp version; Lit ": "; Disp (source_path existing)]
      | None => Ok (mkDiscovered (up_sources d) (bt_insert version source (down_sources d)))
      end
  end.

Fixpoint discover_entries (dir : string) (entries : list (string + msg)) (d : Discovered) : run_result Discovered :=
  match entries with
  | [] => Ok d
  | entry :: entries' =>
      let? path := called [Lit "failed to read entry in "; Disp dir] entry in
      let? found := migration_source_for_path path in
      match found with
      | None => discover_entries dir entries' d
      | Some (version, direction, source) =>
          let? _ := validate_migration_version version path in
          let? d := add_source version direction source d in
          discover_entries dir entries' d
      end
  end.

(** The up migrations with their down migrations, and those that are left. *)
Fixpoint pair_sources (ups downs : btree MigrationSource) : list MigrationFile * btree MigrationSource :=
  match ups with
  | [] => ([], downs)
  | (version, source) :: ups' =>
      let r := pair_sources ups' (bt_remove version downs) in
      (mkMigrationFile version source (bt_get version downs) :: r.1, r.2)
  end.

Section Files.
Context `{FileSystem}.

Definition migrations_dir (project_root : string) : string := join (join project_root "db") "migrations".

Definition discover_migrations (project_root : string) : run_result (list MigrationFile) :=
  let dir := migrations_dir project_root in
  if negb (is_dir dir) then Ok []
  else
    let? entries := called [Lit "failed to read "; Disp dir] (read_dir dir) in
    let? d := discover_entries dir entries (mkDiscovered [] []) in
    let r := pair_sources (up_sources d) (down_sources d) in
    match r.2 with
    | [] => Ok r.1
    | (version, source) :: _ =>
        run_refuse [Lit "down migration "; Disp version; Lit " has no matching up migration: "; Disp (source_path source)]
    end.

Definition migration_sql (source : MigrationSource) (database : MigrationDatabase) : run_result string :=
  let? contents := called [Lit "failed to read "; Disp (source_path source)] (read_to_string (source_path source)) in
  match source_kind source with
  | MigrationFileKind.Sql => Ok contents
  | MigrationFileKind.RicochetDsl =>
      in_context [Lit "failed to compile "; Disp (source_path source)]
        (rmap_err (fun e => [DslFailure e]) (compile_migration (database_adapter database) contents))
  end.
End Files.

Definition sqlite_database_path (project_root url : string) : string := if is_absolute url then url else join project_root url.

(** ** New migrations *)

(** A character of a name: a letter in lower case, a digit, or a separator. *)
Definition slug_char (c : char) : byte :=
  if (c <? 128)%N then
    let b := ascii_of_N c in
    if is_ascii_uppercase b then ascii_of_N (c + 32) else if is_ascii_lowercase b || is_ascii_digit b || Ascii.eqb b "-" then b else "_"%char
  else "_"%char.

Definition is_separator (b : byte) : bool := Ascii.eqb b "_" || Ascii.eqb b "-".

(** Separators neither begin a slug nor follow each other. *)
Fixpoint slug_from (slug : list byte) (last_was_separator : bool) (cs : list char) : list byte :=
  match cs with
  | [] => slug
  | c :: cs' =>
      let next := slug_char c in
      if is_separator next then
        if (match slug with [] => true | _ => false end) || last_was_separator then slug_from slug last_was_separator cs'
        else slug_from (slug ++ [next]) true cs'
      else slug_from (slug ++ [next]) false cs'
  end.

Fixpoint drop_separators (l : list byte) : list byte :=
  match l with
  | b :: l' => if is_separator b then drop_separators l' else l
  | [] => []
  end.

Definition migration_name_slug (name : string) : run_result string :=
  let? trimmed := trim name in
  let? cs := chars trimmed in
  match reverse (drop_separators (reverse (slug_from [] false cs))) with
  | [] => run_refuse [Lit "migration name must contain at least one letter or digit"]
  | slug => Ok (from_bytes slug)
  end.

Definition migration_sql_template : string := "-- Write migration SQL here." ++ line_feed.
Definition migration_dsl_up_template : string :=
  "(( Write migration DSL here. Example:" ++ line_feed ++ dsl_string "items" ++ " table_create" ++ line_feed
  ++ dsl_string "id" ++ " " ++ dsl_string "integer" ++ " column primary_key" ++ line_feed ++ "))" ++ line_feed.
Definition migration_dsl_down_template : string :=
  "(( Write rollback DSL here. Example:" ++ line_feed ++ dsl_string "items" ++ " table_drop" ++ line_feed ++ "))" ++ line_feed.

(** The files that [migrate_new] creates. *)
Definition new_migration_files (dir version : string) (dsl : bool) : list (string * string) :=
  if dsl then [(join dir (version ++ ".up.rco"), migration_dsl_up_template); (join dir (version ++ ".down.rco"), migration_dsl_down_template)]
  else [(join dir (version ++ ".sql"), migration_sql_template)].

Section New.
Context `{PathExists}.

(** What goes wrong when the directory is created, and when a file is created
    and written. *)
Context (directory_failure : option msg) (write_failure : string -> option (msg * msg)).

Fixpoint ensure_new_paths (l : list (string * string)) : run_result unit :=
  match l with
  | [] => Ok tt
  | (path, _) :: l' => if path_exists path then run_refuse [Lit "migration file already exists: "; Disp path] else ensure_new_paths l'
  end.

(** The state holds what was written and what was printed. *)
Fixpoint write_new_files (l : list (string * string)) : smethod (list (string * string)) run_error unit :=
  match l with
  | [] => mok tt
  | (path, contents) :: l' =>
      match write_failure path with
      | Some (what, e) => mtry (Err [RunText what; RunText e])
      | None =>
          let^ _ := mset (fun files => files ++ [(path, contents)]) in
          write_new_files l'
      end
  end.

Definition migrate_new (timestamp dir name : string) (dsl : bool) : smethod (list (string * string)) run_error (list string) :=
  let^ _ := mtry (match directory_failure with Some e => Err [RunText [Lit "failed to create "; Disp dir]; RunText e] | None => Ok tt end) in
  let^ slug := mtry (migration_name_slug name) in
  let files := new_migration_files dir (timestamp ++ "_" ++ slug) dsl in
  let^ _ := mtry (ensure_new_paths files) in
  let^ _ := write_new_files files in
  mok files.*1.
End New.

(** ** The database *)

(** What the commands use of rusqlite.  A connection sees the database on the
    disk or, in a transaction, its own version of it; a script is run on both,
    for it may end the transaction, begin others and work outside of them.  The
    first argument of [execute_batch] is what fails, if anything does, that only
    the disk or other processes decide; it gives both versions and the error. *)
Class MigrationSqlite (Db : Type) : Type := {
  create_versions_table : Db -> Db + msg;
  versions_table_exists : Db -> bool + msg;
  prepare_versions : Db -> unit + msg;
  select_versions : Db -> list string + msg;
  version_recorded : Db -> string -> bool + msg;
  execute_batch : option msg -> string -> Db -> option Db -> Db * option Db * option msg;
  insert_version : Db -> string -> string -> Db + msg;
  delete_version : Db -> string -> Db + msg }.

Section Run.
Context {Db : Type} `{MigrationSqlite Db}.

(** The database on the disk, the version of the transaction that is open,
    what was printed, and what the operations to come fail with that only the
    disk or other processes decide. *)
Record RunState : Type := mkRunState { committed : Db; open_ : option Db; printed : list msg; failures : list (option msg) }.

Abbreviation runner := (smethod RunState run_error).

Definition set_databases (d : Db) (o : option Db) (s : RunState) : RunState := mkRunState d o (printed s) (failures s).

(** Whether the next operation fails. *)
Definition next_failure : runner (option msg) := fun s =>
  (Ok (mjoin (head (failures s))), mkRunState (committed s) (open_ s) (printed s) (tail (failures s))).

Definition operation (m : msg) : runner unit :=
  let^ failure := next_failure in
  mtry (match failure with Some e => Err [RunText m; RunText e] | None => Ok tt end).

(** One without a context of its own. *)
Definition plain_operation : runner unit :=
  let^ failure := next_failure in
  mtry (match failure with Some e => Err [RunText e] | None => Ok tt end).

Definition println (m : msg) : runner unit := mset (fun s => mkRunState (committed s) (open_ s) (printed s ++ [m]) (failures s)).

(** What the connection sees, and a statement that changes it: outside of a
    transaction it is durable. *)
Definition seen (s : RunState) : Db := default (committed s) (open_ s).

Definition change (d : Db) (s : RunState) : RunState :=
  match open_ s with Some _ => set_databases (committed s) (Some d) s | None => set_databases d None s end.

Definition statement (m : msg) (f : Db -> Db + msg) : runner unit :=
  let^ _ := operation m in
  let^ s := mself in
  let^ d := mtry (called m (f (seen s))) in
  mset (change d).

Definition run_script (m : msg) (sql : string) : runner unit :=
  let^ failure := next_failure in
  fun s =>
    let '(d, o, error) := execute_batch failure sql (committed s) (open_ s) in
    (match error with Some e => Err [RunText m; RunText e] | None => Ok tt end, set_databases d o s).

Definition commit_open (m : msg) : runner unit :=
  let^ _ := operation m in
  fun s => match open_ s with
           | Some d => (Ok tt, set_databases d None s)
           | None => (Err [RunText m; RunText [Lit "cannot commit - no transaction is active"]], s)
           end.

(** A transaction: when its work or its commit fails, it is dropped, and rolled
    back if it is still open. *)
Definition transaction {A : Type} (start : msg) (commit : A -> msg) (work : runner A) : runner A :=
  let^ _ := operation start in
  let^ _ := mset (fun s => set_databases (committed s) (Some (committed s)) s) in
  fun s =>
    let '(r, s') := (let^ a := work in let^ _ := commit_open (commit a) in mok a) s in
    (r, set_databases (committed s') None s').

Definition version_set (l : list string) : btree unit := foldl (fun m v => bt_insert v tt m) [] l.

Definition sqlite_applied_migrations : runner (btree unit) :=
  let^ _ := operation [Lit "failed to read schema_migrations"] in
  let^ s := mself in
  let^ _ := mtry (called [Lit "failed to read schema_migrations"] (prepare_versions (seen s))) in
  let^ _ := plain_operation in
  let^ l := mtry (uncalled (select_versions (seen s))) in
  mok (version_set l).

Definition ensure_schema_migrations_table : runner unit :=
  statement [Lit "failed to create schema_migrations table"] create_versions_table.

(** *** Applying *)

Context `{FileSystem} (timestamp : string -> string).

Definition apply_migration (version sql : string) : runner unit :=
  let^ _ := run_script [Lit "failed to apply migration "; Disp version] sql in
  statement [Lit "failed to record migration "; Disp version] (fun d => insert_version d version (timestamp version)).

Fixpoint apply_pending (database : MigrationDatabase) (applied : btree unit) (applied_count : N) (migrations : list MigrationFile) : runner N :=
  match migrations with
  | [] => mok applied_count
  | m :: rest =>
      let version := file_version m in
      if bt_contains_key version applied then apply_pending database applied applied_count rest
      else
        let^ sql := mtry (in_context [Lit "failed to prepare migration "; Disp version] (migration_sql (up_source m) database)) in
        let^ _ := transaction [Lit "failed to start migration "; Disp version] (fun _ => [Lit "failed to commit migration "; Disp version])
                    (apply_migration version sql) in
        let^ _ := println [Lit "applied "; Disp version] in
        apply_pending database (bt_insert version tt applied) (applied_count + 1) rest
  end.

Definition print_migration_apply_summary (applied_count : N) : runner unit :=
  if (applied_count =? 0)%N then println [Lit "No pending migrations."]
  else println [Lit "Applied "; DispN applied_count; Lit " migration(s)."].

Definition create_parent (database_path : string) : runner unit :=
  match parent database_path with Some dir => operation [Lit "failed to create "; Disp dir] | None => mok tt end.

Definition open_database (database_path : string) : runner unit :=
  let^ _ := create_parent database_path in
  operation [Lit "failed to open "; Disp database_path].

Definition migrate_apply_sqlite (project_root : string) (database : MigrationDatabase) (migrations : list MigrationFile) : runner unit :=
  let^ _ := open_database (sqlite_database_path project_root (database_url database)) in
  let^ _ := ensure_schema_migrations_table in
  let^ applied := sqlite_applied_migrations in
  let^ count := apply_pending database applied 0 migrations in
  print_migration_apply_summary count.

(** *** Programs that start together

    Other processes act on the database between the operations of a packaged
    program, but not within a transaction, which is immediate: the program is
    the process of its indivisible actions. *)
#[warnings="-register-all"]
Inductive process (A : Type) : Type :=
  | Ended (r : run_result A)
  | Acts (f : RunState -> process A * RunState).
Arguments Ended {A}.
Arguments Acts {A}.

Fixpoint pthen {A B : Type} (p : process A) (k : A -> process B) : process B :=
  match p with
  | Ended (Ok a) => k a
  | Ended (Err e) => Ended (Err e)
  | Ended Panic => Ended Panic
  | Ended OutOfFuel => Ended OutOfFuel
  | Acts f => Acts (fun s => let '(q, s') := f s in (pthen q k, s'))
  end.

Definition act {A : Type} (m : runner A) : process A := Acts (fun s => let '(r, s') := m s in (Ended r, s')).

#[local] Notation "'let%' x := p 'in' k" := (pthen p (fun x => k)) (at level 10, x pattern, p at level 100, k at level 200).

(** Alone, the actions follow each other. *)
Fixpoint perform {A : Type} (p : process A) (s : RunState) : run_result A * RunState :=
  match p with
  | Ended r => (r, s)
  | Acts f => let '(q, s') := f s in perform q s'
  end.

(** The packaged form looks again in each transaction: what other processes
    did before it is seen. *)
Definition apply_unless_recorded (version sql : string) : runner bool :=
  let^ _ := operation [Lit "failed to check migration "; Disp version] in
  let^ s := mself in
  let^ already_applied := mtry (called [Lit "failed to check migration "; Disp version] (version_recorded (seen s) version)) in
  if already_applied : bool then mok true
  else
    let^ _ := apply_migration version sql in
    mok false.

Definition packaged_commit (version : string) (already_applied : bool) : msg :=
  if already_applied then [Lit "failed to finish migration check "; Disp version] else [Lit "failed to commit migration "; Disp version].

Fixpoint apply_packaged (database : MigrationDatabase) (migrations : list MigrationFile) : process unit :=
  match migrations with
  | [] => Ended (Ok tt)
  | m :: rest =>
      let version := file_version m in
      let% sql := Ended (in_context [Lit "failed to prepare migration "; Disp version] (migration_sql (up_source m) database)) in
      let% _ := act (transaction [Lit "failed to start migration "; Disp version] (packaged_commit version)
                       (apply_unless_recorded version sql)) in
      apply_packaged database rest
  end.

Definition restrict_permissions (database_path : string) : process unit :=
  act (operation [Lit "failed to restrict packaged SQLite permissions on "; Disp database_path]).

(** The file may be there already. *)
Definition ensure_private_packaged_sqlite_file (database_path : string) : process unit :=
  let% _ := act (operation [Lit "failed to create "; Disp database_path]) in
  restrict_permissions database_path.

Definition migrate_apply_packaged_sqlite_at_path (database_path : string) (database : MigrationDatabase) (migrations : list MigrationFile) : process unit :=
  let% _ := act (create_parent database_path) in
  let% _ := ensure_private_packaged_sqlite_file database_path in
  let% _ := act (operation [Lit "failed to open "; Disp database_path]) in
  let% _ := act (operation [Lit "failed to configure SQLite locking for "; Disp database_path]) in
  let% _ := act ensure_schema_migrations_table in
  let% _ := apply_packaged database migrations in
  restrict_permissions database_path.

(** *** Rolling back *)

Definition by_version (migrations : list MigrationFile) : btree MigrationFile :=
  foldl (fun t m => bt_insert (file_version m) m t) [] migrations.

Definition undo_migration (version sql : string) : runner unit :=
  let^ _ := run_script [Lit "failed to roll back migration "; Disp version] sql in
  statement [Lit "failed to forget migration "; Disp version] (fun d => delete_version d version).

Definition down_for (migrations : btree MigrationFile) (version : string) : run_result MigrationSource :=
  let? m := required [Lit "cannot roll back migration "; Disp version; Lit ": no matching migration file found in db/migrations"]
              (bt_get version migrations) in
  required [Lit "cannot roll back migration "; Disp version; Lit ": no down SQL or DSL migration found; add db/migrations/"; Disp version;
            Lit ".down.sql or db/migrations/"; Disp version; Lit ".down.rco"] (down_source m).

Fixpoint rollback_versions (database : MigrationDatabase) (migrations : btree MigrationFile) (rolled_back : N) (versions : list string) : runner N :=
  match versions with
  | [] => mok rolled_back
  | version :: rest =>
      let^ down := mtry (down_for migrations version) in
      let^ sql := mtry (in_context [Lit "failed to prepare rollback "; Disp version] (migration_sql down database)) in
      let^ _ := transaction [Lit "failed to start rollback "; Disp version] (fun _ => [Lit "failed to commit rollback "; Disp version])
                  (undo_migration version sql) in
      let^ _ := println [Lit "rolled back "; Disp version] in
      rollback_versions database migrations (rolled_back + 1) rest
  end.

Definition migrate_rollback_sqlite (project_root : string) (database : MigrationDatabase) (migrations : list MigrationFile) (steps : nat) : runner unit :=
  let database_path := sqlite_database_path project_root (database_url database) in
  if negb (is_file database_path) then mtry (run_refuse [Lit "SQLite database does not exist: "; Disp database_path])
  else
    let^ _ := operation [Lit "failed to open "; Disp database_path] in
    let^ _ := ensure_schema_migrations_table in
    let^ applied := sqlite_applied_migrations in
    match applied with
    | [] => println [Lit "No applied migrations to roll back."]
    | _ =>
        let^ rolled_back := rollback_versions database (by_version migrations) 0 (take steps (reverse (bt_keys applied))) in
        if (rolled_back =? 0)%N then println [Lit "No applied migrations to roll back."]
        else println [Lit "Rolled back "; DispN rolled_back; Lit " migration(s)."]
    end.

(** *** The commands for SQLite *)

Definition sqlite_applied_migrations_if_present (database_path : string) : runner (btree unit) :=
  if negb (is_file database_path) then mok []
  else
    let^ _ := operation [Lit "failed to open "; Disp database_path] in
    let^ _ := plain_operation in
    let^ s := mself in
    let^ exists_ := mtry (uncalled (versions_table_exists (seen s))) in
    if negb exists_ then mok [] else sqlite_applied_migrations.

Definition status_line (applied : btree unit) (m : MigrationFile) : msg :=
  [Lit "["; Disp (if bt_contains_key (file_version m) applied then "x" else " "); Lit "] "; Disp (file_version m)].

Fixpoint print_status (applied : btree unit) (migrations : list MigrationFile) : runner unit :=
  match migrations with
  | [] => mok tt
  | m :: rest => let^ _ := println (status_line applied m) in print_status applied rest
  end.

Definition migrate_status (project_root : string) (database : MigrationDatabase) : runner unit :=
  let^ migrations := mtry (discover_migrations project_root) in
  let target := sqlite_database_path project_root (database_url database) in
  let^ _ := println [Lit "Migrations for "; Disp target] in
  match migrations with
  | [] => println [Lit "No migration files found in db/migrations."]
  | _ =>
      let^ applied := sqlite_applied_migrations_if_present target in
      print_status applied migrations
  end.

Definition migrate_apply (project_root : string) (database : MigrationDatabase) : runner unit :=
  let^ migrations := mtry (discover_migrations project_root) in
  match migrations with
  | [] => println [Lit "No migration files found in db/migrations."]
  | _ => migrate_apply_sqlite project_root database migrations
  end.

Definition migrate_rollback (project_root : string) (database : MigrationDatabase) (steps : nat) : runner unit :=
  if (steps =? 0)%nat then mtry (run_refuse [Lit "rollback --steps must be greater than 0"])
  else
    let^ migrations := mtry (discover_migrations project_root) in
    migrate_rollback_sqlite project_root database migrations steps.
End Run.
Arguments RunState : clear implicits.
Arguments process : clear implicits.
Arguments mkRunState {Db}.
Arguments Ended {Db A}.
Arguments Acts {Db A}.

(** ** What a run leaves *)

Section Laws.
Context {Db : Type} `{MigrationSqlite Db}.

(** The documented behaviour of the statements on the table of versions. *)
Class MigrationSqliteLaws : Prop := {
  created_again d d' : create_versions_table d = inl d' -> create_versions_table d' = inl d';
  inserted_versions d v t d' : create_versions_table d = inl d -> insert_version d v t = inl d' ->
    create_versions_table d' = inl d' /\ forall vs, select_versions d = inl vs -> exists vs', select_versions d' = inl vs' /\ forall x, x ∈ vs' <-> x = v \/ x ∈ vs;
  recorded_version d v b vs : version_recorded d v = inl b -> select_versions d = inl vs -> (b = true <-> v ∈ vs) }.

Variable database : MigrationDatabase.

(** The files of the project, as the runs find them: they may be changed
    between runs. *)
Variable project : FileSystem -> Prop.

(** A script that keeps to the transaction it is run in: whatever fails, it
    changes nothing outside; and the transaction is open when it succeeds. *)
Definition script_inside (sql : string) : Prop := forall failure d w d' o e,
  execute_batch failure sql d (Some w) = (d', o, e) -> d' = d /\ (e = None -> is_Some o).

(** What the script makes of a database, in a transaction. *)
Definition scripted (sql : string) (d d1 : Db) : Prop := exists failure, execute_batch failure sql d (Some d) = (d, Some d1, None).

(** One migration, as a run finds it, with its record. *)
Definition applied_once (m : MigrationFile) (d d2 : Db) : Prop :=
  exists fs sql time d1, project fs /\ @migration_sql fs (up_source m) database = Ok sql /\ scripted sql d d1 /\
    insert_version d1 (file_version m) time = inl d2.

(** The migrations, one after another. *)
Inductive applies : list MigrationFile -> Db -> Db -> Prop :=
  | applies_nil d : applies [] d d
  | applies_cons m ms d d2 d3 : applied_once m d d2 -> applies ms d2 d3 -> applies (m :: ms) d d3.

(** The versions, one after another, each undone by its down migration. *)
Inductive undoes (migrations : list MigrationFile) : list string -> Db -> Db -> Prop :=
  | undoes_nil d : undoes migrations [] d d
  | undoes_cons v vs m down fs sql d d1 d2 d3 :
      m ∈ migrations -> file_version m = v -> down_source m = Some down -> project fs -> @migration_sql fs down database = Ok sql ->
      scripted sql d d1 -> delete_version d1 v = inl d2 -> undoes migrations vs d2 d3 -> undoes migrations (v :: vs) d d3.

Definition pending (recorded : list string) (ms : list MigrationFile) : list MigrationFile :=
  filter (fun m => file_version m ∉ recorded) ms.

Lemma applies_app ms ms' d d1 d2 : applies ms d d1 -> applies ms' d1 d2 -> applies (ms ++ ms') d d2.
Proof. induction 1; intros; [done|]. simpl. econstructor; eauto. Qed.

Lemma applies_one m d d' : applied_once m d d' -> applies [m] d d'.
Proof. intros Ha. econstructor; [exact Ha|constructor]. Qed.

(** *** Methods that may fail *)

(** The databases are kept, whatever the operations to come do. *)
Definition keeps_db {A : Type} (m : smethod (RunState Db) run_error A) : Prop :=
  forall s, committed (m s).2 = committed s /\ open_ (m s).2 = open_ s.

Lemma keeps_db_then {A B : Type} (m : smethod (RunState Db) run_error A) (k : A -> smethod (RunState Db) run_error B) :
  keeps_db m -> (forall a, keeps_db (k a)) -> keeps_db (mthen m k).
Proof.
  intros Hm Hk s. unfold mthen. destruct (Hm s) as [H1 H2]. destruct (m s) as [[a|e| |] s1]; simpl in *; [|done..].
  destruct (Hk a s1) as [H3 H4]. split; congruence.
Qed.

Lemma try_keeps {A : Type} (r : run_result A) : keeps_db (mtry r).
Proof. done. Qed.

Lemma operation_keeps m : keeps_db (operation m).
Proof. by apply keeps_db_then. Qed.

Lemma plain_keeps : keeps_db plain_operation.
Proof. by apply keeps_db_then. Qed.

Lemma println_keeps m : keeps_db (println m).
Proof. done. Qed.

Lemma parent_keeps p : keeps_db (create_parent p).
Proof. unfold create_parent. destruct (parent p); [apply operation_keeps|done]. Qed.

Lemma open_keeps p : keeps_db (open_database p).
Proof. apply keeps_db_then; [apply parent_keeps|intros _; apply operation_keeps]. Qed.

Lemma summary_keeps n : keeps_db (print_migration_apply_summary n).
Proof. unfold print_migration_apply_summary. by destruct (n =? 0)%N. Qed.

(** A step that keeps the databases, before others. *)
Lemma keeps_step {A B : Type} (m : smethod (RunState Db) run_error A) (k : A -> smethod (RunState Db) run_error B) s r s' : keeps_db m ->
  mthen m k s = (r, s') ->
  (committed s' = committed s /\ open_ s' = open_ s /\ forall b, r <> Ok b) \/
  exists a s1, m s = (Ok a, s1) /\ committed s1 = committed s /\ open_ s1 = open_ s /\ k a s1 = (r, s').
Proof.
  intros Hm. unfold mthen. destruct (Hm s) as [H1 H2]. destruct (m s) as [[a|e| |] s1]; simpl in *;
    [intros Hk; right; by exists a, s1|intros [= <- <-]; by left..].
Qed.

Lemma statement_cases m f (s : RunState Db) (r : run_result unit) s' : statement m f s = (r, s') ->
  (committed s' = committed s /\ open_ s' = open_ s /\ forall a, r <> Ok a) \/
  r = Ok tt /\ exists d, f (seen s) = inl d /\ committed s' = committed (change d s) /\ open_ s' = open_ (change d s).
Proof.
  unfold statement. intros [?|([] & s1 & _ & E1 & E2 & Hk)]%keeps_step; [by left| |apply operation_keeps].
  unfold mthen, mself, mtry, called, mset in Hk. assert (seen s1 = seen s) as Es by (unfold seen; by rewrite E1, E2). rewrite Es in Hk.
  destruct (f (seen s)) as [d|e]; injection Hk as <- <-; [|by left]. right. split; [done|]. exists d.
  unfold change. rewrite E2. destruct (open_ s); simpl; by rewrite ?E1.
Qed.

(** A script and the statement on its record, in a transaction. *)
Lemma script_spec m1 sql m2 f (s : RunState Db) (r : run_result unit) s' w : script_inside sql -> open_ s = Some w ->
  (let^ _ := run_script m1 sql in statement m2 f) s = (r, s') ->
  committed s' = committed s /\ forall a, r = Ok a -> exists failure w1 w2,
    execute_batch failure sql (committed s) (Some w) = (committed s, Some w1, None) /\ f w1 = inl w2 /\ open_ s' = Some w2.
Proof.
  intros Hin Ho. unfold mthen at 1, run_script, mthen at 1, next_failure. cbn [committed open_]. rewrite Ho.
  destruct (execute_batch _ sql (committed s) (Some w)) as [[d' o] e] eqn:Ex. destruct (Hin _ _ _ _ _ _ Ex) as [-> Hok].
  destruct e as [e|]; [by intros [= <- <-]|]. destruct (Hok eq_refl) as [w1 ->].
  intros [(E1 & E2 & Hn)|(-> & d & Hf & E1 & E2)]%statement_cases; simpl in *.
  - split; [done|]. intros a ->. by destruct (Hn a).
  - split; [done|]. intros _ _. by eexists _, w1, d.
Qed.

(** A transaction begins with the database on the disk; it is not open
    afterwards, and the disk has what the work left or what it had. *)
Lemma transaction_spec {A : Type} start (commit : A -> msg) work (s : RunState Db) r s' : open_ s = None -> transaction start commit work s = (r, s') ->
  open_ s' = None /\
  ((committed s' = committed s /\ forall a, r <> Ok a) \/
   exists s1 r1 s2, committed s1 = committed s /\ open_ s1 = Some (committed s) /\ work s1 = (r1, s2) /\
     ((committed s' = committed s2 /\ forall a, r <> Ok a) \/ exists a d, r = Ok a /\ r1 = Ok a /\ open_ s2 = Some d /\ committed s' = d)).
Proof.
  intros Ho. unfold transaction. intros [(E1 & E2 & Hn)|([] & s1 & _ & E1 & E2 & Hk)]%keeps_step; [split; [congruence|by left]| |apply operation_keeps].
  unfold mthen at 1, mset in Hk. cbv beta in Hk. set (s2 := set_databases (committed s1) (Some (committed s1)) s1) in Hk.
  destruct ((let^ a := work in let^ _ := commit_open (commit a) in mok a) s2) as [r2 s3] eqn:Ew. injection Hk as <- <-.
  split; [done|]. right. exists s2. unfold mthen at 1 in Ew. destruct (work s2) as [r1 s4] eqn:E4. exists r1, s4.
  split; [done|]. split; [simpl; by rewrite E1|]. split; [done|].
  destruct r1 as [a|e| |]; [|injection Ew as <- <-; by left..].
  unfold commit_open in Ew. unfold mthen at 1 in Ew. unfold mthen at 1 in Ew.
  destruct (operation (commit a) s4) as [r5 s5] eqn:E5. destruct (operation_keeps (commit a) s4) as [E6 E7]. rewrite E5 in E6, E7. simpl in E6, E7.
  destruct r5 as [[]|e| |]; [|injection Ew as <- <-; left; simpl; by rewrite E6..]. rewrite E7 in Ew.
  destruct (open_ s4) as [d|] eqn:Eo; injection Ew as <- <-; [|left; simpl; by rewrite E6]. right. by exists a, d.
Qed.

(** A script with its record, in a transaction of its own. *)
Lemma migration_transaction start commit m1 sql m2 f (s : RunState Db) r s' : script_inside sql -> open_ s = None ->
  transaction start commit (let^ _ := run_script m1 sql in statement m2 f) s = (r, s') ->
  open_ s' = None /\
  ((committed s' = committed s /\ forall a, r <> Ok a) \/ r = Ok tt /\ exists d1, scripted sql (committed s) d1 /\ f d1 = inl (committed s')).
Proof.
  intros Hin Ho Ht. destruct (transaction_spec _ _ _ _ _ _ Ho Ht) as [Ho' [?|(s1 & r1 & s2 & E1 & E2 & Hw & Hcase)]]; (split; [done|]); [by left|].
  destruct (script_spec _ _ _ _ _ _ _ _ Hin E2 Hw) as [Ec Hok]. destruct Hcase as [[Es Hn]|([] & d & -> & -> & Eo & Es)]; [left; split; [congruence|done]|].
  right. split; [done|]. destruct (Hok tt eq_refl) as (failure & w1 & w2 & Hx & Hf & Ew). rewrite E1 in Hx. exists w1.
  split; [by exists failure|]. congruence.
Qed.

(** *** Sets of versions *)

Lemma contains_keys {A : Type} v (t : btree A) : bt_contains_key v t = true <-> v ∈ bt_keys t.
Proof.
  unfold bt_contains_key, bt_keys. induction t as [|[k x] t IH]; simpl; [split; [done|by intros ?%elem_of_nil]|].
  rewrite elem_of_cons. destruct (String.eqb_spec v k) as [->|Hne]; [tauto|]. rewrite IH. naive_solver.
Qed.

Lemma insert_keys {A : Type} v k (x : A) t : v ∈ bt_keys (bt_insert k x t) <-> v = k \/ v ∈ bt_keys t.
Proof.
  rewrite <- !contains_keys, !bt_contains_get, bt_get_insert. destruct (String.eqb_spec v k) as [->|Hne]; [|naive_solver].
  split; [by left|]. intros _. by eexists.
Qed.

Lemma version_set_keys l v : v ∈ bt_keys (version_set l) <-> v ∈ l.
Proof.
  unfold version_set. assert (forall t : btree unit, v ∈ bt_keys (foldl (fun m v => bt_insert v tt m) t l) <-> v ∈ l \/ v ∈ bt_keys t) as Hall.
  { induction l as [|x l IH]; intros t; simpl; [split; [by right|by intros [?%elem_of_nil|?]]|]. rewrite IH, insert_keys, elem_of_cons. tauto. }
  rewrite Hall. simpl. split; [by intros [?|?%elem_of_nil]|by left].
Qed.

Lemma version_set_wf l : bt_wf (version_set l).
Proof.
  unfold version_set. assert (bt_wf (@nil (string * unit))) as Hw by constructor. revert Hw. generalize (@nil (string * unit)).
  induction l as [|x l IH]; intros t Ht; simpl; [done|]. by apply IH, bt_insert_wf.
Qed.

Definition unapplied (applied : btree unit) (ms : list MigrationFile) : list MigrationFile :=
  filter (fun m => file_version m ∉ bt_keys applied) ms.

Lemma unapplied_insert v applied ms : v ∉ (file_version <$> ms) -> unapplied (bt_insert v tt applied) ms = unapplied applied ms.
Proof.
  unfold unapplied. induction ms as [|m ms IH]; intros Hv; [done|]. rewrite fmap_cons, not_elem_of_cons in Hv. destruct Hv as [Hm Hv].
  rewrite !filter_cons, (IH Hv). assert (file_version m ∉ bt_keys (bt_insert v tt applied) <-> file_version m ∉ bt_keys applied) as Hiff by (rewrite insert_keys; naive_solver).
  repeat case_decide; tauto.
Qed.

Lemma unapplied_pending l ms : unapplied (version_set l) ms = pending l ms.
Proof. unfold unapplied, pending. apply list_filter_iff. intros m. by rewrite version_set_keys. Qed.

(** *** A run *)

Lemma ensure_table_cases (s : RunState Db) r s' : open_ s = None -> ensure_schema_migrations_table s = (r, s') ->
  open_ s' = None /\
  ((committed s' = committed s /\ forall a, r <> Ok a) \/ r = Ok tt /\ create_versions_table (committed s) = inl (committed s')).
Proof.
  intros Ho [(E1 & E2 & Hn)|(-> & d & Hc & E1 & E2)]%statement_cases; [split; [congruence|by left]|].
  unfold change, seen in *. rewrite Ho in *. simpl in *. split; [done|]. right. split; [done|]. congruence.
Qed.

(** The versions that are recorded, if they can be read. *)
Lemma applied_cases (s : RunState Db) r s' : open_ s = None -> sqlite_applied_migrations s = (r, s') ->
  committed s' = committed s /\ open_ s' = None /\ forall t, r = Ok t -> exists vs, select_versions (committed s) = inl vs /\ t = version_set vs.
Proof.
  intros Ho. unfold sqlite_applied_migrations. intros [(E1 & E2 & Hn)|([] & s1 & _ & E1 & E2 & Hk)]%keeps_step; [| |apply operation_keeps].
  { split; [done|]. split; [congruence|]. intros t ->. by destruct (Hn t). }
  unfold mthen at 1, mself in Hk. assert (seen s1 = committed s) as Es by (unfold seen; by rewrite E2, Ho, E1). rewrite Es in Hk.
  unfold mthen at 1, mtry, called in Hk. destruct (prepare_versions (committed s)); [|injection Hk as <- <-; split; [done|]; split; [congruence|done]].
  apply keeps_step in Hk as [(E3 & E4 & Hn)|([] & s2 & _ & E3 & E4 & Hk)]; [| |apply plain_keeps].
  { split; [congruence|]. split; [congruence|]. intros t ->. by destruct (Hn t). }
  unfold mthen, mtry, uncalled, mok in Hk. destruct (select_versions (committed s)) as [vs|e] eqn:Ev; injection Hk as <- <-;
    (split; [congruence|]; split; [congruence|]); [|done]. intros t [= <-]. by exists vs.
Qed.

Section runs.
Context (fs : FileSystem) (timestamp : string -> string) (ms : list MigrationFile).
Hypothesis scripts_inside : forall m sql, m ∈ ms -> @migration_sql fs (up_source m) database = Ok sql -> script_inside sql.
Hypothesis in_project : project fs.

Lemma apply_pending_prefix l applied n s r s' : NoDup (file_version <$> l) -> (forall m, m ∈ l -> m ∈ ms) -> open_ s = None ->
  apply_pending timestamp database applied n l s = (r, s') ->
  open_ s' = None /\ exists done_ rest, unapplied applied l = done_ ++ rest /\ applies done_ (committed s) (committed s') /\ (forall k, r = Ok k -> rest = []).
Proof using scripts_inside in_project.
  revert applied n s. induction l as [|m l IH]; intros applied n s Hnd Hms Ho; simpl.
  - intros [= <- <-]. split; [done|]. exists [], []. repeat split. constructor.
  - apply list.NoDup_cons in Hnd as [Hm Hnd]. unfold unapplied. rewrite filter_cons. fold (unapplied applied l).
    destruct (bt_contains_key (file_version m) applied) eqn:E.
    { apply contains_keys in E. rewrite decide_False by tauto. apply IH; [done| |done]. intros x Hx. apply Hms. by right. }
    rewrite decide_True by (intros Hk%contains_keys; congruence).
    assert (forall (r' : run_result N) s1, committed s1 = committed s -> open_ s1 = None -> (forall k, r' <> Ok k) -> (r', s1) = (r, s') -> open_ s' = None /\
      exists done_ rest, m :: unapplied applied l = done_ ++ rest /\ applies done_ (committed s) (committed s') /\ (forall k, r = Ok k -> rest = [])) as Hstop.
    { intros r' s1 Hs Ho1 Hr' [= <- <-]. split; [done|]. exists [], (m :: unapplied applied l). rewrite Hs. split; [done|]. split; [constructor|]. intros k Hk. by destruct (Hr' k). }
    unfold mthen at 1, mtry. destruct (migration_sql (up_source m) database) as [sql|e| |] eqn:Esql; simpl; [|by apply Hstop..].
    unfold mthen at 1. destruct (transaction _ _ _ s) as [r1 s1] eqn:Et.
    apply migration_transaction in Et as [Ho1 [[Ed Hr]|(-> & d1 & Hsc & Hins)]]; [| |by apply (scripts_inside m), Esql; apply Hms; left|done].
    { destruct r1 as [a|e| |]; [by destruct (Hr a)|..]; by apply Hstop. }
    intros Hk. apply IH in Hk as [Hos (done_ & rest & Hu & Ha & Hr)]; [|done|intros x Hx; apply Hms; by right|done].
    split; [done|]. rewrite unapplied_insert in Hu by done. exists (m :: done_), rest. rewrite Hu. split; [done|]. split; [|done].
    econstructor; [|exact Ha]. by exists fs, sql, (timestamp (file_version m)), d1.
Qed.

(** Where a run can stop: before it reads the versions, or after some of the
    migrations that are not recorded, in order. *)
Lemma apply_sqlite_cases project_root s r s' : NoDup (file_version <$> ms) -> open_ s = None ->
  migrate_apply_sqlite timestamp project_root database ms s = (r, s') ->
  open_ s' = None /\
  ((committed s' = committed s \/ create_versions_table (committed s) = inl (committed s')) /\ (forall a, r <> Ok a)
   \/ exists d0 vs done_ rest, create_versions_table (committed s) = inl d0 /\ select_versions d0 = inl vs /\ pending vs ms = done_ ++ rest
      /\ applies done_ d0 (committed s') /\ (forall a, r = Ok a -> rest = [])).
Proof using scripts_inside in_project.
  intros Hnd Ho. unfold migrate_apply_sqlite. intros [(E1 & E2 & Hr)|([] & s1 & _ & E1 & E2 & Hk)]%keeps_step; [split; [congruence|by left; split; [left|]]| |apply open_keeps].
  unfold mthen at 1 in Hk. destruct (ensure_schema_migrations_table s1) as [r2 s2] eqn:Ee. apply ensure_table_cases in Ee as [Ho2 Ee]; [|congruence].
  destruct Ee as [[E3 Hr]|[-> Hc]].
  { destruct r2 as [a|e| |]; [by destruct (Hr a)|..]; injection Hk as <- <-; (split; [done|left; split; [left; congruence|done]]). }
  rewrite E1 in Hc. unfold mthen at 1 in Hk. destruct (sqlite_applied_migrations s2) as [r3 s3] eqn:Ea.
  apply applied_cases in Ea as (E4 & Ho3 & Hok); [|done].
  destruct r3 as [t|e| |]; [|injection Hk as <- <-; (split; [done|left; split; [right; congruence|done]])..].
  destruct (Hok t eq_refl) as (vs & Hv & ->). unfold mthen at 1 in Hk.
  destruct (apply_pending timestamp database (version_set vs) 0 ms s3) as [r4 s4] eqn:Ep.
  apply apply_pending_prefix in Ep as [Ho4 (done_ & rest & Hu & Ha & Hr)]; [|done..]. rewrite unapplied_pending in Hu.
  assert (committed s' = committed s4 /\ open_ s' = None /\ ((exists k, r4 = Ok k) \/ forall a, r <> Ok a)) as (E5 & Ho5 & Hres).
  { destruct r4 as [k|e| |]; [|injection Hk as <- <-; split_and!; [done..|by right]..].
    destruct (summary_keeps k s4) as [E5 E6]. rewrite Hk in E5, E6. simpl in *. split_and!; [done|congruence|by left; eexists]. }
  split; [done|]. right. exists (committed s2), vs, done_, rest. split; [done|]. split; [done|]. split; [done|]. split; [by rewrite E5, <- E4|].
  intros a ->. destruct Hres as [[k ->]|Hn]; [by apply (Hr k)|by destruct (Hn a)].
Qed.
End runs.

(** *** Runs that are repeated *)

(** A script that leaves the table of versions alone. *)
Definition versions_untouched (sql : string) : Prop := forall d d1, scripted sql d d1 ->
  select_versions d1 = select_versions d /\ (create_versions_table d = inl d -> create_versions_table d1 = inl d1).

Context (laws : MigrationSqliteLaws) (project_root : string) (ms : list MigrationFile).
Hypothesis ms_unique : NoDup (file_version <$> ms).

(** Whatever the files of the project are, no migration ends its transaction
    or touches the table of versions. *)
Hypothesis scripts_behave : forall fs m sql, project fs -> m ∈ ms -> @migration_sql fs (up_source m) database = Ok sql ->
  script_inside sql /\ versions_untouched sql.

Lemma applies_versions done_ d d' : applies done_ d d' -> (forall m, m ∈ done_ -> m ∈ ms) -> create_versions_table d = inl d ->
  create_versions_table d' = inl d' /\ forall vs, select_versions d = inl vs ->
    exists vs', select_versions d' = inl vs' /\ forall x, x ∈ vs' <-> x ∈ vs \/ x ∈ (file_version <$> done_).
Proof.
  induction 1 as [d|m done_ d d2 d3 (fs & sql & time & d1 & Hfs & Hsql & H1 & H2) _ IH]; intros Hin Hc.
  { split; [done|]. intros vs Hv. exists vs. split; [done|]. intros x. simpl. rewrite elem_of_nil. tauto. }
  destruct (scripts_behave fs m sql Hfs (Hin m (list_elem_of_here _ _)) Hsql) as [_ Hun]. destruct (Hun d d1 H1) as [Hs1 Hc1]. specialize (Hc1 Hc).
  destruct (inserted_versions d1 (file_version m) time d2 Hc1 H2) as [Hc2 Hs2]. destruct IH as [Hc3 Hs3]; [intros x Hx; apply Hin; by right|done|].
  split; [done|]. intros vs Hv. rewrite <- Hs1 in Hv. destruct (Hs2 vs Hv) as (vs2 & Hv2 & He2). destruct (Hs3 vs2 Hv2) as (vs3 & Hv3 & He3).
  exists vs3. split; [done|]. intros x. rewrite He3, He2, fmap_cons, elem_of_cons. tauto.
Qed.

Lemma filter_all {A : Type} (P : A -> Prop) `{!forall x, Decision (P x)} l : Forall P l -> filter P l = l.
Proof. induction 1 as [|x l Hx _ IH]; [done|]. by rewrite filter_cons, decide_True, IH. Qed.

Lemma filter_none {A : Type} (P : A -> Prop) `{!forall x, Decision (P x)} l : Forall (fun x => ~ P x) l -> filter P l = [].
Proof. induction 1 as [|x l Hx _ IH]; [done|]. by rewrite filter_cons, decide_False, IH. Qed.

Lemma pending_unique vs l : NoDup (file_version <$> l) -> NoDup (file_version <$> pending vs l).
Proof.
  unfold pending. induction l as [|m l IH]; [done|]. rewrite fmap_cons, list.NoDup_cons. intros [Hm Hl]. rewrite filter_cons.
  case_decide; [|by apply IH]. rewrite fmap_cons, list.NoDup_cons. split; [|by apply IH].
  intros (x & Ex & Hx)%list_elem_of_fmap. apply list_elem_of_filter in Hx as [_ Hx]. apply Hm. rewrite Ex. by apply list_elem_of_fmap_2.
Qed.

Lemma pending_rest vs vs' done_ rest : pending vs ms = done_ ++ rest -> (forall x, x ∈ vs' <-> x ∈ vs \/ x ∈ (file_version <$> done_)) ->
  pending vs' ms = rest.
Proof.
  intros Hp Hv. assert (pending vs' ms = filter (fun m => file_version m ∉ (file_version <$> done_)) (pending vs ms)) as ->.
  { unfold pending. rewrite list_filter_filter. apply list_filter_iff. intros m. rewrite Hv. tauto. }
  assert (NoDup (file_version <$> (done_ ++ rest))) as Hnd.
  { rewrite <- Hp. by apply pending_unique. }
  rewrite Hp, list.filter_app. rewrite fmap_app in Hnd. apply list.NoDup_app in Hnd as (_ & Hd & _).
  rewrite filter_none, filter_all; [done| |].
  - apply list.Forall_forall. intros m Hm Hin. apply (Hd _ Hin). by apply list_elem_of_fmap_2.
  - apply list.Forall_forall. intros m Hm Hn. apply Hn. by apply list_elem_of_fmap_2.
Qed.

Lemma done_in_ms vs done_ rest m : pending vs ms = done_ ++ rest -> m ∈ done_ -> m ∈ ms.
Proof.
  intros Hp Hm. assert (m ∈ pending vs ms) as Hin by (rewrite Hp; apply elem_of_app; by left). by apply list_elem_of_filter in Hin as [_ ?].
Qed.

(** A run, from the database on the disk, whatever files it finds and
    whatever goes wrong, and what it leaves. *)
Definition attempt (d d' : Db) : Prop :=
  exists fs timestamp p l r s', project fs /\ @migrate_apply_sqlite _ _ fs timestamp project_root database ms (mkRunState d None p l) = (r, s') /\ committed s' = d'.

(** One more run, after some of the migrations were done. *)
Lemma run_goes_on fs timestamp p l r s' d0 vs d done_ rest : project fs -> pending vs ms = done_ ++ rest -> create_versions_table d0 = inl d0 ->
  select_versions d0 = inl vs -> applies done_ d0 d ->
  @migrate_apply_sqlite _ _ fs timestamp project_root database ms (mkRunState d None p l) = (r, s') ->
  exists more left_, rest = more ++ left_ /\ applies (done_ ++ more) d0 (committed s') /\ (forall a, r = Ok a -> left_ = []).
Proof.
  intros Hfs Hp Hc0 Hv Ha Hrun.
  apply (apply_sqlite_cases fs timestamp ms) in Hrun as [_ Hcase]; [|intros m sql Hm Hs; by apply (scripts_behave fs m sql)|done..].
  destruct (applies_versions done_ d0 d Ha) as [Hcx Hsx]; [intros m; by apply (done_in_ms vs done_ rest)|done|].
  destruct Hcase as [[Hd Hn]|(d0' & vs' & done' & rest' & Hc' & Hv' & Hp' & Ha' & Hok)]; simpl in *.
  - exists [], rest. split; [done|]. split; [|intros a ->; by destruct (Hn a)]. rewrite app_nil_r. destruct Hd as [->|Hd]; [done|]. congruence.
  - rewrite Hcx in Hc'. injection Hc' as <-. destruct (Hsx vs Hv) as (vs2 & Hv2 & He). rewrite Hv2 in Hv'. injection Hv' as <-.
    rewrite (pending_rest vs vs2 done_ rest Hp He) in Hp'. exists done', rest'. split; [done|]. split; [by eapply applies_app|done].
Qed.

(** What runs leave before the table of versions is there, and after. *)
Lemma attempts_prefix d0 vs d d1 : create_versions_table d = inl d0 -> select_versions d0 = inl vs -> rtc attempt d d1 ->
  d1 = d \/ exists done_ rest, pending vs ms = done_ ++ rest /\ applies done_ d0 d1.
Proof.
  intros Hc Hv Hr. revert d1 Hr. apply rtc_ind_r; [by left|]. intros x y _ (fs & time & p & l & r & s' & Hfs & Hrun & <-) IH.
  assert (create_versions_table d0 = inl d0) as Hc0 by (by eapply created_again).
  destruct IH as [->|(done_ & rest & Hp & Ha)].
  - apply (apply_sqlite_cases fs time ms) in Hrun as [_ [[Hd _]|(d0' & vs' & done' & rest' & Hc' & Hv' & Hp' & Ha' & _)]]; simpl in *;
      [|by rewrite Hc in Hc'; injection Hc' as <-; rewrite Hv in Hv'; injection Hv' as <-; right; exists done', rest'|intros m sql Hm Hs; by apply (scripts_behave fs m sql)|done..].
    destruct Hd as [->|Hd]; [by left|]. right. exists [], (pending vs ms). split; [done|]. rewrite Hc in Hd. injection Hd as ->. constructor.
  - right. destruct (run_goes_on fs time p l r s' d0 vs x done_ rest Hfs Hp Hc0 Hv Ha Hrun) as (more & left_ & -> & Ha' & _).
    exists (done_ ++ more), left_. split; [by rewrite Hp, app_assoc|done].
Qed.

(** C34: Runs of the migrations, one after another, are stopped, by an error
    of the disk, of another process or of a migration, whose file may then be
    mended, and started again.  When one ends well, the database is the one
    that applying each migration that was not recorded at the beginning once,
    in the order of the versions, gives, each with the script that one of the
    runs found.  No migration may end the transaction that it is run in or
    touch the table of versions, and no other process may write between. *)
Theorem stopped_runs_go_on d0 vs d d1 fs timestamp p l s' : create_versions_table d = inl d0 -> select_versions d0 = inl vs -> rtc attempt d d1 ->
  project fs -> @migrate_apply_sqlite _ _ fs timestamp project_root database ms (mkRunState d1 None p l) = (Ok tt, s') ->
  applies (pending vs ms) d0 (committed s').
Proof.
  intros Hc Hv Hr Hfs Hrun. assert (create_versions_table d0 = inl d0) as Hc0 by (by eapply created_again).
  destruct (attempts_prefix d0 vs d d1 Hc Hv Hr) as [->|(done_ & rest & Hp & Ha)].
  - apply (apply_sqlite_cases fs timestamp ms) in Hrun as [_ [[_ Hn]|(d0' & vs' & done' & rest' & Hc' & Hv' & Hp' & Ha' & Hok)]];
      [by destruct (Hn tt)| |intros m sql Hm Hs; by apply (scripts_behave fs m sql)|done..]. simpl in *.
    rewrite Hc in Hc'. injection Hc' as <-. rewrite Hv in Hv'. injection Hv' as <-. by rewrite Hp', (Hok tt eq_refl), app_nil_r.
  - destruct (run_goes_on fs timestamp p l _ s' d0 vs d1 done_ rest Hfs Hp Hc0 Hv Ha Hrun) as (more & left_ & -> & Ha' & Hok).
    by rewrite (Hok tt eq_refl), app_nil_r in Hp; rewrite Hp.
Qed.

Lemma NoDup_fmap_elem {A B : Type} (f : A -> B) l x y : NoDup (f <$> l) -> x ∈ l -> y ∈ l -> f x = f y -> x = y.
Proof.
  induction l as [|z l IH]; [by intros _ ?%elem_of_nil|]. rewrite fmap_cons, list.NoDup_cons, !elem_of_cons. intros [Hz Hl] [->|Hx] [->|Hy] E; [done|..].
  - destruct Hz. rewrite E. by apply list_elem_of_fmap_2.
  - destruct Hz. rewrite <- E. by apply list_elem_of_fmap_2.
  - by apply IH.
Qed.

(** *** Processes that start together *)

Lemma process_ind' {A : Type} (P : process Db A -> Prop) :
  (forall r, P (Ended r)) -> (forall f, (forall s, P (f s).1) -> P (Acts f)) -> forall p, P p.
Proof.
  intros He Ha. exact (fix IH p := match p with
                                   | Ended r => He r
                                   | Acts f => Ha f (fun s => let q := f s in match q as q' return P q'.1 with (p', _) => IH p' end)
                                   end).
Qed.

(** The actions of a process that do not change the database. *)
Fixpoint quiet {A : Type} (p : process Db A) : Prop :=
  match p with
  | Ended _ => True
  | Acts f => forall s, let '(q, s') := f s in committed s' = committed s /\ open_ s' = open_ s /\ quiet q
  end.

Lemma act_quiet {A : Type} (m : smethod (RunState Db) run_error A) : keeps_db m -> quiet (act m).
Proof. intros Hm s. destruct (Hm s) as [H1 H2]. by destruct (m s) as [r s']. Qed.

Lemma quiet_pthen {A B : Type} (p : process Db A) (k : A -> process Db B) : quiet p -> (forall a, quiet (k a)) -> quiet (pthen p k).
Proof.
  intros Hp Hk. revert Hp. induction p as [r|f IH] using process_ind'; [destruct r; simpl; auto|]. simpl. intros Hf s. specialize (Hf s). specialize (IH s).
  destruct (f s) as [q s']. destruct Hf as (H1 & H2 & H3). auto.
Qed.

(** What an action does to the next migration: it is recorded already, or it is
    applied with its record. *)
Definition launched (m : MigrationFile) (d d' : Db) : Prop :=
  version_recorded d (file_version m) = inl true /\ d' = d \/
  version_recorded d (file_version m) = inl false /\ applied_once m d d'.

(** A process with these migrations before it. *)
Fixpoint applying (p : process Db unit) (l : list MigrationFile) : Prop :=
  match p with
  | Ended r => (forall a, r = Ok a -> l = [])
  | Acts f => forall s, open_ s = None ->
      let '(q, s') := f s in
      open_ s' = None /\
      (committed s' = committed s /\ applying q l \/
       exists m l', l = m :: l' /\ launched m (committed s) (committed s') /\ applying q l')
  end.

(** One that has not made the table of versions yet. *)
Fixpoint starting (p : process Db unit) : Prop :=
  match p with
  | Ended r => forall a, r <> Ok a
  | Acts f => forall s, open_ s = None ->
      let '(q, s') := f s in
      open_ s' = None /\
      (committed s' = committed s /\ starting q \/ create_versions_table (committed s) = inl (committed s') /\ applying q ms)
  end.

Lemma applying_failed r l : (forall a, r <> Ok a) -> applying (Ended r) l.
Proof. intros Hr a ->. by destruct (Hr a). Qed.

Lemma quiet_applying (p : process Db unit) : quiet p -> applying p [].
Proof.
  induction p as [r|f IH] using process_ind'; simpl; [done|]. intros Hf s Ho. specialize (Hf s). specialize (IH s).
  destruct (f s) as [q s']. destruct Hf as (H1 & H2 & H3). split; [congruence|]. left. auto.
Qed.

Lemma applying_then (p : process Db unit) (k : unit -> process Db unit) l : applying p l -> (forall a, applying (k a) []) -> applying (pthen p k) l.
Proof.
  intros Hp Hk. revert l Hp. induction p as [r|f IH] using process_ind'; intros l; simpl.
  - intros Hr. destruct r as [a|e| |]; [rewrite (Hr a eq_refl); apply Hk|by apply applying_failed..].
  - intros Hf s Ho. specialize (Hf s Ho). specialize (IH s). destruct (f s) as [q s']. simpl in IH.
    destruct Hf as [H1 [[H2 H3]|(m & l' & -> & H2 & H3)]]; (split; [done|]); [left; auto|right; exists m, l'; auto].
Qed.

Lemma starting_then {A : Type} (p : process Db A) (k : A -> process Db unit) : quiet p -> (forall a, starting (k a)) -> starting (pthen p k).
Proof.
  intros Hp Hk. revert Hp. induction p as [r|f IH] using process_ind'; [intros _; destruct r; simpl; [apply Hk|done..]|]. simpl. intros Hf s Ho. specialize (Hf s). specialize (IH s).
  destruct (f s) as [q s']. destruct Hf as (H1 & H2 & H3). split; [congruence|]. left. auto.
Qed.

(** What the work of a transaction of a packaged program does. *)
Lemma unless_recorded_spec time version sql (s : RunState Db) r s' w : script_inside sql -> open_ s = Some w ->
  apply_unless_recorded time version sql s = (r, s') ->
  committed s' = committed s /\ forall b, r = Ok b ->
    version_recorded w version = inl b /\
    if b then open_ s' = Some w
    else exists failure w1 w2, execute_batch failure sql (committed s) (Some w) = (committed s, Some w1, None) /\
           insert_version w1 version (time version) = inl w2 /\ open_ s' = Some w2.
Proof.
  intros Hin Ho. unfold apply_unless_recorded. intros [(E1 & E2 & Hn)|([] & s1 & _ & E1 & E2 & Hk)]%keeps_step; [| |apply operation_keeps].
  { split; [done|]. intros b ->. by destruct (Hn b). }
  unfold mthen at 1, mself in Hk. assert (seen s1 = w) as Es by (unfold seen; by rewrite E2, Ho). rewrite Es in Hk.
  unfold mthen at 1, mtry, called in Hk. destruct (version_recorded w version) as [b|e] eqn:Er; [|by injection Hk as <- <-].
  destruct b.
  - injection Hk as <- <-. split; [done|]. intros b [= <-]. split; [done|]. congruence.
  - unfold mthen at 1 in Hk. destruct (apply_migration time version sql s1) as [r2 s2] eqn:Ea. unfold apply_migration in Ea.
    destruct (script_spec _ _ _ _ s1 _ _ w Hin ltac:(congruence) Ea) as [E3 Hok]. rewrite E1 in E3, Hok.
    destruct r2 as [[]|e| |]; injection Hk as <- <-; (split; [done|]); [|done..]. intros b [= <-]. split; [done|]. exact (Hok tt eq_refl).
Qed.

(** The transaction of a packaged program is one of its actions. *)
Lemma launch_transaction fs time m sql (k : bool -> process Db unit) l :
  project fs -> m ∈ ms -> @migration_sql fs (up_source m) database = Ok sql -> (forall b, applying (k b) l) ->
  applying (pthen (act (transaction [Lit "failed to start migration "; Disp (file_version m)] (packaged_commit (file_version m))
                          (apply_unless_recorded time (file_version m) sql))) k) (m :: l).
Proof.
  intros Hfs Hm Hsql Hk s Ho. destruct (scripts_behave fs m sql Hfs Hm Hsql) as [Hin _].
  destruct (transaction _ _ _ s) as [r s'] eqn:Et. destruct (transaction_spec _ _ _ _ _ _ Ho Et) as [Ho' Hcase]. split; [done|].
  assert (committed s' = committed s -> (forall b, r <> Ok b) ->
    committed s' = committed s /\ applying (pthen (Ended r) k) (m :: l)) as Hfail.
  { intros E Hn. split; [done|]. destruct r as [b|e| |]; [by destruct (Hn b)|by apply applying_failed..]. }
  destruct Hcase as [[E Hn]|(s1 & r1 & s2 & E1 & E2 & Hw & Hcase)]; [left; by apply Hfail|].
  destruct (unless_recorded_spec _ _ _ _ _ _ _ Hin E2 Hw) as [E3 Hok]. destruct Hcase as [[E Hn]|(b & d & -> & -> & Eo & Ed)]; [left; apply Hfail; [congruence|done]|].
  right. exists m, l. split; [done|]. split; [|apply Hk]. destruct (Hok b eq_refl) as [Hrec Hb]. destruct b.
  - left. split; [done|]. congruence.
  - right. split; [done|]. destruct Hb as (failure & w1 & w2 & Hx & Hi & Ew). exists fs, sql, (time (file_version m)), w1. rewrite E1 in Hx.
    split; [done|]. split; [done|]. split; [by exists failure|]. congruence.
Qed.

Lemma packaged_applying fs time l : project fs -> (forall m, m ∈ l -> m ∈ ms) -> applying (@apply_packaged _ _ fs time database l) l.
Proof.
  intros Hfs. induction l as [|m l IH]; intros Hl; [by intros a|]. cbn [apply_packaged].
  destruct (@migration_sql fs (up_source m) database) as [sql|e| |] eqn:Esql; [|by apply applying_failed..]. cbn [in_context rmap_err pthen].
  apply (launch_transaction fs); [done|apply Hl; left|done|]. intros _. apply IH. intros x Hx. apply Hl. by right.
Qed.

Lemma restrict_quiet path : quiet (restrict_permissions path : process Db unit).
Proof. apply act_quiet, operation_keeps. Qed.

Lemma packaged_starting fs time path : project fs -> starting (@migrate_apply_packaged_sqlite_at_path _ _ fs time path database ms).
Proof.
  intros Hfs. unfold migrate_apply_packaged_sqlite_at_path.
  apply starting_then; [apply act_quiet, parent_keeps|intros _]. apply starting_then; [apply quiet_pthen; [apply act_quiet, operation_keeps|intros _; apply restrict_quiet]|intros _].
  apply starting_then; [apply act_quiet, operation_keeps|intros _]. apply starting_then; [apply act_quiet, operation_keeps|intros _].
  intros s Ho. destruct (ensure_schema_migrations_table s) as [r s'] eqn:Ee. apply ensure_table_cases in Ee as [Ho' [[E Hn]|[-> Hc]]]; [| |done]; (split; [done|]).
  - left. split; [done|]. destruct r as [a|e| |]; [by destruct (Hn a)|by intros a..].
  - right. split; [done|].
    change (applying (pthen (@apply_packaged _ _ fs time database ms) (fun _ => restrict_permissions path)) ms). apply applying_then; [by apply packaged_applying|]. intros _. apply quiet_applying, restrict_quiet.
Qed.

(** Processes are started, act in any order, are stopped, and the operations to
    come turn out differently. *)
Inductive launch_step (path : string) : list (process Db unit) * RunState Db -> list (process Db unit) * RunState Db -> Prop :=
  | launch_start fs time ps s : project fs ->
      launch_step path (ps, s) (ps ++ [@migrate_apply_packaged_sqlite_at_path _ _ fs time path database ms], s)
  | launch_act ps f qs s : launch_step path (ps ++ Acts f :: qs, s) (ps ++ (f s).1 :: qs, (f s).2)
  | launch_stop ps p qs s : launch_step path (ps ++ p :: qs, s) (ps ++ qs, s)
  | launch_failures ps s l : launch_step path (ps, s) (ps, mkRunState (committed s) (open_ s) (printed s) l).

(** A schedule: which process acts next. *)
Definition pick (c : list (process Db unit) * RunState Db) (i : nat) : list (process Db unit) * RunState Db :=
  match c.1 !! i with
  | Some (Acts f) => (<[i := (f c.2).1]> c.1, (f c.2).2)
  | _ => c
  end.

Lemma picks_step path picks c : rtc (launch_step path) c (foldl pick c picks).
Proof.
  revert c. induction picks as [|i picks IH]; intros [ps s]; [done|]. simpl. etrans; [|apply IH]. unfold pick. simpl.
  destruct (ps !! i) as [[r|f]|] eqn:E; [done| |done]. apply rtc_once. apply lookup_lt_Some in E as Hlt.
  rewrite insert_take_drop by done. rewrite <- (take_drop_middle ps i _ E) at 1. apply launch_act.
Qed.

(** A process has done, or seen done, what it has behind it. *)
Definition caught_up (vs : list string) (done_ : list MigrationFile) (p : process Db unit) : Prop :=
  exists behind l, ms = behind ++ l /\ applying p l /\ forall m, m ∈ pending vs behind -> m ∈ done_.

Lemma pending_app vs l l' : pending vs (l ++ l') = pending vs l ++ pending vs l'.
Proof. apply list.filter_app. Qed.

(** What is not done yet and has nothing undone before it is the next. *)
Lemma next_pending vs done_ rest behind m l : pending vs ms = done_ ++ rest -> ms = behind ++ m :: l ->
  (forall x, x ∈ pending vs behind -> x ∈ done_) -> file_version m ∉ vs -> m ∉ done_ -> exists rest', rest = m :: rest'.
Proof.
  intros Hp Hm Hb Hv Hn. assert (NoDup (pending vs ms)) as Hnd by (eapply NoDup_fmap_1, pending_unique, ms_unique).
  assert (pending vs ms = pending vs behind ++ m :: pending vs l) as Hpm.
  { rewrite Hm, pending_app. unfold pending at 2. rewrite filter_cons, decide_True by done. done. }
  rewrite Hpm in Hp, Hnd. revert Hp Hb Hnd. clear Hpm. generalize (pending vs behind). intros front. revert done_ Hn. induction front as [|x front IH]; intros done_ Hn Hp Hb Hnd.
  - destruct done_ as [|y done_]; [by eexists|]. injection Hp as -> _. destruct Hn. left.
  - destruct done_ as [|y done_]; [exfalso; by apply (elem_of_nil x), Hb; left|]. injection Hp as <- Hp. apply list.NoDup_cons in Hnd as [Hx Hnd].
    apply (IH done_); [intros Hin; apply Hn; by right|done| |done]. intros z Hz. specialize (Hb z (list_elem_of_further _ _ _ Hz)).
    apply elem_of_cons in Hb as [->|Hb]; [|done]. destruct Hx. apply elem_of_app. by left.
Qed.

(** A migration that a process goes over is done, or was recorded. *)
Lemma launched_next vs d0 done_ rest behind m l d d' : create_versions_table d0 = inl d0 -> select_versions d0 = inl vs ->
  pending vs ms = done_ ++ rest -> applies done_ d0 d -> ms = behind ++ m :: l -> (forall x, x ∈ pending vs behind -> x ∈ done_) -> launched m d d' ->
  exists done' rest', pending vs ms = done' ++ rest' /\ applies done' d0 d' /\ (forall x, x ∈ done_ -> x ∈ done') /\
    forall x, x ∈ pending vs (behind ++ [m]) -> x ∈ done'.
Proof.
  intros Hc Hv Hp Ha Hb Hd Hl. assert (forall x, x ∈ done_ -> x ∈ ms) as Hin by (intros x; by apply (done_in_ms vs done_ rest)).
  destruct (applies_versions done_ d0 d Ha Hin Hc) as [_ Hsd]. destruct (Hsd vs Hv) as (vs' & Hv' & He).
  assert (forall x, x ∈ pending vs (behind ++ [m]) -> x ∈ done_ \/ x = m /\ m ∈ pending vs [m]) as Hcases.
  { intros x. rewrite pending_app, elem_of_app. intros [Hx|Hx]; [left; by apply Hd|right].
    assert (x = m) as -> by (apply list_elem_of_filter in Hx as [_ Hx]; by apply list_elem_of_singleton in Hx). done. }
  destruct Hl as [[Hr ->]|[Hr Hone]]; pose proof (recorded_version d (file_version m) _ vs' Hr Hv') as Hrec; rewrite He in Hrec.
  - exists done_, rest. split; [done|]. split; [done|]. split; [done|]. intros x [?|[-> [Hn _]%list_elem_of_filter]]%Hcases; [done|].
    destruct (proj1 Hrec eq_refl) as [|(x & Ex & Hx)%list_elem_of_fmap]; [done|]. assert (x = m) as <-; [|done].
    apply (NoDup_fmap_elem file_version ms); [done|by apply Hin|rewrite Hb; apply elem_of_app; right; left|done].
  - assert ((file_version m ∉ vs) /\ (m ∉ done_)) as [Hnv Hnd].
    { split; intros Hx; [assert (false = true) as Hx' by (apply Hrec; by left)|assert (false = true) as Hx' by (apply Hrec; right; by apply list_elem_of_fmap_2)]; discriminate Hx'. }
    destruct (next_pending vs done_ rest behind m l Hp Hb Hd Hnv Hnd) as [rest' ->]. exists (done_ ++ [m]), rest'.
    split; [by rewrite <- app_assoc|]. split; [eapply applies_app; [exact Ha|by apply applies_one]|]. split; [intros x Hx; apply elem_of_app; by left|].
    intros x [?|[-> _]]%Hcases; apply elem_of_app; [by left|right; left].
Qed.

(** The processes and the database, before the table of versions is made and
    after. *)
Definition together (vs : list string) (d d0 : Db) (st : list (process Db unit) * RunState Db) : Prop :=
  open_ st.2 = None /\
  ((committed st.2 = d /\ Forall starting st.1) \/
   exists done_ rest, pending vs ms = done_ ++ rest /\ applies done_ d0 (committed st.2) /\ Forall (fun p => starting p \/ caught_up vs done_ p) st.1).

Lemma Forall_middle {A : Type} (P : A -> Prop) ps x qs : Forall P (ps ++ x :: qs) <-> P x /\ Forall P ps /\ Forall P qs.
Proof. rewrite Forall_app, list.Forall_cons. tauto. Qed.

Lemma together_step path vs d d0 st st' : create_versions_table d = inl d0 -> select_versions d0 = inl vs ->
  launch_step path st st' -> together vs d d0 st -> together vs d d0 st'.
Proof.
  intros Hc Hv Hstep [Ho Hcase]. assert (create_versions_table d0 = inl d0) as Hc0 by (by eapply created_again).
  destruct Hstep as [fs time ps s Hfs|ps f qs s|ps p qs s|ps s l]; simpl in *.
  - split; [done|]. pose proof (packaged_starting fs time path Hfs) as Hst. destruct Hcase as [[E Hf]|(done_ & rest & Hp & Ha & Hf)]; [left|right; exists done_, rest];
      repeat (split; [done|]); apply Forall_app; (split; [done|]); apply Forall_singleton; [done|by left].
  - destruct Hcase as [[E Hf]|(done_ & rest & Hp & Ha & Hf)]; apply Forall_middle in Hf as (Hx & Hps & Hqs).
    + specialize (Hx s Ho). destruct (f s) as [q s']. destruct Hx as [Ho' [[E' Hq]|[Hcr Hq]]]; (split; [done|]); simpl in *.
      * left. split; [congruence|]. by apply Forall_middle.
      * right. exists [], (pending vs ms). rewrite E, Hc in Hcr. injection Hcr as <-. split; [done|]. split; [constructor|].
        apply Forall_middle. split; [right; exists [], ms; split; [done|]; split; [done|]; by intros m ?%elem_of_nil|].
        split; (eapply list.Forall_impl; [eassumption|by left]).
    + assert (forall done', (forall x, x ∈ done_ -> x ∈ done') -> forall p, starting p \/ caught_up vs done_ p -> starting p \/ caught_up vs done' p) as Hmono.
      { intros done' Hsub p [?|(b & k & ? & ? & ?)]; [by left|right]. exists b, k. split_and!; [done..|]. auto. }
      destruct Hx as [Hx|(behind & l & Hb & Hx & Hd)]; specialize (Hx s Ho); destruct (f s) as [q s'].
      * destruct Hx as [Ho' [[E' Hq]|[Hcr Hq]]]; (split; [done|]); simpl in *; right; exists done_, rest; (split; [done|]).
        { split; [by rewrite E'|]. apply Forall_middle. split; [by left|done]. }
        destruct (applies_versions done_ d0 (committed s) Ha) as [Hcx _]; [intros m; by apply (done_in_ms vs done_ rest)|done|]. rewrite Hcx in Hcr. injection Hcr as <-.
        split; [done|]. apply Forall_middle. split; [right; exists [], ms; split; [done|]; split; [done|]; by intros m ?%elem_of_nil|done].
      * destruct Hx as [Ho' [[E' Hq]|(m & l' & -> & Hl & Hq)]]; (split; [done|]); simpl in *; right.
        { exists done_, rest. split; [done|]. split; [by rewrite E'|]. apply Forall_middle. split; [right; by exists behind, l|done]. }
        destruct (launched_next vs d0 done_ rest behind m l' _ _ Hc0 Hv Hp Ha Hb Hd Hl) as (done' & rest' & Hp' & Ha' & Hsub & Hd').
        exists done', rest'. split; [done|]. split; [done|]. apply Forall_middle.
        split; [right; exists (behind ++ [m]), l'; split; [by rewrite <- app_assoc|done]|]. split; (eapply list.Forall_impl; [eassumption|by apply Hmono]).
  - split; [done|]. destruct Hcase as [[E Hf]|(done_ & rest & Hp & Ha & Hf)]; apply Forall_middle in Hf as (_ & Hf);
      [left; split; [done|]|right; exists done_, rest; split; [done|]; split; [done|]]; by apply Forall_app.
  - done.
Qed.

(** C37: Packaged programs that are started at the same time, each bringing
    the database up to date, apply every migration once and in order, also
    when the table of versions is not there yet.  At any moment, whichever of
    them have acted, failed, were stopped or are new: the database is as it was
    found, and no process has come through, or it is the one that some of the
    migrations that were not recorded give, in order, with the table of
    versions; when one process has come through, all of them.  The actions of
    the processes are those of [migrate_apply_packaged_sqlite_at_path], of
    which a transaction is one: it is immediate.  No migration may end its
    transaction or touch the table of versions. *)
Theorem concurrent_launches_apply_once path d d0 vs s ps s' : create_versions_table d = inl d0 -> select_versions d0 = inl vs ->
  committed s = d -> open_ s = None -> rtc (launch_step path) ([], s) (ps, s') ->
  committed s' = d /\ Ended (Ok tt) ∉ ps \/
  exists done_ rest, pending vs ms = done_ ++ rest /\ applies done_ d0 (committed s') /\ (Ended (Ok tt) ∈ ps -> rest = []).
Proof.
  intros Hc Hv Hs Ho Hr. enough (together vs d d0 (ps, s')) as [_ [[E Hf]|(done_ & rest & Hp & Ha & Hf)]]; simpl in *.
  { left. split; [done|]. intros Hin. rewrite list.Forall_forall in Hf. by destruct (Hf _ Hin tt). }
  { right. exists done_, rest. split; [done|]. split; [done|]. intros Hin. rewrite list.Forall_forall in Hf.
    destruct (Hf _ Hin) as [Hst|(behind & l & Hb & Hap & Hd)]; [by destruct (Hst tt)|]. rewrite (Hap tt eq_refl), app_nil_r in Hb. rewrite <- Hb in Hd.
    destruct rest as [|m rest]; [done|]. exfalso.
    assert (NoDup (done_ ++ m :: rest)) as Hnd by (rewrite <- Hp; eapply NoDup_fmap_1, pending_unique, ms_unique). apply list.NoDup_app in Hnd as (_ & Hnd & _).
    apply (Hnd m); [|left]. apply Hd. rewrite Hp. apply elem_of_app. right. left. }
  assert (forall st, rtc (launch_step path) ([], s) st -> together vs d d0 st) as Hall; [|exact (Hall (ps, s') Hr)].
  apply rtc_ind_r; [split; [done|]; left; split; [done|constructor]|]. intros x y _ Hstep Hx. by eapply together_step.
Qed.

(** *** Rolling back *)

Lemma by_version_get migrations v m : bt_get v (by_version migrations) = Some m -> m ∈ migrations /\ file_version m = v.
Proof.
  unfold by_version. assert (forall t, bt_get v (foldl (fun t m => bt_insert (file_version m) m t) t migrations) = Some m ->
    m ∈ migrations /\ file_version m = v \/ bt_get v t = Some m) as Hall.
  { induction migrations as [|x l IH]; intros t; simpl; [by right|]. intros [[Hm Hv]|Hm]%IH; [left; by split; [right|]|].
    rewrite bt_get_insert in Hm. destruct (String.eqb_spec v (file_version x)) as [->|]; [|by right]. injection Hm as <-. left. by split; [left|]. }
  intros [?|[=]]%Hall. done.
Qed.

Section rollback.
Context (fs : FileSystem) (migrations : list MigrationFile).
Hypothesis in_project : project fs.
Hypothesis downs_inside : forall m down sql, m ∈ migrations -> down_source m = Some down -> @migration_sql fs down database = Ok sql -> script_inside sql.

Lemma rollback_prefix n versions s r s' : open_ s = None -> @rollback_versions _ _ fs database (by_version migrations) n versions s = (r, s') ->
  open_ s' = None /\ exists done_ rest, versions = done_ ++ rest /\ undoes migrations done_ (committed s) (committed s') /\ (forall k, r = Ok k -> rest = []).
Proof using in_project downs_inside.
  revert n s. induction versions as [|v versions IH]; intros n s Ho; simpl.
  - intros [= <- <-]. split; [done|]. exists [], []. repeat split. constructor.
  - assert (forall (r' : run_result N) s1, committed s1 = committed s -> open_ s1 = None -> (forall k, r' <> Ok k) -> (r', s1) = (r, s') -> open_ s' = None /\ exists done_ rest, v :: versions = done_ ++ rest
      /\ undoes migrations done_ (committed s) (committed s') /\ (forall k, r = Ok k -> rest = [])) as Hstop.
    { intros r' s1 E Ho1 Hr [= <- <-]. split; [done|]. exists [], (v :: versions). rewrite E. split; [done|]. split; [constructor|]. intros k Hk. by destruct (Hr k). }
    unfold mthen at 1, mtry. destruct (down_for (by_version migrations) v) as [down|e| |] eqn:Ed; [|by apply Hstop..].
    unfold mthen at 1, mtry. destruct (migration_sql down database) as [sql|e| |] eqn:Esql; simpl; [|by apply Hstop..].
    unfold down_for, required in Ed. destruct (bt_get v (by_version migrations)) as [m|] eqn:Em; [|done]. simpl in Ed. destruct (down_source m) as [src|] eqn:Es; [|done].
    injection Ed as ->. destruct (by_version_get _ _ _ Em) as [Hm Hv].
    unfold mthen at 1. destruct (transaction _ _ _ s) as [r1 s1] eqn:Et.
    apply migration_transaction in Et as [Ho1 [[Ec Hr]|(-> & d1 & Hsc & Hdel)]]; [| |by apply (downs_inside m down)|done].
    { destruct r1 as [a|e| |]; [by destruct (Hr a)|..]; by apply Hstop. }
    intros Hk. apply IH in Hk as [Hos (done_ & rest & Hu & Ha & Hr)]; [|done]. split; [done|]. exists (v :: done_), rest. rewrite Hu. split; [done|]. split; [|done].
    eapply undoes_cons; [exact Hm|exact Hv|exact Es|exact in_project|exact Esql|exact Hsc|exact Hdel|exact Ha].
Qed.

(** A rollback undoes the latest recorded versions, the last one first,
    each by its own down migration and in a transaction with its record, and
    as many as were asked for when it ends well; when it stops, the ones
    before the failure. *)
Theorem rollback_undoes_latest steps s r s' : open_ s = None -> @migrate_rollback_sqlite _ _ fs project_root database migrations steps s = (r, s') ->
  (committed s' = committed s \/ create_versions_table (committed s) = inl (committed s')) /\ (forall a, r <> Ok a)
  \/ exists d0 vs order done_ rest, create_versions_table (committed s) = inl d0 /\ select_versions d0 = inl vs
     /\ StronglySorted key_lt order /\ (forall v, v ∈ order <-> v ∈ vs)
     /\ take steps (reverse order) = done_ ++ rest /\ undoes migrations done_ d0 (committed s') /\ (forall a, r = Ok a -> rest = []).
Proof using in_project downs_inside.
  intros Ho. unfold migrate_rollback_sqlite. destruct (is_file _); simpl; [|intros [= <- <-]; left; by split; [left|]].
  intros [(E & _ & Hr)|([] & s1 & _ & E1 & E2 & Hk)]%keeps_step; [by left; split; [left|]| |apply operation_keeps].
  unfold mthen at 1 in Hk. destruct (ensure_schema_migrations_table s1) as [r2 s2] eqn:Ee. apply ensure_table_cases in Ee as [Ho2 Ee]; [|congruence].
  destruct Ee as [[E3 Hr]|[-> Hc]].
  { left. destruct r2 as [a|e| |]; [by destruct (Hr a)|..]; injection Hk as <- <-; (split; [left; congruence|done]). }
  rewrite E1 in Hc. unfold mthen at 1 in Hk. destruct (sqlite_applied_migrations s2) as [r3 s3] eqn:Ea. apply applied_cases in Ea as (E4 & Ho3 & Hok); [|done].
  destruct r3 as [t|e| |]; [|injection Hk as <- <-; left; split; [right; congruence|done]..]. destruct (Hok t eq_refl) as (vs & Ev & ->). right.
  exists (committed s2), vs, (bt_keys (version_set vs)).
  assert (forall done_ rest, take steps (reverse (bt_keys (version_set vs))) = done_ ++ rest -> undoes migrations done_ (committed s2) (committed s') -> (forall a, r = Ok a -> rest = []) ->
    exists done_ rest, create_versions_table (committed s) = inl (committed s2) /\ select_versions (committed s2) = inl vs /\ StronglySorted key_lt (bt_keys (version_set vs))
      /\ (forall v, v ∈ bt_keys (version_set vs) <-> v ∈ vs) /\ take steps (reverse (bt_keys (version_set vs))) = done_ ++ rest
      /\ undoes migrations done_ (committed s2) (committed s') /\ (forall a, r = Ok a -> rest = [])) as Hend.
  { intros done_ rest Ht Hu Hr. exists done_, rest. split; [done|]. split; [done|]. split; [apply version_set_wf|]. split; [intros v; apply version_set_keys|done]. }
  destruct (version_set vs) as [|x t] eqn:Et.
  - injection Hk as <- <-. apply (Hend [] []); [by destruct steps|simpl; rewrite E4; constructor|done].
  - unfold mthen at 1 in Hk. destruct (rollback_versions _ _ _ _ s3) as [r4 s4] eqn:Er. apply rollback_prefix in Er as [_ (done_ & rest & Ht & Hu & Hr)]; [|done].
    rewrite E4 in Hu. apply (Hend done_ rest Ht).
    + destruct r4 as [k|e| |]; [destruct (k =? 0)%N|..]; by injection Hk as <- <-.
    + intros a Ha. destruct r4 as [k|e| |]; [by apply (Hr k)|injection Hk as <- <-; done..].
Qed.
End rollback.
End Laws.

(** ** What is found *)

Definition found (entries : list (string + msg)) (v : string) (direction : MigrationDirection) (src : MigrationSource) : Prop :=
  exists path, inl path ∈ entries /\ migration_source_for_path path = Ok (Some (v, direction, src)).

Definition valid_version (v : string) : Prop := v <> ""%string /\ forallb version_char (as_bytes v) = true.

Lemma validate_version_valid v path u : validate_migration_version v path = Ok u -> valid_version v.
Proof.
  unfold validate_migration_version, valid_version. destruct (String.eqb_spec v ""); [done|]. destruct (forallb _ _); [done|done].
Qed.

(** *** The name of a new migration *)

Lemma slug_char_valid c : version_char (slug_char c) = true.
Proof.
  assert (Forall (fun c => version_char (slug_char c) = true) (N.of_nat <$> seq 0 128)) as Hall by (apply (bool_decide_unpack _); vm_compute; exact I).
  destruct (N.ltb_spec c 128) as [Hc|Hc].
  - rewrite list.Forall_forall in Hall. apply Hall. rewrite <- (N2Nat.id c). apply list_elem_of_fmap_2, elem_of_seq. lia.
  - unfold slug_char. by rewrite (proj2 (N.ltb_ge _ _) Hc).
Qed.

Lemma slug_from_valid slug last cs : Forall (fun b => version_char b = true) slug -> Forall (fun b => version_char b = true) (slug_from slug last cs).
Proof.
  revert slug last. induction cs as [|c cs IH]; intros slug last Hs; simpl; [done|].
  assert (Forall (fun b => version_char b = true) (slug ++ [slug_char c])) as Hs' by (apply Forall_app; split; [done|]; constructor; [apply slug_char_valid|constructor]).
  repeat case_match; by apply IH.
Qed.

Lemma drop_separators_suffix l : drop_separators l `suffix_of` l.
Proof. induction l as [|b l IH]; simpl; [done|]. case_match; [by apply suffix_cons_r|done]. Qed.

(** Whatever a migration is called, its files are found: the version made of
    the time and the slug is valid. *)
Lemma slug_is_valid name slug stamp : migration_name_slug name = Ok slug -> forallb version_char (as_bytes stamp) = true -> valid_version (stamp ++ "_" ++ slug).
Proof.
  unfold migration_name_slug. intros E Ht. inv_ok. match goal with E : context [slug_from [] false ?cs] |- _ => set (l := slug_from [] false cs) in E; assert (Forall (fun b => version_char b = true) l) as Hl by apply slug_from_valid, list.Forall_nil_2 end.
  destruct (drop_separators_suffix (reverse l)) as [k Hk]. assert (Forall (fun b => version_char b = true) (reverse (drop_separators (reverse l)))) as Hd.
  { rewrite Forall_reverse. assert (Forall (fun b => version_char b = true) (k ++ drop_separators (reverse l))) as Ha by (rewrite <- Hk; by apply Forall_reverse). by apply Forall_app in Ha as [_ Ha]. }
  destruct (reverse (drop_separators (reverse l))) as [|b bs] eqn:Eb; [done|]. assert (slug = from_bytes (b :: bs)) as -> by (by injection E). split; [by destruct stamp|].
  rewrite !as_bytes_app, as_from_bytes, !forallb_app, Ht. simpl. apply list.Forall_cons in Hd as [-> Hd]. simpl. apply forallb_forall. intros y Hy.
  rewrite list.Forall_forall in Hd. by apply Hd, list_elem_of_In.
Qed.

Definition source_of (d : Discovered) (direction : MigrationDirection) : btree MigrationSource :=
  match direction with MigrationDirection.Up => up_sources d | MigrationDirection.Down => down_sources d end.

Lemma add_source_spec v direction src d d' : add_source v direction src d = Ok d' ->
  bt_get v (source_of d direction) = None
  /\ forall dir w, bt_get w (source_of d' dir) = if decide (dir = direction /\ w = v) then Some src else bt_get w (source_of d dir).
Proof.
  destruct direction; simpl; (destruct (bt_get v _) eqn:E; [done|]); intros [= <-]; (split; [done|]); intros [] w; simpl; try done.
  all: rewrite bt_get_insert; destruct (String.eqb_spec w v) as [->|]; [by rewrite decide_True|rewrite decide_False by naive_solver; done].
Qed.

Lemma add_source_wf v direction src d d' : add_source v direction src d = Ok d' -> bt_wf (up_sources d) -> bt_wf (down_sources d) ->
  bt_wf (up_sources d') /\ bt_wf (down_sources d').
Proof. destruct direction; simpl; (destruct (bt_get v _); [done|]); intros [= <-]; simpl; auto using bt_insert_wf. Qed.

Lemma discover_entries_spec dir entries d d' : discover_entries dir entries d = Ok d' -> bt_wf (up_sources d) -> bt_wf (down_sources d) ->
  bt_wf (up_sources d') /\ bt_wf (down_sources d')
  /\ (forall direction v src, bt_get v (source_of d' direction) = Some src <-> bt_get v (source_of d direction) = Some src \/ found entries v direction src)
  /\ (forall direction v src, found entries v direction src -> valid_version v).
Proof.
  revert d. induction entries as [|entry entries IH]; intros d; simpl.
  { intros [= <-] Hu Hd. split; [done|]. split; [done|]. split; [|by intros ? ? ? (? & ?%elem_of_nil & _)].
    intros direction v src. split; [by left|]. intros [?|(path & Hp%elem_of_nil & _)]; done. }
  destruct entry as [path|e]; [|done]. simpl. destruct (migration_source_for_path path) as [o|e| |] eqn:Es; simpl; [|done..].
  assert (forall v direction src, found (inl path :: entries) v direction src <-> o = Some (v, direction, src) \/ found entries v direction src) as Hf.
  { intros v direction src. unfold found. split.
    - intros (q & [Hq|Hq]%elem_of_cons & Hs); [injection Hq as ->; left; congruence|right; by exists q].
    - intros [->|(q & Hq & Hs)]; [exists path; by split; [left|]|exists q; by split; [right|]]. }
  destruct o as [[[v direction] src]|].
  - destruct (validate_migration_version v path) as [u|e| |] eqn:Ev; simpl; [|done..]. destruct (add_source v direction src d) as [d1|e| |] eqn:Ea; simpl; [|done..].
    intros Hd Hwu Hwd. destruct (add_source_wf _ _ _ _ _ Ea Hwu Hwd) as [Hwu1 Hwd1]. apply add_source_spec in Ea as [Hn Hg].
    destruct (IH d1 Hd Hwu1 Hwd1) as (W1 & W2 & Hiff & Hval). split; [done|]. split; [done|]. split.
    + intros dir' w src'. rewrite Hiff, Hf, Hg. case_decide as Hdec; [destruct Hdec as [-> ->]; rewrite Hn|]; naive_solver.
    + intros dir' w src' [[= <- <- <-]|Hin]%Hf; [by eapply validate_version_valid|by eapply Hval].
  - intros Hd Hwu Hwd. destruct (IH d Hd Hwu Hwd) as (W1 & W2 & Hiff & Hval). split; [done|]. split; [done|]. split.
    + intros dir' w src'. rewrite Hiff, Hf. naive_solver.
    + intros dir' w src' [[=]|Hin]%Hf. by eapply Hval.
Qed.

Lemma pair_sources_spec ups downs : bt_wf ups -> bt_wf downs ->
  (file_version <$> (pair_sources ups downs).1) = bt_keys ups
  /\ (forall m, m ∈ (pair_sources ups downs).1 -> bt_get (file_version m) ups = Some (up_source m) /\ down_source m = bt_get (file_version m) downs)
  /\ (forall v, v ∉ bt_keys ups -> bt_get v (pair_sources ups downs).2 = bt_get v downs).
Proof.
  revert downs. induction ups as [|[k src] ups IH]; intros downs Hu Hd; simpl.
  { split; [done|]. split; [by intros m ?%elem_of_nil|done]. }
  apply StronglySorted_inv in Hu as [Hu Hk]. destruct (IH (bt_remove k downs) Hu (bt_remove_wf k downs Hd)) as (H1 & H2 & H3).
  split; [f_equal; exact H1|]. split.
  - intros m [->|Hm]%elem_of_cons; simpl; [by rewrite String.eqb_refl|]. destruct (H2 m Hm) as [G1 G2].
    assert (file_version m <> k) as Hne.
    { intros E. pose proof (bt_get_lt k ups Hk) as Hn. congruence. }
    rewrite (proj2 (String.eqb_neq _ _) Hne). split; [done|]. rewrite G2, bt_get_remove by done. by rewrite (proj2 (String.eqb_neq _ _) Hne).
  - intros v Hv. apply not_elem_of_cons in Hv as [Hne Hv]. rewrite H3, bt_get_remove by done. by rewrite (proj2 (String.eqb_neq _ _) Hne).
Qed.

(** C38: The migrations of a project are in the order of their versions, which
    differ and are made of letters, digits and two signs; they are exactly
    the files of the directory that name one: every such file is the up or
    the down migration of its version, and every migration has its files. *)
Theorem discovered_migrations_are_the_files `{FileSystem} project_root ms entries : is_dir (migrations_dir project_root) = true ->
  read_dir (migrations_dir project_root) = inl entries -> discover_migrations project_root = Ok ms ->
  StronglySorted key_lt (file_version <$> ms)
  /\ (forall m, m ∈ ms -> valid_version (file_version m) /\ found entries (file_version m) MigrationDirection.Up (up_source m)
       /\ forall src, down_source m = Some src <-> found entries (file_version m) MigrationDirection.Down src)
  /\ forall v direction src, found entries v direction src -> exists m, m ∈ ms /\ file_version m = v
       /\ match direction with MigrationDirection.Up => up_source m = src | MigrationDirection.Down => down_source m = Some src end.
Proof.
  intros Hdir Hread. unfold discover_migrations. rewrite Hdir, Hread. simpl. intros Hd. inv_ok. rename x into d.
  match goal with E : discover_entries _ _ _ = Ok d |- _ => apply discover_entries_spec in E as (Wu & Wd & Hiff & Hval); [|constructor|constructor] end.
  destruct (pair_sources_spec (up_sources d) (down_sources d) Wu Wd) as (P1 & P2 & P3).
  destruct (pair_sources (up_sources d) (down_sources d)) as [l left_]. simpl in *. destruct left_ as [|[v src] left_]; [|done]. injection Hd as ->.
  assert (forall direction v src, bt_get v (source_of d direction) = Some src <-> found entries v direction src) as Hfound.
  { intros [] v src; rewrite Hiff; simpl; naive_solver. }
  split; [by rewrite P1|]. split.
  - intros m Hm. destruct (P2 m Hm) as [G1 G2]. pose proof (proj1 (Hfound MigrationDirection.Up _ _) G1) as Hup. split; [by eapply Hval|]. split; [done|].
    intros src. rewrite G2. apply (Hfound MigrationDirection.Down).
  - assert (forall v src, bt_get v (up_sources d) = Some src -> exists m, m ∈ ms /\ file_version m = v) as Hms.
    { intros v src Hv. assert (v ∈ file_version <$> ms) as (m & -> & Hm)%list_elem_of_fmap by (rewrite P1; apply list_elem_of_fmap; exists (v, src); by split; [|apply bt_get_In]). by exists m. }
    intros v [] src Hf%Hfound; simpl in Hf.
    + destruct (Hms v src Hf) as (m & Hm & <-). exists m. destruct (P2 m Hm) as [G1 _]. split; [done|]. split; [done|]. congruence.
    + destruct (decide (v ∈ bt_keys (up_sources d))) as [Hin|Hn]; [|specialize (P3 v Hn); by rewrite Hf in P3].
      rewrite <- P1 in Hin. apply list_elem_of_fmap in Hin as (m & -> & Hm). exists m. destruct (P2 m Hm) as [_ G2]. split; [done|]. split; [done|]. by rewrite G2.
Qed.

(** ** A project with two migrations *)

Module MigrationExample.
(** The statements that were executed, and the table of versions. *)
Record ExampleDb : Type := mkDb { statements : list string; table : option (list string) }.

Definition execute (sql : string) (d : ExampleDb) : ExampleDb := mkDb (statements d ++ [sql]) (table d).

(** A script that commits ends the transaction; one about a bad table fails. *)
#[export] Instance sqlite : MigrationSqlite ExampleDb := {|
  create_versions_table d := inl (mkDb (statements d) (Some (default [] (table d))));
  versions_table_exists d := inl (match table d with Some _ => true | None => false end);
  prepare_versions d := match table d with Some _ => inl tt | None => inr [Lit "no such table"] end;
  select_versions d := match table d with Some l => inl l | None => inr [Lit "no such table"] end;
  version_recorded d v := match table d with Some l => inl (bool_decide (v ∈ l)) | None => inr [Lit "no such table"] end;
  execute_batch failure sql d o :=
    match failure with
    | Some e => (d, o, Some e)
    | None =>
        match string_find "bad" sql, o with
        | Some _, _ => (d, o, Some [Lit "no such table"])
        | None, Some w => if String.eqb sql "commit" then (w, None, None) else (d, Some (execute sql w), None)
        | None, None => (execute sql d, None, None)
        end
    end;
  insert_version d v _ := match table d with
                          | Some l => if bool_decide (v ∈ l) then inr [Lit "UNIQUE constraint failed"] else inl (mkDb (statements d) (Some (l ++ [v])))
                          | None => inr [Lit "no such table"]
                          end;
  delete_version d v := match table d with Some l => inl (mkDb (statements d) (Some (filter (fun x => x <> v) l))) | None => inr [Lit "no such table"] end |}.

Lemma sqlite_laws : MigrationSqliteLaws (Db := ExampleDb).
Proof.
  split; simpl.
  - intros d d' [= <-]. done.
  - intros [st [l|]] v t d'; simpl; [intros _|intros [=]]. case_bool_decide; [done|]. intros [= <-]. split; [done|]. intros vs [= <-]. eexists. split; [done|].
    intros x. rewrite elem_of_app, list_elem_of_singleton. tauto.
  - intros [st [l|]] v b vs; simpl; [|done]. intros [= <-] [= ->]. apply bool_decide_eq_true.
Qed.

Lemma script_behaves sql : sql <> "commit"%string -> script_inside (Db := ExampleDb) sql /\ versions_untouched (Db := ExampleDb) sql.
Proof.
  intros Hne. apply String.eqb_neq in Hne. split.
  - intros failure d w d' o e. cbn. rewrite Hne. destruct failure; [by intros [= <- <- <-]|]. destruct (string_find _ _); intros [= <- <- <-]; by eauto.
  - intros d d1 [failure Hx]. cbn in Hx. rewrite Hne in Hx. destruct failure; [done|]. destruct (string_find _ _); [done|]. injection Hx as <-.
    split; [done|]. destruct d as [st [l|]]; [done|]. intros [=].
Qed.

Definition items (table_name : string) : string :=
  (dsl_string table_name ++ " table_create " ++ dsl_string "id" ++ " " ++ dsl_string "integer" ++ " column")%string.

Definition contents (mended : bool) (p : string) : option string :=
  if String.eqb p "/p/db/migrations/1_users.sql" then Some "create users"%string
  else if String.eqb p "/p/db/migrations/1_users.down.sql" then Some "drop users"%string
  else if String.eqb p "/p/db/migrations/2_items.up.rco" then Some (items (if mended then "items" else "bad"))
  else if String.eqb p "/p/app.db" then Some ""%string else None.

Definition entries : list (string + msg) :=
  [inl "/p/db/migrations/2_items.up.rco"; inl "/p/db/migrations/README"; inl "/p/db/migrations/1_users.down.sql"; inl "/p/db/migrations/1_users.sql"].

(** The second migration fails before it is mended. *)
Definition files (mended : bool) : FileSystem := {|
  canonicalize p := inl p;
  is_file p := match contents mended p with Some _ => true | None => false end;
  is_dir p := String.eqb p "/p/db/migrations";
  read_to_string p := match contents mended p with Some s => inl s | None => inr [Lit "not found"] end;
  RustPath.read p := inr [Lit "not read"];
  read_dir p := inl entries;
  symlink_metadata p := inr [Lit "not read"] |}.

Definition project (fs : FileSystem) : Prop := fs = files true \/ fs = files false.

Definition database : MigrationDatabase := mkMigrationDatabase "sqlite" "app.db".

Definition migrations : list MigrationFile :=
  Eval vm_compute in match @discover_migrations (files true) "/p" with Ok l => l | _ => [] end.

Definition clock (v : string) : string := "now".

Example found_versions : (file_version <$> migrations) = ["1_users"; "2_items"]%string.
Proof. done. Qed.

Lemma unique : NoDup (file_version <$> migrations).
Proof. apply (bool_decide_unpack _). vm_compute. exact I. Qed.

Lemma scripts_behave fs m sql : project fs -> m ∈ migrations -> @migration_sql fs (up_source m) database = Ok sql ->
  script_inside (Db := ExampleDb) sql /\ versions_untouched (Db := ExampleDb) sql.
Proof.
  intros Hfs Hm Hsql. apply script_behaves. intros ->. unfold migrations in Hm. rewrite !elem_of_cons, elem_of_nil in Hm.
  destruct Hfs as [-> | ->], Hm as [-> |[-> |[]]]; vm_compute in Hsql; discriminate Hsql.
Qed.

Definition fresh : ExampleDb := mkDb [] None.

Definition run (mended : bool) (d : ExampleDb) (l : list (option msg)) : run_result unit * RunState ExampleDb :=
  @migrate_apply_sqlite _ _ (files mended) clock "/p" database migrations (mkRunState d None [] l).

(** The second migration fails; when it is mended, it cannot be committed. *)
Definition stopped : ExampleDb := Eval vm_compute in committed (run false fresh []).2.

Definition locked : list (option msg) := replicate 8 None ++ [Some [Lit "database is locked"]].

Example stopped_halfway : stopped = mkDb ["create users"%string] (Some ["1_users"%string]) /\
  (run false fresh []).1 = Err [RunText [Lit "failed to apply migration "; Disp "2_items"]; RunText [Lit "no such table"]] /\
  (run true stopped locked).1 = Err [RunText [Lit "failed to commit migration "; Disp "2_items"]; RunText [Lit "database is locked"]] /\
  committed (run true stopped locked).2 = stopped.
Proof. vm_compute. repeat split. Qed.

Definition finished : ExampleDb := Eval vm_compute in committed (run true stopped []).2.

Lemma attempt_run mended d l : attempt database project "/p" migrations d (committed (run mended d l).2).
Proof.
  exists (files mended), clock, [], l, (run mended d l).1, (run mended d l).2. split; [destruct mended; [by left|by right]|].
  split; [|done]. unfold run. by destruct (migrate_apply_sqlite _ _ _ _ _).
Qed.

Lemma stopped_runs_go_on_witness : applies database project (pending [] migrations) (mkDb [] (Some [])) finished /\ length (statements finished) = 2.
Proof.
  split; [|done].
  refine (stopped_runs_go_on database project sqlite_laws "/p" migrations unique scripts_behave (mkDb [] (Some [])) [] fresh stopped (files true) clock [] []
    (run true stopped []).2 eq_refl eq_refl _ (or_introl eq_refl) _); [|vm_compute; reflexivity].
  eapply rtc_l; [exact (attempt_run false fresh [])|]. apply rtc_once. exact (attempt_run true stopped locked).
Defined.

(** A migration that commits is outside of this: it is recorded though its run
    fails, for then there is nothing left to commit. *)
Example committing_script :
  let r := transaction [Lit "start"] (fun _ => [Lit "failed to commit migration "; Disp "v"]) (apply_migration clock "v" "commit")
             (mkRunState (mkDb [] (Some [])) None [] []) in
  r.1 = Err [RunText [Lit "failed to commit migration "; Disp "v"]; RunText [Lit "cannot commit - no transaction is active"]] /\
  committed r.2 = mkDb [] (Some ["v"%string]).
Proof. vm_compute. split; reflexivity. Qed.

(** Two processes: the second one makes the table, the first one finds the first
    migration recorded and applies the second. *)
Definition launch : process ExampleDb unit :=
  @migrate_apply_packaged_sqlite_at_path _ _ (files true) clock "/p/app.db" database migrations.

Definition start_state : RunState ExampleDb := mkRunState fresh None [] [].

Definition launches : list (process ExampleDb unit) * RunState ExampleDb :=
  foldl pick ([launch; launch], start_state) (replicate 5 0 ++ replicate 7 1 ++ replicate 4 0).

Definition through (p : process ExampleDb unit) : bool := match p with Ended (Ok _) => true | _ => false end.

Example launches_end : committed launches.2 = finished /\ (through <$> launches.1) = [true; false] /\
  (perform launch start_state).1 = Ok tt /\ committed (perform launch start_state).2 = finished.
Proof. vm_compute. repeat split. Qed.

Lemma concurrent_launches_apply_once_witness :
  committed launches.2 = fresh /\ Ended (Ok tt) ∉ launches.1 \/
  exists done_ rest, pending [] migrations = done_ ++ rest /\ applies database project done_ (mkDb [] (Some [])) (committed launches.2) /\
    (Ended (Ok tt) ∈ launches.1 -> rest = []).
Proof.
  apply (concurrent_launches_apply_once database project sqlite_laws migrations unique scripts_behave "/p/app.db" fresh (mkDb [] (Some [])) [] start_state
    launches.1 launches.2 eq_refl eq_refl eq_refl eq_refl).
  rewrite <- (surjective_pairing launches).
  eapply rtc_l; [apply (launch_start database project migrations "/p/app.db" (files true) clock [] start_state); by left|].
  eapply rtc_l; [apply (launch_start database project migrations "/p/app.db" (files true) clock [launch] start_state); by left|].
  apply picks_step.
Defined.

Lemma discovered_migrations_are_the_files_witness : StronglySorted key_lt (file_version <$> migrations)
  /\ exists m, m ∈ migrations /\ file_version m = "1_users"%string /\ down_source m = Some (mkMigrationSource "/p/db/migrations/1_users.down.sql" MigrationFileKind.Sql).
Proof.
  destruct (@discovered_migrations_are_the_files (files true) "/p" migrations entries) as (Hs & _ & Hf); [reflexivity|reflexivity|vm_compute; reflexivity|].
  split; [exact Hs|]. apply (Hf "1_users"%string MigrationDirection.Down). exists "/p/db/migrations/1_users.down.sql"%string. split; [|vm_compute; reflexivity].
  right. right. left.
Defined.

(** The last recorded version is rolled back. *)
Definition rolled_back : ExampleDb := mkDb ["create users"; "drop users"]%string (Some []).

Lemma downs_inside m down sql : m ∈ migrations -> down_source m = Some down -> @migration_sql (files true) down database = Ok sql ->
  script_inside (Db := ExampleDb) sql.
Proof.
  intros Hm Hd Hsql. apply script_behaves. intros ->. unfold migrations in Hm. rewrite !elem_of_cons, elem_of_nil in Hm.
  destruct Hm as [-> |[-> |[]]]; [|done]. injection Hd as <-. vm_compute in Hsql. discriminate Hsql.
Qed.

Lemma rollback_undoes_latest_witness : exists d0 vs done_, select_versions d0 = inl vs /\ vs = ["1_users"%string] /\
  undoes database project migrations done_ d0 rolled_back.
Proof.
  destruct (rollback_undoes_latest database project "/p" (files true) migrations (or_introl eq_refl) downs_inside 3 (mkRunState stopped None [] []) (Ok tt)
    (mkRunState rolled_back None [[Lit "rolled back "; Disp "1_users"]; [Lit "Rolled back "; DispN 1; Lit " migration(s)."]] []))
    as [[_ Hn]|(d0 & vs & order & done_ & rest & Hc & Hv & _ & _ & _ & Hu & _)]; [reflexivity|vm_compute; reflexivity|by destruct (Hn tt)|].
  exists d0, vs, done_. injection Hc as <-. injection Hv as <-. exact (conj eq_refl (conj eq_refl Hu)).
Defined.
End MigrationExample.
