(* ===== verification/RegistryServer.v ===== *)
(** * The hosted package registry

    [crates/ricochet_cli/src/hosted_registry_server.rs], with the checks of
    names, versions and archives it takes from [lib.rs] and
    [static_registry.rs]: who may publish, what an upload has to be, the
    versions of each package, the files below the registry's root, and the
    responses kept for requests that are sent again.

    The state holds the registry in memory, the files and what will go wrong
    with the next operations on them, so that a request can be cut short by
    every failure.  A response is kept as the value that serde writes. *)

From stdpp Require Import base tactics list strings option numbers gmap.
From Stdlib Require Import ZArith NArith Lia Ascii String.
From S2P Require Import Prelude RustStr RustText RustFloat RustPath BTree Syntax Lexer Parser Diagnostic Bytecode Compiler Macro Expander Imports PackageLocks.

Open Scope string_scope.
Open Scope list_scope.
Open Scope nat_scope.

Definition PROTOCOL : string := "ricochet-hosted-registry-v1".
Definition DISCOVERY_MEDIA_TYPE : string := "application/vnd.ricochet.registry.v1+json".
Definition SEARCH_MEDIA_TYPE : string := "application/vnd.ricochet.registry.search.v1+json".
Definition PACKAGE_MEDIA_TYPE : string := "application/vnd.ricochet.registry.package.v1+json".
Definition ARCHIVE_MEDIA_TYPE : string := "application/vnd.ricochet.package.archive.v1+gzip".
Definition PUBLISH_MEDIA_TYPE : string := "application/vnd.ricochet.registry.publish.v1+json".
Definition ERROR_MEDIA_TYPE : string := "application/vnd.ricochet.registry.error.v1+json".
Definition REGISTRY_STATE_FILE : string := "registry.json".
Definition MAX_METADATA_BYTES : N := 2097152.
Definition MAX_ARCHIVE_BYTES : N := 134217728.
Definition MAX_IDEMPOTENCY_RECORDS : N := 4096.

(** ** The registry document *)

Record StoredArchive : Type := mkArchive { archive_path : string; archive_integrity : string; archive_media_type : string }.

Record StoredProvenance : Type := mkProvenance {
  attestation_path : option string; attestation_integrity : option string;
  signature_path : option string; signature_integrity : option string; stored_signature_kind : option string }.

Record StoredVersion : Type := mkStoredVersion {
  version : string; published_at : string; yanked : bool; archive : StoredArchive; package_integrity : string;
  provenance : option StoredProvenance; publisher : option string; yanked_at : option string; yanked_by : option string }.

Record StoredPackage : Type := mkStoredPackage { stored_name : string; versions : list StoredVersion }.

Record RegistryDocument : Type := mkDocument { document_protocol : string; packages : btree StoredPackage }.

Definition default_document : RegistryDocument := mkDocument PROTOCOL [].

Record PublishMetadata : Type := mkMetadata {
  meta_protocol : string; meta_package : string; meta_version : string; meta_package_integrity : string; meta_archive_integrity : string;
  provenance_integrity : option string; meta_signature_integrity : option string; signature_kind : option string }.

(** ** Libraries *)

(** [semver]: its order is total. *)
Class Semver : Type := {
  Version : Type;
  parse_version : string -> Version + msg;
  compare_versions : Version -> Version -> comparison }.

(** What serde derives for the document and the metadata of an upload. *)
Class RegistryFormat : Type := {
  registry_to_string_pretty : RegistryDocument -> string + msg;
  registry_from_str : string -> RegistryDocument + msg;
  publish_metadata_from_slice : list byte -> PublishMetadata + msg }.

(** [toml_edit] *)
Class TomlEdit : Type := {
  TomlDocument : Type;
  TomlItem : Type;
  TomlTable : Type;
  parse_document : string -> TomlDocument + msg;
  document_get : TomlDocument -> string -> option TomlItem;
  item_as_table : TomlItem -> option TomlTable;
  table_get : TomlTable -> string -> option TomlItem;
  item_as_str : TomlItem -> option string }.

(** The entries of a compressed archive, each read with what may fail. *)
Inductive EntryType : Type := EntryRegular | EntryDirectory | EntrySymlink | EntryLink | EntryOther.
Record ArchiveEntry : Type := mkEntry {
  entry_type : EntryType; entry_path : string + msg; entry_size : N + msg; entry_data : list byte + msg }.
Class ArchiveReader : Type := read_archive : list byte -> list (ArchiveEntry + msg) + msg.

(** A temporary directory: what has been done in it, what an operation fails
    with, and the files that are there afterwards. *)
Inductive TempCommand : Type := CreateDirAll (path : string) | CreateFile (path : string) | WriteAll (path : string) (bytes : list byte).
Class TempDirs : Type := {
  temp_dir : string + msg;
  temp_exists : list TempCommand -> string -> bool;
  temp_failure : list TempCommand -> TempCommand -> option msg;
  temp_files : list TempCommand -> FileSystem }.

(** ** Names, versions and digests *)

Definition segment_byte (b : byte) : bool := is_ascii_alphanumeric b || Ascii.eqb b "_" || Ascii.eqb b "-".

(** A character that is not ASCII is no letter here either. *)
Definition valid_segment (segment : string) : bool := negb (String.eqb segment "") && forallb segment_byte (as_bytes segment).

Definition validate_package_name (name : string) : res anyhow unit :=
  if valid_segment name then Ok tt
  else bail [Lit "invalid Ricochet package name "; Dbg name; Lit "; use letters, numbers, _ or -"].

Definition validate_registry_package_segment (segment label package : string) : res anyhow unit :=
  if valid_segment segment then Ok tt
  else bail [Lit "invalid "; Disp label; Lit " in Ricochet package name "; Dbg package; Lit "; use letters, numbers, _ or -"].

Definition scoped_name_error (name : string) : msg :=
  [Lit "invalid scoped Ricochet package name "; Dbg name; Lit "; expected @scope/name"].

Definition validate_registry_package_name (name : string) : res anyhow unit :=
  match strip_prefix "@" name with
  | Some rest =>
      let? parts := option_context (scoped_name_error name) (split_once "/" rest) in
      let '(scope, package) := parts in
      if contains_byte "/" package then bail (scoped_name_error name)
      else
        let? _ := validate_registry_package_segment scope "scope" name in
        validate_registry_package_segment package "package" name
  | None => validate_package_name name
  end.

Definition default_dependency_alias (package : string) : string :=
  match rsplit_once "/" (as_bytes package) with Some (_, after) => from_bytes after | None => package end.

Definition registry_package_relative_path (package : string) : string := foldl join "" (split_char "/" package).

Definition validate_signature_kind (kind : string) : res anyhow unit :=
  if String.eqb kind "" || negb (forallb (fun b => segment_byte b || Ascii.eqb b ".") (as_bytes kind)) then
    bail [Lit "invalid signature kind "; Dbg kind; Lit "; use letters, numbers, _, - or ."]
  else Ok tt.

Definition artifact_relative_path (package version leaf : string) : string :=
  join (join (join "artifacts" (registry_package_relative_path package)) version) leaf.

Fixpoint check_segments (label : string) (l : list string) : res anyhow unit :=
  match l with
  | [] => Ok tt
  | segment :: l' =>
      if String.eqb segment "" || String.eqb segment "." || String.eqb segment ".." then
        bail [Disp label; Lit " path must not contain empty, . or .. path segments"]
      else check_segments label l'
  end.

Definition validate_registry_relative_path (path label : string) : res anyhow unit :=
  if String.eqb path "" then bail [Disp label; Lit " must be a registry-relative path"]
  else if contains_byte ":" path then bail [Disp label; Lit " must be a registry-relative path, got "; Dbg path]
  else if starts_with "/" path then bail [Disp label; Lit " must not start with /"]
  else if contains_byte backslash path then bail [Disp label; Lit " path must use forward slashes"]
  else check_segments label (split_char "/" path).

(** ** Publishers *)

Module PublisherPattern.
Inductive PublisherPattern : Type := All | Exact (package : string) | Scope (scope : string).
End PublisherPattern.
Abbreviation PublisherPattern := PublisherPattern.PublisherPattern.

Definition pattern_matches (p : PublisherPattern) (package : string) : bool :=
  match p with
  | PublisherPattern.All => true
  | PublisherPattern.Exact expected => String.eqb expected package
  | PublisherPattern.Scope scope =>
      match strip_prefix "@" package with
      | Some rest => match split_once "/" rest with Some (actual, _) => String.eqb actual scope | None => false end
      | None => false
      end
  end.

Record PublisherPolicy : Type := mkPolicy { pattern : PublisherPattern; policy_token_hash : string; policy_label : string }.

Record AuthenticatedPublisher : Type := mkPublisher { publisher_token_hash : string; publisher_label : string }.

(** ** Responses *)

(** A value given to [json!], or the bytes of a file. *)
Inductive ResponseBody : Type :=
  | DiscoveryBody (base_url : string)
  | SearchBody (packages : list (string * string))
  | PackageBody (name : string) (latest : option string) (versions : list StoredVersion)
  | ErrorBody (code : string) (message : msg)
  | BytesBody (bytes : list byte).

Record StoredHttpResponse : Type := mkResponse { status : N; media_type : string; response_body : ResponseBody }.

(** No error of the server has details. *)
Record RegistryHttpError : Type := mkHttpError { error_status : N; code : string; message : msg }.

Definition json_stored_response (status : N) (media_type : string) (value : ResponseBody) : StoredHttpResponse :=
  mkResponse status media_type value.

Definition error_stored_response (status : N) (code : string) (message : msg) : StoredHttpResponse :=
  json_stored_response status ERROR_MEDIA_TYPE (ErrorBody code message).

(** [IntoResponse]: what the client gets. *)
Definition into_response (r : res RegistryHttpError StoredHttpResponse) : res RegistryHttpError StoredHttpResponse :=
  match r with Err e => Ok (error_stored_response (error_status e) (code e) (message e)) | r => r end.

(** [anyhow::Error::to_string]: the outermost text. *)
Definition anyhow_display (e : anyhow) : msg := match e with Text m :: _ => m | _ => [] end.

Definition bad_request_text (m : msg) : RegistryHttpError := mkHttpError 400 "bad_request" m.
Definition bad_request (e : anyhow) : RegistryHttpError := bad_request_text (anyhow_display e).
Definition not_found (m : msg) : RegistryHttpError := mkHttpError 404 "not_found" m.
Definition internal_error (m : msg) : RegistryHttpError := mkHttpError 500 "internal_error" m.

Abbreviation http := (res RegistryHttpError).

Definition or_bad_request {A : Type} (r : res anyhow A) : http A := rmap_err bad_request r.

(** ** Uploads *)

(** The two headers that the handlers read, where they are text. *)
Record HeaderMap : Type := mkHeaders { authorization : option string; idempotency_header : option string }.

(** A part of a multipart body, with its bytes unless reading them failed. *)
Record Field : Type := mkField { field_name : option string; field_content_type : option string; field_bytes : list byte + msg }.

Record PublishUpload : Type := mkUpload {
  metadata : PublishMetadata; archive_bytes : list byte; provenance_bytes : option (list byte); signature_bytes : option (list byte);
  digest : string }.

Record PackageMetadata : Type := mkPackageMetadata { metadata_name : option string; metadata_version : option string }.

Definition ensure_single_part (current : option (list byte)) (name : string) : http unit :=
  match current with
  | Some _ => Err (bad_request_text [Lit "duplicate multipart field "; Dbg name])
  | None => Ok tt
  end.

Definition ensure_part_media_type (actual : option string) (expected label : string) : http unit :=
  match actual with
  | None => Err (bad_request_text [Disp label; Lit " multipart part must include Content-Type "; Disp expected])
  | Some actual =>
      let? media_type := trim (default "" (head (split_char ";" actual))) in
      if String.eqb (to_ascii_lowercase media_type) (to_ascii_lowercase expected) then Ok tt
      else Err (bad_request_text [Disp label; Lit " multipart part has Content-Type "; Dbg actual; Lit ", expected "; Disp expected])
  end.

(** The parts read so far. *)
Record UploadParts : Type := mkParts {
  part_metadata : option (list byte); part_archive : option (list byte);
  part_provenance : option (list byte); part_signature : option (list byte) }.

Definition length_N (bytes : list byte) : N := N.of_nat (length bytes).

Definition read_part (p : UploadParts) (f : Field) : http UploadParts :=
  let name := default "" (field_name f) in
  match field_bytes f with
  | inr e => Err (bad_request_text e)
  | inl bytes =>
      if String.eqb name "metadata" then
        let? _ := ensure_single_part (part_metadata p) "metadata" in
        let? _ := ensure_part_media_type (field_content_type f) PUBLISH_MEDIA_TYPE "metadata" in
        if (MAX_METADATA_BYTES <? length_N bytes)%N then Err (bad_request_text [Lit "publish metadata is too large"])
        else Ok (mkParts (Some bytes) (part_archive p) (part_provenance p) (part_signature p))
      else if String.eqb name "archive" then
        let? _ := ensure_single_part (part_archive p) "archive" in
        let? _ := ensure_part_media_type (field_content_type f) ARCHIVE_MEDIA_TYPE "archive" in
        if (MAX_ARCHIVE_BYTES <? length_N bytes)%N then Err (bad_request_text [Lit "package archive is too large"])
        else Ok (mkParts (part_metadata p) (Some bytes) (part_provenance p) (part_signature p))
      else if String.eqb name "provenance" then
        let? _ := ensure_single_part (part_provenance p) "provenance" in
        Ok (mkParts (part_metadata p) (part_archive p) (Some bytes) (part_signature p))
      else if String.eqb name "signature" then
        let? _ := ensure_single_part (part_signature p) "signature" in
        Ok (mkParts (part_metadata p) (part_archive p) (part_provenance p) (Some bytes))
      else Err (bad_request_text [Lit "unsupported multipart field "; Dbg name])
  end.

Fixpoint read_parts (p : UploadParts) (fields : list (Field + msg)) : http UploadParts :=
  match fields with
  | [] => Ok p
  | inr e :: _ => Err (bad_request_text e)
  | inl f :: fields' => let? p := read_part p f in read_parts p fields'
  end.

Definition digest_part (label bytes : list byte) : list byte := label ++ le_bytes 8 (length_N bytes) ++ bytes.

Definition digest_option (label : string) (bytes : option (list byte)) : list byte :=
  match bytes with Some bytes => digest_part (as_bytes label) bytes | None => [] end.

(** What the hasher of [publish_body_digest] is given. *)
Definition publish_body_input (metadata archive : list byte) (provenance signature : option (list byte)) : list byte :=
  digest_part (as_bytes "metadata") metadata ++ digest_part (as_bytes "archive") archive
  ++ digest_option "provenance" provenance ++ digest_option "signature" signature.

(** ** Archives *)

Definition MAX_ARCHIVE_ENTRIES : N := 4096.
Definition MAX_ARCHIVE_ENTRY_BYTES : N := 67108864.
Definition MAX_UNPACKED_BYTES : N := 134217728.

Fixpoint check_archive_components (l : list Component) : res anyhow unit :=
  match l with
  | [] => Ok tt
  | Component.Normal _ :: l' | Component.CurDir :: l' => check_archive_components l'
  | Component.ParentDir :: _ => bail [Lit "static registry archive path must not contain .."]
  | Component.RootDir :: _ => bail [Lit "static registry archive path must be relative"]
  end.

Definition validate_archive_relative_path (path : string) : res anyhow unit := check_archive_components (components path).

Section Archives.
Context `{TempDirs} `{ArchiveReader}.

(** An operation on the temporary directory, after [done_]. *)
Definition temp_run (done_ : list TempCommand) (c : TempCommand) (m : msg) : res anyhow (list TempCommand) :=
  match temp_failure done_ c with Some e => Err [Text m; Text e] | None => Ok (done_ ++ [c]) end.

Definition extract_entry (destination : string) (entry : ArchiveEntry) (total_unpacked : N) (done_ : list TempCommand)
    : res anyhow (N * list TempCommand) :=
  match entry_type entry with
  | EntrySymlink | EntryLink => bail [Lit "static registry package archives must not contain links"]
  | EntryOther => bail [Lit "static registry package archives may only contain files and directories"]
  | kind =>
      let? path := lib_call [Lit "failed to read static registry archive path"] (entry_path entry) in
      let? _ := validate_archive_relative_path path in
      let destination_path := join destination path in
      match kind with
      | EntryDirectory =>
          let? done_ := temp_run done_ (CreateDirAll destination_path) [Lit "failed to create "; Disp destination_path] in
          Ok (total_unpacked, done_)
      | _ =>
          let? size := lib_call [Lit "failed to read static registry archive entry size"] (entry_size entry) in
          if (MAX_ARCHIVE_ENTRY_BYTES <? size)%N then
            bail [Lit "static registry archive entry "; Disp path; Lit " is too large: "; DispN size; Lit " bytes"]
          else if (MAX_UNPACKED_BYTES <? total_unpacked + size)%N then
            bail [Lit "static registry package archive unpacks to more than "; DispN MAX_UNPACKED_BYTES; Lit " bytes"]
          else
            let? done_ :=
              match parent destination_path with
              | Some dir => temp_run done_ (CreateDirAll dir) [Lit "failed to create "; Disp dir]
              | None => Ok done_
              end in
            let? done_ := temp_run done_ (CreateFile destination_path) [Lit "failed to create "; Disp destination_path] in
            let? bytes := lib_call [Lit "failed to unpack "; Disp destination_path] (entry_data entry) in
            let? done_ := temp_run done_ (WriteAll destination_path bytes) [Lit "failed to unpack "; Disp destination_path] in
            Ok ((total_unpacked + length_N bytes)%N, done_)
      end
  end.

Fixpoint extract_entries (destination : string) (entry_count total_unpacked : N) (entries : list (ArchiveEntry + msg))
    (done_ : list TempCommand) : res anyhow (list TempCommand) :=
  match entries with
  | [] => Ok done_
  | entry :: entries' =>
      if (MAX_ARCHIVE_ENTRIES <? entry_count + 1)%N then
        bail [Lit "static registry package archive has too many entries: more than "; DispN MAX_ARCHIVE_ENTRIES]
      else
        let? entry := lib_call [Lit "failed to read static registry archive entry"] entry in
        let? r := extract_entry destination entry total_unpacked done_ in
        extract_entries destination (entry_count + 1) r.1 entries' r.2
  end.

Definition extract_package_archive (bytes : list byte) (destination : string) : res anyhow (list TempCommand) :=
  if temp_exists [] destination then bail [Lit "package archive destination already exists: "; Disp destination]
  else
    let? done_ := temp_run [] (CreateDirAll destination) [Lit "failed to create "; Disp destination] in
    let? entries := lib_call [Lit "failed to read static registry package archive"] (read_archive bytes) in
    extract_entries destination 0 0 entries done_.
End Archives.

(** ** The server *)

(** What happens to the next operation on the files: it works, it fails, or a
    write stops after some bytes. *)
Inductive IoOutcome : Type := IoDone | IoFails (error : string) | IoPartial (count : nat) (error : string).

Record IdempotencyRecord : Type := mkRecord {
  token_hash : string; method : string; path : string; body_digest : string; stored_at_ms : Z; response : StoredHttpResponse }.

(** The state behind the locks, and the files by their path. *)
Record ServerState : Type := mkState {
  registry : RegistryDocument;
  idempotency : btree IdempotencyRecord;
  files : gmap string (list byte);
  outcomes : list IoOutcome }.

Definition set_registry (d : RegistryDocument) (s : ServerState) : ServerState := mkState d (idempotency s) (files s) (outcomes s).
Definition set_idempotency (r : btree IdempotencyRecord) (s : ServerState) : ServerState := mkState (registry s) r (files s) (outcomes s).
Definition set_files (f : gmap string (list byte)) (s : ServerState) : ServerState := mkState (registry s) (idempotency s) f (outcomes s).
Definition set_packages (p : btree StoredPackage) (s : ServerState) : ServerState :=
  set_registry (mkDocument (document_protocol (registry s)) p) s.

(** What a request reads of the clock. *)
Record Clock : Type := mkClock { now_text : string; now_ms : Z }.

Abbreviation server := (smethod ServerState RegistryHttpError).

Definition next_outcome : server IoOutcome := fun s =>
  match outcomes s with
  | [] => (Ok IoDone, s)
  | o :: rest => (Ok o, mkState (registry s) (idempotency s) (files s) rest)
  end.

Definition fail {A : Type} (e : RegistryHttpError) : server A := mtry (Err e).

(** Directories are not tracked. *)
Definition create_dir_all (path : string) : server unit :=
  let^ o := next_outcome in
  match o with
  | IoDone => mok tt
  | IoFails error | IoPartial _ error => fail (internal_error [Lit "failed to create "; Disp path; Lit ": "; Disp error])
  end.

(** [OpenOptions::create_new]: an existing file is an error. *)
Definition open_new (path : string) : server unit :=
  let^ s := mself in
  let^ o := next_outcome in
  match o, files s !! path with
  | IoDone, None => mset (fun s => set_files (<[path := []]> (files s)) s)
  | IoDone, Some _ => fail (internal_error [Lit "failed to create "; Disp path; Lit ": "; Disp "File exists (os error 17)"])
  | IoFails error, _ | IoPartial _ error, _ => fail (internal_error [Lit "failed to create "; Disp path; Lit ": "; Disp error])
  end.

(** [File::write_all] on an open file, and [fs::write] on a path: what is
    there is replaced by what could be written. *)
Definition write_all (path : string) (bytes : list byte) : server unit :=
  let^ o := next_outcome in
  let failed (error : string) := fail (internal_error [Lit "failed to write "; Disp path; Lit ": "; Disp error]) in
  match o with
  | IoDone => mset (fun s => set_files (<[path := bytes]> (files s)) s)
  | IoFails error => failed error
  | IoPartial count error =>
      let^ _ := mset (fun s => set_files (<[path := take count bytes]> (files s)) s) in
      failed error
  end.

Definition write_new_file (path : string) (bytes : list byte) : server unit :=
  let^ _ := match parent path with Some dir => create_dir_all dir | None => mok tt end in
  let^ _ := open_new path in
  write_all path bytes.

Section Server.
Context `{Sha256} `{Semver} `{RegistryFormat} `{TomlEdit} `{TempDirs} `{ArchiveReader} `{Environment}.

(** The depth to which a package's directories are searched. *)
Context (depth : nat).

Definition bytes_integrity (bytes : list byte) : string := ("sha256:" ++ hex_digest (sha256 bytes))%string.

Definition validate_package_version (v : string) : res anyhow unit :=
  match parse_version v with
  | inl _ => Ok tt
  | inr e => Err [Text [Lit "invalid package version "; Dbg v; Lit "; expected semantic version"]; Text e]
  end.

(** *** Policies *)

Definition validate_env_name (name : string) : res anyhow unit :=
  if String.eqb name "" then bail [Lit "environment variable name must not be empty"]
  else if contains_byte "=" name then bail [Lit "environment variable name must not contain ="]
  else if contains_byte nul name then bail [Lit "environment variable name must not contain NUL"]
  else Ok tt.

Definition load_publisher_policy (p : PublisherPattern) (token_env label : string) : res anyhow PublisherPolicy :=
  let? _ := validate_env_name token_env in
  match env_var token_env with
  | inr e => Err [Text [Lit "hosted registry publisher token env var "; Disp token_env; Lit " is not set"]; Text [Disp e]]
  | inl token =>
      if String.eqb token "" then bail [Lit "hosted registry publisher token env var "; Disp token_env; Lit " is empty"]
      else Ok (mkPolicy p (bytes_integrity (as_bytes token)) label)
  end.

Definition validate_policy_segment (segment label package : string) : res anyhow unit :=
  if valid_segment segment then Ok tt
  else bail [Lit "invalid "; Disp label; Lit " in Ricochet package policy "; Dbg package; Lit "; use letters, numbers, _ or -"].

Definition parse_publisher_pattern (pattern : string) : res anyhow PublisherPattern :=
  if String.eqb pattern "*" then Ok PublisherPattern.All
  else
    match strip_prefix "@" pattern ≫= strip_suffix "/*" with
    | Some scope =>
        let? _ := validate_policy_segment scope "scope" pattern in
        Ok (PublisherPattern.Scope scope)
    | None =>
        let? _ := validate_registry_package_name pattern in
        Ok (PublisherPattern.Exact pattern)
    end.

Fixpoint token_policies (token_envs : list string) : res anyhow (list PublisherPolicy) :=
  match token_envs with
  | [] => Ok []
  | token_env :: rest =>
      let? p := load_publisher_policy PublisherPattern.All token_env (token_env ++ ":*")%string in
      let? ps := token_policies rest in
      Ok (p :: ps)
  end.

Fixpoint publisher_policies (publishers : list string) : res anyhow (list PublisherPolicy) :=
  match publishers with
  | [] => Ok []
  | publisher :: rest =>
      let? parts := option_context [Lit "publisher policy "; Dbg publisher; Lit " must use PACKAGE=ENV"] (split_once "=" publisher) in
      let? pattern := parse_publisher_pattern parts.1 in
      let? p := load_publisher_policy pattern parts.2 publisher in
      let? ps := publisher_policies rest in
      Ok (p :: ps)
  end.

Definition from_options (token_envs publishers : list string) : res anyhow (list PublisherPolicy) :=
  let? ps := token_policies token_envs in
  let? qs := publisher_policies publishers in
  Ok (ps ++ qs).

Definition bearer_error : RegistryHttpError := mkHttpError 401 "missing_bearer_token" [Lit "Authorization: Bearer token is required"].

Definition bearer_token (headers : HeaderMap) : http string :=
  match authorization headers with
  | None => Err bearer_error
  | Some header =>
      match strip_prefix "Bearer " header with
      | None => Err bearer_error
      | Some token => if String.eqb token "" then Err bearer_error else Ok token
      end
  end.

Fixpoint find_policy (hash package : string) (token_known : bool) (policies : list PublisherPolicy) : http AuthenticatedPublisher :=
  match policies with
  | [] =>
      if token_known then
        Err (mkHttpError 403 "publisher_forbidden" [Lit "publisher token is not authorized for package "; Disp package])
      else Err (mkHttpError 401 "invalid_bearer_token" [Lit "missing or invalid hosted registry bearer token"])
  | policy :: rest =>
      if negb (String.eqb (policy_token_hash policy) hash) then find_policy hash package token_known rest
      else if pattern_matches (pattern policy) package then Ok (mkPublisher hash (policy_label policy))
      else find_policy hash package true rest
  end.

Definition authenticate (policies : list PublisherPolicy) (headers : HeaderMap) (package : string) : http AuthenticatedPublisher :=
  match policies with
  | [] =>
      Err (mkHttpError 401 "publisher_auth_not_configured" [Lit "hosted registry server has no publisher token policy configured"])
  | _ =>
      let? token := bearer_token headers in
      find_policy (bytes_integrity (as_bytes token)) package false policies
  end.

(** A header's value has no character outside of ASCII. *)
Definition idempotency_key (headers : HeaderMap) : http string :=
  match idempotency_header headers with
  | None => Err (bad_request_text [Lit "Idempotency-Key header is required"])
  | Some key =>
      if String.eqb key "" || (128 <? N.of_nat (String.length key))%N || existsb (fun b => is_whitespace (byte_val b)) (as_bytes key) then
        Err (bad_request_text [Lit "Idempotency-Key must be non-empty, at most 128 characters, and contain no whitespace"])
      else Ok key
  end.

(** *** The records of requests *)

Definition replay_error : RegistryHttpError :=
  mkHttpError 409 "idempotency_conflict" [Lit "Idempotency-Key was replayed with a different publisher, path, method, or body"].

Definition same_request (r : IdempotencyRecord) (hash m p d : string) : bool :=
  String.eqb (token_hash r) hash && String.eqb (method r) m && String.eqb (path r) p && String.eqb (body_digest r) d.

Definition idempotency_replay (key hash m p d : string) : server (option StoredHttpResponse) :=
  let^ s := mself in
  match bt_get key (idempotency s) with
  | None => mok None
  | Some r => if same_request r hash m p d then mok (Some (response r)) else fail replay_error
  end.

(** [(record.stored_at_ms, key)], compared. *)
Definition older (a b : string * IdempotencyRecord) : bool :=
  (stored_at_ms a.2 <? stored_at_ms b.2)%Z
  || (stored_at_ms a.2 =? stored_at_ms b.2)%Z && (match String.compare a.1 b.1 with Lt => true | _ => false end).

Definition oldest (records : btree IdempotencyRecord) : option (string * IdempotencyRecord) :=
  foldl (fun acc r => match acc with Some a => if older r a then Some r else acc | None => Some r end) None records.

Fixpoint prune_from (fuel : nat) (records : btree IdempotencyRecord) : http (btree IdempotencyRecord) :=
  match fuel with
  | O => OutOfFuel
  | S fuel' =>
      if (MAX_IDEMPOTENCY_RECORDS <? N.of_nat (length records))%N then
        match oldest records with
        | None => Ok records
        | Some r => prune_from fuel' (bt_remove r.1 records)
        end
      else Ok records
  end.

Definition prune_idempotency_records (records : btree IdempotencyRecord) : http (btree IdempotencyRecord) :=
  prune_from (S (length records)) records.

Definition store_idempotency (clock : Clock) (key hash m p d : string) (r : StoredHttpResponse) : server unit :=
  let^ _ := mset (fun s => set_idempotency (bt_insert key (mkRecord hash m p d (now_ms clock) r) (idempotency s)) s) in
  let^ s := mself in
  let^ records := mtry (prune_idempotency_records (idempotency s)) in
  mset (set_idempotency records).
(** *** Checks of an upload *)

Definition publish_body_digest (metadata archive : list byte) (provenance signature : option (list byte)) : string :=
  ("sha256:" ++ hex_digest (sha256 (publish_body_input metadata archive provenance signature)))%string.

Definition read_publish_upload (fields : list (Field + msg)) : http PublishUpload :=
  let? p := read_parts (mkParts None None None None) fields in
  match part_metadata p, part_archive p with
  | None, _ => Err (bad_request_text [Lit "publish metadata part is missing"])
  | Some _, None => Err (bad_request_text [Lit "archive part is missing"])
  | Some metadata_bytes, Some archive_bytes =>
      match publish_metadata_from_slice metadata_bytes with
      | inr e => Err (bad_request_text ([Lit "failed to parse publish metadata JSON: "] ++ e))
      | inl m =>
          Ok (mkUpload m archive_bytes (part_provenance p) (part_signature p)
                (publish_body_digest metadata_bytes archive_bytes (part_provenance p) (part_signature p)))
      end
  end.

Definition read_package_metadata {fs : FileSystem} (path : string) : res anyhow PackageMetadata :=
  let manifest_path := join path "ricochet.toml" in
  if negb (is_file manifest_path) then Ok (mkPackageMetadata None None)
  else
    let? source := lib_call [Lit "failed to read "; Disp manifest_path] (read_to_string manifest_path) in
    let? doc := lib_call [Lit "failed to parse "; Disp manifest_path] (parse_document source) in
    let package := document_get doc "package" ≫= item_as_table in
    let package_version := package ≫= (fun t => table_get t "version" ≫= item_as_str) in
    let? _ := match package_version with Some v => validate_package_version v | None => Ok tt end in
    Ok (mkPackageMetadata (package ≫= (fun t => table_get t "name" ≫= item_as_str)) package_version).

Definition validate_publish_artifact (label : string) (bytes : option (list byte)) (integrity : option string) : http unit :=
  match bytes, integrity with
  | None, None => Ok tt
  | Some bytes, Some integrity =>
      let? _ := or_bad_request (validate_package_integrity integrity) in
      let actual := bytes_integrity bytes in
      if negb (String.eqb actual integrity) then
        Err (bad_request_text [Disp label; Lit " integrity "; Disp actual; Lit " does not match publish metadata "; Disp integrity])
      else Ok tt
  | Some _, None =>
      Err (bad_request_text [Disp label; Lit " part requires "; Disp label; Lit "_integrity in publish metadata"])
  | None, Some _ =>
      Err (bad_request_text [Disp label; Lit "_integrity requires "; Disp label; Lit " multipart part"])
  end.

(** What the archive's own manifest and files have to be. *)
Definition validate_archive (package v : string) (upload : PublishUpload) : http unit :=
  match temp_dir with
  | inr e => Err (internal_error ([Lit "failed to create temporary publish directory: "] ++ e))
  | inl tmp_root =>
      let extract_dir := join tmp_root "package" in
      let? done_ := or_bad_request (extract_package_archive (archive_bytes upload) extract_dir) in
      let fs := temp_files done_ in
      let? m := or_bad_request (read_package_metadata (fs := fs) extract_dir) in
      if negb (bool_decide (metadata_name m = Some package)) then
        Err (bad_request_text ([Lit "archive manifest package name "] ++ debug_option (metadata_name m)
               ++ [Lit " does not match request package "; Dbg package]))
      else if negb (bool_decide (metadata_version m = Some v)) then
        Err (bad_request_text ([Lit "archive manifest version "] ++ debug_option (metadata_version m)
               ++ [Lit " does not match request version "; Dbg v]))
      else
        let? integrity := or_bad_request (@package_tree_integrity fs _ depth extract_dir) in
        if negb (String.eqb integrity (meta_package_integrity (metadata upload))) then
          Err (bad_request_text [Lit "package tree integrity "; Disp integrity; Lit " does not match publish metadata ";
                                 Disp (meta_package_integrity (metadata upload))])
        else Ok tt
  end.

Definition validate_publish_upload (package v : string) (upload : PublishUpload) : http unit :=
  let m := metadata upload in
  if negb (String.eqb (meta_protocol m) PROTOCOL) then
    Err (bad_request_text [Lit "publish metadata uses unsupported protocol "; Dbg (meta_protocol m)])
  else
    let? _ := or_bad_request (validate_registry_package_name (meta_package m)) in
    let? _ := or_bad_request (validate_package_version (meta_version m)) in
    if negb (String.eqb (meta_package m) package) then
      Err (bad_request_text [Lit "publish metadata package "; Dbg (meta_package m); Lit " does not match request package "; Dbg package])
    else if negb (String.eqb (meta_version m) v) then
      Err (bad_request_text [Lit "publish metadata version "; Dbg (meta_version m); Lit " does not match request version "; Dbg v])
    else
      let? _ := or_bad_request (validate_package_integrity (meta_archive_integrity m)) in
      let? _ := or_bad_request (validate_package_integrity (meta_package_integrity m)) in
      let actual := bytes_integrity (archive_bytes upload) in
      if negb (String.eqb actual (meta_archive_integrity m)) then
        Err (bad_request_text [Lit "archive integrity "; Disp actual; Lit " does not match publish metadata "; Disp (meta_archive_integrity m)])
      else
        let? _ := validate_publish_artifact "provenance" (provenance_bytes upload) (provenance_integrity m) in
        let? _ := validate_publish_artifact "signature" (signature_bytes upload) (meta_signature_integrity m) in
        let? _ :=
          match signature_kind m with
          | Some kind =>
              let? _ := or_bad_request (validate_signature_kind kind) in
              match meta_signature_integrity m with
              | None => Err (bad_request_text [Lit "signature_kind requires signature_integrity"])
              | Some _ => Ok tt
              end
          | None => Ok tt
          end in
        validate_archive package v upload.

(** *** Versions *)

(** [expect("validated version should parse")] *)
Definition parsed_version (v : StoredVersion) : http (Version * StoredVersion) :=
  match parse_version (version v) with inl p => Ok (p, v) | inr _ => Panic end.

Fixpoint parsed_versions (l : list StoredVersion) : http (list (Version * StoredVersion)) :=
  match l with
  | [] => Ok []
  | v :: l' => let? p := parsed_version v in let? ps := parsed_versions l' in Ok (p :: ps)
  end.

Definition compare_parsed (a b : Version * StoredVersion) : comparison := compare_versions a.1 b.1.

(** A list of less than two elements is not compared. *)
Definition sort_versions (l : list StoredVersion) : http (list StoredVersion) :=
  if length l <? 2 then Ok l else let? ps := parsed_versions l in Ok (sort_by compare_parsed ps).*2.

(** [max_by] returns the last of the greatest elements. *)
Definition max_step (acc : option (Version * StoredVersion)) (v : StoredVersion) : option (Version * StoredVersion) :=
  if yanked v then acc
  else match parse_version (version v) with
       | inr _ => acc
       | inl p =>
           match acc with
           | Some a => match compare_versions a.1 p with Gt => acc | _ => Some (p, v) end
           | None => Some (p, v)
           end
       end.

Definition latest_non_yanked_version (l : list StoredVersion) : option StoredVersion := snd <$> foldl max_step None l.

Definition package_response_from_stored (p : StoredPackage) : StoredHttpResponse :=
  json_stored_response 200 PACKAGE_MEDIA_TYPE
    (PackageBody (stored_name p) (version <$> latest_non_yanked_version (versions p)) (versions p)).

(** *** The registry's file *)

Definition validate_optional_artifact_pair (p integrity : option string) (label : string) : res anyhow unit :=
  match p, integrity with
  | None, None => Ok tt
  | Some p, Some integrity =>
      let? _ := validate_registry_relative_path p label in
      validate_package_integrity integrity
  | Some _, None => bail [Disp label; Lit " path is present without integrity"]
  | None, Some _ => bail [Disp label; Lit " integrity is present without path"]
  end.

Definition validate_stored_provenance (package_name v : string) (p : StoredProvenance) : res anyhow unit :=
  let? _ := validate_optional_artifact_pair (attestation_path p) (attestation_integrity p) "provenance attestation" in
  let? _ := validate_optional_artifact_pair (signature_path p) (signature_integrity p) "signature" in
  match stored_signature_kind p with
  | None => Ok tt
  | Some kind =>
      let? _ := validate_signature_kind kind in
      match signature_path p, signature_integrity p with
      | Some _, Some _ => Ok tt
      | _, _ => bail [Lit "hosted registry state package "; Disp package_name; Lit " "; Disp v; Lit " has signature_kind without signature"]
      end
  end.

Fixpoint validate_stored_versions (package_name : string) (seen : list string) (l : list StoredVersion) : res anyhow unit :=
  match l with
  | [] => Ok tt
  | v :: l' =>
      let? _ := validate_package_version (version v) in
      if existsb (String.eqb (version v)) seen then
        bail [Lit "hosted registry state package "; Disp package_name; Lit " has duplicate version "; Disp (version v)]
      else
        let? _ := validate_registry_relative_path (archive_path (archive v)) "archive" in
        let? _ := validate_package_integrity (archive_integrity (archive v)) in
        let? _ := validate_package_integrity (package_integrity v) in
        if negb (String.eqb (archive_media_type (archive v)) ARCHIVE_MEDIA_TYPE) then
          bail [Lit "hosted registry state package "; Disp package_name; Lit " "; Disp (version v);
                Lit " has unsupported archive media type "; Dbg (archive_media_type (archive v))]
        else
          let? _ := match provenance v with Some p => validate_stored_provenance package_name (version v) p | None => Ok tt end in
          validate_stored_versions package_name (version v :: seen) l'
  end.

Fixpoint validate_packages (l : btree StoredPackage) : res anyhow unit :=
  match l with
  | [] => Ok tt
  | (package_name, package) :: l' =>
      let? _ := validate_registry_package_name package_name in
      if negb (String.eqb (stored_name package) package_name) then
        bail [Lit "hosted registry state package key "; Dbg package_name; Lit " does not match package name "; Dbg (stored_name package)]
      else
        let? _ := validate_stored_versions package_name [] (versions package) in
        validate_packages l'
  end.

Definition validate_registry_document (d : RegistryDocument) : res anyhow unit :=
  if negb (String.eqb (document_protocol d) PROTOCOL) then
    bail [Lit "unsupported hosted registry state protocol "; Dbg (document_protocol d)]
  else validate_packages (packages d).
(** *** Requests *)

Context (root base_url : string) (policies : list PublisherPolicy).

Definition state_path : string := join root REGISTRY_STATE_FILE.

Definition load_registry (io : IoOutcome) (f : gmap string (list byte)) : res anyhow RegistryDocument :=
  match f !! state_path with
  | None => Ok default_document
  | Some bytes =>
      let failed (e : msg) := Err [Text [Lit "failed to read "; Disp state_path]; Text e] in
      match io, utf8_chars bytes with
      | IoDone, Some _ =>
          let? d := lib_call [Lit "failed to parse "; Disp state_path] (registry_from_str (from_bytes bytes)) in
          let? _ := validate_registry_document d in
          Ok d
      | IoDone, None => failed [Lit "stream did not contain valid UTF-8"]
      | IoFails e, _ | IoPartial _ e, _ => failed [Disp e]
      end
  end.

(** The state that [serve] starts with. *)
Definition initial_state (io : IoOutcome) (f : gmap string (list byte)) : res anyhow ServerState :=
  let? d := load_registry io f in Ok (mkState d [] f []).

Definition save_registry (d : RegistryDocument) : server unit :=
  match registry_to_string_pretty d with
  | inr e => fail (internal_error ([Lit "failed to encode registry metadata: "] ++ e))
  | inl text => write_all state_path (as_bytes text)
  end.

Definition discovery : StoredHttpResponse := json_stored_response 200 DISCOVERY_MEDIA_TYPE (DiscoveryBody base_url).

Record SearchQuery : Type := mkQuery { q : option string; limit : option N; offset : option N }.

Definition search_match (needle : string) (p : StoredPackage) : option (string * string) :=
  if negb (String.eqb needle "") && (match string_find needle (to_ascii_lowercase (stored_name p)) with Some _ => false | None => true end)
  then None
  else (fun v => (stored_name p, version v)) <$> latest_non_yanked_version (versions p).

Definition search_response (query : SearchQuery) : server StoredHttpResponse :=
  let needle := to_ascii_lowercase (default "" (q query)) in
  let limit := N.min (default 50%N (limit query)) 100 in
  let offset := default 0%N (offset query) in
  let^ s := mself in
  let found := sort_by_name (omap (search_match needle) (bt_values (packages (registry s)))) in
  mok (json_stored_response 200 SEARCH_MEDIA_TYPE (SearchBody (take (N.to_nat limit) (drop (N.to_nat offset) found)))).

Definition no_package (package : string) : RegistryHttpError :=
  not_found [Lit "hosted registry does not contain package "; Disp package].
Definition no_version (package v : string) : RegistryHttpError :=
  not_found [Lit "hosted registry does not contain package "; Disp package; Lit " "; Disp v].

Definition find_version (v : string) (l : list StoredVersion) : option StoredVersion :=
  List.find (fun stored => String.eqb (version stored) v) l.

Definition package_response (package : string) (v : option string) : server StoredHttpResponse :=
  let^ _ := mtry (or_bad_request (validate_registry_package_name package)) in
  let^ _ := mtry (match v with Some v => or_bad_request (validate_package_version v) | None => Ok tt end) in
  let^ s := mself in
  match bt_get package (packages (registry s)) with
  | None => fail (no_package package)
  | Some stored =>
      let^ listed :=
        match v with
        | Some v => match find_version v (versions stored) with Some x => mok [x] | None => fail (no_version package v) end
        | None => mok (versions stored)
        end in
      let^ listed := mtry (sort_versions listed) in
      let latest := version <$> latest_non_yanked_version (versions stored) in
      mok (json_stored_response 200 PACKAGE_MEDIA_TYPE (PackageBody (stored_name stored) latest listed))
  end.

Fixpoint trim_start_slashes (s : string) : string :=
  match s with
  | String c s' => if Ascii.eqb c "/" then trim_start_slashes s' else s
  | EmptyString => s
  end.

Definition ends_with (suffix s : string) : bool := match strip_suffix suffix s with Some _ => true | None => false end.

Definition artifact_response (uri_path : string) : server StoredHttpResponse :=
  let relative := trim_start_slashes uri_path in
  if negb (starts_with "artifacts/" relative) then fail (not_found [Lit "hosted registry route not found"])
  else
    let^ _ := mtry (or_bad_request (validate_registry_relative_path relative "artifact")) in
    let^ o := next_outcome in
    let^ s := mself in
    match o, files s !! join root relative with
    | IoDone, Some bytes =>
        mok (mkResponse 200 (if ends_with ".tar.gz" relative then ARCHIVE_MEDIA_TYPE else "application/octet-stream") (BytesBody bytes))
    | _, _ => fail (not_found [Lit "hosted registry artifact "; Dbg relative; Lit " not found"])
    end.

(** *** Publishing *)

(** A request that has passed its checks. *)
Record PublishJob : Type := mkJob {
  job_package : string; job_version : string; job_publisher : AuthenticatedPublisher; job_upload : PublishUpload; job_key : string }.

Definition version_route (package v : string) : string := ("/v1/packages/" ++ package ++ "/versions/" ++ v)%string.
Definition yank_route (package v : string) : string := (version_route package v ++ "/yank")%string.

Definition prepare_publish (package v : string) (headers : HeaderMap) (fields : list (Field + msg)) : http PublishJob :=
  let? _ := or_bad_request (validate_registry_package_name package) in
  let? _ := or_bad_request (validate_package_version v) in
  let? publisher := authenticate policies headers package in
  let? upload := read_publish_upload fields in
  let? _ := validate_publish_upload package v upload in
  let? key := idempotency_key headers in
  Ok (mkJob package v publisher upload key).

(** [write_optional_publish_artifacts] *)
Definition write_optional_publish_artifacts (package v version_root : string) (upload : PublishUpload) : server (option StoredProvenance) :=
  let m := metadata upload in
  match provenance_bytes upload, signature_bytes upload, signature_kind m with
  | None, None, None => mok None
  | _, _, _ =>
      let^ attestation :=
        match provenance_bytes upload with
        | Some bytes =>
            let relative := artifact_relative_path package v "provenance.attestation" in
            let^ _ := write_new_file (join root relative) bytes in
            mok (Some (path_to_slash relative), provenance_integrity m)
        | None => mok (None, None)
        end in
      let^ signature :=
        match signature_bytes upload with
        | Some bytes =>
            let relative := artifact_relative_path package v "signature.sig" in
            let^ _ := write_new_file (join root relative) bytes in
            mok (Some (path_to_slash relative), meta_signature_integrity m)
        | None => mok (None, None)
        end in
      let^ _ := create_dir_all version_root in
      mok (Some (mkProvenance attestation.1 attestation.2 signature.1 signature.2 (signature_kind m)))
  end.

Definition archive_relative (package v : string) : string :=
  artifact_relative_path package v (default_dependency_alias package ++ "-" ++ v ++ ".tar.gz").

Definition set_package (package : string) (p : StoredPackage) (s : ServerState) : ServerState :=
  set_packages (bt_insert package p (packages (registry s))) s.

(** [entry(package).or_insert_with(..)] *)
Definition package_entry (package : string) : server StoredPackage :=
  let^ s := mself in
  match bt_get package (packages (registry s)) with
  | Some p => mok p
  | None =>
      let p := mkStoredPackage package [] in
      let^ _ := mset (set_package package p) in
      mok p
  end.

Definition new_version (clock : Clock) (job : PublishJob) (prov : option StoredProvenance) : StoredVersion :=
  let m := metadata (job_upload job) in
  mkStoredVersion (job_version job) (now_text clock) false
    (mkArchive (path_to_slash (archive_relative (job_package job) (job_version job))) (meta_archive_integrity m) ARCHIVE_MEDIA_TYPE)
    (meta_package_integrity m) prov (Some (publisher_label (job_publisher job))) None None.

Definition store_publish (clock : Clock) (job : PublishJob) (r : StoredHttpResponse) : server unit :=
  store_idempotency clock (job_key job) (publisher_token_hash (job_publisher job)) "PUT"
    (version_route (job_package job) (job_version job)) (digest (job_upload job)) r.

(** What [publish_version_inner] does under the registry's lock. *)
Definition commit_publish (clock : Clock) (job : PublishJob) : server StoredHttpResponse :=
  let package := job_package job in
  let v := job_version job in
  let^ entry := package_entry package in
  if existsb (fun stored => String.eqb (version stored) v) (versions entry) then
    let r := error_stored_response 409 "version_exists" [Lit "package "; Disp package; Lit " "; Disp v; Lit " already exists"] in
    let^ _ := store_publish clock job r in
    mok r
  else
    let version_root := join (join (join root "artifacts") (registry_package_relative_path package)) v in
    let^ _ := create_dir_all version_root in
    let^ _ := write_new_file (join root (archive_relative package v)) (archive_bytes (job_upload job)) in
    let^ prov := write_optional_publish_artifacts package v version_root (job_upload job) in
    let^ sorted := mtry (sort_versions (versions entry ++ [new_version clock job prov])) in
    let entry := mkStoredPackage (stored_name entry) sorted in
    let^ _ := mset (set_package package entry) in
    let r := package_response_from_stored entry in
    let^ s := mself in
    let^ _ := save_registry (registry s) in
    let^ _ := store_publish clock job r in
    mok r.

Definition publish_version_inner (clock : Clock) (package v : string) (headers : HeaderMap) (fields : list (Field + msg))
    : server StoredHttpResponse :=
  let^ job := mtry (prepare_publish package v headers fields) in
  let^ replay := idempotency_replay (job_key job) (publisher_token_hash (job_publisher job)) "PUT" (version_route package v)
                   (digest (job_upload job)) in
  match replay with
  | Some r => mok r
  | None => commit_publish clock job
  end.

(** *** Yanking *)

Record YankJob : Type := mkYankJob { yank_package : string; yank_version_text : string; yank_publisher : AuthenticatedPublisher; yank_key : string }.

Definition prepare_yank (package v : string) (headers : HeaderMap) : http YankJob :=
  let? _ := or_bad_request (validate_registry_package_name package) in
  let? _ := or_bad_request (validate_package_version v) in
  let? publisher := authenticate policies headers package in
  let? key := idempotency_key headers in
  Ok (mkYankJob package v publisher key).

(** The first version of this text, changed. *)
Fixpoint update_version (v : string) (f : StoredVersion -> StoredVersion) (l : list StoredVersion) : list StoredVersion :=
  match l with
  | [] => []
  | x :: l' => if String.eqb (version x) v then f x :: l' else x :: update_version v f l'
  end.

Definition yank_stored (clock : Clock) (label : string) (x : StoredVersion) : StoredVersion :=
  mkStoredVersion (version x) (published_at x) true (archive x) (package_integrity x) (provenance x) (publisher x)
    (Some (now_text clock)) (Some label).

Definition commit_yank (clock : Clock) (job : YankJob) : server StoredHttpResponse :=
  let package := yank_package job in
  let v := yank_version_text job in
  let^ s := mself in
  match bt_get package (packages (registry s)) with
  | None => fail (no_package package)
  | Some entry =>
      match find_version v (versions entry) with
      | None => fail (no_version package v)
      | Some x =>
          let changed := negb (yanked x) in
          let entry :=
            if changed then
              mkStoredPackage (stored_name entry) (update_version v (yank_stored clock (publisher_label (yank_publisher job))) (versions entry))
            else entry in
          let^ _ := mset (set_package package entry) in
          let r := package_response_from_stored entry in
          let^ s := mself in
          let^ _ := if changed then save_registry (registry s) else mok tt in
          let^ _ := store_idempotency clock (yank_key job) (publisher_token_hash (yank_publisher job)) "POST"
                      (yank_route package v) (bytes_integrity []) r in
          mok r
      end
  end.

Definition yank_version_inner (clock : Clock) (package v : string) (headers : HeaderMap) : server StoredHttpResponse :=
  let^ job := mtry (prepare_yank package v headers) in
  let^ replay := idempotency_replay (yank_key job) (publisher_token_hash (yank_publisher job)) "POST" (yank_route package v)
                   (bytes_integrity []) in
  match replay with
  | Some r => mok r
  | None => commit_yank clock job
  end.

(** *** The routes *)

Inductive Request : Type :=
  | Discovery
  | Search (query : SearchQuery)
  | PackageMetadataOf (package : string)
  | VersionMetadataOf (package v : string)
  | PublishVersion (package v : string) (headers : HeaderMap) (fields : list (Field + msg))
  | YankVersion (package v : string) (headers : HeaderMap)
  | Artifact (uri_path : string).

Definition handle_request (clock : Clock) (r : Request) : server StoredHttpResponse :=
  match r with
  | Discovery => mok discovery
  | Search query => search_response query
  | PackageMetadataOf package => package_response package None
  | VersionMetadataOf package v => package_response package (Some v)
  | PublishVersion package v headers fields => publish_version_inner clock package v headers fields
  | YankVersion package v headers => yank_version_inner clock package v headers
  | Artifact uri_path => artifact_response uri_path
  end.

(** The response of a request and the state it leaves. *)
Definition respond (clock : Clock) (r : Request) (s : ServerState) : res RegistryHttpError StoredHttpResponse * ServerState :=
  let '(result, s') := handle_request clock r s in (into_response result, s').
End Server.
