(* ===== verification/RegistryServerProofs.v ===== *)
(** * The hosted package registry, proved

    What the registry lists is on its disk with the recorded digest, after
    every failure and every interleaving of requests; what is published stays
    as it is; only publishers change anything, and only their packages; a
    request sent again gets its first response; a published version is there
    after a restart; the latest version is the greatest that is not yanked. *)

From stdpp Require Import base tactics list strings option numbers gmap.
From Stdlib Require Import ZArith NArith Lia Ascii String Sorted.
From S2P Require Import Prelude RustStr RustText RustFloat RustPath BTree Syntax Lexer LexerProofs Parser Diagnostic Bytecode Compiler Macro Expander Imports PackageLocks RegistryServer.

Open Scope string_scope.
Open Scope list_scope.
Open Scope nat_scope.

(** ** Names and paths below the root *)

(** The bytes of a segment of a path in the registry. *)
Definition path_byte (b : byte) : bool := segment_byte b || existsb (Ascii.eqb b) ["@"; "."; "+"]%char.

Definition path_name (n : string) : Prop := good_name n /\ Forall (fun b => path_byte b = true) (as_bytes n).

Lemma path_byte_plain b : path_byte b = true -> b <> slash /\ b <> ":"%char /\ b <> backslash.
Proof. intros H. repeat split; intros ->; by vm_compute in H. Qed.

Definition relative (names : list string) : string := String.concat "/" names.

Lemma relative_bytes names : Forall path_name names -> forall b, b ∈ as_bytes (relative names) -> b = slash \/ path_byte b = true.
Proof.
  induction 1 as [|n names [_ Hn] _ IH]; intros b Hb; [by apply elem_of_nil in Hb|]. rewrite list.Forall_forall in Hn.
  destruct names as [|n' names]; [right; by apply Hn|].
  change (relative (n :: n' :: names)) with (n ++ "/" ++ relative (n' :: names))%string in Hb. rewrite !as_bytes_app, !elem_of_app in Hb.
  destruct Hb as [Hb|[Hb|Hb]]; [right; by apply Hn|left; by apply list_elem_of_singleton in Hb|by apply IH].
Qed.

Lemma relative_without names c : Forall path_name names -> c <> slash -> path_byte c = false -> contains_byte c (relative names) = false.
Proof.
  intros Hn Hs Hc. unfold contains_byte. destruct (existsb _ _) eqn:E; [|done]. apply existsb_exists in E as (b & Hb & ->%Ascii.eqb_eq).
  apply list_elem_of_In in Hb. apply (relative_bytes names Hn) in Hb as [->|Hb]; [done|congruence].
Qed.

Lemma split_slash_byte l : split_byte slash l = split_slash l.
Proof. induction l as [|b l IH]; [done|]. cbn [split_byte split_slash]. rewrite IH. by destruct (split_slash_cons l) as (x & r & ->); destruct (Ascii.eqb b slash). Qed.

Lemma names_slashless names : Forall path_name names -> Forall (fun n => Forall (fun b => b <> slash) (as_bytes n)) names.
Proof. intros Hn. eapply list.Forall_impl; [exact Hn|]. by intros n [(_ & _ & _ & H) _]. Qed.

Lemma split_relative names : names <> [] -> Forall path_name names -> split_char "/" (relative names) = names.
Proof.
  intros Hne Hn. unfold split_char. change "/"%char with slash. rewrite split_slash_byte.
  apply (segments_concat names); [done|by apply names_slashless].
Qed.

Lemma relative_not_absolute names : Forall path_name names -> names <> [] -> is_absolute (relative names) = false.
Proof.
  intros Hn Hne. destruct names as [|n names]; [done|]. apply list.Forall_cons in Hn as [[(H1 & _ & _ & H2) _] _].
  destruct n as [|b n]; [done|]. apply list.Forall_cons in H2 as [H2 _].
  assert (exists r, relative (String b n :: names) = String b r) as [r ->] by (destruct names; by eexists).
  unfold is_absolute. cbn [starts_with]. by destruct (Ascii.eqb_spec "/" b) as [<-|_].
Qed.

Lemma relative_last names m : exists p, relative (names ++ [m]) = (p ++ m)%string.
Proof.
  unfold relative. destruct names as [|n names]; [by exists ""|]. rewrite concat_snoc by done.
  exists (String.concat "/" (n :: names) ++ "/")%string. by rewrite !append_assoc.
Qed.

Lemma last_byte_name names : Forall path_name names -> names <> [] -> exists b, list.last (as_bytes (relative names)) = Some b /\ b <> slash.
Proof.
  intros Hn Hne. destruct (exists_last Hne) as (names' & m & ->). apply Forall_app in Hn as [_ Hm].
  apply list.Forall_cons in Hm as [[(Hm & _ & _ & Hs) _] _].
  destruct (relative_last names' m) as [p ->].
  rewrite as_bytes_app. assert (as_bytes m <> []) as Hm' by (by destruct m).
  destruct (exists_last Hm') as (l & b & Hl). exists b. rewrite Hl, app_assoc, list.last_snoc. split; [done|].
  rewrite Hl in Hs. apply Forall_app in Hs as [_ Hb]. by apply list.Forall_cons in Hb as [Hb _].
Qed.

Lemma join_names names n : Forall path_name (names ++ [n]) -> join (relative names) n = relative (names ++ [n]).
Proof.
  intros Hn. apply Forall_app in Hn as [Hnames Hn]. pose proof (relative_not_absolute [n] Hn ltac:(done)) as Ha.
  unfold join. change (relative [n]) with n in Ha. rewrite Ha. destruct (decide (names = [])) as [->|Hne]; [done|].
  destruct (last_byte_name names Hnames Hne) as (b & -> & Hb). destruct (Ascii.eqb_spec b "/") as [->|_]; [done|].
  unfold relative. by rewrite concat_snoc by done.
Qed.

Lemma join_all names : Forall path_name names -> foldl join "" names = relative names.
Proof.
  induction names as [|n names IH] using rev_ind; intros Hn; [done|]. rewrite foldl_snoc.
  assert (Forall path_name names) as Hnames by (by apply Forall_app in Hn as [H _]). rewrite IH by done. by apply join_names.
Qed.

Lemma slashes_kept names : Forall path_name names -> path_to_slash (relative names) = relative names.
Proof.
  intros Hn. unfold path_to_slash, replace_byte. rewrite <- (from_as_bytes (relative names)) at 2. f_equal.
  rewrite <- (list_fmap_id (as_bytes (relative names))) at 2. apply list_fmap_ext. intros i b Hb. apply list_elem_of_lookup_2 in Hb.
  apply (relative_bytes names Hn) in Hb as [->|Hb%path_byte_plain]; [done|]. by destruct (Ascii.eqb_spec b backslash) as [->|_]; [destruct Hb as (_ & _ & [])|].
Qed.

Lemma check_names label names : Forall path_name names -> check_segments label names = Ok tt.
Proof.
  induction 1 as [|n names [(H1 & H2 & H3 & _) _] _ IH]; [done|]. simpl.
  by rewrite (proj2 (String.eqb_neq _ _) H1), (proj2 (String.eqb_neq _ _) H2), (proj2 (String.eqb_neq _ _) H3).
Qed.

Lemma relative_path_valid names label : names <> [] -> Forall path_name names -> validate_registry_relative_path (relative names) label = Ok tt.
Proof.
  intros Hne Hn. unfold validate_registry_relative_path.
  rewrite !relative_without by done. pose proof (relative_not_absolute names Hn Hne) as Ha. unfold is_absolute in Ha. rewrite Ha.
  destruct (String.eqb_spec (relative names) "") as [E|_].
  - destruct (last_byte_name names Hn Hne) as (b & Hb & _). by rewrite E in Hb.
  - rewrite split_relative by done. by apply check_names.
Qed.

(** *** Valid package names *)

Lemma segment_path_name s : valid_segment s = true -> path_name s.
Proof.
  unfold valid_segment. intros [Hs Hb]%andb_prop. apply negb_true_iff, String.eqb_neq in Hs.
  assert (Forall (fun b => segment_byte b = true) (as_bytes s)) as HF by (apply list.Forall_forall; intros b Hb'; rewrite forallb_forall in Hb; apply Hb, list_elem_of_In, Hb').
  split; [|eapply list.Forall_impl; [exact HF|]; intros b Hb'; unfold path_byte; simpl in Hb'; by rewrite Hb'].
  split; [done|]. split; [intros ->; by vm_compute in Hb|]. split; [intros ->; by vm_compute in Hb|].
  eapply list.Forall_impl; [exact HF|]. intros b Hb' ->. by vm_compute in Hb'.
Qed.

Lemma scope_path_name s : valid_segment s = true -> path_name (String "@" s).
Proof.
  intros [(H1 & _ & _ & H2) H3]%segment_path_name. split.
  - split; [done|]. split; [done|]. split; [done|]. by apply list.Forall_cons.
  - by apply list.Forall_cons.
Qed.

Lemma split_once_slash l x y : split_once_bytes slash l = Some (x, y) -> l = x ++ slash :: y.
Proof.
  revert x y. induction l as [|b l IH]; intros x y; simpl; [done|]. destruct (Ascii.eqb_spec b slash) as [->|]; [by intros [= <- <-]|].
  destruct (split_once_bytes slash l) as [[x' y']|]; [|done]. simpl. intros [= <- <-]. simpl. f_equal. by apply IH.
Qed.

(** The segments of a valid name. *)
Lemma valid_package_names name : validate_registry_package_name name = Ok tt ->
  exists names, names <> [] /\ Forall path_name names /\ name = relative names.
Proof.
  unfold validate_registry_package_name. destruct (strip_prefix "@" name) as [rest|] eqn:E.
  - apply strip_prefix_byte in E. unfold split_once. destruct (split_once_bytes "/" (as_bytes rest)) as [[x y]|] eqn:Es; [|done]. simpl.
    apply split_once_slash in Es. case_match; [done|]. unfold validate_registry_package_segment.
    destruct (valid_segment (from_bytes x)) eqn:H1; [|done]. simpl. destruct (valid_segment (from_bytes y)) eqn:H2; [|done]. intros _.
    exists [String "@" (from_bytes x); from_bytes y]. split; [done|]. split.
    + apply list.Forall_cons. split; [by apply scope_path_name|]. apply list.Forall_cons. split; [by apply segment_path_name|constructor].
    + rewrite <- (from_as_bytes name), E, Es. rewrite <- (from_as_bytes (relative _)). f_equal.
      change (relative [String "@" (from_bytes x); from_bytes y]) with (String "@" (from_bytes x ++ "/" ++ from_bytes y)).
      change (as_bytes (String "@" ?s)) with ("@"%char :: as_bytes s). by rewrite !as_bytes_app, !as_from_bytes.
  - unfold validate_package_name. destruct (valid_segment name) eqn:H1; [|done]. intros _. exists [name].
    split; [done|]. split; [|done]. constructor; [|constructor]. by apply segment_path_name.
Qed.

(** *** The paths of artifacts *)

Lemma rsplit_spec b l :
  match rsplit_once b l with
  | Some (x, y) => l = x ++ b :: y /\ b ∉ y
  | None => b ∉ l
  end.
Proof.
  induction l as [|c l IH]; simpl; [apply not_elem_of_nil|]. destruct (rsplit_once b l) as [[x y]|].
  - destruct IH as [-> Hy]. by split.
  - destruct (Ascii.eqb_spec c b) as [->|Hc]; [by split|]. apply not_elem_of_cons. split; [congruence|done].
Qed.

Lemma alias_bytes package : validate_registry_package_name package = Ok tt ->
  Forall (fun b => path_byte b = true) (as_bytes (default_dependency_alias package)).
Proof.
  intros (names & Hne & Hn & ->)%valid_package_names. unfold default_dependency_alias.
  pose proof (rsplit_spec slash (as_bytes (relative names))) as H. change slash with "/"%char in H.
  apply list.Forall_forall. intros b Hb. destruct (rsplit_once "/" _) as [[x y]|].
  - destruct H as [E Hy]. rewrite as_from_bytes in Hb.
    destruct (relative_bytes names Hn b) as [->|]; [rewrite E, elem_of_app; right; by right|by destruct Hy|done].
  - destruct (relative_bytes names Hn b Hb) as [->|]; [by destruct H|done].
Qed.

Definition leaf_name (s : string) : Prop := 2 < String.length s /\ Forall (fun b => path_byte b = true) (as_bytes s).

Lemma leaf_path_name s : leaf_name s -> path_name s.
Proof.
  intros [Hl Hb]. split; [|done]. repeat (split; [by intros ->; simpl in Hl; lia|]).
  eapply list.Forall_impl; [exact Hb|]. intros b H. by apply path_byte_plain.
Qed.

(** The texts that [semver] accepts: a digit, then letters, digits and the
    signs of pre-releases and build metadata. *)
Definition version_byte (b : byte) : bool := is_ascii_alphanumeric b || existsb (Ascii.eqb b) ["."; "+"; "-"]%char.

Lemma version_path_byte b : version_byte b = true -> path_byte b = true.
Proof. by destruct b as [[] [] [] [] [] [] [] []]. Qed.

Definition version_text (v : string) : Prop :=
  Forall (fun b => version_byte b = true) (as_bytes v) /\ exists b rest, as_bytes v = b :: rest /\ is_ascii_digit b = true.

Lemma version_path_name v : version_text v -> path_name v.
Proof.
  intros [Hb (b & rest & E & Hd)]. assert (Forall (fun b => path_byte b = true) (as_bytes v)) as Hp by (eapply list.Forall_impl; [exact Hb|]; apply version_path_byte).
  split; [|done]. split; [intros ->; done|]. split; [intros ->; by injection E as <- <-|]. split; [intros ->; by injection E as <- <-|].
  eapply list.Forall_impl; [exact Hp|]. intros x H. by apply path_byte_plain.
Qed.

Lemma archive_leaf package v : validate_registry_package_name package = Ok tt -> version_text v ->
  leaf_name (default_dependency_alias package ++ "-" ++ v ++ ".tar.gz").
Proof.
  intros Hp%alias_bytes [Hv _]. split.
  - rewrite <- length_as_bytes, !as_bytes_app, !length_app. simpl. lia.
  - rewrite !as_bytes_app. apply Forall_app. split; [done|]. apply Forall_app. split; [by repeat constructor|].
    apply Forall_app. split; [eapply list.Forall_impl; [exact Hv|]; apply version_path_byte|by repeat constructor].
Qed.

Definition artifact_names (package v leaf : string) : list string := "artifacts"%string :: split_char "/" package ++ [v; leaf].

Lemma artifacts_name : path_name "artifacts".
Proof. apply leaf_path_name. split; [simpl; lia|by repeat constructor]. Qed.

(** A path of an artifact is made of names, one after another. *)
Lemma artifact_path package v leaf : validate_registry_package_name package = Ok tt -> version_text v -> leaf_name leaf ->
  Forall path_name (artifact_names package v leaf) /\ artifact_relative_path package v leaf = relative (artifact_names package v leaf).
Proof.
  intros (names & Hne & Hn & ->)%valid_package_names Hv%version_path_name Hl%leaf_path_name.
  unfold artifact_names, artifact_relative_path, registry_package_relative_path. rewrite split_relative by done.
  assert (Forall path_name ("artifacts"%string :: names ++ [v; leaf])) as Hall.
  { apply list.Forall_cons. split; [apply artifacts_name|]. apply Forall_app. split; [done|]. by repeat (apply list.Forall_cons; split). }
  split; [done|]. rewrite join_all by done.
  assert (join "artifacts" (relative names) = relative ("artifacts"%string :: names)) as ->.
  { unfold join. rewrite relative_not_absolute by done. by destruct names. }
  change ("artifacts"%string :: names ++ [v; leaf]) with (("artifacts"%string :: names) ++ [v] ++ [leaf]) in *. rewrite app_assoc in *.
  rewrite join_names by (by apply Forall_app in Hall as [H _]). by apply join_names.
Qed.

Lemma artifact_starts package v leaf : exists rest, artifact_names package v leaf = "artifacts"%string :: rest /\ rest <> [].
Proof. eexists. split; [done|]. by destruct (split_char "/" package). Qed.

(** Paths below the root are told apart by their text. *)
Lemma join_root_inj root p q : is_absolute p = false -> is_absolute q = false -> join root p = join root q -> p = q.
Proof.
  assert (forall x a b : string, (x ++ a)%string = (x ++ b)%string -> a = b) as Hinj.
  { intros x a b. induction x as [|c x IH]; [done|]. intros [= E]. by apply IH. }
  intros Hp Hq. unfold join. rewrite Hp, Hq. destruct (list.last (as_bytes root)) as [b|]; [|done].
  destruct (Ascii.eqb b "/"); intros H; apply Hinj in H; [done|]. by injection H.
Qed.

Lemma artifact_not_state root package v leaf : validate_registry_package_name package = Ok tt -> version_text v -> leaf_name leaf ->
  join root (artifact_relative_path package v leaf) <> state_path root.
Proof.
  intros Hp Hv Hl E. destruct (artifact_path package v leaf Hp Hv Hl) as [Hn Ep]. destruct (artifact_starts package v leaf) as (rest & En & Hr).
  rewrite En in *. unfold state_path in E. apply join_root_inj in E; [|rewrite Ep; by apply relative_not_absolute|done].
  rewrite Ep in E. destruct rest; [done|]. by vm_compute in E.
Qed.

Lemma strip_prefix_text p s t : strip_prefix p s = Some t -> s = (p ++ t)%string.
Proof.
  unfold strip_prefix. destruct (starts_with p s) eqn:E; [|done]. intros [= <-]. revert s E. induction p as [|a p IH]; intros s E; simpl in *.
  - symmetry. rewrite Nat.sub_0_r. apply substring_all.
  - destruct s as [|b s]; [done|]. apply andb_prop in E as [->%Ascii.eqb_eq E]. cbn [substring String.length Nat.sub append]. by rewrite (IH s E) at 1.
Qed.

(** *** The route of an archive *)

Lemma starts_with_app p s : starts_with p (p ++ s) = true.
Proof. induction p as [|c p IH]; [done|]. simpl. by rewrite Ascii.eqb_refl. Qed.

Lemma ends_with_app suffix s : ends_with suffix (s ++ suffix) = true.
Proof.
  unfold ends_with, strip_suffix, strip_prefix. rewrite as_bytes_app, reverse_app.
  assert (from_bytes (reverse (as_bytes suffix) ++ reverse (as_bytes s)) = (from_bytes (reverse (as_bytes suffix)) ++ from_bytes (reverse (as_bytes s)))%string) as ->.
  { rewrite <- (from_as_bytes (_ ++ from_bytes _)%string). by rewrite as_bytes_app, !as_from_bytes. }
  by rewrite starts_with_app.
Qed.

Lemma archive_route package v : validate_registry_package_name package = Ok tt -> version_text v ->
  trim_start_slashes ("/" ++ archive_relative package v) = archive_relative package v
  /\ starts_with "artifacts/" (archive_relative package v) = true /\ ends_with ".tar.gz" (archive_relative package v) = true.
Proof.
  intros Hp Hv. pose proof (archive_leaf package v Hp Hv) as Hl. destruct (artifact_path _ _ _ Hp Hv Hl) as [Hn E]. unfold archive_relative in *. rewrite E. split; [|split].
  - unfold artifact_names. destruct (split_char "/" package); done.
  - unfold artifact_names. destruct (split_char "/" package); done.
  - unfold artifact_names. rewrite (app_comm_cons _ [v; _]). change [v; ?l] with ([v] ++ [l]). rewrite app_assoc.
    destruct (relative_last (("artifacts"%string :: split_char "/" package) ++ [v]) (default_dependency_alias package ++ "-" ++ v ++ ".tar.gz")) as [q ->].
    rewrite <- !append_assoc. apply ends_with_app.
Qed.

(** ** What libraries guarantee *)

Class SemverLaws `{Semver} : Prop := {
  compare_flip (a b : Version) : compare_versions b a = CompOpp (compare_versions a b);
  compare_trans (a b c : Version) : compare_versions a b <> Gt -> compare_versions b c <> Gt -> compare_versions a c <> Gt;
  parsed_text v (p : Version) : parse_version v = inl p -> version_text v }.

(** What serde writes it reads back, and a text that is cut off is not read. *)
Class RegistryFormatLaws `{RegistryFormat} : Prop := {
  written_utf8 d t : registry_to_string_pretty d = inl t -> utf8 (as_bytes t);
  written_read d t : registry_to_string_pretty d = inl t -> registry_from_str t = inl d;
  written_cut d t p : registry_to_string_pretty d = inl t -> p `prefix_of` as_bytes t -> p <> as_bytes t ->
    exists e, registry_from_str (from_bytes p) = inr e }.

(** ** Methods that settle *)

(** From [s], the method neither panics nor runs out of fuel; its result and
    state satisfy [Q], and the state it fails in [R]. *)
Definition does {S E A : Type} (m : smethod S E A) (s : S) (Q : A -> S -> Prop) (R : S -> Prop) : Prop :=
  match m s with
  | (Ok a, s') => Q a s'
  | (Err _, s') => R s'
  | _ => False
  end.

Section does.
Context {S E : Type}.
Implicit Types (s : S).

Lemma does_then {A B : Type} (m : smethod S E A) (k : A -> smethod S E B) s P Q (R : S -> Prop) :
  does m s P R -> (forall a s1, P a s1 -> does (k a) s1 Q R) -> does (mthen m k) s Q R.
Proof. unfold does, mthen. intros Hm Hk. destruct (m s) as [[a|e| |] s1]; [by apply Hk|done..]. Qed.

Lemma does_try {A : Type} (r : res E A) s Q (R : S -> Prop) : settles r (fun a => Q a s) -> R s -> does (mtry r) s Q R.
Proof. by destruct r. Qed.

Lemma does_pure {A B : Type} (r : res E A) (k : A -> smethod S E B) s a Q (R : S -> Prop) : r = Ok a -> does (k a) s Q R -> does (mthen (mtry r) k) s Q R.
Proof. by intros ->. Qed.

Lemma does_mono {A : Type} (m : smethod S E A) s (P Q : A -> S -> Prop) (R R' : S -> Prop) :
  does m s P R -> (forall a s1, P a s1 -> Q a s1) -> (forall s1, R s1 -> R' s1) -> does m s Q R'.
Proof. unfold does. intros Hm HQ HR. destruct (m s) as [[a|e| |] s1]; auto. Qed.
End does.

(** ** Operations on the files *)

(** Files are kept, but for the registry's own. *)
Definition kept (root : string) (f f' : gmap string (list byte)) : Prop :=
  forall p b, p <> state_path root -> f !! p = Some b -> f' !! p = Some b.

Lemma files_kept_refl root f : kept root f f. Proof. by intros p b. Qed.
Lemma files_kept_trans root f g h : kept root f g -> kept root g h -> kept root f h.
Proof. intros H1 H2 p b Hp Hf. apply H2, H1; done. Qed.

#[export] Instance kept_preorder root : PreOrder (kept root).
Proof. split; [intros f; apply files_kept_refl|intros f g h; apply files_kept_trans]. Qed.

(** Only artifacts were written. *)
Record wrote (root : string) (s s' : ServerState) : Prop := mkWrote {
  wrote_registry : registry s' = registry s;
  wrote_idempotency : idempotency s' = idempotency s;
  wrote_state : files s' !! state_path root = files s !! state_path root;
  wrote_kept : kept root (files s) (files s') }.

#[export] Instance wrote_preorder root : PreOrder (wrote root).
Proof.
  split; [by intros s; split|]. intros s t u [A1 A2 A3 A4] [B1 B2 B3 B4]. split; [congruence..|by etrans].
Qed.

Section files.
Context (root : string).

Lemma next_outcome_wrote s : does next_outcome s (fun _ s' => wrote root s s' /\ files s' = files s) (wrote root s).
Proof. unfold does, next_outcome. by destruct s as [d i f [|o rest]]. Qed.

Lemma create_dir_all_wrote p s : does (create_dir_all p) s (fun _ s' => wrote root s s') (wrote root s).
Proof. eapply does_then; [apply next_outcome_wrote|]. by intros [] s1 [H _]. Qed.

(** A file that was not there may get any contents. *)
Lemma wrote_new p s s' : registry s' = registry s -> idempotency s' = idempotency s -> p <> state_path root -> files s !! p = None ->
  (forall q, q <> p -> files s' !! q = files s !! q) -> wrote root s s'.
Proof.
  intros Hr Hi Hp Hn Hq. split; [done|done|by apply Hq|]. intros q b _ Hb. rewrite Hq; [done|congruence].
Qed.

Lemma open_new_wrote p s : p <> state_path root ->
  does (open_new p) s (fun _ s' => wrote root s s' /\ files s !! p = None /\ files s' = <[p:=[]]> (files s)) (wrote root s).
Proof.
  intros Hp. unfold open_new, next_outcome, does, mthen, mself, mset, fail, mtry, mok.
  destruct s as [d i f l]. destruct l as [|[| |] l]; simpl; [|..|done|done]; destruct (f !! p) eqn:E; simpl; try done.
  all: split; [apply (wrote_new p); try done; intros q Hq; by apply lookup_insert_ne|done].
Qed.

Lemma write_all_wrote p bytes s s1 : p <> state_path root -> wrote root s s1 -> files s !! p = None -> (forall q, q <> p -> files s1 !! q = files s !! q) ->
  does (write_all p bytes) s1 (fun _ s' => wrote root s s' /\ files s' !! p = Some bytes) (wrote root s).
Proof.
  intros Hp Hw Hn Hq. unfold write_all, next_outcome, does, mthen, mself, mset, fail, mtry, mok.
  destruct Hw as [H1 H2 _ _], s1 as [d i f l]. simpl in *. destruct l as [|[| |] l]; simpl; rewrite ?lookup_insert_eq; try split; try done.
  all: apply (wrote_new p); try done; simpl; intros q Hne; rewrite ?lookup_insert_ne by done; by apply Hq.
Qed.

Lemma write_new_file_wrote p bytes s : p <> state_path root ->
  does (write_new_file p bytes) s (fun _ s' => wrote root s s' /\ files s' !! p = Some bytes) (wrote root s).
Proof.
  intros Hp. apply (does_then _ _ _ (fun _ => wrote root s)).
  { destruct (parent p); [apply create_dir_all_wrote|by apply (reflexivity (R := wrote root))]. }
  intros _ s1 H1. apply (does_then _ _ _ (fun _ s2 => wrote root s1 s2 /\ files s1 !! p = None /\ files s2 = <[p:=[]]> (files s1))).
  { eapply does_mono; [by apply open_new_wrote|done|]. intros s2 H2. by etrans. }
  intros _ s2 (H2 & Hn & Hf). eapply does_mono; [eapply (write_all_wrote _ _ s1); [done..|]|intros _ s3 [H3 Hb]; split; [by etrans|done]|intros s3 H3; by etrans].
  intros q Hq. by rewrite Hf, lookup_insert_ne.
Qed.
End files.

Lemma bt_insert_elem {A : Type} (k : string) (v : A) m k' v' : (k', v') ∈ bt_insert k v m -> k' = k /\ v' = v \/ (k', v') ∈ m.
Proof.
  induction m as [|[k1 v1] m IH]; simpl; [intros Hm%list_elem_of_singleton; simplify_eq; by left|].
  destruct (String.compare k k1); rewrite !elem_of_cons; naive_solver.
Qed.

(** ** The records of requests *)

Lemma oldest_elem records : records <> [] -> exists r, oldest records = Some r /\ r ∈ records.
Proof.
  intros Hne. unfold oldest.
  enough (forall acc, (acc = None -> records <> []) -> exists r, foldl (fun acc r => match acc with Some a => if older r a then Some r else acc | None => Some r end) acc records = Some r
    /\ (acc = Some r \/ r ∈ records)) as Hall by (destruct (Hall None (fun _ => Hne)) as (r & Hr & [|]); [done|by exists r]).
  clear Hne. induction records as [|x l IH]; intros acc Hacc; simpl.
  - destruct acc as [a|]; [exists a; by split; [|left]|by destruct (Hacc eq_refl)].
  - destruct (IH (match acc with Some a => if older x a then Some x else acc | None => Some x end)) as (r & Hr & Hel).
    { destruct acc as [a|]; [by destruct (older x a)|done]. }
    exists r. split; [done|]. destruct Hel as [Hel|Hel]; [|right; by right].
    destruct acc as [a|]; [destruct (older x a)|]; simplify_eq; auto; right; left.
Qed.

Lemma bt_remove_length {A : Type} (r : string * A) m : r ∈ m -> S (length (bt_remove r.1 m)) = length m.
Proof.
  induction m as [|[k v] m IH]; intros Hr; [by apply elem_of_nil in Hr|]. simpl. destruct (String.eqb_spec r.1 k) as [E|E]; [done|].
  apply elem_of_cons in Hr as [->|Hr]; [done|]. simpl. by rewrite IH.
Qed.

Lemma bt_insert_length {A : Type} (k : string) (v : A) m : length (bt_insert k v m) <= S (length m).
Proof. induction m as [|[k' v'] m IH]; simpl; [lia|]. destruct (String.compare k k'); simpl; lia. Qed.

Lemma prune_from_bounded fuel records : length records < fuel -> bt_wf records ->
  exists records', prune_from fuel records = Ok records' /\ bt_wf records' /\ (N.of_nat (length records') <= MAX_IDEMPOTENCY_RECORDS)%N.
Proof.
  revert records. induction fuel as [|fuel IH]; intros records Hf Hw; [lia|]. cbn [prune_from].
  destruct (N.ltb_spec MAX_IDEMPOTENCY_RECORDS (N.of_nat (length records))) as [Hl|Hl]; [|by exists records].
  destruct (oldest_elem records) as (r & -> & Hr); [by intros ->|]. apply IH; [pose proof (bt_remove_length r records Hr); lia|by apply bt_remove_wf].
Qed.

Lemma prune_small records : (N.of_nat (length records) <= MAX_IDEMPOTENCY_RECORDS)%N -> prune_idempotency_records records = Ok records.
Proof. intros Hl. unfold prune_idempotency_records. cbn [prune_from]. by destruct (N.ltb_spec MAX_IDEMPOTENCY_RECORDS (N.of_nat (length records))); [lia|]. Qed.

Lemma store_idempotency_does clock key hash m p d r s : bt_wf (idempotency s) ->
  does (store_idempotency clock key hash m p d r) s
    (fun _ s' => exists records, s' = set_idempotency records s /\ bt_wf records /\ (N.of_nat (length records) <= MAX_IDEMPOTENCY_RECORDS)%N)
    (fun _ => False).
Proof.
  intros Hw. unfold store_idempotency, does, mthen, mset, mself, mtry. simpl. unfold prune_idempotency_records.
  match goal with |- context [prune_from ?f ?x] => destruct (prune_from_bounded f x) as (records & -> & Hr); [lia|by apply bt_insert_wf|] end.
  by exists records.
Qed.

(** ** Good documents *)

Section Registry.
Context `{Sha256} `{SemverLaws} `{RegistryFormatLaws} `{TomlEdit} `{TempDirs} `{ArchiveReader}.
Context (depth : nat) (root base_url : string) (policies : list PublisherPolicy).

Definition version_parses (x : StoredVersion) : Prop := exists p, parse_version (version x) = inl p.

(** The order of the versions of a package. *)
Definition version_le (x y : StoredVersion) : Prop :=
  forall a b, parse_version (version x) = inl a -> parse_version (version y) = inl b -> compare_versions a b <> Gt.

(** A file that the registry offers beside an archive is there. *)
Definition good_artifact (f : gmap string (list byte)) (package v leaf : string) (p integrity : option string) : Prop :=
  p = None /\ integrity = None \/
  exists bytes, p = Some (artifact_relative_path package v leaf) /\ integrity = Some (bytes_integrity bytes)
    /\ validate_package_integrity (bytes_integrity bytes) = Ok tt /\ f !! join root (artifact_relative_path package v leaf) = Some bytes.

Record good_provenance (f : gmap string (list byte)) (package v : string) (p : StoredProvenance) : Prop := mkGoodProvenance {
  good_attestation : good_artifact f package v "provenance.attestation" (attestation_path p) (attestation_integrity p);
  good_signature : good_artifact f package v "signature.sig" (signature_path p) (signature_integrity p);
  good_kind : forall kind, stored_signature_kind p = Some kind -> validate_signature_kind kind = Ok tt /\ is_Some (signature_path p) }.

(** A version whose archive is on the disk, with the digest that is listed. *)
Record good_version (f : gmap string (list byte)) (package : string) (x : StoredVersion) : Prop := mkGoodVersion {
  good_parses : version_parses x;
  good_path : archive_path (archive x) = archive_relative package (version x);
  good_media : archive_media_type (archive x) = ARCHIVE_MEDIA_TYPE;
  good_archive : exists bytes, f !! join root (archive_relative package (version x)) = Some bytes /\ archive_integrity (archive x) = bytes_integrity bytes;
  good_archive_integrity : validate_package_integrity (archive_integrity (archive x)) = Ok tt;
  good_package_integrity : validate_package_integrity (package_integrity x) = Ok tt;
  good_prov : forall p, provenance x = Some p -> good_provenance f package (version x) p }.

Record good_package (f : gmap string (list byte)) (name : string) (p : StoredPackage) : Prop := mkGoodPackage {
  good_name_valid : validate_registry_package_name name = Ok tt;
  good_name_same : stored_name p = name;
  good_unique : NoDup (version <$> versions p);
  good_sorted : StronglySorted version_le (versions p);
  good_versions : Forall (good_version f name) (versions p) }.

Record good_document (f : gmap string (list byte)) (d : RegistryDocument) : Prop := mkGoodDocument {
  good_protocol : document_protocol d = PROTOCOL;
  good_packages : forall name p, (name, p) ∈ packages d -> good_package f name p }.

(** The registry's file: absent, or what could be written of a document that
    lists files on the disk. *)
Definition saved (f : gmap string (list byte)) : Prop :=
  forall bytes, f !! state_path root = Some bytes ->
  exists d t, good_document f d /\ registry_to_string_pretty d = inl t /\ bytes `prefix_of` as_bytes t.

Record good_state (s : ServerState) : Prop := mkGoodState {
  good_registry : good_document (files s) (registry s);
  good_saved : saved (files s);
  good_records : bt_wf (idempotency s);
  good_bounded : (N.of_nat (length (idempotency s)) <= MAX_IDEMPOTENCY_RECORDS)%N }.

(** *** Versions in order *)

Lemma version_parsed_text x : version_parses x -> version_text (version x).
Proof. intros [p Hp]. by eapply parsed_text. Qed.

Lemma validate_version_parses v : validate_package_version v = Ok tt <-> exists p, parse_version v = inl p.
Proof. unfold validate_package_version. destruct (parse_version v) as [p|e]; split; [by exists p|done|done|by intros [? [=]]]. Qed.

Lemma parsed_versions_parse l : Forall version_parses l ->
  exists ps, parsed_versions l = Ok ps /\ ps.*2 = l /\ Forall (fun p => parse_version (version p.2) = inl p.1) ps.
Proof.
  induction 1 as [|x l [p Hp] _ (ps & IH1 & IH2 & IH3)]; [by exists []|]. exists ((p, x) :: ps). simpl. unfold parsed_version. rewrite Hp. simpl.
  rewrite IH1. split; [done|]. split; [f_equal; exact IH2|by constructor].
Qed.

Lemma parsed_strongly_sorted ps : Forall (fun p => parse_version (version p.2) = inl p.1) ps ->
  StronglySorted (in_order compare_parsed) ps -> StronglySorted version_le ps.*2.
Proof.
  intros Hp. induction 1 as [|a ps Hs IH Ha]; [constructor|]. apply list.Forall_cons in Hp as [Hpa Hp]. simpl. constructor; [by apply IH|].
  apply list.Forall_forall. intros y (b & -> & Hb)%list_elem_of_fmap. rewrite list.Forall_forall in Ha, Hp. specialize (Ha b Hb). specialize (Hp b Hb).
  simpl in Hp. intros u w Hu Hw. rewrite Hpa in Hu. rewrite Hp in Hw. injection Hu as <-. injection Hw as <-. exact Ha.
Qed.

Lemma parsed_flip (a b : Version * StoredVersion) : compare_parsed a b = Gt -> compare_parsed b a <> Gt.
Proof. unfold compare_parsed. rewrite (compare_flip a.1 b.1). by intros ->. Qed.

Lemma sort_versions_sorted l : Forall version_parses l ->
  exists l', sort_versions l = Ok l' /\ l' ≡ₚ l /\ StronglySorted version_le l'.
Proof.
  intros Hl. unfold sort_versions. destruct (Nat.ltb_spec (length l) 2).
  - exists l. split; [done|]. split; [done|]. destruct l as [|x [|y l]]; simpl in *; [constructor|by repeat constructor|lia].
  - destruct (parsed_versions_parse l Hl) as (ps & -> & Hps & Hp). simpl. eexists. split; [done|].
    pose proof (sort_by_perm compare_parsed ps) as Hperm. split; [by rewrite Hperm, Hps|].
    apply parsed_strongly_sorted; [by rewrite Hperm|]. apply Sorted_StronglySorted; [|apply sort_by_sorted, parsed_flip].
    intros a b c. unfold in_order, compare_parsed. apply compare_trans.
Qed.

(** *** Good documents are accepted *)

Lemma provenance_leaf : leaf_name "provenance.attestation". Proof. split; [simpl; lia|by repeat constructor]. Qed.
Lemma signature_leaf : leaf_name "signature.sig". Proof. split; [simpl; lia|by repeat constructor]. Qed.

Lemma artifact_path_valid package v leaf label : validate_registry_package_name package = Ok tt -> version_text v -> leaf_name leaf ->
  validate_registry_relative_path (artifact_relative_path package v leaf) label = Ok tt.
Proof. intros Hp Hv Hl. destruct (artifact_path package v leaf Hp Hv Hl) as [Hn ->]. by apply relative_path_valid. Qed.

Lemma good_artifact_pair f package v leaf p integrity label : validate_registry_package_name package = Ok tt -> version_text v -> leaf_name leaf ->
  good_artifact f package v leaf p integrity -> validate_optional_artifact_pair p integrity label = Ok tt.
Proof.
  intros Hp Hv Hl [[-> ->]|(bytes & -> & -> & Hi & _)]; [done|]. unfold validate_optional_artifact_pair. by rewrite artifact_path_valid.
Qed.

Lemma good_provenance_valid f package v p : validate_registry_package_name package = Ok tt -> version_text v ->
  good_provenance f package v p -> validate_stored_provenance package v p = Ok tt.
Proof.
  intros Hp Hv [G1 G2 G3]. unfold validate_stored_provenance.
  rewrite (good_artifact_pair _ _ _ _ _ _ _ Hp Hv provenance_leaf G1), (good_artifact_pair _ _ _ _ _ _ _ Hp Hv signature_leaf G2). simpl.
  destruct (stored_signature_kind p) as [kind|]; [|done]. destruct (G3 kind eq_refl) as [-> [path Hpath]]. simpl. rewrite Hpath.
  destruct G2 as [[G2 _]|(bytes & _ & -> & _)]; [congruence|done].
Qed.

Lemma good_versions_valid f package seen l : validate_registry_package_name package = Ok tt -> Forall (good_version f package) l ->
  NoDup (version <$> l) -> (forall x, x ∈ l -> version x ∉ seen) -> validate_stored_versions package seen l = Ok tt.
Proof.
  intros Hp Hl. revert seen. induction Hl as [|x l Hx Hl IH]; intros seen Hnd Hseen; [done|]. simpl.
  apply list.NoDup_cons in Hnd as [Hnx Hnd]. destruct Hx as [Hx1 Hx2 Hx3 _ Hx5 Hx6 Hx7]. pose proof (version_parsed_text x Hx1) as Ht.
  rewrite (proj2 (validate_version_parses _) Hx1). simpl.
  destruct (existsb _ seen) eqn:E.
  { apply existsb_exists in E as (y & Hy & <-%String.eqb_eq). destruct (Hseen x (list_elem_of_here _ _)). by apply list_elem_of_In. }
  rewrite Hx2, Hx3, Hx5, Hx6. unfold archive_relative. rewrite artifact_path_valid by (by try apply archive_leaf). simpl.
  assert (match provenance x with Some p => validate_stored_provenance package (version x) p | None => Ok tt end = Ok tt) as ->.
  { destruct (provenance x) as [p|]; [|done]. eapply good_provenance_valid; [done..|]. by apply Hx7. }
  apply IH; [done|]. intros y Hy [Heq|Hin]%elem_of_cons.
  - apply Hnx. rewrite <- Heq. by apply list_elem_of_fmap_2.
  - by apply (Hseen y); [right|].
Qed.

Lemma good_document_valid f d : good_document f d -> validate_registry_document d = Ok tt.
Proof.
  intros [Hp Hd]. unfold validate_registry_document. rewrite Hp. simpl. destruct d as [? ps]. simpl in *. clear Hp.
  induction ps as [|[name p] ps IH]; [done|]. simpl. destruct (Hd name p (list_elem_of_here _ _)) as [H1' H2' H3' _ H5'].
  rewrite H1'. simpl. rewrite H2', String.eqb_refl. simpl. rewrite (good_versions_valid f) by (done || by intros ? _ ?%not_elem_of_nil).
  apply IH. intros n q Hq. apply Hd. by right.
Qed.

(** *** New files and new registries *)

Lemma good_artifact_kept f f' package v leaf p integrity : validate_registry_package_name package = Ok tt -> version_text v -> leaf_name leaf ->
  kept root f f' -> good_artifact f package v leaf p integrity -> good_artifact f' package v leaf p integrity.
Proof.
  intros Hp Hv Hl Hk [[-> ->]|(bytes & -> & -> & Hi & Hf)]; [by left|]. right. exists bytes. repeat split; [done|].
  apply Hk; [by apply artifact_not_state|done].
Qed.

Lemma good_version_kept f f' package x : validate_registry_package_name package = Ok tt -> kept root f f' -> good_version f package x -> good_version f' package x.
Proof.
  intros Hp Hk [H1' H2' H3' (bytes & Hf & Hi) H5' H6' H7']. pose proof (version_parsed_text x H1') as Ht. split; [done|done|done| |done|done|].
  - exists bytes. split; [|done]. apply Hk; [|done]. apply artifact_not_state; [done|done|by apply archive_leaf].
  - intros p Hpr. destruct (H7' p Hpr) as [G1 G2 G3].
    split; [by apply (good_artifact_kept f); [..|apply provenance_leaf| |]|by apply (good_artifact_kept f); [..|apply signature_leaf| |]|done].
Qed.

Lemma good_package_kept f f' name p : kept root f f' -> good_package f name p -> good_package f' name p.
Proof.
  intros Hk [H1' H2' H3' H4' H5']. split; [done..|]. eapply list.Forall_impl; [exact H5'|]. intros x. by apply good_version_kept.
Qed.

Lemma good_document_kept f f' d : kept root f f' -> good_document f d -> good_document f' d.
Proof. intros Hk [H1' H2']. split; [done|]. intros name p Hp. by apply (good_package_kept f), H2'. Qed.

Lemma good_document_insert f d name p : good_document f d -> good_package f name p ->
  good_document f (mkDocument (document_protocol d) (bt_insert name p (packages d))).
Proof.
  intros [H1' H2'] Hp. split; [done|]. simpl. intros n q [[-> ->]|Hq]%bt_insert_elem; [done|by apply H2'].
Qed.

Lemma good_state_wrote s s' : wrote root s s' -> good_state s -> good_state s'.
Proof.
  intros [W1 W2 W3 W4] [G1 G2 G3 G4]. split; [rewrite W1; by apply (good_document_kept (files s))| |by rewrite W2..].
  intros bytes Hb. rewrite W3 in Hb. destruct (G2 bytes Hb) as (d & t & Hd & Ht). exists d, t. split; [by apply (good_document_kept (files s))|done].
Qed.

(** *** What a job has passed *)

Record good_job (job : PublishJob) : Prop := mkGoodJob {
  job_name_valid : validate_registry_package_name (job_package job) = Ok tt;
  job_version_valid : validate_package_version (job_version job) = Ok tt;
  job_archive : bytes_integrity (archive_bytes (job_upload job)) = meta_archive_integrity (metadata (job_upload job));
  job_archive_valid : validate_package_integrity (meta_archive_integrity (metadata (job_upload job))) = Ok tt;
  job_package_valid : validate_package_integrity (meta_package_integrity (metadata (job_upload job))) = Ok tt;
  job_provenance : validate_publish_artifact "provenance" (provenance_bytes (job_upload job)) (provenance_integrity (metadata (job_upload job))) = Ok tt;
  job_signature : validate_publish_artifact "signature" (signature_bytes (job_upload job)) (meta_signature_integrity (metadata (job_upload job))) = Ok tt;
  job_kind : forall kind, signature_kind (metadata (job_upload job)) = Some kind ->
    validate_signature_kind kind = Ok tt /\ is_Some (meta_signature_integrity (metadata (job_upload job))) }.

Lemma unit_ok {E : Type} (r : res E unit) u : r = Ok u -> r = Ok tt.
Proof. by destruct u. Qed.

Lemma or_bad_request_ok {A : Type} (r : res anyhow A) a : or_bad_request r = Ok a -> r = Ok a.
Proof. unfold or_bad_request. destruct r; simpl; congruence. Qed.

Lemma validated_upload package v upload u : validate_publish_upload depth package v upload = Ok u ->
  bytes_integrity (archive_bytes upload) = meta_archive_integrity (metadata upload)
  /\ validate_package_integrity (meta_archive_integrity (metadata upload)) = Ok tt
  /\ validate_package_integrity (meta_package_integrity (metadata upload)) = Ok tt
  /\ validate_publish_artifact "provenance" (provenance_bytes upload) (provenance_integrity (metadata upload)) = Ok tt
  /\ validate_publish_artifact "signature" (signature_bytes upload) (meta_signature_integrity (metadata upload)) = Ok tt
  /\ (forall kind, signature_kind (metadata upload) = Some kind ->
      validate_signature_kind kind = Ok tt /\ is_Some (meta_signature_integrity (metadata upload)))
  /\ meta_package (metadata upload) = package /\ meta_version (metadata upload) = v
  /\ validate_archive depth package v upload = Ok tt.
Proof.
  unfold validate_publish_upload. destruct (negb _); [done|]. intros E. inv_ok.
  destruct (String.eqb_spec (meta_package (metadata upload)) package) as [Ep|]; [|done].
  destruct (String.eqb_spec (meta_version (metadata upload)) v) as [Ev|]; [|done]. cbn [negb] in E. inv_ok.
  destruct (String.eqb_spec (bytes_integrity (archive_bytes upload)) (meta_archive_integrity (metadata upload))) as [Ea|]; [|done]. cbn [negb] in E. inv_ok.
  repeat match goal with
  | E : or_bad_request _ = Ok _ |- _ => apply or_bad_request_ok in E
  | E : _ = Ok ?x |- _ => is_var x; destruct x
  end.
  repeat (split; [done|]). split; [|done]. intros kind Hk. rewrite Hk in *. inv_ok.
  repeat match goal with E : or_bad_request _ = Ok _ |- _ => apply or_bad_request_ok in E end.
  split; [by eapply unit_ok|]. by destruct (meta_signature_integrity _); [eexists|].
Qed.

Lemma prepared_good package v headers fields job : prepare_publish depth policies package v headers fields = Ok job ->
  good_job job /\ job_package job = package /\ job_version job = v.
Proof.
  unfold prepare_publish. intros E. inv_ok.
  repeat match goal with E : or_bad_request _ = Ok _ |- _ => apply or_bad_request_ok, unit_ok in E end.
  match goal with E : validate_publish_upload _ _ _ _ = Ok _ |- _ => apply validated_upload in E as (? & ? & ? & ? & ? & ? & ? & ? & ?) end.
  split; [by split|done].
Qed.

(** *** What a request may change *)

(** Nothing of a published version changes but its yanking, once. *)
Definition same_version (x x' : StoredVersion) : Prop :=
  version x' = version x /\ published_at x' = published_at x /\ archive x' = archive x /\ package_integrity x' = package_integrity x
  /\ provenance x' = provenance x /\ publisher x' = publisher x /\ (yanked x = true -> x' = x).

#[local] Instance same_version_preorder : PreOrder same_version.
Proof.
  split; [done|]. intros x y z (A1 & A2 & A3 & A4 & A5 & A6 & A7) (B1 & B2 & B3 & B4 & B5 & B6 & B7).
  repeat (split; [congruence|]). intros Hy. rewrite (A7 Hy) in *. by apply B7.
Qed.

Definition evolves (d d' : RegistryDocument) : Prop :=
  forall name p, bt_get name (packages d) = Some p ->
  exists p', bt_get name (packages d') = Some p' /\ forall x, x ∈ versions p -> exists x', x' ∈ versions p' /\ same_version x x'.

#[local] Instance evolves_preorder : PreOrder evolves.
Proof.
  split; [intros d name p Hp; exists p; split; [done|]; intros x Hx; by exists x|].
  intros d1 d2 d3 H12 H23 name p (p2 & Hp2 & Hx2)%H12. apply H23 in Hp2 as (p3 & Hp3 & Hx3). exists p3. split; [done|].
  intros x (y & Hy & Hxy)%Hx2. apply Hx3 in Hy as (z & Hz & Hyz). exists z. split; [done|by etrans].
Qed.

Record changed (package : string) (s s' : ServerState) : Prop := mkChanged {
  changed_kept : kept root (files s) (files s');
  changed_evolves : evolves (registry s) (registry s');
  changed_others : forall other, other <> package -> bt_get other (packages (registry s')) = bt_get other (packages (registry s)) }.

#[local] Instance changed_preorder package : PreOrder (changed package).
Proof.
  split; [by intros s; split|]. intros s t u [A1 A2 A3] [B1 B2 B3]. split; [by etrans..|]. intros other Ho. by rewrite B3, A3.
Qed.

(** The state stays good and only this package changes. *)
Definition post (package : string) (s s' : ServerState) : Prop := good_state s' /\ changed package s s'.

Lemma post_refl package s : good_state s -> post package s s.
Proof. by split. Qed.

Lemma post_trans package s t u : post package s t -> post package t u -> post package s u.
Proof. intros [_ H1'] [H2' H3']. split; [done|by etrans]. Qed.

Lemma post_wrote package s s' : good_state s -> wrote root s s' -> post package s s'.
Proof. intros Hg Hw. split; [by apply (good_state_wrote s)|]. destruct Hw as [W1 W2 W3 W4]. split; [done|by rewrite W1|by rewrite W1]. Qed.

(** Every method is stepped over by what it changes. *)
Lemma does_step {A B : Type} package (m : server A) (k : A -> server B) s0 s P Q :
  post package s0 s -> does m s (fun a s1 => P a s1 /\ post package s s1) (post package s) ->
  (forall a s1, P a s1 -> post package s s1 -> post package s0 s1 -> does (k a) s1 Q (post package s0)) ->
  does (mthen m k) s Q (post package s0).
Proof.
  intros Hp Hm Hk. eapply does_then; [eapply does_mono; [exact Hm|intros a s1 Ha; exact Ha|]|].
  - intros s1 H1'. by apply (post_trans package s0 s).
  - intros a s1 [Ha H1']. apply Hk; [done|done|by apply (post_trans package s0 s)].
Qed.

Lemma does_wrote {A B : Type} package (m : server A) (k : A -> server B) s0 s P Q :
  post package s0 s -> does m s (fun a s1 => wrote root s s1 /\ P a s1) (wrote root s) ->
  (forall a s1, wrote root s s1 -> P a s1 -> post package s0 s1 -> does (k a) s1 Q (post package s0)) ->
  does (mthen m k) s Q (post package s0).
Proof.
  intros Hp Hm Hk. pose proof (proj1 Hp) as Hg. eapply does_then; [eapply does_mono; [exact Hm|intros a s1 Ha; exact Ha|]|].
  - intros s1 Hw. eapply post_trans; [done|by apply post_wrote].
  - intros a s1 [Hw Ha]. apply Hk; [done|done|]. eapply post_trans; [done|by apply post_wrote].
Qed.

Lemma bt_get_good f d name p : good_document f d -> bt_get name (packages d) = Some p -> good_package f name p.
Proof. intros [_ Hd] Hp. by apply Hd, bt_get_In. Qed.

Lemma evolves_refl_new d name p : bt_get name (packages d) = None -> evolves d (mkDocument (document_protocol d) (bt_insert name p (packages d))).
Proof.
  intros Hn n q Hq. exists q. simpl. rewrite bt_get_insert. destruct (String.eqb_spec n name) as [->|]; [congruence|]. split; [done|]. intros x Hx. by exists x.
Qed.

Lemma set_package_post package p s : good_state s -> good_package (files s) package p ->
  (forall q, bt_get package (packages (registry s)) = Some q -> forall x, x ∈ versions q -> exists x', x' ∈ versions p /\ same_version x x') ->
  post package s (set_package package p s).
Proof.
  intros [G1 G2 G3 G4] Hp Hq. split; [split; [by apply good_document_insert|done..]|]. split; [done| |].
  - intros name q Hn. simpl. rewrite bt_get_insert. destruct (String.eqb_spec name package) as [->|]; [by exists p; split; [|apply Hq]|].
    exists q. split; [done|]. intros x Hx. by exists x.
  - intros other Ho. simpl. rewrite bt_get_insert. by destruct (String.eqb_spec other package).
Qed.

Lemma package_entry_does package s : good_state s -> validate_registry_package_name package = Ok tt ->
  does (package_entry package) s
    (fun entry s1 => (bt_get package (packages (registry s1)) = Some entry /\ (registry s1 = registry s \/ versions entry = [])) /\ post package s s1)
    (post package s).
Proof.
  intros Hg Hv. unfold package_entry, does, mthen, mself, mset, mok. destruct (bt_get package (packages (registry s))) as [p|] eqn:E.
  - split; [by split; [|left]|by apply post_refl].
  - simpl. rewrite bt_get_insert, String.eqb_refl. split; [by split; [|right]|]. apply set_package_post; [done| |intros q Hq; congruence].
    split; [done|done|apply base.NoDup_nil_2|constructor|constructor].
Qed.

(** *** The registry's file *)

Lemma load_registry_good io f d : saved f -> load_registry root io f = Ok d -> good_document f d.
Proof.
  unfold load_registry. intros Hs. destruct (f !! state_path root) as [bytes|] eqn:E; [|intros [= <-]; split; [done|by intros ? ? ?%elem_of_nil]].
  destruct (Hs bytes E) as (d' & t & Hd & Ht & Hp). destruct io as [|?|? ?]; [|done|done]. destruct (utf8_chars bytes) as [cs|]; [|done].
  destruct (decide (bytes = as_bytes t)) as [->|Hne].
  - rewrite from_as_bytes, (written_read _ _ Ht). simpl. rewrite (good_document_valid f) by done. by intros [= <-].
  - destruct (written_cut _ _ _ Ht Hp Hne) as [e ->]. done.
Qed.

Lemma load_written f d t : good_document f d -> registry_to_string_pretty d = inl t -> f !! state_path root = Some (as_bytes t) ->
  load_registry root IoDone f = Ok d.
Proof.
  intros Hd Ht Hf. unfold load_registry. rewrite Hf. destruct (written_utf8 _ _ Ht) as [cs ->].
  rewrite from_as_bytes, (written_read _ _ Ht). simpl. by rewrite (good_document_valid f).
Qed.

(** The registry's file, written in whole or in part. *)
Lemma state_written package s t b rest : good_state s -> registry_to_string_pretty (registry s) = inl t -> b `prefix_of` as_bytes t ->
  post package s (mkState (registry s) (idempotency s) (<[state_path root := b]> (files s)) rest).
Proof.
  intros [G1 G2 G3 G4] Ht Hb. assert (kept root (files s) (<[state_path root := b]> (files s))) as Hk by (intros p c Hp Hf; by rewrite lookup_insert_ne).
  assert (good_document (<[state_path root := b]> (files s)) (registry s)) as Hd by (by apply (good_document_kept (files s))).
  split; [|by split]. split; [done| |done..]. intros bytes. simpl. rewrite lookup_insert_eq. intros [= <-]. by exists (registry s), t.
Qed.

Lemma save_registry_does package s : good_state s ->
  does (save_registry root (registry s)) s
    (fun _ s' => (registry s' = registry s /\ load_registry root IoDone (files s') = Ok (registry s')) /\ post package s s') (post package s).
Proof.
  intros Hg. unfold save_registry. destruct (registry_to_string_pretty (registry s)) as [t|e] eqn:Ht; [|by apply post_refl].
  assert (forall rest, post package s (mkState (registry s) (idempotency s) (<[state_path root := as_bytes t]> (files s)) rest)
    /\ load_registry root IoDone (<[state_path root := as_bytes t]> (files s)) = Ok (registry s)) as Hall.
  { intros rest. pose proof (state_written package s t (as_bytes t) rest Hg Ht ltac:(done)) as Hp. split; [done|].
    eapply load_written; [apply Hp|done|apply lookup_insert_eq]. }
  unfold does, write_all, next_outcome, mthen, mset, fail, mtry, mok. destruct (outcomes s) as [|[|e|n e] rest] eqn:Ho; simpl.
  - unfold set_files. rewrite Ho. by destruct (Hall []).
  - by destruct (Hall rest).
  - by apply post_wrote.
  - apply (state_written package s t); [done|done|]. exists (drop n (as_bytes t)). by rewrite take_drop.
Qed.

(** *** Publishing *)

Lemma validated_artifact label bytes integrity : validate_publish_artifact label bytes integrity = Ok tt ->
  bytes = None /\ integrity = None
  \/ exists b, bytes = Some b /\ integrity = Some (bytes_integrity b) /\ validate_package_integrity (bytes_integrity b) = Ok tt.
Proof.
  unfold validate_publish_artifact. destruct bytes as [b|], integrity as [i|]; [|done|done|by left]. intros E. inv_ok.
  destruct (String.eqb_spec (bytes_integrity b) i) as [<-|]; [|done]. right. exists b.
  match goal with E : or_bad_request _ = _ |- _ => apply or_bad_request_ok, unit_ok in E end. done.
Qed.

(** A file beside the archive, with its digest. *)
Lemma write_artifact_does package v leaf label bytes integrity s :
  validate_registry_package_name package = Ok tt -> version_text v -> leaf_name leaf ->
  validate_publish_artifact label bytes integrity = Ok tt ->
  does (match bytes with
        | Some bytes =>
            let relative := artifact_relative_path package v leaf in
            let^ _ := write_new_file (join root relative) bytes in
            mok (Some (path_to_slash relative), integrity)
        | None => mok (None, None)
        end) s
    (fun a s' => wrote root s s' /\ good_artifact (files s') package v leaf a.1 a.2 /\ (is_Some integrity -> is_Some a.1)) (wrote root s).
Proof.
  intros Hp Hv Hl Ha. destruct (validated_artifact _ _ _ Ha) as [[-> ->]|(b & -> & -> & Hi)].
  - split; [done|]. split; [by left|by intros []].
  - eapply does_then; [apply write_new_file_wrote; by apply artifact_not_state|]. intros _ s1 [Hw Hf]. split; [done|]. split; [|by eexists].
    right. exists b. simpl. repeat split; [|done|done]. destruct (artifact_path package v leaf Hp Hv Hl) as [Hn ->]. by rewrite slashes_kept.
Qed.

Lemma write_optional_does job version_root s : good_job job ->
  does (write_optional_publish_artifacts root (job_package job) (job_version job) version_root (job_upload job)) s
    (fun prov s' => wrote root s s' /\ forall p, prov = Some p -> good_provenance (files s') (job_package job) (job_version job) p) (wrote root s).
Proof.
  intros [J1 J2%validate_version_parses J3 J4 J5 J6 J7 J8]. assert (version_text (job_version job)) as Hv by (destruct J2; by eapply parsed_text).
  unfold write_optional_publish_artifacts. set (m := metadata (job_upload job)) in *.
  match goal with |- does (match ?a with Some _ => ?x | None => _ end) _ _ _ => assert (does x s
    (fun prov s' => wrote root s s' /\ forall p, prov = Some p -> good_provenance (files s') (job_package job) (job_version job) p) (wrote root s)) as Hx end.
  { eapply does_then; [by apply (write_artifact_does _ _ _ "provenance"); [..|apply provenance_leaf|]|]. intros att s1 (W1 & A1 & _).
    apply (does_then _ _ _ (fun a s2 => wrote root s1 s2 /\ good_artifact (files s2) (job_package job) (job_version job) "signature.sig" a.1 a.2
      /\ (is_Some (meta_signature_integrity m) -> is_Some a.1))).
    { eapply does_mono; [by apply (write_artifact_does _ _ _ "signature"); [..|apply signature_leaf|]|done|]. intros s2 W2. by etrans. }
    intros sig s2 (W2 & A2 & A3). apply (does_then _ _ _ (fun _ => wrote root s2)).
    { eapply does_mono; [apply (create_dir_all_wrote root)|done|]. intros s3 W3. etrans; [exact W1|by etrans]. }
    intros _ s3 W3. split; [etrans; [exact W1|by etrans]|]. intros p [= <-].
    split; simpl.
    - apply (good_artifact_kept (files s1)); [done|done|apply provenance_leaf|etrans; [apply W2|apply W3]|done].
    - apply (good_artifact_kept (files s2)); [done|done|apply signature_leaf|apply W3|done].
    - intros kind Hk. destruct (J8 kind Hk). auto. }
  destruct (provenance_bytes (job_upload job)), (signature_bytes (job_upload job)), (signature_kind m); try exact Hx.
  split; [done|]. intros p [=].
Qed.

Lemma store_does package clock key hash m p d r s : good_state s ->
  does (store_idempotency clock key hash m p d r) s
    (fun _ s' => (registry s' = registry s /\ files s' = files s) /\ post package s s') (post package s).
Proof.
  intros [G1 G2 G3 G4]. eapply does_mono; [by apply store_idempotency_does| |done].
  intros _ s' (records & -> & Hw & Hl). split; [done|]. split; [by split|by split].
Qed.

(** The version that a job adds. *)
Lemma new_version_good clock job prov f : good_job job ->
  f !! join root (archive_relative (job_package job) (job_version job)) = Some (archive_bytes (job_upload job)) ->
  (forall p, prov = Some p -> good_provenance f (job_package job) (job_version job) p) ->
  good_version f (job_package job) (new_version clock job prov).
Proof.
  intros [J1 J2%validate_version_parses J3 J4 J5 _ _ _] Hf Hp. assert (version_text (job_version job)) as Hv by (destruct J2; by eapply parsed_text).
  split; simpl; [done| |done| |done|done|done].
  - destruct (artifact_path _ _ _ J1 Hv (archive_leaf _ _ J1 Hv)) as [Hn E]. unfold archive_relative. rewrite E. by apply slashes_kept.
  - exists (archive_bytes (job_upload job)). by rewrite J3.
Qed.

Lemma package_extended f package p l x : good_package f package p -> good_version f package x ->
  existsb (fun y => String.eqb (version y) (version x)) (versions p) = false -> l ≡ₚ versions p ++ [x] -> StronglySorted version_le l ->
  good_package f package (mkStoredPackage (stored_name p) l).
Proof.
  intros [P1 P2 P3 P4 P5] Hx Hn Hl Hs. split; simpl; [done|done| |done|].
  - rewrite Hl, fmap_app, Permutation_app_comm. simpl. apply list.NoDup_cons. split; [|done].
    intros (y & Ey & Hy)%list_elem_of_fmap. assert (existsb (fun y => String.eqb (version y) (version x)) (versions p) = true) as E; [|congruence].
    apply existsb_exists. exists y. split; [by apply list_elem_of_In|]. apply String.eqb_eq. done.
  - rewrite Hl. apply Forall_app. split; [done|]. by apply list.Forall_cons.
Qed.

(** What an accepted publication leaves. *)
Definition published (job : PublishJob) (r : StoredHttpResponse) (s : ServerState) : Prop :=
  status r = 200%N /\ load_registry root IoDone (files s) = Ok (registry s)
  /\ exists p x, bt_get (job_package job) (packages (registry s)) = Some p /\ x ∈ versions p /\ version x = job_version job
     /\ archive_integrity (archive x) = bytes_integrity (archive_bytes (job_upload job)).

Lemma commit_publish_does clock job s : good_state s -> good_job job ->
  does (commit_publish root clock job) s
    (fun r s' => (status r = 409%N /\ registry s' = registry s \/ published job r s') /\ post (job_package job) s s')
    (post (job_package job) s).
Proof.
  intros Hg Hj. pose proof Hj as [J1 J2%validate_version_parses _ _ _ _ _ _]. set (package := job_package job) in *. set (v := job_version job) in *.
  assert (version_text v) as Hv by (destruct J2; by eapply parsed_text). unfold commit_publish. fold package v.
  eapply does_step; [by apply post_refl|by apply package_entry_does|]. intros entry s1 [He Hcase] _ P1. destruct (existsb _ _) eqn:Ex.
  { eapply does_step; [exact P1|apply store_does, P1|]. intros _ s2 [E2 _] _ P2. split; [|done]. left. split; [done|].
    destruct Hcase as [E1|E1]; [congruence|by rewrite E1 in Ex]. }
  eapply (does_wrote _ _ _ _ _ (fun _ _ => True)); [exact P1| |].
  { eapply does_mono; [apply (create_dir_all_wrote root)|by split|done]. }
  intros _ s2 W2 _ P2. eapply does_wrote; [exact P2|by apply write_new_file_wrote, artifact_not_state; [..|apply archive_leaf]|]. intros [] s3 W3 Hf P3.
  eapply does_wrote; [exact P3|by apply write_optional_does|]. intros prov s4 W4 Hprov P4.
  assert (registry s4 = registry s1) as E4 by (rewrite (wrote_registry _ _ _ W4), (wrote_registry _ _ _ W3); apply W2).
  pose proof (proj1 P4) as [G4 _ _ _]. rewrite E4 in G4. pose proof (bt_get_good _ _ _ _ G4 He) as Ge.
  assert (good_version (files s4) package (new_version clock job prov)) as Gx.
  { apply new_version_good; [done| |done]. apply (wrote_kept _ _ _ W4); [by apply artifact_not_state; [..|apply archive_leaf]|done]. }
  destruct (sort_versions_sorted (versions entry ++ [new_version clock job prov])) as (l & El & Hl & Hs).
  { apply Forall_app. split; [eapply list.Forall_impl; [apply Ge|by intros x []]|]. apply list.Forall_cons. split; [apply Gx|constructor]. }
  eapply does_pure; [exact El|]. change (mthen (mset ?f) ?k) with (fun s => k tt (f s)). cbv beta.
  set (entry' := mkStoredPackage (stored_name entry) l). set (s5 := set_package package entry' s4).
  assert (post package s s5) as P5.
  { eapply post_trans; [exact P4|]. apply set_package_post; [apply P4|by eapply package_extended|]. rewrite E4. intros q Hq x Hx. simplify_eq.
    exists x. simpl. rewrite Hl. split; [|done]. apply elem_of_app. by left. }
  change (does (mthen (save_registry root (registry s5)) (fun _ => mthen (store_publish clock job (package_response_from_stored entry'))
    (fun _ => mok (package_response_from_stored entry')))) s5
    (fun r s' => (status r = 409%N /\ registry s' = registry s \/ published job r s') /\ post package s s') (post package s)).
  eapply does_step; [exact P5|apply save_registry_does, P5|]. intros _ s6 [E6 L6] _ P6.
  eapply does_step; [exact P6|apply store_does, P6|]. intros _ s7 [E7 F7] _ P7. split; [right|done]. split; [done|]. rewrite E7, F7. split; [done|].
  exists entry', (new_version clock job prov). split; [rewrite E6; simpl; by rewrite bt_get_insert, String.eqb_refl|].
  split; [simpl; rewrite Hl; apply elem_of_app; right; by apply list_elem_of_singleton|]. split; [done|]. simpl. symmetry. apply Hj.
Qed.

(** *** Yanking *)

(** The versions of a package after one was yanked, compared to before. *)
Definition yanked_or_same (y y' : StoredVersion) : Prop := y' = y \/ exists clock label, y' = yank_stored clock label y.

Lemma update_yanked clock label v l : Forall2 yanked_or_same l (update_version v (yank_stored clock label) l).
Proof.
  assert (forall k, Forall2 yanked_or_same k k) as Hrefl by (induction k; constructor; [by left|done]).
  induction l as [|y l IH]; simpl; [constructor|]. destruct (String.eqb _ _); (constructor; [|by auto]); [right; by exists clock, label|by left].
Qed.

Lemma yanked_version y y' : yanked_or_same y y' -> version y' = version y.
Proof. by intros [->|(clock & label & ->)]. Qed.

Lemma yanked_good f package y y' : yanked_or_same y y' -> good_version f package y -> good_version f package y'.
Proof. intros [->|(clock & label & ->)] [V1 V2 V3 V4 V5 V6 V7]; by split. Qed.

Lemma yanked_versions l l' : Forall2 yanked_or_same l l' -> version <$> l' = version <$> l.
Proof. induction 1 as [|y y' l l' Hy _ IH]; [done|]. rewrite !fmap_cons, IH. by rewrite (yanked_version y y'). Qed.

Lemma yanked_sorted l l' : Forall2 yanked_or_same l l' -> StronglySorted version_le l -> StronglySorted version_le l'.
Proof.
  induction 1 as [|y y' l l' Hy Hl IH]; [done|]. intros [Hs Ha]%StronglySorted_inv. constructor; [by apply IH|]. clear IH Hs.
  induction Hl as [|z z' l l' Hz _ IH]; [constructor|]. apply list.Forall_cons in Ha as [Ha Hr]. apply list.Forall_cons. split; [|by apply IH].
  intros a b. rewrite (yanked_version y y'), (yanked_version z z') by done. apply Ha.
Qed.

Lemma yanked_package f package p l : good_package f package p -> Forall2 yanked_or_same (versions p) l -> good_package f package (mkStoredPackage (stored_name p) l).
Proof.
  intros [P1 P2 P3 P4 P5] Hl. split; simpl; [done|done|by rewrite (yanked_versions _ _ Hl)|by eapply yanked_sorted|].
  clear P3 P4. induction Hl as [|y y' k k' Hy _ IH]; [done|]. apply list.Forall_cons in P5 as [Py Pk]. apply list.Forall_cons. split; [by eapply yanked_good|by apply IH].
Qed.

Lemma find_version_elem v l x : find_version v l = Some x -> x ∈ l /\ version x = v.
Proof. intros [Hx Ev%String.eqb_eq]%find_some. split; [by apply list_elem_of_In|done]. Qed.

Lemma update_evolves clock label v l x : find_version v l = Some x -> yanked x = false ->
  forall y, y ∈ l -> exists y', y' ∈ update_version v (yank_stored clock label) l /\ same_version y y'.
Proof.
  intros Hf Hx y. induction l as [|z l IH]; [by intros ?%elem_of_nil|]. unfold find_version in Hf. simpl in *.
  destruct (String.eqb (version z) v).
  - injection Hf as ->. intros [->|Hy]%elem_of_cons.
    + eexists. split; [left|]. repeat split. congruence.
    + exists y. by split; [right|].
  - intros [->|Hy]%elem_of_cons; [exists z; by split; [left|]|]. destruct (IH Hf Hy) as (y' & Hy' & Hs). exists y'. by split; [right|].
Qed.

Lemma commit_yank_does clock job s : good_state s ->
  does (commit_yank root clock job) s (fun r s' => status r = 200%N /\ post (yank_package job) s s') (post (yank_package job) s).
Proof.
  intros Hg. set (package := yank_package job). set (v := yank_version_text job). unfold commit_yank. fold package v.
  change (mthen mself ?k) with (fun s : ServerState => (k s : server _) s). unfold does at 1. cbv beta.
  destruct (bt_get package (packages (registry s))) as [entry|] eqn:He; [|by apply post_refl].
  destruct (find_version v (versions entry)) as [x|] eqn:Hx; [|by apply post_refl].
  set (entry' := if negb (yanked x) then _ else entry). set (s1 := set_package package entry' s).
  assert (post package s s1) as P1.
  { pose proof (bt_get_good _ _ _ _ (good_registry _ Hg) He) as Ge. apply set_package_post; [done| |].
    - unfold entry'. destruct (negb (yanked x)); [|done]. apply yanked_package; [done|]. apply update_yanked.
    - rewrite He. intros q [= <-] y Hy. unfold entry'. destruct (yanked x) eqn:Ey; simpl; [by exists y|]. by eapply update_evolves. }
  change (does (mthen (if negb (yanked x) then save_registry root (registry s1) else mok tt)
    (fun _ => mthen (store_idempotency clock (yank_key job) (publisher_token_hash (yank_publisher job)) "POST" (yank_route package v) (bytes_integrity [])
      (package_response_from_stored entry')) (fun _ => mok (package_response_from_stored entry')))) s1
    (fun r s' => status r = 200%N /\ post package s s') (post package s)).
  eapply (does_step _ _ _ _ _ (fun _ _ => True)); [exact P1| |].
  { destruct (negb (yanked x)); [|split; [done|apply post_refl, P1]]. eapply does_mono; [apply save_registry_does, P1|by intros ? ? [_ ?]|done]. }
  intros _ s2 _ _ P2. eapply does_step; [exact P2|apply store_does, P2|]. by intros _ s3 _ _ P3.
Qed.

(** ** Requests *)

(** Nothing but the outcomes of operations to come was touched. *)
Definition same_data (s s' : ServerState) : Prop := registry s' = registry s /\ idempotency s' = idempotency s /\ files s' = files s.

Definition quiet {A : Type} (m : server A) : Prop := forall s, same_data s (m s).2.

Lemma quiet_then {A B : Type} (m : server A) (k : A -> server B) : quiet m -> (forall a, quiet (k a)) -> quiet (mthen m k).
Proof.
  intros Hm Hk s. unfold mthen. specialize (Hm s). destruct (m s) as [[a|e| |] s1]; simpl in *; [|done..].
  specialize (Hk a s1). destruct Hm as (A1 & A2 & A3), Hk as (B1 & B2 & B3). repeat split; congruence.
Qed.

Lemma quiet_try {A : Type} (r : http A) : quiet (mtry r). Proof. done. Qed.
Lemma quiet_ok {A : Type} (a : A) : quiet (mok a). Proof. done. Qed.
Lemma quiet_self : quiet mself. Proof. done. Qed.
Lemma quiet_outcome : quiet next_outcome. Proof. by intros [d i f [|o l]]. Qed.

Ltac quiet := repeat first [apply quiet_try | apply quiet_ok | apply quiet_self | apply quiet_outcome | apply quiet_then; [|intros ?] | case_match].

Lemma search_quiet query : quiet (search_response query).
Proof. unfold search_response. quiet. Qed.
Lemma package_quiet package v : quiet (package_response package v).
Proof. unfold package_response, fail. quiet. Qed.
Lemma artifact_quiet uri_path : quiet (artifact_response root uri_path).
Proof. unfold artifact_response, fail. quiet. Qed.
Lemma replay_quiet key hash m p d : quiet (idempotency_replay key hash m p d).
Proof. unfold idempotency_replay, fail. quiet. Qed.

(** A publication answers from its record, fails its checks or is committed. *)
Lemma publish_cases clock package v headers fields s :
  (publish_version_inner depth root policies clock package v headers fields s).2 = s
  \/ exists job, prepare_publish depth policies package v headers fields = Ok job
     /\ publish_version_inner depth root policies clock package v headers fields s = commit_publish root clock job s.
Proof.
  unfold publish_version_inner, idempotency_replay, mthen, mtry, mself, mok, fail. destruct (prepare_publish _ _ _ _ _ _) as [job|e| |]; [|by left..].
  destruct (bt_get _ (idempotency s)) as [r|]; [destruct (same_request _ _ _ _ _); by left|]. right. by exists job.
Qed.

Lemma yank_cases clock package v headers s :
  (yank_version_inner root policies clock package v headers s).2 = s
  \/ exists job, prepare_yank policies package v headers = Ok job
     /\ yank_version_inner root policies clock package v headers s = commit_yank root clock job s.
Proof.
  unfold yank_version_inner, idempotency_replay, mthen, mtry, mself, mok, fail. destruct (prepare_yank _ _ _ _) as [job|e| |]; [|by left..].
  destruct (bt_get _ (idempotency s)) as [r|]; [destruct (same_request _ _ _ _ _); by left|]. right. by exists job.
Qed.

Abbreviation handle := (handle_request depth root base_url policies).

(** The packages that a request may write. *)
Definition written_package (r : Request) : option (string * HeaderMap) :=
  match r with
  | PublishVersion package _ headers _ | YankVersion package _ headers => Some (package, headers)
  | _ => None
  end.

Lemma does_post {A : Type} package (m : server A) s Q : does m s (fun a s' => Q a s' /\ post package s s') (post package s) -> post package s (m s).2.
Proof. unfold does. destruct (m s) as [[a|e| |] s1]; [by intros [_ ?]|done..]. Qed.

Lemma commit_publish_post clock job s : good_state s -> good_job job -> post (job_package job) s (commit_publish root clock job s).2.
Proof. intros Hg Hj. eapply does_post. by apply commit_publish_does. Qed.

Lemma commit_yank_post clock job s : good_state s -> post (yank_package job) s (commit_yank root clock job s).2.
Proof. intros Hg. eapply does_post. by apply commit_yank_does. Qed.

Lemma prepared_yank_package package v headers job : prepare_yank policies package v headers = Ok job -> yank_package job = package.
Proof. unfold prepare_yank. intros E. by inv_ok. Qed.

(** A request touches no data, or it is one of a publisher of the package. *)
Lemma handle_cases clock r s : good_state s ->
  same_data s (handle clock r s).2
  \/ exists package headers p, written_package r = Some (package, headers) /\ authenticate policies headers package = Ok p /\ post package s (handle clock r s).2.
Proof.
  intros Hg. destruct r as [|query|package|package v|package v headers fields|package v headers|uri]; cbn [handle_request].
  1: by left. 1: left; apply search_quiet. 1, 2: left; apply package_quiet. 3: left; apply artifact_quiet.
  - destruct (publish_cases clock package v headers fields s) as [->|(job & Hj & ->)]; [by left|right]. exists package, headers.
    destruct (prepared_good _ _ _ _ _ Hj) as (Gj & Ep & _). unfold prepare_publish in Hj. inv_ok. eexists. split; [done|]. split; [done|].
    rewrite <- Ep at 1. by apply commit_publish_post.
  - destruct (yank_cases clock package v headers s) as [->|(job & Hj & ->)]; [by left|right]. exists package, headers.
    pose proof (prepared_yank_package _ _ _ _ Hj) as Ep. unfold prepare_yank in Hj. inv_ok. eexists. split; [done|]. split; [done|].
    by apply commit_yank_post.
Qed.

(** *** Reachable states *)

(** The server works on: it answers a request, finishes one whose checks were
    made before, or the operations on the files will turn out differently. *)
Inductive step : ServerState -> ServerState -> Prop :=
  | step_request clock r s : step s (handle clock r s).2
  | step_publish clock package v headers fields job s :
      prepare_publish depth policies package v headers fields = Ok job -> step s (commit_publish root clock job s).2
  | step_yank clock package v headers job s : prepare_yank policies package v headers = Ok job -> step s (commit_yank root clock job s).2
  | step_outcomes l s : step s (mkState (registry s) (idempotency s) (files s) l).

(** From a directory without a registry, with restarts. *)
Inductive reach : ServerState -> Prop :=
  | reach_start f l : f !! state_path root = None -> reach (mkState default_document [] f l)
  | reach_step s s' : reach s -> step s s' -> reach s'
  | reach_restart io s s' : reach s -> initial_state root io (files s) = Ok s' -> reach s'.

Lemma same_data_good s s' : same_data s s' -> good_state s -> good_state s'.
Proof. destruct s, s'. intros (E1 & E2 & E3) [G1 G2 G3 G4]. simpl in *. subst. by split. Qed.

Lemma step_good s s' : good_state s -> step s s' -> good_state s' /\ evolves (registry s) (registry s') /\ kept root (files s) (files s').
Proof.
  assert (forall package t t', post package t t' -> good_state t' /\ evolves (registry t) (registry t') /\ kept root (files t) (files t')) as Hpost.
  { intros package t t' [Hg [Hk He _]]. done. }
  assert (forall t t', good_state t -> same_data t t' -> good_state t' /\ evolves (registry t) (registry t') /\ kept root (files t) (files t')) as Hsame.
  { intros t t' Hg Hd. split; [by apply (same_data_good t)|]. destruct Hd as (-> & _ & ->). done. }
  intros Hg. destruct 1 as [clock r s|clock package v headers fields job s Hj|clock package v headers job s Hj|l s].
  - destruct (handle_cases clock r s Hg) as [Hd|(package & headers & p & _ & _ & Hp)]; [by apply Hsame|by apply (Hpost package)].
  - apply (Hpost (job_package job)), commit_publish_post; [done|by apply (prepared_good package v headers fields)].
  - by apply (Hpost (yank_package job)), commit_yank_post.
  - by apply Hsame.
Qed.

Lemma reach_good s : reach s -> good_state s.
Proof.
  induction 1 as [f l Hf|s s' _ IH Hs|io s s' _ IH Hs].
  - split; simpl; [split; [done|by intros ? ? ?%elem_of_nil]|intros bytes Hb; congruence|constructor|done].
  - by apply (step_good s).
  - unfold initial_state in Hs. inv_ok. split; simpl; [eapply load_registry_good; [apply IH|done]|apply IH|constructor|done].
Qed.

(** *** The properties *)

(** C28: Whatever requests were answered, in whatever order they were checked
    and finished, whichever operations on the files failed or stopped half
    way, and however often the server was started again: the registry that the
    server has in memory is a valid document; the archive of every version that
    it lists is on the disk with the digest that is listed, and its route
    answers with these bytes; the versions of a package differ and are in
    order.  This is not said of [registry.json]: a save that stops half way
    leaves one with which the server does not start. *)
Theorem listed_archives_are_served s : reach s ->
  validate_registry_document (registry s) = Ok tt
  /\ forall package p, bt_get package (packages (registry s)) = Some p ->
     NoDup (version <$> versions p) /\ StronglySorted version_le (versions p)
     /\ forall x, x ∈ versions p -> exists bytes,
        archive_integrity (archive x) = bytes_integrity bytes
        /\ (artifact_response root ("/" ++ archive_path (archive x)) (mkState (registry s) (idempotency s) (files s) [])).1
            = Ok (mkResponse 200 ARCHIVE_MEDIA_TYPE (BytesBody bytes)).
Proof.
  intros [G1 _ _ _]%reach_good. split; [by apply (good_document_valid (files s))|]. intros package p Hp. destruct (bt_get_good _ _ _ _ G1 Hp) as [P1 _ P3 P4 P5].
  split; [done|]. split; [done|]. intros x Hx. rewrite list.Forall_forall in P5. destruct (P5 x Hx) as [V1 V2 _ (bytes & Hf & Hi) _ _ _].
  pose proof (version_parsed_text x V1) as Hv. exists bytes. split; [done|]. rewrite V2. destruct (archive_route package (version x) P1 Hv) as (E1 & E2 & E3).
  unfold artifact_response. rewrite E1, E2, E3. unfold archive_relative at 1.
  rewrite (artifact_path_valid package (version x) _ _ P1 Hv (archive_leaf _ _ P1 Hv)).
  unfold mthen, mtry, mself, mok, next_outcome. simpl. by rewrite Hf.
Qed.

(** The server works on or is started again. *)
Definition runs_on (s s' : ServerState) : Prop := step s s' \/ exists io, initial_state root io (files s) = Ok s'.

Lemma steps_good s s' : rtc step s s' -> good_state s -> good_state s' /\ evolves (registry s) (registry s').
Proof.
  induction 1 as [|s1 s2 s3 H12 _ IH]; [done|]. intros Hg. destruct (step_good _ _ Hg H12) as (Hg2 & He & _).
  destruct (IH Hg2) as [Hg3 He3]. split; [done|by etrans].
Qed.

Lemma runs_keep_files s s' : rtc runs_on s s' -> reach s -> kept root (files s) (files s').
Proof.
  induction 1 as [|s1 s2 s3 [H12|[io H12]] _ IH]; intros Hr; [by intros p b| |].
  - destruct (step_good _ _ (reach_good _ Hr) H12) as (_ & _ & Hk). eapply files_kept_trans; [exact Hk|]. by apply IH, (reach_step _ _ Hr).
  - assert (files s2 = files s1) as Hf by (unfold initial_state in H12; inv_ok; done).
    rewrite <- Hf. by apply IH, (reach_restart io _ _ Hr).
Qed.

(** C32: While the server runs, a published version stays as it was published:
    no steps of it remove or change the version, except that it may be marked
    as yanked, once; and no file below the root but the registry's own is
    removed or written again, not even when the server is started again.  A
    restart reads the registry from the disk: what was listed or yanked with a
    save that failed is not kept over it. *)
Theorem published_versions_stay s s' : reach s ->
  (rtc step s s' -> forall package p x, bt_get package (packages (registry s)) = Some p -> x ∈ versions p ->
   exists p' x', bt_get package (packages (registry s')) = Some p' /\ x' ∈ versions p'
     /\ version x' = version x /\ published_at x' = published_at x /\ archive x' = archive x /\ package_integrity x' = package_integrity x
     /\ provenance x' = provenance x /\ publisher x' = publisher x /\ (yanked x = true -> x' = x))
  /\ (rtc runs_on s s' -> forall path bytes, path <> state_path root -> files s !! path = Some bytes -> files s' !! path = Some bytes).
Proof.
  intros Hr. split; [|intros Hs path bytes; by apply (runs_keep_files s s')].
  intros Hs package p x Hp Hx. destruct (steps_good s s' Hs (reach_good _ Hr)) as [_ He].
  destruct (He _ _ Hp) as (p' & Hp' & Hx'). destruct (Hx' x Hx) as (x' & Hin & Hsame). by exists p', x'.
Qed.

(** The packages that a pattern is for. *)
Inductive covers : PublisherPattern -> string -> Prop :=
  | covers_all package : covers PublisherPattern.All package
  | covers_exact package : covers (PublisherPattern.Exact package) package
  | covers_scope scope name : covers (PublisherPattern.Scope scope) ("@" ++ scope ++ "/" ++ name).

Lemma matches_covers p package : pattern_matches p package = true -> covers p package.
Proof.
  destruct p as [|expected|scope]; simpl; [constructor|intros ->%String.eqb_eq; constructor|].
  destruct (strip_prefix "@" package) as [rest|] eqn:E; [|done]. apply strip_prefix_byte in E.
  unfold split_once. destruct (split_once_bytes "/" (as_bytes rest)) as [[x y]|] eqn:Es; [|done]. simpl. intros <-%String.eqb_eq.
  apply split_once_slash in Es. assert (package = ("@" ++ from_bytes x ++ "/" ++ from_bytes y)%string) as ->; [|constructor].
  rewrite <- (from_as_bytes package), E, Es. rewrite <- (from_as_bytes ("@" ++ _)%string). by rewrite !as_bytes_app, !as_from_bytes.
Qed.

Lemma find_policy_authorizes hash package known l p : find_policy hash package known l = Ok p ->
  exists policy, policy ∈ l /\ policy_token_hash policy = hash /\ covers (pattern policy) package.
Proof.
  revert known. induction l as [|policy l IH]; intros known; [by destruct known|]. simpl.
  destruct (String.eqb_spec (policy_token_hash policy) hash) as [E|_]; simpl.
  - destruct (pattern_matches (pattern policy) package) eqn:Em; [intros _; exists policy; split; [left|]; by split; [|apply matches_covers]|].
    intros (q & Hq & Hr)%IH. exists q. by split; [right|].
  - intros (q & Hq & Hr)%IH. exists q. by split; [right|].
Qed.

(** C33: A request that changes the registry, its files or its records was sent
    to a package's route with a token, and the server was started with the
    digest of this token for a pattern that the package is of; nothing
    changes about any other package. *)
Theorem only_publishers_write clock r s : reach s -> let s' := (handle clock r s).2 in
  registry s' = registry s /\ idempotency s' = idempotency s /\ files s' = files s
  \/ exists package headers token policy,
      written_package r = Some (package, headers) /\ authorization headers = Some ("Bearer " ++ token)%string /\ token <> ""%string
      /\ policy ∈ policies /\ policy_token_hash policy = bytes_integrity (as_bytes token) /\ covers (pattern policy) package
      /\ forall other, other <> package -> bt_get other (packages (registry s')) = bt_get other (packages (registry s)).
Proof.
  intros Hg%reach_good s'. destruct (handle_cases clock r s Hg) as [Hd|(package & headers & p & Hw & Ha & _ & [_ _ Hc])]; [by left|right].
  unfold authenticate in Ha. destruct policies as [|q l]; [done|]. inv_ok. unfold bearer_token in *.
  destruct (authorization headers) as [header|] eqn:Eh; [|done]. destruct (strip_prefix "Bearer " header) as [token|] eqn:Et; [|done].
  destruct (String.eqb_spec token "") as [|Hne]; [done|]. inv_ok. apply find_policy_authorizes in Ha as (policy & Hp & Hh & Hcov).
  eexists package, headers, _, policy. split; [done|]. split; [|done]. apply strip_prefix_text in Et. by rewrite <- Et.
Qed.

(** *** A request sent again *)

(** There is room for a record. *)
Definition has_room (s : ServerState) : Prop := (N.of_nat (length (idempotency s)) < MAX_IDEMPOTENCY_RECORDS)%N.

Definition keeps_records {A : Type} (m : server A) : Prop := forall s, idempotency (m s).2 = idempotency s.

Lemma keeps_then {A B : Type} (m : server A) (k : A -> server B) : keeps_records m -> (forall a, keeps_records (k a)) -> keeps_records (mthen m k).
Proof.
  intros Hm Hk s. unfold mthen. specialize (Hm s). destruct (m s) as [[a|e| |] s1]; simpl in *; [|done..]. by rewrite Hk.
Qed.

Lemma keeps_try {A : Type} (r : http A) : keeps_records (mtry r). Proof. done. Qed.
Lemma keeps_ok {A : Type} (a : A) : keeps_records (mok a). Proof. done. Qed.
Lemma keeps_self : keeps_records mself. Proof. done. Qed.
Lemma keeps_files f : keeps_records (mset (fun s => set_files (f s) s)). Proof. done. Qed.
Lemma keeps_package package p : keeps_records (mset (set_package package p)). Proof. done. Qed.
Lemma keeps_outcome : keeps_records next_outcome. Proof. by intros [d i f [|o l]]. Qed.

Ltac keeps :=
  repeat first [apply keeps_try | apply keeps_ok | apply keeps_self | apply keeps_files | apply keeps_package | apply keeps_outcome
               | apply keeps_then; [|intros ?] | case_match].

Lemma keeps_create_dir path : keeps_records (create_dir_all path). Proof. unfold create_dir_all, fail. keeps. Qed.
Lemma keeps_write_all path bytes : keeps_records (write_all path bytes).
Proof. unfold write_all, fail. keeps; try apply (keeps_files (fun s => <[_:=_]> (files s))). Qed.
Lemma keeps_write_new path bytes : keeps_records (write_new_file path bytes).
Proof.
  unfold write_new_file, open_new, fail. apply keeps_then; [case_match; [apply keeps_create_dir|done]|intros _].
  apply keeps_then; [keeps; apply (keeps_files (fun s => <[_:=_]> (files s)))|intros _; apply keeps_write_all].
Qed.
Lemma keeps_optional package v version_root upload : keeps_records (write_optional_publish_artifacts root package v version_root upload).
Proof. unfold write_optional_publish_artifacts. repeat first [apply keeps_write_new | apply keeps_create_dir | progress keeps]. Qed.
Lemma keeps_save d : keeps_records (save_registry root d).
Proof. unfold save_registry, fail. case_match; [apply keeps_write_all|apply keeps_try]. Qed.
Lemma keeps_entry package : keeps_records (package_entry package). Proof. unfold package_entry. keeps. Qed.

(** What the method returns is in the record of the request. *)
Definition leaves_record (key hash m p d : string) (c : server StoredHttpResponse) : Prop := forall s r s',
  has_room s -> c s = (Ok r, s') -> exists ms, bt_get key (idempotency s') = Some (mkRecord hash m p d ms r).

Lemma leaves_then {A : Type} key hash m p d (c : server A) k :
  keeps_records c -> (forall a, leaves_record key hash m p d (k a)) -> leaves_record key hash m p d (mthen c k).
Proof.
  intros Hc Hk s r s' Hs. unfold mthen. specialize (Hc s). destruct (c s) as [[a|e| |] s1]; simpl in *; [|done..].
  apply Hk. unfold has_room. by rewrite Hc.
Qed.

Lemma leaves_fail key hash m p d e : leaves_record key hash m p d (fail e). Proof. done. Qed.

Lemma leaves_store clock key hash m p d r : leaves_record key hash m p d (mthen (store_idempotency clock key hash m p d r) (fun _ => mok r)).
Proof.
  intros s r' s' Hs. unfold store_idempotency, mthen, mset, mself, mtry, mok. simpl. unfold has_room in Hs.
  match goal with |- context [prune_idempotency_records ?x] => assert (prune_idempotency_records x = Ok x) as -> end.
  { apply prune_small. pose proof (bt_insert_length key (mkRecord hash m p d (now_ms clock) r) (idempotency s)). lia. }
  simpl. intros [= <- <-]. exists (now_ms clock). simpl. by rewrite bt_get_insert, String.eqb_refl.
Qed.

Lemma commit_publish_record clock job :
  leaves_record (job_key job) (publisher_token_hash (job_publisher job)) "PUT" (version_route (job_package job) (job_version job)) (digest (job_upload job))
    (commit_publish root clock job).
Proof.
  unfold commit_publish. apply leaves_then; [apply keeps_entry|intros entry]. case_match; [apply leaves_store|].
  apply leaves_then; [apply keeps_create_dir|intros _]. apply leaves_then; [apply keeps_write_new|intros _].
  apply leaves_then; [apply keeps_optional|intros prov]. apply leaves_then; [apply keeps_try|intros l].
  apply leaves_then; [apply keeps_package|intros _]. apply leaves_then; [apply keeps_self|intros s]. apply leaves_then; [apply keeps_save|intros _].
  apply leaves_store.
Qed.

Lemma commit_yank_record clock job :
  leaves_record (yank_key job) (publisher_token_hash (yank_publisher job)) "POST" (yank_route (yank_package job) (yank_version_text job)) (bytes_integrity [])
    (commit_yank root clock job).
Proof.
  unfold commit_yank. apply leaves_then; [apply keeps_self|intros s]. case_match; [|apply leaves_fail]. case_match; [|apply leaves_fail].
  apply leaves_then; [apply keeps_package|intros _]. apply leaves_then; [apply keeps_self|intros ?].
  apply leaves_then; [case_match; [apply keeps_save|apply keeps_ok]|intros _]. apply leaves_store.
Qed.

Lemma replay_hit key hash m p d s ms r : bt_get key (idempotency s) = Some (mkRecord hash m p d ms r) ->
  idempotency_replay key hash m p d s = (Ok (Some r), s).
Proof. intros E. unfold idempotency_replay, mthen, mself. rewrite E. unfold same_request. simpl. by rewrite !String.eqb_refl. Qed.

Lemma replay_some key hash m p d s r : bt_get key (idempotency s) = Some r -> idempotency_replay key hash m p d s =
  ((if same_request r hash m p d then Ok (Some (response r)) else Err replay_error), s).
Proof. intros E. unfold idempotency_replay, mthen, mself. rewrite E. by destruct (same_request _ _ _ _ _). Qed.

Lemma replay_none key hash m p d s : bt_get key (idempotency s) = None -> idempotency_replay key hash m p d s = (Ok None, s).
Proof. intros E. unfold idempotency_replay, mthen, mself. by rewrite E. Qed.

(** A response that was given is given again. *)
Lemma replayed_response key hash m p d (commit commit' : server StoredHttpResponse) s r s' : has_room s -> leaves_record key hash m p d commit ->
  (let^ replay := idempotency_replay key hash m p d in match replay with Some r => mok r | None => commit end) s = (Ok r, s') ->
  (let^ replay := idempotency_replay key hash m p d in match replay with Some r => mok r | None => commit' end) s' = (Ok r, s').
Proof.
  intros Hs Hl. unfold mthen at 1. destruct (bt_get key (idempotency s)) as [rec|] eqn:E.
  - rewrite (replay_some _ _ _ _ _ _ _ E). destruct (same_request _ _ _ _ _) eqn:Er; [|done]. intros [= <- <-].
    unfold mthen. by rewrite (replay_some _ _ _ _ _ _ _ E), Er.
  - rewrite (replay_none _ _ _ _ _ _ E). intros Hc. destruct (Hl s r s' Hs Hc) as [ms Hm]. unfold mthen. by rewrite (replay_hit _ _ _ _ _ _ _ _ Hm).
Qed.

(** C35: A publication or a yanking that was answered with a recorded answer (a
    success, or the conflict of a version that is published already; the other
    errors leave no record) is answered the same when the same request is sent again, at
    whatever time, to the server as the first left it, and nothing is done a
    second time.  Room for one record has to be left; after other writes, or
    when the two are handled at the same time, the answer may differ. *)
Theorem repeated_request_is_answered_again clock clock' r s answer s' : is_Some (written_package r) ->
  (N.of_nat (length (idempotency s)) < MAX_IDEMPOTENCY_RECORDS)%N -> handle clock r s = (Ok answer, s') -> handle clock' r s' = (Ok answer, s').
Proof.
  intros Hw Hs. destruct r as [| | | |package v headers fields|package v headers|]; try (by destruct Hw); cbn [handle_request].
  - unfold publish_version_inner. destruct (prepare_publish _ _ _ _ _ _) as [job|e| |] eqn:Hj; [|done..].
    destruct (prepared_good _ _ _ _ _ Hj) as (_ & Ep & Ev). unfold mthen at 1 3, mtry.
    apply (replayed_response _ _ _ _ _ (commit_publish root clock job)); [done|]. pose proof (commit_publish_record clock job) as Hl. by rewrite Ep, Ev in Hl.
  - unfold yank_version_inner. destruct (prepare_yank _ _ _ _) as [job|e| |] eqn:Hj; [|done..]. unfold mthen at 1 3, mtry.
    apply (replayed_response _ _ _ _ _ (commit_yank root clock job)); [done|]. pose proof (commit_yank_record clock job) as Hl.
    rewrite (prepared_yank_package _ _ _ _ Hj) in Hl. unfold prepare_yank in Hj. inv_ok. exact Hl.
Qed.

(** C36: When the server has answered a publication with success, it serves this
    version, with the digest of the archive that was sent; and if it stops
    now, the registry that the next start reads is the one that it has. *)
Theorem acknowledged_version_survives clock package v headers fields job s r s' : reach s ->
  prepare_publish depth policies package v headers fields = Ok job -> commit_publish root clock job s = (Ok r, s') -> status r = 200%N ->
  initial_state root IoDone (files s') = Ok (mkState (registry s') [] (files s') [])
  /\ exists p x, bt_get package (packages (registry s')) = Some p /\ x ∈ versions p /\ version x = v
     /\ archive_integrity (archive x) = bytes_integrity (archive_bytes (job_upload job)).
Proof.
  intros Hg%reach_good Hj Hc Hr. destruct (prepared_good _ _ _ _ _ Hj) as (Gj & Ep & Ev). pose proof (commit_publish_does clock job s Hg Gj) as Hd.
  unfold does in Hd. rewrite Hc in Hd. destruct Hd as [[[H409 _]|(_ & Hl & Hx)] _]; [congruence|]. unfold initial_state. rewrite Hl. split; [done|].
  by rewrite Ep, Ev in Hx.
Qed.
End Registry.

(** ** A registry that publishes one package *)

#[export] Instance StoredArchive_eq : EqDecision StoredArchive. Proof. solve_decision. Defined.
#[export] Instance StoredProvenance_eq : EqDecision StoredProvenance. Proof. solve_decision. Defined.
#[export] Instance StoredVersion_eq : EqDecision StoredVersion. Proof. solve_decision. Defined.
#[export] Instance StoredPackage_eq : EqDecision StoredPackage. Proof. solve_decision. Defined.
#[export] Instance RegistryDocument_eq : EqDecision RegistryDocument. Proof. solve_decision. Defined.

Module Hosted.
(** The last bytes, filled up. *)
#[export] Instance digest32 : Sha256 := fun l => take 32 (reverse l ++ repeat nul 32).

Definition is_version (v : string) : bool :=
  forallb version_byte (as_bytes v) && match as_bytes v with b :: _ => is_ascii_digit b | [] => false end.

(** Versions by the value of their bytes. *)
Definition version_value (v : string) : N := foldl (fun n b => (n * 256 + byte_val b)%N) 0%N (as_bytes v).

#[export] Instance semver : Semver := {|
  Version := N;
  parse_version v := if is_version v then inl (version_value v) else inr [Lit "unexpected character"];
  compare_versions := N.compare |}.

#[export] Instance semver_laws : SemverLaws.
Proof.
  split.
  - intros a b. apply N.compare_antisym.
  - intros a b c. simpl. rewrite !N.compare_le_iff. lia.
  - intros v p. simpl. unfold is_version, version_text. destruct (forallb version_byte (as_bytes v)) eqn:E; [|done].
    intros Hp. split; [apply list.Forall_forall; intros b Hb; rewrite forallb_forall in E; by apply E, list_elem_of_In|].
    destruct (as_bytes v) as [|b rest]; [done|]. destruct (is_ascii_digit b) eqn:Ed; [|done]. by exists b, rest.
Qed.

Definition archive_data : list byte := as_bytes "archive".
Definition package_digest : string :=
  Eval vm_compute in bytes_integrity (integrity_input [("ricochet.toml"%string, as_bytes "manifest")]).
Definition archive_digest : string := Eval vm_compute in bytes_integrity archive_data.

Definition meta : PublishMetadata := mkMetadata PROTOCOL "@team/demo" "1.0.0" package_digest archive_digest None None None.

(** The registry after the publication, and after its version was yanked. *)
Definition stored (yanked : bool) (at_ by_ : option string) : RegistryDocument :=
  mkDocument PROTOCOL [("@team/demo"%string, mkStoredPackage "@team/demo"
    [mkStoredVersion "1.0.0" "day 1" yanked (mkArchive "artifacts/@team/demo/1.0.0/demo-1.0.0.tar.gz" archive_digest ARCHIVE_MEDIA_TYPE)
      package_digest None (Some "team") at_ by_])].

Definition first_text : string := "{one}".
Definition yanked_text : string := "{two}".

#[export] Instance format : RegistryFormat := {|
  registry_to_string_pretty d :=
    if decide (d = stored false None None) then inl first_text
    else if decide (d = stored true (Some "day 2"%string) (Some "team"%string)) then inl yanked_text else inr [];
  registry_from_str t :=
    if String.eqb t first_text then inl (stored false None None)
    else if String.eqb t yanked_text then inl (stored true (Some "day 2"%string) (Some "team"%string)) else inr [Lit "EOF while parsing"];
  publish_metadata_from_slice bytes := if decide (bytes = as_bytes "metadata") then inl meta else inr [Lit "expected value"] |}.

Lemma short_prefix p t : p `prefix_of` as_bytes t -> p <> as_bytes t -> length p < String.length t.
Proof. intros Hp Hn. pose proof (prefix_length _ _ Hp). rewrite length_as_bytes in *. destruct (decide (length p = String.length t)); [|lia]. destruct Hn. by apply prefix_length_eq; [|rewrite length_as_bytes; lia]. Qed.

#[export] Instance format_laws : RegistryFormatLaws.
Proof.
  split; intros d t; simpl.
  - destruct (decide _); [intros [= <-]; by eexists|]. destruct (decide _); [intros [= <-]; by eexists|done].
  - destruct (decide _) as [->|]; [intros [= <-]; done|]. destruct (decide _) as [->|]; [intros [= <-]; done|done].
  - intros p Ht Hp Hn. pose proof (short_prefix p t Hp Hn) as Hs. assert (String.length t = 5) as Hl.
    { destruct (decide _); [by injection Ht as <-|]. destruct (decide _); [by injection Ht as <-|done]. }
    assert (forall x, String.length x = 5 -> String.eqb (from_bytes p) x = false) as Hx.
    { intros x Hx. apply String.eqb_neq. intros <-. rewrite <- length_as_bytes, as_from_bytes in Hx. lia. }
    rewrite !Hx by done. by eexists.
Qed.

(** Every manifest is that of the package. *)
#[export] Instance toml : TomlEdit := {|
  TomlDocument := unit; TomlItem := option string; TomlTable := unit;
  parse_document _ := inl tt;
  document_get _ key := if String.eqb key "package" then Some None else None;
  item_as_table i := match i with None => Some tt | Some _ => None end;
  table_get _ key := if String.eqb key "name" then Some (Some "@team/demo"%string) else if String.eqb key "version" then Some (Some "1.0.0"%string) else None;
  item_as_str i := i |}.

#[export] Instance reader : ArchiveReader := fun bytes =>
  if decide (bytes = archive_data) then inl [inl (mkEntry EntryRegular (inl "ricochet.toml"%string) (inl 8%N) (inl (as_bytes "manifest")))]
  else inr [Lit "invalid gzip header"].

Fixpoint written (path : string) (l : list TempCommand) : option (list byte) :=
  match l with
  | [] => None
  | WriteAll p bytes :: l' => if String.eqb p path then Some bytes else written path l'
  | _ :: l' => written path l'
  end.

#[export] Instance temp : TempDirs := {|
  temp_dir := inl "/tmp/rco"%string;
  temp_exists _ _ := false;
  temp_failure _ _ := None;
  temp_files l := {|
    canonicalize p := inl p;
    is_file p := match written p l with Some _ => true | None => false end;
    is_dir p := match written p l with Some _ => false | None => true end;
    read_to_string p := match written p l with Some b => inl (from_bytes b) | None => inr [Lit "not found"] end;
    RustPath.read p := match written p l with Some b => inl b | None => inr [Lit "not found"] end;
    read_dir p := inl (omap (fun c => match c with WriteAll q _ => Some (inl q) | _ => None end) l);
    symlink_metadata p := inl FileType.File |} |}.

Definition policies : list PublisherPolicy := [mkPolicy (PublisherPattern.Scope "team") (bytes_integrity (as_bytes "secret")) "team"].
Definition headers (key : string) : HeaderMap := mkHeaders (Some "Bearer secret"%string) (Some key).
Definition part (name type : string) (bytes : list byte) : Field + msg := inl (mkField (Some name) (Some type) (inl bytes)).
Definition fields : list (Field + msg) := [part "metadata" PUBLISH_MEDIA_TYPE (as_bytes "metadata"); part "archive" ARCHIVE_MEDIA_TYPE archive_data].

Definition start (l : list IoOutcome) : ServerState := mkState default_document [] ∅ l.
Definition publish (key : string) : Request := PublishVersion "@team/demo" "1.0.0" (headers key) fields.
Definition yank (key : string) : Request := YankVersion "@team/demo" "1.0.0" (headers key).
Abbreviation run day := (handle_request 3 "/srv" "https://registry" policies (mkClock day 1)).

Example publish_succeeds : exists answer, fst (run "day 1" (publish "k1") (start [])) = Ok answer /\ status answer = 200%N
  /\ registry (run "day 1" (publish "k1") (start [])).2 = stored false None None.
Proof. eexists. vm_compute. done. Qed.
End Hosted.

Module HostedExamples.
Import Hosted.

(** A publication whose registry could not be written is refused, but listed
    from then on: the request sent again is told that the version exists.
    After the next start the version is gone, and since its archive is there,
    it can never be published. *)
Definition full_disk : list IoOutcome := [IoDone; IoDone; IoDone; IoDone; IoFails "No space left on device"].
Definition refused : ServerState := (run "day 1" (publish "k1") (start full_disk)).2.

Definition answer_status (r : res RegistryHttpError StoredHttpResponse) : option N :=
  match r with Ok a => Some (status a) | Err e => Some (error_status e) | _ => None end.

Example refused_but_listed :
  answer_status (run "day 1" (publish "k1") (start full_disk)).1 = Some 500%N
  /\ registry refused = stored false None None
  /\ answer_status (run "day 1" (publish "k1") refused).1 = Some 409%N.
Proof. vm_compute. done. Qed.

Example never_published :
  match initial_state "/srv" IoDone (files refused) with
  | Ok s => registry s = default_document /\ answer_status (run "day 1" (publish "k2") s).1 = Some 500%N
  | _ => False
  end.
Proof. vm_compute. done. Qed.

(** A registry's file that was not written to its end is not read again. *)
Example cut_registry :
  match initial_state "/srv" IoDone (files (run "day 1" (publish "k1") (start [IoDone; IoDone; IoDone; IoDone; IoPartial 2 "I/O error"])).2) with
  | Err _ => True
  | _ => False
  end.
Proof. vm_compute. done. Qed.

(** Two requests with the same key that were both checked before one of them
    was finished: the record of the one that published is replaced. *)
Definition job : PublishJob :=
  match prepare_publish 3 policies "@team/demo" "1.0.0" (headers "k1") fields with
  | Ok j => j
  | _ => mkJob "" "" (mkPublisher "" "") (mkUpload meta [] None None "") ""
  end.

Example replaced_record :
  let first := commit_publish "/srv" (mkClock "day 1" 1) job (start []) in
  let second := commit_publish "/srv" (mkClock "day 1" 1) job first.2 in
  answer_status first.1 = Some 200%N /\ answer_status second.1 = Some 409%N
  /\ answer_status (run "day 1" (publish "k1") first.2).1 = Some 200%N
  /\ answer_status (run "day 1" (publish "k1") second.2).1 = Some 409%N.
Proof. vm_compute. done. Qed.

(** *** The properties at this registry *)

Definition served : ServerState := (run "day 1" (publish "k1") (start [])).2.

Lemma reached : reach 3 "/srv" "https://registry" policies served.
Proof. eapply reach_step; [by apply (reach_start _ _ _ _ ∅ [])|]. apply step_request. Qed.

Lemma listed_archives_are_served_witness :
  exists bytes p, bt_get "@team/demo" (packages (registry served)) = Some p /\ (version <$> versions p) = ["1.0.0"%string]
  /\ (artifact_response "/srv" "/artifacts/@team/demo/1.0.0/demo-1.0.0.tar.gz" (mkState (registry served) (idempotency served) (files served) [])).1
     = Ok (mkResponse 200 ARCHIVE_MEDIA_TYPE (BytesBody bytes)).
Proof.
  destruct (listed_archives_are_served 3 "/srv" "https://registry" policies served reached) as [_ Hp].
  assert (exists p, bt_get "@team/demo" (packages (registry served)) = Some p /\ (version <$> versions p) = ["1.0.0"%string]
    /\ exists x, x ∈ versions p /\ archive_path (archive x) = "artifacts/@team/demo/1.0.0/demo-1.0.0.tar.gz"%string) as (p & E & Hv & x & Hx & Ha).
  { eexists. split; [vm_compute; reflexivity|]. split; [reflexivity|]. eexists. split; [left|reflexivity]. }
  destruct (Hp _ _ E) as (_ & _ & Hs). destruct (Hs x Hx) as (bytes & _ & Hr). rewrite Ha in Hr.
  exists bytes, p. exact (conj E (conj Hv Hr)).
Defined.

Lemma published_versions_stay_witness :
  exists p' x', bt_get "@team/demo" (packages (registry (run "day 2" (yank "k2") served).2)) = Some p' /\ x' ∈ versions p' /\ version x' = "1.0.0"%string /\ published_at x' = "day 1"%string.
Proof.
  destruct (published_versions_stay 3 "/srv" "https://registry" policies served (run "day 2" (yank "k2") served).2 reached) as [Hp _].
  destruct (Hp (rtc_once _ _ (step_request _ _ _ _ _ _ _)) "@team/demo"%string (mkStoredPackage "@team/demo" (versions (default (mkStoredPackage "" []) (bt_get "@team/demo" (packages (registry served))))))
    (mkStoredVersion "1.0.0" "day 1" false (mkArchive "artifacts/@team/demo/1.0.0/demo-1.0.0.tar.gz" archive_digest ARCHIVE_MEDIA_TYPE) package_digest None (Some "team"%string) None None))
    as (p' & x' & H1 & H2 & H3 & H4 & _); [vm_compute; reflexivity|vm_compute; left|].
  exists p', x'. exact (conj H1 (conj H2 (conj H3 H4))).
Defined.

Lemma only_publishers_write_witness :
  exists token policy, policy ∈ policies /\ policy_token_hash policy = bytes_integrity (as_bytes token) /\ covers (pattern policy) "@team/demo".
Proof.
  destruct (only_publishers_write 3 "/srv" "https://registry" policies (mkClock "day 1" 1) (publish "k1") (start []))
    as [(Hr & _)|(package & headers & token & policy & Hw & _ & _ & H1 & H2 & H3 & _)].
  - by apply (reach_start _ _ _ _ ∅ []).
  - by vm_compute in Hr.
  - injection Hw as <- <-. by exists token, policy.
Defined.

Lemma repeated_request_is_answered_again_witness : exists answer s', status answer = 200%N
  /\ run "day 1" (publish "k1") (start []) = (Ok answer, s') /\ run "day 9" (publish "k1") s' = (Ok answer, s').
Proof.
  destruct (run "day 1" (publish "k1") (start [])) as [r s'] eqn:E. assert (exists a, r = Ok a /\ status a = 200%N) as (a & -> & Ha).
  { change r with (r, s').1. rewrite <- E. eexists. split; vm_compute; reflexivity. }
  exists a, s'. split; [done|]. split; [done|].
  apply (repeated_request_is_answered_again 3 "/srv" "https://registry" policies (mkClock "day 1" 1) (mkClock "day 9" 1) (publish "k1") (start [])); [by eexists|done|exact E].
Defined.

Lemma acknowledged_version_survives_witness : exists s',
  initial_state "/srv" IoDone (files s') = Ok (mkState (registry s') [] (files s') []) /\ registry s' = stored false None None.
Proof.
  destruct (commit_publish "/srv" (mkClock "day 1" 1) job (start [])) as [r s'] eqn:E. assert (exists a, r = Ok a /\ status a = 200%N) as (a & -> & Ha).
  { change r with (r, s').1. rewrite <- E. eexists. split; vm_compute; reflexivity. }
  exists s'. split; [|change s' with (Ok (E := RegistryHttpError) a, s').2; rewrite <- E; vm_compute; reflexivity].
  apply (acknowledged_version_survives 3 "/srv" "https://registry" policies (mkClock "day 1" 1) "@team/demo" "1.0.0" (headers "k1") fields job (start []) a s');
    [by apply (reach_start _ _ _ _ ∅ [])|vm_compute; reflexivity|exact E|exact Ha].
Defined.
End HostedExamples.
